(* ===== verification/_CoqProject ===== *)
-Q . S2P
Prelude.v
Utf8Scalar.v
Utf8Simd.v
Utf8Lookup.v
Utf8SimdCorrect.v
Utf8Arch.v
FidlTypes.v
FidlWalker.v
FidlHandles.v
FidlDecoder.v
FidlSpec.v
FidlWalkerCorrect.v
FidlDecoderCorrect.v
FidlTheorems.v
Wavl.v
WavlSpec.v
WavlLogic.v
WavlInsert.v
WavlQuery.v
WavlErase.v
WavlWhole.v
WavlTheorems.v
FidlStatus.v
Client.v
ClientCorrect.v
ClientRuns.v
ClientWavl.v
ClientTheorems.v
Binding.v
BindingCorrect.v
BindingTheorems.v
Timeline.v
TimelineTheorems.v
FileLock.v
FileLockTheorems.v
CleanPath.v
CleanPathTheorems.v
OrderedMap.v
Vnode.v
VnodeTree.v
VnodeUnlink.v
Namespace.v
NamespaceSpec.v
NamespaceInv.v
NamespaceCorrect.v
NamespaceRoot.v
NamespaceExport.v
NamespaceLaws.v
NamespaceCalls.v
NamespaceTheorems.v
Scheduler.v
SchedulerCorrect.v
Executor.v
ExecutorCorrect.v
ExecutorTheorems.v
SuspendedTask.v
SuspendedTaskTheorems.v
Scope.v
ScopeInv.v
ScopeSteps.v
ScopeTheorems.v
Bridge.v
BridgeTheorems.v
Syslog.v
SyslogSpec.v
SyslogCorrect.v
SyslogRoundtrip.v
FdTable.v
FdTableInv.v
FdTableOps.v
FdTableSpec.v
FdTableSim.v
FdTableTheorems.v
Cwd.v
CwdTheorems.v
CwdPaths.v
FidlFormat.v
FidlFormatTheorems.v
EventTimer.v
EventTimerTheorems.v
