(* ===== verification/Prelude.v ===== *)
(** * Verification of the Fuchsia SDK libraries

    The repository (src/) is a collection of the libraries of the Fuchsia SDK.  Most of
    it is glue around services and generated code that live elsewhere; this development
    verifies the parts that carry algorithms of their own and that every FIDL message
    and every FIDL client passes through.

    ** The parts and how they interact

    - utf-utils validates UTF-8.  The FIDL decoder calls it on every string.
    - fidl_base walks a message along its coding table, decodes it in place or
      validates it, and keeps track of the kernel handles that travel with it.  It also
      formats the names of types.
    - fidl/cpp/wire/internal/intrusive_container is the intrusive balanced tree (WAVL)
      in which a FIDL client keeps the transactions that wait for a reply.
    - fidl/cpp/wire has the client on top of the tree (client_base), the binding that
      connects a client or a server to a dispatcher (async_binding), and the statuses
      they exchange (status).  The binding hands messages to the client and tells it of
      the teardown; the client asks the binding for its transport and reports errors.
    - media/cpp has rates and linear functions of time for media clocks; file-lock has the
      lock that the clients of one file share; fdio/cleanpath resolves the dots of a path
      name before fdio looks it up.  The first two stand on their own.
    - fdio/namespace is the local namespace of fdio: a tree of vnodes in which paths are
      bound to remote directories and local files.  Its C calls clean their paths with
      cleanpath.
    - fdio/fdio_slot, fdio_unistd, unistd, fd, fdio and bsdsocket share the descriptor table
      of the process: slots with counted references to the objects behind descriptors, the
      current directory and the root.  unistd also keeps the name of the current directory
      and turns the paths of calls into requests to a directory, with cleanpath.  event and
      timer are two kinds of object that a descriptor can stand for.
    - fit-promise runs promises: a scheduler with reference-counted tickets, an executor
      with its dispatcher around it, the suspended tasks that hold the tickets, bridges
      between a completer and a consumer, and scopes that own the promises they wrap.
    - syslog/structured_backend encodes log records into a fixed buffer and writes them to
      a socket.

    ** Files

    - Prelude (this file): machine integers ([wrap], [⊕[w]]), little-endian byte
      buffers with checked accesses ([load], [store]), and the state monad [ST] in which
      a step can be undefined ([None]), with its weakest-precondition rules.
    - Utf8Scalar: RFC 3629 as an inductive grammar and as an encoding of Unicode scalar
      values; the scalar validator of internal/scalar.cc ([IsValidUtf8Scalar]).
    - Utf8Simd: the generic SIMD algorithm of internal/generic-simd.h over the class
      [ArchImpl] (the skeleton its comment documents) and its laws [ArchImplLaws].
    - Utf8Lookup: the lookup tables as an automaton; a finite check over byte classes.
    - Utf8SimdCorrect: the SIMD validator against the grammar.
    - Utf8Arch: x86-ssse3.h, x86-avx2.h and arm-neon.h, instances of [ArchImpl] that keep
      the laws, and the entry points of utf-utils.cc.
    - FidlTypes: coding tables and helpers of fidl_base/include/lib/fidl/internal.h and
      internal.c; the ABI constants of headers outside src/ are the class [FidlAbi].
    - FidlWalker: walker.h over the visitor interface of visitor.h.
    - FidlHandles: the handle routines of internal.c and handle_close_many.cc over a
      kernel that is a parameter (class [Zircon], with [ZirconLaws] for what its
      documentation promises and [ToyKernel] as an instance).
    - FidlDecoder: decoding_and_validating.cc, both modes and every entry point.
    - FidlSpec: what a well-formed message is: the grammar [conforms], which relates a
      type, a position and the bytes to the list of patches that decoding applies.
    - FidlWalkerCorrect, FidlDecoderCorrect: the walker with the decoder as visitor
      implements the grammar.  FidlTheorems: the promises of the entry points.
    - Wavl: wavl_tree.h, every operation, on a heap of node states; a pointer is [Null],
      a [Sentinel] of a tree or an [Obj].
    - WavlSpec: ordered sets as sorted lists, WAVL trees as inductive trees with ranks,
      and the relation [holds] between a heap and a list of objects.
    - WavlLogic: focusing on a place of the tree, reads and writes through links, and
      rotations.  WavlInsert, WavlQuery, WavlErase, WavlWhole: one group of operations
      each.  WavlTheorems: the refinement of the ordered set.
    - FidlStatus: status.h and the classification of errors of status.cc.
    - Client: client_base.cc, over the interfaces [ContextSet] (the tree) and [ListNode]
      (<zircon/listnode.h>, outside the repository), with a log of what it tells whom.
    - ClientCorrect: the invariant [inv] and what each operation does to it.
      ClientRuns: runs of a client with the tasks of its dispatcher, and the accounting of
      calls.  ClientWavl: the WAVL tree implements [ContextSet], and a model of
      [ListNode].  ClientTheorems: the promises of the client, and where they break.
    - Binding: async_binding.cc and [SyncTransaction] of async_transaction.cc as a
      transition system; a step is a critical section or another atomic action of one
      thread, and [owed] is what the dispatcher, the waiter and the users promise.
    - BindingCorrect: exactly one party is in charge of a binding at any time ([Inv]), and
      the reason for the teardown is stable ([recorded]).  BindingTheorems: exclusion,
      progress and what a weak reference finds.
    - Timeline: timeline_rate.cc and timeline_function.cc with the inline functions of their
      headers.  TimelineTheorems: gcd and division on the integers against them.
    - FileLock: file-lock.cc; the state is the members of the class, and an operation
      returns the calls of completers it makes.  FileLockTheorems: its invariant and runs.
    - CleanPath: cleanpath.cc over the class [StringBuffer] (fbl::StringBuffer, outside the
      repository, with [StringBufferLaws]).  CleanPathTheorems: resolution on lists of path
      elements ([clean]), and a buffer that keeps the laws.
    - OrderedMap: ordered containers as lists in key order, shared by the vnodes and the
      scheduler.
    - Vnode: local-vnode.cc and .h, the nodes as a store with parents and two containers of
      children.  VnodeTree, VnodeUnlink: the invariant of the tree, and what
      taking nodes out and putting them in does to it.
    - Namespace: local-filesystem.cc and the calls of namespace.cc.  NamespaceSpec: the
      abstract namespace, a finite map from lists of names to bindings.  NamespaceInv,
      NamespaceCorrect, NamespaceRoot, NamespaceExport, NamespaceLaws,
      NamespaceCalls: walking, binding and unbinding, changing the root, the flat
      namespace, the order of names, the laws of the map, and the C calls.
      NamespaceTheorems: the refinement and the promises of the calls.
    - Scheduler: scheduler.cc of fit-promise.  SchedulerCorrect: its contract [sched_ok],
      which counts the references of each ticket.
    - Executor: single_threaded_executor.cc; [exec_event] is the step relation of the
      threads around the dispatcher.  ExecutorCorrect: the invariant [inv].
      ExecutorTheorems: safety, conservation of tasks, wakeups and lifetime.
    - SuspendedTask: suspended_task of promise.cc over the class [Resolver], with
      [ResolverLaws].  SuspendedTaskTheorems: the accounting of tickets, and the executor as
      an instance.
    - Scope: scope.cc and scope.h; [exec_scope] has a step for each access to the atomic
      counter.  ScopeInv, ScopeSteps: the linked list of holders, the
      invariant [winv] and the steps.  ScopeTheorems: safety and lifetime.
    - Bridge: bridge_internal.h; [exec_bridge] has a step for each locked region, each
      notification and each dropped reference.  BridgeTheorems: delivery, wakeups, safety.
    - Syslog: fuchsia_syslog.cc, offsets, buffer, encoder and [LogBuffer].  SyslogSpec: the
      format of log records, as an encoding and as a decoder.  SyslogCorrect:
      the buffer holds the encoding of what was appended.
      SyslogRoundtrip: decoding, and the promises of a logged record.
    - FdTable: the slots and every routine that changes them, with the references that calls
      and users hold; the counter of fbl, outside the repository, is a class with laws.  A
      step is a locked region, a look at a count, a use of a last reference or a dropped
      pointer of some thread.  FdTableInv, FdTableOps: counts are the
      references there are, by operation and along runs.  FdTableSpec: a table without
      counts.  FdTableSim: the simulation and its start.  FdTableTheorems: the
      refinement, objects closed once, and accept4.
    - Cwd: the current directory by name and the paths of requests, of unistd.cc, over the
      classes [StringBuffer] and [MutableBuffer].  CwdTheorems: names tracked through
      chdir.  CwdPaths: chroot, realpath and the calls that open a path.
    - EventTimer: event.cc, timer.cc and iovec.cc of fdio, over the arithmetic of zx::time
      (class [ZxTime], with laws).  EventTimerTheorems: the abstract counter and the
      expirations of a timer.
    - FidlFormat: formatting.cc of fidl_base.  FidlFormatTheorems: a grammar of type names
      ([type_name]) and what of a name is in a buffer of any size ([shown]).

    ** What the theorems show

    - UTF-8: the scalar and the SIMD validators return, read nothing outside the buffer
      and accept exactly the encodings of sequences of Unicode scalar values; the three
      back ends and the scalar fallback agree.
    - FIDL: validation accepts exactly the messages of the grammar; decoding returns,
      stays inside the message and the handle table, accepts nothing validation rejects,
      leaves pointers that are safe to follow, and closes every handle when it fails.
    - Handles: checking rights and converting dispositions neither leak nor duplicate
      handles; the null error pointer of the conversion is shown to be dereferenced.
    - WAVL: every operation preserves order, the rank rules and the sentinels, no
      assertion fails, and every run of operations is a run of an ordered set; find is
      logarithmic.
    - Client: transaction ids are fresh and minting ends; replies reach the call they
      answer; every call is told its outcome exactly once when the client's operations do
      not overlap.  Three theorems show schedules and inputs that break this: an epitaph of
      [ZX_OK], and a teardown that overtakes a call before it files its context or before
      it takes it back.
    - Binding: in every interleaving in which the environment keeps its promises a step fails
      an assertion or panics exactly if it is one of [panics], none of which keeps them; the
      teardown happens once, for the first reason, with no up-call that the binding still
      answers for, and it completes.  One theorem shows an up-call that outlives the teardown after [EnableNextDispatch]
      and [Close].
    - Timelines: rates are kept in lowest terms, products are exact where they can be,
      scaling rounds down, and composing functions costs a bounded rounding error.  The
      theorems state where overflow is reported wrongly: a fraction below the range of
      64 bits that wraps to zero, and an overflow hidden by the origin of a function.
    - File locks: exclusion, one answer for each request, and no waiter left behind when
      the holders unlock.  The destructor and the forgetting of a waiting client are shown
      not to do what they are for.
    - Paths: cleaning is lexical resolution, in canonical form, for every path that fits.
    - Namespace: any sequence of calls behaves like the abstract map; binding and unbinding
      are inverse; the export gives the remote bindings within the block it allocates, as
      long as the root is not changed.
      Theorems show a bound root that is reported as not bound, handles that leak, an
      export that races with a bind, paths that are wrong after the root was changed, and a
      local file that opens after it was unbound.
    - Executor: no assertion fails, no task is lost or doubled, no wakeup is lost, and the
      dispatcher is deleted exactly when nothing points to it; a witness shows the
      notification that comes too late after a spurious wakeup.
    - Suspended tasks: the tickets of the objects are the outstanding ones.
    - Scopes: no assertion fails and nothing is used or deleted after it was deleted, unless
      the scope is exited while a promise runs, which the assertion catches at once, or
      exited a second time in the middle of a failed acquisition; the witness does both.
    - Bridges: one result at most, the right one, with its wakeup; a witness shows the null
      reference of a continuation that is called again after an abandonment.
    - Log records: what is sent is the encoding of the record, or nothing if it does not
      fit, exactly if the stripping of the file name stays within memory that can be read;
      it can be decoded, but for records with an int64 argument.
    - Descriptors: in every interleaving the table answers like one without counts, and an
      object is closed once, when nothing refers to it any more.  The theorems state the
      wrong answers of accept4 after its reservation was taken, and the end of a pair that
      stays in the table when there is no room for the other.
    - Current directory: getcwd after any sequence of chdir and chroot calls of any length,
      and the opening of paths, against lexical resolution.  The theorems state which names
      and paths are lost after a step up, when the whole name becomes unknown, and that a
      new root that is the current directory has no name.
    - Events and timers: an eventfd is a counter and its signals say what can be done; a
      timerfd counts every expiration once.  One theorem states the negative time that is
      left of a timer that was disarmed with an interval.
    - Type names: the name of the grammar is in the buffer, cut off where it ends; the
      theorem states the NUL that a number leaves there, and that a vector of numbers has no
      name and is never formatted.

    ** Fuel and bounds

    Loops of the source are fixpoints with fuel.  A theorem never assumes that the fuel
    suffices: it is either computed from the input in the definition ([chain_bound], one
    more than the number of objects; [size] turns for a string of [size] bytes) or is
    bounded below in the statement by a number that depends on the coding table only
    ([walk_fuel]).  Minting an id has one turn more than calls wait, which is shown to be
    enough: the ids that were tried and taken are different.  The binary gcd has a turn for
    every bit of the two numbers, the product of rates 32 shifts, and path cleaning a turn
    for every character; the theorems show that they return.  Walking a path has a turn for
    every character, unlinking and enumerating a tree one for every node, and releasing the
    promises of a scope one for every holder.  The runs of the executor and of a scope have
    fewer than 2^32 - 3 and 2^62 steps, below which no counter of the source wraps.  Machine
    arithmetic wraps where the source's does.  Messages are bounded as the channel bounds
    them: 2^16 bytes for decoding, 2^19 for validating.

    ** Not modelled

    Code whose meaning is in libraries outside src/ (the async dispatcher, the driver
    runtime, zx wrappers) or in generated bindings; C++ templates without state
    (fit, stdcompat); I/O layers (zxio, vfs, and fdio but for path names, the namespace,
    the descriptor table, the current directory, events and timers).  The wire-format
    metadata of FIDL, which copies eight bytes.  Of the binding, thread checking, the
    epitaph that a closing server writes and the construction of transactions; of the
    client, synchronous calls and the controller.  The operations of the client are atomic
    in ClientRuns; the two theorems about overtaken calls take them apart.  Prefetching,
    debug observers of the tree and the reference counts of managed pointers have no effect
    on the modelled state.  The conversion of floating-point rates is left out.  Of the
    namespace, the connections that zxio opens; of fit-promise, the combinators, the barrier
    and the sequencer, which are chains of bridges.  What a suspended task or a promise does
    when it is destroyed is a step of its own.  Of the
    descriptor table, the flags of an object; of requests, the conversion of POSIX flags. *)

From Stdlib Require Export ZArith Bool Lia.
From stdpp Require Export base tactics option list numbers list_numbers strings.

#[global] Open Scope Z_scope.

(** ** Notations of the development *)

Create HintDb machine.

Declare Scope machine_scope.
Delimit Scope machine_scope with machine.
#[global] Open Scope machine_scope.

(** ** Machine integers

    A [w]-bit unsigned integer is a [Z] between [0] and [2^w]; every
    arithmetic operation of the source that can wrap is written with [wrap]. *)

Definition wrap (w x : Z) : Z := x mod 2 ^ w.

Notation "x ⊕[ w ] y" := (wrap w (x + y)) (at level 50, left associativity) : machine_scope.
Notation "x ⊖[ w ] y" := (wrap w (x - y)) (at level 50, left associativity) : machine_scope.
Notation "x ⊗[ w ] y" := (wrap w (x * y)) (at level 40, left associativity) : machine_scope.
Notation "∁[ w ] x" := (Z.lxor x (Z.ones w)) (at level 35, right associativity) : machine_scope.

(** A two's complement reading of a [w]-bit word. *)
Definition to_signed (w x : Z) : Z := if x <? 2 ^ (w - 1) then x else x - 2 ^ w.

Definition fits (w x : Z) : Prop := 0 <= x < 2 ^ w.
Definition fitsb (w x : Z) : bool := (0 <=? x) && (x <? 2 ^ w).

#[export] Instance fits_dec w x : Decision (fits w x).
Proof. unfold fits. apply _. Defined.

(** [add_overflow]/[mul_overflow] of <zircon/compiler.h> are the compiler's
    checked operations: the exact result when it fits the destination. *)
Definition checked (w x : Z) : option Z := if fitsb w x then Some x else None.
Definition add_overflow (w x y : Z) : option Z := checked w (x + y).
Definition mul_overflow (w x y : Z) : option Z := checked w (x * y).

Lemma fitsb_spec w x : fitsb w x = true <-> fits w x.
Proof. unfold fitsb, fits. rewrite andb_true_iff, Z.leb_le, Z.ltb_lt. tauto. Qed.

Lemma checked_Some w x y : checked w x = Some y <-> y = x /\ fits w x.
Proof.
  unfold checked. destruct (fitsb w x) eqn:E.
  - apply fitsb_spec in E. split; [intros [= <-]; auto | intros [-> _]; auto].
  - split; [discriminate | intros [_ H%fitsb_spec]; congruence].
Qed.

Lemma checked_None w x : checked w x = None <-> ~ fits w x.
Proof.
  unfold checked. rewrite <- fitsb_spec. destruct (fitsb w x); naive_solver.
Qed.

Lemma wrap_fits w x : 0 <= w -> fits w (wrap w x).
Proof. intros. unfold fits, wrap. apply Z.mod_pos_bound. lia. Qed.

Lemma wrap_small w x : fits w x -> wrap w x = x.
Proof. unfold fits, wrap. intros. by rewrite Z.mod_small. Qed.

(** ** Bytes and little-endian words *)

Definition byte_ok (b : Z) : Prop := 0 <= b < 256.
#[export] Instance byte_ok_dec b : Decision (byte_ok b).
Proof. unfold byte_ok. apply _. Defined.

(** Linear arithmetic over the ranges above. *)
Ltac mlia := unfold byte_ok, fits in *; lia.
(** The same with division and remainder by constants. *)
Ltac dlia := unfold byte_ok, fits in *; Z.to_euclidean_division_equations; lia.

Definition bytes_ok (bs : list Z) : Prop := Forall byte_ok bs.

(** The characters of a literal. *)
Definition chars (s : string) : list Z := (fun a => Z.of_N (Ascii.N_of_ascii a)) <$> String.list_ascii_of_string s.

Abbreviation le_bytes := (little_endian_to_Z 8).
Definition le_split (n : nat) (v : Z) : list Z := Z_to_little_endian (Z.of_nat n) 8 v.

#[export] Instance bytes_ok_dec bs : Decision (bytes_ok bs).
Proof. unfold bytes_ok. apply _. Defined.

Lemma bytes_ok_cons b bs : bytes_ok (b :: bs) <-> byte_ok b /\ bytes_ok bs.
Proof. unfold bytes_ok. by rewrite Forall_cons. Qed.

Lemma bytes_ok_app xs ys : bytes_ok (xs ++ ys) <-> bytes_ok xs /\ bytes_ok ys.
Proof. unfold bytes_ok. by rewrite Forall_app. Qed.

Lemma bytes_ok_take n bs : bytes_ok bs -> bytes_ok (take n bs).
Proof. apply Forall_take. Qed.

Lemma bytes_ok_drop n bs : bytes_ok bs -> bytes_ok (drop n bs).
Proof. apply Forall_drop. Qed.

Lemma bytes_ok_lookup bs i b : bytes_ok bs -> bs !! i = Some b -> byte_ok b.
Proof. unfold bytes_ok. rewrite Forall_lookup. eauto. Qed.

Lemma le_split_length n v : length (le_split n v) = n.
Proof.
  apply Nat2Z.inj. unfold le_split. apply length_Z_to_little_endian. lia.
Qed.

Lemma le_split_ok n v : bytes_ok (le_split n v).
Proof. apply (Z_to_little_endian_bound (Z.of_nat n) 8 v); lia. Qed.

Lemma le_bytes_split n v : le_bytes (le_split n v) = wrap (8 * Z.of_nat n) v.
Proof.
  unfold le_split, wrap. rewrite little_endian_to_Z_to_little_endian by lia.
  by rewrite Z.mul_comm.
Qed.

Lemma le_split_bytes bs : bytes_ok bs -> le_split (length bs) (le_bytes bs) = bs.
Proof. intros H. unfold le_split. apply Z_to_little_endian_to_Z; auto; lia. Qed.

Lemma le_bytes_fits bs : bytes_ok bs -> fits (8 * Z.of_nat (length bs)) (le_bytes bs).
Proof.
  intros H. unfold fits. rewrite Z.mul_comm. apply little_endian_to_Z_bound; auto; lia.
Qed.

Lemma le_bytes_inj xs ys :
  length xs = length ys -> bytes_ok xs -> bytes_ok ys -> le_bytes xs = le_bytes ys -> xs = ys.
Proof.
  intros Hl Hx Hy He. rewrite <- (le_split_bytes xs), <- (le_split_bytes ys) by done. congruence.
Qed.

(** A byte and the bytes above it do not share bits. *)
Lemma testbit_byte_high b i : byte_ok b -> 8 <= i -> Z.testbit b i = false.
Proof.
  intros Hb Hi. destruct (Z.eq_dec b 0) as [->|]; [apply Z.bits_0|].
  apply Z.bits_above_log2; [mlia|].
  apply Z.lt_le_trans with 8; [|mlia]. apply Z.log2_lt_pow2; mlia.
Qed.

(** Masking a word masks each of its bytes. *)
Lemma le_bytes_land bs ms :
  length bs = length ms -> bytes_ok bs -> bytes_ok ms ->
  Z.land (le_bytes bs) (le_bytes ms) = le_bytes (zip_with Z.land bs ms).
Proof.
  revert ms. induction bs as [|b bs IH]; intros [|m ms] Hl Hb Hm; try done.
  apply bytes_ok_cons in Hb as [Hb Hbs]. apply bytes_ok_cons in Hm as [Hm Hms].
  simpl. rewrite <- IH by (auto; simpl in Hl; mlia).
  apply Z.bits_inj_iff'. intros i Hi.
  rewrite Z.land_spec, !Z.lor_spec, Z.land_spec, !Z.shiftl_spec, Z.land_spec by done.
  destruct (Z.lt_ge_cases i 8).
  - by rewrite !(Z.testbit_neg_r _ (i - 8)), !orb_false_r by mlia.
  - by rewrite !(testbit_byte_high _ i), !orb_false_l by (done || mlia).
Qed.

Lemma byte_land_ok b m : byte_ok b -> 0 <= m -> byte_ok (Z.land b m).
Proof.
  intros Hb Hm. assert (0 <= Z.land b m) by (apply Z.land_nonneg; mlia).
  split; [done|]. change 256 with (2 ^ 8).
  destruct (Z.eq_dec (Z.land b m) 0) as [->|]; [done|].
  apply Z.log2_lt_pow2; [mlia|]. eapply Z.le_lt_trans; [apply Z.log2_land; mlia|].
  apply Z.min_lt_iff. left.
  destruct (Z.eq_dec b 0) as [->|]; [done|]. apply Z.log2_lt_pow2; mlia.
Qed.

Lemma zip_with_land_ok bs ms :
  bytes_ok bs -> bytes_ok ms -> bytes_ok (zip_with Z.land bs ms).
Proof.
  intros Hb. revert ms. induction Hb as [|b bs Hb _ IH]; intros [|m ms] Hm; simpl;
    try by constructor.
  apply bytes_ok_cons in Hm as [Hm Hms]. constructor; [apply byte_land_ok; mlia | by apply IH].
Qed.

(** ** Byte arrays addressed as C addresses them

    [None] is an access outside the array, which the source must never make. *)

Definition len (mem : list Z) : Z := Z.of_nat (length mem).

Definition in_range (mem : list Z) (i n : Z) : bool := (0 <=? i) && (0 <=? n) && (i + n <=? len mem).

Definition rd (mem : list Z) (i : Z) : option Z := if i <? 0 then None else mem !! Z.to_nat i.

(** The [n] bytes at [i] (a memcpy out of the array). *)
Definition rdn (mem : list Z) (i n : Z) : option (list Z) :=
  if in_range mem i n then Some (take (Z.to_nat n) (drop (Z.to_nat i) mem)) else None.

(** Overwrite the bytes at [i] (a memcpy into the array). *)
Definition wrn (mem : list Z) (i : Z) (bs : list Z) : option (list Z) :=
  if in_range mem i (len bs)
  then Some (take (Z.to_nat i) mem ++ bs ++ drop (Z.to_nat i + length bs) mem) else None.

(** Load and store of an [n]-byte little-endian word. *)
Definition load (n : nat) (mem : list Z) (i : Z) : option Z :=
  bs ← rdn mem i (Z.of_nat n); Some (le_bytes bs).
Definition store (n : nat) (mem : list Z) (i v : Z) : option (list Z) := wrn mem i (le_split n v).

Lemma in_range_spec mem i n : in_range mem i n = true <-> 0 <= i /\ 0 <= n /\ i + n <= len mem.
Proof. unfold in_range. rewrite !andb_true_iff, !Z.leb_le. tauto. Qed.

Lemma len_nonneg mem : 0 <= len mem.
Proof. unfold len. lia. Qed.

Lemma rd_Some mem i b : rd mem i = Some b -> 0 <= i < len mem.
Proof.
  unfold rd, len. destruct (Z.ltb_spec i 0); [done|].
  intros ?%lookup_lt_Some. lia.
Qed.

Lemma rd_is_Some mem i : 0 <= i < len mem -> exists b, rd mem i = Some b.
Proof.
  unfold rd, len. intros. destruct (Z.ltb_spec i 0); [lia|].
  apply lookup_lt_is_Some_2. lia.
Qed.

Lemma rd_byte_ok mem i b : bytes_ok mem -> rd mem i = Some b -> byte_ok b.
Proof.
  unfold rd. destruct (i <? 0); [done|]. apply bytes_ok_lookup.
Qed.

Lemma rdn_is_Some mem i n :
  0 <= i -> 0 <= n -> i + n <= len mem -> exists bs, rdn mem i n = Some bs.
Proof.
  intros. unfold rdn. rewrite (proj2 (in_range_spec mem i n)) by done. eauto.
Qed.

Lemma rdn_Some mem i n bs :
  rdn mem i n = Some bs ->
  0 <= i /\ 0 <= n /\ i + n <= len mem /\ bs = take (Z.to_nat n) (drop (Z.to_nat i) mem).
Proof.
  unfold rdn. destruct (in_range mem i n) eqn:E; [|done].
  apply in_range_spec in E. intros [= <-]. destruct E as (?&?&?). auto.
Qed.

Lemma rdn_len mem i n bs : rdn mem i n = Some bs -> len bs = n.
Proof.
  intros (?&?&?&->)%rdn_Some. unfold len in *. rewrite length_take, length_drop. lia.
Qed.

Lemma rdn_bytes_ok mem i n bs : bytes_ok mem -> rdn mem i n = Some bs -> bytes_ok bs.
Proof. intros H (_&_&_&->)%rdn_Some. by apply bytes_ok_take, bytes_ok_drop. Qed.

Lemma load_is_Some n mem i :
  0 <= i -> i + Z.of_nat n <= len mem -> exists v, load n mem i = Some v.
Proof.
  intros Hi Hn. unfold load. destruct (rdn_is_Some mem i (Z.of_nat n)) as [bs ->]; [lia..|].
  simpl. eauto.
Qed.

Lemma load_in_range n mem i v : load n mem i = Some v -> 0 <= i /\ i + Z.of_nat n <= len mem.
Proof. unfold load. intros (bs & (?&?&?&_)%rdn_Some & _)%bind_Some. lia. Qed.

Lemma load_fits n mem i v : bytes_ok mem -> load n mem i = Some v -> fits (8 * Z.of_nat n) v.
Proof.
  unfold load. intros Hm (bs & Hr & [= <-])%bind_Some.
  replace (Z.of_nat n) with (len bs) by (by apply rdn_len in Hr). unfold len.
  eapply le_bytes_fits, rdn_bytes_ok; eauto.
Qed.

Lemma wrn_is_Some mem i bs :
  0 <= i -> i + len bs <= len mem -> exists mem', wrn mem i bs = Some mem'.
Proof.
  intros. unfold wrn. rewrite (proj2 (in_range_spec mem i (len bs))); [eauto|].
  pose proof (len_nonneg bs). lia.
Qed.

Lemma wrn_Some mem i bs mem' :
  wrn mem i bs = Some mem' ->
  0 <= i /\ i + len bs <= len mem /\
  mem' = take (Z.to_nat i) mem ++ bs ++ drop (Z.to_nat i + length bs) mem.
Proof.
  unfold wrn. destruct (in_range mem i (len bs)) eqn:E; [|done].
  apply in_range_spec in E. intros [= <-]. destruct E as (?&?&?). auto.
Qed.

Lemma wrn_len mem i bs mem' : wrn mem i bs = Some mem' -> len mem' = len mem.
Proof.
  intros (?&?&->)%wrn_Some. unfold len in *.
  rewrite !length_app, length_take, length_drop. lia.
Qed.

Lemma wrn_bytes_ok mem i bs mem' :
  bytes_ok mem -> bytes_ok bs -> wrn mem i bs = Some mem' -> bytes_ok mem'.
Proof.
  intros Hm Hb (_&_&->)%wrn_Some. rewrite !bytes_ok_app.
  auto using bytes_ok_take, bytes_ok_drop.
Qed.

(** Byte-wise reading of an overwritten array. *)
Lemma wrn_lookup mem i bs mem' (j : nat) :
  wrn mem i bs = Some mem' ->
  mem' !! j = if decide (i <= Z.of_nat j < i + len bs) then bs !! (j - Z.to_nat i)%nat else mem !! j.
Proof.
  intros (?&?&->)%wrn_Some. unfold len in *. case_decide.
  - rewrite lookup_app_r by (rewrite length_take; lia).
    rewrite length_take, Nat.min_l by lia. apply lookup_app_l. lia.
  - destruct (Z.lt_ge_cases (Z.of_nat j) i).
    + rewrite lookup_app_l by (rewrite length_take; lia). apply lookup_take_lt. lia.
    + rewrite lookup_app_r by (rewrite length_take; lia).
      rewrite lookup_app_r by (rewrite length_take; lia).
      rewrite lookup_drop, length_take. f_equal. lia.
Qed.

(** Two arrays that agree on a range give the same words there. *)
Lemma rdn_agree mem mem' i n :
  len mem = len mem' ->
  (forall j : nat, i <= Z.of_nat j < i + n -> mem !! j = mem' !! j) ->
  rdn mem i n = rdn mem' i n.
Proof.
  intros Hl Hj. unfold rdn, in_range. rewrite <- Hl.
  destruct ((0 <=? i) && (0 <=? n) && (i + n <=? len mem)) eqn:E; [|done].
  f_equal. apply list_eq. intros k. destruct (decide (k < Z.to_nat n)%nat).
  - rewrite !lookup_take_lt, !lookup_drop by lia.
    rewrite !andb_true_iff, !Z.leb_le in E. apply Hj. lia.
  - by rewrite !lookup_take_ge by lia.
Qed.

#[export] Hint Resolve len_nonneg rd_byte_ok rdn_bytes_ok le_split_ok : machine.

(** A boolean property of bytes is decided by running through all of them. *)
Lemma byte_forall (P : Z -> bool) b :
  forallb P (seqZ 0 256) = true -> byte_ok b -> P b = true.
Proof.
  rewrite forallb_forall. intros H Hb. apply H. apply list_elem_of_In, elem_of_seqZ. mlia.
Qed.

Lemma byte_forall2 (P : Z -> Z -> bool) a b :
  forallb (fun a => forallb (P a) (seqZ 0 256)) (seqZ 0 256) = true -> byte_ok a -> byte_ok b -> P a b = true.
Proof.
  intros H Ha Hb. apply (byte_forall (P a)); [|done].
  exact (byte_forall (fun a => forallb (P a) (seqZ 0 256)) a H Ha).
Qed.

(** ** Stateful code

    A routine that reads and changes a state of type [S] and returns an [A];
    [None] is undefined behaviour, an aborted assertion or a loop cut short. *)

Definition ST (S A : Type) : Type := S -> option (A * S).

#[export] Typeclasses Opaque ST.
#[export] Instance ST_ret S : MRet (ST S) := fun A a s => Some (a, s).
#[export] Instance ST_bind S : MBind (ST S) := fun A B k m s =>
  match m s with Some (a, s') => k a s' | None => None end.

(** Undefined behaviour. *)
Definition undefined {S A} : ST S A := fun _ => None.
(** Read a part of the state, replace the state, lift a partial computation. *)
Definition gets {S A} (f : S -> A) : ST S A := fun s => Some (f s, s).
Definition modify {S} (f : S -> S) : ST S unit := fun s => Some (tt, f s).
Definition lift {S A} (o : option A) : ST S A := fun s => a ← o; Some (a, s).

(** [runs m s a s']: [m] started in [s] ends in [s'] and returns [a]. *)
Definition runs {S A} (m : ST S A) (s : S) (a : A) (s' : S) : Prop := m s = Some (a, s').

Lemma runs_bind {S A B} (m : ST S A) (k : A -> ST S B) s a s1 b s2 :
  runs m s a s1 -> runs (k a) s1 b s2 -> runs (m ≫= k) s b s2.
Proof. unfold runs, mbind, ST_bind. by intros -> ->. Qed.

Lemma runs_bind_inv {S A B} (m : ST S A) (k : A -> ST S B) s b s2 :
  runs (m ≫= k) s b s2 -> exists a s1, runs m s a s1 /\ runs (k a) s1 b s2.
Proof. unfold runs, mbind, ST_bind. destruct (m s) as [[a s1]|] eqn:E; [eauto | done]. Qed.

(** A weakest-precondition reading of a routine: it is defined from [s] and its
    outcome satisfies [Q]. *)
Definition wp {S A} (m : ST S A) (s : S) (Q : A -> S -> Prop) : Prop :=
  exists a s', m s = Some (a, s') /\ Q a s'.

Lemma wp_ret {S A} (a : A) (s : S) Q : Q a s -> wp (mret a) s Q.
Proof. intros H. by exists a, s. Qed.

Lemma wp_bind {S A B} (m : ST S A) (k : A -> ST S B) s Q :
  wp m s (fun a s1 => wp (k a) s1 Q) -> wp (m ≫= k) s Q.
Proof.
  intros (a & s1 & E & b & s2 & E' & H). exists b, s2. split; [|done].
  unfold mbind, ST_bind. by rewrite E.
Qed.

Lemma wp_bind_inv {S A B} (m : ST S A) (k : A -> ST S B) s Q :
  wp (m ≫= k) s Q -> wp m s (fun a s1 => wp (k a) s1 Q).
Proof.
  intros (b & s2 & E & H). unfold mbind, ST_bind in E. destruct (m s) as [[a s1]|] eqn:Em; [|done].
  exists a, s1. split; [done|]. by exists b, s2.
Qed.

Lemma wp_mono {S A} (m : ST S A) s (P Q : A -> S -> Prop) :
  wp m s P -> (forall a s', P a s' -> Q a s') -> wp m s Q.
Proof. intros (a & s' & E & H) HPQ. exists a, s'. auto. Qed.

Lemma wp_gets {S A} (f : S -> A) s (Q : A -> S -> Prop) : Q (f s) s -> wp (gets f) s Q.
Proof. intros H. by exists (f s), s. Qed.

Lemma wp_lift {S A} (o : option A) a (s : S) (Q : A -> S -> Prop) :
  o = Some a -> Q a s -> wp (lift o) s Q.
Proof. intros -> H. by exists a, s. Qed.

Lemma wp_runs {S A} (m : ST S A) s Q a s' : wp m s Q -> runs m s a s' -> Q a s'.
Proof. intros (b & s1 & E & H) R. unfold runs in R. congruence. Qed.

Lemma wp_modify {S} (f : S -> S) s (Q : unit -> S -> Prop) : Q tt (f s) -> wp (modify f) s Q.
Proof. intros H. by exists tt, (f s). Qed.

(** *** Stores *)

Lemma store_is_Some n mem i v :
  0 <= i -> i + Z.of_nat n <= len mem -> exists mem', store n mem i v = Some mem'.
Proof. intros. unfold store. apply wrn_is_Some; [done|]. unfold len at 1. by rewrite le_split_length. Qed.

Lemma store_bytes_ok n mem i v mem' : bytes_ok mem -> store n mem i v = Some mem' -> bytes_ok mem'.
Proof. intros Hm Hs. exact (wrn_bytes_ok _ _ _ _ Hm (le_split_ok _ _) Hs). Qed.

Lemma store_len n mem i v mem' : store n mem i v = Some mem' -> len mem' = len mem.
Proof. apply wrn_len. Qed.

(** What was written can be read back, and nothing else changes. *)
Lemma rdn_wrn mem i bs mem' : wrn mem i bs = Some mem' -> rdn mem' i (len bs) = Some bs.
Proof.
  intros H. pose proof (wrn_len _ _ _ _ H) as Hl. pose proof (wrn_Some _ _ _ _ H) as (Hi & Hlen & _).
  destruct (rdn_is_Some mem' i (len bs)) as [bs' Hbs']; [lia|apply len_nonneg|lia|].
  rewrite Hbs'. f_equal. pose proof (rdn_len _ _ _ _ Hbs') as Hl'. apply list_eq. intros k.
  apply rdn_Some in Hbs' as (_ & _ & _ & E). unfold len in *.
  destruct (decide (k < length bs)%nat); [|by rewrite !lookup_ge_None_2 by lia].
  rewrite E, lookup_take_lt, lookup_drop, (wrn_lookup _ _ _ _ _ H) by lia.
  rewrite decide_True by (unfold len; lia). f_equal. lia.
Qed.

Lemma load_store n mem i v mem' : store n mem i v = Some mem' -> load n mem' i = Some (wrap (8 * Z.of_nat n) v).
Proof.
  unfold store, load. intros H%rdn_wrn. unfold len in H. rewrite le_split_length in H. rewrite H. simpl.
  by rewrite le_bytes_split.
Qed.

Lemma wrn_frame mem i bs mem' (j : nat) :
  wrn mem i bs = Some mem' -> Z.of_nat j < i \/ i + len bs <= Z.of_nat j -> mem' !! j = mem !! j.
Proof. intros H Hj. rewrite (wrn_lookup _ _ _ _ _ H). rewrite decide_False; [done|lia]. Qed.

Lemma store_frame n mem i v mem' (j : nat) :
  store n mem i v = Some mem' -> Z.of_nat j < i \/ i + Z.of_nat n <= Z.of_nat j -> mem' !! j = mem !! j.
Proof. intros H Hj. eapply wrn_frame; [exact H|]. unfold len. by rewrite le_split_length. Qed.

(** Writing the word that is there changes nothing. *)
Lemma wrn_same mem i bs : rdn mem i (len bs) = Some bs -> wrn mem i bs = Some mem.
Proof.
  intros (Hi & _ & Hl & E)%rdn_Some. destruct (wrn_is_Some mem i bs) as [mem' H]; [lia..|].
  rewrite H. f_equal. apply list_eq. intros j. rewrite (wrn_lookup _ _ _ _ _ H). case_decide; [|done].
  rewrite E at 1. rewrite lookup_take_lt, lookup_drop by (unfold len in *; lia). f_equal. unfold len in *. lia.
Qed.

(** A second write to the same place wins. *)
Lemma wrn_wrn mem i bs mem1 bs' : wrn mem i bs = Some mem1 -> len bs' = len bs -> wrn mem1 i bs' = wrn mem i bs'.
Proof.
  intros H Hl. pose proof (wrn_len _ _ _ _ H) as Hm. pose proof (wrn_Some _ _ _ _ H) as (Hi & Hlen & _).
  destruct (wrn_is_Some mem1 i bs') as [m1 H1]; [lia..|]. destruct (wrn_is_Some mem i bs') as [m2 H2]; [lia..|].
  rewrite H1, H2. f_equal. apply list_eq. intros j.
  rewrite (wrn_lookup _ _ _ _ _ H1), (wrn_lookup _ _ _ _ _ H2), (wrn_lookup _ _ _ _ _ H), Hl. by case_decide.
Qed.

Lemma store_store n mem i v mem1 v' : store n mem i v = Some mem1 -> store n mem1 i v' = store n mem i v'.
Proof. intros H. eapply wrn_wrn; [exact H|]. unfold len. by rewrite !le_split_length. Qed.

Lemma len_app (a b : list Z) : len (a ++ b) = len a + len b.
Proof. unfold len. rewrite length_app. lia. Qed.
(** Overwriting a part of a list. *)
Lemma wrn_middle pre x y rest : len x = len y -> wrn (pre ++ x ++ rest) (len pre) y = Some (pre ++ y ++ rest).
Proof.
  intros H. assert (Hp := len_nonneg pre). assert (Hx := len_nonneg x). assert (Hr := len_nonneg rest).
  destruct (wrn_is_Some (pre ++ x ++ rest) (len pre) y) as [m E]; [lia|rewrite !len_app; lia|]. rewrite E. f_equal.
  apply wrn_Some in E as (_ & _ & ->). unfold len in *. rewrite Nat2Z.id, take_app_length. do 2 f_equal.
  rewrite drop_app_add' by done. apply drop_app_length'. lia.
Qed.
