(* ===== verification/Utf8Scalar.v ===== *)
(** * UTF-8: the reference grammar and the scalar validator

    Models src/utf-utils/internal/scalar.cc: the RFC 3629 recogniser
    [IsValidUtf8ScalarFull], its ASCII fast path [IsValidUtf8Scalar] and
    [ValidateAndCopyUtf8Scalar].  Every byte the code reads goes through [rd] or
    [rdn], which are undefined outside the buffer, so the theorems also say that
    the validator stays inside the [size] bytes it was given. *)

From S2P Require Import Prelude.

(** ** What UTF-8 is *)

Module Utf8Spec.

Definition tail (b : Z) : Prop := 0x80 <= b <= 0xBF.

(** RFC 3629, section 4 (the table quoted in scalar.cc). *)
Inductive utf8_char : list Z -> Prop :=
  | UTF8_1 b : 0x00 <= b <= 0x7F -> utf8_char [b]
  | UTF8_2 b t : 0xC2 <= b <= 0xDF -> tail t -> utf8_char [b; t]
  | UTF8_3_E0 s t : 0xA0 <= s <= 0xBF -> tail t -> utf8_char [0xE0; s; t]
  | UTF8_3_lo b s t : 0xE1 <= b <= 0xEC -> tail s -> tail t -> utf8_char [b; s; t]
  | UTF8_3_ED s t : 0x80 <= s <= 0x9F -> tail t -> utf8_char [0xED; s; t]
  | UTF8_3_hi b s t : 0xEE <= b <= 0xEF -> tail s -> tail t -> utf8_char [b; s; t]
  | UTF8_4_F0 s t u : 0x90 <= s <= 0xBF -> tail t -> tail u -> utf8_char [0xF0; s; t; u]
  | UTF8_4_mid b s t u : 0xF1 <= b <= 0xF3 -> tail s -> tail t -> tail u -> utf8_char [b; s; t; u]
  | UTF8_4_F4 s t u : 0x80 <= s <= 0x8F -> tail t -> tail u -> utf8_char [0xF4; s; t; u].

Inductive utf8_octets : list Z -> Prop :=
  | octets_nil : utf8_octets []
  | octets_app c rest : utf8_char c -> utf8_octets rest -> utf8_octets (c ++ rest).

(** The same strings, as encodings of sequences of Unicode scalar values. *)
Definition is_scalar_value (c : Z) : Prop := 0 <= c < 0xD800 \/ 0xE000 <= c <= 0x10FFFF.

Definition encode (c : Z) : list Z :=
  if c <? 0x80 then [c]
  else if c <? 0x800 then [0xC0 + c / 64; 0x80 + c mod 64]
  else if c <? 0x10000 then [0xE0 + c / 4096; 0x80 + c / 64 mod 64; 0x80 + c mod 64]
  else [0xF0 + c / 262144; 0x80 + c / 4096 mod 64; 0x80 + c / 64 mod 64; 0x80 + c mod 64].

Definition encodes (cps : list Z) : list Z := concat (encode <$> cps).

(** *** An executable recogniser: the length of the first character *)

Definition tailb (b : Z) : bool := (0x80 <=? b) && (b <=? 0xBF).
Definition within (lo b hi : Z) : bool := (lo <=? b) && (b <=? hi).

Definition first_char (s : list Z) : option nat :=
  match s with
  | [] => None
  | b :: r =>
      if within 0x00 b 0x7F then Some 1%nat
      else if within 0xC2 b 0xDF then
        match r with t :: _ => if tailb t then Some 2%nat else None | _ => None end
      else if within 0xE0 b 0xEF then
        match r with
        | s :: t :: _ =>
            if tailb t && within (if b =? 0xE0 then 0xA0 else 0x80) s (if b =? 0xED then 0x9F else 0xBF)
            then Some 3%nat else None
        | _ => None
        end
      else if within 0xF0 b 0xF4 then
        match r with
        | s :: t :: u :: _ =>
            if tailb t && tailb u &&
               within (if b =? 0xF0 then 0x90 else 0x80) s (if b =? 0xF4 then 0x8F else 0xBF)
            then Some 4%nat else None
        | _ => None
        end
      else None
  end.

Fixpoint valid_fuel (fuel : nat) (s : list Z) : bool :=
  match fuel, s with
  | _, [] => true
  | O, _ => false
  | S fuel, _ => match first_char s with Some n => valid_fuel fuel (drop n s) | None => false end
  end.

Definition valid (s : list Z) : bool := valid_fuel (length s) s.

Lemma within_spec lo b hi : within lo b hi = true <-> lo <= b <= hi.
Proof. unfold within. rewrite andb_true_iff, !Z.leb_le. tauto. Qed.

Lemma tailb_spec b : tailb b = true <-> tail b.
Proof. apply (within_spec 0x80 b 0xBF). Qed.

Ltac split_ifs :=
  repeat match goal with
  | |- context [if ?c then _ else _] => destruct c eqn:?
  | H : context [if ?c then _ else _] |- _ => destruct c eqn:?
  end.

Ltac ulia := unfold tailb, within, tail in *; lia.

Lemma first_char_complete c rest : utf8_char c -> first_char (c ++ rest) = Some (length c).
Proof.
  intros H; inversion H; subst; cbn [first_char app length];
    split_ifs; first [done | ulia | exfalso; ulia].
Qed.

Lemma first_char_sound s n :
  bytes_ok s -> first_char s = Some n ->
  exists c rest, s = c ++ rest /\ length c = n /\ utf8_char c.
Proof.
  intros Hok H. destruct s as [|b0 r]; [done|].
  apply bytes_ok_cons in Hok as [Hb Hr]. unfold byte_ok in Hb.
  cbn [first_char] in H.
  destruct (within 0x00 b0 0x7F) eqn:?; [|destruct (within 0xC2 b0 0xDF) eqn:?;
    [|destruct (within 0xE0 b0 0xEF) eqn:?; [|destruct (within 0xF0 b0 0xF4) eqn:?; [|done]]]].
  - injection H as <-. exists [b0], r. repeat split. constructor. ulia.
  - destruct r as [|b1 r]; split_ifs; simplify_eq.
    exists [b0; b1], r. repeat split. constructor; ulia.
  - destruct r as [|b1 [|b2 r]]; split_ifs; simplify_eq;
      exists [b0; b1; b2], r; (split; [done|]); (split; [done|]).
    all: first [exfalso; ulia
      | assert (b0 = 0xE0) as -> by ulia; apply UTF8_3_E0; ulia
      | assert (b0 = 0xED) as -> by ulia; apply UTF8_3_ED; ulia
      | destruct (Z.le_gt_cases b0 0xEC); [apply UTF8_3_lo; ulia | apply UTF8_3_hi; ulia]].
  - destruct r as [|b1 [|b2 [|b3 r]]]; split_ifs; simplify_eq;
      exists [b0; b1; b2; b3], r; (split; [done|]); (split; [done|]).
    all: first [exfalso; ulia
      | assert (b0 = 0xF0) as -> by ulia; apply UTF8_4_F0; ulia
      | assert (b0 = 0xF4) as -> by ulia; apply UTF8_4_F4; ulia
      | apply UTF8_4_mid; ulia].
Qed.

Lemma utf8_char_length c : utf8_char c -> (1 <= length c <= 4)%nat.
Proof. intros H; inversion H; simpl; lia. Qed.

Lemma valid_fuel_sound fuel s : bytes_ok s -> valid_fuel fuel s = true -> utf8_octets s.
Proof.
  revert s. induction fuel as [|fuel IH]; intros s Hok H.
  - destruct s; [constructor | done].
  - destruct s as [|b r] eqn:Es; [constructor|]. rewrite <- Es in *.
    assert (valid_fuel (S fuel) s = match first_char s with
      Some n => valid_fuel fuel (drop n s) | None => false end) as Hv by (rewrite Es; done).
    rewrite Hv in H. destruct (first_char s) as [n|] eqn:E; [|done].
    apply first_char_sound in E as (c & rest & -> & <- & Hc); [|done].
    rewrite drop_app_length in H. constructor; [done|]. apply IH; [|done].
    by apply bytes_ok_app in Hok as [_ ?].
Qed.

Lemma valid_fuel_complete fuel s : utf8_octets s -> (length s <= fuel)%nat -> valid_fuel fuel s = true.
Proof.
  intros H. revert fuel. induction H as [|c rest Hc Hr IH]; intros fuel Hf; [by destruct fuel|].
  pose proof (utf8_char_length _ Hc). rewrite length_app in Hf.
  destruct fuel as [|fuel]; [lia|].
  destruct (c ++ rest) as [|b r] eqn:Ec; [done|]. rewrite <- Ec.
  assert (valid_fuel (S fuel) (c ++ rest) = match first_char (c ++ rest) with
      Some n => valid_fuel fuel (drop n (c ++ rest)) | None => false end) as -> by (rewrite Ec; done).
  rewrite first_char_complete by done. rewrite drop_app_length. apply IH. lia.
Qed.

(** The executable recogniser decides the grammar. *)
Lemma valid_spec s : bytes_ok s -> valid s = true <-> utf8_octets s.
Proof.
  intros Hok. split; [by apply valid_fuel_sound | intros; by apply valid_fuel_complete].
Qed.

(** Unfolding one character at a time. *)
Lemma valid_step s :
  bytes_ok s -> s <> [] ->
  valid s = match first_char s with Some n => valid (drop n s) | None => false end.
Proof.
  intros Hok Hne. destruct (first_char s) as [n|] eqn:E.
  - apply first_char_sound in E as (c & rest & -> & <- & Hc); [|done].
    rewrite drop_app_length. apply bytes_ok_app in Hok as Hok2. destruct Hok2 as [_ Hr].
    apply eq_bool_prop_intro. rewrite !Is_true_true, !valid_spec by done.
    split; [|by constructor]. intros H. inversion H as [|c' rest' Hc' Hr' Heq]; [by destruct c, rest|].
    assert (length c' = length c) as Hl.
    { pose proof (first_char_complete c rest Hc). pose proof (first_char_complete c' rest' Hc').
      congruence. }
    apply app_inj_1 in Heq as [-> ->]; done.
  - unfold valid. destruct s as [|b r]; [done|].
    change (match first_char (b :: r) with
      Some n => valid_fuel (length r) (drop n (b :: r)) | None => false end = false). by rewrite E.
Qed.

(** *** Characters are encodings of scalar values *)

Lemma encode_char c : is_scalar_value c -> utf8_char (encode c).
Proof.
  unfold is_scalar_value, encode. intros Hc.
  destruct (Z.ltb_spec c 0x80); [apply UTF8_1; dlia|].
  destruct (Z.ltb_spec c 0x800); [apply UTF8_2; unfold tail; dlia|].
  destruct (Z.ltb_spec c 0x10000).
  - destruct (Z.eq_dec (c / 4096) 0) as [E|]; [rewrite E; apply UTF8_3_E0; unfold tail; dlia|].
    destruct (Z.eq_dec (c / 4096) 13) as [E2|]; [rewrite E2; apply UTF8_3_ED; unfold tail; dlia|].
    destruct (Z.le_gt_cases (c / 4096) 12).
    + apply UTF8_3_lo; unfold tail; dlia.
    + apply UTF8_3_hi; unfold tail; dlia.
  - destruct (Z.eq_dec (c / 262144) 0) as [E|]; [rewrite E; apply UTF8_4_F0; unfold tail; dlia|].
    destruct (Z.eq_dec (c / 262144) 4) as [E2|]; [rewrite E2; apply UTF8_4_F4; unfold tail; dlia|].
    apply UTF8_4_mid; unfold tail; dlia.
Qed.

(** The code point of a character of each length. *)
Definition decode (s : list Z) : Z :=
  match s with
  | [a] => a
  | [a; b] => (a - 0xC0) * 64 + (b - 0x80)
  | [a; b; c] => (a - 0xE0) * 4096 + (b - 0x80) * 64 + (c - 0x80)
  | [a; b; c; d] => (a - 0xF0) * 262144 + (b - 0x80) * 4096 + (c - 0x80) * 64 + (d - 0x80)
  | _ => 0
  end.

Lemma decode_scalar s : utf8_char s -> is_scalar_value (decode s).
Proof. intros H; inversion H; unfold is_scalar_value, decode, tail in *; lia. Qed.

Lemma encode_decode s : utf8_char s -> encode (decode s) = s.
Proof.
  intros H; inversion H; subst; unfold encode, decode, tail in *;
    repeat match goal with |- context [?x <? ?y] => destruct (Z.ltb_spec x y); try lia end;
    repeat (f_equal; [dlia|]); f_equal; dlia.
Qed.

Lemma octets_encodes s : utf8_octets s <-> exists cps, Forall is_scalar_value cps /\ s = encodes cps.
Proof.
  split.
  - induction 1 as [|c rest Hc _ (cps & Hs & ->)]; [by exists []|].
    exists (decode c :: cps). split; [constructor; auto using decode_scalar|].
    unfold encodes. cbn. by rewrite encode_decode.
  - intros (cps & Hs & ->). induction Hs; unfold encodes; cbn; constructor; auto using encode_char.
Qed.

End Utf8Spec.

(** ** The scalar validator, scalar.cc *)

Module Utf8Scalar.
Import Utf8Spec.

(** Byte order of the machine ([cpp20::endian::native]). *)
Inductive endian := little | big.

(** [memcpy] of bytes into an integer variable. *)
Definition word_of (e : endian) (bs : list Z) : Z :=
  le_bytes (match e with little => bs | big => reverse bs end).

Definition is_in_range (byte lo hi : Z) : bool := (lo <=? byte) && (byte <=? hi).

(** One turn of the while loop: it returns, or it goes on at a new position. *)
Inductive turn := Return (b : bool) | Continue (pos : Z).

(** Both accesses to an undefined byte and a missing turn are [None]. *)
Definition full_body (e : endian) (str : list Z) (pos size : Z) : option turn :=
  let remaining_size := size - pos in
  b0 ← rd str pos;
  if b0 <=? 0x7F then Some (Continue (pos + 1))
  else if is_in_range b0 0xC2 0xDF then
    if remaining_size <? 2 then Some (Return false)
    else
      b1 ← rd str (pos + 1);
      if negb (Z.land b1 0xC0 =? 0x80) then Some (Return false) else Some (Continue (pos + 2))
  else if is_in_range b0 0xE0 0xEF then
    if remaining_size <? 3 then Some (Return false)
    else
      bs ← rdn str (pos + 1) 2;
      let continuations := word_of e bs in
      if negb (Z.land continuations 0xC0C0 =? 0x8080) then Some (Return false)
      else
        b1 ← rd str (pos + 1);
        if (b0 =? 0xE0) && negb (is_in_range b1 0xA0 0xBF) then Some (Return false)
        else if (b0 =? 0xED) && negb (is_in_range b1 0x80 0x9F) then Some (Return false)
        else Some (Continue (pos + 3))
  else if is_in_range b0 0xF0 0xF4 then
    if remaining_size <? 4 then Some (Return false)
    else
      bs ← rdn str pos 4;
      let code_point := word_of e bs in
      if match e with
         | big => negb (Z.land code_point 0xC0C0C0 =? 0x808080)
         | little => negb (Z.land code_point 0xC0C0C000 =? 0x80808000)
         end then Some (Return false)
      else
        b1 ← rd str (pos + 1);
        if (b0 =? 0xF0) && negb (is_in_range b1 0x90 0xBF) then Some (Return false)
        else if (b0 =? 0xF4) && negb (is_in_range b1 0x80 0x8F) then Some (Return false)
        else Some (Continue (pos + 4))
  else Some (Return false).

Fixpoint full_loop (e : endian) (fuel : nat) (str : list Z) (pos size : Z) : option bool :=
  if pos <? size then
    match fuel with
    | O => None
    | S fuel =>
        t ← full_body e str pos size;
        match t with Return b => Some b | Continue pos' => full_loop e fuel str pos' size end
    end
  else Some true.

(** Every turn advances, so [size - pos] turns are enough. *)
Definition IsValidUtf8ScalarFull (e : endian) (data : list Z) (pos size : Z) : option bool :=
  full_loop e (Z.to_nat (size - pos)) data pos size.

(** The two ASCII loops: eight bytes at a time, then byte by byte.  The flag says
    whether the loop was left at a non-ASCII byte; the position is where it was left. *)
Fixpoint ascii_loop8 (e : endian) (fuel : nat) (data : list Z) (pos limit : Z) : option (bool * Z) :=
  if pos <? limit then
    match fuel with
    | O => None
    | S fuel =>
        bs ← rdn data pos 8;
        if negb (Z.land (word_of e bs) 0x8080808080808080 =? 0) then Some (true, pos)
        else ascii_loop8 e fuel data (pos + 8) limit
    end
  else Some (false, pos).

Fixpoint ascii_loop1 (fuel : nat) (data : list Z) (pos size : Z) : option (bool * Z) :=
  if pos <? size then
    match fuel with
    | O => None
    | S fuel =>
        b ← rd data pos;
        if negb (Z.land b 0x80 =? 0) then Some (true, pos) else ascii_loop1 fuel data (pos + 1) size
    end
  else Some (false, pos).

Definition IsValidUtf8Scalar (e : endian) (data : option (list Z)) (size : Z) : option bool :=
  match data with
  | None => Some false
  | Some data =>
      '(stopped, pos) ← ascii_loop8 e (Z.to_nat size) data 0 (Z.land size (∁[64] 7));
      if stopped : bool then IsValidUtf8ScalarFull e data pos size
      else
        '(stopped, pos) ← ascii_loop1 (Z.to_nat size) data pos size;
        if stopped : bool then IsValidUtf8ScalarFull e data pos size else Some true
  end.

(** The destination is an array of at least [size] bytes; the result is the
    verdict and the destination after the call. *)
Definition ValidateAndCopyUtf8Scalar (e : endian) (src : option (list Z)) (dst : list Z) (size : Z)
  : option (bool * list Z) :=
  is_valid ← IsValidUtf8Scalar e src size;
  if is_valid : bool then
    s ← src; bs ← rdn s 0 size; dst' ← wrn dst 0 bs; Some (true, dst')
  else Some (false, dst).

(** *** Reading the bytes left of a position *)

Lemma rd_drop str pos (k : nat) :
  0 <= pos -> rd str (pos + Z.of_nat k) = drop (Z.to_nat pos) str !! k.
Proof.
  intros. unfold rd. destruct (Z.ltb_spec (pos + Z.of_nat k) 0); [lia|].
  rewrite lookup_drop. f_equal. lia.
Qed.

Lemma rdn_drop str pos (k n : nat) :
  0 <= pos -> pos <= len str ->
  rdn str (pos + Z.of_nat k) (Z.of_nat n) =
    (let s := drop (Z.to_nat pos) str in
     if decide (k + n <= length s)%nat then Some (take n (drop k s)) else None).
Proof.
  intros. unfold rdn, in_range, len in *. cbn zeta. rewrite length_drop, drop_drop, Nat2Z.id.
  replace (Z.to_nat (pos + Z.of_nat k)) with (Z.to_nat pos + k)%nat by lia.
  destruct (_ && _ && _) eqn:E; case_decide; try done; lia.
Qed.

(** *** Masks of several bytes at once, in either byte order *)

Lemma bytes_ok_reverse bs : bytes_ok bs -> bytes_ok (reverse bs).
Proof. unfold bytes_ok. by rewrite Forall_reverse. Qed.

Lemma zip_with_land_reverse xs ys :
  length xs = length ys -> zip_with Z.land (reverse xs) (reverse ys) = reverse (zip_with Z.land xs ys).
Proof.
  revert ys. induction xs as [|x xs IH]; intros [|y ys] Hl; try done.
  rewrite !reverse_cons. simpl. rewrite reverse_cons, <- IH by (simpl in Hl; lia).
  rewrite zip_with_app; [done|]. rewrite !length_reverse. simpl in Hl. lia.
Qed.

Lemma word_mask e bs ms vs :
  length bs = length ms -> length vs = length ms -> bytes_ok bs -> bytes_ok ms -> bytes_ok vs ->
  (Z.land (word_of e bs) (word_of e ms) =? word_of e vs) = bool_decide (zip_with Z.land bs ms = vs).
Proof.
  intros Hb Hv Hbok Hmok Hvok. apply eq_bool_prop_intro. rewrite !Is_true_true, Z.eqb_eq, bool_decide_eq_true.
  assert (length (zip_with Z.land bs ms) = length vs) as Hz
    by (rewrite length_zip_with_l_eq by lia; lia).
  pose proof (zip_with_land_ok _ _ Hbok Hmok).
  destruct e; unfold word_of.
  - rewrite le_bytes_land by done.
    split; [intros; apply le_bytes_inj; done | by intros ->].
  - rewrite le_bytes_land by (auto using bytes_ok_reverse; by rewrite !length_reverse).
    rewrite zip_with_land_reverse by done.
    split; [|by intros ->]. intros Heq. apply (inj reverse).
    apply le_bytes_inj; auto using bytes_ok_reverse. by rewrite !length_reverse.
Qed.

Lemma continuation_tail b : byte_ok b -> (Z.land b 0xC0 =? 0x80) = tailb b.
Proof.
  intros Hb. apply eqb_prop. apply (byte_forall (fun b => eqb (Z.land b 0xC0 =? 0x80) (tailb b))); [|done].
  vm_compute. done.
Qed.

Lemma continuation_iff b : byte_ok b -> Z.land b 0xC0 = 0x80 <-> tailb b = true.
Proof. intros Hb. by rewrite <- continuation_tail, Z.eqb_eq. Qed.

Ltac byte_list := unfold bytes_ok; repeat (apply Forall_cons_2; [mlia|]); apply Forall_nil_2.

Lemma continuations2 e b1 b2 :
  byte_ok b1 -> byte_ok b2 ->
  (Z.land (word_of e [b1; b2]) 0xC0C0 =? 0x8080) = tailb b1 && tailb b2.
Proof.
  intros H1 H2. replace 0xC0C0 with (word_of e [0xC0; 0xC0]) by (by destruct e).
  replace 0x8080 with (word_of e [0x80; 0x80]) by (by destruct e).
  rewrite word_mask by (done || byte_list). apply eq_bool_prop_intro.
  rewrite !Is_true_true, bool_decide_eq_true, andb_true_iff, <- !continuation_iff by done.
  cbn. split; [intros [= -> ->]; done | intros [-> ->]; done].
Qed.

Definition mask4 (e : endian) : Z := match e with big => 0xC0C0C0 | little => 0xC0C0C000 end.
Definition value4 (e : endian) : Z := match e with big => 0x808080 | little => 0x80808000 end.

Lemma continuations3 e b0 b1 b2 b3 :
  byte_ok b0 -> byte_ok b1 -> byte_ok b2 -> byte_ok b3 ->
  (Z.land (word_of e [b0; b1; b2; b3]) (mask4 e) =? value4 e) = tailb b1 && tailb b2 && tailb b3.
Proof.
  intros H0 H1 H2 H3. replace (mask4 e) with (word_of e [0; 0xC0; 0xC0; 0xC0]) by (by destruct e).
  replace (value4 e) with (word_of e [0; 0x80; 0x80; 0x80]) by (by destruct e).
  rewrite word_mask by (done || byte_list). apply eq_bool_prop_intro.
  rewrite !Is_true_true, bool_decide_eq_true, !andb_true_iff, <- !continuation_iff by done.
  cbn. rewrite Z.land_0_r. split; [intros [= -> -> ->]; done | intros [[-> ->] ->]; done].
Qed.

(** *** One turn recognises one character *)

Lemma len_ltb_cons b s k : (len (b :: s) <? k) = (len s <? k - 1).
Proof.
  unfold len. rewrite length_cons.
  destruct (Z.ltb_spec (Z.of_nat (S (length s))) k), (Z.ltb_spec (Z.of_nat (length s)) (k - 1)); lia.
Qed.

Lemma len_ltb_nonpos s k : k <= 0 -> (len s <? k) = false.
Proof. intros. apply Z.ltb_ge. unfold len. lia. Qed.

Ltac short := rewrite ?len_ltb_cons, ?len_ltb_nonpos by lia; cbn [length take drop]; rewrite ?take_0.

Lemma full_body_spec e str pos :
  bytes_ok str -> 0 <= pos < len str ->
  full_body e str pos (len str) =
    Some (match first_char (drop (Z.to_nat pos) str) with
          | Some n => Continue (pos + Z.of_nat n) | None => Return false end).
Proof.
  intros Hok Hpos. unfold full_body.
  pose proof (rd_drop str pos 0 ltac:(lia)) as R0. pose proof (rd_drop str pos 1 ltac:(lia)) as R1.
  pose proof (rdn_drop str pos 1 2 ltac:(lia) ltac:(lia)) as R2.
  pose proof (rdn_drop str pos 0 4 ltac:(lia) ltac:(lia)) as R4.
  change (Z.of_nat 1) with 1 in *. change (Z.of_nat 2) with 2 in *.
  change (Z.of_nat 4) with 4 in *. rewrite Z.add_0_r in R0, R4. rewrite R0, R1, R2, R4.
  assert (len str - pos = len (drop (Z.to_nat pos) str)) as ->
    by (unfold len in *; rewrite length_drop; lia).
  pose proof (bytes_ok_drop (Z.to_nat pos) str Hok) as Hs.
  assert (drop (Z.to_nat pos) str <> []) as Hne.
  { intros E. apply (f_equal length) in E. rewrite length_drop in E. unfold len in *. simpl in E. lia. }
  clear R0 R1 R2 R4. generalize dependent (drop (Z.to_nat pos) str). clear Hok Hpos str.
  intros s Hs Hne. destruct s as [|b0 r]; [done|]. apply bytes_ok_cons in Hs as [H0 Hr].
  change ((b0 :: r) !! 0%nat) with (Some b0). cbn [mbind option_bind].
  change ((b0 :: r) !! 1%nat) with (r !! 0%nat).
  unfold first_char, is_in_range.
  replace (within 0 b0 0x7F) with (b0 <=? 0x7F) by (unfold byte_ok in H0; ulia).
  fold (within 0xC2 b0 0xDF) (within 0xE0 b0 0xEF) (within 0xF0 b0 0xF4).
  destruct (b0 <=? 0x7F); [done|].
  destruct (within 0xC2 b0 0xDF); [|destruct (within 0xE0 b0 0xEF);
    [|destruct (within 0xF0 b0 0xF4); [|done]]].
  - destruct r as [|b1 r]; [done|]. apply bytes_ok_cons in Hr as [H1 _].
    short. cbn [mbind option_bind lookup list_lookup]. rewrite continuation_tail by done.
    by destruct (tailb b1).
  - destruct r as [|b1 [|b2 r]]; [done..|].
    apply bytes_ok_cons in Hr as [H1 Hr]. apply bytes_ok_cons in Hr as [H2 _].
    short. rewrite decide_True by lia. cbn [mbind option_bind lookup list_lookup].
    rewrite continuations2 by done. split_ifs; first [done | ulia].
  - destruct r as [|b1 [|b2 [|b3 r]]]; [done..|].
    apply bytes_ok_cons in Hr as [H1 Hr]. apply bytes_ok_cons in Hr as [H2 Hr].
    apply bytes_ok_cons in Hr as [H3 _].
    short. rewrite decide_True by lia. cbn [mbind option_bind lookup list_lookup].
     pose proof (continuations3 e b0 b1 b2 b3 H0 H1 H2 H3) as C.
    destruct e; cbn [mask4 value4] in C; rewrite C; split_ifs; first [done | ulia].
Qed.

Lemma full_loop_spec e fuel str pos :
  bytes_ok str -> 0 <= pos <= len str -> len str - pos <= Z.of_nat fuel ->
  full_loop e fuel str pos (len str) = Some (valid (drop (Z.to_nat pos) str)).
Proof.
  revert pos. induction fuel as [|fuel IH]; intros pos Hok Hp Hf; simpl;
    (destruct (Z.ltb_spec pos (len str)); [|by rewrite drop_ge by (unfold len in *; lia)]); [lia|].
  rewrite full_body_spec by (done || lia). cbn [mbind option_bind].
  rewrite valid_step; [|by apply bytes_ok_drop|].
  2: { intros E%(f_equal length). rewrite length_drop in E. unfold len in *. simpl in E. lia. }
  destruct (first_char _) as [n|] eqn:E; [|done].
  apply first_char_sound in E as (c & rest & Hs & <- & Hc); [|by apply bytes_ok_drop].
  pose proof (utf8_char_length c Hc). apply (f_equal length) in Hs as Hl.
  rewrite length_drop, length_app in Hl. unfold len in *.
  rewrite IH by (done || lia). rewrite drop_drop. do 3 f_equal. lia.
Qed.

Lemma full_spec e str pos :
  bytes_ok str -> 0 <= pos <= len str ->
  IsValidUtf8ScalarFull e str pos (len str) = Some (valid (drop (Z.to_nat pos) str)).
Proof. intros. apply full_loop_spec; auto. lia. Qed.

(** *** The ASCII fast path *)

Definition ascii (b : Z) : Prop := 0 <= b < 0x80.

Lemma valid_ascii_app xs ys : Forall ascii xs -> bytes_ok ys -> valid (xs ++ ys) = valid ys.
Proof.
  intros Hx Hy. induction Hx as [|x xs Hx Hxs IH]; [done|].
  assert (bytes_ok (x :: xs ++ ys)) as Hok.
  { apply bytes_ok_cons. split; [unfold ascii in *; mlia|]. apply bytes_ok_app. split; [|done].
    eapply Forall_impl; [exact Hxs|]. unfold ascii. intros; mlia. }
  change ((x :: xs) ++ ys) with (x :: xs ++ ys).
  rewrite valid_step by done. cbn [first_char].
  replace (within 0 x 0x7F) with true by (unfold ascii in Hx; ulia). done.
Qed.

Lemma ascii_bit b : byte_ok b -> Z.land b 0x80 = 0 <-> ascii b.
Proof.
  intros Hb. unfold ascii.
  pose proof (byte_forall (fun b => eqb (Z.land b 0x80 =? 0) (b <? 0x80)) b) as H.
  specialize (H ltac:(vm_compute; done) Hb). apply eqb_prop in H. mlia.
Qed.

Lemma word_mask8 e bs :
  bytes_ok bs -> length bs = 8%nat ->
  (Z.land (word_of e bs) 0x8080808080808080 =? 0) = bool_decide (Forall ascii bs).
Proof.
  intros Hb Hl.
  replace 0x8080808080808080 with (word_of e (replicate 8 0x80)) by (by destruct e).
  replace 0 with (word_of e (replicate 8 0)) at 1 by (by destruct e).
  rewrite word_mask by (rewrite ?Hl; done || (apply Forall_replicate; mlia)).
  apply bool_decide_ext.
  destruct bs as [|b0 [|b1 [|b2 [|b3 [|b4 [|b5 [|b6 [|b7 [|]]]]]]]]]; try done.
  unfold bytes_ok in Hb. rewrite !Forall_cons in Hb. destruct_and!.
  cbn. rewrite !Forall_cons, <- !ascii_bit by done. split.
  - intros [= -> -> -> -> -> -> -> ->]. auto 10.
  - intros (->&->&->&->&->&->&->&->&_). done.
Qed.

(** What either ASCII loop leaves: it got somewhere before [limit], everything
    behind it is ASCII, and it only stops early at a non-ASCII byte. *)
Definition ascii_scan (data : list Z) (pos limit : Z) (r : option (bool * Z)) : Prop :=
  exists stopped pos', r = Some (stopped, pos') /\ pos <= pos' <= limit /\
    Forall ascii (take (Z.to_nat pos') data) /\ (stopped = false -> pos' = limit).

Lemma take_advance (data : list Z) pos (n : nat) :
  0 <= pos -> Forall ascii (take (Z.to_nat pos) data) ->
  Forall ascii (take n (drop (Z.to_nat pos) data)) ->
  Forall ascii (take (Z.to_nat (pos + Z.of_nat n)) data).
Proof.
  intros Hp H1 H2. replace (Z.to_nat (pos + Z.of_nat n)) with (Z.to_nat pos + n)%nat by lia.
  rewrite <- take_take_drop. by apply Forall_app.
Qed.

Lemma ascii_loop8_spec e fuel data pos limit :
  bytes_ok data -> 0 <= pos <= limit -> limit <= len data -> (limit - pos) mod 8 = 0 ->
  limit - pos <= Z.of_nat fuel -> Forall ascii (take (Z.to_nat pos) data) ->
  ascii_scan data pos limit (ascii_loop8 e fuel data pos limit).
Proof.
  intros Hok. revert pos. induction fuel as [|fuel IH]; intros pos Hp Hl Hm Hf Ha; simpl.
  - exists false, pos. destruct (Z.ltb_spec pos limit); [lia|]. repeat split; auto; lia.
  - destruct (Z.ltb_spec pos limit); [|exists false, pos; repeat split; auto; lia].
    destruct (rdn_is_Some data pos 8) as [bs Hr]; [dlia..|]. rewrite Hr. cbn [mbind option_bind].
    pose proof (rdn_bytes_ok _ _ _ _ Hok Hr). pose proof (rdn_len _ _ _ _ Hr) as Hlen.
    rewrite word_mask8 by (unfold len in Hlen; auto; lia).
    case_bool_decide as Hall; simpl; [|exists true, pos; repeat split; auto; lia].
    apply rdn_Some in Hr as (_&_&_&->).
    destruct (IH (pos + 8)) as (st & p & -> & ? & ? & ?); [dlia..| |].
    + apply (take_advance data pos 8); [lia|done..].
    + exists st, p. repeat split; auto; lia.
Qed.

Lemma ascii_loop1_spec fuel data pos size :
  bytes_ok data -> 0 <= pos <= size -> size <= len data ->
  size - pos <= Z.of_nat fuel -> Forall ascii (take (Z.to_nat pos) data) ->
  ascii_scan data pos size (ascii_loop1 fuel data pos size).
Proof.
  intros Hok. revert pos. induction fuel as [|fuel IH]; intros pos Hp Hl Hf Ha; simpl.
  - exists false, pos. destruct (Z.ltb_spec pos size); [lia|]. repeat split; auto; lia.
  - destruct (Z.ltb_spec pos size); [|exists false, pos; repeat split; auto; lia].
    destruct (rd_is_Some data pos) as [b Hr]; [lia|]. rewrite Hr. cbn [mbind option_bind].
    destruct (Z.eqb_spec (Z.land b 0x80) 0) as [Hb|]; simpl; [|exists true, pos; repeat split; auto; lia].
    apply ascii_bit in Hb; [|eapply rd_byte_ok; eauto].
    destruct (IH (pos + 1)) as (st & p & -> & ? & ? & ?); [lia..| |].
    + apply (take_advance data pos 1); [lia|done|].
      unfold rd in Hr. destruct (pos <? 0); [done|].
      rewrite (drop_S _ _ _ Hr). simpl. rewrite take_0. by apply Forall_singleton.
    + exists st, p. repeat split; auto; lia.
Qed.

(** [size & ~7] rounds down to a multiple of eight. *)
Lemma land_not7 size : fits 64 size -> Z.land size (∁[64] 7) = size - size mod 8.
Proof.
  intros Hs. replace (Z.land size (∁[64] 7)) with (Z.ldiff size (Z.ones 3)).
  - rewrite Z.ldiff_ones_r, Z.shiftr_div_pow2, Z.shiftl_mul_pow2 by lia. change (2 ^ 3) with 8. dlia.
  - apply Z.bits_inj_iff'. intros i Hi. rewrite Z.ldiff_spec, Z.land_spec.
    change (∁[64] 7) with (Z.ldiff (Z.ones 64) (Z.ones 3)).
    rewrite Z.ldiff_spec. destruct (Z.lt_ge_cases i 64).
    + rewrite (Z.ones_spec_low 64) by lia. done.
    + enough (Z.testbit size i = false) as -> by done.
      destruct (Z.eq_dec size 0) as [->|]; [apply Z.bits_0|]. apply Z.bits_above_log2; [mlia|].
      apply Z.lt_le_trans with 64; [|lia]. apply Z.log2_lt_pow2; mlia.
Qed.

Lemma valid_after_ascii data pos :
  bytes_ok data -> 0 <= pos -> Forall ascii (take (Z.to_nat pos) data) ->
  valid data = valid (drop (Z.to_nat pos) data).
Proof.
  intros Hok Hp Ha. rewrite <- (take_drop (Z.to_nat pos) data) at 1.
  apply valid_ascii_app; [done | by apply bytes_ok_drop].
Qed.

Lemma IsValidUtf8Scalar_valid e data :
  bytes_ok data -> len data < 2 ^ 64 ->
  IsValidUtf8Scalar e (Some data) (len data) = Some (valid data).
Proof.
  intros Hok Hl. pose proof (len_nonneg data). unfold IsValidUtf8Scalar. rewrite land_not7 by mlia.
  destruct (ascii_loop8_spec e (Z.to_nat (len data)) data 0 (len data - len data mod 8))
    as (st & p & -> & Hp & Ha & Hst); [done|dlia..|constructor|].
  cbn [mbind option_bind]. destruct st.
  { rewrite full_spec by (done || dlia). by rewrite <- valid_after_ascii by (done || lia). }
  destruct (ascii_loop1_spec (Z.to_nat (len data)) data p (len data))
    as (st & q & -> & Hq & Ha2 & Hst2); [done|dlia..|done|].
  cbn [mbind option_bind]. destruct st.
  - rewrite full_spec by (done || dlia). by rewrite <- valid_after_ascii by (done || lia).
  - specialize (Hst2 eq_refl) as ->. rewrite (valid_after_ascii data (len data)) by (done || lia).
    rewrite drop_ge by (unfold len; lia). done.
Qed.

Lemma ValidateAndCopyUtf8Scalar_valid e src dst :
  bytes_ok src -> len src < 2 ^ 64 -> len src <= len dst ->
  ValidateAndCopyUtf8Scalar e (Some src) dst (len src) =
    Some (valid src, if valid src then src ++ drop (length src) dst else dst).
Proof.
  intros Hok Hl Hd. unfold ValidateAndCopyUtf8Scalar. rewrite IsValidUtf8Scalar_valid by done.
  cbn [mbind option_bind]. destruct (valid src); [|done].
  unfold rdn, wrn. rewrite (proj2 (in_range_spec src 0 (len src))) by (pose proof (len_nonneg src); lia).
  cbn [mbind option_bind]. change (drop (Z.to_nat 0) src) with src.
  rewrite take_ge by (unfold len; lia).
  rewrite (proj2 (in_range_spec dst 0 (len src))) by (pose proof (len_nonneg src); lia). done.
Qed.

(** C38.  The scalar validator always returns, reads no byte outside its [size]
    bytes, and accepts exactly the concatenations of UTF-8 encodings of Unicode
    scalar values, whatever the byte order of the machine. *)
Theorem IsValidUtf8Scalar_correct e data :
  bytes_ok data -> len data < 2 ^ 64 ->
  exists verdict, IsValidUtf8Scalar e (Some data) (len data) = Some verdict /\
    (verdict = true <-> exists cps, Forall is_scalar_value cps /\ data = encodes cps).
Proof.
  intros Hok Hl. exists (valid data). split; [by apply IsValidUtf8Scalar_valid|].
  by rewrite valid_spec, octets_encodes.
Qed.

(** "h\u00e9\u20ac\U0001F600" in UTF-8. *)
Lemma IsValidUtf8Scalar_correct_witness :
  let data := encodes [0x68; 0xE9; 0x20AC; 0x1F600] in
  bytes_ok data /\ IsValidUtf8Scalar little (Some data) (len data) = Some true /\
  exists verdict, IsValidUtf8Scalar little (Some data) (len data) = Some verdict /\
    (verdict = true <-> exists cps, Forall is_scalar_value cps /\ data = encodes cps).
Proof.
  assert (bytes_ok (encodes [0x68; 0xE9; 0x20AC; 0x1F600])) as H
    by (apply (bool_decide_unpack _); vm_compute; exact I).
  split; [exact H|]. split; [vm_compute; reflexivity|].
  apply (IsValidUtf8Scalar_correct little _ H). vm_compute. reflexivity.
Defined.

End Utf8Scalar.
