(* ===== verification/Utf8Lookup.v ===== *)
(** * UTF-8: why the lookup tables are right

    The SIMD validator of generic-simd.h looks at each byte together with the
    three before it.  This file shows that the test it makes there, [err], is the
    transition function of an automaton for UTF-8, and that automaton accepts the
    grammar of Utf8Scalar.v.  The 256 byte values fall into fourteen classes that
    neither the tables nor the automaton can tell apart, so the central step is a
    finite check over windows of four classes. *)

From S2P Require Import Prelude Utf8Scalar Utf8Simd.
Import Utf8Spec Utf8Scalar Utf8Simd.

(** The three bytes before the current one, oldest first. *)
Record window := W { p3 : Z; p2 : Z; p1 : Z }.

Definition shift (w : window) (c : Z) : window := W (p2 w) (p1 w) c.
Definition shifts (w : window) (s : list Z) : window := foldl shift w s.

(** One lane of [ClassifyRules] and of [CheckMultiByte]. *)
Definition rule (prev cur : Z) : Z :=
  Z.land (Z.land (nth (Z.to_nat (Z.land prev 0xF)) byte1_lo_table 0)
                 (nth (Z.to_nat (Z.shiftr prev 4)) byte1_hi_table 0))
         (nth (Z.to_nat (Z.shiftr cur 4)) byte2_hi_table 0).
Definition multi (prev2 prev3 : Z) : Z :=
  if (0xE0 <=? prev2) || (0xF0 <=? prev3) then 0x80 else 0.

Definition err (w : window) (c : Z) : Z := Z.lxor (rule (p1 w) c) (multi (p2 w) (p3 w)).

Fixpoint scan (w : window) (s : list Z) : bool :=
  match s with [] => true | c :: s => (err w c =? 0) && scan (shift w c) s end.

(** One lane each of [CheckIncomplete]: a character is still open. *)
Definition incomplete (w : window) : bool := (0xF0 <=? p3 w) || (0xE0 <=? p2 w) || (0xC0 <=? p1 w).

(** ** An automaton for UTF-8

    The tables notice a byte that starts no character (C0, C1, F5 to FF) only
    when they see the byte after it, or at the end of the string; the automaton
    does the same, through [Doomed]. *)

Inductive state := Start | Tail1 | Tail2 | Tail3 | AfterE0 | AfterED | AfterF0 | AfterF4 | Doomed.

#[export] Instance state_eq_dec : EqDecision state.
Proof. solve_decision. Defined.

Definition step (q : state) (b : Z) : option state :=
  let on (c : bool) (q : state) := if c then Some q else None in
  match q with
  | Start =>
      if within 0x00 b 0x7F then Some Start
      else if within 0xC2 b 0xDF then Some Tail1
      else if b =? 0xE0 then Some AfterE0
      else if b =? 0xED then Some AfterED
      else if within 0xE1 b 0xEF then Some Tail2
      else if b =? 0xF0 then Some AfterF0
      else if b =? 0xF4 then Some AfterF4
      else if within 0xF1 b 0xF3 then Some Tail3
      else on (within 0xC0 b 0xC1 || (0xF5 <=? b)) Doomed
  | Tail1 => on (tailb b) Start
  | Tail2 => on (tailb b) Tail1
  | Tail3 => on (tailb b) Tail2
  | AfterE0 => on (within 0xA0 b 0xBF) Tail1
  | AfterED => on (within 0x80 b 0x9F) Tail1
  | AfterF0 => on (within 0x90 b 0xBF) Tail2
  | AfterF4 => on (within 0x80 b 0x8F) Tail2
  | Doomed => None
  end.

Fixpoint run (q : state) (s : list Z) : option state :=
  match s with [] => Some q | b :: s => q' ← step q b; run q' s end.

Lemma run_app q s t : run q (s ++ t) = q' ← run q s; run q' t.
Proof.
  revert q. induction s as [|b s IH]; intros q; [done|]. simpl.
  destruct (step q b); simpl; [apply IH | done].
Qed.

(** A character takes [Start] to [Start], and nothing shorter does. *)
Lemma run_char c : utf8_char c -> run Start c = Some Start.
Proof.
  intros H; inversion H; subst; cbn -[within tailb Z.eqb];
    repeat (match goal with |- context [if ?c then _ else _] => destruct c eqn:? end;
            cbn -[within tailb Z.eqb]; try (exfalso; ulia); try done).
Qed.

Lemma run_open q s :
  q <> Start -> run q s = Some Start ->
  exists t r q', s = t :: r /\ step q t = Some q' /\ run q' r = Some Start.
Proof.
  intros Hq H. destruct s as [|t r]; [by injection H as ->|]. simpl in H.
  destruct (step q t) as [q'|] eqn:E; [|done]. simpl in H. eauto 10.
Qed.

(** Step through an open character: the byte there, and what it must be. *)
Ltac open_char H :=
  let t := fresh "t" in let r := fresh "r" in let q := fresh "q" in
  apply run_open in H as (t & r & q & -> & ?Hs & H); [|discriminate];
  cbn [step] in *;
  match goal with Hs : (if ?c then _ else _) = Some q |- _ =>
    destruct c eqn:?; [injection Hs as <- | discriminate Hs] end.

Ltac close_char H n :=
  exists n; split; [|exact H]; cbn [first_char]; split_ifs; first [done | exfalso; ulia].

Lemma run_first s : s <> [] -> bytes_ok s -> run Start s = Some Start ->
  exists n, first_char s = Some n /\ run Start (drop n s) = Some Start.
Proof.
  intros Hne Hok H. destruct s as [|b0 s]; [done|]. apply bytes_ok_cons in Hok as [Hb _].
  unfold byte_ok in Hb. cbn [run step] in H.
  destruct (within 0 b0 0x7F) eqn:?; [close_char H 1%nat|].
  destruct (within 0xC2 b0 0xDF) eqn:?; [cbn in H; open_char H; close_char H 2%nat|].
  destruct (b0 =? 0xE0) eqn:?; [cbn in H; do 2 open_char H; close_char H 3%nat|].
  destruct (b0 =? 0xED) eqn:?; [cbn in H; do 2 open_char H; close_char H 3%nat|].
  destruct (within 0xE1 b0 0xEF) eqn:?; [cbn in H; do 2 open_char H; close_char H 3%nat|].
  destruct (b0 =? 0xF0) eqn:?; [cbn in H; do 3 open_char H; close_char H 4%nat|].
  destruct (b0 =? 0xF4) eqn:?; [cbn in H; do 3 open_char H; close_char H 4%nat|].
  destruct (within 0xF1 b0 0xF3) eqn:?; [cbn in H; do 3 open_char H; close_char H 4%nat|].
  destruct (_ || _); [|done]. cbn in H. by apply run_open in H as (?&?&?&?&?&?).
Qed.

(** The automaton accepts the UTF-8 strings. *)
Lemma run_valid s : bytes_ok s -> valid s = bool_decide (run Start s = Some Start).
Proof.
  intros Hok. apply eq_bool_prop_intro. rewrite !Is_true_true, bool_decide_eq_true, valid_spec by done.
  split.
  - induction 1 as [|c rest Hc _ IH]; [done|]. rewrite run_app, run_char by done. simpl. apply IH.
    by apply bytes_ok_app in Hok as [_ ?].
  - induction s as [s IH] using (well_founded_induction (Wf_nat.well_founded_ltof _ length)).
    intros H. destruct (decide (s = [])) as [->|Hne]; [constructor|].
    destruct (run_first s Hne Hok H) as (n & Hn & Hr).
    destruct (first_char_sound s n Hok Hn) as (c & rest & -> & <- & Hc).
    rewrite drop_app_length in Hr. apply bytes_ok_app in Hok as [_ ?].
    pose proof (utf8_char_length c Hc).
    constructor; [done|]. apply IH; [|done..]. unfold ltof. rewrite length_app. lia.
Qed.

(** ** Byte classes *)

Definition reps : list Z :=
  [0; 0x80; 0x90; 0xA0; 0xC0; 0xC2; 0xE0; 0xE1; 0xED; 0xEE; 0xF0; 0xF1; 0xF4; 0xF5].

(** The least byte of the class of [b]. *)
Definition rep (b : Z) : Z := List.last (List.filter (fun r => r <=? b) reps) 0.

Definition rep_window (w : window) : window := W (rep (p3 w)) (rep (p2 w)) (rep (p1 w)).
Definition window_ok (w : window) : Prop := byte_ok (p3 w) /\ byte_ok (p2 w) /\ byte_ok (p1 w).

Definition all_states : list state := [Start; Tail1; Tail2; Tail3; AfterE0; AfterED; AfterF0; AfterF4; Doomed].

Lemma all_states_complete q : In q all_states.
Proof. destruct q; cbn; tauto. Qed.

Lemma rep_in b : byte_ok b -> In (rep b) reps.
Proof.
  intros Hb. pose proof (byte_forall (fun b => existsb (Z.eqb (rep b)) reps) b) as H.
  specialize (H ltac:(vm_compute; done) Hb). apply existsb_exists in H as (r & Hr & ->%Z.eqb_eq). done.
Qed.

Lemma step_rep q b : byte_ok b -> step q b = step q (rep b).
Proof.
  intros Hb. pose proof (byte_forall (fun b => bool_decide (step q b = step q (rep b))) b) as H.
  rewrite bool_decide_eq_true in H. apply H; [by destruct q; vm_compute | done].
Qed.

Lemma rule_rep a b : byte_ok a -> byte_ok b -> rule a b = rule (rep a) (rep b).
Proof.
  intros Ha Hb. apply Z.eqb_eq.
  apply (byte_forall (fun b => rule a b =? rule (rep a) (rep b))); [|done].
  apply (byte_forall (fun a => forallb (fun b => rule a b =? rule (rep a) (rep b)) (seqZ 0 256))); [|done].
  vm_compute. done.
Qed.

Lemma leb_rep k b : In k reps -> byte_ok b -> (k <=? b) = (k <=? rep b).
Proof.
  intros Hk Hb.
  assert (forallb (fun k => forallb (fun b => eqb (k <=? b) (k <=? rep b)) (seqZ 0 256)) reps = true)
    as H by (vm_compute; done).
  rewrite forallb_forall in H. apply eqb_prop.
  exact (byte_forall (fun b => eqb (k <=? b) (k <=? rep b)) b (H k Hk) Hb).
Qed.

Lemma multi_rep a b : byte_ok a -> byte_ok b -> multi a b = multi (rep a) (rep b).
Proof.
  intros. unfold multi. rewrite (leb_rep 0xE0 a), (leb_rep 0xF0 b) by (done || (cbn; tauto)). done.
Qed.

Lemma err_rep w c : window_ok w -> byte_ok c -> err w c = err (rep_window w) (rep c).
Proof.
  intros (?&?&?) ?. unfold err, rep_window. cbn [p1 p2 p3].
  by rewrite (rule_rep (p1 w) c), (multi_rep (p2 w) (p3 w)) by done.
Qed.

Lemma incomplete_rep w : window_ok w -> incomplete w = incomplete (rep_window w).
Proof.
  intros (?&?&?). unfold incomplete, rep_window. cbn [p1 p2 p3].
  rewrite (leb_rep 0xF0 (p3 w)), (leb_rep 0xE0 (p2 w)), (leb_rep 0xC0 (p1 w)) by (done || (cbn; tauto)).
  done.
Qed.

(** ** The state a window stands for *)

Definition wstate (w : window) : state :=
  if 0xC0 <=? p1 w then default Start (step Start (p1 w))
  else if 0xE0 <=? p2 w then (if 0xF0 <=? p2 w then Tail2 else Tail1)
  else if 0xF0 <=? p3 w then Tail1
  else Start.

(** The window is a piece of a run that ended in its state. *)
Definition consistent (w : window) : bool :=
  existsb (fun q => bool_decide (run q [p3 w; p2 w; p1 w] = Some (wstate w))) all_states.

Lemma wstate_rep w : window_ok w -> wstate w = wstate (rep_window w).
Proof.
  intros (?&?&?). unfold wstate, rep_window. cbn [p1 p2 p3].
  rewrite <- (leb_rep 0xF0 (p3 w)), <- (leb_rep 0xE0 (p2 w)), <- (leb_rep 0xF0 (p2 w)),
    <- (leb_rep 0xC0 (p1 w)) by (done || (cbn; tauto)).
  by rewrite <- step_rep.
Qed.

Lemma consistent_rep w : window_ok w -> consistent w = consistent (rep_window w).
Proof.
  intros Hw. unfold consistent. rewrite <- wstate_rep by done. destruct Hw as (?&?&?).
  assert (forall q, run q [p3 w; p2 w; p1 w] = run q [p3 (rep_window w); p2 (rep_window w); p1 (rep_window w)]) as E.
  { intros q. cbn [run rep_window p1 p2 p3]. rewrite <- step_rep by done.
    destruct (step q (p3 w)) as [q1|]; [|done]. cbn [mbind option_bind].
    rewrite <- step_rep by done. destruct (step q1 (p2 w)) as [q2|]; [|done].
    cbn [mbind option_bind]. by rewrite <- step_rep. }
  cbn [all_states existsb]. by rewrite !E.
Qed.

(** The check over classes: on a consistent window the test of the tables fails
    exactly when the automaton is stuck, and the next window stands for the next state. *)
Definition agrees (w : window) (c : Z) : bool :=
  match step (wstate w) c with
  | Some q => (err w c =? 0) && bool_decide (wstate (shift w c) = q)
  | None => negb (err w c =? 0)
  end.

Definition windows : list window :=
  flat_map (fun a => flat_map (fun b => List.map (W a b) reps) reps) reps.

Lemma rep_window_in w : window_ok w -> In (rep_window w) windows.
Proof.
  intros (H3&H2&H1). apply rep_in in H3, H2, H1. unfold windows, rep_window.
  apply in_flat_map. eexists; split; [exact H3|]. apply in_flat_map.
  eexists; split; [exact H2|]. by apply in_map.
Qed.

Lemma agrees_rep w c : window_ok w -> byte_ok c -> agrees w c = agrees (rep_window w) (rep c).
Proof.
  intros Hw Hc. unfold agrees. rewrite <- wstate_rep, <- step_rep, <- err_rep by done.
  rewrite (wstate_rep (shift w c)); [done|]. destruct Hw as (?&?&?). done.
Qed.

Lemma tables_agree w c : window_ok w -> byte_ok c -> consistent w = true -> agrees w c = true.
Proof.
  intros Hw Hc. rewrite agrees_rep, consistent_rep by done.
  assert (forallb (fun w => negb (consistent w) || forallb (agrees w) reps) windows = true) as H
    by (vm_compute; done).
  rewrite forallb_forall in H. specialize (H _ (rep_window_in w Hw)).
  intros Hcon. rewrite Hcon in H. cbn [negb orb] in H. rewrite forallb_forall in H. by apply H, rep_in.
Qed.

Lemma incomplete_open w : window_ok w -> consistent w = true ->
  incomplete w = negb (bool_decide (wstate w = Start)).
Proof.
  intros Hw. rewrite incomplete_rep, consistent_rep, wstate_rep by done.
  assert (forallb (fun w => negb (consistent w) ||
    eqb (incomplete w) (negb (bool_decide (wstate w = Start)))) windows = true) as H by (vm_compute; done).
  rewrite forallb_forall in H. specialize (H _ (rep_window_in w Hw)).
  intros Hcon. rewrite Hcon in H. by apply eqb_prop in H.
Qed.

(** ** The table scan is a run of the automaton *)

Lemma window_ok_shift w c : window_ok w -> byte_ok c -> window_ok (shift w c).
Proof. intros (?&?&?) ?. done. Qed.

Lemma window_ok_shifts w s : window_ok w -> bytes_ok s -> window_ok (shifts w s).
Proof.
  revert w. induction s as [|c s IH]; intros w Hw Hs; [done|].
  apply bytes_ok_cons in Hs as [??]. apply IH; auto using window_ok_shift.
Qed.

Lemma consistent_shift w c :
  consistent w = true -> step (wstate w) c = Some (wstate (shift w c)) -> consistent (shift w c) = true.
Proof.
  unfold consistent. rewrite !existsb_exists. intros (q & _ & Hq%bool_decide_eq_true) Hs.
  cbn [run] in Hq. destruct (step q (p3 w)) as [q1|] eqn:E1; [|done].
  exists q1. split; [apply all_states_complete|]. apply bool_decide_eq_true.
  cbn [run mbind option_bind shift p1 p2 p3] in *.
  destruct (step q1 (p2 w)) as [q2|]; [|done]. cbn [mbind option_bind] in *.
  destruct (step q2 (p1 w)) as [q3|]; [|done]. cbn [mbind option_bind] in *.
  injection Hq as ->. by rewrite Hs.
Qed.

Lemma scan_run w s :
  window_ok w -> bytes_ok s -> consistent w = true ->
  match run (wstate w) s with
  | Some q => scan w s = true /\ wstate (shifts w s) = q /\ consistent (shifts w s) = true
  | None => scan w s = false
  end.
Proof.
  revert w. induction s as [|c s IH]; intros w Hw Hs Hc; [done|].
  apply bytes_ok_cons in Hs as [Hb Hs]. pose proof (tables_agree w c Hw Hb Hc) as Ha.
  unfold agrees in Ha. cbn [run scan]. destruct (step (wstate w) c) as [q|] eqn:E; cbn [mbind option_bind].
  - apply andb_true_iff in Ha as [-> Hq%bool_decide_eq_true]. subst q. cbn [andb].
    apply (IH (shift w c)); auto using window_ok_shift, consistent_shift.
  - apply negb_true_iff in Ha as ->. done.
Qed.

Definition w0 : window := W 0 0 0.

(** A string is UTF-8 when the tables find nothing wrong and no character is
    left open at its end. *)
Lemma scan_valid s : bytes_ok s -> valid s = scan w0 s && negb (incomplete (shifts w0 s)).
Proof.
  intros Hs. assert (window_ok w0) as Hw by (unfold window_ok, w0; cbn; mlia).
  pose proof (scan_run w0 s Hw Hs eq_refl) as H. rewrite run_valid by done.
  change (wstate w0) with Start in H. destruct (run Start s) as [q|].
  - destruct H as (-> & <- & Hc). rewrite incomplete_open by auto using window_ok_shifts.
    rewrite negb_involutive. apply bool_decide_ext. split; [by intros [= ->] | by intros ->].
  - by rewrite H.
Qed.

Lemma scan_app w s t : scan w (s ++ t) = scan w s && scan (shifts w s) t.
Proof.
  revert w. induction s as [|c s IH]; intros w; [done|]. cbn [scan app].
  rewrite IH. by rewrite andb_assoc.
Qed.

Lemma shifts_app w s t : shifts w (s ++ t) = shifts (shifts w s) t.
Proof. apply foldl_app. Qed.

(** An ASCII byte is fine exactly where no character is open. *)
Lemma err_ascii w c : window_ok w -> ascii c -> (err w c =? 0) = negb (incomplete w).
Proof.
  intros Hw Hc. assert (byte_ok c) by (unfold ascii in *; mlia).
  rewrite err_rep, incomplete_rep by done.
  assert (rep c = 0) as ->.
  { apply Z.eqb_eq. pose proof (byte_forall (fun c => negb (c <? 0x80) || (rep c =? 0)) c) as H1.
    specialize (H1 ltac:(vm_compute; done) ltac:(done)).
    cbn beta in H1. replace (c <? 0x80) with true in H1 by (unfold ascii in *; lia). exact H1. }
  assert (forallb (fun w => eqb (err w 0 =? 0) (negb (incomplete w))) windows = true) as H1
    by (vm_compute; done).
  rewrite forallb_forall in H1. apply eqb_prop, H1, rep_window_in, Hw.
Qed.

Lemma scan_ascii w s :
  window_ok w -> Forall ascii s -> s <> [] -> scan w s = negb (incomplete w).
Proof.
  intros Hw Hs. revert w Hw. induction Hs as [|c s Hc Hs IH]; intros w Hw Hne; [done|].
  cbn [scan]. rewrite err_ascii by done. destruct (incomplete w) eqn:E; [done|]. cbn.
  destruct (decide (s = [])) as [->|]; [done|].
  assert (byte_ok c) by (unfold ascii in *; mlia).
  rewrite IH by auto using window_ok_shift. unfold incomplete in *. cbn.
  unfold ascii in Hc. lia.
Qed.
