(* ===== verification/Utf8SimdCorrect.v ===== *)
(** * UTF-8: the SIMD driver is correct on every architecture

    Theorems about generic-simd.h, proved against the interface [ArchImplLaws]:
    each vector step is the byte-wise table test of Utf8Lookup.v, chunks and the
    ASCII shortcut preserve it, and the whole run returns the verdict of the
    grammar; the copying variant leaves the source in the destination. *)

From S2P Require Import Prelude Utf8Scalar Utf8Simd Utf8Lookup.
Import Utf8Spec Utf8Scalar Utf8Simd.

Section Lists.
Context {X Y R : Type}.

Lemma zip_with_take_l (f : X -> Y -> R) n l k :
  (length k <= n)%nat -> zip_with f (take n l) k = zip_with f l k.
Proof.
  revert l k. induction n as [|n IH]; intros [|x l] [|y k] H; try done; simpl in *; [lia|].
  by rewrite IH by lia.
Qed.

Lemma zip_with_take_r (f : X -> Y -> R) n l k :
  (length l <= n)%nat -> zip_with f l (take n k) = zip_with f l k.
Proof.
  revert l k. induction n as [|n IH]; intros [|x l] [|y k] H; try done; simpl in *; [lia|].
  by rewrite IH by lia.
Qed.

Lemma zip_with_take_both (f : X -> Y -> R) n l k :
  zip_with f (take n l) (take n k) = take n (zip_with f l k).
Proof.
  revert l k. induction n as [|n IH]; intros [|x l] [|y k]; try done. simpl. by rewrite IH.
Qed.

Lemma zip_with_replicate_r_eq (f : X -> Y -> R) n l y :
  length l = n -> zip_with f l (replicate n y) = (fun x => f x y) <$> l.
Proof. intros <-. induction l as [|x l IH]; [done|]. simpl. by rewrite IH. Qed.

Lemma split_last3 (l : list X) :
  (3 <= length l)%nat -> exists l' a b c, l = l' ++ [a; b; c] /\ length l' = (length l - 3)%nat.
Proof.
  intros H. exists (take (length l - 3) l).
  pose proof (take_drop (length l - 3) l) as E.
  assert (length (drop (length l - 3) l) = 3%nat) as Hd by (rewrite length_drop; lia).
  destruct (drop (length l - 3) l) as [|a [|b [|c [|]]]]; try done.
  exists a, b, c. split; [done|]. rewrite length_take. lia.
Qed.
End Lists.

Definition all_zero (bs : list Z) : bool := forallb (Z.eqb 0) bs.
Definition all_ascii (bs : list Z) : bool := forallb (fun b => b <? 0x80) bs.

Lemma all_zero_cons x xs : all_zero (x :: xs) = (0 =? x) && all_zero xs.
Proof. done. Qed.

Lemma all_ascii_cons x xs : all_ascii (x :: xs) = (x <? 0x80) && all_ascii xs.
Proof. done. Qed.

Lemma all_zero_lor xs ys :
  length xs = length ys -> all_zero (zip_with Z.lor xs ys) = all_zero xs && all_zero ys.
Proof.
  revert ys. induction xs as [|x xs IH]; intros [|y ys] H; try done. cbn [zip_with].
  rewrite !all_zero_cons, IH by (simpl in H; lia).
  assert ((0 =? Z.lor x y) = (0 =? x) && (0 =? y)) as ->.
  { rewrite !(Z.eqb_sym 0). apply eq_bool_prop_intro.
    rewrite !Is_true_true, andb_true_iff, !Z.eqb_eq. apply Z.lor_eq_0_iff. }
  destruct (0 =? x), (0 =? y), (all_zero xs), (all_zero ys); done.
Qed.

Lemma all_ascii_lor xs ys :
  bytes_ok xs -> bytes_ok ys -> length xs = length ys ->
  all_ascii (zip_with Z.lor xs ys) = all_ascii xs && all_ascii ys.
Proof.
  revert ys. induction xs as [|x xs IH]; intros [|y ys] Hx Hy H; try done. cbn [zip_with].
  apply bytes_ok_cons in Hx as [Hx Hxs]. apply bytes_ok_cons in Hy as [Hy Hys].
  rewrite !all_ascii_cons, IH by (auto; simpl in H; lia).
  assert ((Z.lor x y <? 0x80) = (x <? 0x80) && (y <? 0x80)) as ->.
  { apply eqb_prop. apply (byte_forall (fun y => eqb (Z.lor x y <? 0x80) ((x <? 0x80) && (y <? 0x80)))); [|done].
    apply (byte_forall (fun x => forallb (fun y => eqb (Z.lor x y <? 0x80) ((x <? 0x80) && (y <? 0x80))) (seqZ 0 256)));
      [|done].
    vm_compute. done. }
  destruct (x <? 0x80), (y <? 0x80), (all_ascii xs), (all_ascii ys); done.
Qed.

Lemma all_ascii_spec bs : bytes_ok bs -> all_ascii bs = true <-> Forall ascii bs.
Proof.
  unfold all_ascii, bytes_ok. rewrite forallb_forall, !List.Forall_forall.
  intros Hb. unfold ascii. split; intros H b Hin; specialize (H b Hin); specialize (Hb b Hin); mlia.
Qed.

Lemma all_ascii_app xs ys : all_ascii (xs ++ ys) = all_ascii xs && all_ascii ys.
Proof. apply forallb_app. Qed.

(** A window only remembers three bytes. *)
Lemma shifts_long w w' s : (3 <= length s)%nat -> shifts w s = shifts w' s.
Proof.
  intros H. destruct (split_last3 s H) as (s' & a & b & c & -> & _). by rewrite !shifts_app.
Qed.

(** *** The byte-wise errors of a block *)

Fixpoint errs (w : window) (s : list Z) : list Z :=
  match s with [] => [] | c :: s => err w c :: errs (shift w c) s end.

Lemma errs_zero w s : all_zero (errs w s) = scan w s.
Proof.
  revert w. induction s as [|c s IH]; intros w; [done|]. cbn [errs scan]. by rewrite all_zero_cons, IH, Z.eqb_sym.
Qed.

Lemma errs_length w s : length (errs w s) = length s.
Proof. revert w. induction s as [|c s IH]; intros w; simpl; auto. Qed.

Lemma errs_zip a b c s :
  errs (W a b c) s =
    zip_with Z.lxor (zip_with rule (c :: s) s) (zip_with multi (b :: c :: s) (a :: b :: c :: s)).
Proof.
  revert a b c. induction s as [|x s IH]; intros a b c; [done|]. cbn [errs zip_with]. f_equal. apply IH.
Qed.

Section Generic.
Context `{L : ArchImplLaws}.

Lemma size_ge : (16 <= VectorSize <= 32)%nat.
Proof. destruct size_cases as [->| ->]; lia. Qed.

(** The window a vector leaves behind. *)
Definition vwindow (v : Vector) : window := shifts w0 (lanes v).

Lemma vwindow_ok v : window_ok (vwindow v).
Proof. apply window_ok_shifts; [unfold window_ok, w0; cbn; mlia | apply lanes_ok]. Qed.

Lemma lanes_last3 v : exists l a b c,
  lanes v = l ++ [a; b; c] /\ length l = (VectorSize - 3)%nat /\ vwindow v = W a b c.
Proof.
  pose proof size_ge. destruct (split_last3 (lanes v)) as (l & a & b & c & E & Hl);
    [rewrite lanes_length; lia|].
  exists l, a, b, c. rewrite lanes_length in Hl. repeat split; auto.
  unfold vwindow. rewrite E. by rewrite shifts_app.
Qed.

Lemma Prev_window n cur prev l suf :
  (1 <= n <= 16)%nat -> lanes prev = l ++ suf -> length suf = n ->
  lanes (Prev n cur prev) = take VectorSize (suf ++ lanes cur).
Proof.
  intros Hn E Hs. pose proof size_ge. pose proof (lanes_length prev) as Hl.
  rewrite E, length_app in Hl. rewrite Prev_lanes, E by done.
  rewrite drop_app_length' by lia. rewrite take_app_ge by lia. by rewrite Hs.
Qed.

Lemma nibbles_lt v : Forall (fun i => 0 <= i < 16) (lanes (Shr4 v)).
Proof.
  rewrite Shr4_lanes. apply Forall_fmap. eapply Forall_impl; [apply lanes_ok|]. cbn.
  intros b Hb. rewrite Z.shiftr_div_pow2 by lia. change (2 ^ 4) with 16. dlia.
Qed.

Lemma low_nibbles v : lanes (vec_and v (Fill 0xF)) = (fun b => Z.land b 0xF) <$> lanes v.
Proof.
  rewrite and_lanes, Fill_lanes by mlia. apply zip_with_replicate_r_eq, lanes_length.
Qed.

Lemma low_nibbles_lt v : Forall (fun i => 0 <= i < 16) (lanes (vec_and v (Fill 0xF))).
Proof.
  rewrite low_nibbles. apply Forall_fmap. eapply Forall_impl; [apply lanes_ok|]. cbn.
  intros b Hb. change 0xF with (Z.ones 4). rewrite Z.land_ones by lia. change (2 ^ 4) with 16. dlia.
Qed.

Lemma tables_ok : bytes_ok byte1_lo_table /\ bytes_ok byte1_hi_table /\ bytes_ok byte2_hi_table.
Proof. by repeat split; apply (bool_decide_unpack _); vm_compute. Qed.

(** Every lane of [ClassifyRules] is [rule] of the byte before and the byte. *)
Lemma ClassifyRules_lanes cur prev :
  lanes (ClassifyRules cur prev) = zip_with rule (lanes (Prev 1 cur prev)) (lanes cur).
Proof.
  destruct tables_ok as (T1 & T2 & T3). unfold ClassifyRules.
  rewrite !and_lanes, !Lookup16_lanes by (done || apply nibbles_lt || apply low_nibbles_lt).
  rewrite low_nibbles, !Shr4_lanes.
  generalize (lanes (Prev 1 cur prev)), (lanes cur). intros xs.
  induction xs as [|x xs IH]; intros [|y ys]; try done. cbn. f_equal. apply IH.
Qed.

Lemma CheckMultiByte_lanes cur prev :
  lanes (CheckMultiByte cur prev) = zip_with multi (lanes (Prev 2 cur prev)) (lanes (Prev 3 cur prev)).
Proof.
  unfold CheckMultiByte. rewrite and_lanes, Fill_lanes by mlia.
  rewrite zip_with_replicate_r_eq by apply lanes_length. apply Check2Or3_lanes.
Qed.

Lemma block_errs cur prev :
  lanes (vec_xor (ClassifyRules cur prev) (CheckMultiByte cur prev)) = errs (vwindow prev) (lanes cur).
Proof.
  destruct (lanes_last3 prev) as (l & a & b & c & E & Hl & ->). pose proof (lanes_length cur) as Hc.
  rewrite xor_lanes, ClassifyRules_lanes, CheckMultiByte_lanes, errs_zip.
  rewrite (Prev_window 1 cur prev (l ++ [a; b]) [c]) by (done || lia || by rewrite E, <- app_assoc).
  rewrite (Prev_window 2 cur prev (l ++ [a]) [b; c]) by (done || lia || by rewrite E, <- app_assoc).
  rewrite (Prev_window 3 cur prev l [a; b; c]) by (done || lia).
  rewrite zip_with_take_l, zip_with_take_both by lia.
  rewrite zip_with_take_r; [done|]. rewrite length_zip_with. lia.
Qed.

Lemma IsAllZero_or a b : IsAllZero (vec_or a b) = IsAllZero a && IsAllZero b.
Proof.
  rewrite !IsAllZero_lanes, or_lanes. apply all_zero_lor. by rewrite !lanes_length.
Qed.

Lemma IsAscii_or a b : IsAscii (vec_or a b) = IsAscii a && IsAscii b.
Proof.
  rewrite !IsAscii_lanes, or_lanes. apply all_ascii_lor; auto using lanes_ok. by rewrite !lanes_length.
Qed.

Lemma IsAllZero_Fill : IsAllZero (Fill 0) = true.
Proof.
  rewrite IsAllZero_lanes, Fill_lanes by mlia. induction VectorSize as [|n IH]; [done | exact IH].
Qed.

Lemma IsAscii_Fill : IsAscii (Fill 0) = true.
Proof.
  rewrite IsAscii_lanes, Fill_lanes by mlia. induction VectorSize as [|n IH]; [done | exact IH].
Qed.

Lemma vwindow_Fill : vwindow (Fill 0) = w0.
Proof.
  unfold vwindow. rewrite Fill_lanes by mlia. induction VectorSize as [|n IH]; [done | exact IH].
Qed.

(** *** Open characters at the end of a vector *)

Lemma saturate_255 bs ms :
  bytes_ok bs -> ms = replicate (length bs) 0xFF -> all_zero (zip_with (fun x y => Z.max 0 (x - y)) bs ms) = true.
Proof.
  intros Hb ->. induction Hb as [|b bs Hb _ IH]; [done|]. cbn [length replicate zip_with].
  rewrite all_zero_cons, IH, Z.max_l by mlia. done.
Qed.

Lemma CheckIncomplete_zero v : IsAllZero (CheckIncomplete v) = negb (incomplete (vwindow v)).
Proof.
  destruct (lanes_last3 v) as (l & a & b & c & E & Hl & ->).
  unfold CheckIncomplete. rewrite IsAllZero_lanes, SaturatingSub_lanes, Set32_lanes;
    [|done | by apply (bool_decide_unpack _); vm_compute].
  replace (drop (32 - VectorSize) incomplete_table) with (replicate (length l) 0xFF ++ [0xEF; 0xDF; 0xBF])
    by (rewrite Hl; destruct size_cases as [->| ->]; done).
  rewrite E, zip_with_app by (by rewrite length_replicate).
  pose proof (lanes_ok v) as Hok. rewrite E in Hok. apply bytes_ok_app in Hok as [Hok Hok3].
  unfold bytes_ok in Hok3. rewrite !Forall_cons in Hok3. destruct Hok3 as (?&?&?&_).
  change (forallb (Z.eqb 0)) with all_zero.
  unfold all_zero. rewrite forallb_app. change (forallb (Z.eqb 0)) with all_zero.
  rewrite saturate_255 by done. cbn [zip_with]. rewrite !all_zero_cons. unfold incomplete. cbn [p1 p2 p3].
  cbn [all_zero forallb]. mlia.
Qed.

Lemma ascii_window s :
  Forall ascii s -> incomplete (shifts w0 s) = false.
Proof.
  intros Hs. assert (forall w, 0 <= p3 w < 0x80 /\ 0 <= p2 w < 0x80 /\ 0 <= p1 w < 0x80 ->
    incomplete (shifts w s) = false) as H; [|apply H; cbn; lia].
  induction Hs as [|c s Hc _ IH]; intros w Hw; cbn.
  - unfold incomplete. lia.
  - apply IH. cbn. unfold ascii in Hc. lia.
Qed.

(** *** Chunks *)

Definition chunk_bytes (chunk : list Vector) : list Z := concat (lanes <$> chunk).

Lemma chunk_bytes_cons v vs : chunk_bytes (v :: vs) = lanes v ++ chunk_bytes vs.
Proof. done. Qed.

Lemma chunk_bytes_ok chunk : bytes_ok (chunk_bytes chunk).
Proof.
  induction chunk as [|v vs IH]; [constructor|]. rewrite chunk_bytes_cons. apply bytes_ok_app.
  auto using lanes_ok.
Qed.

Lemma chunk_bytes_length chunk : length (chunk_bytes chunk) = (length chunk * VectorSize)%nat.
Proof.
  induction chunk as [|v vs IH]; [done|].
  rewrite chunk_bytes_cons, length_app, lanes_length, IH. simpl. lia.
Qed.

Lemma foldl_or_ascii v chunk : IsAscii (foldl vec_or v chunk) = IsAscii v && all_ascii (chunk_bytes chunk).
Proof.
  revert v. induction chunk as [|c cs IH]; intros v; cbn [foldl]; [by rewrite andb_true_r|].
  rewrite IH, chunk_bytes_cons, all_ascii_app, IsAscii_or, !IsAscii_lanes. by rewrite andb_assoc.
Qed.

Lemma Chunk_IsAscii_bytes chunk : Chunk_IsAscii chunk = all_ascii (chunk_bytes chunk).
Proof.
  assert (IsAscii (foldl vec_or (Fill 0) chunk) = all_ascii (chunk_bytes chunk)) as H
    by (rewrite foldl_or_ascii, IsAscii_Fill; done).
  unfold Chunk_IsAscii.
  destruct chunk as [|c0 [|c1 [|c2 [|c3 [|c4 cs]]]]]; try exact H;
    rewrite <- H; cbn [foldl]; rewrite !IsAscii_or, IsAscii_Fill; [done|].
  destruct (IsAscii c0), (IsAscii c1), (IsAscii c2), (IsAscii c3); done.
Qed.

(** What a piece of input does to [(prev, error)]. *)
Definition advances (st st' : Vector * Vector) (s : list Z) : Prop :=
  vwindow (fst st') = shifts (vwindow (fst st)) s /\
  IsAllZero (snd st') = IsAllZero (snd st) && scan (vwindow (fst st)) s.

Lemma advances_trans st st' st'' s t :
  advances st st' s -> advances st' st'' t -> advances st st'' (s ++ t).
Proof.
  intros [H1 H2] [H3 H4]. split.
  - by rewrite H3, H1, shifts_app.
  - by rewrite H4, H2, H1, scan_app, andb_assoc.
Qed.

Lemma ProcessVector_advances st v : advances st (ProcessVector st v) (lanes v).
Proof.
  destruct st as [prev error]. split; cbn [ProcessVector fst snd].
  - apply shifts_long. rewrite lanes_length. pose proof size_ge. lia.
  - rewrite IsAllZero_or. f_equal. rewrite IsAllZero_lanes, block_errs. apply errs_zero.
Qed.

Lemma foldl_advances st chunk : advances st (foldl ProcessVector st chunk) (chunk_bytes chunk).
Proof.
  revert st. induction chunk as [|v vs IH]; intros st; cbn [foldl].
  - split; [done|]. by rewrite andb_true_r.
  - rewrite chunk_bytes_cons. eapply advances_trans; [apply ProcessVector_advances | apply IH].
Qed.

Lemma vwindow_last chunk w :
  chunk <> [] -> vwindow (List.last chunk (Fill 0)) = shifts w (chunk_bytes chunk).
Proof.
  intros Hne. destruct (exists_last Hne) as (vs & v & ->). rewrite last_last.
  unfold chunk_bytes. rewrite fmap_app, concat_app. cbn. rewrite app_nil_r, shifts_app.
  apply shifts_long. rewrite lanes_length. pose proof size_ge. lia.
Qed.

Lemma ProcessChunk_advances chunk st :
  chunk <> [] -> advances st (ProcessChunk chunk st) (chunk_bytes chunk).
Proof.
  intros Hne. unfold ProcessChunk. rewrite Chunk_IsAscii_bytes.
  destruct (all_ascii (chunk_bytes chunk)) eqn:E; [|apply foldl_advances].
  destruct st as [prev error]. split; cbn [fst snd]; [by apply vwindow_last|].
  rewrite IsAllZero_or, CheckIncomplete_zero. f_equal. symmetry.
  apply scan_ascii; [apply vwindow_ok | by apply all_ascii_spec in E; [|apply chunk_bytes_ok] |].
  intros H%(f_equal length). rewrite chunk_bytes_length in H. destruct chunk; [done|].
  simpl in H. pose proof size_ge. lia.
Qed.

(** *** Loading and storing chunks *)

Lemma count_size : (0 < GetVectorCount)%nat /\ GetSize = 64.
Proof.
  unfold GetSize, GetVectorCount, kTargetChunkSize. destruct size_cases as [->| ->]; vm_compute; auto.
Qed.

Lemma mapM_load mem off k n :
  bytes_ok mem -> 0 <= off -> off + Z.of_nat ((k + n) * VectorSize) <= len mem ->
  exists chunk, mapM (fun i => LoadFromArray mem (off + Z.of_nat (i * VectorSize))) (seq k n) = Some chunk /\
    length chunk = n /\
    chunk_bytes chunk = take (n * VectorSize) (drop (Z.to_nat off + k * VectorSize) mem).
Proof.
  intros Hok Hoff. revert k. induction n as [|n IH]; intros k Hl; [by exists []|].
  pose proof (Load_lanes mem (off + Z.of_nat (k * VectorSize)) Hok) as HL.
  destruct (rdn_is_Some mem (off + Z.of_nat (k * VectorSize)) (Z.of_nat VectorSize)) as [bs Hbs]; [lia..|].
  rewrite Hbs in HL. apply fmap_Some in HL as (v & Hv & ->).
  apply rdn_Some in Hbs as (_ & _ & _ & Hbs).
  destruct (IH (S k)) as (vs & Hvs & Hlen & Hb); [lia|].
  exists (v :: vs). cbn [seq mapM]. rewrite Hv. cbn [mbind option_bind]. rewrite Hvs. cbn [mbind option_bind mret option_ret length].
  split; [done|]. split; [by rewrite Hlen|].
  rewrite chunk_bytes_cons, Hb, Hbs, Nat2Z.id.
  replace (Z.to_nat off + S k * VectorSize)%nat with (Z.to_nat off + k * VectorSize + VectorSize)%nat by lia.
  replace (Z.to_nat (off + Z.of_nat (k * VectorSize))) with (Z.to_nat off + k * VectorSize)%nat by lia.
  rewrite <- (drop_drop _ VectorSize _), take_take_drop. f_equal; lia.
Qed.

Lemma Chunk_Load_spec mem off :
  bytes_ok mem -> 0 <= off -> off + GetSize <= len mem ->
  exists chunk, Chunk_LoadFromArray mem off = Some chunk /\ chunk <> [] /\
    length chunk = GetVectorCount /\ rdn mem off GetSize = Some (chunk_bytes chunk).
Proof.
  intros Hok Hoff Hl. destruct count_size as [Hc _].
  destruct (mapM_load mem off 0 GetVectorCount Hok Hoff) as (chunk & H1 & H2 & H3).
  { unfold GetSize in Hl. cbn [Nat.add]. lia. }
  exists chunk. split; [exact H1|]. split; [intros ->; simpl in H2; lia|]. split; [done|].
  unfold rdn. rewrite (proj2 (in_range_spec _ _ _)) by (unfold GetSize in *; lia).
  rewrite H3. unfold GetSize. rewrite Nat2Z.id, (Nat.mul_comm GetVectorCount).
  cbn [Nat.mul]. by rewrite Nat.add_0_r.
Qed.

Lemma wrn_app dst off xs ys d :
  wrn dst off xs = Some d -> off + len xs + len ys <= len dst ->
  wrn d (off + len xs) ys = wrn dst off (xs ++ ys).
Proof.
  intros Hw Hl. pose proof (wrn_len _ _ _ _ Hw) as Hd. apply wrn_Some in Hw as (H0 & _ & ->).
  unfold wrn. unfold len in *. rewrite length_app.
  rewrite !(proj2 (in_range_spec _ _ _)) by (unfold len; lia).
  set (o := Z.to_nat off). assert (length (take o dst) = o) as Ho by (rewrite length_take; lia).
  replace (Z.to_nat (off + Z.of_nat (length xs))) with (length (take o dst ++ xs))
    by (rewrite length_app; lia).
  rewrite (app_assoc (take o dst) xs), take_app_length, drop_app_ge by lia.
  rewrite drop_drop, <- !app_assoc. do 5 f_equal. rewrite length_app. lia.
Qed.

Lemma fold_store chunk k d off :
  0 <= off -> off + Z.of_nat ((k + length chunk) * VectorSize) <= len d ->
  foldl (fun d '(i, v) => d ← d; StoreToArray v d (off + Z.of_nat (i * VectorSize)))
        (Some d) (imap (fun i v => (k + i, v)%nat) chunk) =
  wrn d (off + Z.of_nat (k * VectorSize)) (chunk_bytes chunk).
Proof.
  intros Hoff. revert k d. induction chunk as [|v vs IH]; intros k d Hl.
  - cbn [length] in Hl. rewrite Nat.add_0_r in Hl. unfold wrn, chunk_bytes. cbn [imap foldl fmap list_fmap concat].
    rewrite (proj2 (in_range_spec _ _ _)) by (change (len []) with 0; lia).
    cbn [length app]. by rewrite Nat.add_0_r, take_drop.
  - rewrite imap_cons. cbn [foldl]. rewrite Nat.add_0_r. cbn [mbind option_bind]. rewrite Store_lanes.
    assert (len (lanes v) = Z.of_nat VectorSize) as Hv by (unfold len; by rewrite lanes_length).
    cbn [length] in Hl.
    destruct (wrn_is_Some d (off + Z.of_nat (k * VectorSize)) (lanes v)) as [d' Hd]; [lia..|].
    rewrite Hd, chunk_bytes_cons, <- (wrn_app _ _ _ _ _ Hd).
    2: { unfold len at 2. rewrite chunk_bytes_length. lia. }
    replace (off + Z.of_nat (k * VectorSize) + len (lanes v)) with (off + Z.of_nat (S k * VectorSize)) by lia.
    rewrite <- IH by (rewrite (wrn_len _ _ _ _ Hd); lia).
    f_equal. apply imap_ext. intros. cbn. f_equal. lia.
Qed.

Lemma Chunk_Store_spec chunk d off :
  0 <= off -> off + len (chunk_bytes chunk) <= len d ->
  Chunk_StoreToArray chunk d off = wrn d off (chunk_bytes chunk).
Proof.
  intros Hoff Hl. unfold Chunk_StoreToArray. unfold len at 1 in Hl. rewrite chunk_bytes_length in Hl.
  pose proof (fold_store chunk 0 d off Hoff ltac:(cbn; lia)) as H. cbn in H.
  by rewrite Z.add_0_r in H.
Qed.

(** *** What has been copied so far *)

Definition copied (do_copy : bool) (src dst0 : list Z) (off : Z) (dst : list Z) : Prop :=
  if do_copy then dst = take (Z.to_nat off) src ++ drop (Z.to_nat off) dst0 else dst = dst0.

Lemma copied_len do_copy src dst0 off dst :
  copied do_copy src dst0 off dst -> 0 <= off <= len src -> (do_copy = true -> len src <= len dst0) ->
  len dst = len dst0.
Proof.
  unfold copied. destruct do_copy; [|by intros ->]. intros -> Ho Hd. specialize (Hd eq_refl).
  unfold len in *. rewrite length_app, length_take, length_drop. lia.
Qed.

Lemma copied_step src dst0 off dst bs :
  copied true src dst0 off dst -> 0 <= off -> rdn src off (len bs) = Some bs -> len src <= len dst0 ->
  exists dst', wrn dst off bs = Some dst' /\ copied true src dst0 (off + len bs) dst'.
Proof.
  intros -> Ho Hr Hd. apply rdn_Some in Hr as (_ & _ & Hr & Hb).
  set (dst := take (Z.to_nat off) src ++ drop (Z.to_nat off) dst0).
  assert (len dst = len dst0) as Hl
    by (unfold dst, len in *; rewrite length_app, length_take, length_drop; lia).
  destruct (wrn_is_Some dst off bs) as [d Hw]; [lia..|]. exists d. split; [done|].
  apply wrn_Some in Hw as (_ & _ & ->). unfold copied.
  replace (Z.to_nat (off + len bs)) with (Z.to_nat off + length bs)%nat by (unfold len; lia).
  rewrite <- take_take_drop. rewrite <- app_assoc.
  unfold dst. rewrite take_app_length' by (rewrite length_take; unfold len in *; lia). f_equal.
  unfold len in Hb. rewrite Nat2Z.id in Hb. rewrite <- Hb. f_equal.
  rewrite drop_app_ge by (rewrite length_take; unfold len in *; lia).
  rewrite drop_drop, length_take. f_equal. unfold len in *. lia.
Qed.

(** *** The loops *)

Lemma chunk_turn do_copy src dst0 dst off :
  bytes_ok src -> (do_copy = true -> len src <= len dst0) -> 0 <= off -> off + GetSize <= len src ->
  copied do_copy src dst0 off dst ->
  exists chunk dst', Chunk_LoadFromArray src off = Some chunk /\ chunk <> [] /\
    rdn src off GetSize = Some (chunk_bytes chunk) /\
    (if do_copy then Chunk_StoreToArray chunk dst off else Some dst) = Some dst' /\
    copied do_copy src dst0 (off + GetSize) dst'.
Proof.
  intros Hok Hd Ho Hl Hc. destruct (Chunk_Load_spec src off Hok Ho Hl) as (chunk & H1 & H2 & _ & H3).
  pose proof (rdn_len _ _ _ _ H3) as Hlen. destruct do_copy; [|by exists chunk, dst].
  specialize (Hd eq_refl). pose proof (copied_len _ _ _ _ _ Hc ltac:(pose proof (proj2 count_size); lia)
    ltac:(done)) as Hdl.
  destruct (copied_step src dst0 off dst (chunk_bytes chunk)) as (dst' & Hw & Hc');
    [done | lia | by rewrite Hlen | done |].
  rewrite Hlen in Hc'. exists chunk, dst'. rewrite Chunk_Store_spec by lia. done.
Qed.

Lemma ascii_chunks_spec fuel do_copy src dst0 dst off al :
  bytes_ok src -> (do_copy = true -> len src <= len dst0) ->
  0 <= off <= al -> al <= len src -> (al - off) mod GetSize = 0 -> al - off <= Z.of_nat fuel ->
  Forall ascii (take (Z.to_nat off) src) -> copied do_copy src dst0 off dst ->
  exists off' enc dst', ascii_chunks fuel do_copy src dst off al = Some (off', enc, dst') /\
    off <= off' <= al /\ (al - off') mod GetSize = 0 /\ Forall ascii (take (Z.to_nat off') src) /\
    copied do_copy src dst0 off' dst' /\ (enc = false -> off' = al).
Proof.
  intros Hok Hd. destruct count_size as [_ HG]. rewrite HG.
  revert off dst. induction fuel as [|fuel IH]; intros off dst Ho Hal Hm Hf Ha Hc; simpl.
  - exists off, false, dst. destruct (Z.ltb_spec off al); [lia|]. repeat split; auto; lia.
  - destruct (Z.ltb_spec off al); [|exists off, false, dst; repeat split; auto; lia].
    destruct (chunk_turn do_copy src dst0 dst off Hok Hd ltac:(lia) ltac:(dlia) Hc)
      as (chunk & dst' & -> & _ & Hr & Hst & Hc').
    cbn [mbind option_bind]. rewrite Chunk_IsAscii_bytes.
    destruct (all_ascii (chunk_bytes chunk)) eqn:E; cbn [negb];
      [|exists off, true, dst; repeat split; auto; lia].
    rewrite Hst. cbn [mbind option_bind]. rewrite HG in *.
    apply all_ascii_spec in E; [|apply chunk_bytes_ok]. apply rdn_Some in Hr as (_&_&_&Hr).
    destruct (IH (off + 64) dst') as (o' & enc & d' & -> & ? & ? & ? & ? & ?); [dlia..| |done|].
    + apply (take_advance src off 64); [lia|done|]. change 64%nat with (Z.to_nat 64). by rewrite <- Hr.
    + exists o', enc, d'. repeat split; auto; lia.
Qed.

Lemma process_chunks_spec fuel do_copy src dst0 dst off al st :
  bytes_ok src -> (do_copy = true -> len src <= len dst0) ->
  0 <= off <= al -> al <= len src -> (al - off) mod GetSize = 0 -> al - off <= Z.of_nat fuel ->
  copied do_copy src dst0 off dst ->
  exists dst' st', process_chunks fuel do_copy src dst off al st = Some (al, dst', st') /\
    copied do_copy src dst0 al dst' /\
    advances st st' (take (Z.to_nat (al - off)) (drop (Z.to_nat off) src)).
Proof.
  intros Hok Hd. destruct count_size as [_ HG]. rewrite HG.
  revert off dst st. induction fuel as [|fuel IH]; intros off dst st Ho Hal Hm Hf Hc; simpl;
    (destruct (Z.ltb_spec off al);
      [|assert (off = al) as -> by lia; exists dst, st; rewrite Z.sub_diag; repeat split; auto;
        cbn; by rewrite andb_true_r]); [lia|].
  destruct (chunk_turn do_copy src dst0 dst off Hok Hd ltac:(lia) ltac:(dlia) Hc)
    as (chunk & dst' & -> & Hne & Hr & Hst & Hc').
  cbn [mbind option_bind]. rewrite Hst. cbn [mbind option_bind]. rewrite HG in *.
  destruct (IH (off + 64) dst' (ProcessChunk chunk st)) as (d' & st' & -> & Hcd & Hadv); [dlia..|done|].
  exists d', st'. split; [done|]. split; [done|].
  apply rdn_Some in Hr as (_&_&_&Hr). change (Z.to_nat 64) with 64%nat in Hr.
  replace (Z.to_nat (al - off)) with (64 + Z.to_nat (al - (off + 64)))%nat by dlia.
  rewrite <- take_take_drop, <- Hr, drop_drop.
  replace (Z.to_nat off + 64)%nat with (Z.to_nat (off + 64)) by lia.
  eapply advances_trans; [by apply ProcessChunk_advances | exact Hadv].
Qed.

(** *** The end of the run *)

Lemma step_ascii q c : ascii c -> step q c = if decide (q = Start) then Some Start else None.
Proof. intros Hc. unfold ascii in Hc. destruct q; cbn; split_ifs; first [done | exfalso; ulia]. Qed.

(** Zero padding changes nothing. *)
Lemma valid_pad s n : bytes_ok s -> valid (s ++ replicate n 0) = valid s.
Proof.
  intros Hs. assert (bytes_ok (s ++ replicate n 0)) as Hp
    by (apply bytes_ok_app; split; [done | apply Forall_replicate; mlia]).
  rewrite !run_valid, run_app by done. destruct (run Start s) as [q|]; [cbn [mbind option_bind]|done].
  destruct n as [|n]; [done|]. cbn [replicate run]. rewrite step_ascii by (unfold ascii; lia).
  case_decide as Hq; [subst q | rewrite !bool_decide_eq_false_2; cbn; congruence].
  cbn [mbind option_bind]. rewrite (bool_decide_eq_true_2 (Some Start = Some Start)) by done.
  apply bool_decide_eq_true_2. clear Hp. induction n as [|n IH]; [done|]. cbn [replicate run].
  rewrite step_ascii by (unfold ascii; lia). cbn. exact IH.
Qed.

Lemma finish_spec dst st :
  finish dst st = (IsAllZero (snd st) && negb (incomplete (vwindow (fst st))), dst).
Proof.
  destruct st as [prev error]. unfold finish. cbn [fst snd].
  destruct (IsAscii prev) eqn:E; cbn [negb].
  - rewrite IsAscii_lanes in E. apply all_ascii_spec in E; [|apply lanes_ok].
    unfold vwindow. by rewrite ascii_window, andb_true_r.
  - by rewrite IsAllZero_or, CheckIncomplete_zero.
Qed.

Lemma finish_valid dst st s :
  bytes_ok s -> advances (Fill 0, Fill 0) st s -> finish dst st = (valid s, dst).
Proof.
  intros Hs [H1 H2]. cbn [fst snd] in *. rewrite vwindow_Fill in *. rewrite IsAllZero_Fill in H2.
  rewrite finish_spec, H1, H2, scan_valid by done. done.
Qed.

Lemma padded_chunk_spec bs :
  bytes_ok bs -> len bs < GetSize ->
  exists chunk n, padded_chunk bs = Some chunk /\ chunk <> [] /\ chunk_bytes chunk = bs ++ replicate n 0.
Proof.
  intros Hb Hl. destruct count_size as [_ HG]. unfold padded_chunk.
  set (n := (Z.to_nat GetSize - length bs)%nat).
  assert (len (bs ++ replicate n 0) = GetSize) as Hlen
    by (unfold len in *; rewrite length_app, length_replicate; lia).
  destruct (Chunk_Load_spec (bs ++ replicate n 0) 0) as (chunk & H1 & H2 & _ & H3); [|lia|lia|].
  { apply bytes_ok_app. split; [done | apply Forall_replicate; mlia]. }
  exists chunk, n. split; [done|]. split; [done|].
  apply rdn_Some in H3 as (_&_&_& ->). cbn [drop]. apply take_ge. unfold len in Hlen. lia.
Qed.

(** *** The whole run *)

Lemma copied_all src dst0 dst :
  copied true src dst0 (len src) dst -> dst = src ++ drop (length src) dst0.
Proof. unfold copied, len. rewrite Nat2Z.id. by rewrite take_ge by lia. Qed.

Definition run_result (do_copy : bool) (src dst dst' : list Z) : Prop :=
  (do_copy = false -> dst' = dst) /\
  (do_copy = true -> valid src = true -> dst' = src ++ drop (length src) dst).

Lemma copied_result do_copy src dst0 dst :
  copied do_copy src dst0 (len src) dst -> run_result do_copy src dst0 dst.
Proof.
  destruct do_copy; intros H; split; try done. intros _ _. by apply copied_all.
Qed.

(** The tail after an all-ASCII aligned part goes through the scalar validator. *)
Lemma scalar_tail e do_copy src dst0 dst off :
  bytes_ok src -> len src < 2 ^ 64 -> (do_copy = true -> len src <= len dst0) -> 0 <= off <= len src ->
  Forall ascii (take (Z.to_nat off) src) -> copied do_copy src dst0 off dst ->
  exists dst',
    (if do_copy then
       '(v, tl) ← ValidateAndCopyUtf8Scalar e (Some (suffix src off)) (suffix dst off) (len src - off);
       Some (v, put_suffix dst off tl)
     else v ← IsValidUtf8Scalar e (Some (suffix src off)) (len src - off); Some (v, dst)) =
    Some (valid src, dst') /\ run_result do_copy src dst0 dst'.
Proof.
  intros Hok Hl Hd Ho Ha Hc. unfold suffix.
  assert (len src - off = len (drop (Z.to_nat off) src)) as -> by (unfold len in *; rewrite length_drop; lia).
  assert (len (drop (Z.to_nat off) src) < 2 ^ 64) by (unfold len in *; rewrite length_drop; lia).
  pose proof (bytes_ok_drop (Z.to_nat off) src Hok).
  rewrite (valid_after_ascii src off) by (done || lia). destruct do_copy.
  - specialize (Hd eq_refl). pose proof (copied_len _ _ _ _ _ Hc Ho ltac:(done)) as Hdl.
    rewrite ValidateAndCopyUtf8Scalar_valid by (done || (unfold len in *; rewrite !length_drop; lia)).
    cbn [mbind option_bind]. eexists. split; [done|]. split; [done|]. intros _ Hv.
    rewrite (valid_after_ascii src off) in Hv by (done || lia). rewrite Hv.
    unfold put_suffix. rewrite drop_drop, length_drop. cbn in Hc. rewrite Hc.
    rewrite take_app_length' by (rewrite length_take; unfold len in *; lia).
    rewrite app_assoc, take_drop. f_equal. rewrite drop_app_ge by (rewrite length_take; lia).
    rewrite drop_drop, length_take. f_equal. unfold len in *. lia.
  - rewrite IsValidUtf8Scalar_valid by done. exists dst. split; [done|]. split; [|done]. by intros _.
Qed.

(** Otherwise the tail is padded with zeros into one more chunk. *)
Lemma padded_tail do_copy src dst0 dst off al st :
  bytes_ok src -> (do_copy = true -> len src <= len dst0) -> 0 <= off <= al -> al <= len src ->
  len src - al < GetSize -> copied do_copy src dst0 al dst ->
  advances (Fill 0, Fill 0) st (take (Z.to_nat (al - off)) (drop (Z.to_nat off) src)) ->
  exists dst',
    (bs ← rdn src al (len src - al);
     cur ← padded_chunk bs;
     dst ← (if do_copy then wrn dst al bs else Some dst);
     Some (finish dst (ProcessChunk cur st))) =
    Some (valid (drop (Z.to_nat off) src), dst') /\ run_result do_copy src dst0 dst'.
Proof.
  intros Hok Hd Ho Hal Hrem Hc Hadv. set (rest := drop (Z.to_nat off) src) in *.
  destruct (rdn_is_Some src al (len src - al)) as [bs Hbs]; [lia..|]. rewrite Hbs. cbn [mbind option_bind].
  pose proof (rdn_len _ _ _ _ Hbs) as Hbl.
  destruct (padded_chunk_spec bs) as (chunk & n & -> & Hne & Hcb);
    [exact (rdn_bytes_ok _ _ _ _ Hok Hbs)|lia|]. cbn [mbind option_bind].
  assert (rest = take (Z.to_nat (al - off)) rest ++ bs) as Hsplit.
  { apply rdn_Some in Hbs as (_&_&_& ->). rewrite (take_ge (drop (Z.to_nat al) src))
      by (rewrite length_drop; unfold len; lia).
    rewrite <- (take_drop (Z.to_nat (al - off)) rest) at 1. unfold rest. rewrite drop_drop. do 2 f_equal. lia. }
  assert (advances (Fill 0, Fill 0) (ProcessChunk chunk st) (rest ++ replicate n 0)) as Hall.
  { rewrite Hsplit, <- app_assoc, <- Hcb. eapply advances_trans; [exact Hadv|].
    by apply ProcessChunk_advances. }
  assert (exists dst', (if do_copy then wrn dst al bs else Some dst) = Some dst' /\
            copied do_copy src dst0 (len src) dst') as (dst' & -> & Hc').
  { destruct do_copy; [|by exists dst]. specialize (Hd eq_refl).
    destruct (copied_step src dst0 al dst bs) as (d' & ? & ?); [done|lia|by rewrite Hbl|done|].
    exists d'. split; [done|]. by replace (len src) with (al + len bs) by lia. }
  cbn [mbind option_bind]. exists dst'. split; [|by apply copied_result].
  assert (bytes_ok rest) by by apply bytes_ok_drop.
  rewrite (finish_valid dst' _ (rest ++ replicate n 0)), valid_pad; [done|done| |done].
  apply bytes_ok_app. split; [done | apply Forall_replicate; mlia].
Qed.

Lemma Run_spec e do_copy src dst :
  bytes_ok src -> len src < 2 ^ 64 -> (do_copy = true -> len src <= len dst) ->
  exists dst', RunValidateAndCopyUtf8Simd e do_copy (Some src) dst (len src) = Some (valid src, dst') /\
    run_result do_copy src dst dst'.
Proof.
  intros Hok Hl Hd. unfold RunValidateAndCopyUtf8Simd. pose proof (len_nonneg src) as Hn.
  destruct (len src <? kSmallStringSize).
  { pose proof (scalar_tail e do_copy src dst dst 0 Hok Hl Hd ltac:(lia) ltac:(constructor)
      ltac:(destruct do_copy; done)) as (dst' & H & Hr).
    unfold suffix in H. rewrite Z.sub_0_r in H. exists dst'. split; [|done].
    destruct do_copy; [|exact H]. cbn [drop] in H. rewrite <- H.
    destruct (ValidateAndCopyUtf8Scalar _ _ _ _) as [[? ?]|]; done. }
  destruct count_size as [_ HG]. set (al := len src - len src mod GetSize).
  assert (0 <= al <= len src /\ al mod 64 = 0 /\ len src - al < 64) as (Hal & Hm & Hrem)
    by (unfold al; rewrite HG; dlia).
  destruct (ascii_chunks_spec (Z.to_nat (len src)) do_copy src dst dst 0 al)
    as (off & enc & dst1 & -> & Ho & Hmo & Ha & Hc & Henc);
    [done|done|lia|lia|rewrite HG; dlia|lia|constructor|by destruct do_copy|].
  cbn [mbind option_bind].
  destruct (process_chunks_spec (Z.to_nat (len src)) do_copy src dst dst1 off al (Fill 0, Fill 0))
    as (dst2 & st & -> & Hc2 & Hadv); [done|done|lia|lia|done|lia|done|].
  cbn [mbind option_bind]. destruct (Z.ltb_spec al (len src)) as [Hlt|Hge].
  - destruct enc; cbn [negb].
    + rewrite (valid_after_ascii src off) by (done || lia). apply padded_tail; auto; lia.
    + specialize (Henc eq_refl) as ->. by apply scalar_tail.
  - assert (al = len src) as Eal by lia. rewrite Eal in *. exists dst2. split; [|by apply copied_result].
    rewrite (valid_after_ascii src off) by (done || lia).
    rewrite (finish_valid dst2 st (drop (Z.to_nat off) src)); [done|by apply bytes_ok_drop|].
    rewrite take_ge in Hadv; [done|]. rewrite length_drop. unfold len. lia.
Qed.

(** C15.  On every architecture the vectorised validator returns, stays inside the
    [size] bytes it was given, and gives the same verdict as the scalar one: it
    accepts exactly the encodings of sequences of Unicode scalar values. *)
Theorem IsValidUtf8Simd_correct e data :
  bytes_ok data -> len data < 2 ^ 64 ->
  IsValidUtf8Simd e (Some data) (len data) = IsValidUtf8Scalar e (Some data) (len data) /\
  exists verdict, IsValidUtf8Simd e (Some data) (len data) = Some verdict /\
    (verdict = true <-> exists cps, Forall is_scalar_value cps /\ data = encodes cps).
Proof.
  intros Hok Hl.
  assert (IsValidUtf8Simd e (Some data) (len data) = Some (valid data)) as H.
  { unfold IsValidUtf8Simd. by destruct (Run_spec e false data [] Hok Hl) as (? & -> & _). }
  rewrite H, IsValidUtf8Scalar_valid by done. split; [done|]. exists (valid data). split; [done|].
  by rewrite valid_spec, octets_encodes.
Qed.

(** The copying variant gives the same verdict, and when the string is valid
    the destination holds the source followed by what it held past [size]. *)
Theorem ValidateAndCopyUtf8Simd_correct e src dst :
  bytes_ok src -> len src < 2 ^ 64 -> len src <= len dst ->
  exists dst', ValidateAndCopyUtf8Simd e (Some src) dst (len src) = Some (valid src, dst') /\
    (valid src = true -> dst' = src ++ drop (length src) dst).
Proof.
  intros Hok Hl Hd. destruct (Run_spec e true src dst Hok Hl ltac:(done)) as (dst' & H & _ & Hc).
  exists dst'. split; [exact H|]. by apply Hc.
Qed.

End Generic.
