(* ===== verification/Utf8Arch.v ===== *)
(** * UTF-8: the three vector back ends

    Models src/utf-utils/internal/x86-ssse3.h, x86-avx2.h and arm-neon.h: each
    class [Vector] as the source writes it, over the compiler's intrinsics, whose
    lane-by-lane meaning is modelled on lists of bytes; and proves that each back
    end keeps the promises of [ArchImplLaws].  src/utf-utils/utf-utils.cc, which
    picks one of them at build time, is at the end. *)

From S2P Require Import Prelude Utf8Scalar Utf8Simd Utf8Lookup Utf8SimdCorrect.
Import Utf8Spec Utf8Scalar Utf8Simd.

(** ** Vector registers *)

Record vec (n : nat) := Vec { vbytes : list Z; vec_ok : length vbytes = n /\ bytes_ok vbytes }.
Arguments Vec {n}. Arguments vbytes {n}. Arguments vec_ok {n}.

Definition norm (n : nat) (l : list Z) : list Z := take n ((wrap 8 <$> l) ++ replicate n 0).

Lemma norm_ok n l : length (norm n l) = n /\ bytes_ok (norm n l).
Proof.
  unfold norm. split.
  - rewrite length_take, length_app, length_replicate. lia.
  - apply bytes_ok_take, bytes_ok_app. split; [|apply Forall_replicate; mlia].
    apply Forall_fmap, Forall_true. intros b. cbn. pose proof (wrap_fits 8 b ltac:(lia)). mlia.
Qed.

Definition mkvec (n : nat) (l : list Z) : vec n := Vec (norm n l) (norm_ok n l).

Lemma vbytes_mkvec n l : length l = n -> bytes_ok l -> vbytes (mkvec n l) = l.
Proof.
  intros <- Hb. cbn. unfold norm.
  assert (wrap 8 <$> l = l) as ->.
  { induction Hb as [|b l Hb _ IH]; [done|]. cbn. rewrite IH, wrap_small by mlia. done. }
  by rewrite take_app_length.
Qed.

Section Intrinsics.
Context {n : nat}.
Implicit Types a b v : vec n.

Definition v_load (mem : list Z) (off : Z) : option (vec n) :=
  bs ← rdn mem off (Z.of_nat n); Some (mkvec n bs).
Definition v_store v (mem : list Z) (off : Z) : option (list Z) := wrn mem off (vbytes v).
Definition v_set1 (b : Z) : vec n := mkvec n (replicate n b).
Definition v_setr (bs : list Z) : vec n := mkvec n bs.
Definition v_or a b : vec n := mkvec n (zip_with Z.lor (vbytes a) (vbytes b)).
Definition v_and a b : vec n := mkvec n (zip_with Z.land (vbytes a) (vbytes b)).
Definition v_xor a b : vec n := mkvec n (zip_with Z.lxor (vbytes a) (vbytes b)).
(** Unsigned subtraction that stops at zero. *)
Definition v_subs_u8 a b : vec n := mkvec n (zip_with (fun x y => Z.max 0 (x - y)) (vbytes a) (vbytes b)).
(** All ones where the left lane is larger, signed or unsigned. *)
Definition v_cmpgt_i8 a b : vec n :=
  mkvec n (zip_with (fun x y => if to_signed 8 y <? to_signed 8 x then 0xFF else 0) (vbytes a) (vbytes b)).
Definition v_cmpgt_u8 a b : vec n :=
  mkvec n (zip_with (fun x y => if y <? x then 0xFF else 0) (vbytes a) (vbytes b)).
(** 1 when no bit is set in both. *)
Definition v_testz a b : Z := if forallb (Z.eqb 0) (zip_with Z.land (vbytes a) (vbytes b)) then 1 else 0.
(** The top bits of the lanes, collected into an integer. *)
Definition v_movemask v : Z := foldr (fun x acc => Z.shiftr x 7 + 2 * acc) 0 (vbytes v).
Definition v_max_u8 v : Z := foldr Z.max 0 (vbytes v).
(** Logical right shift of each 16-bit lane, and of each 8-bit lane. *)
Fixpoint srli16 (k : Z) (l : list Z) : list Z :=
  match l with
  | lo :: hi :: r => let w := Z.shiftr (lo + 256 * hi) k in w mod 256 :: w / 256 :: srli16 k r
  | l => l
  end.
Definition v_srli_u16 v (k : Z) : vec n := mkvec n (srli16 k (vbytes v)).
Definition v_shr_u8 v (k : Z) : vec n := mkvec n ((fun x => Z.shiftr x k) <$> vbytes v).
End Intrinsics.

(** Sixteen lanes of the byte shuffles and of the byte-wise alignments. *)
Definition shuffle16 (table idx : list Z) : list Z :=
  (fun i => if 0x80 <=? i then 0 else nth (Z.to_nat (Z.land i 0xF)) table 0) <$> idx.
Definition tbl16 (table idx : list Z) : list Z :=
  (fun i => if i <? 16 then nth (Z.to_nat i) table 0 else 0) <$> idx.
Definition alignr16 (a b : list Z) (k : nat) : list Z := take 16 (drop k (b ++ a)).

Definition mm_shuffle_epi8 (a b : vec 16) : vec 16 := mkvec 16 (shuffle16 (vbytes a) (vbytes b)).
Definition mm_alignr_epi8 (a b : vec 16) (k : nat) : vec 16 := mkvec 16 (alignr16 (vbytes a) (vbytes b) k).
Definition vextq_u8 (a b : vec 16) (k : nat) : vec 16 := mkvec 16 (take 16 (drop k (vbytes a ++ vbytes b))).
Definition vqtbl1q_u8 (a b : vec 16) : vec 16 := mkvec 16 (tbl16 (vbytes a) (vbytes b)).

(** The 256-bit versions work on each 128-bit half. *)
Definition lo16 (v : vec 32) : list Z := take 16 (vbytes v).
Definition hi16 (v : vec 32) : list Z := drop 16 (vbytes v).
Definition mm256_shuffle_epi8 (a b : vec 32) : vec 32 :=
  mkvec 32 (shuffle16 (lo16 a) (lo16 b) ++ shuffle16 (hi16 a) (hi16 b)).
Definition mm256_alignr_epi8 (a b : vec 32) (k : nat) : vec 32 :=
  mkvec 32 (alignr16 (lo16 a) (lo16 b) k ++ alignr16 (hi16 a) (hi16 b) k).
(** Control [0b100001]: the high half of [a], then the low half of [b]. *)
Definition mm256_permute2x128_21 (a b : vec 32) : vec 32 := mkvec 32 (hi16 a ++ lo16 b).

(** *** Lanes of the common operations *)

Lemma lor_byte a b : byte_ok a -> byte_ok b -> byte_ok (Z.lor a b).
Proof.
  intros Ha Hb. pose proof (byte_forall2 (fun a b => fitsb 8 (Z.lor a b)) a b) as H.
  specialize (H ltac:(vm_compute; done) Ha Hb). apply fitsb_spec in H. mlia.
Qed.

Lemma lxor_byte a b : byte_ok a -> byte_ok b -> byte_ok (Z.lxor a b).
Proof.
  intros Ha Hb. pose proof (byte_forall2 (fun a b => fitsb 8 (Z.lxor a b)) a b) as H.
  specialize (H ltac:(vm_compute; done) Ha Hb). apply fitsb_spec in H. mlia.
Qed.

Section Lanes.
Context {n : nat}.
Implicit Types a b v : vec n.

Lemma vbytes_length v : length (vbytes v) = n.
Proof. apply vec_ok. Qed.
Lemma vbytes_ok v : bytes_ok (vbytes v).
Proof. apply vec_ok. Qed.

Lemma vbytes_zip f a b :
  (forall x y, byte_ok x -> byte_ok y -> byte_ok (f x y)) ->
  vbytes (mkvec n (zip_with f (vbytes a) (vbytes b))) = zip_with f (vbytes a) (vbytes b).
Proof.
  intros Hf. apply vbytes_mkvec.
  - rewrite length_zip_with, !vbytes_length. lia.
  - pose proof (vbytes_ok a) as Ha. pose proof (vbytes_ok b) as Hb. revert Hb.
    generalize (vbytes b). induction Ha as [|x xs Hx _ IH]; intros [|y ys] Hy; try by constructor.
    apply bytes_ok_cons in Hy as [??]. constructor; [by apply Hf | by apply IH].
Qed.

Lemma vbytes_fmap f v :
  (forall x, byte_ok x -> byte_ok (f x)) -> vbytes (mkvec n (f <$> vbytes v)) = f <$> vbytes v.
Proof.
  intros Hf. apply vbytes_mkvec; [by rewrite length_fmap, vbytes_length|].
  apply Forall_fmap. eapply Forall_impl; [apply vbytes_ok|]. exact Hf.
Qed.

Lemma v_set1_lanes (c : Z) : byte_ok c -> vbytes (v_set1 (n := n) c) = replicate n c.
Proof.
  intros. apply vbytes_mkvec; [apply length_replicate | by apply Forall_replicate].
Qed.

Lemma v_load_lanes mem off : bytes_ok mem -> vbytes <$> v_load (n := n) mem off = rdn mem off (Z.of_nat n).
Proof.
  intros Hm. unfold v_load. destruct (rdn mem off (Z.of_nat n)) as [bs|] eqn:E; [|done].
  cbn [mbind option_bind fmap option_fmap option_map]. f_equal. apply vbytes_mkvec.
  - apply rdn_len in E. unfold len in E. lia.
  - by eapply rdn_bytes_ok.
Qed.

Lemma v_or_lanes a b : vbytes (v_or a b) = zip_with Z.lor (vbytes a) (vbytes b).
Proof. apply vbytes_zip, lor_byte. Qed.
Lemma v_and_lanes a b : vbytes (v_and a b) = zip_with Z.land (vbytes a) (vbytes b).
Proof. apply vbytes_zip. intros x y Hx Hy. apply byte_land_ok; mlia. Qed.
Lemma v_xor_lanes a b : vbytes (v_xor a b) = zip_with Z.lxor (vbytes a) (vbytes b).
Proof. apply vbytes_zip, lxor_byte. Qed.
Lemma v_subs_lanes a b :
  vbytes (v_subs_u8 a b) = zip_with (fun x y => Z.max 0 (x - y)) (vbytes a) (vbytes b).
Proof. apply vbytes_zip. mlia. Qed.

Lemma v_testz_zero v : negb (v_testz v v =? 0) = forallb (Z.eqb 0) (vbytes v).
Proof.
  unfold v_testz. assert (zip_with Z.land (vbytes v) (vbytes v) = vbytes v) as ->.
  { induction (vbytes v) as [|x xs IH]; [done|]. cbn. by rewrite Z.land_diag, IH. }
  by destruct (forallb (Z.eqb 0) (vbytes v)).
Qed.

Lemma shiftr7 x : byte_ok x -> Z.shiftr x 7 = if x <? 0x80 then 0 else 1.
Proof.
  intros Hx. rewrite Z.shiftr_div_pow2 by lia. change (2 ^ 7) with 128.
  destruct (Z.ltb_spec x 0x80); dlia.
Qed.

Lemma v_movemask_ascii v : (v_movemask v =? 0) = forallb (fun x => x <? 0x80) (vbytes v).
Proof.
  unfold v_movemask. pose proof (vbytes_ok v) as Hv.
  assert (0 <= foldr (fun x acc => Z.shiftr x 7 + 2 * acc) 0 (vbytes v) /\
    (foldr (fun x acc => Z.shiftr x 7 + 2 * acc) 0 (vbytes v) =? 0) =
      forallb (fun x => x <? 0x80) (vbytes v)) as [_ H]; [|exact H].
  induction Hv as [|x xs Hx _ [IH1 IH2]]; [done|]. cbn [foldr forallb]. rewrite shiftr7 by done.
  rewrite <- IH2. destruct (x <? 0x80); lia.
Qed.

Lemma v_max_zero v : (v_max_u8 v =? 0) = forallb (Z.eqb 0) (vbytes v).
Proof.
  unfold v_max_u8. assert (0 <= foldr Z.max 0 (vbytes v) /\
    (foldr Z.max 0 (vbytes v) =? 0) = forallb (Z.eqb 0) (vbytes v)) as [_ H]; [|exact H].
  pose proof (vbytes_ok v) as Hv. induction Hv as [|x xs Hx _ [IH1 IH2]]; [done|].
  cbn [foldr forallb]. rewrite <- IH2. mlia.
Qed.

Lemma v_max_ascii v : (v_max_u8 v <? 0x80) = forallb (fun x => x <? 0x80) (vbytes v).
Proof.
  unfold v_max_u8. induction (vbytes v) as [|x xs IH]; [done|]. cbn [foldr forallb]. rewrite <- IH. lia.
Qed.

(** The 16-bit shift followed by the mask is a shift of each byte. *)
Lemma srli16_nibbles l :
  bytes_ok l -> Nat.Even (length l) ->
  bytes_ok (srli16 4 l) /\ length (srli16 4 l) = length l /\
  (fun x => Z.land x 0x0F) <$> srli16 4 l = (fun x => Z.shiftr x 4) <$> l.
Proof.
  intros Hl He. destruct He as [m Hm]. revert l Hl Hm.
  induction m as [|m IH]; intros [|lo [|hi r]] Hl Hm; try (simpl in Hm; lia); [by repeat split|].
  apply bytes_ok_cons in Hl as [Hlo Hl]. apply bytes_ok_cons in Hl as [Hhi Hr].
  destruct (IH r Hr) as (IH1 & IH2 & IH3); [simpl in Hm; lia|]. cbn [srli16 length fmap list_fmap].
  rewrite !Z.shiftr_div_pow2 by lia. change (2 ^ 4) with 16. change 0x0F with (Z.ones 4) in *.
  split; [|split; [by rewrite IH2|]].
  - rewrite !bytes_ok_cons. repeat split; [dlia..|done].
  - rewrite IH3, !Z.land_ones by lia. change (2 ^ 4) with 16. f_equal; [dlia|]. f_equal. dlia.
Qed.

Lemma v_shr4_lanes v :
  Nat.Even n -> vbytes (v_and (v_srli_u16 v 4) (v_set1 0x0F)) = (fun x => Z.shiftr x 4) <$> vbytes v.
Proof.
  intros He. rewrite v_and_lanes, v_set1_lanes by mlia.
  rewrite zip_with_replicate_r_eq by apply vbytes_length.
  destruct (srli16_nibbles (vbytes v)) as (H1 & H2 & H3); [apply vbytes_ok | by rewrite vbytes_length|].
  unfold v_srli_u16. rewrite vbytes_mkvec; [exact H3 | by rewrite H2, vbytes_length | exact H1].
Qed.
End Lanes.

Lemma nth_byte table k : bytes_ok table -> byte_ok (nth k table 0).
Proof.
  intros Ht. destruct (nth_in_or_default k table 0) as [Hin| ->]; [|mlia].
  unfold bytes_ok in Ht. rewrite List.Forall_forall in Ht. auto.
Qed.

Lemma shuffle16_small table idx :
  Forall (fun i => 0 <= i < 16) idx -> shuffle16 table idx = (fun i => nth (Z.to_nat i) table 0) <$> idx.
Proof.
  intros Hi. apply list_fmap_ext. intros k i Hk. rewrite Forall_lookup in Hi. specialize (Hi k i Hk).
  cbn beta in Hi. destruct (Z.leb_spec 0x80 i); [lia|].
  change 0xF with (Z.ones 4). rewrite Z.land_ones by lia. change (2 ^ 4) with 16. by rewrite Z.mod_small.
Qed.

Lemma tbl16_small table idx :
  Forall (fun i => 0 <= i < 16) idx -> tbl16 table idx = (fun i => nth (Z.to_nat i) table 0) <$> idx.
Proof.
  intros Hi. apply list_fmap_ext. intros k i Hk. rewrite Forall_lookup in Hi. specialize (Hi k i Hk).
  cbn beta in Hi. destruct (Z.ltb_spec i 16); [done|lia].
Qed.

Lemma lookup_ok table idx : bytes_ok table -> bytes_ok ((fun i => nth (Z.to_nat i) table 0) <$> idx).
Proof. intros Ht. apply Forall_fmap, Forall_true. intros i. cbn. by apply nth_byte. Qed.

(** The byte-wise alignment reaches back into the previous sixteen bytes. *)
Lemma alignr16_prev cur prev k :
  length prev = 16%nat -> length cur = 16%nat -> (1 <= k <= 16)%nat ->
  alignr16 cur prev (16 - k) = drop (16 - k) prev ++ take (16 - k) cur.
Proof.
  intros Hp Hc Hk. unfold alignr16. rewrite drop_app_le by lia.
  rewrite take_app_ge by (rewrite length_drop; lia). rewrite length_drop, Hp. do 2 f_equal. lia.
Qed.

(** Both ways of testing for the third and fourth byte of a character. *)
Lemma check_signed xs ys :
  bytes_ok xs -> bytes_ok ys ->
  (fun b => Z.land b 0x80) <$> ((fun x => if to_signed 8 0 <? to_signed 8 x then 0xFF else 0) <$>
    zip_with Z.lor ((fun x => Z.max 0 (x - 0xDF)) <$> xs) ((fun x => Z.max 0 (x - 0xEF)) <$> ys)) =
  zip_with (fun p2 p3 => if (0xE0 <=? p2) || (0xF0 <=? p3) then 0x80 else 0) xs ys.
Proof.
  intros Hx. revert ys. induction Hx as [|x xs Hx _ IH]; intros [|y ys] Hy; try done.
  apply bytes_ok_cons in Hy as [Hy Hys]. cbn [fmap list_fmap zip_with]. f_equal; [|by apply IH].
  apply Z.eqb_eq. apply (byte_forall2 (fun x y =>
    Z.land (if to_signed 8 0 <? to_signed 8 (Z.lor (Z.max 0 (x - 0xDF)) (Z.max 0 (y - 0xEF)))
            then 0xFF else 0) 0x80 =? (if (0xE0 <=? x) || (0xF0 <=? y) then 0x80 else 0))); [|done..].
  vm_compute. done.
Qed.

Lemma check_unsigned xs ys :
  bytes_ok xs -> bytes_ok ys ->
  (fun b => Z.land b 0x80) <$> zip_with Z.lor ((fun x => if 0xDF <? x then 0xFF else 0) <$> xs)
                                              ((fun x => if 0xEF <? x then 0xFF else 0) <$> ys) =
  zip_with (fun p2 p3 => if (0xE0 <=? p2) || (0xF0 <=? p3) then 0x80 else 0) xs ys.
Proof.
  intros _ _. revert ys. induction xs as [|x xs IH]; intros [|y ys]; try done.
  cbn [fmap list_fmap zip_with]. f_equal; [|by apply IH].
  destruct (Z.ltb_spec 0xDF x), (Z.ltb_spec 0xEF y), (Z.leb_spec 0xE0 x), (Z.leb_spec 0xF0 y);
    first [done | lia].
Qed.

Section Check.
Context {n : nat}.
Implicit Types v : vec n.

Lemma v_check_signed v v' :
  (fun b => Z.land b 0x80) <$>
    vbytes (v_cmpgt_i8 (v_or (v_subs_u8 v (v_set1 0xDF)) (v_subs_u8 v' (v_set1 0xEF))) (v_set1 0)) =
  zip_with (fun p2 p3 => if (0xE0 <=? p2) || (0xF0 <=? p3) then 0x80 else 0) (vbytes v) (vbytes v').
Proof.
  unfold v_cmpgt_i8. rewrite vbytes_zip by (intros; case_match; mlia).
  rewrite v_or_lanes, !v_subs_lanes, !v_set1_lanes by mlia.
  rewrite !zip_with_replicate_r_eq by
    (rewrite ?length_zip_with, ?length_replicate, ?vbytes_length; lia).
  apply check_signed; apply vbytes_ok.
Qed.

Lemma v_check_unsigned v v' :
  (fun b => Z.land b 0x80) <$>
    vbytes (v_or (v_cmpgt_u8 v (v_set1 0xDF)) (v_cmpgt_u8 v' (v_set1 0xEF))) =
  zip_with (fun p2 p3 => if (0xE0 <=? p2) || (0xF0 <=? p3) then 0x80 else 0) (vbytes v) (vbytes v').
Proof.
  rewrite v_or_lanes. unfold v_cmpgt_u8. rewrite !vbytes_zip by (intros; case_match; mlia).
  rewrite !v_set1_lanes by mlia. rewrite !zip_with_replicate_r_eq by apply vbytes_length.
  apply check_unsigned; apply vbytes_ok.
Qed.
End Check.

(** ** The back ends *)

Module Ssse3.
Abbreviation V := (vec 16).
Definition Fill (val : Z) : V := v_set1 val.
Definition Set32 (vals : list Z) : V := v_setr (take 16 (drop 16 vals)).
Definition SetRepeat16 (vals : list Z) : V := v_setr vals.
Definition IsAllZero (v : V) : bool := negb (v_testz v v =? 0).
Definition IsAscii (v : V) : bool := v_movemask v =? 0.
Definition SignedGt (a b : V) : V := v_cmpgt_i8 a b.
Definition Shr4 (v : V) : V := v_and (v_srli_u16 v 4) (Fill 0x0F).
Definition Prev (N : nat) (cur prev : V) : V := mm_alignr_epi8 cur prev (16 - N).
Definition Lookup16 (v : V) (table : list Z) : V := mm_shuffle_epi8 (SetRepeat16 table) v.
Definition Check2Or3Continuation (prev2 prev3 : V) : V :=
  let is_third_byte := v_subs_u8 prev2 (Fill 0xDF) in
  let is_fourth_byte := v_subs_u8 prev3 (Fill 0xEF) in
  SignedGt (v_or is_third_byte is_fourth_byte) (Fill 0).

#[export] Instance arch : ArchImpl := {|
  Utf8Simd.Vector := V; Utf8Simd.VectorSize := 16; Utf8Simd.lanes := vbytes;
  Utf8Simd.LoadFromArray := v_load; Utf8Simd.StoreToArray := v_store;
  Utf8Simd.Fill := Fill; Utf8Simd.Set32 := Set32;
  Utf8Simd.IsAllZero := IsAllZero; Utf8Simd.IsAscii := IsAscii;
  Utf8Simd.vec_or := v_or; Utf8Simd.vec_and := v_and; Utf8Simd.vec_xor := v_xor;
  Utf8Simd.SaturatingSub := v_subs_u8; Utf8Simd.Shr4 := Shr4; Utf8Simd.Prev := Prev;
  Utf8Simd.Lookup16 := Lookup16; Utf8Simd.Check2Or3Continuation := Check2Or3Continuation |}.
End Ssse3.

Module Avx2.
Abbreviation V := (vec 32).
Definition Fill (val : Z) : V := v_set1 val.
Definition Set32 (vals : list Z) : V := v_setr vals.
Definition SetRepeat16 (vals : list Z) : V := Set32 (vals ++ vals).
Definition IsAllZero (v : V) : bool := negb (v_testz v v =? 0).
Definition IsAscii (v : V) : bool := v_movemask v =? 0.
Definition SignedGt (a b : V) : V := v_cmpgt_i8 a b.
Definition Shr4 (v : V) : V := v_and (v_srli_u16 v 4) (Fill 0x0F).
Definition Prev (N : nat) (cur prev : V) : V :=
  mm256_alignr_epi8 cur (mm256_permute2x128_21 prev cur) (16 - N).
Definition Lookup16 (v : V) (table : list Z) : V := mm256_shuffle_epi8 (SetRepeat16 table) v.
Definition Check2Or3Continuation (prev2 prev3 : V) : V :=
  let is_third_byte := v_subs_u8 prev2 (Fill 0xDF) in
  let is_fourth_byte := v_subs_u8 prev3 (Fill 0xEF) in
  SignedGt (v_or is_third_byte is_fourth_byte) (Fill 0).

#[export] Instance arch : ArchImpl := {|
  Utf8Simd.Vector := V; Utf8Simd.VectorSize := 32; Utf8Simd.lanes := vbytes;
  Utf8Simd.LoadFromArray := v_load; Utf8Simd.StoreToArray := v_store;
  Utf8Simd.Fill := Fill; Utf8Simd.Set32 := Set32;
  Utf8Simd.IsAllZero := IsAllZero; Utf8Simd.IsAscii := IsAscii;
  Utf8Simd.vec_or := v_or; Utf8Simd.vec_and := v_and; Utf8Simd.vec_xor := v_xor;
  Utf8Simd.SaturatingSub := v_subs_u8; Utf8Simd.Shr4 := Shr4; Utf8Simd.Prev := Prev;
  Utf8Simd.Lookup16 := Lookup16; Utf8Simd.Check2Or3Continuation := Check2Or3Continuation |}.
End Avx2.

Module Neon.
Abbreviation V := (vec 16).
Definition Fill (val : Z) : V := v_set1 val.
Definition Set32 (vals : list Z) : V := v_setr (take 16 (drop 16 vals)).
Definition SetRepeat16 (vals : list Z) : V := v_setr vals.
Definition IsAllZero (v : V) : bool := v_max_u8 v =? 0.
Definition IsAscii (v : V) : bool := v_max_u8 v <? 0x80.
Definition UnsignedGt (a b : V) : V := v_cmpgt_u8 a b.
Definition Shr4 (v : V) : V := v_shr_u8 v 4.
Definition Prev (N : nat) (cur prev : V) : V := vextq_u8 prev cur (16 - N).
Definition Lookup16 (v : V) (table : list Z) : V := vqtbl1q_u8 (SetRepeat16 table) v.
Definition Check2Or3Continuation (prev2 prev3 : V) : V :=
  let is_third_byte := UnsignedGt prev2 (Fill 0xDF) in
  let is_fourth_byte := UnsignedGt prev3 (Fill 0xEF) in
  v_or is_third_byte is_fourth_byte.

#[export] Instance arch : ArchImpl := {|
  Utf8Simd.Vector := V; Utf8Simd.VectorSize := 16; Utf8Simd.lanes := vbytes;
  Utf8Simd.LoadFromArray := v_load; Utf8Simd.StoreToArray := v_store;
  Utf8Simd.Fill := Fill; Utf8Simd.Set32 := Set32;
  Utf8Simd.IsAllZero := IsAllZero; Utf8Simd.IsAscii := IsAscii;
  Utf8Simd.vec_or := v_or; Utf8Simd.vec_and := v_and; Utf8Simd.vec_xor := v_xor;
  Utf8Simd.SaturatingSub := v_subs_u8; Utf8Simd.Shr4 := Shr4; Utf8Simd.Prev := Prev;
  Utf8Simd.Lookup16 := Lookup16; Utf8Simd.Check2Or3Continuation := Check2Or3Continuation |}.
End Neon.

(** ** The back ends keep the promises of the interface *)

Ltac fields :=
  cbn [Vector VectorSize lanes LoadFromArray StoreToArray Utf8Simd.Fill Utf8Simd.Set32
       Utf8Simd.IsAllZero Utf8Simd.IsAscii vec_or vec_and vec_xor SaturatingSub Utf8Simd.Shr4
       Utf8Simd.Prev Utf8Simd.Lookup16 Utf8Simd.Check2Or3Continuation Ssse3.arch Avx2.arch Neon.arch].

#[export] Instance Ssse3_laws : ArchImplLaws Ssse3.arch.
Proof.
  split; fields.
  - by left.
  - apply vbytes_length.
  - apply vbytes_ok.
  - intros. by apply v_load_lanes.
  - done.
  - apply v_set1_lanes.
  - intros vals Hl Hv. unfold Ssse3.Set32, v_setr. rewrite take_ge by (rewrite length_drop; lia).
    apply vbytes_mkvec; [rewrite length_drop; lia | by apply bytes_ok_drop].
  - apply v_testz_zero.
  - apply v_movemask_ascii.
  - apply v_or_lanes.
  - apply v_and_lanes.
  - apply v_xor_lanes.
  - apply v_subs_lanes.
  - intros v. apply v_shr4_lanes. by exists 8%nat.
  - intros k cur prev Hk. unfold Ssse3.Prev, mm_alignr_epi8.
    rewrite alignr16_prev by (done || apply vbytes_length). apply vbytes_mkvec.
    + rewrite length_app, length_drop, length_take, !vbytes_length. lia.
    + apply bytes_ok_app. split; [apply bytes_ok_drop | apply bytes_ok_take]; apply vbytes_ok.
  - intros v table Hl Ht Hi. unfold Ssse3.Lookup16, mm_shuffle_epi8, Ssse3.SetRepeat16, v_setr.
    rewrite (vbytes_mkvec 16 table) by done. rewrite shuffle16_small by done.
    apply vbytes_mkvec; [by rewrite length_fmap, vbytes_length | by apply lookup_ok].
  - apply v_check_signed.
Qed.

#[export] Instance Avx2_laws : ArchImplLaws Avx2.arch.
Proof.
  assert (forall v : vec 32, length (lo16 v) = 16%nat /\ length (hi16 v) = 16%nat /\
    bytes_ok (lo16 v) /\ bytes_ok (hi16 v) /\ vbytes v = lo16 v ++ hi16 v) as Hh.
  { intros v. unfold lo16, hi16. rewrite length_take, length_drop, vbytes_length.
    repeat split; try lia; [apply bytes_ok_take, vbytes_ok | apply bytes_ok_drop, vbytes_ok|].
    by rewrite take_drop. }
  split; fields.
  - by right.
  - apply vbytes_length.
  - apply vbytes_ok.
  - intros. by apply v_load_lanes.
  - done.
  - apply v_set1_lanes.
  - intros vals Hl Hv. by apply vbytes_mkvec.
  - apply v_testz_zero.
  - apply v_movemask_ascii.
  - apply v_or_lanes.
  - apply v_and_lanes.
  - apply v_xor_lanes.
  - apply v_subs_lanes.
  - intros v. apply v_shr4_lanes. by exists 16%nat.
  - intros k cur prev Hk. unfold Avx2.Prev, mm256_alignr_epi8.
    destruct (Hh cur) as (L1 & L2 & B1 & B2 & ->). destruct (Hh prev) as (L3 & L4 & B3 & B4 & ->).
    assert (vbytes (mm256_permute2x128_21 prev cur) = hi16 prev ++ lo16 cur) as Hp
      by (apply vbytes_mkvec; [rewrite length_app; lia | by apply bytes_ok_app]).
    unfold lo16 at 2, hi16 at 2. rewrite Hp.
    rewrite take_app_length', drop_app_length' by lia.
    rewrite !alignr16_prev by (done || lia).
    rewrite vbytes_mkvec.
    + rewrite drop_app_ge, take_app_ge by lia. rewrite L1, L3, <- app_assoc.
      replace (32 - k - 16)%nat with (16 - k)%nat by lia. f_equal.
      by rewrite app_assoc, take_drop.
    + rewrite !length_app, !length_drop, !length_take. lia.
    + rewrite !bytes_ok_app. auto using bytes_ok_take, bytes_ok_drop.
  - intros v table Hl Ht Hi. unfold Avx2.Lookup16, mm256_shuffle_epi8, Avx2.SetRepeat16, Avx2.Set32, v_setr.
    destruct (Hh v) as (L1 & L2 & B1 & B2 & E). rewrite E in Hi |- *. apply Forall_app in Hi as [Hi1 Hi2].
    assert (vbytes (mkvec 32 (table ++ table)) = table ++ table) as Hp
      by (apply vbytes_mkvec; [rewrite length_app; lia | by apply bytes_ok_app]).
    unfold lo16 at 1, hi16 at 1. rewrite Hp, take_app_length', drop_app_length' by lia.
    rewrite !shuffle16_small by done. rewrite fmap_app. apply vbytes_mkvec.
    + rewrite length_app, !length_fmap. lia.
    + apply bytes_ok_app. split; by apply lookup_ok.
  - apply v_check_signed.
Qed.

#[export] Instance Neon_laws : ArchImplLaws Neon.arch.
Proof.
  split; fields.
  - by left.
  - apply vbytes_length.
  - apply vbytes_ok.
  - intros. by apply v_load_lanes.
  - done.
  - apply v_set1_lanes.
  - intros vals Hl Hv. unfold Neon.Set32, v_setr. rewrite take_ge by (rewrite length_drop; lia).
    apply vbytes_mkvec; [rewrite length_drop; lia | by apply bytes_ok_drop].
  - apply v_max_zero.
  - apply v_max_ascii.
  - apply v_or_lanes.
  - apply v_and_lanes.
  - apply v_xor_lanes.
  - apply v_subs_lanes.
  - intros v. apply vbytes_fmap. intros x Hx. rewrite Z.shiftr_div_pow2 by lia. change (2 ^ 4) with 16. dlia.
  - intros k cur prev Hk. unfold Neon.Prev, vextq_u8.
    pose proof (alignr16_prev (vbytes cur) (vbytes prev) k) as H. unfold alignr16 in H.
    rewrite H by (done || apply vbytes_length). apply vbytes_mkvec.
    + rewrite length_app, length_drop, length_take, !vbytes_length. lia.
    + apply bytes_ok_app. split; [apply bytes_ok_drop | apply bytes_ok_take]; apply vbytes_ok.
  - intros v table Hl Ht Hi. unfold Neon.Lookup16, vqtbl1q_u8, Neon.SetRepeat16, v_setr.
    rewrite (vbytes_mkvec 16 table) by done. rewrite tbl16_small by done.
    apply vbytes_mkvec; [by rewrite length_fmap, vbytes_length | by apply lookup_ok].
  - apply v_check_unsigned.
Qed.

(** Forty euro signs, two vector chunks long, and a truncated copy. *)
Definition euros : list Z := encodes (replicate 40 0x20AC).

Lemma euros_ok : bytes_ok euros.
Proof. apply (bool_decide_unpack _). vm_compute. exact I. Qed.

Lemma IsValidUtf8Simd_correct_witness :
  IsValidUtf8Simd (A := Ssse3.arch) little (Some euros) (len euros) = Some true /\
  IsValidUtf8Simd (A := Avx2.arch) little (Some (take 100 euros ++ [0xE2])) 101 = Some false /\
  IsValidUtf8Simd (A := Ssse3.arch) little (Some euros) (len euros) =
    IsValidUtf8Scalar little (Some euros) (len euros) /\
  exists verdict, IsValidUtf8Simd (A := Ssse3.arch) little (Some euros) (len euros) = Some verdict /\
    (verdict = true <-> exists cps, Forall is_scalar_value cps /\ euros = encodes cps).
Proof.
  split; [vm_compute; reflexivity|]. split; [vm_compute; reflexivity|].
  apply (IsValidUtf8Simd_correct (A := Ssse3.arch) little euros euros_ok). vm_compute. reflexivity.
Defined.

Lemma ValidateAndCopyUtf8Simd_correct_witness :
  exists dst', ValidateAndCopyUtf8Simd (A := Neon.arch) little (Some euros) (replicate 130 7) (len euros) =
      Some (valid euros, dst') /\
    (valid euros = true -> dst' = euros ++ drop (length euros) (replicate 130 7)).
Proof.
  apply (ValidateAndCopyUtf8Simd_correct (A := Neon.arch) little euros _ euros_ok); vm_compute;
    [reflexivity | intros H; discriminate H].
Defined.

(** ** utf-utils.cc: the entry points

    The instruction set the library is built for decides which back end runs. *)

Module UtfUtils.

Inductive target := HasAvx2 | HasSse41 | HasNeon | Other.

Definition utfutils_is_valid_utf8 (t : target) (e : endian) (data : option (list Z)) (size : Z) : option bool :=
  match t with
  | HasAvx2 => IsValidUtf8Simd (A := Avx2.arch) e data size
  | HasSse41 => IsValidUtf8Simd (A := Ssse3.arch) e data size
  | HasNeon => IsValidUtf8Simd (A := Neon.arch) e data size
  | Other => IsValidUtf8Scalar e data size
  end.

Definition utfutils_validate_and_copy_utf8 (t : target) (e : endian) (src : option (list Z))
    (dst : list Z) (size : Z) : option (bool * list Z) :=
  match t with
  | HasAvx2 => ValidateAndCopyUtf8Simd (A := Avx2.arch) e src dst size
  | HasSse41 => ValidateAndCopyUtf8Simd (A := Ssse3.arch) e src dst size
  | HasNeon => ValidateAndCopyUtf8Simd (A := Neon.arch) e src dst size
  | Other => ValidateAndCopyUtf8Scalar e src dst size
  end.

Lemma Run_valid `{L : ArchImplLaws} e data :
  bytes_ok data -> len data < 2 ^ 64 -> IsValidUtf8Simd e (Some data) (len data) = Some (valid data).
Proof.
  intros Hok Hl. unfold IsValidUtf8Simd.
  by destruct (Run_spec e false data [] Hok Hl ltac:(done)) as (? & -> & _).
Qed.

(** The verdict on a valid pointer does not depend on the build. *)
Lemma is_valid_utf8_valid t e data :
  bytes_ok data -> len data < 2 ^ 64 ->
  utfutils_is_valid_utf8 t e (Some data) (len data) = Some (valid data).
Proof.
  intros Hok Hl. destruct t; cbn; [by apply Run_valid.. | by apply IsValidUtf8Scalar_valid].
Qed.

(** Whatever instruction set the library is built for, and for null pointers
    too, both entry points return the same verdict. *)
Theorem utfutils_build_independent t t' e data dst :
  match data with Some d => bytes_ok d /\ len d < 2 ^ 64 /\ len d <= len dst | None => True end ->
  let size := match data with Some d => len d | None => 0 end in
  utfutils_is_valid_utf8 t e data size = utfutils_is_valid_utf8 t' e data size /\
  fst <$> utfutils_validate_and_copy_utf8 t e data dst size = utfutils_is_valid_utf8 t' e data size.
Proof.
  destruct data as [d|]; cbn zeta.
  - intros (Hok & Hl & Hd). rewrite !is_valid_utf8_valid by done. split; [done|].
    assert (forall `{L : ArchImplLaws}, fst <$> ValidateAndCopyUtf8Simd e (Some d) dst (len d) = Some (valid d)) as H.
    { intros A L. unfold ValidateAndCopyUtf8Simd.
      by destruct (Run_spec e true d dst Hok Hl ltac:(done)) as (? & -> & _). }
    destruct t; cbn [utfutils_validate_and_copy_utf8]; [apply H, _.. |].
    by rewrite ValidateAndCopyUtf8Scalar_valid.
  - intros _. by destruct t, t'.
Qed.

Lemma utfutils_build_independent_witness :
  utfutils_is_valid_utf8 HasAvx2 little (Some euros) (len euros) =
    utfutils_is_valid_utf8 Other little (Some euros) (len euros) /\
  fst <$> utfutils_validate_and_copy_utf8 HasAvx2 little (Some euros) (replicate 120 0) (len euros) =
    utfutils_is_valid_utf8 Other little (Some euros) (len euros).
Proof.
  apply (utfutils_build_independent HasAvx2 Other little (Some euros) (replicate 120 0)).
  split; [exact euros_ok|]. split; vm_compute; [reflexivity | intros H; discriminate H].
Defined.

End UtfUtils.
