(* ===== verification/FidlTypes.v ===== *)
(** * FIDL coding tables

    Models src/fidl_base/include/lib/fidl/internal.h and the tables of internal.c:
    the coding tables that describe message layouts, and the small helpers on
    offsets and envelopes.  A coding table is a graph (recursive FIDL types point
    back to themselves), so a [fidl_type_t*] is an index into an array of tables. *)

From S2P Require Import Prelude.

(** ** The wire ABI

    <zircon/fidl.h> and <zircon/types.h> are not part of this repository: the
    constants the code takes from them are parameters, with the facts about them
    that the code relies on. *)

Class FidlAbi := {
  FIDL_ALIGNMENT : Z;
  FIDL_MAX_DEPTH : Z;
  FIDL_ALLOC_PRESENT : Z;
  FIDL_HANDLE_PRESENT : Z;
  FIDL_ENVELOPE_INLINING_SIZE_THRESHOLD : Z;
  FIDL_ENVELOPE_FLAGS_INLINING_MASK : Z;
  sizeof_fidl_xunion_v2_t : Z;
  offsetof_fidl_xunion_v2_t_envelope : Z;
  sizeof_fidl_message_header_t : Z;
  ZX_CHANNEL_MAX_MSG_HANDLES : Z;
  ZX_RIGHT_SAME_RIGHTS : Z;
  ZX_OBJ_TYPE_NONE : Z;
  ZX_HANDLE_OP_MOVE : Z;
  ZX_ERR_INVALID_ARGS : Z;
  ZX_ERR_BUFFER_TOO_SMALL : Z;
  ZX_ERR_PROTOCOL_NOT_SUPPORTED : Z;
  FIDL_TRANSPORT_ERR_UNKNOWN_METHOD : Z;
}.

Class FidlAbiLaws (abi : FidlAbi) := {
  alignment_8 : FIDL_ALIGNMENT = 8;
  max_depth_range : 0 < FIDL_MAX_DEPTH < 255;
  alloc_present_range : 0 < FIDL_ALLOC_PRESENT < 2 ^ 64;
  handle_present_range : 0 < FIDL_HANDLE_PRESENT < 2 ^ 32;
  inlining_mask_1 : FIDL_ENVELOPE_FLAGS_INLINING_MASK = 1;
  threshold_4 : FIDL_ENVELOPE_INLINING_SIZE_THRESHOLD = 4;
  xunion_size : sizeof_fidl_xunion_v2_t = 16;
  xunion_envelope : offsetof_fidl_xunion_v2_t_envelope = 8;
  header_size : sizeof_fidl_message_header_t = 16;
  max_handles_range : 0 < ZX_CHANNEL_MAX_MSG_HANDLES < 2 ^ 16;
  invalid_args_not_ok : ZX_ERR_INVALID_ARGS <> 0;
  buffer_too_small_not_ok : ZX_ERR_BUFFER_TOO_SMALL <> 0;
}.

Definition ZX_OK : Z := 0.
(** walker.h asserts that the absence marker of handles is the invalid handle. *)
Definition ZX_HANDLE_INVALID : Z := 0.

(** The values Fuchsia publishes. *)
Definition fuchsia_abi : FidlAbi := {|
  FIDL_ALIGNMENT := 8;
  FIDL_MAX_DEPTH := 32;
  FIDL_ALLOC_PRESENT := 2 ^ 64 - 1;
  FIDL_HANDLE_PRESENT := 2 ^ 32 - 1;
  FIDL_ENVELOPE_INLINING_SIZE_THRESHOLD := 4;
  FIDL_ENVELOPE_FLAGS_INLINING_MASK := 1;
  sizeof_fidl_xunion_v2_t := 16;
  offsetof_fidl_xunion_v2_t_envelope := 8;
  sizeof_fidl_message_header_t := 16;
  ZX_CHANNEL_MAX_MSG_HANDLES := 64;
  ZX_RIGHT_SAME_RIGHTS := 2 ^ 31;
  ZX_OBJ_TYPE_NONE := 0;
  ZX_HANDLE_OP_MOVE := 0;
  ZX_ERR_INVALID_ARGS := -10;
  ZX_ERR_BUFFER_TOO_SMALL := -15;
  ZX_ERR_PROTOCOL_NOT_SUPPORTED := -70;
  FIDL_TRANSPORT_ERR_UNKNOWN_METHOD := -2;
|}.

#[export] Instance fuchsia_abi_laws : FidlAbiLaws fuchsia_abi.
Proof. split; cbn; lia. Qed.

(** ** Flags and tags *)

Definition FidlNullability : Type := bool.
Definition kFidlNullability_Nonnullable : FidlNullability := false.
Definition kFidlNullability_Nullable : FidlNullability := true.

Definition FidlStrictness : Type := bool.
Definition kFidlStrictness_Flexible : FidlStrictness := false.
Definition kFidlStrictness_Strict : FidlStrictness := true.

Definition FidlIsResource : Type := bool.
Definition kFidlIsResource_Resource : FidlIsResource := true.
Definition kFidlIsResource_NotResource : FidlIsResource := false.

Definition FidlMemcpyCompatibility : Type := bool.
Definition kFidlMemcpyCompatibility_CannotMemcpy : FidlMemcpyCompatibility := false.
Definition kFidlMemcpyCompatibility_CanMemcpy : FidlMemcpyCompatibility := true.

Inductive FidlCodedPrimitiveSubtype :=
  | Bool | Int8 | Int16 | Int32 | Int64 | Uint8 | Uint16 | Uint32 | Uint64 | Float32 | Float64.

#[export] Instance subtype_eq_dec : EqDecision FidlCodedPrimitiveSubtype.
Proof. solve_decision. Defined.

(** ** Coding tables *)

(** A [const fidl_type_t*]: which table it points to. *)
Definition type_ptr : Type := nat.

Inductive FidlStructElement :=
  | Field (field_type : type_ptr) (offset_v2 : Z) (is_resource : FidlIsResource)
  | Padding64 (offset_v2 mask_64 : Z)
  | Padding32 (offset_v2 mask_32 : Z)
  | Padding16 (offset_v2 mask_16 : Z).

(** [header.is_resource]: the constructors of padding set it to "not a resource". *)
Definition element_is_resource (e : FidlStructElement) : FidlIsResource :=
  match e with Field _ _ r => r | _ => kFidlIsResource_NotResource end.

Record FidlTableField := { table_field_type : type_ptr; ordinal : Z }.
(** [type] may be null (reserved members). *)
Record FidlUnionField := { union_field_type : option type_ptr }.

Record FidlCodedPrimitive := { primitive_type : FidlCodedPrimitiveSubtype }.
Record FidlCodedEnum := {
  enum_underlying_type : FidlCodedPrimitiveSubtype;
  enum_strictness : FidlStrictness;
  validate : Z -> bool;
  enum_name : option string }.
Record FidlCodedBits := {
  bits_underlying_type : FidlCodedPrimitiveSubtype;
  bits_strictness : FidlStrictness;
  bits_mask : Z;
  bits_name : option string }.
(** [element_count] is the length of [elements]. *)
Record FidlCodedStruct := {
  contains_envelope : bool;
  is_empty : bool;
  size_v2 : Z;
  elements : list FidlStructElement;
  struct_name : option string }.
Record FidlCodedStructPointer := { struct_type : type_ptr }.
Record FidlCodedTable := {
  table_is_resource : FidlIsResource;
  table_fields : list FidlTableField;
  table_name : option string }.
Record FidlCodedUnion := {
  union_nullable : FidlNullability;
  union_strictness : FidlStrictness;
  union_is_resource : FidlIsResource;
  union_fields : list FidlUnionField;
  union_name : option string }.
Record FidlCodedArray := {
  array_element_size_v2 : Z;
  array_size_v2 : Z;
  array_element : option type_ptr }.
Record FidlCodedHandle := {
  handle_nullable : FidlNullability;
  handle_subtype : Z;
  handle_rights : Z }.
Record FidlCodedString := { string_nullable : FidlNullability; max_size : Z }.
Record FidlCodedVector := {
  vector_nullable : FidlNullability;
  element_memcpy_compatibility : FidlMemcpyCompatibility;
  max_count : Z;
  vector_element_size_v2 : Z;
  vector_element : option type_ptr }.

(** The tag says which of these a table is. *)
Inductive fidl_type :=
  | TypePrimitive (t : FidlCodedPrimitive)
  | TypeEnum (t : FidlCodedEnum)
  | TypeBits (t : FidlCodedBits)
  | TypeStruct (t : FidlCodedStruct)
  | TypeStructPointer (t : FidlCodedStructPointer)
  | TypeArray (t : FidlCodedArray)
  | TypeString (t : FidlCodedString)
  | TypeHandle (t : FidlCodedHandle)
  | TypeVector (t : FidlCodedVector)
  | TypeTable (t : FidlCodedTable)
  | TypeXUnion (t : FidlCodedUnion).

Definition tables : Type := list fidl_type.

(** ** Helpers on offsets and envelopes *)

Section Helpers.
Context {abi : FidlAbi}.

Definition FidlAlign (offset : Z) : Z :=
  let alignment_mask := FIDL_ALIGNMENT - 1 in
  Z.land (offset ⊕[64] alignment_mask) (∁[64] alignment_mask).

(** [None] stands for a null pointer, whose address is zero. *)
Definition FidlIsAligned (ptr : Z) : bool :=
  let alignment_mask := FIDL_ALIGNMENT - 1 in Z.land ptr alignment_mask =? 0.

Definition FidlAddOutOfLine (offset size : Z) : option Z :=
  let kMask := FIDL_ALIGNMENT - 1 in
  new_offset ← add_overflow 32 offset size;
  new_offset ← add_overflow 32 new_offset kMask;
  Some (Z.land new_offset (∁[32] kMask)).

(** A [fidl_envelope_v2_t] is handled as the word it occupies. *)
Definition env_num_bytes (envelope : Z) : Z := wrap 32 envelope.
Definition env_num_handles (envelope : Z) : Z := wrap 16 (Z.shiftr envelope 32).
Definition env_flags (envelope : Z) : Z := wrap 16 (Z.shiftr envelope 48).

Definition FidlIsZeroEnvelope (envelope : Z) : bool := envelope =? 0.

(** Trims the transaction header off a message: the status, and what the call
    leaves in [*out_bytes], [*out_num_bytes] and [*out_error_msg] ([None] when it
    does not write there).  The count is written before the null check.
    [out_error_msg] says whether the caller asked for a message. *)
Definition fidl_exclude_header_bytes (bytes : option Z) (num_bytes : Z) (out_error_msg : bool)
    : Z * option Z * option Z * option string :=
  let message (msg : string) := if out_error_msg then Some msg else None in
  if num_bytes <? sizeof_fidl_message_header_t
  then (ZX_ERR_INVALID_ARGS, None, None, message "Message too short to contain header"%string)
  else
    let out_num_bytes := num_bytes ⊖[32] sizeof_fidl_message_header_t in
    match bytes with
    | None => (ZX_ERR_INVALID_ARGS, None, Some out_num_bytes, message "Cannot decode null bytes"%string)
    | Some b => (ZX_OK, Some (b + sizeof_fidl_message_header_t), Some out_num_bytes, None)
    end.

(** The transport error enum shared by all protocols. *)
Definition EnumValidatorForTransportErr (v : Z) : bool :=
  v =? wrap 64 FIDL_TRANSPORT_ERR_UNKNOWN_METHOD.

Definition fidl_internal_kTransportErrTable : FidlCodedEnum := {|
  enum_underlying_type := Int32;
  enum_strictness := kFidlStrictness_Strict;
  validate := EnumValidatorForTransportErr;
  enum_name := Some "fidl/TransportErr"%string |}.

End Helpers.

Definition fidl_internal_kBoolTable : FidlCodedPrimitive := {| primitive_type := Bool |}.
Definition fidl_internal_kInt8Table : FidlCodedPrimitive := {| primitive_type := Int8 |}.
Definition fidl_internal_kInt16Table : FidlCodedPrimitive := {| primitive_type := Int16 |}.
Definition fidl_internal_kInt32Table : FidlCodedPrimitive := {| primitive_type := Int32 |}.
Definition fidl_internal_kInt64Table : FidlCodedPrimitive := {| primitive_type := Int64 |}.
Definition fidl_internal_kUint8Table : FidlCodedPrimitive := {| primitive_type := Uint8 |}.
Definition fidl_internal_kUint16Table : FidlCodedPrimitive := {| primitive_type := Uint16 |}.
Definition fidl_internal_kUint32Table : FidlCodedPrimitive := {| primitive_type := Uint32 |}.
Definition fidl_internal_kUint64Table : FidlCodedPrimitive := {| primitive_type := Uint64 |}.
Definition fidl_internal_kFloat32Table : FidlCodedPrimitive := {| primitive_type := Float32 |}.
Definition fidl_internal_kFloat64Table : FidlCodedPrimitive := {| primitive_type := Float64 |}.

(** ** Sizes, from walker.h *)

Definition PrimitiveSize (primitive : FidlCodedPrimitiveSubtype) : Z :=
  match primitive with
  | Bool | Int8 | Uint8 => 1
  | Int16 | Uint16 => 2
  | Int32 | Uint32 | Float32 => 4
  | Int64 | Uint64 | Float64 => 8
  end.

Definition sizeof_fidl_vector_t : Z := 16.
Definition sizeof_fidl_string_t : Z := 16.
Definition sizeof_fidl_envelope_v2_t : Z := 8.

Definition TypeSize {abi : FidlAbi} (type : fidl_type) : Z :=
  match type with
  | TypePrimitive t => PrimitiveSize (primitive_type t)
  | TypeEnum t => PrimitiveSize (enum_underlying_type t)
  | TypeBits t => PrimitiveSize (bits_underlying_type t)
  | TypeStructPointer _ => 8
  | TypeHandle _ => 4
  | TypeStruct t => size_v2 t
  | TypeTable _ => sizeof_fidl_vector_t
  | TypeXUnion _ => sizeof_fidl_xunion_v2_t
  | TypeString _ => sizeof_fidl_string_t
  | TypeArray t => array_size_v2 t
  | TypeVector _ => sizeof_fidl_vector_t
  end.

(** ** Facts about the helpers *)

Section HelperFacts.
Context {abi : FidlAbi} {laws : FidlAbiLaws abi}.

(** Clearing the low bits of a word rounds it down. *)
Lemma land_lnot_low w k x :
  0 <= k -> fits w x -> Z.land x (Z.lxor (Z.ones k) (Z.ones w)) = x - x mod 2 ^ k.
Proof.
  intros Hk Hx.
  replace (Z.land x (Z.lxor (Z.ones k) (Z.ones w))) with (Z.ldiff x (Z.ones k)).
  - rewrite Z.ldiff_ones_r, Z.shiftl_mul_pow2, Z.shiftr_div_pow2 by done.
    pose proof (Z.div_mod x (2 ^ k) ltac:(lia)). lia.
  - apply Z.bits_inj_iff'. intros i Hi. rewrite Z.ldiff_spec, Z.land_spec, Z.lxor_spec.
    destruct (Z.lt_ge_cases i w).
    + rewrite (Z.ones_spec_low w) by lia. by destruct (Z.testbit (Z.ones k) i).
    + destruct (Z.eq_dec x 0) as [->|]; [by rewrite Z.bits_0|].
      rewrite (Z.bits_above_log2 x i); [done|mlia|].
      eapply Z.lt_le_trans; [|done]. apply Z.log2_lt_pow2; mlia.
Qed.

(** Rounding up to the alignment. *)
Definition align_up (x : Z) : Z := (x + 7) / 8 * 8.

Lemma FidlAlign_spec offset : fits 32 offset -> FidlAlign offset = align_up offset.
Proof.
  intros H. unfold FidlAlign, align_up. rewrite alignment_8.
  change (8 - 1) with 7. rewrite (wrap_small 64) by mlia. change 7 with (Z.ones 3) at 2.
  rewrite land_lnot_low by mlia. change (2 ^ 3) with 8. dlia.
Qed.

(** [FidlAddOutOfLine] fails exactly when the rounded sum does not fit, and
    otherwise returns the sum rounded up to the alignment. *)
Lemma FidlAddOutOfLine_Some offset size new_offset :
  0 <= offset -> 0 <= size ->
  FidlAddOutOfLine offset size = Some new_offset <->
  new_offset = align_up (offset + size) /\ offset + size + 7 < 2 ^ 32.
Proof.
  intros Ho Hs. unfold FidlAddOutOfLine, add_overflow, align_up. rewrite alignment_8.
  change (8 - 1) with (Z.ones 3).
  assert (forall x, 0 <= x -> x + 7 < 2 ^ 32 ->
    Z.land (x + Z.ones 3) (∁[32] (Z.ones 3)) = (x + 7) / 8 * 8) as Hland.
  { intros x Hx Hx'. change (x + Z.ones 3) with (x + 7).
    rewrite land_lnot_low by mlia. change (2 ^ 3) with 8. dlia. }
  split.
  - intros (x & (-> & Hx)%checked_Some & (y & (-> & Hy)%checked_Some & [= <-])%bind_Some)%bind_Some.
    change (Z.ones 3) with 7 in Hy. split; [apply Hland|]; mlia.
  - intros (-> & Hx).
    assert (checked 32 (offset + size) = Some (offset + size)) as -> by (apply checked_Some; split; [done|mlia]).
    simpl. assert (checked 32 (offset + size + Z.ones 3) = Some (offset + size + Z.ones 3)) as ->
      by (apply checked_Some; split; [done | change (Z.ones 3) with 7; mlia]).
    simpl. f_equal. apply Hland; lia.
Qed.

Lemma align_up_bounds x : x <= align_up x < x + 8.
Proof. unfold align_up. dlia. Qed.

Lemma align_up_mod x : align_up x mod 8 = 0.
Proof. unfold align_up. apply Z.mod_mul. lia. Qed.

Lemma env_fields_fit e :
  fits 32 (env_num_bytes e) /\ fits 16 (env_num_handles e) /\ fits 16 (env_flags e).
Proof. repeat split; apply wrap_fits; lia. Qed.

End HelperFacts.
