(* ===== verification/FidlWalker.v ===== *)
(** * The FIDL message walker

    Models src/fidl_base/include/lib/fidl/visitor.h and walker.h.  The walker
    traverses a message by following its coding table and calls a visitor; it is
    written once against the visitor interface, the class [Visitor] here, as the
    C++ template is written against its [VisitorImpl] parameter.  Positions are
    offsets into the message buffer, which is part of the visitor's state. *)

From S2P Require Import Prelude FidlTypes.

(** ** The visitor interface *)

Inductive Status := kSuccess | kConstraintViolationError | kMemoryError.
Inductive PointeeType := kVector | kString | kEnvelope | kOther.

#[export] Instance PointeeType_eq_dec : EqDecision PointeeType.
Proof. solve_decision. Defined.

Definition Position : Type := Z.

Class Visitor (S : Type) := {
  kOnlyWalkResources : bool;
  kContinueAfterConstraintViolation : bool;
  kValidateEnvelopeInlineBit : bool;
  EnvelopeCheckpoint : Type;
  (** the message buffer the positions point into *)
  message : S -> list Z;
  VisitAbsentPointerInNonNullableCollection : forall (object_ptr_ptr : Position), ST S Status;
  (** the position is meaningful when the status is [kSuccess] *)
  VisitPointer : forall (ptr_position : Position) (pointee_type : PointeeType)
      (object_ptr_ptr : Position) (inline_size : Z)
      (pointee_memcpy_compatibility : FidlMemcpyCompatibility), ST S (Status * Position);
  VisitHandle : forall (handle_position handle_ptr : Position) (handle_rights handle_subtype : Z), ST S Status;
  VisitVectorOrStringCount : forall (ptr : Position), ST S Status;
  (** [width] is the size in bytes of the mask's type *)
  VisitInternalPadding : forall (width : nat) (padding_position : Position) (mask : Z), ST S Status;
  EnterEnvelope : ST S EnvelopeCheckpoint;
  LeaveEnvelope : forall (in_envelope : Z) (out_envelope : Position) (prev : EnvelopeCheckpoint), ST S Status;
  LeaveInlinedEnvelope : forall (in_envelope : Z) (out_envelope : Position) (prev : EnvelopeCheckpoint), ST S Status;
  VisitUnknownEnvelope : forall (envelope_copy : Z) (envelope_ptr : Position) (is_resource : FidlIsResource), ST S Status;
  OnError : forall (error : string), ST S unit;
}.

(** ** The walker *)

Inductive Result := kContinue | kExit.

Section Walker.
Context {abi : FidlAbi} {S : Type} {V : Visitor S}.
(** The coding tables the program is linked with. *)
Context (tbl : tables).

(** [*PtrTo<T>(position)] for an [n]-byte [T]. *)
Definition PtrTo (n : nat) (position : Position) : ST S Z :=
  bytes ← gets message; lift (load n bytes position).

(** The outcome of a recoverable error. *)
Definition violation : Result := if kContinueAfterConstraintViolation then kContinue else kExit.

Definition FIDL_STATUS_GUARD (status : Status) (rest : ST S Result) : ST S Result :=
  match status with
  | kSuccess => rest
  | kConstraintViolationError => mret violation
  | kMemoryError => mret kExit
  end.

Definition FIDL_RESULT_GUARD (result : Result) (rest : ST S Result) : ST S Result :=
  match result with kExit => mret kExit | kContinue => rest end.

(** [OnError(msg)] followed by the guard of a constraint violation. *)
Definition reject (msg : string) : ST S Result := OnError msg ;; mret violation.

Definition INCREASE_DEPTH (depth : Z) : Z := depth ⊕[8] 1.

Definition FIDL_DEPTH_GUARD (depth : Z) (rest : ST S Result) : ST S Result :=
  if FIDL_MAX_DEPTH <? depth then reject "recursion depth exceeded" else rest.

Definition NeedWalkPrimitive (subtype : FidlCodedPrimitiveSubtype) : bool :=
  match subtype with Bool => true | _ => false end.

Definition WalkPrimitive (t : FidlCodedPrimitive) (position : Position) : ST S Result :=
  match primitive_type t with
  | Bool =>
      value ← PtrTo 1 position;
      if negb (value =? 0) && negb (value =? 1) then reject "not a valid bool value" else mret kContinue
  | _ => mret kContinue
  end.

(** Reading a signed integer sign-extends it to 64 bits. *)
Definition WalkEnum (t : FidlCodedEnum) (position : Position) : ST S Result :=
  if bool_decide (enum_strictness t = kFidlStrictness_Flexible) then mret kContinue else
  value ← match enum_underlying_type t with
          | Uint8 => PtrTo 1 position
          | Uint16 => PtrTo 2 position
          | Uint32 => PtrTo 4 position
          | Uint64 => PtrTo 8 position
          | Int8 => v ← PtrTo 1 position; mret (wrap 64 (to_signed 8 v))
          | Int16 => v ← PtrTo 2 position; mret (wrap 64 (to_signed 16 v))
          | Int32 => v ← PtrTo 4 position; mret (wrap 64 (to_signed 32 v))
          | Int64 => v ← PtrTo 8 position; mret (wrap 64 (to_signed 64 v))
          | _ => undefined
          end;
  if negb (validate t value) then reject "not a valid enum member" else mret kContinue.

Definition WalkBits (t : FidlCodedBits) (position : Position) : ST S Result :=
  if bool_decide (bits_strictness t = kFidlStrictness_Flexible) then mret kContinue else
  value ← match bits_underlying_type t with
          | Uint8 => PtrTo 1 position
          | Uint16 => PtrTo 2 position
          | Uint32 => PtrTo 4 position
          | Uint64 => PtrTo 8 position
          | _ => undefined
          end;
  if negb (Z.land value (∁[64] (bits_mask t)) =? 0) then reject "not a valid bits member" else mret kContinue.

Definition WalkHandle (t : FidlCodedHandle) (position : Position) : ST S Result :=
  handle ← PtrTo 4 position;
  if handle =? ZX_HANDLE_INVALID then
    if negb (handle_nullable t) then reject "message is missing a non-nullable handle" else mret kContinue
  else
    status ← VisitHandle position position (handle_rights t) (handle_subtype t);
    FIDL_STATUS_GUARD status (mret kContinue).

Definition WalkString (t : FidlCodedString) (position : Position) (depth : Z) : ST S Result :=
  size ← PtrTo 8 position;
  status ← VisitVectorOrStringCount position;
  FIDL_STATUS_GUARD status (
  data ← PtrTo 8 (position + 8);
  if data =? 0 then
    if negb (size =? 0) then reject "string is absent but length is not zero"
    else if negb (string_nullable t) then
      let array_depth := INCREASE_DEPTH depth in
      FIDL_DEPTH_GUARD array_depth (
      status ← VisitAbsentPointerInNonNullableCollection (position + 8);
      FIDL_STATUS_GUARD status (mret kContinue))
    else mret kContinue
  else
  let bound := max_size t in
  if 2 ^ 32 - 1 <? size then OnError "string size overflows 32 bits" ;; FIDL_STATUS_GUARD kMemoryError (mret kContinue)
  else if bound <? size then reject "message tried to access too large of a bounded string"
  else
  let array_depth := INCREASE_DEPTH depth in
  FIDL_DEPTH_GUARD array_depth (
  '(status, _) ← VisitPointer position kString (position + 8) (wrap 32 size) kFidlMemcpyCompatibility_CanMemcpy;
  FIDL_STATUS_GUARD status (mret kContinue))).

(** The walks of compound types call [WalkInternal], their first argument. *)
Section Open.
Context (WalkInternal : type_ptr -> Position -> Z -> ST S Result).

(** The loop [for (offset = 0; offset < end_offset; offset += stride)]. *)
Fixpoint iterate (fuel : nat) (elem_type : type_ptr) (position : Position)
    (offset stride end_offset depth : Z) : ST S Result :=
  match fuel with
  | O => undefined
  | Datatypes.S fuel =>
      if offset <? end_offset then
        result ← WalkInternal elem_type (position + offset) depth;
        FIDL_RESULT_GUARD result
          (iterate fuel elem_type position (offset ⊕[32] stride) stride end_offset depth)
      else mret kContinue
  end.

Definition WalkIterableInternal (elem_type : option type_ptr) (position : Position)
    (stride end_offset depth : Z) : ST S Result :=
  match elem_type with
  | None => mret kContinue
  | Some elem_type =>
      match tbl !! elem_type with
      | None => undefined
      | Some t =>
          if match t with TypePrimitive p => negb (NeedWalkPrimitive (primitive_type p)) | _ => false end
          then mret kContinue
          else iterate (Datatypes.S (Z.to_nat end_offset)) elem_type position 0 stride end_offset depth
      end
  end.

(** The loop over the elements of a struct: a failed guard leaves [WalkStruct]. *)
Fixpoint WalkElements (elements : list FidlStructElement) (position : Position) (depth : Z) : ST S Result :=
  match elements with
  | [] => mret kContinue
  | element :: elements =>
      let next := WalkElements elements position depth in
      if kOnlyWalkResources && negb (element_is_resource element) then next else
      match element with
      | Field field_type offset_v2 _ =>
          let field_position := position + offset_v2 in
          result ← WalkInternal field_type field_position depth;
          FIDL_RESULT_GUARD result next
      | Padding64 offset_v2 mask_64 =>
          status ← VisitInternalPadding 8 (position + offset_v2) mask_64;
          FIDL_STATUS_GUARD status next
      | Padding32 offset_v2 mask_32 =>
          status ← VisitInternalPadding 4 (position + offset_v2) mask_32;
          FIDL_STATUS_GUARD status next
      | Padding16 offset_v2 mask_16 =>
          status ← VisitInternalPadding 2 (position + offset_v2) mask_16;
          FIDL_STATUS_GUARD status next
      end
  end.

Definition WalkStruct (t : FidlCodedStruct) (position : Position) (depth : Z) : ST S Result :=
  if is_empty t then
    value ← PtrTo 1 position;
    if negb (value =? 0) then reject "invalid empty struct"
    else WalkElements (elements t) position depth
  else WalkElements (elements t) position depth.

Definition WalkStructPointer (t : FidlCodedStructPointer) (position : Position) (depth : Z) : ST S Result :=
  pointer ← PtrTo 8 position;
  if pointer =? 0 then mret kContinue else
  let inner_depth := INCREASE_DEPTH depth in
  FIDL_DEPTH_GUARD inner_depth (
  match tbl !! struct_type t with
  | Some (TypeStruct st) =>
      '(status, obj_position) ← VisitPointer position kOther position (size_v2 st) kFidlMemcpyCompatibility_CannotMemcpy;
      FIDL_STATUS_GUARD status (WalkStruct st obj_position inner_depth)
  | _ => undefined
  end).

Definition WalkArray (t : FidlCodedArray) (position : Position) (depth : Z) : ST S Result :=
  WalkIterableInternal (array_element t) position (array_element_size_v2 t) (array_size_v2 t) depth.

Definition WalkVector (t : FidlCodedVector) (position : Position) (depth : Z) : ST S Result :=
  count ← PtrTo 8 position;
  status ← VisitVectorOrStringCount position;
  FIDL_STATUS_GUARD status (
  data ← PtrTo 8 (position + 8);
  if data =? 0 then
    if negb (count =? 0) then reject "absent vector of non-zero elements"
    else if negb (vector_nullable t) then
      let array_depth := INCREASE_DEPTH depth in
      FIDL_DEPTH_GUARD array_depth (
      status ← VisitAbsentPointerInNonNullableCollection (position + 8);
      FIDL_STATUS_GUARD status (mret kContinue))
    else mret kContinue
  else if max_count t <? count then reject "message tried to access too large of a bounded vector"
  else
  match mul_overflow 32 count (vector_element_size_v2 t) with
  | None => reject "integer overflow calculating vector size"
  | Some size =>
      let array_depth := INCREASE_DEPTH depth in
      FIDL_DEPTH_GUARD array_depth (
      '(status, array_position) ← VisitPointer position kVector (position + 8) size (element_memcpy_compatibility t);
      FIDL_STATUS_GUARD status (
      let stride := vector_element_size_v2 t in
      (* ZX_ASSERT(count <= std::numeric_limits<uint32_t>::max()) *)
      if 2 ^ 32 - 1 <? count then undefined else
      let end_offset := wrap 32 count ⊗[32] stride in
      WalkIterableInternal (vector_element t) array_position stride end_offset array_depth))
  end).

(** The padding mask of an inlined payload of [type_size] bytes. *)
Definition inline_padding (type_size : Z) : option Z :=
  if type_size =? 1 then Some 0xffffff00
  else if type_size =? 2 then Some 0xffff0000
  else if type_size =? 3 then Some 0xff000000
  else if type_size =? 4 then Some 0x00000000
  else None.

(** [type_size] and the table of a payload whose type is known. *)
Definition payload_size (payload_type : option type_ptr) : option (option Z) :=
  match payload_type with
  | None => Some None
  | Some p => t ← tbl !! p; Some (Some (TypeSize t))
  end.

Definition WalkEnvelope (envelope_position : Position) (payload_type : option type_ptr) (depth : Z)
    (is_resource : FidlIsResource) : ST S Result :=
  envelope_copy ← PtrTo 8 envelope_position;
  checkpoint ← EnterEnvelope;
  v2_envelope ← PtrTo 8 envelope_position;
  if negb (env_flags v2_envelope =? FIDL_ENVELOPE_FLAGS_INLINING_MASK) && negb (env_flags v2_envelope =? 0)
  then reject "Invalid inline marker in envelope" else
  let is_inline_bit_set := env_flags v2_envelope =? FIDL_ENVELOPE_FLAGS_INLINING_MASK in
  type_size ← lift (payload_size payload_type);
  let is_inlined :=
    if FidlIsZeroEnvelope v2_envelope then false
    else match type_size with
         | Some n => n <=? FIDL_ENVELOPE_INLINING_SIZE_THRESHOLD
         | None => is_inline_bit_set
         end in
  if negb (FidlIsZeroEnvelope v2_envelope) && bool_decide (is_Some type_size)
     && kValidateEnvelopeInlineBit && negb (Bool.eqb is_inlined is_inline_bit_set)
  then reject "Invalid inline bit in envelope" else
  if is_inlined then
    let obj_depth := INCREASE_DEPTH depth in
    FIDL_DEPTH_GUARD obj_depth (
    let leave :=
      status ← LeaveInlinedEnvelope envelope_copy envelope_position checkpoint;
      FIDL_STATUS_GUARD status (mret kContinue) in
    match payload_type, type_size with
    | Some payload_type, Some type_size =>
        padding ← lift (inline_padding type_size);
        status ← VisitInternalPadding 4 envelope_position padding;
        FIDL_STATUS_GUARD status (
        result ← WalkInternal payload_type envelope_position obj_depth;
        FIDL_RESULT_GUARD result leave)
    | _, _ =>
        status ← VisitUnknownEnvelope envelope_copy envelope_position is_resource;
        FIDL_STATUS_GUARD status leave
    end)
  else
  let leave :=
    status ← LeaveEnvelope envelope_copy envelope_position checkpoint;
    FIDL_STATUS_GUARD status (mret kContinue) in
  v2_envelope ← PtrTo 8 envelope_position;
  if negb (FidlIsZeroEnvelope v2_envelope) then
    let obj_depth := INCREASE_DEPTH depth in
    FIDL_DEPTH_GUARD obj_depth (
    let num_bytes := match type_size with Some n => n | None => env_num_bytes v2_envelope end in
    '(status, obj_position) ←
      VisitPointer envelope_position kEnvelope envelope_position num_bytes kFidlMemcpyCompatibility_CannotMemcpy;
    FIDL_STATUS_GUARD status (
    match payload_type with
    | Some payload_type =>
        result ← WalkInternal payload_type obj_position obj_depth;
        FIDL_RESULT_GUARD result leave
    | None =>
        status ← VisitUnknownEnvelope envelope_copy envelope_position is_resource;
        FIDL_STATUS_GUARD status leave
    end))
  else leave.

(** The loop over the envelopes of a table; [fields] are the fields from
    [next_field] on, and the count is read again at every turn. *)
Fixpoint table_loop (fuel : nat) (t : FidlCodedTable) (position envelope_vector_position : Position)
    (field_index : Z) (fields : list FidlTableField) (envelope_vector_depth : Z) : ST S Result :=
  match fuel with
  | O => undefined
  | Datatypes.S fuel =>
      count ← PtrTo 8 position;
      if field_index <? count then
        let ordinal_ := field_index ⊕[32] 1 in
        let '(known_field, fields) :=
          match fields with
          | f :: fields' => if ordinal f =? ordinal_ then (Some f, fields') else (None, fields)
          | [] => (None, [])
          end in
        let envelope_position := envelope_vector_position + (field_index ⊗[32] sizeof_fidl_envelope_v2_t) in
        let payload_type := table_field_type <$> known_field in
        result ← WalkEnvelope envelope_position payload_type envelope_vector_depth (table_is_resource t);
        FIDL_RESULT_GUARD result
          (table_loop fuel t position envelope_vector_position (field_index ⊕[32] 1) fields envelope_vector_depth)
      else mret kContinue
  end.

Definition WalkTable (t : FidlCodedTable) (position : Position) (depth : Z) : ST S Result :=
  let envelope_size := sizeof_fidl_envelope_v2_t in
  data ← PtrTo 8 (position + 8);
  count ← PtrTo 8 position;
  if data =? 0 then
    if negb (count =? 0) then reject "Table envelope vector data absent but non-zero count"
    else
    let array_depth := INCREASE_DEPTH depth in
    FIDL_DEPTH_GUARD array_depth (
    status ← VisitAbsentPointerInNonNullableCollection (position + 8);
    FIDL_STATUS_GUARD status (mret kContinue))
  else
  match mul_overflow 32 count envelope_size with
  | None => reject "integer overflow calculating table size"
  | Some size =>
      let envelope_vector_depth := INCREASE_DEPTH depth in
      FIDL_DEPTH_GUARD envelope_vector_depth (
      '(status, envelope_vector_position) ←
        VisitPointer position kOther (position + 8) size kFidlMemcpyCompatibility_CannotMemcpy;
      FIDL_STATUS_GUARD status
        (table_loop (Datatypes.S (Z.to_nat count)) t position envelope_vector_position 0
          (table_fields t) envelope_vector_depth))
  end.

Definition WalkXUnion (t : FidlCodedUnion) (position : Position) (depth : Z) : ST S Result :=
  let envelope_pos := position + offsetof_fidl_xunion_v2_t_envelope in
  tag ← PtrTo 8 position;
  envelope ← PtrTo 8 envelope_pos;
  if tag =? 0 then
    if negb (env_num_bytes envelope =? 0) || negb (env_num_handles envelope =? 0) || negb (env_flags envelope =? 0)
    then reject "xunion with zero as ordinal must be empty"
    else if negb (union_nullable t) then reject "non-nullable xunion is absent"
    else mret kContinue
  else if kValidateEnvelopeInlineBit && FidlIsZeroEnvelope envelope
  then reject "empty xunion must have zero as ordinal"
  else
  payload_type ← (if tag <=? Z.of_nat (length (union_fields t))
                  then lift (union_field_type <$> union_fields t !! Z.to_nat (tag - 1))
                  else mret None);
  if bool_decide (payload_type = None) && bool_decide (union_strictness t = kFidlStrictness_Strict)
  then reject "strict xunion has unknown ordinal"
  else WalkEnvelope envelope_pos payload_type depth (union_is_resource t).

End Open.

(** [fuel] bounds the nesting of calls. *)
Fixpoint WalkInternal (fuel : nat) (type : type_ptr) (position : Position) (depth : Z) : ST S Result :=
  match fuel with
  | O => undefined
  | Datatypes.S fuel =>
      let WalkInternal := WalkInternal fuel in
      match tbl !! type with
      | None => undefined
      | Some (TypePrimitive t) => WalkPrimitive t position
      | Some (TypeEnum t) => WalkEnum t position
      | Some (TypeBits t) => WalkBits t position
      | Some (TypeStruct t) => WalkStruct WalkInternal t position depth
      | Some (TypeStructPointer t) => WalkStructPointer WalkInternal t position depth
      | Some (TypeTable t) => WalkTable WalkInternal t position depth
      | Some (TypeXUnion t) => WalkXUnion WalkInternal t position depth
      | Some (TypeArray t) => WalkArray WalkInternal t position depth
      | Some (TypeString t) => WalkString t position depth
      | Some (TypeHandle t) => WalkHandle t position
      | Some (TypeVector t) => WalkVector WalkInternal t position depth
      end
  end.

Definition Walk (fuel : nat) (type : type_ptr) (position : Position) : ST S Result :=
  WalkInternal fuel type position 0.

End Walker.

(** ** The primary object *)

(** The size of the primary object and where the first out-of-line object
    starts, or a status and an error message. *)
Definition PrimaryObjectSize {abi : FidlAbi} (type : fidl_type) (buffer_size : Z) : (Z * string) + Z * Z :=
  let primary_size :=
    match type with
    | TypeStruct t => Some (size_v2 t)
    | TypeTable _ => Some 16
    | TypeXUnion _ => Some sizeof_fidl_xunion_v2_t
    | _ => None
    end in
  match primary_size with
  | None => inl (ZX_ERR_INVALID_ARGS, "Message must be a struct, table, or union"%string)
  | Some primary_size =>
      let first_out_of_line := FidlAlign primary_size in
      if buffer_size <? first_out_of_line
      then inl (ZX_ERR_BUFFER_TOO_SMALL, "Buffer is too small for first inline object"%string)
      else if 2 ^ 32 - 1 <? first_out_of_line
      then inl (ZX_ERR_INVALID_ARGS, "Out of line starting offset overflows"%string)
      else inr (primary_size, first_out_of_line)
  end.
