(* ===== verification/FidlHandles.v ===== *)
(** * Handles of FIDL messages

    Models the handle routines of src/fidl_base/internal.c and
    src/fidl_base/handle_close_many.cc (the Fuchsia build; on a host these
    routines panic).  The kernel is not part of this repository: its system calls
    are parameters, and [ZirconLaws] says what their documentation promises. *)

From stdpp Require Import gmap.
From S2P Require Import Prelude FidlTypes.

(** ** The kernel *)

Class Zircon := {
  kernel : Type;
  zx_handle_close : Z -> kernel -> kernel;
  zx_handle_close_many : list Z -> kernel -> Z * kernel;
  (** status, what the call leaves in the output handle *)
  zx_handle_replace : Z -> Z -> kernel -> (Z * Z) * kernel;
  (** status, object type and rights (ZX_INFO_HANDLE_BASIC) *)
  zx_object_get_info : Z -> kernel -> Z * (Z * Z);
}.

(** [owned k h] is the type of the object and the rights of a handle that is
    open in the calling process. *)
Class ZirconLaws {abi : FidlAbi} (zircon : Zircon) := {
  owned : kernel -> Z -> option (Z * Z);
  invalid_not_owned k : owned k ZX_HANDLE_INVALID = None;
  close_spec h k h' : owned (zx_handle_close h k) h' = if decide (h = h') then None else owned k h';
  close_many_spec hs k h : owned (snd (zx_handle_close_many hs k)) h = if decide (h ∈ hs) then None else owned k h;
  (** the old handle is always gone; the new one is fresh and has the rights asked for *)
  replace_ok h r k h' k' : r <> ZX_RIGHT_SAME_RIGHTS -> zx_handle_replace h r k = ((ZX_OK, h'), k') ->
    exists ty, fst <$> owned k h = Some ty /\ owned k h' = None /\ h' <> ZX_HANDLE_INVALID /\
    forall g, owned k' g = if decide (g = h') then Some (ty, r) else if decide (g = h) then None else owned k g;
  replace_err h r k st h' k' : zx_handle_replace h r k = ((st, h'), k') -> st <> ZX_OK ->
    (h' = ZX_HANDLE_INVALID \/ h' = h) /\
    forall g, owned k' g = if decide (g = h) then None else owned k g;
  get_info_spec h k ty r : owned k h = Some (ty, r) -> zx_object_get_info h k = (ZX_OK, (ty, r));
}.

Section Handles.
Context {abi : FidlAbi} {zircon : Zircon}.

(** ** Closing arrays of handles *)

Definition FidlHandleCloseMany (handles : list Z) (num_handles : Z) (k : kernel) : option (Z * kernel) :=
  if num_handles =? 0 then Some (ZX_OK, k)
  else if Z.of_nat (length handles) <? num_handles then None
  else Some (zx_handle_close_many (take (Z.to_nat num_handles) handles) k).

Record zx_handle_disposition_t := {
  disp_operation : Z; disp_handle : Z; disp_type : Z; disp_rights : Z; disp_result : Z }.
Record zx_handle_info_t := { info_handle : Z; info_type : Z; info_rights : Z }.

Definition FidlHandleDispositionCloseMany (ds : list zx_handle_disposition_t) (num_handles : Z) (k : kernel)
    : option (Z * kernel) :=
  if num_handles =? 0 then Some (ZX_OK, k)
  else if ZX_CHANNEL_MAX_MSG_HANDLES <? num_handles then None
  else if Z.of_nat (length ds) <? num_handles then None
  else Some (zx_handle_close_many (disp_handle <$> take (Z.to_nat num_handles) ds) k).

Definition FidlHandleInfoCloseMany (infos : list zx_handle_info_t) (num_handles : Z) (k : kernel)
    : option (Z * kernel) :=
  if num_handles =? 0 then Some (ZX_OK, k)
  else if ZX_CHANNEL_MAX_MSG_HANDLES <? num_handles then None
  else if Z.of_nat (length infos) <? num_handles then None
  else Some (zx_handle_close_many (info_handle <$> take (Z.to_nat num_handles) infos) k).

(** ** Types and rights *)

Definition subtract_rights (minuend subtrahend : Z) : Z := Z.land minuend (∁[32] subtrahend).

(** The status, the handle left in [*handle_ptr], the error message. *)
Definition ensured : Type := Z * Z * option string.

Definition FidlEnsureHandleRights (handle actual_type actual_rights required_object_type required_rights : Z)
    (k : kernel) : ensured * kernel :=
  if negb (required_object_type =? actual_type) && negb (required_object_type =? ZX_OBJ_TYPE_NONE)
     && negb (actual_type =? ZX_OBJ_TYPE_NONE)
  then (ZX_ERR_INVALID_ARGS, ZX_HANDLE_INVALID, Some "object type does not match expected type"%string,
        zx_handle_close handle k)
  else if (required_rights =? ZX_RIGHT_SAME_RIGHTS) || (actual_rights =? ZX_RIGHT_SAME_RIGHTS)
  then (ZX_OK, handle, None, k)
  else if negb (subtract_rights required_rights actual_rights =? 0)
  then (ZX_ERR_INVALID_ARGS, ZX_HANDLE_INVALID, Some "missing required rights"%string, zx_handle_close handle k)
  else if negb (subtract_rights actual_rights required_rights =? 0)
  then
    let '((status, handle), k) := zx_handle_replace handle required_rights k in
    if negb (status =? ZX_OK) then (status, handle, Some "zx_handle_replace failed"%string, k)
    else (ZX_OK, handle, None, k)
  else (ZX_OK, handle, None, k).

(** [error] says whether the error pointer is not null: the routine writes
    through it without a check when the kernel call fails. *)
Definition FidlEnsureActualHandleRights (handle required_object_type required_rights : Z) (error : bool)
    (k : kernel) : option (ensured * kernel) :=
  let '(status, (type, rights)) := zx_object_get_info handle k in
  if negb (status =? ZX_OK) then
    let k := zx_handle_close handle k in
    if error then Some (status, ZX_HANDLE_INVALID, Some "zx_object_get_info failed"%string, k) else None
  else Some (FidlEnsureHandleRights handle type rights required_object_type required_rights k).

(** ** Dispositions to infos *)

Definition with_handle (d : zx_handle_disposition_t) (h : Z) : zx_handle_disposition_t :=
  {| disp_operation := disp_operation d; disp_handle := h; disp_type := disp_type d;
     disp_rights := disp_rights d; disp_result := disp_result d |}.

(** The outputs: status, the dispositions and the infos as the call leaves them. *)
Definition converted : Type := Z * list zx_handle_disposition_t * list zx_handle_info_t * kernel.

(** The error exit: close the dispositions and the infos written so far. *)
Definition drop_both (ds : list zx_handle_disposition_t) (infos : list zx_handle_info_t)
    (num_handles : Z) (i : nat) (status : Z) (k : kernel) : option converted :=
  '(_, k) ← FidlHandleDispositionCloseMany ds num_handles k;
  '(_, k) ← FidlHandleInfoCloseMany infos (Z.of_nat i) k;
  Some (status, ds, infos, k).

(** [todo] is the number of turns left in [for (i = 0; i < num_handles; i++)]. *)
Fixpoint dispositions_loop (todo i : nat) (num_handles : Z) (ds : list zx_handle_disposition_t)
    (infos : list zx_handle_info_t) (k : kernel) : option converted :=
  match todo with
  | O => Some (ZX_OK, ds, infos, k)
  | S todo =>
      d ← ds !! i;
      if negb (disp_operation d =? ZX_HANDLE_OP_MOVE) then drop_both ds infos num_handles i ZX_ERR_INVALID_ARGS k
      else if negb (disp_result d =? ZX_OK) then drop_both ds infos num_handles i ZX_ERR_INVALID_ARGS k
      else
        '((status, handle, _), k) ←
          FidlEnsureActualHandleRights (disp_handle d) (disp_type d) (disp_rights d) false k;
        let ds := <[i := with_handle d handle]> ds in
        if negb (status =? ZX_OK) then drop_both ds infos num_handles i status k
        else
          if (length infos <=? i)%nat then None else
          let infos := <[i := {| info_handle := handle; info_type := disp_type d; info_rights := disp_rights d |}]> infos in
          let ds := <[i := with_handle d ZX_HANDLE_INVALID]> ds in
          dispositions_loop todo (S i) num_handles ds infos k
  end.

Definition FidlHandleDispositionsToHandleInfos (ds : list zx_handle_disposition_t)
    (infos : list zx_handle_info_t) (num_handles : Z) (k : kernel) : option converted :=
  dispositions_loop (Z.to_nat num_handles) 0 num_handles ds infos k.

End Handles.

(** ** A kernel that keeps the laws *)

Module ToyKernel.

Abbreviation table := (gmap Z (Z * Z)).
Definition open (k : table) (h : Z) : option (Z * Z) := if decide (h = 0) then None else k !! h.
Definition fresh_handle (k : table) : Z := 1 + map_fold (fun h _ m => Z.max h m) 0 k.

Definition toy : Zircon := {|
  kernel := table;
  zx_handle_close := fun h k => delete h k;
  zx_handle_close_many := fun hs k => (ZX_OK, foldr delete k hs);
  zx_handle_replace := fun h r k =>
    match open k h with
    | Some (ty, _) => ((ZX_OK, fresh_handle k), <[fresh_handle k := (ty, r)]> (delete h k))
    | None => ((-11, ZX_HANDLE_INVALID), k)
    end;
  zx_object_get_info := fun h k => match open k h with Some v => (ZX_OK, v) | None => (-11, (0, 0)) end;
|}.

Lemma fresh_handle_spec (k : table) : k !! fresh_handle k = None /\ 0 < fresh_handle k.
Proof.
  enough (0 <= map_fold (fun h _ m => Z.max h m) 0 k /\
    forall h v, k !! h = Some v -> h <= map_fold (fun h _ m => Z.max h m) 0 k) as [H0 H].
  { unfold fresh_handle. split; [|lia]. apply eq_None_not_Some. intros [v Hv]. apply H in Hv. lia. }
  apply (map_fold_weak_ind (M := gmap Z) (fun m (k : gmap Z (Z * Z)) => 0 <= m /\ forall h v, k !! h = Some v -> h <= m)).
  - split; [done|]. intros h v Hv. by apply lookup_empty_Some in Hv.
  - intros i x k' m _ [H0 H]. split; [lia|]. intros h v [[-> _]|[_ Hv]]%lookup_insert_Some; [lia|]. apply H in Hv. lia.
Qed.

Lemma open_delete_many hs (k : table) h : open (foldr delete k hs) h = if decide (h ∈ hs) then None else open k h.
Proof.
  unfold open. destruct (decide (h = 0)); [by case_decide|]. induction hs as [|h' hs IH]; cbn [foldr].
  { case_decide as E; [by apply not_elem_of_nil in E|done]. }
  destruct (decide (h = h')) as [->|Hne].
  - rewrite lookup_delete_eq. rewrite decide_True; [done|by left].
  - rewrite lookup_delete_ne, IH by done. destruct (decide (h ∈ hs)); case_decide as E; try done.
    + by destruct E; right.
    + by apply elem_of_cons in E as [|].
Qed.

#[export] Instance toy_laws {abi : FidlAbi} : ZirconLaws toy.
Proof.
  refine {| owned := open : @kernel toy -> Z -> option (Z * Z) |}.
  - intros k. done.
  - intros h k h'. unfold open. simpl. destruct (decide (h' = 0)); [by case_decide|].
    case_decide; [subst; apply lookup_delete_eq | by apply lookup_delete_ne].
  - intros hs k h. apply open_delete_many.
  - intros h r k h' k' _ E. simpl in E. destruct (open k h) as [[ty rr]|] eqn:Ho; [|done]. injection E as <- <-.
    pose proof (fresh_handle_spec k) as [Hf H0]. exists ty. split; [done|].
    assert (open k (fresh_handle k) = None) as Hn by (unfold open; rewrite Hf; by case_decide).
    split; [done|]. split; [unfold ZX_HANDLE_INVALID; lia|]. intros g. unfold open at 1.
    destruct (decide (g = fresh_handle k)) as [->|Hg].
    + rewrite decide_False by lia. apply lookup_insert_eq.
    + rewrite lookup_insert_ne by done. unfold open. destruct (decide (g = h)) as [->|].
      * rewrite lookup_delete_eq. by case_decide.
      * by rewrite lookup_delete_ne.
  - intros h r k st h' k' E Hst. simpl in E. destruct (open k h) as [[ty rr]|] eqn:Ho; [by simplify_eq|].
    injection E as <- <- <-. split; [by left|]. intros g. case_decide; [by subst|done].
  - intros h k ty r Ho. simpl. by rewrite Ho.
Defined.

End ToyKernel.

(** ** Ownership *)

Section Ownership.
Context {abi : FidlAbi} {laws : FidlAbiLaws abi} {zircon : Zircon} {zlaws : ZirconLaws zircon}.

Lemma subtract_rights_bits r s i :
  fits 32 r -> fits 32 s -> 0 <= i -> Z.testbit (subtract_rights r s) i = Z.testbit r i && negb (Z.testbit s i).
Proof.
  intros Hr Hs Hi. unfold subtract_rights. rewrite Z.land_spec, Z.lxor_spec.
  destruct (Z.lt_ge_cases i 32).
  - rewrite Z.ones_spec_low by lia. by destruct (Z.testbit s i).
  - assert (Z.testbit r i = false) as ->; [|done].
    destruct (Z.eq_dec r 0) as [->|]; [apply Z.bits_0|]. apply Z.bits_above_log2; [mlia|].
    eapply Z.lt_le_trans; [|done]. apply Z.log2_lt_pow2; mlia.
Qed.

(** Rights with nothing missing in either direction are the same rights. *)
Lemma subtract_rights_same r s :
  fits 32 r -> fits 32 s -> subtract_rights r s = 0 -> subtract_rights s r = 0 -> r = s.
Proof.
  intros Hr Hs H1 H2. apply Z.bits_inj_iff'. intros i Hi.
  pose proof (subtract_rights_bits r s i Hr Hs Hi) as E1. pose proof (subtract_rights_bits s r i Hs Hr Hi) as E2.
  rewrite H1, Z.bits_0 in E1. rewrite H2, Z.bits_0 in E2. by destruct (Z.testbit r i), (Z.testbit s i).
Qed.

(** Only the handle [h] and its replacement [h'] are affected. *)
Definition only_changes (k k' : kernel) (h h' : Z) : Prop :=
  forall g, g <> h -> g <> h' -> owned k' g = owned k g.

(** The outcome of checking a handle [h] to an object of type [ty] with rights [r]. *)
Definition ensure_post (k : kernel) (h ty r required_type required_rights : Z) (res : ensured * kernel) : Prop :=
  let '((st, h', _), k') := res in
  if decide (st = ZX_OK) then
    (required_type = ty \/ required_type = ZX_OBJ_TYPE_NONE \/ ty = ZX_OBJ_TYPE_NONE) /\
    (exists r', owned k' h' = Some (ty, r') /\
       (required_rights <> ZX_RIGHT_SAME_RIGHTS -> r <> ZX_RIGHT_SAME_RIGHTS -> r' = required_rights)) /\
    (h' = h \/ owned k h' = None /\ owned k' h = None) /\ only_changes k k' h h'
  else (h' = ZX_HANDLE_INVALID \/ h' = h) /\ owned k' h = None /\ only_changes k k' h h.

Lemma close_post k h ty r rt rr st e :
  owned k h = Some (ty, r) -> st <> ZX_OK ->
  ensure_post k h ty r rt rr (st, ZX_HANDLE_INVALID, e, zx_handle_close h k).
Proof.
  intros Ho Hst. unfold ensure_post. rewrite decide_False by done. split; [by left|].
  split; [by rewrite close_spec, decide_True|]. intros g Hg _. by rewrite close_spec, decide_False.
Qed.

Lemma ensure_ok h ty r required_type required_rights k :
  owned k h = Some (ty, r) -> fits 32 r -> fits 32 required_rights ->
  ensure_post k h ty r required_type required_rights
    (FidlEnsureHandleRights h ty r required_type required_rights k).
Proof.
  intros Ho Hr Hrr. unfold FidlEnsureHandleRights. pose proof invalid_args_not_ok as Hinv.
  destruct (negb (required_type =? ty) && _ && _) eqn:Et; [by apply close_post|].
  assert (required_type = ty \/ required_type = ZX_OBJ_TYPE_NONE \/ ty = ZX_OBJ_TYPE_NONE) as Hty.
  { apply andb_false_iff in Et as [Et%andb_false_iff|Et]; rewrite ?negb_false_iff, ?Z.eqb_eq in Et; tauto. }
  assert (forall e, (required_rights <> ZX_RIGHT_SAME_RIGHTS -> r <> ZX_RIGHT_SAME_RIGHTS -> r = required_rights) ->
    ensure_post k h ty r required_type required_rights (ZX_OK, h, e, k)) as Hkeep.
  { intros e Hsame. unfold ensure_post. rewrite decide_True by done. split; [done|].
    split; [by exists r|]. split; [by left|]. by intros g. }
  destruct (Z.eqb_spec required_rights ZX_RIGHT_SAME_RIGHTS) as [|Hs1]; [by apply Hkeep|].
  destruct (Z.eqb_spec r ZX_RIGHT_SAME_RIGHTS) as [|Hs2]; [by apply Hkeep|]. cbn [orb].
  destruct (Z.eqb_spec (subtract_rights required_rights r) 0) as [E1|E1]; cbn [negb]; [|by apply close_post].
  destruct (Z.eqb_spec (subtract_rights r required_rights) 0) as [E2|E2]; cbn [negb].
  { apply Hkeep. intros _ _. by apply subtract_rights_same. }
  destruct (zx_handle_replace h required_rights k) as [[st h'] k'] eqn:Erep.
  destruct (Z.eqb_spec st ZX_OK) as [->|Hst]; cbn [negb]; unfold ensure_post.
  - destruct (replace_ok _ _ _ _ _ Hs1 Erep) as (ty' & Hty' & Hfresh & Hnz & Hown). rewrite Ho in Hty'. injection Hty' as <-.
    rewrite decide_True by done. split; [done|]. assert (h' <> h) as Hne by congruence.
    split; [exists required_rights; rewrite Hown, decide_True by done; done|].
    split; [right; split; [done|]; rewrite Hown, decide_False, decide_True by done; done|].
    intros g Hg1 Hg2. by rewrite Hown, !decide_False.
  - destruct (replace_err _ _ _ _ _ _ Erep Hst) as [Hh' Hown]. rewrite decide_False by done.
    split; [done|]. split; [by rewrite Hown, decide_True|]. intros g Hg _. by rewrite Hown, decide_False.
Qed.

(** Checking a handle against a required type and required rights either
    succeeds with exactly one open handle of the right type, whose rights are the
    required ones unless one side leaves them open, or fails with the handle
    closed; no other handle of the process is touched. *)
Theorem FidlEnsureHandleRights_owns h ty r required_type required_rights k :
  owned k h = Some (ty, r) -> fits 32 r -> fits 32 required_rights ->
  ensure_post k h ty r required_type required_rights
    (FidlEnsureHandleRights h ty r required_type required_rights k).
Proof. apply ensure_ok. Qed.

(** *** Converting dispositions *)

(** The info [inf] in the table [k] answers the disposition [d]. *)
Definition answers (k : kernel) (d : zx_handle_disposition_t) (inf : zx_handle_info_t) : Prop :=
  info_type inf = disp_type d /\ info_rights inf = disp_rights d /\
  exists ty r, owned k (info_handle inf) = Some (ty, r) /\
    (disp_type d = ty \/ disp_type d = ZX_OBJ_TYPE_NONE \/ ty = ZX_OBJ_TYPE_NONE) /\
    (disp_rights d <> ZX_RIGHT_SAME_RIGHTS -> r = disp_rights d).

Context (ds0 : list zx_handle_disposition_t) (k0 : kernel).

(** The handles the caller gives away. *)
Abbreviation given := (disp_handle <$> ds0).

(** Each is open, once, and has 32-bit rights of its own. *)
Definition given_ok : Prop :=
  NoDup given /\
  Forall (fun d => fits 32 (disp_rights d) /\
    exists ty r, owned k0 (disp_handle d) = Some (ty, r) /\ fits 32 r /\ r <> ZX_RIGHT_SAME_RIGHTS) ds0.

Context (Hgiven : given_ok).

(** The first [i] dispositions are converted. *)
Record conv_inv (i : nat) (ds : list zx_handle_disposition_t) (infos : list zx_handle_info_t) (k : kernel) : Prop := {
  ci_ds : ds = (((fun d => with_handle d ZX_HANDLE_INVALID) <$> take i ds0) ++ drop i ds0);
  ci_len : (length ds0 <= length infos)%nat;
  ci_new : Forall2 (answers k) (take i ds0) (take i infos);
  ci_fresh : forall g, g ∈ info_handle <$> take i infos -> owned k0 g = None \/ g ∈ take i given;
  ci_rest : forall g, g ∉ info_handle <$> take i infos -> owned k g = if decide (g ∈ take i given) then None else owned k0 g }.

Lemma given_open g : g ∈ given -> is_Some (owned k0 g).
Proof.
  destruct Hgiven as [_ Hall]. intros (d & -> & Hd)%list_elem_of_fmap. rewrite Forall_forall in Hall.
  destruct (Hall _ Hd) as (_ & ty & r & -> & _). eauto.
Qed.

(** A disposition not yet converted still has its handle. *)
Lemma pending i ds infos k j d :
  conv_inv i ds infos k -> ds0 !! j = Some d -> (i <= j)%nat ->
  (disp_handle d ∉ info_handle <$> take i infos) /\ (disp_handle d ∉ take i given).
Proof.
  intros Hinv Hj Hij. assert (given !! j = Some (disp_handle d)) as Hg by (by rewrite list_lookup_fmap, Hj).
  assert (disp_handle d ∉ take i given) as Hnt.
  { intros (j' & Hj')%list_elem_of_lookup. pose proof (lookup_lt_Some _ _ _ Hj') as Hl. rewrite length_take in Hl.
    rewrite lookup_take_lt in Hj' by lia. destruct Hgiven as [Hnd _].
    pose proof (NoDup_lookup _ _ _ _ Hnd Hg Hj'). lia. }
  split; [|done]. intros [Hn|Hn]%(ci_fresh _ _ _ _ Hinv); [|done].
  destruct (given_open (disp_handle d)) as [? Ho]; [by eapply list_elem_of_lookup_2|]. congruence.
Qed.

Lemma conv_lookup i ds infos k d : conv_inv i ds infos k -> ds0 !! i = Some d -> ds !! i = Some d.
Proof.
  intros Hinv Hd. pose proof (lookup_lt_Some _ _ _ Hd). rewrite (ci_ds _ _ _ _ Hinv), lookup_app_r; rewrite length_fmap, length_take_le by lia; [|done].
  rewrite lookup_drop. rewrite <- Hd. f_equal. lia.
Qed.

Lemma conv_length i ds infos k : conv_inv i ds infos k -> length ds = length ds0.
Proof. intros Hinv. rewrite (ci_ds _ _ _ _ Hinv), length_app, length_fmap, length_take, length_drop. lia. Qed.

(** Both close routines close the handles they are given. *)
Lemma close_dispositions_ok ds k :
  Z.of_nat (length ds) <= ZX_CHANNEL_MAX_MSG_HANDLES ->
  exists st k', FidlHandleDispositionCloseMany ds (Z.of_nat (length ds)) k = Some (st, k') /\
    forall g, owned k' g = if decide (g ∈ disp_handle <$> ds) then None else owned k g.
Proof.
  intros Hmax. unfold FidlHandleDispositionCloseMany. destruct (Z.eqb_spec (Z.of_nat (length ds)) 0).
  { destruct ds; [|simpl in *; lia]. eexists _, _. split; [done|]. intros g. by rewrite decide_False by (apply not_elem_of_nil). }
  destruct (Z.ltb_spec ZX_CHANNEL_MAX_MSG_HANDLES (Z.of_nat (length ds))); [lia|]. rewrite Z.ltb_irrefl, take_ge by lia.
  destruct (zx_handle_close_many _ k) as [st k'] eqn:E. eexists _, _. split; [done|]. intros g.
  replace k' with (snd (zx_handle_close_many (disp_handle <$> ds) k)) by (by rewrite E). apply close_many_spec.
Qed.

Lemma close_infos_ok infos (i : nat) k :
  Z.of_nat i <= ZX_CHANNEL_MAX_MSG_HANDLES -> (i <= length infos)%nat ->
  exists st k', FidlHandleInfoCloseMany infos (Z.of_nat i) k = Some (st, k') /\
    forall g, owned k' g = if decide (g ∈ info_handle <$> take i infos) then None else owned k g.
Proof.
  intros Hmax Hi. unfold FidlHandleInfoCloseMany. destruct (Z.eqb_spec (Z.of_nat i) 0).
  { replace i with 0%nat by lia. eexists _, _. split; [done|]. intros g. by rewrite decide_False by (apply not_elem_of_nil). }
  destruct (Z.ltb_spec ZX_CHANNEL_MAX_MSG_HANDLES (Z.of_nat i)); [lia|].
  destruct (Z.ltb_spec (Z.of_nat (length infos)) (Z.of_nat i)); [lia|]. rewrite Nat2Z.id.
  destruct (zx_handle_close_many _ k) as [st k'] eqn:E. eexists _, _. split; [done|]. intros g.
  replace k' with (snd (zx_handle_close_many (info_handle <$> take i infos) k)) by (by rewrite E). apply close_many_spec.
Qed.

(** The handles in the dispositions when the [i]-th conversion is given up. *)
Lemma dropped_handles i ds infos k d h g :
  conv_inv i ds infos k -> ds0 !! i = Some d -> h = ZX_HANDLE_INVALID \/ h = disp_handle d ->
  g ∈ disp_handle <$> <[i := with_handle d h]> ds -> g = ZX_HANDLE_INVALID \/ g ∈ given.
Proof.
  intros Hinv Hd Hh (d' & -> & (j & Hj)%list_elem_of_lookup)%list_elem_of_fmap.
  assert (forall e, e ∈ ds0 -> disp_handle e ∈ given) as Hin by (intros e He; by apply list_elem_of_fmap_2).
  apply list_lookup_insert_Some in Hj as [(_ & <- & _)|(_ & Hj)].
  - simpl. destruct Hh as [->| ->]; [by left|right]. apply Hin. by eapply list_elem_of_lookup_2.
  - rewrite (ci_ds _ _ _ _ Hinv) in Hj. apply lookup_app_Some in Hj as [Hj|[_ Hj]].
    + rewrite list_lookup_fmap in Hj. destruct (take i ds0 !! j); simplify_eq/=. by left.
    + right. apply Hin. rewrite lookup_drop in Hj. by eapply list_elem_of_lookup_2.
Qed.

Lemma kept_handles i ds infos k d h j e :
  conv_inv i ds infos k -> ds0 !! i = Some d -> ds0 !! j = Some e -> (i < j)%nat ->
  disp_handle e ∈ disp_handle <$> <[i := with_handle d h]> ds.
Proof.
  intros Hinv Hd Hj Hij. apply list_elem_of_fmap_2. apply list_elem_of_lookup. exists j.
  pose proof (lookup_lt_Some _ _ _ Hd). rewrite list_lookup_insert_ne by lia.
  rewrite (ci_ds _ _ _ _ Hinv), lookup_app_r; rewrite length_fmap, length_take_le by lia; [|lia].
  rewrite lookup_drop. rewrite <- Hj. f_equal. lia.
Qed.

(** Giving up after [i] conversions: everything given is closed, nothing else is. *)
Lemma drop_both_ok i ds infos k d h st k1 :
  conv_inv i ds infos k -> ds0 !! i = Some d -> Z.of_nat (length ds0) <= ZX_CHANNEL_MAX_MSG_HANDLES ->
  h = ZX_HANDLE_INVALID \/ h = disp_handle d -> h = disp_handle d \/ owned k1 (disp_handle d) = None ->
  (forall g, g <> disp_handle d -> owned k1 g = owned k g) ->
  exists ds' infos' k', drop_both (<[i := with_handle d h]> ds) infos (Z.of_nat (length ds0)) i st k1 = Some (st, ds', infos', k') /\
    forall g, owned k' g = if decide (g ∈ given) then None else owned k0 g.
Proof.
  intros Hinv Hd Hmax Hh Hh' Hk1. pose proof (lookup_lt_Some _ _ _ Hd) as Hi. pose proof (ci_len _ _ _ _ Hinv) as Hl2.
  set (ds1 := <[i := with_handle d h]> ds).
  assert (length ds1 = length ds0) as Hl1 by (unfold ds1; rewrite length_insert; by eapply conv_length).
  destruct (close_dispositions_ok ds1 k1) as (st1 & k2 & E1 & Hk2); [rewrite Hl1; lia|]. rewrite Hl1 in E1.
  destruct (close_infos_ok infos i k2) as (st2 & k3 & E2 & Hk3); [lia..|].
  unfold drop_both. rewrite E1. cbn [mbind option_bind]. rewrite E2. exists ds1, infos, k3. split; [done|].
  intros g. rewrite Hk3, Hk2.
  destruct (decide (g ∈ info_handle <$> take i infos)) as [Hn|Hn].
  { case_decide as Hg; [done|]. destruct (ci_fresh _ _ _ _ Hinv g Hn) as [->|Ht]; [done|].
    destruct Hg. eapply elem_of_take in Ht as (j & Hj & _). by eapply list_elem_of_lookup_2. }
  destruct (decide (g ∈ disp_handle <$> ds1)) as [Hm|Hm].
  { case_decide as Hg; [done|]. destruct (dropped_handles _ _ _ _ _ _ _ Hinv Hd Hh Hm) as [->|]; [|done].
    by rewrite invalid_not_owned. }
  destruct (decide (g = disp_handle d)) as [->|Hne].
  - rewrite decide_True by (apply list_elem_of_fmap_2; by eapply list_elem_of_lookup_2).
    destruct Hh' as [->|]; [|done]. destruct Hm. apply list_elem_of_fmap. exists (with_handle d (disp_handle d)).
    split; [done|]. apply list_elem_of_lookup. exists i. apply list_lookup_insert_eq. rewrite (conv_length _ _ _ _ Hinv). lia.
  - rewrite Hk1, (ci_rest _ _ _ _ Hinv g Hn) by done. case_decide as Ht.
    + rewrite decide_True; [done|]. apply elem_of_take in Ht as (j & Hj & _). by eapply list_elem_of_lookup_2.
    + case_decide as Hg; [|done]. exfalso. apply list_elem_of_fmap in Hg as (e & -> & (j & Hj)%list_elem_of_lookup).
      destruct (Nat.lt_trichotomy i j) as [Hij|[<-|Hij]]; [|by simplify_eq|].
      * apply Hm. by eapply kept_handles.
      * apply Ht. apply elem_of_take. exists j. by rewrite list_lookup_fmap, Hj.
Qed.

Lemma take_S_insert {A} (l : list A) i x : (i < length l)%nat -> take (S i) (<[i := x]> l) = take i l ++ [x].
Proof.
  intros Hi. rewrite (take_S_r _ _ x) by (by apply list_lookup_insert_eq). by rewrite take_insert_ge by lia.
Qed.

Lemma conv_step i ds infos k d h e k' :
  conv_inv i ds infos k -> ds0 !! i = Some d ->
  FidlEnsureActualHandleRights (disp_handle d) (disp_type d) (disp_rights d) false k = Some ((ZX_OK, h, e), k') ->
  conv_inv (S i) (<[i := with_handle d ZX_HANDLE_INVALID]> (<[i := with_handle d h]> ds))
    (<[i := {| info_handle := h; info_type := disp_type d; info_rights := disp_rights d |}]> infos) k'.
Proof.
  intros Hinv Hd Hens. pose proof (lookup_lt_Some _ _ _ Hd) as Hi. pose proof (ci_len _ _ _ _ Hinv) as Hl.
  pose proof (pending _ _ _ _ _ _ Hinv Hd (Nat.le_refl i)) as [Hp1 Hp2].
  destruct Hgiven as [_ Hall]. pose proof (Forall_lookup_1 _ _ _ _ Hall Hd) as (Hfr & ty & r & Ho0 & Hr & Hns). cbv beta in *.
  assert (owned k (disp_handle d) = Some (ty, r)) as Ho by (by rewrite (ci_rest _ _ _ _ Hinv), decide_False).
  unfold FidlEnsureActualHandleRights in Hens. rewrite (get_info_spec _ _ _ _ Ho), Z.eqb_refl in Hens. cbn [negb] in Hens.
  pose proof (ensure_ok (disp_handle d) ty r (disp_type d) (disp_rights d) k Ho Hr Hfr) as Hpost.
  injection Hens as Hens. rewrite Hens in Hpost. unfold ensure_post in Hpost. rewrite decide_True in Hpost by done.
  destruct Hpost as (Hty & (r' & Ho' & Hr') & Hfresh & Honly).
  assert (forall g, g ∈ info_handle <$> take i infos -> is_Some (owned k g)) as Hlive.
  { intros g (inf & -> & (j & Hj)%list_elem_of_lookup)%list_elem_of_fmap.
    pose proof (Forall2_lookup_r _ _ _ _ _ (ci_new _ _ _ _ Hinv) Hj) as (d' & _ & _ & _ & ty' & rr & -> & _). eauto. }
  assert (forall g, g ∈ info_handle <$> take i infos -> owned k' g = owned k g) as Hsame.
  { intros g Hg. apply Honly; [by intros ->|]. intros ->. destruct Hfresh as [->|[Hn _]]; [done|].
    destruct (Hlive _ Hg). congruence. }
  split.
  - rewrite list_insert_insert_eq, (ci_ds _ _ _ _ Hinv), (take_S_r _ _ _ Hd), fmap_app, <- app_assoc. cbn.
    rewrite (drop_S _ _ _ Hd). rewrite insert_app_r_alt; rewrite length_fmap, length_take_le by lia; [|lia].
    by rewrite Nat.sub_diag.
  - by rewrite length_insert.
  - rewrite take_S_insert, (take_S_r _ _ _ Hd) by lia. apply Forall2_app.
    + pose proof (ci_new _ _ _ _ Hinv) as Hnew. apply Forall2_same_length_lookup in Hnew as [Hln Hnew].
      apply Forall2_same_length_lookup. split; [done|]. intros j d' inf Hj1 Hj2.
      destruct (Hnew _ _ _ Hj1 Hj2) as (? & ? & ty' & rr & Hown & Hrest). split; [done|]. split; [done|].
      exists ty', rr. rewrite Hsame; [done|]. apply list_elem_of_fmap_2. by eapply list_elem_of_lookup_2.
    + constructor; [|constructor]. split; [done|]. split; [done|]. exists ty, r'. split; [done|]. split; [done|]. intros. by apply Hr'.
  - rewrite take_S_insert by lia. rewrite fmap_app. intros g [Hg|Hg%list_elem_of_singleton]%elem_of_app.
    + destruct (ci_fresh _ _ _ _ Hinv g Hg) as [|Ht]; [by left|right]. rewrite (take_S_r given i (disp_handle d)) by (by rewrite list_lookup_fmap, Hd).
      apply elem_of_app. by left.
    + simpl in Hg. subst g. rewrite (take_S_r given i (disp_handle d)) by (by rewrite list_lookup_fmap, Hd).
      destruct Hfresh as [->|[Hn Hcl]]; [right; apply elem_of_app; right; by left|].
      destruct (decide (h ∈ info_handle <$> take i infos)) as [Hx|Hx]; [destruct (Hlive _ Hx); congruence|].
      rewrite (ci_rest _ _ _ _ Hinv _ Hx) in Hn. case_decide as Ht; [right; apply elem_of_app; by left|by left].
  - rewrite take_S_insert by lia. rewrite fmap_app. intros g Hg. rewrite not_elem_of_app in Hg. destruct Hg as [Hg1 Hg2].
    assert (g <> h) as Hgh by (intros ->; apply Hg2; by left).
    rewrite (take_S_r given i (disp_handle d)) by (by rewrite list_lookup_fmap, Hd).
    destruct (decide (g = disp_handle d)) as [->|Hne].
    + rewrite decide_True by (apply elem_of_app; right; by left). destruct Hfresh as [|[_ ?]]; [by subst h|done].
    + rewrite Honly, (ci_rest _ _ _ _ Hinv g Hg1) by done.
      destruct (decide (g ∈ take i given)) as [Ht|Ht]; [rewrite decide_True; [done|apply elem_of_app; by left]|].
      rewrite decide_False; [done|]. intros [?|[= ?]%list_elem_of_singleton]%elem_of_app; done.
Qed.

Definition conv_post (res : converted) : Prop :=
  let '(st, ds, infos, k) := res in
  if decide (st = ZX_OK)
  then ds = ((fun d => with_handle d ZX_HANDLE_INVALID) <$> ds0) /\ Forall2 (answers k) ds0 (take (length ds0) infos)
  else forall g, owned k g = if decide (g ∈ given) then None else owned k0 g.

Context (Hmax : Z.of_nat (length ds0) <= ZX_CHANNEL_MAX_MSG_HANDLES).

(** The two ways out of a turn of the loop that fails. *)
Lemma drop_both_post i ds infos k d h st k1 :
  conv_inv i ds infos k -> ds0 !! i = Some d -> st <> ZX_OK ->
  h = ZX_HANDLE_INVALID \/ h = disp_handle d -> h = disp_handle d \/ owned k1 (disp_handle d) = None ->
  (forall g, g <> disp_handle d -> owned k1 g = owned k g) ->
  exists res, drop_both (<[i := with_handle d h]> ds) infos (Z.of_nat (length ds0)) i st k1 = Some res /\ conv_post res.
Proof.
  intros Hinv Hd Hst Hh Hh' Hk1.
  destruct (drop_both_ok i ds infos k d h st k1) as (ds' & infos' & k' & E & Hk'); try done.
  eexists. split; [exact E|]. unfold conv_post. by rewrite decide_False.
Qed.

Lemma dispositions_loop_ok todo i ds infos k :
  conv_inv i ds infos k -> (todo + i = length ds0)%nat ->
  exists res, dispositions_loop todo i (Z.of_nat (length ds0)) ds infos k = Some res /\ conv_post res.
Proof.
  revert i ds infos k. induction todo as [|todo IH]; intros i ds infos k Hinv Hn; cbn [dispositions_loop].
  { eexists. split; [done|]. unfold conv_post. rewrite decide_True by done. simpl in Hn. subst i.
    pose proof (ci_ds _ _ _ _ Hinv) as Hds. pose proof (ci_new _ _ _ _ Hinv) as Hnew.
    rewrite drop_ge, app_nil_r in Hds by lia. rewrite take_ge in Hds by lia. rewrite (take_ge ds0) in Hnew by lia. done. }
  destruct (lookup_lt_is_Some_2 ds0 i) as [d Hd]; [lia|]. rewrite (conv_lookup _ _ _ _ _ Hinv Hd). cbn [mbind option_bind].
  assert (with_handle d (disp_handle d) = d) as Hself by (by destruct d).
  assert (forall st, st <> ZX_OK -> exists res, drop_both ds infos (Z.of_nat (length ds0)) i st k = Some res /\ conv_post res) as Hdrop.
  { intros st Hst. destruct (drop_both_post i ds infos k d (disp_handle d) st k) as (res & E & Hp); auto.
    rewrite Hself, list_insert_id in E by (by eapply conv_lookup). eauto. }
  destruct (negb (disp_operation d =? ZX_HANDLE_OP_MOVE)); [apply Hdrop, invalid_args_not_ok|].
  destruct (negb (disp_result d =? ZX_OK)); [apply Hdrop, invalid_args_not_ok|].
  pose proof (pending _ _ _ _ _ _ Hinv Hd (Nat.le_refl i)) as [Hp1 Hp2].
  destruct Hgiven as [_ Hall]. pose proof (Forall_lookup_1 _ _ _ _ Hall Hd) as (Hfr & ty & r & Ho0 & Hr & _). cbv beta in *.
  assert (owned k (disp_handle d) = Some (ty, r)) as Ho by (by rewrite (ci_rest _ _ _ _ Hinv), decide_False).
  pose proof (ensure_ok (disp_handle d) ty r (disp_type d) (disp_rights d) k Ho Hr Hfr) as Hpost.
  destruct (FidlEnsureHandleRights (disp_handle d) ty r (disp_type d) (disp_rights d) k) as [[[st h] e] k'] eqn:Hens.
  assert (FidlEnsureActualHandleRights (disp_handle d) (disp_type d) (disp_rights d) false k = Some ((st, h, e), k')) as Hact.
  { unfold FidlEnsureActualHandleRights. by rewrite (get_info_spec _ _ _ _ Ho), Z.eqb_refl, Hens. }
  rewrite Hact. cbn [mbind option_bind]. destruct (Z.eqb_spec st ZX_OK) as [->|Hst]; cbn [negb].
  - destruct (Nat.leb_spec (length infos) i); [pose proof (ci_len _ _ _ _ Hinv); lia|].
    apply IH; [|lia]. by eapply conv_step.
  - unfold ensure_post in Hpost. rewrite decide_False in Hpost by done. destruct Hpost as (Hh & Hcl & Honly).
    eapply drop_both_post; eauto.
Qed.

(** Converting dispositions to infos takes over all the handles it is
    given: on success each info holds an open handle of the type and rights that
    were asked for and the dispositions are emptied; on failure every given handle
    is closed, and in no case is another handle of the process closed or leaked. *)
Theorem FidlHandleDispositionsToHandleInfos_owns infos :
  (length ds0 <= length infos)%nat ->
  exists res, FidlHandleDispositionsToHandleInfos ds0 infos (Z.of_nat (length ds0)) k0 = Some res /\ conv_post res.
Proof.
  intros Hl. unfold FidlHandleDispositionsToHandleInfos. rewrite Nat2Z.id. apply dispositions_loop_ok; [|lia].
  split; [done|done|constructor| |].
  - intros g Hg. by apply not_elem_of_nil in Hg.
  - intros g _. rewrite decide_False; [done|]. apply not_elem_of_nil.
Qed.

End Ownership.

(** A disposition whose handle the kernel does not know makes the
    conversion write its error message through a null pointer: the call is undefined
    instead of returning the kernel's status. *)
Theorem FidlHandleDispositionsToHandleInfos_null_error {abi : FidlAbi} {zircon : Zircon} d infos st info k :
  disp_operation d = ZX_HANDLE_OP_MOVE -> disp_result d = ZX_OK ->
  zx_object_get_info (disp_handle d) k = (st, info) -> st <> ZX_OK ->
  FidlHandleDispositionsToHandleInfos [d] infos 1 k = None.
Proof.
  intros Hop Hres Hinfo Hst. unfold FidlHandleDispositionsToHandleInfos.
  change (Z.to_nat 1) with 1%nat. cbn [dispositions_loop lookup list_lookup mbind option_bind].
  rewrite Hop, Hres, !Z.eqb_refl. cbn [negb]. unfold FidlEnsureActualHandleRights. destruct info as [ty r].
  by rewrite Hinfo, (proj2 (Z.eqb_neq st ZX_OK) Hst).
Qed.

(** ** Witnesses *)

Module HandleExamples.
#[local] Instance ex_abi : FidlAbi := fuchsia_abi.
#[local] Instance ex_kernel : Zircon := ToyKernel.toy.
#[local] Instance ex_laws : FidlAbiLaws ex_abi := fuchsia_abi_laws.
#[local] Instance ex_zlaws : ZirconLaws ex_kernel := ToyKernel.toy_laws.

(** Handle 5, a channel (type 4) with rights 15, and handle 6. *)
Definition k : kernel := {[ 5 := (4, 15); 6 := (4, 3) ]}.

Lemma FidlEnsureHandleRights_owns_witness :
  ensure_post k 5 4 15 4 3 (FidlEnsureHandleRights 5 4 15 4 3 k) /\ fst (FidlEnsureHandleRights 5 4 15 4 3 k) = (0, 7, None).
Proof. split; [apply (FidlEnsureHandleRights_owns 5 4 15 4 3 k); [reflexivity|by split..] | vm_compute; reflexivity]. Defined.

Definition ds : list zx_handle_disposition_t :=
  [{| disp_operation := 0; disp_handle := 5; disp_type := 4; disp_rights := 3; disp_result := 0 |};
   {| disp_operation := 0; disp_handle := 6; disp_type := 4; disp_rights := 3; disp_result := 0 |}].
Definition blank : list zx_handle_info_t := replicate 2 {| info_handle := 0; info_type := 0; info_rights := 0 |}.

Lemma ds_ok : given_ok ds k.
Proof.
  split; [apply (bool_decide_unpack (NoDup (disp_handle <$> ds))); vm_compute; exact I|].
  constructor; [|constructor; [|constructor]]; (split; [by split|]).
  - exists 4, 15. split; [reflexivity|]. by split.
  - exists 4, 3. split; [reflexivity|]. by split.
Qed.

Lemma FidlHandleDispositionsToHandleInfos_owns_witness :
  exists res, FidlHandleDispositionsToHandleInfos ds blank 2 k = Some res /\ conv_post ds k res.
Proof. apply (FidlHandleDispositionsToHandleInfos_owns ds k ds_ok ltac:(vm_compute; discriminate) blank). apply le_n. Defined.

Lemma FidlHandleDispositionsToHandleInfos_null_error_witness :
  FidlHandleDispositionsToHandleInfos
    [{| disp_operation := 0; disp_handle := 9; disp_type := 4; disp_rights := 3; disp_result := 0 |}] blank 1 k = None.
Proof.
  apply (FidlHandleDispositionsToHandleInfos_null_error _ blank (-11) (0, 0) k); [reflexivity..|discriminate].
Defined.

End HandleExamples.
