(* ===== verification/FidlDecoder.v ===== *)
(** * Decoding and validating FIDL messages

    Models src/fidl_base/decoding_and_validating.cc: the visitor [FidlDecoder] in
    its two modes, and the entry points that decode a message in place or
    validate it without touching it. *)

From S2P Require Import Prelude Utf8Scalar Utf8Arch FidlTypes FidlWalker FidlHandles.

Inductive Mode := Decode | Validate.
#[export] Instance Mode_eq_dec : EqDecision Mode.
Proof. solve_decision. Defined.

(** [EnvelopeCheckpoint] of the decoder. *)
Record checkpoint := { cp_num_bytes : Z; cp_num_handles : Z }.

Record fidl_channel_handle_metadata_t := { meta_obj_type : Z; meta_rights : Z }.

(** What the constructor is given and never changes.  [bytes_] is the address
    of the message, [utf8_target] the instruction set the library is built for. *)
Record params := {
  bytes_ : Z;
  num_bytes_ : Z;
  handles_ : list Z;
  handle_metadata_ : list fidl_channel_handle_metadata_t;
  num_handles_ : Z;
  out_error_msg_ : bool;
  hlcpp_mode_ : bool;
  utf8_target : UtfUtils.target;
}.

(** The rest: the bytes of the message, the decoder's own state, what
    [*out_error_msg_] holds, and the kernel. *)
Record FidlDecoder {zircon : Zircon} := {
  bytes : list Z;
  next_out_of_line_ : Z;
  status_ : Z;
  error_msg : option string;
  handle_idx_ : Z;
  unknown_handle_idx_ : Z;
  unknown_handles_ : list Z;
  kern : kernel;
}.
Arguments FidlDecoder : clear implicits.

Section Decoder.
Context {abi : FidlAbi} {zircon : Zircon} (p : params).

Definition set_bytes (b : list Z) (d : FidlDecoder zircon) : FidlDecoder zircon :=
  {| bytes := b; next_out_of_line_ := next_out_of_line_ d; status_ := status_ d; error_msg := error_msg d;
     handle_idx_ := handle_idx_ d; unknown_handle_idx_ := unknown_handle_idx_ d;
     unknown_handles_ := unknown_handles_ d; kern := kern d |}.
Definition set_next (n : Z) (d : FidlDecoder zircon) : FidlDecoder zircon :=
  {| bytes := bytes d; next_out_of_line_ := n; status_ := status_ d; error_msg := error_msg d;
     handle_idx_ := handle_idx_ d; unknown_handle_idx_ := unknown_handle_idx_ d;
     unknown_handles_ := unknown_handles_ d; kern := kern d |}.
Definition set_error (st : Z) (e : option string) (d : FidlDecoder zircon) : FidlDecoder zircon :=
  {| bytes := bytes d; next_out_of_line_ := next_out_of_line_ d; status_ := st; error_msg := e;
     handle_idx_ := handle_idx_ d; unknown_handle_idx_ := unknown_handle_idx_ d;
     unknown_handles_ := unknown_handles_ d; kern := kern d |}.
Definition set_handle_idx (i : Z) (d : FidlDecoder zircon) : FidlDecoder zircon :=
  {| bytes := bytes d; next_out_of_line_ := next_out_of_line_ d; status_ := status_ d; error_msg := error_msg d;
     handle_idx_ := i; unknown_handle_idx_ := unknown_handle_idx_ d;
     unknown_handles_ := unknown_handles_ d; kern := kern d |}.
Definition set_unknown (i : Z) (hs : list Z) (d : FidlDecoder zircon) : FidlDecoder zircon :=
  {| bytes := bytes d; next_out_of_line_ := next_out_of_line_ d; status_ := status_ d; error_msg := error_msg d;
     handle_idx_ := handle_idx_ d; unknown_handle_idx_ := i; unknown_handles_ := hs; kern := kern d |}.
Definition set_kern (k : kernel) (d : FidlDecoder zircon) : FidlDecoder zircon :=
  {| bytes := bytes d; next_out_of_line_ := next_out_of_line_ d; status_ := status_ d; error_msg := error_msg d;
     handle_idx_ := handle_idx_ d; unknown_handle_idx_ := unknown_handle_idx_ d;
     unknown_handles_ := unknown_handles_ d; kern := k |}.

Abbreviation D := (ST (FidlDecoder zircon)).

(** Only the first error is kept. *)
Definition SetError (error : string) : D unit :=
  st ← gets status_;
  if negb (st =? ZX_OK) then mret tt
  else modify (fun d => set_error ZX_ERR_INVALID_ARGS (if out_error_msg_ p then Some error else error_msg d) d).

(** [SetError] followed by the return of a status. *)
Definition fail_with (error : string) (st : Status) : D Status := SetError error ;; mret st.

(** A store through a pointer into the message. *)
Definition store_at (n : nat) (position v : Z) : D unit :=
  b ← gets bytes; b ← lift (store n b position v); modify (set_bytes b).

Definition AssignInDecode (mode : Mode) (n : nat) (position v : Z) : D unit :=
  match mode with Decode => store_at n position v | Validate => mret tt end.

Definition ValidatePadding (width : nat) (padding_ptr mask : Z) : D Status :=
  b ← gets bytes; v ← lift (load width b padding_ptr);
  if negb (Z.land v mask =? 0) then fail_with "non-zero padding bytes detected" kConstraintViolationError
  else mret kSuccess.

Definition DecVisitAbsentPointerInNonNullableCollection (object_ptr_ptr : Position) : D Status :=
  fail_with "absent pointer disallowed in non-nullable collection" kConstraintViolationError.

(** The check of the bytes between the object and the next 8-byte boundary. *)
Definition check_trailing (inline_size next new_offset : Z) : D Status :=
  if negb (inline_size mod FIDL_ALIGNMENT =? 0) then
    let block_end := new_offset - 8 in
    let padding_len := new_offset ⊖[32] next ⊖[32] inline_size in
    let padding_mask := wrap 64 (Z.shiftl (2 ^ 64 - 1) (64 ⊖[64] (8 ⊗[64] padding_len))) in
    ValidatePadding 8 block_end padding_mask
  else mret kSuccess.

Definition DecVisitPointer (mode : Mode) (ptr_position : Position) (pointee_type : PointeeType)
    (object_ptr_ptr : Position) (inline_size : Z) (_ : FidlMemcpyCompatibility) : D (Status * Position) :=
  b ← gets bytes; pointer ← lift (load 8 b object_ptr_ptr);
  if negb (bool_decide (pointee_type = kEnvelope)) && negb (pointer =? FIDL_ALLOC_PRESENT)
  then st ← fail_with "invalid presence marker" kMemoryError; mret (st, 0) else
  next ← gets next_out_of_line_;
  match FidlAddOutOfLine next inline_size with
  | None => st ← fail_with "overflow updating out-of-line offset" kMemoryError; mret (st, 0)
  | Some new_offset =>
      if num_bytes_ p <? new_offset
      then st ← fail_with "message tried to access more than provided number of bytes" kMemoryError; mret (st, 0)
      else
      st ← check_trailing inline_size next new_offset;
      match st with
      | kSuccess =>
          valid ← (if bool_decide (pointee_type = kString)
                   then b ← gets bytes; s ← lift (rdn b next inline_size);
                        lift (UtfUtils.utfutils_is_valid_utf8 (utf8_target p) Utf8Scalar.little (Some s) inline_size)
                   else mret true);
          if negb valid
          then st ← fail_with "encountered invalid UTF8 string" kConstraintViolationError; mret (st, 0)
          else
            AssignInDecode mode 8 object_ptr_ptr (bytes_ p ⊕[64] next) ;;
            modify (set_next new_offset) ;;
            mret (kSuccess, next)
      | _ => mret (st, 0)
      end
  end.

(** [DecodeProcessHandle] in decode mode: check and possibly replace the handle
    at [position] in the message. *)
Definition DecodeProcessHandle (position obj_type rights metadata_index : Z) : D (Z * option string) :=
  v ← lift (handle_metadata_ p !! Z.to_nat metadata_index);
  b ← gets bytes; handle ← lift (load 4 b position);
  k ← gets kern;
  let '((status, handle, error), k) :=
    FidlEnsureHandleRights handle (meta_obj_type v) (meta_rights v) obj_type rights k in
  modify (set_kern k) ;;
  store_at 4 position handle ;;
  mret (status, error).

Definition DecVisitHandle (mode : Mode) (handle_position handle : Position)
    (required_handle_rights required_handle_subtype : Z) : D Status :=
  b ← gets bytes; h ← lift (load 4 b handle);
  if negb (h =? FIDL_HANDLE_PRESENT)
  then fail_with "message tried to decode a garbage handle" kConstraintViolationError else
  idx ← gets handle_idx_;
  if idx =? num_handles_ p then fail_with "message decoded too many handles" kConstraintViolationError else
  match mode with
  | Validate => modify (set_handle_idx (idx ⊕[32] 1)) ;; mret kSuccess
  | Decode =>
      incoming ← lift (handles_ p !! Z.to_nat idx);
      if incoming =? ZX_HANDLE_INVALID
      then fail_with "invalid handle detected in handle table" kConstraintViolationError else
      AssignInDecode mode 4 handle incoming ;;
      '(status, error) ← DecodeProcessHandle handle required_handle_subtype required_handle_rights idx;
      if negb (status =? ZX_OK) then
        error ← lift error; fail_with error kConstraintViolationError
      else
        modify (set_handle_idx (idx ⊕[32] 1)) ;; mret kSuccess
  end.

Definition DecVisitVectorOrStringCount (ptr : Position) : D Status := mret kSuccess.

Definition DecVisitInternalPadding (width : nat) (padding_position : Position) (mask : Z) : D Status :=
  ValidatePadding width padding_position mask.

Definition DecEnterEnvelope : D checkpoint :=
  n ← gets next_out_of_line_; h ← gets handle_idx_;
  mret {| cp_num_bytes := n; cp_num_handles := h |}.

Definition DecLeaveEnvelope (in_envelope : Z) (out_envelope : Position) (prev : checkpoint) : D Status :=
  n ← gets next_out_of_line_; h ← gets handle_idx_;
  let num_bytes := n ⊖[32] cp_num_bytes prev in
  let num_handles := h ⊖[32] cp_num_handles prev in
  if negb (env_num_bytes in_envelope =? num_bytes)
  then fail_with "Envelope num_bytes was mis-sized" kConstraintViolationError
  else if negb (env_num_handles in_envelope =? num_handles)
  then fail_with "Envelope num_handles was mis-sized" kConstraintViolationError
  else mret kSuccess.

Definition DecLeaveInlinedEnvelope (in_envelope : Z) (out_envelope : Position) (prev : checkpoint) : D Status :=
  h ← gets handle_idx_;
  let num_handles := h ⊖[32] cp_num_handles prev in
  if negb (env_num_handles in_envelope =? num_handles)
  then fail_with "Envelope num_handles was mis-sized" kConstraintViolationError
  else mret kSuccess.

(** [fidl_envelope_v2_unknown_data_t] is 4 bytes of inline value, or a 16-bit
    size and a 16-bit offset, followed by the 16-bit handle count and flags. *)
Definition ConvertEnvelopeToDecodedRepresentation (envelope_copy : Z) (envelope_ptr : Position) : D unit :=
  let tail := [env_num_handles envelope_copy; env_flags envelope_copy] in
  b ← gets bytes;
  if negb (Z.land (env_flags envelope_copy) FIDL_ENVELOPE_FLAGS_INLINING_MASK =? 0) then
    inline_value ← lift (load 4 b envelope_ptr);
    b ← lift (wrn b envelope_ptr (le_split 4 inline_value ++ (tail ≫= le_split 2)));
    modify (set_bytes b)
  else
    data_ptr ← lift (load 8 b envelope_ptr);
    let offset := data_ptr ⊖[64] bytes_ p in
    (* ZX_ASSERT *)
    if 2 ^ 16 - 1 <? offset then undefined else
    if 2 ^ 16 - 1 <? env_num_bytes envelope_copy then undefined else
    b ← lift (wrn b envelope_ptr (([env_num_bytes envelope_copy; offset] ++ tail) ≫= le_split 2));
    modify (set_bytes b).

Definition DecVisitUnknownEnvelope (mode : Mode) (envelope_copy : Z) (envelope_ptr : Position)
    (is_resource : FidlIsResource) : D Status :=
  let num_handles := env_num_handles envelope_copy in
  match mode with
  | Validate => modify (fun d => set_handle_idx (handle_idx_ d ⊕[32] num_handles) d) ;; mret kSuccess
  | Decode =>
      (if hlcpp_mode_ p then ConvertEnvelopeToDecodedRepresentation envelope_copy envelope_ptr else mret tt) ;;
      if 0 <? num_handles then
        unknown_idx ← gets unknown_handle_idx_; idx ← gets handle_idx_;
        match add_overflow 32 unknown_idx num_handles with
        | None => fail_with "number of unknown handles overflows" kConstraintViolationError
        | Some total_unknown_handles =>
            if ZX_CHANNEL_MAX_MSG_HANDLES <? total_unknown_handles
            then fail_with "number of unknown handles exceeds unknown handle array size" kConstraintViolationError
            else
            match add_overflow 32 idx num_handles with
            | None => fail_with "number of incoming handles overflows" kConstraintViolationError
            | Some end_incoming_handle =>
                if num_handles_ p <? end_incoming_handle
                then fail_with "number of incoming handles exceeds incoming handle array size" kConstraintViolationError
                else if hlcpp_mode_ p && bool_decide (is_resource = kFidlIsResource_Resource)
                then modify (set_handle_idx (idx ⊕[32] num_handles)) ;; mret kSuccess
                else
                  unknown ← gets unknown_handles_;
                  incoming ← lift (rdn (handles_ p) idx num_handles);
                  unknown ← lift (wrn unknown unknown_idx incoming);
                  modify (set_handle_idx end_incoming_handle) ;;
                  modify (set_unknown total_unknown_handles unknown) ;;
                  mret kSuccess
            end
        end
      else mret kSuccess
  end.

Definition DecOnError (error : string) : D unit := SetError error.

#[local] Instance decoder_visitor (mode : Mode) : Visitor (FidlDecoder zircon) := {|
  kOnlyWalkResources := false;
  kContinueAfterConstraintViolation := false;
  kValidateEnvelopeInlineBit := true;
  FidlWalker.EnvelopeCheckpoint := checkpoint;
  message := bytes;
  VisitAbsentPointerInNonNullableCollection := DecVisitAbsentPointerInNonNullableCollection;
  VisitPointer := DecVisitPointer mode;
  VisitHandle := DecVisitHandle mode;
  VisitVectorOrStringCount := DecVisitVectorOrStringCount;
  VisitInternalPadding := DecVisitInternalPadding;
  EnterEnvelope := DecEnterEnvelope;
  LeaveEnvelope := DecLeaveEnvelope;
  LeaveInlinedEnvelope := DecLeaveInlinedEnvelope;
  VisitUnknownEnvelope := DecVisitUnknownEnvelope mode;
  OnError := DecOnError;
|}.

Definition DidConsumeAllBytes (d : FidlDecoder zircon) : bool := next_out_of_line_ d =? num_bytes_ p.
Definition DidConsumeAllHandles (d : FidlDecoder zircon) : bool := handle_idx_ d =? num_handles_ p.

End Decoder.

(** ** The entry points *)

Section EntryPoints.
Context {abi : FidlAbi} {zircon : Zircon} (tbl : tables).
Context (utf8 : UtfUtils.target) (fuel : nat).

(** A message buffer: its address and its bytes. *)
Record buffer := { address : Z; contents : list Z }.

(** Status, error message, bytes and kernel afterwards. *)
Record outcome := {
  out_status : Z; out_error : option string; out_bytes : list Z; out_kernel : kernel }.

(** A new decoder; [unknown_handles_] starts with indeterminate contents [junk]. *)
Definition new_decoder (b : list Z) (next_out_of_line : Z) (error : option string) (junk : list Z) (k : kernel)
    : FidlDecoder zircon :=
  {| bytes := b; next_out_of_line_ := next_out_of_line; status_ := ZX_OK; error_msg := error;
     handle_idx_ := 0; unknown_handle_idx_ := 0; unknown_handles_ := junk; kern := k |}.

(** [for (i = primary_size; i < next_out_of_line; i++)] over the bytes after
    the primary object. *)
Definition padding_is_zero (b : list Z) (primary_size next_out_of_line : Z) : option bool :=
  bs ← rdn b primary_size (next_out_of_line - primary_size);
  Some (forallb (Z.eqb 0) bs).

Definition fidl_decode_impl (type : option type_ptr) (buf : option buffer) (num_bytes : Z)
    (handles : option (list Z)) (handle_metadata : list fidl_channel_handle_metadata_t) (num_handles : Z)
    (out_error_msg hlcpp_mode : bool) (junk : list Z) (k : kernel) : option outcome :=
  let hs := default [] handles in
  let old := match buf with Some b => contents b | None => [] end in
  let answer st e b k := Some {| out_status := st; out_error := if out_error_msg then e else None;
                                 out_bytes := b; out_kernel := k |} in
  (* set an error, close all the handles and return *)
  let drop_all_handles st e b k := '(_, k) ← FidlHandleCloseMany hs num_handles k; answer st e b k in
  match type with
  | None => answer ZX_ERR_INVALID_ARGS (Some "fidl type cannot be null"%string) old k
  | Some type =>
  if bool_decide (handles = None) && negb (num_handles =? 0)
  then answer ZX_ERR_INVALID_ARGS (Some "Cannot provide non-zero handle count and null handle pointer"%string) old k
  else
  match buf with
  | None => drop_all_handles ZX_ERR_INVALID_ARGS (Some "Cannot decode null bytes"%string) old k
  | Some buf =>
  if negb (FidlIsAligned (address buf))
  then drop_all_handles ZX_ERR_INVALID_ARGS (Some "Bytes must be aligned to FIDL_ALIGNMENT"%string) old k
  else
  t ← tbl !! type;
  match PrimaryObjectSize t num_bytes with
  | inl (st, e) => drop_all_handles st (Some e) old k
  | inr (primary_size, next_out_of_line) =>
      zero ← padding_is_zero old primary_size next_out_of_line;
      if negb zero then drop_all_handles ZX_ERR_INVALID_ARGS (Some "non-zero padding bytes detected"%string) old k
      else
      let p := {| bytes_ := address buf; num_bytes_ := num_bytes; handles_ := hs;
                  handle_metadata_ := handle_metadata; num_handles_ := num_handles;
                  out_error_msg_ := out_error_msg; hlcpp_mode_ := hlcpp_mode; utf8_target := utf8 |} in
      '(_, d) ← Walk (V := decoder_visitor p Decode) tbl fuel type 0 (new_decoder old next_out_of_line None junk k);
      if negb (status_ d =? ZX_OK) then drop_all_handles (status_ d) (error_msg d) (bytes d) (kern d)
      else if negb (DidConsumeAllBytes p d)
      then drop_all_handles ZX_ERR_INVALID_ARGS (Some "message did not decode all provided bytes"%string) (bytes d) (kern d)
      else if negb (DidConsumeAllHandles p d)
      then drop_all_handles ZX_ERR_INVALID_ARGS (Some "message did not decode all provided handles"%string) (bytes d) (kern d)
      else
      '(_, k) ← FidlHandleCloseMany (unknown_handles_ d) (unknown_handle_idx_ d) (kern d);
      answer ZX_OK (error_msg d) (bytes d) k
  end end end.

(** The local arrays of [ZX_CHANNEL_MAX_MSG_HANDLES] entries are filled without
    a check of [num_handles]. *)
Definition fidl_decode_impl_handle_info (type : option type_ptr) (buf : option buffer) (num_bytes : Z)
    (handle_infos : option (list zx_handle_info_t)) (num_handles : Z)
    (out_error_msg hlcpp_mode : bool) (junk : list Z) (k : kernel) : option outcome :=
  match handle_infos with
  | None => fidl_decode_impl type buf num_bytes None [] num_handles out_error_msg hlcpp_mode junk k
  | Some infos =>
      if ZX_CHANNEL_MAX_MSG_HANDLES <? num_handles then None
      else if Z.of_nat (length infos) <? num_handles then None
      else
      let infos := take (Z.to_nat num_handles) infos in
      let handles := info_handle <$> infos in
      let handle_metadata := (fun i => {| meta_obj_type := info_type i; meta_rights := info_rights i |}) <$> infos in
      fidl_decode_impl type buf num_bytes (Some handles) handle_metadata num_handles out_error_msg hlcpp_mode junk k
  end.

Definition internal__fidl_decode_etc_hlcpp__v2__may_break (type : option type_ptr) (buf : option buffer)
    (num_bytes : Z) (handle_infos : option (list zx_handle_info_t)) (num_handle_infos : Z)
    (error_msg_out : bool) (junk : list Z) (k : kernel) : option outcome :=
  fidl_decode_impl_handle_info type buf num_bytes handle_infos num_handle_infos error_msg_out true junk k.

(** Validation neither takes handles nor calls the kernel: [k] is handed through. *)
Definition fidl_validate_impl (type : option type_ptr) (buf : option buffer) (num_bytes num_handles : Z)
    (out_error_msg : bool) (junk : list Z) (k : kernel) : option outcome :=
  let old := match buf with Some b => contents b | None => [] end in
  let answer st e b k := Some {| out_status := st; out_error := if out_error_msg then e else None;
                                 out_bytes := b; out_kernel := k |} in
  match type with
  | None => answer ZX_ERR_INVALID_ARGS (Some "fidl type cannot be null"%string) old k
  | Some type =>
  match buf with
  | None => answer ZX_ERR_INVALID_ARGS (Some "Cannot validate null bytes"%string) old k
  | Some buf =>
  if negb (FidlIsAligned (address buf))
  then answer ZX_ERR_INVALID_ARGS (Some "Bytes must be aligned to FIDL_ALIGNMENT"%string) old k
  else
  t ← tbl !! type;
  match PrimaryObjectSize t num_bytes with
  | inl (st, e) => answer st (Some e) old k
  | inr (primary_size, next_out_of_line) =>
      zero ← padding_is_zero old primary_size next_out_of_line;
      if negb zero then answer ZX_ERR_INVALID_ARGS (Some "non-zero padding bytes detected"%string) old k
      else
      let p := {| bytes_ := address buf; num_bytes_ := num_bytes; handles_ := []; handle_metadata_ := [];
                  num_handles_ := num_handles; out_error_msg_ := out_error_msg; hlcpp_mode_ := false;
                  utf8_target := utf8 |} in
      '(_, d) ← Walk (V := decoder_visitor p Validate) tbl fuel type 0 (new_decoder old next_out_of_line None junk k);
      if status_ d =? ZX_OK then
        if negb (DidConsumeAllBytes p d)
        then answer ZX_ERR_INVALID_ARGS (Some "message did not consume all provided bytes"%string) (bytes d) (kern d)
        else if negb (DidConsumeAllHandles p d)
        then answer ZX_ERR_INVALID_ARGS (Some "message did not reference all provided handles"%string) (bytes d) (kern d)
        else answer (status_ d) (error_msg d) (bytes d) (kern d)
      else answer (status_ d) (error_msg d) (bytes d) (kern d)
  end end end.

Definition internal__fidl_validate__v2__may_break (type : option type_ptr) (buf : option buffer)
    (num_bytes num_handles : Z) (out_error_msg : bool) (junk : list Z) (k : kernel) : option outcome :=
  fidl_validate_impl type buf num_bytes num_handles out_error_msg junk k.

End EntryPoints.
