(* ===== verification/FidlSpec.v ===== *)
(** * What a FIDL message is

    The abstract specification of the decoder: the wire format as a grammar.
    [conforms] says that an object of a given type is laid out at a given position
    of a message, which out-of-line objects and which handles it consumes, and
    which places a decoder has to patch.  The rules mention neither the order of
    the walker's checks nor its error handling, and use exact arithmetic.  The
    file also states what the compiler that generates coding tables guarantees
    ([wf_tables]). *)

From S2P Require Import Prelude Utf8Scalar FidlTypes.

(** ** Messages *)

(** How far a traversal has come: the next out-of-line object is at [ool], the
    next handle is number [hidx]. *)
Record cursor := Cursor { ool : Z; hidx : Z }.

(** A place of the message that decoding changes. *)
Inductive patch :=
  | PPointer (pos target : Z)                            (* 8 bytes: the address of [target] *)
  | PHandle (pos index rights subtype : Z)               (* 4 bytes: incoming handle [index] *)
  | PUnknown (pos envelope : Z) (is_resource : FidlIsResource).  (* 8 bytes: the envelope of an unknown member *)

Definition patch_pos (q : patch) : Z :=
  match q with PPointer pos _ | PHandle pos _ _ _ | PUnknown pos _ _ => pos end.
Definition patch_size (q : patch) : Z :=
  match q with PPointer _ _ | PUnknown _ _ _ => 8 | PHandle _ _ _ _ => 4 end.

(** The bytes of [m] from [a] up to [b] are zero. *)
Definition zeros (m : list Z) (a b : Z) : Prop := forall i, a <= i < b -> rd m i = Some 0.

(** What is laid out somewhere: an object of a type, some elements of a struct,
    [n] elements of an array or vector, an envelope with a payload of a known or
    unknown type, or the envelopes of a table from the one of ordinal [i] + 1 on. *)
Inductive item :=
  | IType (type : type_ptr) (pos : Z)
  | IElements (elements : list FidlStructElement) (pos : Z)
  | IArray (n : nat) (type : option type_ptr) (pos stride : Z)
  | IEnvelope (payload : option type_ptr) (is_resource : FidlIsResource) (pos : Z)
  | IEnvelopes (n : nat) (i : Z) (fields : list FidlTableField) (is_resource : FidlIsResource) (pos : Z).

(** The member of a table that the envelope of ordinal [i] + 1 holds. *)
Definition table_payload (i : Z) (fields : list FidlTableField) : option type_ptr * list FidlTableField :=
  match fields with
  | f :: fields' => if ordinal f =? i + 1 then (Some (table_field_type f), fields') else (None, fields)
  | [] => (None, [])
  end.

(** The member of a union with a given ordinal. *)
Definition union_payload (t : FidlCodedUnion) (tag : Z) : option type_ptr :=
  f ← union_fields t !! Z.to_nat (tag - 1); union_field_type f.

(** The value of an enum or of bits, extended to 64 bits. *)
Definition integer_value (t : FidlCodedPrimitiveSubtype) (m : list Z) (pos : Z) : option Z :=
  match t with
  | Uint8 => load 1 m pos
  | Uint16 => load 2 m pos
  | Uint32 => load 4 m pos
  | Uint64 => load 8 m pos
  | Int8 => wrap 64 ∘ to_signed 8 <$> load 1 m pos
  | Int16 => wrap 64 ∘ to_signed 16 <$> load 2 m pos
  | Int32 => wrap 64 ∘ to_signed 32 <$> load 4 m pos
  | Int64 => wrap 64 ∘ to_signed 64 <$> load 8 m pos
  | Bool | Float32 | Float64 => None
  end.

(** Types whose values need no further look. *)
Definition plain (t : fidl_type) : bool :=
  match t with
  | TypePrimitive t => negb (bool_decide (primitive_type t = Bool))
  | TypeEnum t => bool_decide (enum_strictness t = kFidlStrictness_Flexible)
  | TypeBits t => bool_decide (bits_strictness t = kFidlStrictness_Flexible)
  | _ => false
  end.

(** The width in bytes, the offset and the mask of a padding element. *)
Definition padding_of (e : FidlStructElement) : option (nat * Z * Z) :=
  match e with
  | Field _ _ _ => None
  | Padding64 offset mask => Some (8%nat, offset, mask)
  | Padding32 offset mask => Some (4%nat, offset, mask)
  | Padding16 offset mask => Some (2%nat, offset, mask)
  end.

Definition padding_ok (width : nat) (m : list Z) (pos mask : Z) : Prop :=
  exists v, load width m pos = Some v /\ Z.land v mask = 0.

Section Grammar.
Context {abi : FidlAbi} (tbl : tables).
(** The message and its length. *)
Context (m : list Z).

(** An out-of-line object of [size] bytes starts at the cursor, is padded with
    zeros to the alignment, and fits the message. *)
Definition out_of_line (c : cursor) (size : Z) (c' : cursor) : Prop :=
  ool c' = align_up (ool c + size) /\ ool c' <= len m /\ hidx c' = hidx c /\
  zeros m (ool c + size) (ool c').

(** [conforms x depth c ps c']: the item [x], at nesting depth [depth], consumes
    what lies between the cursors [c] and [c']; decoding patches [ps]. *)
Inductive conforms : item -> Z -> cursor -> list patch -> cursor -> Prop :=
  | conforms_plain ty t pos d c :
      tbl !! ty = Some t -> plain t = true ->
      conforms (IType ty pos) d c [] c
  | conforms_bool ty t v pos d c :
      tbl !! ty = Some (TypePrimitive t) -> primitive_type t = Bool ->
      load 1 m pos = Some v -> v = 0 \/ v = 1 ->
      conforms (IType ty pos) d c [] c
  | conforms_enum ty t v pos d c :
      tbl !! ty = Some (TypeEnum t) -> enum_strictness t = kFidlStrictness_Strict ->
      integer_value (enum_underlying_type t) m pos = Some v -> validate t v = true ->
      conforms (IType ty pos) d c [] c
  | conforms_bits ty t v pos d c :
      tbl !! ty = Some (TypeBits t) -> bits_strictness t = kFidlStrictness_Strict ->
      integer_value (bits_underlying_type t) m pos = Some v -> Z.land v (∁[64] (bits_mask t)) = 0 ->
      conforms (IType ty pos) d c [] c
  | conforms_struct ty t pos d c ps c' :
      tbl !! ty = Some (TypeStruct t) -> (is_empty t = true -> load 1 m pos = Some 0) ->
      conforms (IElements (elements t) pos) d c ps c' ->
      conforms (IType ty pos) d c ps c'
  | conforms_pointer_null ty t pos d c :
      tbl !! ty = Some (TypeStructPointer t) -> load 8 m pos = Some 0 ->
      conforms (IType ty pos) d c [] c
  | conforms_pointer ty t st pos d c c1 ps c' :
      tbl !! ty = Some (TypeStructPointer t) -> tbl !! struct_type t = Some (TypeStruct st) ->
      load 8 m pos = Some FIDL_ALLOC_PRESENT -> d < FIDL_MAX_DEPTH ->
      out_of_line c (size_v2 st) c1 ->
      conforms (IType (struct_type t) (ool c)) (d + 1) c1 ps c' ->
      conforms (IType ty pos) d c (PPointer pos (ool c) :: ps) c'
  | conforms_array ty t pos d c ps c' :
      tbl !! ty = Some (TypeArray t) ->
      conforms (IArray (Z.to_nat (array_size_v2 t / array_element_size_v2 t)) (array_element t) pos
                  (array_element_size_v2 t)) d c ps c' ->
      conforms (IType ty pos) d c ps c'
  | conforms_string_null ty t pos d c :
      tbl !! ty = Some (TypeString t) -> string_nullable t = true ->
      load 8 m pos = Some 0 -> load 8 m (pos + 8) = Some 0 ->
      conforms (IType ty pos) d c [] c
  | conforms_string ty t size s pos d c c' :
      tbl !! ty = Some (TypeString t) ->
      load 8 m pos = Some size -> load 8 m (pos + 8) = Some FIDL_ALLOC_PRESENT ->
      size <= max_size t -> d < FIDL_MAX_DEPTH ->
      out_of_line c size c' ->
      rdn m (ool c) size = Some s -> Utf8Spec.valid s = true ->
      conforms (IType ty pos) d c [PPointer (pos + 8) (ool c)] c'
  | conforms_handle_null ty t pos d c :
      tbl !! ty = Some (TypeHandle t) -> handle_nullable t = true ->
      load 4 m pos = Some ZX_HANDLE_INVALID ->
      conforms (IType ty pos) d c [] c
  | conforms_handle ty t pos d c :
      tbl !! ty = Some (TypeHandle t) -> load 4 m pos = Some FIDL_HANDLE_PRESENT ->
      conforms (IType ty pos) d c [PHandle pos (hidx c) (handle_rights t) (handle_subtype t)] (Cursor (ool c) (hidx c + 1))
  | conforms_vector_null ty t pos d c :
      tbl !! ty = Some (TypeVector t) -> vector_nullable t = true ->
      load 8 m pos = Some 0 -> load 8 m (pos + 8) = Some 0 ->
      conforms (IType ty pos) d c [] c
  | conforms_vector ty t count pos d c c1 ps c' :
      tbl !! ty = Some (TypeVector t) ->
      load 8 m pos = Some count -> load 8 m (pos + 8) = Some FIDL_ALLOC_PRESENT ->
      count <= max_count t -> d < FIDL_MAX_DEPTH ->
      out_of_line c (count * vector_element_size_v2 t) c1 ->
      conforms (IArray (Z.to_nat count) (vector_element t) (ool c) (vector_element_size_v2 t)) (d + 1) c1 ps c' ->
      conforms (IType ty pos) d c (PPointer (pos + 8) (ool c) :: ps) c'
  | conforms_table ty t count pos d c c1 ps c' :
      tbl !! ty = Some (TypeTable t) ->
      load 8 m pos = Some count -> load 8 m (pos + 8) = Some FIDL_ALLOC_PRESENT ->
      d < FIDL_MAX_DEPTH ->
      out_of_line c (count * 8) c1 ->
      conforms (IEnvelopes (Z.to_nat count) 0 (table_fields t) (table_is_resource t) (ool c)) (d + 1) c1 ps c' ->
      conforms (IType ty pos) d c (PPointer (pos + 8) (ool c) :: ps) c'
  | conforms_union_null ty t pos d c :
      tbl !! ty = Some (TypeXUnion t) -> union_nullable t = true ->
      load 8 m pos = Some 0 -> load 8 m (pos + 8) = Some 0 ->
      conforms (IType ty pos) d c [] c
  | conforms_union ty t tag envelope pos d c ps c' :
      tbl !! ty = Some (TypeXUnion t) ->
      load 8 m pos = Some tag -> tag <> 0 -> load 8 m (pos + 8) = Some envelope -> envelope <> 0 ->
      (union_strictness t = kFidlStrictness_Strict -> is_Some (union_payload t tag)) ->
      conforms (IEnvelope (union_payload t tag) (union_is_resource t) (pos + 8)) d c ps c' ->
      conforms (IType ty pos) d c ps c'
  | conforms_elements_nil pos d c :
      conforms (IElements [] pos) d c [] c
  | conforms_elements_field ty offset r es pos d c ps1 c1 ps2 c' :
      conforms (IType ty (pos + offset)) d c ps1 c1 ->
      conforms (IElements es pos) d c1 ps2 c' ->
      conforms (IElements (Field ty offset r :: es) pos) d c (ps1 ++ ps2) c'
  | conforms_elements_padding e width offset mask es pos d c ps c' :
      padding_of e = Some (width, offset, mask) ->
      padding_ok width m (pos + offset) mask ->
      conforms (IElements es pos) d c ps c' ->
      conforms (IElements (e :: es) pos) d c ps c'
  | conforms_array_opaque n pos stride d c :
      conforms (IArray n None pos stride) d c [] c
  | conforms_array_nil ty pos stride d c :
      conforms (IArray 0 (Some ty) pos stride) d c [] c
  | conforms_array_cons n ty pos stride d c ps1 c1 ps2 c' :
      conforms (IType ty pos) d c ps1 c1 ->
      conforms (IArray n (Some ty) (pos + stride) stride) d c1 ps2 c' ->
      conforms (IArray (S n) (Some ty) pos stride) d c (ps1 ++ ps2) c'
  | conforms_envelope_empty payload r pos d c :
      load 8 m pos = Some 0 ->
      conforms (IEnvelope payload r pos) d c [] c
  | conforms_envelope_inline ty t envelope r pos d c ps c' :
      load 8 m pos = Some envelope -> env_flags envelope = FIDL_ENVELOPE_FLAGS_INLINING_MASK ->
      tbl !! ty = Some t -> TypeSize t <= FIDL_ENVELOPE_INLINING_SIZE_THRESHOLD ->
      d < FIDL_MAX_DEPTH -> zeros m (pos + TypeSize t) (pos + 4) ->
      conforms (IType ty pos) (d + 1) c ps c' ->
      env_num_handles envelope = hidx c' - hidx c ->
      conforms (IEnvelope (Some ty) r pos) d c ps c'
  | conforms_envelope_out_of_line ty t envelope r pos d c c1 ps c' :
      load 8 m pos = Some envelope -> envelope <> 0 -> env_flags envelope = 0 ->
      tbl !! ty = Some t -> FIDL_ENVELOPE_INLINING_SIZE_THRESHOLD < TypeSize t ->
      d < FIDL_MAX_DEPTH -> out_of_line c (TypeSize t) c1 ->
      conforms (IType ty (ool c)) (d + 1) c1 ps c' ->
      env_num_bytes envelope = ool c' - ool c -> env_num_handles envelope = hidx c' - hidx c ->
      conforms (IEnvelope (Some ty) r pos) d c (PPointer pos (ool c) :: ps) c'
  | conforms_envelope_unknown_inline envelope r pos d c :
      load 8 m pos = Some envelope -> env_flags envelope = FIDL_ENVELOPE_FLAGS_INLINING_MASK ->
      d < FIDL_MAX_DEPTH ->
      conforms (IEnvelope None r pos) d c [PUnknown pos envelope r] (Cursor (ool c) (hidx c + env_num_handles envelope))
  | conforms_envelope_unknown envelope r pos d c c1 :
      load 8 m pos = Some envelope -> envelope <> 0 -> env_flags envelope = 0 ->
      d < FIDL_MAX_DEPTH -> out_of_line c (env_num_bytes envelope) c1 ->
      env_num_bytes envelope = ool c1 - ool c ->
      conforms (IEnvelope None r pos) d c [PPointer pos (ool c); PUnknown pos envelope r]
        (Cursor (ool c1) (hidx c + env_num_handles envelope))
  | conforms_envelopes_nil i fields r pos d c :
      conforms (IEnvelopes 0 i fields r pos) d c [] c
  | conforms_envelopes_cons n i fields r pos d c ps1 c1 ps2 c' :
      conforms (IEnvelope (fst (table_payload i fields)) r (pos + i * 8)) d c ps1 c1 ->
      conforms (IEnvelopes n (i + 1) (snd (table_payload i fields)) r pos) d c1 ps2 c' ->
      conforms (IEnvelopes (S n) i fields r pos) d c (ps1 ++ ps2) c'.

(** A message body: the primary object at the start, out-of-line objects after
    it, everything consumed; decoding it patches [ps]. *)
Definition message_layout (type : type_ptr) (num_handles : Z) (ps : list patch) : Prop :=
  exists t, tbl !! type = Some t /\
    (match t with TypeStruct _ | TypeTable _ | TypeXUnion _ => True | _ => False end) /\
    align_up (TypeSize t) <= len m /\
    zeros m (TypeSize t) (align_up (TypeSize t)) /\
    conforms (IType type 0) 0 (Cursor (align_up (TypeSize t)) 0) ps (Cursor (len m) num_handles).

Definition message_conforms (type : type_ptr) (num_handles : Z) : Prop :=
  exists ps, message_layout type num_handles ps.

End Grammar.

(** ** What the generated coding tables guarantee *)

Section WellFormed.
Context {abi : FidlAbi} (tbl : tables).

Definition size_of (ty : type_ptr) : option Z := TypeSize <$> tbl !! ty.

(** The elements of a struct from offset [off] on: fields come in the order of
    their offsets and do not overlap, and padding bytes come after the fields
    that precede them. *)
Fixpoint wf_elements (off size : Z) (es : list FidlStructElement) : bool :=
  match es with
  | [] => off <=? size
  | e :: es =>
      match e, padding_of e with
      | Field ty offset _, _ =>
          match size_of ty with
          | Some s => (off <=? offset) && wf_elements (offset + s) size es
          | None => false
          end
      | _, Some (width, offset, mask) =>
          (0 <=? offset) && (offset + Z.of_nat width <=? size) && fitsb (8 * Z.of_nat width) mask &&
          (Z.land mask (Z.ones (8 * Z.max 0 (off - offset))) =? 0) && wf_elements off size es
      | _, None => false
      end
  end.

Definition integer_type (t : FidlCodedPrimitiveSubtype) : bool :=
  match t with Bool | Float32 | Float64 => false | _ => true end.
Definition unsigned_type (t : FidlCodedPrimitiveSubtype) : bool :=
  match t with Uint8 | Uint16 | Uint32 | Uint64 => true | _ => false end.

(** [rank] orders types by inline nesting. *)
Definition wf_type (rank : type_ptr -> nat) (ty : type_ptr) (t : fidl_type) : bool :=
  (1 <=? TypeSize t) && (TypeSize t <? 2 ^ 31) &&
  match t with
  | TypePrimitive _ | TypeHandle _ => true
  | TypeEnum t => bool_decide (enum_strictness t = kFidlStrictness_Flexible) || integer_type (enum_underlying_type t)
  | TypeBits t => bool_decide (bits_strictness t = kFidlStrictness_Flexible) || unsigned_type (bits_underlying_type t)
  | TypeStruct t =>
      wf_elements 0 (size_v2 t) (elements t) &&
      forallb (fun e => match e with Field f _ _ => (rank f <? rank ty)%nat | _ => true end) (elements t)
  | TypeStructPointer t => match tbl !! struct_type t with Some (TypeStruct _) => true | _ => false end
  | TypeArray t =>
      (1 <=? array_element_size_v2 t) && (array_size_v2 t mod array_element_size_v2 t =? 0) &&
      match array_element t with
      | Some e => match size_of e with Some s => s <=? array_element_size_v2 t | None => false end && (rank e <? rank ty)%nat
      | None => true
      end
  | TypeString t => fitsb 32 (max_size t)
  | TypeVector t =>
      (1 <=? vector_element_size_v2 t) && fitsb 32 (vector_element_size_v2 t) && fitsb 32 (max_count t) &&
      match vector_element t with
      | Some e => match size_of e with Some s => s <=? vector_element_size_v2 t | None => false end
      | None => true
      end
  | TypeTable t => forallb (fun f => bool_decide (is_Some (tbl !! table_field_type f))) (table_fields t)
  | TypeXUnion t =>
      forallb (fun f => match union_field_type f with Some ty => bool_decide (is_Some (tbl !! ty)) | None => true end)
        (union_fields t)
  end.

Definition wf_tables (rank : type_ptr -> nat) (R : nat) : Prop :=
  forall ty t, tbl !! ty = Some t -> wf_type rank ty t = true /\ (rank ty <= R)%nat.

(** Where the inline part of an item lies. *)
Definition placed (x : item) (a b : Z) : Prop :=
  match x with
  | IType ty pos => exists s, size_of ty = Some s /\ a = pos /\ b = pos + s
  | IElements es pos => exists off size, wf_elements off size es = true /\ a = pos + off /\ b = pos + size
  | IArray n ty pos stride =>
      match ty with Some ty => exists s, size_of ty = Some s /\ s <= stride | None => True end /\
      1 <= stride /\ a = pos /\ b = pos + Z.of_nat n * stride
  | IEnvelope payload _ pos =>
      match payload with Some ty => is_Some (tbl !! ty) | None => True end /\ a = pos /\ b = pos + 8
  | IEnvelopes n i fields _ pos =>
      Forall (fun f => is_Some (tbl !! table_field_type f)) fields /\ a = pos + i * 8 /\ b = pos + (i + Z.of_nat n) * 8
  end.

End WellFormed.

(** ** Facts about the grammar *)

Section Facts.
Context {abi : FidlAbi} {laws : FidlAbiLaws abi} (tbl : tables) (m : list Z).

Lemma out_of_line_det c size c1 c2 : out_of_line m c size c1 -> out_of_line m c size c2 -> c1 = c2.
Proof. destruct c1, c2. intros (?&_&?&_) (?&_&?&_). simpl in *. congruence. Qed.

(** The layout determines what is consumed and what is patched. *)
Lemma conforms_det x d c ps c' ps2 c2 :
  conforms tbl m x d c ps c' -> conforms tbl m x d c ps2 c2 -> ps2 = ps /\ c2 = c'.
Proof.
  pose proof alloc_present_range as Halloc. pose proof handle_present_range as Hhandle.
  pose proof inlining_mask_1 as Hmask.
  intros Hfst. revert ps2 c2.
  induction Hfst; intros ps2' c2' Hsnd; inversion Hsnd; simplify_eq; try done.
  all: repeat match goal with
    | H1 : out_of_line m ?c ?s ?c1, H2 : out_of_line m ?c ?s ?c2 |- _ =>
        assert (c2 = c1) as -> by (eapply out_of_line_det; eauto); clear H2
    | IH : forall ps c, conforms _ _ ?x ?d ?c0 ps c -> _, H : conforms _ _ ?x ?d ?c0 _ _ |- _ =>
        apply IH in H as [-> ->]
    end; try done.
  all: exfalso; change (env_flags 0) with 0 in *; unfold ZX_HANDLE_INVALID in *; try lia.
Qed.

(** *** What the tables' guarantees give *)

Context (rank : type_ptr -> nat) (R : nat) (Hwf : wf_tables tbl rank R).

Ltac wf_inv H :=
  let W := fresh "W" in
  pose proof (proj1 (Hwf _ _ H)) as W; unfold wf_type in W;
  apply andb_true_iff in W as [_ W].

Lemma wf_size ty t : tbl !! ty = Some t -> 1 <= TypeSize t < 2 ^ 31.
Proof.
  intros H. pose proof (proj1 (Hwf _ _ H)) as W. unfold wf_type in W.
  rewrite !andb_true_iff, Z.leb_le, Z.ltb_lt in W. tauto.
Qed.

Lemma wf_rank ty t : tbl !! ty = Some t -> (rank ty <= R)%nat.
Proof. intros H. apply (Hwf _ _ H). Qed.

Lemma size_of_Some ty s : size_of tbl ty = Some s -> exists t, tbl !! ty = Some t /\ s = TypeSize t.
Proof. unfold size_of. intros (t & -> & ?)%fmap_Some. eauto. Qed.

Lemma size_of_lookup ty t : tbl !! ty = Some t -> size_of tbl ty = Some (TypeSize t).
Proof. unfold size_of. by intros ->. Qed.

Lemma wf_struct ty t :
  tbl !! ty = Some (TypeStruct t) ->
  wf_elements tbl 0 (size_v2 t) (elements t) = true /\
  forall f o r, Field f o r ∈ elements t -> (rank f < rank ty)%nat.
Proof.
  intros H. wf_inv H. apply andb_true_iff in W as [We Wr]. split; [done|].
  rewrite forallb_forall in Wr. intros f o r Hin. apply list_elem_of_In in Hin.
  apply Wr in Hin. by apply Nat.ltb_lt.
Qed.

Lemma wf_array ty t :
  tbl !! ty = Some (TypeArray t) ->
  1 <= array_element_size_v2 t /\ array_size_v2 t mod array_element_size_v2 t = 0 /\
  match array_element t with
  | Some e => (exists s, size_of tbl e = Some s /\ s <= array_element_size_v2 t) /\ (rank e < rank ty)%nat
  | None => True
  end.
Proof.
  intros H. wf_inv H. rewrite !andb_true_iff in W. destruct W as [[?%Z.leb_le ?%Z.eqb_eq] W].
  repeat split; [done..|]. destruct (array_element t) as [e|]; [|done].
  apply andb_true_iff in W as [We Wr]. split; [|by apply Nat.ltb_lt].
  destruct (size_of tbl e); [|done]. apply Z.leb_le in We. eauto.
Qed.

Lemma wf_vector ty t :
  tbl !! ty = Some (TypeVector t) ->
  1 <= vector_element_size_v2 t < 2 ^ 32 /\ fits 32 (max_count t) /\
  match vector_element t with
  | Some e => exists s, size_of tbl e = Some s /\ s <= vector_element_size_v2 t
  | None => True
  end.
Proof.
  intros H. wf_inv H. rewrite !andb_true_iff in W.
  destruct W as [[[?%Z.leb_le Hs%fitsb_spec] ?%fitsb_spec] W].
  repeat split; [done|mlia|mlia|mlia|]. destruct (vector_element t) as [e|]; [|done].
  destruct (size_of tbl e); [|done]. apply Z.leb_le in W. eauto.
Qed.

Lemma wf_string ty t : tbl !! ty = Some (TypeString t) -> fits 32 (max_size t).
Proof. intros H. wf_inv H. by apply fitsb_spec. Qed.

Lemma wf_pointer ty t :
  tbl !! ty = Some (TypeStructPointer t) -> exists st, tbl !! struct_type t = Some (TypeStruct st).
Proof. intros H. wf_inv H. destruct (tbl !! struct_type t) as [[]|]; eauto; done. Qed.

Lemma wf_table ty t :
  tbl !! ty = Some (TypeTable t) -> Forall (fun f => is_Some (tbl !! table_field_type f)) (table_fields t).
Proof.
  intros H. wf_inv H. rewrite forallb_forall in W. apply Forall_forall. intros f Hf.
  apply list_elem_of_In, W in Hf. by apply bool_decide_eq_true in Hf.
Qed.

Lemma wf_union ty t tag ty' :
  tbl !! ty = Some (TypeXUnion t) -> union_payload t tag = Some ty' -> is_Some (tbl !! ty').
Proof.
  intros H (f & Hf & Ht)%bind_Some. wf_inv H. rewrite forallb_forall in W.
  apply list_elem_of_lookup_2, list_elem_of_In, W in Hf. rewrite Ht in Hf. by apply bool_decide_eq_true in Hf.
Qed.

Lemma wf_enum ty t :
  tbl !! ty = Some (TypeEnum t) -> enum_strictness t = kFidlStrictness_Strict ->
  integer_type (enum_underlying_type t) = true.
Proof.
  intros H Hs. wf_inv H. rewrite Hs in W. by destruct (integer_type (enum_underlying_type t)).
Qed.

Lemma wf_bits ty t :
  tbl !! ty = Some (TypeBits t) -> bits_strictness t = kFidlStrictness_Strict ->
  unsigned_type (bits_underlying_type t) = true.
Proof.
  intros H Hs. wf_inv H. rewrite Hs in W. by destruct (unsigned_type (bits_underlying_type t)).
Qed.

Lemma wf_elements_le off size es : wf_elements tbl off size es = true -> off <= size.
Proof.
  revert off. induction es as [|e es IH]; intros off; simpl; [apply Z.leb_le|].
  destruct e as [ty o r| | |]; simpl; [|rewrite !andb_true_iff; intros [_ ?]; auto..].
  destruct (size_of tbl ty) as [s|] eqn:Hs; [|done]. apply size_of_Some in Hs as (t & Ht & ->).
  apply wf_size in Ht. rewrite andb_true_iff, Z.leb_le. intros [? ?%IH]. lia.
Qed.

(** A field: its place, and that of the elements after it. *)
Lemma wf_elements_field off size ty o r es :
  wf_elements tbl off size (Field ty o r :: es) = true ->
  exists s, size_of tbl ty = Some s /\ 1 <= s /\ off <= o /\ o + s <= size /\ wf_elements tbl (o + s) size es = true.
Proof.
  simpl. destruct (size_of tbl ty) as [s|] eqn:Hs; [|done]. rewrite andb_true_iff, Z.leb_le. intros [? W].
  pose proof (wf_elements_le _ _ _ W). pose proof Hs as (t & Ht & ->)%size_of_Some.
  apply wf_size in Ht. eexists; repeat split; eauto; lia.
Qed.

Lemma wf_elements_padding off size e width o mask es :
  padding_of e = Some (width, o, mask) -> wf_elements tbl off size (e :: es) = true ->
  0 <= o /\ o + Z.of_nat width <= size /\ fits (8 * Z.of_nat width) mask /\
  Z.land mask (Z.ones (8 * Z.max 0 (off - o))) = 0 /\ wf_elements tbl off size es = true.
Proof.
  intros He. destruct e; [done|..]; cbn [wf_elements]; rewrite He;
    rewrite !andb_true_iff, !Z.leb_le, Z.eqb_eq, fitsb_spec; tauto.
Qed.

Lemma table_payload_placed i fields :
  Forall (fun f => is_Some (tbl !! table_field_type f)) fields ->
  Forall (fun f => is_Some (tbl !! table_field_type f)) (snd (table_payload i fields)) /\
  match fst (table_payload i fields) with Some ty => is_Some (tbl !! ty) | None => True end.
Proof.
  destruct fields as [|f fields]; simpl; [done|]. rewrite Forall_cons.
  intros [? ?]. destruct (ordinal f =? i + 1); simpl; auto using Forall_cons_2.
Qed.


(** *** Where a conforming item lies and what it consumes *)

Definition within (q : patch) (lo hi : Z) : Prop := lo <= patch_pos q /\ patch_pos q + patch_size q <= hi.

(** The cursor only advances, stays inside the message and stays aligned; the
    handles are bounded by the bytes; the patches lie in the inline part or in the
    consumed out-of-line objects. *)
Record bounded (a b : Z) (c : cursor) (ps : list patch) (c' : cursor) : Prop := {
  bounded_ool : ool c <= ool c';
  bounded_hidx : hidx c <= hidx c';
  bounded_len : ool c <= len m -> ool c' <= len m;
  bounded_align : ool c mod 8 = 0 -> ool c' mod 8 = 0;
  bounded_weight : hidx c' - hidx c <= 8192 * ((b - a) + (ool c' - ool c));
  bounded_within : Forall (fun q => within q a b \/ within q (ool c) (ool c')) ps }.

Lemma bounded_nil a b c : a <= b -> bounded a b c [] c.
Proof. intros. split; auto; lia. Qed.

Lemma bounded_sub a b a' b' c ps c' : bounded a b c ps c' -> a' <= a -> b <= b' -> bounded a' b' c ps c'.
Proof.
  intros [] Ha Hb. split; [done..|lia|].
  eapply Forall_impl; [done|]. unfold within. intros q [?|?]; [left|right]; lia.
Qed.

Lemma bounded_app a b b' a' c ps1 c1 ps2 c' :
  bounded a a' c ps1 c1 -> bounded a' b' c1 ps2 c' -> a <= a' -> a' <= b' -> b' <= b ->
  bounded a b c (ps1 ++ ps2) c'.
Proof.
  intros [] [] Ha Ha' Hb. split; [lia|lia|auto|auto|lia|].
  apply Forall_app. split; (eapply Forall_impl; [done|]); unfold within; intros q [?|?]; (left; lia) || (right; lia).
Qed.

Lemma out_of_line_bounds c size c1 :
  0 <= size -> out_of_line m c size c1 ->
  ool c + size <= ool c1 /\ ool c1 <= len m /\ ool c1 mod 8 = 0 /\ hidx c1 = hidx c.
Proof.
  intros Hs (E & Hl & Hh & _). pose proof (align_up_bounds (ool c + size)).
  rewrite E, align_up_mod. lia.
Qed.

(** An out-of-line object of [size] bytes reached through a pointer at [pos]. *)
Lemma bounded_pointer a b pos size c c1 ps c' :
  0 <= size -> out_of_line m c size c1 -> bounded (ool c) (ool c + size) c1 ps c' ->
  a <= pos -> pos + 8 <= b -> bounded a b c (PPointer pos (ool c) :: ps) c'.
Proof.
  intros Hs (?&?&?&?)%out_of_line_bounds [] Ha Hb; [|done].
  split; [lia..|auto|auto|lia|]. constructor; [left; unfold within; simpl; lia|].
  eapply Forall_impl; [done|]. unfold within. intros q [?|?]; right; lia.
Qed.

Lemma placed_le x a b : placed tbl x a b -> a <= b.
Proof.
  destruct x as [ty pos|es pos|n [ty|] pos stride|payload r pos|n i fields r pos]; simpl.
  - intros (? & (t & Ht & ->)%size_of_Some & -> & ->). apply wf_size in Ht. lia.
  - intros (off & size & W%wf_elements_le & -> & ->). lia.
  - intros (_ & ? & -> & ->). nia.
  - intros (_ & ? & -> & ->). nia.
  - intros (_ & -> & ->). lia.
  - intros (_ & -> & ->). lia.
Qed.

Lemma load_nonneg n pos v : bytes_ok m -> load n m pos = Some v -> 0 <= v.
Proof. intros Hm Hl. pose proof (load_fits _ _ _ _ Hm Hl). mlia. Qed.

Lemma placed_type ty t pos : tbl !! ty = Some t -> placed tbl (IType ty pos) pos (pos + TypeSize t).
Proof. intros H. exists (TypeSize t). by rewrite (size_of_lookup _ _ H). Qed.

Lemma placed_struct ty t pos :
  tbl !! ty = Some (TypeStruct t) -> placed tbl (IElements (elements t) pos) pos (pos + size_v2 t).
Proof. intros [H _]%wf_struct. exists 0, (size_v2 t). rewrite H. auto with lia. Qed.

Lemma placed_array ty t pos :
  tbl !! ty = Some (TypeArray t) ->
  placed tbl (IArray (Z.to_nat (array_size_v2 t / array_element_size_v2 t)) (array_element t) pos
    (array_element_size_v2 t)) pos (pos + array_size_v2 t).
Proof.
  intros H. pose proof (wf_size _ _ H) as Hs. apply wf_array in H as (H1 & H2 & H3). simpl in Hs.
  split; [destruct (array_element t); [apply H3 | done]|]. repeat split; [done|].
  rewrite Z2Nat.id by (apply Z.div_pos; lia). pose proof (Z.div_mod (array_size_v2 t) (array_element_size_v2 t)). nia.
Qed.

Lemma placed_vector ty t count pos :
  tbl !! ty = Some (TypeVector t) -> 0 <= count ->
  placed tbl (IArray (Z.to_nat count) (vector_element t) pos (vector_element_size_v2 t)) pos
    (pos + count * vector_element_size_v2 t).
Proof.
  intros (H1 & H2 & H3)%wf_vector Hc. split; [done|]. repeat split; [lia|]. rewrite Z2Nat.id; lia.
Qed.

Lemma placed_table ty t count pos :
  tbl !! ty = Some (TypeTable t) -> 0 <= count ->
  placed tbl (IEnvelopes (Z.to_nat count) 0 (table_fields t) (table_is_resource t) pos) pos (pos + count * 8).
Proof. intros H%wf_table Hc. split; [done|]. rewrite Z2Nat.id; lia. Qed.

Lemma placed_union ty t tag pos :
  tbl !! ty = Some (TypeXUnion t) ->
  placed tbl (IEnvelope (union_payload t tag) (union_is_resource t) pos) pos (pos + 8).
Proof.
  intros H. split; [|done]. destruct (union_payload t tag) as [ty'|] eqn:E; [|done]. by eapply wf_union.
Qed.

Lemma conforms_bounded x d c ps c' a b :
  bytes_ok m -> conforms tbl m x d c ps c' -> placed tbl x a b -> bounded a b c ps c'.
Proof.
  intros Hm H. revert a b. induction H; intros a b Hp; pose proof (placed_le _ _ _ Hp) as Hab.
  all: try (by apply bounded_nil).
  all: try (destruct Hp as (? & (? & ? & ->)%size_of_Some & -> & ->); simplify_eq; simpl in * ).
  - by eapply IHconforms, placed_struct.
  - eapply bounded_pointer; [|done| |lia..]; [pose proof (wf_size _ _ H0); simpl in *; lia|].
    by eapply IHconforms, (placed_type _ (TypeStruct st)).
  - by eapply IHconforms, placed_array.
  - eapply bounded_pointer; [| done | apply bounded_nil | unfold sizeof_fidl_string_t; lia..];
      pose proof (load_nonneg _ _ _ Hm H0); lia.
  - split; simpl; try lia; auto. constructor; [|done]. left. unfold within. simpl. lia.
  - pose proof (load_nonneg _ _ _ Hm H0). pose proof (wf_vector _ _ H) as (? & _).
    eapply bounded_pointer; [|done | by eapply IHconforms, placed_vector | unfold sizeof_fidl_vector_t; lia..]. nia.
  - pose proof (load_nonneg _ _ _ Hm H0).
    eapply bounded_pointer; [|done | by eapply IHconforms, placed_table | unfold sizeof_fidl_vector_t; lia..]. lia.
  - rewrite xunion_size. eapply bounded_sub; [by eapply IHconforms, placed_union | lia..].
  - destruct Hp as (off & size & W & -> & ->).
    pose proof (wf_elements_field _ _ _ _ _ _ W) as (s & Hs & ? & ? & ? & W').
    eapply (bounded_app _ _ (pos + size) (pos + (offset + s))); [| |lia..].
    + eapply bounded_sub; [eapply IHconforms1; by exists s | lia..].
    + eapply IHconforms2. by exists (offset + s), size.
  - destruct Hp as (off & size & W & -> & ->).
    pose proof (wf_elements_padding _ _ _ _ _ _ _ H W) as (_ & _ & _ & _ & W').
    eapply IHconforms. by exists off, size.
  - destruct Hp as ((s & Hs & ?) & ? & -> & ->).
    eapply (bounded_app _ _ (pos + Z.of_nat (S n) * stride) (pos + stride)); [| |nia..].
    + eapply bounded_sub; [eapply IHconforms1; by exists s | lia..].
    + eapply IHconforms2. split; [by exists s|]. split; [done|]. split; [done|lia].
  - destruct Hp as (_ & -> & ->). rewrite threshold_4 in *.
    eapply bounded_sub; [by eapply IHconforms, placed_type | lia..].
  - destruct Hp as (_ & -> & ->). pose proof (wf_size _ _ H2).
    eapply bounded_pointer; [|done | by eapply IHconforms, placed_type | lia..]. lia.
  - destruct Hp as (_ & -> & ->). pose proof (env_fields_fit envelope) as (_ & ? & _).
    split; simpl; try mlia; auto. constructor; [|done]. left. unfold within. simpl. lia.
  - destruct Hp as (_ & -> & ->). pose proof (env_fields_fit envelope) as ([Hb ?] & ? & _).
    pose proof (out_of_line_bounds _ _ _ Hb H3) as (? & ? & ? & ?).
    split; simpl; try mlia; auto. constructor; [|constructor; [|done]]; left; unfold within; simpl; lia.
  - destruct Hp as (Hf & -> & ->). pose proof (table_payload_placed i _ Hf) as [Hf' Hp].
    eapply (bounded_app _ _ (pos + (i + Z.of_nat (S n)) * 8) (pos + (i + 1) * 8)); [| |lia..].
    + eapply bounded_sub; [by eapply IHconforms1 | lia..].
    + eapply IHconforms2. split; [done|]. lia.
Qed.

(** *** Where patches point *)

(** The incoming handles that are stored into the message. *)
Definition handle_indices (ps : list patch) : list Z :=
  omap (fun q => match q with PHandle _ i _ _ => Some i | _ => None end) ps.

(** Pointers go to aligned offsets inside the consumed out-of-line objects. *)
Definition target_ok (lo hi : Z) (q : patch) : Prop :=
  match q with PPointer _ target => lo <= target <= hi /\ target mod 8 = 0 | _ => True end.

Record well_aimed (c : cursor) (ps : list patch) (c' : cursor) : Prop := {
  aimed_targets : Forall (target_ok (ool c) (ool c')) ps;
  aimed_handles : Forall (fun i => hidx c <= i < hidx c') (handle_indices ps);
  aimed_once : NoDup (handle_indices ps) }.

Lemma handle_indices_app ps1 ps2 : handle_indices (ps1 ++ ps2) = handle_indices ps1 ++ handle_indices ps2.
Proof. induction ps1 as [|[] ps1 IH]; [done|exact IH| |exact IH]. cbn. by f_equal. Qed.

Lemma well_aimed_nil c c' : well_aimed c [] c'.
Proof. split; constructor. Qed.

Lemma well_aimed_sub c ps c' c0 c2 :
  well_aimed c ps c' -> ool c0 <= ool c -> ool c' <= ool c2 -> hidx c0 <= hidx c -> hidx c' <= hidx c2 -> well_aimed c0 ps c2.
Proof.
  intros [H1 H2 H3] ????. split; [..|done]; eapply Forall_impl; [done| |done|]; cbv beta.
  - intros []; simpl; lia.
  - intros i. lia.
Qed.

Lemma well_aimed_app c ps1 c1 ps2 c' :
  well_aimed c ps1 c1 -> well_aimed c1 ps2 c' -> ool c <= ool c1 <= ool c' -> hidx c <= hidx c1 <= hidx c' ->
  well_aimed c (ps1 ++ ps2) c'.
Proof.
  intros H1 H2 Ho Hh.
  pose proof (well_aimed_sub _ _ _ c c' H1 ltac:(lia) ltac:(lia) ltac:(lia) ltac:(lia)) as [T1 I1 _].
  pose proof (well_aimed_sub _ _ _ c c' H2 ltac:(lia) ltac:(lia) ltac:(lia) ltac:(lia)) as [T2 I2 _].
  split; rewrite ?handle_indices_app; [by apply Forall_app..|].
  apply NoDup_app. split; [apply H1|]. split; [|apply H2].
  intros x Hx Hx'. destruct H1 as [_ H1 _], H2 as [_ H2 _].
  rewrite Forall_forall in H1, H2. apply H1 in Hx. apply H2 in Hx'. lia.
Qed.

Lemma well_aimed_pointer pos c c1 ps c' :
  ool c mod 8 = 0 -> well_aimed c1 ps c' -> ool c <= ool c1 <= ool c' -> hidx c1 = hidx c -> hidx c <= hidx c' ->
  well_aimed c (PPointer pos (ool c) :: ps) c'.
Proof.
  intros Ha Hw ???. pose proof (well_aimed_sub _ _ _ c c' Hw ltac:(lia) ltac:(lia) ltac:(lia) ltac:(lia)) as [T I O].
  split; [|done|done]. constructor; [|done]. simpl. lia.
Qed.

Lemma conforms_well_aimed x d c ps c' a b :
  bytes_ok m -> conforms tbl m x d c ps c' -> placed tbl x a b -> ool c mod 8 = 0 -> well_aimed c ps c'.
Proof.
  intros Hm H. revert a b. induction H; intros a b Hp Hal.
  all: try (by apply well_aimed_nil).
  all: try (destruct Hp as (? & (? & ? & ->)%size_of_Some & -> & ->); simplify_eq; simpl in * ).
  - by eapply IHconforms; [eapply placed_struct|].
  - pose proof (wf_size _ _ H0) as Hs. simpl in Hs. assert (0 <= size_v2 st) as Hs0 by lia.
    pose proof (out_of_line_bounds _ _ _ Hs0 H3) as (?&?&?&?).
    pose proof (placed_type _ _ (ool c) H0) as Hp. pose proof (conforms_bounded _ _ _ _ _ _ _ Hm H4 Hp) as [].
    eapply (well_aimed_pointer _ _ c1); [done|by eapply IHconforms|lia..].
  - by eapply IHconforms; [eapply placed_array|].
  - pose proof (load_nonneg _ _ _ Hm H0) as Hs0. pose proof (out_of_line_bounds _ _ _ Hs0 H4) as (?&?&?&?).
    eapply (well_aimed_pointer _ _ c'); [done|apply well_aimed_nil|lia..].
  - split; simpl; [by constructor|..]; unfold handle_indices; simpl; [constructor; [lia|done]|apply NoDup_singleton].
  - pose proof (load_nonneg _ _ _ Hm H0) as Hs0. pose proof (wf_vector _ _ H) as (? & _).
    assert (0 <= count * vector_element_size_v2 t) as Hs1 by nia.
    pose proof (out_of_line_bounds _ _ _ Hs1 H4) as (?&?&?&?).
    pose proof (placed_vector _ _ _ (ool c) H Hs0) as Hp. pose proof (conforms_bounded _ _ _ _ _ _ _ Hm H5 Hp) as [].
    eapply (well_aimed_pointer _ _ c1); [done|by eapply IHconforms|lia..].
  - pose proof (load_nonneg _ _ _ Hm H0) as Hs0. assert (0 <= count * 8) as Hs1 by lia.
    pose proof (out_of_line_bounds _ _ _ Hs1 H3) as (?&?&?&?).
    pose proof (placed_table _ _ _ (ool c) H Hs0) as Hp. pose proof (conforms_bounded _ _ _ _ _ _ _ Hm H4 Hp) as [].
    eapply (well_aimed_pointer _ _ c1); [done|by eapply IHconforms|lia..].
  - by eapply IHconforms; [eapply placed_union|].
  - destruct Hp as (off & size & W & -> & ->).
    pose proof (wf_elements_field _ _ _ _ _ _ W) as (s & Hs & ? & ? & ? & W').
    assert (placed tbl (IType ty (pos + offset)) (pos + offset) (pos + offset + s)) as Hp1 by (by exists s).
    assert (placed tbl (IElements es pos) (pos + (offset + s)) (pos + size)) as Hp2 by (by exists (offset + s), size).
    pose proof (conforms_bounded _ _ _ _ _ _ _ Hm H Hp1) as []. pose proof (conforms_bounded _ _ _ _ _ _ _ Hm H0 Hp2) as [].
    eapply well_aimed_app; [by eapply IHconforms1|eapply IHconforms2; eauto|lia..].
  - destruct Hp as (off & size & W & -> & ->).
    pose proof (wf_elements_padding _ _ _ _ _ _ _ H W) as (_ & _ & _ & _ & W').
    eapply IHconforms; [|done]. by exists off, size.
  - destruct Hp as ((s & Hs & ?) & ? & -> & ->).
    assert (placed tbl (IType ty pos) pos (pos + s)) as Hp1 by (by exists s).
    assert (placed tbl (IArray n (Some ty) (pos + stride) stride) (pos + stride) (pos + stride + Z.of_nat n * stride)) as Hp2
      by (split; [by exists s|done]).
    pose proof (conforms_bounded _ _ _ _ _ _ _ Hm H Hp1) as []. pose proof (conforms_bounded _ _ _ _ _ _ _ Hm H0 Hp2) as [].
    eapply well_aimed_app; [by eapply IHconforms1|eapply IHconforms2; eauto|lia..].
  - by eapply IHconforms; [eapply placed_type|].
  - pose proof (wf_size _ _ H2). assert (0 <= TypeSize t) as Hs0 by lia.
    pose proof (out_of_line_bounds _ _ _ Hs0 H5) as (?&?&?&?).
    pose proof (placed_type _ _ (ool c) H2) as Hp1. pose proof (conforms_bounded _ _ _ _ _ _ _ Hm H6 Hp1) as [].
    eapply (well_aimed_pointer _ _ c1); [done|by eapply IHconforms|lia..].
  - split; simpl; [by constructor|constructor..].
  - pose proof (env_fields_fit envelope) as ([Hb ?] & ? & _). pose proof (out_of_line_bounds _ _ _ Hb H3) as (?&?&?&?).
    split; [|constructor..]. constructor; [simpl; lia|]. by constructor.
  - destruct Hp as (Hf & -> & ->). pose proof (table_payload_placed i _ Hf) as [Hf' Hp].
    assert (placed tbl (IEnvelope (fst (table_payload i fields)) r (pos + i * 8)) (pos + i * 8) (pos + i * 8 + 8)) as Hp1 by done.
    assert (placed tbl (IEnvelopes n (i + 1) (snd (table_payload i fields)) r pos) (pos + (i + 1) * 8) (pos + (i + 1 + Z.of_nat n) * 8)) as Hp2 by done.
    pose proof (conforms_bounded _ _ _ _ _ _ _ Hm H Hp1) as []. pose proof (conforms_bounded _ _ _ _ _ _ _ Hm H0 Hp2) as [].
    eapply well_aimed_app; [by eapply IHconforms1|eapply IHconforms2; eauto|lia..].
Qed.

End Facts.
