(* ===== verification/FidlWalkerCorrect.v ===== *)
(** * Correctness of the walker

    [VisitorSpec] states what a decoding visitor promises to the walker, in terms
    of the grammar of FidlSpec.v.  Against any such visitor the walker terminates,
    never leaves the message, and continues exactly on the items that conform to
    the grammar.  FidlDecoderCorrect.v shows that both modes of the decoder keep
    these promises. *)

From S2P Require Import Prelude Utf8Scalar FidlTypes FidlWalker FidlSpec.

(** ** What the visitor promises *)

(** A pointer at [slot] to an out-of-line object of [size] bytes. *)
Definition pointee_ok {abi : FidlAbi} (m : list Z) (c : cursor) (ty : PointeeType) (slot size : Z) (c' : cursor) : Prop :=
  out_of_line m c size c' /\
  (ty <> kEnvelope -> load 8 m slot = Some FIDL_ALLOC_PRESENT) /\
  (ty = kString -> exists s, rdn m (ool c) size = Some s /\ Utf8Spec.valid s = true).

(** No byte outside the patches differs. *)
Definition unpatched (ps : list patch) (m m' : list Z) : Prop :=
  len m' = len m /\
  forall j : nat, Forall (fun q => Z.of_nat j < patch_pos q \/ patch_pos q + patch_size q <= Z.of_nat j) ps -> m' !! j = m !! j.

Definition slot_ok (s_len : Z) (pos size : Z) : Prop := 0 <= pos /\ pos + size <= s_len.

Class VisitorSpec {abi : FidlAbi} {S : Type} (V : Visitor S) := {
  (** the length of the message, the number of handles, and a condition under
      which the visitor may refuse handles of its own accord *)
  v_len : Z;
  v_handles : Z;
  v_unreliable : Prop;
  (** a state without error; a state with one *)
  Inv : S -> Prop;
  failed : S -> Prop;
  cur : S -> cursor;
  effect : list patch -> S -> S -> Prop;
  at_checkpoint : EnvelopeCheckpoint -> cursor -> Prop;

  v_flags : kOnlyWalkResources = false /\ kContinueAfterConstraintViolation = false /\ kValidateEnvelopeInlineBit = true;
  v_len_bound : v_len + 8 < 2 ^ 32;
  Inv_message s : Inv s -> bytes_ok (message s) /\ len (message s) = v_len;
  Inv_cursor s : Inv s -> 0 <= ool (cur s) /\ ool (cur s) mod 8 = 0 /\ ool (cur s) <= v_len /\ 0 <= hidx (cur s);
  effect_nil s : effect [] s s;
  effect_app ps1 ps2 s1 s2 s3 : effect ps1 s1 s2 -> effect ps2 s2 s3 -> effect (ps1 ++ ps2) s1 s3;
  effect_frame ps s s' : effect ps s s' -> unpatched ps (message s) (message s');

  OnError_law e s : Inv s -> wp (OnError e) s (fun _ s' => failed s');
  VisitAbsent_law q s : Inv s ->
    wp (VisitAbsentPointerInNonNullableCollection q) s (fun st s' => st <> kSuccess /\ failed s');
  VisitCount_law q s : Inv s -> wp (VisitVectorOrStringCount q) s (fun st s' => st = kSuccess /\ s' = s);
  VisitPointer_law p ty slot size mc s : Inv s -> slot_ok v_len slot 8 -> fits 32 size ->
    wp (VisitPointer p ty slot size mc) s (fun '(st, pos) s' =>
      match st with
      | kSuccess => pos = ool (cur s) /\ Inv s' /\ pointee_ok (message s) (cur s) ty slot size (cur s') /\
                    effect [PPointer slot (ool (cur s))] s s'
      | _ => failed s' /\ forall c', ~ pointee_ok (message s) (cur s) ty slot size c'
      end);
  VisitHandle_law p slot rights subtype s : Inv s -> slot_ok v_len slot 4 -> hidx (cur s) + 1 < 2 ^ 32 ->
    wp (VisitHandle p slot rights subtype) s (fun st s' =>
      match st with
      | kSuccess => load 4 (message s) slot = Some FIDL_HANDLE_PRESENT /\ Inv s' /\
                    cur s' = Cursor (ool (cur s)) (hidx (cur s) + 1) /\
                    effect [PHandle slot (hidx (cur s)) rights subtype] s s'
      | _ => failed s' /\
             (load 4 (message s) slot = Some FIDL_HANDLE_PRESENT -> v_handles < hidx (cur s) + 1 \/ v_unreliable)
      end);
  VisitPadding_law width pos mask s : Inv s -> slot_ok v_len pos (Z.of_nat width) ->
    wp (VisitInternalPadding width pos mask) s (fun st s' =>
      match st with
      | kSuccess => padding_ok width (message s) pos mask /\ s' = s
      | _ => failed s' /\ ~ padding_ok width (message s) pos mask
      end);
  EnterEnvelope_law s : Inv s -> wp EnterEnvelope s (fun cp s' => at_checkpoint cp (cur s) /\ s' = s);
  LeaveEnvelope_law envelope pos cp c s : Inv s -> at_checkpoint cp c -> ool c <= ool (cur s) -> 
    hidx c <= hidx (cur s) -> hidx (cur s) - hidx c < 2 ^ 32 -> 0 <= ool c ->
    wp (LeaveEnvelope envelope pos cp) s (fun st s' =>
      match st with
      | kSuccess => env_num_bytes envelope = ool (cur s) - ool c /\ env_num_handles envelope = hidx (cur s) - hidx c /\ s' = s
      | _ => failed s' /\ ~ (env_num_bytes envelope = ool (cur s) - ool c /\ env_num_handles envelope = hidx (cur s) - hidx c)
      end);
  LeaveInlinedEnvelope_law envelope pos cp c s : Inv s -> at_checkpoint cp c ->
    hidx c <= hidx (cur s) -> hidx (cur s) - hidx c < 2 ^ 32 ->
    wp (LeaveInlinedEnvelope envelope pos cp) s (fun st s' =>
      match st with
      | kSuccess => env_num_handles envelope = hidx (cur s) - hidx c /\ s' = s
      | _ => failed s' /\ ~ env_num_handles envelope = hidx (cur s) - hidx c
      end);
  (** the envelope still holds an inline value, or else its pointer was just visited *)
  VisitUnknown_law envelope slot r s : Inv s -> slot_ok v_len slot 8 ->
    hidx (cur s) + env_num_handles envelope < 2 ^ 32 ->
    env_flags envelope = FIDL_ENVELOPE_FLAGS_INLINING_MASK \/
      (env_flags envelope = 0 /\ exists s0, Inv s0 /\ effect [PPointer slot (ool (cur s0))] s0 s /\ env_num_bytes envelope <= v_len) ->
    wp (VisitUnknownEnvelope envelope slot r) s (fun st s' =>
      match st with
      | kSuccess => Inv s' /\ cur s' = Cursor (ool (cur s)) (hidx (cur s) + env_num_handles envelope) /\
                    effect [PUnknown slot envelope r] s s'
      | _ => failed s' /\ (v_handles < hidx (cur s) + env_num_handles envelope \/ v_unreliable)
      end);
}.

(** Two messages have the same bytes from [lo] up to [hi]. *)
Definition agree (m0 m : list Z) (lo hi : Z) : Prop := forall j : nat, lo <= Z.of_nat j < hi -> m !! j = m0 !! j.

Lemma agree_rdn m0 m lo hi i n :
  len m = len m0 -> agree m0 m lo hi -> lo <= i -> i + n <= hi -> rdn m i n = rdn m0 i n.
Proof. intros Hl Ha ??. apply rdn_agree; [done|]. intros j Hj. apply Ha. lia. Qed.

Lemma agree_load n m0 m lo hi i :
  len m = len m0 -> agree m0 m lo hi -> lo <= i -> i + Z.of_nat n <= hi -> load n m i = load n m0 i.
Proof. intros. unfold load. by erewrite agree_rdn. Qed.

Lemma agree_zeros m0 m lo hi a b :
  agree m0 m lo hi -> lo <= a -> b <= hi -> zeros m a b <-> zeros m0 a b.
Proof.
  intros Ha Hlo Hhi. unfold zeros, rd.
  enough (forall i, a <= i < b -> (if i <? 0 then None else m !! Z.to_nat i) = (if i <? 0 then None else m0 !! Z.to_nat i)) as E.
  { split; intros H i Hi; [rewrite <- E | rewrite E]; auto. }
  intros i Hi. destruct (Z.ltb_spec i 0); [done|]. apply Ha. lia.
Qed.

Lemma agree_sub m0 m lo hi lo' hi' : agree m0 m lo hi -> lo <= lo' -> hi' <= hi -> agree m0 m lo' hi'.
Proof. intros H ?? j Hj. apply H. lia. Qed.

(** A mask only sees the bytes under it: the window may reach below [lo]. *)
Lemma padding_agree w m0 m lo hi pos mask :
  len m = len m0 -> bytes_ok m -> bytes_ok m0 -> agree m0 m lo hi -> pos + Z.of_nat w <= hi -> fits (8 * Z.of_nat w) mask ->
  Z.land mask (Z.ones (8 * Z.max 0 (lo - pos))) = 0 ->
  padding_ok w m pos mask <-> padding_ok w m0 pos mask.
Proof.
  intros Hl Hm Hm0 Ha Hhi Hfit Hlow. unfold padding_ok.
  destruct (decide (0 <= pos /\ pos + Z.of_nat w <= len m)) as [[Hp Hw]|Hout].
  2: { split; intros (v & ?%load_in_range & _); lia. }
  enough (forall v v0, load w m pos = Some v -> load w m0 pos = Some v0 -> Z.land v mask = Z.land v0 mask) as E.
  { destruct (load_is_Some w m pos) as [v Hv]; [lia..|]. destruct (load_is_Some w m0 pos) as [v0 Hv0]; [lia..|].
    specialize (E _ _ Hv Hv0). split; intros (? & ? & ?); eexists; (split; [done|]); congruence. }
  unfold load. intros v v0 (bs & Hbs & [= <-])%bind_Some (bs0 & Hbs0 & [= <-])%bind_Some.
  pose proof (rdn_bytes_ok _ _ _ _ Hm Hbs) as Hok. pose proof (rdn_bytes_ok _ _ _ _ Hm0 Hbs0) as Hok0.
  pose proof (rdn_len _ _ _ _ Hbs) as Hlb. pose proof (rdn_len _ _ _ _ Hbs0) as Hlb0. unfold len in Hlb, Hlb0.
  apply rdn_Some in Hbs as (_ & _ & _ & ->). apply rdn_Some in Hbs0 as (_ & _ & _ & ->).
  apply Z.bits_inj_iff'. intros i Hi. rewrite !Z.land_spec.
  destruct (Z.testbit mask i) eqn:Hbit; [|by rewrite !andb_false_r]. rewrite !andb_true_r.
  destruct (Z.lt_ge_cases i (8 * Z.of_nat w)) as [Hiw|Hiw].
  2: { exfalso. rewrite Z.bits_above_log2 in Hbit; [done|mlia|]. eapply Z.lt_le_trans; [|exact Hiw].
       destruct (Z.eq_dec mask 0) as [->|]; [by rewrite Z.bits_0 in Hbit|]. apply Z.log2_lt_pow2; mlia. }
  destruct (Z.lt_ge_cases i (8 * Z.max 0 (lo - pos))) as [Hlo|Hlo].
  { exfalso. assert (Z.testbit (Z.land mask (Z.ones (8 * Z.max 0 (lo - pos)))) i = true) as Hb.
    { rewrite Z.land_spec, Hbit, Z.ones_spec_low; [done|lia]. } by rewrite Hlow, Z.bits_0 in Hb. }
  destruct (lookup_lt_is_Some_2 (take (Z.to_nat (Z.of_nat w)) (drop (Z.to_nat pos) m)) (Z.to_nat (i / 8))) as [b Hb].
  { apply Nat2Z.inj_lt. rewrite Hlb. dlia. }
  rewrite !(little_endian_to_Z_spec 8 _ i b); [done|lia|lia|done| |lia|lia|done|done].
  rewrite <- Hb, !lookup_take, !lookup_drop by dlia. symmetry. destruct (decide _); [|done]. apply Ha. dlia.
Qed.

(** A mask over the high bytes of a window. *)
Lemma padding_high w k m pos :
  bytes_ok m -> 0 <= pos -> pos + Z.of_nat w <= len m -> 0 <= k <= Z.of_nat w ->
  padding_ok w m pos (Z.shiftl (Z.ones (8 * (Z.of_nat w - k))) (8 * k)) <-> zeros m (pos + k) (pos + Z.of_nat w).
Proof.
  intros Hm Hp Hw Hk. set (mask := Z.shiftl _ _).
  assert (forall i, 0 <= i -> Z.testbit mask i = (8 * k <=? i) && (i <? 8 * Z.of_nat w)) as Hmask.
  { intros i Hi. unfold mask. rewrite Z.shiftl_spec, Z.testbit_ones by lia. f_equal; [|apply eq_true_iff_eq; rewrite !Z.ltb_lt; lia].
    apply eq_true_iff_eq. rewrite !Z.leb_le. lia. }
  destruct (rdn_is_Some m pos (Z.of_nat w)) as [bs Hbs]; [lia..|].
  assert (load w m pos = Some (le_bytes bs)) as Hv by (unfold load; by rewrite Hbs).
  pose proof (rdn_bytes_ok _ _ _ _ Hm Hbs) as Hok. pose proof (rdn_len _ _ _ _ Hbs) as Hl. unfold len in Hl.
  assert (forall j, 0 <= j < Z.of_nat w -> rd m (pos + j) = bs !! Z.to_nat j) as Hrd.
  { intros j Hj. apply rdn_Some in Hbs as (_ & _ & _ & ->). unfold rd. destruct (Z.ltb_spec (pos + j) 0); [lia|].
    rewrite lookup_take_lt, lookup_drop by lia. f_equal. lia. }
  unfold padding_ok. rewrite Hv. split.
  - intros (v & [= <-] & Hz) i Hi. replace i with (pos + (i - pos)) by lia. rewrite Hrd by lia.
    destruct (lookup_lt_is_Some_2 bs (Z.to_nat (i - pos))) as [b Hb]; [lia|]. rewrite Hb. f_equal.
    pose proof (bytes_ok_lookup _ _ _ Hok Hb) as Hb8. apply Z.bits_inj_0. intros n.
    destruct (Z.lt_ge_cases n 0); [by apply Z.testbit_neg_r|].
    destruct (Z.lt_ge_cases n 8); [|by apply testbit_byte_high].
    assert (Z.testbit (Z.land (le_bytes bs) mask) (8 * (i - pos) + n) = false) as E by (by rewrite Hz, Z.bits_0).
    rewrite Z.land_spec, Hmask in E by lia.
    rewrite (proj2 (Z.leb_le _ _)), (proj2 (Z.ltb_lt _ _)), andb_true_r in E by lia.
    rewrite (little_endian_to_Z_spec 8 _ _ b) in E; [|lia|lia|done|].
    + replace ((8 * (i - pos) + n) `mod` 8) with n in E by dlia. done.
    + rewrite <- Hb. f_equal. f_equal. dlia.
  - intros Hz. eexists. split; [done|]. apply Z.bits_inj_0. intros i.
    destruct (Z.lt_ge_cases i 0); [by apply Z.testbit_neg_r|]. rewrite Z.land_spec, Hmask by done.
    destruct (Z.leb_spec (8 * k) i), (Z.ltb_spec i (8 * Z.of_nat w)); rewrite ?andb_false_r; try done.
    rewrite (little_endian_to_Z_spec 8 _ _ 0); [by rewrite Z.bits_0|lia|lia|done|].
    rewrite <- Hrd by dlia. apply Hz. dlia.
Qed.

Section Correct.
Context {abi : FidlAbi} {laws : FidlAbiLaws abi} {S : Type} {V : Visitor S} {VS : VisitorSpec V}.
Context (tbl : tables) (rank : type_ptr -> nat) (R : nat) (Hwf : wf_tables tbl rank R).
(** The message as it was received. *)
Context (m0 : list Z) (Hm0 : bytes_ok m0) (Hlen0 : len m0 = v_len).

Abbreviation conf := (conforms tbl m0).

(** The position an item is addressed by. *)
Definition item_pos (x : item) : Z :=
  match x with
  | IType _ pos | IElements _ pos | IArray _ _ pos _ | IEnvelope _ _ pos | IEnvelopes _ _ _ _ pos => pos
  end.

(** The state in which a walk of [x] between [a] and [b] starts: what it will
    look at is as received, and the handle count cannot overflow. *)
Record ready (x : item) (a b : Z) (s : S) : Prop := {
  ready_inv : Inv s;
  ready_placed : placed tbl x a b;
  ready_pos : 0 <= item_pos x;
  ready_lo : 0 <= a;
  ready_hi : b <= ool (cur s);
  ready_inline : agree m0 (message s) a b;
  ready_rest : agree m0 (message s) (ool (cur s)) v_len;
  ready_room : hidx (cur s) + 8192 * ((b - a) + (v_len - ool (cur s))) < 2 ^ 32 }.

(** The outcome of a walk of [x] that started in [s]. *)
Definition post (x : item) (d : Z) (s : S) (r : Result) (s' : S) : Prop :=
  match r with
  | kContinue => exists ps, conf x d (cur s) ps (cur s') /\ Inv s' /\ effect ps s s'
  | kExit => failed s' /\ forall ps c', conf x d (cur s) ps c' -> v_handles < hidx c' \/ v_unreliable
  end.

Definition spec (x : item) (d : Z) (run : ST S Result) : Prop :=
  forall a b s, ready x a b s -> wp run s (post x d s).

(** *** Reading what is as received *)

Lemma Inv_len s : Inv s -> len (message s) = len m0.
Proof. intros [_ ->]%Inv_message. done. Qed.

(** A word inside the inline part. *)
Lemma ready_load x a b s n pos :
  ready x a b s -> a <= pos -> pos + Z.of_nat n <= b ->
  exists v, load n (message s) pos = Some v /\ load n m0 pos = Some v.
Proof.
  intros H Ha Hb. pose proof (Inv_len _ (ready_inv _ _ _ _ H)) as Hl.
  pose proof (Inv_cursor _ (ready_inv _ _ _ _ H)) as (?&?&?&?). pose proof (ready_hi _ _ _ _ H). pose proof (ready_lo _ _ _ _ H).
  destruct (load_is_Some n (message s) pos) as [v Hv]; [lia..|].
  exists v. split; [done|]. rewrite <- Hv. symmetry.
  eapply agree_load; [done | apply (ready_inline _ _ _ _ H) | lia..].
Qed.

Lemma wp_PtrTo n pos s v (Q : Z -> S -> Prop) : load n (message s) pos = Some v -> Q v s -> wp (PtrTo n pos) s Q.
Proof. intros Hl HQ. apply wp_bind, wp_gets, (wp_lift _ v); auto. Qed.

(** Pointees look the same in the current message. *)
Lemma pointee_agree s ty slot size c' :
  Inv s -> agree m0 (message s) slot (slot + 8) -> agree m0 (message s) (ool (cur s)) v_len -> 0 <= size ->
  pointee_ok (message s) (cur s) ty slot size c' <-> pointee_ok m0 (cur s) ty slot size c'.
Proof.
  intros HI Hslot Hrest Hsize. pose proof (Inv_len _ HI) as Hl. pose proof (Inv_message _ HI) as [_ Hl'].
  unfold pointee_ok, out_of_line. rewrite Hl, (agree_load 8 m0 (message s) _ _ slot Hl Hslot) by lia.
  pose proof (align_up_bounds (ool (cur s) + size)) as Hup.
  split; intros ((E & Hle & Hh & Hz) & Hp & Hstr); (split; [|split; [done|]]).
  - repeat split; [done..|]. eapply (agree_zeros m0 (message s)); [exact Hrest | lia | lia | done].
  - intros [str [Hr Hv]]%Hstr. exists str. split; [|done]. rewrite <- Hr. symmetry. by eapply agree_rdn; [done..|lia|lia].
  - repeat split; [done..|]. eapply (agree_zeros m0 (message s)); [exact Hrest | lia | lia | done].
  - intros [str [Hr Hv]]%Hstr. exists str. split; [|done]. rewrite <- Hr. by eapply agree_rdn; [done..|lia|lia].
Qed.

(** What lies away from the patches stays as received. *)
Lemma agree_effect ps s s' a b c c' lo hi :
  effect ps s s' -> Forall (fun q => within q a b \/ within q (ool c) (ool c')) ps ->
  agree m0 (message s) lo hi -> hi <= a \/ b <= lo -> hi <= ool c \/ ool c' <= lo ->
  agree m0 (message s') lo hi.
Proof.
  intros [_ He]%effect_frame Hw Ha H1 H2 j Hj. rewrite He; [by apply Ha|].
  eapply Forall_impl; [done|]. unfold within. intros q [?|?]; simpl; lia.
Qed.

(** *** Steps of the walker *)

Lemma wp_reject msg x d s :
  Inv s -> (forall ps c', ~ conf x d (cur s) ps c') -> wp (reject msg) s (post x d s).
Proof.
  intros HI Hno. apply wp_bind. eapply wp_mono; [by apply OnError_law|]. simpl. intros _ s' Hf.
  apply wp_ret. unfold violation. destruct v_flags as (_ & -> & _). split; [done|]. naive_solver.
Qed.

(** A failed guard ends the walk. *)
Lemma wp_guard_fail st rest x d s s' :
  st <> kSuccess -> failed s' -> (forall ps c', conf x d (cur s) ps c' -> v_handles < hidx c' \/ v_unreliable) ->
  wp (FIDL_STATUS_GUARD st rest) s' (post x d s).
Proof.
  intros Hst Hf Hno. destruct st; [done|..]; apply wp_ret; [|by split].
  unfold violation. destruct v_flags as (_ & -> & _). by split.
Qed.

Lemma wp_continue x d s : Inv s -> conf x d (cur s) [] (cur s) -> wp (mret kContinue) s (post x d s).
Proof. intros HI Hc. apply wp_ret. exists []. auto using effect_nil. Qed.

Lemma wp_depth x d s rest :
  Inv s -> 0 <= d <= FIDL_MAX_DEPTH ->
  (forall ps c', conf x d (cur s) ps c' -> d < FIDL_MAX_DEPTH) ->
  (d < FIDL_MAX_DEPTH -> wp rest s (post x d s)) ->
  wp (FIDL_DEPTH_GUARD (INCREASE_DEPTH d) rest) s (post x d s).
Proof.
  intros HI Hd Hno Hrest. unfold FIDL_DEPTH_GUARD, INCREASE_DEPTH.
  pose proof max_depth_range. rewrite wrap_small by mlia.
  destruct (Z.ltb_spec FIDL_MAX_DEPTH (d + 1)); [|apply Hrest; lia].
  apply wp_reject; [done|]. intros ps c' Hc%Hno. lia.
Qed.

(** A conforming item that refuses or exhausts handles early does so for good. *)
Lemma conf_hidx x a b d c ps c' : conf x d c ps c' -> placed tbl x a b -> hidx c <= hidx c'.
Proof. intros Hc Hp. eapply bounded_hidx, conforms_bounded; eauto. Qed.

Ltac ready_facts H :=
  pose proof (ready_inv _ _ _ _ H) as HI;
  pose proof (Inv_cursor _ HI) as (Hool & Halign & Hoollen & Hhidx);
  pose proof (Inv_len _ HI) as Hlen;
  pose proof (ready_placed _ _ _ _ H) as Hplaced;
  pose proof (ready_pos _ _ _ _ H) as Hpos;
  pose proof (ready_lo _ _ _ _ H) as Hlo;
  pose proof (ready_hi _ _ _ _ H) as Hhi;
  simpl in Hpos.

(** Reading [n] bytes at [pos] inside the inline part of a ready item. *)
Ltac rd_step H n pos v Hv Hv0 :=
  destruct (ready_load _ _ _ _ n pos H) as (v & Hv & Hv0); [lia..|];
  apply wp_bind, (wp_PtrTo _ _ _ _ _ Hv).

Ltac no_conf := intros ps' c'' Hc; inversion Hc; simplify_eq/=.
(** No rule of the grammar applies. *)
Ltac refute := no_conf; rewrite ?negb_true_iff, ?bool_decide_eq_true, ?bool_decide_eq_false in *; first [congruence | lia | mlia].

Lemma placed_type_inv ty t pos a b :
  tbl !! ty = Some t -> placed tbl (IType ty pos) a b -> a = pos /\ b = pos + TypeSize t.
Proof. intros Ht (s & Hs & -> & ->). unfold size_of in Hs. rewrite Ht in Hs. by simplify_eq/=. Qed.

Lemma WalkPrimitive_ok ty t pos d :
  tbl !! ty = Some (TypePrimitive t) -> spec (IType ty pos) d (WalkPrimitive t pos).
Proof.
  intros Ht a b s H. ready_facts H. apply (placed_type_inv _ _ _ _ _ Ht) in Hplaced as [-> ->].
  unfold WalkPrimitive. simpl in *. destruct (primitive_type t) eqn:E; simpl in *.
  2-11: apply wp_continue; [done|]; eapply conforms_plain; [done|]; simpl; by rewrite E.
  rd_step H 1%nat pos v Hv Hv0.
  destruct (Z.eqb_spec v 0), (Z.eqb_spec v 1); simpl;
    try (apply wp_continue; [done|]; eapply conforms_bool; eauto; fail).
  apply wp_reject; [done|]. refute.
Qed.


(** A strict enum or bits value is the one the grammar reads. *)
Lemma WalkEnum_ok ty t pos d :
  tbl !! ty = Some (TypeEnum t) -> spec (IType ty pos) d (WalkEnum t pos).
Proof.
  intros Ht a b s H. ready_facts H. apply (placed_type_inv _ _ _ _ _ Ht) in Hplaced as [-> ->]. simpl in *.
  unfold WalkEnum. case_bool_decide as Hs.
  { apply wp_continue; [done|]. eapply conforms_plain; [done|]. simpl. by apply bool_decide_eq_true. }
  assert (enum_strictness t = kFidlStrictness_Strict) as Hs' by (by destruct (enum_strictness t)).
  pose proof (wf_enum _ _ _ Hwf _ _ Ht Hs') as Hi.
  enough (exists v, integer_value (enum_underlying_type t) m0 pos = Some v /\
    wp match enum_underlying_type t with
       | Uint8 => PtrTo 1 pos | Uint16 => PtrTo 2 pos | Uint32 => PtrTo 4 pos | Uint64 => PtrTo 8 pos
       | Int8 => v ← PtrTo 1 pos; mret (wrap 64 (to_signed 8 v))
       | Int16 => v ← PtrTo 2 pos; mret (wrap 64 (to_signed 16 v))
       | Int32 => v ← PtrTo 4 pos; mret (wrap 64 (to_signed 32 v))
       | Int64 => v ← PtrTo 8 pos; mret (wrap 64 (to_signed 64 v))
       | _ => undefined end s (fun v' s' => v' = v /\ s' = s)) as (v & Hv & Hwp).
  - apply wp_bind. eapply wp_mono; [exact Hwp|]. intros ? ? [-> ->].
    destruct (validate t v) eqn:Hval; simpl.
    + apply wp_continue; [done|]. eapply conforms_enum; eauto.
    + apply wp_reject; [done|]. refute.
  - destruct (enum_underlying_type t) eqn:Hu; try done; simpl in *;
      match goal with |- context [load ?n m0 pos] => destruct (ready_load _ _ _ _ n pos H) as (v & Hv & Hv0); [lia..|] end;
      rewrite Hv0; eexists; (split; [done|]);
      first [by apply (wp_PtrTo _ _ _ _ _ Hv) | apply wp_bind, (wp_PtrTo _ _ _ _ _ Hv); by apply wp_ret].
Qed.

Lemma WalkBits_ok ty t pos d :
  tbl !! ty = Some (TypeBits t) -> spec (IType ty pos) d (WalkBits t pos).
Proof.
  intros Ht a b s H. ready_facts H. apply (placed_type_inv _ _ _ _ _ Ht) in Hplaced as [-> ->]. simpl in *.
  unfold WalkBits. case_bool_decide as Hs.
  { apply wp_continue; [done|]. eapply conforms_plain; [done|]. simpl. by apply bool_decide_eq_true. }
  assert (bits_strictness t = kFidlStrictness_Strict) as Hs' by (by destruct (bits_strictness t)).
  pose proof (wf_bits _ _ _ Hwf _ _ Ht Hs') as Hi.
  enough (exists v, integer_value (bits_underlying_type t) m0 pos = Some v /\
    wp match bits_underlying_type t with
       | Uint8 => PtrTo 1 pos | Uint16 => PtrTo 2 pos | Uint32 => PtrTo 4 pos | Uint64 => PtrTo 8 pos
       | _ => undefined end s (fun v' s' => v' = v /\ s' = s)) as (v & Hv & Hwp).
  - apply wp_bind. eapply wp_mono; [exact Hwp|]. intros ? ? [-> ->].
    destruct (Z.eqb_spec (Z.land v (∁[64] (bits_mask t))) 0); simpl.
    + apply wp_continue; [done|]. eapply conforms_bits; eauto.
    + apply wp_reject; [done|]. refute.
  - destruct (bits_underlying_type t) eqn:Hu; try done; simpl in *;
      match goal with |- context [load ?n m0 pos] => destruct (ready_load _ _ _ _ n pos H) as (v & Hv & Hv0); [lia..|] end;
      rewrite Hv0; eexists; (split; [done|]); apply (wp_PtrTo _ _ _ _ _ Hv); auto.
Qed.

Lemma WalkHandle_ok ty t pos d :
  tbl !! ty = Some (TypeHandle t) -> spec (IType ty pos) d (WalkHandle t pos).
Proof.
  intros Ht a b s H. ready_facts H. apply (placed_type_inv _ _ _ _ _ Ht) in Hplaced as [-> ->]. simpl in *.
  pose proof handle_present_range.
  unfold WalkHandle. rd_step H 4%nat pos v Hv Hv0. unfold ZX_HANDLE_INVALID. destruct (Z.eqb_spec v 0) as [->|Hnz].
  - destruct (handle_nullable t) eqn:Hn; simpl.
    + apply wp_continue; [done|]. by eapply conforms_handle_null.
    + apply wp_reject; [done|]. refute.
  - apply wp_bind. eapply wp_mono; [apply VisitHandle_law; [done|unfold slot_ok; lia|pose proof (ready_room _ _ _ _ H); lia]|].
    intros st s' Hpost. destruct st; simpl in Hpost.
    + destruct Hpost as (Hp & HI' & Hc & He). simpl. apply wp_ret. eexists. split; [|by eauto].
      rewrite Hc. eapply conforms_handle; [done|]. congruence.
    + destruct Hpost as [Hf Hp]. apply wp_guard_fail; [done..|]. no_conf; [done..|]. apply Hp. congruence.
    + destruct Hpost as [Hf Hp]. apply wp_guard_fail; [done..|]. no_conf; [done..|]. apply Hp. congruence.
Qed.

(** A visited pointer: either the rest of the walk runs from the new cursor, or
    no pointee is acceptable. *)
Lemma wp_pointer x a b p pt slot size mc d s (k : Position -> ST S Result) :
  ready x a b s -> a <= slot -> slot + 8 <= b -> fits 32 size ->
  (forall ps c', conf x d (cur s) ps c' -> exists c1, pointee_ok m0 (cur s) pt slot size c1) ->
  (forall s1, Inv s1 -> pointee_ok m0 (cur s) pt slot size (cur s1) -> effect [PPointer slot (ool (cur s))] s s1 ->
     wp (k (ool (cur s))) s1 (post x d s)) ->
  wp ('(st, pos) ← VisitPointer p pt slot size mc; FIDL_STATUS_GUARD st (k pos)) s (post x d s).
Proof.
  intros H Ha Hb Hsize Hno Hk. ready_facts H.
  assert (forall c', pointee_ok (message s) (cur s) pt slot size c' <-> pointee_ok m0 (cur s) pt slot size c') as Hag.
  { intros c'. apply pointee_agree; [done| |apply (ready_rest _ _ _ _ H)|mlia].
    eapply agree_sub; [apply (ready_inline _ _ _ _ H)|lia..]. }
  apply wp_bind. eapply wp_mono; [apply VisitPointer_law; [done| unfold slot_ok; lia | done]|].
  intros [st pos] s1 Hpost. destruct st.
  - destruct Hpost as (-> & HI1 & Hp & He). simpl. apply Hk; [done| |done]. by apply Hag.
  - destruct Hpost as [Hf Hp]. apply wp_guard_fail; [done..|].
    intros ps c' (c1 & Hc1)%Hno. by apply Hag, Hp in Hc1.
  - destruct Hpost as [Hf Hp]. apply wp_guard_fail; [done..|].
    intros ps c' (c1 & Hc1)%Hno. by apply Hag, Hp in Hc1.
Qed.

Lemma WalkString_ok ty t pos d :
  0 <= d <= FIDL_MAX_DEPTH -> tbl !! ty = Some (TypeString t) -> spec (IType ty pos) d (WalkString t pos d).
Proof.
  intros Hd Ht a b s H. ready_facts H. apply (placed_type_inv _ _ _ _ _ Ht) in Hplaced as [-> ->]. simpl in *.
  pose proof alloc_present_range. pose proof (wf_string _ _ _ Hwf _ _ Ht) as Hmax.
  unfold sizeof_fidl_string_t in *. unfold WalkString.
  rd_step H 8%nat pos sz Hv Hv0.
  apply wp_bind. eapply wp_mono; [by apply VisitCount_law|]. intros ? ? [-> ->]. simpl.
  rd_step H 8%nat (pos + 8) data Hd1 Hd0. destruct (Z.eqb_spec data 0) as [->|Hdata].
  - destruct (Z.eqb_spec sz 0) as [->|]; simpl; [|apply wp_reject; [done|]; refute].
    destruct (string_nullable t) eqn:Hn; simpl; [apply wp_continue; [done|]; by eapply conforms_string_null|].
    apply wp_depth; [done..| |].
    { refute. }
    intros _. apply wp_bind. eapply wp_mono; [by apply VisitAbsent_law|]. intros st s' [Hst Hf].
    apply wp_guard_fail; [done..|]. refute.
  - destruct (Z.ltb_spec (2 ^ 32 - 1) sz).
    { apply wp_bind. eapply wp_mono; [by apply OnError_law|]. intros ? s' Hf.
      apply (wp_guard_fail kMemoryError (mret kContinue)); [done..|]. refute. }
    destruct (Z.ltb_spec (max_size t) sz); [apply wp_reject; [done|]; refute|].
    apply wp_depth; [done..| |].
    { refute. }
    intros Hdlt. pose proof (load_nonneg _ _ _ _ Hm0 Hv0).
    rewrite wrap_small by mlia.
    eapply (wp_pointer _ _ _ _ kString _ _ _ _ _ (fun _ => mret kContinue) H); [lia..|mlia| |].
    { no_conf; [done..|]. exists c''. split; [done|]. split; [done|]. eauto. }
    intros s1 HI1 (Ho & Hp & Hstr) He. destruct (Hstr eq_refl) as (str & Hr & Hval).
    apply wp_ret. eexists. split; [|by eauto]. eapply conforms_string; eauto.
Qed.


(** *** Walks that call back into the walker *)

(** What a recursive call is known to do. *)
Definition good (WI : type_ptr -> Position -> Z -> ST S Result) (d : Z) (ty : type_ptr) : Prop :=
  forall pos, spec (IType ty pos) d (WI ty pos d).

(** One item after another. *)
Lemma wp_seq x1 d1 a1 b1 x d s run rest :
  wp run s (post x1 d1 s) -> ready x1 a1 b1 s ->
  (forall ps c', conf x d (cur s) ps c' -> exists ps1 c1, conf x1 d1 (cur s) ps1 c1 /\ hidx c1 <= hidx c') ->
  (forall ps1 s1, conf x1 d1 (cur s) ps1 (cur s1) -> Inv s1 -> effect ps1 s s1 -> bounded m0 a1 b1 (cur s) ps1 (cur s1) ->
     wp rest s1 (post x d s)) ->
  wp (r ← run; FIDL_RESULT_GUARD r rest) s (post x d s).
Proof.
  intros Hrun Hready Hinv Hrest. apply wp_bind. eapply wp_mono; [exact Hrun|]. intros [] s1 Hp; simpl in Hp.
  - destruct Hp as (ps1 & Hc & HI1 & He). simpl. eapply Hrest; eauto.
    eapply conforms_bounded; eauto. apply (ready_placed _ _ _ _ Hready).
  - destruct Hp as [Hf Hp]. apply wp_ret. split; [done|].
    intros ps c' (ps1 & c1 & Hc1 & Hh)%Hinv. apply Hp in Hc1 as [|]; [left; lia | by right].
Qed.

(** A part of a ready item is ready. *)
Lemma ready_sub x x1 a b a1 b1 s :
  ready x a b s -> placed tbl x1 a1 b1 -> 0 <= item_pos x1 -> a <= a1 -> b1 <= b -> ready x1 a1 b1 s.
Proof.
  intros H Hp1 Hpos1 Ha Hb. ready_facts H. pose proof (ready_room _ _ _ _ H).
  split; try done; try lia; [|apply (ready_rest _ _ _ _ H)].
  eapply agree_sub; [apply (ready_inline _ _ _ _ H)|lia..].
Qed.

(** After the first item the rest is ready. *)
Lemma ready_next x x2 a b a1 b1 a2 b2 s ps1 s1 :
  ready x a b s -> Inv s1 -> effect ps1 s s1 -> bounded m0 a1 b1 (cur s) ps1 (cur s1) ->
  placed tbl x2 a2 b2 -> 0 <= item_pos x2 -> a <= a1 -> a1 <= b1 -> b1 <= a2 -> b2 <= b -> ready x2 a2 b2 s1.
Proof.
  intros H HI1 He Hb Hp2 Hpos2 Ha Hab1 H12 Hb2. ready_facts H. destruct Hb.
  pose proof (placed_le tbl rank R Hwf _ _ _ Hp2). pose proof (ready_room _ _ _ _ H).
  split; try done; try lia.
  - eapply agree_effect; [done..| |lia|lia]. eapply agree_sub; [apply (ready_inline _ _ _ _ H)|lia..].
  - eapply agree_effect; [done..| |lia|lia]. eapply agree_sub; [apply (ready_rest _ _ _ _ H)|lia..].
Qed.

(** Chaining two outcomes. *)
Lemma post_seq x2 d2 x d s ps1 s1 r s2 :
  effect ps1 s s1 -> post x2 d2 s1 r s2 ->
  (forall ps2, conf x2 d2 (cur s1) ps2 (cur s2) -> conf x d (cur s) (ps1 ++ ps2) (cur s2)) ->
  (forall ps c', conf x d (cur s) ps c' -> exists ps2, conf x2 d2 (cur s1) ps2 c') ->
  post x d s r s2.
Proof.
  intros He Hp Hmk Hinv. destruct r; simpl in *.
  - destruct Hp as (ps2 & Hc & HI & He2). eexists. split; [by apply Hmk|]. eauto using effect_app.
  - destruct Hp as [Hf Hp]. split; [done|]. intros ps c' (ps2 & Hc)%Hinv. eauto.
Qed.

Lemma WalkElements_ok WI es pos d :
  (forall f o r t, Field f o r ∈ es -> tbl !! f = Some t -> good WI d f) -> spec (IElements es pos) d (WalkElements WI es pos d).
Proof.
  destruct v_flags as (Hflag & _).
  induction es as [|e es IH]; intros Hgood a b s H; simpl.
  { apply wp_continue; [apply (ready_inv _ _ _ _ H)|constructor]. }
  rewrite Hflag. cbn [andb]. ready_facts H. destruct Hplaced as (off & size & W & -> & ->).
  assert (spec (IElements es pos) d (WalkElements WI es pos d)) as Hrest.
  { apply IH. intros f o r t Hin. eapply Hgood. by right. }
  destruct (padding_of e) as [[[w o] mask]|] eqn:He.
  - pose proof (wf_elements_padding _ _ _ _ _ _ _ _ He W) as (Ho & How & Hfit & Hlow & W').
    assert (padding_ok w (message s) (pos + o) mask <-> padding_ok w m0 (pos + o) mask) as Hag.
    { eapply padding_agree; [done|apply Inv_message, HI|done|apply (ready_inline _ _ _ _ H)|lia|done|].
      replace (pos + off - (pos + o)) with (off - o) by lia. done. }
    assert (wp (status ← VisitInternalPadding w (pos + o) mask; FIDL_STATUS_GUARD status (WalkElements WI es pos d)) s
              (post (IElements (e :: es) pos) d s)) as Hwp.
    { apply wp_bind. eapply wp_mono; [apply VisitPadding_law; [done|unfold slot_ok; lia]|].
      intros st s' Hst. destruct st; simpl in Hst.
      - destruct Hst as [Hok ->]. simpl. eapply wp_mono; [apply (Hrest (pos + off) (pos + size))|].
        { destruct H. split; try done. by exists off, size. }
        intros r s2 Hp. eapply (post_seq _ _ _ _ _ [] s); [apply effect_nil|exact Hp| |].
        + intros ps2 Hc. eapply conforms_elements_padding; [done|by apply Hag|done].
        + no_conf. eauto.
      - destruct Hst as [Hf Hno]. apply wp_guard_fail; [done..|]. no_conf. exfalso. by apply Hno, Hag.
      - destruct Hst as [Hf Hno]. apply wp_guard_fail; [done..|]. no_conf. exfalso. by apply Hno, Hag. }
    destruct e; simplify_eq/=; exact Hwp.
  - destruct e as [ty o r| | |]; try done. clear He.
    pose proof (wf_elements_field _ _ _ Hwf _ _ _ _ _ _ W) as (sz & Hs & Hs1 & Ho & Hosz & W').
    assert (placed tbl (IType ty (pos + o)) (pos + o) (pos + o + sz)) as Hp1 by (by exists sz).
    assert (placed tbl (IElements es pos) (pos + (o + sz)) (pos + size)) as Hp2 by (by exists (o + sz), size).
    assert (ready (IType ty (pos + o)) (pos + o) (pos + o + sz) s) as Hr1.
    { eapply ready_sub; [done..|simpl; lia|lia|lia]. }
    pose proof (size_of_Some _ _ _ Hs) as (t' & Ht' & _).
    eapply wp_seq; [eapply Hgood; [by left|exact Ht'|exact Hr1] | exact Hr1 | |].
    + no_conf. do 2 eexists. split; [done|]. by eapply conf_hidx.
    + intros ps1 s1 Hc1 HI1 He Hb.
      assert (ready (IElements es pos) (pos + (o + sz)) (pos + size) s1) as Hr2.
      { eapply (ready_next _ _ _ _ _ _ _ _ s); [exact H|done|exact He|exact Hb|done|simpl; lia..]. }
      eapply wp_mono; [eapply Hrest, Hr2|].
      intros r' s2 Hp. eapply post_seq; [exact He|exact Hp| |].
      * intros ps2 Hc2. by econstructor.
      * no_conf. match goal with H : conf (IType _ _) _ _ _ ?c1 |- _ => destruct (conforms_det _ _ _ _ _ _ _ _ _ Hc1 H) as [-> ->] end. eauto.
Qed.

Lemma WalkStruct_ok WI ty t pos d :
  tbl !! ty = Some (TypeStruct t) -> (forall f t', (rank f < rank ty)%nat -> tbl !! f = Some t' -> good WI d f) ->
  spec (IType ty pos) d (WalkStruct WI t pos d).
Proof.
  intros Ht Hgood a b s H. ready_facts H. apply (placed_type_inv _ _ _ _ _ Ht) in Hplaced as [-> ->].
  pose proof (wf_size _ _ _ Hwf _ _ Ht) as Hsz. pose proof (wf_struct _ _ _ Hwf _ _ Ht) as [_ Hrank]. simpl in *.
  assert ((is_empty t = true -> load 1 m0 pos = Some 0) ->
    wp (WalkElements WI (elements t) pos d) s (post (IType ty pos) d s)) as Hels.
  { intros Hemp. eapply wp_mono.
    - apply (WalkElements_ok WI (elements t) pos d) with pos (pos + size_v2 t); [eauto|].
      eapply ready_sub; [exact H|by eapply placed_struct|simpl; lia..].
    - intros r s' Hp. eapply (post_seq _ _ _ _ _ [] s); [apply effect_nil|exact Hp| |].
      + intros ps2 Hc. by eapply conforms_struct.
      + no_conf. eauto. }
  unfold WalkStruct. destruct (is_empty t) eqn:Hemp; [|by apply Hels].
  rd_step H 1%nat pos v Hv Hv0. destruct (Z.eqb_spec v 0) as [->|]; simpl; [by apply Hels|].
  apply wp_reject; [done|]. no_conf; try done.
  match goal with H : _ -> load 1 m0 pos = Some 0 |- _ => specialize (H Hemp) end. congruence.
Qed.

(** The out-of-line object behind a visited pointer is ready. *)
Lemma ready_pointee x a b slot size s s1 x1 :
  ready x a b s -> a <= slot -> slot + 8 <= b -> 0 <= size ->
  Inv s1 -> out_of_line m0 (cur s) size (cur s1) -> effect [PPointer slot (ool (cur s))] s s1 ->
  placed tbl x1 (ool (cur s)) (ool (cur s) + size) -> 0 <= item_pos x1 ->
  ready x1 (ool (cur s)) (ool (cur s) + size) s1.
Proof.
  intros H Ha Hb Hsize HI1 Ho He Hp1 Hpos1. ready_facts H. pose proof (ready_room _ _ _ _ H).
  pose proof (out_of_line_bounds _ _ _ _ Hsize Ho) as (?&?&?&?).
  assert (forall lo, b <= lo -> ool (cur s) <= lo -> agree m0 (message s1) lo v_len) as Hag.
  { intros lo Hlo1 Hlo2. eapply (agree_effect _ s s1 a b (cur s) (cur s)); [done| | |lia|lia].
    - constructor; [|done]. left. unfold within. simpl. lia.
    - eapply agree_sub; [apply (ready_rest _ _ _ _ H)|lia..]. }
  split; try done; try lia; [|by apply Hag; lia].
  eapply agree_sub; [by apply (Hag (ool (cur s))); lia|lia|lia].
Qed.

Lemma WalkStructPointer_ok WI ty t pos d :
  0 <= d <= FIDL_MAX_DEPTH -> tbl !! ty = Some (TypeStructPointer t) ->
  (d < FIDL_MAX_DEPTH -> forall ty' t', tbl !! ty' = Some t' -> good WI (d + 1) ty') ->
  spec (IType ty pos) d (WalkStructPointer tbl WI t pos d).
Proof.
  intros Hd Ht Hgood a b s H. ready_facts H. apply (placed_type_inv _ _ _ _ _ Ht) in Hplaced as [-> ->]. simpl in *.
  destruct (wf_pointer _ _ _ Hwf _ _ Ht) as [st Hst]. pose proof alloc_present_range.
  pose proof (wf_size _ _ _ Hwf _ _ Hst) as Hsz. simpl in Hsz.
  unfold WalkStructPointer. rd_step H 8%nat pos v Hv Hv0. destruct (Z.eqb_spec v 0) as [->|Hnz].
  { apply wp_continue; [done|]. by eapply conforms_pointer_null. }
  apply wp_depth; [done..| |].
  { refute. }
  intros Hlt. rewrite Hst.
  eapply (wp_pointer _ _ _ _ kOther _ _ _ _ _ (fun p => WalkStruct WI st p (INCREASE_DEPTH d)) H); [lia..|mlia| |].
  { no_conf; try done. eexists. split; [done|]. split; [done|]. discriminate. }
  intros s1 HI1 (Ho & Hp & _) He. pose proof max_depth_range.
  unfold INCREASE_DEPTH. rewrite wrap_small by mlia.
  eapply wp_mono; [eapply (WalkStruct_ok WI (struct_type t) st (ool (cur s)) (d + 1) Hst)|].
  - eauto.
  - eapply (ready_pointee _ _ _ pos (size_v2 st)); [done|lia|lia|lia|done..|by apply (placed_type _ _ (TypeStruct st))|simpl; lia].
  - intros r s2 Hpost. eapply (post_seq _ _ _ _ _ [PPointer pos (ool (cur s))]); [done..| |].
    + intros ps2 Hc. eapply conforms_pointer; eauto.
    + no_conf; try done. assert (c1 = cur s1) as -> by (by eapply out_of_line_det). eauto.
Qed.

(** Sequencing with determinism: what follows the first item is fixed. *)
Ltac follow Hc1 :=
  match goal with
  | H : conforms tbl m0 ?x ?d ?c _ _ |- _ =>
      lazymatch type of Hc1 with
      | conforms tbl m0 x d c _ _ => destruct (conforms_det _ _ _ _ _ _ _ _ _ Hc1 H) as [-> ->]
      end
  end.

Lemma iterate_ok WI ty pos stride endo d :
  good WI d ty -> endo < 2 ^ 32 ->
  forall n offset fuel, offset + Z.of_nat n * stride = endo -> 0 <= offset -> 0 <= pos -> (n < fuel)%nat ->
  spec (IArray n (Some ty) (pos + offset) stride) d (iterate WI fuel ty pos offset stride endo d).
Proof.
  intros Hgood Hend n. induction n as [|n IH]; intros offset fuel Hoff Ho Hp Hfuel a b s H;
    (destruct fuel as [|fuel]; [lia|]); simpl; ready_facts H.
  { destruct (Z.ltb_spec offset endo); [lia|]. apply wp_continue; [done|constructor]. }
  destruct Hplaced as ((sz & Hs & Hle) & Hst & -> & ->).
  destruct (Z.ltb_spec offset endo); [|nia].
  assert (placed tbl (IType ty (pos + offset)) (pos + offset) (pos + offset + sz)) as Hp1 by (by exists sz).
  assert (placed tbl (IArray n (Some ty) (pos + offset + stride) stride) (pos + offset + stride)
    (pos + offset + Z.of_nat (Datatypes.S n) * stride)) as Hp2.
  { split; [by exists sz|]. repeat split; lia. }
  assert (ready (IType ty (pos + offset)) (pos + offset) (pos + offset + sz) s) as Hr1.
  { eapply ready_sub; [done..|nia]. }
  eapply wp_seq; [eapply Hgood, Hr1 | exact Hr1 | |].
  - no_conf. do 2 eexists. split; [done|]. by eapply conf_hidx.
  - intros ps1 s1 Hc1 HI1 He Hb. rewrite wrap_small by (unfold fits; nia).
    pose proof (placed_le _ _ _ Hwf _ _ _ Hp1).
    eapply wp_mono; [apply (IH (offset + stride)) with (pos + offset + stride) (pos + offset + Z.of_nat (Datatypes.S n) * stride); try lia|].
    + rewrite Z.add_assoc. eapply (ready_next _ _ _ _ _ _ _ _ s); [exact H|done|exact He|exact Hb|done|simpl; lia..].
    + rewrite Z.add_assoc. intros r' s2 Hpost. eapply post_seq; [exact He|exact Hpost| |].
      * intros ps2 Hc2. by econstructor.
      * no_conf. follow Hc1. eauto.
Qed.

Lemma conforms_plain_array ty t n pos stride d c :
  tbl !! ty = Some t -> plain t = true -> conf (IArray n (Some ty) pos stride) d c [] c.
Proof.
  intros Ht Hp. revert pos. induction n as [|n IH]; intros pos; [constructor|].
  change (@nil patch) with (@nil patch ++ []). econstructor; [by eapply conforms_plain | apply IH].
Qed.

Lemma WalkIterableInternal_ok WI e n pos stride d :
  match e with Some ty => forall t, tbl !! ty = Some t -> good WI d ty | None => True end ->
  Z.of_nat n * stride < 2 ^ 32 ->
  spec (IArray n e pos stride) d (WalkIterableInternal tbl WI e pos stride (Z.of_nat n * stride) d).
Proof.
  intros Hgood Hend a b s H. ready_facts H. unfold WalkIterableInternal. destruct e as [ty|].
  2: { apply wp_continue; [done|constructor]. }
  destruct Hplaced as ((sz & Hs & Hle) & Hst & -> & ->). pose proof (size_of_Some _ _ _ Hs) as (t & Ht & _). rewrite Ht.
  destruct (match t with TypePrimitive p => negb (NeedWalkPrimitive (primitive_type p)) | _ => false end) eqn:Hskip.
  - apply wp_continue; [done|]. eapply conforms_plain_array; [done|].
    destruct t as [t| | | | | | | | | |]; try done. simpl. by destruct (primitive_type t).
  - eapply wp_mono; [eapply (iterate_ok WI ty pos stride _ d (Hgood _ Ht) Hend n 0); try nia|].
    + rewrite Z.add_0_r. exact H.
    + by rewrite Z.add_0_r.
Qed.

Lemma WalkArray_ok WI ty t pos d :
  tbl !! ty = Some (TypeArray t) -> (forall f t', (rank f < rank ty)%nat -> tbl !! f = Some t' -> good WI d f) ->
  spec (IType ty pos) d (WalkArray tbl WI t pos d).
Proof.
  intros Ht Hgood a b s H. ready_facts H. apply (placed_type_inv _ _ _ _ _ Ht) in Hplaced as [-> ->].
  pose proof (wf_size _ _ _ Hwf _ _ Ht) as Hsz. pose proof (wf_array _ _ _ Hwf _ _ Ht) as (Hel & Hmod & He). simpl in *.
  unfold WalkArray. set (n := Z.to_nat (array_size_v2 t / array_element_size_v2 t)).
  assert (Z.of_nat n * array_element_size_v2 t = array_size_v2 t) as En.
  { unfold n. rewrite Z2Nat.id by (apply Z.div_pos; lia). pose proof (Z.div_mod (array_size_v2 t) (array_element_size_v2 t)). nia. }
  rewrite <- En.
  eapply wp_mono; [apply (WalkIterableInternal_ok WI (array_element t) n pos (array_element_size_v2 t) d) with pos (pos + array_size_v2 t)|].
  - destruct (array_element t); [|done]. intros t' Ht'. eapply Hgood; [apply He|done].
  - lia.
  - eapply ready_sub; [exact H|by eapply placed_array|simpl; lia..].
  - intros r s' Hp. eapply (post_seq _ _ _ _ _ [] s); [apply effect_nil|exact Hp| |].
    + intros ps2 Hc. by eapply conforms_array.
    + no_conf; try done. eauto.
Qed.

Lemma WalkVector_ok WI ty t pos d :
  0 <= d <= FIDL_MAX_DEPTH -> tbl !! ty = Some (TypeVector t) ->
  (d < FIDL_MAX_DEPTH -> forall ty' t', tbl !! ty' = Some t' -> good WI (d + 1) ty') ->
  spec (IType ty pos) d (WalkVector tbl WI t pos d).
Proof.
  intros Hd Ht Hgood a b s H. ready_facts H. apply (placed_type_inv _ _ _ _ _ Ht) in Hplaced as [-> ->]. simpl in *.
  pose proof alloc_present_range. pose proof (wf_vector _ _ _ Hwf _ _ Ht) as (Hel & Hmax & _).
  unfold sizeof_fidl_vector_t in *. unfold WalkVector.
  rd_step H 8%nat pos count Hv Hv0.
  apply wp_bind. eapply wp_mono; [by apply VisitCount_law|]. intros ? ? [-> ->]. simpl.
  rd_step H 8%nat (pos + 8) data Hd1 Hd0. destruct (Z.eqb_spec data 0) as [->|Hdata].
  { destruct (Z.eqb_spec count 0) as [->|]; simpl; [|apply wp_reject; [done|]; refute].
    destruct (vector_nullable t) eqn:Hn; simpl; [apply wp_continue; [done|]; by eapply conforms_vector_null|].
    apply wp_depth; [done..| |].
    { refute. }
    intros _. apply wp_bind. eapply wp_mono; [by apply VisitAbsent_law|]. intros st s' [Hst Hf].
    apply wp_guard_fail; [done..|]. refute. }
  destruct (Z.ltb_spec (max_count t) count); [apply wp_reject; [done|]; refute|].
  pose proof (load_nonneg _ _ _ _ Hm0 Hv0). pose proof v_len_bound.
  unfold mul_overflow. destruct (checked 32 _) as [size|] eqn:Ech.
  2: { apply checked_None in Ech. apply wp_reject; [done|]. no_conf; try done.
       match goal with H : out_of_line _ _ _ _ |- _ => apply out_of_line_bounds in H; [|nia] end. unfold fits in Ech. nia. }
  apply checked_Some in Ech as [-> Hfit].
  apply wp_depth; [done..| |].
  { refute. }
  intros Hlt. pose proof max_depth_range. unfold INCREASE_DEPTH. rewrite (wrap_small 8 (d + 1)) by mlia.
  eapply (wp_pointer _ _ _ _ kVector _ _ _ _ _ (fun p => if 2 ^ 32 - 1 <? count then undefined else
     WalkIterableInternal tbl WI (vector_element t) p (vector_element_size_v2 t)
       (wrap 32 count ⊗[32] vector_element_size_v2 t) (d + 1)) H); [lia..|done| |].
  { no_conf; try done. eexists. split; [done|]. split; [done|]. discriminate. }
  intros s1 HI1 (Ho & Hp & _) He. destruct (Z.ltb_spec (2 ^ 32 - 1) count); [mlia|].
  rewrite (wrap_small 32 count) by mlia. rewrite (wrap_small 32 (_ * _)) by done.
  replace (count * vector_element_size_v2 t) with (Z.of_nat (Z.to_nat count) * vector_element_size_v2 t) by lia.
  eapply wp_mono; [eapply WalkIterableInternal_ok|].
  - destruct (vector_element t); [|done]. intros t' Ht'. by eapply Hgood.
  - rewrite Z2Nat.id by done. mlia.
  - eapply (ready_pointee _ _ _ (pos + 8) (count * vector_element_size_v2 t)); [done|lia|lia|mlia|done..|by eapply placed_vector|simpl; lia].
  - intros r s2 Hpost. eapply (post_seq _ _ _ _ _ [PPointer (pos + 8) (ool (cur s))]); [done..| |].
    + intros ps2 Hc. eapply conforms_vector; eauto.
    + no_conf; try done. assert (c1 = cur s1) as -> by (by eapply out_of_line_det). eauto.
Qed.


(** *** Envelopes *)

Lemma inline_padding_ok size mask pos :
  inline_padding size = Some mask -> 0 <= pos -> pos + 4 <= len m0 ->
  padding_ok 4 m0 pos mask <-> zeros m0 (pos + size) (pos + 4).
Proof.
  intros Hmask Hp Hl. unfold inline_padding in Hmask.
  assert (1 <= size <= 4 /\ mask = Z.shiftl (Z.ones (8 * (Z.of_nat 4 - size))) (8 * size)) as [Hs ->].
  { repeat case_match; simplify_eq; rewrite ?Z.eqb_eq in *; subst; (split; [lia|reflexivity]). }
  apply (padding_high 4 size); [done|lia..].
Qed.

(** The end of an envelope's payload: the header must state what was consumed. *)
Lemma wp_leave x d s s1 ps cp pos envelope (inl : bool) :
  Inv s -> Inv s1 -> at_checkpoint cp (cur s) -> effect ps s s1 ->
  ool (cur s) <= ool (cur s1) -> hidx (cur s) <= hidx (cur s1) -> hidx (cur s1) < 2 ^ 32 ->
  let counts := (inl = false -> env_num_bytes envelope = ool (cur s1) - ool (cur s)) /\
                env_num_handles envelope = hidx (cur s1) - hidx (cur s) in
  (counts -> conf x d (cur s) ps (cur s1)) -> (forall ps' c', conf x d (cur s) ps' c' -> counts) ->
  wp (st ← (if inl then LeaveInlinedEnvelope else LeaveEnvelope) envelope pos cp; FIDL_STATUS_GUARD st (mret kContinue))
    s1 (post x d s).
Proof.
  intros HI HI1 Hcp He Hool Hh Hh32 counts Hmk Hno.
  pose proof (Inv_cursor _ HI) as (?&_&_&?). apply wp_bind. eapply wp_mono.
  { instantiate (1 := fun st s' => match st with kSuccess => counts /\ s' = s1 | _ => failed s' /\ ~ counts end). unfold counts. destruct inl.
    - eapply wp_mono; [by apply LeaveInlinedEnvelope_law; try done; lia|]. intros [] s' Hp; intuition congruence.
    - eapply wp_mono; [by apply LeaveEnvelope_law; try done; lia|]. intros [] s' Hp; tauto. }
  intros st s' Hp. destruct st.
  - destruct Hp as [Hc ->]. simpl. apply wp_ret. exists ps. auto.
  - destruct Hp as [Hf Hc]. apply wp_guard_fail; [done..|]. intros ps' c' Hconf. by apply Hno in Hconf.
  - destruct Hp as [Hf Hc]. apply wp_guard_fail; [done..|]. intros ps' c' Hconf. by apply Hno in Hconf.
Qed.

(** An envelope whose payload has a known type. *)
Lemma WalkEnvelope_known WI ty t r pos d s envelope cp :
  0 <= d <= FIDL_MAX_DEPTH -> tbl !! ty = Some t ->
  (d < FIDL_MAX_DEPTH -> forall ty' t', tbl !! ty' = Some t' -> good WI (d + 1) ty') ->
  ready (IEnvelope (Some ty) r pos) pos (pos + 8) s -> load 8 (message s) pos = Some envelope -> load 8 m0 pos = Some envelope ->
  envelope <> 0 -> at_checkpoint cp (cur s) ->
  env_flags envelope = FIDL_ENVELOPE_FLAGS_INLINING_MASK \/ env_flags envelope = 0 ->
  TypeSize t <= 4 <-> env_flags envelope = FIDL_ENVELOPE_FLAGS_INLINING_MASK ->
  wp (if TypeSize t <=? 4 then
        FIDL_DEPTH_GUARD (INCREASE_DEPTH d) (
        padding ← lift (inline_padding (TypeSize t));
        status ← VisitInternalPadding 4 pos padding;
        FIDL_STATUS_GUARD status (
        result ← WI ty pos (INCREASE_DEPTH d);
        FIDL_RESULT_GUARD result (
        status ← LeaveInlinedEnvelope envelope pos cp; FIDL_STATUS_GUARD status (mret kContinue))))
      else
        FIDL_DEPTH_GUARD (INCREASE_DEPTH d) (
        '(status, obj_position) ← VisitPointer pos kEnvelope pos (TypeSize t) kFidlMemcpyCompatibility_CannotMemcpy;
        FIDL_STATUS_GUARD status (
        result ← WI ty obj_position (INCREASE_DEPTH d);
        FIDL_RESULT_GUARD result (
        status ← LeaveEnvelope envelope pos cp; FIDL_STATUS_GUARD status (mret kContinue)))))
    s (post (IEnvelope (Some ty) r pos) d s).
Proof.
  intros Hd Ht Hgood H Hv Hv0 Hnz Hcp Hflags Hinl. ready_facts H. pose proof (ready_room _ _ _ _ H) as Hroom.
  pose proof (wf_size _ _ _ Hwf _ _ Ht) as Hsz. pose proof max_depth_range. pose proof inlining_mask_1. pose proof threshold_4.
  destruct (Z.leb_spec (TypeSize t) 4) as [Hle|Hgt].
  - apply wp_depth; [done..|refute|]. intros Hlt. unfold INCREASE_DEPTH. rewrite (wrap_small 8 (d + 1)) by mlia.
    assert (exists mask, inline_padding (TypeSize t) = Some mask) as [mask Hmask].
    { unfold inline_padding. repeat case_match; eauto. rewrite !Z.eqb_neq in *. lia. }
    apply wp_bind, (wp_lift _ mask); [done|].
    pose proof (inline_padding_ok _ _ pos Hmask Hlo ltac:(lia)) as Hpad.
    assert (padding_ok 4 (message s) pos mask <-> padding_ok 4 m0 pos mask) as Hag.
    { unfold padding_ok. rewrite (agree_load 4 m0 (message s) pos (pos + 8) pos); [done|done|apply (ready_inline _ _ _ _ H)|lia..]. }
    apply wp_bind. eapply wp_mono; [apply VisitPadding_law; [done|unfold slot_ok; lia]|].
    intros st s' Hst. destruct st; simpl in Hst; cycle 1;
      [destruct Hst as [Hf Hno]; apply wp_guard_fail; [done..|]; no_conf; try lia; exfalso; by apply Hno, Hag, Hpad..|].
    destruct Hst as [Hz%Hag%Hpad ->]. simpl.
    assert (ready (IType ty pos) pos (pos + TypeSize t) s) as Hr1.
    { eapply ready_sub; [exact H|by eapply placed_type|simpl; lia..]. }
    eapply wp_seq; [eapply Hgood; [done|exact Ht|exact Hr1]|exact Hr1| |].
    + no_conf; try lia. eauto with lia.
    + intros ps1 s1 Hc1 HI1 He []. pose proof (Inv_cursor _ HI1) as (?&?&?&?).
      apply (wp_leave _ _ _ _ ps1 _ _ _ true); [done..|lia|intros [_ Hh]|].
      * eapply conforms_envelope_inline; eauto; [tauto|lia].
      * no_conf; try lia. follow Hc1. split; [done|]. lia.
  - apply wp_depth; [done..|refute|]. intros Hlt. unfold INCREASE_DEPTH. rewrite (wrap_small 8 (d + 1)) by mlia.
    eapply (wp_pointer _ _ _ _ kEnvelope _ _ _ _ _ (fun p => result ← WI ty p (d + 1);
        FIDL_RESULT_GUARD result (status ← LeaveEnvelope envelope pos cp; FIDL_STATUS_GUARD status (mret kContinue))) H); [lia..|mlia| |].
    { no_conf; try lia. eexists. split; [done|]. split; [done|]. discriminate. }
    intros s1 HI1 (Ho & _ & _) He1.
    assert (0 <= TypeSize t) as Hsz0 by lia. pose proof (out_of_line_bounds _ _ _ _ Hsz0 Ho) as (?&?&?&?).
    assert (ready (IType ty (ool (cur s))) (ool (cur s)) (ool (cur s) + TypeSize t) s1) as Hr1.
    { eapply (ready_pointee _ _ _ pos); [exact H|lia|lia|lia|done..|by apply placed_type|simpl; lia]. }
    apply wp_bind. eapply wp_mono; [eapply Hgood; [done|exact Ht|exact Hr1]|]. intros [] s2 Hp; simpl in Hp.
    + destruct Hp as (ps2 & Hc2 & HI2 & He2). simpl.
      pose proof (conforms_bounded _ _ _ _ Hwf _ _ _ _ _ _ _ Hm0 Hc2 (ready_placed _ _ _ _ Hr1)) as [].
      pose proof (Inv_cursor _ HI2) as (?&?&?&?).
      apply (wp_leave _ _ _ _ (PPointer pos (ool (cur s)) :: ps2) _ _ _ false); [done..|by eapply (effect_app [_])|lia|lia|lia|intros [Hb Hh]|].
      * eapply conforms_envelope_out_of_line; eauto; [destruct Hflags as [Hm%Hinl|]; [lia|done] | lia].
      * no_conf; try lia. assert (c1 = cur s1) as -> by (by eapply out_of_line_det). follow Hc2. auto.
    + destruct Hp as [Hf Hp]. apply wp_ret. split; [done|]. no_conf; try lia.
      assert (c1 = cur s1) as -> by (by eapply out_of_line_det). eauto.
Qed.

(** An envelope whose payload is not known to the tables. *)
Lemma WalkEnvelope_unknown r pos d s envelope cp :
  0 <= d <= FIDL_MAX_DEPTH ->
  ready (IEnvelope None r pos) pos (pos + 8) s -> load 8 (message s) pos = Some envelope -> load 8 m0 pos = Some envelope ->
  envelope <> 0 -> at_checkpoint cp (cur s) ->
  env_flags envelope = FIDL_ENVELOPE_FLAGS_INLINING_MASK \/ env_flags envelope = 0 ->
  wp (if env_flags envelope =? FIDL_ENVELOPE_FLAGS_INLINING_MASK then
        FIDL_DEPTH_GUARD (INCREASE_DEPTH d) (
        status ← VisitUnknownEnvelope envelope pos r;
        FIDL_STATUS_GUARD status (
        status ← LeaveInlinedEnvelope envelope pos cp; FIDL_STATUS_GUARD status (mret kContinue)))
      else
        FIDL_DEPTH_GUARD (INCREASE_DEPTH d) (
        '(status, obj_position) ← VisitPointer pos kEnvelope pos (env_num_bytes envelope) kFidlMemcpyCompatibility_CannotMemcpy;
        FIDL_STATUS_GUARD status (
        status ← VisitUnknownEnvelope envelope pos r;
        FIDL_STATUS_GUARD status (
        status ← LeaveEnvelope envelope pos cp; FIDL_STATUS_GUARD status (mret kContinue)))))
    s (post (IEnvelope None r pos) d s).
Proof.
  intros Hd H Hv Hv0 Hnz Hcp Hflags. ready_facts H. pose proof (ready_room _ _ _ _ H) as Hroom.
  pose proof max_depth_range. pose proof inlining_mask_1 as Hmask.
  pose proof (env_fields_fit envelope) as ([Hb0 ?] & [? ?] & _).
  destruct (Z.eqb_spec (env_flags envelope) FIDL_ENVELOPE_FLAGS_INLINING_MASK) as [Hinl|Hout].
  - apply wp_depth; [done..|refute|]. intros Hlt.
    apply wp_bind. eapply wp_mono; [apply VisitUnknown_law; [done|unfold slot_ok; lia|lia|by left]|].
    intros st s1 Hst. destruct st; cycle 1;
      [destruct Hst as [Hf Hno]; apply wp_guard_fail; [done..|]; no_conf; try lia; done..|].
    destruct Hst as (HI1 & Hcur & He). cbn [FIDL_STATUS_GUARD].
    apply (wp_leave _ _ s s1 [PUnknown pos envelope r] _ _ _ true); rewrite ?Hcur; cbn [ool hidx]; try done; try lia.
    intros _. by apply conforms_envelope_unknown_inline.
  - assert (env_flags envelope = 0) as Hflag0 by (by destruct Hflags).
    apply wp_depth; [done..|refute|]. intros Hlt.
    eapply (wp_pointer _ _ _ _ kEnvelope _ _ _ _ _ (fun _ => status ← VisitUnknownEnvelope envelope pos r;
        FIDL_STATUS_GUARD status (status ← LeaveEnvelope envelope pos cp; FIDL_STATUS_GUARD status (mret kContinue))) H); [lia..|done| |].
    { no_conf; try lia. eexists. split; [done|]. split; [done|]. discriminate. }
    intros s1 HI1 (Ho & _ & _) He1. pose proof (out_of_line_bounds _ _ _ _ Hb0 Ho) as (?&?&?&?).
    apply wp_bind. eapply wp_mono.
    { apply VisitUnknown_law; [done|unfold slot_ok; lia|lia|]. right. split; [done|]. exists s. split; [done|]. split; [done|lia]. }
    intros st s2 Hst. destruct st; cycle 1;
      [destruct Hst as [Hf Hno]; apply wp_guard_fail; [done..|]; no_conf; try lia; cbn [hidx]; destruct Hno; [left; lia|by right]..|].
    destruct Hst as (HI2 & Hcur & He2). cbn [FIDL_STATUS_GUARD].
    apply (wp_leave _ _ s s2 [PPointer pos (ool (cur s)); PUnknown pos envelope r] _ _ _ false); rewrite ?Hcur; cbn [ool hidx]; try done; try lia.
    + by eapply (effect_app [_] [_]).
    + intros [Hb _]. specialize (Hb eq_refl). replace (hidx (cur s1)) with (hidx (cur s)) by lia.
      by apply conforms_envelope_unknown.
    + no_conf; try lia. assert (c1 = cur s1) as -> by (by eapply out_of_line_det). split; [done|lia].
Qed.

Lemma WalkEnvelope_ok WI payload r pos d :
  0 <= d <= FIDL_MAX_DEPTH ->
  (d < FIDL_MAX_DEPTH -> forall ty' t', tbl !! ty' = Some t' -> good WI (d + 1) ty') ->
  spec (IEnvelope payload r pos) d (WalkEnvelope tbl WI pos payload d r).
Proof.
  intros Hd Hgood a b s H. ready_facts H. destruct Hplaced as (Hpay & -> & ->).
  pose proof inlining_mask_1 as Hmask. pose proof threshold_4 as Hthr. destruct v_flags as (_ & _ & Hval).
  unfold WalkEnvelope. rd_step H 8%nat pos envelope Hv Hv0.
  apply wp_bind. eapply wp_mono; [by apply EnterEnvelope_law|]. intros cp ? [Hcp ->].
  apply wp_bind, (wp_PtrTo _ _ _ _ _ Hv).
  destruct (Z.eqb_spec (env_flags envelope) FIDL_ENVELOPE_FLAGS_INLINING_MASK) as [Hm|Hm],
    (Z.eqb_spec (env_flags envelope) 0) as [Hz|Hz]; cbn [negb andb]; try lia.
  3: { apply wp_reject; [done|]. no_conf; try lia; done. }
  all: assert (env_flags envelope = FIDL_ENVELOPE_FLAGS_INLINING_MASK \/ env_flags envelope = 0) as Hflags by auto.
  all: assert (exists o, payload_size tbl payload = Some o /\
         o = match payload with Some ty => size_of tbl ty | None => None end) as (o & Ho & Ho')
         by (unfold payload_size, size_of; destruct payload; [destruct Hpay as [? ->]; simpl; eauto | eauto]).
  all: apply wp_bind, (wp_lift _ o); [done|].
  all: rewrite Hval, Hthr; unfold FidlIsZeroEnvelope.
  - destruct (Z.eqb_spec envelope 0) as [->|Hnz]; [by rewrite Hmask in Hm|]. cbn [negb andb].
    destruct payload as [ty|]; cycle 1; subst o.
    { pose proof (WalkEnvelope_unknown r pos d s envelope cp Hd H Hv Hv0 Hnz Hcp Hflags) as Hk.
      rewrite (proj2 (Z.eqb_eq _ _) Hm) in Hk. exact Hk. }
    destruct Hpay as [t Ht]. rewrite (size_of_lookup _ _ _ Ht). cbn match. rewrite bool_decide_eq_true_2 by eauto. cbn [andb].
    pose proof (WalkEnvelope_known WI ty t r pos d s envelope cp Hd Ht Hgood H Hv Hv0 Hnz Hcp Hflags) as Hk.
    destruct (Z.leb_spec (TypeSize t) 4); cbn [negb Bool.eqb].
    + apply Hk. tauto.
    + apply wp_reject; [done|]. no_conf; try lia.
  - destruct (Z.eqb_spec envelope 0) as [->|Hnz].
    { cbn [negb andb]. apply wp_bind, (wp_PtrTo _ _ _ _ _ Hv).
      destruct (Z.eqb_spec 0 0); [|done]. cbn [negb].
      apply (wp_leave _ _ s s [] _ _ _ false); try done; try lia; [apply effect_nil|..].
      - pose proof (ready_room _ _ _ _ H). lia.
      - intros _. by apply conforms_envelope_empty.
      - intros _ _ _. rewrite !Z.sub_diag. done. }
    cbn [negb andb]. destruct payload as [ty|]; cycle 1; subst o.
    { pose proof (WalkEnvelope_unknown r pos d s envelope cp Hd H Hv Hv0 Hnz Hcp Hflags) as Hk.
      rewrite (proj2 (Z.eqb_neq _ _) Hm) in Hk. cbn match. apply wp_bind, (wp_PtrTo _ _ _ _ _ Hv).
      rewrite (proj2 (Z.eqb_neq _ _) Hnz). exact Hk. }
    destruct Hpay as [t Ht]. rewrite (size_of_lookup _ _ _ Ht). cbn match. rewrite bool_decide_eq_true_2 by eauto. cbn [andb].
    pose proof (WalkEnvelope_known WI ty t r pos d s envelope cp Hd Ht Hgood H Hv Hv0 Hnz Hcp Hflags) as Hk.
    destruct (Z.leb_spec (TypeSize t) 4); cbn [negb Bool.eqb].
    + apply wp_reject; [done|]. no_conf; try lia.
    + apply wp_bind, (wp_PtrTo _ _ _ _ _ Hv). rewrite (proj2 (Z.eqb_neq _ _) Hnz). apply Hk. lia.
Qed.


(** *** Tables and unions *)

Lemma table_loop_ok WI t position v d count :
  0 <= d <= FIDL_MAX_DEPTH ->
  (d < FIDL_MAX_DEPTH -> forall ty' t', tbl !! ty' = Some t' -> good WI (d + 1) ty') ->
  0 <= position -> position + 8 <= v -> load 8 m0 position = Some count -> count * 8 < 2 ^ 32 ->
  forall n i fields fuel a b s, i + Z.of_nat n = count -> 0 <= i -> (n < fuel)%nat ->
  ready (IEnvelopes n i fields (table_is_resource t) v) a b s -> agree m0 (message s) position (position + 8) ->
  wp (table_loop tbl WI fuel t position v i fields d) s (post (IEnvelopes n i fields (table_is_resource t) v) d s).
Proof.
  intros Hd Hgood Hp0 Hpv Hcount Hc32 n.
  induction n as [|n IH]; intros i fields fuel a b s Hi Hi0 Hfuel H Hag;
    (destruct fuel as [|fuel]; [lia|]); simpl; ready_facts H; destruct Hplaced as (Hfields & -> & ->).
  all: assert (load 8 (message s) position = Some count) as Hv
         by (rewrite <- Hcount; eapply agree_load; [done|exact Hag|lia|lia]).
  all: apply wp_bind, (wp_PtrTo _ _ _ _ _ Hv).
  { destruct (Z.ltb_spec i count); [lia|]. apply wp_continue; [done|constructor]. }
  destruct (Z.ltb_spec i count); [|lia]. rewrite (wrap_small 32 (i + 1)), (wrap_small 32 (i * sizeof_fidl_envelope_v2_t)) by (unfold fits, sizeof_fidl_envelope_v2_t; lia).
  change (i * sizeof_fidl_envelope_v2_t) with (i * 8).
  pose proof (table_payload_placed tbl i _ Hfields) as [Hf2 Hp1].
  assert (exists known rest, match fields with
            | [] => (None, [])
            | f :: fields' => if ordinal f =? i + 1 then (Some f, fields') else (None, fields) end = (known, rest) /\
            (table_field_type <$> known, rest) = table_payload i fields) as (known & rest & -> & Etp).
  { destruct fields as [|f fields]; simpl; [by eauto|]. destruct (ordinal f =? i + 1); eauto. }
  rewrite <- Etp in *. cbn [fst snd] in *.
  set (payload := table_field_type <$> known) in *. clearbody payload.
  assert (placed tbl (IEnvelope payload (table_is_resource t) (v + i * 8)) (v + i * 8) (v + i * 8 + 8)) as Hpl1 by done.
  assert (ready (IEnvelope payload (table_is_resource t) (v + i * 8)) (v + i * 8) (v + i * 8 + 8) s) as Hr1.
  { eapply ready_sub; [exact H|done|simpl; lia..]. }
  assert (placed tbl (IEnvelopes n (i + 1) rest (table_is_resource t) v) (v + (i + 1) * 8) (v + (i + Z.of_nat (Datatypes.S n)) * 8)) as Hpl2.
  { split; [done|]. lia. }
  eapply wp_seq; [by eapply WalkEnvelope_ok|exact Hr1| |].
  - no_conf. rewrite <- Etp in *. cbn [fst snd] in *. do 2 eexists. split; [done|]. by eapply conf_hidx.
  - intros ps1 s1 Hc1 HI1 He Hb.
    eapply wp_mono; [eapply (IH (i + 1) rest fuel); try lia|].
    + eapply (ready_next _ _ _ _ _ _ _ _ s); [exact H|done|exact He|exact Hb|exact Hpl2|simpl; lia..].
    + destruct Hb. eapply agree_effect; [exact He|done|exact Hag|lia|lia].
    + intros res s2 Hpost. eapply post_seq; [exact He|exact Hpost| |].
      * intros ps2 Hc2. econstructor; rewrite <- Etp; eauto.
      * no_conf. rewrite <- Etp in *. cbn [fst snd] in *. follow Hc1. eauto.
Qed.

Lemma WalkTable_ok WI ty t pos d :
  0 <= d <= FIDL_MAX_DEPTH -> tbl !! ty = Some (TypeTable t) ->
  (d + 1 < FIDL_MAX_DEPTH -> forall ty' t', tbl !! ty' = Some t' -> good WI (d + 1 + 1) ty') ->
  spec (IType ty pos) d (WalkTable tbl WI t pos d).
Proof.
  intros Hd Ht Hgood a b s H. ready_facts H. apply (placed_type_inv _ _ _ _ _ Ht) in Hplaced as [-> ->]. simpl in *.
  pose proof alloc_present_range. pose proof max_depth_range. pose proof v_len_bound.
  unfold sizeof_fidl_vector_t in *. unfold WalkTable, sizeof_fidl_envelope_v2_t.
  rd_step H 8%nat (pos + 8) data Hd1 Hd0. rd_step H 8%nat pos count Hv Hv0.
  destruct (Z.eqb_spec data 0) as [->|Hdata].
  { destruct (Z.eqb_spec count 0) as [->|]; simpl; [|apply wp_reject; [done|]; refute].
    apply wp_depth; [done..|refute|].
    intros _. apply wp_bind. eapply wp_mono; [by apply VisitAbsent_law|]. intros st s' [Hst Hf].
    apply wp_guard_fail; [done..|]. refute. }
  pose proof (load_nonneg _ _ _ _ Hm0 Hv0).
  unfold mul_overflow. destruct (checked 32 _) as [size|] eqn:Ech.
  2: { apply checked_None in Ech. apply wp_reject; [done|]. no_conf; try done.
       match goal with H : out_of_line _ _ _ _ |- _ => apply out_of_line_bounds in H; [|lia] end. unfold fits in Ech. lia. }
  apply checked_Some in Ech as [-> Hfit].
  apply wp_depth; [done..|refute|]. intros Hlt. unfold INCREASE_DEPTH. rewrite (wrap_small 8 (d + 1)) by mlia.
  eapply (wp_pointer _ _ _ _ kOther _ _ _ _ _ (fun p => table_loop tbl WI (Datatypes.S (Z.to_nat count)) t pos p 0
    (table_fields t) (d + 1)) H); [lia..|done| |].
  { no_conf; try done. eexists. split; [done|]. split; [done|]. discriminate. }
  intros s1 HI1 (Ho & Hp & _) He.
  eapply wp_mono; [eapply (table_loop_ok WI t pos (ool (cur s)) (d + 1) count) with (n := Z.to_nat count); try done; try lia; [apply Hfit| |]|].
  - eapply (ready_pointee _ _ _ (pos + 8) (count * 8)); [exact H|lia|lia|lia|done..|by eapply placed_table|simpl; lia].
  - eapply (agree_effect _ s s1 (pos + 8) (pos + 16) (cur s) (cur s)); [exact He| | |lia|lia].
    + constructor; [|done]. left. unfold within. simpl. lia.
    + eapply agree_sub; [apply (ready_inline _ _ _ _ H)|lia..].
  - intros r s2 Hpost. eapply (post_seq _ _ _ _ _ [PPointer (pos + 8) (ool (cur s))]); [done..| |].
    + intros ps2 Hc. eapply conforms_table; eauto.
    + no_conf; try done. assert (c1 = cur s1) as -> by (by eapply out_of_line_det). eauto.
Qed.

(** The words of an empty envelope. *)
Lemma env_zero e : fits 64 e -> env_num_bytes e = 0 -> env_num_handles e = 0 -> env_flags e = 0 -> e = 0.
Proof.
  unfold env_num_bytes, env_num_handles, env_flags, wrap. intros Hf. rewrite !Z.shiftr_div_pow2 by lia.
  change (2 ^ 32) with 4294967296. change (2 ^ 16) with 65536. change (2 ^ 48) with 281474976710656. dlia.
Qed.

Lemma WalkXUnion_ok WI ty t pos d :
  0 <= d <= FIDL_MAX_DEPTH -> tbl !! ty = Some (TypeXUnion t) ->
  (d < FIDL_MAX_DEPTH -> forall ty' t', tbl !! ty' = Some t' -> good WI (d + 1) ty') ->
  spec (IType ty pos) d (WalkXUnion tbl WI t pos d).
Proof.
  intros Hd Ht Hgood a b s H. ready_facts H. apply (placed_type_inv _ _ _ _ _ Ht) in Hplaced as [-> ->]. simpl in *.
  unfold WalkXUnion. rewrite xunion_envelope. rewrite xunion_size in *. destruct v_flags as (_ & _ & Hval). rewrite Hval.
  rd_step H 8%nat pos tag Hv Hv0. rd_step H 8%nat (pos + 8) envelope He Hev0.
  pose proof (load_fits _ _ _ _ Hm0 Hev0) as Hfit. pose proof (load_nonneg _ _ _ _ Hm0 Hv0).
  unfold FidlIsZeroEnvelope. destruct (Z.eqb_spec tag 0) as [->|Htag].
  - destruct (negb _ || negb _ || negb _) eqn:Hnz.
    + assert (envelope <> 0) as Hne by (intros ->; vm_compute in Hnz; discriminate Hnz). clear Hnz.
      apply wp_reject; [done|]. refute.
    + assert (envelope = 0) as ->.
      { rewrite !orb_false_iff, !negb_false_iff, !Z.eqb_eq in Hnz. apply env_zero; tauto. }
      destruct (union_nullable t) eqn:Hn; simpl.
      * apply wp_continue; [done|]. by eapply conforms_union_null.
      * apply wp_reject; [done|]. refute.
  - destruct (Z.eqb_spec envelope 0) as [->|Hne]; cbn [andb].
    { apply wp_reject; [done|]. refute. }
    apply wp_bind, wp_mono with (fun o s' => o = union_payload t tag /\ s' = s).
    { destruct (Z.leb_spec tag (Z.of_nat (length (union_fields t)))) as [Hle|Hgt].
      - destruct (lookup_lt_is_Some_2 (union_fields t) (Z.to_nat (tag - 1))) as [f Hf]; [lia|].
        apply (wp_lift _ (union_field_type f)); unfold union_payload; rewrite Hf; done.
      - apply wp_ret. unfold union_payload. rewrite lookup_ge_None_2 by lia. done. }
    intros o ? [-> ->].
    destruct (bool_decide (union_payload t tag = None) && bool_decide (union_strictness t = kFidlStrictness_Strict)) eqn:Hstrict.
    + apply wp_reject; [done|]. apply andb_true_iff in Hstrict as [Hn%bool_decide_eq_true Hs%bool_decide_eq_true].
      no_conf; try done. match goal with H : _ -> is_Some _ |- _ => destruct (H Hs) as [? Hx] end. congruence.
    + eapply wp_mono; [eapply (WalkEnvelope_ok WI _ _ (pos + 8) d Hd Hgood (pos + 8) (pos + 8 + 8))|].
      * eapply ready_sub; [exact H|by eapply placed_union|simpl; lia..].
      * intros r s' Hp. eapply (post_seq _ _ _ _ _ [] s); [apply effect_nil|exact Hp| |].
        -- intros ps2 Hc. eapply conforms_union; eauto. intros Hs. rewrite Hs in Hstrict.
           destruct (union_payload t tag); [eauto|]. discriminate Hstrict.
        -- no_conf; try done. eauto.
Qed.

(** *** The walker *)

(** How deep calls nest from depth [d]: at most [R] inline levels per depth. *)
Definition fuel_for (d : Z) (inline_levels : nat) : nat :=
  (Z.to_nat (FIDL_MAX_DEPTH - d) * (R + 1) + inline_levels + 1)%nat.

Theorem WalkInternal_ok fuel ty t pos d :
  0 <= d <= FIDL_MAX_DEPTH -> tbl !! ty = Some t -> (fuel_for d (rank ty) <= fuel)%nat ->
  spec (IType ty pos) d (WalkInternal tbl fuel ty pos d).
Proof.
  revert ty t pos d. induction fuel as [|fuel IH]; intros ty t pos d Hd Ht Hfuel; [unfold fuel_for in Hfuel; lia|].
  assert (forall f t', (rank f < rank ty)%nat -> tbl !! f = Some t' -> good (WalkInternal tbl fuel) d f) as Hin.
  { intros f t' Hf Hft p. eapply IH; [done|exact Hft|]. unfold fuel_for in *. lia. }
  assert (forall d', d < d' <= FIDL_MAX_DEPTH -> forall ty' t', tbl !! ty' = Some t' -> good (WalkInternal tbl fuel) d' ty') as Hout.
  { intros d' Hd' ty' t' Ht' p. eapply IH; [lia|exact Ht'|]. pose proof (wf_rank _ _ _ Hwf _ _ Ht'). unfold fuel_for in *.
    replace (Z.to_nat (FIDL_MAX_DEPTH - d)) with (Datatypes.S (Z.to_nat (FIDL_MAX_DEPTH - d - 1))) in Hfuel by lia.
    assert (Z.to_nat (FIDL_MAX_DEPTH - d') <= Z.to_nat (FIDL_MAX_DEPTH - d - 1))%nat by lia. nia. }
  cbn [WalkInternal]. rewrite Ht.
  destruct t; [by apply WalkPrimitive_ok|by apply WalkEnum_ok|by apply WalkBits_ok|eapply WalkStruct_ok; eauto
    |eapply WalkStructPointer_ok; eauto|eapply WalkArray_ok; eauto|by apply WalkString_ok|by apply WalkHandle_ok
    |eapply WalkVector_ok; eauto|eapply WalkTable_ok; eauto|eapply WalkXUnion_ok; eauto].
  all: intros Hlt; apply Hout; lia.
Qed.

End Correct.
