(* ===== verification/FidlDecoderCorrect.v ===== *)
(** * Correctness of decoding and validation

    Both modes of [FidlDecoder] keep the promises of [VisitorSpec]; with the
    walker's theorem this gives the correctness of the entry points: validation
    accepts exactly the conforming messages, and decoding accepts only conforming
    messages, patches exactly what the grammar says, and closes the incoming
    handles when it fails. *)

From S2P Require Import Prelude Utf8Scalar Utf8Arch FidlTypes FidlWalker FidlHandles FidlDecoder FidlSpec FidlWalkerCorrect.

Lemma checked_fits w x : fits w x -> checked w x = Some x.
Proof. intros H. by apply checked_Some. Qed.

Section Common.
Context {abi : FidlAbi} {laws : FidlAbiLaws abi} {zircon : Zircon} (p : params).

Definition dcur (d : FidlDecoder zircon) : cursor := Cursor (next_out_of_line_ d) (handle_idx_ d).

(** No error so far, and the offsets are in order. *)
Record base_inv (d : FidlDecoder zircon) : Prop := {
  bi_bytes : bytes_ok (bytes d);
  bi_len : len (bytes d) = num_bytes_ p;
  bi_status : status_ d = ZX_OK;
  bi_next : 0 <= next_out_of_line_ d <= num_bytes_ p;
  bi_align : next_out_of_line_ d mod 8 = 0;
  bi_handles : 0 <= handle_idx_ d }.

Definition dfailed (d : FidlDecoder zircon) : Prop := status_ d <> ZX_OK.

(** An error that leaves the message and the kernel alone. *)
Definition dfails (d d' : FidlDecoder zircon) : Prop := dfailed d' /\ bytes d' = bytes d /\ kern d' = kern d.

Lemma SetError_wp e d : wp (SetError p e) d (fun _ d' => dfails d d').
Proof.
  apply wp_bind, wp_gets. destruct (Z.eqb_spec (status_ d) ZX_OK); simpl.
  - apply wp_modify. split; [|done]. apply invalid_args_not_ok.
  - by apply wp_ret.
Qed.

Lemma fail_with_wp e st d : wp (fail_with p e st) d (fun st' d' => st' = st /\ dfails d d').
Proof. apply wp_bind. eapply wp_mono; [apply SetError_wp|]. intros ? d' Hf. by apply wp_ret. Qed.

(** Failing with some status other than success refutes what was to be shown. *)
Lemma fail_with_refutes e st d (P : Prop) (Q : FidlDecoder zircon -> Prop) :
  st <> kSuccess -> P ->
  wp (fail_with p e st) d (fun st d' => match st with kSuccess => Q d' | _ => dfails d d' /\ P end).
Proof. intros Hst HP. eapply wp_mono; [apply fail_with_wp|]. intros ? d' [-> Hf]. by destruct st. Qed.

Lemma ValidatePadding_wp width pos mask d :
  base_inv d -> slot_ok (num_bytes_ p) pos (Z.of_nat width) ->
  wp (ValidatePadding p width pos mask) d (fun st d' =>
    match st with
    | kSuccess => padding_ok width (bytes d) pos mask /\ d' = d
    | _ => dfails d d' /\ ~ padding_ok width (bytes d) pos mask
    end).
Proof.
  intros Hd [Hp Hw]. destruct (load_is_Some width (bytes d) pos) as [v Hv]; [done|rewrite (bi_len _ Hd); done|].
  apply wp_bind, wp_gets, wp_bind, (wp_lift _ v); [done|].
  destruct (Z.eqb_spec (Z.land v mask) 0) as [Hz|Hz]; simpl.
  - apply wp_ret. split; [|done]. by exists v.
  - apply fail_with_refutes; [done|]. intros (v' & Hv' & Hz'). congruence.
Qed.

(** The mask over the last [k] bytes of an 8-byte block. *)
Lemma trailing_mask k :
  1 <= k <= 7 -> wrap 64 (Z.shiftl (2 ^ 64 - 1) (64 ⊖[64] (8 ⊗[64] k))) =
  Z.shiftl (Z.ones (8 * (Z.of_nat 8 - (8 - k)))) (8 * (8 - k)).
Proof.
  intros Hk. assert (k = 1 \/ k = 2 \/ k = 3 \/ k = 4 \/ k = 5 \/ k = 6 \/ k = 7) as Hc by lia.
  by destruct Hc as [->|[->|[->|[->|[->|[->| ->]]]]]].
Qed.

Lemma check_trailing_wp size new_offset d :
  base_inv d -> 0 <= size -> new_offset = align_up (next_out_of_line_ d + size) -> new_offset <= num_bytes_ p -> num_bytes_ p < 2 ^ 32 ->
  wp (check_trailing p size (next_out_of_line_ d) new_offset) d (fun st d' =>
    match st with
    | kSuccess => zeros (bytes d) (next_out_of_line_ d + size) new_offset /\ d' = d
    | _ => dfails d d' /\ ~ zeros (bytes d) (next_out_of_line_ d + size) new_offset
    end).
Proof.
  intros Hd Hs Hnew Hle H32. pose proof (bi_next _ Hd). pose proof (bi_align _ Hd) as Hal.
  set (next := next_out_of_line_ d) in *. pose proof (align_up_bounds (next + size)) as Hup.
  unfold check_trailing. rewrite alignment_8. destruct (Z.eqb_spec (size mod 8) 0) as [Hm|Hm]; simpl.
  - apply wp_ret. split; [|done]. intros i Hi. exfalso. unfold align_up in *. dlia.
  - set (k := new_offset - next - size).
    assert (1 <= k <= 7) as Hk by (unfold k, align_up in *; dlia).
    assert (new_offset ⊖[32] next ⊖[32] size = k) as ->.
    { rewrite (wrap_small 32 (new_offset - next)) by mlia. apply wrap_small. unfold k in *. mlia. }
    rewrite trailing_mask by done.
    assert (8 <= new_offset) by (unfold k, align_up in *; dlia).
    pose proof (padding_high 8 (8 - k) (bytes d) (new_offset - 8)) as Hpad.
    rewrite (bi_len _ Hd) in Hpad. specialize (Hpad (bi_bytes _ Hd) ltac:(lia) ltac:(lia) ltac:(lia)).
    replace (new_offset - 8 + (8 - k)) with (next + size) in Hpad by (unfold k; lia).
    replace (new_offset - 8 + Z.of_nat 8) with new_offset in Hpad by lia.
    eapply wp_mono; [apply ValidatePadding_wp; [done|unfold slot_ok; lia]|].
    intros st d' Hst. destruct st; rewrite Hpad in Hst; done.
Qed.

(** What [VisitPointer] does in either mode. *)
Lemma VisitPointer_wp mode ptr ty slot size mc d :
  base_inv d -> slot_ok (num_bytes_ p) slot 8 -> fits 32 size -> num_bytes_ p + 8 < 2 ^ 32 ->
  wp (DecVisitPointer p mode ptr ty slot size mc) d (fun '(st, pos) d' =>
    match st with
    | kSuccess => pos = next_out_of_line_ d /\ pointee_ok (bytes d) (dcur d) ty slot size (dcur d') /\
        exists b, match mode with
                  | Decode => store 8 (bytes d) slot (bytes_ p ⊕[64] next_out_of_line_ d) = Some b
                  | Validate => b = bytes d end /\
                  d' = set_next (next_out_of_line_ d') (set_bytes b d)
    | _ => dfails d d' /\ forall c', ~ pointee_ok (bytes d) (dcur d) ty slot size c'
    end).
Proof.
  intros Hd [Hs0 Hs8] Hsize H32. pose proof (bi_next _ Hd) as Hnext.
  destruct (load_is_Some 8 (bytes d) slot) as [ptrv Hptr]; [done|rewrite (bi_len _ Hd); lia|].
  assert (forall e st, st <> kSuccess -> (forall c', ~ pointee_ok (bytes d) (dcur d) ty slot size c') ->
    wp (st ← fail_with p e st; mret (st, 0)) d (fun '(st, pos) d' =>
      match st with kSuccess => pos = next_out_of_line_ d /\ pointee_ok (bytes d) (dcur d) ty slot size (dcur d') /\
        exists b, match mode with
                  | Decode => store 8 (bytes d) slot (bytes_ p ⊕[64] next_out_of_line_ d) = Some b
                  | Validate => b = bytes d end /\
                  d' = set_next (next_out_of_line_ d') (set_bytes b d)
      | _ => dfails d d' /\ forall c', ~ pointee_ok (bytes d) (dcur d) ty slot size c' end)) as Hfail.
  { intros e st Hst Hno. apply wp_bind. eapply wp_mono; [apply fail_with_wp|]. intros ? d' [-> Hf].
    apply wp_ret. by destruct st. }
  unfold DecVisitPointer. apply wp_bind, wp_gets, wp_bind, (wp_lift _ ptrv); [done|].
  destruct (negb (bool_decide (ty = kEnvelope)) && negb (ptrv =? FIDL_ALLOC_PRESENT)) eqn:Emark.
  { apply Hfail; [done|]. intros c' (_ & Hp & _). apply andb_true_iff in Emark as [E1 E2].
    rewrite negb_true_iff, bool_decide_eq_false in E1. rewrite negb_true_iff, Z.eqb_neq in E2.
    apply Hp in E1. congruence. }
  assert (ty <> kEnvelope -> load 8 (bytes d) slot = Some FIDL_ALLOC_PRESENT) as Hmark.
  { intros Hty. rewrite (bool_decide_eq_false_2 _ Hty) in Emark. simpl in Emark.
    apply negb_false_iff, Z.eqb_eq in Emark. congruence. }
  clear Emark. apply wp_bind, wp_gets.
  destruct (FidlAddOutOfLine (next_out_of_line_ d) size) as [new_offset|] eqn:Eadd; cycle 1.
  { apply Hfail; [done|]. intros c' ((Ho & Hl & _) & _). simpl in Ho.
    pose proof (align_up_bounds (next_out_of_line_ d + size)). rewrite (bi_len _ Hd) in Hl.
    assert (FidlAddOutOfLine (next_out_of_line_ d) size = Some (ool c')) as E; [|congruence].
    apply FidlAddOutOfLine_Some; mlia. }
  apply FidlAddOutOfLine_Some in Eadd as [Hnew Hfit]; [|mlia..].
  destruct (Z.ltb_spec (num_bytes_ p) new_offset).
  { apply Hfail; [done|]. intros c' ((Ho & Hl & _) & _). simpl in Ho. rewrite (bi_len _ Hd) in Hl. lia. }
  apply wp_bind. eapply wp_mono; [apply check_trailing_wp; [done|mlia|done|done|lia]|].
  intros st d' Hst. destruct st; cycle 1.
  1-2: apply wp_ret; destruct Hst as [Hf Hz]; split; [done|]; intros c' ((Ho & _ & _ & Hz') & _); apply Hz;
    simpl in *; by rewrite Hnew, <- Ho.
  destruct Hst as [Hz ->].
  pose proof (align_up_bounds (next_out_of_line_ d + size)) as Hup.
  destruct (rdn_is_Some (bytes d) (next_out_of_line_ d) size) as [str Hstr]; [mlia|mlia|rewrite (bi_len _ Hd); mlia|].
  apply wp_bind, wp_mono with (fun v d' => d' = d /\ (ty = kString -> v = Utf8Spec.valid str) /\ (ty <> kString -> v = true)).
  { case_bool_decide as Hk; [|by apply wp_ret].
    apply wp_bind, wp_gets, wp_bind, (wp_lift _ str); [done|].
    pose proof (rdn_bytes_ok _ _ _ _ (bi_bytes _ Hd) Hstr) as Hok. pose proof (rdn_len _ _ _ _ Hstr) as Hlen.
    rewrite <- Hlen. apply (wp_lift _ (Utf8Spec.valid str)); [apply UtfUtils.is_valid_utf8_valid; [done|mlia]|done]. }
  intros v ? (-> & Hv & Hv'). destruct v; simpl; cycle 1.
  { apply Hfail; [done|]. intros c' (_ & _ & Hval). destruct (decide (ty = kString)) as [Hk|Hk]; [|by specialize (Hv' Hk)].
    destruct (Hval Hk) as (s' & Hs' & Hok'). simpl in Hs'. specialize (Hv Hk). congruence. }
  assert (pointee_ok (bytes d) (dcur d) ty slot size (Cursor new_offset (handle_idx_ d))) as Hpt.
  { split; [|split; [done|]].
    - repeat split; [done|rewrite (bi_len _ Hd); simpl; lia|done].
    - intros Hk. exists str. split; [done|]. by rewrite <- Hv. }
  unfold AssignInDecode. destruct mode.
  - destruct (store_is_Some 8 (bytes d) slot (bytes_ p ⊕[64] next_out_of_line_ d)) as [b Hb]; [lia|rewrite (bi_len _ Hd); lia|].
    apply wp_bind. unfold store_at. apply wp_bind, wp_gets, wp_bind, (wp_lift _ b); [done|]. apply wp_modify.
    apply wp_bind, wp_modify, wp_ret. split; [done|]. split; [done|]. exists b. done.
  - apply wp_bind, wp_ret, wp_bind, wp_modify, wp_ret. split; [done|]. split; [done|]. exists (bytes d). by destruct d.
Qed.

Definition at_cp (cp : checkpoint) (c : cursor) : Prop := cp_num_bytes cp = ool c /\ cp_num_handles cp = hidx c.

Lemma EnterEnvelope_wp d : wp DecEnterEnvelope d (fun cp d' => at_cp cp (dcur d) /\ d' = d).
Proof. by apply wp_bind, wp_gets, wp_bind, wp_gets, wp_ret. Qed.

Lemma LeaveInlinedEnvelope_wp envelope pos cp c d :
  at_cp cp c -> hidx c <= handle_idx_ d -> handle_idx_ d - hidx c < 2 ^ 32 ->
  wp (DecLeaveInlinedEnvelope p envelope pos cp) d (fun st d' =>
    match st with
    | kSuccess => env_num_handles envelope = handle_idx_ d - hidx c /\ d' = d
    | _ => dfails d d' /\ ~ env_num_handles envelope = handle_idx_ d - hidx c
    end).
Proof.
  intros [_ Hh] Hle H32. unfold DecLeaveInlinedEnvelope. apply wp_bind, wp_gets.
  rewrite Hh, wrap_small by mlia. destruct (Z.eqb_spec (env_num_handles envelope) (handle_idx_ d - hidx c)); simpl.
  - by apply wp_ret.
  - by apply fail_with_refutes.
Qed.

Lemma LeaveEnvelope_wp envelope pos cp c d :
  base_inv d -> num_bytes_ p < 2 ^ 32 ->
  at_cp cp c -> ool c <= next_out_of_line_ d -> hidx c <= handle_idx_ d -> handle_idx_ d - hidx c < 2 ^ 32 -> 0 <= ool c ->
  wp (DecLeaveEnvelope p envelope pos cp) d (fun st d' =>
    match st with
    | kSuccess => env_num_bytes envelope = next_out_of_line_ d - ool c /\ env_num_handles envelope = handle_idx_ d - hidx c /\ d' = d
    | _ => dfails d d' /\ ~ (env_num_bytes envelope = next_out_of_line_ d - ool c /\ env_num_handles envelope = handle_idx_ d - hidx c)
    end).
Proof.
  intros Hd Hn [Hb Hh] Hle Hleh H32 H0. pose proof (bi_next _ Hd). unfold DecLeaveEnvelope.
  apply wp_bind, wp_gets, wp_bind, wp_gets. rewrite Hh, Hb, !wrap_small by mlia.
  destruct (Z.eqb_spec (env_num_bytes envelope) (next_out_of_line_ d - ool c)) as [|Hne]; cbn [negb];
    [|apply fail_with_refutes; [done|]; by intros [? _]].
  destruct (Z.eqb_spec (env_num_handles envelope) (handle_idx_ d - hidx c)) as [|Hne]; cbn [negb];
    [|apply fail_with_refutes; [done|]; by intros [_ ?]].
  by apply wp_ret.
Qed.

(** The state after a pointer has been visited is again in order. *)
Lemma base_inv_pointer d d' size b ty slot :
  base_inv d -> 0 <= size -> bytes_ok b -> len b = num_bytes_ p ->
  pointee_ok (bytes d) (dcur d) ty slot size (dcur d') ->
  d' = set_next (next_out_of_line_ d') (set_bytes b d) -> base_inv d'.
Proof.
  intros Hd Hs Hok Hl (Ho & _) E. apply out_of_line_bounds in Ho as (H1 & H2 & H3 & H4); [|done]. simpl in *.
  rewrite (bi_len _ Hd) in H2. pose proof (bi_next _ Hd). rewrite E. split; simpl; try done; try apply Hd. lia.
Qed.

End Common.

(** ** Validation *)

Section Validate.
Context {abi : FidlAbi} {laws : FidlAbiLaws abi} {zircon : Zircon} (p : params).
Context (Hbound : num_bytes_ p + 8 < 2 ^ 32).

(** Validation leaves the message [m] and the kernel [k] as they are. *)
Program Definition validate_spec (m : list Z) (k : kernel) : VisitorSpec (decoder_visitor p Validate) := {|
  v_len := num_bytes_ p;
  v_handles := num_handles_ p;
  v_unreliable := False;
  Inv := fun d => base_inv p d /\ bytes d = m /\ kern d = k;
  failed := fun d => dfailed d /\ bytes d = m /\ kern d = k;
  cur := dcur;
  effect := fun _ d d' => bytes d' = bytes d;
  at_checkpoint := at_cp;
|}.
Next Obligation. intros. by repeat split. Qed.
Next Obligation. intros. exact Hbound. Qed.
Next Obligation. intros m k d [Hd _]. split; apply Hd. Qed.
Next Obligation. intros m k d [Hd _]. pose proof (bi_next _ _ Hd). simpl. split; [lia|]. split; [apply Hd|]. split; [lia|apply Hd]. Qed.
Next Obligation. done. Qed.
Next Obligation. intros m k ps1 ps2 d1 d2 d3 ? ?. congruence. Qed.
Next Obligation. intros m k ps d d' E. simpl. by rewrite E. Qed.
Next Obligation.
  intros m k e d (_ & <- & <-). eapply wp_mono; [apply SetError_wp|]. by intros ? ? (? & ? & ?).
Qed.
Next Obligation. intros m k q d (_ & <- & <-). eapply wp_mono; [apply fail_with_wp|]. by intros ? ? (-> & ? & ? & ?). Qed.
Next Obligation. intros m k q d _. by apply wp_ret. Qed.
Next Obligation.
  intros m k ptr ty slot size mc d (Hd & <- & <-) Hs Hf. eapply wp_mono; [by apply VisitPointer_wp|].
  intros [st pos] d' Hst. destruct st; [|done|done]. destruct Hst as (-> & Hp & b & -> & E).
  split; [done|]. split; [|split; [done|]].
  - split; [|by rewrite E]. eapply base_inv_pointer; [exact Hd|apply Hf|apply Hd|apply Hd|exact Hp|exact E].
  - by rewrite E.
Qed.
Next Obligation.
  intros m k q slot rights subtype d (Hd & <- & <-) [? ?] H32. pose proof (bi_handles _ _ Hd).
  destruct (load_is_Some 4 (bytes d) slot) as [h Hh]; [done|rewrite (bi_len _ _ Hd); simpl in *; lia|].
  cbn [VisitHandle decoder_visitor]. unfold DecVisitHandle. apply wp_bind, wp_gets, wp_bind, (wp_lift _ h); [done|].
  destruct (Z.eqb_spec h FIDL_HANDLE_PRESENT) as [->|]; cbn [negb]; cycle 1.
  { apply fail_with_refutes; [done|]. simpl. intros ?. congruence. }
  apply wp_bind, wp_gets. destruct (Z.eqb_spec (handle_idx_ d) (num_handles_ p)).
  { apply fail_with_refutes; [done|]. intros _. left. simpl in *. lia. }
  apply wp_bind, wp_modify, wp_ret. split; [done|]. simpl in H32. rewrite wrap_small by mlia.
  split; [|done]. split; [|done]. destruct Hd. split; simpl; try done. lia.
Qed.
Next Obligation. intros m k width pos mask d (Hd & <- & <-) Hs. by apply ValidatePadding_wp. Qed.
Next Obligation. intros m k d _. apply EnterEnvelope_wp. Qed.
Next Obligation. intros m k envelope pos cp c d (Hd & <- & <-) Hcp ????. apply LeaveEnvelope_wp; try done. lia. Qed.
Next Obligation. intros m k envelope pos cp c d (Hd & <- & <-) Hcp ??. by apply LeaveInlinedEnvelope_wp. Qed.
Next Obligation.
  intros m k envelope slot r d (Hd & <- & <-) Hs H32 _. pose proof (bi_handles _ _ Hd).
  pose proof (env_fields_fit envelope) as (_ & [? _] & _).
  simpl in H32. apply wp_bind, wp_modify, wp_ret. rewrite wrap_small by mlia.
  split; [|done]. split; [|done]. destruct Hd. split; simpl; try done. lia.
Qed.

End Validate.

(** ** Decoding *)

Section Decode.
Context {abi : FidlAbi} {laws : FidlAbiLaws abi} {zircon : Zircon} (p : params).

(** What the caller of the decoder provides.  In HLCPP mode the offsets of
    unknown envelopes are kept in 16 bits, so the body must be that small. *)
Record good_params : Prop := {
  gp_bytes : num_bytes_ p + 8 < 2 ^ 32;
  gp_hlcpp : hlcpp_mode_ p = true -> num_bytes_ p < 2 ^ 16;
  gp_handles : len (handles_ p) = num_handles_ p;
  gp_metadata : length (handle_metadata_ p) = length (handles_ p);
  gp_max : num_handles_ p <= ZX_CHANNEL_MAX_MSG_HANDLES;
  gp_fits : Forall (fits 32) (handles_ p) }.

(** Handles that are there and whose types and rights are not checked. *)
Definition permissive : Prop :=
  Forall (fun h => h <> ZX_HANDLE_INVALID) (handles_ p) /\
  Forall (fun v => meta_obj_type v = ZX_OBJ_TYPE_NONE /\ meta_rights v = ZX_RIGHT_SAME_RIGHTS) (handle_metadata_ p).

(** What one patch does to the bytes of the message. *)
Definition patch1 (q : patch) (b b' : list Z) : Prop :=
  match q with
  | PPointer pos target => store 8 b pos (bytes_ p ⊕[64] target) = Some b'
  | PHandle pos index rights subtype => exists h0 v h e k k',
      handles_ p !! Z.to_nat index = Some h0 /\ handle_metadata_ p !! Z.to_nat index = Some v /\ h0 <> ZX_HANDLE_INVALID /\
      FidlEnsureHandleRights h0 (meta_obj_type v) (meta_rights v) subtype rights k = ((ZX_OK, h, e), k') /\
      store 4 b pos h = Some b'
  | PUnknown pos envelope _ =>
      let tail := [env_num_handles envelope; env_flags envelope] in
      if hlcpp_mode_ p then
        if negb (Z.land (env_flags envelope) FIDL_ENVELOPE_FLAGS_INLINING_MASK =? 0)
        then exists v, load 4 b pos = Some v /\ wrn b pos (le_split 4 v ++ (tail ≫= le_split 2)) = Some b'
        else exists target, load 8 b pos = Some (bytes_ p ⊕[64] target) /\ fits 16 target /\
             wrn b pos (([env_num_bytes envelope; target] ++ tail) ≫= le_split 2) = Some b'
      else b' = b
  end.

Fixpoint patches (ps : list patch) (b b' : list Z) : Prop :=
  match ps with
  | [] => b' = b
  | q :: ps => exists b1, patch1 q b b1 /\ patches ps b1 b'
  end.

Lemma patches_app ps1 ps2 b b1 b' : patches ps1 b b1 -> patches ps2 b1 b' -> patches (ps1 ++ ps2) b b'.
Proof. revert b. induction ps1 as [|q ps1 IH]; intros b; cbn [patches app]; [by intros ->|]. intros (b0 & ? & ?) ?. eauto. Qed.

Lemma patch1_frame q b b' : patch1 q b b' -> unpatched [q] b b'.
Proof.
  destruct q as [pos t|pos i r ty|pos e r]; cbn [patch1].
  - intros H. split; [by eapply store_len|]. intros j [Hj _]%Forall_cons. by eapply store_frame.
  - intros (h0 & v & h & e & k & k' & _ & _ & _ & _ & H). split; [by eapply store_len|].
    intros j [Hj _]%Forall_cons. by eapply store_frame.
  - destruct (hlcpp_mode_ p); [|by intros ->].
    enough (forall bs, length bs = 8%nat -> wrn b pos bs = Some b' -> unpatched [PUnknown pos e r] b b') as Hw.
    { destruct (negb _); [intros (v & _ & H) | intros (t & _ & _ & H)]; (eapply Hw; [|exact H]); cbn [mbind list_bind app]; by rewrite ?length_app, ?le_split_length. }
    intros bs Hl H. split; [by eapply wrn_len|]. intros j [Hj _]%Forall_cons. eapply wrn_frame; [exact H|].
    unfold len. cbn [patch_pos patch_size] in Hj. lia.
Qed.

Lemma patches_frame ps b b' : patches ps b b' -> unpatched ps b b'.
Proof.
  revert b. induction ps as [|q ps IH]; intros b; cbn [patches]; [by intros ->|].
  intros (b1 & [Hl1 H1]%patch1_frame & [Hl2 H2]%IH). split; [congruence|].
  intros j [Hq Hps]%Forall_cons. rewrite H2 by done. apply H1. by constructor.
Qed.

Record dec_inv (d : FidlDecoder zircon) : Prop := {
  di_base : base_inv p d;
  di_idx : handle_idx_ d <= num_handles_ p;
  di_unknown : 0 <= unknown_handle_idx_ d <= handle_idx_ d;
  di_array : len (unknown_handles_ d) = ZX_CHANNEL_MAX_MSG_HANDLES }.

Context (Hp : good_params).

Lemma Ensure_error h at_ ar rt rr k st h' e k' :
  FidlEnsureHandleRights h at_ ar rt rr k = ((st, h', e), k') -> st <> ZX_OK -> is_Some e.
Proof.
  unfold FidlEnsureHandleRights. repeat case_match; intros E ?; simplify_eq; eauto.
Qed.

Lemma Ensure_permissive h rt rr k :
  FidlEnsureHandleRights h ZX_OBJ_TYPE_NONE ZX_RIGHT_SAME_RIGHTS rt rr k = ((ZX_OK, h, None), k).
Proof. unfold FidlEnsureHandleRights. by rewrite !Z.eqb_refl, andb_false_r, orb_true_r. Qed.

Lemma DecVisitHandle_wp q slot rights subtype d :
  dec_inv d -> slot_ok (num_bytes_ p) slot 4 -> handle_idx_ d + 1 < 2 ^ 32 ->
  wp (DecVisitHandle p Decode q slot rights subtype) d (fun st d' =>
    match st with
    | kSuccess => load 4 (bytes d) slot = Some FIDL_HANDLE_PRESENT /\ dec_inv d' /\
                  dcur d' = Cursor (next_out_of_line_ d) (handle_idx_ d + 1) /\
                  patches [PHandle slot (handle_idx_ d) rights subtype] (bytes d) (bytes d')
    | _ => dfailed d' /\
           (load 4 (bytes d) slot = Some FIDL_HANDLE_PRESENT -> num_handles_ p < handle_idx_ d + 1 \/ ~ permissive)
    end).
Proof.
  intros [Hd Hidx Hunk Harr] [Hs0 Hs4] H32. pose proof (bi_handles _ _ Hd). pose proof (bi_len _ _ Hd) as Hlen.
  destruct (load_is_Some 4 (bytes d) slot) as [h Hh]; [done|lia|].
  assert (forall e (P : Prop) (Q : FidlDecoder zircon -> Prop) d0, P ->
    wp (fail_with p e kConstraintViolationError) d0 (fun st d' => match st with kSuccess => Q d' | _ => dfailed d' /\ P end)) as Hfail.
  { intros e P Q d0 HP. eapply wp_mono; [apply fail_with_wp|]. intros ? ? (-> & ? & _). done. }
  unfold DecVisitHandle. apply wp_bind, wp_gets, wp_bind, (wp_lift _ h); [done|].
  destruct (Z.eqb_spec h FIDL_HANDLE_PRESENT) as [->|]; cbn [negb]; [|apply Hfail; congruence].
  apply wp_bind, wp_gets. destruct (Z.eqb_spec (handle_idx_ d) (num_handles_ p)) as [E|E].
  { apply Hfail. intros _. left. lia. }
  pose proof (gp_handles Hp) as Hnh. unfold len in Hnh.
  destruct (lookup_lt_is_Some_2 (handles_ p) (Z.to_nat (handle_idx_ d))) as [h0 Hh0]; [lia|].
  destruct (lookup_lt_is_Some_2 (handle_metadata_ p) (Z.to_nat (handle_idx_ d))) as [v Hv]; [rewrite (gp_metadata Hp); lia|].
  apply wp_bind, (wp_lift _ h0); [done|]. destruct (Z.eqb_spec h0 ZX_HANDLE_INVALID) as [->|Hnz].
  { apply Hfail. intros _. right. intros [Hall _]. by eapply Forall_lookup_1 in Hall; [|exact Hh0]. }
  destruct (store_is_Some 4 (bytes d) slot h0) as [b1 Hb1]; [lia..|].
  apply wp_bind. cbn [AssignInDecode]. unfold store_at at 1. apply wp_bind, wp_gets, wp_bind, (wp_lift _ b1); [done|]. apply wp_modify.
  assert (fits 32 h0) as Hfit by (eapply Forall_lookup_1; [apply (gp_fits Hp)|done]).
  assert (load 4 b1 slot = Some h0) as Hld.
  { rewrite (load_store _ _ _ _ _ Hb1). f_equal. by apply wrap_small. }
  unfold DecodeProcessHandle. apply wp_bind. apply wp_bind, (wp_lift _ v); [done|]. apply wp_bind, wp_gets.
  apply wp_bind, (wp_lift _ h0); [done|]. apply wp_bind, wp_gets.
  destruct (FidlEnsureHandleRights h0 (meta_obj_type v) (meta_rights v) subtype rights (kern (set_bytes b1 d)))
    as [[[st h'] e] k'] eqn:Eens.
  destruct (store_is_Some 4 b1 slot h') as [b2 Hb2]; [lia|rewrite (store_len _ _ _ _ _ Hb1); lia|].
  apply wp_bind, wp_modify, wp_bind. unfold store_at. apply wp_bind, wp_gets, wp_bind, (wp_lift _ b2); [done|]. apply wp_modify, wp_ret.
  destruct (Z.eqb_spec st ZX_OK) as [->|Hst]; cbn [negb].
  - apply wp_bind, wp_modify, wp_ret. cbn. rewrite wrap_small by mlia. split; [done|]. split; [|split; [done|]].
    + split; cbn; [|lia|lia|done]. destruct Hd. split; cbn; try done.
      * eapply store_bytes_ok; [|exact Hb2]. by eapply store_bytes_ok.
      * rewrite (store_len _ _ _ _ _ Hb2), (store_len _ _ _ _ _ Hb1). done.
      * lia.
    + exists b2. split; [|done]. exists h0, v, h', e, (kern d), k'. repeat split; try done. by rewrite <- (store_store _ _ _ _ _ _ Hb1).
  - destruct (Ensure_error _ _ _ _ _ _ _ _ _ _ Eens Hst) as [msg ->]. apply wp_bind, (wp_lift _ msg); [done|].
    apply Hfail. intros _. right. intros [_ Hall]. eapply Forall_lookup_1 in Hall as [Ht Hr]; [|exact Hv].
    rewrite Ht, Hr, Ensure_permissive in Eens. congruence.
Qed.

(** The envelope still holds an inline value, or its pointer was just visited. *)
Definition convertible (envelope slot : Z) (d : FidlDecoder zircon) : Prop :=
  env_flags envelope = FIDL_ENVELOPE_FLAGS_INLINING_MASK \/
  (env_flags envelope = 0 /\ exists d0, dec_inv d0 /\ patches [PPointer slot (next_out_of_line_ d0)] (bytes d0) (bytes d) /\
     env_num_bytes envelope <= num_bytes_ p).

Lemma wrn_8_is_Some d slot bs :
  dec_inv d -> slot_ok (num_bytes_ p) slot 8 -> length bs = 8%nat -> bytes_ok bs ->
  exists b, wrn (bytes d) slot bs = Some b /\ bytes_ok b /\ len b = num_bytes_ p.
Proof.
  intros [Hd _ _ _] [? ?] Hl Hok. destruct (wrn_is_Some (bytes d) slot bs) as [b Hb]; [lia|unfold len at 1; rewrite Hl, (bi_len _ _ Hd); lia|].
  exists b. split; [done|]. split; [by eapply wrn_bytes_ok; [apply Hd| |exact Hb]|].
  rewrite (wrn_len _ _ _ _ Hb). apply Hd.
Qed.

Lemma pointer_offset base target : fits 64 target -> (base ⊕[64] target) ⊖[64] base = target.
Proof.
  intros H. unfold wrap. rewrite Zminus_mod_idemp_l. replace (base + target - base) with target by lia.
  apply Z.mod_small. exact H.
Qed.

Lemma Convert_wp envelope slot r d :
  hlcpp_mode_ p = true -> dec_inv d -> slot_ok (num_bytes_ p) slot 8 -> convertible envelope slot d ->
  wp (ConvertEnvelopeToDecodedRepresentation p envelope slot) d (fun _ d' => exists b,
    d' = set_bytes b d /\ patch1 (PUnknown slot envelope r) (bytes d) b /\ bytes_ok b /\ len b = num_bytes_ p).
Proof.
  intros Hh Hd Hs Hconv. pose proof inlining_mask_1 as Hmask. pose proof (bi_len _ _ (di_base _ Hd)) as Hlen.
  pose proof (gp_hlcpp Hp Hh) as H16. destruct Hs as [Hs0 Hs8].
  unfold ConvertEnvelopeToDecodedRepresentation, patch1. rewrite Hh, Hmask. apply wp_bind, wp_gets.
  destruct Hconv as [Hf|(Hf & d0 & Hd0 & (b1 & Hb1 & Eb) & Hnb)].
  - rewrite Hf, Hmask. change (negb (Z.land 1 1 =? 0)) with true. cbv iota.
    destruct (load_is_Some 4 (bytes d) slot) as [v Hv]; [lia..|]. apply wp_bind, (wp_lift _ v); [done|].
    edestruct (wrn_8_is_Some d slot) as (b & Hb & Hok & Hl); [done|by split| | |].
    3: { apply wp_bind, (wp_lift _ b); [exact Hb|]. apply wp_modify. exists b. split; [done|]. split; [|done]. by exists v. }
    + cbn [mbind list_bind app]. by rewrite !length_app, ?le_split_length.
    + cbn [mbind list_bind app]. rewrite !bytes_ok_app. repeat split; try apply le_split_ok. constructor.
  - rewrite Hf. change (negb (Z.land 0 1 =? 0)) with false. cbv iota. cbn in Eb. subst b1.
    cbn [patch1] in Hb1. pose proof (load_store _ _ _ _ _ Hb1) as Hld.
    pose proof (bi_next _ _ (di_base _ Hd0)) as Hn0.
    rewrite (wrap_small (8 * Z.of_nat 8)) in Hld by (apply wrap_fits; lia).
    apply wp_bind, (wp_lift _ _ _ _ Hld). rewrite pointer_offset by mlia.
    destruct (Z.ltb_spec (2 ^ 16 - 1) (next_out_of_line_ d0)); [lia|].
    destruct (Z.ltb_spec (2 ^ 16 - 1) (env_num_bytes envelope)); [lia|].
    edestruct (wrn_8_is_Some d slot) as (b & Hb & Hok & Hl); [done|by split| | |].
    3: { apply wp_bind, (wp_lift _ b); [exact Hb|]. apply wp_modify. exists b. split; [done|]. split; [|done].
         exists (next_out_of_line_ d0). split; [done|]. split; [mlia|done]. }
    + cbn [mbind list_bind app]. by rewrite !length_app, ?le_split_length.
    + cbn [mbind list_bind app]. rewrite !bytes_ok_app. repeat split; try apply le_split_ok. constructor.
Qed.

Lemma dec_inv_set_bytes b d : dec_inv d -> bytes_ok b -> len b = num_bytes_ p -> dec_inv (set_bytes b d).
Proof. intros [[] ? ? ?] Hb Hl. split; [split|..]; cbn; done. Qed.

Lemma DecVisitUnknown_wp envelope slot r d :
  dec_inv d -> slot_ok (num_bytes_ p) slot 8 -> handle_idx_ d + env_num_handles envelope < 2 ^ 32 ->
  convertible envelope slot d ->
  wp (DecVisitUnknownEnvelope p Decode envelope slot r) d (fun st d' =>
    match st with
    | kSuccess => dec_inv d' /\ dcur d' = Cursor (next_out_of_line_ d) (handle_idx_ d + env_num_handles envelope) /\
                  patches [PUnknown slot envelope r] (bytes d) (bytes d')
    | _ => dfailed d' /\ (num_handles_ p < handle_idx_ d + env_num_handles envelope \/ ~ permissive)
    end).
Proof.
  intros Hd Hs H32 Hconv. pose proof (env_fields_fit envelope) as (_ & [Hn0 Hn16] & _). pose proof max_handles_range as Hmax.
  unfold DecVisitUnknownEnvelope. apply wp_bind.
  apply wp_mono with (fun _ d' => exists b, d' = set_bytes b d /\ patch1 (PUnknown slot envelope r) (bytes d) b /\
    bytes_ok b /\ len b = num_bytes_ p).
  { destruct (hlcpp_mode_ p) eqn:Hh; [by apply Convert_wp|]. apply wp_ret. exists (bytes d).
    split; [by destruct d|]. cbn [patch1]. rewrite Hh. split; [done|]. split; apply Hd. }
  intros _ d1 (b & -> & Hpatch & Hok & Hl). pose proof (dec_inv_set_bytes b d Hd Hok Hl) as Hd1.
  assert (patches [PUnknown slot envelope r] (bytes d) b) as Hps by (by exists b).
  assert (forall e, num_handles_ p < handle_idx_ d + env_num_handles envelope ->
    wp (fail_with p e kConstraintViolationError) (set_bytes b d) (fun st d' => match st with
    | kSuccess => dec_inv d' /\ dcur d' = Cursor (next_out_of_line_ d) (handle_idx_ d + env_num_handles envelope) /\
                  patches [PUnknown slot envelope r] (bytes d) (bytes d')
    | _ => dfailed d' /\ (num_handles_ p < handle_idx_ d + env_num_handles envelope \/ ~ permissive) end)) as Hfail.
  { intros e Hlt. eapply wp_mono; [apply fail_with_wp|]. intros ? ? (-> & ? & _). auto. }
  destruct Hd1 as [Hb1 Hi1 Hu1 Ha1]. cbn in Hi1, Hu1, Ha1. pose proof (gp_max Hp). pose proof (gp_handles Hp) as Hnh.
  destruct (Z.ltb_spec 0 (env_num_handles envelope)) as [Hpos|Hzero]; cycle 1.
  { apply wp_ret. replace (env_num_handles envelope) with 0 by lia. rewrite Z.add_0_r. split; [by repeat split; try apply Hb1; cbn; lia|]. done. }
  apply wp_bind, wp_gets, wp_bind, wp_gets. cbn [unknown_handle_idx_ handle_idx_ set_bytes].
  unfold add_overflow. rewrite (checked_fits 32 (unknown_handle_idx_ d + env_num_handles envelope)) by mlia.
  destruct (Z.ltb_spec ZX_CHANNEL_MAX_MSG_HANDLES (unknown_handle_idx_ d + env_num_handles envelope)); [apply Hfail; lia|].
  rewrite (checked_fits 32 (handle_idx_ d + env_num_handles envelope)) by mlia.
  destruct (Z.ltb_spec (num_handles_ p) (handle_idx_ d + env_num_handles envelope)); [apply Hfail; lia|].
  destruct (hlcpp_mode_ p && bool_decide (r = kFidlIsResource_Resource)).
  { apply wp_bind, wp_modify, wp_ret. cbn. rewrite wrap_small by mlia. split; [|done].
    destruct Hb1. repeat split; cbn in *; try done; lia. }
  apply wp_bind, wp_gets. destruct (rdn_is_Some (handles_ p) (handle_idx_ d) (env_num_handles envelope)) as [hs Hhs];
    [pose proof (bi_handles _ _ Hb1); cbn in *; lia|lia|lia|].
  apply wp_bind, (wp_lift _ hs); [done|]. pose proof (rdn_len _ _ _ _ Hhs) as Hlhs.
  destruct (wrn_is_Some (unknown_handles_ d) (unknown_handle_idx_ d) hs) as [u Hu]; [lia|lia|].
  apply wp_bind, (wp_lift _ u); [done|]. apply wp_bind, wp_modify, wp_bind, wp_modify, wp_ret. cbn. split; [|done].
  destruct Hb1. repeat split; cbn in *; try done; try lia. by rewrite (wrn_len _ _ _ _ Hu).
Qed.

(** An error of the common routines is a failure. *)
Lemma wp_dfails (m : ST (FidlDecoder zircon) Status) d (Q : FidlDecoder zircon -> Prop) (P : Prop) :
  wp m d (fun st d' => match st with kSuccess => Q d' | _ => dfails d d' /\ P end) ->
  wp m d (fun st d' => match st with kSuccess => Q d' | _ => dfailed d' /\ P end).
Proof. intros H. eapply wp_mono; [exact H|]. intros [] d'; [done|intros [[? _] ?]; done..]. Qed.

Program Definition decode_spec : VisitorSpec (decoder_visitor p Decode) := {|
  v_len := num_bytes_ p;
  v_handles := num_handles_ p;
  v_unreliable := ~ permissive;
  Inv := dec_inv;
  failed := dfailed;
  cur := dcur;
  effect := fun ps d d' => patches ps (bytes d) (bytes d');
  at_checkpoint := at_cp;
|}.
Next Obligation. by repeat split. Qed.
Next Obligation. apply Hp. Qed.
Next Obligation. intros d [Hd _ _ _]. split; apply Hd. Qed.
Next Obligation. intros d [Hd _ _ _]. pose proof (bi_next _ _ Hd). simpl. split; [lia|]. split; [apply Hd|]. split; [lia|apply Hd]. Qed.
Next Obligation. done. Qed.
Next Obligation. intros ps1 ps2 d1 d2 d3. apply patches_app. Qed.
Next Obligation. intros ps d d'. apply patches_frame. Qed.
Next Obligation. intros e d _. eapply wp_mono; [apply SetError_wp|]. by intros ? ? [? _]. Qed.
Next Obligation. intros q d _. eapply wp_mono; [apply fail_with_wp|]. by intros ? ? (-> & ? & _). Qed.
Next Obligation. intros q d _. by apply wp_ret. Qed.
Next Obligation.
  intros ptr ty slot size mc d [Hd Hidx Hunk Harr] Hs Hf. eapply wp_mono; [apply VisitPointer_wp; [done..|apply Hp]|].
  intros [st pos] d' Hst. destruct st; [|destruct Hst as [[? _] ?]; done..]. destruct Hst as (-> & Hpt & b & Hb & E).
  split; [done|]. split; [|split; [done|]].
  - assert (base_inv p d') as Hd'.
    { eapply base_inv_pointer; [exact Hd|apply Hf| | |exact Hpt|exact E].
      - eapply store_bytes_ok; [apply Hd|exact Hb].
      - rewrite (store_len _ _ _ _ _ Hb). apply Hd. }
    split; [done|..]; rewrite E; done.
  - rewrite E. exists b. done.
Qed.
Next Obligation. intros q slot rights subtype d Hd Hs H32. by apply DecVisitHandle_wp. Qed.
Next Obligation. intros width pos mask d [Hd _ _ _] Hs. by apply wp_dfails, ValidatePadding_wp. Qed.
Next Obligation. intros d _. apply EnterEnvelope_wp. Qed.
Next Obligation.
  intros envelope pos cp c d [Hd _ _ _] Hcp ????. apply wp_dfails, LeaveEnvelope_wp; try done. pose proof (gp_bytes Hp). lia.
Qed.
Next Obligation. intros envelope pos cp c d Hd Hcp ??. by apply wp_dfails, LeaveInlinedEnvelope_wp. Qed.
Next Obligation. intros envelope slot r d Hd Hs H32 Hconv. by apply DecVisitUnknown_wp. Qed.

End Decode.

(** ** The entry points *)

Section Entry.
Context {abi : FidlAbi} {laws : FidlAbiLaws abi} {zircon : Zircon}.
Context (tbl : tables) (rank : type_ptr -> nat) (R : nat) (Hwf : wf_tables tbl rank R).

Lemma padding_is_zero_spec m a b :
  0 <= a <= b -> b <= len m ->
  exists z, padding_is_zero m a b = Some z /\ (z = true <-> zeros m a b).
Proof.
  intros Ha Hb. unfold padding_is_zero. destruct (rdn_is_Some m a (b - a)) as [bs Hbs]; [lia..|].
  rewrite Hbs. simpl. eexists. split; [done|]. pose proof (rdn_len _ _ _ _ Hbs) as Hl. unfold len in Hl.
  apply rdn_Some in Hbs as (_ & _ & _ & E).
  assert (forall i, a <= i < b -> rd m i = bs !! Z.to_nat (i - a)) as Hrd.
  { intros i Hi. rewrite E, lookup_take_lt, lookup_drop by lia. unfold rd.
    destruct (Z.ltb_spec i 0); [lia|]. f_equal. lia. }
  rewrite forallb_forall. split.
  - intros Hall i Hi. rewrite Hrd by done. destruct (lookup_lt_is_Some_2 bs (Z.to_nat (i - a))) as [x Hx]; [lia|].
    rewrite Hx. f_equal. symmetry. apply Z.eqb_eq, Hall, list_elem_of_In. by eapply list_elem_of_lookup_2.
  - intros Hz x (j & Hj)%list_elem_of_In%list_elem_of_lookup. apply Z.eqb_eq.
    pose proof (lookup_lt_Some _ _ _ Hj). specialize (Hz (a + Z.of_nat j) ltac:(lia)). rewrite Hrd in Hz by lia.
    replace (Z.to_nat (a + Z.of_nat j - a)) with j in Hz by lia. congruence.
Qed.

(** The types a message body can have. *)
Definition body_type (t : fidl_type) : Prop :=
  match t with TypeStruct _ | TypeTable _ | TypeXUnion _ => True | _ => False end.

#[local] Instance body_type_dec t : Decision (body_type t).
Proof. destruct t; simpl; apply _. Defined.

Lemma PrimaryObjectSize_spec ty t n :
  tbl !! ty = Some t -> n < 2 ^ 32 ->
  match PrimaryObjectSize t n with
  | inr (primary, ool) => body_type t /\ primary = TypeSize t /\ ool = align_up (TypeSize t) /\ ool <= n
  | inl (st, _) => st <> ZX_OK /\ ~ (body_type t /\ align_up (TypeSize t) <= n)
  end.
Proof.
  intros Ht Hn. pose proof (wf_size _ _ _ Hwf _ _ Ht) as Hs.
  unfold PrimaryObjectSize.
  assert (match t with TypeStruct t => Some (size_v2 t) | TypeTable _ => Some 16
          | TypeXUnion _ => Some sizeof_fidl_xunion_v2_t | _ => None end =
          match t with TypeStruct _ | TypeTable _ | TypeXUnion _ => Some (TypeSize t) | _ => None end) as -> by (by destruct t).
  assert (ZX_ERR_INVALID_ARGS <> ZX_OK /\ ZX_ERR_BUFFER_TOO_SMALL <> ZX_OK) as [? ?]
    by (split; [apply invalid_args_not_ok | apply buffer_too_small_not_ok]).
  destruct (decide (body_type t)) as [Hb|Hb]; cycle 1.
  { destruct t; try (by destruct Hb); split; try done; by intros [? _]. }
  assert (match t with TypeStruct _ | TypeTable _ | TypeXUnion _ => Some (TypeSize t) | _ => None end = Some (TypeSize t)) as ->
    by (by destruct t).
  rewrite FidlAlign_spec by mlia. destruct (Z.ltb_spec n (align_up (TypeSize t))).
  { split; [done|]. intros [_ ?]. lia. }
  destruct (Z.ltb_spec (2 ^ 32 - 1) (align_up (TypeSize t))); [lia|]. done.
Qed.

(** Enough fuel for any message. *)
Definition walk_fuel : nat := fuel_for R 0 R.

(** The walk of a whole message body. *)
Lemma Walk_ok {S} {V : Visitor S} (VS : VisitorSpec V) ty t m fuel s :
  tbl !! ty = Some t -> bytes_ok m -> len m = v_len -> v_len < 2 ^ 19 -> (walk_fuel <= fuel)%nat ->
  Inv s -> message s = m -> cur s = Cursor (align_up (TypeSize t)) 0 -> align_up (TypeSize t) <= v_len ->
  wp (Walk tbl fuel ty 0) s (post tbl m (IType ty 0) 0 s).
Proof.
  intros Ht Hm Hl H19 Hfuel HI Hmsg Hcur Hle. pose proof (wf_size _ _ _ Hwf _ _ Ht). pose proof max_depth_range.
  pose proof (align_up_bounds (TypeSize t)).
  apply (WalkInternal_ok tbl rank R Hwf m Hm Hl fuel ty t 0 0 ltac:(lia) Ht) with 0 (0 + TypeSize t).
  { pose proof (wf_rank _ _ _ Hwf _ _ Ht). unfold walk_fuel, fuel_for in *. lia. }
  split; rewrite ?Hcur; simpl; try done; try lia.
  - by apply placed_type.
  - intros j _. by rewrite Hmsg.
  - intros j _. by rewrite Hmsg.
Qed.

Lemma message_layout_iff m ty t n ps :
  tbl !! ty = Some t -> body_type t -> align_up (TypeSize t) <= len m -> zeros m (TypeSize t) (align_up (TypeSize t)) ->
  message_layout tbl m ty n ps <->
  conforms tbl m (IType ty 0) 0 (Cursor (align_up (TypeSize t)) 0) ps (Cursor (len m) n).
Proof.
  intros Ht Hb Hle Hz. split.
  - intros (t' & Ht' & _ & _ & _ & Hc). by simplify_eq.
  - intros Hc. by exists t.
Qed.

Theorem validate_ok utf8 fuel ty t buf num_handles err junk k :
  tbl !! ty = Some t -> bytes_ok (contents buf) -> len (contents buf) < 2 ^ 19 -> FidlIsAligned (address buf) = true ->
  (walk_fuel <= fuel)%nat ->
  exists o, fidl_validate_impl tbl utf8 fuel (Some ty) (Some buf) (len (contents buf)) num_handles err junk k = Some o /\
    out_bytes o = contents buf /\ out_kernel o = k /\
    (out_status o = ZX_OK <-> message_conforms tbl (contents buf) ty num_handles).
Proof.
  intros Ht Hm H19 Hal Hfuel. unfold fidl_validate_impl. rewrite Hal, Ht. set (m := contents buf) in *. cbn [negb mbind option_bind].
  pose proof (PrimaryObjectSize_spec ty t (len m) Ht ltac:(lia)) as Hprim. pose proof (wf_size _ _ _ Hwf _ _ Ht).
  destruct (PrimaryObjectSize t (len m)) as [[st e]|[primary next]].
  { eexists. split; [done|]. split; [done|]. split; [done|]. simpl. destruct Hprim as [Hst Hno].
    split; [done|]. intros (ps & t' & Ht' & Hb & Hle & _). simplify_eq. by exfalso; apply Hno. }
  destruct Hprim as (Hb & -> & -> & Hle). pose proof (align_up_bounds (TypeSize t)) as Hup.
  destruct (padding_is_zero_spec m (TypeSize t) (align_up (TypeSize t))) as (z & Hz & Hzz); [lia|done|].
  rewrite Hz. cbn [mbind option_bind]. destruct z; cbn [negb]; cycle 1.
  { eexists. split; [done|]. split; [done|]. split; [done|]. simpl. split; [intros E; by destruct (invalid_args_not_ok E)|].
    intros (ps & t' & Ht' & _ & _ & Hz' & _). simplify_eq. by apply Hzz in Hz'. }
  assert (zeros m (TypeSize t) (align_up (TypeSize t))) as Hzeros by (by apply Hzz).
  pose proof (fun ps => message_layout_iff m ty t num_handles ps Ht Hb Hle Hzeros) as Hiff.
  set (p := {| bytes_ := _ |}). set (s0 := new_decoder _ _ _ _ _).
  assert (num_bytes_ p + 8 < 2 ^ 32) as Hb32 by (simpl; lia).
  destruct (Walk_ok (validate_spec p Hb32 m k) ty t m fuel s0 Ht Hm) as (r & d & Hrun & Hpost); try done.
  { split; [|done]. split; try done; simpl; [lia|apply align_up_mod]. }
  rewrite Hrun. cbn [mbind option_bind]. destruct r; simpl in Hpost.
  - destruct Hpost as (ps & Hc & (HI & Eb & Ek) & _).
    rewrite (bi_status _ _ HI), Eb, Ek. unfold DidConsumeAllBytes, DidConsumeAllHandles. simpl.
    assert (forall ps', conforms tbl m (IType ty 0) 0 (Cursor (align_up (TypeSize t)) 0) ps' (Cursor (len m) num_handles) ->
      next_out_of_line_ d = len m /\ handle_idx_ d = num_handles) as Hdet.
    { intros ps' Hc'. destruct (conforms_det _ _ _ _ _ _ _ _ _ Hc Hc') as [_ E]. unfold dcur in E. by injection E. }
    destruct (Z.eqb_spec (next_out_of_line_ d) (len m)) as [En|En], (Z.eqb_spec (handle_idx_ d) num_handles) as [Eh|Eh];
      cbn [negb]; eexists; (split; [done|]); (split; [done|]); (split; [done|]); simpl.
    { split; [|done]. intros _. exists ps. apply Hiff. unfold dcur in Hc. simpl in Hc. by rewrite En, Eh in Hc. }
    all: split; [intros E; by destruct (invalid_args_not_ok E)|]; intros [ps' Hc'%Hiff]; by destruct (Hdet _ Hc').
  - destruct Hpost as [(Hf & Eb & Ek) Hno]. rewrite (proj2 (Z.eqb_neq (status_ d) ZX_OK) Hf), Eb, Ek.
    eexists; (split; [done|]); (split; [done|]); (split; [done|]); simpl. split; [done|].
    intros [ps Hc%Hiff]. apply Hno in Hc as [Hc|[]]. simpl in Hc. lia.
Qed.

(** *** Decoding a message body *)

Section DecodeBody.
Context {zlaws : ZirconLaws zircon}.
Context (utf8 : UtfUtils.target) (fuel : nat) (ty : type_ptr) (t : fidl_type) (buf : buffer).
Context (handles : list Z) (metadata : list fidl_channel_handle_metadata_t) (err hlcpp : bool) (junk : list Z) (k : kernel).
Context (Ht : tbl !! ty = Some t) (Hm : bytes_ok (contents buf)) (H19 : len (contents buf) < 2 ^ 19).
Context (Hal : FidlIsAligned (address buf) = true) (Hfuel : (walk_fuel <= fuel)%nat).
Context (Hhlcpp : hlcpp = true -> len (contents buf) < 2 ^ 16).
Context (Hmeta : length metadata = length handles) (Hmax : len handles <= ZX_CHANNEL_MAX_MSG_HANDLES).
Context (Hfits : Forall (fits 32) handles) (Hjunk : len junk = ZX_CHANNEL_MAX_MSG_HANDLES).

Abbreviation m := (contents buf).

(** The decoder that the entry point constructs. *)
Definition body_params : params :=
  {| bytes_ := address buf; num_bytes_ := len m; handles_ := handles; handle_metadata_ := metadata;
     num_handles_ := len handles; out_error_msg_ := err; hlcpp_mode_ := hlcpp; utf8_target := utf8 |}.

Lemma body_params_good : good_params body_params.
Proof. split; simpl; try done. lia. Qed.

(** What decoding may return. *)
Definition decode_post (o : outcome) : Prop :=
  (out_status o = ZX_OK -> exists ps, message_layout tbl m ty (len handles) ps /\ patches body_params ps m (out_bytes o)) /\
  (out_status o <> ZX_OK -> forall h, h ∈ handles -> owned (out_kernel o) h = None) /\
  (permissive body_params -> message_conforms tbl m ty (len handles) -> out_status o = ZX_OK).

Lemma close_all st e b k' :
  st <> ZX_OK -> (permissive body_params -> ~ message_conforms tbl m ty (len handles)) ->
  exists o, ('(_, k) ← FidlHandleCloseMany handles (len handles) k';
             Some {| out_status := st; out_error := e; out_bytes := b; out_kernel := k |}) = Some o /\ decode_post o.
Proof.
  intros Hst Hno. unfold FidlHandleCloseMany, decode_post.
  destruct (Z.eqb_spec (len handles) 0) as [E|E].
  - eexists. split; [done|]. simpl. split; [done|]. split; [|naive_solver].
    intros _ h Hh. unfold len in E. destruct handles; [by apply not_elem_of_nil in Hh|simpl in E; lia].
  - unfold len at 1. rewrite Z.ltb_irrefl. rewrite take_ge by (unfold len; lia).
    destruct (zx_handle_close_many handles k') as [st' k2] eqn:Ec. eexists. split; [done|]. simpl.
    split; [done|]. split; [|naive_solver]. intros _ h Hh.
    pose proof (close_many_spec handles k' h) as Hc. rewrite Ec in Hc. simpl in Hc. by rewrite decide_True in Hc.
Qed.

Lemma decode_body :
  exists o, fidl_decode_impl tbl utf8 fuel (Some ty) (Some buf) (len m) (Some handles) metadata (len handles)
              err hlcpp junk k = Some o /\ decode_post o.
Proof.
  unfold fidl_decode_impl. rewrite Hal, Ht. rewrite bool_decide_eq_false_2 by done.
  change (default [] (Some handles)) with handles. cbn [andb negb mbind option_bind].
  pose proof (PrimaryObjectSize_spec ty t (len m) Ht ltac:(lia)) as Hprim. pose proof (wf_size _ _ _ Hwf _ _ Ht).
  destruct (PrimaryObjectSize t (len m)) as [[st e]|[primary next]].
  { destruct Hprim as [Hst Hno]. apply close_all; [done|].
    intros _ (ps & t' & Ht' & Hb & Hle & _). simplify_eq. by apply Hno. }
  destruct Hprim as (Hb & -> & -> & Hle). pose proof (align_up_bounds (TypeSize t)) as Hup.
  destruct (padding_is_zero_spec m (TypeSize t) (align_up (TypeSize t))) as (z & Hz & Hzz); [lia|done|].
  rewrite Hz. cbn [mbind option_bind]. destruct z; cbn [negb]; cycle 1.
  { apply close_all; [apply invalid_args_not_ok|].
    intros _ (ps & t' & Ht' & _ & _ & Hz' & _). simplify_eq. by apply Hzz in Hz'. }
  assert (zeros m (TypeSize t) (align_up (TypeSize t))) as Hzeros by (by apply Hzz).
  pose proof (fun ps => message_layout_iff m ty t (len handles) ps Ht Hb Hle Hzeros) as Hiff.
  set (s0 := new_decoder _ _ _ _ _).
  destruct (Walk_ok (decode_spec body_params body_params_good) ty t m fuel s0 Ht Hm) as (r & d & Hrun & Hpost); try done.
  { split; [|apply len_nonneg|simpl; lia|done]. split; try done; simpl; [lia|apply align_up_mod]. }
  unfold body_params in Hrun. rewrite Hrun. fold body_params in *. cbn [mbind option_bind]. destruct r; simpl in Hpost.
  - destruct Hpost as (ps & Hc & HI & Hpatch). rewrite (bi_status _ _ (di_base _ _ HI)). cbn [negb].
    unfold DidConsumeAllBytes, DidConsumeAllHandles. cbn [num_bytes_ num_handles_ body_params].
    assert (message_conforms tbl m ty (len handles) -> next_out_of_line_ d = len m /\ handle_idx_ d = len handles) as Hdet.
    { intros [ps' Hc'%Hiff]. destruct (conforms_det _ _ _ _ _ _ _ _ _ Hc Hc') as [_ E]. unfold dcur in E. by injection E. }
    destruct (Z.eqb_spec (next_out_of_line_ d) (len m)) as [En|En]; cbn [negb];
      [|apply close_all; [apply invalid_args_not_ok|]; intros _ Hmc; by destruct (Hdet Hmc)].
    destruct (Z.eqb_spec (handle_idx_ d) (len handles)) as [Eh|Eh]; cbn [negb];
      [|apply close_all; [apply invalid_args_not_ok|]; intros _ Hmc; by destruct (Hdet Hmc)].
    assert (exists st k', FidlHandleCloseMany (unknown_handles_ d) (unknown_handle_idx_ d) (kern d) = Some (st, k')) as (st & k' & Ek).
    { unfold FidlHandleCloseMany. destruct (_ =? 0); [eauto|]. pose proof (di_array _ _ HI) as Ha. pose proof (di_unknown _ _ HI).
      unfold len in Ha. destruct (Z.ltb_spec (Z.of_nat (length (unknown_handles_ d))) (unknown_handle_idx_ d)).
      - lia.
      - destruct (zx_handle_close_many _ _). eauto. }
    rewrite Ek. eexists. split; [done|]. split; [|split; [done|done]]. intros _. exists ps. split; [|done].
    apply Hiff. unfold dcur in Hc. simpl in Hc. by rewrite En, Eh in Hc.
  - destruct Hpost as [Hf Hno]. rewrite (proj2 (Z.eqb_neq (status_ d) ZX_OK) Hf). cbn [negb].
    apply close_all; [done|]. intros Hperm [ps Hc%Hiff]. apply Hno in Hc as [Hc|Hc]; [simpl in Hc; lia|done].
Qed.

End DecodeBody.

End Entry.
