(* ===== verification/FidlTheorems.v ===== *)
(** * The promises of the FIDL entry points

    The public theorems about validation and decoding
    (src/fidl_base/decoding_and_validating.cc), each with a concrete message on
    which its hypotheses hold. *)

From S2P Require Import Prelude Utf8Scalar Utf8Arch FidlTypes FidlWalker FidlHandles FidlDecoder FidlSpec.
From S2P Require Import FidlWalkerCorrect FidlDecoderCorrect.

(** ** The calls *)

Section Promises.
Context {abi : FidlAbi} {laws : FidlAbiLaws abi} {zircon : Zircon}.

(** A message body the caller may pass: bytes, fewer than [limit], aligned. *)
Definition body_ok (limit : Z) (buf : buffer) : Prop :=
  bytes_ok (contents buf) /\ len (contents buf) < limit /\ FidlIsAligned (address buf) = true.

(** The incoming handles: no more than a channel carries. *)
Definition infos_ok (infos : list zx_handle_info_t) : Prop :=
  Z.of_nat (length infos) <= ZX_CHANNEL_MAX_MSG_HANDLES /\ Forall (fun i => fits 32 (info_handle i)) infos.

(** Handles that are valid and come without type and rights. *)
Definition unchecked (infos : list zx_handle_info_t) : Prop :=
  Forall (fun i => info_handle i <> ZX_HANDLE_INVALID /\ info_type i = ZX_OBJ_TYPE_NONE /\
                   info_rights i = ZX_RIGHT_SAME_RIGHTS) infos.

(** What the decoder is constructed with. *)
Definition decode_params (utf8 : UtfUtils.target) (buf : buffer) (infos : list zx_handle_info_t) (err : bool) : params :=
  {| bytes_ := address buf; num_bytes_ := len (contents buf); handles_ := info_handle <$> infos;
     handle_metadata_ := (fun i => {| meta_obj_type := info_type i; meta_rights := info_rights i |}) <$> infos;
     num_handles_ := Z.of_nat (length infos); out_error_msg_ := err; hlcpp_mode_ := true; utf8_target := utf8 |}.

Definition num_infos (infos : list zx_handle_info_t) : Z := Z.of_nat (length infos).

Lemma decode_etc_spec {zlaws : ZirconLaws zircon} tbl rank R utf8 fuel ty t buf infos err junk k :
  wf_tables tbl rank R -> (walk_fuel R <= fuel)%nat -> tbl !! ty = Some t ->
  body_ok (2 ^ 16) buf -> infos_ok infos -> len junk = ZX_CHANNEL_MAX_MSG_HANDLES ->
  exists o, internal__fidl_decode_etc_hlcpp__v2__may_break tbl utf8 fuel (Some ty) (Some buf) (len (contents buf))
              (Some infos) (num_infos infos) err junk k = Some o /\
    (out_status o = ZX_OK -> exists ps, message_layout tbl (contents buf) ty (num_infos infos) ps /\
       patches (decode_params utf8 buf infos err) ps (contents buf) (out_bytes o)) /\
    (out_status o <> ZX_OK -> forall h, h ∈ info_handle <$> infos -> owned (out_kernel o) h = None) /\
    (unchecked infos -> message_conforms tbl (contents buf) ty (num_infos infos) -> out_status o = ZX_OK).
Proof.
  intros Hwf Hfuel Ht (Hm & H16 & Hal) [Hmax Hfits] Hjunk.
  set (hs := info_handle <$> infos).
  set (meta := (fun i => {| meta_obj_type := info_type i; meta_rights := info_rights i |}) <$> infos).
  assert (len hs = num_infos infos) as Hlen by (unfold hs, len, num_infos; by rewrite length_fmap).
  destruct (decode_body tbl rank R Hwf utf8 fuel ty t buf hs meta err true junk k) as (o & Ho & H1 & H2 & H3);
    try done; try lia.
  { unfold meta, hs. by rewrite !length_fmap. }
  { rewrite Hlen. done. }
  { by apply Forall_fmap. }
  exists o. rewrite Hlen in *. split; [|split; [|split; [done|]]].
  - unfold internal__fidl_decode_etc_hlcpp__v2__may_break, fidl_decode_impl_handle_info, num_infos in *.
    destruct (Z.ltb_spec ZX_CHANNEL_MAX_MSG_HANDLES (Z.of_nat (length infos))); [lia|].
    rewrite Z.ltb_irrefl, take_ge by lia. exact Ho.
  - intros Hok. destruct (H1 Hok) as (ps & Hl & Hp). exists ps. split; [done|].
    unfold body_params in Hp. rewrite Hlen in Hp. exact Hp.
  - intros Hun. apply H3. split; simpl; apply Forall_fmap; (eapply Forall_impl; [exact Hun|]); simpl; tauto.
Qed.

End Promises.

(** ** An example: a struct with a string, a handle and a table *)

Module Example.

Definition tbl : tables := [
  TypeStruct {| contains_envelope := true; is_empty := false; size_v2 := 40;
                elements := [Field 1%nat 0 false; Field 2%nat 16 true; Padding32 20 0xffffffff; Field 3%nat 24 false];
                struct_name := None |};
  TypeString {| string_nullable := false; max_size := 10 |};
  TypeHandle {| handle_nullable := false; handle_subtype := 4; handle_rights := 2 ^ 31 |};
  TypeTable {| table_is_resource := false; table_fields := [{| table_field_type := 4%nat; ordinal := 1 |}]; table_name := None |};
  TypePrimitive fidl_internal_kBoolTable ].

Definition rank (ty : type_ptr) : nat := match ty with O => 1 | _ => 0 end.

Lemma wf : wf_tables (abi := fuchsia_abi) tbl rank 1.
Proof.
  intros ty t H. do 5 (destruct ty as [|ty]; [injection H as <-; split; [vm_compute; reflexivity | simpl; lia]|]).
  destruct ty; discriminate H.
Qed.

(** The string "abc", a handle, a table with a bool and an unknown member. *)
Definition bytes : list Z :=
  le_split 8 3 ++ le_split 8 (2 ^ 64 - 1) ++ le_split 4 (2 ^ 32 - 1) ++ le_split 4 0 ++
  le_split 8 2 ++ le_split 8 (2 ^ 64 - 1) ++
  [97; 98; 99; 0; 0; 0; 0; 0] ++
  [1; 0; 0; 0; 0; 0; 1; 0] ++ [8; 0; 0; 0; 0; 0; 0; 0] ++
  [1; 2; 3; 4; 5; 6; 7; 8].

Definition buf : buffer := {| address := 0x1000; contents := bytes |}.
Definition infos : list zx_handle_info_t := [{| info_handle := 7; info_type := 0; info_rights := 2 ^ 31 |}].
Definition kern : kernel (Zircon := ToyKernel.toy) := {[ 7 := (4, 15) ]}.
Definition junk : list Z := replicate 64 0.

Lemma buf_ok limit : 72 < limit -> body_ok (abi := fuchsia_abi) limit buf.
Proof.
  intros H. split; [apply (bool_decide_unpack (bytes_ok bytes)); vm_compute; exact I|]. split; [|reflexivity].
  exact H.
Qed.

Lemma infos_fine : infos_ok (abi := fuchsia_abi) infos.
Proof. split; [vm_compute; discriminate|]. by repeat constructor. Qed.

End Example.

(** ** The theorems *)

Section Theorems.
Context {abi : FidlAbi} {laws : FidlAbiLaws abi} {zircon : Zircon}.

(** C2.  Validation always returns, changes neither the message nor any handle, and
    succeeds exactly on the messages of the wire-format grammar that use all
    their bytes and all their handles. *)
Theorem fidl_validate_correct tbl rank R utf8 fuel ty t buf num_handles err junk k :
  wf_tables tbl rank R -> (walk_fuel R <= fuel)%nat -> tbl !! ty = Some t -> body_ok (2 ^ 19) buf ->
  exists o, internal__fidl_validate__v2__may_break tbl utf8 fuel (Some ty) (Some buf) (len (contents buf))
              num_handles err junk k = Some o /\
    out_bytes o = contents buf /\ out_kernel o = k /\
    (out_status o = ZX_OK <-> message_conforms tbl (contents buf) ty num_handles).
Proof. intros Hwf Hfuel Ht (Hm & Hl & Hal). by eapply validate_ok. Qed.

(** C16.  Decoding always returns (no access outside the message or the handle
    table, no failed assertion, no endless recursion); when it succeeds, the message
    it was given conforms to the grammar and the bytes it leaves are the message
    with exactly the grammar's patches applied. *)
Theorem fidl_decode_sound {zlaws : ZirconLaws zircon} tbl rank R utf8 fuel ty t buf infos err junk k :
  wf_tables tbl rank R -> (walk_fuel R <= fuel)%nat -> tbl !! ty = Some t ->
  body_ok (2 ^ 16) buf -> infos_ok infos -> len junk = ZX_CHANNEL_MAX_MSG_HANDLES ->
  exists o, internal__fidl_decode_etc_hlcpp__v2__may_break tbl utf8 fuel (Some ty) (Some buf) (len (contents buf))
              (Some infos) (num_infos infos) err junk k = Some o /\
    (out_status o = ZX_OK -> exists ps, message_layout tbl (contents buf) ty (num_infos infos) ps /\
       patches (decode_params utf8 buf infos err) ps (contents buf) (out_bytes o)).
Proof.
  intros Hwf Hfuel Ht Hb Hi Hj.
  destruct (decode_etc_spec tbl rank R utf8 fuel ty t buf infos err junk k) as (o & Ho & H & _); eauto.
Qed.

(** Closing the handles of a table. *)
Lemma close_infos {zlaws : ZirconLaws zircon} infos st e b k :
  exists o, ('(_, k) ← FidlHandleCloseMany (info_handle <$> infos) (num_infos infos) k;
             Some {| out_status := st; out_error := e; out_bytes := b; out_kernel := k |}) = Some o /\
    forall h, h ∈ info_handle <$> infos -> owned (out_kernel o) h = None.
Proof.
  unfold FidlHandleCloseMany, num_infos. destruct (Z.eqb_spec (Z.of_nat (length infos)) 0) as [E|E].
  - eexists. split; [done|]. intros h Hh. destruct infos; [by apply not_elem_of_nil in Hh|simpl in E; lia].
  - rewrite length_fmap, Z.ltb_irrefl, take_ge by (rewrite length_fmap; lia). destruct (zx_handle_close_many _ k) as [st' k2] eqn:Ec. eexists. split; [done|].
    intros h Hh. pose proof (close_many_spec (info_handle <$> infos) k h) as Hc. rewrite Ec in Hc. simpl in Hc. by rewrite decide_True in Hc.
Qed.

(** C35.  When decoding fails, every handle of the incoming table is closed, whatever the bytes
    are, also if they are missing or not aligned; but for one case: without a type decoding
    fails and closes nothing. *)
Theorem fidl_decode_drops_handles {zlaws : ZirconLaws zircon} tbl rank R utf8 fuel type buf num_bytes infos err junk k :
  wf_tables tbl rank R -> (walk_fuel R <= fuel)%nat -> (forall ty, type = Some ty -> is_Some (tbl !! ty)) ->
  (forall b, buf = Some b -> bytes_ok (contents b) /\ len (contents b) < 2 ^ 16 /\ num_bytes = len (contents b)) ->
  infos_ok infos -> len junk = ZX_CHANNEL_MAX_MSG_HANDLES ->
  exists o, internal__fidl_decode_etc_hlcpp__v2__may_break tbl utf8 fuel type buf num_bytes
              (Some infos) (num_infos infos) err junk k = Some o /\
    match type with
    | Some _ => out_status o <> ZX_OK -> forall h, h ∈ info_handle <$> infos -> owned (out_kernel o) h = None
    | None => out_status o = ZX_ERR_INVALID_ARGS /\ out_kernel o = k
    end.
Proof.
  intros Hwf Hfuel Hty Hbuf Hi Hj. pose proof Hi as [Hmax _].
  assert (Henter : forall type buf num_bytes, internal__fidl_decode_etc_hlcpp__v2__may_break tbl utf8 fuel type buf num_bytes (Some infos) (num_infos infos) err junk k =
    fidl_decode_impl tbl utf8 fuel type buf num_bytes (Some (info_handle <$> infos)) ((fun i => {| meta_obj_type := info_type i; meta_rights := info_rights i |}) <$> infos) (num_infos infos) err true junk k).
  { intros. unfold internal__fidl_decode_etc_hlcpp__v2__may_break, fidl_decode_impl_handle_info, num_infos in *.
    destruct (Z.ltb_spec ZX_CHANNEL_MAX_MSG_HANDLES (Z.of_nat (length infos))); [lia|]. by rewrite Z.ltb_irrefl, take_ge by lia. }
  destruct type as [ty|]; [|rewrite Henter; by eexists]. destruct (Hty ty eq_refl) as [t Ht].
  destruct buf as [b|].
  - destruct (Hbuf b eq_refl) as (Hm & Hl & ->). destruct (FidlIsAligned (address b)) eqn:Ea.
    + destruct (decode_etc_spec tbl rank R utf8 fuel ty t b infos err junk k) as (o & Ho & _ & H & _); [done..|]. by exists o.
    + rewrite Henter. unfold fidl_decode_impl. rewrite Ea. destruct (close_infos infos ZX_ERR_INVALID_ARGS (if err then Some "Bytes must be aligned to FIDL_ALIGNMENT"%string else None) (contents b) k) as (o & Eo & Ho).
      exists o. split; [exact Eo|by intros _].
  - rewrite Henter. unfold fidl_decode_impl. destruct (close_infos infos ZX_ERR_INVALID_ARGS (if err then Some "Cannot decode null bytes"%string else None) [] k) as (o & Eo & Ho).
    exists o. split; [exact Eo|by intros _].
Qed.

(** C36.  Decoding accepts no message that validation rejects; and when the
    handles carry no types and rights to check, the two accept the same messages. *)
Theorem fidl_decode_iff_validate {zlaws : ZirconLaws zircon} tbl rank R utf8 fuel ty t buf infos err junk k :
  wf_tables tbl rank R -> (walk_fuel R <= fuel)%nat -> tbl !! ty = Some t ->
  body_ok (2 ^ 16) buf -> infos_ok infos -> len junk = ZX_CHANNEL_MAX_MSG_HANDLES ->
  exists od ov,
    internal__fidl_decode_etc_hlcpp__v2__may_break tbl utf8 fuel (Some ty) (Some buf) (len (contents buf))
      (Some infos) (num_infos infos) err junk k = Some od /\
    internal__fidl_validate__v2__may_break tbl utf8 fuel (Some ty) (Some buf) (len (contents buf))
      (num_infos infos) err junk k = Some ov /\
    (out_status od = ZX_OK -> out_status ov = ZX_OK) /\
    (unchecked infos -> out_status od = ZX_OK <-> out_status ov = ZX_OK).
Proof.
  intros Hwf Hfuel Ht Hb Hi Hj. pose proof Hb as (Hm & Hl & Hal).
  destruct (decode_etc_spec tbl rank R utf8 fuel ty t buf infos err junk k) as (od & Hod & H1 & _ & H3); eauto.
  destruct (validate_ok tbl rank R Hwf utf8 fuel ty t buf (num_infos infos) err junk k) as (ov & Hov & _ & _ & Hiff); try done.
  { lia. }
  assert (out_status od = ZX_OK -> out_status ov = ZX_OK) as Himp.
  { intros (ps & Hps & _)%H1. apply Hiff. by exists ps. }
  exists od, ov. split; [done|]. split; [done|]. split; [done|]. intros Hun. split; [done|].
  intros Hv%Hiff. by apply H3.
Qed.

(** What the grammar's patches can do: every pointer leads to an aligned place inside
    the message, the handles are distinct, and nothing else changes. *)
Definition safe_patches (ps : list patch) (n : Z) (before after : list Z) : Prop :=
  Forall (target_ok 0 (len before)) ps /\
    NoDup (handle_indices ps) /\ Forall (fun i => 0 <= i < n) (handle_indices ps) /\
    Forall (fun q => within q 0 (len before)) ps /\ unpatched ps before after.

Lemma layout_safe tbl rank R utf8 buf ty n infos err ps bytes' :
  wf_tables tbl rank R -> body_ok (2 ^ 16) buf ->
  message_layout tbl (contents buf) ty n ps ->
  patches (zircon := zircon) (decode_params utf8 buf infos err) ps (contents buf) bytes' ->
  safe_patches ps n (contents buf) bytes'.
Proof.
  intros Hwf (Hm & Hl & Hal) (t & Ht & _ & Hle & _ & Hc) Hp.
  pose proof (placed_type tbl ty t 0 Ht) as Hpl. pose proof (wf_size _ _ _ Hwf _ _ Ht). pose proof (align_up_bounds (TypeSize t)).
  pose proof (conforms_well_aimed _ _ _ _ Hwf _ _ _ _ _ _ _ Hm Hc Hpl (align_up_mod _)) as [T I O].
  pose proof (conforms_bounded _ _ _ _ Hwf _ _ _ _ _ _ _ Hm Hc Hpl) as [_ _ _ _ _ W]. simpl in *.
  split; [|split; [done|split; [done|split; [|by eapply patches_frame]]]].
  - eapply Forall_impl; [exact T|]. intros []; simpl; lia.
  - eapply Forall_impl; [exact W|]. unfold within. cbv beta. intros q. lia.
Qed.

(** C37.  A message that was decoded is safe to follow: the bytes that decoding leaves are
    the message with a list of patches applied, in which every pointer leads to an aligned
    place inside the message, no two places receive the same incoming handle, and no byte
    outside the patched places changes. *)
Theorem fidl_decode_pointers_safe {zlaws : ZirconLaws zircon} tbl rank R utf8 fuel ty t buf infos err junk k :
  wf_tables tbl rank R -> (walk_fuel R <= fuel)%nat -> tbl !! ty = Some t ->
  body_ok (2 ^ 16) buf -> infos_ok infos -> len junk = ZX_CHANNEL_MAX_MSG_HANDLES ->
  exists o, internal__fidl_decode_etc_hlcpp__v2__may_break tbl utf8 fuel (Some ty) (Some buf) (len (contents buf))
              (Some infos) (num_infos infos) err junk k = Some o /\
    (out_status o = ZX_OK -> exists ps,
       patches (decode_params utf8 buf infos err) ps (contents buf) (out_bytes o) /\
    safe_patches ps (num_infos infos) (contents buf) (out_bytes o)).
Proof.
  intros Hwf Hfuel Ht Hb Hi Hj.
  destruct (decode_etc_spec tbl rank R utf8 fuel ty t buf infos err junk k) as (o & Ho & H & _); eauto.
  exists o. split; [done|]. intros (ps & Hl & Hp)%H. eauto using layout_safe.
Qed.

End Theorems.

(** ** Witnesses: the example message *)

Module ExampleFacts.
Import Example.

#[local] Instance example_abi : FidlAbi := fuchsia_abi.
#[local] Instance example_kernel : Zircon := ToyKernel.toy.
#[local] Instance example_laws : FidlAbiLaws example_abi := fuchsia_abi_laws.

#[local] Instance example_zlaws : ZirconLaws example_kernel := ToyKernel.toy_laws.

Lemma junk_len : len junk = ZX_CHANNEL_MAX_MSG_HANDLES.
Proof. reflexivity. Qed.

(** The runs on the example, evaluated. *)
Lemma validate_runs :
  out_status <$> internal__fidl_validate__v2__may_break tbl UtfUtils.Other (walk_fuel 1) (Some 0%nat) (Some buf)
    (len (contents buf)) 1 true junk kern = Some 0.
Proof. vm_compute. reflexivity. Qed.

Lemma decode_runs ty st : (ty, st) ∈ [(0%nat, 0); (3%nat, -10)] ->
  out_status <$> internal__fidl_decode_etc_hlcpp__v2__may_break tbl UtfUtils.Other (walk_fuel 1) (Some ty) (Some buf)
    (len (contents buf)) (Some infos) (num_infos infos) true junk kern = Some st.
Proof. intros [[= -> ->]|[[= -> ->]|[]%not_elem_of_nil]%elem_of_cons]%elem_of_cons; vm_compute; reflexivity. Qed.

Lemma status_of (r : option outcome) o st : r = Some o -> out_status <$> r = Some st -> out_status o = st.
Proof. intros ->. by intros [= <-]. Qed.

Lemma fidl_validate_correct_witness : message_conforms tbl bytes 0%nat 1.
Proof.
  destruct (fidl_validate_correct tbl rank 1 UtfUtils.Other (walk_fuel 1) 0%nat _ buf 1 true junk kern
    wf (le_n _) eq_refl (buf_ok (2 ^ 19) eq_refl)) as (o & Ho & _ & _ & [H _]).
  apply H. exact (status_of _ _ _ Ho validate_runs).
Defined.

Lemma fidl_decode_sound_witness :
  exists o ps, internal__fidl_decode_etc_hlcpp__v2__may_break tbl UtfUtils.Other (walk_fuel 1) (Some 0%nat) (Some buf) 72
    (Some infos) 1 true junk kern = Some o /\ message_layout tbl bytes 0%nat 1 ps /\
    patches (decode_params UtfUtils.Other buf infos true) ps bytes (out_bytes o).
Proof.
  destruct (fidl_decode_sound tbl rank 1 UtfUtils.Other (walk_fuel 1) 0%nat _ buf infos true junk kern
    wf (le_n _) eq_refl (buf_ok (2 ^ 16) eq_refl) infos_fine junk_len) as (o & Ho & H).
  destruct H as (ps & Hl & Hp); [apply (status_of _ _ _ Ho (decode_runs 0%nat 0 ltac:(by left)))|].
  exists o, ps. split; [exact Ho|]. split; [exact Hl|exact Hp].
Defined.

(** A message of the wrong type: decoding fails and closes handle 7; and so does decoding
    without bytes, but not without a type. *)
Lemma fidl_decode_drops_handles_witness :
  let decode type buf := internal__fidl_decode_etc_hlcpp__v2__may_break tbl UtfUtils.Other (walk_fuel 1) type buf 72 (Some infos) 1 true junk kern in
  (exists o, decode (Some 3%nat) (Some buf) = Some o /\ out_status o = -10 /\ owned (out_kernel o) 7 = None) /\
  (exists o, decode (Some 0%nat) None = Some o /\ out_status o = -10 /\ owned (out_kernel o) 7 = None) /\
  (exists o, decode None (Some buf) = Some o /\ out_status o = -10 /\ owned (out_kernel o) 7 = Some (4, 15)).
Proof.
  intros decode. assert (D := fun type b => fidl_decode_drops_handles tbl rank 1 UtfUtils.Other (walk_fuel 1) type b 72 infos true junk kern wf (le_n _)).
  assert (Hb : forall b, Some buf = Some b -> bytes_ok (contents b) /\ len (contents b) < 2 ^ 16 /\ 72 = len (contents b)).
  { intros b [= <-]. destruct (buf_ok (2 ^ 16) eq_refl) as (H1 & H2 & _). by split_and!. }
  split_and!.
  - destruct (D (Some 3%nat) (Some buf)) as (o & Ho & H); [by intros ty [= <-]; eexists|exact Hb|exact infos_fine|exact junk_len|].
    assert (out_status o = -10) as Hst by (apply (status_of _ _ _ Ho (decode_runs 3%nat (-10) ltac:(by right; left)))).
    exists o. split; [exact Ho|]. split; [exact Hst|]. apply H; [rewrite Hst; discriminate | by left].
  - destruct (D (Some 0%nat) None) as (o & Ho & H); [by intros ty [= <-]; eexists|by intros b|exact infos_fine|exact junk_len|].
    assert (out_status o = -10) as Hst by (vm_compute in Ho; injection Ho as <-; reflexivity).
    exists o. split; [exact Ho|]. split; [exact Hst|]. apply H; [rewrite Hst; discriminate | by left].
  - destruct (D None (Some buf)) as (o & Ho & H & Hk); [by intros ty|exact Hb|exact infos_fine|exact junk_len|].
    exists o. split; [exact Ho|]. split; [exact H|]. rewrite Hk. reflexivity.
Defined.

Lemma fidl_decode_iff_validate_witness :
  exists od ov,
    internal__fidl_decode_etc_hlcpp__v2__may_break tbl UtfUtils.Other (walk_fuel 1) (Some 0%nat) (Some buf) 72
      (Some infos) 1 true junk kern = Some od /\
    internal__fidl_validate__v2__may_break tbl UtfUtils.Other (walk_fuel 1) (Some 0%nat) (Some buf) 72 1 true junk kern = Some ov /\
    (out_status od = ZX_OK <-> out_status ov = ZX_OK).
Proof.
  destruct (fidl_decode_iff_validate tbl rank 1 UtfUtils.Other (walk_fuel 1) 0%nat _ buf infos true junk kern
    wf (le_n _) eq_refl (buf_ok (2 ^ 16) eq_refl) infos_fine junk_len) as (od & ov & Hd & Hv & _ & H).
  exists od, ov. split; [exact Hd|]. split; [exact Hv|]. apply H. by repeat constructor.
Defined.

Lemma fidl_decode_pointers_safe_witness :
  exists o ps, internal__fidl_decode_etc_hlcpp__v2__may_break tbl UtfUtils.Other (walk_fuel 1) (Some 0%nat) (Some buf) 72
    (Some infos) 1 true junk kern = Some o /\ safe_patches ps 1 bytes (out_bytes o).
Proof.
  destruct (fidl_decode_pointers_safe tbl rank 1 UtfUtils.Other (walk_fuel 1) 0%nat _ buf infos true junk kern
    wf (le_n _) eq_refl (buf_ok (2 ^ 16) eq_refl) infos_fine junk_len) as (o & Ho & H).
  destruct H as (ps & _ & Hs); [apply (status_of _ _ _ Ho (decode_runs 0%nat 0 ltac:(by left)))|].
  exists o, ps. split; [exact Ho|exact Hs].
Defined.

End ExampleFacts.
