(* ===== verification/Wavl.v ===== *)
(** * The intrusive WAVL tree

    Models src/fidl/cpp/wire/include/lib/fidl/cpp/wire/internal/intrusive_container/
    wavl_tree.h, the balanced tree the FIDL client keeps its pending transactions
    in.  The tree is modelled at the level of its pointers: the objects live in a
    heap, each with the node state [WAVLTreeNodeState] (parent, children and one
    bit of rank parity), and every handler reads and writes those fields in the
    order of the source.  A failed [ZX_DEBUG_ASSERT], a dereference of something
    that is not an object and a loop that does not end within the number of
    objects of the heap are all [None]. *)

From stdpp Require Import gmap.
From S2P Require Import Prelude.

(** ** Pointers, node states, trees *)

(** A [RawPtrType]: null, the sentinel of a tree (the tree's address with the
    sentinel bit set) or the address of an object. *)
Inductive ptr := Null | Sentinel (tree : N) | Obj (n : N).

#[export] Instance ptr_eq_dec : EqDecision ptr.
Proof. solve_decision. Defined.

Definition is_sentinel_ptr (p : ptr) : bool := match p with Sentinel _ => true | _ => false end.
Definition valid_sentinel_ptr (p : ptr) : bool := match p with Obj _ => true | _ => false end.

(** [p == q] on pointers. *)
Definition same (p q : ptr) : bool := bool_decide (p = q).

Record WAVLTreeNodeState := NS { parent_ : ptr; left_ : ptr; right_ : ptr; rank_ : bool }.

(** A node state as it is constructed. *)
Definition fresh_node : WAVLTreeNodeState := NS Null Null Null false.

Definition InContainer (ns : WAVLTreeNodeState) : bool := negb (same (parent_ ns) Null).
Definition IsValid (ns : WAVLTreeNodeState) : bool :=
  InContainer ns || (negb (InContainer ns) && same (left_ ns) Null && same (right_ ns) Null).

(** [promote_rank] and [demote_rank] flip the parity; the double versions leave it. *)
Definition promote_rank (ns : WAVLTreeNodeState) : WAVLTreeNodeState :=
  NS (parent_ ns) (left_ ns) (right_ ns) (negb (rank_ ns)).
Definition double_promote_rank (ns : WAVLTreeNodeState) : WAVLTreeNodeState := ns.
Definition demote_rank (ns : WAVLTreeNodeState) : WAVLTreeNodeState :=
  NS (parent_ ns) (left_ ns) (right_ ns) (negb (rank_ ns)).
Definition double_demote_rank (ns : WAVLTreeNodeState) : WAVLTreeNodeState := ns.

Record WAVLTree := Tree { root_ : ptr; left_most_ : ptr; right_most_ : ptr; count_ : Z }.

(** The state a handler works on: the tree's own fields and the objects. *)
Record world := World { tree : WAVLTree; heap : gmap N WAVLTreeNodeState }.

(** [ForwardTraits] and [ReverseTraits], the two readings of LR and RL. *)
Inductive LRTraits := ForwardTraits | ReverseTraits.
#[export] Instance LRTraits_eq_dec : EqDecision LRTraits.
Proof. solve_decision. Defined.

Definition Inverse (tr : LRTraits) : LRTraits :=
  match tr with ForwardTraits => ReverseTraits | ReverseTraits => ForwardTraits end.
Definition LRChild (tr : LRTraits) (ns : WAVLTreeNodeState) : ptr :=
  match tr with ForwardTraits => left_ ns | ReverseTraits => right_ ns end.
Definition RLChild (tr : LRTraits) (ns : WAVLTreeNodeState) : ptr := LRChild (Inverse tr) ns.

Definition with_parent (p : ptr) (ns : WAVLTreeNodeState) : WAVLTreeNodeState :=
  NS p (left_ ns) (right_ ns) (rank_ ns).
Definition with_child (tr : LRTraits) (p : ptr) (ns : WAVLTreeNodeState) : WAVLTreeNodeState :=
  match tr with
  | ForwardTraits => NS (parent_ ns) p (right_ ns) (rank_ ns)
  | ReverseTraits => NS (parent_ ns) (left_ ns) p (rank_ ns)
  end.
Definition with_rank (r : bool) (ns : WAVLTreeNodeState) : WAVLTreeNodeState :=
  NS (parent_ ns) (left_ ns) (right_ ns) r.

(** Keys: the [KeyTraits] template parameter. *)
Class KeyTraits := {
  KeyType : Type;
  GetKey : N -> KeyType;
  LessThan : KeyType -> KeyType -> bool;
  EqualTo : KeyType -> KeyType -> bool;
}.

(** What the tree relies on: a strict total order and its equality. *)
Class KeyTraitsLaws (kt : KeyTraits) := {
  EqualTo_eq : forall a b, EqualTo a b = true <-> a = b;
  LessThan_irrefl : forall a, LessThan a a = false;
  LessThan_trans : forall a b c, LessThan a b = true -> LessThan b c = true -> LessThan a c = true;
  LessThan_total : forall a b, LessThan a b = true \/ a = b \/ LessThan b a = true;
}.

(** ** The operations *)

Section Operations.
Context {kt : KeyTraits}.
(** The address of the tree the operations are called on. *)
Context (this : N).

#[local] Abbreviation M := (ST world).

Definition sentinel : ptr := Sentinel this.

Definition ZX_DEBUG_ASSERT (b : bool) : M unit := if b then mret tt else undefined.

(** [NodeTraits::node_state( *p)], read and updated. *)
Definition node_state (p : ptr) : M WAVLTreeNodeState :=
  match p with
  | Obj n => fun w => ns ← heap w !! n; Some (ns, w)
  | _ => undefined
  end.
Definition update (p : ptr) (f : WAVLTreeNodeState -> WAVLTreeNodeState) : M unit :=
  match p with
  | Obj n => fun w => ns ← heap w !! n; Some (tt, World (tree w) (<[n := f ns]> (heap w)))
  | _ => undefined
  end.

Definition set_root (p : ptr) : M unit :=
  modify (fun w => World (Tree p (left_most_ (tree w)) (right_most_ (tree w)) (count_ (tree w))) (heap w)).
Definition set_count (f : Z -> Z) : M unit :=
  modify (fun w => World (Tree (root_ (tree w)) (left_most_ (tree w)) (right_most_ (tree w)) (f (count_ (tree w))))
                         (heap w)).
(** [LRTraits::LRMost( *this)]: the left-most node forward, the right-most reverse. *)
Definition LRMost (tr : LRTraits) (t : WAVLTree) : ptr :=
  match tr with ForwardTraits => left_most_ t | ReverseTraits => right_most_ t end.
Definition set_LRMost (tr : LRTraits) (p : ptr) : M unit :=
  modify (fun w => World match tr with
                         | ForwardTraits => Tree (root_ (tree w)) p (right_most_ (tree w)) (count_ (tree w))
                         | ReverseTraits => Tree (root_ (tree w)) (left_most_ (tree w)) p (count_ (tree w))
                         end (heap w)).

(** A [RawPtrType&]: the root field of the tree or a child field of an object. *)
Inductive link := RootLink | ChildLink (tr : LRTraits) (n : N).
#[export] Instance link_eq_dec : EqDecision link.
Proof. solve_decision. Defined.

Definition get_link (l : link) : M ptr :=
  match l with
  | RootLink => gets (fun w => root_ (tree w))
  | ChildLink tr n => ns ← node_state (Obj n); mret (LRChild tr ns)
  end.
Definition set_link (l : link) (p : ptr) : M unit :=
  match l with RootLink => set_root p | ChildLink tr n => update (Obj n) (with_child tr p) end.
(** The address of a child field of the object a pointer points to. *)
Definition child_link (tr : LRTraits) (p : ptr) : M link :=
  match p with Obj n => mret (ChildLink tr n) | _ => undefined end.

(** No chain of links is longer than the number of objects. *)
Definition chain_bound : M nat := gets (fun w => S (size (heap w))).

(** *** Observers *)

Definition is_empty : M bool := gets (fun w => same (root_ (tree w)) Null).
Definition begin : M ptr := gets (fun w => left_most_ (tree w)).
Definition end_ : M ptr := mret sentinel.
Definition root : M ptr := e ← is_empty; if e : bool then end_ else gets (fun w => root_ (tree w)).
Definition size_ : M Z := gets (fun w => count_ (tree w)).

Definition front : M ptr :=
  p ← gets (fun w => left_most_ (tree w)); ZX_DEBUG_ASSERT (valid_sentinel_ptr p) ;; mret p.
Definition back : M ptr :=
  p ← gets (fun w => right_most_ (tree w)); ZX_DEBUG_ASSERT (valid_sentinel_ptr p) ;; mret p.

(** [GetKey( *p)]. *)
Definition key_of (p : ptr) : M KeyType :=
  match p with Obj n => node_state (Obj n) ;; mret (GetKey n) | _ => undefined end.

Fixpoint find_loop (fuel : nat) (key : KeyType) (node : ptr) : M ptr :=
  match fuel with
  | O => undefined
  | S fuel =>
    if valid_sentinel_ptr node then
      node_key ← key_of node;
      if EqualTo key node_key then mret node
      else ns ← node_state node;
           find_loop fuel key (if LessThan key node_key then left_ ns else right_ ns)
    else end_
  end.
Definition find (key : KeyType) : M ptr :=
  fuel ← chain_bound; node ← gets (fun w => root_ (tree w)); find_loop fuel key node.

(** [UpperBoundTraits] and [LowerBoundTraits]. *)
Inductive BoundTraits := UpperBoundTraits | LowerBoundTraits.
Definition GoRight (b : BoundTraits) (key node_key : KeyType) : bool :=
  match b with
  | UpperBoundTraits => EqualTo node_key key || LessThan node_key key
  | LowerBoundTraits => LessThan node_key key
  end.

Fixpoint bound_loop (fuel : nat) (b : BoundTraits) (key : KeyType) (node found : ptr) : M ptr :=
  match fuel with
  | O => undefined
  | S fuel =>
    if valid_sentinel_ptr node then
      node_key ← key_of node;
      ns ← node_state node;
      if GoRight b key node_key then
        if same (right_ ns) Null then mret found else bound_loop fuel b key (right_ ns) found
      else bound_loop fuel b key (left_ ns) node
    else mret found
  end.
Definition internal_upper_lower_bound (b : BoundTraits) (key : KeyType) : M ptr :=
  fuel ← chain_bound; node ← gets (fun w => root_ (tree w)); bound_loop fuel b key node sentinel.
Definition upper_bound (key : KeyType) : M ptr := internal_upper_lower_bound UpperBoundTraits key.
Definition lower_bound (key : KeyType) : M ptr := internal_upper_lower_bound LowerBoundTraits key.

(** *** Iterators: the position is the [node_] of the iterator. *)

(** While we can go LR, do so. *)
Fixpoint descend (fuel : nat) (tr : LRTraits) (node : ptr) : M ptr :=
  match fuel with
  | O => undefined
  | S fuel =>
    ns ← node_state node;
    if same (LRChild tr ns) Null then mret node
    else ZX_DEBUG_ASSERT (negb (is_sentinel_ptr (LRChild tr ns))) ;; descend fuel tr (LRChild tr ns)
  end.

(** Climb up the tree until we traverse a LR-hand link. *)
Fixpoint climb (fuel : nat) (tr : LRTraits) (node : ptr) : M ptr :=
  match fuel with
  | O => undefined
  | S fuel =>
    ns ← node_state node;
    ZX_DEBUG_ASSERT (valid_sentinel_ptr (parent_ ns)) ;;
    parent_ns ← node_state (parent_ ns);
    let done := same (LRChild tr parent_ns) node in
    ZX_DEBUG_ASSERT (done || same (RLChild tr parent_ns) node) ;;
    if done then mret (parent_ ns) else climb fuel tr (parent_ ns)
  end.

Definition advance (tr : LRTraits) (node : ptr) : M ptr :=
  ZX_DEBUG_ASSERT (valid_sentinel_ptr node) ;;
  fuel ← chain_bound;
  ns ← node_state node;
  if same (RLChild tr ns) Null then climb fuel tr node
  else if is_sentinel_ptr (RLChild tr ns) then mret (RLChild tr ns)
  else descend fuel tr (RLChild tr ns).

(** [operator++] and [operator--]. *)
Definition next (node : ptr) : M ptr :=
  if valid_sentinel_ptr node then advance ForwardTraits node else mret node.
Definition prev (node : ptr) : M ptr :=
  match node with
  | Null => mret node
  | Sentinel t => if bool_decide (t = this) then gets (fun w => right_most_ (tree w)) else undefined
  | Obj _ => advance ReverseTraits node
  end.

(** [parent], [left] and [right] of an iterator. *)
Definition iter_parent (node : ptr) : M ptr :=
  ZX_DEBUG_ASSERT (valid_sentinel_ptr node) ;; ns ← node_state node; mret (parent_ ns).
Definition iter_left (node : ptr) : M ptr :=
  ZX_DEBUG_ASSERT (valid_sentinel_ptr node) ;; ns ← node_state node; mret (left_ ns).
Definition iter_right (node : ptr) : M ptr :=
  ZX_DEBUG_ASSERT (valid_sentinel_ptr node) ;; ns ← node_state node; mret (right_ ns).

Fixpoint find_if_loop (fuel : nat) (fn : N -> bool) (iter : ptr) : M ptr :=
  match fuel with
  | O => undefined
  | S fuel =>
    e ← end_;
    if same iter e then mret sentinel
    else match iter with
         | Obj n => if fn n then mret iter else iter' ← next iter; find_if_loop fuel fn iter'
         | _ => undefined
         end
  end.
Definition find_if (fn : N -> bool) : M ptr :=
  fuel ← chain_bound; iter ← begin; find_if_loop fuel fn iter.

(** *** Links and rotations *)

Definition GetLinkPtrToNode (node : ptr) : M link :=
  ZX_DEBUG_ASSERT (valid_sentinel_ptr node) ;;
  ns ← node_state node;
  if is_sentinel_ptr (parent_ ns) then
    ZX_DEBUG_ASSERT (same (parent_ ns) sentinel) ;;
    r ← gets (fun w => root_ (tree w));
    ZX_DEBUG_ASSERT (same r node) ;;
    mret RootLink
  else
    ZX_DEBUG_ASSERT (negb (same (parent_ ns) Null)) ;;
    parent_ns ← node_state (parent_ ns);
    if same (left_ parent_ns) node then child_link ForwardTraits (parent_ ns)
    else ZX_DEBUG_ASSERT (same (right_ parent_ns) node) ;; child_link ReverseTraits (parent_ ns).

Definition RotateLR (tr : LRTraits) (node parent : ptr) : M unit :=
  ZX_DEBUG_ASSERT (valid_sentinel_ptr node) ;;
  ZX_DEBUG_ASSERT (valid_sentinel_ptr parent) ;;
  let X := node in
  let Z := parent in
  Z_ns ← node_state Z;
  ZX_DEBUG_ASSERT (same (RLChild tr Z_ns) X) ;;
  X_link ← child_link (Inverse tr) Z;
  Y_link ← child_link tr X;
  Z_link ← GetLinkPtrToNode Z;
  let G := parent_ Z_ns in
  Y ← get_link Y_link;
  ZX_DEBUG_ASSERT (negb (is_sentinel_ptr Y)) ;;
  tmp ← get_link X_link;
  y ← get_link Y_link;
  set_link X_link y ;;
  z ← get_link Z_link;
  set_link Y_link z ;;
  set_link Z_link tmp ;;
  update X (with_parent G) ;;
  update Z (with_parent X) ;;
  if same Y Null then mret tt else update Y (with_parent Z).

Definition rank_parity (p : ptr) : M bool := ns ← node_state p; mret (rank_ ns).
(** The parity of a child that may not exist: missing children have rank -1. *)
Definition child_parity (p : ptr) : M bool := if valid_sentinel_ptr p then rank_parity p else mret true.

(** *** Insertion *)

Definition PostInsertFixupLR (tr : LRTraits) (node parent : ptr) : M unit :=
  ZX_DEBUG_ASSERT (valid_sentinel_ptr node) ;;
  ZX_DEBUG_ASSERT (valid_sentinel_ptr parent) ;;
  node_ns ← node_state node;
  parent_ns ← node_state parent;
  ZX_DEBUG_ASSERT (same (LRChild tr parent_ns) node) ;;
  let rl_child := RLChild tr node_ns in
  single ← (if valid_sentinel_ptr rl_child
            then rl_parity ← rank_parity rl_child; mret (Bool.eqb rl_parity (rank_ node_ns))
            else mret true);
  if (single : bool) then
    RotateLR (Inverse tr) node parent ;;
    update parent demote_rank
  else
    RotateLR tr rl_child node ;;
    RotateLR (Inverse tr) rl_child parent ;;
    update rl_child promote_rank ;;
    update node demote_rank ;;
    update parent demote_rank.

(** The do-while loop of [BalancePostInsert] and the code after it. *)
Fixpoint promote_loop (fuel : nat) (parent : ptr) : M unit :=
  match fuel with
  | O => undefined
  | S fuel =>
    update parent promote_rank ;;
    let node := parent in
    node_ns ← node_state node;
    let parent := parent_ node_ns in
    if negb (valid_sentinel_ptr parent) then mret tt
    else
      parent_ns ← node_state parent;
      let is_left_child := same (left_ parent_ns) node in
      sibling_parity ← (if is_left_child then child_parity (right_ parent_ns)
                        else ZX_DEBUG_ASSERT (same (right_ parent_ns) node) ;; child_parity (left_ parent_ns));
      let node_parity := rank_ node_ns in
      let parent_parity := rank_ parent_ns in
      if (negb node_parity && negb parent_parity && sibling_parity)
         || (node_parity && parent_parity && negb sibling_parity)
      then promote_loop fuel parent
      else if negb (Bool.eqb node_parity parent_parity) || negb (Bool.eqb node_parity sibling_parity)
      then mret tt
      else if is_left_child then PostInsertFixupLR ForwardTraits node parent
      else PostInsertFixupLR ReverseTraits node parent
  end.

Definition BalancePostInsert (node : ptr) : M unit :=
  node_ns ← node_state node;
  ZX_DEBUG_ASSERT (valid_sentinel_ptr (parent_ node_ns)) ;;
  let parent := parent_ node_ns in
  parent_ns ← node_state parent;
  if valid_sentinel_ptr (left_ parent_ns) && valid_sentinel_ptr (right_ parent_ns) then mret tt
  else fuel ← chain_bound; promote_loop fuel parent.

(** Where the search for a position ends: at an object with the same key, or at
    a free link below [parent]. *)
Inductive position := Collision (p : ptr) | Free (parent : ptr) (side : LRTraits) (is_left_most is_right_most : bool).

Fixpoint position_loop (fuel : nat) (key : KeyType) (parent : ptr) (is_left_most is_right_most : bool) : M position :=
  match fuel with
  | O => undefined
  | S fuel =>
    parent_key ← key_of parent;
    if EqualTo key parent_key then mret (Collision parent)
    else
      parent_ns ← node_state parent;
      let side := if LessThan key parent_key then ForwardTraits else ReverseTraits in
      let is_right_most := if LessThan key parent_key then false else is_right_most in
      let is_left_most := if LessThan key parent_key then is_left_most else false in
      if negb (valid_sentinel_ptr (LRChild side parent_ns)) then
        mret (Free parent side is_left_most is_right_most)
      else position_loop fuel key (LRChild side parent_ns) is_left_most is_right_most
  end.

(** The first object of an empty tree. *)
Definition insert_first (obj : ptr) : M unit :=
  update obj (with_parent sentinel) ;;
  update obj (with_child ForwardTraits sentinel) ;;
  update obj (with_child ReverseTraits sentinel) ;;
  t ← gets tree;
  ZX_DEBUG_ASSERT (is_sentinel_ptr (left_most_ t) && is_sentinel_ptr (right_most_ t)) ;;
  set_LRMost ForwardTraits obj ;;
  set_LRMost ReverseTraits obj ;;
  set_root obj ;;
  set_count (fun c => c ⊕[64] 1).

(** An object hung into the free link on one side of [parent]. *)
Definition insert_below (obj parent : ptr) (side : LRTraits) (is_left_most is_right_most : bool) : M unit :=
  owner ← child_link side parent;
  ZX_DEBUG_ASSERT (negb is_left_most || negb is_right_most) ;;
  o ← get_link owner;
  (if is_right_most then
     ZX_DEBUG_ASSERT (is_sentinel_ptr o) ;;
     update obj (with_child ReverseTraits sentinel) ;;
     set_LRMost ReverseTraits obj
   else if is_left_most then
     ZX_DEBUG_ASSERT (is_sentinel_ptr o) ;;
     update obj (with_child ForwardTraits sentinel) ;;
     set_LRMost ForwardTraits obj
   else mret tt) ;;
  o ← get_link owner;
  ZX_DEBUG_ASSERT (negb (valid_sentinel_ptr o)) ;;
  update obj (with_parent parent) ;;
  set_link owner obj ;;
  set_count (fun c => c ⊕[64] 1) ;;
  node ← get_link owner;
  BalancePostInsert node.

(** [collision] says whether the caller passed an out parameter; the result is
    what was written to it, [Null] when nothing was. *)
Definition internal_insert (n : N) (collision : bool) : M ptr :=
  let obj := Obj n in
  ns ← node_state obj;
  ZX_DEBUG_ASSERT (IsValid ns && negb (InContainer ns)) ;;
  update obj (with_rank false) ;;
  r ← gets (fun w => root_ (tree w));
  if same r Null then insert_first obj ;; mret Null
  else
    fuel ← chain_bound;
    pos ← position_loop fuel (GetKey n) r true true;
    match pos with
    | Collision p => ZX_DEBUG_ASSERT collision ;; mret p
    | Free parent side is_left_most is_right_most =>
      insert_below obj parent side is_left_most is_right_most ;; mret Null
    end.

Definition insert (n : N) : M unit := internal_insert n false ;; mret tt.

(** Returns whether the object was inserted, and what [*iter] is set to. *)
Definition insert_or_find (n : N) : M (bool * ptr) :=
  collision ← internal_insert n true;
  mret (same collision Null, if same collision Null then Obj n else collision).

(** Replace [old_node] by [new_node] in place. *)
Definition swap_child (side : LRTraits) (old_node new_node : ptr) : M unit :=
  old_ns ← node_state old_node;
  (if valid_sentinel_ptr (LRChild side old_ns) then update (LRChild side old_ns) (with_parent new_node)
   else if is_sentinel_ptr (LRChild side old_ns) then
     most ← gets (fun w => LRMost side (tree w));
     ZX_DEBUG_ASSERT (same most old_node) ;;
     set_LRMost side new_node
   else mret tt) ;;
  old_ns ← node_state old_node;
  update new_node (with_child side (LRChild side old_ns)) ;;
  update old_node (with_child side Null).

Definition internal_swap (old_node new_node : ptr) : M ptr :=
  k1 ← key_of old_node; k2 ← key_of new_node;
  ZX_DEBUG_ASSERT (EqualTo k1 k2) ;;
  old_ns ← node_state old_node;
  new_ns ← node_state new_node;
  ZX_DEBUG_ASSERT (InContainer old_ns) ;;
  ZX_DEBUG_ASSERT (negb (InContainer new_ns)) ;;
  swap_child ForwardTraits old_node new_node ;;
  swap_child ReverseTraits old_node new_node ;;
  old_ns ← node_state old_node;
  update new_node (with_rank (rank_ old_ns)) ;;
  l ← GetLinkPtrToNode old_node;
  set_link l new_node ;;
  old_ns ← node_state old_node;
  update new_node (with_parent (parent_ old_ns)) ;;
  update old_node (with_parent Null) ;;
  mret old_node.

Definition insert_or_replace (n : N) : M ptr :=
  ns ← node_state (Obj n);
  ZX_DEBUG_ASSERT (negb (InContainer ns)) ;;
  collision ← internal_insert n true;
  if same collision Null then mret Null else internal_swap collision (Obj n).

(** *** Erasure *)

Definition BalancePostErase_DoRotations (tr : LRTraits) (Y Z : ptr) : M unit :=
  ZX_DEBUG_ASSERT (valid_sentinel_ptr Y) ;;
  ZX_DEBUG_ASSERT (valid_sentinel_ptr Z) ;;
  Y_ns ← node_state Y;
  W_rank_parity ← child_parity (RLChild tr Y_ns);
  if negb (Bool.eqb (rank_ Y_ns) W_rank_parity) then
    RotateLR tr Y Z ;;
    update Y promote_rank ;;
    Z_ns ← node_state Z;
    if negb (valid_sentinel_ptr (left_ Z_ns)) && negb (valid_sentinel_ptr (right_ Z_ns))
    then update Z double_demote_rank
    else update Z demote_rank
  else
    let V := LRChild tr Y_ns in
    ZX_DEBUG_ASSERT (valid_sentinel_ptr V) ;;
    V_ns ← node_state V;
    ZX_DEBUG_ASSERT (negb (Bool.eqb (rank_ V_ns) (rank_ Y_ns))) ;;
    RotateLR (Inverse tr) V Y ;;
    RotateLR tr V Z ;;
    update V double_promote_rank ;;
    update Y demote_rank ;;
    update Z double_demote_rank.

(** [!valid_sentinel_ptr(p) || rank_parity( *p)] and
    [valid_sentinel_ptr(p) && !rank_parity( *p)]. *)
Definition odd_or_missing (p : ptr) : M bool := if valid_sentinel_ptr p then rank_parity p else mret true.
Definition even_and_present (p : ptr) : M bool :=
  if valid_sentinel_ptr p then r ← rank_parity p; mret (negb r) else mret false.

Definition is_22_node (Y_ns : WAVLTreeNodeState) : M bool :=
  if rank_ Y_ns then
    l ← odd_or_missing (left_ Y_ns);
    if l : bool then odd_or_missing (right_ Y_ns) else mret false
  else if valid_sentinel_ptr (left_ Y_ns) && valid_sentinel_ptr (right_ Y_ns) then
    l ← even_and_present (left_ Y_ns);
    if l : bool then even_and_present (right_ Y_ns) else mret false
  else mret false.

(** Phase 1 of [BalancePostErase_FixLR3Child] with the call that follows it:
    [Z] has the 3-child, [Y] is its sibling. *)
Fixpoint demote_loop (fuel : nat) (tr : LRTraits) (X_is_LR_child : bool) (Y Z : ptr) : M unit :=
  match fuel with
  | O => undefined
  | S fuel =>
    ZX_DEBUG_ASSERT (valid_sentinel_ptr Y) ;;
    Y_ns ← node_state Y;
    Z_ns ← node_state Z;
    let Y_is_2_child := Bool.eqb (rank_ Y_ns) (rank_ Z_ns) in
    go_on ← (if Y_is_2_child then mret true else is_22_node Y_ns);
    if (go_on : bool) then
      update Z demote_rank ;;
      (if Y_is_2_child then mret tt else update Y demote_rank) ;;
      Z_ns ← node_state Z;
      if negb (valid_sentinel_ptr (parent_ Z_ns)) then mret tt
      else
        let X_rank_parity := rank_ Z_ns in
        let X := Z in
        let Z := parent_ Z_ns in
        Z_ns ← node_state Z;
        if Bool.eqb (rank_ Z_ns) X_rank_parity then mret tt
        else
          let X_is_LR_child := same (LRChild tr Z_ns) X in
          demote_loop fuel tr X_is_LR_child (if X_is_LR_child then RLChild tr Z_ns else LRChild tr Z_ns) Z
    else if X_is_LR_child then BalancePostErase_DoRotations tr Y Z
    else BalancePostErase_DoRotations (Inverse tr) Y Z
  end.

Definition BalancePostErase_FixLR3Child (tr : LRTraits) (node : ptr) : M unit :=
  ZX_DEBUG_ASSERT (valid_sentinel_ptr node) ;;
  Z_ns ← node_state node;
  if negb (Bool.eqb (valid_sentinel_ptr (LRChild tr Z_ns)) (rank_ Z_ns)) then mret tt
  else fuel ← chain_bound; demote_loop fuel tr true (RLChild tr Z_ns) node.

Definition BalancePostErase_Fix22Leaf (node : ptr) : M unit :=
  ZX_DEBUG_ASSERT (valid_sentinel_ptr node) ;;
  ns ← node_state node;
  if negb (rank_ ns) || valid_sentinel_ptr (left_ ns) || valid_sentinel_ptr (right_ ns) then mret tt
  else
    update node demote_rank ;;
    ZX_DEBUG_ASSERT (negb (same (parent_ ns) Null)) ;;
    if is_sentinel_ptr (parent_ ns) then mret tt
    else
      parent_ns ← node_state (parent_ ns);
      let is_left_child := same (left_ parent_ns) node in
      ZX_DEBUG_ASSERT (is_left_child || same (right_ parent_ns) node) ;;
      if is_left_child then BalancePostErase_FixLR3Child ForwardTraits (parent_ ns)
      else BalancePostErase_FixLR3Child ReverseTraits (parent_ ns).

(** The node whose [parent_] field must follow, when there is one. *)
Definition set_parent_if (p : ptr) (v : ptr) : M unit :=
  if valid_sentinel_ptr p then update p (with_parent v) else mret tt.

Definition SwapWithRightDescendant (ptr_ref1 ptr_ref2 : link) : M link :=
  node1 ← get_link ptr_ref1;
  node2 ← get_link ptr_ref2;
  ns1 ← node_state node1;
  ns2 ← node_state node2;
  ZX_DEBUG_ASSERT (valid_sentinel_ptr (right_ ns1)) ;;
  t ← gets tree;
  (if same node1 (left_most_ t) then set_LRMost ForwardTraits node2 else mret tt) ;;
  t ← gets tree;
  (if same node2 (right_most_ t) then set_LRMost ReverseTraits node1 else mret tt) ;;
  update node1 (fun _ => ns2) ;;
  update node2 (fun _ => ns1) ;;
  set_parent_if (left_ ns1) node2 ;;
  set_parent_if (left_ ns2) node1 ;;
  set_parent_if (right_ ns2) node1 ;;
  match node1, node2 with
  | Obj n1, Obj n2 =>
    if bool_decide (ptr_ref2 = ChildLink ReverseTraits n1) then
      ns1' ← node_state node1;
      ZX_DEBUG_ASSERT (same (parent_ ns1') node1) ;;
      ns2' ← node_state node2;
      ZX_DEBUG_ASSERT (same (right_ ns2') node2) ;;
      a ← get_link ptr_ref1;
      set_link ptr_ref1 (right_ ns2') ;;
      update node2 (with_child ReverseTraits a) ;;
      update node1 (with_parent node2) ;;
      mret (ChildLink ReverseTraits n2)
    else
      a ← get_link ptr_ref1;
      b ← get_link ptr_ref2;
      set_link ptr_ref1 b ;;
      set_link ptr_ref2 a ;;
      update (right_ ns1) (with_parent node2) ;;
      mret ptr_ref2
  | _, _ => undefined
  end.

(** The search for the new RL-most node of a subtree. *)
Fixpoint rl_most_loop (fuel : nat) (tr : LRTraits) (replacement : ptr) : M ptr :=
  match fuel with
  | O => undefined
  | S fuel =>
    replacement_ns ← node_state replacement;
    ZX_DEBUG_ASSERT (negb (is_sentinel_ptr (RLChild tr replacement_ns))) ;;
    if same (RLChild tr replacement_ns) Null then mret replacement
    else rl_most_loop fuel tr (RLChild tr replacement_ns)
  end.

Definition PromoteLRChild (tr : LRTraits) (owner : link) (node : ptr) : M unit :=
  o ← get_link owner;
  ZX_DEBUG_ASSERT (same o Null) ;;
  ns ← node_state node;
  ZX_DEBUG_ASSERT (valid_sentinel_ptr (LRChild tr ns) && negb (valid_sentinel_ptr (RLChild tr ns))) ;;
  set_link owner (LRChild tr ns) ;;
  update node (with_child tr Null) ;;
  o ← get_link owner;
  update o (with_parent (parent_ ns)) ;;
  rl_most ← gets (fun w => LRMost (Inverse tr) (tree w));
  ZX_DEBUG_ASSERT (Bool.eqb (same rl_most node) (is_sentinel_ptr (RLChild tr ns))) ;;
  (if is_sentinel_ptr (RLChild tr ns) then
     fuel ← chain_bound;
     replacement ← rl_most_loop fuel tr o;
     set_LRMost (Inverse tr) replacement ;;
     update replacement (with_child (Inverse tr) sentinel) ;;
     update node (with_child (Inverse tr) Null)
   else mret tt) ;;
  update node (with_parent Null) ;;
  ns ← node_state node;
  ZX_DEBUG_ASSERT (same (left_ ns) Null) ;;
  ZX_DEBUG_ASSERT (same (right_ ns) Null).

(** The left-most link below a link. *)
Fixpoint left_most_link (fuel : nat) (owner : link) (node : ptr) : M link :=
  match fuel with
  | O => undefined
  | S fuel =>
    ns ← node_state node;
    if same (left_ ns) Null then mret owner
    else
      ZX_DEBUG_ASSERT (negb (is_sentinel_ptr (left_ ns))) ;;
      l ← child_link ForwardTraits node;
      left_most_link fuel l (left_ ns)
  end.

(** Unlinking a node that has at most one child, with the bookkeeping of the
    left-most and right-most nodes. *)
Definition unlink (owner : link) (target : ptr) : M unit :=
  ns ← node_state target;
  if valid_sentinel_ptr (left_ ns) then PromoteLRChild ForwardTraits owner target
  else if valid_sentinel_ptr (right_ ns) then PromoteLRChild ReverseTraits owner target
  else
    t ← gets tree;
    ZX_DEBUG_ASSERT (Bool.eqb (is_sentinel_ptr (left_ ns)) (same (left_most_ t) target)) ;;
    ZX_DEBUG_ASSERT (Bool.eqb (is_sentinel_ptr (right_ ns)) (same (right_most_ t) target)) ;;
    (if is_sentinel_ptr (left_ ns) then
       if is_sentinel_ptr (right_ ns) then
         ZX_DEBUG_ASSERT (count_ t =? 1) ;;
         ZX_DEBUG_ASSERT (is_sentinel_ptr (parent_ ns)) ;;
         set_LRMost ForwardTraits sentinel ;;
         set_LRMost ReverseTraits sentinel ;;
         update target (with_child ForwardTraits Null) ;;
         update target (with_child ReverseTraits Null)
       else
         ZX_DEBUG_ASSERT (valid_sentinel_ptr (parent_ ns)) ;;
         ZX_DEBUG_ASSERT (same (right_ ns) Null) ;;
         set_LRMost ForwardTraits (parent_ ns) ;;
         set_link owner (left_ ns) ;;
         update target (with_child ForwardTraits Null)
     else if is_sentinel_ptr (right_ ns) then
       ZX_DEBUG_ASSERT (valid_sentinel_ptr (parent_ ns)) ;;
       ZX_DEBUG_ASSERT (same (left_ ns) Null) ;;
       set_LRMost ReverseTraits (parent_ ns) ;;
       set_link owner (right_ ns) ;;
       update target (with_child ReverseTraits Null)
     else mret tt) ;;
    update target (with_parent Null).

(** The link that owns the object; an object with two children first trades places
    with the left-most object of its right subtree. *)
Definition erase_owner (p : ptr) : M link :=
  owner ← GetLinkPtrToNode p;
  o ← get_link owner;
  ZX_DEBUG_ASSERT (same o p) ;;
  ns ← node_state p;
  if valid_sentinel_ptr (left_ ns) && valid_sentinel_ptr (right_ ns) then
    fuel ← chain_bound;
    l ← child_link ReverseTraits p;
    new_owner ← left_most_link fuel l (right_ ns);
    owner ← SwapWithRightDescendant owner new_owner;
    o ← get_link owner;
    ZX_DEBUG_ASSERT (same o p) ;;
    mret owner
  else mret owner.

(** Whether the object was a 1-child, and whether it was a left child. *)
Definition child_info (ns : WAVLTreeNodeState) (owner : link) : M (bool * bool) :=
  ZX_DEBUG_ASSERT (negb (same (parent_ ns) Null)) ;;
  if negb (is_sentinel_ptr (parent_ ns)) then
    parent_ns ← node_state (parent_ ns);
    l ← child_link ForwardTraits (parent_ ns);
    mret (negb (Bool.eqb (rank_ ns) (rank_ parent_ns)), bool_decide (l = owner))
  else mret (false, false).

Definition rebalance_after_erase (parent : ptr) (was_one_child was_left_child : bool) : M unit :=
  if negb (is_sentinel_ptr parent) then
    if was_one_child then BalancePostErase_Fix22Leaf parent
    else if was_left_child then BalancePostErase_FixLR3Child ForwardTraits parent
    else BalancePostErase_FixLR3Child ReverseTraits parent
  else mret tt.

Definition internal_erase (p : ptr) : M ptr :=
  if negb (valid_sentinel_ptr p) then mret Null
  else
    owner ← erase_owner p;
    ns ← node_state p;
    let parent := parent_ ns in
    info ← child_info ns owner;
    set_link owner Null ;;
    unlink owner p ;;
    ns ← node_state p;
    ZX_DEBUG_ASSERT (IsValid ns && negb (InContainer ns)) ;;
    set_count (fun c => c ⊖[64] 1) ;;
    rebalance_after_erase parent (fst info) (snd info) ;;
    mret p.

(** The overloads of [erase]: by iterator, by object, by key. *)
Definition erase_iter (iter : ptr) : M ptr := if negb (valid_sentinel_ptr iter) then mret Null else internal_erase iter.
Definition erase_obj (obj : ptr) : M ptr := internal_erase obj.
Definition erase (key : KeyType) : M ptr := iter ← find key; erase_iter iter.
Definition pop_front : M ptr := p ← gets (fun w => left_most_ (tree w)); internal_erase p.
Definition pop_back : M ptr := p ← gets (fun w => right_most_ (tree w)); internal_erase p.

Fixpoint erase_if_loop (fuel : nat) (fn : N -> bool) (iter : ptr) : M ptr :=
  match fuel with
  | O => undefined
  | S fuel =>
    e ← end_;
    if same iter e then mret Null
    else match iter with
         | Obj n => if fn n then erase_iter iter else iter' ← next iter; erase_if_loop fuel fn iter'
         | _ => undefined
         end
  end.
Definition erase_if (fn : N -> bool) : M ptr :=
  fuel ← chain_bound; iter ← begin; erase_if_loop fuel fn iter.

(** *** Clearing and swapping *)

Fixpoint clear_loop (fuel : nat) (owner : ptr) (link_ptr : link) : M unit :=
  match fuel with
  | O => undefined
  | S fuel =>
    node ← get_link link_ptr;
    ns ← node_state node;
    if same (left_ ns) Null && same (right_ ns) Null then
      ZX_DEBUG_ASSERT (same (parent_ ns) owner) ;;
      update node (with_parent Null) ;;
      set_link link_ptr Null ;;
      if bool_decide (link_ptr = RootLink) then mret tt
      else
        link_ptr ← GetLinkPtrToNode owner;
        owner_ns ← node_state owner;
        clear_loop fuel (parent_ owner_ns) link_ptr
    else
      ZX_DEBUG_ASSERT (negb (is_sentinel_ptr (left_ ns))) ;;
      ZX_DEBUG_ASSERT (negb (is_sentinel_ptr (right_ ns))) ;;
      link_ptr ← child_link (if negb (same (left_ ns) Null) then ForwardTraits else ReverseTraits) node;
      clear_loop fuel node link_ptr
  end.

Definition clear : M unit :=
  e ← is_empty;
  if e : bool then mret tt
  else
    t ← gets tree;
    ZX_DEBUG_ASSERT (valid_sentinel_ptr (root_ t)) ;;
    ZX_DEBUG_ASSERT (valid_sentinel_ptr (left_most_ t)) ;;
    ZX_DEBUG_ASSERT (valid_sentinel_ptr (right_most_ t)) ;;
    update (left_most_ t) (with_child ForwardTraits Null) ;;
    update (right_most_ t) (with_child ReverseTraits Null) ;;
    fuel ← chain_bound;
    clear_loop (2 * fuel) sentinel RootLink ;;
    r ← gets (fun w => root_ (tree w));
    ZX_DEBUG_ASSERT (same r Null) ;;
    set_LRMost ForwardTraits sentinel ;;
    set_LRMost ReverseTraits sentinel ;;
    set_count (fun _ => 0).

Definition clear_unsafe : M unit :=
  set_root Null ;; set_LRMost ForwardTraits sentinel ;; set_LRMost ReverseTraits sentinel ;; set_count (fun _ => 0).

Definition FixSentinelsAfterSwap : M unit :=
  t ← gets tree;
  if negb (same (root_ t) Null) then
    ZX_DEBUG_ASSERT (negb (is_sentinel_ptr (root_ t))) ;;
    ZX_DEBUG_ASSERT (valid_sentinel_ptr (left_most_ t)) ;;
    ZX_DEBUG_ASSERT (valid_sentinel_ptr (right_most_ t)) ;;
    left_most_ns ← node_state (left_most_ t);
    right_most_ns ← node_state (right_most_ t);
    ZX_DEBUG_ASSERT (is_sentinel_ptr (left_ left_most_ns)) ;;
    ZX_DEBUG_ASSERT (is_sentinel_ptr (right_ right_most_ns)) ;;
    update (root_ t) (with_parent sentinel) ;;
    update (left_most_ t) (with_child ForwardTraits sentinel) ;;
    update (right_most_ t) (with_child ReverseTraits sentinel)
  else
    ZX_DEBUG_ASSERT (is_sentinel_ptr (left_most_ t)) ;;
    ZX_DEBUG_ASSERT (is_sentinel_ptr (right_most_ t)) ;;
    set_LRMost ForwardTraits sentinel ;;
    set_LRMost ReverseTraits sentinel.

End Operations.

#[global] Arguments node_state : simpl never.
#[global] Arguments update : simpl never.
#[global] Arguments child_link : simpl never.
#[global] Arguments ZX_DEBUG_ASSERT : simpl never.
#[global] Arguments get_link : simpl never.
#[global] Arguments set_link : simpl never.

(** A tree as it is constructed at address [this]. *)
Definition empty_tree (this : N) : WAVLTree := Tree Null (Sentinel this) (Sentinel this) 0.

(** [a.swap(b)] of two trees that share the heap of objects. *)
Definition swap (a b : N) (ta tb : WAVLTree) (h : gmap N WAVLTreeNodeState)
  : option (WAVLTree * WAVLTree * gmap N WAVLTreeNodeState) :=
  '(_, wa) ← FixSentinelsAfterSwap a (World tb h);
  '(_, wb) ← FixSentinelsAfterSwap b (World ta (heap wa));
  Some (tree wa, tree wb, heap wb).

(** Move construction and move assignment; a tree of unmanaged pointers may only
    be assigned to while it is empty. *)
Definition move_construct (a b : N) (tb : WAVLTree) (h : gmap N WAVLTreeNodeState)
  : option (WAVLTree * WAVLTree * gmap N WAVLTreeNodeState) := swap a b (empty_tree a) tb h.
Definition move_assign (is_managed : bool) (a b : N) (ta tb : WAVLTree) (h : gmap N WAVLTreeNodeState)
  : option (WAVLTree * WAVLTree * gmap N WAVLTreeNodeState) :=
  if is_managed || same (root_ ta) Null
  then '(_, w) ← clear a (World ta h); swap a b (tree w) tb (heap w)
  else None.
(** The destructor. *)
Definition destruct_tree (is_managed : bool) (a : N) : ST world unit :=
  e ← is_empty; ZX_DEBUG_ASSERT (is_managed || e) ;; clear a.
