(* ===== verification/WavlSpec.v ===== *)
(** * What a heap of WAVL nodes represents

    A [shape] is a binary tree of objects with integer ranks, [wavl] the rank rule
    and [inorder] the sequence the tree holds.  [cells] lists the node state every
    object of a shape must have: children that do not exist are null, except at the
    two ends of the whole tree, where they are the tree's sentinel, and the rank is
    kept only up to parity.  A shape with a hole is a list of frames, and [at_hole]
    says that the heap holds a shape in the hole of such a context; the operations
    are specified by how they transform it. *)

From stdpp Require Import gmap.
From S2P Require Import Prelude Wavl.

(** ** Shapes *)

Inductive shape := Leaf | Bin (l : shape) (n : N) (rk : Z) (r : shape).

(** A node with [x] on its LR side and [y] on its RL side. *)
Definition mk (tr : LRTraits) (x : shape) (n : N) (rk : Z) (y : shape) : shape :=
  match tr with ForwardTraits => Bin x n rk y | ReverseTraits => Bin y n rk x end.

Definition rank (t : shape) : Z := match t with Leaf => -1 | Bin _ _ rk _ => rk end.

Fixpoint inorder (t : shape) : list N :=
  match t with Leaf => [] | Bin l n _ r => inorder l ++ n :: inorder r end.

Definition diff12 (parent child : Z) : Prop := child + 1 <= parent <= child + 2.

(** The rank rule: rank differences are 1 or 2 and leaves have rank 0. *)
Fixpoint wavl (t : shape) : Prop :=
  match t with
  | Leaf => True
  | Bin l _ rk r =>
    diff12 rk (rank l) /\ diff12 rk (rank r) /\ (l = Leaf -> r = Leaf -> rk = 0) /\ wavl l /\ wavl r
  end.

Lemma mk_Inverse tr x n rk y : mk (Inverse tr) x n rk y = mk tr y n rk x.
Proof. by destruct tr. Qed.

Lemma mk_inj tr x n rk y x' n' rk' y' :
  mk tr x n rk y = mk tr x' n' rk' y' -> (x, n, rk, y) = (x', n', rk', y').
Proof. destruct tr; by intros [= -> -> -> ->]. Qed.

Lemma rank_mk tr x n rk y : rank (mk tr x n rk y) = rk.
Proof. by destruct tr. Qed.

Lemma wavl_mk tr x n rk y :
  wavl (mk tr x n rk y) <->
  diff12 rk (rank x) /\ diff12 rk (rank y) /\ (x = Leaf -> y = Leaf -> rk = 0) /\ wavl x /\ wavl y.
Proof. destruct tr; simpl; tauto. Qed.

Lemma wavl_rank t : wavl t -> -1 <= rank t.
Proof.
  induction t as [|l IHl n rk r IHr]; simpl; [lia|]. unfold diff12. intros (? & ? & ? & Hl & ?).
  specialize (IHl Hl). lia.
Qed.

Lemma wavl_rank_nonneg t : wavl t -> t <> Leaf -> 0 <= rank t.
Proof.
  destruct t as [|l n rk r]; [done|]. intros (H & _ & _ & Hl & _) _. apply wavl_rank in Hl.
  unfold diff12 in H. simpl. lia.
Qed.

Lemma wavl_rank_Leaf t : wavl t -> rank t = -1 <-> t = Leaf.
Proof.
  intros H. split; [|by intros ->]. intros Hr. destruct t as [|l n rk r]; [done|].
  pose proof (wavl_rank_nonneg _ H ltac:(done)). lia.
Qed.

Lemma mk_not_Leaf tr x n rk y : mk tr x n rk y <> Leaf.
Proof. by destruct tr. Qed.

(** ** The cells of a shape *)

(** Whether a subtree is at the left or the right end of the whole tree. *)
Record edge := Edge { at_left : bool; at_right : bool }.

Definition inner (e : edge) (tr : LRTraits) : edge :=
  match tr with ForwardTraits => Edge (at_left e) false | ReverseTraits => Edge false (at_right e) end.

Lemma inner_inner e tr : inner (inner e tr) tr = inner e tr.
Proof. by destruct e, tr. Qed.

Lemma inner_cross e tr : inner (inner e tr) (Inverse tr) = Edge false false.
Proof. by destruct e, tr. Qed.

Lemma inner_cross' e tr : inner (inner e (Inverse tr)) tr = Edge false false.
Proof. by destruct e, tr. Qed.

(** A node state with [x] in the LR-child field and [y] in the RL-child field. *)
Definition NSd (tr : LRTraits) (p x y : ptr) (r : bool) : WAVLTreeNodeState :=
  match tr with ForwardTraits => NS p x y r | ReverseTraits => NS p y x r end.

Section NodeStates.
Context (tr : LRTraits) (p x y q : ptr) (r s : bool).
Lemma NSd_Inverse : NSd (Inverse tr) p x y r = NSd tr p y x r. Proof. by destruct tr. Qed.
Lemma LRChild_NSd : LRChild tr (NSd tr p x y r) = x. Proof. by destruct tr. Qed.
Lemma LRChild_Inverse_NSd : LRChild (Inverse tr) (NSd tr p x y r) = y. Proof. by destruct tr. Qed.
Lemma RLChild_NSd : RLChild tr (NSd tr p x y r) = y. Proof. by destruct tr. Qed.
Lemma parent_NSd : parent_ (NSd tr p x y r) = p. Proof. by destruct tr. Qed.
Lemma rank_NSd : rank_ (NSd tr p x y r) = r. Proof. by destruct tr. Qed.
Lemma with_parent_NSd : with_parent q (NSd tr p x y r) = NSd tr q x y r. Proof. by destruct tr. Qed.
Lemma with_child_NSd : with_child tr q (NSd tr p x y r) = NSd tr p q y r. Proof. by destruct tr. Qed.
Lemma with_child_Inverse_NSd : with_child (Inverse tr) q (NSd tr p x y r) = NSd tr p x q r.
Proof. by destruct tr. Qed.
Lemma with_rank_NSd : with_rank s (NSd tr p x y r) = NSd tr p x y s. Proof. by destruct tr. Qed.
Lemma promote_NSd : promote_rank (NSd tr p x y r) = NSd tr p x y (negb r). Proof. by destruct tr. Qed.
Lemma demote_NSd : demote_rank (NSd tr p x y r) = NSd tr p x y (negb r). Proof. by destruct tr. Qed.
Lemma Inverse_Inverse : Inverse (Inverse tr) = tr. Proof. by destruct tr. Qed.
End NodeStates.

Create Rewrite HintDb wavl.
#[export] Hint Rewrite NSd_Inverse LRChild_NSd LRChild_Inverse_NSd RLChild_NSd parent_NSd rank_NSd with_parent_NSd
  with_child_NSd with_child_Inverse_NSd with_rank_NSd promote_NSd demote_NSd Inverse_Inverse
  inner_inner inner_cross inner_cross' : wavl.

Section Cells.
Context (this : N).
#[local] Abbreviation cell := (N * WAVLTreeNodeState)%type.

(** What points to a subtree. *)
Definition hang (e : edge) (t : shape) : ptr :=
  match t with
  | Leaf => if at_left e || at_right e then sentinel this else Null
  | Bin _ n _ _ => Obj n
  end.

Lemma hang_mk e tr x n rk y : hang e (mk tr x n rk y) = Obj n.
Proof. by destruct tr. Qed.

Fixpoint cells (e : edge) (par : ptr) (t : shape) : list cell :=
  match t with
  | Leaf => []
  | Bin l n rk r =>
    (n, NS par (hang (inner e ForwardTraits) l) (hang (inner e ReverseTraits) r) (Z.odd rk))
    :: cells (inner e ForwardTraits) (Obj n) l ++ cells (inner e ReverseTraits) (Obj n) r
  end.

Lemma cells_mk e par tr x n rk y :
  cells e par (mk tr x n rk y) ≡ₚ
  (n, NSd tr par (hang (inner e tr) x) (hang (inner e (Inverse tr)) y) (Z.odd rk))
  :: cells (inner e tr) (Obj n) x ++ cells (inner e (Inverse tr)) (Obj n) y.
Proof. destruct tr; simpl; [done|]. f_equiv. apply Permutation_app_comm. Qed.

Lemma cells_inorder e par t : (cells e par t).*1 ≡ₚ inorder t.
Proof.
  revert e par. induction t as [|l IHl n rk r IHr]; intros e par; simpl; [done|].
  rewrite fmap_app, IHl, IHr. apply Permutation_middle.
Qed.

(** ** Contexts *)

Record frame := Frame { side : LRTraits; fnode : N; frank : Z; sibling : shape }.
Definition ctx := list frame.

Definition fill (f : frame) (t : shape) : shape := mk (side f) t (fnode f) (frank f) (sibling f).
Definition plug (c : ctx) (t : shape) : shape := foldl (fun t f => fill f t) t c.

Fixpoint hole_edge (c : ctx) : edge :=
  match c with [] => Edge true true | f :: c => inner (hole_edge c) (side f) end.
Definition hole_par (c : ctx) : ptr := match c with [] => sentinel this | f :: _ => Obj (fnode f) end.
Definition hole_link (c : ctx) : link := match c with [] => RootLink | f :: _ => ChildLink (side f) (fnode f) end.

Definition frame_cell (c : ctx) (f : frame) (p : ptr) : cell :=
  (fnode f, NSd (side f) (hole_par c) p (hang (inner (hole_edge c) (Inverse (side f))) (sibling f)) (Z.odd (frank f))).
Definition sibling_cells (c : ctx) (f : frame) : list cell :=
  cells (inner (hole_edge c) (Inverse (side f))) (Obj (fnode f)) (sibling f).

Fixpoint ctx_cells (c : ctx) (p : ptr) : list cell :=
  match c with
  | [] => []
  | f :: c => frame_cell c f p :: sibling_cells c f ++ ctx_cells c (Obj (fnode f))
  end.
Fixpoint ctx_root (c : ctx) (p : ptr) : ptr := match c with [] => p | f :: c => ctx_root c (Obj (fnode f)) end.

(** The fields of the tree that are not links. *)
Record book := Book { lm : ptr; rm : ptr; cnt : Z }.
Definition book_of (t : WAVLTree) : book := Book (left_most_ t) (right_most_ t) (count_ t).

(** [st h0 b w c p cs]: the world holds the context [c] with [p] in the link of its
    hole and the cells [cs], the objects are pairwise different, and all other
    objects are as in [h0]. *)
Record st (h0 : gmap N WAVLTreeNodeState) (b : book) (w : world) (c : ctx) (p : ptr) (cs : list cell) : Prop := {
  st_root : root_ (tree w) = ctx_root c p;
  st_book : book_of (tree w) = b;
  st_owns : forall n ns, (n, ns) ∈ ctx_cells c p ++ cs -> heap w !! n = Some ns;
  st_nodup : NoDup (ctx_cells c p ++ cs).*1;
  st_rest : forall n, n ∉ (ctx_cells c p ++ cs).*1 -> heap w !! n = h0 !! n;
}.

Definition at_hole h0 b w c t : Prop := st h0 b w c (hang (hole_edge c) t) (cells (hole_edge c) (hole_par c) t).

(** The world holds exactly the tree [t] (and [h0] elsewhere). *)
Definition root_ptr (t : shape) : ptr := match t with Leaf => Null | Bin _ n _ _ => Obj n end.
Definition or_sentinel (o : option N) : ptr := match o with Some n => Obj n | None => sentinel this end.
Definition list_book (l : list N) : book :=
  Book (or_sentinel (head l)) (or_sentinel (last l)) (wrap 64 (Z.of_nat (length l))).
Definition represents h0 (w : world) (t : shape) : Prop :=
  st h0 (list_book (inorder t)) w [] (root_ptr t) (cells (Edge true true) (sentinel this) t).

(** The rank rule of a context whose hole has rank [r]. *)
Fixpoint ctx_ok (c : ctx) (r : Z) : Prop :=
  match c with
  | [] => True
  | f :: c =>
    diff12 (frank f) r /\ diff12 (frank f) (rank (sibling f)) /\
    (r = -1 -> sibling f = Leaf -> frank f = 0) /\ wavl (sibling f) /\ ctx_ok c (frank f)
  end.

Lemma wavl_plug c t : wavl (plug c t) <-> wavl t /\ ctx_ok c (rank t).
Proof.
  revert t. induction c as [|f c IH]; intros t; simpl; [tauto|].
  rewrite IH. unfold fill. rewrite wavl_mk, rank_mk. split.
  - intros [(? & ? & Hl & Ht & ?) ?]. pose proof (wavl_rank_Leaf t Ht). tauto.
  - intros (Ht & ? & ? & Hl & ? & ?). pose proof (wavl_rank_Leaf t Ht). tauto.
Qed.

Lemma inorder_mk_cong tr x n rk y x' rk' y' :
  inorder x = inorder x' -> inorder y = inorder y' -> inorder (mk tr x n rk y) = inorder (mk tr x' n rk' y').
Proof. destruct tr; simpl; by intros -> ->. Qed.

Lemma inorder_plug_cong c t t' : inorder t = inorder t' -> inorder (plug c t) = inorder (plug c t').
Proof. revert t t'. induction c as [|f c IH]; intros t t' H; simpl; [done|]. by apply IH, inorder_mk_cong. Qed.

Lemma inorder_rotate tr A z rz Y x rx B rz' rx' :
  inorder (mk tr (mk tr A z rz Y) x rx B) = inorder (mk tr A z rz' (mk tr Y x rx' B)).
Proof. destruct tr; simpl; by rewrite <- app_assoc. Qed.

(** What comes before and after the hole. *)
Fixpoint before (c : ctx) : list N :=
  match c with
  | [] => []
  | f :: c => before c ++ match side f with ForwardTraits => [] | ReverseTraits => inorder (sibling f) ++ [fnode f] end
  end.
Fixpoint after (c : ctx) : list N :=
  match c with
  | [] => []
  | f :: c => match side f with ForwardTraits => fnode f :: inorder (sibling f) | ReverseTraits => [] end ++ after c
  end.

Lemma inorder_plug c t : inorder (plug c t) = before c ++ inorder t ++ after c.
Proof.
  revert t. induction c as [|f c IH]; intros t; simpl; [by rewrite app_nil_r|].
  rewrite IH. unfold fill. destruct (side f); simpl; by rewrite <- !app_assoc.
Qed.

Lemma ctx_cells_inorder c p t : (ctx_cells c p).*1 ++ inorder t ≡ₚ inorder (plug c t).
Proof.
  revert p t. induction c as [|f c IH]; intros p t; simpl; [done|].
  rewrite <- (IH (Obj (fnode f)) (fill f t)). unfold fill. rewrite fmap_app. unfold sibling_cells.
  rewrite cells_inorder. destruct (side f); simpl; solve_Permutation.
Qed.

(** One cell of a list replaced. *)
Inductive repl (n : N) (a b : WAVLTreeNodeState) : list cell -> list cell -> Prop :=
| repl_here l : repl n a b ((n, a) :: l) ((n, b) :: l)
| repl_next x l l' : repl n a b l l' -> repl n a b (x :: l) (x :: l')
| repl_app k l l' : repl n a b l l' -> repl n a b (k ++ l) (k ++ l').

End Cells.
