(* ===== verification/WavlLogic.v ===== *)
(** * Reasoning about the heap of a WAVL tree

    The rules that execute the primitive steps of wavl_tree.h symbolically: reading
    a node state, updating it, following and changing the link to the hole of a
    context, and the rotation built from them. *)

From stdpp Require Import gmap.
From S2P Require Import Prelude Wavl WavlSpec.

Section Logic.
Context (this : N) (h0 : gmap N WAVLTreeNodeState) (b : book).
#[local] Abbreviation st := (st this h0 b).
#[local] Abbreviation at_hole := (at_hole this h0 b).
#[local] Abbreviation cells := (cells this).
#[local] Abbreviation hang := (hang this).
#[local] Abbreviation ctx_cells := (ctx_cells this).

Lemma st_perm w c p cs cs' : cs ≡ₚ cs' -> st w c p cs -> st w c p cs'.
Proof.
  intros Hp [Hr Hb Ho Hn Hrest]. split; try done.
  - intros n ns. rewrite <- Hp. apply Ho.
  - by rewrite <- Hp.
  - intros n. rewrite <- Hp. apply Hrest.
Qed.

(** A frame and the cells around the hole. *)
Lemma st_frame w f c p cs :
  st w (f :: c) p cs <->
  st w c (Obj (fnode f)) (frame_cell this c f p :: sibling_cells this c f ++ cs).
Proof.
  assert (Hp : ctx_cells (f :: c) p ++ cs ≡ₚ
               ctx_cells c (Obj (fnode f)) ++ frame_cell this c f p :: sibling_cells this c f ++ cs).
  { simpl. by solve_Permutation. }
  split; intros [Hr Hb Ho Hn Hrest]; split; try done.
  - intros n ns. rewrite <- Hp. apply Ho.
  - by rewrite <- Hp.
  - intros n. rewrite <- Hp. apply Hrest.
  - intros n ns. rewrite Hp. apply Ho.
  - by rewrite Hp.
  - intros n. rewrite Hp. apply Hrest.
Qed.

Lemma at_hole_frame w f c t : at_hole w (f :: c) t <-> at_hole w c (fill f t).
Proof.
  unfold at_hole, fill. rewrite st_frame, hang_mk.
  split; apply st_perm; rewrite cells_mk; simpl; unfold frame_cell, sibling_cells; solve_Permutation.
Qed.

Lemma at_hole_plug w c t : at_hole w c t <-> at_hole w [] (plug c t).
Proof.
  revert t. induction c as [|f c IH]; intros t; [done|]. simpl. by rewrite at_hole_frame, IH.
Qed.

Lemma st_size w c p cs : st w c p cs -> (length (ctx_cells c p ++ cs) <= size (heap w))%nat.
Proof.
  intros [_ _ Ho Hn _]. rewrite <- (length_fmap fst), <- (size_list_to_set (C := gset N)) by done.
  rewrite <- size_dom. apply subseteq_size. intros n. rewrite elem_of_list_to_set, list_elem_of_fmap.
  intros ([n' ns] & -> & Hin). simpl. apply elem_of_dom. eauto.
Qed.

(** *** Steps *)

Lemma wp_assert (x : bool) w (Q : unit -> world -> Prop) : x = true -> Q tt w -> wp (ZX_DEBUG_ASSERT x) w Q.
Proof. intros -> H. by apply wp_ret. Qed.

Lemma wp_node_state w c p cs n ns Q :
  st w c p cs -> (n, ns) ∈ cs -> Q ns w -> wp (node_state (Obj n)) w Q.
Proof.
  intros H Hin HQ. exists ns, w. split; [|done]. unfold node_state.
  rewrite (st_owns _ _ _ _ _ _ _ H n ns); [done|]. apply elem_of_app. by right.
Qed.

Lemma repl_perm n x y l l' : repl n x y l l' -> exists k, l ≡ₚ (n, x) :: k /\ l' ≡ₚ (n, y) :: k.
Proof.
  induction 1 as [l|z l l' _ (k & H1 & H2)|k0 l l' _ (k & H1 & H2)].
  - by exists l.
  - exists (z :: k). rewrite H1, H2. split; apply Permutation_swap.
  - exists (k0 ++ k). rewrite H1, H2. by rewrite !Permutation_middle.
Qed.

Lemma st_update w c p cs cs' n ns ns' :
  st w c p cs -> repl n ns ns' cs cs' ->
  heap w !! n = Some ns /\ st (World (tree w) (<[n := ns']> (heap w))) c p cs'.
Proof.
  intros H (k & H1 & H2)%repl_perm. apply (st_perm _ _ _ _ _ H1) in H.
  assert (Hn : heap w !! n = Some ns).
  { apply (st_owns _ _ _ _ _ _ _ H). apply elem_of_app. right. by left. }
  split; [done|]. symmetry in H2. apply (st_perm _ _ _ _ _ H2). destruct H as [Hr Hb Ho Hnd Hrest].
  rewrite fmap_app, fmap_cons in *. simpl in *.
  assert (Hnin : n ∉ (ctx_cells c p ++ k).*1).
  { rewrite <- Permutation_middle in Hnd. apply NoDup_cons in Hnd as [Hnd _]. by rewrite fmap_app. }
  split; simpl; try done.
  - intros m ms Hin. destruct (decide (m = n)) as [->|Hm].
    + rewrite lookup_insert_eq. f_equal. rewrite <- Permutation_middle in Hin.
      apply elem_of_cons in Hin as [[=]|Hin]; [done|].
      destruct Hnin. apply (list_elem_of_fmap_2 fst) in Hin. done.
    + rewrite lookup_insert_ne by done. apply Ho. rewrite <- Permutation_middle in Hin |- *.
      apply elem_of_cons in Hin as [[=]|Hin]; [done|]. by right.
  - by rewrite fmap_app, fmap_cons.
  - intros m Hm. rewrite fmap_app, fmap_cons in Hm. simpl in Hm. rewrite lookup_insert_ne; [by apply Hrest|].
    intros ->. apply Hm, elem_of_app. right. by left.
Qed.

Lemma wp_update w c p cs cs' n ns f (Q : unit -> world -> Prop) :
  st w c p cs -> repl n ns (f ns) cs cs' -> (forall w', st w' c p cs' -> Q tt w') -> wp (update (Obj n) f) w Q.
Proof.
  intros H Hr HQ. destruct (st_update _ _ _ _ _ _ _ _ H Hr) as [Hn Hst].
  exists tt, (World (tree w) (<[n := f ns]> (heap w))). split; [|by apply HQ]. unfold update. by rewrite Hn.
Qed.

Lemma wp_chain_bound w c p cs Q :
  st w c p cs -> (forall k, (length (ctx_cells c p ++ cs) < k)%nat -> Q k w) -> wp chain_bound w Q.
Proof. intros H HQ. apply wp_gets, HQ. apply st_size in H. lia. Qed.

Lemma wp_child_link n tr w Q : Q (ChildLink tr n) w -> wp (child_link tr (Obj n)) w Q.
Proof. intros H. by apply wp_ret. Qed.

Lemma wp_get_link w c p cs (Q : ptr -> world -> Prop) : st w c p cs -> Q p w -> wp (get_link (hole_link c)) w Q.
Proof.
  intros H HQ. destruct c as [|f c]; unfold get_link; simpl.
  - apply wp_gets. by rewrite (st_root _ _ _ _ _ _ _ H).
  - apply wp_bind. pose proof H as H'. apply st_frame in H'. eapply wp_node_state; [exact H'|by left|].
    apply wp_ret. simpl. by rewrite LRChild_NSd.
Qed.

Lemma wp_set_link w c p p' cs (Q : unit -> world -> Prop) :
  st w c p cs -> (forall w', st w' c p' cs -> Q tt w') -> wp (set_link (hole_link c) p') w Q.
Proof.
  intros H HQ. destruct c as [|f c]; unfold set_link; simpl.
  - apply wp_modify, HQ. destruct H as [Hr Hb Ho Hn Hrest]. by split.
  - apply st_frame in H. eapply wp_update; [exact H|apply repl_here|].
    intros w' Hw. apply HQ, st_frame. unfold frame_cell. by rewrite <- with_child_NSd with (x := p).
Qed.

(** The sibling of the hole is another object. *)
Lemma hole_unique w f c n cs :
  st w (f :: c) (Obj n) cs -> n ∈ cs.*1 -> hang (inner (hole_edge c) (Inverse (side f))) (sibling f) <> Obj n.
Proof.
  intros H Hin Heq. pose proof (st_nodup _ _ _ _ _ _ _ H) as Hnd.
  rewrite fmap_app in Hnd. apply NoDup_app in Hnd as (_ & Hd & _). apply (Hd n); [|done].
  simpl. right. rewrite fmap_app. apply elem_of_app. left. unfold sibling_cells.
  destruct (sibling f) as [|l m rk r]; simpl in Heq; [by destruct (_ || _)|]. injection Heq as ->. by left.
Qed.

(** A parent knows on which side its child hangs. *)
Lemma hole_side w f c n cs :
  st w (f :: c) (Obj n) cs -> n ∈ cs.*1 ->
  forall tr, same (LRChild tr (frame_cell this c f (Obj n)).2) (Obj n) = bool_decide (tr = side f).
Proof.
  intros H Hin tr. pose proof (hole_unique _ _ _ _ _ H Hin) as Hs. unfold frame_cell, same. simpl.
  apply bool_decide_ext. destruct tr, (side f); simpl in *; naive_solver.
Qed.

(** The link that points to a node is the link of the context it hangs in. *)
Lemma wp_GetLink w c n cs ns (Q : link -> world -> Prop) :
  st w c (Obj n) cs -> (n, ns) ∈ cs -> parent_ ns = hole_par this c ->
  Q (hole_link c) w -> wp (GetLinkPtrToNode this (Obj n)) w Q.
Proof.
  intros H Hin Hp HQ. unfold GetLinkPtrToNode. apply wp_bind, wp_assert; [done|].
  apply wp_bind. eapply wp_node_state; [exact H|exact Hin|]. rewrite Hp. destruct c as [|f c]; simpl.
  - apply wp_bind, wp_assert; [by apply bool_decide_true|]. apply wp_bind, wp_gets.
    rewrite (st_root _ _ _ _ _ _ _ H). apply wp_bind, wp_assert; [by apply bool_decide_true|]. by apply wp_ret.
  - apply wp_bind, wp_assert; [done|]. apply wp_bind. pose proof H as H'. apply st_frame in H'.
    eapply wp_node_state; [exact H'|by left|]. simpl.
    pose proof (hole_side _ _ _ _ _ H (list_elem_of_fmap_2 fst _ _ Hin)) as Hside. simpl in Hside, HQ.
    pose proof (Hside ForwardTraits) as Hl. pose proof (Hside ReverseTraits) as Hr. simpl in Hl, Hr.
    rewrite Hl, Hr. revert HQ. destruct (side f); intros HQ.
    + rewrite bool_decide_true by done. by apply wp_child_link.
    + rewrite bool_decide_false by done. apply wp_bind, wp_assert; [done|]. by apply wp_child_link.
Qed.

Lemma wp_get_child w c p cs n ns tr (Q : ptr -> world -> Prop) :
  st w c p cs -> (n, ns) ∈ cs -> Q (LRChild tr ns) w -> wp (get_link (ChildLink tr n)) w Q.
Proof. intros H Hin HQ. apply wp_bind. eapply wp_node_state; [exact H|exact Hin|]. by apply wp_ret. Qed.

Lemma wp_set_child w c p cs cs' n ns tr q (Q : unit -> world -> Prop) :
  st w c p cs -> repl n ns (with_child tr q ns) cs cs' -> (forall w', st w' c p cs' -> Q tt w') ->
  wp (set_link (ChildLink tr n) q) w Q.
Proof. apply wp_update. Qed.
End Logic.

(** Find a cell in a list of cells. *)
Ltac in_cells :=
  first [ by left | right; in_cells | apply elem_of_app; first [left; in_cells | right; in_cells] ].
Ltac repl_cell := first [ apply repl_here | apply repl_next; repl_cell | apply repl_app; repl_cell ].

(** One step of symbolic execution; [H] is the current assertion. *)
Ltac wstep H :=
  match goal with
  | |- wp (_ ≫= _) _ _ => apply wp_bind
  | |- wp (mret _) _ _ => apply wp_ret
  | |- wp (gets _) _ _ => apply wp_gets
  | |- wp (ZX_DEBUG_ASSERT _) _ _ => apply wp_assert; [try done; try by apply bool_decide_true|]
  | |- wp (node_state (Obj _)) _ _ => eapply wp_node_state; [exact H|in_cells|]
  | |- wp (child_link _ (Obj _)) _ _ => apply wp_child_link
  | |- wp (GetLinkPtrToNode _ (Obj _)) _ _ =>
    eapply wp_GetLink; [exact H|in_cells|autorewrite with wavl; done|]
  | |- wp (get_link (hole_link _)) _ _ => eapply wp_get_link; [exact H|]
  | |- wp (get_link (ChildLink _ _)) _ _ => eapply wp_get_child; [exact H|in_cells|]
  | |- wp (set_link (hole_link _) _) _ _ => eapply wp_set_link; [exact H|]; clear H; intros ? H
  | |- wp (set_link (ChildLink _ _) _) _ _ => eapply wp_set_child; [exact H|repl_cell|]; clear H; intros ? H
  | |- wp (update (Obj _) _) _ _ => eapply wp_update; [exact H|repl_cell|]; clear H; intros ? H
  end; autorewrite with wavl in *.

Section Rotation.
Context (this : N) (h0 : gmap N WAVLTreeNodeState) (b : book).
#[local] Abbreviation st := (st this h0 b).
#[local] Abbreviation at_hole := (at_hole this h0 b).

Lemma hang_inside t : is_sentinel_ptr (hang this (Edge false false) t) = false.
Proof. by destruct t. Qed.

Lemma RotateLR_ok tr w c A z rz Y x rx B :
  at_hole w c (mk tr A z rz (mk tr Y x rx B)) ->
  wp (RotateLR this tr (Obj x) (Obj z)) w (fun _ w' => at_hole w' c (mk tr (mk tr A z rz Y) x rx B)).
Proof.
  intros H. unfold WavlSpec.at_hole in *. rewrite hang_mk in *.
  pose (e := hole_edge c). pose (G := hole_par this c).
  eapply st_perm in H; cycle 1.
  { rewrite cells_mk, cells_mk, !hang_mk. autorewrite with wavl. fold e G.
    instantiate (1 := (z, NSd tr G (hang this (inner e tr) A) (Obj x) (Z.odd rz))
      :: (x, NSd tr (Obj z) (hang this (Edge false false) Y) (hang this (inner e (Inverse tr)) B) (Z.odd rx))
      :: (cells this (inner e tr) (Obj z) A ++ cells this (inner e (Inverse tr)) (Obj x) B)
         ++ cells this (Edge false false) (Obj x) Y). solve_Permutation. }
  unfold RotateLR. repeat wstep H; [by rewrite hang_inside|]. repeat wstep H.
  destruct Y as [|Yl y ry Yr]; simpl in *; repeat wstep H.
  - eapply st_perm; [|exact H]. rewrite cells_mk, cells_mk, !hang_mk. autorewrite with wavl. simpl.
    fold e G. solve_Permutation.
  - eapply st_perm; [|exact H]. rewrite cells_mk, cells_mk, !hang_mk. autorewrite with wavl. simpl.
    fold e G. solve_Permutation.
Qed.
End Rotation.

(** ** Objects outside the tree, and the tree's own fields *)

Section Boundary.
Context (this : N).

Lemma st_gain h0 b w c p cs n ns :
  st this h0 b w c p cs -> heap w !! n = Some ns -> n ∉ (ctx_cells this c p ++ cs).*1 ->
  st this h0 b w c p ((n, ns) :: cs).
Proof.
  intros [Hr Hb Ho Hn Hrest] Hh Hnin. split; try done.
  - intros m ms Hin. rewrite <- Permutation_middle in Hin. apply elem_of_cons in Hin as [[= -> ->]|Hin]; auto.
  - rewrite <- Permutation_middle, fmap_cons. by constructor.
  - intros m Hm. apply Hrest. intros Hin. apply Hm. rewrite <- Permutation_middle, fmap_cons. by right.
Qed.

Lemma st_drop h0 b w c p cs n ns :
  st this h0 b w c p ((n, ns) :: cs) -> st this (<[n := ns]> h0) b w c p cs.
Proof.
  intros [Hr Hb Ho Hn Hrest]. split; try done.
  - intros m ms Hin. apply Ho. rewrite <- Permutation_middle. by right.
  - rewrite <- Permutation_middle, fmap_cons in Hn. by apply NoDup_cons in Hn as [_ ?].
  - intros m Hm. destruct (decide (m = n)) as [->|Hmn].
    + rewrite lookup_insert_eq. apply Ho. rewrite <- Permutation_middle. by left.
    + rewrite lookup_insert_ne by done. apply Hrest. rewrite <- Permutation_middle, fmap_cons.
      rewrite not_elem_of_cons. done.
Qed.

(** What is known about the objects that are not listed may be restated. *)
Lemma st_rebase h0 h1 b w c p cs :
  st this h0 b w c p cs -> (forall n, n ∉ (ctx_cells this c p ++ cs).*1 -> h0 !! n = h1 !! n) -> st this h1 b w c p cs.
Proof. intros [Hr Hb Ho Hn Hrest] Hh. split; try done. intros n Hnin. rewrite <- Hh by done. by apply Hrest. Qed.

Definition set_most (tr : LRTraits) (q : ptr) (b : book) : book :=
  match tr with ForwardTraits => Book q (rm b) (cnt b) | ReverseTraits => Book (lm b) q (cnt b) end.

Lemma wp_set_LRMost h0 b w c p cs tr q (Q : unit -> world -> Prop) :
  st this h0 b w c p cs -> (forall w', st this h0 (set_most tr q b) w' c p cs -> Q tt w') ->
  wp (set_LRMost tr q) w Q.
Proof.
  intros [Hr <- Ho Hn Hrest] HQ. apply wp_modify, HQ. destruct tr; (split; [exact Hr|done|exact Ho|exact Hn|exact Hrest]).
Qed.

Lemma wp_set_count h0 b w c p cs f (Q : unit -> world -> Prop) :
  st this h0 b w c p cs -> (forall w', st this h0 (Book (lm b) (rm b) (f (cnt b))) w' c p cs -> Q tt w') ->
  wp (set_count f) w Q.
Proof. intros [Hr <- Ho Hn Hrest] HQ. apply wp_modify, HQ. split; [exact Hr|done|exact Ho|exact Hn|exact Hrest]. Qed.

(** Every object of a tree has a parent. *)
Lemma cells_parent e par t n ns :
  par <> Null -> (n, ns) ∈ cells this e par t -> parent_ ns <> Null.
Proof.
  revert e par. induction t as [|l IHl m rk r IHr]; intros e par Hpar; simpl; [by intros ?%elem_of_nil|].
  rewrite elem_of_cons, elem_of_app. intros [[= -> ->]|[H|H]]; [done|by apply IHl in H|by apply IHr in H].
Qed.

Lemma st_not_member h0 b w t n ns :
  st this h0 b w [] (root_ptr t) (cells this (Edge true true) (sentinel this) t) ->
  heap w !! n = Some ns -> parent_ ns = Null -> n ∉ inorder t.
Proof.
  intros H Hh Hp Hin. rewrite <- (cells_inorder this (Edge true true) (sentinel this)) in Hin.
  apply list_elem_of_fmap in Hin as ([m ms] & -> & Hin). simpl in Hh.
  rewrite (st_owns _ _ _ _ _ _ _ H m ms) in Hh by done. injection Hh as <-. by apply cells_parent in Hin.
Qed.
End Boundary.
