(* ===== verification/WavlInsert.v ===== *)
(** * Insertion into a WAVL tree

    The rebalancing after an insertion restores the rank rule although the nodes
    keep only the parity of their rank, and the insertion as a whole puts the object
    at its place in the order. *)

From stdpp Require Import gmap sorting.
From S2P Require Import Prelude Wavl WavlSpec WavlLogic.

(** The side conditions of the rank rule. *)
Ltac rank_rule :=
  rewrite ?wavl_mk, ?rank_mk in *; unfold diff12 in *;
  cbn [rank] in *;
  repeat match goal with |- _ /\ _ => split end; try done; try lia; try tauto;
  let E := fresh in let E' := fresh in
  intros E E'; first [ by destruct (mk_not_Leaf _ _ _ _ _ E) | by destruct (mk_not_Leaf _ _ _ _ _ E')
                     | rewrite ?E, ?E' in *; simpl in *; first [lia | done] ].

Section Rebalance.
Context (this : N) (h0 : gmap N WAVLTreeNodeState) (b : book).
#[local] Abbreviation st := (st this h0 b).
#[local] Abbreviation at_hole := (at_hole this h0 b).

(** *** Rank changes *)

Lemma wp_rank tr w c A x r r' B f (Q : unit -> world -> Prop) :
  at_hole w c (mk tr A x r B) -> (forall p y z, f (NSd tr p y z (Z.odd r)) = NSd tr p y z (Z.odd r')) ->
  (forall w', at_hole w' c (mk tr A x r' B) -> Q tt w') -> wp (update (Obj x) f) w Q.
Proof.
  unfold WavlSpec.at_hole. rewrite !hang_mk. intros H Hf HQ.
  eapply st_perm in H; [|apply cells_mk]. eapply wp_update; [exact H|apply repl_here|].
  intros w' Hw. apply HQ. eapply st_perm; [symmetry; apply cells_mk|]. by rewrite <- Hf.
Qed.

Lemma wp_promote tr w c A x r B (Q : unit -> world -> Prop) :
  at_hole w c (mk tr A x r B) -> (forall w', at_hole w' c (mk tr A x (r + 1) B) -> Q tt w') ->
  wp (update (Obj x) promote_rank) w Q.
Proof. intros H. apply (wp_rank _ _ _ _ _ _ _ _ _ _ H). intros. by rewrite promote_NSd, Z.odd_add, xorb_true_r. Qed.

Lemma wp_demote tr w c A x r B (Q : unit -> world -> Prop) :
  at_hole w c (mk tr A x r B) -> (forall w', at_hole w' c (mk tr A x (r - 1) B) -> Q tt w') ->
  wp (update (Obj x) demote_rank) w Q.
Proof. intros H. apply (wp_rank _ _ _ _ _ _ _ _ _ _ H). intros. by rewrite demote_NSd, Z.odd_sub, xorb_true_r. Qed.

Lemma wp_double_promote tr w c A x r B (Q : unit -> world -> Prop) :
  at_hole w c (mk tr A x r B) -> (forall w', at_hole w' c (mk tr A x (r + 2) B) -> Q tt w') ->
  wp (update (Obj x) double_promote_rank) w Q.
Proof. intros H. apply (wp_rank _ _ _ _ _ _ _ _ _ _ H). intros. by rewrite Z.odd_add, xorb_false_r. Qed.

Lemma wp_double_demote tr w c A x r B (Q : unit -> world -> Prop) :
  at_hole w c (mk tr A x r B) -> (forall w', at_hole w' c (mk tr A x (r - 2) B) -> Q tt w') ->
  wp (update (Obj x) double_demote_rank) w Q.
Proof. intros H. apply (wp_rank _ _ _ _ _ _ _ _ _ _ H). intros. by rewrite Z.odd_sub, xorb_false_r. Qed.

(** *** Looking into a subtree *)

Lemma at_hole_LR tr w c A x r B :
  at_hole w c (mk tr A x r B) <-> at_hole w (Frame tr x r B :: c) A.
Proof. by rewrite at_hole_frame. Qed.

Lemma at_hole_RL tr w c A x r B :
  at_hole w c (mk tr A x r B) <-> at_hole w (Frame (Inverse tr) x r A :: c) B.
Proof. rewrite at_hole_frame. unfold fill. simpl. by rewrite mk_Inverse. Qed.

Lemma wp_root_node tr w c A x r B Q :
  at_hole w c (mk tr A x r B) ->
  Q (NSd tr (hole_par this c) (hang this (inner (hole_edge c) tr) A) (hang this (inner (hole_edge c) (Inverse tr)) B)
         (Z.odd r)) w ->
  wp (node_state (Obj x)) w Q.
Proof.
  intros H. unfold WavlSpec.at_hole in H. eapply st_perm in H; [|apply cells_mk].
  apply (wp_node_state _ _ _ _ _ _ _ _ _ _ H). by left.
Qed.

Lemma valid_hang e t : valid_sentinel_ptr (hang this e t) = match t with Leaf => false | _ => true end.
Proof. destruct t; simpl; [by destruct (_ || _)|done]. Qed.

Lemma shape_mk tr t : t <> Leaf -> exists x n r y, t = mk tr x n r y.
Proof. destruct t as [|l n r y]; [done|]. destruct tr; eauto 6. Qed.

Lemma wp_child_parity w c t (Q : bool -> world -> Prop) e :
  at_hole w c t -> Q (Z.odd (rank t)) w -> wp (child_parity (hang this e t)) w Q.
Proof.
  intros H HQ. unfold child_parity. rewrite valid_hang. destruct t as [|l n r y]; [by apply wp_ret|].
  simpl. apply wp_bind. apply (wp_root_node ForwardTraits _ _ _ _ _ _ _ H). by apply wp_ret.
Qed.

(** *** The fix-up rotations *)

Lemma wp_fixup_test w c Y e r (Q : bool -> world -> Prop) :
  at_hole w c Y -> Q (match Y with Leaf => true | _ => Bool.eqb (Z.odd (rank Y)) r end) w ->
  wp (if valid_sentinel_ptr (hang this e Y)
      then rl_parity ← rank_parity (hang this e Y); mret (Bool.eqb rl_parity r) else mret true) w Q.
Proof.
  intros H HQ. rewrite valid_hang. destruct Y as [|l n ry y]; [by apply wp_ret|].
  simpl. apply wp_bind, wp_bind, (wp_root_node ForwardTraits _ _ _ _ _ _ _ H). by apply wp_ret, wp_ret.
Qed.

Lemma PostInsertFixupLR_ok tr w c A x rx Y z rz S :
  at_hole w c (mk tr (mk tr A x rx Y) z rz S) ->
  wp (PostInsertFixupLR this tr (Obj x) (Obj z)) w (fun _ w' =>
    if match Y with Leaf => true | _ => Bool.eqb (Z.odd (rank Y)) (Z.odd rx) end
    then at_hole w' c (mk tr A x rx (mk tr Y z (rz - 1) S))
    else forall C y ry D, Y = mk tr C y ry D ->
         at_hole w' c (mk tr (mk tr A x (rx - 1) C) y (ry + 1) (mk tr D z (rz - 1) S))).
Proof.
  intros H. unfold PostInsertFixupLR. do 2 (apply wp_bind, wp_assert; [done|]).
  pose proof (proj1 (at_hole_LR _ _ _ _ _ _ _) H) as Hx. pose proof (proj1 (at_hole_RL _ _ _ _ _ _ _) Hx) as HYh.
  apply wp_bind, (wp_root_node _ _ _ _ _ _ _ _ Hx). apply wp_bind, (wp_root_node _ _ _ _ _ _ _ _ H).
  autorewrite with wavl. apply wp_bind, wp_assert; [by apply bool_decide_true; rewrite hang_mk|].
  apply wp_bind, (wp_fixup_test _ _ _ _ _ _ HYh).
  destruct (match Y with Leaf => _ | _ => _ end) eqn:HY.
  - apply wp_bind. rewrite <- !(mk_Inverse tr) in H. eapply wp_mono; [apply (RotateLR_ok _ _ _ _ _ _ _ _ _ _ _ _ _ H)|].
    intros [] w1 H1. rewrite !mk_Inverse, at_hole_RL in H1.
    apply (wp_demote _ _ _ _ _ _ _ _ H1). intros w2 H2. by rewrite at_hole_RL.
  - destruct (shape_mk tr Y) as (C & y & ry & D & ->); [by intros ->|]. rewrite hang_mk.
    apply wp_bind. eapply wp_mono; [apply (RotateLR_ok _ _ _ _ _ _ _ _ _ _ _ _ _ Hx)|].
    intros [] w1 H1. rewrite <- at_hole_LR in H1. rewrite <- !(mk_Inverse tr _ z), <- (mk_Inverse tr _ y) in H1.
    apply wp_bind. eapply wp_mono; [apply (RotateLR_ok _ _ _ _ _ _ _ _ _ _ _ _ _ H1)|].
    intros [] w2 H2. rewrite !mk_Inverse in H2.
    apply wp_bind, (wp_promote _ _ _ _ _ _ _ _ H2). intros w3 H3. rewrite at_hole_LR in H3.
    apply wp_bind, (wp_demote _ _ _ _ _ _ _ _ H3). intros w4 H4. rewrite <- at_hole_LR, at_hole_RL in H4.
    apply (wp_demote _ _ _ _ _ _ _ _ H4). intros w5 H5. rewrite <- at_hole_RL in H5.
    intros C' y' ry' D' [= -> -> -> ->]%mk_inj. done.
Qed.

(** The cell of the parent of the hole. *)
Lemma wp_frame_node w f c t Q :
  at_hole w (f :: c) t -> Q (frame_cell this c f (hang this (hole_edge (f :: c)) t)).2 w ->
  wp (node_state (Obj (fnode f))) w Q.
Proof.
  intros H. unfold WavlSpec.at_hole in H. rewrite st_frame in H.
  apply (wp_node_state _ _ _ _ _ _ _ _ _ _ H). by left.
Qed.

Lemma at_hole_side w f c t n :
  at_hole w (f :: c) t -> hang this (hole_edge (f :: c)) t = Obj n ->
  forall tr, same (LRChild tr (frame_cell this c f (Obj n)).2) (Obj n) = bool_decide (tr = side f).
Proof.
  intros H Hn. unfold WavlSpec.at_hole in H. rewrite Hn in H. apply (hole_side _ _ _ _ _ _ _ _ H).
  destruct t as [|l m r y]; simpl in Hn; [by destruct (_ || _)|]. injection Hn as ->. by left.
Qed.

Lemma at_hole_sibling w f c t :
  at_hole w (f :: c) t -> at_hole w (Frame (Inverse (side f)) (fnode f) (frank f) t :: c) (sibling f).
Proof. rewrite !at_hole_frame. unfold fill. simpl. by rewrite mk_Inverse. Qed.

(** What a rebalancing routine owes: a tree that obeys the rank rule and holds the
    same objects in the same order. *)
Definition balanced (t : shape) (_ : unit) (w' : world) : Prop :=
  exists t', at_hole w' [] t' /\ wavl t' /\ inorder t' = inorder t.

Lemma balanced_intro w c t t0 u : at_hole w c t -> wavl t -> ctx_ok c (rank t) -> inorder (plug c t) = inorder t0 -> balanced t0 u w.
Proof. intros H Ht Hc Hi. exists (plug c t). rewrite <- at_hole_plug. by rewrite wavl_plug. Qed.

(** [node_] is [X], promoted to the rank of its parent, whose other child has
    rank difference 2. *)
Lemma PostInsertFixupLR_balanced tr w c d N p rp S z sib t0 :
  at_hole w c (mk tr (mk d N p (rp + 1) S) z (rp + 1) sib) ->
  wavl N -> wavl S -> wavl sib -> N <> Leaf -> rank N = rp -> rank S = rp - 1 -> rank sib = rp - 1 ->
  ctx_ok c (rp + 1) -> inorder (plug c (mk tr (mk d N p (rp + 1) S) z (rp + 1) sib)) = inorder t0 ->
  wp (PostInsertFixupLR this tr (Obj p) (Obj z)) w (balanced t0).
Proof.
  intros H HN HS Hsib HNl HrN HrS Hrsib Hc Hi. pose proof (wavl_rank_nonneg N HN HNl) as Hpos.
  pose proof (wavl_rank_Leaf S HS) as HSl. pose proof (wavl_rank_Leaf sib Hsib) as Hsibl.
  destruct (decide (d = tr)) as [->|Hd].
  - eapply wp_mono; [apply (PostInsertFixupLR_ok _ _ _ _ _ _ _ _ _ _ H)|]. intros u w' Hw.
    replace (match S with Leaf => _ | _ => _ end) with true in Hw; cycle 1.
    { destruct S; [done|]. symmetry. rewrite HrS, !Z.odd_add, Z.odd_sub. by destruct (Z.odd rp). }
    apply (balanced_intro _ _ _ _ _ Hw).
    + rank_rule.
    + by rewrite rank_mk.
    + rewrite <- Hi. apply inorder_plug_cong. symmetry. apply inorder_rotate.
  - replace d with (Inverse tr) in * by (by destruct d, tr). rewrite mk_Inverse in *.
    destruct (shape_mk tr N HNl) as (C & y & ry & D & ->). rewrite rank_mk in HrN. subst ry.
    eapply wp_mono; [apply (PostInsertFixupLR_ok _ _ _ _ _ _ _ _ _ _ H)|]. intros u w' Hw. rewrite rank_mk in Hw.
    replace (match mk tr C y rp D with Leaf => _ | _ => _ end) with false in Hw; cycle 1.
    { destruct tr; simpl; symmetry; rewrite !Z.odd_add; by destruct (Z.odd rp). }
    specialize (Hw _ _ _ _ eq_refl). apply (balanced_intro _ _ _ _ _ Hw).
    + rank_rule.
    + by rewrite rank_mk.
    + rewrite <- Hi. apply inorder_plug_cong. destruct tr; simpl; by rewrite <- ?app_assoc; simpl; rewrite <- ?app_assoc.
Qed.

Lemma promote_loop_balanced fuel c w d N p rp S t0 :
  (length c < fuel)%nat -> at_hole w c (mk d N p rp S) ->
  wavl N -> wavl S -> N <> Leaf -> rank N = rp -> rank S = rp - 1 -> ctx_ok c rp ->
  inorder (plug c (mk d N p rp S)) = inorder t0 -> wp (promote_loop this fuel (Obj p)) w (balanced t0).
Proof.
  revert c w d N p rp S. induction fuel as [|fuel IH]; intros c w d N p rp S Hf H HN HS HNl HrN HrS Hc Hi; [lia|].
  simpl. apply wp_bind, (wp_promote _ _ _ _ _ _ _ _ H). clear w H. intros w H.
  apply wp_bind, (wp_root_node _ _ _ _ _ _ _ _ H). autorewrite with wavl.
  assert (Hwavl : wavl (mk d N p (rp + 1) S)).
  { rank_rule. }
  assert (Hin : inorder (plug c (mk d N p (rp + 1) S)) = inorder t0).
  { rewrite <- Hi. by apply inorder_plug_cong, inorder_mk_cong. }
  destruct c as [|f c]; [by apply wp_ret, (balanced_intro _ _ _ _ _ H)|].
  simpl. apply wp_bind, (wp_frame_node _ _ _ _ _ H). rewrite hang_mk.
  pose proof (at_hole_side _ _ _ _ _ H (hang_mk _ _ _ _ _ _ _)) as Hside.
  pose proof (Hside ForwardTraits) as Hl. pose proof (Hside ReverseTraits) as Hr.
  simpl in Hl, Hr. simpl. rewrite Hl, Hr. rewrite rank_NSd.
  apply wp_bind. eapply wp_mono with (P := fun s w' => w' = w /\ s = Z.odd (rank (sibling f))).
  { pose proof (at_hole_sibling _ _ _ _ H) as Hs. destruct (side f) eqn:Hsf; simpl.
    - by apply (wp_child_parity _ _ _ _ _ Hs).
    - apply wp_bind, wp_assert; [done|]. by apply (wp_child_parity _ _ _ _ _ Hs). }
  intros s w' [-> ->]. simpl in Hc. destruct Hc as (Hd1 & Hd2 & _ & Hws & Hc). unfold diff12 in Hd1, Hd2.
  pose proof (proj1 (at_hole_frame _ _ _ _ _ _ _) H) as Hfill. unfold fill in Hfill.
  assert (frank f = rp + 1 \/ frank f = rp + 2) as [Hfr|Hfr] by lia.
  - assert (rank (sibling f) = rp \/ rank (sibling f) = rp - 1) as [Hsr|Hsr] by lia; rewrite Hsr, Hfr in *.
    + replace (_ || _) with true by (rewrite !Z.odd_add; by destruct (Z.odd rp)).
      simpl in Hf, Hin. unfold fill in Hin. rewrite Hfr in Hin.
      apply (IH _ _ _ _ _ _ _) with (2 := Hfill); try done; try lia; [apply mk_not_Leaf|apply rank_mk].
    + replace (_ || _) with false by (rewrite !Z.odd_add, Z.odd_sub; by destruct (Z.odd rp)).
      replace (_ || _) with false by (rewrite !Z.odd_add, Z.odd_sub; by destruct (Z.odd rp)).
      simpl in Hin. unfold fill in Hin. rewrite Hfr in Hin.
      destruct (side f) eqn:Hsf; simpl; by eapply PostInsertFixupLR_balanced.
  - replace (_ || _) with false by (rewrite Hfr, !Z.odd_add; destruct (Z.odd rp), (Z.odd (rank (sibling f))); done).
    replace (_ || _) with true by (rewrite Hfr, !Z.odd_add; destruct (Z.odd rp), (Z.odd (rank (sibling f))); done).
    apply wp_ret, (balanced_intro _ _ _ _ _ H); [done| |done]. rewrite rank_mk. simpl. unfold diff12.
    repeat split; try done; try lia.
Qed.
End Rebalance.

(** ** The ordered sequence a tree holds *)

Section Ordered.
Context {kt : KeyTraits} {laws : KeyTraitsLaws kt} (this : N).

Definition key_lt (m n : N) : Prop := LessThan (GetKey m) (GetKey n) = true.

(** The sequence is sorted, without duplicate keys. *)
Definition sorted (l : list N) : Prop := StronglySorted key_lt l.

Definition all_below (l : list N) (k : KeyType) : Prop := Forall (fun m => LessThan (GetKey m) k = true) l.
Definition all_above (l : list N) (k : KeyType) : Prop := Forall (fun m => LessThan k (GetKey m) = true) l.

(** [holds h0 w l]: the tree of [w] is a WAVL tree with the objects [l] in order;
    the other objects are as in [h0]. *)
Definition holds (h0 : gmap N WAVLTreeNodeState) (w : world) (l : list N) : Prop :=
  exists t, represents this h0 w t /\ wavl t /\ inorder t = l /\ sorted l.

Lemma EqualTo_refl a : EqualTo a a = true.
Proof. by apply EqualTo_eq. Qed.

Lemma EqualTo_false a b : EqualTo a b = false <-> a <> b.
Proof. split; [by intros H ->; rewrite EqualTo_refl in H|].
  intros H. destruct (EqualTo a b) eqn:E; [|done]. by apply EqualTo_eq in E. Qed.

Lemma LessThan_asym a b : LessThan a b = true -> LessThan b a = false.
Proof.
  intros H. destruct (LessThan b a) eqn:E; [|done]. pose proof (LessThan_trans _ _ _ H E) as H'.
  by rewrite LessThan_irrefl in H'.
Qed.

Lemma not_lt_gt a b : a <> b -> LessThan a b = false -> LessThan b a = true.
Proof. intros Hne Hlt. destruct (LessThan_total a b) as [H|[H|H]]; congruence. Qed.

Lemma sorted_app l1 l2 : sorted (l1 ++ l2) <-> sorted l1 /\ sorted l2 /\ forall m n, m ∈ l1 -> n ∈ l2 -> key_lt m n.
Proof. unfold sorted. rewrite StronglySorted_app. tauto. Qed.

Lemma sorted_insert l1 l2 n :
  sorted (l1 ++ l2) -> all_below l1 (GetKey n) -> all_above l2 (GetKey n) -> sorted (l1 ++ n :: l2).
Proof.
  rewrite !sorted_app. unfold all_below. rewrite Forall_forall. intros (H1 & H2 & H12) Hb Ha. split; [done|]. split.
  - by constructor.
  - intros m k Hm [->|Hk]%elem_of_cons; [by apply Hb|by apply H12].
Qed.

Lemma sorted_delete l1 l2 n : sorted (l1 ++ n :: l2) -> sorted (l1 ++ l2).
Proof.
  rewrite !sorted_app. intros (H1 & H2 & H12). inversion H2; subst. split; [done|]. split; [done|].
  intros. apply H12; [done|by right].
Qed.

(** The keys around an object. *)
Lemma sorted_around l1 n l2 : sorted (l1 ++ n :: l2) -> all_below l1 (GetKey n) /\ all_above l2 (GetKey n).
Proof.
  rewrite sorted_app. intros (_ & H2 & H12). inversion H2; subst. split; [|done].
  apply Forall_forall. intros m Hm. apply H12; [done|by left].
Qed.

(** *** The ends of the tree *)

Lemma before_nil c : at_left (hole_edge c) = bool_decide (before c = []).
Proof.
  induction c as [|[sd m r s] c IH]; [done|]. simpl. destruct sd; simpl.
  - by rewrite app_nil_r.
  - symmetry. apply bool_decide_false. intros H%(f_equal length). rewrite !length_app in H. simpl in H. lia.
Qed.

Lemma after_nil c : at_right (hole_edge c) = bool_decide (after c = []).
Proof. induction c as [|[sd m r s] c IH]; [done|]. simpl. by destruct sd. Qed.

Lemma represents_at_hole h0 w t : t <> Leaf -> represents this h0 w t <-> at_hole this h0 (list_book this (inorder t)) w [] t.
Proof. by destruct t. Qed.

Lemma represents_plug h0 w c t : plug c t <> Leaf ->
  represents this h0 w (plug c t) <-> at_hole this h0 (list_book this (inorder (plug c t))) w c t.
Proof. intros H. by rewrite represents_at_hole, <- at_hole_plug. Qed.

Lemma plug_not_Leaf c t : t <> Leaf \/ c <> [] -> plug c t <> Leaf.
Proof.
  revert t. induction c as [|f c IH]; simpl; [tauto|]. intros t _. apply IH. left. apply mk_not_Leaf.
Qed.

Lemma wp_key_of h0 b w c p cs n ns (Q : KeyType -> world -> Prop) :
  st this h0 b w c p cs -> (n, ns) ∈ cs -> Q (GetKey n) w -> wp (key_of (Obj n)) w Q.
Proof.
  intros H Hin HQ. apply wp_bind. eapply wp_node_state; [exact H|exact Hin|]. by apply wp_ret.
Qed.

(** *** The search for a position *)

Definition position_post (k : KeyType) (t : shape) (pos : position) : Prop :=
  match pos with
  | Collision p => exists m, p = Obj m /\ m ∈ inorder t /\ GetKey m = k
  | Free p sd l r =>
    exists f c, p = Obj (fnode f) /\ sd = side f /\ l = at_left (hole_edge (f :: c)) /\ r = at_right (hole_edge (f :: c))
      /\ plug (f :: c) Leaf = t /\ all_below (before (f :: c)) k /\ all_above (after (f :: c)) k
  end.

Lemma position_loop_ok h0 b fuel k c t w :
  at_hole this h0 b w c t -> t <> Leaf -> (length (inorder t) <= fuel)%nat -> sorted (inorder (plug c t)) ->
  all_below (before c) k -> all_above (after c) k ->
  wp (position_loop fuel k (hang this (hole_edge c) t) (at_left (hole_edge c)) (at_right (hole_edge c))) w
    (fun pos w' => w' = w /\ position_post k (plug c t) pos).
Proof.
  revert c t. induction fuel as [|fuel IH]; intros c t H Ht Hf Hs Hb Ha; destruct t as [|l n rk r]; try done;
    [simpl in Hf; rewrite length_app in Hf; simpl in Hf; lia|].
  assert (Hin : (n, NSd ForwardTraits (hole_par this c) (hang this (inner (hole_edge c) ForwardTraits) l)
                        (hang this (inner (hole_edge c) ReverseTraits) r) (Z.odd rk))
                ∈ cells this (hole_edge c) (hole_par this c) (Bin l n rk r)) by left.
  simpl. apply wp_bind. eapply wp_key_of; [exact H|exact Hin|].
  destruct (EqualTo k (GetKey n)) eqn:Heq.
  { apply wp_ret. split; [done|]. apply EqualTo_eq in Heq. exists n. split; [done|]. split; [|done].
    rewrite inorder_plug, !elem_of_app. right. left. simpl. rewrite elem_of_app, elem_of_cons. tauto. }
  apply EqualTo_false in Heq. apply wp_bind. eapply wp_node_state; [exact H|exact Hin|].
  rewrite inorder_plug in Hs. simpl in Hs. rewrite <- app_assoc, app_assoc in Hs. simpl in Hs.
  apply sorted_around in Hs as Hk. destruct Hk as [Hkb Hka].
  pose (sd := if LessThan k (GetKey n) then ForwardTraits else ReverseTraits).
  pose (f := Frame sd n rk (if LessThan k (GetKey n) then r else l)).
  pose (t' := if LessThan k (GetKey n) then l else r).
  assert (Hplug : plug (f :: c) t' = plug c (Bin l n rk r)).
  { simpl. unfold fill, f, sd, t'. by destruct (LessThan k (GetKey n)). }
  assert (Hbelow : all_below (before (f :: c)) k).
  { unfold f, sd. simpl. destruct (LessThan k (GetKey n)) eqn:Hlt; simpl; [by rewrite app_nil_r|].
    apply not_lt_gt in Hlt; [|done]. unfold all_below in *. rewrite !Forall_app in *. destruct Hkb as [_ Hl].
    repeat split; [done| |by constructor]. eapply Forall_impl; [exact Hl|]. intros m Hm. exact (LessThan_trans _ _ _ Hm Hlt). }
  assert (Habove : all_above (after (f :: c)) k).
  { unfold f, sd. simpl. destruct (LessThan k (GetKey n)) eqn:Hlt; simpl; [|done].
    unfold all_above in *. rewrite Forall_app in Hka. constructor; [done|]. rewrite Forall_app.
    split; [|done]. eapply Forall_impl; [apply Hka|]. intros m Hm. exact (LessThan_trans _ _ _ Hlt Hm). }
  assert (Hflags : (if LessThan k (GetKey n) then at_left (hole_edge c) else false) = at_left (hole_edge (f :: c)) /\
                   (if LessThan k (GetKey n) then false else at_right (hole_edge c)) = at_right (hole_edge (f :: c))).
  { unfold f, sd. simpl. by destruct (LessThan k (GetKey n)). }
  destruct Hflags as [-> ->].
  assert (Hhang : LRChild sd (NSd ForwardTraits (hole_par this c) (hang this (inner (hole_edge c) ForwardTraits) l)
                        (hang this (inner (hole_edge c) ReverseTraits) r) (Z.odd rk)) = hang this (hole_edge (f :: c)) t').
  { unfold f, sd, t'. simpl. by destruct (LessThan k (GetKey n)). }
  fold sd. rewrite Hhang, valid_hang.
  assert (Hh : at_hole this h0 b w (f :: c) t') by (by rewrite at_hole_plug, Hplug, <- at_hole_plug).
  destruct t' as [|l' n' rk' r'] eqn:Et'; simpl.
  - apply wp_ret. split; [done|]. exists f, c. by rewrite <- Hplug.
  - rewrite <- Hplug. apply (IH (f :: c) (Bin l' n' rk' r')); try done.
    + unfold t' in Et'. simpl in Hf. rewrite length_app in Hf. simpl in Hf.
      destruct (LessThan k (GetKey n)); rewrite <- Et'; lia.
    + rewrite Hplug, inorder_plug. simpl. rewrite <- app_assoc, app_assoc. done.
Qed.
End Ordered.

(** ** The insertion *)

Section Insert.
Context {kt : KeyTraits} {laws : KeyTraitsLaws kt} (this : N).

Lemma ctx_cells_length c p : (length c <= length (ctx_cells this c p))%nat.
Proof.
  revert p. induction c as [|f c IH]; intros p; simpl; [lia|]. rewrite length_app.
  specialize (IH (Obj (fnode f))). lia.
Qed.

(** A new node [n] hangs below [f]. *)
Lemma BalancePostInsert_balanced h0 b w f c n :
  at_hole this h0 b w (f :: c) (Bin Leaf n 0 Leaf) -> ctx_ok (f :: c) (-1) ->
  wp (BalancePostInsert this (Obj n)) w (balanced this h0 b (plug (f :: c) (Bin Leaf n 0 Leaf))).
Proof.
  intros H (Hd & Hd' & Hleaf & Hsib & Hc). unfold BalancePostInsert. unfold diff12 in *.
  apply wp_bind, (wp_root_node _ _ _ ForwardTraits _ _ _ _ _ _ _ H). rewrite parent_NSd.
  apply wp_bind, wp_assert; [done|]. apply wp_bind, (wp_frame_node _ _ _ _ _ _ _ _ H). simpl.
  assert (Hvalid : valid_sentinel_ptr (left_ (frame_cell this c f (Obj n)).2)
                   && valid_sentinel_ptr (right_ (frame_cell this c f (Obj n)).2)
                   = match sibling f with Leaf => false | _ => true end).
  { unfold frame_cell. destruct (side f); simpl; by rewrite valid_hang, ?andb_true_r. }
  simpl in Hvalid. rewrite Hvalid. destruct (sibling f) as [|l m rk r] eqn:Es.
  - apply wp_bind. eapply wp_chain_bound; [exact H|]. intros k Hk.
    rewrite at_hole_frame in H. unfold fill in H. rewrite Es in H. specialize (Hleaf eq_refl eq_refl). rewrite Hleaf in *.
    eapply (promote_loop_balanced _ _ _ _ _ _ _ _ _ _ _ _) with (2 := H); try done.
    + clear - Hk. simpl in Hk. unfold sibling_cells in Hk. rewrite !length_app in Hk.
      pose proof (ctx_cells_length c (Obj (fnode f))). simpl in Hk. lia.
    + simpl. unfold fill. by rewrite Es, Hleaf.
  - apply wp_ret, (balanced_intro _ _ _ _ _ _ _ _ H); [|simpl|done].
    + simpl. unfold diff12. repeat split; lia.
    + pose proof (wavl_rank_nonneg _ Hsib ltac:(done)) as Hnn. simpl in *. unfold diff12.
      rewrite Es. simpl. repeat split; try done; try lia; apply Hsib.
Qed.

(** The bookkeeping of the ends follows an insertion between [l1] and [l2]. *)
Lemma list_book_insert l1 n l2 : l1 ++ l2 <> [] ->
  list_book this (l1 ++ n :: l2) =
  Book (if bool_decide (l1 = []) then Obj n else lm (list_book this (l1 ++ l2)))
       (if bool_decide (l2 = []) then Obj n else rm (list_book this (l1 ++ l2)))
       (cnt (list_book this (l1 ++ l2)) ⊕[64] 1).
Proof.
  intros Hne. unfold list_book. simpl. f_equal.
  - by destruct l1.
  - rewrite last_app_cons. destruct l2 as [|m l2]; [by rewrite bool_decide_true|].
    rewrite bool_decide_false by done. by rewrite last_app_cons, last_cons_cons.
  - unfold wrap. rewrite Zplus_mod_idemp_l, !length_app. f_equal. simpl. lia.
Qed.

Definition new_node : WAVLTreeNodeState := NS Null Null Null false.

Lemma around_not_nil f c : before (f :: c) ++ after (f :: c) <> [].
Proof.
  simpl. intros [H1 H2]%app_eq_nil. destruct (side f); [done|]. apply app_eq_nil in H1 as [_ H1].
  by apply app_eq_nil in H1 as [_ H1].
Qed.

Lemma insert_below_ok h0 w f c n :
  st this h0 (list_book this (inorder (plug (f :: c) Leaf))) w (f :: c) (hang this (hole_edge (f :: c)) Leaf) [(n, new_node)] ->
  ctx_ok (f :: c) (-1) ->
  wp (insert_below this (Obj n) (Obj (fnode f)) (side f) (at_left (hole_edge (f :: c))) (at_right (hole_edge (f :: c)))) w
    (balanced this h0 (list_book this (before (f :: c) ++ n :: after (f :: c))) (plug (f :: c) (Bin Leaf n 0 Leaf))).
Proof.
  intros H Hc. rewrite list_book_insert by apply around_not_nil. rewrite <- before_nil, <- after_nil.
  rewrite inorder_plug in H. simpl (inorder Leaf ++ _) in H. set (b := list_book _ _) in *.
  set (e := hole_edge (f :: c)) in *. unfold insert_below.
  assert (Hv : valid_sentinel_ptr (hang this e Leaf) = false) by apply valid_hang.
  assert (Hs : is_sentinel_ptr (hang this e Leaf) = at_left e || at_right e) by (simpl; by destruct (_ || _)).
  remember (hang this e Leaf) as o eqn:Ho. clear Ho.
  apply wp_bind, wp_child_link. change (ChildLink (side f) (fnode f)) with (hole_link (f :: c)).
  assert (He : negb (at_left e) || negb (at_right e) = true) by (unfold e; simpl; destruct (side f); simpl; by rewrite ?orb_true_r).
  apply wp_bind, wp_assert; [done|]. apply wp_bind. eapply wp_get_link; [exact H|].
  apply wp_bind.
  eapply wp_mono with (P := fun _ w' =>
    st this h0 (Book (if at_left e then Obj n else lm b) (if at_right e then Obj n else rm b) (cnt b)) w' (f :: c)
       o [(n, NS Null (if at_left e then sentinel this else Null) (if at_right e then sentinel this else Null) false)]).
  { destruct (at_right e) eqn:Er, (at_left e) eqn:El; try done; rewrite ?orb_true_r, ?orb_false_r in Hs; simpl in Hs.
    - apply wp_bind, wp_assert; [done|]. apply wp_bind. eapply wp_update; [exact H|apply repl_here|].
      intros w1 H1. eapply wp_set_LRMost; [exact H1|]. intros w2 H2. exact H2.
    - apply wp_bind, wp_assert; [done|]. apply wp_bind. eapply wp_update; [exact H|apply repl_here|].
      intros w1 H1. eapply wp_set_LRMost; [exact H1|]. intros w2 H2. exact H2.
    - apply wp_ret. exact H. }
  intros _ w1 H1. apply wp_bind. eapply wp_get_link; [exact H1|]. apply wp_bind, wp_assert; [by rewrite Hv|].
  apply wp_bind. eapply wp_update; [exact H1|apply repl_here|]. intros w2 H2.
  apply wp_bind. eapply wp_set_link; [exact H2|]. intros w3 H3.
  apply wp_bind. eapply wp_set_count; [exact H3|]. intros w4 H4.
  apply wp_bind. eapply wp_get_link; [exact H4|].
  apply BalancePostInsert_balanced; [|done]. unfold at_hole. simpl. unfold with_parent in H4. simpl in H4.
  fold e. change (inner (hole_edge c) (side f)) with e. by rewrite orb_false_r.
Qed.

Lemma valid_same_Null e t : t <> Leaf -> same (hang this e t) Null = false.
Proof. by destruct t. Qed.

Lemma insert_first_ok h0 w n :
  st this h0 (list_book this []) w [] Null [(n, new_node)] ->
  wp (insert_first this (Obj n)) w (fun _ w' => represents this h0 w' (Bin Leaf n 0 Leaf)).
Proof.
  intros H. unfold insert_first. do 3 (apply wp_bind; eapply wp_update; [exact H|apply repl_here|]; clear w H; intros w H).
  apply wp_bind, wp_gets. apply wp_bind, wp_assert; [by injection (st_book _ _ _ _ _ _ _ H) as -> -> _|].
  do 2 (apply wp_bind; eapply wp_set_LRMost; [exact H|]; clear w H; intros w H).
  apply wp_bind. change (set_root (Obj n)) with (set_link (hole_link []) (Obj n)).
  eapply wp_set_link; [exact H|]. clear w H. intros w H. eapply wp_set_count; [exact H|]. clear w H. intros w H.
  exact H.
Qed.

(** The new object seen from inside the tree. *)
Lemma st_focus_new h0 b w f c n :
  st this h0 b w [] (root_ptr (plug (f :: c) Leaf))
     ((n, new_node) :: cells this (Edge true true) (sentinel this) (plug (f :: c) Leaf)) ->
  st this h0 b w (f :: c) (hang this (hole_edge (f :: c)) Leaf) [(n, new_node)].
Proof.
  intros H. pose proof (st_owns _ _ _ _ _ _ _ H n new_node ltac:(by left)) as Hn.
  pose proof (st_nodup _ _ _ _ _ _ _ H) as Hnd.
  change (NoDup (n :: (cells this (Edge true true) (sentinel this) (plug (f :: c) Leaf)).*1)) in Hnd.
  apply NoDup_cons in Hnd as [Hnin _]. rewrite cells_inorder, <- (ctx_cells_inorder this (f :: c) (hang this (hole_edge (f :: c)) Leaf)) in Hnin.
  rewrite elem_of_app in Hnin.
  apply st_drop in H. apply (st_rebase this (<[n := new_node]> h0)).
  - apply st_gain; [|done|by rewrite app_nil_r; intros Hin; apply Hnin; left].
    assert (Hh : at_hole this (<[n := new_node]> h0) b w (f :: c) Leaf); [|exact Hh].
    rewrite at_hole_plug. pose proof (plug_not_Leaf (f :: c) Leaf ltac:(by right)) as Hp.
    unfold at_hole. destruct (plug (f :: c) Leaf); [done|exact H].
  - intros m Hm. rewrite lookup_insert_ne; [done|]. intros ->. apply Hm. rewrite fmap_app, elem_of_app. right. by left.
Qed.

Lemma internal_insert_ok h0 w l n ns coll :
  holds this h0 w l -> heap w !! n = Some ns -> IsValid ns && negb (InContainer ns) = true ->
  coll = true \/ (forall m, m ∈ l -> GetKey m <> GetKey n) ->
  wp (internal_insert this n coll) w (fun r w' =>
    (exists m, m ∈ l /\ GetKey m = GetKey n /\ r = Obj m /\ holds this (<[n := new_node]> h0) w' l) \/
    (r = Null /\ exists l1 l2, l = l1 ++ l2 /\ all_below l1 (GetKey n) /\ all_above l2 (GetKey n) /\
                              holds this h0 w' (l1 ++ n :: l2))).
Proof.
  intros (t & H & Hwavl & <- & Hs) Hn Hns Hcoll.
  assert (with_rank false ns = new_node /\ parent_ ns = Null) as [Hnew Hpar].
  { unfold IsValid, InContainer, same in Hns. destruct ns as [[] ? ? r]; simpl in Hns; try done.
    apply andb_prop in Hns as [Hns _]. apply andb_prop in Hns as [H1 H2].
    apply bool_decide_eq_true in H1, H2. by subst. }
  pose proof (st_not_member _ _ _ _ _ _ _ H Hn Hpar) as Hnin.
  eapply st_gain in H; [|exact Hn|by simpl; rewrite cells_inorder]. unfold internal_insert.
  apply wp_bind. eapply wp_node_state; [exact H|by left|]. apply wp_bind, wp_assert; [done|].
  apply wp_bind. eapply wp_update; [exact H|apply repl_here|]. clear w H Hn. intros w H. rewrite Hnew in H.
  apply wp_bind, wp_gets. rewrite (st_root _ _ _ _ _ _ _ H). simpl.
  destruct t as [|tl m rk tr]; simpl (root_ptr _).
  - apply wp_bind. eapply wp_mono; [by apply insert_first_ok|]. intros [] w' H'. apply wp_ret. right. split; [done|].
    exists [], []. do 3 (split; [done || constructor|]). exists (Bin Leaf n 0 Leaf). split; [exact H'|].
    simpl. unfold diff12. repeat split; try lia. by repeat constructor.
  - remember (Bin tl m rk tr) as t eqn:Et. assert (Htl : t <> Leaf) by (by rewrite Et).
    replace (Obj m) with (hang this (hole_edge []) t) by (by rewrite Et). rewrite valid_same_Null by done.
    apply wp_bind. eapply wp_chain_bound; [exact H|]. intros k Hk. simpl in Hk.
    apply wp_bind. pose proof (st_drop _ _ _ _ _ _ _ _ _ H) as Hd.
    eapply wp_mono; [apply (position_loop_ok this (<[n := new_node]> h0) (list_book this (inorder t)) k (GetKey n) [] t w)|]; try done.
    + unfold at_hole. replace (hang _ _ _) with (root_ptr t) by (by rewrite Et). exact Hd.
    + rewrite <- (cells_inorder this (Edge true true) (sentinel this)), length_fmap. lia.
    + constructor.
    + constructor.
    + intros pos w' [-> Hpos]. change (plug [] t) with t in Hpos. destruct pos as [p|p sd fl fr].
      * destruct Hpos as (m' & -> & Hm' & Hk'). destruct Hcoll as [->|Hno]; [|by destruct (Hno m')].
        apply wp_bind, wp_assert; [done|]. apply wp_ret. left. exists m'. do 3 (split; [done|]). by exists t.
      * destruct Hpos as (f & c & -> & -> & -> & -> & Hp & Hb & Ha). rewrite <- Hp in *.
        apply (wavl_plug (f :: c) Leaf) in Hwavl as [_ Hc]. apply st_focus_new in H.
        apply wp_bind. eapply wp_mono; [apply insert_below_ok; [exact H|exact Hc]|]. intros _ w' (t' & Ht' & Hw' & Hi').
        apply wp_ret. right. split; [done|]. exists (before (f :: c)), (after (f :: c)).
        rewrite (inorder_plug (f :: c)) in *. do 3 (split; [done|]). exists t'. split; [|split; [done|split; [done|by apply sorted_insert]]].
        apply represents_at_hole; [|by rewrite Hi'].
        intros ->. simpl in Hi'. by destruct (before c ++ _).
Qed.
End Insert.
