(* ===== verification/WavlQuery.v ===== *)
(** * Lookups and iteration in a WAVL tree

    [find], the bounds, the iterators and [find_if] read the tree as the ordered
    sequence it holds; a lookup takes a number of steps logarithmic in the number of
    objects. *)

From stdpp Require Import gmap sorting.
From S2P Require Import Prelude Wavl WavlSpec WavlLogic WavlInsert.

(** ** Height *)

Fixpoint height (t : shape) : nat :=
  match t with Leaf => O | Bin l _ _ r => S (Nat.max (height l) (height r)) end.

Lemma height_length t : (height t <= length (inorder t))%nat.
Proof. induction t as [|l IHl n rk r IHr]; simpl; [done|]. rewrite length_app. simpl. lia. Qed.

Lemma wavl_height t : wavl t -> Z.of_nat (height t) <= rank t + 1.
Proof.
  induction t as [|l IHl n rk r IHr]; simpl; [done|]. unfold diff12.
  intros (? & ? & _ & Hl%IHl & Hr%IHr). lia.
Qed.

(** A tree of rank [r] has at least [2^((r+1)/2)] free links. *)
Lemma wavl_size t : wavl t -> 2 ^ ((rank t + 1) / 2) <= Z.of_nat (length (inorder t)) + 1.
Proof.
  induction t as [|l IHl n rk r IHr]; [done|]. intros (Hdl & Hdr & _ & Hl & Hr). unfold diff12 in *.
  specialize (IHl Hl). specialize (IHr Hr). apply wavl_rank in Hl, Hr. cbn [rank inorder] in *. rewrite length_app. simpl.
  assert (Hmono : forall s, rk <= s + 2 -> -1 <= s -> 2 ^ ((rk + 1) / 2) <= 2 * 2 ^ ((s + 1) / 2)).
  { intros s Hs Hs1. rewrite <- Z.pow_succ_r by (apply Z.div_pos; lia). apply Z.pow_le_mono_r; [lia|].
    replace (Z.succ ((s + 1) / 2)) with ((s + 1 + 1 * 2) / 2) by (rewrite Z.div_add; lia). apply Z.div_le_mono; lia. }
  pose proof (Hmono (rank l) ltac:(lia) ltac:(lia)). pose proof (Hmono (rank r) ltac:(lia) ltac:(lia)). lia.
Qed.

Lemma wavl_height_log t :
  wavl t -> Z.of_nat (height t) <= 2 * Z.log2 (Z.of_nat (length (inorder t)) + 1) + 1.
Proof.
  intros H. pose proof (wavl_height t H). pose proof (wavl_rank t H).
  pose proof (Z.log2_le_mono _ _ (wavl_size t H)) as Hlog.
  rewrite Z.log2_pow2 in Hlog by (apply Z.div_pos; lia).
  pose proof (Z.div_mod (rank t + 1) 2 ltac:(lia)). pose proof (Z.mod_pos_bound (rank t + 1) 2 ltac:(lia)). lia.
Qed.

Section Query.
Context {kt : KeyTraits} {laws : KeyTraitsLaws kt} (this : N).

(** The heap holds the cells of a subtree. *)
Definition sees (w : world) (e : edge) (par : ptr) (t : shape) : Prop :=
  forall n ns, (n, ns) ∈ cells this e par t -> heap w !! n = Some ns.

Lemma sees_Bin w e par l n rk r :
  sees w e par (Bin l n rk r) ->
  heap w !! n = Some (NS par (hang this (inner e ForwardTraits) l) (hang this (inner e ReverseTraits) r) (Z.odd rk)) /\
  sees w (inner e ForwardTraits) (Obj n) l /\ sees w (inner e ReverseTraits) (Obj n) r.
Proof.
  intros H. split; [apply H; by left|]. split; intros m ms Hin; apply H; simpl; right; rewrite elem_of_app; tauto.
Qed.

Lemma st_sees h0 b w c p cs e par t : st this h0 b w c p cs -> cells this e par t ⊆ cs -> sees w e par t.
Proof. intros H Hsub n ns Hin. apply (st_owns _ _ _ _ _ _ _ H). rewrite elem_of_app. right. by apply Hsub. Qed.

Lemma wp_see n ns w Q : heap w !! n = Some ns -> Q ns w -> wp (node_state (Obj n)) w Q.
Proof. intros Hn HQ. exists ns, w. split; [|done]. unfold node_state. by rewrite Hn. Qed.

Lemma wp_see_key n ns w (Q : KeyType -> world -> Prop) : heap w !! n = Some ns -> Q (GetKey n) w -> wp (key_of (Obj n)) w Q.
Proof. intros Hn HQ. apply wp_bind. eapply wp_see; [exact Hn|]. by apply wp_ret. Qed.

(** *** Lookup *)

Definition found_at (k : KeyType) (l : list N) (p : ptr) : Prop :=
  (exists m, m ∈ l /\ GetKey m = k /\ p = Obj m) \/ ((forall m, m ∈ l -> GetKey m <> k) /\ p = sentinel this).

Lemma find_loop_ok fuel k w e par t :
  sees w e par t -> (height t < fuel)%nat -> sorted (inorder t) ->
  wp (find_loop this fuel k (hang this e t)) w (fun p w' => w' = w /\ found_at k (inorder t) p).
Proof.
  revert e par t. induction fuel as [|fuel IH]; intros e par t H Hf Hs; [lia|].
  cbn [find_loop]. rewrite valid_hang. destruct t as [|l n rk r].
  { apply wp_ret. split; [done|]. right. split; [|done]. by intros m ?%elem_of_nil. }
  apply sees_Bin in H as (Hn & Hl & Hr). cbn [hang]. apply wp_bind. eapply wp_see_key; [exact Hn|].
  cbn [inorder height] in *. destruct (EqualTo k (GetKey n)) eqn:Heq.
  { apply EqualTo_eq in Heq. apply wp_ret. split; [done|]. left. exists n. split; [|done].
    rewrite elem_of_app, elem_of_cons. tauto. }
  apply EqualTo_false in Heq. apply wp_bind. eapply wp_see; [exact Hn|]. cbn [left_ right_].
  destruct (sorted_around _ _ _ Hs) as [Hb Ha]. unfold all_below, all_above in *. rewrite Forall_forall in Hb, Ha.
  apply sorted_app in Hs as (Hsl & Hsr & _). apply StronglySorted_inv in Hsr as [Hsr _].
  destruct (LessThan k (GetKey n)) eqn:Hlt.
  - eapply wp_mono; [apply (IH _ _ _ Hl); [lia|done]|]. intros p w' [-> Hp]. split; [done|].
    destruct Hp as [(m & Hm & Hk & ->)|[Hno ->]]; [left; exists m; rewrite elem_of_app; tauto|]. right. split; [|done].
    intros m [Hm|[->|Hm]%elem_of_cons]%elem_of_app; [by apply Hno|done|]. intros <-. specialize (Ha m Hm).
    apply LessThan_asym in Ha. simpl in Ha. congruence.
  - eapply wp_mono; [apply (IH _ _ _ Hr); [lia|done]|]. intros p w' [-> Hp]. split; [done|].
    destruct Hp as [(m & Hm & Hk & ->)|[Hno ->]]; [left; exists m; rewrite elem_of_app, elem_of_cons; tauto|].
    right. split; [|done]. intros m [Hm|[->|Hm]%elem_of_cons]%elem_of_app; [|done|by apply Hno].
    intros <-. specialize (Hb m Hm). simpl in Hb. congruence.
Qed.

(** *** Bounds *)

Definition bound_at (bt : BoundTraits) (k : KeyType) (l : list N) (found p : ptr) : Prop :=
  exists l1 l2, l = l1 ++ l2 /\ Forall (fun m => GoRight bt k (GetKey m) = true) l1 /\
    Forall (fun m => GoRight bt k (GetKey m) = false) l2 /\ p = match head l2 with Some m => Obj m | None => found end.

(** The bound conditions are downward closed. *)
Lemma GoRight_down bt k a c : GoRight bt k c = true -> LessThan a c = true -> GoRight bt k a = true.
Proof.
  destruct bt; simpl; [|intros H1 H2; exact (LessThan_trans _ _ _ H2 H1)].
  rewrite !orb_true_iff, !EqualTo_eq. intros [->|H1] H2; [by right|]. right. exact (LessThan_trans _ _ _ H2 H1).
Qed.

Lemma bound_loop_ok fuel bt k w e par t found :
  sees w e par t -> (height t < fuel)%nat -> sorted (inorder t) ->
  wp (bound_loop fuel bt k (hang this e t) found) w (fun p w' => w' = w /\ bound_at bt k (inorder t) found p).
Proof.
  revert e par t found. induction fuel as [|fuel IH]; intros e par t found H Hf Hs; [lia|].
  cbn [bound_loop]. rewrite valid_hang. destruct t as [|l n rk r].
  { apply wp_ret. split; [done|]. exists [], []. by repeat split. }
  apply sees_Bin in H as (Hn & Hl & Hr). cbn [hang]. apply wp_bind. eapply wp_see_key; [exact Hn|].
  apply wp_bind. eapply wp_see; [exact Hn|]. cbn [left_ right_ inorder height] in *.
  destruct (sorted_around _ _ _ Hs) as [Hb Ha]. unfold all_below, all_above in *.
  apply sorted_app in Hs as (Hsl & Hsr & _). apply StronglySorted_inv in Hsr as [Hsr _].
  destruct (GoRight bt k (GetKey n)) eqn:Hgo.
  - assert (Hleft : Forall (fun m => GoRight bt k (GetKey m) = true) (inorder l ++ [n])).
    { apply Forall_app. split; [|by constructor]. eapply Forall_impl; [exact Hb|]. intros m Hm. by eapply GoRight_down. }
    case_match eqn:Hnull.
    + apply bool_decide_eq_true in Hnull. destruct r; [|done]. apply wp_ret. split; [done|].
      exists (inorder l ++ [n]), []. by rewrite app_nil_r.
    + eapply wp_mono; [apply (IH _ _ _ found Hr); [lia|done]|]. intros p w' [-> (l1 & l2 & -> & H1 & H2 & ->)].
      split; [done|]. exists ((inorder l ++ [n]) ++ l1), l2. rewrite <- !app_assoc. split; [done|].
      split; [|done]. rewrite app_assoc. by apply Forall_app.
  - eapply wp_mono; [apply (IH _ _ _ (Obj n) Hl); [lia|done]|]. intros p w' [-> (l1 & l2 & -> & H1 & H2 & ->)].
    split; [done|]. exists l1, (l2 ++ n :: inorder r). rewrite <- app_assoc. split; [done|]. split; [done|].
    split; [|by destruct l2]. apply Forall_app. split; [done|]. constructor; [done|].
    eapply Forall_impl; [exact Ha|]. intros m Hm. simpl in *. destruct (GoRight bt k (GetKey m)) eqn:E; [|done].
    by rewrite (GoRight_down _ _ _ _ E Hm) in Hgo.
Qed.

(** ** Iteration *)

(** The sequence read in a direction, and what follows a hole in that direction. *)
Definition along (tr : LRTraits) (l : list N) : list N :=
  match tr with ForwardTraits => l | ReverseTraits => reverse l end.
Definition follow (tr : LRTraits) (c : ctx) : list N :=
  match tr with ForwardTraits => after c | ReverseTraits => reverse (before c) end.

Lemma along_mk tr x n rk y :
  along tr (inorder (mk tr x n rk y)) = along tr (inorder x) ++ n :: along tr (inorder y).
Proof. destruct tr; simpl; [done|]. by rewrite reverse_app, reverse_cons, <- app_assoc. Qed.

Lemma follow_cons tr f c :
  follow tr (f :: c) = (if decide (tr = side f) then fnode f :: along tr (inorder (sibling f)) else []) ++ follow tr c.
Proof.
  destruct tr; simpl; destruct (side f); simpl; try done.
  - by rewrite app_nil_r.
  - by rewrite !reverse_app.
Qed.

(** The child link at the end in direction [tr] is the sentinel, any other missing
    child is null. *)
Lemma hang_Leaf_RL tr c :
  hang this (inner (hole_edge c) (Inverse tr)) Leaf = if bool_decide (follow tr c = []) then sentinel this else Null.
Proof.
  destruct tr; simpl; rewrite ?orb_false_r.
  - by rewrite after_nil.
  - rewrite before_nil. erewrite bool_decide_ext; [done|]. split; [by intros ->|].
    intros H. by apply (f_equal reverse) in H; rewrite reverse_involutive in H.
Qed.

Lemma descend_ok fuel tr w e par t :
  sees w e par t -> inner e tr = Edge false false -> t <> Leaf -> (height t <= fuel)%nat ->
  wp (descend fuel tr (hang this e t)) w
    (fun p w' => w' = w /\ exists m, head (along tr (inorder t)) = Some m /\ p = Obj m).
Proof.
  revert e par t. induction fuel as [|fuel IH]; intros e par t H He Ht Hf; destruct (shape_mk tr t Ht) as (x & n & rk & y & ->);
    [destruct tr; simpl in Hf; lia|].
  assert (Hn : heap w !! n = Some (NSd tr par (hang this (inner e tr) x) (hang this (inner e (Inverse tr)) y) (Z.odd rk))).
  { apply H. rewrite cells_mk. by left. }
  rewrite hang_mk. simpl. apply wp_bind. eapply wp_see; [exact Hn|]. rewrite LRChild_NSd, He, along_mk.
  destruct x as [|xl m rx xr].
  - apply wp_ret. split; [done|]. exists n. by destruct tr.
  - cbn [hang]. unfold same. rewrite bool_decide_false by done.
    apply wp_bind, wp_assert; [done|].
    change (Obj m) with (hang this (Edge false false) (Bin xl m rx xr)).
    eapply wp_mono; [apply (IH (Edge false false) (Obj n))|].
    + intros q qs Hin. apply H. rewrite cells_mk, He. right. rewrite elem_of_app. by left.
    + by destruct tr.
    + done.
    + destruct tr; simpl in Hf |- *; lia.
    + intros p w' [-> (q & Hq & ->)]. split; [done|]. exists q. split; [|done].
      destruct (along tr (inorder (Bin xl m rx xr))); [done|]. exact Hq.
Qed.

Lemma climb_ok h0 b fuel tr w c t n :
  at_hole this h0 b w c t -> hang this (hole_edge c) t = Obj n -> follow tr c <> [] -> (length c <= fuel)%nat ->
  wp (climb fuel tr (Obj n)) w (fun p w' => w' = w /\ exists m, head (follow tr c) = Some m /\ p = Obj m).
Proof.
  revert c t n. induction fuel as [|fuel IH]; intros c t n H Hn Hfol Hf;
    (destruct c as [|f c]; [by destruct tr|]); [simpl in Hf; lia|].
  simpl. destruct t as [|l m rk r]; [simpl in Hn; by destruct (_ || _)|]. injection Hn as ->.
  apply wp_bind, (wp_root_node _ _ _ ForwardTraits _ _ _ _ _ _ _ H). simpl (parent_ _).
  apply wp_bind, wp_assert; [done|]. apply wp_bind, (wp_frame_node _ _ _ _ _ _ _ _ H). simpl (hang _ _ _).
  pose proof (at_hole_side _ _ _ _ _ _ _ _ H eq_refl) as Hside. unfold RLChild. rewrite !Hside.
  rewrite follow_cons in *. destruct (decide (tr = side f)) as [Hd|Hd].
  - rewrite bool_decide_true by done. apply wp_bind, wp_assert; [done|]. apply wp_ret. split; [done|].
    by exists (fnode f).
  - rewrite bool_decide_false by done. rewrite bool_decide_true by (by destruct tr, (side f)).
    apply wp_bind, wp_assert; [done|]. apply (IH c (fill f (Bin l n rk r))).
    + by rewrite <- at_hole_frame.
    + apply hang_mk.
    + done.
    + simpl in Hf. lia.
Qed.

Lemma advance_ok h0 b tr w c x n rk y :
  at_hole this h0 b w c (mk tr x n rk y) ->
  wp (advance tr (Obj n)) w
    (fun p w' => w' = w /\ p = or_sentinel this (head (along tr (inorder y) ++ follow tr c))).
Proof.
  intros H. unfold advance. apply wp_bind, wp_assert; [done|]. apply wp_bind. eapply wp_chain_bound; [exact H|].
  intros k Hk. apply wp_bind, (wp_root_node _ _ _ _ _ _ _ _ _ _ _ H). autorewrite with wavl.
  destruct y as [|yl m ry yr].
  - rewrite hang_Leaf_RL. replace (along tr (inorder Leaf)) with (@nil N) by (by destruct tr). simpl.
    destruct (bool_decide (follow tr c = [])) eqn:Hfol; simpl.
    + apply bool_decide_eq_true in Hfol. rewrite Hfol. by apply wp_ret.
    + apply bool_decide_eq_false in Hfol. eapply wp_mono; [eapply climb_ok; [exact H|apply hang_mk|done|]|].
      * rewrite length_app in Hk. pose proof (ctx_cells_length this c (hang this (hole_edge c) (mk tr x n rk Leaf))). lia.
      * intros p w' [-> (m & Hm & ->)]. by rewrite Hm.
  - cbn [hang]. unfold same. rewrite bool_decide_false by done. simpl.
    change (Obj m) with (hang this (inner (hole_edge c) (Inverse tr)) (Bin yl m ry yr)).
    eapply wp_mono; [apply (descend_ok k tr w (inner (hole_edge c) (Inverse tr)) (Obj n))|].
    + eapply st_sees; [exact H|]. rewrite cells_mk. intros q Hq. right. rewrite elem_of_app. by right.
    + apply inner_cross'.
    + done.
    + etrans; [apply height_length|]. rewrite length_app in Hk.
      rewrite <- (length_fmap fst (cells _ _ _ _)), cells_inorder in Hk.
      assert (Hl : (length (inorder (Bin yl m ry yr)) <= length (inorder (mk tr x n rk (Bin yl m ry yr))))%nat).
      { generalize (Bin yl m ry yr) as z. intros z. destruct tr; simpl; rewrite length_app; simpl; lia. }
      lia.
    + intros p w' [-> (q & Hq & ->)]. split; [done|]. revert Hq. cbn [inorder].
      destruct (along tr _) as [|q' l]; simpl; [done|]. by intros [= ->].
Qed.

(** *** The operations on the sequence *)

Lemma locate n t c0 : n ∈ inorder t -> exists c l rk r, plug c0 t = plug c (Bin l n rk r).
Proof.
  revert c0. induction t as [|l IHl m rk r IHr]; intros c0; simpl; [by intros ?%elem_of_nil|].
  rewrite elem_of_app, elem_of_cons. intros [H|[->|H]].
  - exact (IHl (Frame ForwardTraits m rk r :: c0) H).
  - eauto.
  - exact (IHr (Frame ReverseTraits m rk l :: c0) H).
Qed.

Lemma sorted_NoDup l : sorted l -> NoDup l.
Proof.
  induction 1 as [|n l _ IH Hn]; constructor; [|done]. intros Hin. rewrite Forall_forall in Hn.
  specialize (Hn n Hin). unfold key_lt in Hn. by rewrite LessThan_irrefl in Hn.
Qed.

Lemma NoDup_split (l1 l2 k1 k2 : list N) n :
  NoDup (l1 ++ n :: l2) -> l1 ++ n :: l2 = k1 ++ n :: k2 -> l1 = k1 /\ l2 = k2.
Proof.
  revert k1. induction l1 as [|m l1 IH]; intros [|m' k1] Hnd; simpl; intros [=]; subst; try done.
  - simpl in Hnd. apply NoDup_cons in Hnd as [Hnd _]. destruct Hnd. apply elem_of_app. right. by left.
  - simpl in Hnd. apply NoDup_cons in Hnd as [Hnd _]. destruct Hnd. apply elem_of_app. right. by left.
  - simpl in Hnd. apply NoDup_cons in Hnd as [_ Hnd]. destruct (IH k1) as [-> ->]; done.
Qed.

Lemma holds_locate h0 w l1 n l2 :
  holds this h0 w (l1 ++ n :: l2) ->
  exists c l rk r, at_hole this h0 (list_book this (l1 ++ n :: l2)) w c (Bin l n rk r) /\
    wavl (plug c (Bin l n rk r)) /\ before c ++ inorder l = l1 /\ inorder r ++ after c = l2.
Proof.
  intros (t & H & Hw & Hi & Hs). destruct (locate n t []) as (c & l & rk & r & Ht).
  { rewrite Hi. apply elem_of_app. right. by left. }
  simpl in Ht. exists c, l, rk, r. rewrite Ht in *. apply represents_plug in H; [|apply plug_not_Leaf; by left].
  rewrite Hi in H. split; [done|]. split; [done|]. rewrite inorder_plug in Hi. cbn [inorder] in Hi.
  rewrite <- app_assoc, app_assoc in Hi. rewrite <- Hi in Hs. apply sorted_NoDup in Hs.
  by apply (NoDup_split _ _ _ _ _ Hs).
Qed.

Lemma next_ok h0 w l1 n l2 :
  holds this h0 w (l1 ++ n :: l2) -> wp (next (Obj n)) w (fun p w' => w' = w /\ p = or_sentinel this (head l2)).
Proof.
  intros (c & l & rk & r & H & _ & _ & <-)%holds_locate. exact (advance_ok h0 _ ForwardTraits w c l n rk r H).
Qed.

Lemma prev_ok h0 w l1 n l2 :
  holds this h0 w (l1 ++ n :: l2) -> wp (prev this (Obj n)) w (fun p w' => w' = w /\ p = or_sentinel this (last l1)).
Proof.
  intros (c & l & rk & r & H & _ & <- & _)%holds_locate.
  eapply wp_mono; [exact (advance_ok h0 _ ReverseTraits w c r n rk l H)|]. intros p w' [-> ->]. split; [done|].
  cbn [along follow]. by rewrite <- reverse_app, head_reverse.
Qed.

Lemma holds_book h0 w l : holds this h0 w l -> book_of (tree w) = list_book this l.
Proof. intros (t & H & _ & <- & _). apply (st_book _ _ _ _ _ _ _ H). Qed.

Lemma holds_size h0 w l : holds this h0 w l -> (length l <= size (heap w))%nat.
Proof.
  intros (t & H & _ & <- & _). apply st_size in H. simpl in H.
  by rewrite <- (length_fmap fst), cells_inorder in H.
Qed.

(** From any position of the sequence the loop finds the first match. *)
Lemma find_if_loop_ok h0 fuel fn w l1 l2 :
  holds this h0 w (l1 ++ l2) -> (length l2 < fuel)%nat ->
  wp (find_if_loop this fuel fn (or_sentinel this (head l2))) w
    (fun p w' => w' = w /\ p = or_sentinel this (List.find fn l2)).
Proof.
  revert l1 l2. induction fuel as [|fuel IH]; intros l1 l2 H Hf; [lia|]. simpl. apply wp_bind, wp_ret.
  destruct l2 as [|n l2]; simpl.
  - unfold same. rewrite bool_decide_true by done. by apply wp_ret.
  - destruct (fn n); [by apply wp_ret|]. apply wp_bind. eapply wp_mono; [by eapply next_ok|].
    intros p w' [-> ->]. apply (IH (l1 ++ [n])); [|simpl in Hf; lia]. by rewrite <- app_assoc.
Qed.
End Query.
