(* ===== verification/WavlErase.v ===== *)
(** * Erasure from a WAVL tree

    A node with two children first trades places with its successor; a node with at
    most one child is unlinked; and the rebalancing restores the rank rule from the
    rank parities alone. *)

From stdpp Require Import gmap sorting.
From S2P Require Import Prelude Wavl WavlSpec WavlLogic WavlInsert WavlQuery.

(** Equality of concatenations up to associativity. *)
Ltac app_eq := repeat first [ rewrite <- app_assoc | rewrite app_nil_r | progress simpl ]; done.

Section Rebalance.
Context (this : N) (h0 : gmap N WAVLTreeNodeState) (b : book).
#[local] Abbreviation at_hole := (at_hole this h0 b).
#[local] Abbreviation balanced := (balanced this h0 b).

Lemma odd_shift r k : Z.odd (r + 2 * k) = Z.odd r.
Proof. by rewrite Z.odd_add_mul_2. Qed.

(** Two ranks one or two apart differ in parity exactly when they are one apart. *)
Lemma parity_diff r s : diff12 r s -> Bool.eqb (Z.odd s) (Z.odd r) = (r =? s + 2).
Proof.
  unfold diff12. intros H. assert (r = s + 1 \/ r = s + 2) as [->| ->] by lia.
  - rewrite Z.odd_add. replace (s + 1 =? s + 2) with false by lia. by destruct (Z.odd s).
  - rewrite Z.odd_add, Z.eqb_refl. by destruct (Z.odd s).
Qed.

Lemma is_leaf_NSd tr p x y r :
  negb (valid_sentinel_ptr (left_ (NSd tr p x y r))) && negb (valid_sentinel_ptr (right_ (NSd tr p x y r))) =
  negb (valid_sentinel_ptr x) && negb (valid_sentinel_ptr y).
Proof. destruct tr; simpl; [done|]. apply andb_comm. Qed.

(** *** Rotations *)

(** The sibling's far child [W] is a 2-child: a double rotation at [V]. *)
Lemma DoRotations_double tr w c X z rz V1 v rv V2 y ry W :
  at_hole w c (mk tr X z rz (mk tr (mk tr V1 v rv V2) y ry W)) ->
  Z.odd (rank W) = Z.odd ry -> Z.odd rv = negb (Z.odd ry) ->
  wp (BalancePostErase_DoRotations this tr (Obj y) (Obj z)) w (fun _ w' =>
    at_hole w' c (mk tr (mk tr X z (rz - 2) V1) v (rv + 2) (mk tr V2 y (ry - 1) W))).
Proof.
  intros H HW Hv. unfold BalancePostErase_DoRotations. do 2 (apply wp_bind, wp_assert; [done|]).
  pose proof (proj1 (at_hole_RL _ _ _ _ _ _ _ _ _ _) H) as Hy.
  pose proof (proj1 (at_hole_RL _ _ _ _ _ _ _ _ _ _) Hy) as HWh.
  pose proof (proj1 (at_hole_LR _ _ _ _ _ _ _ _ _ _) Hy) as Hvh.
  apply wp_bind, (wp_root_node _ _ _ _ _ _ _ _ _ _ _ Hy). autorewrite with wavl.
  apply wp_bind, (wp_child_parity _ _ _ _ _ _ _ _ HWh). rewrite HW, eqb_reflx, hang_mk. simpl.
  apply wp_bind, wp_assert; [done|]. apply wp_bind, (wp_root_node _ _ _ _ _ _ _ _ _ _ _ Hvh). autorewrite with wavl.
  apply wp_bind, wp_assert; [rewrite Hv; by destruct (Z.odd ry)|].
  rewrite <- !(mk_Inverse tr _ y), <- (mk_Inverse tr _ v) in Hy.
  apply wp_bind. eapply wp_mono; [apply (RotateLR_ok _ _ _ _ _ _ _ _ _ _ _ _ _ Hy)|].
  intros [] w1 H1. rewrite !mk_Inverse, <- at_hole_RL in H1.
  apply wp_bind. eapply wp_mono; [apply (RotateLR_ok _ _ _ _ _ _ _ _ _ _ _ _ _ H1)|].
  intros [] w2 H2. apply wp_bind, (wp_double_promote _ _ _ _ _ _ _ _ _ _ _ H2). intros w3 H3. rewrite at_hole_RL in H3.
  apply wp_bind, (wp_demote _ _ _ _ _ _ _ _ _ _ _ H3). intros w4 H4. rewrite <- at_hole_RL, at_hole_LR in H4.
  apply (wp_double_demote _ _ _ _ _ _ _ _ _ _ _ H4). intros w5 H5. by rewrite <- at_hole_LR in H5.
Qed.

Definition is_Leaf (t : shape) : bool := match t with Leaf => true | _ => false end.

(** [W] is a 1-child: a single rotation at [Y]. *)
Lemma DoRotations_single tr w c X z rz V y ry W :
  at_hole w c (mk tr X z rz (mk tr V y ry W)) -> Z.odd (rank W) = negb (Z.odd ry) ->
  wp (BalancePostErase_DoRotations this tr (Obj y) (Obj z)) w (fun _ w' =>
    at_hole w' c (mk tr (mk tr X z (if is_Leaf X && is_Leaf V then rz - 2 else rz - 1) V) y (ry + 1) W)).
Proof.
  intros H HW. unfold BalancePostErase_DoRotations. do 2 (apply wp_bind, wp_assert; [done|]).
  pose proof (proj1 (at_hole_RL _ _ _ _ _ _ _ _ _ _) H) as Hy.
  pose proof (proj1 (at_hole_RL _ _ _ _ _ _ _ _ _ _) Hy) as HWh.
  apply wp_bind, (wp_root_node _ _ _ _ _ _ _ _ _ _ _ Hy). autorewrite with wavl.
  apply wp_bind, (wp_child_parity _ _ _ _ _ _ _ _ HWh). rewrite HW.
  replace (Bool.eqb _ _) with false by (by destruct (Z.odd ry)). simpl.
  apply wp_bind. eapply wp_mono; [apply (RotateLR_ok _ _ _ _ _ _ _ _ _ _ _ _ _ H)|]. intros [] w1 H1.
  apply wp_bind, (wp_promote _ _ _ _ _ _ _ _ _ _ _ H1). intros w2 H2. rewrite at_hole_LR in H2.
  apply wp_bind, (wp_root_node _ _ _ _ _ _ _ _ _ _ _ H2). rewrite is_leaf_NSd, !valid_hang.
  replace (negb _ && negb _) with (is_Leaf X && is_Leaf V) by (by destruct X, V).
  destruct (is_Leaf X && is_Leaf V).
  - apply (wp_double_demote _ _ _ _ _ _ _ _ _ _ _ H2). intros w3 H3. by rewrite at_hole_LR.
  - apply (wp_demote _ _ _ _ _ _ _ _ _ _ _ H2). intros w3 H3. by rewrite at_hole_LR.
Qed.

(** [X] is a 3-child of [Z], its sibling [Y] a 1-child that is not a 2,2 node. *)
Lemma DoRotations_balanced tr w c X z rz V y W t0 :
  at_hole w c (mk tr X z rz (mk tr V y (rz - 1) W)) ->
  wavl X -> rank X = rz - 3 -> wavl (mk tr V y (rz - 1) W) -> ~ (rank V = rz - 3 /\ rank W = rz - 3) ->
  ctx_ok c rz -> inorder (plug c (mk tr X z rz (mk tr V y (rz - 1) W))) = inorder t0 ->
  wp (BalancePostErase_DoRotations this tr (Obj y) (Obj z)) w (balanced t0).
Proof.
  intros H HX HrX HY Hn22 Hc Hi. rewrite wavl_mk in HY. destruct HY as (HV & HW & HYl & HwV & HwW).
  pose proof (wavl_rank X HX) as HX0. pose proof (wavl_rank W HwW) as HW0. unfold diff12 in *.
  assert (rank W = rz - 3 \/ rank W = rz - 2) as [HrW|HrW] by lia.
  - assert (HrV : rank V = rz - 2) by lia.
    destruct (shape_mk tr V) as (V1 & v & rv & V2 & ->); [by intros ->; simpl in *; lia|].
    rewrite rank_mk in HrV. subst rv. eapply wp_mono; [apply (DoRotations_double _ _ _ _ _ _ _ _ _ _ _ _ _ H)|].
    + rewrite HrW, !Z.odd_sub. by destruct (Z.odd rz).
    + rewrite !Z.odd_sub. by destruct (Z.odd rz).
    + intros u w' H'. apply (balanced_intro _ _ _ _ _ _ _ _ H').
      * rank_rule.
      * rewrite rank_mk. by replace (rz - 2 + 2) with rz by lia.
      * rewrite <- Hi. apply inorder_plug_cong. destruct tr; simpl; by rewrite <- ?app_assoc; simpl; rewrite <- ?app_assoc.
  - eapply wp_mono; [apply (DoRotations_single _ _ _ _ _ _ _ _ _ _ H)|].
    + rewrite HrW, !Z.odd_sub. by destruct (Z.odd rz).
    + intros u w' H'. apply (balanced_intro _ _ _ _ _ _ _ _ H').
      * destruct (is_Leaf X && is_Leaf V) eqn:El; [|rank_rule].
        destruct X, V; try done. rank_rule.
      * rewrite rank_mk. by replace (rz - 1 + 1) with rz by lia.
      * rewrite <- Hi. apply inorder_plug_cong. apply inorder_rotate.
Qed.

(** *** Demotions *)

Lemma wp_odd_or_missing w c t (Q : bool -> world -> Prop) e :
  at_hole w c t -> Q (Z.odd (rank t)) w -> wp (odd_or_missing (hang this e t)) w Q.
Proof. apply (wp_child_parity this h0 b). Qed.

Lemma wp_even_and_present w c t (Q : bool -> world -> Prop) e :
  at_hole w c t -> Q (negb (Z.odd (rank t))) w -> wp (even_and_present (hang this e t)) w Q.
Proof.
  intros H HQ. unfold even_and_present. rewrite valid_hang. destruct t as [|l n r y]; [by apply wp_ret|].
  simpl. apply wp_bind, wp_bind. apply (wp_root_node _ _ _ ForwardTraits _ _ _ _ _ _ _ H). by apply wp_ret, wp_ret.
Qed.

(** The test for a 2,2 node compares the parities of its children with its own. *)
Lemma wp_is_22_node w c A y ry B (Q : bool -> world -> Prop) :
  at_hole w c (Bin A y ry B) ->
  Q (Bool.eqb (Z.odd (rank A)) (Z.odd ry) && Bool.eqb (Z.odd (rank B)) (Z.odd ry)) w ->
  forall p eA eB, wp (is_22_node (NS p (hang this eA A) (hang this eB B) (Z.odd ry))) w Q.
Proof.
  intros H HQ p eA eB. unfold is_22_node. cbn [rank_ left_ right_].
  pose proof (proj1 (at_hole_LR _ _ _ ForwardTraits _ _ _ _ _ _) H) as HA.
  pose proof (proj1 (at_hole_RL _ _ _ ForwardTraits _ _ _ _ _ _) H) as HB.
  destruct (Z.odd ry).
  - apply wp_bind, (wp_odd_or_missing _ _ _ _ _ HA). destruct (Z.odd (rank A)); [|by apply wp_ret].
    apply (wp_odd_or_missing _ _ _ _ _ HB). by destruct (Z.odd (rank B)).
  - rewrite !valid_hang. destruct A as [|a1 a a2 a3]; [by apply wp_ret|].
    destruct B as [|b1 b' b2 b3]; [by rewrite andb_false_r in HQ; apply wp_ret|]. simpl (true && true).
    apply wp_bind, (wp_even_and_present _ _ _ _ _ HA). destruct (Z.odd (rank (Bin a1 a a2 a3))); cbn [negb]; [by apply wp_ret|].
    apply (wp_even_and_present _ _ _ _ _ HB). by destruct (Z.odd (rank (Bin b1 b' b2 b3))).
Qed.

(** The step from a demoted [z] to its parent; [loop] goes on when [z] has become a
    3-child. *)
Lemma demote_climb tr c w d X z rz Y t0 (loop : bool -> ptr -> ptr -> ST world unit) :
  at_hole w c (mk d X z (rz - 1) Y) -> wavl (mk d X z (rz - 1) Y) -> 2 <= rz -> ctx_ok c rz ->
  inorder (plug c (mk d X z (rz - 1) Y)) = inorder t0 ->
  (forall f c', c = f :: c' -> frank f = rz + 2 ->
     wp (loop (bool_decide (tr = side f)) (hang this (inner (hole_edge c') (Inverse (side f))) (sibling f)) (Obj (fnode f)))
        w (balanced t0)) ->
  wp (Z_ns ← node_state (Obj z);
      if negb (valid_sentinel_ptr (parent_ Z_ns)) then mret tt
      else Z_ns' ← node_state (parent_ Z_ns);
           if Bool.eqb (rank_ Z_ns') (rank_ Z_ns) then mret tt
           else loop (same (LRChild tr Z_ns') (Obj z))
                  (if same (LRChild tr Z_ns') (Obj z) then RLChild tr Z_ns' else LRChild tr Z_ns') (parent_ Z_ns))
     w (balanced t0).
Proof.
  intros H HT Hrz Hc Hi Hloop. apply wp_bind, (wp_root_node _ _ _ _ _ _ _ _ _ _ _ H). autorewrite with wavl.
  destruct c as [|f c]; [by apply wp_ret, (balanced_intro _ _ _ _ _ _ _ _ H)|]. cbn [hole_par valid_sentinel_ptr negb].
  apply wp_bind, (wp_frame_node _ _ _ _ _ _ _ _ H). rewrite hang_mk.
  rewrite (at_hole_side _ _ _ _ _ _ _ _ H (hang_mk _ _ _ _ _ _ _)).
  destruct Hc as (Hd1 & Hd2 & _ & Hsib & Hc). unfold diff12 in Hd1, Hd2. unfold frame_cell. cbn [snd]. rewrite rank_NSd.
  assert (frank f = rz + 1 \/ frank f = rz + 2) as [Hfr|Hfr] by lia.
  - replace (Bool.eqb _ _) with true by (rewrite Hfr, Z.odd_add, Z.odd_sub; by destruct (Z.odd rz)).
    apply wp_ret, (balanced_intro _ _ _ _ _ _ _ _ H); [done| |done]. rewrite rank_mk. simpl. unfold diff12.
    repeat split; try done; lia.
  - replace (Bool.eqb _ _) with false by (rewrite Hfr, Z.odd_add, Z.odd_sub; by destruct (Z.odd rz)).
    specialize (Hloop f c eq_refl Hfr). by destruct tr, (side f).
Qed.

(** [X] is a 3-child of [z] on side [d]. *)
Lemma demote_loop_balanced fuel tr c w d X z rz Y t0 :
  (length c < fuel)%nat -> at_hole w c (mk d X z rz Y) -> wavl X -> wavl Y ->
  rank X = rz - 3 -> diff12 rz (rank Y) -> ctx_ok c rz -> inorder (plug c (mk d X z rz Y)) = inorder t0 ->
  wp (demote_loop this fuel tr (bool_decide (tr = d)) (hang this (inner (hole_edge c) (Inverse d)) Y) (Obj z)) w
    (balanced t0).
Proof.
  revert c w d X z rz Y. induction fuel as [|fuel IH]; intros c w d X z rz Y Hf H HX HY HrX HdY Hc Hi; [lia|].
  pose proof (wavl_rank X HX) as HX0. unfold diff12 in HdY. cbn [demote_loop].
  destruct (shape_mk d Y) as (A & y & ry & B & ->); [by intros ->; simpl in HdY; lia|]. rewrite hang_mk, rank_mk in *.
  apply wp_bind, wp_assert; [done|]. pose proof (proj1 (at_hole_RL _ _ _ _ _ _ _ _ _ _) H) as Hy.
  apply wp_bind, (wp_root_node _ _ _ _ _ _ _ _ _ _ _ Hy).
  apply wp_bind, (wp_root_node _ _ _ _ _ _ _ _ _ _ _ H). autorewrite with wavl.
  pose proof HY as HY'. rewrite wavl_mk in HY'. destruct HY' as (HA & HB & HYl & HwA & HwB).
  rewrite (parity_diff rz ry) by done. apply wp_bind.
  eapply wp_mono with (P := fun g w' => w' = w /\ g = (rz =? ry + 2) || ((ry =? rank A + 2) && (ry =? rank B + 2))).
  { destruct (rz =? ry + 2); [by apply wp_ret|]. rewrite <- !parity_diff by done.
    destruct d; simpl (NSd _ _ _ _ _); apply (wp_is_22_node _ _ _ _ _ _ _ Hy); [done|by rewrite andb_comm]. }
  intros g w' [-> ->].
  assert (Hin : forall Y', inorder Y' = inorder (mk d A y ry B) -> inorder (plug c (mk d X z (rz - 1) Y')) = inorder t0).
  { intros Y' HY'. rewrite <- Hi. by apply inorder_plug_cong, inorder_mk_cong. }
  assert (Hnext : forall w' Y' f c', at_hole w' c (mk d X z (rz - 1) Y') -> wavl (mk d X z (rz - 1) Y') ->
    inorder Y' = inorder (mk d A y ry B) -> c = f :: c' -> frank f = rz + 2 ->
    wp (demote_loop this fuel tr (bool_decide (tr = side f))
          (hang this (inner (hole_edge c') (Inverse (side f))) (sibling f)) (Obj (fnode f))) w' (balanced t0)).
  { intros w' Y' f c' H' HT HY' -> Hfr. rewrite at_hole_frame in H'. unfold fill in H'. simpl in Hf.
    destruct Hc as (_ & Hd & _ & Hs & Hc). eapply IH with (2 := H'); try done; rewrite ?rank_mk; try lia. by apply Hin. }
  destruct (Z.eqb_spec rz (ry + 2)) as [H2|H2]; cbn [orb].
  - apply wp_bind, (wp_demote _ _ _ _ _ _ _ _ _ _ _ H). intros w1 H1. apply wp_bind, wp_ret.
    assert (HT : wavl (mk d X z (rz - 1) (mk d A y ry B))) by rank_rule.
    apply (demote_climb tr c w1 d X z rz _ t0 (demote_loop this fuel tr) H1); try done; [lia|by apply Hin|eauto].
  - destruct ((ry =? rank A + 2) && (ry =? rank B + 2)) eqn:H22.
    + apply wp_bind, (wp_demote _ _ _ _ _ _ _ _ _ _ _ H). intros w1 H1. rewrite at_hole_RL in H1.
      apply wp_bind, (wp_demote _ _ _ _ _ _ _ _ _ _ _ H1). intros w2 H3. rewrite <- at_hole_RL in H3.
      assert (HT : wavl (mk d X z (rz - 1) (mk d A y (ry - 1) B))) by rank_rule.
      assert (HY' : inorder (mk d A y (ry - 1) B) = inorder (mk d A y ry B)) by (by apply inorder_mk_cong).
      apply (demote_climb tr c w2 d X z rz _ t0 (demote_loop this fuel tr) H3); try done; [lia|by apply Hin|eauto].
    + assert (ry = rz - 1) as -> by lia.
      assert (Hrot : wp (BalancePostErase_DoRotations this d (Obj y) (Obj z)) w (balanced t0)).
      { apply (DoRotations_balanced _ _ _ _ _ _ _ _ _ _ H); try done. lia. }
      destruct (decide (tr = d)) as [->|Hd]; [by rewrite bool_decide_true|]. rewrite bool_decide_false by done.
      by replace (Inverse tr) with d by (by destruct d, tr).
Qed.

(** [X], a leaf or missing, is a 2-child or a 3-child of [z]. *)
Lemma FixLR3Child_balanced tr w c X z rz Y t0 :
  at_hole w c (mk tr X z rz Y) -> wavl X -> wavl Y -> rank X <= 0 -> rz = rank X + 2 \/ rz = rank X + 3 ->
  diff12 rz (rank Y) -> (X = Leaf -> Y = Leaf -> rz = 0) -> ctx_ok c rz -> inorder (plug c (mk tr X z rz Y)) = inorder t0 ->
  wp (BalancePostErase_FixLR3Child this tr (Obj z)) w (balanced t0).
Proof.
  intros H HX HY HrX Hrz HdY Hl Hc Hi. pose proof (wavl_rank X HX) as HX0. pose proof (wavl_rank_Leaf X HX) as HXl.
  unfold BalancePostErase_FixLR3Child. apply wp_bind, wp_assert; [done|].
  apply wp_bind, (wp_root_node _ _ _ _ _ _ _ _ _ _ _ H). autorewrite with wavl. rewrite valid_hang.
  assert (Htest : Bool.eqb (match X with Leaf => false | _ => true end) (Z.odd rz) = (rz =? rank X + 3)).
  { assert (rank X = -1 \/ rank X = 0) as [E|E] by lia.
    - apply HXl in E as Hx. subst X. simpl in *. by destruct Hrz as [->| ->].
    - destruct X; [done|]. rewrite E in *. by destruct Hrz as [->| ->]. }
  rewrite Htest. destruct (Z.eqb_spec rz (rank X + 3)) as [H3|H3]; simpl.
  - apply wp_bind. eapply wp_chain_bound; [exact H|]. intros k Hk.
    rewrite <- (bool_decide_true (tr = tr)) by done. eapply demote_loop_balanced with (2 := H); try done; [|lia].
    rewrite length_app in Hk. pose proof (ctx_cells_length this c (hang this (hole_edge c) (mk tr X z rz Y))). lia.
  - apply wp_ret, (balanced_intro _ _ _ _ _ _ _ _ H); [|by rewrite rank_mk|done]. rank_rule.
Qed.

(** [z] has just lost a 1-child, [X] is what is left of it. *)
Lemma Fix22Leaf_balanced tr w c X z rz Y t0 :
  at_hole w c (mk tr X z rz Y) -> wavl X -> wavl Y -> rz = rank X + 2 -> diff12 rz (rank Y) -> ctx_ok c rz ->
  inorder (plug c (mk tr X z rz Y)) = inorder t0 ->
  wp (BalancePostErase_Fix22Leaf this (Obj z)) w (balanced t0).
Proof.
  intros H HX HY Hrz HdY Hc Hi. unfold BalancePostErase_Fix22Leaf. apply wp_bind, wp_assert; [done|].
  apply wp_bind, (wp_root_node _ _ _ _ _ _ _ _ _ _ _ H). rewrite parent_NSd, rank_NSd.
  replace (_ || _ || _) with (negb (Z.odd rz) || negb (is_Leaf X && is_Leaf Y)); cycle 1.
  { rewrite <- orb_assoc. f_equal. destruct tr; simpl; rewrite !valid_hang; by destruct X, Y. }
  destruct (negb (Z.odd rz) || negb (is_Leaf X && is_Leaf Y)) eqn:Htest.
  - apply wp_ret, (balanced_intro _ _ _ _ _ _ _ _ H); [|by rewrite rank_mk|done].
    rewrite wavl_mk. unfold diff12 in *. repeat match goal with |- _ /\ _ => split end; try done; try lia.
    intros -> ->. simpl in *. by rewrite Hrz in Htest.
  - destruct X as [|], Y as [|]; simpl in Htest; rewrite ?orb_true_r in Htest; try done. simpl in Hrz. subst rz.
    apply wp_bind, (wp_demote _ _ _ _ _ _ _ _ _ _ _ H). clear w H. intros w H. simpl in H.
    assert (Hw : wavl (mk tr Leaf z 0 Leaf)) by rank_rule.
    destruct c as [|f c]; (apply wp_bind, wp_assert; [done|]).
    + by apply wp_ret, (balanced_intro _ _ _ _ _ _ _ _ H); [..|rewrite <- Hi; apply inorder_mk_cong].
    + simpl. apply wp_bind, (wp_frame_node _ _ _ _ _ _ _ _ H). rewrite hang_mk.
      pose proof (at_hole_side _ _ _ _ _ _ _ _ H (hang_mk _ _ _ _ _ _ _)) as Hside.
      pose proof (Hside ForwardTraits) as Hl. pose proof (Hside ReverseTraits) as Hr. simpl (LRChild _ _) in Hl, Hr.
      cbn [frame_cell snd]. rewrite Hl, Hr. apply wp_bind, wp_assert; [by destruct (side f)|].
      destruct Hc as (Hd1 & Hd2 & _ & Hs & Hc). unfold diff12 in Hd1.
      assert (Hfix : wp (BalancePostErase_FixLR3Child this (side f) (Obj (fnode f))) w (balanced t0)).
      { rewrite at_hole_frame in H. unfold fill in H. eapply FixLR3Child_balanced; [exact H|..]; try done; rewrite ?rank_mk; try lia.
        - by intros ?%mk_not_Leaf.
        - rewrite <- Hi. simpl. apply inorder_plug_cong, inorder_mk_cong; [by apply inorder_mk_cong|done]. }
      by destruct (side f).
Qed.
End Rebalance.

(** ** Unlinking a node with at most one child *)

Section Unlink.
Context (this : N).

Definition most_of (tr : LRTraits) (b : book) : ptr := match tr with ForwardTraits => lm b | ReverseTraits => rm b end.

Lemma wp_LRMost h0 b w c p cs tr (Q : ptr -> world -> Prop) :
  st this h0 b w c p cs -> Q (most_of tr b) w -> wp (gets (fun w => LRMost tr (tree w))) w Q.
Proof.
  intros H HQ. apply wp_gets. rewrite <- (st_book _ _ _ _ _ _ _ H) in HQ. by destruct tr.
Qed.

(** What an object looks like after it was taken out. *)
Definition removed_node (p : bool) : WAVLTreeNodeState := NS Null Null Null p.

Lemma NSd_removed tr p : NSd tr Null Null Null p = removed_node p.
Proof. by destruct tr. Qed.

(** The promoted child [m] is a leaf: it replaces [n] and inherits its place at the
    end of the tree. *)
Lemma PromoteLRChild_ok h0 b w c tr n m p :
  let e := hole_edge c in
  let rl := hang this (inner e (Inverse tr)) Leaf in
  st this h0 b w c Null
    [(n, NSd tr (hole_par this c) (Obj m) rl p); (m, NSd tr (Obj n) (hang this (inner e tr) Leaf) Null false)] ->
  same (most_of (Inverse tr) b) (Obj n) = is_sentinel_ptr rl ->
  wp (PromoteLRChild this tr (hole_link c) (Obj n)) w (fun _ w' =>
    st this h0 (if is_sentinel_ptr rl then set_most (Inverse tr) (Obj m) b else b) w' c (Obj m)
      [(n, removed_node p); (m, NSd tr (hole_par this c) (hang this (inner e tr) Leaf) rl false)]).
Proof.
  intros e rl H Hmost. assert (Hv : valid_sentinel_ptr rl = false) by apply valid_hang.
  assert (Hrl : rl = sentinel this /\ is_sentinel_ptr rl = true \/ rl = Null /\ is_sentinel_ptr rl = false).
  { unfold rl. simpl. destruct (_ || _); auto. }
  clearbody rl. unfold PromoteLRChild. do 8 wstep H; [by rewrite Hv|]. do 9 wstep H.
  eapply wp_LRMost; [exact H|]. rewrite Hmost. do 2 wstep H; [by rewrite eqb_reflx|]. apply wp_bind.
  destruct Hrl as [[-> ->]|[-> ->]].
  - apply wp_bind. eapply wp_chain_bound; [exact H|]. intros [|k] Hk; [simpl in Hk; lia|]. cbn [rl_most_loop].
    repeat wstep H. unfold same. rewrite bool_decide_true by done. repeat wstep H. eapply wp_set_LRMost; [exact H|]. clear H. intros w1 H. repeat wstep H.
    + by destruct tr.
    + by destruct tr.
    + by rewrite NSd_removed in H.
  - repeat wstep H.
    + by destruct tr.
    + by destruct tr.
    + by rewrite NSd_removed in H.
Qed.

(** The link to the hole; only the root link of an empty tree is null. *)
Definition hole_ptr (c : ctx) (t : shape) : ptr := match c with [] => root_ptr t | _ => hang this (hole_edge c) t end.

Lemma last_is (l1 l2 : list N) n : NoDup (l1 ++ n :: l2) ->
  same (or_sentinel this (last (l1 ++ n :: l2))) (Obj n) = bool_decide (l2 = []).
Proof.
  intros Hnd. rewrite last_app_cons. unfold same. apply bool_decide_ext. destruct l2 as [|m l2]; [done|].
  split; [|done]. intros H. destruct (last (n :: m :: l2)) as [q|] eqn:E; [|done].
  assert (q = n) as -> by (by injection H). apply NoDup_app in Hnd as (_ & _ & Hnd). apply NoDup_cons in Hnd as [Hnd _].
  destruct Hnd. rewrite last_cons_cons in E. apply last_Some in E as [k ->]. apply elem_of_app. right. by left.
Qed.

Lemma head_is (l1 l2 : list N) n : NoDup (l1 ++ n :: l2) ->
  same (or_sentinel this (head (l1 ++ n :: l2))) (Obj n) = bool_decide (l1 = []).
Proof.
  intros Hnd. unfold same. apply bool_decide_ext. destruct l1 as [|m l1]; [done|].
  split; [|done]. simpl. intros [= ->]. simpl in Hnd. apply NoDup_cons in Hnd as [Hnd _].
  destruct Hnd. apply elem_of_app. right. by left.
Qed.

(** The bookkeeping between the unlinking of an object and the update of the count. *)
Definition unlinked (l l' : list N) : book := Book (lm (list_book this l')) (rm (list_book this l')) (cnt (list_book this l)).

Lemma unlink_unary_ok tr h0 w c n m p :
  let e := hole_edge c in
  let l := before c ++ inorder (mk tr (Bin Leaf m 0 Leaf) n 1 Leaf) ++ after c in
  NoDup l ->
  st this h0 (list_book this l) w c Null
    [(n, NSd tr (hole_par this c) (Obj m) (hang this (inner e (Inverse tr)) Leaf) p);
     (m, NSd tr (Obj n) (hang this (inner e tr) Leaf) Null false)] ->
  wp (unlink this (hole_link c) (Obj n)) w (fun _ w' =>
    st this h0 (unlinked l (before c ++ m :: after c)) w' c (Obj m)
      [(n, removed_node p); (m, NSd tr (hole_par this c) (hang this (inner e tr) Leaf) (hang this (inner e (Inverse tr)) Leaf) false)]).
Proof.
  intros e l Hnd H. unfold unlink. apply wp_bind. eapply wp_node_state; [exact H|by left|].
  set (ns := NSd tr _ _ _ _).
  replace (if valid_sentinel_ptr (left_ ns) then _ else _) with (PromoteLRChild this tr (hole_link c) (Obj n)); cycle 1.
  { unfold ns. destruct tr; cbn [NSd left_ right_]; by rewrite ?valid_hang. }
  assert (Hmost : same (most_of (Inverse tr) (list_book this l)) (Obj n) = is_sentinel_ptr (hang this (inner e (Inverse tr)) Leaf)).
  { destruct tr; simpl in *; unfold l, e in *; simpl in *.
    - rewrite after_nil. change (m :: n :: after c) with ([m] ++ n :: after c) in *. rewrite app_assoc in *.
      rewrite last_is by done. by case_bool_decide.
    - rewrite orb_false_r, before_nil. rewrite head_is by done. by case_bool_decide. }
  eapply wp_mono; [apply PromoteLRChild_ok; [exact H|exact Hmost]|]. intros [] w' H'.
  replace (unlinked l (before c ++ m :: after c)) with
    (if is_sentinel_ptr (hang this (inner (hole_edge c) (Inverse tr)) Leaf) then set_most (Inverse tr) (Obj m) (list_book this l)
     else list_book this l); [exact H'|].
  destruct tr; unfold l, unlinked; simpl; rewrite ?orb_false_r, ?orb_false_l, ?after_nil, ?before_nil; case_bool_decide as Hnil; simpl.
  - rewrite Hnil. unfold list_book. simpl. f_equal; [by destruct (before c)|by rewrite last_snoc].
  - unfold list_book. f_equal; [by destruct (before c)|]. destruct (after c); [done|]. by rewrite !last_app_cons, !last_cons_cons.
  - rewrite Hnil. unfold list_book. simpl. by f_equal.
  - unfold list_book. simpl. f_equal; [by destruct (before c)|]. by rewrite !last_app_cons, last_cons_cons.
Qed.

Lemma unlinked_mid x n y : x <> [] -> y <> [] -> unlinked (x ++ n :: y) (x ++ y) = list_book this (x ++ n :: y).
Proof.
  destruct x as [|a x], y as [|d y]; try done. intros _ _. unfold unlinked, list_book. cbn [lm rm cnt]. f_equal.
  by rewrite !last_app_cons, last_cons_cons.
Qed.

Lemma unlink_leaf_ok h0 w c n p :
  let e := hole_edge c in
  let l := before c ++ n :: after c in
  NoDup l ->
  st this h0 (list_book this l) w c Null
    [(n, NS (hole_par this c) (hang this (inner e ForwardTraits) Leaf) (hang this (inner e ReverseTraits) Leaf) p)] ->
  wp (unlink this (hole_link c) (Obj n)) w (fun _ w' =>
    st this h0 (unlinked l (before c ++ after c)) w' c (hole_ptr c Leaf) [(n, removed_node p)]).
Proof.
  intros e l Hnd H. subst e. set (e := hole_edge c) in *. unfold unlink. apply wp_bind. eapply wp_node_state; [exact H|by left|].
  cbn [left_ right_ parent_]. rewrite !valid_hang.
  assert (Hl : hang this (inner e ForwardTraits) Leaf = if bool_decide (before c = []) then sentinel this else Null).
  { unfold e. simpl. by rewrite orb_false_r, before_nil. }
  assert (Hr : hang this (inner e ReverseTraits) Leaf = if bool_decide (after c = []) then sentinel this else Null).
  { unfold e. simpl. by rewrite after_nil. }
  assert (Hhole : hang this e Leaf = if bool_decide (before c = []) || bool_decide (after c = []) then sentinel this else Null).
  { unfold e. simpl. by rewrite before_nil, after_nil. }
  rewrite Hl, Hr in *. clear Hl Hr. apply wp_bind, wp_gets.
  pose proof (head_is (before c) (after c) n Hnd) as Hh. pose proof (last_is (before c) (after c) n Hnd) as Hla.
  pose proof (st_book _ _ _ _ _ _ _ H) as Hb. injection Hb as Hb1 Hb2 Hb3. fold l in Hh, Hla. rewrite <- Hb1 in Hh. rewrite <- Hb2 in Hla.
  destruct (decide (before c = [])) as [Hbef|Hbef], (decide (after c = [])) as [Haft|Haft];
    repeat first [ rewrite (bool_decide_true (before c = [])) in * by exact Hbef
                 | rewrite (bool_decide_false (before c = [])) in * by exact Hbef
                 | rewrite (bool_decide_true (after c = [])) in * by exact Haft
                 | rewrite (bool_decide_false (after c = [])) in * by exact Haft ];
    (apply wp_bind, wp_assert; [by rewrite Hh|]); (apply wp_bind, wp_assert; [by rewrite Hla|]); clear Hh Hla;
    apply wp_bind; cbn [is_sentinel_ptr sentinel orb] in *.
  - destruct c as [|f c]; [|by destruct (around_not_nil f c); rewrite Hbef, Haft].
    apply wp_bind, wp_assert; [by rewrite Hb3|]. apply wp_bind, wp_assert; [done|].
    apply wp_bind. eapply wp_set_LRMost; [exact H|]. clear H. intros w1 H.
    apply wp_bind. eapply wp_set_LRMost; [exact H|]. clear H. intros w2 H. repeat wstep H. exact H.
  - destruct c as [|f c]; [done|]. apply wp_bind, wp_assert; [done|]. apply wp_bind, wp_assert; [done|].
    apply wp_bind. eapply wp_set_LRMost; [exact H|]. clear H. intros w1 H. repeat wstep H.
    cbn [hole_ptr]. fold e. rewrite Hhole. replace (unlinked _ _) with (set_most ForwardTraits (Obj (fnode f)) (list_book this l)); [exact H|].
    unfold l, unlinked. rewrite Hbef. simpl in Hbef, Haft |- *. destruct (side f).
    + unfold list_book. simpl. done.
    + by apply app_eq_nil in Hbef as [_ [_ ?]%app_eq_nil].
  - destruct c as [|f c]; [done|]. apply wp_bind, wp_assert; [done|]. apply wp_bind, wp_assert; [done|].
    apply wp_bind. eapply wp_set_LRMost; [exact H|]. clear H. intros w1 H. repeat wstep H.
    cbn [hole_ptr]. fold e. rewrite Hhole. replace (unlinked _ _) with (set_most ReverseTraits (Obj (fnode f)) (list_book this l)); [exact H|].
    unfold l, unlinked. rewrite Haft. simpl in Hbef, Haft |- *. rewrite app_nil_r in *. destruct (side f); [done|].
    unfold list_book. simpl. rewrite !app_assoc. f_equal; [|by rewrite last_snoc].
    destruct (before c); [|done]. simpl. by destruct (inorder (sibling f)).
  - apply wp_ret. repeat wstep H. destruct c as [|f c]; [done|]. cbn [hole_ptr]. fold e. rewrite Hhole.
    unfold l. by rewrite unlinked_mid.
Qed.
End Unlink.

(** ** Trading places with the successor *)

Section Successor.
Context (this : N).
#[local] Abbreviation cell := (N * WAVLTreeNodeState)%type.

(** The cells of a piece of context above which [e] and [par] are given. *)
Definition rel_par (c : ctx) (par : ptr) : ptr := match c with [] => par | f :: _ => Obj (fnode f) end.
Definition rel_edge (c : ctx) (e : edge) : edge := foldr (fun f e => inner e (side f)) e c.
Fixpoint seg (c : ctx) (e : edge) (par p : ptr) : list cell :=
  match c with
  | [] => []
  | f :: c =>
    (fnode f, NSd (side f) (rel_par c par) p (hang this (inner (rel_edge c e) (Inverse (side f))) (sibling f)) (Z.odd (frank f)))
    :: cells this (inner (rel_edge c e) (Inverse (side f))) (Obj (fnode f)) (sibling f) ++ seg c e par (Obj (fnode f))
  end.

Lemma cells_plug c e par t :
  cells this e par (plug c t) ≡ₚ seg c e par (hang this (rel_edge c e) t) ++ cells this (rel_edge c e) (rel_par c par) t.
Proof.
  revert t. induction c as [|f c IH]; intros t; simpl; [done|].
  rewrite IH. unfold fill. rewrite hang_mk, cells_mk. solve_Permutation.
Qed.

(** Only the outermost object of a piece of context knows what is above it. *)
Lemma seg_top f c e : exists g ns rest, (forall e' t, hang this e' (plug (f :: c) t) = Obj g) /\
  (c = [] -> g = fnode f) /\
  forall par, seg c e par (Obj (fnode f)) ≡ₚ match c with [] => [] | _ => (g, with_parent par ns) :: rest end.
Proof.
  revert f. induction c as [|f' c IH]; intros f.
  - exists (fnode f), fresh_node, []. split; [intros; apply hang_mk|done].
  - destruct (IH f') as (g & ns & rest & Hg & _ & Hseg). destruct c as [|f'' c].
    + exists (fnode f'), (NSd (side f') Null (Obj (fnode f)) (hang this (inner e (Inverse (side f'))) (sibling f')) (Z.odd (frank f'))),
        (cells this (inner e (Inverse (side f'))) (Obj (fnode f')) (sibling f')).
      split; [intros; apply hang_mk|]. split; [done|]. intros par. simpl. by rewrite with_parent_NSd, app_nil_r.
    + exists g, ns. eexists. split; [intros e' t; apply (Hg e' (fill f t))|]. split; [done|]. intros par.
      cbn [seg] in Hseg |- *. rewrite Hseg. cbn [rel_par]. rewrite <- Permutation_middle.
      rewrite Permutation_swap. f_equiv. reflexivity.
Qed.

(** The link to the left-most object below a link. *)
Lemma left_most_link_ok fuel h0 b w C t :
  at_hole this h0 b w C t -> t <> Leaf -> at_left (hole_edge C) = false -> (height t <= fuel)%nat ->
  wp (left_most_link fuel (hole_link C) (hang this (hole_edge C) t)) w (fun lk w' => w' = w /\
    exists c2 m rm rr, lk = hole_link (c2 ++ C) /\ plug c2 (Bin Leaf m rm rr) = t /\
      Forall (fun f => side f = ForwardTraits) c2).
Proof.
  revert C t. induction fuel as [|fuel IH]; intros C t H Ht He Hf; (destruct t as [|l n rk r]; [done|]); [simpl in Hf; lia|].
  cbn [left_most_link hang]. apply wp_bind, (wp_root_node _ _ _ ForwardTraits _ _ _ _ _ _ _ H). cbn [NSd left_].
  destruct l as [|ll m lk lr].
  - cbn [hang inner at_left at_right]. rewrite He. apply wp_ret. split; [done|]. by exists [], n, rk, r.
  - cbn [hang]. unfold same. rewrite bool_decide_false by done. apply wp_bind, wp_assert; [done|].
    apply wp_bind, wp_child_link. pose (F := Frame ForwardTraits n rk r).
    change (ChildLink ForwardTraits n) with (hole_link (F :: C)).
    change (Obj m) with (hang this (hole_edge (F :: C)) (Bin ll m lk lr)).
    eapply wp_mono; [apply (IH (F :: C) (Bin ll m lk lr))|]; try done.
    + by rewrite at_hole_frame.
    + simpl in *. lia.
    + intros link w' [-> (c2 & q & rq & rr & -> & Hp & Hall)]. split; [done|].
      exists (c2 ++ [F]), q, rq, rr. rewrite <- app_assoc. split; [done|].
      unfold plug. rewrite foldl_app. change (foldl _ _ c2) with (plug c2 (Bin Leaf q rq rr)). rewrite Hp.
      split; [done|]. apply Forall_app. by repeat constructor.
Qed.

(** The bookkeeping of the ends when [n] and [m] trade places. *)
Definition swap_book (n m : N) (b : book) : book :=
  let b1 := if same (Obj n) (lm b) then set_most ForwardTraits (Obj m) b else b in
  if same (Obj m) (rm b1) then set_most ReverseTraits (Obj n) b1 else b1.

Lemma wp_swap_book {A} h0 b w c p cs n m (Q : A -> world -> Prop) (k : ST world A) :
  st this h0 b w c p cs -> (forall w', st this h0 (swap_book n m b) w' c p cs -> wp k w' Q) ->
  wp (t ← gets tree;
      (if same (Obj n) (left_most_ t) then set_LRMost ForwardTraits (Obj m) else mret tt) ;;
      t ← gets tree;
      (if same (Obj m) (right_most_ t) then set_LRMost ReverseTraits (Obj n) else mret tt) ;; k) w Q.
Proof.
  intros H Hk. apply wp_bind, wp_gets. pose proof (st_book _ _ _ _ _ _ _ H) as Hb.
  replace (left_most_ (tree w)) with (lm b) by (by rewrite <- Hb). apply wp_bind. unfold swap_book in Hk.
  set (b1 := if same (Obj n) (lm b) then _ else _) in *.
  eapply wp_mono with (P := fun _ w' => st this h0 b1 w' c p cs).
  { unfold b1. destruct (same (Obj n) (lm b)); [|by apply wp_ret]. by eapply wp_set_LRMost. }
  clear H Hb. intros [] w1 H. apply wp_bind, wp_gets. pose proof (st_book _ _ _ _ _ _ _ H) as Hb.
  replace (right_most_ (tree w1)) with (rm b1) by (by rewrite <- Hb). apply wp_bind.
  destruct (same (Obj m) (rm b1)); [|by apply wp_ret, Hk]. eapply wp_set_LRMost; [exact H|]. intros w2 H2. by apply Hk.
Qed.

(** A subtree gets a new parent. *)
Lemma wp_reparent h0 b w c p cs e par q t k (Q : unit -> world -> Prop) :
  st this h0 b w c p cs -> cs ≡ₚ cells this e par t ++ k ->
  (forall w', st this h0 b w' c p (cells this e q t ++ k) -> Q tt w') -> wp (set_parent_if (hang this e t) q) w Q.
Proof.
  intros H Hp HQ. apply (st_perm _ _ _ _ _ _ _ _ Hp) in H. unfold set_parent_if. rewrite valid_hang.
  destruct t as [|l n rk r]; [by apply wp_ret, HQ|]. eapply wp_update; [exact H|apply repl_here|]. intros w' H'. by apply HQ.
Qed.

(** The successor is the right child. *)
Lemma SwapWithRightDescendant_child h0 b w c l n rk m rm rr :
  at_hole this h0 b w c (Bin l n rk (Bin Leaf m rm rr)) ->
  wp (SwapWithRightDescendant (hole_link c) (ChildLink ReverseTraits n)) w (fun lk w' =>
    lk = ChildLink ReverseTraits m /\ at_hole this h0 (swap_book n m b) w' c (Bin l m rk (Bin Leaf n rm rr))).
Proof.
  intros H. unfold at_hole in *. cbn [cells hang] in *. set (e := hole_edge c) in *. set (G := hole_par this c) in *.
  set (eL := inner e ForwardTraits) in *. set (eR := inner e ReverseTraits) in *.
  change (inner eR ReverseTraits) with eR in *. cbn [app] in *.
  replace (if at_left (inner eR ForwardTraits) || at_right (inner eR ForwardTraits) then sentinel this else Null) with Null in * by done.
  eapply st_perm in H; cycle 1.
  { instantiate (1 := (n, NS G (hang this eL l) (Obj m) (Z.odd rk)) :: (m, NS (Obj n) Null (hang this eR rr) (Z.odd rm))
      :: cells this eL (Obj n) l ++ cells this eR (Obj m) rr). solve_Permutation. }
  unfold SwapWithRightDescendant. do 4 wstep H. cbn [LRChild right_]. do 6 wstep H.
  eapply wp_swap_book; [exact H|]. clear w H. intros w H. do 4 wstep H. cbn [left_ right_ parent_ rank_] in *.
  apply wp_bind. match type of H with st _ _ _ _ _ _ (?x :: ?y :: _ ++ ?B) =>
    eapply wp_reparent with (k := x :: y :: B); [exact H|solve_Permutation|] end. clear H. intros w3 H.
  apply wp_bind, wp_ret. apply wp_bind. match type of H with st _ _ _ _ _ _ (?A ++ ?x :: ?y :: _) =>
    eapply wp_reparent with (k := x :: y :: A); [exact H|solve_Permutation|] end. clear H. intros w4 H.
  rewrite bool_decide_true by done. repeat wstep H. split; [done|].
  eapply st_perm; [|exact H]. cbn. solve_Permutation.
Qed.

Lemma rel_edge_left c e : at_left e = false -> at_left (rel_edge c e) = false.
Proof. intros He. induction c as [|f c IH]; simpl; [done|]. by destruct (side f). Qed.

(** The successor is further down: the left-most object below the right child. *)
Lemma SwapWithRightDescendant_deep h0 b w c l n rk f c2 m rm rr :
  side f = ForwardTraits ->
  at_hole this h0 b w c (Bin l n rk (plug (f :: c2) (Bin Leaf m rm rr))) ->
  wp (SwapWithRightDescendant (hole_link c) (ChildLink ForwardTraits (fnode f))) w (fun lk w' =>
    lk = ChildLink ForwardTraits (fnode f) /\
    at_hole this h0 (swap_book n m b) w' c (Bin l m rk (plug (f :: c2) (Bin Leaf n rm rr)))).
Proof.
  intros Hf H. destruct (seg_top f c2 (inner (hole_edge c) ReverseTraits)) as (g & ns & K & Hg & Hgf & Hseg).
  set (e := hole_edge c). set (G := hole_par this c).
  set (eL := inner e ForwardTraits). set (eR := inner e ReverseTraits). fold e eR in Hseg. set (ee := rel_edge (f :: c2) eR).
  assert (Hee : at_left ee = false) by (by apply rel_edge_left).
  assert (Hnull : hang this (inner ee ForwardTraits) Leaf = Null) by (cbn [hang inner at_left at_right]; by rewrite Hee).
  set (S1 := hang this (inner (rel_edge c2 eR) ReverseTraits) (sibling f)).
  set (C1 := cells this (inner (rel_edge c2 eR) ReverseTraits) (Obj (fnode f)) (sibling f)).
  set (er := inner ee ReverseTraits). set (p1 := rel_par c2).
  assert (Hcells : forall x y, cells this e G (Bin l x rk (plug (f :: c2) (Bin Leaf y rm rr))) ≡ₚ
    (x, NS G (hang this eL l) (Obj g) (Z.odd rk)) :: (y, NS (Obj (fnode f)) Null (hang this er rr) (Z.odd rm))
    :: (fnode f, NS (p1 (Obj x)) (Obj y) S1 (Z.odd (frank f)))
    :: cells this eL (Obj x) l ++ cells this er (Obj y) rr ++ C1 ++ seg c2 eR (Obj x) (Obj (fnode f))).
  { intros x y. cbn [cells]. rewrite (cells_plug (f :: c2)), (Hg eR). fold eL eR. fold ee. cbn [seg rel_par cells app]. fold eL eR. fold ee.
    change (hang this ee (Bin Leaf y rm rr)) with (Obj y). rewrite Hf, Hnull. cbn [NSd Inverse].
    fold eL eR er S1 C1 p1. solve_Permutation. }
  unfold at_hole in *. fold e G in H |- *. apply (st_perm _ _ _ _ _ _ _ _ (Hcells n m)) in H. cbn [hang] in H |- *.
  unfold SwapWithRightDescendant. do 4 wstep H. cbn [LRChild left_]. do 6 wstep H.
  eapply wp_swap_book; [exact H|]. clear w H. intros w H. do 4 wstep H. cbn [left_ right_ parent_ rank_] in *.
  apply wp_bind. match type of H with st _ _ _ _ _ _ (?x :: ?y :: ?z :: _ ++ ?B) =>
    eapply wp_reparent with (k := x :: y :: z :: B); [exact H|solve_Permutation|] end. clear H. intros w3 H.
  apply wp_bind, wp_ret. apply wp_bind. match type of H with st _ _ _ _ _ _ (?A ++ ?x :: ?y :: ?z :: _ ++ ?B) =>
    eapply wp_reparent with (k := x :: y :: z :: A ++ B); [exact H|solve_Permutation|] end. clear H. intros w4 H.
  rewrite bool_decide_false by done. do 8 wstep H. apply wp_bind. cbn [LRChild left_ with_child parent_ right_ rank_] in *.
  pose proof (Hcells m n) as Hfinal. destruct c2 as [|f2 c2].
  - rewrite (Hgf eq_refl) in *. wstep H. apply wp_ret. split; [done|]. eapply st_perm; [symmetry; exact Hfinal|].
    eapply st_perm; [|exact H]. cbn. solve_Permutation.
  - match type of H with st _ _ _ _ _ _ (?A ++ ?x :: ?y :: ?z :: ?B ++ ?D ++ _) =>
      eapply (st_perm _ _ _ _ _ _ _ ((g, with_parent (Obj n) ns) :: x :: y :: z :: A ++ B ++ D ++ K)) in H end.
    + wstep H. apply wp_ret. split; [done|]. eapply st_perm; [symmetry; exact Hfinal|]. eapply st_perm; [|exact H].
      rewrite Hseg. cbn. solve_Permutation.
    + rewrite Hseg. solve_Permutation.
Qed.
End Successor.

(** ** The erasure *)

Section Erase.
Context {kt : KeyTraits} {laws : KeyTraitsLaws kt} (this : N).

Lemma unary_cases l n rk r :
  wavl (Bin l n rk r) -> l = Leaf \/ r = Leaf ->
  (l = Leaf /\ r = Leaf /\ rk = 0) \/
  exists tr m, Bin l n rk r = mk tr (Bin Leaf m 0 Leaf) n 1 Leaf.
Proof.
  assert (Hone : forall t, wavl t -> t <> Leaf -> rank t <= 0 -> exists m, t = Bin Leaf m 0 Leaf).
  { intros [|tl m tk tr] H Ht Hr; [done|]. pose proof (wavl_rank_nonneg _ H Ht) as H0. destruct H as (H1 & H2 & _ & Hl & Hr').
    simpl in *. unfold diff12 in *. pose proof (wavl_rank _ Hl). pose proof (wavl_rank _ Hr').
    assert (tk = 0) as -> by lia. assert (tl = Leaf) as -> by (apply wavl_rank_Leaf; [done|lia]).
    assert (tr = Leaf) as -> by (apply wavl_rank_Leaf; [done|lia]). by exists m. }
  intros (H1 & H2 & Hleaf & Hl & Hr) Hor. unfold diff12 in *.
  destruct Hor as [->| ->]; simpl in *.
  - destruct (decide (is_Leaf r = true)) as [Hrl|Hrl]; [destruct r; [left; auto|done]|].
    destruct (Hone r Hr) as [m ->]; [by intros ->|lia|]. right. exists ReverseTraits, m. simpl in *. by assert (rk = 1) as -> by lia.
  - destruct (decide (is_Leaf l = true)) as [Hll|Hll]; [destruct l; [left; auto|done]|].
    destruct (Hone l Hl) as [m ->]; [by intros ->|lia|]. right. exists ForwardTraits, m. simpl in *. by assert (rk = 1) as -> by lia.
Qed.

(** Unlinking leaves the remaining child [t1] in the hole, one rank lower. *)
Lemma unlink_ok h0 w c l n rk r :
  let L := inorder (plug c (Bin l n rk r)) in
  at_hole this h0 (list_book this L) w c (Bin l n rk r) -> wavl (Bin l n rk r) -> l = Leaf \/ r = Leaf -> NoDup L ->
  exists t1, rank t1 = rk - 1 /\ rank t1 <= 0 /\ wavl t1 /\ inorder t1 = inorder l ++ inorder r /\
  wp (set_link (hole_link c) Null ;; unlink this (hole_link c) (Obj n)) w (fun _ w' =>
    st this h0 (unlinked this L (inorder (plug c t1))) w' c (hole_ptr this c t1)
       ((n, removed_node (Z.odd rk)) :: cells this (hole_edge c) (hole_par this c) t1)).
Proof.
  intros L H Hw Hor Hnd. unfold L in *. rewrite inorder_plug in *.
  destruct (unary_cases _ _ _ _ Hw Hor) as [(-> & -> & ->)|(tr & m & E)].
  - exists Leaf. repeat (split; [done|]). apply wp_bind. eapply wp_set_link; [exact H|]. intros w1 H1.
    rewrite inorder_plug. by apply unlink_leaf_ok.
  - exists (Bin Leaf m 0 Leaf). rewrite E in *. assert (rk = 1) as -> by (destruct tr; by injection E).
    split; [done|]. split; [done|]. split; [simpl; unfold diff12; repeat split; lia|].
    split; [destruct tr; by injection E as -> ->|].
    apply wp_bind. eapply wp_set_link; [exact H|]. intros w1 H1. rewrite inorder_plug.
    eapply st_perm in H1; [|rewrite cells_mk; reflexivity].
    eapply wp_mono; [apply (unlink_unary_ok this tr h0 w1 c n m); [exact Hnd|]|].
    + cbn [cells app hang] in H1. autorewrite with wavl in H1. destruct tr; simpl in *; exact H1.
    + intros [] w2 H2. destruct c; destruct tr; simpl in *; exact H2.
Qed.

Lemma rebalance_ok h0 b w f c t1 rk :
  at_hole this h0 b w (f :: c) t1 -> wavl t1 -> rank t1 = rk - 1 -> rank t1 <= 0 -> ctx_ok (f :: c) rk ->
  wp (rebalance_after_erase this (Obj (fnode f)) (negb (Bool.eqb (Z.odd rk) (Z.odd (frank f))))
        (bool_decide (ChildLink ForwardTraits (fnode f) = hole_link (f :: c)))) w
     (balanced this h0 b (plug (f :: c) t1)).
Proof.
  intros H Hw Hr Hr0 (Hd1 & Hd2 & _ & Hs & Hc). unfold rebalance_after_erase. cbn [is_sentinel_ptr negb].
  rewrite (parity_diff _ _ Hd1). rewrite at_hole_frame in H. unfold fill in H. unfold diff12 in Hd1.
  destruct (Z.eqb_spec (frank f) (rk + 2)) as [H2|H2]; cbn [negb].
  - assert (Hfix : wp (BalancePostErase_FixLR3Child this (side f) (Obj (fnode f))) w (balanced this h0 b (plug (f :: c) t1))).
    { eapply FixLR3Child_balanced; [exact H|..]; try done; [lia|]. intros -> E. rewrite E in Hd2.
      unfold diff12 in Hd2. simpl in *. lia. }
    simpl. destruct (side f); [by rewrite bool_decide_true|by rewrite bool_decide_false].
  - eapply Fix22Leaf_balanced; [exact H|..]; try done. lia.
Qed.

(** The part of [internal_erase] after the object has at most one child. *)
Lemma erase_linked_ok h0 w c l n rk r :
  let L := inorder (plug c (Bin l n rk r)) in
  at_hole this h0 (list_book this L) w c (Bin l n rk r) -> wavl (plug c (Bin l n rk r)) -> l = Leaf \/ r = Leaf -> NoDup L ->
  wp (ns ← node_state (Obj n);
      info ← child_info ns (hole_link c);
      set_link (hole_link c) Null ;;
      unlink this (hole_link c) (Obj n) ;;
      ns' ← node_state (Obj n);
      ZX_DEBUG_ASSERT (IsValid ns' && negb (InContainer ns')) ;;
      set_count (fun k => k ⊖[64] 1) ;;
      rebalance_after_erase this (parent_ ns) (fst info) (snd info) ;;
      mret (Obj n)) w (fun p w' => p = Obj n /\ exists t', represents this (<[n := removed_node (Z.odd rk)]> h0) w' t' /\
        wavl t' /\ inorder t' = before c ++ (inorder l ++ inorder r) ++ after c).
Proof.
  intros L H Hw Hor Hnd. apply wavl_plug in Hw as [Hw Hc].
  destruct (unlink_ok _ _ _ _ _ _ _ H Hw Hor Hnd) as (t1 & Hr1 & Hr0 & Hw1 & Hi1 & Hun).
  apply wp_bind, (wp_root_node _ _ _ ForwardTraits _ _ _ _ _ _ _ H).
  apply wp_bind. eapply wp_mono with (P := fun info w' => w' = w /\ info =
    match c with [] => (false, false)
    | f :: _ => (negb (Bool.eqb (Z.odd rk) (Z.odd (frank f))), bool_decide (ChildLink ForwardTraits (fnode f) = hole_link c)) end).
  { unfold child_info. apply wp_bind, wp_assert; [by destruct c|]. destruct c as [|f c]; [by apply wp_ret|].
    cbn [parent_ NSd hole_par is_sentinel_ptr negb]. apply wp_bind, (wp_frame_node _ _ _ _ _ _ _ _ H).
    apply wp_bind, wp_child_link, wp_ret. split; [done|]. simpl. by rewrite rank_NSd. }
  intros info w' [-> ->]. change (parent_ (NSd ForwardTraits (hole_par this c) _ _ _)) with (hole_par this c).
  apply wp_bind. eapply wp_mono; [exact (wp_bind_inv _ _ _ _ Hun)|]. clear w H Hun. intros [] w1 H1.
  apply wp_bind. eapply wp_mono; [exact H1|]. clear w1 H1. intros [] w H.
  apply wp_bind. eapply wp_node_state; [exact H|by left|]. apply wp_bind, wp_assert; [done|].
  apply wp_bind. eapply wp_set_count; [exact H|]. clear w H. intros w H. apply st_drop in H.
  set (h1 := <[n := removed_node (Z.odd rk)]> h0) in *.
  assert (Hlen : inorder (plug c (Bin l n rk r)) ≡ₚ n :: inorder (plug c t1)).
  { rewrite !inorder_plug, Hi1. simpl. solve_Permutation. }
  replace (Book _ _ _) with (list_book this (inorder (plug c t1))) in H; cycle 1.
  { unfold unlinked, list_book. cbn [lm rm cnt]. f_equal. rewrite (Permutation_length Hlen). unfold wrap. simpl length.
    rewrite Zminus_mod_idemp_l. f_equal. lia. }
  assert (Hin : inorder (plug c t1) = before c ++ (inorder l ++ inorder r) ++ after c) by (by rewrite inorder_plug, Hi1).
  apply wp_bind. destruct c as [|f c].
  - apply wp_ret, wp_ret. split; [done|]. exists t1. split; [exact H|]. split; [done|exact Hin].
  - eapply wp_mono; [apply (rebalance_ok h1 _ w f c t1 rk H Hw1 Hr1 Hr0 Hc)|]. intros [] w2 (t' & Ht' & Hwt & Hit).
    apply wp_ret. split; [done|]. exists t'. split; [|split; [done|by rewrite Hit]].
    apply represents_at_hole; [|by rewrite Hit]. intros ->. rewrite inorder_plug in Hit.
    symmetry in Hit. apply app_eq_nil in Hit as [E1 [_ E2]%app_eq_nil]. by destruct (around_not_nil f c); rewrite E1, E2.
Qed.

Lemma before_app c2 c : before (c2 ++ c) = before c ++ before c2.
Proof. induction c2 as [|f c2 IH]; simpl; [by rewrite app_nil_r|]. by rewrite IH, <- app_assoc. Qed.

Lemma after_app c2 c : after (c2 ++ c) = after c2 ++ after c.
Proof. induction c2 as [|f c2 IH]; simpl; [done|]. by rewrite IH, <- app_assoc. Qed.

Lemma before_left_spine c : Forall (fun f => side f = ForwardTraits) c -> before c = [].
Proof. induction 1 as [|f c Hf _ IH]; simpl; [done|]. by rewrite IH, Hf. Qed.

Lemma plug_app c2 c t : plug (c2 ++ c) t = plug c (plug c2 t).
Proof. unfold plug. by rewrite foldl_app. Qed.

Lemma swap_book_ok l1 n m l2 : l1 <> [] -> NoDup (l1 ++ n :: m :: l2) ->
  swap_book n m (list_book this (l1 ++ n :: m :: l2)) = list_book this (l1 ++ m :: n :: l2).
Proof.
  intros Hl Hnd. unfold swap_book.
  assert (H1 : same (Obj n) (lm (list_book this (l1 ++ n :: m :: l2))) = false).
  { pose proof (head_is this l1 (m :: l2) n Hnd) as Hh. unfold same in *. rewrite (bool_decide_false (l1 = [])) in Hh by done.
    apply bool_decide_eq_false in Hh. apply bool_decide_false. intros E. by apply Hh. }
  rewrite H1. replace (l1 ++ n :: m :: l2) with ((l1 ++ [n]) ++ m :: l2) in * by (by rewrite <- app_assoc).
  assert (H2 : same (Obj m) (rm (list_book this ((l1 ++ [n]) ++ m :: l2))) = bool_decide (l2 = [])).
  { rewrite <- (last_is this (l1 ++ [n]) l2 m Hnd). unfold same. apply bool_decide_ext. simpl. by split. }
  rewrite H2. unfold list_book. rewrite <- !app_assoc, !length_app. cbn [app].
  destruct l2 as [|q l2]; [rewrite bool_decide_true by done|rewrite bool_decide_false by done]; unfold set_most; cbn [lm rm cnt].
  - rewrite last_app_cons. f_equal; by destruct l1.
  - rewrite !last_app_cons, !last_cons_cons. f_equal; by destruct l1.
Qed.

Lemma plug_swap_wavl c c2 l n m rk rm rr :
  wavl (plug c (Bin l n rk (plug c2 (Bin Leaf m rm rr)))) <->
  wavl (plug (c2 ++ Frame ReverseTraits m rk l :: c) (Bin Leaf n rm rr)).
Proof.
  rewrite plug_app, wavl_plug. cbn [plug foldl]. change (foldl _ ?t c) with (plug c t). rewrite wavl_plug.
  unfold fill. cbn [side fnode frank sibling mk wavl rank].
  assert (Hr : rank (plug c2 (Bin Leaf m rm rr)) = rank (plug c2 (Bin Leaf n rm rr))).
  { destruct c2 as [|f c2] using rev_ind; [done|]. rewrite !plug_app. simpl. unfold fill. by rewrite !rank_mk. }
  assert (Hl : plug c2 (Bin Leaf m rm rr) = Leaf <-> plug c2 (Bin Leaf n rm rr) = Leaf).
  { pose proof (plug_not_Leaf c2 (Bin Leaf m rm rr) ltac:(by left)). pose proof (plug_not_Leaf c2 (Bin Leaf n rm rr) ltac:(by left)). done. }
  rewrite Hr, !wavl_plug. cbn [rank wavl]. tauto.
Qed.

Definition owner_post (h0 : gmap N WAVLTreeNodeState) (n : N) (rest : list N) (lk : link) (w : world) : Prop :=
  exists c l rk r, lk = hole_link c /\ at_hole this h0 (list_book this (inorder (plug c (Bin l n rk r)))) w c (Bin l n rk r) /\
    wavl (plug c (Bin l n rk r)) /\ (l = Leaf \/ r = Leaf) /\ NoDup (inorder (plug c (Bin l n rk r))) /\
    before c ++ (inorder l ++ inorder r) ++ after c = rest.

(** Both ways of trading places. *)
Lemma SwapWithRightDescendant_ok h0 b w c l n rk c2 m rm rr :
  Forall (fun f => side f = ForwardTraits) c2 ->
  at_hole this h0 b w c (Bin l n rk (plug c2 (Bin Leaf m rm rr))) ->
  wp (SwapWithRightDescendant (hole_link c) (hole_link (c2 ++ Frame ReverseTraits n rk l :: c))) w (fun lk w' =>
    lk = hole_link (c2 ++ Frame ReverseTraits m rk l :: c) /\
    at_hole this h0 (swap_book n m b) w' (c2 ++ Frame ReverseTraits m rk l :: c) (Bin Leaf n rm rr)).
Proof.
  intros Hall H. eapply wp_mono with (P := fun lk w' => lk = hole_link (c2 ++ Frame ReverseTraits m rk l :: c) /\
    at_hole this h0 (swap_book n m b) w' c (Bin l m rk (plug c2 (Bin Leaf n rm rr)))).
  - destruct c2 as [|f c2]; [by apply SwapWithRightDescendant_child|]. inversion Hall as [|? ? Hf _]; subst.
    simpl. rewrite Hf. by apply SwapWithRightDescendant_deep.
  - intros lk w' [-> H']. split; [done|]. rewrite at_hole_plug, plug_app, <- at_hole_plug, at_hole_frame. done.
Qed.

Lemma erase_owner_ok h0 w c l n rk r :
  let L := inorder (plug c (Bin l n rk r)) in
  at_hole this h0 (list_book this L) w c (Bin l n rk r) -> wavl (plug c (Bin l n rk r)) -> NoDup L ->
  wp (erase_owner this (Obj n)) w (owner_post h0 n (before c ++ (inorder l ++ inorder r) ++ after c)).
Proof.
  intros L H Hw Hnd. unfold erase_owner. apply wp_bind.
  eapply wp_GetLink; [exact H|by left|done|]. apply wp_bind. eapply wp_get_link; [exact H|].
  apply wp_bind, wp_assert; [by apply bool_decide_true|].
  apply wp_bind, (wp_root_node _ _ _ ForwardTraits _ _ _ _ _ _ _ H). cbn [NSd left_ right_]. rewrite !valid_hang.
  destruct (is_Leaf l || is_Leaf r) eqn:Hleaf.
  { replace (_ && _) with false by (by destruct l, r). apply wp_ret. exists c, l, rk, r. repeat (split; [done|]).
    split; [|done]. destruct l, r; auto. done. }
  replace (_ && _) with true by (by destruct l, r). assert (Hl : l <> Leaf) by (by destruct l).
  assert (Hr : r <> Leaf) by (by destruct l, r). apply wp_bind. eapply wp_chain_bound; [exact H|]. intros k Hk.
  apply wp_bind, wp_child_link. apply wp_bind. pose (F := Frame ReverseTraits n rk l).
  assert (Hh : at_hole this h0 (list_book this L) w (F :: c) r) by (by rewrite at_hole_frame).
  eapply wp_mono; [apply (left_most_link_ok this k h0 (list_book this L) w (F :: c) r Hh Hr)|]; [done| |].
  { etrans; [apply height_length|]. rewrite length_app in Hk. rewrite <- (length_fmap fst (cells _ _ _ _)), cells_inorder in Hk.
    simpl in Hk. rewrite length_app in Hk. simpl in Hk. lia. }
  intros lk w' [-> (c2 & m & rm & rr & -> & Hp & Hall)].
  apply wp_bind. rewrite <- Hp in *. eapply wp_mono; [apply (SwapWithRightDescendant_ok _ _ _ _ _ _ _ _ _ _ _ Hall H)|].
  clear w H Hh Hk. intros lk w [-> H]. apply wp_bind. eapply wp_get_link; [exact H|]. apply wp_bind, wp_assert; [by apply bool_decide_true|].
  apply wp_ret. set (C := c2 ++ Frame ReverseTraits m rk l :: c) in *.
  pose (l1 := before c ++ inorder l). pose (l2 := inorder rr ++ after c2 ++ after c).
  assert (HL : L = l1 ++ n :: m :: l2).
  { unfold L, l1, l2. rewrite <- Hp, inorder_plug. cbn [inorder]. rewrite inorder_plug, (before_left_spine c2 Hall).
    app_eq. }
  assert (HL' : inorder (plug C (Bin Leaf n rm rr)) = l1 ++ m :: n :: l2).
  { unfold C, l1, l2. rewrite inorder_plug, before_app, after_app, (before_left_spine c2 Hall). app_eq. }
  assert (Hl1 : l1 <> []). { unfold l1. intros [_ E]%app_eq_nil. destruct l; [done|]. simpl in E. by apply app_eq_nil in E as [_ ?]. }
  rewrite HL in Hnd, H. exists C, Leaf, rm, rr. rewrite HL'. split; [done|].
  split; [by rewrite swap_book_ok in H|]. split.
  { rewrite (plug_swap_wavl c c2 l n m) in Hw. done. }
  split; [by left|]. split; [by rewrite (Permutation_swap m n) in Hnd|].
  unfold C. rewrite before_app, after_app, (before_left_spine c2 Hall). simpl.
  rewrite inorder_plug, (before_left_spine c2 Hall). app_eq.
Qed.

Lemma internal_erase_ok h0 w l1 n l2 :
  holds this h0 w (l1 ++ n :: l2) ->
  wp (internal_erase this (Obj n)) w (fun p w' => p = Obj n /\
    exists q, holds this (<[n := removed_node q]> h0) w' (l1 ++ l2)).
Proof.
  intros Hh. pose proof Hh as (t & _ & _ & _ & Hs). pose proof (sorted_delete _ _ _ Hs) as Hs'. apply sorted_NoDup in Hs.
  apply holds_locate in Hh as (c & l & rk & r & H & Hw & Hb & Ha). unfold internal_erase. cbn [valid_sentinel_ptr negb].
  assert (HL : inorder (plug c (Bin l n rk r)) = l1 ++ n :: l2).
  { rewrite inorder_plug. cbn [inorder]. by rewrite <- app_assoc, app_assoc, Hb; simpl; rewrite Ha. }
  rewrite <- HL in H, Hs. apply wp_bind. eapply wp_mono; [apply (erase_owner_ok _ _ _ _ _ _ _ H Hw Hs)|].
  intros lk w1 (c' & l' & rk' & r' & -> & H' & Hw' & Hor & Hnd & Hrest).
  eapply wp_mono; [apply (erase_linked_ok _ _ _ _ _ _ _ H' Hw' Hor Hnd)|].
  intros p w2 (-> & t' & Ht & Hwt & Hit). split; [done|]. exists (Z.odd rk'), t'. split; [done|]. split; [done|].
  split; [|done]. by rewrite Hit, Hrest, <- Hb, <- Ha, <- !app_assoc.
Qed.
End Erase.
