(* ===== verification/WavlWhole.v ===== *)
(** * Replacing, clearing and swapping whole trees

    The in-place replacement of an object by another with the same key
    ([insert_or_replace]), the iterative post-order [clear], and the exchange of the
    contents of two trees, which has to move the sentinels from one to the other. *)

From stdpp Require Import gmap sorting.
From S2P Require Import Prelude Wavl WavlSpec WavlLogic WavlInsert WavlQuery WavlErase.

(** ** Replacement *)

Section Replace.
Context {kt : KeyTraits} {laws : KeyTraitsLaws kt} (this : N).

(** One child of [o] becomes the child of [n]. *)
Lemma swap_child_ok h0 b w c p sd o n e l P y ro Q x' y' rn K :
  let x := hang this e l in
  st this h0 b w c p ((o, NSd sd P x y ro) :: (n, NSd sd Q x' y' rn) :: cells this e (Obj o) l ++ K) ->
  (is_sentinel_ptr x = true -> most_of sd b = Obj o) ->
  wp (swap_child sd (Obj o) (Obj n)) w (fun _ w' =>
    st this h0 (if is_sentinel_ptr x then set_most sd (Obj n) b else b) w' c p
      ((o, NSd sd P Null y ro) :: (n, NSd sd Q x y' rn) :: cells this e (Obj n) l ++ K)).
Proof.
  intros x H Hmost. unfold swap_child. do 2 wstep H. apply wp_bind.
  eapply wp_mono with (P := fun _ w' => st this h0 (if is_sentinel_ptr x then set_most sd (Obj n) b else b) w' c p
      ((o, NSd sd P x y ro) :: (n, NSd sd Q x' y' rn) :: cells this e (Obj n) l ++ K)).
  { unfold x. rewrite valid_hang. destruct l as [|ll m rk lr].
    - destruct (is_sentinel_ptr (hang this e Leaf)) eqn:Hs; [|apply wp_ret; exact H].
      apply wp_bind. eapply wp_LRMost; [exact H|]. rewrite Hmost by done. apply wp_bind, wp_assert; [by apply bool_decide_true|].
      eapply wp_set_LRMost; [exact H|]. intros w' H'. exact H'.
    - cbn [hang is_sentinel_ptr cells app] in *. wstep H. exact H. }
  clear w H. intros [] w H. repeat wstep H. exact H.
Qed.

Lemma hang_left_sentinel c l :
  is_sentinel_ptr (hang this (inner (hole_edge c) ForwardTraits) l) = bool_decide (before c ++ inorder l = []).
Proof.
  destruct l as [|ll m rk lr].
  - simpl. rewrite orb_false_r, before_nil, app_nil_r. by case_bool_decide.
  - symmetry. apply bool_decide_false. simpl. intros [_ [_ ?]%app_eq_nil]%app_eq_nil. done.
Qed.

Lemma hang_right_sentinel c r :
  is_sentinel_ptr (hang this (inner (hole_edge c) ReverseTraits) r) = bool_decide (inorder r ++ after c = []).
Proof.
  destruct r as [|rl m rk rr].
  - simpl. rewrite after_nil. by case_bool_decide.
  - symmetry. apply bool_decide_false. simpl. intros [[_ ?]%app_eq_nil _]%app_eq_nil. done.
Qed.

Lemma list_book_replace l1 o n l2 :
  list_book this (l1 ++ n :: l2) =
  (let b1 := if bool_decide (l1 = []) then set_most ForwardTraits (Obj n) (list_book this (l1 ++ o :: l2))
             else list_book this (l1 ++ o :: l2) in
   if bool_decide (l2 = []) then set_most ReverseTraits (Obj n) b1 else b1).
Proof.
  unfold list_book. rewrite !length_app, !last_app_cons. cbn [length].
  destruct l1 as [|a l1], l2 as [|d l2]; simpl; done.
Qed.

Lemma internal_swap_ok h0 w l1 o l2 n p :
  holds this h0 w (l1 ++ o :: l2) -> heap w !! n = Some (removed_node p) -> n ∉ l1 ++ o :: l2 -> GetKey n = GetKey o ->
  wp (internal_swap this (Obj o) (Obj n)) w (fun r w' => r = Obj o /\
    exists q, holds this (<[o := removed_node q]> h0) w' (l1 ++ n :: l2)).
Proof.
  intros Hh Hn Hnin Hkey. pose proof Hh as (t & _ & _ & _ & Hs). pose proof (sorted_NoDup _ Hs) as Hnd.
  apply holds_locate in Hh as (c & l & rk & r & H & Hw & Hb & Ha).
  assert (HL : inorder (plug c (Bin l o rk r)) = l1 ++ o :: l2).
  { rewrite inorder_plug. cbn [inorder]. by rewrite <- app_assoc, app_assoc, Hb; simpl; rewrite Ha. }
  eapply st_gain in H; [|exact Hn|]; cycle 1.
  { rewrite fmap_app, cells_inorder. by rewrite ctx_cells_inorder, HL. }
  set (e := hole_edge c) in *. set (G := hole_par this c) in *. set (b := list_book this (l1 ++ o :: l2)) in *.
  set (eL := inner e ForwardTraits). set (eR := inner e ReverseTraits).
  eapply (st_perm _ _ _ _ _ _ _ ((o, NSd ForwardTraits G (hang this eL l) (hang this eR r) (Z.odd rk))
     :: (n, NSd ForwardTraits Null Null Null p) :: cells this eL (Obj o) l ++ cells this eR (Obj o) r)) in H; cycle 1.
  { cbn [cells]. fold eL eR. cbn [NSd removed_node]. solve_Permutation. }
  unfold internal_swap.
  apply wp_bind. eapply wp_key_of; [exact H|by left|]. apply wp_bind. eapply wp_key_of; [exact H|right; by left|].
  apply wp_bind, wp_assert; [by apply EqualTo_eq|]. do 6 wstep H; [by unfold G; destruct c|]. do 2 wstep H.
  apply wp_bind. eapply wp_mono; [eapply swap_child_ok; [exact H|]|].
  { unfold eL, e. rewrite hang_left_sentinel, Hb, bool_decide_eq_true. intros E. unfold b. by rewrite E. }
  clear w H Hn. unfold eL at 1, e. rewrite hang_left_sentinel, Hb. intros [] w H.
  set (b1 := if bool_decide (l1 = []) then _ else _) in H.
  eapply (st_perm _ _ _ _ _ _ _ ((o, NSd ReverseTraits G (hang this eR r) Null (Z.odd rk))
     :: (n, NSd ReverseTraits Null Null (hang this eL l) p) :: cells this eR (Obj o) r ++ cells this eL (Obj n) l)) in H; cycle 1.
  { cbn [NSd]. solve_Permutation. }
  apply wp_bind. eapply wp_mono; [eapply swap_child_ok; [exact H|]|].
  { unfold eR, e. rewrite hang_right_sentinel, Ha, bool_decide_eq_true. intros E. unfold b1, b. rewrite E. simpl.
    destruct (bool_decide (l1 = [])); simpl; by rewrite last_snoc. }
  clear w H. unfold eR at 1, e. rewrite hang_right_sentinel, Ha. intros [] w H.
  assert (Hbook : (if bool_decide (l2 = []) then set_most ReverseTraits (Obj n) b1 else b1) = list_book this (l1 ++ n :: l2))
    by (by rewrite (list_book_replace l1 o n l2)).
  rewrite Hbook in H. clear Hbook b1. do 4 wstep H.
  apply wp_bind. eapply wp_GetLink; [exact H|by left|done|]. repeat wstep H. split; [done|].
  exists (Z.odd rk), (plug c (Bin l n rk r)). assert (HL' : inorder (plug c (Bin l n rk r)) = l1 ++ n :: l2).
  { rewrite inorder_plug. cbn [inorder]. by rewrite <- app_assoc, app_assoc, Hb; simpl; rewrite Ha. }
  split; [|split; [|split; [done|]]].
  - apply represents_plug; [apply plug_not_Leaf; by left|]. rewrite HL'. apply st_drop. eapply st_perm; [|exact H].
    cbn. fold e eL eR G. solve_Permutation.
  - by rewrite wavl_plug in Hw |- *.
  - destruct (sorted_around _ _ _ Hs) as [Hbe Hab]. rewrite <- Hkey in Hbe, Hab. apply sorted_delete in Hs. by apply sorted_insert.
Qed.
End Replace.

(** ** Cells with the ends left open

    The same cells, with what the two outermost missing children hold as parameters:
    clearing sets them to null, swapping moves them to another tree's sentinel. *)

Definition ghang (d : ptr) (t : shape) : ptr := match t with Leaf => d | Bin _ n _ _ => Obj n end.

Fixpoint gcells (sl sr par : ptr) (t : shape) : list (N * WAVLTreeNodeState) :=
  match t with
  | Leaf => []
  | Bin l n rk r =>
    (n, NS par (ghang sl l) (ghang sr r) (Z.odd rk)) :: gcells sl Null (Obj n) l ++ gcells Null sr (Obj n) r
  end.

Section OpenEnds.
Context (this : N).

Lemma cells_gcells e par t :
  cells this e par t = gcells (if at_left e then sentinel this else Null) (if at_right e then sentinel this else Null) par t.
Proof.
  revert e par. induction t as [|l IHl n rk r IHr]; intros e par; simpl; [done|].
  rewrite IHl, IHr. simpl. f_equal. f_equal. destruct l, r; simpl; by rewrite ?orb_false_r.
Qed.

Lemma gcells_left sr par t : t <> Leaf ->
  exists q ns k, head (inorder t) = Some q /\ forall sl, gcells sl sr par t ≡ₚ (q, with_child ForwardTraits sl ns) :: k.
Proof.
  revert sr par. induction t as [|l IHl n rk r _]; intros sr par Ht; [done|]. destruct l as [|ll m lk lr].
  - exists n, (NS par Null (ghang sr r) (Z.odd rk)), (gcells Null sr (Obj n) r). done.
  - destruct (IHl Null (Obj n)) as (q & ns & k & Hq & Hk); [done|]. exists q, ns.
    exists ((n, NS par (Obj m) (ghang sr r) (Z.odd rk)) :: k ++ gcells Null sr (Obj n) r). split.
    + cbn [inorder] in *. by destruct (inorder ll ++ m :: inorder lr).
    + intros sl. change (gcells sl sr par (Bin (Bin ll m lk lr) n rk r)) with
        ((n, NS par (Obj m) (ghang sr r) (Z.odd rk)) :: gcells sl Null (Obj n) (Bin ll m lk lr) ++ gcells Null sr (Obj n) r).
      rewrite Hk. solve_Permutation.
Qed.

Lemma gcells_right sl par t : t <> Leaf ->
  exists q ns k, last (inorder t) = Some q /\ forall sr, gcells sl sr par t ≡ₚ (q, with_child ReverseTraits sr ns) :: k.
Proof.
  revert sl par. induction t as [|l _ n rk r IHr]; intros sl par Ht; [done|]. destruct r as [|rl m rk' rr].
  - exists n, (NS par (ghang sl l) Null (Z.odd rk)), (gcells sl Null (Obj n) l). split; [by cbn [inorder]; rewrite last_snoc|].
    intros sr. simpl. by rewrite app_nil_r.
  - destruct (IHr Null (Obj n)) as (q & ns & k & Hq & Hk); [done|]. exists q, ns.
    exists ((n, NS par (ghang sl l) (Obj m) (Z.odd rk)) :: gcells sl Null (Obj n) l ++ k). split.
    + cbn [inorder] in *. rewrite last_app_cons. by destruct (inorder rl ++ m :: inorder rr).
    + intros sr. change (gcells sl sr par (Bin l n rk (Bin rl m rk' rr))) with
        ((n, NS par (ghang sl l) (Obj m) (Z.odd rk)) :: gcells sl Null (Obj n) l ++ gcells Null sr (Obj n) (Bin rl m rk' rr)).
      rewrite Hk. solve_Permutation.
Qed.

Lemma gcells_root sl sr t : t <> Leaf ->
  exists n ns k, root_ptr t = Obj n /\ forall par, gcells sl sr par t ≡ₚ (n, with_parent par ns) :: k.
Proof.
  destruct t as [|l n rk r]; [done|]. intros _.
  exists n, (NS Null (ghang sl l) (ghang sr r) (Z.odd rk)). exists (gcells sl Null (Obj n) l ++ gcells Null sr (Obj n) r). by split.
Qed.

Lemma gcells_inorder sl sr par t : (gcells sl sr par t).*1 ≡ₚ inorder t.
Proof.
  revert sl sr par. induction t as [|l IHl n rk r IHr]; intros sl sr par; simpl; [done|].
  rewrite fmap_app, IHl, IHr. apply Permutation_middle.
Qed.

(** An update that turns one list of cells into another. *)
Lemma wp_update_perm h0 b w c p cs cs' k n ns f (Q : unit -> world -> Prop) :
  st this h0 b w c p cs -> cs ≡ₚ (n, ns) :: k -> cs' ≡ₚ (n, f ns) :: k ->
  (forall w', st this h0 b w' c p cs' -> Q tt w') -> wp (update (Obj n) f) w Q.
Proof.
  intros H H1 H2 HQ. apply (st_perm _ _ _ _ _ _ _ _ H1) in H. eapply wp_update; [exact H|apply repl_here|].
  intros w' H'. apply HQ. eapply st_perm; [symmetry; exact H2|exact H'].
Qed.

Lemma with_child_twice tr p q ns : with_child tr p (with_child tr q ns) = with_child tr p ns.
Proof. by destruct tr. Qed.
Lemma with_parent_twice p q ns : with_parent p (with_parent q ns) = with_parent p ns.
Proof. done. Qed.

(** The three places that hold the sentinel of a non-empty tree. *)
Lemma wp_set_left_end h0 b w c p sl sr par t q (K : list (N * WAVLTreeNodeState)) (Q : unit -> world -> Prop) n :
  st this h0 b w c p (gcells sl sr par t ++ K) -> head (inorder t) = Some n ->
  (forall w', st this h0 b w' c p (gcells q sr par t ++ K) -> Q tt w') -> wp (update (Obj n) (with_child ForwardTraits q)) w Q.
Proof.
  intros H Hn HQ. destruct (gcells_left sr par t) as (m & ns & k & Hm & Hk); [by intros ->|].
  rewrite Hn in Hm. injection Hm as <-. eapply (wp_update_perm _ _ _ _ _ _ _ (k ++ K) _ (with_child ForwardTraits sl ns));
    [exact H|by rewrite Hk| |exact HQ].
  by rewrite Hk, with_child_twice.
Qed.

Lemma wp_set_right_end h0 b w c p sl sr par t q (K : list (N * WAVLTreeNodeState)) (Q : unit -> world -> Prop) n :
  st this h0 b w c p (gcells sl sr par t ++ K) -> last (inorder t) = Some n ->
  (forall w', st this h0 b w' c p (gcells sl q par t ++ K) -> Q tt w') -> wp (update (Obj n) (with_child ReverseTraits q)) w Q.
Proof.
  intros H Hn HQ. destruct (gcells_right sl par t) as (m & ns & k & Hm & Hk); [by intros ->|].
  rewrite Hn in Hm. injection Hm as <-. eapply (wp_update_perm _ _ _ _ _ _ _ (k ++ K) _ (with_child ReverseTraits sr ns));
    [exact H|by rewrite Hk| |exact HQ].
  by rewrite Hk, with_child_twice.
Qed.

Lemma wp_set_root_parent h0 b w c p sl sr par t q (K : list (N * WAVLTreeNodeState)) (Q : unit -> world -> Prop) n :
  st this h0 b w c p (gcells sl sr par t ++ K) -> root_ptr t = Obj n ->
  (forall w', st this h0 b w' c p (gcells sl sr q t ++ K) -> Q tt w') -> wp (update (Obj n) (with_parent q)) w Q.
Proof.
  intros H Hn HQ. destruct (gcells_root sl sr t) as (m & ns & k & Hm & Hk); [by intros ->|].
  rewrite Hn in Hm. injection Hm as <-. eapply (wp_update_perm _ _ _ _ _ _ _ (k ++ K) _ (with_parent par ns));
    [exact H|by rewrite Hk| |exact HQ].
  by rewrite Hk, with_parent_twice.
Qed.
End OpenEnds.

(** ** Clearing *)

Lemma ends_exist t : t <> Leaf -> exists x y, head (inorder t) = Some x /\ last (inorder t) = Some y.
Proof.
  intros Ht. destruct t as [|l n rk r]; [done|]. cbn [inorder]. destruct (last (inorder l ++ n :: inorder r)) as [y|] eqn:E.
  - destruct (inorder l); eauto.
  - by apply last_None, app_eq_nil in E as [_ ?].
Qed.

Section Clear.
Context (this : N).
#[local] Abbreviation cell := (N * WAVLTreeNodeState)%type.

(** The cells of a context whose missing children are all null. *)
Fixpoint gseg (c : ctx) (par p : ptr) : list cell :=
  match c with
  | [] => []
  | f :: c =>
    (fnode f, NSd (side f) (rel_par c par) p (ghang Null (sibling f)) (Z.odd (frank f)))
    :: gcells Null Null (Obj (fnode f)) (sibling f) ++ gseg c par (Obj (fnode f))
  end.
Definition groot (c : ctx) (p : ptr) : ptr := ctx_root c p.

Lemma gcells_mk par tr x n rk y :
  gcells Null Null par (mk tr x n rk y) ≡ₚ
  (n, NSd tr par (ghang Null x) (ghang Null y) (Z.odd rk)) :: gcells Null Null (Obj n) x ++ gcells Null Null (Obj n) y.
Proof. destruct tr; simpl; [done|]. f_equiv. apply Permutation_app_comm. Qed.

(** The state of the loop: what is left to clear hangs in the hole of [c], the cells
    [R] are done. *)
Definition clearing (h0 : gmap N WAVLTreeNodeState) (b : book) (w : world) (c : ctx) (t : shape) (R : list cell) : Prop :=
  st this h0 b w [] (groot c (ghang Null t))
     (gseg c (sentinel this) (ghang Null t) ++ gcells Null Null (rel_par c (sentinel this)) t ++ R).

Lemma clearing_frame h0 b w f c t R : clearing h0 b w (f :: c) t R <-> clearing h0 b w c (fill f t) R.
Proof.
  unfold clearing, fill. replace (ghang Null (mk _ _ _ _ _)) with (Obj (fnode f)) by (by destruct (side f)).
  split; apply st_perm; rewrite gcells_mk; simpl; solve_Permutation.
Qed.

(** The number of iterations left. *)
Fixpoint work (c : ctx) (t : shape) : nat :=
  match c with
  | [] => 2 * length (inorder t) - 1
  | f :: c => (2 * length (inorder t) - 1) + work c (fill f Leaf)
  end.

Lemma length_fill f t : length (inorder (fill f t)) = S (length (inorder t) + length (inorder (sibling f))).
Proof. unfold fill. destruct (side f); simpl; rewrite length_app; simpl; lia. Qed.

Lemma work_frame f c t : t <> Leaf -> work c (fill f t) = S (work (f :: c) t).
Proof.
  intros Ht. assert (0 < length (inorder t))%nat by (destruct t; [done|]; simpl; rewrite length_app; simpl; lia).
  destruct c as [|g c]; simpl; rewrite !length_fill; simpl; lia.
Qed.

Lemma clear_get_link h0 b w c t R (Q : ptr -> world -> Prop) :
  clearing h0 b w c t R -> Q (ghang Null t) w -> wp (get_link (hole_link c)) w Q.
Proof.
  intros H HQ. destruct c as [|f c].
  - apply wp_gets. by rewrite (st_root _ _ _ _ _ _ _ H).
  - eapply wp_get_child; [exact H|by left|]. by rewrite LRChild_NSd.
Qed.

Lemma clear_set_link h0 b w c t q R (Q : unit -> world -> Prop) :
  st this h0 b w [] (groot c t) (gseg c (sentinel this) t ++ R) ->
  (forall w', st this h0 b w' [] (groot c q) (gseg c (sentinel this) q ++ R) -> Q tt w') ->
  wp (set_link (hole_link c) q) w Q.
Proof.
  intros H HQ. destruct c as [|f c].
  - change (hole_link []) with (@hole_link []). by eapply (wp_set_link this h0 b w [] t).
  - eapply wp_set_child; [exact H|apply repl_here|]. intros w' H'. apply HQ. by rewrite with_child_NSd in H'.
Qed.

Lemma clear_GetLink h0 b w c l n rk r R (Q : link -> world -> Prop) :
  clearing h0 b w c (Bin l n rk r) R -> Q (hole_link c) w -> wp (GetLinkPtrToNode this (Obj n)) w Q.
Proof.
  intros H HQ. unfold GetLinkPtrToNode. apply wp_bind, wp_assert; [done|].
  apply wp_bind. eapply wp_node_state; [exact H|apply elem_of_app; right; by left|]. cbn [parent_].
  destruct c as [|f c].
  - simpl. apply wp_bind, wp_assert; [by apply bool_decide_true|]. apply wp_bind, wp_gets.
    rewrite (st_root _ _ _ _ _ _ _ H). apply wp_bind, wp_assert; [by apply bool_decide_true|]. by apply wp_ret.
  - cbn [rel_par is_sentinel_ptr]. apply wp_bind, wp_assert; [done|]. apply wp_bind. eapply wp_node_state; [exact H|by left|].
    assert (Hsib : ghang Null (sibling f) <> Obj n).
    { intros E. destruct (sibling f) as [|sl m sk sr] eqn:Es; [done|]. injection E as ->.
      pose proof (st_nodup _ _ _ _ _ _ _ H) as Hnd. simpl in Hnd. rewrite Es in Hnd. simpl in Hnd.
      apply NoDup_cons in Hnd as [_ Hnd]. apply NoDup_cons in Hnd as [Hnd _]. apply Hnd.
      rewrite !fmap_app. apply elem_of_app. right. by left. }
    unfold same. simpl in HQ. revert HQ. destruct (side f); simpl; intros HQ.
    + rewrite bool_decide_true by done. by apply wp_child_link.
    + rewrite bool_decide_false by done. apply wp_bind, wp_assert; [by apply bool_decide_true|]. by apply wp_child_link.
Qed.

Definition all_removed (R : list cell) : Prop := Forall (fun x => exists q, x.2 = removed_node q) R.

Lemma clear_loop_ok fuel h0 b w c t R :
  clearing h0 b w c t R -> t <> Leaf -> (work c t <= fuel)%nat -> all_removed R ->
  wp (clear_loop this fuel (rel_par c (sentinel this)) (hole_link c)) w (fun _ w' =>
    exists R', st this h0 b w' [] Null R' /\ all_removed R' /\ R'.*1 ≡ₚ inorder (plug c t) ++ R.*1).
Proof.
  revert w c t R. induction fuel as [|fuel IH]; intros w c t R H Ht Hf HR; (destruct t as [|l n rk r]; [done|]).
  { destruct c; simpl in Hf; rewrite length_app in Hf; simpl in Hf; lia. }
  cbn [clear_loop]. apply wp_bind. eapply clear_get_link; [exact H|]. cbn [ghang].
  apply wp_bind. eapply wp_node_state; [exact H|apply elem_of_app; right; by left|]. cbn [left_ right_ parent_].
  destruct (is_Leaf l && is_Leaf r) eqn:Hleaf.
  - destruct l, r; try done. cbn [ghang]. unfold same. rewrite bool_decide_true by done. cbn [andb].
    apply wp_bind, wp_assert; [by apply bool_decide_true|].
    apply wp_bind. eapply wp_update; [exact H|apply repl_app, repl_here|]. clear w H. intros w H.
    apply wp_bind. eapply clear_set_link; [exact H|]. clear w H. intros w H. destruct c as [|f c].
    + rewrite bool_decide_true by done. apply wp_ret. eexists. split; [exact H|]. split; [constructor; [by eexists|done]|done].
    + rewrite bool_decide_false by done.
      assert (H' : clearing h0 b w c (fill f Leaf) ((n, removed_node (Z.odd rk)) :: R)) by (by rewrite <- clearing_frame).
      apply wp_bind. cbn [rel_par]. eapply wp_mono with (P := fun l w' => l = hole_link c /\ w' = w).
      { assert (Eb : exists a d, fill f Leaf = Bin a (fnode f) (frank f) d) by (unfold fill; destruct (side f); eauto).
        destruct Eb as (a & d & Eb). rewrite Eb in H'. by eapply clear_GetLink. }
      intros lk w' [-> ->]. apply wp_bind. eapply wp_node_state; [exact H|by left|]. rewrite parent_NSd.
      eapply wp_mono; [apply (IH w c (fill f Leaf) _ H')|]; [apply mk_not_Leaf|simpl in Hf; lia|constructor; [by eexists|done]|].
      intros [] w' (R' & HR' & Hrem & Hp). exists R'. split; [done|]. split; [done|]. rewrite Hp. simpl.
      rewrite <- !(ctx_cells_inorder this c Null). unfold fill. destruct (side f); simpl; solve_Permutation.
  - replace (_ && _) with false by (by destruct l, r). unfold same.
    apply wp_bind, wp_assert; [by destruct l|]. apply wp_bind, wp_assert; [by destruct r|]. apply wp_bind, wp_child_link.
    assert (Hdown : forall sd x y, Bin l n rk r = mk sd x n rk y -> x <> Leaf ->
      wp (clear_loop this fuel (Obj n) (ChildLink sd n)) w (fun _ w' =>
        exists R', st this h0 b w' [] Null R' /\ all_removed R' /\ R'.*1 ≡ₚ inorder (plug c (Bin l n rk r)) ++ R.*1)).
    { intros sd x y E Hx. pose (f := Frame sd n rk y). rewrite E in *.
      apply (IH w (f :: c) x R); [by rewrite clearing_frame|done| |done].
      pose proof (work_frame f c x Hx) as Hwork. unfold fill in Hwork. simpl in Hwork, Hf |- *. lia. }
    destruct l as [|ll m lk lr]; cbn [ghang].
    + rewrite (bool_decide_true (Null = Null)) by done. apply (Hdown ReverseTraits r Leaf); [done|]. by intros ->.
    + rewrite (bool_decide_false (Obj m = Null)) by done. by apply (Hdown ForwardTraits (Bin ll m lk lr) r).
Qed.

Lemma clear_ok h0 w l :
  forall (kt : KeyTraits), holds this h0 w l ->
  wp (clear this) w (fun _ w' => holds this (heap w') w' [] /\
    (forall n, n ∈ l -> exists q, heap w' !! n = Some (removed_node q)) /\
    (forall n, n ∉ l -> heap w' !! n = h0 !! n)).
Proof.
  intros kt (t & H & Hw & <- & Hs). unfold clear. apply wp_bind, wp_gets. rewrite (st_root _ _ _ _ _ _ _ H).
  destruct t as [|tl n rk tr] eqn:Et; cbn [root_ptr ctx_root].
  { unfold same. rewrite bool_decide_true by done. apply wp_ret. split; [|split].
    - exists Leaf. split; [|done]. by apply (st_rebase this h0); [exact H|]; intros m Hm; rewrite (st_rest _ _ _ _ _ _ _ H).
    - by intros m ?%elem_of_nil.
    - intros m Hm. apply (st_rest _ _ _ _ _ _ _ H). exact Hm. }
  unfold same. rewrite bool_decide_false by done. rewrite <- Et in *. assert (Ht : t <> Leaf) by (by rewrite Et).
  destruct (ends_exist t Ht) as (x & y & Hx & Hy).
  apply wp_bind, wp_gets. pose proof (st_book _ _ _ _ _ _ _ H) as Hb. injection Hb as Hb1 Hb2 Hb3.
  rewrite (st_root _ _ _ _ _ _ _ H), Hb1, Hb2, Hx, Hy.
  do 3 (apply wp_bind, wp_assert; [by rewrite ?Et|]).
  eapply st_perm in H; [|by rewrite cells_gcells; cbn [at_left at_right]; rewrite <- (app_nil_r (gcells _ _ _ _))].
  apply wp_bind. eapply wp_set_left_end; [exact H|exact Hx|]. clear w H Hb1 Hb2 Hb3. intros w H.
  apply wp_bind. eapply wp_set_right_end; [exact H|exact Hy|]. clear w H. intros w H.
  apply wp_bind. eapply wp_chain_bound; [exact H|]. intros k Hk.
  apply wp_bind. eapply wp_mono.
  { apply (clear_loop_ok (2 * k) h0 (list_book this (inorder t)) w [] t []); [|done| |constructor].
    - unfold clearing. simpl. rewrite Et in *. exact H.
    - simpl in Hk. rewrite app_nil_r in Hk. rewrite <- (length_fmap fst), gcells_inorder in Hk. simpl. lia. }
  clear w H Hk. intros [] w (R & H & HR & Hp). rewrite app_nil_r in Hp. simpl in Hp.
  apply wp_bind, wp_gets. rewrite (st_root _ _ _ _ _ _ _ H). apply wp_bind, wp_assert; [done|].
  apply wp_bind. eapply wp_set_LRMost; [exact H|]. clear w H. intros w H.
  apply wp_bind. eapply wp_set_LRMost; [exact H|]. clear w H. intros w H.
  eapply wp_set_count; [exact H|]. clear w H. intros w [Hr Hbk Ho Hnd Hrest]. cbn [ctx_cells app] in *.
  rewrite Hp in Hnd. setoid_rewrite Hp in Hrest. split; [|split; [|done]].
  - exists Leaf. split; [|split; [done|split; [done|constructor]]]. split; [done|done|by intros ? ? ?%elem_of_nil|constructor|done].
  - intros m Hm. rewrite <- Hp in Hm. apply list_elem_of_fmap in Hm as ([m' ms] & -> & Hin). cbn [fst].
    unfold all_removed in HR. rewrite Forall_forall in HR. destruct (HR _ Hin) as [q Hq]. simpl in Hq. subst ms.
    exists q. by apply Ho.
Qed.
End Clear.

(** ** Swapping two trees *)

Section Swap.
Context {kt : KeyTraits} {laws : KeyTraitsLaws kt}.

(** The name of the tree matters only through its sentinel. *)
Lemma st_rename a b h0 bk w p cs : st a h0 bk w [] p cs -> st b h0 bk w [] p cs.
Proof. by intros [Hr Hb Ho Hn Hrest]. Qed.

Lemma FixSentinelsAfterSwap_ok a b h0 w t :
  represents b h0 w t -> wp (FixSentinelsAfterSwap a) w (fun _ w' => represents a h0 w' t).
Proof.
  intros H. unfold FixSentinelsAfterSwap. apply wp_bind, wp_gets. pose proof (st_book _ _ _ _ _ _ _ H) as Hb.
  injection Hb as Hb1 Hb2 _. rewrite (st_root _ _ _ _ _ _ _ H), Hb1, Hb2. unfold represents in H. rewrite cells_gcells in H.
  apply (st_rename b a) in H. destruct (decide (is_Leaf t = true)) as [Hl|Hl].
  - destruct t; [|done]. cbn [root_ptr ctx_root inorder head last]. unfold same. rewrite bool_decide_true by done. cbn [negb].
    do 2 (apply wp_bind, wp_assert; [done|]). apply wp_bind. eapply wp_set_LRMost; [exact H|]. clear H. intros w1 H.
    eapply wp_set_LRMost; [exact H|]. clear H. intros w2 H. exact H.
  - assert (Ht : t <> Leaf) by (by intros ->). destruct (ends_exist t Ht) as (x & y & Hx & Hy). rewrite Hx, Hy.
    destruct (root_ptr t) as [| |n] eqn:Hroot; [by destruct t..|]. cbn [ctx_root]. unfold same. rewrite bool_decide_false by done.
    cbn [negb]. do 3 (apply wp_bind, wp_assert; [done|]).
    destruct (gcells_left (sentinel b) (sentinel b) t Ht) as (x' & xs & kx & Hx' & Hkx). rewrite Hx in Hx'. injection Hx' as <-.
    destruct (gcells_right (sentinel b) (sentinel b) t Ht) as (y' & ys & ky & Hy' & Hky). rewrite Hy in Hy'. injection Hy' as <-.
    apply wp_bind. eapply wp_node_state; [exact H|cbn [at_left at_right]; rewrite (Hkx (sentinel b)); by left|].
    apply wp_bind. eapply wp_node_state; [exact H|cbn [at_left at_right]; rewrite (Hky (sentinel b)); by left|].
    do 2 (apply wp_bind, wp_assert; [done|]).
    eapply st_perm in H; [|by cbn [at_left at_right]; rewrite <- (app_nil_r (gcells _ _ _ _))].
    apply wp_bind. eapply wp_set_root_parent; [exact H|exact Hroot|]. clear w H Hb1 Hb2. intros w H.
    apply wp_bind. eapply wp_set_left_end; [exact H|exact Hx|]. clear w H. intros w H.
    eapply wp_set_right_end; [exact H|exact Hy|]. clear w H. intros w H.
    unfold represents. rewrite cells_gcells, Hroot. rewrite app_nil_r in H.
    replace (list_book a (inorder t)) with (list_book b (inorder t)); [exact H|]. unfold list_book. by rewrite Hx, Hy.
Qed.

(** A tree keeps its contents when only other objects change. *)
Lemma represents_frame a h0 w t h' :
  represents a h0 w t -> (forall n, n ∈ inorder t -> h' !! n = heap w !! n) -> represents a h' (World (tree w) h') t.
Proof.
  intros [Hr Hb Ho Hn _] Hf. split; try done. intros n ns Hin. cbn [heap]. rewrite Hf; [by apply Ho|].
  apply (list_elem_of_fmap_2 fst) in Hin. simpl in Hin. by rewrite cells_inorder in Hin.
Qed.

Lemma represents_outside a h0 w t n : represents a h0 w t -> n ∉ inorder t -> heap w !! n = h0 !! n.
Proof. intros H Hn. apply (st_rest _ _ _ _ _ _ _ H). simpl. by rewrite cells_inorder. Qed.

Lemma swap_ok a b ta tb h la lb :
  holds a h (World ta h) la -> holds b h (World tb h) lb -> (forall n, n ∈ la -> n ∉ lb) ->
  exists ta' tb' h', swap a b ta tb h = Some (ta', tb', h') /\
    holds a h' (World ta' h') lb /\ holds b h' (World tb' h') la /\
    forall n, n ∉ la -> n ∉ lb -> h' !! n = h !! n.
Proof.
  intros (sa & Ha & Hwa & <- & Hsa) (sb & Hb & Hwb & <- & Hsb) Hd. unfold swap.
  destruct (FixSentinelsAfterSwap_ok a b h _ sb Hb) as ([] & wa & Ea & Hra). rewrite Ea. cbn [mbind option_bind].
  assert (Ha' : represents a (heap wa) (World ta (heap wa)) sa).
  { apply (represents_frame a h (World ta h)); [done|]. intros n Hn. apply (represents_outside _ _ _ _ _ Hra). by apply Hd. }
  destruct (FixSentinelsAfterSwap_ok b a _ _ sa Ha') as ([] & wb & Eb & Hrb). rewrite Eb. cbn [mbind option_bind].
  exists (tree wa), (tree wb), (heap wb). split; [done|]. split; [|split].
  - exists sb. split; [|done]. apply (represents_frame a h wa); [done|]. intros n Hn.
    apply (represents_outside _ _ _ _ _ Hrb). intros Hin. by apply (Hd n).
  - exists sa. split; [|done]. by apply (represents_frame b (heap wa) wb).
  - intros n Hna Hnb. rewrite (represents_outside _ _ _ _ _ Hrb), (represents_outside _ _ _ _ _ Hra); done.
Qed.
End Swap.
