(* ===== verification/WavlTheorems.v ===== *)
(** * The WAVL tree is an ordered set

    The operations of the tree implement an abstract ordered set: a list of objects
    sorted by key.  The theorems also say that no assertion of the code fails, no
    pointer that is not an object is dereferenced, and every loop ends. *)

From stdpp Require Import gmap sorting.
From S2P Require Import Prelude Wavl WavlSpec WavlLogic WavlInsert WavlQuery WavlErase WavlWhole.

(** ** The abstract ordered set *)

Section OrderedSet.
Context {kt : KeyTraits}.

(** The position of an object in a sorted sequence; [insert] leaves a sequence that
    has the key alone, [insert_or_replace] puts the object in its place. *)
Fixpoint spec_insert (n : N) (l : list N) : list N :=
  match l with
  | [] => [n]
  | m :: l' => if EqualTo (GetKey n) (GetKey m) then l
               else if LessThan (GetKey n) (GetKey m) then n :: l else m :: spec_insert n l'
  end.
Fixpoint spec_replace (n : N) (l : list N) : list N :=
  match l with
  | [] => [n]
  | m :: l' => if EqualTo (GetKey n) (GetKey m) then n :: l'
               else if LessThan (GetKey n) (GetKey m) then n :: l else m :: spec_replace n l'
  end.
Fixpoint spec_erase (k : KeyType) (l : list N) : list N :=
  match l with
  | [] => []
  | m :: l' => if EqualTo k (GetKey m) then l' else m :: spec_erase k l'
  end.
Definition spec_find (k : KeyType) (l : list N) : option N := List.find (fun m => EqualTo k (GetKey m)) l.

Context {laws : KeyTraitsLaws kt}.

Lemma below_not_eq k l m : all_below l k -> m ∈ l -> EqualTo k (GetKey m) = false /\ LessThan k (GetKey m) = false.
Proof.
  unfold all_below. rewrite Forall_forall. intros H Hm. specialize (H m Hm). split; [|by apply LessThan_asym].
  apply EqualTo_false. intros E. rewrite E, LessThan_irrefl in H. done.
Qed.

Lemma all_below_cons m l k : all_below (m :: l) k -> LessThan (GetKey m) k = true /\ all_below l k.
Proof. unfold all_below. by rewrite Forall_cons. Qed.

Lemma spec_insert_split n l1 l2 :
  all_below l1 (GetKey n) -> all_above l2 (GetKey n) -> spec_insert n (l1 ++ l2) = l1 ++ n :: l2.
Proof.
  intros Hb Ha. induction l1 as [|m l1 IH]; simpl.
  - destruct l2 as [|m l2]; [done|]. inversion Ha as [|? ? Hm _]; subst. simpl. rewrite Hm.
    by rewrite (proj2 (EqualTo_false _ _)) by (intros E; by rewrite E, LessThan_irrefl in Hm).
  - destruct (below_not_eq _ _ m Hb ltac:(by left)) as [-> ->]. apply all_below_cons in Hb as [_ Hb]. by rewrite IH.
Qed.

Lemma spec_replace_split n l1 l2 :
  all_below l1 (GetKey n) -> all_above l2 (GetKey n) -> spec_replace n (l1 ++ l2) = l1 ++ n :: l2.
Proof.
  intros Hb Ha. induction l1 as [|m l1 IH]; simpl.
  - destruct l2 as [|m l2]; [done|]. inversion Ha as [|? ? Hm _]; subst. simpl. rewrite Hm.
    by rewrite (proj2 (EqualTo_false _ _)) by (intros E; by rewrite E, LessThan_irrefl in Hm).
  - destruct (below_not_eq _ _ m Hb ltac:(by left)) as [-> ->]. apply all_below_cons in Hb as [_ Hb]. by rewrite IH.
Qed.

(** A key that is present is found where it is. *)
Lemma spec_present k l1 m l2 n :
  all_below l1 k -> GetKey m = k -> GetKey n = k ->
  spec_insert n (l1 ++ m :: l2) = l1 ++ m :: l2 /\ spec_replace n (l1 ++ m :: l2) = l1 ++ n :: l2 /\
  spec_erase k (l1 ++ m :: l2) = l1 ++ l2 /\ spec_find k (l1 ++ m :: l2) = Some m.
Proof.
  intros Hb Hm Hn. unfold spec_find. induction l1 as [|q l1 IH]; simpl.
  - by rewrite Hm, Hn, EqualTo_refl.
  - rewrite <- Hn in Hb |- *. destruct (below_not_eq _ _ q Hb ltac:(by left)) as [-> ->]. rewrite Hn in *.
    apply all_below_cons in Hb as [_ Hb]. destruct (IH Hb) as (-> & -> & -> & ->). done.
Qed.

Lemma spec_absent k l : (forall m, m ∈ l -> GetKey m <> k) -> spec_erase k l = l /\ spec_find k l = None.
Proof.
  unfold spec_find. induction l as [|m l IH]; intros H; simpl; [done|].
  rewrite (proj2 (EqualTo_false k (GetKey m))) by (intros E; by apply (H m ltac:(by left))).
  destruct IH as [-> ->]; [|done]. intros q Hq. apply H. by right.
Qed.

Lemma absent_between k l1 l2 : all_below l1 k -> all_above l2 k -> forall m, m ∈ l1 ++ l2 -> GetKey m <> k.
Proof.
  intros Hb Ha m [Hm|Hm]%elem_of_app Heq.
  - destruct (below_not_eq _ _ m Hb Hm) as [E1 _]. by rewrite Heq, EqualTo_refl in E1.
  - unfold all_above in Ha. rewrite Forall_forall in Ha. specialize (Ha m Hm). simpl in Ha. by rewrite Heq, LessThan_irrefl in Ha.
Qed.

(** Where a key is, or would be, in a sorted sequence. *)
Lemma sorted_present l m : sorted l -> m ∈ l -> exists l1 l2, l = l1 ++ m :: l2 /\ all_below l1 (GetKey m).
Proof.
  intros Hs Hm. apply list_elem_of_split in Hm as (l1 & l2 & ->). exists l1, l2. split; [done|].
  by apply sorted_around in Hs as [? _].
Qed.
End OrderedSet.

(** ** The operations refine it *)

Section Refinement.
Context {kt : KeyTraits} {laws : KeyTraitsLaws kt} (this : N).

Lemma wp_elim {S A} (m : ST S A) s (Q : A -> S -> Prop) : wp m s Q -> exists a s', m s = Some (a, s') /\ Q a s'.
Proof. done. Qed.

(** What [find] yields, in terms of the sequence. *)
Lemma found_at_spec k l p : sorted l -> found_at this k l p -> p = or_sentinel this (spec_find k l).
Proof.
  intros Hs [(m & Hm & Hk & ->)|[Hno ->]].
  - destruct (sorted_present l m Hs Hm) as (l1 & l2 & -> & Hb). rewrite Hk in Hb.
    destruct (spec_present k l1 m l2 m Hb Hk Hk) as (_ & _ & _ & ->). done.
  - by destruct (spec_absent k l Hno) as [_ ->].
Qed.

Lemma root_ptr_hang t : t <> Leaf -> root_ptr t = hang this (Edge true true) t.
Proof. by destruct t. Qed.

Lemma find_loop_holds h0 w l t k fuel :
  represents this h0 w t -> inorder t = l -> sorted l -> (height t < fuel)%nat ->
  find_loop this fuel k (root_ (tree w)) w = Some (or_sentinel this (spec_find k l), w).
Proof.
  intros H <- Hs Hf. rewrite (st_root _ _ _ _ _ _ _ H). cbn [ctx_root].
  destruct (decide (is_Leaf t = true)) as [Hl|Hl].
  { destruct t; [|done]. destruct fuel; [simpl in Hf; lia|done]. }
  rewrite root_ptr_hang by (by intros ->).
  destruct (find_loop_ok this fuel k w (Edge true true) (sentinel this) t) as (p & w' & E & -> & Hp); try done.
  { eapply st_sees; [exact H|]. by intros x. }
  by rewrite E, (found_at_spec k _ p Hs Hp).
Qed.

Lemma find_holds h0 w l k : holds this h0 w l -> find this k w = Some (or_sentinel this (spec_find k l), w).
Proof.
  intros Hh. pose proof (holds_size _ _ _ _ Hh) as Hsz. destruct Hh as (t & H & Hw & Hi & Hs).
  apply (find_loop_holds h0 w l t k (S (size (heap w)))); try done. pose proof (height_length t) as Hht. rewrite Hi in Hht. lia.
Qed.

(** The part of [erase] after the lookup. *)
Lemma erase_iter_holds h0 w l k :
  holds this h0 w l ->
  exists w', erase_iter this (or_sentinel this (spec_find k l)) w =
             Some (match spec_find k l with Some m => Obj m | None => Null end, w') /\
    match spec_find k l with
    | Some m => exists q, holds this (<[m := removed_node q]> h0) w' (spec_erase k l)
    | None => w' = w
    end.
Proof.
  intros Hh. destruct (spec_find k l) as [m|] eqn:E; [|by exists w].
  pose proof Hh as (_ & _ & _ & _ & Hs). apply List.find_some in E as [Hin Hk]. apply EqualTo_eq in Hk.
  apply list_elem_of_In in Hin. destruct (sorted_present l m Hs Hin) as (l1 & l2 & -> & Hb).
  destruct (internal_erase_ok this h0 w l1 m l2 Hh) as (p & w' & Ew & -> & Hq). exists w'. split; [exact Ew|].
  rewrite <- Hk in Hb. by destruct (spec_present k l1 m l2 m Hb (eq_sym Hk) (eq_sym Hk)) as (_ & _ & -> & _).
Qed.

Lemma insert_or_find_holds h0 w l n ns :
  holds this h0 w l -> heap w !! n = Some ns -> IsValid ns && negb (InContainer ns) = true ->
  exists w', insert_or_find this n w =
      Some ((bool_decide (spec_find (GetKey n) l = None), Obj (default n (spec_find (GetKey n) l))), w') /\
    holds this (match spec_find (GetKey n) l with Some _ => <[n := new_node]> h0 | None => h0 end) w' (spec_insert n l).
Proof.
  intros Hh Hn Hns. pose proof Hh as (_ & _ & _ & _ & Hs). unfold insert_or_find.
  destruct (internal_insert_ok this h0 w l n ns true Hh Hn Hns) as (p & w' & E & Hp); [by left|].
  exists w'. unfold mbind at 1, ST_bind. rewrite E.
  destruct Hp as [(m & Hm & Hk & -> & Hh')|(-> & l1 & l2 & -> & Hb & Ha & Hh')].
  - destruct (sorted_present l m Hs Hm) as (l1 & l2 & -> & Hb). rewrite Hk in Hb.
    destruct (spec_present (GetKey n) l1 m l2 n Hb Hk eq_refl) as (-> & _ & _ & ->). done.
  - rewrite (spec_insert_split n l1 l2 Hb Ha). destruct (spec_absent (GetKey n) (l1 ++ l2)) as [_ ->]; [|done].
    by apply absent_between.
Qed.

(** [insert_or_find] implements insertion into the ordered set: it reports
    whether the key was free, points to the object that has the key, leaves the
    other objects alone and keeps the tree a WAVL tree. *)
Theorem insert_or_find_correct h0 w l n ns :
  holds this h0 w l -> heap w !! n = Some ns -> IsValid ns && negb (InContainer ns) = true ->
  exists w', insert_or_find this n w =
      Some ((bool_decide (spec_find (GetKey n) l = None), Obj (default n (spec_find (GetKey n) l))), w') /\
    holds this (match spec_find (GetKey n) l with Some _ => <[n := new_node]> h0 | None => h0 end) w' (spec_insert n l).
Proof. apply insert_or_find_holds. Qed.

Lemma insert_or_replace_holds h0 w l n ns :
  holds this h0 w l -> heap w !! n = Some ns -> IsValid ns && negb (InContainer ns) = true ->
  exists w', insert_or_replace this n w =
      Some (match spec_find (GetKey n) l with Some m => Obj m | None => Null end, w') /\
    match spec_find (GetKey n) l with
    | Some m => exists q, holds this (<[m := removed_node q]> (<[n := new_node]> h0)) w' (spec_replace n l)
    | None => holds this h0 w' (spec_replace n l)
    end.
Proof.
  intros Hh Hn Hns. pose proof Hh as (t0 & Ht0 & _ & Hi0 & Hs). unfold insert_or_replace.
  assert (Hnin : n ∉ l).
  { rewrite <- Hi0. eapply st_not_member; [exact Ht0|exact Hn|]. apply andb_prop in Hns as [_ Hns].
    unfold InContainer, same in Hns. rewrite negb_involutive in Hns. by apply bool_decide_eq_true in Hns. }
  unfold mbind at 1, ST_bind, node_state. rewrite Hn. cbn [mbind option_bind].
  apply andb_prop in Hns as Hns'. destruct Hns' as [_ Hc]. unfold mbind at 1, ST_bind. unfold ZX_DEBUG_ASSERT at 1. rewrite Hc.
  unfold mret at 1, ST_ret at 1. destruct (internal_insert_ok this h0 w l n ns true Hh Hn Hns) as (p & w' & E & Hp); [by left|].
  unfold mbind at 1, ST_bind. rewrite E.
  destruct Hp as [(m & Hm & Hk & -> & Hh')|(-> & l1 & l2 & -> & Hb & Ha & Hh')].
  - destruct (sorted_present l m Hs Hm) as (l1 & l2 & -> & Hb). rewrite Hk in Hb.
    destruct (spec_present (GetKey n) l1 m l2 n Hb Hk eq_refl) as (_ & -> & _ & ->).
    unfold same. rewrite bool_decide_false by done.
    destruct (internal_swap_ok this _ w' l1 m l2 n false Hh') as (r & w2 & E2 & -> & q & Hq); [|done|done|].
    + destruct Hh' as (t & Ht & _ & Hi & _). rewrite (represents_outside _ _ _ _ n Ht) by (by rewrite Hi).
      by rewrite lookup_insert_eq.
    + exists w2. split; [exact E2|]. by exists q.
  - rewrite (spec_replace_split n l1 l2 Hb Ha). destruct (spec_absent (GetKey n) (l1 ++ l2)) as [_ ->]; [by apply absent_between|].
    by exists w'.
Qed.

(** [insert_or_replace] puts the object at the place of its key; an object that
    had the key is taken out and returned. *)
Theorem insert_or_replace_correct h0 w l n ns :
  holds this h0 w l -> heap w !! n = Some ns -> IsValid ns && negb (InContainer ns) = true ->
  exists w', insert_or_replace this n w =
      Some (match spec_find (GetKey n) l with Some m => Obj m | None => Null end, w') /\
    match spec_find (GetKey n) l with
    | Some m => exists q, holds this (<[m := removed_node q]> (<[n := new_node]> h0)) w' (spec_replace n l)
    | None => holds this h0 w' (spec_replace n l)
    end.
Proof. apply insert_or_replace_holds. Qed.

Lemma erase_holds h0 w l k :
  holds this h0 w l ->
  exists w', erase this k w = Some (match spec_find k l with Some m => Obj m | None => Null end, w') /\
    match spec_find k l with
    | Some m => exists q, holds this (<[m := removed_node q]> h0) w' (spec_erase k l)
    | None => w' = w /\ spec_erase k l = l
    end.
Proof.
  intros Hh. destruct (erase_iter_holds h0 w l k Hh) as (w' & E & H). exists w'. split.
  - unfold erase, mbind at 1, ST_bind. by rewrite (find_holds h0 w l k Hh).
  - destruct (spec_find k l) eqn:Ef; [done|]. split; [done|]. apply spec_absent. intros m Hm Hk.
    pose proof (List.find_none _ _ Ef m) as Hno. rewrite <- list_elem_of_In in Hno. specialize (Hno Hm). simpl in Hno.
    by rewrite Hk, EqualTo_refl in Hno.
Qed.

(** [erase] by key takes out the object that has the key and returns it; its
    node state is that of an object in no container.  Without such an object nothing
    changes. *)
Theorem erase_correct h0 w l k :
  holds this h0 w l ->
  exists w', erase this k w = Some (match spec_find k l with Some m => Obj m | None => Null end, w') /\
    match spec_find k l with
    | Some m => exists q, holds this (<[m := removed_node q]> h0) w' (spec_erase k l)
    | None => w' = w /\ spec_erase k l = l
    end.
Proof. apply erase_holds. Qed.

(** C39.  A lookup visits at most [2 log2 (n + 1) + 2] nodes of a tree of [n] objects
    and finds the object with the key, or the end of the tree. *)
Theorem find_logarithmic h0 w l k fuel :
  holds this h0 w l -> 2 * Z.log2 (Z.of_nat (length l) + 1) + 2 <= Z.of_nat fuel ->
  find_loop this fuel k (root_ (tree w)) w = Some (or_sentinel this (spec_find k l), w) /\
  find this k w = Some (or_sentinel this (spec_find k l), w).
Proof.
  intros Hh Hf. split; [|by apply (find_holds h0)]. destruct Hh as (t & H & Hw & Hi & Hs).
  apply (find_loop_holds h0 w l t k fuel H Hi Hs). pose proof (wavl_height_log t Hw) as Hht. rewrite Hi in Hht. lia.
Qed.

Lemma bound_holds h0 w l bt k :
  holds this h0 w l ->
  internal_upper_lower_bound this bt k w =
    Some (or_sentinel this (List.find (fun m => negb (GoRight bt k (GetKey m))) l), w).
Proof.
  intros Hh. pose proof (holds_size _ _ _ _ Hh) as Hsz. destruct Hh as (t & H & Hw & <- & Hs).
  change (internal_upper_lower_bound this bt k w) with (bound_loop (S (size (heap w))) bt k (root_ (tree w)) (sentinel this) w).
  rewrite (st_root _ _ _ _ _ _ _ H). cbn [ctx_root].
  destruct (decide (is_Leaf t = true)) as [Hl|Hl]; [by destruct t|]. rewrite root_ptr_hang by (by intros ->).
  pose proof (height_length t) as Hht.
  destruct (bound_loop_ok this (S (size (heap w))) bt k w (Edge true true) (sentinel this) t (sentinel this)) as (p & w' & E & -> & Hp); [|lia|done|].
  { eapply st_sees; [exact H|]. by intros x. }
  destruct Hp as (l1 & l2 & -> & H1 & H2 & ->). rewrite E. repeat f_equal.
  induction l1 as [|m l1 IH]; simpl.
  - destruct l2 as [|m l2]; [done|]. inversion H2 as [|? ? Hm _]; subst. simpl. by rewrite Hm.
  - inversion H1 as [|? ? Hm Hl1]; subst. rewrite Hm. clear -IH Hl1 H2. by apply IH.
Qed.

(** [lower_bound] yields the first object whose key is not below the given key,
    [upper_bound] the first one above it, and the end when there is none. *)
Theorem bounds_correct h0 w l k :
  holds this h0 w l ->
  lower_bound this k w = Some (or_sentinel this (List.find (fun m => negb (LessThan (GetKey m) k)) l), w) /\
  upper_bound this k w = Some (or_sentinel this (List.find (fun m => LessThan k (GetKey m)) l), w).
Proof.
  intros Hh. split; [exact (bound_holds h0 w l LowerBoundTraits k Hh)|].
  unfold upper_bound. rewrite (bound_holds h0 w l UpperBoundTraits k Hh). do 3 f_equal. clear -laws. induction l as [|m l IH]; [done|].
  simpl. assert (Hgt : LessThan k (GetKey m) = negb (EqualTo (GetKey m) k || LessThan (GetKey m) k)).
  { destruct (EqualTo (GetKey m) k) eqn:He; [apply EqualTo_eq in He as ->; apply LessThan_irrefl|].
    apply EqualTo_false in He. destruct (LessThan (GetKey m) k) eqn:Hlt; [by apply LessThan_asym|by apply not_lt_gt]. }
  rewrite Hgt. destruct (_ || _); simpl; [exact IH|done].
Qed.

(** Iteration visits the objects in order: [begin] is the first, [++] moves to
    the next or to the end, [--] moves back, also from the end to the last object. *)
Theorem iteration_correct h0 w l1 n l2 :
  holds this h0 w (l1 ++ n :: l2) ->
  begin w = Some (or_sentinel this (head (l1 ++ n :: l2)), w) /\
  next (Obj n) w = Some (or_sentinel this (head l2), w) /\
  prev this (Obj n) w = Some (or_sentinel this (last l1), w) /\
  prev this (sentinel this) w = Some (or_sentinel this (last (l1 ++ n :: l2)), w).
Proof.
  intros Hh. pose proof (holds_book _ _ _ _ Hh) as Hb. injection Hb as Hb1 Hb2 _. split; [by rewrite <- Hb1|]. split.
  { destruct (next_ok this h0 w l1 n l2 Hh) as (p & w' & E & -> & ->). exact E. }
  split; [|unfold prev, sentinel; rewrite bool_decide_true by done; by rewrite <- Hb2].
  destruct (prev_ok this h0 w l1 n l2 Hh) as (p & w' & E & -> & ->). exact E.
Qed.

Lemma erase_if_loop_ok h0 fuel fn w l1 l2 :
  holds this h0 w (l1 ++ l2) -> (length l2 < fuel)%nat ->
  exists w', erase_if_loop this fuel fn (or_sentinel this (head l2)) w =
             Some (match List.find fn l2 with Some m => Obj m | None => Null end, w') /\
    match List.find fn l2 with
    | Some m => exists k1 k2 q, l1 ++ l2 = k1 ++ m :: k2 /\ holds this (<[m := removed_node q]> h0) w' (k1 ++ k2)
    | None => w' = w
    end.
Proof.
  revert l1 l2. induction fuel as [|fuel IH]; intros l1 l2 H Hf; [lia|]. cbn [erase_if_loop].
  unfold mbind at 1, ST_bind. unfold end_, mret, ST_ret.
  destruct l2 as [|n l2]; cbn [head or_sentinel List.find].
  - exists w. unfold same. by rewrite bool_decide_true.
  - unfold same. rewrite bool_decide_false by done. destruct (fn n) eqn:Hfn.
    + destruct (internal_erase_ok this h0 w l1 n l2 H) as (p & w' & Ew & -> & q & Hq). exists w'. split; [exact Ew|].
      by exists l1, l2, q.
    + destruct (next_ok this h0 w l1 n l2 H) as (p & w' & E & -> & ->). unfold mbind, ST_bind. rewrite E.
      replace (l1 ++ n :: l2) with ((l1 ++ [n]) ++ l2) in * by (by rewrite <- app_assoc). apply IH; [done|simpl in Hf; lia].
Qed.

(** [find_if] yields the first object in order that satisfies the predicate, and
    [erase_if] takes exactly that object out. *)
Theorem find_if_erase_if_correct h0 w l fn :
  holds this h0 w l ->
  find_if this fn w = Some (or_sentinel this (List.find fn l), w) /\
  exists w', erase_if this fn w = Some (match List.find fn l with Some m => Obj m | None => Null end, w') /\
    match List.find fn l with
    | Some m => exists k1 k2 q, l = k1 ++ m :: k2 /\ holds this (<[m := removed_node q]> h0) w' (k1 ++ k2)
    | None => w' = w
    end.
Proof.
  intros Hh. pose proof (holds_size _ _ _ _ Hh) as Hsz. pose proof (holds_book _ _ _ _ Hh) as Hb. injection Hb as Hb1 _ _. split.
  - destruct (find_if_loop_ok this h0 (S (size (heap w))) fn w [] l Hh) as (p & w' & E & -> & ->); [lia|].
    rewrite <- E, <- Hb1. done.
  - destruct (erase_if_loop_ok h0 (S (size (heap w))) fn w [] l Hh) as (w' & E & H'); [lia|]. exists w'.
    split; [|exact H']. by rewrite <- E, <- Hb1.
Qed.

Lemma pop_holds h0 w l :
  holds this h0 w l ->
  (exists w', pop_front this w = Some (match head l with Some m => Obj m | None => Null end, w') /\
    match l with [] => w' = w | m :: l' => exists q, holds this (<[m := removed_node q]> h0) w' l' end) /\
  (exists w', pop_back this w = Some (match last l with Some m => Obj m | None => Null end, w') /\
    match last l with None => w' = w | Some m => exists q, holds this (<[m := removed_node q]> h0) w' (removelast l) end).
Proof.
  intros Hh. pose proof (holds_book _ _ _ _ Hh) as Hb. injection Hb as Hb1 Hb2 _.
  unfold pop_front, pop_back, gets, mbind at 1, mbind at 1, ST_bind. rewrite Hb1, Hb2. split.
  - destruct l as [|m l]; [by exists w|]. destruct (internal_erase_ok this h0 w [] m l Hh) as (p & w' & E & -> & q & Hq).
    exists w'. split; [exact E|by exists q].
  - destruct (last l) as [m|] eqn:El; [|by exists w]. apply last_Some in El as [l' ->].
    destruct (internal_erase_ok this h0 w l' m [] Hh) as (p & w' & E & -> & q & Hq). exists w'. split; [exact E|].
    exists q. by rewrite List.removelast_last, app_nil_r in *.
Qed.

(** [pop_front] and [pop_back] take out and return the first and the last
    object; on an empty tree they return null and change nothing. *)
Theorem pop_correct h0 w l :
  holds this h0 w l ->
  (exists w', pop_front this w = Some (match head l with Some m => Obj m | None => Null end, w') /\
    match l with [] => w' = w | m :: l' => exists q, holds this (<[m := removed_node q]> h0) w' l' end) /\
  (exists w', pop_back this w = Some (match last l with Some m => Obj m | None => Null end, w') /\
    match last l with None => w' = w | Some m => exists q, holds this (<[m := removed_node q]> h0) w' (removelast l) end).
Proof. apply pop_holds. Qed.

(** [clear] ends, leaves the tree empty and every object that was in it with the
    node state of an object in no container, and touches nothing else. *)
Theorem clear_correct h0 w l :
  holds this h0 w l ->
  exists w', clear this w = Some (tt, w') /\ holds this (heap w') w' [] /\
    (forall n, n ∈ l -> exists q, heap w' !! n = Some (removed_node q)) /\ (forall n, n ∉ l -> heap w' !! n = h0 !! n).
Proof. intros Hh. destruct (clear_ok this h0 w l kt Hh) as ([] & w' & E & H). by exists w'. Qed.
End Refinement.

(** ** Sequences of operations *)

Section Traces.
Context {kt : KeyTraits} {laws : KeyTraitsLaws kt} (this : N).

Inductive op :=
| OpInsert (n : N) | OpReplace (n : N) | OpErase (k : KeyType) | OpPopFront | OpPopBack | OpClear.

Definition exec (o : op) : ST world ptr :=
  match o with
  | OpInsert n => r ← insert_or_find this n; mret (snd r)
  | OpReplace n => insert_or_replace this n
  | OpErase k => erase this k
  | OpPopFront => pop_front this
  | OpPopBack => pop_back this
  | OpClear => clear this ;; mret Null
  end.

Definition or_null (o : option N) : ptr := match o with Some n => Obj n | None => Null end.

(** The same operations on the abstract ordered set: its next state and the result. *)
Definition spec_op (o : op) (l : list N) : list N :=
  match o with
  | OpInsert n => spec_insert n l
  | OpReplace n => spec_replace n l
  | OpErase k => spec_erase k l
  | OpPopFront => tail l
  | OpPopBack => removelast l
  | OpClear => []
  end.
Definition spec_result (o : op) (l : list N) : ptr :=
  match o with
  | OpInsert n => Obj (default n (spec_find (GetKey n) l))
  | OpReplace n => or_null (spec_find (GetKey n) l)
  | OpErase k => or_null (spec_find k l)
  | OpPopFront => or_null (head l)
  | OpPopBack => or_null (last l)
  | OpClear => Null
  end.

(** The callers' obligation: only objects of the heap that are not in the tree are
    inserted. *)
Definition allowed (U : list N) (o : op) (l : list N) : Prop :=
  match o with OpInsert n | OpReplace n => n ∈ U /\ n ∉ l | _ => True end.

Fixpoint exec_all (ops : list op) : ST world (list ptr) :=
  match ops with [] => mret [] | o :: ops => r ← exec o; rs ← exec_all ops; mret (r :: rs) end.
Fixpoint spec_all (ops : list op) (l : list N) : list ptr * list N :=
  match ops with
  | [] => ([], l)
  | o :: ops => let '(rs, l') := spec_all ops (spec_op o l) in (spec_result o l :: rs, l')
  end.
Fixpoint allowed_all (U : list N) (ops : list op) (l : list N) : Prop :=
  match ops with [] => True | o :: ops => allowed U o l /\ allowed_all U ops (spec_op o l) end.

(** The tree holds [l], and the other objects of [U] are in no container. *)
Definition simulates (U : list N) (w : world) (l : list N) : Prop :=
  holds this (heap w) w l /\ (forall n, n ∈ l -> n ∈ U) /\
  forall n, n ∈ U -> n ∉ l -> exists q, heap w !! n = Some (removed_node q).

Lemma holds_self h0 w l : holds this h0 w l -> holds this (heap w) w l /\ forall n, n ∉ l -> heap w !! n = h0 !! n.
Proof.
  intros (t & H & Hw & <- & Hs). split; [|intros n; by apply (represents_outside _ _ _ _ _ H)].
  exists t. split; [|done]. apply (st_rebase this h0); [done|]. intros n Hn. symmetry. apply (st_rest _ _ _ _ _ _ _ H n Hn).
Qed.

(** A step that leaves the idle objects alone, except those that are taken out. *)
Lemma simulates_step U w l h0 w' l' :
  simulates U w l -> holds this h0 w' l' -> (forall n, n ∈ l' -> n ∈ U) ->
  (forall n, n ∈ U -> n ∉ l' -> (exists q, h0 !! n = Some (removed_node q)) \/ h0 !! n = heap w !! n /\ n ∉ l) ->
  simulates U w' l'.
Proof.
  intros (_ & _ & Hidle) Hh HU Hrest. apply holds_self in Hh as [Hh Hout]. split; [done|]. split; [done|].
  intros n Hn Hnl. rewrite Hout by done. destruct (Hrest n Hn Hnl) as [Hq|[-> Hnl']]; [done|]. by apply Hidle.
Qed.

Lemma removed_idle q : IsValid (removed_node q) && negb (InContainer (removed_node q)) = true.
Proof. done. Qed.

Lemma sorted_split k l :
  sorted l -> (exists m, m ∈ l /\ GetKey m = k) \/ exists l1 l2, l = l1 ++ l2 /\ all_below l1 k /\ all_above l2 k.
Proof.
  induction 1 as [|a l Hs IH Ha]; [by right; exists [], []; repeat constructor|].
  destruct (LessThan_total (GetKey a) k) as [Hlt|[Heq|Hgt]].
  - destruct IH as [(m & Hm & Hk)|(l1 & l2 & -> & Hb & Hab)]; [left; exists m; split; [by right|done]|].
    right. exists (a :: l1), l2. split; [done|]. split; [by constructor|done].
  - left. exists a. split; [by left|done].
  - right. exists [], (a :: l). split; [done|]. split; [constructor|]. constructor; [done|].
    eapply Forall_impl; [exact Ha|]. intros m Hm. exact (LessThan_trans _ _ _ Hgt Hm).
Qed.

(** The two outcomes of looking for the key of [n]. *)
Lemma spec_cases n l : sorted l ->
  (exists l1 m l2, l = l1 ++ m :: l2 /\ spec_find (GetKey n) l = Some m /\ spec_insert n l = l /\
     spec_replace n l = l1 ++ n :: l2) \/
  (spec_find (GetKey n) l = None /\ exists l1 l2, l = l1 ++ l2 /\ spec_insert n l = l1 ++ n :: l2 /\
     spec_replace n l = l1 ++ n :: l2).
Proof.
  intros Hs. destruct (sorted_split (GetKey n) l Hs) as [(m & Hm & Hk)|(l1 & l2 & -> & Hb & Ha)].
  - left. destruct (sorted_present l m Hs Hm) as (l1 & l2 & -> & Hb). rewrite Hk in Hb. exists l1, m, l2.
    by destruct (spec_present (GetKey n) l1 m l2 n Hb Hk eq_refl) as (-> & -> & _ & ->).
  - right. destruct (spec_absent (GetKey n) (l1 ++ l2)) as [_ ->]; [by apply absent_between|]. split; [done|].
    exists l1, l2. by rewrite spec_insert_split, spec_replace_split.
Qed.

Lemma spec_erase_some k l m : spec_find k l = Some m -> exists l1 l2, l = l1 ++ m :: l2 /\ spec_erase k l = l1 ++ l2.
Proof.
  unfold spec_find. induction l as [|a l IH]; simpl; [done|]. destruct (EqualTo k (GetKey a)) eqn:E.
  - intros [= ->]. by exists [], l.
  - intros (l1 & l2 & -> & ->)%IH. by exists (a :: l1), l2.
Qed.

(** Taking [m] out of [l1 ++ m :: l2] is a step. *)
Lemma simulates_remove U w l1 m l2 q w' :
  simulates U w (l1 ++ m :: l2) -> holds this (<[m := removed_node q]> (heap w)) w' (l1 ++ l2) -> simulates U w' (l1 ++ l2).
Proof.
  intros Hsim Hh. eapply simulates_step; [exact Hsim|exact Hh|..].
  - intros n Hn. apply Hsim. rewrite elem_of_app, elem_of_cons. apply elem_of_app in Hn. tauto.
  - intros n Hn Hnl. destruct (decide (n = m)) as [->|Hnm]; [left; exists q; by rewrite lookup_insert_eq|].
    right. rewrite lookup_insert_ne by done. split; [done|]. rewrite elem_of_app in Hnl. rewrite elem_of_app, elem_of_cons. tauto.
Qed.

Lemma simulates_add U w l1 n l2 w' :
  simulates U w (l1 ++ l2) -> n ∈ U -> holds this (heap w) w' (l1 ++ n :: l2) -> simulates U w' (l1 ++ n :: l2).
Proof.
  intros Hsim HnU Hh. eapply simulates_step; [exact Hsim|exact Hh|..].
  - intros m [Hm|[->|Hm]%elem_of_cons]%elem_of_app; [|done|]; apply Hsim; rewrite elem_of_app; tauto.
  - intros m Hm Hml. right. split; [done|]. rewrite elem_of_app, elem_of_cons in Hml. rewrite elem_of_app. tauto.
Qed.

Lemma step_simulates U o w l :
  simulates U w l -> allowed U o l -> exists w', exec o w = Some (spec_result o l, w') /\ simulates U w' (spec_op o l).
Proof.
  intros Hsim Hall. pose proof Hsim as (Hh & HU & Hidle). pose proof Hh as (_ & _ & _ & _ & Hs).
  destruct o as [n|n|k| | |]; cbn [exec spec_result spec_op allowed] in *.
  - destruct Hall as [HnU Hnl]. destruct (Hidle n HnU Hnl) as [q Hq].
    destruct (insert_or_find_holds this _ w l n _ Hh Hq (removed_idle q)) as (w' & E & Hh').
    exists w'. unfold mbind, ST_bind. rewrite E. split; [done|].
    destruct (spec_cases n l Hs) as [(l1 & m & l2 & -> & Hf & Hi & _)|(Hf & l1 & l2 & -> & Hi & _)]; rewrite Hf in Hh'.
    + rewrite Hi in *. eapply simulates_step; [exact Hsim|exact Hh'|done|]. intros a Ha Hal.
      destruct (decide (a = n)) as [->|Hne]; [left; exists false; by rewrite lookup_insert_eq|].
      right. by rewrite lookup_insert_ne.
    + rewrite Hi in *. by eapply simulates_add.
  - destruct Hall as [HnU Hnl]. destruct (Hidle n HnU Hnl) as [q Hq].
    destruct (insert_or_replace_holds this _ w l n _ Hh Hq (removed_idle q)) as (w' & E & Hh').
    exists w'. split; [exact E|].
    destruct (spec_cases n l Hs) as [(l1 & m & l2 & -> & Hf & _ & Hr)|(Hf & l1 & l2 & -> & _ & Hr)]; rewrite Hf, ?Hr in *.
    + destruct Hh' as [q' Hh']. eapply simulates_step; [exact Hsim|exact Hh'|..].
      * intros a [Ha|[->|Ha]%elem_of_cons]%elem_of_app; [|done|]; apply HU; rewrite elem_of_app, elem_of_cons; tauto.
      * intros a Ha Hal. destruct (decide (a = m)) as [->|Hne]; [left; exists q'; by rewrite lookup_insert_eq|].
        rewrite elem_of_app, elem_of_cons in Hal. right. rewrite !lookup_insert_ne by naive_solver.
        split; [done|]. rewrite elem_of_app, elem_of_cons. tauto.
    + by eapply simulates_add.
  - destruct (erase_holds this _ w l k Hh) as (w' & E & Hh'). exists w'. split; [exact E|].
    destruct (spec_find k l) as [m|] eqn:Hf; [|by destruct Hh' as [-> ->]].
    destruct Hh' as [q Hq]. destruct (spec_erase_some _ _ _ Hf) as (l1 & l2 & -> & Hr). rewrite Hr in *. by eapply simulates_remove.
  - destruct (pop_holds this _ w l Hh) as [(w' & E & Hh') _]. exists w'. split; [exact E|].
    destruct l as [|m l]; [by rewrite Hh'|]. destruct Hh' as [q Hq]. by eapply (simulates_remove U w []).
  - destruct (pop_holds this _ w l Hh) as [_ (w' & E & Hh')]. exists w'. split; [exact E|].
    destruct (last l) as [m|] eqn:El; [|by apply last_None in El as ->; rewrite Hh'].
    apply last_Some in El as [l' ->]. destruct Hh' as [q Hq]. rewrite List.removelast_last in *.
    rewrite <- (app_nil_r l') in Hq |- *. eapply simulates_remove; [exact Hsim|exact Hq].
  - destruct (clear_ok this _ w l kt Hh) as ([] & w' & E & Hh' & Hin & Hout). exists w'. unfold mbind, ST_bind. rewrite E.
    split; [done|]. split; [done|]. split; [by intros n ?%elem_of_nil|]. intros n Hn _.
    destruct (decide (n ∈ l)) as [Hl|Hl]; [by apply Hin|]. rewrite Hout by done. by apply Hidle.
Qed.

Lemma run_simulates U ops w l :
  simulates U w l -> allowed_all U ops l ->
  exists w', exec_all ops w = Some (fst (spec_all ops l), w') /\ simulates U w' (snd (spec_all ops l)).
Proof.
  revert w l. induction ops as [|o ops IH]; intros w l Hsim Hall; [by exists w|].
  destruct Hall as [Ho Hall]. destruct (step_simulates U o w l Hsim Ho) as (w1 & E1 & H1).
  destruct (IH w1 _ H1 Hall) as (w2 & E2 & H2). exists w2. cbn [exec_all spec_all].
  destruct (spec_all ops (spec_op o l)) as [rs l']. unfold mbind, ST_bind. rewrite E1, E2. done.
Qed.

(** C1.  Refinement: any sequence of insertions, replacements, erasures, pops and
    clears runs to its end without a failed assertion or an invalid dereference, gives
    the results of the ordered set, and ends in a WAVL tree that holds its contents. *)
Theorem wavl_refines_ordered_set U ops w l :
  simulates U w l -> allowed_all U ops l ->
  exists w', exec_all ops w = Some (fst (spec_all ops l), w') /\ simulates U w' (snd (spec_all ops l)).
Proof. apply run_simulates. Qed.

(** A new tree holds nothing. *)
Lemma empty_holds (h : gmap N WAVLTreeNodeState) : holds this h (World (empty_tree this) h) [].
Proof.
  exists Leaf. split; [|split; [done|split; [done|constructor]]].
  split; [done|done|by intros ? ? ?%elem_of_nil|constructor|done].
Qed.

(** A new tree and objects in no container. *)
Lemma simulates_empty (h : gmap N WAVLTreeNodeState) U :
  (forall n, n ∈ U -> h !! n = Some fresh_node) -> simulates U (World (empty_tree this) h) [].
Proof.
  intros H. split; [|split; [by intros n ?%elem_of_nil|intros n Hn _; exists false; by apply H]].
  apply empty_holds.
Qed.
End Traces.

(** [swap] exchanges the contents of two trees that share no object, moving the
    sentinels with them; no other object changes. *)
Theorem swap_correct {kt : KeyTraits} a b ta tb h la lb :
  holds a h (World ta h) la -> holds b h (World tb h) lb -> (forall n, n ∈ la -> n ∉ lb) ->
  exists ta' tb' h', swap a b ta tb h = Some (ta', tb', h') /\
    holds a h' (World ta' h') lb /\ holds b h' (World tb' h') la /\
    forall n, n ∉ la -> n ∉ lb -> h' !! n = h !! n.
Proof. apply swap_ok. Qed.

(** ** Examples *)

Module TreeExample.
(** Objects whose key is their number. *)
Definition nkeys : KeyTraits := {| KeyType := N; GetKey := fun n => n; LessThan := N.ltb; EqualTo := N.eqb |}.
#[local] Existing Instance nkeys.

Definition key (n : N) : @KeyType nkeys := n.

#[local] Instance nkeys_laws : KeyTraitsLaws nkeys.
Proof.
  split; simpl.
  - apply N.eqb_eq.
  - apply N.ltb_irrefl.
  - intros a b c. rewrite !N.ltb_lt. apply N.lt_trans.
  - intros a b. rewrite !N.ltb_lt. destruct (N.lt_total a b) as [?|[?|?]]; auto.
Qed.

Definition objects : list N := [10; 20; 30; 40; 50; 60; 70]%N.
Definition start : world := World (empty_tree 1) (list_to_map ((fun n => (n, fresh_node)) <$> objects)).
Definition inserts : list op := OpInsert <$> [10; 20; 30; 40; 50; 60]%N.
(** Ascending insertions: three rotations. *)
Definition six : world := match exec_all 1 inserts start with Some (_, w) => w | None => start end.
Definition contents : list N := [10; 20; 30; 40; 50; 60]%N.

Lemma start_simulates : simulates 1 objects start [].
Proof. apply simulates_empty. intros n Hn. repeat (apply elem_of_cons in Hn as [->|Hn]; [reflexivity|]). by apply elem_of_nil in Hn. Qed.

Ltac by_evaluation := first [exact I | refine (bool_decide_unpack _ _); vm_compute; exact I].


Lemma inserts_allowed : allowed_all objects inserts [].
Proof. repeat split; by_evaluation. Qed.

Lemma six_simulates : simulates 1 objects six contents.
Proof.
  destruct (run_simulates 1 objects inserts start [] start_simulates inserts_allowed) as (w' & E & H).
  replace six with w'; [exact H|]. unfold six. by rewrite E.
Qed.

Lemma six_holds : holds 1 (heap six) six contents.
Proof. apply six_simulates. Qed.

Lemma world_eta (w : world) : World (tree w) (heap w) = w.
Proof. by destruct w. Qed.

Lemma six_parts_holds : holds 1 (heap six) (World (tree six) (heap six)) contents.
Proof. rewrite (world_eta six). apply six_holds. Qed.

Lemma insert_or_find_correct_witness :
  exists w', insert_or_find 1 70 six = Some ((true, Obj 70), w') /\ holds 1 (heap six) w' (contents ++ [70%N]).
Proof. exact (insert_or_find_correct 1 (heap six) six contents 70%N fresh_node six_holds eq_refl eq_refl). Defined.

Lemma insert_or_replace_correct_witness :
  exists w', insert_or_replace 1 70 six = Some (Null, w') /\ holds 1 (heap six) w' (contents ++ [70%N]).
Proof. exact (insert_or_replace_correct 1 (heap six) six contents 70%N fresh_node six_holds eq_refl eq_refl). Defined.

Lemma erase_correct_witness :
  exists w', erase 1 (key 40) six = Some (Obj 40, w') /\
    exists q, holds 1 (<[40%N := removed_node q]> (heap six)) w' [10; 20; 30; 50; 60]%N.
Proof. exact (erase_correct 1 (heap six) six contents (key 40) six_holds). Defined.

Lemma find_logarithmic_witness :
  find_loop 1 6 (key 50) (root_ (tree six)) six = Some (Obj 50, six) /\ find 1 (key 50) six = Some (Obj 50, six).
Proof. apply (find_logarithmic 1 (heap six) six contents (key 50) 6 six_holds). vm_compute. discriminate. Defined.

Lemma bounds_correct_witness :
  lower_bound 1 (key 35) six = Some (Obj 40, six) /\ upper_bound 1 (key 60) six = Some (Sentinel 1, six).
Proof.
  split.
  - exact (proj1 (bounds_correct 1 (heap six) six contents (key 35) six_holds)).
  - exact (proj2 (bounds_correct 1 (heap six) six contents (key 60) six_holds)).
Defined.

Lemma iteration_correct_witness :
  begin six = Some (Obj 10, six) /\ next (Obj 30) six = Some (Obj 40, six) /\ prev 1 (Obj 30) six = Some (Obj 20, six) /\
  prev 1 (Sentinel 1) six = Some (Obj 60, six).
Proof. exact (iteration_correct 1 (heap six) six [10; 20]%N 30%N [40; 50; 60]%N six_holds). Defined.

Lemma find_if_erase_if_correct_witness :
  find_if 1 (fun n => (25 <? n)%N) six = Some (Obj 30, six) /\
  exists w', erase_if 1 (fun n => (25 <? n)%N) six = Some (Obj 30, w') /\
    exists k1 k2 q, contents = k1 ++ 30%N :: k2 /\ holds 1 (<[30%N := removed_node q]> (heap six)) w' (k1 ++ k2).
Proof. exact (find_if_erase_if_correct 1 (heap six) six contents (fun n => (25 <? n)%N) six_holds). Defined.

Lemma pop_correct_witness :
  (exists w', pop_front 1 six = Some (Obj 10, w') /\
     exists q, holds 1 (<[10%N := removed_node q]> (heap six)) w' [20; 30; 40; 50; 60]%N) /\
  (exists w', pop_back 1 six = Some (Obj 60, w') /\
     exists q, holds 1 (<[60%N := removed_node q]> (heap six)) w' [10; 20; 30; 40; 50]%N).
Proof. exact (pop_correct 1 (heap six) six contents six_holds). Defined.

Lemma clear_correct_witness :
  exists w', clear 1 six = Some (tt, w') /\ holds 1 (heap w') w' [] /\
    (forall n, n ∈ contents -> exists q, heap w' !! n = Some (removed_node q)) /\
    (forall n, n ∉ contents -> heap w' !! n = heap six !! n).
Proof. exact (clear_correct 1 (heap six) six contents six_holds). Defined.

(** Insert six objects, erase one with two children, pop both ends. *)
Lemma wavl_refines_ordered_set_witness :
  exists w', exec_all 1 (inserts ++ [OpErase (key 20); OpPopFront; OpPopBack]) start =
    Some ((Obj <$> contents) ++ [Obj 20; Obj 10; Obj 60], w') /\ simulates 1 objects w' [30; 40; 50]%N.
Proof.
  apply (wavl_refines_ordered_set 1 objects (inserts ++ [OpErase (key 20); OpPopFront; OpPopBack]) start [] start_simulates).
  repeat split; by_evaluation.
Defined.

Lemma swap_correct_witness :
  exists ta tb h, swap 1 2 (tree six) (empty_tree 2) (heap six) = Some (ta, tb, h) /\
    holds 1 h (World ta h) [] /\ holds 2 h (World tb h) contents /\
    forall n, n ∉ contents -> n ∉ (@nil N) -> h !! n = heap six !! n.
Proof. apply (swap_correct 1 2 (tree six) (empty_tree 2) (heap six) contents [] six_parts_holds (empty_holds 2 (heap six))). by intros n _ ?%elem_of_nil. Defined.
End TreeExample.
