(* ===== verification/FidlStatus.v ===== *)
(** * Status, reasons and unbinding

    Models src/fidl/cpp/wire/include/lib/fidl/cpp/wire/status.h, the parts of
    status.cc that classify errors, and [DispatchError] of async_binding.cc.  A failed
    assertion or an abort is [None]. *)

From S2P Require Import Prelude FidlTypes.

(** The error codes of <zircon/errors.h>, which is not part of the repository, with what
    the code relies on: they are not [ZX_OK] and they differ. *)
Class ZxErrors := {
  ZX_ERR_INTERNAL : Z;
  ZX_ERR_CANCELED : Z;
  ZX_ERR_BAD_STATE : Z;
  ZX_ERR_NOT_SUPPORTED : Z;
  ZX_ERR_PEER_CLOSED : Z;
  ZX_ERR_NOT_FOUND : Z;
}.

Class ZxErrorsLaws (zx : ZxErrors) := {
  zx_errors_distinct :
    NoDup [ZX_OK; ZX_ERR_INTERNAL; ZX_ERR_CANCELED; ZX_ERR_BAD_STATE; ZX_ERR_NOT_SUPPORTED; ZX_ERR_PEER_CLOSED;
           ZX_ERR_NOT_FOUND];
}.

(** The values Fuchsia publishes. *)
Definition fuchsia_errors : ZxErrors := {|
  ZX_ERR_INTERNAL := -1; ZX_ERR_CANCELED := -23; ZX_ERR_BAD_STATE := -20; ZX_ERR_NOT_SUPPORTED := -2;
  ZX_ERR_PEER_CLOSED := -24; ZX_ERR_NOT_FOUND := -25 |}.

#[export] Instance fuchsia_errors_laws : ZxErrorsLaws fuchsia_errors.
Proof. split. refine (bool_decide_unpack _ _). by vm_compute. Qed.

Inductive Reason :=
  | __DoNotUse
  | kUnbind
  | kClose
  | kPendingTwoWayCallPreventsUnbind
  | kCanceledDueToOtherError
  | kPeerClosedWhileReading
  | kDispatcherError
  | kTransportError
  | kEncodeError
  | kDecodeError
  | kUnexpectedMessage
  | kUnknownMethod
  | kAbandonedAsyncReply.

#[export] Instance Reason_eq_dec : EqDecision Reason.
Proof. solve_decision. Defined.

Inductive ErrorOrigin := kReceive | kSend.
#[export] Instance ErrorOrigin_eq_dec : EqDecision ErrorOrigin.
Proof. solve_decision. Defined.

Definition kUninitializedReason : Reason := __DoNotUse.

Record Status := MkStatus {
  status_ : Z;
  reason_ : Reason;
  underlying_reason_ : Reason;
  error_ : option string;
}.

(** An [UnbindInfo] is a [Status] seen through another interface. *)
Definition UnbindInfo : Type := Status.

#[export] Instance Status_eq_dec : EqDecision Status.
Proof. solve_decision. Defined.

Section Status.
Context {zx : ZxErrors}.

(** The two private constructors. *)
Definition new_status (status : Z) (reason : Reason) (error : option string) : Status :=
  MkStatus status reason kUninitializedReason error.

Definition kErrorUnknownTxId : string := "unknown txid".
Definition kErrorUnknownOrdinal : string := "unknown ordinal".
Definition kErrorChannelUnbound : string := "unbound endpoint".

Definition Ok : Status := new_status ZX_OK kUninitializedReason None.
Definition Unbound : Status := new_status ZX_ERR_CANCELED kUnbind (Some kErrorChannelUnbound).
Definition PendingTwoWayCallPreventsUnbind : Status :=
  new_status ZX_ERR_BAD_STATE kPendingTwoWayCallPreventsUnbind None.
Definition UnknownOrdinal : Status := new_status ZX_ERR_NOT_SUPPORTED kUnexpectedMessage (Some kErrorUnknownOrdinal).
Definition TransportError (status : Z) (error_message : option string) : option Status :=
  if status =? ZX_OK then None
  else Some (new_status status (if status =? ZX_ERR_PEER_CLOSED then kPeerClosedWhileReading else kTransportError)
               error_message).
Definition UnexpectedMessage (status : Z) (error_message : option string) : Status :=
  new_status status kUnexpectedMessage error_message.

Definition status (s : Status) : Z :=
  if bool_decide (reason_ s = kCanceledDueToOtherError) then ZX_ERR_CANCELED else status_ s.
Definition ok (s : Status) : bool := status_ s =? ZX_OK.
Definition error (s : Status) : option Status := if status_ s =? ZX_OK then None else Some s.
Definition reason (s : Status) : option Reason :=
  if bool_decide (reason_ s = kUninitializedReason) then None else Some (reason_ s).
Definition is_peer_closed (s : Status) : bool := bool_decide (reason_ s = kPeerClosedWhileReading).

(** [UnbindInfo] and its factories. *)
Definition UnbindInfo_of (result : Status) : option UnbindInfo := _ ← reason result; Some result.
Definition Unbind : UnbindInfo := new_status ZX_OK kUnbind None.
Definition PeerClosed (status : Z) : UnbindInfo := new_status status kPeerClosedWhileReading None.
Definition DispatcherError (status : Z) : UnbindInfo := new_status status kDispatcherError None.

Definition ToError (info : UnbindInfo) : Status := if bool_decide (reason_ info = kUnbind) then Unbound else info.

Definition IsFatalErrorUniversal (r : Reason) : option bool :=
  match r with
  | __DoNotUse | kCanceledDueToOtherError | kUnknownMethod | kPendingTwoWayCallPreventsUnbind => None
  | kUnbind | kClose | kPeerClosedWhileReading | kDispatcherError | kTransportError => Some true
  | kUnexpectedMessage | kEncodeError | kDecodeError | kAbandonedAsyncReply => Some false
  end.

Definition Canceled (cause : UnbindInfo) : option Status :=
  let status := ToError cause in
  fatal ← IsFatalErrorUniversal (reason_ status);
  if (fatal : bool) then None
  else Some (MkStatus ZX_ERR_CANCELED kCanceledDueToOtherError (reason_ status) (error_ status)).

Definition ErrorFromUnbindInfo (info : UnbindInfo) : option Status :=
  r ← reason info;
  fatal ← IsFatalErrorUniversal r;
  if (fatal : bool) then Some (ToError info) else Canceled info.

(** [OneWayStatus] asserts that it does not carry "peer closed". *)
Definition OneWayStatus (other : Status) : option Status := if is_peer_closed other then None else Some other.

Definition OneWayErrorFromUnbindInfo (info : UnbindInfo) : option Status :=
  error ← ErrorFromUnbindInfo info;
  if is_peer_closed error then OneWayStatus Ok else OneWayStatus error.

Record DispatchError := { info : UnbindInfo; origin : ErrorOrigin }.

Definition RequiresImmediateTeardown (e : DispatchError) : option bool :=
  match origin e with
  | kSend => r ← reason (info e); Some (negb (bool_decide (r = kPeerClosedWhileReading)))
  | kReceive => Some true
  end.

(** The reasons a binding can be torn down for. *)
Definition concrete (i : UnbindInfo) : Prop := is_Some (IsFatalErrorUniversal (reason_ i)).

#[export] Instance concrete_dec i : Decision (concrete i).
Proof. unfold concrete. apply _. Defined.
End Status.
