(* ===== verification/Client.v ===== *)
(** * The FIDL client

    Models src/fidl/cpp/wire/client_base.cc and client_base.h: how a client mints
    transaction ids, keeps the contexts of the calls that wait for a reply, matches
    replies to them, and tells every caller what became of its call.

    The tree in which the contexts wait is used through the interface [ContextSet]; the
    file ClientWavl.v shows that the WAVL tree implements it.  The doubly linked list of
    <zircon/listnode.h>, which is not part of the repository, is the interface [ListNode].
    A failed assertion or an abort makes an operation undefined. *)

From stdpp Require Import gmap fin_sets functions.
From S2P Require Import Prelude FidlTypes FidlStatus.

(** ** What the client uses *)

(** A container of contexts keyed by their transaction ids.  Its state includes the nodes
    that are embedded in the contexts; the ids are in the contexts themselves, so each
    operation is given the function that reads them. *)
Class ContextSet := {
  cs_state : Type;
  cs_in_container : N -> cs_state -> option bool;
  cs_is_empty : cs_state -> bool;
  cs_size : cs_state -> Z;
  cs_insert_or_find : (N -> Z) -> N -> cs_state -> option (bool * cs_state);
  cs_erase_key : (N -> Z) -> Z -> cs_state -> option (option N * cs_state);
  cs_erase : (N -> Z) -> N -> cs_state -> option cs_state;
  cs_clear : cs_state -> option cs_state;
}.

(** [cs_holds key s X]: the container holds the contexts [X], whose keys differ;
    [cs_idle s n]: the node of [n] is valid and in no container. *)
Class ContextSetLaws (C : ContextSet) := {
  cs_holds : (N -> Z) -> cs_state -> gset N -> Prop;
  cs_idle : cs_state -> N -> Prop;
  cs_ext key key' s X : (forall n, n ∈ X -> key n = key' n) -> cs_holds key s X -> cs_holds key' s X;
  cs_key_inj key s X m n : cs_holds key s X -> m ∈ X -> n ∈ X -> key m = key n -> m = n;
  cs_idle_out key s X n : cs_holds key s X -> cs_idle s n -> n ∉ X;
  cs_in_container_true key s X n : cs_holds key s X -> n ∈ X -> cs_in_container n s = Some true;
  cs_in_container_false s n : cs_idle s n -> cs_in_container n s = Some false;
  cs_size_spec key s X : cs_holds key s X -> cs_size s = wrap 64 (Z.of_nat (size X));
  cs_is_empty_spec key s X : cs_holds key s X -> cs_is_empty s = bool_decide (X = ∅);
  cs_insert_spec key s X n : cs_holds key s X -> cs_idle s n ->
    exists b s', cs_insert_or_find key n s = Some (b, s') /\
      (if b : bool then (forall m, m ∈ X -> key m <> key n) /\ cs_holds key s' ({[n]} ∪ X)
       else (exists m, m ∈ X /\ key m = key n) /\ cs_holds key s' X /\ cs_idle s' n) /\
      forall m, m <> n -> cs_idle s m -> cs_idle s' m;
  cs_erase_key_spec key s X k : cs_holds key s X ->
    exists r s', cs_erase_key key k s = Some (r, s') /\
      match r with
      | Some n => n ∈ X /\ key n = k /\ cs_holds key s' (X ∖ {[n]}) /\ cs_idle s' n
      | None => (forall n, n ∈ X -> key n <> k) /\ cs_holds key s' X
      end /\ forall m, cs_idle s m -> cs_idle s' m;
  cs_erase_spec key s X n : cs_holds key s X -> n ∈ X ->
    exists s', cs_erase key n s = Some s' /\ cs_holds key s' (X ∖ {[n]}) /\ cs_idle s' n /\
      forall m, cs_idle s m -> cs_idle s' m;
  cs_clear_spec key s X : cs_holds key s X ->
    exists s', cs_clear s = Some s' /\ cs_holds key s' ∅ /\ (forall m, m ∈ X \/ cs_idle s m -> cs_idle s' m);
}.

(** The nodes of the lists: the head [delete_list_] of the client, the head of the local
    list of [ReleaseResponseContexts], and the nodes embedded in the contexts. *)
Inductive lnode := DeleteList | LocalList | Node (n : N).
#[export] Instance lnode_eq_dec : EqDecision lnode.
Proof. solve_decision. Defined.

Class ListNode := {
  lists : Type;
  list_add_tail : lnode -> lnode -> lists -> lists;
  list_delete : lnode -> lists -> lists;
  list_move : lnode -> lnode -> lists -> lists;
  (** the [next] field *)
  list_next : lnode -> lists -> lnode;
}.

Definition node_or (h : lnode) (o : option N) : lnode := match o with Some n => Node n | None => h end.

(** [lists_are L d c]: the list of the client is [d], the local list is [c], and no
    context is in both. *)
Class ListNodeLaws (L : ListNode) := {
  lists_are : lists -> list N -> list N -> Prop;
  list_add_tail_spec s d c n : lists_are s d c -> n ∉ d -> n ∉ c ->
    lists_are (list_add_tail DeleteList (Node n) s) (d ++ [n]) c;
  list_delete_spec s d1 d2 c n : lists_are s (d1 ++ n :: d2) c -> lists_are (list_delete (Node n) s) (d1 ++ d2) c;
  list_delete_local_spec s d c1 c2 n :
    lists_are s d (c1 ++ n :: c2) -> lists_are (list_delete (Node n) s) d (c1 ++ c2);
  list_move_spec s d : lists_are s d [] -> lists_are (list_move DeleteList LocalList s) [] d;
  list_next_head s d c : lists_are s d c -> list_next LocalList s = node_or LocalList (head c);
  list_next_node s d c1 c2 n : lists_are s d (c1 ++ n :: c2) -> list_next (Node n) s = node_or LocalList (head c2);
  lists_are_NoDup s d c : lists_are s d c -> NoDup (d ++ c);
}.

(** ** Messages *)

(** The transport-level facts the client reads from a message; [kFidlOrdinalEpitaph] is in
    <zircon/fidl.h>. *)
Record IncomingMessage := { hdr_txid : Z; hdr_ordinal : Z; epitaph_error : Z; payload : list Z }.

Class FidlOrdinals := { kFidlOrdinalEpitaph : Z }.

Definition maybe_epitaph {ords : FidlOrdinals} (msg : IncomingMessage) : option Z :=
  if hdr_ordinal msg =? kFidlOrdinalEpitaph then Some (epitaph_error msg) else None.

(** A message to be sent: its status and the transaction id in its header.  The generated
    bindings make it transactional, with a header and for the transport of the client. *)
Record OutgoingMessage := { out_status : Status; out_txid : Z }.

Section Client.
Context {zx : ZxErrors} {ords : FidlOrdinals} {cs : ContextSet} {ln : ListNode}.

(** What a context is told: an error or a message. *)
Inductive result := Failed (error : Status) | Received (msg : IncomingMessage).

(** What the client does to the world outside, in order: calls of
    [ResponseContext::OnRawResult], error deliveries handed to the dispatcher, messages
    written, errors reported to the binding, and the calls of the error handler and of the
    teardown observer. *)
Inductive event :=
  | OnRawResult (n : N) (r : result)
  | Posted (n : N) (error : Status)
  | Written (txid : Z)
  | HandleError (e : DispatchError)
  | on_fidl_error (info : UnbindInfo)
  | Notify.

(** The client and the contexts: [txid_] is the field of each context. *)
Record ClientBase := {
  contexts_ : cs_state;
  delete_list_ : lists;
  txid_base_ : Z;
  txid_ : N -> Z;
  events : list event;
}.

Abbreviation C := (ST ClientBase).

Definition set_contexts (s : cs_state) (c : ClientBase) : ClientBase :=
  {| contexts_ := s; delete_list_ := delete_list_ c; txid_base_ := txid_base_ c; txid_ := txid_ c; events := events c |}.
Definition on_lists (f : lists -> lists) (c : ClientBase) : ClientBase :=
  {| contexts_ := contexts_ c; delete_list_ := f (delete_list_ c); txid_base_ := txid_base_ c; txid_ := txid_ c;
     events := events c |}.
Definition set_txids (base : Z) (n : N) (txid : Z) (c : ClientBase) : ClientBase :=
  {| contexts_ := contexts_ c; delete_list_ := delete_list_ c; txid_base_ := base; txid_ := <[n := txid]> (txid_ c);
     events := events c |}.
Definition emit (e : event) : C unit := modify (fun c =>
  {| contexts_ := contexts_ c; delete_list_ := delete_list_ c; txid_base_ := txid_base_ c; txid_ := txid_ c;
     events := events c ++ [e] |}).

Definition on_contexts {A} (f : (N -> Z) -> cs_state -> option (A * cs_state)) : C A := fun c =>
  '(a, s) ← f (txid_ c) (contexts_ c); Some (a, set_contexts s c).

Definition ZX_ASSERT (b : bool) : C unit := if b then mret tt else undefined.

Definition kUserspaceTxidMask : Z := 0x7FFFFFFF.

(** *** Minting transaction ids *)

(** The inner loop: the next id that is not zero. *)
Fixpoint next_txid (fuel : nat) (context : N) : C unit :=
  match fuel with
  | O => undefined
  | S fuel =>
      base ← gets txid_base_;
      let base := base ⊕[32] 1 in
      let txid := Z.land base kUserspaceTxidMask in
      modify (set_txids base context txid) ;;
      if txid =? 0 then next_txid fuel context else mret tt
  end.

(** The outer loop: the first such id that no waiting context has. *)
Fixpoint mint_loop (fuel : nat) (context : N) : C unit :=
  match fuel with
  | O => undefined
  | S fuel =>
      next_txid 2 context ;;
      inserted ← on_contexts (fun key => cs_insert_or_find key context);
      if (inserted : bool) then mret tt else mint_loop fuel context
  end.

(** Every failed turn finds a different waiting context, so one turn more than there are
    of them is enough. *)
Definition PrepareAsyncTxn (context : N) : C unit :=
  count ← gets (fun c => cs_size (contexts_ c));
  mint_loop (Z.to_nat count + 1) context ;;
  modify (on_lists (list_add_tail DeleteList (Node context))).

Definition ForgetAsyncTxn (context : N) : C unit :=
  s ← gets contexts_;
  contained ← lift (cs_in_container context s);
  ZX_ASSERT contained ;;
  on_contexts (fun key s => s' ← cs_erase key context s; Some (tt, s')) ;;
  modify (on_lists (list_delete (Node context))).

(** *** Telling a context *)

(** [OnError] makes an incoming message out of the error, which asserts that it is one. *)
Definition OnError (context : N) (error : Status) : C unit :=
  ZX_ASSERT (negb (status error =? ZX_OK)) ;;
  emit (OnRawResult context (Failed error)).

(** [post_status] is what [async_post_task] returned. *)
Definition TryAsyncDeliverError (error : Status) (context : N) (post_status : Z) : C unit :=
  if negb (post_status =? ZX_OK) then OnError context error else emit (Posted context error).

(** The task that [TryAsyncDeliverError] posts. *)
Definition AsyncErrorDelivery (context : N) (error : Status) : C unit := OnError context error.

(** [list_for_every_safe] over the local list: [node] is the current node and [temp_node]
    the next one, read before [node] is unlinked. *)
Fixpoint release_loop (fuel : nat) (info : UnbindInfo) (node temp_node : lnode) : C unit :=
  match node with
  | Node context =>
      match fuel with
      | O => undefined
      | S fuel =>
          modify (on_lists (list_delete node)) ;;
          r ← lift (reason info);
          ZX_ASSERT (negb (bool_decide (r = kClose))) ;;
          error ← lift (ErrorFromUnbindInfo info);
          OnError context error ;;
          next ← gets (fun c => list_next temp_node (delete_list_ c));
          release_loop fuel info temp_node next
      end
  | _ => mret tt
  end.

Definition ReleaseResponseContexts (info : UnbindInfo) : C unit :=
  count ← gets (fun c => cs_size (contexts_ c));
  on_contexts (fun key s => s' ← cs_clear s; Some (tt, s')) ;;
  modify (on_lists (list_move DeleteList LocalList)) ;;
  node ← gets (fun c => list_next LocalList (delete_list_ c));
  temp_node ← gets (fun c => list_next node (delete_list_ c));
  release_loop (Z.to_nat count) info node temp_node.

(** [AsyncClientBinding::FinishTeardown]: the binding is gone, tell the contexts, then the
    error handler unless the user asked for the unbinding, then the observer. *)
Definition FinishTeardown (has_error_handler : bool) (info : UnbindInfo) : C unit :=
  ReleaseResponseContexts info ;;
  r ← lift (reason info);
  (if negb (bool_decide (r = kUnbind)) && has_error_handler then emit (on_fidl_error info) else mret tt) ;;
  emit Notify.

(** *** Sending *)

(** What [binding_.lock_or_error()] finds: no binding was ever set, a live binding that
    still has its transport or not, or the reason why the binding is gone. *)
Inductive locked := Invalid | Alive (has_transport : bool) | Gone (reason : UnbindInfo).

Definition GetTransportOrError (binding : locked) : option (unit + UnbindInfo) :=
  match binding with
  | Alive true => Some (inl tt)
  | Alive false => Some (inr Unbind)
  | Gone info => Some (inr info)
  | Invalid => None
  end.

Definition HandleSendError (binding : locked) (error : Status) : C unit :=
  match binding with
  | Alive _ => info ← lift (UnbindInfo_of error); emit (HandleError {| info := info; origin := kSend |})
  | _ => mret tt
  end.

Definition set_txid (message : OutgoingMessage) (txid : Z) : OutgoingMessage :=
  if ok (out_status message) then {| out_status := out_status message; out_txid := txid |} else message.

(** The write of a channel does not tell that the peer has closed; [status] is what the
    system call returned. *)
Definition channel_write (status : Z) : Z := if status =? ZX_ERR_PEER_CLOSED then ZX_OK else status.

(** [write_status] is what the transport's write returned. *)
Definition Write (message : OutgoingMessage) (write_status : Z) : C OutgoingMessage :=
  if negb (ok (out_status message)) then mret message
  else
    emit (Written (out_txid message)) ;;
    if negb (write_status =? ZX_OK)
    then error ← lift (TransportError write_status None);
         mret {| out_status := error; out_txid := out_txid message |}
    else mret message.

(** The part of [SendTwoWay] that holds the transport. *)
Definition send_with_transport (message : OutgoingMessage) (context : N) (write_status : Z) : C OutgoingMessage :=
  PrepareAsyncTxn context ;;
  txid ← gets (fun c => txid_ c context);
  Write (set_txid message txid) write_status.

(** The part of [SendTwoWay] that reports a failed write. *)
Definition send_failed (message : OutgoingMessage) (context : N) (post_status : Z) (binding : locked) : C unit :=
  ForgetAsyncTxn context ;;
  e ← lift (error (out_status message));
  TryAsyncDeliverError e context post_status ;;
  HandleSendError binding e.

(** [binding] is what the client finds when the call starts and [binding'] what it finds
    when it reports the error. *)
Definition SendTwoWay (binding binding' : locked) (message : OutgoingMessage) (context : N)
    (write_status post_status : Z) : C unit :=
  t ← lift (GetTransportOrError binding);
  match t with
  | inl _ =>
      message ← send_with_transport message context write_status;
      if negb (ok (out_status message)) then send_failed message context post_status binding' else mret tt
  | inr info => e ← lift (ErrorFromUnbindInfo info); TryAsyncDeliverError e context post_status
  end.

Definition SendOneWay (binding binding' : locked) (message : OutgoingMessage) (write_status : Z) : C Status :=
  t ← lift (GetTransportOrError binding);
  match t with
  | inl _ =>
      message ← Write (set_txid message 0) write_status;
      if negb (ok (out_status message)) then
        e ← lift (error (out_status message));
        HandleSendError binding' e ;;
        lift (OneWayStatus e)
      else lift (OneWayStatus Ok)
  | inr info => lift (OneWayErrorFromUnbindInfo info)
  end.

Definition GetTransactionCount : C Z := gets (fun c => cs_size (contexts_ c)).

(** *** Receiving *)

(** [dispatch_event] is the status of the user's event handler, and [decoded] what the
    context's [OnRawResult] returns: an error when the reply does not decode. *)
Definition Dispatch (msg : IncomingMessage) (dispatch_event : Status) (decoded : option UnbindInfo)
    : C (option UnbindInfo) :=
  match maybe_epitaph msg with
  | Some error => mret (Some (PeerClosed error))
  | None =>
      if hdr_txid msg =? 0 then
        if ok dispatch_event then mret None
        else i ← lift (UnbindInfo_of dispatch_event); mret (Some i)
      else
        context ← on_contexts (fun key => cs_erase_key key (hdr_txid msg));
        match context with
        | Some context =>
            modify (on_lists (list_delete (Node context))) ;;
            emit (OnRawResult context (Received msg)) ;;
            mret decoded
        | None => mret (Some (UnexpectedMessage ZX_ERR_NOT_FOUND (Some kErrorUnknownTxId)))
        end
  end.

(** [teardown] is the outcome of the binding's [StartTeardown]: the transport it gave
    back, if any, or [None] when the teardown was already under way. *)
Definition AsyncTeardown (binding : locked) (teardown : option bool) : C (Status + bool) :=
  match binding with
  | Alive _ =>
      match teardown with
      | None => mret (inl Unbound)
      | Some transport =>
          s ← gets contexts_;
          if negb (cs_is_empty s) then mret (inl PendingTwoWayCallPreventsUnbind) else mret (inr transport)
      end
  | Gone info => mret (inl (ToError info))
  | Invalid => undefined
  end.

End Client.
Arguments ClientBase {cs ln}.
