(* ===== verification/ClientCorrect.v ===== *)
(** * The FIDL client keeps its books

    The invariant of the client of Client.v and what each of its operations does to it:
    the container and the list hold the same contexts, under different transaction ids
    that are not zero and fit in 31 bits. *)

From stdpp Require Import gmap fin_sets functions.
From S2P Require Import Prelude FidlTypes FidlStatus Client.

Section Correct.
Context {zx : ZxErrors} {zlaws : ZxErrorsLaws zx} {ords : FidlOrdinals}.
Context {cs : ContextSet} {claws : ContextSetLaws cs} {ln : ListNode} {llaws : ListNodeLaws ln}.
(** The contexts that exist. *)
Context (U : N -> Prop).

(** How many ids there are: 1 to 2^31 - 1. *)
Definition num_txids : Z := 2 ^ 31 - 1.

Definition txid_ok (t : Z) : Prop := 0 < t <= num_txids.

(** The client waits for the replies to the contexts [d], in the order of the calls. *)
Record inv (c : ClientBase) (d : list N) : Prop := {
  inv_set : cs_holds (txid_ c) (contexts_ c) (list_to_set d);
  inv_list : lists_are (delete_list_ c) d [];
  inv_txid n : n ∈ d -> txid_ok (txid_ c n);
  inv_base : fits 32 (txid_base_ c);
  inv_exist n : n ∈ d -> U n;
  inv_idle n : U n -> n ∉ d -> cs_idle (contexts_ c) n;
}.

Lemma inv_NoDup c d : inv c d -> NoDup d.
Proof. intros H. pose proof (lists_are_NoDup _ _ _ (inv_list _ _ H)) as Hd. by rewrite app_nil_r in Hd. Qed.

Lemma inv_size c d : inv c d -> Z.of_nat (length d) < 2 ^ 64 -> cs_size (contexts_ c) = Z.of_nat (length d).
Proof.
  intros H Hl. rewrite (cs_size_spec _ _ _ (inv_set _ _ H)), (size_list_to_set _ (inv_NoDup _ _ H)).
  apply wrap_small. unfold fits. lia.
Qed.

(** No two waiting calls share an id. *)
Lemma inv_txid_inj c d m n : inv c d -> m ∈ d -> n ∈ d -> txid_ c m = txid_ c n -> m = n.
Proof. intros H Hm Hn. apply (cs_key_inj _ _ _ _ _ (inv_set _ _ H)); by apply elem_of_list_to_set. Qed.

(** *** Minting ids *)

(** [c'] is [c] but for the id of [n] and the counter. *)
Record remint (n : N) (c c' : ClientBase) : Prop := {
  remint_contexts : contexts_ c' = contexts_ c;
  remint_lists : delete_list_ c' = delete_list_ c;
  remint_events : events c' = events c;
  remint_other m : m <> n -> txid_ c' m = txid_ c m;
}.

(** The id that follows the counter value [b], [k] turns later. *)
Definition candidate (b : Z) (k : nat) : Z := (b mod 2 ^ 31 + Z.of_nat k) mod num_txids + 1.

Lemma candidate_ok b k : txid_ok (candidate b k).
Proof. unfold txid_ok, candidate, num_txids. pose proof (Z.mod_pos_bound (b mod 2 ^ 31 + Z.of_nat k) (2 ^ 31 - 1)). lia. Qed.

Lemma candidate_S b b' k : b' mod 2 ^ 31 = candidate b 0 -> candidate b' k = candidate b (S k).
Proof.
  unfold candidate, num_txids. intros ->. rewrite Z.add_0_r. f_equal.
  rewrite <- Z.add_assoc, Zplus_mod_idemp_l. f_equal. lia.
Qed.

Lemma candidate_inj b j k :
  Z.of_nat j < num_txids -> Z.of_nat k < num_txids -> candidate b j = candidate b k -> j = k.
Proof.
  unfold candidate, num_txids. intros Hj Hk H.
  assert ((b mod 2 ^ 31 + Z.of_nat j) mod (2 ^ 31 - 1) = (b mod 2 ^ 31 + Z.of_nat k) mod (2 ^ 31 - 1)) as E by lia.
  revert E. pose proof (Z.mod_pos_bound b (2 ^ 31)). Z.div_mod_to_equations. nia.
Qed.

Lemma mask_mod b : Z.land b kUserspaceTxidMask = b mod 2 ^ 31.
Proof. change kUserspaceTxidMask with (Z.ones 31). by apply Z.land_ones. Qed.

Lemma wrap_mod31 b : (b ⊕[32] 1) mod 2 ^ 31 = (b mod 2 ^ 31 + 1) mod 2 ^ 31.
Proof. unfold wrap. Z.div_mod_to_equations. lia. Qed.

Lemma next_txid_ok n c : fits 32 (txid_base_ c) ->
  wp (next_txid 2 n) c (fun _ c' =>
    remint n c c' /\ txid_ c' n = candidate (txid_base_ c) 0 /\ fits 32 (txid_base_ c') /\
    txid_base_ c' mod 2 ^ 31 = candidate (txid_base_ c) 0).
Proof.
  intros Hb. set (b := txid_base_ c) in *.
  assert (Hr : (b mod 2 ^ 31 + 1) mod 2 ^ 31 = if decide (b mod 2 ^ 31 = num_txids) then 0 else candidate b 0).
  { unfold candidate, num_txids. rewrite Z.add_0_r. pose proof (Z.mod_pos_bound b (2 ^ 31) ltac:(lia)). case_decide as E.
    - rewrite E. reflexivity.
    - rewrite (Z.mod_small (b mod 2 ^ 31)) by lia. rewrite Z.mod_small by lia. done. }
  cbn [next_txid]. apply wp_bind, wp_gets. cbv zeta. apply wp_bind, wp_modify. fold b.
  rewrite mask_mod, wrap_mod31, Hr. pose proof (wrap_fits 32 (b + 1) ltac:(lia)) as Hf. case_decide as E.
  - (* the counter is at the end of the range: zero is skipped *)
    cbn [Z.eqb]. apply wp_bind, wp_gets. cbn [txid_base_ set_txids]. apply wp_bind, wp_modify.
    assert (Hc : candidate b 0 = 1) by (unfold candidate; rewrite Z.add_0_r, E, Z_mod_same_full; reflexivity).
    assert (H1 : ((b ⊕[32] 1) ⊕[32] 1) mod 2 ^ 31 = 1).
    { rewrite wrap_mod31, wrap_mod31, Hr. reflexivity. }
    rewrite mask_mod, H1. cbn [Z.eqb]. apply wp_ret. cbn [txid_base_ set_txids txid_]. rewrite fn_lookup_insert, Hc, H1.
    split; [|split; [done|split; [apply wrap_fits; lia|done]]].
    split; try done. intros m Hm. cbn [set_txids txid_]. by rewrite !fn_lookup_insert_ne by done.
  - pose proof (candidate_ok b 0) as Ho. unfold txid_ok in Ho. rewrite (proj2 (Z.eqb_neq _ _)) by lia.
    apply wp_ret. cbn [txid_base_ set_txids txid_]. rewrite fn_lookup_insert, wrap_mod31, Hr.
    split; [|done]. split; try done. intros m Hm. cbn [set_txids txid_]. by rewrite fn_lookup_insert_ne.
Qed.

(** Re-minting the id of a context that does not wait keeps the books. *)
Lemma inv_remint c c' d n :
  inv c d -> remint n c c' -> n ∉ d -> fits 32 (txid_base_ c') -> inv c' d.
Proof.
  intros [S L T B E I] [Rc Rl _ Ro] Hn Hb.
  assert (Hsame : forall m, m ∈ d -> txid_ c' m = txid_ c m) by (intros m Hm; apply Ro; by intros ->).
  split; rewrite ?Rc, ?Rl; try done.
  - eapply cs_ext; [|exact S]. intros m Hm%elem_of_list_to_set. by rewrite Hsame.
  - intros m Hm. rewrite Hsame by done. auto.
Qed.

(** What minting leaves behind, apart from the books. *)
Definition minted (n : N) (c c' : ClientBase) : Prop :=
  delete_list_ c' = delete_list_ c /\ events c' = events c /\ forall m, m <> n -> txid_ c' m = txid_ c m.

(** Distinct ids of waiting contexts are at most as many as those contexts. *)
Lemma tried_bound c d b j :
  Z.of_nat j <= num_txids -> (forall k, (k < j)%nat -> exists m, m ∈ d /\ txid_ c m = candidate b k) -> (j <= length d)%nat.
Proof.
  intros Hj Hin. cut (candidate b <$> seq 0 j ⊆+ txid_ c <$> d).
  { intros H%submseteq_length. by rewrite !length_fmap, length_seq in H. }
  apply NoDup_submseteq.
  - apply NoDup_fmap_2_strong; [|apply NoDup_seq]. intros x y Hx%elem_of_seq Hy%elem_of_seq. apply candidate_inj; lia.
  - intros x (k & -> & Hk%elem_of_seq)%list_elem_of_fmap. destruct (Hin k) as (m & Hm & <-); [lia|].
    by apply list_elem_of_fmap_2.
Qed.

Lemma mint_loop_ok fuel n d c0 b : forall c j,
  inv c d -> U n -> n ∉ d -> minted n c0 c -> Z.of_nat (length d) < num_txids ->
  (j + fuel = length d + 1)%nat -> (forall k, candidate (txid_base_ c) k = candidate b (j + k)) ->
  (forall k, (k < j)%nat -> exists m, m ∈ d /\ txid_ c0 m = candidate b k) ->
  wp (mint_loop fuel n) c (fun _ c' =>
    cs_holds (txid_ c') (contexts_ c') ({[n]} ∪ list_to_set d) /\ txid_ok (txid_ c' n) /\ fits 32 (txid_base_ c') /\
    (forall m, U m -> m <> n -> m ∉ d -> cs_idle (contexts_ c') m) /\ minted n c0 c').
Proof.
  induction fuel as [|fuel IH]; intros c j Hi HU Hn Hm Hd Hj Hb Htried.
  { assert (j <= length d)%nat by (apply (tried_bound c0 d b j); [lia|done]). lia. }
  cbn [mint_loop]. apply wp_bind. eapply wp_mono; [apply next_txid_ok, (inv_base _ _ Hi)|].
  intros _ c1 (Hr & Ht & Hf & Hbase). pose proof (inv_remint _ _ _ _ Hi Hr Hn Hf) as Hi1.
  assert (Hm1 : minted n c0 c1).
  { destruct Hr as [_ Rl Re Ro], Hm as (Ml & Me & Ho). split; [by rewrite Rl|]. split; [by rewrite Re|].
    intros m Hne. rewrite Ro by done. auto. }
  destruct (cs_insert_spec _ _ _ n (inv_set _ _ Hi1) (inv_idle _ _ Hi1 n HU Hn)) as (ins & s' & E & Hins & Hidle).
  apply wp_bind. exists ins, (set_contexts s' c1). split; [by unfold on_contexts; rewrite E|].
  destruct ins.
  - destruct Hins as [_ Hh]. apply wp_ret. cbn [set_contexts txid_ contexts_ txid_base_]. rewrite Ht.
    split; [done|]. split; [apply candidate_ok|]. split; [done|]. split; [|done].
    intros m Hum Hne Hmd. apply Hidle; [done|]. by apply (inv_idle _ _ Hi1).
  - destruct Hins as ((m & Hmd%elem_of_list_to_set & Hkey) & Hh & Hid). apply (IH _ (S j)); try done; [|lia| |].
    + destruct Hi1 as [S1 L1 T1 B1 E1 I1]. split; try done. intros x Hx Hxd. cbn [set_contexts contexts_].
      destruct (decide (x = n)) as [->|Hne]; [done|]. auto.
    + intros k. cbn [set_contexts txid_base_]. rewrite (candidate_S _ _ k Hbase), Hb. f_equal. lia.
    + intros k Hk. destruct (decide (k = j)) as [->|]; [|apply Htried; lia].
      exists m. split; [done|]. assert (m <> n) by (by intros ->).
      destruct Hm1 as (_ & _ & Ho1). rewrite <- Ho1, Hkey, Ht, Hb by done. f_equal. lia.
Qed.

(** [PrepareAsyncTxn] ends, gives the context an id that no waiting call has, and files it
    last. *)
Lemma PrepareAsyncTxn_ok n d c :
  inv c d -> U n -> n ∉ d -> Z.of_nat (length d) < num_txids ->
  wp (PrepareAsyncTxn n) c (fun _ c' => inv c' (d ++ [n]) /\ events c' = events c /\ forall m, m <> n -> txid_ c' m = txid_ c m).
Proof.
  intros Hi HU Hn Hd. unfold PrepareAsyncTxn. apply wp_bind, wp_gets.
  rewrite (inv_size _ _ Hi) by (unfold num_txids in Hd; lia). rewrite Nat2Z.id. apply wp_bind.
  eapply wp_mono; [apply (mint_loop_ok _ n d c (txid_base_ c) c 0); try done; lia|].
  intros _ c1 (Hh & Ht & Hf & Hidle & Hl & He & Ho). apply wp_modify. split; [|done].
  destruct Hi as [S L T B E I]. split; cbn [on_lists contexts_ txid_ txid_base_ delete_list_]; try done.
  - rewrite list_to_set_app_L. cbn [list_to_set]. rewrite union_empty_r_L, (union_comm_L (list_to_set d)). exact Hh.
  - rewrite Hl. apply list_add_tail_spec; [done|done|apply not_elem_of_nil].
  - intros m [Hm| ->%list_elem_of_singleton]%elem_of_app; [|done]. rewrite Ho; [auto|by intros ->].
  - intros m [Hm| ->%list_elem_of_singleton]%elem_of_app; auto.
  - intros m Hum Hm. apply not_elem_of_app in Hm as [Hm1 Hm2]. apply Hidle; [done| |done].
    intros ->. apply Hm2. by apply list_elem_of_singleton.
Qed.
(** *** Forgetting and telling *)

(** Taking one context out of the books. *)
Lemma inv_remove c d1 n d2 s' l' :
  inv c (d1 ++ n :: d2) -> cs_holds (txid_ c) s' (list_to_set (d1 ++ n :: d2) ∖ {[n]}) -> cs_idle s' n ->
  (forall m, cs_idle (contexts_ c) m -> cs_idle s' m) -> lists_are l' (d1 ++ d2) [] ->
  forall c', contexts_ c' = s' -> delete_list_ c' = l' -> txid_ c' = txid_ c -> txid_base_ c' = txid_base_ c ->
  inv c' (d1 ++ d2).
Proof.
  intros Hi Hh Hn Hf Hl c' Es El Et Eb. pose proof (inv_NoDup _ _ Hi) as Hd. destruct Hi as [S L T B E I].
  assert (Hnd : n ∉ d1 ++ d2).
  { rewrite <- Permutation_middle in Hd. by apply NoDup_cons in Hd as [? _]. }
  assert (Hsub : forall m, m ∈ d1 ++ d2 -> m ∈ d1 ++ n :: d2) by set_solver.
  split; rewrite ?Es, ?El, ?Et, ?Eb; auto.
  - replace (list_to_set (d1 ++ d2) : gset N) with (list_to_set (d1 ++ n :: d2) ∖ {[n]} : gset N); [done|]. set_solver.
  - intros m Hum Hm. destruct (decide (m = n)) as [->|Hne]; [done|]. apply Hf, I; [done|]. set_solver.
Qed.

Lemma ForgetAsyncTxn_ok d1 n d2 c :
  inv c (d1 ++ n :: d2) ->
  wp (ForgetAsyncTxn n) c (fun _ c' => inv c' (d1 ++ d2) /\ events c' = events c /\ txid_ c' = txid_ c).
Proof.
  intros Hi. assert (Hn : n ∈ (list_to_set (d1 ++ n :: d2) : gset N)) by set_solver.
  unfold ForgetAsyncTxn. apply wp_bind, wp_gets. apply wp_bind.
  eapply wp_lift; [exact (cs_in_container_true _ _ _ _ (inv_set _ _ Hi) Hn)|]. cbn [ZX_ASSERT]. apply wp_bind, wp_ret.
  destruct (cs_erase_spec _ _ _ _ (inv_set _ _ Hi) Hn) as (s' & Es & Hh & Hid & Hf).
  apply wp_bind. exists tt, (set_contexts s' c). split; [by unfold on_contexts; rewrite Es|].
  apply wp_modify. split; [|done].
  eapply (inv_remove c); try done. cbn [on_lists set_contexts delete_list_]. by apply list_delete_spec, (inv_list _ _ Hi).
Qed.

(** An error that a context can be told. *)
Definition tellable (e : Status) : Prop := FidlStatus.status e <> ZX_OK.

Definition with_event (e : event) (c : ClientBase) : ClientBase :=
  {| contexts_ := contexts_ c; delete_list_ := delete_list_ c; txid_base_ := txid_base_ c; txid_ := txid_ c;
     events := events c ++ [e] |}.

Lemma inv_with_event c d e : inv c d -> inv (with_event e c) d.
Proof. by intros []. Qed.

Lemma wp_emit e c (Q : unit -> ClientBase -> Prop) : Q tt (with_event e c) -> wp (emit e) c Q.
Proof. intros H. by apply wp_modify. Qed.

Lemma wp_OnError n e c (Q : unit -> ClientBase -> Prop) :
  tellable e -> Q tt (with_event (OnRawResult n (Failed e)) c) -> wp (OnError n e) c Q.
Proof.
  intros He H. unfold OnError. rewrite (proj2 (Z.eqb_neq _ _) He). cbn [negb ZX_ASSERT]. by apply wp_bind, wp_ret, wp_emit.
Qed.

(** How an error reaches a context: at once, or through the dispatcher. *)
Definition delivery (n : N) (e : Status) (post_status : Z) : event :=
  if post_status =? ZX_OK then Posted n e else OnRawResult n (Failed e).

Lemma wp_TryAsyncDeliverError e n post c (Q : unit -> ClientBase -> Prop) :
  tellable e -> Q tt (with_event (delivery n e post) c) -> wp (TryAsyncDeliverError e n post) c Q.
Proof.
  intros He H. unfold TryAsyncDeliverError, delivery in *. destruct (post =? ZX_OK); cbn [negb]; [by apply wp_emit|].
  by apply wp_OnError.
Qed.

Lemma zx_neq_ok e : e ∈ [ZX_ERR_CANCELED; ZX_ERR_NOT_FOUND; ZX_ERR_PEER_CLOSED] -> e <> ZX_OK.
Proof.
  intros He ->. pose proof zx_errors_distinct as Hd. apply NoDup_cons in Hd as [Hd _]. apply Hd.
  rewrite !elem_of_cons in *. naive_solver.
Qed.

(** The reasons for which a client's binding goes away, with a status that says so. *)
Definition deliverable (info : UnbindInfo) : Prop :=
  concrete info /\ reason_ info <> kClose /\ (reason_ info = kUnbind \/ status_ info <> ZX_OK).

Lemma ErrorFromUnbindInfo_ok info : deliverable info ->
  exists e, ErrorFromUnbindInfo info = Some e /\ tellable e /\ reason info = Some (reason_ info).
Proof.
  intros ([b Hb] & _ & Hs). unfold ErrorFromUnbindInfo, Canceled, ToError, tellable, FidlStatus.status, reason in *.
  assert (ZX_ERR_CANCELED <> ZX_OK) by (apply zx_neq_ok; by left).
  destruct info as [st [] u er]; simpl in *; simplify_eq/=; eexists; split_and!; try done; simpl;
    naive_solver.
Qed.

(** *** Releasing *)

Definition told (e : Status) (n : N) : event := OnRawResult n (Failed e).

Lemma release_loop_ok info e : deliverable info -> ErrorFromUnbindInfo info = Some e -> tellable e ->
  forall rest fuel temp c, (length rest <= fuel)%nat -> lists_are (delete_list_ c) [] rest ->
  temp = node_or LocalList (head (tail rest)) ->
  wp (release_loop fuel info (node_or LocalList (head rest)) temp) c (fun _ c' =>
    contexts_ c' = contexts_ c /\ lists_are (delete_list_ c') [] [] /\ txid_ c' = txid_ c /\
    txid_base_ c' = txid_base_ c /\ events c' = events c ++ (told e <$> rest)).
Proof.
  intros Hd He Ht. destruct (ErrorFromUnbindInfo_ok info Hd) as (? & _ & _ & Hr). destruct Hd as (_ & Hc & _).
  induction rest as [|n rest IH]; intros fuel temp c Hf Hl ->.
  { destruct fuel; apply wp_ret; cbn [fmap list_fmap]; rewrite app_nil_r; split_and!; done. }
  destruct fuel as [|fuel]; [simpl in Hf; lia|]. cbn [head node_or release_loop tail].
  apply wp_bind, wp_modify. apply wp_bind. eapply wp_lift; [exact Hr|]. rewrite bool_decide_false by done.
  cbn [negb ZX_ASSERT]. apply wp_bind, wp_ret. apply wp_bind. eapply wp_lift; [exact He|].
  apply wp_bind, wp_OnError; [done|]. apply wp_bind, wp_gets. cbn [with_event on_lists delete_list_].
  pose proof (list_delete_local_spec _ [] [] rest n Hl) as Hl'. cbn [app] in Hl'.
  eapply wp_mono; [apply (IH fuel); [simpl in Hf; lia|exact Hl'|]|].
  - destruct rest as [|m rest]; cbn [head tail node_or]; [exact (list_next_head _ [] [] Hl')|].
    exact (list_next_node _ [] [] rest m Hl').
  - cbn [with_event on_lists contexts_ txid_ txid_base_ events]. intros _ c' (E1 & E2 & E3 & E4 & E5).
    split_and!; try done. rewrite E5, <- app_assoc. done.
Qed.

(** The list that the loop of [ReleaseResponseContexts] starts from. *)
Lemma list_next_first s c : lists_are s [] c ->
  list_next (node_or LocalList (head c)) s = node_or LocalList (head (tail c)).
Proof.
  destruct c as [|n c]; cbn [head tail node_or]; [exact (list_next_head s [] [])|].
  exact (list_next_node s [] [] c n).
Qed.

(** [ReleaseResponseContexts] tells every waiting context the error, in the order of the
    calls, and leaves the books empty. *)
Lemma ReleaseResponseContexts_ok info e d c :
  inv c d -> Z.of_nat (length d) < 2 ^ 64 -> deliverable info -> ErrorFromUnbindInfo info = Some e ->
  wp (ReleaseResponseContexts info) c (fun _ c' =>
    inv c' [] /\ events c' = events c ++ (told e <$> d) /\ txid_ c' = txid_ c).
Proof.
  intros Hi Hlen Hd He. destruct (ErrorFromUnbindInfo_ok info Hd) as (e' & He' & Ht & _). simplify_eq.
  unfold ReleaseResponseContexts. apply wp_bind, wp_gets. rewrite (inv_size _ _ Hi Hlen), Nat2Z.id.
  destruct (cs_clear_spec _ _ _ (inv_set _ _ Hi)) as (s' & Es & Hh & Hidle).
  apply wp_bind. exists tt, (set_contexts s' c). split; [by unfold on_contexts; rewrite Es|].
  apply wp_bind, wp_modify. apply wp_bind, wp_gets. cbn [on_lists set_contexts delete_list_].
  pose proof (list_move_spec _ _ (inv_list _ _ Hi)) as Hl. rewrite (list_next_head _ _ _ Hl).
  apply wp_bind, wp_gets. cbn [on_lists set_contexts delete_list_]. rewrite (list_next_first _ _ Hl).
  eapply wp_mono; [by apply release_loop_ok|]. cbn [on_lists set_contexts contexts_ txid_ txid_base_ events].
  intros _ c' (E1 & E2 & E3 & E4 & E5). split_and!; [|done|done]. destruct Hi as [S L T B E I].
  split; rewrite ?E1, ?E3, ?E4; try done; [by intros n ?%not_elem_of_nil..|].
  intros n Hu _. apply Hidle. destruct (decide (n ∈ d)); [left; by apply elem_of_list_to_set|right; auto].
Qed.

(** The end of a teardown. *)
Definition teardown_events (has_error_handler : bool) (info : UnbindInfo) : list event :=
  (if negb (bool_decide (reason_ info = kUnbind)) && has_error_handler then [on_fidl_error info] else []) ++ [Notify].

Lemma FinishTeardown_ok h info e d c :
  inv c d -> Z.of_nat (length d) < 2 ^ 64 -> deliverable info -> ErrorFromUnbindInfo info = Some e ->
  wp (FinishTeardown h info) c (fun _ c' =>
    inv c' [] /\ events c' = events c ++ (told e <$> d) ++ teardown_events h info /\ txid_ c' = txid_ c).
Proof.
  intros Hi Hlen Hd He. destruct (ErrorFromUnbindInfo_ok info Hd) as (_ & _ & _ & Hr). unfold FinishTeardown, teardown_events.
  apply wp_bind. eapply wp_mono; [by apply (ReleaseResponseContexts_ok info e d)|]. intros _ c1 (Hi1 & He1 & Ht1).
  apply wp_bind. eapply wp_lift; [exact Hr|]. apply wp_bind. destruct (negb _ && h).
  - apply wp_emit, wp_emit. cbn [with_event events txid_]. rewrite He1, <- !app_assoc. by split_and!; [repeat apply inv_with_event|..].
  - apply wp_ret, wp_emit. cbn [with_event events txid_]. rewrite He1, <- !app_assoc. by split_and!; [apply inv_with_event|..].
Qed.

(** *** Receiving *)

(** A reply goes to the one context that waits under its id, which waits no longer. *)
Lemma Dispatch_reply d1 n d2 c msg ev dec :
  inv c (d1 ++ n :: d2) -> maybe_epitaph msg = None -> hdr_txid msg = txid_ c n ->
  wp (Dispatch msg ev dec) c (fun r c' =>
    inv c' (d1 ++ d2) /\ events c' = events c ++ [OnRawResult n (Received msg)] /\ txid_ c' = txid_ c /\ r = dec).
Proof.
  intros Hi Hep Htx. assert (Hn : n ∈ d1 ++ n :: d2) by set_solver.
  pose proof (inv_txid _ _ Hi n Hn) as [Hpos _]. unfold Dispatch. rewrite Hep, Htx, (proj2 (Z.eqb_neq _ _)) by lia.
  destruct (cs_erase_key_spec _ _ _ (txid_ c n) (inv_set _ _ Hi)) as (r & s' & Es & Hr & Hf).
  destruct r as [m|]; [|destruct Hr as [Hr _]; destruct (Hr n); [by apply elem_of_list_to_set|done]].
  destruct Hr as (Hm%elem_of_list_to_set & Hk & Hh & Hid). assert (m = n) as -> by by apply (inv_txid_inj c (d1 ++ n :: d2)).
  apply wp_bind. exists (Some n), (set_contexts s' c). split; [by unfold on_contexts; rewrite Es|].
  apply wp_bind, wp_modify, wp_bind, wp_emit, wp_ret. split; [|done]. apply inv_with_event.
  eapply (inv_remove c); try done. by apply list_delete_spec, (inv_list _ _ Hi).
Qed.

(** Any other message leaves the books as they are and tells no context: an epitaph and an
    id that nothing waits under end the binding, an event does when its handler failed. *)
Lemma Dispatch_other d c msg ev dec :
  inv c d -> (maybe_epitaph msg <> None \/ forall n, n ∈ d -> hdr_txid msg <> txid_ c n) ->
  (maybe_epitaph msg = None -> hdr_txid msg = 0 -> ok ev = false -> reason_ ev <> kUninitializedReason) ->
  wp (Dispatch msg ev dec) c (fun r c' =>
    inv c' d /\ events c' = events c /\ txid_ c' = txid_ c /\
    r = match maybe_epitaph msg with
        | Some error => Some (PeerClosed error)
        | None => if hdr_txid msg =? 0 then if ok ev then None else Some ev
                  else Some (UnexpectedMessage ZX_ERR_NOT_FOUND (Some kErrorUnknownTxId))
        end).
Proof.
  intros Hi Hno Hev. unfold Dispatch. destruct (maybe_epitaph msg) as [e|] eqn:Hep; [by apply wp_ret|].
  destruct Hno as [|Hno]; [done|]. destruct (Z.eqb_spec (hdr_txid msg) 0) as [H0|H0].
  - destruct (ok ev); [by apply wp_ret|]. apply wp_bind. eapply wp_lift; [|by apply wp_ret].
    unfold UnbindInfo_of, reason. by rewrite bool_decide_false by auto.
  - destruct (cs_erase_key_spec _ _ _ (hdr_txid msg) (inv_set _ _ Hi)) as (r & s' & Es & Hr & Hf).
    destruct r as [m|]; [destruct Hr as (Hm%elem_of_list_to_set & Hk & _); by destruct (Hno m)|].
    apply wp_bind. exists None, (set_contexts s' c). split; [by unfold on_contexts; rewrite Es|].
    apply wp_ret. split_and!; try done. destruct Hr as [_ Hh], Hi as [S L T B E I]. split; try done.
    intros n Hu Hn. apply Hf, I; done.
Qed.

(** *** Sending *)

Lemma not_ok_tellable e : ok e = false -> tellable e.
Proof.
  unfold ok, tellable, FidlStatus.status. intros H%Z.eqb_neq. case_bool_decide; [|done]. apply zx_neq_ok. by left.
Qed.

(** The call finds the binding gone: the context is told why. *)
Lemma SendTwoWay_gone binding binding' info e m n ws ps c (Q : unit -> ClientBase -> Prop) :
  GetTransportOrError binding = Some (inr info) -> deliverable info -> ErrorFromUnbindInfo info = Some e ->
  Q tt (with_event (delivery n e ps) c) -> wp (SendTwoWay binding binding' m n ws ps) c Q.
Proof.
  intros Hb Hd He H. destruct (ErrorFromUnbindInfo_ok info Hd) as (e' & He' & Ht & _). simplify_eq.
  unfold SendTwoWay. apply wp_bind. eapply wp_lift; [exact Hb|]. apply wp_bind. eapply wp_lift; [exact He|].
  by apply wp_TryAsyncDeliverError.
Qed.

(** The status of the message after the write. *)
Definition sent_status (m : OutgoingMessage) (ws : Z) : option Status :=
  if negb (ok (out_status m)) then Some (out_status m)
  else if negb (ws =? ZX_OK) then TransportError ws None else Some (out_status m).

Definition written (m : OutgoingMessage) (txid : Z) : list event := if ok (out_status m) then [Written txid] else [].

Lemma Write_ok m t ws st c (Q : OutgoingMessage -> ClientBase -> Prop) :
  sent_status m ws = Some st ->
  (forall m' c', out_status m' = st -> contexts_ c' = contexts_ c -> delete_list_ c' = delete_list_ c ->
    txid_ c' = txid_ c -> txid_base_ c' = txid_base_ c -> events c' = events c ++ written m t -> Q m' c') ->
  wp (Write (set_txid m t) ws) c Q.
Proof.
  intros Hst HQ. unfold Write, set_txid, sent_status, written in *. destruct (ok (out_status m)) eqn:Hok; cbn [out_status negb] in *.
  - rewrite Hok. cbn [negb out_txid] in *. apply wp_bind, wp_emit. destruct (ws =? ZX_OK); cbn [negb] in *; simplify_eq.
    + apply wp_ret. by apply HQ.
    + apply wp_bind. eapply wp_lift; [exact Hst|]. apply wp_ret. by apply HQ.
  - rewrite Hok. cbn [negb] in *. simplify_eq. apply wp_ret. apply HQ; try done. by rewrite app_nil_r.
Qed.

(** The call finds the transport: the context waits under a new id, which is the one that
    is written. *)
Lemma send_with_transport_ok m n ws st d c :
  inv c d -> U n -> n ∉ d -> Z.of_nat (length d) < num_txids -> sent_status m ws = Some st ->
  wp (send_with_transport m n ws) c (fun m' c' =>
    inv c' (d ++ [n]) /\ events c' = events c ++ written m (txid_ c' n) /\ out_status m' = st /\
    forall k, k <> n -> txid_ c' k = txid_ c k).
Proof.
  intros Hi HU Hn Hd Hst. unfold send_with_transport. apply wp_bind.
  eapply wp_mono; [by apply (PrepareAsyncTxn_ok n d)|]. intros _ c1 (Hi1 & He1 & Ho1). apply wp_bind, wp_gets.
  eapply Write_ok; [exact Hst|]. intros m' c' Hm Ec El Et Eb Ee. rewrite Et, Ee, He1. split_and!; [|done..].
  destruct Hi1 as [S1 L1 T1 B1 E1 I1]. by split; rewrite ?Ec, ?El, ?Et, ?Eb.
Qed.

Definition handled (binding : locked) (e : Status) : list event :=
  match binding with Alive _ => [HandleError {| info := e; origin := kSend |}] | _ => [] end.

Lemma send_failed_ok m n ps binding d c :
  inv c (d ++ [n]) -> ok (out_status m) = false -> reason_ (out_status m) <> kUninitializedReason ->
  wp (send_failed m n ps binding) c (fun _ c' =>
    inv c' d /\ events c' = events c ++ delivery n (out_status m) ps :: handled binding (out_status m) /\
    txid_ c' = txid_ c).
Proof.
  intros Hi Hok Hr. unfold send_failed. apply wp_bind. eapply wp_mono; [by apply (ForgetAsyncTxn_ok d n [])|].
  intros _ c1 (Hi1 & He1 & Ht1). rewrite app_nil_r in Hi1. apply wp_bind. eapply (wp_lift _ (out_status m)).
  { unfold error, ok in *. by rewrite Hok. }
  apply wp_bind. apply wp_TryAsyncDeliverError; [by apply not_ok_tellable|].
  assert (Hi2 : inv (with_event (delivery n (out_status m) ps) c1) d) by by apply inv_with_event.
  destruct binding; cbn [HandleSendError handled].
  2: { apply wp_bind. eapply (wp_lift _ (out_status m)).
       { unfold UnbindInfo_of, reason. by rewrite bool_decide_false by done. }
       apply wp_emit. cbn [with_event events txid_]. rewrite He1, <- app_assoc. by split_and!; [apply inv_with_event|..]. }
  all: apply wp_ret; cbn [with_event events txid_]; by rewrite He1.
Qed.

(** The messages that can be sent: those that failed to encode carry a reason. *)
Definition sendable (m : OutgoingMessage) : Prop := ok (out_status m) = true \/ reason_ (out_status m) <> kUninitializedReason.

Lemma sent_status_ok m ws : sendable m ->
  exists st, sent_status m ws = Some st /\ (ok st = false -> reason_ st <> kUninitializedReason) /\
    ok st = ok (out_status m) && (ws =? ZX_OK).
Proof.
  intros Hm. unfold sent_status, TransportError. destruct (ok (out_status m)) eqn:Hok; cbn [negb andb].
  - destruct (ws =? ZX_OK) eqn:E; cbn [negb]; [exists (out_status m); split_and!; [done|congruence|done]|].
    eexists. split_and!; [done| |]; cbn [new_status reason_]; [by destruct (ws =? ZX_ERR_PEER_CLOSED)|]. exact E.
  - exists (out_status m). split_and!; [done| |done]. intros _. destruct Hm as [Hm|Hm]; [congruence|done].
Qed.

(** What a call that finds the transport leaves behind. *)
Lemma SendTwoWay_alive binding binding' m n ws ps st d c :
  GetTransportOrError binding = Some (inl tt) -> sendable m -> sent_status m ws = Some st ->
  inv c d -> U n -> n ∉ d -> Z.of_nat (length d) < num_txids ->
  wp (SendTwoWay binding binding' m n ws ps) c (fun _ c' =>
    inv c' (if ok st then d ++ [n] else d) /\
    events c' = events c ++ written m (txid_ c' n) ++ (if ok st then [] else delivery n st ps :: handled binding' st) /\
    forall k, k <> n -> txid_ c' k = txid_ c k).
Proof.
  intros Hb Hm Hst Hi HU Hn Hd. destruct (sent_status_ok m ws Hm) as (? & ? & Hr & _). simplify_eq.
  unfold SendTwoWay. apply wp_bind. eapply wp_lift; [exact Hb|]. apply wp_bind.
  eapply wp_mono; [by eapply send_with_transport_ok|]. intros m' c1 (Hi1 & He1 & <- & Ho1).
  destruct (ok (out_status m')) eqn:Hok; cbn [negb].
  - apply wp_ret. by rewrite app_nil_r.
  - eapply wp_mono; [apply (send_failed_ok m' n ps binding' d c1); auto|].
    intros _ c2 (Hi2 & He2 & Ht2). rewrite He2, He1, Ht2, <- app_assoc. done.
Qed.

(** *** One-way calls *)

Lemma ErrorFromUnbindInfo_concrete info : concrete info -> exists e, ErrorFromUnbindInfo info = Some e.
Proof.
  intros [b Hb]. unfold ErrorFromUnbindInfo, Canceled, ToError, reason in *.
  destruct info as [st [] u er]; simpl in *; simplify_eq/=; by eexists.
Qed.

(** The result of a one-way call on a binding that is gone. *)
Definition hide_peer_closed (e : Status) : Status := if is_peer_closed e then Ok else e.

Lemma OneWay_hidden e : OneWayStatus (hide_peer_closed e) = Some (hide_peer_closed e).
Proof.
  unfold OneWayStatus, hide_peer_closed. destruct (is_peer_closed e) eqn:E; [done|]. by rewrite E.
Qed.

Lemma OneWayErrorFromUnbindInfo_ok info e : ErrorFromUnbindInfo info = Some e ->
  OneWayErrorFromUnbindInfo info = Some (hide_peer_closed e).
Proof.
  intros He. unfold OneWayErrorFromUnbindInfo. rewrite He. cbn. rewrite <- OneWay_hidden. unfold hide_peer_closed.
  by destruct (is_peer_closed e).
Qed.

(** A message that may be sent one way: an encoding error is not "peer closed". *)
Definition one_way (m : OutgoingMessage) : Prop := sendable m /\ is_peer_closed (out_status m) = false.

(** What the write of a channel leaves in the message is never "peer closed". *)
Lemma sent_status_hidden m raw st : one_way m -> sent_status m (channel_write raw) = Some st -> is_peer_closed st = false.
Proof.
  intros [_ Hp]. unfold sent_status, TransportError, channel_write.
  destruct (ok (out_status m)); cbn [negb]; [|by intros [= <-]].
  destruct (Z.eqb_spec raw ZX_ERR_PEER_CLOSED) as [->|Hne]; [by intros [= <-]|].
  destruct (raw =? ZX_OK); cbn [negb]; [by intros [= <-]|]. rewrite (proj2 (Z.eqb_neq _ _) Hne). by intros [= <-].
Qed.


(** [c'] has the books of [c]. *)
Definition same_books (c c' : ClientBase) : Prop :=
  contexts_ c' = contexts_ c /\ delete_list_ c' = delete_list_ c /\ txid_ c' = txid_ c /\ txid_base_ c' = txid_base_ c.

Lemma SendOneWay_ok b b' m raw c : one_way m ->
  match b with Invalid => False | Alive _ => True | Gone info => concrete info end ->
  wp (SendOneWay b b' m (channel_write raw)) c (fun r c' =>
    is_peer_closed r = false /\ same_books c c' /\
    match GetTransportOrError b with
    | Some (inl _) => exists st, sent_status m (channel_write raw) = Some st /\ r = (if ok st then Ok else st) /\
        events c' = events c ++ written m 0 ++ (if ok st then [] else handled b' st)
    | Some (inr info) => exists e, ErrorFromUnbindInfo info = Some e /\ r = hide_peer_closed e /\ events c' = events c
    | None => False
    end).
Proof.
  intros Hm Hb. unfold SendOneWay.
  assert (Hhide : forall e, is_peer_closed (hide_peer_closed e) = false).
  { intros e. unfold hide_peer_closed. by destruct (is_peer_closed e) eqn:E. }
  assert (Hgone : forall info, concrete info -> wp (lift (OneWayErrorFromUnbindInfo info)) c (fun r c' =>
    is_peer_closed r = false /\ same_books c c' /\
    exists e, ErrorFromUnbindInfo info = Some e /\ r = hide_peer_closed e /\ events c' = events c)).
  { intros info Hc. destruct (ErrorFromUnbindInfo_concrete info Hc) as [e He].
    eapply wp_lift; [by apply OneWayErrorFromUnbindInfo_ok|]. split_and!; [done|done|eauto]. }
  apply wp_bind. destruct b as [|[]|info]; [done| |eapply wp_lift; [done|]; by apply Hgone; eexists|eapply wp_lift; [done|]; by apply Hgone].
  destruct (sent_status_ok m (channel_write raw) (proj1 Hm)) as (st & Hst & Hr & _).
  eapply wp_lift; [done|]. apply wp_bind. eapply Write_ok; [exact Hst|]. intros m' c1 <- Ec El Et Eb Ee.
  pose proof (sent_status_hidden m raw _ Hm Hst) as Hp. cbn [GetTransportOrError].
  destruct (ok (out_status m')) eqn:Hok; cbn [negb].
  - eapply (wp_lift _ Ok); [done|]. split_and!; [done|done|]. exists (out_status m'). rewrite Hok, app_nil_r. done.
  - apply wp_bind. eapply (wp_lift _ (out_status m')); [unfold error, ok in *; by rewrite Hok|].
    assert (Hone : OneWayStatus (out_status m') = Some (out_status m')) by (unfold OneWayStatus; by rewrite Hp).
    destruct b'; cbn [HandleSendError handled].
    2: { apply wp_bind, wp_bind. eapply (wp_lift _ (out_status m')).
         { unfold UnbindInfo_of, reason. by rewrite bool_decide_false by auto. }
         apply wp_emit. eapply wp_lift; [exact Hone|]. split_and!; [done|done|]. exists (out_status m'). rewrite Hok.
         cbn [with_event events]. by rewrite Ee, <- app_assoc. }
    all: apply wp_bind, wp_ret; eapply wp_lift; [exact Hone|]; split_and!; [done|done|]; exists (out_status m');
      rewrite Hok, app_nil_r; done.
Qed.
End Correct.
