(* ===== verification/ClientRuns.v ===== *)
(** * Runs of the FIDL client

    Sequences of the client's operations, with the tasks it hands to the dispatcher, and
    the accounting of its callers: every call is told its outcome exactly once. *)

From stdpp Require Import gmap fin_sets functions.
From S2P Require Import Prelude FidlTypes FidlStatus Client ClientCorrect.

(** ** Runs *)

Section Runs.
Context {zx : ZxErrors} {ords : FidlOrdinals} {cs : ContextSet} {ln : ListNode}.

(** The client and the error deliveries that the dispatcher has yet to run. *)
Record system := { client : ClientBase; tasks : list (N * Status) }.

(** What happens to a client: a call, a message, the teardown of the binding, the
    dispatcher running one of the tasks. *)
Inductive action :=
  | Call (n : N) (binding binding' : locked) (message : OutgoingMessage) (write_status post_status : Z)
  | Message (msg : IncomingMessage) (dispatch_event : Status) (decoded : option UnbindInfo)
  | Teardown (has_error_handler : bool) (info : UnbindInfo)
  | RunTask (k : nat).

Definition posted (e : event) : option (N * Status) := match e with Posted n e => Some (n, e) | _ => None end.

Definition act {A} (m : ST ClientBase A) (s : system) : option system :=
  '(_, c) ← m (client s);
  Some {| client := c; tasks := tasks s ++ omap posted (drop (length (events (client s))) (events c)) |}.

Definition perform (a : action) (s : system) : option system :=
  match a with
  | Call n binding binding' message write_status post_status =>
      act (SendTwoWay binding binding' message n write_status post_status) s
  | Message msg dispatch_event decoded => act (Dispatch msg dispatch_event decoded) s
  | Teardown has_error_handler info => act (FinishTeardown has_error_handler info) s
  | RunTask k =>
      '(n, e) ← tasks s !! k;
      act (AsyncErrorDelivery n e) {| client := client s; tasks := delete k (tasks s) |}
  end.

Fixpoint run (acts : list action) (s : system) : option system :=
  match acts with
  | [] => Some s
  | a :: acts => s' ← perform a s; run acts s'
  end.

Lemma run_actions_app l1 l2 s : run (l1 ++ l2) s = s' ← run l1 s; run l2 s'.
Proof. revert s. induction l1 as [|a l1 IH]; intros s; [done|]. simpl. destruct (perform a s); [apply IH|done]. Qed.

(** ** Counting *)

Definition occ {A} (f : A -> option N) (n : N) (l : list A) : nat := length (filter (fun a => f a = Some n) l).

Lemma occ_app {A} (f : A -> option N) n l1 l2 : occ f n (l1 ++ l2) = (occ f n l1 + occ f n l2)%nat.
Proof. unfold occ. by rewrite filter_app, length_app. Qed.

Lemma occ_cons {A} (f : A -> option N) n a l :
  occ f n (a :: l) = ((if decide (f a = Some n) then 1 else 0) + occ f n l)%nat.
Proof. unfold occ. rewrite filter_cons. by case_decide. Qed.

Lemma occ_nil {A} (f : A -> option N) n : occ f n [] = 0%nat.
Proof. done. Qed.

(** The calls made for a context, and the outcomes it was told. *)
Definition calling (a : action) : option N := match a with Call n _ _ _ _ _ => Some n | _ => None end.
Definition telling (e : event) : option N := match e with OnRawResult n _ => Some n | _ => None end.
Definition task_for (t : N * Status) : option N := Some t.1.

Definition calls (n : N) (acts : list action) : nat := occ calling n acts.
Definition outcomes (n : N) (s : system) : nat := occ telling n (events (client s)).

(** The events that settle a call, now or in a task. *)
Definition settling (e : event) : option N := match e with OnRawResult n _ | Posted n _ => Some n | _ => None end.

Lemma occ_settling n l : occ settling n l = (occ telling n l + occ task_for n (omap posted l))%nat.
Proof.
  induction l as [|e l IH]; [done|]. rewrite !occ_cons, IH. cbn [omap list_omap].
  destruct e as [m r|m e| | | |]; cbn [settling telling posted]; rewrite ?occ_cons; [|change (task_for (m, e)) with (Some m)|..];
    repeat case_decide; simplify_eq; lia.
Qed.

Lemma occ_told n e d : occ settling n (told e <$> d) = occ Some n d.
Proof. induction d as [|m d IH]; [done|]. cbn [fmap list_fmap]. rewrite !occ_cons, IH. done. Qed.

Lemma occ_settling_delivery n m e ps : occ settling n [delivery m e ps] = occ Some n [m].
Proof. unfold delivery. destruct (ps =? ZX_OK); by rewrite !occ_cons. Qed.

Lemma occ_settling_written n m t : occ settling n (written m t) = 0%nat.
Proof. unfold written. destruct (ok _); [by rewrite occ_cons|done]. Qed.

Lemma occ_settling_handled n b e : occ settling n (handled b e) = 0%nat.
Proof. destruct b; cbn [handled]; [done|by rewrite occ_cons|done]. Qed.

(** [tasks s] without the task [k]. *)
Lemma occ_delete {A} (f : A -> option N) n (l : list A) k a :
  l !! k = Some a -> occ f n l = (occ f n [a] + occ f n (delete k l))%nat.
Proof.
  intros H. rewrite <- (take_drop_middle l k a H) at 1. rewrite delete_take_drop, !occ_app, occ_cons.
  rewrite (occ_cons f n a []), occ_nil. lia.
Qed.
End Runs.

(** ** The accounts *)

Section Accounts.
Context {zx : ZxErrors} {zlaws : ZxErrorsLaws zx} {ords : FidlOrdinals}.
Context {cs : ContextSet} {claws : ContextSetLaws cs} {ln : ListNode} {llaws : ListNodeLaws ln}.
Context (U : N -> Prop).

(** What the client's user, its binding and its dispatcher may do: call with a context
    that exists and does not wait, while ids are left; hand over messages; tear down for a
    reason the client side knows; run a task that was posted. *)
Definition allowed (a : action) (s : system) : Prop :=
  match a with
  | Call n binding _ message _ _ =>
      U n /\ cs_in_container n (contexts_ (client s)) = Some false /\ cs_size (contexts_ (client s)) < num_txids /\
      sendable message /\
      match binding with Invalid => False | Alive _ => True | Gone info => deliverable info end
  | Message _ dispatch_event _ => ok dispatch_event = true \/ reason_ dispatch_event <> kUninitializedReason
  | Teardown _ info => deliverable info
  | RunTask k => (k < length (tasks s))%nat
  end.

Fixpoint legal (acts : list action) (s : system) : Prop :=
  match acts with
  | [] => True
  | a :: acts => allowed a s /\ forall s', perform a s = Some s' -> legal acts s'
  end.

(** The books of the system: the contexts [d] wait, and each task has an error to tell. *)
Record books (s : system) (d : list N) : Prop := {
  books_inv : inv U (client s) d;
  books_few : Z.of_nat (length d) <= num_txids;
  books_tasks : Forall (fun t => tellable t.2) (tasks s);
}.

(** The calls that are settled, wait for a reply, or wait for a task. *)
Definition accounted (n : N) (s : system) (d : list N) : nat :=
  (outcomes n s + occ Some n d + occ task_for n (tasks s))%nat.

Lemma act_ok {A} (m : ST ClientBase A) s d d' (k : N -> nat) :
  books s d -> Z.of_nat (length d') <= num_txids ->
  wp m (client s) (fun _ c' => inv U c' d' /\ exists new, events c' = events (client s) ++ new /\
    Forall (fun t => tellable t.2) (omap posted new) /\
    forall n, (occ settling n new + occ Some n d' = k n + occ Some n d)%nat) ->
  exists s', act m s = Some s' /\ books s' d' /\ forall n, accounted n s' d' = (k n + accounted n s d)%nat.
Proof.
  intros [Hi Hf Ht] Hd' (a & c' & Em & Hi' & new & He & Hn & Hk). unfold act. rewrite Em. cbn.
  eexists. split; [done|]. rewrite He, drop_app_length. split.
  - split; cbn [client tasks]; [done..|]. by apply Forall_app.
  - intros n. unfold accounted, outcomes. cbn [client tasks]. rewrite He, !occ_app. specialize (Hk n).
    rewrite occ_settling in Hk. lia.
Qed.

Lemma posted_written m t : omap posted (written m t) = [].
Proof. unfold written. by destruct (ok _). Qed.

Lemma posted_handled b e : omap posted (handled b e) = [].
Proof. by destruct b. Qed.

Lemma posted_delivery n e ps : tellable e -> Forall (fun t : N * Status => tellable t.2) (omap posted [delivery n e ps]).
Proof. intros He. unfold delivery. destruct (ps =? ZX_OK); cbn; auto. Qed.

Lemma Call_ok s d n b b' m ws ps : books s d -> allowed (Call n b b' m ws ps) s ->
  exists s' d', perform (Call n b b' m ws ps) s = Some s' /\ books s' d' /\
    forall k, accounted k s' d' = (occ Some k [n] + accounted k s d)%nat.
Proof.
  intros Hbk (HU & Hc & Hsz & Hm & Hb). pose proof Hbk as [Hi Hf Ht]. cbn [perform].
  assert (Hn : n ∉ d).
  { intros Hin. rewrite (cs_in_container_true _ _ _ n (inv_set _ _ _ Hi)) in Hc; [done|]. by apply elem_of_list_to_set. }
  rewrite (inv_size _ _ _ Hi) in Hsz by (unfold num_txids in *; lia).
  assert (Hgone : forall info, GetTransportOrError b = Some (inr info) -> deliverable info ->
    exists s' d', act (SendTwoWay b b' m n ws ps) s = Some s' /\ books s' d' /\
      forall k, accounted k s' d' = (occ Some k [n] + accounted k s d)%nat).
  { intros info Hg Hd. destruct (ErrorFromUnbindInfo_ok info Hd) as (e & He & Hte & _).
    destruct (act_ok (SendTwoWay b b' m n ws ps) s d d (fun k => occ Some k [n]) Hbk) as (s' & ? & ? & ?); [done| |eauto].
    eapply SendTwoWay_gone; [done..|]. split; [by apply inv_with_event|]. exists [delivery n e ps].
    split_and!; [done|by apply posted_delivery|]. intros k. by rewrite occ_settling_delivery. }
  destruct b as [|[]|info]; [done| |apply (Hgone Unbind); [done|by split_and!; [eexists|..|left]]|by apply (Hgone info)].
  destruct (sent_status_ok m ws Hm) as (st & Hst & _ & _).
  destruct (act_ok (SendTwoWay (Alive true) b' m n ws ps) s d (if ok st then d ++ [n] else d)
              (fun k => occ Some k [n]) Hbk) as (s' & ? & ? & ?); [| |eauto].
  { destruct (ok st); rewrite ?length_app; simpl; lia. }
  eapply wp_mono; [by eapply (SendTwoWay_alive U)|]. intros _ c' (Hi' & He' & _). split; [done|]. eexists. split; [exact He'|].
  destruct (ok st) eqn:Hok.
  - rewrite app_nil_r, posted_written. split; [done|]. intros k. rewrite occ_settling_written, occ_app. lia.
  - change (delivery n st ps :: handled b' st) with ([delivery n st ps] ++ handled b' st).
    rewrite !omap_app, posted_written, posted_handled, app_nil_r.
    split; [by apply posted_delivery, not_ok_tellable|]. intros k.
    rewrite !occ_app, occ_settling_written, occ_settling_handled, occ_settling_delivery. lia.
Qed.

Lemma Message_ok s d msg ev dec : books s d -> allowed (Message msg ev dec) s ->
  exists s' d', perform (Message msg ev dec) s = Some s' /\ books s' d' /\
    forall k, accounted k s' d' = accounted k s d.
Proof.
  intros Hbk Hev. pose proof Hbk as [Hi Hf Ht]. cbn [perform allowed] in *.
  destruct (decide (maybe_epitaph msg = None /\ Exists (fun n => hdr_txid msg = txid_ (client s) n) d)) as [[Hep Hx]|Hno].
  - apply Exists_exists in Hx as (n & (d1 & d2 & ->)%list_elem_of_split & Htx).
    destruct (act_ok (Dispatch msg ev dec) s (d1 ++ n :: d2) (d1 ++ d2) (fun _ => 0%nat) Hbk) as (s' & ? & ? & ?); [| |eauto].
    { rewrite length_app in *. simpl in *. lia. }
    eapply wp_mono; [by eapply (Dispatch_reply U)|]. intros r c' (Hi' & He' & _). split; [done|]. eexists.
    split; [exact He'|]. split; [done|]. intros k. rewrite !occ_app, !occ_cons, occ_nil. cbn [settling]. lia.
  - destruct (act_ok (Dispatch msg ev dec) s d d (fun _ => 0%nat) Hbk) as (s' & ? & ? & ?); [done| |eauto].
    eapply wp_mono; [eapply (Dispatch_other U); [done| |]|].
    + destruct (maybe_epitaph msg); [by left|right]. intros n Hn Htx. apply Hno. split; [done|]. apply Exists_exists. eauto.
    + intros _ _ Hok. destruct Hev as [Hev|Hev]; [congruence|done].
    + intros r c' (Hi' & He' & _). split; [done|]. exists []. rewrite app_nil_r. split_and!; done.
Qed.

Lemma posted_told e d : omap posted (told e <$> d) = [].
Proof. by induction d. Qed.

Lemma settling_teardown n h info : occ settling n (teardown_events h info) = 0%nat /\ omap posted (teardown_events h info) = [].
Proof. unfold teardown_events. destruct (negb _ && h); cbn [app]; by rewrite ?occ_cons. Qed.

Lemma Teardown_ok s d h info : books s d -> allowed (Teardown h info) s ->
  exists s', perform (Teardown h info) s = Some s' /\ books s' [] /\ forall k, accounted k s' [] = accounted k s d.
Proof.
  intros Hbk Hd. pose proof Hbk as [Hi Hf Ht]. cbn [perform allowed] in *.
  destruct (ErrorFromUnbindInfo_ok info Hd) as (e & He & Hte & _).
  apply (act_ok _ _ _ _ (fun _ => 0%nat) Hbk); [done|].
  eapply wp_mono; [eapply (FinishTeardown_ok U); try done; unfold num_txids in *; lia|].
  intros _ c' (Hi' & He' & _). split; [done|]. eexists. split; [exact He'|]. split.
  - by rewrite omap_app, posted_told, (proj2 (settling_teardown 0%N h info)).
  - intros k. rewrite occ_app, occ_told, (proj1 (settling_teardown k h info)), occ_nil. lia.
Qed.

Lemma RunTask_ok s d k : books s d -> allowed (RunTask k) s ->
  exists s', perform (RunTask k) s = Some s' /\ books s' d /\ length (tasks s) = S (length (tasks s')) /\
    forall n, accounted n s' d = accounted n s d.
Proof.
  intros [Hi Hf Ht] Hk. cbn [perform allowed] in *. destruct (lookup_lt_is_Some_2 _ _ Hk) as [[n e] Hl]. rewrite Hl. cbn.
  assert (tellable e) by exact (Forall_lookup_1 _ _ _ _ Ht Hl).
  set (c' := with_event (OnRawResult n (Failed e)) (client s)).
  assert (Em : AsyncErrorDelivery n e (client s) = Some (tt, c')).
  { unfold AsyncErrorDelivery, OnError. by rewrite (proj2 (Z.eqb_neq _ _)). }
  assert (Ed : drop (length (events (client s))) (events c') = [OnRawResult n (Failed e)]) by apply drop_app_length.
  unfold act. cbn [client]. rewrite Em. cbn [mbind option_bind]. rewrite Ed. cbn [omap list_omap posted]. rewrite app_nil_r.
  eexists. split; [done|]. split_and!.
  - split; cbn [client tasks]; [by apply inv_with_event|done|]. by apply Forall_delete.
  - cbn [tasks]. rewrite length_delete by eauto. lia.
  - intros m. unfold accounted, outcomes. cbn [client tasks events]. rewrite (occ_delete task_for m _ _ _ Hl).
    unfold c'. cbn [with_event events]. rewrite occ_app, !occ_cons, !occ_nil. cbn [telling]. change (task_for (n, e)) with (Some n). lia.
Qed.

Lemma perform_ok s d a : books s d -> allowed a s ->
  exists s' d', perform a s = Some s' /\ books s' d' /\ forall n, accounted n s' d' = (occ calling n [a] + accounted n s d)%nat.
Proof.
  intros Hbk Ha. destruct a as [n b b' m ws ps|msg ev dec|h info|k].
  - destruct (Call_ok s d n b b' m ws ps Hbk Ha) as (s' & d' & ? & ? & Hc). exists s', d'. split_and!; [done..|].
    intros x. rewrite Hc, !occ_cons. done.
  - destruct (Message_ok s d msg ev dec Hbk Ha) as (s' & d' & ? & ? & Hc). by exists s', d'.
  - destruct (Teardown_ok s d h info Hbk Ha) as (s' & ? & ? & Hc). by exists s', [].
  - destruct (RunTask_ok s d k Hbk Ha) as (s' & ? & ? & _ & Hc). by exists s', d.
Qed.

Lemma run_ok acts : forall s d, books s d -> legal acts s ->
  exists s' d', run acts s = Some s' /\ books s' d' /\ forall n, accounted n s' d' = (calls n acts + accounted n s d)%nat.
Proof.
  induction acts as [|a acts IH]; intros s d Hbk Hl; [by exists s, d|]. destruct Hl as [Ha Hl].
  destruct (perform_ok s d a Hbk Ha) as (s1 & d1 & Hp & Hbk1 & Hc1).
  destruct (IH s1 d1 Hbk1 (Hl s1 Hp)) as (s2 & d2 & Hr & Hbk2 & Hc2). exists s2, d2. cbn [run]. rewrite Hp.
  split_and!; [done..|]. intros n. rewrite Hc2, Hc1. unfold calls. rewrite (occ_cons _ _ a acts), occ_cons, occ_nil. lia.
Qed.

Lemma legal_app l1 l2 : forall s s', legal (l1 ++ l2) s -> run l1 s = Some s' -> legal l1 s /\ legal l2 s'.
Proof.
  induction l1 as [|a l1 IH]; intros s s' Hl Hr; [by injection Hr as <-|]. destruct Hl as [Ha Hl].
  cbn [run] in Hr. apply bind_Some in Hr as (s1 & Hp & Hr). destruct (IH s1 s' (Hl s1 Hp) Hr) as [H1 H2].
  split; [|done]. split; [done|]. intros s2 Hp2. simplify_eq. done.
Qed.

Lemma legal_prefix l1 l2 : forall s, legal (l1 ++ l2) s -> legal l1 s.
Proof. induction l1 as [|a l1 IH]; intros s; [done|]. intros [Ha Hl]. split; [done|]. eauto. Qed.

(** A step whose outcome can be computed. *)
Lemma legal_cons a acts s : allowed a s -> legal acts (default s (perform a s)) -> legal (a :: acts) s.
Proof. intros Ha Hl. split; [done|]. intros s' E. by rewrite E in Hl. Qed.

(** The dispatcher runs all the tasks. *)
Lemma drain k : forall s d, books s d -> length (tasks s) = k ->
  exists s', run (replicate k (RunTask 0)) s = Some s' /\ books s' d /\ tasks s' = [] /\
    forall n, accounted n s' d = accounted n s d.
Proof.
  induction k as [|k IH]; intros s d Hbk Hk; [exists s; split_and!; try done; by apply nil_length_inv|].
  destruct (RunTask_ok s d 0 Hbk) as (s1 & Hp & Hbk1 & Hlen & Hc1); [cbn [allowed]; lia|].
  destruct (IH s1 d Hbk1) as (s2 & Hr & Hbk2 & Ht & Hc2); [lia|]. exists s2. cbn [replicate run]. rewrite Hp.
  split_and!; [done..|]. intros n. by rewrite Hc2, Hc1.
Qed.

(** A system at the start: nothing waits and nothing was told. *)
Definition starts (s : system) : Prop := books s [] /\ tasks s = [] /\ forall n, outcomes n s = 0%nat.

Lemma starts_accounted s n : starts s -> accounted n s [] = 0%nat.
Proof. intros (_ & Ht & Ho). unfold accounted. by rewrite Ht, Ho. Qed.
End Accounts.
