(* ===== verification/ClientWavl.v ===== *)
(** * The containers of the FIDL client

    The WAVL tree implements the interface through which the client uses it, and the list
    interface has a model.  Contexts are keyed by their transaction ids with the order of
    [ResponseContext::Traits]. *)

From stdpp Require Import gmap fin_sets functions sorting.
From S2P Require Import Prelude FidlTypes FidlStatus Wavl WavlSpec WavlLogic WavlInsert WavlQuery WavlErase WavlWhole WavlTheorems Client.

(** ** The tree *)

(** [ResponseContext::Traits], for the ids that the contexts have now. *)
Definition context_traits (txid : N -> Z) : KeyTraits :=
  {| KeyType := Z; GetKey := txid; LessThan := Z.ltb; EqualTo := Z.eqb |}.

#[export] Instance context_traits_laws txid : KeyTraitsLaws (context_traits txid).
Proof. split; simpl; intros; lia. Qed.

Section Tree.
(** The address of the tree. *)
Context (this : N).

#[export] Instance wavl_contexts : ContextSet := {
  cs_state := world;
  cs_in_container n w := ns ← heap w !! n; Some (InContainer ns);
  cs_is_empty w := same (root_ (tree w)) Null;
  cs_size w := count_ (tree w);
  cs_insert_or_find txid n w := '(r, w') ← @insert_or_find (context_traits txid) this n w; Some (fst r, w');
  cs_erase_key txid k w :=
    '(p, w') ← @erase (context_traits txid) this k w;
    match p with Obj n => Some (Some n, w') | Null => Some (None, w') | Sentinel _ => None end;
  cs_erase txid n w := '(_, w') ← erase_obj this (Obj n) w; Some w';
  cs_clear w := '(_, w') ← clear this w; Some w';
}.

Definition tree_holds (txid : N -> Z) (w : world) (l : list N) : Prop :=
  @holds (context_traits txid) this (heap w) w l.
Definition node_idle (w : world) (n : N) : Prop := exists q, heap w !! n = Some (removed_node q).
Definition tree_set (txid : N -> Z) (w : world) (X : gset N) : Prop :=
  exists l, tree_holds txid w l /\ X = list_to_set l.

Lemma tree_sorted txid w l : tree_holds txid w l -> @sorted (context_traits txid) l.
Proof. by intros (t & _ & _ & _ & H). Qed.

Lemma tree_NoDup txid w l : tree_holds txid w l -> NoDup l.
Proof. intros H%tree_sorted. by apply (@sorted_NoDup (context_traits txid) _). Qed.

Lemma tree_key_inj txid w l m n : tree_holds txid w l -> m ∈ l -> n ∈ l -> txid m = txid n -> m = n.
Proof.
  intros H%tree_sorted (l1 & l2 & ->)%list_elem_of_split Hn E.
  apply (@sorted_app (context_traits txid)) in H as (_ & H2 & H12).
  apply StronglySorted_inv in H2 as [_ H2]. rewrite Forall_forall in H2.
  apply elem_of_app in Hn as [Hn|[->|Hn]%elem_of_cons]; [|done|].
  - specialize (H12 n m Hn ltac:(by left)). unfold key_lt in H12. simpl in H12. lia.
  - specialize (H2 n Hn). unfold key_lt in H2. simpl in H2. lia.
Qed.

(** The node of a context that waits is linked into the tree. *)
Lemma tree_linked txid w l n : tree_holds txid w l -> n ∈ l -> exists ns, heap w !! n = Some ns /\ InContainer ns = true.
Proof.
  intros H (l1 & l2 & ->)%list_elem_of_split.
  destruct (@holds_locate (context_traits txid) _ this _ _ _ _ _ H) as (c & tl & rk & tr & Hat & _).
  eexists. split.
  - apply (st_owns _ _ _ _ _ _ _ Hat). apply elem_of_app. right. by left.
  - destruct c; done.
Qed.

Lemma idle_not_held txid w l n : tree_holds txid w l -> node_idle w n -> n ∉ l.
Proof. intros H [q Hq] Hn. destruct (tree_linked _ _ _ _ H Hn) as (ns & Hns & Hc). by simplify_eq. Qed.

Lemma tree_ext txid txid' w l : (forall n, n ∈ l -> txid n = txid' n) -> tree_holds txid w l -> tree_holds txid' w l.
Proof.
  intros Hk (t & H & Hw & Hi & Hs). exists t. split_and!; [done..|]. clear H Hi Hw.
  unfold sorted in *. induction Hs as [|n l Hs IH Hf]; constructor.
  - apply IH. intros m Hm. apply Hk. by right.
  - rewrite Forall_forall in *. intros m Hm. specialize (Hf m Hm). unfold key_lt in *. simpl in *.
    rewrite <- !Hk; [done|by right|by left].
Qed.

(** Nodes that a step left alone are still idle. *)
Lemma idle_frame txid h0 w' l' n : @holds (context_traits txid) this h0 w' l' ->
  n ∉ l' -> (exists q, h0 !! n = Some (removed_node q)) -> node_idle w' n.
Proof. intros H Hn [q Hq]. apply holds_self in H as [_ H]. exists q. by rewrite H. Qed.

Lemma self_holds txid h0 w' l' : @holds (context_traits txid) this h0 w' l' -> tree_holds txid w' l'.
Proof. intros H. by apply holds_self in H as [? _]. Qed.

Lemma tree_insert txid w l n : tree_holds txid w l -> node_idle w n ->
  exists b w', cs_insert_or_find txid n w = Some (b, w') /\
    (if b : bool then (forall m, m ∈ l -> txid m <> txid n) /\ (exists l', tree_holds txid w' l' /\ l' ≡ₚ n :: l)
     else (exists m, m ∈ l /\ txid m = txid n) /\ tree_holds txid w' l /\ node_idle w' n) /\
    forall m, m <> n -> node_idle w m -> node_idle w' m.
Proof.
  intros Hh Hid. pose proof (idle_not_held _ _ _ _ Hh Hid) as Hn. destruct Hid as [q Hq]. pose proof Hh as Hh0.
  destruct (@internal_insert_ok (context_traits txid) _ this _ w l n _ true Hh Hq (removed_idle q)) as (p & w' & E & Hp);
    [by left|].
  exists (same p Null), w'. cbn [cs_insert_or_find wavl_contexts]. unfold insert_or_find, mbind at 2, ST_bind. rewrite E.
  split; [done|]. destruct Hp as [(m & Hm & Hk & -> & Hh')|(-> & l1 & l2 & -> & Hb & Ha & Hh')].
  - split; [split_and!; [by exists m|by eapply self_holds|]|].
    + eapply idle_frame; [exact Hh'|done|]. exists false. by rewrite lookup_insert_eq.
    + intros x Hx Hidx. eapply idle_frame; [exact Hh'|by eapply idle_not_held|]. by rewrite lookup_insert_ne.
  - split; [split; [|exists (l1 ++ n :: l2); split; [by eapply self_holds|by rewrite Permutation_middle]]|].
    + apply (@absent_between (context_traits txid) _ (txid n) l1 l2 Hb Ha).
    + intros x Hx Hidx. pose proof (idle_not_held _ _ _ _ Hh0 Hidx) as Hxl. eapply idle_frame; [exact Hh'| |exact Hidx]. set_solver.
Qed.

(** A step that takes [n] out. *)
Lemma tree_removed txid w l1 n l2 q w' : tree_holds txid w (l1 ++ n :: l2) ->
  @holds (context_traits txid) this (<[n := removed_node q]> (heap w)) w' (l1 ++ l2) ->
  tree_holds txid w' (l1 ++ l2) /\ node_idle w' n /\ forall m, node_idle w m -> node_idle w' m.
Proof.
  intros Hh Hh'. pose proof (tree_NoDup _ _ _ Hh) as Hd. rewrite <- Permutation_middle in Hd.
  apply NoDup_cons in Hd as [Hd _]. split_and!.
  - by eapply self_holds.
  - eapply idle_frame; [exact Hh'|done|]. exists q. by rewrite lookup_insert_eq.
  - intros m Hm. pose proof (idle_not_held _ _ _ _ Hh Hm) as Hml. eapply idle_frame; [exact Hh'|set_solver|].
    by rewrite lookup_insert_ne by set_solver.
Qed.

Lemma tree_erase_key txid w l k : tree_holds txid w l ->
  exists r w', cs_erase_key txid k w = Some (r, w') /\
    match r with
    | Some n => exists l1 l2, l = l1 ++ n :: l2 /\ txid n = k /\ tree_holds txid w' (l1 ++ l2) /\ node_idle w' n
    | None => (forall n, n ∈ l -> txid n <> k) /\ tree_holds txid w' l
    end /\ forall m, node_idle w m -> node_idle w' m.
Proof.
  intros Hh. destruct (@erase_holds (context_traits txid) _ this _ w l k Hh) as (w' & E & Hr).
  cbn [cs_erase_key wavl_contexts]. rewrite E. destruct (@spec_find (context_traits txid) k l) as [n|] eqn:Hf.
  - exists (Some n), w'. split; [done|]. destruct Hr as [q Hr].
    destruct (@spec_erase_some (context_traits txid) _ _ _ Hf) as (l1 & l2 & -> & Hs). rewrite Hs in Hr.
    destruct (tree_removed _ _ _ _ _ _ _ Hh Hr) as (H1 & H2 & H3). split; [|done]. exists l1, l2. split_and!; [done| |done..].
    apply List.find_some in Hf as [_ Hk]. simpl in Hk. lia.
  - exists None, w'. split; [done|]. destruct Hr as [-> _]. split; [|done]. split; [|done]. intros n Hn%list_elem_of_In Hk.
    pose proof (List.find_none _ _ Hf n Hn) as Hno. simpl in Hno. lia.
Qed.

Lemma tree_erase txid w l1 n l2 : tree_holds txid w (l1 ++ n :: l2) ->
  exists w', cs_erase txid n w = Some w' /\ tree_holds txid w' (l1 ++ l2) /\ node_idle w' n /\
    forall m, node_idle w m -> node_idle w' m.
Proof.
  intros Hh. destruct (@internal_erase_ok (context_traits txid) _ this _ w l1 n l2 Hh) as (p & w' & E & -> & q & Hq).
  exists w'. cbn [cs_erase wavl_contexts]. unfold erase_obj. rewrite E. split; [done|].
  by apply (tree_removed txid w l1 n l2 q).
Qed.

Lemma tree_clear txid w l : tree_holds txid w l ->
  exists w', cs_clear w = Some w' /\ tree_holds txid w' [] /\ forall m, m ∈ l \/ node_idle w m -> node_idle w' m.
Proof.
  intros Hh. destruct (clear_ok this _ w l (context_traits txid) Hh) as ([] & w' & E & Hh' & Hin & Hout).
  exists w'. cbn [cs_clear wavl_contexts]. rewrite E. split_and!; [done..|]. intros m [Hm|Hm]; [by apply Hin|].
  pose proof (idle_not_held _ _ _ _ Hh Hm) as Hml. unfold node_idle. by rewrite Hout.
Qed.

Lemma tree_set_remove txid w l1 n l2 : tree_holds txid w (l1 ++ n :: l2) ->
  list_to_set (l1 ++ n :: l2) ∖ {[n]} = (list_to_set (l1 ++ l2) : gset N).
Proof.
  intros Hh. pose proof (tree_NoDup _ _ _ Hh) as Hd. rewrite <- Permutation_middle in Hd.
  apply NoDup_cons in Hd as [Hd _]. set_solver.
Qed.

#[export] Instance wavl_contexts_laws : ContextSetLaws wavl_contexts.
Proof.
  refine {| cs_holds := tree_set; cs_idle := node_idle |}.
  - intros key key' w X Hk (l & H & ->). exists l. split; [|done]. eapply tree_ext; [|done]. intros n Hn. apply Hk. set_solver.
  - intros key w X m n (l & H & ->) Hm%elem_of_list_to_set Hn%elem_of_list_to_set. by eapply tree_key_inj.
  - intros key w X n (l & H & ->) Hid Hn%elem_of_list_to_set. by eapply idle_not_held.
  - intros key w X n (l & H & ->) Hn%elem_of_list_to_set. destruct (tree_linked _ _ _ _ H Hn) as (ns & Hns & Hc).
    cbn [cs_in_container wavl_contexts]. rewrite Hns. simpl. by rewrite Hc.
  - intros w n [q Hq]. cbn [cs_in_container wavl_contexts]. by rewrite Hq.
  - intros key w X (l & H & ->). rewrite size_list_to_set by by eapply tree_NoDup.
    apply (@holds_book (context_traits key)) in H. injection H as _ _ H. exact H.
  - intros key w X (l & (t & H & _ & Hi & _) & ->). cbn [cs_is_empty wavl_contexts]. rewrite (st_root _ _ _ _ _ _ _ H).
    unfold same. apply bool_decide_ext. subst l. destruct t as [|tl n rk tr]; [done|]. cbn. split; [done|]. set_solver.
  - intros key w X n (l & H & ->) Hid. destruct (tree_insert key w l n H Hid) as (b & w' & E & Hb & Hf).
    exists b, w'. split; [done|]. split; [|done]. destruct b.
    + destruct Hb as (Hno & l' & Hh & Hp). split; [intros m Hm; apply Hno; set_solver|]. exists l'. split; [done|].
      apply set_eq. intros x. rewrite elem_of_list_to_set, Hp. set_solver.
    + destruct Hb as ((m & Hm & Hk) & Hh & Hid'). split_and!; [|by exists l|done]. exists m. split; [set_solver|done].
  - intros key w X k (l & H & ->). destruct (tree_erase_key key w l k H) as (r & w' & E & Hr & Hf).
    exists r, w'. split; [done|]. split; [|done]. destruct r as [n|].
    + destruct Hr as (l1 & l2 & -> & Hk & Hh & Hid). split_and!; [set_solver|done| |done]. exists (l1 ++ l2). split; [done|].
      by eapply tree_set_remove.
    + destruct Hr as [Hno Hh]. split; [|by exists l]. intros n Hn. apply Hno. set_solver.
  - intros key w X n (l & H & ->) (l1 & l2 & ->)%elem_of_list_to_set%list_elem_of_split.
    destruct (tree_erase key w l1 n l2 H) as (w' & E & Hh & Hid & Hf). exists w'. split_and!; [done| |done..].
    exists (l1 ++ l2). split; [done|]. by eapply tree_set_remove.
  - intros key w X (l & H & ->). destruct (tree_clear key w l H) as (w' & E & Hh & Hf). exists w'. split_and!; [done|by exists []|].
    intros m Hm. apply Hf. set_solver.
Defined.
End Tree.

(** ** A model of the list interface *)

(** Both lists as sequences. *)
Fixpoint next_in (n : N) (l : list N) : option N :=
  match l with [] => None | m :: l => if decide (m = n) then head l else next_in n l end.

Definition without (x : lnode) (l : list N) : list N := filter (fun m => Node m <> x) l.

#[export] Instance seq_lists : ListNode := {
  lists := list N * list N;
  list_add_tail h x s := match x with Node n => (s.1 ++ [n], s.2) | _ => s end;
  list_delete x s := (without x s.1, without x s.2);
  list_move _ _ s := ([], s.1);
  list_next x s := match x with Node n => node_or LocalList (next_in n s.2) | _ => node_or LocalList (head s.2) end;
}.

Lemma without_out n l : n ∉ l -> without (Node n) l = l.
Proof.
  intros Hn. unfold without. induction l as [|m l IH]; [done|]. rewrite filter_cons. rewrite not_elem_of_cons in Hn.
  destruct Hn as [Hm Hn]. rewrite decide_True by congruence. f_equal. auto.
Qed.

Lemma without_in l1 n l2 : n ∉ l1 -> n ∉ l2 -> without (Node n) (l1 ++ n :: l2) = l1 ++ l2.
Proof.
  intros H1 H2. rewrite <- (without_out n l1 H1) at 2. rewrite <- (without_out n l2 H2) at 2.
  unfold without. rewrite filter_app, filter_cons, decide_False by auto. done.
Qed.

Lemma next_in_app n l1 l2 : n ∉ l1 -> next_in n (l1 ++ n :: l2) = head l2.
Proof.
  induction l1 as [|m l1 IH]; intros Hn; simpl; [by rewrite decide_True|]. rewrite not_elem_of_cons in Hn.
  destruct Hn as [Hm Hn]. rewrite decide_False by done. auto.
Qed.

Lemma NoDup_middle (l1 : list N) n l2 : NoDup (l1 ++ n :: l2) -> n ∉ l1 /\ n ∉ l2 /\ NoDup (l1 ++ l2).
Proof. rewrite <- Permutation_middle, NoDup_cons, not_elem_of_app. tauto. Qed.

#[export] Instance seq_lists_laws : ListNodeLaws seq_lists.
Proof.
  refine {| lists_are := fun s d c => s = (d, c) /\ NoDup (d ++ c) |}.
  - intros s d c n [-> Hd] H1 H2. split; [done|]. rewrite <- app_assoc. cbn [app]. rewrite <- Permutation_middle.
    apply NoDup_cons. split; [|done]. by apply not_elem_of_app.
  - intros s d1 d2 c n [-> Hd]. rewrite <- app_assoc in Hd. cbn [app] in Hd.
    destruct (NoDup_middle _ _ _ Hd) as (H1 & H2 & H3). apply not_elem_of_app in H2 as [H2 H2'].
    split; [|by rewrite <- app_assoc]. cbn [list_delete seq_lists fst snd]. by rewrite without_in, without_out.
  - intros s d c1 c2 n [-> Hd]. rewrite app_assoc in Hd.
    destruct (NoDup_middle _ _ _ Hd) as (H1 & H2 & H3). apply not_elem_of_app in H1 as [H1 H1'].
    split; [|by rewrite app_assoc]. cbn [list_delete seq_lists fst snd]. by rewrite without_in, without_out.
  - intros s d [-> Hd]. split; [done|]. by rewrite app_nil_r in Hd.
  - by intros s d c [-> _].
  - intros s d c1 c2 n [-> Hd]. cbn [list_next seq_lists snd]. rewrite next_in_app; [done|].
    rewrite app_assoc in Hd. destruct (NoDup_middle _ _ _ Hd) as (H1 & _). by apply not_elem_of_app in H1 as [_ H1].
  - by intros s d c [-> Hd].
Defined.
