(* ===== verification/ClientTheorems.v ===== *)
(** * What the FIDL client promises

    The properties of the client of Client.v for every implementation of the interfaces it
    uses, instances of them on the WAVL tree, and the cases in which the client breaks its
    promise. *)

From stdpp Require Import gmap fin_sets functions.
From S2P Require Import Prelude FidlTypes FidlStatus Wavl Client ClientCorrect ClientRuns ClientWavl WavlTheorems.

Section Theorems.
Context {zx : ZxErrors} {zlaws : ZxErrorsLaws zx} {ords : FidlOrdinals}.
Context {cs : ContextSet} {claws : ContextSetLaws cs} {ln : ListNode} {llaws : ListNodeLaws ln}.
Context (U : N -> Prop).

(** [PrepareAsyncTxn] ends as long as fewer than 2^31 - 1 calls wait, also when the
    counter wraps around; the id it gives to the context is not zero, fits in 31 bits and
    differs from the ids of all calls that wait, which keep theirs. *)
Theorem PrepareAsyncTxn_correct n d c :
  inv U c d -> U n -> n ∉ d -> Z.of_nat (length d) < num_txids ->
  exists c', PrepareAsyncTxn n c = Some (tt, c') /\ inv U c' (d ++ [n]) /\ events c' = events c /\
    0 < txid_ c' n < 2 ^ 31 /\ forall m, m ∈ d -> txid_ c' m = txid_ c m /\ txid_ c' m <> txid_ c' n.
Proof.
  intros Hi HU Hn Hd. destruct (PrepareAsyncTxn_ok U n d c Hi HU Hn Hd) as ([] & c' & E & Hi' & He & Ho).
  exists c'. split_and!; [done|done|done|..].
  1, 2: pose proof (inv_txid _ _ _ Hi' n ltac:(set_solver)) as [? ?]; unfold num_txids in *; lia.
  intros m Hm. assert (m <> n) by (by intros ->). split; [auto|]. intros E'.
  apply (inv_txid_inj U c' (d ++ [n]) m n Hi') in E'; set_solver.
Qed.

(** [SendTwoWay], whatever it finds.  With a transport, the id that is written is the
    one under which the context waits; when encoding or writing failed the context waits no
    longer and its error is on the way.  Without one, the context is told why. *)
Theorem SendTwoWay_correct binding binding' m n ws ps d c :
  inv U c d -> U n -> n ∉ d -> Z.of_nat (length d) < num_txids -> sendable m ->
  match binding with Invalid => False | Alive _ => True | Gone info => deliverable info end ->
  exists c', SendTwoWay binding binding' m n ws ps c = Some (tt, c') /\
    (forall k, k <> n -> txid_ c' k = txid_ c k) /\
    match GetTransportOrError binding with
    | Some (inl _) => exists st, sent_status m ws = Some st /\ ok st = ok (out_status m) && (ws =? ZX_OK) /\
        inv U c' (if ok st then d ++ [n] else d) /\
        events c' = events c ++ written m (txid_ c' n) ++ if ok st then [] else delivery n st ps :: handled binding' st
    | Some (inr info) => exists e, ErrorFromUnbindInfo info = Some e /\ inv U c' d /\
        events c' = events c ++ [delivery n e ps]
    | None => False
    end.
Proof.
  intros Hi HU Hn Hd Hm Hb.
  assert (Hgone : forall info, GetTransportOrError binding = Some (inr info) -> deliverable info ->
    exists c', SendTwoWay binding binding' m n ws ps c = Some (tt, c') /\ (forall k, k <> n -> txid_ c' k = txid_ c k) /\
      exists e, ErrorFromUnbindInfo info = Some e /\ inv U c' d /\ events c' = events c ++ [delivery n e ps]).
  { intros info Hg Hdl. destruct (ErrorFromUnbindInfo_ok info Hdl) as (e & He & Hte & _).
    destruct (SendTwoWay_gone binding binding' info e m n ws ps c (fun _ c' => c' = with_event (delivery n e ps) c))
      as ([] & c' & E & ->); [done..|]. eexists. split_and!; [exact E|done|]. exists e.
    split_and!; [done|by apply inv_with_event|done]. }
  destruct binding as [|[]|info]; [done| |apply (Hgone Unbind); [done|by split_and!; [eexists|..|left]]|by apply (Hgone info)].
  destruct (sent_status_ok m ws Hm) as (st & Hst & _ & Hok).
  destruct (SendTwoWay_alive U (Alive true) binding' m n ws ps st d c) as ([] & c' & E & Hi' & He' & Ho); [done..|].
  exists c'. split_and!; [done..|]. exists st. done.
Qed.

(** [Dispatch] hands a reply to the one context that waits under its id, which then
    waits no longer.  Every other message leaves the books alone and tells nobody: an
    epitaph and an unknown id end the binding, an event does when its handler failed. *)
Theorem Dispatch_correct d c msg ev dec :
  inv U c d -> (ok ev = true \/ reason_ ev <> kUninitializedReason) ->
  exists r c', Dispatch msg ev dec c = Some (r, c') /\ txid_ c' = txid_ c /\
    ((exists d1 n d2, d = d1 ++ n :: d2 /\ maybe_epitaph msg = None /\ hdr_txid msg = txid_ c n /\ r = dec /\
        inv U c' (d1 ++ d2) /\ events c' = events c ++ [OnRawResult n (Received msg)]) \/
     (maybe_epitaph msg <> None \/ forall n, n ∈ d -> hdr_txid msg <> txid_ c n) /\ inv U c' d /\ events c' = events c /\
        r = match maybe_epitaph msg with
            | Some error => Some (PeerClosed error)
            | None => if hdr_txid msg =? 0 then if ok ev then None else Some ev
                      else Some (UnexpectedMessage ZX_ERR_NOT_FOUND (Some kErrorUnknownTxId))
            end).
Proof.
  intros Hi Hev.
  destruct (decide (maybe_epitaph msg = None /\ Exists (fun n => hdr_txid msg = txid_ c n) d)) as [[Hep Hx]|Hno].
  - apply Exists_exists in Hx as (n & (d1 & d2 & ->)%list_elem_of_split & Htx).
    destruct (Dispatch_reply U d1 n d2 c msg ev dec Hi Hep Htx) as (r & c' & E & Hi' & He & Ht & ->).
    exists dec, c'. split_and!; [done..|]. left. exists d1, n, d2. done.
  - assert (Hno' : maybe_epitaph msg <> None \/ forall n, n ∈ d -> hdr_txid msg <> txid_ c n).
    { destruct (maybe_epitaph msg); [by left|right]. intros n Hn Htx. apply Hno. split; [done|]. apply Exists_exists. eauto. }
    destruct (Dispatch_other U d c msg ev dec Hi Hno') as (r & c' & E & Hi' & He & Ht & Hr).
    { intros _ _ Hok. destruct Hev as [Hev|Hev]; [congruence|done]. }
    exists r, c'. split_and!; [done..|]. by right.
Qed.

(** One-way calls on a channel never fail an assertion, never report that the peer has
    closed, and leave the calls that wait alone. *)
Theorem SendOneWay_correct b b' m raw c :
  one_way m -> match b with Invalid => False | Alive _ => True | Gone info => concrete info end ->
  exists r c', SendOneWay b b' m (channel_write raw) c = Some (r, c') /\ is_peer_closed r = false /\ same_books c c' /\
    match GetTransportOrError b with
    | Some (inl _) => exists st, sent_status m (channel_write raw) = Some st /\ r = (if ok st then Ok else st) /\
        events c' = events c ++ written m 0 ++ (if ok st then [] else handled b' st)
    | Some (inr info) => exists e, ErrorFromUnbindInfo info = Some e /\ r = hide_peer_closed e /\ events c' = events c
    | None => False
    end.
Proof. exact (SendOneWay_ok b b' m raw c). Qed.

(** In every run of calls, messages, teardowns and tasks no assertion fails, and at
    every point the calls made with a context are those whose outcome it was told, those
    that wait for a reply and those whose error the dispatcher has yet to deliver. *)
Theorem calls_are_accounted_for acts s :
  starts U s -> legal U acts s ->
  exists s' d, run acts s = Some s' /\ inv U (client s') d /\
    forall n, calls n acts = (outcomes n s' + occ Some n d + occ task_for n (tasks s'))%nat.
Proof.
  intros Hs Hl. destruct (run_ok U acts s [] (proj1 Hs) Hl) as (s' & d & Hr & Hbk & Hc).
  exists s', d. split_and!; [done|apply Hbk|]. intros n. specialize (Hc n). rewrite (starts_accounted U s n Hs) in Hc.
  unfold accounted in Hc. lia.
Qed.

(** C3.  Once the binding is torn down and the dispatcher has run the client's tasks, every
    context was told the outcome of each of its calls, exactly once, in every run that is
    legal and in which the operations of the client do not overlap: a call is made with a
    context that does not wait and while ids are left, and the binding is torn down for a
    reason with an error status.  What happens otherwise is below: a call that is overtaken by
    the teardown is never told or fails an assertion, and so does a teardown after an epitaph
    of [ZX_OK] while a call waits. *)
Theorem every_call_is_answered_once acts h info s :
  starts U s -> legal U (acts ++ [Teardown h info]) s ->
  exists k s', run (acts ++ Teardown h info :: replicate k (RunTask 0)) s = Some s' /\
    forall n, outcomes n s' = calls n acts.
Proof.
  intros Hs Hl. destruct (run_ok U acts s [] (proj1 Hs) (legal_prefix U _ _ _ Hl)) as (s1 & d & Hr & Hbk & Hc).
  destruct (legal_app U _ _ _ _ Hl Hr) as [_ [Ha _]].
  destruct (Teardown_ok U s1 d h info Hbk Ha) as (s2 & Hp & Hbk2 & Hc2).
  destruct (drain U _ s2 [] Hbk2 eq_refl) as (s3 & Hr3 & _ & Ht3 & Hc3).
  exists (length (tasks s2)), s3. split.
  - rewrite run_actions_app, Hr. cbn [mbind option_bind run]. by rewrite Hp.
  - intros n. specialize (Hc n). rewrite (starts_accounted U s n Hs) in Hc. rewrite <- (Hc2 n), <- (Hc3 n) in Hc.
    unfold accounted in Hc at 1. rewrite Ht3, !occ_nil in Hc. lia.
Qed.

(** ** Where the promise breaks *)

(** A server that closes with an epitaph of [ZX_OK] makes the client tear down for a
    reason that is no error: if a call waits, telling it fails an assertion. *)
Theorem ok_epitaph_fails_assertion n d c msg ev dec :
  inv U c (n :: d) -> Z.of_nat (length (n :: d)) < 2 ^ 64 -> maybe_epitaph msg = Some ZX_OK ->
  Dispatch msg ev dec c = Some (Some (PeerClosed ZX_OK), c) /\ ReleaseResponseContexts (PeerClosed ZX_OK) c = None.
Proof.
  intros Hi Hlen Hep. split; [unfold Dispatch; by rewrite Hep|].
  destruct (cs_clear_spec _ _ _ (inv_set _ _ _ Hi)) as (w & Es & _). pose proof (list_move_spec _ _ (inv_list _ _ _ Hi)) as Hl.
  unfold ReleaseResponseContexts, gets, modify, on_contexts, mbind, ST_bind. rewrite (inv_size _ _ _ Hi Hlen), Nat2Z.id, Es.
  cbn [option_bind on_lists set_contexts delete_list_]. rewrite (list_next_head _ _ _ Hl). done.
Qed.

(** A call that found the transport and was overtaken by the teardown before it filed
    its context is sent and waits for ever: the teardown has told the others only. *)
Theorem late_call_is_not_told n d c info e m :
  inv U c d -> U n -> n ∉ d -> Z.of_nat (length d) < 2 ^ 64 -> deliverable info -> ErrorFromUnbindInfo info = Some e ->
  ok (out_status m) = true ->
  exists m' c', (ReleaseResponseContexts info ;; send_with_transport m n ZX_OK) c = Some (m', c') /\
    ok (out_status m') = true /\ inv U c' [n] /\ events c' = events c ++ (told e <$> d) ++ [Written (txid_ c' n)].
Proof.
  intros Hi HU Hn Hlen Hd He Hm.
  destruct (ReleaseResponseContexts_ok U info e d c Hi Hlen Hd He) as ([] & c1 & E1 & Hi1 & He1 & _).
  destruct (send_with_transport_ok U m n ZX_OK (out_status m) [] c1) as (m' & c2 & E2 & Hi2 & He2 & Hm2 & _); try done.
  { set_solver. }
  { unfold sent_status. by rewrite Hm, Z.eqb_refl. }
  exists m', c2. split_and!; [|by rewrite Hm2|done|].
  - unfold mbind, ST_bind. by rewrite E1.
  - rewrite He2, He1, <- app_assoc. unfold written. by rewrite Hm.
Qed.

(** A call whose write failed and that is overtaken by the teardown finds its context in
    no container when it comes to forget it, and fails an assertion. *)
Theorem forget_after_teardown_fails_assertion n d c info e m ps binding :
  inv U c (d ++ [n]) -> Z.of_nat (length (d ++ [n])) < 2 ^ 64 -> deliverable info -> ErrorFromUnbindInfo info = Some e ->
  (ReleaseResponseContexts info ;; send_failed m n ps binding) c = None.
Proof.
  intros Hi Hlen Hd He.
  destruct (ReleaseResponseContexts_ok U info e _ c Hi Hlen Hd He) as ([] & c1 & E1 & Hi1 & _).
  unfold mbind at 1, ST_bind at 1. rewrite E1. unfold send_failed, ForgetAsyncTxn, gets, lift, mbind, ST_bind.
  rewrite (cs_in_container_false _ n); [done|]. apply (inv_idle _ _ _ Hi1); [|set_solver].
  apply (inv_exist _ _ _ Hi). set_solver.
Qed.
End Theorems.

(** ** Examples *)

Module ClientExample.
(** The published error codes and ordinal, the contexts in a WAVL tree, and a counter that
    is about to leave the 31-bit range. *)
#[local] Existing Instance fuchsia_errors.
#[local] Instance ordinals : FidlOrdinals := {| kFidlOrdinalEpitaph := 2 ^ 64 - 1 |}.
#[local] Instance contexts : ContextSet := wavl_contexts 9.
#[local] Instance contexts_laws : ContextSetLaws contexts := wavl_contexts_laws 9.

Definition objects : list N := [1; 2; 3]%N.
Definition exists_ (n : N) : Prop := n ∈ objects.

Definition new_client : ClientBase := {|
  contexts_ := World (empty_tree 9) (list_to_map ((fun n => (n, fresh_node)) <$> objects)) : @cs_state contexts;
  delete_list_ := ([], []) : @lists seq_lists;
  txid_base_ := 2 ^ 31 - 2;
  txid_ := fun _ => 0;
  events := [] |}.

Lemma new_client_inv : inv exists_ new_client [].
Proof.
  assert (Hidle : forall n, n ∈ objects -> heap (contexts_ new_client) !! n = Some fresh_node).
  { intros n Hn. repeat (apply elem_of_cons in Hn as [->|Hn]; [reflexivity|]). by apply elem_of_nil in Hn. }
  split; try by intros n ?%elem_of_nil.
  - exists []. split; [|done]. apply empty_holds.
  - split; [done|constructor].
  - done.
  - intros n Hn _. exists false. by apply Hidle.
Qed.

(** After one call and after two. *)
Definition after (m : ST ClientBase unit) (c : ClientBase) : ClientBase := match m c with Some (_, c') => c' | None => c end.
Definition one : ClientBase := after (PrepareAsyncTxn 1) new_client.
Definition two : ClientBase := after (PrepareAsyncTxn 2) one.

Lemma in_objects n : bool_decide (n ∈ objects) = true -> exists_ n.
Proof. apply bool_decide_eq_true. Qed.

Lemma one_inv : inv exists_ one [1%N].
Proof.
  destruct (PrepareAsyncTxn_ok exists_ 1 [] new_client new_client_inv) as ([] & c' & E & H & _); [by apply in_objects|set_solver|done|].
  unfold one, after. by rewrite E.
Qed.

Lemma two_inv : inv exists_ two [1; 2]%N.
Proof.
  destruct (PrepareAsyncTxn_ok exists_ 2 [1%N] one one_inv) as ([] & c' & E & H & _); [by apply in_objects|set_solver|done|].
  unfold two, after. by rewrite E.
Qed.

(** The ids on both sides of the wrap-around. *)
Lemma two_txids : txid_ two 1 = 2 ^ 31 - 1 /\ txid_ two 2 = 1.
Proof. by split; vm_compute. Qed.

Definition request : OutgoingMessage := {| out_status := Ok; out_txid := 0 |}.
Definition reply (txid : Z) : IncomingMessage := {| hdr_txid := txid; hdr_ordinal := 7; epitaph_error := 0; payload := [] |}.
Definition epitaph (error : Z) : IncomingMessage :=
  {| hdr_txid := 0; hdr_ordinal := 2 ^ 64 - 1; epitaph_error := error; payload := [] |}.

Lemma peer_closed_deliverable : deliverable (PeerClosed (-24)).
Proof. split_and!; [by eexists|done|by right]. Qed.

Lemma PrepareAsyncTxn_correct_witness :
  exists c', PrepareAsyncTxn 3 two = Some (tt, c') /\ inv exists_ c' [1; 2; 3]%N /\ events c' = [] /\
    0 < txid_ c' 3 < 2 ^ 31 /\
    forall m, m ∈ [1; 2]%N -> txid_ c' m = txid_ two m /\ txid_ c' m <> txid_ c' 3.
Proof. apply (PrepareAsyncTxn_correct exists_ 3 [1; 2]%N two two_inv); [by apply in_objects|set_solver|done]. Defined.

(** The write fails and the dispatcher takes the task. *)
Lemma SendTwoWay_correct_witness :
  exists c', SendTwoWay (Alive true) (Alive true) request 3 (-1) 0 two = Some (tt, c') /\ inv exists_ c' [1; 2]%N.
Proof.
  destruct (SendTwoWay_correct exists_ (Alive true) (Alive true) request 3 (-1) 0 [1; 2]%N two two_inv)
    as (c' & E & _ & st & Hst & Hok & Hi & _); [by apply in_objects|set_solver|done|by left|done|].
  exists c'. split; [exact E|]. rewrite Hok in Hi. exact Hi.
Defined.

Lemma Dispatch_correct_witness :
  exists r c', Dispatch (reply 1) Ok None two = Some (r, c') /\ events c' = [OnRawResult 2 (Received (reply 1))].
Proof.
  destruct (Dispatch_correct exists_ [1; 2]%N two (reply 1) Ok None two_inv) as (r & c' & E & _ & Hor); [by left|].
  exists r, c'. split; [exact E|]. destruct Hor as [(d1 & n & d2 & Hd & _ & Ht & _ & _ & He)|([Hno|Hno] & _)].
  - destruct (bool_decide (n = 2%N)) eqn:En; [apply bool_decide_eq_true in En as ->; exact He|].
    apply bool_decide_eq_false in En. assert (Hn : n ∈ [1; 2]%N) by (rewrite Hd, elem_of_app; right; left).
    apply elem_of_cons in Hn as [->|[->|Hn]%elem_of_cons]; [|destruct (En eq_refl)|destruct (not_elem_of_nil n Hn)].
    rewrite (proj1 two_txids) in Ht. discriminate Ht.
  - destruct (Hno eq_refl).
  - destruct (Hno 2%N); [right; left|]. rewrite (proj2 two_txids). reflexivity.
Defined.

(** The peer has closed. *)
Lemma SendOneWay_correct_witness :
  exists r c', SendOneWay (Alive true) (Alive true) request (channel_write (-24)) two = Some (r, c') /\
    is_peer_closed r = false /\ same_books two c'.
Proof.
  destruct (SendOneWay_correct (Alive true) (Alive true) request (-24) two) as (r & c' & E & Hp & Hs & _);
    [split; [by left|done]|done|].
  by exists r, c'.
Defined.

Definition start : system := {| client := new_client; tasks := [] |}.

Lemma start_starts : starts exists_ start.
Proof. split_and!; [|done|done]. split; [exact new_client_inv|done|constructor]. Qed.

(** Two calls are sent, one fails to be written and its error is posted, one reply comes. *)
Definition session : list action :=
  [Call 1 (Alive true) (Alive true) request 0 0; Call 2 (Alive true) (Alive true) request 0 0;
   Call 3 (Alive true) (Alive true) request (-1) 0; Message (reply 1) Ok None].

Ltac step_legal :=
  apply legal_cons;
  [first [exact peer_closed_deliverable
         | split_and!; [by apply in_objects|by vm_compute|by vm_compute|by left|done]
         | by left]|].

Lemma session_legal : legal exists_ session start.
Proof. unfold session. do 4 step_legal. done. Qed.

Lemma session_and_teardown_legal : legal exists_ (session ++ [Teardown true (PeerClosed (-24))]) start.
Proof. unfold session. cbn [app]. do 5 step_legal. done. Qed.

Lemma calls_are_accounted_for_witness :
  exists s' d, run session start = Some s' /\ inv exists_ (client s') d /\
    forall n, calls n session = (outcomes n s' + occ Some n d + occ task_for n (tasks s'))%nat.
Proof. exact (calls_are_accounted_for exists_ session start start_starts session_legal). Defined.

Lemma every_call_is_answered_once_witness :
  exists k s', run (session ++ Teardown true (PeerClosed (-24)) :: replicate k (RunTask 0)) start = Some s' /\
    forall n, outcomes n s' = calls n session.
Proof. exact (every_call_is_answered_once exists_ session true _ start start_starts session_and_teardown_legal). Defined.

Lemma ok_epitaph_fails_assertion_witness :
  Dispatch (epitaph 0) Ok None two = Some (Some (PeerClosed 0), two) /\ ReleaseResponseContexts (PeerClosed 0) two = None.
Proof. exact (ok_epitaph_fails_assertion exists_ 1 [2%N] two (epitaph 0) Ok None two_inv eq_refl eq_refl). Defined.

Lemma late_call_is_not_told_witness :
  exists m' c', (ReleaseResponseContexts (PeerClosed (-24)) ;; send_with_transport request 3 0) two = Some (m', c') /\
    inv exists_ c' [3%N] /\ outcomes 3 {| client := c'; tasks := [] |} = 0%nat.
Proof.
  destruct (late_call_is_not_told exists_ 3 [1; 2]%N two (PeerClosed (-24)) (PeerClosed (-24)) request two_inv)
    as (m' & c' & E & _ & Hi & He); [by apply in_objects|set_solver|done|exact peer_closed_deliverable|done|done|].
  exists m', c'. split; [exact E|]. split; [exact Hi|]. unfold outcomes. cbn [client]. rewrite He. reflexivity.
Defined.

Lemma forget_after_teardown_fails_assertion_witness :
  (ReleaseResponseContexts (PeerClosed (-24)) ;; send_failed request 2 0 (Alive true)) two = None.
Proof.
  exact (forget_after_teardown_fails_assertion exists_ 2 [1%N] two (PeerClosed (-24)) (PeerClosed (-24)) request 0 (Alive true)
           two_inv eq_refl peer_closed_deliverable eq_refl).
Defined.
End ClientExample.
