(* ===== verification/Binding.v ===== *)
(** * The asynchronous binding

    Models src/fidl/cpp/wire/async_binding.cc and the parts of async_transaction.cc and
    transport_channel.cc that drive it: the life of a binding between a transport and a
    dispatcher that may run several threads.

    The binding is a transition system.  A step is what one thread does without being
    observed: a critical section of [lock_], an operation of the transport's waiter, a
    post to the dispatcher, a change of who holds a reference.  [Crash] is a failed
    assertion, an abort, a panic, or a use of the waiter that its owner forbids. *)

From S2P Require Import Prelude FidlTypes FidlStatus.

(** ** The lifecycle *)

Inductive LifecycleState := kCreated | kBound | kMustTeardown | kTorndown.
#[export] Instance LifecycleState_eq_dec : EqDecision LifecycleState.
Proof. solve_decision. Defined.

(** A default constructed [UnbindInfo]. *)
Definition no_info {zx : ZxErrors} : UnbindInfo := MkStatus ZX_ERR_INTERNAL kUninitializedReason kUninitializedReason None.

Record Lifecycle := { state_ : LifecycleState; did_enter_bound_ : bool; info_ : UnbindInfo }.

Definition Is (l : Lifecycle) (st : LifecycleState) : bool :=
  match state_ l, st with
  | kCreated, kCreated | kBound, kBound | kMustTeardown, kMustTeardown | kTorndown, kTorndown => true
  | _, _ => false
  end.

Definition TransitionToBound (l : Lifecycle) : option Lifecycle :=
  if Is l kCreated then Some {| state_ := kBound; did_enter_bound_ := true; info_ := info_ l |} else None.

Definition TransitionToMustTeardown (info : UnbindInfo) (l : Lifecycle) : option Lifecycle :=
  if Is l kCreated || Is l kBound || Is l kMustTeardown then
    if negb (Is l kMustTeardown)
    then Some {| state_ := kMustTeardown; did_enter_bound_ := did_enter_bound_ l; info_ := info |}
    else Some l
  else None.

Definition TransitionToTorndown {zx : ZxErrors} (l : Lifecycle) : option (UnbindInfo * Lifecycle) :=
  if Is l kMustTeardown
  then Some (info_ l, {| state_ := kTorndown; did_enter_bound_ := did_enter_bound_ l; info_ := no_info |})
  else None.

(** ** Who does what *)

(** The outcome of the waiter's [Cancel]. *)
Inductive CancellationResult := kOk | kNotFound | kDispatcherContextNeeded | kNotSupported.
#[export] Instance CancellationResult_eq_dec : EqDecision CancellationResult.
Proof. solve_decision. Defined.

(** Where the thread is that handles a message: in the up-call to the user, with the error
    that a failed [EnableNextDispatch] left behind, before the next wait, or in the three
    parts of [PerformTeardown]. *)
Inductive handler_pc :=
  | HIdle
  | HUpcall (error : option DispatchError)
  | HCheck
  | HPerform (info : option UnbindInfo)
  | HSet (info : UnbindInfo)
  | HFinish (info : UnbindInfo).

(** Where the call of [StartTeardownWithInfo] is that moved the lifecycle; [first] when
    [BeginFirstWait] makes it. *)
Inductive starter_pc :=
  | SNone
  | SPost (first : bool) (info : UnbindInfo)
  | SCancel (info : UnbindInfo)
  | SExtract (info : UnbindInfo)
  | SDone.

(** Where the [TeardownTask] is. *)
Inductive task_pc :=
  | TNone
  | TPosted
  | TAgain
  | TPerform
  | TSet (info : UnbindInfo)
  | TFinish (info : UnbindInfo)
  | TDone.

Inductive kind := AsyncServer | AsyncClient.
Inductive ThreadingPolicy := kCreateAndTeardownFromAnyThread | kCreateAndTeardownFromDispatcherThread.

(** The binding: its own fields, the state of the waiter, the threads, and who holds a
    reference to it: up-calls that went on after [EnableNextDispatch] ([extenders], and
    [detached] once they gave theirs up) and other callers ([transient]).  [notified]
    collects what [FinishTeardown] told the user. *)
Record binding := {
  lifecycle_ : Lifecycle;
  keep_alive_ : bool;
  shared_unbind_info_ : option UnbindInfo;
  transport_ : bool;
  armed : bool;
  handler : handler_pc;
  starter : starter_pc;
  future : option CancellationResult;
  task : task_pc;
  extenders : nat;
  detached : nat;
  transient : nat;
  notified : list UnbindInfo;
}.

Inductive outcome := Disabled | Crash | Next (b : binding).

(** Updates of one field. *)
Definition with_lifecycle l b := {| lifecycle_ := l; keep_alive_ := keep_alive_ b; shared_unbind_info_ := shared_unbind_info_ b;
  transport_ := transport_ b; armed := armed b; handler := handler b; starter := starter b; future := future b; task := task b;
  extenders := extenders b; detached := detached b; transient := transient b; notified := notified b |}.
Definition with_keep_alive k b := {| lifecycle_ := lifecycle_ b; keep_alive_ := k; shared_unbind_info_ := shared_unbind_info_ b;
  transport_ := transport_ b; armed := armed b; handler := handler b; starter := starter b; future := future b; task := task b;
  extenders := extenders b; detached := detached b; transient := transient b; notified := notified b |}.
Definition with_unbind_info i b := {| lifecycle_ := lifecycle_ b; keep_alive_ := keep_alive_ b; shared_unbind_info_ := i;
  transport_ := transport_ b; armed := armed b; handler := handler b; starter := starter b; future := future b; task := task b;
  extenders := extenders b; detached := detached b; transient := transient b; notified := notified b |}.
Definition with_transport t b := {| lifecycle_ := lifecycle_ b; keep_alive_ := keep_alive_ b;
  shared_unbind_info_ := shared_unbind_info_ b;
  transport_ := t; armed := armed b; handler := handler b; starter := starter b; future := future b; task := task b;
  extenders := extenders b; detached := detached b; transient := transient b; notified := notified b |}.
Definition with_armed a b := {| lifecycle_ := lifecycle_ b; keep_alive_ := keep_alive_ b;
  shared_unbind_info_ := shared_unbind_info_ b;
  transport_ := transport_ b; armed := a; handler := handler b; starter := starter b; future := future b; task := task b;
  extenders := extenders b; detached := detached b; transient := transient b; notified := notified b |}.
Definition with_handler h b := {| lifecycle_ := lifecycle_ b; keep_alive_ := keep_alive_ b;
  shared_unbind_info_ := shared_unbind_info_ b;
  transport_ := transport_ b; armed := armed b; handler := h; starter := starter b; future := future b; task := task b;
  extenders := extenders b; detached := detached b; transient := transient b; notified := notified b |}.
Definition with_starter s b := {| lifecycle_ := lifecycle_ b; keep_alive_ := keep_alive_ b;
  shared_unbind_info_ := shared_unbind_info_ b;
  transport_ := transport_ b; armed := armed b; handler := handler b; starter := s; future := future b; task := task b;
  extenders := extenders b; detached := detached b; transient := transient b; notified := notified b |}.
Definition with_future f b := {| lifecycle_ := lifecycle_ b; keep_alive_ := keep_alive_ b;
  shared_unbind_info_ := shared_unbind_info_ b;
  transport_ := transport_ b; armed := armed b; handler := handler b; starter := starter b; future := f; task := task b;
  extenders := extenders b; detached := detached b; transient := transient b; notified := notified b |}.
Definition with_task t b := {| lifecycle_ := lifecycle_ b; keep_alive_ := keep_alive_ b;
  shared_unbind_info_ := shared_unbind_info_ b;
  transport_ := transport_ b; armed := armed b; handler := handler b; starter := starter b; future := future b; task := t;
  extenders := extenders b; detached := detached b; transient := transient b; notified := notified b |}.
Definition with_refs e d t b := {| lifecycle_ := lifecycle_ b; keep_alive_ := keep_alive_ b;
  shared_unbind_info_ := shared_unbind_info_ b;
  transport_ := transport_ b; armed := armed b; handler := handler b; starter := starter b; future := future b; task := task b;
  extenders := e; detached := d; transient := t; notified := notified b |}.
Definition notify i b := {| lifecycle_ := lifecycle_ b; keep_alive_ := keep_alive_ b;
  shared_unbind_info_ := shared_unbind_info_ b;
  transport_ := transport_ b; armed := armed b; handler := handler b; starter := starter b; future := future b; task := task b;
  extenders := extenders b; detached := detached b; transient := transient b; notified := notified b ++ [i] |}.

(** After [Create] and [InitKeepAlive]. *)
Definition Create {zx : ZxErrors} : binding := {|
  lifecycle_ := {| state_ := kCreated; did_enter_bound_ := false; info_ := no_info |};
  keep_alive_ := true; shared_unbind_info_ := None; transport_ := true; armed := false; handler := HIdle; starter := SNone;
  future := None; task := TNone; extenders := 0; detached := 0; transient := 0; notified := [] |}.

(** What must not fail, and conditions for a step to be possible. *)
Definition need {A} (o : option A) (k : A -> outcome) : outcome := match o with Some a => k a | None => Crash end.
Definition must (c : bool) (o : outcome) : outcome := if c then o else Crash.
Definition when (c : bool) (o : outcome) : outcome := if c then o else Disabled.

(** Who runs [PerformTeardown]: the thread that handles messages or the teardown task. *)
Inductive who := ByHandler | ByTask.

(** Where the caller of [StartTeardownWithInfo] has its reference from: it locked the weak
    one, or it is an up-call that called [EnableNextDispatch] and gives up its extender. *)
Inductive caller := FromWeak | FromExtender.

Section Binding.
Context {zx : ZxErrors} (k : kind) (policy : ThreadingPolicy).

(** *** Waiting *)

(** [Begin] of the waiter: a wait must not be begun twice. *)
Definition Begin (b : binding) : option binding := if armed b then None else Some (with_armed true b).

(** [Cancel] of the waiter, with the outcome [r]. *)
Definition Cancel (r : CancellationResult) (b : binding) : binding :=
  match r with kOk => with_armed false b | _ => b end.

(** [status] is what the dispatcher answers to [Begin]. *)
Definition CheckForTeardownAndBeginNextWait (status : Z) (b : binding) : option (Z * binding) :=
  match state_ (lifecycle_ b) with
  | kMustTeardown => Some (ZX_ERR_CANCELED, b)
  | kBound =>
      if negb (status =? ZX_OK)
      then l ← TransitionToMustTeardown (DispatcherError status) (lifecycle_ b); Some (status, with_lifecycle l b)
      else b' ← Begin b; Some (status, b')
  | _ => None
  end.

(** *** Tearing down *)

(** The critical section of [PerformTeardown], with the move of [keep_alive_] before it. *)
Definition PerformTeardown (info : option UnbindInfo) (b : binding) : option (UnbindInfo * binding) :=
  if negb (keep_alive_ b) then None
  else
    l ← match info with Some i => TransitionToMustTeardown i (lifecycle_ b) | None => Some (lifecycle_ b) end;
    '(stored_info, l') ← TransitionToTorndown l;
    Some (stored_info, with_keep_alive false (with_lifecycle l' b)).

(** [LockedUnbindInfo]. *)
Definition Set_ (info : UnbindInfo) (b : binding) : option binding :=
  match shared_unbind_info_ b with Some _ => None | None => Some (with_unbind_info (Some info) b) end.
Definition Get (b : binding) : option UnbindInfo := shared_unbind_info_ b.

(** The references that [StartTeardownWithInfo] and [TeardownTask::Invoke] hold. *)
Definition starter_refs (s : starter_pc) : bool := match s with SPost _ _ | SCancel _ | SExtract _ => true | _ => false end.
Definition task_refs (t : task_pc) : bool := match t with TAgain => true | _ => false end.

(** [FinishTeardown] of a server waits until no one else has a reference; that of a client
    does not. *)
Definition may_finish (b : binding) : bool :=
  match k with
  | AsyncServer => bool_decide (extenders b = 0%nat) && bool_decide (transient b = 0%nat) &&
                   negb (starter_refs (starter b)) && negb (task_refs (task b))
  | AsyncClient => true
  end.

(** [PerformTeardown] by the thread [w] between its parts. *)
Definition perform_pc (w : who) (b : binding) : option (option UnbindInfo) :=
  match w with
  | ByHandler => match handler b with HPerform info => Some info | _ => None end
  | ByTask => match task b with TPerform => Some None | _ => None end
  end.
Definition set_pc (w : who) (b : binding) : option UnbindInfo :=
  match w with
  | ByHandler => match handler b with HSet info => Some info | _ => None end
  | ByTask => match task b with TSet info => Some info | _ => None end
  end.
Definition finish_pc (w : who) (b : binding) : option UnbindInfo :=
  match w with
  | ByHandler => match handler b with HFinish info => Some info | _ => None end
  | ByTask => match task b with TFinish info => Some info | _ => None end
  end.
Definition move_on (w : who) (h : handler_pc) (t : task_pc) (b : binding) : binding :=
  match w with ByHandler => with_handler h b | ByTask => with_task t b end.

(** The binding object is alive as long as someone has a reference to it. *)
Definition alive (b : binding) : bool :=
  keep_alive_ b || bool_decide (extenders b <> 0%nat) || bool_decide (transient b <> 0%nat) ||
  starter_refs (starter b) || task_refs (task b) ||
  match handler b with HSet _ | HFinish _ => true | _ => false end ||
  match task b with TSet _ | TFinish _ => true | _ => false end.

(** The first critical section of [StartTeardownWithInfo]; a caller that comes too late
    only drops its reference. *)
Definition StartTeardownWithInfo (first : bool) (info : UnbindInfo) (b : binding) : outcome :=
  if Is (lifecycle_ b) kMustTeardown || Is (lifecycle_ b) kTorndown then Next b
  else
    need (TransitionToMustTeardown info (lifecycle_ b)) (fun l =>
    match starter b with
    | SNone => Next (with_starter (SPost first info) (with_lifecycle l b))
    | _ => Crash
    end).

(** The caller's reference moves into the call. *)
Definition drop_ref (c : caller) (b : binding) : option binding :=
  match c with
  | FromWeak => if bool_decide (transient b = 0%nat) then None
                else Some (with_refs (extenders b) (detached b) (transient b - 1) b)
  | FromExtender => if bool_decide (extenders b = 0%nat) then None
                    else Some (with_refs (extenders b - 1) (detached b + 1) (transient b) b)
  end.

(** *** The steps *)

Definition task_continues (r : CancellationResult) (again : bool) (b : binding) : outcome :=
  match r with
  | kOk => Next (with_task TPerform b)
  | kNotFound => Next (with_task TDone b)
  | kDispatcherContextNeeded =>
      if again then Crash else if alive b then Next (with_task TAgain b) else Next (with_task TDone b)
  | kNotSupported => Crash
  end.

(** [BeginFirstWait]: begin the wait, or start the teardown. *)
Definition begin_first_wait (status : Z) (b : binding) : outcome :=
  must (Is (lifecycle_ b) kCreated)
    (if status =? ZX_OK
     then need (Begin b) (fun b => need (TransitionToBound (lifecycle_ b)) (fun l => Next (with_lifecycle l b)))
     else StartTeardownWithInfo true (DispatcherError status) b).

(** The entry of [MessageHandler]. *)
Definition on_message (b : binding) : outcome :=
  when (armed b)
    (match handler b with
     | HIdle => must (keep_alive_ b) (Next (with_handler (HUpcall None) (with_armed false b)))
     | _ => Crash
     end).

(** [WaitFailureHandler]. *)
Definition on_wait_failure (info : UnbindInfo) (b : binding) : outcome :=
  when (armed b)
    (match handler b with
     | HIdle => must (keep_alive_ b) (Next (with_handler (HPerform (Some info)) (with_armed false b)))
     | _ => Crash
     end).

(** [SyncTransaction::EnableNextDispatch]: on success the up-call goes on without the
    binding but keeps a reference to it; on failure it leaves an error behind. *)
Definition enable_next_dispatch (status : Z) (b : binding) : outcome :=
  match k, handler b with
  | AsyncServer, HUpcall None =>
      need (CheckForTeardownAndBeginNextWait status b) (fun '(st, b') =>
        if st =? ZX_OK
        then Next (with_handler HIdle (with_refs (extenders b' + 1) (detached b') (transient b') b'))
        else Next (with_handler (HUpcall (Some {| info := Unbind; origin := kReceive |})) b'))
  | _, _ => Disabled
  end.

(** [MessageHandler] after the up-call. *)
Definition on_dispatched (maybe_error : option DispatchError) (b : binding) : outcome :=
  match handler b with
  | HUpcall left_behind =>
      match (match left_behind with Some e => Some e | None => maybe_error end) with
      | Some e => need (RequiresImmediateTeardown e) (fun now =>
                    Next (with_handler (if (now : bool) then HPerform (Some (info e)) else HCheck) b))
      | None => Next (with_handler HCheck b)
      end
  | _ => Disabled
  end.

(** The end of [MessageHandler]. *)
Definition next_wait (status : Z) (b : binding) : outcome :=
  match handler b with
  | HCheck => need (CheckForTeardownAndBeginNextWait status b) (fun '(st, b') =>
                Next (with_handler (if st =? ZX_OK then HIdle else HPerform None) b'))
  | _ => Disabled
  end.

(** The parts of [PerformTeardown]. *)
Definition perform_teardown (w : who) (b : binding) : outcome :=
  match perform_pc w b with
  | Some info => need (PerformTeardown info b) (fun '(i, b') => Next (move_on w (HSet i) (TSet i) b'))
  | None => Disabled
  end.

Definition set_info (w : who) (b : binding) : outcome :=
  match set_pc w b with
  | Some i => need (Set_ i b) (fun b' => Next (move_on w (HFinish i) (TFinish i) b'))
  | None => Disabled
  end.

Definition finish_teardown (w : who) (b : binding) : outcome :=
  match finish_pc w b with
  | Some i => when (may_finish b) (Next (notify i (move_on w HIdle TDone b)))
  | None => Disabled
  end.

(** A call of [StartTeardownWithInfo], and one through [HandleError]. *)
Definition start_teardown (c : caller) (info : UnbindInfo) (b : binding) : outcome :=
  match drop_ref c b with Some b' => StartTeardownWithInfo false info b' | None => Disabled end.

(** If there is no teardown the reference is not moved: a local one is dropped when the caller
    returns from reporting the error, and an up-call keeps its extender until it returns; it
    reports nothing more, so that it is one of the other holders from then on. *)
Definition keep_ref (c : caller) (b b' : binding) : binding :=
  match c with FromWeak => b' | FromExtender => with_refs (extenders b - 1) (detached b) (transient b + 1) b end.

Definition HandleError_ (c : caller) (error : DispatchError) (b : binding) : outcome :=
  match drop_ref c b with
  | Some b' => need (RequiresImmediateTeardown error) (fun now =>
                 if (now : bool) then StartTeardownWithInfo false (info error) b' else Next (keep_ref c b b'))
  | None => Disabled
  end.

(** [StartTeardownWithInfo] after its first critical section: post the task, cancel the
    wait, extract the transport. *)
Definition post_task (status : Z) (b : binding) : outcome :=
  match starter b with
  | SPost first i =>
      if status =? ZX_OK then Next (with_task TPosted (with_starter (SCancel i) b))
      else must (negb first) (Next (with_starter SDone b))
  | _ => Disabled
  end.

Definition cancel_wait (r : CancellationResult) (b : binding) : outcome :=
  match starter b with
  | SCancel i =>
      Next (with_starter (SExtract i)
        (if did_enter_bound_ (lifecycle_ b) then with_future (Some r) (Cancel r b) else with_future (Some kOk) b))
  | _ => Disabled
  end.

Definition extract_transport (unique : bool) (b : binding) : outcome :=
  match starter b with
  | SExtract i =>
      match reason_ i, k, policy with
      | kUnbind, AsyncClient, kCreateAndTeardownFromDispatcherThread =>
          must unique (must (transport_ b) (Next (with_starter SDone (with_transport false b))))
      | _, _, _ => Next (with_starter SDone b)
      end
  | _ => Disabled
  end.

(** [TeardownTask::Invoke]: the result of the cancellation, and a second one. *)
Definition invoke_task (b : binding) : outcome :=
  match task b, future b with TPosted, Some r => task_continues r false b | _, _ => Disabled end.

Definition cancel_again (r : CancellationResult) (b : binding) : outcome :=
  match task b with TAgain => task_continues r true (Cancel r b) | _ => Disabled end.

(** References: a weak one is locked, one is dropped, and the up-calls that called
    [EnableNextDispatch] return. *)
Definition lock_weak (b : binding) : outcome :=
  when (alive b) (Next (with_refs (extenders b) (detached b) (transient b + 1) b)).

Definition drop_weak (b : binding) : outcome :=
  when (bool_decide (transient b <> 0%nat)) (Next (with_refs (extenders b) (detached b) (transient b - 1) b)).

Definition extender_returns (b : binding) : outcome :=
  when (bool_decide (extenders b <> 0%nat)) (Next (with_refs (extenders b - 1) (detached b) (transient b) b)).

Definition detached_returns (b : binding) : outcome :=
  when (bool_decide (detached b <> 0%nat)) (Next (with_refs (extenders b) (detached b - 1) (transient b) b)).

Inductive label :=
  (** [BeginFirstWait]; [status] is the dispatcher's answer. *)
  | BeginFirstWait (status : Z)
  (** The dispatcher calls the waiter back, with a message or with a failure. *)
  | MessageHandler
  | WaitFailureHandler (info : UnbindInfo)
  (** The up-call calls [EnableNextDispatch], or returns. *)
  | EnableNextDispatch (status : Z)
  | Dispatched (maybe_error : option DispatchError)
  (** The thread of the message handler begins the next wait. *)
  | NextWait (status : Z)
  (** The parts of [PerformTeardown]. *)
  | Perform (w : who) | SetInfo (w : who) | FinishTeardown (w : who)
  (** [StartTeardownWithInfo], called for a reason or through [HandleError], and its parts. *)
  | StartTeardown (c : caller) (info : UnbindInfo)
  | OnSendError (c : caller) (error : DispatchError)
  | PostTask (status : Z)
  | CancelWait (r : CancellationResult)
  | ExtractTransport (unique : bool)
  (** [TeardownTask::Invoke] gets the result, and cancels again. *)
  | InvokeTask
  | CancelAgain (r : CancellationResult)
  (** References come and go. *)
  | LockWeak | DropWeak | ExtenderReturns | DetachedReturns.

Definition step (l : label) (b : binding) : outcome :=
  match l with
  | BeginFirstWait status => begin_first_wait status b
  | MessageHandler => on_message b
  | WaitFailureHandler info => on_wait_failure info b
  | EnableNextDispatch status => enable_next_dispatch status b
  | Dispatched maybe_error => on_dispatched maybe_error b
  | NextWait status => next_wait status b
  | Perform w => perform_teardown w b
  | SetInfo w => set_info w b
  | FinishTeardown w => finish_teardown w b
  | StartTeardown c info => start_teardown c info b
  | OnSendError c error => HandleError_ c error b
  | PostTask status => post_task status b
  | CancelWait r => cancel_wait r b
  | ExtractTransport unique => extract_transport unique b
  | InvokeTask => invoke_task b
  | CancelAgain r => cancel_again r b
  | LockWeak => lock_weak b
  | DropWeak => drop_weak b
  | ExtenderReturns => extender_returns b
  | DetachedReturns => detached_returns b
  end.

(** What the dispatcher, the waiter and the users of a binding owe.  The waiter's [Cancel]
    succeeds exactly on a wait that has begun and not fired, is supported, and does not ask
    for the dispatcher's context in a dispatcher task.  The first teardown can be posted,
    the endpoint of a single-threaded client is taken when no synchronous call runs, users
    are given the binding once its first wait has begun, which is begun once, and errors have
    a reason. *)
Definition cancels (b : binding) (again : bool) (r : CancellationResult) : Prop :=
  match r with
  | kOk => armed b = true
  | kNotFound => armed b = false
  | kDispatcherContextNeeded => again = false
  | kNotSupported => False
  end.

Definition reasoned (e : DispatchError) : Prop := reason_ (info e) <> kUninitializedReason.

Definition owed (l : label) (b : binding) : Prop :=
  match l with
  | BeginFirstWait _ => Is (lifecycle_ b) kCreated = true
  | Dispatched (Some e) => reasoned e
  | StartTeardown _ _ => Is (lifecycle_ b) kCreated = false
  | OnSendError _ e => Is (lifecycle_ b) kCreated = false /\ reasoned e
  | PostTask status => match starter b with SPost true _ => status = ZX_OK | _ => True end
  | CancelWait r => did_enter_bound_ (lifecycle_ b) = true -> cancels b false r
  | CancelAgain r => cancels b true r
  | ExtractTransport unique => unique = true
  | _ => True
  end.

(** The steps that fail an assertion or panic at once: the first wait is begun a second time,
    the first teardown cannot be posted, a wait cannot be cancelled even in a task of the
    dispatcher, the endpoint of a single-threaded client is shared when it is unbound, and
    an error that was met in sending has no reason. *)
Definition unreasoned (e : DispatchError) : Prop := origin e = kSend /\ reason_ (info e) = kUninitializedReason.

Inductive panics : label -> binding -> Prop :=
  | panics_begun status b : Is (lifecycle_ b) kCreated = false -> panics (BeginFirstWait status) b
  | panics_post status i b : starter b = SPost true i -> status <> ZX_OK -> panics (PostTask status) b
  | panics_again r b : task b = TAgain -> r = kDispatcherContextNeeded \/ r = kNotSupported -> panics (CancelAgain r) b
  | panics_shared i b : starter b = SExtract i -> reason_ i = kUnbind -> k = AsyncClient -> policy = kCreateAndTeardownFromDispatcherThread -> panics (ExtractTransport false) b
  | panics_dispatched e b : handler b = HUpcall None -> unreasoned e -> panics (Dispatched (Some e)) b
  | panics_sent c e b : drop_ref c b <> None -> unreasoned e -> panics (OnSendError c e) b.

Inductive reachable : binding -> Prop :=
  | reachable_Create : reachable Create
  | reachable_step b l b' : reachable b -> owed l b -> step l b = Next b' -> reachable b'.
End Binding.
