(* ===== verification/BindingCorrect.v ===== *)
(** * The binding is torn down once

    The invariant of the transition system of Binding.v: at every moment exactly one party
    is in charge of the binding. *)

From S2P Require Import Prelude FidlTypes FidlStatus Binding.

(** Open the definition of a step. *)
Tactic Notation "open_step" := unfold
  step, begin_first_wait, on_message, on_wait_failure, enable_next_dispatch, on_dispatched, next_wait, perform_teardown, set_info,
  finish_teardown, start_teardown, HandleError_, post_task, cancel_wait, extract_transport, invoke_task, cancel_again, lock_weak, drop_weak,
  extender_returns, detached_returns.
Tactic Notation "open_step" "in" hyp(E) := unfold
  step, begin_first_wait, on_message, on_wait_failure, enable_next_dispatch, on_dispatched, next_wait, perform_teardown, set_info,
  finish_teardown, start_teardown, HandleError_, post_task, cancel_wait, extract_transport, invoke_task, cancel_again, lock_weak, drop_weak,
  extender_returns, detached_returns in E.
Tactic Notation "open_step" "in" "*" := unfold
  step, begin_first_wait, on_message, on_wait_failure, enable_next_dispatch, on_dispatched, next_wait, perform_teardown, set_info,
  finish_teardown, start_teardown, HandleError_, post_task, cancel_wait, extract_transport, invoke_task, cancel_again, lock_weak, drop_weak,
  extender_returns, detached_returns in *.

Section Invariant.
Context {zx : ZxErrors} {zlaws : ZxErrorsLaws zx} (k : kind) (policy : ThreadingPolicy).

(** *** Who is in charge *)

Definition created_charge (b : binding) : bool := Is (lifecycle_ b) kCreated.
(** The caller of [BeginFirstWait], when the first wait failed. *)
Definition first_charge (b : binding) : bool :=
  match starter b with SPost first _ => first | SCancel _ => negb (did_enter_bound_ (lifecycle_ b)) | _ => false end.
Definition handler_charge (h : handler_pc) : bool := match h with HIdle => false | _ => true end.
(** The teardown task, once the cancellation has succeeded. *)
Definition task_charge (f : option CancellationResult) (t : task_pc) : bool :=
  match t with
  | TPosted => match f with Some kOk => true | _ => false end
  | TPerform | TSet _ | TFinish _ => true
  | _ => false
  end.
Definition done_charge (b : binding) : bool := match notified b with [] => false | _ => true end.

Definition in_charge (b : binding) : nat :=
  Nat.b2n (created_charge b) + Nat.b2n (first_charge b) + Nat.b2n (armed b) + Nat.b2n (handler_charge (handler b)) +
  Nat.b2n (task_charge (future b) (task b)) + Nat.b2n (done_charge b).

(** [PerformTeardown] is past its critical section. *)
Definition handler_past (h : handler_pc) : bool := match h with HSet _ | HFinish _ => true | _ => false end.
Definition task_past (t : task_pc) : bool := match t with TSet _ | TFinish _ => true | _ => false end.
Definition past (b : binding) : bool := handler_past (handler b) || task_past (task b) || done_charge b.

(** The stages of [StartTeardownWithInfo] and its task. *)
Definition task_ok (f : option CancellationResult) (t : task_pc) : Prop :=
  match f, t with
  | Some kOk, (TPosted | TPerform | TSet _ | TFinish _ | TDone) => True
  | Some kNotFound, (TPosted | TDone) => True
  | Some kDispatcherContextNeeded, (TPosted | TAgain | TPerform | TSet _ | TFinish _ | TDone) => True
  | _, _ => False
  end.
Definition stage_ok (s : starter_pc) (f : option CancellationResult) (t : task_pc) : Prop :=
  match s with
  | SNone | SPost _ _ => f = None /\ t = TNone
  | SCancel _ => f = None /\ t = TPosted
  | SExtract _ => task_ok f t
  | SDone => f = None /\ t = TNone \/ task_ok f t
  end.

(** What [shared_unbind_info_] holds. *)
Definition finish_info (b : binding) : option UnbindInfo :=
  match handler b, task b with HFinish i, _ => Some i | _, TFinish i => Some i | _, _ => head (notified b) end.

Definition starts_nothing (st : LifecycleState) : bool := match st with kCreated | kBound => true | _ => false end.

Record Inv (b : binding) : Prop := {
  inv_one : in_charge b = 1%nat;
  inv_stage : stage_ok (starter b) (future b) (task b);
  inv_quiet : starts_nothing (state_ (lifecycle_ b)) = true -> starter b = SNone;
  inv_past : Is (lifecycle_ b) kTorndown = past b;
  inv_keep : keep_alive_ b = negb (past b);
  inv_slot : shared_unbind_info_ b = finish_info b;
  inv_first : match starter b with SPost first _ => did_enter_bound_ (lifecycle_ b) = negb first | _ => True end;
  inv_bound : did_enter_bound_ (lifecycle_ b) = false -> armed b = false /\ handler b = HIdle;
  inv_did : match state_ (lifecycle_ b) with
    | kCreated => did_enter_bound_ (lifecycle_ b) = false
    | kBound => did_enter_bound_ (lifecycle_ b) = true
    | _ => True
    end;
  inv_handler : match handler b with
    | HPerform None => Is (lifecycle_ b) kMustTeardown = true
    | HUpcall (Some e) => Is (lifecycle_ b) kMustTeardown = true /\ e = {| info := Unbind; origin := kReceive |}
    | _ => True
    end;
  inv_once : (length (notified b) <= 1)%nat;
  inv_transport : transport_ b = false -> starter b = SDone;
}.

Ltac open_inv H :=
  let b := match type of H with Inv ?b => b end in
  destruct H as [H1 H2 H3 H4 H5 H6 H7 H8 H9 H10 H11 H12];
  destruct b as [[st did inf] ka slot tr ar h s f t e d tn ns];
  unfold in_charge, created_charge, first_charge, done_charge, past, done_charge, finish_info, Is in *;
  cbn [lifecycle_ keep_alive_ shared_unbind_info_ transport_ armed handler starter future task extenders detached transient notified
       state_ did_enter_bound_ info_] in *.

Lemma Inv_Create : Inv Create.
Proof. split; try done; cbn; lia. Qed.

Definition safe (o : outcome) : Prop := match o with Disabled => True | Crash => False | Next b' => Inv b' end.

(** Close the fields of the invariant of a successor state. *)
Ltac field := cbn in *; simplify_eq/=; try done; try lia; try (by intuition); try (by intuition congruence).
Ltac close_inv := split; unfold in_charge, created_charge, first_charge, done_charge, past, done_charge, finish_info, Is in *; field.

Lemma safe_BeginFirstWait status b : Inv b -> owed (BeginFirstWait status) b -> safe (step k policy (BeginFirstWait status) b).
Proof.
  intros H Ho. open_inv H. open_step in *; unfold must, owed, Is in *. cbn in Ho |- *. destruct st; try done. cbn in *.
  rewrite (H3 eq_refl) in *. destruct H2 as [-> ->]. destruct ar; [cbn in *; lia|]. destruct h; try (cbn in *; lia).
  destruct ns as [|n ns]; [|cbn in *; lia].
  destruct (status =? ZX_OK); unfold safe, need, Begin, StartTeardownWithInfo, TransitionToBound, TransitionToMustTeardown, Is; cbn;
    close_inv.
Qed.

(** Split a variable of the state and drop the cases the invariant excludes. *)
Ltac prune := try done; try (cbn in *; lia); try (cbn in *; by intuition).
Tactic Notation "cases" ident(x) := destruct x; prune.

Lemma safe_fire b info : Inv b -> safe (step k policy MessageHandler b) /\ safe (step k policy (WaitFailureHandler info) b).
Proof.
  intros H. open_inv H. open_step; unfold when. cbn. cases ar. cases h. cases ns. cases st.
  all: destruct t; cbn in *; try lia; subst ka; cbn; split; unfold safe; close_inv; by destruct did, s; prune.
Qed.

(** The states in which the thread of the message handler is in charge. *)
Lemma zx_canceled : (ZX_ERR_CANCELED =? ZX_OK) = false.
Proof.
  apply Z.eqb_neq. intros E. pose proof zx_errors_distinct as Hd. apply NoDup_cons in Hd as [Hd _]. apply Hd. rewrite <- E.
  right. left.
Qed.

Lemma safe_EnableNextDispatch status b : Inv b -> safe (step k policy (EnableNextDispatch status) b).
Proof.
  intros H. open_inv H. open_step. cbn. destruct k; [|done]. destruct h as [|[e'|]| | | |]; try done. cases ns. cases ar.
  unfold CheckForTeardownAndBeginNextWait, need, Begin, TransitionToMustTeardown, Is. cbn.
  cases st; destruct t; cbn in *; try lia; rewrite ?zx_canceled; try destruct (status =? ZX_OK) eqn:Est; cbn; rewrite ?Est;
    unfold safe; close_inv; destruct did, s; prune.
Qed.

Lemma safe_NextWait status b : Inv b -> safe (step k policy (NextWait status) b).
Proof.
  intros H. open_inv H. open_step. cbn. destruct h; try done. cases ns. cases ar.
  unfold CheckForTeardownAndBeginNextWait, need, Begin, TransitionToMustTeardown, Is. cbn.
  cases st; destruct t; cbn in *; try lia; rewrite ?zx_canceled; try destruct (status =? ZX_OK) eqn:Est; cbn; rewrite ?Est;
    unfold safe; close_inv; destruct did, s; prune.
Qed.

Lemma reasoned_requires e : reasoned e -> exists now, RequiresImmediateTeardown e = Some now.
Proof.
  intros He. unfold reasoned, RequiresImmediateTeardown, reason in *. destruct (origin e); [eauto|].
  rewrite bool_decide_false by done. cbn. eauto.
Qed.

(** The up-call returns. *)
Lemma Inv_upcall_returns left_behind h' b : Inv b -> handler b = HUpcall left_behind ->
  h' = HCheck \/ (exists i, h' = HPerform (Some i)) -> Inv (with_handler h' b).
Proof.
  intros H Hh Hh'. open_inv H. subst h. cases ns. cases ar.
  cases st; destruct t; cbn in *; try lia; destruct Hh' as [->|[i ->]]; close_inv; destruct did, s; prune.
Qed.

Lemma safe_Dispatched maybe_error b : Inv b -> owed (Dispatched maybe_error) b -> safe (step k policy (Dispatched maybe_error) b).
Proof.
  intros H Ho. open_step. destruct (handler b) as [|left_behind| | | |] eqn:Hh; try done.
  pose proof (inv_handler _ H) as Hl. rewrite Hh in Hl. destruct left_behind as [e|].
  - destruct Hl as [_ ->]. cbn. eapply Inv_upcall_returns; eauto.
  - destruct maybe_error as [e|]; [|eapply Inv_upcall_returns; eauto]. destruct (reasoned_requires e Ho) as [now ->]. cbn.
    eapply Inv_upcall_returns; [done..|]. destruct now; eauto.
Qed.

Lemma safe_Perform w b : Inv b -> safe (step k policy (Perform w) b).
Proof.
  intros H. open_inv H. open_step; unfold need, PerformTeardown, TransitionToMustTeardown, TransitionToTorndown, Is. destruct w; cbn.
  - destruct h as [| | |i| |]; try done. cases ns. cases ar. cases st; destruct t; cbn in *; try lia; destruct i; cbn in *; try done; subst ka; cbn;
      unfold safe; close_inv; destruct did, s; prune.
  - destruct t; try done. cases ns. cases ar. cases h. cases st; subst ka; cbn; unfold safe; try (rewrite (H3 eq_refl) in H2; by destruct H2);
      close_inv; destruct did, s, f as [[]|]; prune.
Qed.

Lemma safe_SetInfo w b : Inv b -> safe (step k policy (SetInfo w) b).
Proof.
  intros H. open_inv H. open_step; unfold need, Set_. destruct w; cbn.
  - destruct h; try done. cases ns. cases ar. cases st; destruct t; cbn in *; try lia; subst slot; cbn;
      unfold safe; close_inv; destruct did, s; prune.
  - destruct t; try done. cases ns. cases ar. cases h. cases st; subst slot; cbn; unfold safe; close_inv; destruct did, s, f as [[]|]; prune.
Qed.

Lemma safe_FinishTeardown w b : Inv b -> safe (step k policy (FinishTeardown w) b).
Proof.
  intros H. open_inv H. open_step; unfold when. destruct w; cbn.
  - destruct h; try done. destruct (may_finish _ _); [|done]. cases ns. cases ar. cases st; destruct t; cbn in *; try lia;
      unfold safe; close_inv; destruct did, s; prune.
  - destruct t; try done. destruct (may_finish _ _); [|done]. cases ns. cases ar. cases h. cases st; unfold safe; close_inv;
      destruct did, s, f as [[]|]; prune.
Qed.

(** *** References come and go *)

Lemma Inv_refs e d t b : Inv b -> Inv (with_refs e d t b).
Proof. by intros []. Qed.

Lemma safe_refs l b : l ∈ [LockWeak; DropWeak; ExtenderReturns; DetachedReturns] -> Inv b -> safe (step k policy l b).
Proof.
  intros Hl H. repeat (apply elem_of_cons in Hl as [->|Hl]); [..|by apply elem_of_nil in Hl];
    open_step; unfold when; case_match; try done; by apply Inv_refs.
Qed.

Lemma drop_ref_refs c b b' : drop_ref c b = Some b' -> exists e d t, b' = with_refs e d t b.
Proof. unfold drop_ref. destruct c; case_bool_decide; intros [= <-]; eauto. Qed.

(** *** Starting the teardown *)

(** A caller that is not first comes when the binding was created. *)
Lemma safe_StartTeardownWithInfo i b :
  Inv b -> Is (lifecycle_ b) kCreated = false -> safe (StartTeardownWithInfo false i b).
Proof.
  intros H Hc. open_inv H. unfold StartTeardownWithInfo, need, TransitionToMustTeardown, Is. cases st; cbn.
  rewrite (H3 eq_refl) in *. destruct H2 as [-> ->]. unfold safe. close_inv. destruct h as [|[]| |[]| |]; prune.
Qed.

Lemma safe_PostTask status b : Inv b -> owed (PostTask status) b -> safe (step k policy (PostTask status) b).
Proof.
  intros H Ho. open_inv H. open_step in *; unfold must, owed in *. cbn in *. destruct s as [|first i| | |]; try done. destruct H2 as [-> ->].
  destruct (Z.eqb_spec status ZX_OK) as [Es|Es].
  - unfold safe. destruct first, did; close_inv; by destruct st.
  - destruct first; [done|]. unfold safe. close_inv; by destruct st; intuition.
Qed.

Lemma safe_CancelWait r b : Inv b -> owed (CancelWait r) b -> safe (step k policy (CancelWait r) b).
Proof.
  intros H Ho. open_inv H. open_step in *; unfold owed, cancels in *. cbn in *. destruct s as [| |i| |]; try done. destruct H2 as [-> ->].
  destruct did; [|unfold safe; destruct st; close_inv; destruct h; prune].
  specialize (Ho eq_refl). destruct r; cbn in *; subst; unfold safe; destruct st; close_inv; destruct h; prune.
Qed.

Lemma safe_ExtractTransport u b : Inv b -> owed (ExtractTransport u) b -> safe (step k policy (ExtractTransport u) b).
Proof.
  intros H Ho. open_inv H. open_step in *; unfold must, owed in *. cbn in *. destruct s as [| | |i|]; try done. subst u.
  assert (tr = true) as -> by (destruct tr; [done|by specialize (H12 eq_refl)]).
  assert (Hs : forall tr', Inv {| lifecycle_ := {| state_ := st; did_enter_bound_ := did; info_ := inf |}; keep_alive_ := ka;
    shared_unbind_info_ := slot; transport_ := tr'; armed := ar; handler := h; starter := SDone; future := f; task := t;
    extenders := e; detached := d; transient := tn; notified := ns |}).
  { intros tr'. destruct st; close_inv. }
  destruct (reason_ i), k, policy; apply Hs.
Qed.

Lemma safe_InvokeTask b : Inv b -> safe (step k policy InvokeTask b).
Proof.
  intros H. open_inv H. open_step. cbn. destruct t; try done. destruct f as [r|]; [|done].
  destruct s; cbn in H2; try (by destruct H2); [|destruct H2 as [[? ?]|H2]; [done|]];
    destruct r; cbn in H2; try done; unfold task_continues, safe; try destruct (alive _); destruct st; close_inv.
Qed.

Lemma safe_CancelAgain r b : Inv b -> owed (CancelAgain r) b -> safe (step k policy (CancelAgain r) b).
Proof.
  intros H Ho. open_inv H. open_step in *; unfold owed, cancels in *. cbn in *. destruct t; try done.
  destruct s; cbn in H2; try (by destruct H2); [|destruct H2 as [[? ?]|H2]; [done|]];
    destruct f as [[]|]; try done; destruct r; cbn in *; try done; subst ar; unfold safe; destruct st; close_inv; destruct h; prune.
Qed.

(** *** Every step *)

Lemma step_safe l b : Inv b -> owed l b -> safe (step k policy l b).
Proof.
  intros H Ho. destruct l.
  - by apply safe_BeginFirstWait.
  - by destruct (safe_fire b Unbind H).
  - by destruct (safe_fire b info H).
  - by apply safe_EnableNextDispatch.
  - by apply safe_Dispatched.
  - by apply safe_NextWait.
  - by apply safe_Perform.
  - by apply safe_SetInfo.
  - by apply safe_FinishTeardown.
  - open_step. destruct (drop_ref c b) as [b'|] eqn:E; [|done]. apply drop_ref_refs in E as (e & d & t & ->).
    apply safe_StartTeardownWithInfo; [by apply Inv_refs|done].
  - destruct Ho as [Hc Hr]. open_step. destruct (drop_ref c b) as [b'|] eqn:E; [|done].
    apply drop_ref_refs in E as (e & d & t & ->). destruct (reasoned_requires error Hr) as [[] ->]; cbn [need].
    + apply safe_StartTeardownWithInfo; [by apply Inv_refs|done].
    + destruct c; by apply Inv_refs.
  - by apply safe_PostTask.
  - by apply safe_CancelWait.
  - by apply safe_ExtractTransport.
  - by apply safe_InvokeTask.
  - by apply safe_CancelAgain.
  - apply safe_refs; [left|done].
  - apply safe_refs; [right; left|done].
  - apply safe_refs; [do 2 right; left|done].
  - apply safe_refs; [do 3 right; left|done].
Qed.

Lemma reachable_Inv b : reachable k policy b -> Inv b.
Proof.
  induction 1 as [|b l b' _ IH Ho E]; [exact Inv_Create|]. pose proof (step_safe l b IH Ho) as Hs. by rewrite E in Hs.
Qed.

Lemma Inv_step l b b' : Inv b -> owed l b -> step k policy l b = Next b' -> Inv b'.
Proof. intros H Ho E. pose proof (step_safe l b H Ho) as Hs. by rewrite E in Hs. Qed.

(** *** The reason *)

(** The reason for the teardown, from the moment it is recorded. *)
Definition recorded (b : binding) : option UnbindInfo :=
  if Is (lifecycle_ b) kMustTeardown then Some (info_ (lifecycle_ b))
  else match handler b, task b with
       | (HSet i | HFinish i), _ => Some i
       | _, (TSet i | TFinish i) => Some i
       | _, _ => head (notified b)
       end.

Lemma recorded_state b : Inv b -> recorded b = None <-> starts_nothing (state_ (lifecycle_ b)) = true.
Proof.
  intros H. open_inv H. unfold recorded, Is. cbn. destruct st, h, t, ns; cbn in *; split; prune.
Qed.

Lemma recorded_refs e d t b : recorded (with_refs e d t b) = recorded b.
Proof. done. Qed.

(** The case analysis of a step. *)
Ltac run_step E :=
  open_step in E; unfold when, must, need, task_continues, Cancel, StartTeardownWithInfo, drop_ref, move_on in E;
  repeat (case_match; try discriminate E); simplify_eq.

Lemma drop_ref_parts c b b' : drop_ref c b = Some b' ->
  lifecycle_ b' = lifecycle_ b /\ handler b' = handler b /\ task b' = task b /\ notified b' = notified b /\ armed b' = armed b.
Proof. intros (e & d & t & ->)%drop_ref_refs. done. Qed.

(** Once the teardown must come, only [PerformTeardown] moves the lifecycle. *)
Lemma lifecycle_must l b b' :
  Is (lifecycle_ b) kMustTeardown = true -> step k policy l b = Next b' ->
  lifecycle_ b' = lifecycle_ b \/ exists w, l = Perform w.
Proof.
  intros Hm E. assert (Hs : state_ (lifecycle_ b) = kMustTeardown) by (unfold Is in Hm; by destruct (state_ _)).
  assert (Hstart : forall i b1, lifecycle_ b1 = lifecycle_ b -> StartTeardownWithInfo false i b1 = Next b' -> lifecycle_ b' = lifecycle_ b).
  { intros i b1 El E1. unfold StartTeardownWithInfo in E1. rewrite El, Hm in E1. by injection E1 as <-. }
  destruct l as [st| |i|st|me|st|w|w|w|c i|c e|st|r|u| |r| | | |]; try (right; by eauto); left.
  - open_step in E; unfold must, Is in E. by rewrite Hs in E.
  - by run_step E.
  - by run_step E.
  - open_step in E; unfold CheckForTeardownAndBeginNextWait, need in E. rewrite Hs in E. by repeat (case_match; try discriminate E; simplify_eq/=).
  - by run_step E.
  - open_step in E; unfold CheckForTeardownAndBeginNextWait, need in E. rewrite Hs in E. by repeat (case_match; try discriminate E; simplify_eq/=).
  - open_step in E; unfold need, Set_, move_on in E. by repeat (case_match; try discriminate E; simplify_eq/=).
  - open_step in E; unfold when, move_on in E. by repeat (case_match; try discriminate E; simplify_eq/=).
  - open_step in E. destruct (drop_ref c b) as [b1|] eqn:Ed; [|done]. apply drop_ref_parts in Ed as (El & _). by eapply Hstart.
  - open_step in E; unfold need in E. destruct (drop_ref c b) as [b1|] eqn:Ed; [|done]. apply drop_ref_parts in Ed as (El & _).
    destruct (RequiresImmediateTeardown e) as [[]|]; [by eapply Hstart|by destruct c; injection E as <-|done].
  - by run_step E.
  - by run_step E.
  - by run_step E.
  - by run_step E.
  - by run_step E.
  - by run_step E.
  - by run_step E.
  - by run_step E.
  - by run_step E.
Qed.

Lemma recorded_must l b b' i : Inv b -> Is (lifecycle_ b) kMustTeardown = true ->
  step k policy l b = Next b' -> recorded b = Some i -> recorded b' = Some i.
Proof.
  intros H Hm E Hr. destruct (lifecycle_must l b b' Hm E) as [El|[w ->]].
  - unfold recorded in *. by rewrite El, Hm in *.
  - open_inv H. destruct st; try done. unfold recorded, Is in *. cbn in *. injection Hr as <-.
    open_step in E; unfold need, PerformTeardown, TransitionToMustTeardown, TransitionToTorndown, Is in E. destruct w; cbn in E.
    + destruct h as [| | |[j|]| |]; try done; destruct ka; try done; cbn in E; by injection E as <-.
    + destruct t; try done. destruct ka; [|done]. cbn in E. injection E as <-. by destruct h.
Qed.

(** After [PerformTeardown] nobody begins a wait or calls up, and nothing is recorded anew. *)
Lemma recorded_torndown l b b' i : Inv b -> Is (lifecycle_ b) kTorndown = true ->
  step k policy l b = Next b' -> recorded b = Some i -> recorded b' = Some i.
Proof.
  intros H Hm E Hr. open_inv H. destruct st; try done. clear H3 H5 H6 H7 H9 H10 H11 H12. cbn in H4. unfold recorded, Is in *. cbn in *.
  destruct l as [st| |j|st|me|st|w|w|w|c j|c ee|st|r|u| |r| | | |]; open_step in E; cbn in E; try done.
  - destruct ar; [|done]. destruct h; try done. destruct t, ns; cbn in *; try lia; done.
  - destruct ar; [|done]. destruct h; try done. destruct t, ns; cbn in *; try lia; done.
  - destruct k, h as [|[]| | | |]; done.
  - destruct h as [|left_behind| | | |]; try done. destruct t, ns; cbn in *; try lia; done.
  - destruct h; try done.
  - destruct w; cbn in E; [destruct h; try done; destruct t, ns; cbn in *; try lia; done|].
    destruct t; try done. destruct h, ns; cbn in *; try lia; done.
  - unfold Set_ in E. cbn in E. destruct w; cbn in E; [destruct h; try done|destruct t; try done]; destruct slot; try done; cbn in E;
      simplify_eq/=; [done|]. destruct h; cbn in *; try lia; done.
  - unfold when in E. destruct w; cbn in E; [destruct h; try done|destruct t; try done]; destruct (may_finish _ _); try done;
      simplify_eq/=.
    + destruct t, ns; cbn in *; try lia; done.
    + destruct h, ns; cbn in *; try lia; done.
  - destruct (drop_ref c _) as [b1|] eqn:Ed; [|done]. apply drop_ref_parts in Ed as (El & Eh & Et & En & _).
    unfold StartTeardownWithInfo in E. rewrite El in E. cbn in *. injection E as <-. by rewrite El, Eh, Et, En.
  - destruct (drop_ref c _) as [b1|] eqn:Ed; [|done]. apply drop_ref_parts in Ed as (El & Eh & Et & En & _).
    unfold need, StartTeardownWithInfo in E. rewrite El in E. destruct (RequiresImmediateTeardown ee) as [[]|], c; try done; cbn in *;
      injection E as <-; first [by rewrite El, Eh, Et, En|done].
  - destruct s as [|first j| | |]; try done. destruct H2 as [-> ->]. unfold must in E. destruct (st =? ZX_OK), first; try done;
      injection E as <-; done.
  - destruct s; try done. destruct H2 as [-> ->]. destruct did, r; injection E as <-; done.
  - destruct s; try done. unfold must in E. destruct (reason_ _), k, policy, u, tr; try done; by injection E as <-.
  - destruct t; try done. destruct f as [[]|]; cbn in E; try done; try destruct (alive _); by injection E as <-.
  - destruct t; try done. destruct r; cbn in E; try done; by injection E as <-.
  - unfold when in E. destruct (alive _); [|done]. by injection E as <-.
  - unfold when in E. case_bool_decide; [|done]. by injection E as <-.
  - unfold when in E. case_bool_decide; [|done]. by injection E as <-.
  - unfold when in E. case_bool_decide; [|done]. by injection E as <-.
Qed.

Lemma recorded_stable l b b' i : Inv b -> step k policy l b = Next b' -> recorded b = Some i -> recorded b' = Some i.
Proof.
  intros H E Hr. destruct (Is (lifecycle_ b) kMustTeardown) eqn:Hm; [by eapply recorded_must|].
  destruct (Is (lifecycle_ b) kTorndown) eqn:Ht; [by eapply recorded_torndown|].
  rewrite (proj2 (recorded_state b H)) in Hr; [done|]. unfold Is in *. by destruct (state_ _).
Qed.

(** *** Who started it *)

Definition starter_info (s : starter_pc) : option UnbindInfo :=
  match s with SPost _ i | SCancel i | SExtract i => Some i | _ => None end.

Record Inv_reason (b : binding) : Prop := {
  reason_started i : starter_info (starter b) = Some i -> recorded b = Some i;
  reason_extracted : transport_ b = false -> exists i, recorded b = Some i /\ reason_ i = kUnbind;
}.

Lemma StartTeardownWithInfo_parts first i b b' : StartTeardownWithInfo first i b = Next b' ->
  transport_ b' = transport_ b /\ (b' = b \/ starter b' = SPost first i /\ recorded b' = Some i).
Proof.
  unfold StartTeardownWithInfo, need, TransitionToMustTeardown, Is. intros E.
  destruct b as [[st did inf] ka slot tr ar h s f t e d tn ns]. cbn in E. destruct st, s; cbn in E; simplify_eq/=; auto.
Qed.

Lemma Check_parts st b st' b' : CheckForTeardownAndBeginNextWait st b = Some (st', b') ->
  transport_ b' = transport_ b /\ starter b' = starter b.
Proof.
  unfold CheckForTeardownAndBeginNextWait, Begin, TransitionToMustTeardown, Is. intros E.
  destruct b as [[st0 did inf] ka slot tr ar h s f t e d tn ns]. cbn in E. destruct st0; try done; [|by simplify_eq/=].
  destruct (st =? ZX_OK); cbn in E; [destruct ar|]; by simplify_eq/=.
Qed.

Lemma drop_ref_starter c b b' : drop_ref c b = Some b' -> transport_ b' = transport_ b /\ starter b' = starter b /\ recorded b' = recorded b.
Proof. by intros (e & d & t & ->)%drop_ref_refs. Qed.

(** A step starts nothing new unless it records the reason, and takes the transport only
    for a caller that unbinds. *)
Lemma starter_step l b b' : step k policy l b = Next b' ->
  (forall i, starter_info (starter b') = Some i -> starter_info (starter b) = Some i \/ recorded b' = Some i) /\
  (transport_ b' = false -> transport_ b = false \/ exists i, starter_info (starter b) = Some i /\ reason_ i = kUnbind).
Proof.
  intros E.
  assert (Hsame : transport_ b' = transport_ b -> starter b' = starter b ->
    (forall i, starter_info (starter b') = Some i -> starter_info (starter b) = Some i \/ recorded b' = Some i) /\
    (transport_ b' = false -> transport_ b = false \/ exists i, starter_info (starter b) = Some i /\ reason_ i = kUnbind)).
  { intros -> ->. auto. }
  assert (Hstart : forall first i b1, transport_ b1 = transport_ b -> starter b1 = starter b -> StartTeardownWithInfo first i b1 = Next b' ->
    (forall i, starter_info (starter b') = Some i -> starter_info (starter b) = Some i \/ recorded b' = Some i) /\
    (transport_ b' = false -> transport_ b = false \/ exists i, starter_info (starter b) = Some i /\ reason_ i = kUnbind)).
  { intros first i b1 Et Es (Ht & [->|[Hs Hr]])%StartTeardownWithInfo_parts; [by auto|]. rewrite Ht, Et, Hs. split; [|auto].
    intros j [= <-]. auto. }
  destruct l as [st| |j|st|me|st|w|w|w|c j|c ee|st|r|u| |r| | | |]; open_step in E; unfold when, must, need in E.
  - destruct (Is _ _); [|done]. destruct (st =? ZX_OK); [|by eapply Hstart]. unfold Begin, TransitionToBound in E.
    repeat (case_match; try discriminate E; simplify_eq/=); by apply Hsame.
  - repeat (case_match; try discriminate E; simplify_eq/=); by apply Hsame.
  - repeat (case_match; try discriminate E; simplify_eq/=); by apply Hsame.
  - destruct k, (handler b) as [|[]| | | |]; try done. destruct (CheckForTeardownAndBeginNextWait st b) as [[st' b1]|] eqn:Ec; [|done].
    apply Check_parts in Ec as [Et Es]. destruct (st' =? ZX_OK); injection E as <-; by apply Hsame.
  - repeat (case_match; try discriminate E; simplify_eq/=); by apply Hsame.
  - destruct (handler b); try done. destruct (CheckForTeardownAndBeginNextWait st b) as [[st' b1]|] eqn:Ec; [|done].
    apply Check_parts in Ec as [Et Es]. injection E as <-. by apply Hsame.
  - unfold PerformTeardown in E. destruct (perform_pc w b) as [info|]; [|done]. destruct (negb (keep_alive_ b)); [done|].
    destruct (match info with Some i => _ | None => _ end) as [l0|]; [|done]. cbn in E.
    destruct (TransitionToTorndown l0) as [[i l']|]; [|done]. cbn in E. injection E as <-. destruct w; by apply Hsame.
  - unfold Set_ in E. destruct (set_pc w b); [|done]. destruct (shared_unbind_info_ b); [done|]. injection E as <-. destruct w; by apply Hsame.
  - destruct (finish_pc w b); [|done]. destruct (may_finish _ _); [|done]. injection E as <-. destruct w; by apply Hsame.
  - destruct (drop_ref c b) as [b1|] eqn:Ed; [|done]. apply drop_ref_starter in Ed as (Et & Es & _). by eapply Hstart.
  - destruct (drop_ref c b) as [b1|] eqn:Ed; [|done]. apply drop_ref_starter in Ed as (Et & Es & _).
    destruct (RequiresImmediateTeardown ee) as [[]|]; [by eapply Hstart|destruct c; injection E as <-; by apply Hsame|done].
  - destruct (starter b) as [|first i| | |] eqn:Es; try done. destruct (st =? ZX_OK); [|destruct first; [done|]]; injection E as <-;
      (split; cbn; [intros j Hj; first [discriminate Hj|auto]|auto]).
  - destruct (starter b) as [| |i| |] eqn:Es; try done. destruct (did_enter_bound_ _), r; injection E as <-;
      (split; cbn; [intros j Hj; first [discriminate Hj|auto]|auto]).
  - destruct (starter b) as [| | |i|] eqn:Es; try done.
    destruct (reason_ i) eqn:Er, k, policy; try (injection E as <-; split; cbn; [intros j Hj; discriminate Hj|by auto]).
    destruct u; [|done]. destruct (transport_ b); [|done]. injection E as <-. split; cbn; [intros j Hj; discriminate Hj|eauto].
  - unfold task_continues in E. repeat (case_match; try discriminate E; simplify_eq/=); by apply Hsame.
  - unfold task_continues, Cancel in E. repeat (case_match; try discriminate E; simplify_eq/=); by apply Hsame.
  - repeat (case_match; try discriminate E; simplify_eq/=); by apply Hsame.
  - repeat (case_match; try discriminate E; simplify_eq/=); by apply Hsame.
  - repeat (case_match; try discriminate E; simplify_eq/=); by apply Hsame.
  - repeat (case_match; try discriminate E; simplify_eq/=); by apply Hsame.
Qed.

(** Only [FinishTeardown] notifies. *)
Lemma notified_step l b b' : step k policy l b = Next b' ->
  notified b' = notified b \/ exists w i, l = FinishTeardown w /\ notified b' = notified b ++ [i].
Proof.
  assert (Hstart : forall first i b1, notified b1 = notified b -> StartTeardownWithInfo first i b1 = Next b' -> notified b' = notified b).
  { intros first i b1 En E. unfold StartTeardownWithInfo, need, TransitionToMustTeardown in E.
    repeat (case_match; try discriminate E; simplify_eq/=); done. }
  assert (Hcheck : forall st st' b1, CheckForTeardownAndBeginNextWait st b = Some (st', b1) -> notified b1 = notified b).
  { intros st st' b1 E. unfold CheckForTeardownAndBeginNextWait, Begin, TransitionToMustTeardown, Is in E.
    destruct b as [[st0 did inf] ka slot tr ar h s f t e d tn ns]. cbn in E. destruct st0; try done; [|by simplify_eq/=].
    destruct (st =? ZX_OK); cbn in E; [destruct ar|]; by simplify_eq/=. }
  intros E. destruct l as [st| |j|st|me|st|w|w|w|c j|c ee|st|r|u| |r| | | |]; open_step in E; unfold when, must, need in E.
  9: { destruct (finish_pc w b) as [i|]; [|done]. destruct (may_finish _ _); [|done]. injection E as <-. right. exists w, i.
       by destruct w. }
  all: left.
  - destruct (Is _ _); [|done]. destruct (st =? ZX_OK); [|by eapply Hstart]. unfold Begin, TransitionToBound in E.
    by repeat (case_match; try discriminate E; simplify_eq/=).
  - by repeat (case_match; try discriminate E; simplify_eq/=).
  - by repeat (case_match; try discriminate E; simplify_eq/=).
  - destruct k, (handler b) as [|[]| | | |]; try done. destruct (CheckForTeardownAndBeginNextWait st b) as [[st' b1]|] eqn:Ec; [|done].
    apply Hcheck in Ec. destruct (st' =? ZX_OK); by injection E as <-.
  - by repeat (case_match; try discriminate E; simplify_eq/=).
  - destruct (handler b); try done. destruct (CheckForTeardownAndBeginNextWait st b) as [[st' b1]|] eqn:Ec; [|done].
    apply Hcheck in Ec. by injection E as <-.
  - unfold PerformTeardown in E. destruct (perform_pc w b) as [info|]; [|done]. destruct (negb (keep_alive_ b)); [done|].
    destruct (match info with Some i => _ | None => _ end) as [l0|]; [|done]. cbn in E.
    destruct (TransitionToTorndown l0) as [[i l']|]; [|done]. cbn in E. injection E as <-. by destruct w.
  - unfold Set_ in E. destruct (set_pc w b); [|done]. destruct (shared_unbind_info_ b); [done|]. injection E as <-. by destruct w.
  - destruct (drop_ref c b) as [b1|] eqn:Ed; [|done]. apply drop_ref_parts in Ed as (_ & _ & _ & En & _). by eapply Hstart.
  - destruct (drop_ref c b) as [b1|] eqn:Ed; [|done]. apply drop_ref_parts in Ed as (_ & _ & _ & En & _).
    destruct (RequiresImmediateTeardown ee) as [[]|]; [by eapply Hstart|by destruct c; injection E as <-|done].
  - by repeat (case_match; try discriminate E; simplify_eq/=).
  - destruct (starter b); try done. destruct (did_enter_bound_ _), r; by injection E as <-.
  - by repeat (case_match; try discriminate E; simplify_eq/=).
  - unfold task_continues in E. by repeat (case_match; try discriminate E; simplify_eq/=).
  - unfold task_continues, Cancel in E. by repeat (case_match; try discriminate E; simplify_eq/=).
  - by repeat (case_match; try discriminate E; simplify_eq/=).
  - by repeat (case_match; try discriminate E; simplify_eq/=).
  - by repeat (case_match; try discriminate E; simplify_eq/=).
  - by repeat (case_match; try discriminate E; simplify_eq/=).
Qed.

Lemma reachable_Inv_reason b : reachable k policy b -> Inv_reason b.
Proof.
  induction 1 as [|b l b' Hr [IH1 IH2] Ho E]; [by split|]. pose proof (reachable_Inv b Hr) as H.
  destruct (starter_step l b b' E) as [Hs Ht]. split.
  - intros i Hi. destruct (Hs i Hi) as [Hi'|]; [|done]. eapply recorded_stable; eauto.
  - intros Htr. destruct (Ht Htr) as [Ht'|(i & Hi & Hu)]; [destruct (IH2 Ht') as (i & Hi & Hu)|apply IH1 in Hi]; exists i;
      (split; [|done]); eapply recorded_stable; eauto.
Qed.
End Invariant.
