(* ===== verification/BindingTheorems.v ===== *)
(** * What the binding promises

    Up-calls exclude each other and the teardown, the teardown happens once and for the
    first reason, and once it must happen it does. *)

From S2P Require Import Prelude FidlTypes FidlStatus Client ClientCorrect Binding BindingCorrect.

(** ** Progress *)

Section Progress.
Context {zx : ZxErrors} {zlaws : ZxErrorsLaws zx} (k : kind) (policy : ThreadingPolicy).

(** The steps a binding that must be torn down still has before it. *)
Definition handler_work (h : handler_pc) : nat :=
  match h with HIdle => 0 | HUpcall None => 6 | HUpcall (Some _) => 5 | HCheck => 4 | HPerform _ => 3 | HSet _ => 2 | HFinish _ => 1 end.
Definition starter_work (s : starter_pc) : nat :=
  match s with SNone | SDone => 0 | SPost _ _ => 12 | SCancel _ => 3 | SExtract _ => 2 end.
Definition task_work (t : task_pc) : nat :=
  match t with TNone | TDone => 0 | TPosted => 6 | TAgain => 4 | TPerform => 3 | TSet _ => 2 | TFinish _ => 1 end.
Definition work (b : binding) : nat :=
  7 * Nat.b2n (armed b) + handler_work (handler b) + starter_work (starter b) + task_work (task b) +
  2 * extenders b + detached b + transient b.

Lemma keep_ref_work c b b' : drop_ref c b = Some b' -> (work (keep_ref c b b') < work b)%nat.
Proof. unfold drop_ref. destruct c; case_bool_decide; intros [= <-]; unfold work; cbn; lia. Qed.
Lemma drop_ref_work c b b' : drop_ref c b = Some b' -> (work b' < work b)%nat /\ lifecycle_ b' = lifecycle_ b.
Proof. unfold drop_ref. destruct c; case_bool_decide; intros [= <-]; unfold work; cbn; split; [lia|done|lia|done]. Qed.

Lemma StartTeardown_late first i b : starts_nothing (state_ (lifecycle_ b)) = false -> StartTeardownWithInfo first i b = Next b.
Proof. unfold StartTeardownWithInfo, Is. by destruct (state_ (lifecycle_ b)). Qed.

Lemma Check_late st b r : starts_nothing (state_ (lifecycle_ b)) = false ->
  CheckForTeardownAndBeginNextWait st b = Some r -> r = (ZX_ERR_CANCELED, b).
Proof. unfold CheckForTeardownAndBeginNextWait. intros Hs E. destruct (state_ (lifecycle_ b)); try done; congruence. Qed.

(** Once the reason is recorded, every step but a new reference is one less to do. *)
Lemma step_work l b b' : starts_nothing (state_ (lifecycle_ b)) = false -> l <> LockWeak ->
  step k policy l b = Next b' -> (work b' < work b)%nat.
Proof.
  intros Hs Hl E.
  destruct l as [st| |j|st|me|st|w|w|w|c j|c ee|st|r|u| |r| | | |]; open_step in E; unfold when, must, need in E; try done.
  - unfold Is in E. by destruct (state_ (lifecycle_ b)).
  - destruct (armed b) eqn:Ea; [|done]. destruct (handler b) eqn:Eh; try done. destruct (keep_alive_ b); [|done]. injection E as <-.
    unfold work. cbn. rewrite Ea, Eh. cbn. lia.
  - destruct (armed b) eqn:Ea; [|done]. destruct (handler b) eqn:Eh; try done. destruct (keep_alive_ b); [|done]. injection E as <-.
    unfold work. cbn. rewrite Ea, Eh. cbn. lia.
  - destruct k, (handler b) as [|[]| | | |] eqn:Eh; try done. destruct (CheckForTeardownAndBeginNextWait st b) as [r|] eqn:Ec; [|done].
    apply Check_late in Ec as ->; [|done]. rewrite zx_canceled in E. injection E as <-. unfold work. cbn. rewrite Eh. cbn. lia.
  - destruct (handler b) as [|lb| | | |] eqn:Eh; try done.
    assert (exists h', b' = with_handler h' b /\ (handler_work h' <= 4)%nat) as (h' & -> & Hh').
    { destruct lb, me; try destruct (RequiresImmediateTeardown _) as [[]|]; try done; injection E as <-; eexists; (split; [done|cbn; lia]). }
    unfold work. cbn. rewrite Eh. destruct lb; cbn; lia.
  - destruct (handler b) eqn:Eh; try done. destruct (CheckForTeardownAndBeginNextWait st b) as [r|] eqn:Ec; [|done].
    apply Check_late in Ec as ->; [|done]. rewrite zx_canceled in E. injection E as <-. unfold work. cbn. rewrite Eh. cbn. lia.
  - unfold PerformTeardown in E. destruct (perform_pc w b) as [info|] eqn:Ep; [|done]. destruct (negb (keep_alive_ b)); [done|].
    destruct (match info with Some i => _ | None => _ end) as [l0|]; [|done]. cbn in E.
    destruct (TransitionToTorndown l0) as [[i l']|]; [|done]. cbn in E. injection E as <-. unfold work.
    destruct w; cbn in Ep |- *; [destruct (handler b)|destruct (task b)]; try done; cbn; lia.
  - unfold Set_ in E. destruct (set_pc w b) eqn:Ep; [|done]. destruct (shared_unbind_info_ b); [done|]. injection E as <-. unfold work.
    destruct w; cbn in Ep |- *; [destruct (handler b)|destruct (task b)]; try done; cbn; lia.
  - destruct (finish_pc w b) eqn:Ep; [|done]. destruct (may_finish _ _); [|done]. injection E as <-. unfold work.
    destruct w; cbn in Ep |- *; [destruct (handler b)|destruct (task b)]; try done; cbn; lia.
  - destruct (drop_ref c b) as [b1|] eqn:Ed; [|done]. apply drop_ref_work in Ed as [Hw El].
    rewrite StartTeardown_late in E by by rewrite El. by injection E as <-.
  - destruct (drop_ref c b) as [b1|] eqn:Ed; [|done]. assert (Hk := keep_ref_work c b b1 Ed). apply drop_ref_work in Ed as [Hw El].
    rewrite StartTeardown_late in E by by rewrite El. destruct (RequiresImmediateTeardown ee) as [[]|]; simplify_eq; auto.
  - destruct (starter b) eqn:Es; try done. destruct (task b) eqn:Et; destruct (st =? ZX_OK), first; try done; injection E as <-;
      unfold work; cbn; rewrite Es, ?Et; cbn; lia.
  - destruct (starter b) eqn:Es; try done. destruct (did_enter_bound_ _), r; injection E as <-; unfold work; cbn; rewrite ?Es; cbn; lia.
  - destruct (starter b) eqn:Es; try done. destruct (reason_ _), k, policy, u, (transport_ b); try done; injection E as <-;
      unfold work; cbn; rewrite ?Es; cbn; lia.
  - destruct (task b) eqn:Et; try done. destruct (future b) as [[]|]; cbn in E; try done; try destruct (alive b); injection E as <-;
      unfold work; cbn; rewrite ?Et; cbn; lia.
  - destruct (task b) eqn:Et; try done. destruct r; cbn in E; try done; injection E as <-; unfold work; cbn; rewrite ?Et; cbn; lia.
  - case_bool_decide; [|done]. injection E as <-. unfold work. cbn. lia.
  - case_bool_decide; [|done]. injection E as <-. unfold work. cbn. lia.
  - case_bool_decide; [|done]. injection E as <-. unfold work. cbn. lia.
Qed.

(** A step that is owed and possible. *)
Definition can (l : label) (b : binding) : Prop := l <> LockWeak /\ owed l b /\ step k policy l b <> Disabled.

(** The answer of the waiter to [Cancel]. *)
Definition answer (b : binding) : CancellationResult := if armed b then kOk else kNotFound.

Lemma can_PostTask b first i : starter b = SPost first i -> can (PostTask ZX_OK) b.
Proof.
  intros Es. unfold can; open_step; unfold owed. rewrite Es, Z.eqb_refl. split_and!; [done| |done]. by destruct first.
Qed.

Lemma can_CancelWait b i : starter b = SCancel i -> can (CancelWait (answer b)) b.
Proof.
  intros Es. unfold can; open_step; unfold owed, answer. rewrite Es. split_and!; [done| |done]. intros _. by destruct (armed b) eqn:Ea.
Qed.

(** Whoever keeps a server from finishing can go on. *)
Lemma refs_can b : may_finish k b = false -> exists l, can l b.
Proof.
  unfold may_finish. destruct k eqn:Ek; [|done]. intros H.
  destruct (decide (extenders b = 0%nat)) as [He|He].
  2: { exists ExtenderReturns. unfold can; open_step; unfold when. by rewrite (bool_decide_true (_ <> _)). }
  destruct (decide (transient b = 0%nat)) as [Ht|Ht].
  2: { exists DropWeak. unfold can; open_step; unfold when. by rewrite (bool_decide_true (_ <> _)). }
  rewrite !bool_decide_true in H by done. cbn in H. destruct (starter b) eqn:Es; cbn in H.
  2: { eexists. by eapply can_PostTask. }
  2: { eexists. by eapply can_CancelWait. }
  2: { exists (ExtractTransport true). unfold can; open_step. rewrite Es, Ek. split_and!; try done. by destruct (reason_ _). }
  all: destruct (task b) eqn:Eta; try done; exists (CancelAgain (answer b)); unfold can; open_step; unfold owed, answer; rewrite Eta;
    split_and!; try done; by destruct (armed b) eqn:Ea.
Qed.

Lemma progress b : Inv b -> starts_nothing (state_ (lifecycle_ b)) = false -> notified b = [] -> exists l, can l b.
Proof.
  intros H Hs Hn. pose proof (inv_one b H) as H1. unfold in_charge, created_charge, done_charge, Is in H1. rewrite Hn in H1.
  destruct (armed b) eqn:Ea.
  { exists (WaitFailureHandler Unbind). unfold can; open_step; unfold when. rewrite Ea. split_and!; try done.
    by destruct (handler b), (keep_alive_ b). }
  destruct (handler b) eqn:Eh.
  2: { exists (Dispatched None). unfold can; open_step; unfold need. rewrite Eh. split_and!; try done.
       destruct error as [e|]; [|done]. by destruct (RequiresImmediateTeardown e) as [[]|]. }
  2: { exists (NextWait ZX_OK). unfold can; open_step; unfold need. rewrite Eh. split_and!; try done. by destruct (CheckForTeardownAndBeginNextWait _ _) as [[]|]. }
  2: { exists (Perform ByHandler). unfold can; open_step; unfold need, perform_pc. rewrite Eh. split_and!; try done. by destruct (PerformTeardown _ _) as [[]|]. }
  2: { exists (SetInfo ByHandler). unfold can; open_step; unfold need, set_pc. rewrite Eh. split_and!; try done. by destruct (Set_ _ _). }
  2: { destruct (may_finish k b) eqn:Ef; [|by apply refs_can]. exists (FinishTeardown ByHandler). unfold can; open_step; unfold when, finish_pc.
       by rewrite Eh, Ef. }
  destruct (task b) eqn:Et; cbn in H1.
  2: { destruct (future b) as [r|] eqn:Ef.
       - exists InvokeTask. unfold can; open_step. rewrite Et, Ef. split_and!; try done. destruct r; try done. cbn. by destruct (alive b).
       - pose proof (inv_stage b H) as H2. rewrite Et, Ef in H2. destruct (starter b) eqn:Es; cbn in H2; try by destruct H2.
         + eexists. by eapply can_CancelWait.
         + destruct H2 as [[_ ?]|?]; done. }
  3: { exists (Perform ByTask). unfold can; open_step; unfold need, perform_pc. rewrite Et. split_and!; try done. by destruct (PerformTeardown _ _) as [[]|]. }
  3: { exists (SetInfo ByTask). unfold can; open_step; unfold need, set_pc. rewrite Et. split_and!; try done. by destruct (Set_ _ _). }
  3: { destruct (may_finish k b) eqn:Ef; [|by apply refs_can]. exists (FinishTeardown ByTask). unfold can; open_step; unfold when, finish_pc.
       by rewrite Et, Ef. }
  all: unfold first_charge in H1; destruct (state_ (lifecycle_ b)); try done; destruct (starter b) eqn:Es; cbn in H1; try lia.
  all: eexists; first [by eapply can_PostTask|by eapply can_CancelWait].
Qed.
End Progress.

(** ** The promises *)

(** A sequence of steps of which each one is owed. *)
Inductive runs_to {zx : ZxErrors} (k : kind) (policy : ThreadingPolicy) : list label -> binding -> binding -> Prop :=
  | runs_nil b : runs_to k policy [] b b
  | runs_cons l ls b b1 b2 : owed l b -> step k policy l b = Next b1 -> runs_to k policy ls b1 b2 -> runs_to k policy (l :: ls) b b2.

(** What [WeakBindingRef::lock_or_error] finds. *)
Definition lock_or_error (b : binding) : option locked :=
  if alive b then Some (Alive (transport_ b)) else info ← Get b; Some (Gone info).

Section Promises.
Context {zx : ZxErrors} {zlaws : ZxErrorsLaws zx} (k : kind) (policy : ThreadingPolicy).

Lemma runs_reachable ls b b' : runs_to k policy ls b b' -> reachable k policy b -> reachable k policy b'.
Proof. induction 1 as [|l ls b b1 b2 Ho E _ IH]; [done|]. intros Hr. apply IH. by eapply reachable_step. Qed.

Lemma runs_recorded ls b b' i : runs_to k policy ls b b' -> reachable k policy b -> recorded b = Some i -> recorded b' = Some i.
Proof.
  induction 1 as [|l ls b b1 b2 Ho E _ IH]; [done|]. intros Hr Hi. apply IH; [by eapply reachable_step|].
  by eapply (recorded_stable k policy); [eapply reachable_Inv|exact E|].
Qed.

Lemma runs_work ls b b' i : runs_to k policy ls b b' -> reachable k policy b -> recorded b = Some i -> LockWeak ∉ ls ->
  (length ls + work b' <= work b)%nat.
Proof.
  induction 1 as [|l ls b b1 b2 Ho E _ IH]; intros Hr Hi Hl; [done|]. apply not_elem_of_cons in Hl as [Hl Hls].
  pose proof (reachable_Inv _ _ b Hr) as H. pose proof (recorded_stable _ _ _ _ _ _ H E Hi) as Hi1.
  assert (Hs : starts_nothing (state_ (lifecycle_ b)) = false).
  { apply not_true_is_false. intros Hs. by rewrite (proj2 (recorded_state b H) Hs) in Hi. }
  assert (work b1 < work b)%nat by (eapply step_work; [done| |exact E]; congruence).
  specialize (IH (reachable_step _ _ _ _ _ Hr Ho E) Hi1 Hls). cbn [length]. lia.
Qed.

Lemma recorded_notified b i : Inv b -> recorded b = Some i -> notified b <> [] -> notified b = [i].
Proof.
  intros H Hi Hn. pose proof (inv_once b H) as Ho. pose proof (inv_one b H) as H1. pose proof (inv_past b H) as H4.
  unfold in_charge, done_charge, past, done_charge in *. unfold recorded in Hi. destruct (notified b) as [|j [|]]; try done; [|cbn in Ho; lia].
  rewrite orb_true_r in H4. unfold Is in *. destruct (state_ (lifecycle_ b)); try done.
  destruct (handler b), (task b); cbn in *; try lia; by injection Hi as ->.
Qed.

Lemma runs_notified ls b b' : runs_to k policy ls b b' -> notified b <> [] -> notified b' <> [].
Proof.
  induction 1 as [|l ls b b1 b2 _ E _ IH]; [done|]. intros Hn. apply IH.
  destruct (notified_step k policy l b b1 E) as [->|(w & i & _ & ->)]; [done|]. by destruct (notified b).
Qed.

(** The immediate panics are the steps that crash. *)
Lemma panics_crash l b : panics k policy l b -> step k policy l b = Crash.
Proof.
  assert (Hu : forall e, unreasoned e -> RequiresImmediateTeardown e = None).
  { intros e [Ho Hr]. unfold RequiresImmediateTeardown, reason. by rewrite Ho, Hr. }
  destruct 1 as [st b Hc|st i b Es Hst|r b Et Hr|i b Es Hi -> ->|e b Eh He|c e b Hd He]; open_step; unfold must, need.
  - by rewrite Hc.
  - rewrite Es. by rewrite (proj2 (Z.eqb_neq _ _) Hst).
  - rewrite Et. by destruct Hr as [-> | ->].
  - by rewrite Es, Hi.
  - rewrite Eh. by rewrite (Hu e He).
  - destruct (drop_ref c b); [|done]. by rewrite (Hu e He).
Qed.
Lemma StartTeardown_ok c first i b b' : Inv b -> drop_ref c b = Some b' -> StartTeardownWithInfo first i b' <> Crash.
Proof.
  intros H (e & d & t & ->)%drop_ref_refs. pose proof (inv_quiet b H) as Hq. unfold StartTeardownWithInfo, need, TransitionToMustTeardown, Is. cbn.
  destruct (state_ (lifecycle_ b)); cbn in *; by rewrite ?Hq.
Qed.
Lemma crash_panics l b : Inv b -> step k policy l b = Crash -> panics k policy l b.
Proof.
  intros H E. assert (Hno : ~ owed l b) by (intros Ho; pose proof (step_safe k policy l b H Ho) as Hs; by rewrite E in Hs).
  assert (Hu : forall e, RequiresImmediateTeardown e = None -> unreasoned e).
  { intros e He. unfold unreasoned, RequiresImmediateTeardown, reason in *. destruct (origin e); [done|]. split; [done|]. by destruct (reason_ (info e)). }
  destruct l as [st| |j|st|me|st|w|w|w|c j|c ee|st|r|u| |r| | | |]; try (by destruct Hno); open_step in E; unfold owed in Hno; unfold must, need in E.
  - apply panics_begun. by apply not_true_is_false.
  - destruct me as [e|]; [|by destruct Hno]. destruct (handler b) as [|[lb|]| | | |] eqn:Eh; try done.
    + pose proof (inv_handler b H) as Hh. rewrite Eh in Hh. destruct Hh as [_ ->]. done.
    + apply panics_dispatched; [done|]. apply Hu. by destruct (RequiresImmediateTeardown e) as [[]|].
  - destruct (drop_ref c b) as [b1|] eqn:Ed; [|done]. by apply (StartTeardown_ok _ _ _ _ _ H Ed) in E.
  - destruct (drop_ref c b) as [b1|] eqn:Ed; [|done]. assert (Hd := StartTeardown_ok _ false (info ee) _ _ H Ed). apply panics_sent; [by rewrite Ed|]. apply Hu.
    by destruct (RequiresImmediateTeardown ee) as [[]|].
  - destruct (starter b) as [|[] i| | |] eqn:Es; try done. destruct (Z.eqb_spec st ZX_OK); [done|]. by eapply panics_post.
  - destruct (starter b); done.
  - destruct u; [by destruct Hno|]. destruct (starter b) as [| | |i|] eqn:Es; try done. destruct (reason_ i) eqn:Ei, k eqn:Ek, policy eqn:Ep; try done. by eapply panics_shared.
  - destruct (task b) eqn:Et; try done. apply panics_again; [done|]. destruct r; try done; auto.
Qed.

(** C18.  In every state that the threads reach while the dispatcher, the waiter and the users
    keep their promises, in whatever order messages, failures, up-calls, unbinding, posted
    tasks and cancellations come, the steps that fail an assertion or panic, begin a second
    wait while one is under way, or handle a message while another thread does, are exactly
    those of [panics]: no step that keeps the promises is one of them.  A waiter that answers
    that it cannot cancel makes the posted task panic. *)
Theorem binding_never_crashes l b : reachable k policy b ->
  (step k policy l b = Crash <-> panics k policy l b) /\ (owed l b -> step k policy l b <> Crash) /\
  (forall i b', starter b = SCancel i -> did_enter_bound_ (lifecycle_ b) = true -> step k policy (CancelWait kNotSupported) b = Next b' -> step k policy InvokeTask b' = Crash).
Proof.
  intros Hr. pose proof (reachable_Inv _ _ b Hr) as H. assert (Hs : owed l b -> step k policy l b <> Crash) by (intros Ho E; pose proof (step_safe k policy l b H Ho) as Hs; by rewrite E in Hs).
  split_and!; [split; [intros E; by apply crash_panics|apply panics_crash]|done|].
  intros i b' Es Hd E. pose proof (inv_stage b H) as Hst. rewrite Es in Hst. destruct Hst as [_ Et]. open_step in E. rewrite Es, Hd in E. injection E as <-. open_step. cbn. by rewrite Et.
Qed.

(** After the teardown no wait is under way and the handler is idle. *)
Lemma finished_idle b : Inv b -> notified b <> [] -> armed b = false /\ handler b = HIdle /\ forall w, finish_pc w b = None.
Proof.
  intros H Hn. pose proof (inv_one b H) as H1. unfold in_charge, done_charge in H1. destruct (notified b); [done|].
  destruct (armed b), (handler b) eqn:Eh, (task b) eqn:Et; cbn in H1; try lia; split_and!; try done;
    intros []; unfold finish_pc; by rewrite ?Eh, ?Et.
Qed.
Lemma idle_extenders l b b' : handler b = HIdle -> step k policy l b = Next b' -> (extenders b' <= extenders b)%nat.
Proof.
  intros Hh E. assert (Hs : forall first i b1, StartTeardownWithInfo first i b1 = Next b' -> extenders b' = extenders b1).
  { intros first i b1 E1. unfold StartTeardownWithInfo, need in E1. by repeat (case_match; try discriminate E1; simplify_eq/=). }
  assert (Hd : forall c b1, drop_ref c b = Some b1 -> (extenders b1 <= extenders b)%nat) by (intros [] b1; unfold drop_ref; case_bool_decide; intros [= <-]; cbn; lia).
  destruct l as [st| |j|st|me|st|w|w|w|c j|c ee|st|r|u| |r| | | |]; open_step in E; unfold when, must, need, Begin, Set_, task_continues in E; rewrite ?Hh in E; try done.
  - destruct (Is _ _); [|done]. destruct (st =? ZX_OK); [|by rewrite (Hs _ _ _ E)]. by repeat (case_match; try discriminate E; simplify_eq/=).
  - by repeat (case_match; try discriminate E; simplify_eq/=).
  - by repeat (case_match; try discriminate E; simplify_eq/=).
  - by destruct k.
  - unfold PerformTeardown in E. destruct (perform_pc w b) as [info|]; [|done]. destruct (negb (keep_alive_ b)); [done|].
    destruct (match info with Some i => _ | None => _ end) as [l0|]; [|done]. cbn in E.
    destruct (TransitionToTorndown l0) as [[i l']|]; [|done]. cbn in E. injection E as <-. by destruct w.
  - destruct (set_pc w b); [|done]. destruct (shared_unbind_info_ b); [done|]. injection E as <-. by destruct w.
  - destruct (finish_pc w b); [|done]. destruct (may_finish _ _); [|done]. injection E as <-. by destruct w.
  - destruct (drop_ref c b) as [b1|] eqn:Ed; [|done]. rewrite (Hs _ _ _ E). by eapply Hd.
  - destruct (drop_ref c b) as [b1|] eqn:Ed; [|done]. specialize (Hd c b1 Ed). destruct (RequiresImmediateTeardown ee) as [[]|]; [by rewrite (Hs _ _ _ E)| |done]. injection E as <-. destruct c; cbn; [done|lia].
  - by repeat (case_match; try discriminate E; simplify_eq/=).
  - destruct (starter b); try done. destruct (did_enter_bound_ _), r; by injection E as <-.
  - by repeat (case_match; try discriminate E; simplify_eq/=).
  - by repeat (case_match; try discriminate E; simplify_eq/=).
  - by repeat (case_match; try discriminate E; simplify_eq/=).
  - by repeat (case_match; try discriminate E; simplify_eq/=).
  - by repeat (case_match; try discriminate E; simplify_eq/=).
  - case_bool_decide; [|done]. injection E as <-. cbn. lia.
  - by repeat (case_match; try discriminate E; simplify_eq/=).
Qed.
Lemma runs_extenders ls b b' : runs_to k policy ls b b' -> reachable k policy b -> notified b <> [] -> (extenders b' <= extenders b)%nat.
Proof.
  induction 1 as [|l ls b b1 b2 Ho E Hrest IH]; [done|]. intros Hr Hn. destruct (finished_idle b (reachable_Inv _ _ b Hr) Hn) as (_ & Hh & _). apply (idle_extenders _ _ _ Hh) in E as Hle.
  assert (Hr1 : reachable k policy b1) by by eapply reachable_step. etrans; [|exact Hle]. apply IH; [done|].
  apply (runs_notified [l] b b1); [|done]. econstructor; [done|done|constructor].
Qed.

(** C14.  When the teardown is finished no wait is under way, the thread that handles messages
    is idle, nobody finishes the teardown a second time, and, for a server, no up-call keeps
    the binding alive; it stays that way in whatever comes after.  The up-calls that this
    leaves are those that called [EnableNextDispatch] and gave their reference up by closing
    the binding or by an error that tears it down: these may still run. *)
Theorem upcalls_exclude_teardown w b b' :
  reachable k policy b -> step k policy (FinishTeardown w) b = Next b' ->
  notified b = [] /\ (k = AsyncServer -> extenders b = 0%nat /\ transient b = 0%nat) /\
  forall ls b'', runs_to k policy ls b' b'' ->
    armed b'' = false /\ handler b'' = HIdle /\ notified b'' = notified b' /\ (k = AsyncServer -> extenders b'' = 0%nat) /\ forall w', finish_pc w' b'' = None.
Proof.
  intros Hr E. pose proof (reachable_Inv _ _ b Hr) as H.
  assert (Hr' : reachable k policy b') by by eapply (reachable_step k policy b (FinishTeardown w)).
  open_step in E. unfold when in E. destruct (finish_pc w b) as [i|] eqn:Ef; [|done].
  destruct (may_finish k b) eqn:Em; [|done]. injection E as E.
  assert (Hn : notified b = []).
  { destruct (notified b) eqn:En; [done|]. destruct (finished_idle b H) as (_ & _ & Hno); [by rewrite En|]. by rewrite Hno in Ef. }
  assert (Hn' : notified b' = [i]) by (subst b'; destruct w; cbn; by rewrite Hn).
  assert (Hi : recorded b' = Some i).
  { pose proof (reachable_Inv _ _ b' Hr') as H'. destruct (recorded b') as [j|] eqn:Ej.
    - apply (recorded_notified b' j H') in Ej; congruence.
    - apply (recorded_state b' H') in Ej. pose proof (inv_past b' H') as Hp. unfold past, done_charge, Is in Hp. rewrite Hn' in Hp.
      rewrite orb_true_r in Hp. by destruct (state_ (lifecycle_ b')). }
  assert (Hrefs : k = AsyncServer -> extenders b = 0%nat /\ transient b = 0%nat).
  { intros Ek. unfold may_finish in Em. rewrite Ek in Em. apply andb_true_iff in Em as [Em _]. apply andb_true_iff in Em as [Em _].
    apply andb_true_iff in Em as [E1 E2]. by rewrite !bool_decide_eq_true in *. }
  split_and!; [done|done|].
  intros ls b'' Hruns. pose proof (reachable_Inv _ _ b'' (runs_reachable _ _ _ Hruns Hr')) as H''.
  assert (Hn'' : notified b'' <> []) by (eapply runs_notified; [exact Hruns|by rewrite Hn']).
  destruct (finished_idle b'' H'' Hn'') as (? & ? & ?). split_and!; try done.
  - rewrite Hn'. apply (recorded_notified b'' i H''); [by eapply runs_recorded|done].
  - intros Ek. destruct (Hrefs Ek) as [He _]. assert (Hle := runs_extenders _ _ _ Hruns Hr'). rewrite Hn' in Hle. specialize (Hle ltac:(done)).
    assert (extenders b' = extenders b) by (subst b'; by destruct w). lia.
Qed.

(** The first reason that was recorded is the one the user is told, and he is told it at
    most once, whatever else goes wrong in the meantime. *)
Theorem first_reason_is_told ls b b' i :
  reachable k policy b -> recorded b = Some i -> runs_to k policy ls b b' ->
  recorded b' = Some i /\ (notified b' = [] \/ notified b' = [i]).
Proof.
  intros Hr Hi Hruns. pose proof (runs_recorded _ _ _ _ Hruns Hr Hi) as Hi'. split; [done|].
  destruct (notified b') as [|j l] eqn:En; [by left|right]. rewrite <- En.
  apply recorded_notified; [eapply reachable_Inv, runs_reachable; eauto|done|by rewrite En].
Qed.

(** C17.  Once the reason is recorded the teardown comes to an end: a run in which no new
    references are taken has a bounded length, and when it cannot go on the user has been
    told the reason. *)
Theorem teardown_completes ls b b' i :
  reachable k policy b -> recorded b = Some i -> runs_to k policy ls b b' -> LockWeak ∉ ls ->
  (length ls <= work b)%nat /\ ((forall l, ~ can k policy l b') -> notified b' = [i]).
Proof.
  intros Hr Hi Hruns Hl. split; [pose proof (runs_work _ _ _ _ Hruns Hr Hi Hl); lia|]. intros Hstuck.
  pose proof (runs_recorded _ _ _ _ Hruns Hr Hi) as Hi'. pose proof (reachable_Inv _ _ _ (runs_reachable _ _ _ Hruns Hr)) as H'.
  apply recorded_notified; [done..|]. intros Hn. destruct (progress k policy b' H') as [l Hc]; [|done|by destruct (Hstuck l)].
  apply not_true_is_false. intros Hs. by rewrite (proj2 (recorded_state b' H') Hs) in Hi'.
Qed.

(** Whoever looks for the binding through its weak reference finds it, or finds the
    reason that the user was told; it finds it without its transport only after the user has
    asked for the unbinding. *)
Theorem lookup_finds_reason b :
  reachable k policy b ->
  exists r, lock_or_error b = Some r /\
    match r with
    | Alive true => True
    | Alive false => exists i, recorded b = Some i /\ reason_ i = kUnbind
    | Gone i => notified b = [i]
    | Invalid => False
    end.
Proof.
  intros Hr. pose proof (reachable_Inv _ _ b Hr) as H. pose proof (reachable_Inv_reason _ _ b Hr) as [_ Hx]. unfold lock_or_error.
  destruct (alive b) eqn:Ea.
  - exists (Alive (transport_ b)). split; [done|]. destruct (transport_ b); [done|]. by apply Hx.
  - unfold alive in Ea. rewrite !orb_false_iff in Ea. destruct Ea as [[[[[[Hk _] _] _] _] Hh] Ht]. rewrite (inv_keep b H) in Hk.
    apply negb_false_iff in Hk. pose proof (inv_slot b H) as Hs. pose proof (inv_once b H) as Ho.
    unfold past, done_charge, handler_past, task_past in Hk. rewrite Hh, Ht in Hk. cbn in Hk. unfold Get.
    destruct (notified b) as [|i [|]] eqn:En; try done; [|cbn in Ho; lia]. exists (Gone i). unfold finish_info in Hs. rewrite En in Hs.
    destruct (handler b), (task b); try done; by rewrite Hs.
Qed.

(** An up-call that called [EnableNextDispatch] and then closes the binding gives up the
    reference that was to keep the teardown from completing: the user is told of the teardown
    while the up-call is still running. *)
Theorem early_close_does_not_wait :
  exists b, reachable AsyncServer policy b /\ notified b <> [] /\ detached b = 1%nat.
Proof.
  assert (Hrun : forall ls b b', runs_to AsyncServer policy ls b b' -> reachable AsyncServer policy b -> reachable AsyncServer policy b').
  { induction 1 as [|l ls b b1 b2 Ho E _ IH]; [done|]. intros Hr. apply IH. by eapply reachable_step. }
  set (i := MkStatus (-1) kClose kUninitializedReason None).
  set (ls := [BeginFirstWait ZX_OK; MessageHandler; EnableNextDispatch ZX_OK; StartTeardown FromExtender i; PostTask ZX_OK;
              CancelWait kOk; ExtractTransport true; InvokeTask; Perform ByTask; SetInfo ByTask; FinishTeardown ByTask]).
  eexists. split; [|split].
  - eapply (Hrun ls); [|apply reachable_Create].
    repeat (eapply runs_cons; [vm_compute; try exact I; try reflexivity; by intros _|vm_compute; reflexivity|]). apply runs_nil.
  - done.
  - done.
Qed.
End Promises.

(** ** Examples *)

Module BindingExample.
#[local] Existing Instance fuchsia_errors.
#[local] Abbreviation policy := kCreateAndTeardownFromAnyThread.

(** Take steps, and what they owe. *)
Fixpoint drive (ls : list label) (b : binding) : binding :=
  match ls with [] => b | l :: ls => match step AsyncServer policy l b with Next b' => drive ls b' | _ => b end end.
Fixpoint owed_all (ls : list label) (b : binding) : Prop :=
  match ls with
  | [] => True
  | l :: ls => owed l b /\ match step AsyncServer policy l b with Next b' => owed_all ls b' | _ => False end
  end.

Lemma drive_runs ls : forall b, owed_all ls b -> runs_to AsyncServer policy ls b (drive ls b).
Proof.
  induction ls as [|l ls IH]; intros b; [intros _; constructor|]. intros [Ho H]. cbn [drive].
  destruct (step AsyncServer policy l b) as [| |b1] eqn:E; [done..|]. econstructor; eauto.
Qed.

Lemma drive_reachable ls : owed_all ls Create -> reachable AsyncServer policy (drive ls Create).
Proof. intros H. eapply runs_reachable; [by apply drive_runs|constructor]. Qed.

(** A message is handled while another thread unbinds; the cancellation comes too late. *)
Definition unbinding : list label :=
  [BeginFirstWait 0; MessageHandler; LockWeak; StartTeardown FromWeak Unbind; PostTask 0; CancelWait kNotFound].
(** The handler's thread finds out and tears down. *)
Definition tearing : list label :=
  [ExtractTransport true; InvokeTask; Dispatched None; NextWait 0; Perform ByHandler; SetInfo ByHandler].

Definition unbound : binding := drive unbinding Create.
Definition torn : binding := drive tearing unbound.
Definition finished : binding := drive [FinishTeardown ByHandler] torn.

Lemma unbound_reachable : reachable AsyncServer policy unbound.
Proof. apply drive_reachable. vm_compute. by repeat split. Qed.
Lemma tearing_owed : owed_all tearing unbound.
Proof. vm_compute. by repeat split. Qed.
Lemma torn_reachable : reachable AsyncServer policy torn.
Proof. eapply runs_reachable; [exact (drive_runs tearing unbound tearing_owed)|exact unbound_reachable]. Qed.

Lemma finish_runs : runs_to AsyncServer policy [FinishTeardown ByHandler] torn finished.
Proof. apply drive_runs. vm_compute. by repeat split. Qed.

Lemma finished_reachable : reachable AsyncServer policy finished.
Proof. eapply runs_reachable; [exact finish_runs|exact torn_reachable]. Qed.

(** A step that keeps the promises; the first wait begun twice; a waiter that cannot cancel;
    and a first wait that fails when the dispatcher takes no task. *)
Lemma binding_never_crashes_witness :
  step AsyncServer policy InvokeTask unbound <> Crash /\ step AsyncServer policy (BeginFirstWait 0) unbound = Crash /\
  (let waiting := drive (take 5 unbinding) Create in step AsyncServer policy InvokeTask (drive [CancelWait kNotSupported] waiting) = Crash) /\
  (let failing := drive [BeginFirstWait (-1)] Create in step AsyncServer policy (PostTask (-1)) failing = Crash).
Proof.
  split_and!.
  - apply (binding_never_crashes AsyncServer policy InvokeTask unbound unbound_reachable). exact I.
  - apply (binding_never_crashes AsyncServer policy (BeginFirstWait 0) unbound unbound_reachable). by constructor.
  - intros waiting. assert (Hw : reachable AsyncServer policy waiting) by (apply drive_reachable; vm_compute; by repeat split).
    apply (proj2 (proj2 (binding_never_crashes AsyncServer policy InvokeTask waiting Hw)) Unbind); vm_compute; reflexivity.
  - intros failing. assert (Hf : reachable AsyncServer policy failing) by (apply drive_reachable; vm_compute; by repeat split).
    apply (binding_never_crashes AsyncServer policy (PostTask (-1)) failing Hf). eapply panics_post; [vm_compute; reflexivity|vm_compute; discriminate].
Defined.

Lemma upcalls_exclude_teardown_witness :
  notified torn = [] /\ forall ls b, runs_to AsyncServer policy ls finished b ->
    armed b = false /\ handler b = HIdle /\ notified b = notified finished /\ (AsyncServer = AsyncServer -> extenders b = 0%nat) /\ forall w, finish_pc w b = None.
Proof.
  destruct (upcalls_exclude_teardown AsyncServer policy ByHandler torn finished torn_reachable) as (H1 & _ & H2); [reflexivity|].
  split; [exact H1|exact H2].
Defined.

Lemma first_reason_is_told_witness : recorded torn = Some Unbind /\ (notified torn = [] \/ notified torn = [Unbind]).
Proof.
  apply (first_reason_is_told AsyncServer policy tearing unbound torn Unbind unbound_reachable eq_refl (drive_runs tearing unbound tearing_owed)).
Defined.

Lemma tearing_no_LockWeak : LockWeak ∉ tearing.
Proof. intros H. repeat (apply elem_of_cons in H as [H|H]; [discriminate H|]). by apply elem_of_nil in H. Qed.

Lemma teardown_completes_witness :
  (length tearing <= work unbound)%nat /\ ((forall l, ~ can AsyncServer policy l torn) -> notified torn = [Unbind]).
Proof.
  exact (teardown_completes AsyncServer policy tearing unbound torn Unbind unbound_reachable eq_refl
           (drive_runs tearing unbound tearing_owed) tearing_no_LockWeak).
Defined.

Lemma lookup_finds_reason_witness : exists r, lock_or_error finished = Some r /\ r = Gone Unbind.
Proof.
  destruct (lookup_finds_reason AsyncServer policy finished finished_reachable) as (r & Hr & _).
  exists r. split; [exact Hr|]. vm_compute in Hr. injection Hr as <-. reflexivity.
Defined.

Lemma early_close_does_not_wait_witness : exists b, reachable AsyncServer policy b /\ notified b <> [] /\ detached b = 1%nat.
Proof. exact (early_close_does_not_wait policy). Defined.
End BindingExample.
