(* ===== verification/Timeline.v ===== *)
(** * Timelines

    Models src/media/cpp/timeline_rate.cc, timeline_rate.h and timeline_function.cc: rates
    as ratios of 32-bit numbers, scaling of 64-bit times by them, and linear functions of
    time.  A failed assertion and signed overflow are [None]; the constructor from a
    floating-point number is left out. *)

From S2P Require Import Prelude.

(** ** Arithmetic *)

(** [int64_t]: an operation whose result does not fit is undefined. *)
Definition int64_min : Z := - 2 ^ 63.
Definition int64_max : Z := 2 ^ 63 - 1.
Definition int64 (z : Z) : option Z := if (int64_min <=? z) && (z <=? int64_max) then Some z else None.

Definition uint32_max : Z := 2 ^ 32 - 1.

(** The loops of [BinaryGcd].  [twos] is a [uint8_t]. *)
Fixpoint common_twos (fuel : nat) (a b twos : Z) : option (Z * Z * Z) :=
  if Z.land (Z.lor a b) 1 =? 0 then
    match fuel with
    | O => None
    | S fuel => common_twos fuel (Z.shiftr a 1) (Z.shiftr b 1) (twos ⊕[8] 1)
    end
  else Some (a, b, twos).

Fixpoint drop_twos (fuel : nat) (a : Z) : option Z :=
  if Z.land a 1 =? 0 then
    match fuel with O => None | S fuel => drop_twos fuel (Z.shiftr a 1) end
  else Some a.

Fixpoint subtraction_loop (fuel bits : nat) (a b : Z) : option Z :=
  match fuel with
  | O => None
  | S fuel =>
      b ← drop_twos bits b;
      let '(a, b) := if b <? a then (b, a) else (a, b) in
      let b := b - a in
      if b =? 0 then Some a else subtraction_loop fuel bits a b
  end.

(** On numbers of [w] bits: no number has more factors of two, and each turn of the last
    loop halves the product of the two. *)
Definition BinaryGcd (w : nat) (a b : Z) : option Z :=
  if a =? 0 then Some b
  else if b =? 0 then Some a
  else
    '(a, b, twos) ← common_twos w a b 0;
    a ← drop_twos w a;
    a ← subtraction_loop (2 * w) w a b;
    Some (wrap (Z.of_nat w) (Z.shiftl a twos)).

Definition ReduceRatio (w : nat) (numerator denominator : Z) : option (Z * Z) :=
  if denominator =? 0 then None
  else
    gcd ← BinaryGcd w numerator denominator;
    if gcd =? 0 then Some (numerator, 1)
    else if gcd =? 1 then Some (numerator, denominator)
    else Some (numerator `quot` gcd, denominator `quot` gcd).

(** The result and the overflow flag. *)
Definition ScaleUInt64 (value subject_delta reference_delta : Z) (round_up : bool) : option (Z * bool) :=
  if reference_delta =? 0 then None
  else
    let kLow32Bits := 0xffffffff in
    let kHigh32Bits := wrap 64 (Z.shiftl kLow32Bits 32) in
    let high := wrap 64 (subject_delta * Z.shiftr value 32) in
    let low := wrap 64 (subject_delta * Z.land value kLow32Bits) in
    let high := high ⊕[64] Z.shiftr low 32 in
    let low := Z.land low kLow32Bits in
    let low := Z.lor low (wrap 64 (Z.shiftl (high mod reference_delta) 32)) in
    let round_up := round_up && negb (low mod reference_delta =? 0) in
    let high := high / reference_delta in
    let low := low / reference_delta in
    if negb (Z.land high kHigh32Bits =? 0) then Some (0, true)
    else
      let result := Z.lor (wrap 64 (Z.shiftl high 32)) low in
      if round_up then
        if result =? int64_max then Some (0, true) else Some (result ⊕[64] 1, false)
      else Some (result, false).

(** ** Rates *)

Module TimelineRate.

Definition kOverflow : Z := int64_max.

Record TimelineRate := { subject_delta : Z; reference_delta : Z }.

Definition TimelineRate_default : TimelineRate := {| subject_delta := 0; reference_delta := 1 |}.
Definition TimelineRate_of (subject_delta : Z) : TimelineRate := {| subject_delta := subject_delta; reference_delta := 1 |}.

Definition Reduce (subject_delta reference_delta : Z) : option (Z * Z) := ReduceRatio 32 subject_delta reference_delta.

(** The constructor that reduces. *)
Definition rate (subject_delta reference_delta : Z) : option TimelineRate :=
  if reference_delta =? 0 then None
  else
    '(s, r) ← Reduce subject_delta reference_delta;
    Some {| subject_delta := s; reference_delta := r |}.

(** The loop that drops low bits until both numbers fit; 32 turns are enough. *)
Fixpoint shift_loop (fuel : nat) (s r : Z) : option (Z * Z) :=
  match fuel with
  | O => None
  | S fuel =>
      let s := Z.shiftr s 1 in
      let r := Z.shiftr r 1 in
      if (uint32_max <? s) || (uint32_max <? r) then shift_loop fuel s r else Some (s, r)
  end.

Definition Product (a_subject_delta a_reference_delta b_subject_delta b_reference_delta : Z) (exact : bool)
    : option (Z * Z) :=
  if (a_reference_delta =? 0) || (b_reference_delta =? 0) then None
  else
    let subject_delta := wrap 64 (a_subject_delta * b_subject_delta) in
    let reference_delta := wrap 64 (a_reference_delta * b_reference_delta) in
    '(s, r) ← ReduceRatio 64 subject_delta reference_delta;
    if (uint32_max <? s) || (uint32_max <? r) then
      if exact then None
      else
        '(s, r) ← shift_loop 32 s r;
        if r =? 0 then Some (uint32_max, 1) else Some (s, r)
    else Some (s, r).

Definition product (a b : TimelineRate) (exact : bool) : option TimelineRate :=
  '(s, r) ← Product (subject_delta a) (reference_delta a) (subject_delta b) (reference_delta b) exact;
  rate s r.

Definition Scale (value subject_delta reference_delta : Z) : option Z :=
  let abs_of_min_int64 := wrap 64 (int64_max + 1) in
  if reference_delta =? 0 then None
  else
    '(abs_result, overflow) ←
      (if 0 <=? value then ScaleUInt64 value subject_delta reference_delta false
       else if value =? int64_min then ScaleUInt64 abs_of_min_int64 subject_delta reference_delta true
       else ScaleUInt64 (wrap 64 (- value)) subject_delta reference_delta true);
    if (overflow : bool) then Some kOverflow
    else if int64_max <? abs_result then
      if (value <? 0) && (abs_result =? abs_of_min_int64) then Some int64_min else Some kOverflow
    else Some (if 0 <=? value then abs_result else - abs_result).

Definition invertible (r : TimelineRate) : bool := negb (subject_delta r =? 0).
Definition InverseRate (r : TimelineRate) : option TimelineRate :=
  if subject_delta r =? 0 then None
  else Some {| subject_delta := reference_delta r; reference_delta := subject_delta r |}.
Definition eqb (a b : TimelineRate) : bool :=
  (subject_delta a =? subject_delta b) && (reference_delta a =? reference_delta b).
Definition ratio (a b : TimelineRate) : option TimelineRate := i ← InverseRate b; product a i true.

Definition scale (r : TimelineRate) (value : Z) : option Z := Scale value (subject_delta r) (reference_delta r).
Definition ScaleInverse (r : TimelineRate) (value : Z) : option Z := Scale value (reference_delta r) (subject_delta r).
End TimelineRate.

(** ** Functions *)

Module TimelineFunction.
Import TimelineRate.

Record TimelineFunction := { subject_time : Z; reference_time : Z; rate_ : TimelineRate }.

Definition Apply (subject_time reference_time : Z) (rate : TimelineRate) (reference_input : Z) : option Z :=
  d ← int64 (reference_input - reference_time);
  s ← scale rate d;
  int64 (s + subject_time).

Definition ApplyInverse (subject_time reference_time : Z) (rate : TimelineRate) (subject_input : Z) : option Z :=
  if reference_delta rate =? 0 then None
  else i ← InverseRate rate; Apply reference_time subject_time i subject_input.

Definition apply (f : TimelineFunction) (reference_input : Z) : option Z :=
  Apply (subject_time f) (reference_time f) (rate_ f) reference_input.

Definition InverseFunction (f : TimelineFunction) : option TimelineFunction :=
  if reference_delta (rate_ f) =? 0 then None
  else
    i ← InverseRate (rate_ f);
    Some {| subject_time := reference_time f; reference_time := subject_time f; rate_ := i |}.

Definition Compose (bc ab : TimelineFunction) (exact : bool) : option TimelineFunction :=
  s ← apply bc (subject_time ab);
  p ← product (rate_ ab) (rate_ bc) exact;
  Some {| subject_time := s; reference_time := reference_time ab; rate_ := p |}.
End TimelineFunction.
