(* ===== verification/TimelineTheorems.v ===== *)
(** * Timelines are exact where they can be

    The arithmetic of Timeline.v against division and greatest common divisors on the
    integers. *)

From Stdlib Require Import Znumtheory.
From S2P Require Import Prelude Timeline.

(** ** The binary algorithm computes the greatest common divisor *)

Lemma land_1 a : Z.land a 1 = a mod 2.
Proof. exact (Z.land_ones a 1 ltac:(lia)). Qed.

Lemma shiftr_1 a : Z.shiftr a 1 = a / 2.
Proof. by rewrite Z.shiftr_div_pow2. Qed.

Lemma lor_mod_2 a b : Z.land (Z.lor a b) 1 = 0 <-> a mod 2 = 0 /\ b mod 2 = 0.
Proof.
  rewrite Z.land_lor_distr_l, !land_1, Z.lor_eq_0_iff. done.
Qed.

Lemma even_half a : a mod 2 = 0 -> a = 2 * (a / 2).
Proof. intros H. pose proof (Z.div_mod a 2). lia. Qed.

Lemma half_bound a n : 0 < a < 2 ^ Z.of_nat (S n) -> a mod 2 = 0 -> 0 < a / 2 < 2 ^ Z.of_nat n.
Proof. intros Ha He. pose proof (even_half a He). rewrite Nat2Z.inj_succ, Z.pow_succ_r in Ha by lia. lia. Qed.

Lemma common_twos_ok n : forall a b t,
  0 < a < 2 ^ Z.of_nat n -> 0 < b -> 0 <= t -> t + Z.of_nat n < 256 ->
  exists a' b' j, common_twos n a b t = Some (a', b', t + j) /\ 0 <= j /\ a = a' * 2 ^ j /\ b = b' * 2 ^ j /\
    0 < a' /\ 0 < b' /\ (a' mod 2 = 1 \/ b' mod 2 = 1).
Proof.
  induction n as [|n IH]; intros a b t Ha Hb Ht Hn; cbn [common_twos]; [cbn in Ha; lia|].
  destruct (Z.eqb_spec (Z.land (Z.lor a b) 1) 0) as [E|E].
  - apply lor_mod_2 in E as [Ea Eb]. rewrite !shiftr_1. pose proof (even_half b Eb).
    assert (Hw : t ⊕[8] 1 = t + 1) by (apply wrap_small; unfold fits; lia). rewrite Hw.
    destruct (IH (a / 2) (b / 2) (t + 1)) as (a' & b' & j & -> & Hj & H1 & H2 & H3); [by apply half_bound|lia..|].
    exists a', b', (j + 1). replace (t + (j + 1)) with (t + 1 + j) by lia. rewrite Z.pow_add_r by lia. pose proof (even_half a Ea).
    split_and!; [done|lia|lia|lia|tauto..].
  - exists a, b, 0. rewrite Z.add_0_r. split_and!; [done|lia..|]. pose proof (Z.mod_pos_bound a 2). pose proof (Z.mod_pos_bound b 2).
    destruct (decide (a mod 2 = 0)), (decide (b mod 2 = 0)); [|lia..]. destruct E. by apply lor_mod_2.
Qed.

Lemma drop_twos_ok n : forall a, 0 < a < 2 ^ Z.of_nat n ->
  exists a' j, drop_twos n a = Some a' /\ 0 <= j /\ a = a' * 2 ^ j /\ a' mod 2 = 1 /\ 0 < a'.
Proof.
  induction n as [|n IH]; intros a Ha; cbn [drop_twos]; [cbn in Ha; lia|]. rewrite land_1, shiftr_1.
  destruct (Z.eqb_spec (a mod 2) 0) as [E|E].
  - destruct (IH (a / 2)) as (a' & j & -> & Hj & H1 & H2); [by apply half_bound|]. exists a', (j + 1).
    rewrite Z.pow_add_r by lia. pose proof (even_half a E). split_and!; [done|lia|lia|tauto..].
  - exists a, 0. pose proof (Z.mod_pos_bound a 2). split_and!; [done|lia..].
Qed.

(** A power of two shares no factor with an odd number. *)
Lemma gcd_odd_pow a b j : a mod 2 = 1 -> 0 <= j -> Z.gcd a (b * 2 ^ j) = Z.gcd a b.
Proof.
  intros Ha Hj. rewrite Z.mul_comm. apply Z.gcd_unique; [apply Z.gcd_nonneg|apply Z.gcd_divide_l| |].
  - apply Z.divide_mul_r, Z.gcd_divide_r.
  - intros q Hqa Hqb. apply Z.gcd_greatest; [done|]. apply (Z.gauss q (2 ^ j)); [done|].
    assert (Hq2 : Z.gcd q 2 = 1).
    { apply Z.gcd_unique; [lia|apply Z.divide_1_l|apply Z.divide_1_l|]. intros p Hp Hp2.
      assert (Hpa : (p | a)) by exact (Z.divide_trans _ _ _ Hp Hqa). replace 1 with (a - 2 * (a / 2)) by (pose proof (Z.div_mod a 2); lia).
      apply Z.divide_sub_r; [done|]. by apply Z.divide_mul_l. }
    clear Hqb. revert j Hj. apply natlike_ind; [apply Z.gcd_1_r|]. intros j Hj IH. rewrite Z.pow_succ_r by lia.
    by apply Z.coprime_mul_r.
Qed.

(** The loop on an even [b]: each turn halves the product. *)
Lemma gcd_step a b : Z.gcd a (b - a) = Z.gcd a b.
Proof. by rewrite Z.gcd_sub_diag_r. Qed.

Lemma swap_sub a b : 0 < a -> 0 < b -> a mod 2 = 1 -> b mod 2 = 1 ->
  exists lo hi, (if b <? a then (b, a) else (a, b)) = (lo, hi) /\ 0 < lo <= hi /\ lo mod 2 = 1 /\ (hi - lo) mod 2 = 0 /\
    Z.gcd lo (hi - lo) = Z.gcd a b /\ lo * hi = a * b /\ lo <= a /\ hi <= Z.max a b.
Proof.
  intros Ha Hb Oa Ob. destruct (Z.ltb_spec b a).
  - exists b, a. rewrite gcd_step, (Z.gcd_comm b a). split_and!; try done; try lia. rewrite Zminus_mod, Oa, Ob. done.
  - exists a, b. rewrite gcd_step. split_and!; try done; try lia. rewrite Zminus_mod, Oa, Ob. done.
Qed.

Lemma subtraction_loop_even w n : forall a b,
  0 < a < 2 ^ Z.of_nat w -> 0 < b < 2 ^ Z.of_nat w -> a mod 2 = 1 -> b mod 2 = 0 -> a * b < 2 ^ Z.of_nat n ->
  subtraction_loop n w a b = Some (Z.gcd a b).
Proof.
  induction n as [|n IH]; intros a b Ha Hb Oa Eb Hn; [cbn in Hn; nia|]. cbn [subtraction_loop].
  destruct (drop_twos_ok w b Hb) as (b' & j & -> & Hj & H1 & Ob & Hb'). cbn [mbind option_bind].
  assert (Hbb : 2 * b' <= b).
  { destruct (decide (j = 0)) as [->|]; [rewrite Z.mul_1_r in H1; congruence|]. replace j with (1 + (j - 1)) in H1 by lia.
    rewrite Z.pow_add_r in H1 by lia. pose proof (Z.pow_pos_nonneg 2 (j - 1) ltac:(lia) ltac:(lia)). nia. }
  destruct (swap_sub a b' ltac:(lia) Hb' Oa Ob) as (lo & hi & -> & Hlo & Olo & Ehi & Hg & Hp & Hla & Hhm).
  rewrite H1, gcd_odd_pow, <- Hg by done. destruct (Z.eqb_spec (hi - lo) 0) as [E|E].
  - rewrite E, Z.gcd_0_r. f_equal. lia.
  - rewrite Nat2Z.inj_succ, Z.pow_succ_r in Hn by lia. apply IH; try done; nia.
Qed.

Lemma subtraction_loop_ok w a b : (0 < w)%nat ->
  0 < a < 2 ^ Z.of_nat w -> 0 < b < 2 ^ Z.of_nat w -> a mod 2 = 1 ->
  subtraction_loop (2 * w) w a b = Some (Z.gcd a b).
Proof.
  intros Hw Ha Hb Oa. destruct (2 * w)%nat as [|n] eqn:En; [lia|]. cbn [subtraction_loop].
  destruct (drop_twos_ok w b Hb) as (b' & j & -> & Hj & H1 & Ob & Hb'). cbn [mbind option_bind].
  assert (Hbb : b' <= b) by (pose proof (Z.pow_pos_nonneg 2 j ltac:(lia) Hj); nia).
  destruct (swap_sub a b' ltac:(lia) Hb' Oa Ob) as (lo & hi & -> & Hlo & Olo & Ehi & Hg & Hp & Hla & Hhm).
  rewrite H1, gcd_odd_pow, <- Hg by done. destruct (Z.eqb_spec (hi - lo) 0) as [E|E].
  - rewrite E, Z.gcd_0_r. f_equal. lia.
  - apply subtraction_loop_even; try done; try lia.
    assert (4 * (lo * (hi - lo)) <= hi * hi) by (pose proof (Z.square_nonneg (hi - 2 * lo)); lia).
    assert (hi < 2 ^ Z.of_nat w) by lia.
    assert (Hpow : 2 * 2 ^ Z.of_nat n = 2 ^ Z.of_nat w * 2 ^ Z.of_nat w).
    { rewrite <- Z.pow_add_r, <- Z.pow_succ_r by lia. f_equal. lia. }
    nia.
Qed.

Lemma BinaryGcd_ok w a b : (0 < w <= 64)%nat -> fits (Z.of_nat w) a -> fits (Z.of_nat w) b -> BinaryGcd w a b = Some (Z.gcd a b).
Proof.
  intros Hw [Ha0 Ha] [Hb0 Hb]. unfold BinaryGcd. destruct (Z.eqb_spec a 0) as [->|Na]; [rewrite Z.gcd_0_l; f_equal; lia|].
  destruct (Z.eqb_spec b 0) as [->|Nb]; [rewrite Z.gcd_0_r; f_equal; lia|].
  destruct (common_twos_ok w a b 0) as (a' & b' & j & -> & Hj & H1 & H2 & Ha' & Hb' & Ho); [lia..|]. cbn [mbind option_bind].
  pose proof (Z.pow_pos_nonneg 2 j ltac:(lia) Hj) as Hpj. assert (a' <= a /\ b' <= b) as [Hal Hbl] by nia.
  destruct (drop_twos_ok w a') as (a'' & i & -> & Hi & H3 & Oa & Ha''); [lia|]. cbn [mbind option_bind].
  pose proof (Z.pow_pos_nonneg 2 i ltac:(lia) Hi) as Hpi. assert (a'' <= a') by nia.
  rewrite subtraction_loop_ok by (done || lia). cbn [mbind option_bind]. f_equal. rewrite Z.add_0_l, Z.shiftl_mul_pow2 by lia.
  assert (Hg : Z.gcd a'' b' = Z.gcd a' b').
  { destruct Ho as [Ho|Ho]; [|by rewrite H3, (Z.gcd_comm a'' b'), (Z.gcd_comm (a'' * 2 ^ i) b'), (gcd_odd_pow b' a'' i)].
    destruct (decide (i = 0)) as [->|]; [by rewrite H3, Z.mul_1_r|]. exfalso. rewrite H3 in Ho. replace i with (1 + (i - 1)) in Ho by lia.
    rewrite Z.pow_add_r, Z.mul_assoc, (Z.mul_comm a''), <- Z.mul_assoc, Z.mul_comm, Z.mod_mul in Ho by lia. done. }
  rewrite Hg, H1, H2, Z.gcd_mul_mono_r_nonneg by lia. apply wrap_small. split; [pose proof (Z.gcd_nonneg a' b'); lia|].
  assert (Z.gcd a' b' <= a') by (apply Z.divide_pos_le; [lia|apply Z.gcd_divide_l]). nia.
Qed.

Lemma ReduceRatio_ok w n d : (0 < w <= 64)%nat -> fits (Z.of_nat w) n -> fits (Z.of_nat w) d -> d <> 0 ->
  ReduceRatio w n d = Some (n / Z.gcd n d, d / Z.gcd n d).
Proof.
  intros Hw Hn Hd Nd. unfold ReduceRatio. rewrite (proj2 (Z.eqb_neq _ _)), BinaryGcd_ok by done. cbn [mbind option_bind].
  assert (Hg : Z.gcd n d <> 0) by (intros [_ E]%Z.gcd_eq_0; done). pose proof (Z.gcd_nonneg n d).
  rewrite (proj2 (Z.eqb_neq (Z.gcd n d) 0) Hg). destruct (Z.eqb_spec (Z.gcd n d) 1) as [->|]; [by rewrite !Z.div_1_r|].
  unfold fits in *. by rewrite !Z.quot_div_nonneg by lia.
Qed.

(** ** Scaling *)

Lemma lor_high x y : 0 <= x < 2 ^ 32 -> Z.lor x (Z.shiftl y 32) = x + y * 2 ^ 32.
Proof.
  intros Hx. pose proof (Z.add_lor_land x (Z.shiftl y 32)) as H. rewrite Z.shiftl_mul_pow2 in H at 3 by lia.
  replace (Z.land x (Z.shiftl y 32)) with 0 in H; [lia|]. symmetry. apply Z.bits_inj'. intros i Hi.
  rewrite Z.land_spec, Z.shiftl_spec, Z.bits_0 by done. destruct (Z.ltb_spec i 32).
  - rewrite (Z.testbit_neg_r y) by lia. apply andb_false_r.
  - rewrite <- (Z.mod_small x (2 ^ 32)), Z.mod_pow2_bits_high by lia. done.
Qed.

Lemma high_bits x : fits 64 x -> Z.land x (wrap 64 (Z.shiftl 0xffffffff 32)) = 0 <-> x < 2 ^ 32.
Proof.
  intros [H0 H1]. change (wrap 64 (Z.shiftl 0xffffffff 32)) with (Z.ones 64 - Z.ones 32).
  assert (Hl : Z.land x (Z.ones 64 - Z.ones 32) = x - x mod 2 ^ 32).
  { change (Z.ones 64 - Z.ones 32) with (Z.shiftl (Z.ones 32) 32). rewrite (Z.div_mod x (2 ^ 32)) at 1 by lia.
    rewrite Z.mul_comm, Z.add_comm, <- lor_high by (apply Z.mod_pos_bound; lia). rewrite Z.land_lor_distr_l.
    rewrite <- Z.shiftl_land, Z.land_ones, (Z.mod_small (x / 2 ^ 32)) by
      first [lia|split; [apply Z.div_pos; lia|apply Z.div_lt_upper_bound; lia]].
    replace (Z.land (x mod 2 ^ 32) (Z.shiftl (Z.ones 32) 32)) with 0.
    - rewrite Z.lor_0_l, Z.shiftl_mul_pow2 by lia. pose proof (Z.div_mod x (2 ^ 32)). lia.
    - symmetry. apply Z.bits_inj'. intros i Hi. rewrite Z.land_spec, Z.shiftl_spec, Z.bits_0 by done. destruct (Z.ltb_spec i 32).
      + rewrite (Z.testbit_neg_r (Z.ones 32)) by lia. apply andb_false_r.
      + rewrite Z.mod_pow2_bits_high by lia. done. }
  rewrite Hl. pose proof (Z.mod_pos_bound x (2 ^ 32)). split; intros Hx; [lia|]. rewrite Z.mod_small; lia.
Qed.

(** The division in two halves. *)
Lemma long_division N r : 0 <= N -> 0 < r ->
  let high := N / 2 ^ 32 in let low := N mod 2 ^ 32 + high mod r * 2 ^ 32 in
  N / r = high / r * 2 ^ 32 + low / r /\ low mod r = N mod r /\ 0 <= low / r < 2 ^ 32.
Proof.
  intros HN Hr high low. pose proof (Z.mod_pos_bound N (2 ^ 32) ltac:(lia)). pose proof (Z.mod_pos_bound high r Hr).
  assert (HNe : N = high / r * 2 ^ 32 * r + low).
  { unfold low. pose proof (Z.div_mod N (2 ^ 32)) as E1. pose proof (Z.div_mod high r) as E2. fold high in E1. nia. }
  split_and!.
  - rewrite HNe at 1. rewrite Z.div_add_l by lia. done.
  - rewrite HNe at 1. rewrite Z.add_comm, Z.mod_add by lia. done.
  - apply Z.div_pos; nia.
  - apply Z.div_lt_upper_bound; unfold low; nia.
Qed.

(** What [ScaleUInt64] returns. *)
Definition scaled (N r : Z) (round_up : bool) : Z * bool :=
  let q := N / r in
  if 2 ^ 64 <=? q then (0, true)
  else if round_up && negb (N mod r =? 0) then if q =? int64_max then (0, true) else (q ⊕[64] 1, false)
  else (q, false).

Lemma ScaleUInt64_ok v s r up : fits 64 v -> fits 32 s -> 0 < r < 2 ^ 32 -> ScaleUInt64 v s r up = Some (scaled (v * s) r up).
Proof.
  intros [Hv0 Hv] [Hs0 Hs] Hr. unfold ScaleUInt64, scaled. rewrite (proj2 (Z.eqb_neq r 0)) by lia.
  rewrite Z.shiftr_div_pow2 by lia. change 0xffffffff with (Z.ones 32). rewrite Z.land_ones by lia. cbv zeta.
  pose proof (Z.div_mod v (2 ^ 32) ltac:(lia)) as Ev. pose proof (Z.mod_pos_bound v (2 ^ 32) ltac:(lia)) as Hvl.
  assert (Hvh : 0 <= v / 2 ^ 32 < 2 ^ 32) by (split; [apply Z.div_pos; lia|apply Z.div_lt_upper_bound; lia]).
  set (vh := v / 2 ^ 32) in *. set (vl := v mod 2 ^ 32) in *. clearbody vh vl.
  rewrite (wrap_small 64 (s * vh)), (wrap_small 64 (s * vl)) by (unfold fits; nia).
  rewrite (Z.shiftr_div_pow2 (s * vl)), Z.land_ones by lia.
  pose proof (Z.div_mod (s * vl) (2 ^ 32) ltac:(lia)) as El. pose proof (Z.mod_pos_bound (s * vl) (2 ^ 32) ltac:(lia)) as Hl.
  assert (Hc : 0 <= s * vl / 2 ^ 32 < 2 ^ 32) by (split; [apply Z.div_pos; nia|apply Z.div_lt_upper_bound; nia]).
  rewrite (wrap_small 64 (s * vh + s * vl / 2 ^ 32)) by (unfold fits; nia).
  assert (HN : v * s / 2 ^ 32 = s * vh + s * vl / 2 ^ 32 /\ v * s mod 2 ^ 32 = (s * vl) mod 2 ^ 32).
  { replace (v * s) with ((s * vl) + (s * vh) * 2 ^ 32) by (rewrite Ev; ring). rewrite Z.div_add, Z.mod_add by lia. lia. }
  destruct HN as [<- <-]. set (high := v * s / 2 ^ 32) in *.
  assert (Hhigh : 0 <= high < 2 ^ 64) by (split; [apply Z.div_pos; nia|apply Z.div_lt_upper_bound; nia]).
  pose proof (Z.mod_pos_bound high r ltac:(lia)) as Hm. pose proof (Z.mod_pos_bound (v * s) (2 ^ 32) ltac:(lia)) as Hm2.
  rewrite (wrap_small 64 (Z.shiftl (high mod r) 32)) by (rewrite Z.shiftl_mul_pow2 by lia; unfold fits; lia).
  rewrite lor_high by done. destruct (long_division (v * s) r ltac:(nia) ltac:(lia)) as (Hq & Hrem & Hlow). fold high in Hq, Hrem, Hlow.
  rewrite Hrem, Hq. set (lo := (v * s mod 2 ^ 32 + high mod r * 2 ^ 32) / r) in *.
  assert (Hhr : fits 64 (high / r)) by (split; [apply Z.div_pos; lia|apply Z.div_lt_upper_bound; nia]).
  pose proof (high_bits (high / r) Hhr) as Hb. destruct (Z.eqb_spec (Z.land (high / r) (wrap 64 (Z.shiftl (Z.ones 32) 32))) 0) as [E|E].
  - apply Hb in E. destruct Hhr as [Hhr _]. rewrite (proj2 (Z.leb_gt _ _)) by lia. cbn [negb].
    rewrite (wrap_small 64 (Z.shiftl (high / r) 32)) by (rewrite Z.shiftl_mul_pow2 by lia; unfold fits; lia).
    rewrite Z.lor_comm, lor_high by done. rewrite (Z.add_comm lo). destruct (up && _); [|done]. by destruct (_ =? int64_max).
  - assert (2 ^ 32 <= high / r) by (destruct (decide (high / r < 2 ^ 32)) as [E'|]; [by apply Hb in E'|lia]).
    rewrite (proj2 (Z.leb_le _ _)) by lia. done.
Qed.

Import TimelineRate.

(** [Scale] on a negative value works on its absolute value, rounded up. *)
Lemma Scale_negative v s r : int64_min <= v < 0 -> fits 32 s -> 0 < r < 2 ^ 32 ->
  Scale v s r = Some (let '(abs_result, overflow) := scaled (- v * s) r true in
    if (overflow : bool) then kOverflow
    else if int64_max <? abs_result then if abs_result =? 2 ^ 63 then int64_min else kOverflow else - abs_result).
Proof.
  intros Hv Hs Hr. unfold Scale. rewrite (proj2 (Z.eqb_neq r 0)), (proj2 (Z.leb_gt 0 v)), (proj2 (Z.ltb_lt v 0)) by lia. cbv zeta.
  change (wrap 64 (int64_max + 1)) with (2 ^ 63). unfold int64_min in Hv.
  assert (Hsc : (if v =? int64_min then ScaleUInt64 (2 ^ 63) s r true else ScaleUInt64 (wrap 64 (- v)) s r true)
                = Some (scaled (- v * s) r true)).
  { rewrite (wrap_small 64 (- v)) by (unfold fits; lia).
    destruct (Z.eqb_spec v int64_min) as [->|]; rewrite ScaleUInt64_ok by (done || unfold fits; lia); done. }
  rewrite Hsc. cbn [mbind option_bind]. destruct (scaled (- v * s) r true) as [x []]; [done|]. cbn [andb].
  by repeat case_match.
Qed.

(** Rounding up the absolute value is rounding down. *)
Lemma floor_neg N r : 0 < r ->
  - N / r = if N mod r =? 0 then - (N / r) else - (N / r) - 1.
Proof.
  intros Hr. destruct (Z.eqb_spec (N mod r) 0) as [E|E].
  - apply Z.div_opp_l_z; lia.
  - rewrite Z.div_opp_l_nz by lia. done.
Qed.

(** The result, from the rounded product and whether it is exact. *)
Definition scale_result (q : Z) (exact : bool) : Z :=
  if (int64_min <? q) && (q <=? int64_max) then q
  else if (q =? int64_min) && exact then int64_min
  else if (q =? - 2 ^ 64) && negb exact then 0
  else kOverflow.

Lemma Scale_negative_ok v s r : int64_min <= v < 0 -> fits 32 s -> 0 < r < 2 ^ 32 ->
  Scale v s r = Some (scale_result (v * s / r) ((v * s) mod r =? 0)).
Proof.
  intros Hv Hs Hr. rewrite Scale_negative by done. f_equal. unfold scaled. cbn [andb].
  pose proof (floor_neg (- v * s) r ltac:(lia)) as Hf. rewrite Z.mul_opp_l, Z.opp_involutive in *.
  replace ((v * s) mod r =? 0) with (- (v * s) mod r =? 0)
    by (apply Bool.eq_true_iff_eq; rewrite !Z.eqb_eq, !Z.mod_divide by lia; apply Z.divide_opp_r).
  assert (Hq : 0 <= - (v * s) / r) by (apply Z.div_pos; unfold fits in Hs; nia).
  set (q := v * s / r) in *. set (qa := - (v * s) / r) in *. set (z := - (v * s) mod r =? 0) in *. clearbody q qa z.
  unfold scale_result, kOverflow, int64_max, int64_min. subst q.
  destruct z; cbn [negb]; [repeat case_match; simplify_eq; lia|].
  destruct (decide (qa = 2 ^ 64 - 1)) as [->|]; [done|]. destruct (decide (qa < 2 ^ 64)); [|repeat case_match; simplify_eq; lia].
  rewrite (wrap_small 64 (qa + 1)) by (unfold fits; lia). repeat case_match; simplify_eq; lia.
Qed.

Lemma Scale_ok v s r : int64_min <= v <= int64_max -> fits 32 s -> 0 < r < 2 ^ 32 ->
  Scale v s r = Some (scale_result (v * s / r) ((v * s) mod r =? 0)).
Proof.
  intros Hv Hs Hr. destruct (Z.leb_spec 0 v) as [Hp|Hn]; [|apply Scale_negative_ok; (done || lia)].
  assert (Hq : 0 <= v * s / r) by (apply Z.div_pos; unfold fits in Hs; nia). unfold Scale, int64_min, int64_max in *.
  rewrite (proj2 (Z.eqb_neq r 0)), (proj2 (Z.leb_le 0 v)), ScaleUInt64_ok by (done || unfold fits; lia). cbn [mbind option_bind].
  unfold scaled, scale_result, kOverflow, int64_max, int64_min. cbn [andb]. rewrite (proj2 (Z.ltb_ge v 0)) by lia. cbn [andb].
  repeat case_match; simplify_eq; f_equal; lia.
Qed.

(** C33.  [Scale] is the product with the rate rounded down.  It reports an overflow when that
    does not fit, and also when a fraction rounds down to the least value; a negative product
    that rounds down to -2^64 wraps around to zero. *)
Theorem Scale_correct v s r :
  int64_min <= v <= int64_max -> fits 32 s -> 0 < r < 2 ^ 32 ->
  let q := v * s / r in
  let exact := (v * s) mod r = 0 in
  exists x, Scale v s r = Some x /\
    (int64_min < q <= int64_max -> x = q) /\
    (int64_max < q -> x = kOverflow) /\
    (q <= int64_min -> exact -> x = if q =? int64_min then int64_min else kOverflow) /\
    (q <= int64_min -> ~ exact -> x = if q =? - 2 ^ 64 then 0 else kOverflow).
Proof.
  intros Hv Hs Hr q exact. rewrite Scale_ok by done. eexists. split; [done|]. fold q. unfold scale_result, int64_min, int64_max.
  destruct (Z.eqb_spec ((v * s) mod r) 0) as [E|E]; fold exact in E; cbn [negb]; split_and!; intros; try done; repeat case_match; lia.
Qed.

(** The fraction that wraps around is -(2^64 - 1/2). *)
Lemma Scale_correct_witness :
  Scale (-1190112520884487201) 31 2 = Some 0 /\ Scale (-3) 1 2 = Some (-2) /\ Scale int64_min 1 1 = Some int64_min /\
  Scale (-6148914691236517205) 3 2 = Some kOverflow.
Proof.
  destruct (Scale_correct (-1190112520884487201) 31 2) as (x & -> & _ & _ & _ & H);
    [unfold int64_min, int64_max, fits; lia..|].
  rewrite H by (vm_compute; congruence). split_and!; reflexivity.
Defined.

(** ** Rates *)

(** A rate in lowest terms. *)
Definition reduced (a : TimelineRate) : Prop :=
  fits 32 (subject_delta a) /\ 0 < reference_delta a < 2 ^ 32 /\ Z.gcd (subject_delta a) (reference_delta a) = 1.

(** The two ratios are the same number. *)
Definition same_ratio (a : TimelineRate) (s r : Z) : Prop := subject_delta a * r = s * reference_delta a.

Lemma lowest_terms s r : 0 <= s -> 0 < r ->
  let g := Z.gcd s r in
  s = s / g * g /\ r = r / g * g /\ 0 <= s / g <= s /\ 0 < r / g <= r /\ Z.gcd (s / g) (r / g) = 1 /\ 0 < g.
Proof.
  intros Hs Hr g. assert (Hg : 0 < g).
  { pose proof (Z.gcd_nonneg s r). assert (g <> 0) by (intros [_ E]%Z.gcd_eq_0; lia). unfold g in *. lia. }
  assert (Es : s = s / g * g) by (rewrite Z.mul_comm; apply Z_div_exact_full_2; [lia|apply Z.mod_divide; [lia|apply Z.gcd_divide_l]]).
  assert (Er : r = r / g * g) by (rewrite Z.mul_comm; apply Z_div_exact_full_2; [lia|apply Z.mod_divide; [lia|apply Z.gcd_divide_r]]).
  split_and!; try done; [apply Z.div_pos; lia|nia..|]. by apply Z.gcd_div_gcd; [lia|].
Qed.

Lemma rate_ok s r : fits 32 s -> 0 < r < 2 ^ 32 ->
  rate s r = Some {| subject_delta := s / Z.gcd s r; reference_delta := r / Z.gcd s r |}.
Proof.
  intros Hs Hr. unfold rate, Reduce. rewrite (proj2 (Z.eqb_neq r 0)) by lia.
  rewrite (ReduceRatio_ok 32) by (unfold fits in *; cbn; lia). done.
Qed.

Lemma rate_reduced s r : fits 32 s -> 0 < r < 2 ^ 32 -> exists a, rate s r = Some a /\ reduced a /\ same_ratio a s r.
Proof.
  intros [Hs0 Hs] Hr. rewrite rate_ok by done. eexists. split; [done|].
  destruct (lowest_terms s r Hs0 ltac:(lia)) as (H1 & H2 & H3 & H4 & H5 & H6). unfold reduced, same_ratio, fits. cbn.
  set (g := Z.gcd s r) in *. split_and!; try done; try lia.
Qed.

(** Lowest terms are unique, so the equality of the members decides the equality of the
    ratios. *)
Lemma coprime_unique s r s' r' : 0 < r -> 0 < r' -> Z.gcd s r = 1 -> Z.gcd s' r' = 1 -> s * r' = s' * r -> s = s' /\ r = r'.
Proof.
  intros Hr Hr' Hg Hg' E.
  assert (Hd : (r | r')).
  { apply (Z.gauss r s); [rewrite E; apply Z.divide_factor_r|by rewrite Z.gcd_comm]. }
  assert (Hd' : (r' | r)).
  { apply (Z.gauss r' s'); [rewrite <- E; apply Z.divide_factor_r|by rewrite Z.gcd_comm]. }
  assert (r = r') as <- by (apply Z.divide_antisym_nonneg; (done || lia)). split; [nia|done].
Qed.

Lemma rate_of_coprime s r : fits 32 s -> 0 < r < 2 ^ 32 -> Z.gcd s r = 1 ->
  rate s r = Some {| subject_delta := s; reference_delta := r |}.
Proof. intros Hs Hr Hg. by rewrite rate_ok, Hg, !Z.div_1_r. Qed.

(** A ratio has a rate exactly when its lowest terms fit. *)
Definition fits_rate (s r : Z) : bool := (s <=? uint32_max) && (r <=? uint32_max).
Definition lowest (s r : Z) : TimelineRate := {| subject_delta := s / Z.gcd s r; reference_delta := r / Z.gcd s r |}.

Lemma representable c s r : 0 <= s -> 0 < r -> reduced c -> same_ratio c s r -> c = lowest s r.
Proof.
  intros Hs Hr (Hcs & Hcr & Hcg) E. unfold same_ratio in E. destruct (lowest_terms s r Hs Hr) as (H1 & H2 & H3 & H4 & H5 & H6).
  unfold lowest. set (g := Z.gcd s r) in *. destruct c as [cs cr]. cbn in *.
  destruct (coprime_unique cs cr (s / g) (r / g)) as [<- <-]; [lia..|done|done| |done].
  apply (Z.mul_cancel_r _ _ g); [lia|]. rewrite H1, H2 in E at 1. nia.
Qed.

Lemma lowest_ok s r : 0 <= s -> 0 < r ->
  same_ratio (lowest s r) s r /\ (reduced (lowest s r) <-> fits_rate (s / Z.gcd s r) (r / Z.gcd s r) = true).
Proof.
  intros Hs Hr. destruct (lowest_terms s r Hs Hr) as (H1 & H2 & H3 & H4 & H5 & H6).
  unfold same_ratio, lowest, reduced, fits_rate, uint32_max, fits. cbn. set (g := Z.gcd s r) in *.
  split; [nia|]. rewrite andb_true_iff, !Z.leb_le. split; [lia|]. intros. split_and!; try done; lia.
Qed.

(** ** Products *)

(** The loop stops at the first shift after which both numbers fit. *)
Lemma shift_loop_ok n : forall s r, 0 <= s < 2 ^ (32 + Z.of_nat n) -> 0 <= r < 2 ^ (32 + Z.of_nat n) -> (0 < n)%nat ->
  exists k, (1 <= k <= Z.of_nat n) /\ shift_loop n s r = Some (Z.shiftr s k, Z.shiftr r k) /\
    fits_rate (Z.shiftr s k) (Z.shiftr r k) = true /\
    forall j, 1 <= j < k -> fits_rate (Z.shiftr s j) (Z.shiftr r j) = false.
Proof.
  induction n as [|n IH]; intros s r Hs Hr Hn; [lia|]. cbn [shift_loop].
  assert (Ht : (uint32_max <? Z.shiftr s 1) || (uint32_max <? Z.shiftr r 1) = negb (fits_rate (Z.shiftr s 1) (Z.shiftr r 1)))
    by (unfold fits_rate; by rewrite negb_andb, <- !Z.ltb_antisym).
  rewrite Ht. destruct (fits_rate _ _) eqn:E; cbn [negb].
  { exists 1. split_and!; [lia|lia|done|done|]. intros j Hj. lia. }
  assert (Hh : forall x, 0 <= x < 2 ^ (32 + Z.of_nat (S n)) -> 0 <= Z.shiftr x 1 < 2 ^ (32 + Z.of_nat n)).
  { intros x Hx. rewrite shiftr_1. replace (32 + Z.of_nat (S n)) with (Z.succ (32 + Z.of_nat n)) in Hx by lia.
    rewrite Z.pow_succ_r in Hx by lia. split; [apply Z.div_pos; lia|apply Z.div_lt_upper_bound; lia]. }
  pose proof (Hh s Hs) as Hs1. pose proof (Hh r Hr) as Hr1. destruct (decide (n = 0%nat)) as [->|].
  { exfalso. unfold fits_rate, uint32_max in E. cbn [Z.of_nat] in Hs1, Hr1. change (32 + 0) with 32 in *. lia. }
  destruct (IH _ _ Hs1 Hr1) as (k & Hk & -> & Hf & Hj); [lia|]. rewrite !Z.shiftr_shiftr in * by lia.
  exists (1 + k). split_and!; [lia..|done|done|]. intros j Hlt. destruct (decide (j = 1)) as [->|]; [done|].
  specialize (Hj (j - 1) ltac:(lia)). rewrite !Z.shiftr_shiftr in Hj by lia. by replace (1 + (j - 1)) with j in Hj by lia.
Qed.

Lemma Product_ok sa ra sb rb exact : fits 32 sa -> 0 < ra < 2 ^ 32 -> fits 32 sb -> 0 < rb < 2 ^ 32 ->
  let g := Z.gcd (sa * sb) (ra * rb) in
  let s := sa * sb / g in let r := ra * rb / g in
  if fits_rate s r then Product sa ra sb rb exact = Some (s, r)
  else if exact then Product sa ra sb rb exact = None
  else exists k, 1 <= k <= 32 /\ fits_rate (Z.shiftr s k) (Z.shiftr r k) = true /\
    (forall j, 0 <= j < k -> fits_rate (Z.shiftr s j) (Z.shiftr r j) = false) /\
    Product sa ra sb rb exact = Some (if Z.shiftr r k =? 0 then (uint32_max, 1) else (Z.shiftr s k, Z.shiftr r k)).
Proof.
  intros [? ?] Hra [? ?] Hrb g s r. unfold Product.
  rewrite (proj2 (Z.eqb_neq ra 0)), (proj2 (Z.eqb_neq rb 0)) by lia. cbn [orb]. cbv zeta.
  rewrite (wrap_small 64 (sa * sb)), (wrap_small 64 (ra * rb)) by (unfold fits; nia).
  rewrite (ReduceRatio_ok 64) by (unfold fits; cbn; nia). cbn [mbind option_bind]. fold g s r.
  destruct (lowest_terms (sa * sb) (ra * rb) ltac:(nia) ltac:(nia)) as (_ & _ & Hs & Hr & _). fold g s r in Hs, Hr.
  assert (Ht : (uint32_max <? s) || (uint32_max <? r) = negb (fits_rate s r))
    by (unfold fits_rate; by rewrite negb_andb, <- !Z.ltb_antisym).
  rewrite Ht. destruct (fits_rate s r) eqn:Ef; cbn [negb]; [done|]. destruct exact; [done|].
  destruct (shift_loop_ok 32 s r) as (k & Hk & -> & Hf & Hj); [change (32 + Z.of_nat 32) with 64; nia..|lia|].
  exists k. split_and!; [lia..|done| |cbn [mbind option_bind]; by destruct (_ =? 0)].
  intros j Hlt. destruct (decide (j = 0)) as [->|]; [by rewrite !Z.shiftr_0_r|apply Hj; lia].
Qed.

(** A product that has a rate, and one that has none. *)
Lemma product_exact a b exact : reduced a -> reduced b ->
  let s := subject_delta a * subject_delta b in
  let r := reference_delta a * reference_delta b in
  0 <= s /\ 0 < r /\
  if fits_rate (s / Z.gcd s r) (r / Z.gcd s r) then product a b exact = Some (lowest s r) /\ reduced (lowest s r)
  else (exact = true -> product a b exact = None) /\ forall c, reduced c -> ~ same_ratio c s r.
Proof.
  intros (Hsa & Hra & _) (Hsb & Hrb & _) s r. unfold product.
  pose proof (Product_ok (subject_delta a) (reference_delta a) (subject_delta b) (reference_delta b) exact Hsa Hra Hsb Hrb) as HP.
  cbv zeta in HP. fold s r in HP. assert (HS : 0 <= s) by (unfold fits, s in *; nia). assert (HR : 0 < r) by (unfold r; nia). clearbody s r.
  split_and!; [done..|]. destruct (lowest_ok s r HS HR) as [Hsame Hred]. destruct (fits_rate _ _) eqn:Ef.
  - pose proof (proj2 Hred eq_refl) as Hl. rewrite HP. cbn [mbind option_bind]. split; [|done]. by rewrite rate_of_coprime by apply Hl.
  - split; [by intros ->; rewrite HP|]. intros c Hc Hs. rewrite (representable c s r) in Hc by done. by apply Hred in Hc.
Qed.

(** What dropping bits makes of a ratio: the first shift after which both numbers fit. *)
Definition shortened (c : TimelineRate) (s r : Z) : Prop :=
  exists k, 0 <= k <= 32 /\ fits_rate (Z.shiftr s k) (Z.shiftr r k) = true /\
    (forall j, 0 <= j < k -> fits_rate (Z.shiftr s j) (Z.shiftr r j) = false) /\
    if Z.shiftr r k =? 0 then c = {| subject_delta := uint32_max; reference_delta := 1 |}
    else same_ratio c (Z.shiftr s k) (Z.shiftr r k).

(** The product of two rates in lowest terms.  Where the exact product has a rate it is
    that one; where it has none, an exact product is an assertion failure, and an inexact one
    is in lowest terms again and is the product with the fewest low bits of both numbers
    dropped, or the largest rate when the denominator vanishes. *)
Theorem product_correct a b exact : reduced a -> reduced b ->
  let s := subject_delta a * subject_delta b in
  let r := reference_delta a * reference_delta b in
  (forall c, reduced c -> same_ratio c s r -> product a b exact = Some c) /\
  (exact = true -> (forall c, reduced c -> ~ same_ratio c s r) -> product a b exact = None) /\
  (exact = false -> exists c, product a b exact = Some c /\ reduced c /\ shortened c (s / Z.gcd s r) (r / Z.gcd s r)).
Proof.
  intros Ha Hb s r. destruct (product_exact a b exact Ha Hb) as (HS & HR & HE). fold s r in HS, HR, HE.
  destruct (lowest_ok s r HS HR) as [Hsame Hred], (lowest_terms s r HS HR) as (_ & _ & H3 & H4 & H5 & _).
  destruct (fits_rate _ _) eqn:Ef.
  - destruct HE as [HE Hl]. split_and!; [intros c Hc Hs; by rewrite (representable c s r)|intros _ Hn; by destruct (Hn (lowest s r))|intros _].
    exists (lowest s r). split_and!; [done..|]. exists 0. rewrite !Z.shiftr_0_r, (proj2 (Z.eqb_neq (r / Z.gcd s r) 0)) by lia. split_and!; (done || lia).
  - destruct HE as [HE Hno]. split_and!; [intros c Hc Hs; by destruct (Hno c)|intros ? _; by apply HE|intros ->].
    unfold product. destruct Ha as (Hsa & Hra & _), Hb as (Hsb & Hrb & _).
    pose proof (Product_ok (subject_delta a) (reference_delta a) (subject_delta b) (reference_delta b) false Hsa Hra Hsb Hrb) as HP.
    cbv zeta in HP. fold s r in HP. rewrite Ef in HP. set (g := Z.gcd s r) in *. destruct HP as (k & Hk & Hf & Hj & ->). cbn [mbind option_bind].
    assert (Hsh : forall x, 0 <= x -> 0 <= Z.shiftr x k) by (intros; by apply Z.shiftr_nonneg).
    destruct (Z.eqb_spec (Z.shiftr (r / g) k) 0) as [E|E].
    + rewrite rate_of_coprime by done. eexists. split_and!; [done..|]. exists k. rewrite (proj2 (Z.eqb_eq _ 0) E). split_and!; (done || lia).
    + pose proof (Hsh (r / g) ltac:(lia)). pose proof (Hsh (s / g) ltac:(lia)). pose proof Hf as Hb. unfold fits_rate, uint32_max in Hb.
      destruct (rate_reduced (Z.shiftr (s / g) k) (Z.shiftr (r / g) k)) as (c & -> & Hc & Hc'); [unfold fits; lia..|].
      exists c. split_and!; [done..|]. exists k. rewrite (proj2 (Z.eqb_neq _ 0) E). split_and!; (done || lia).
Qed.

Lemma product_correct_witness :
  let a := {| subject_delta := 48000; reference_delta := 1001 |} in
  let b := {| subject_delta := 143; reference_delta := 6300 |} in
  product a b true = Some {| subject_delta := 160; reference_delta := 147 |} /\
  product {| subject_delta := uint32_max; reference_delta := 2 |} {| subject_delta := uint32_max; reference_delta := 2 |} true = None.
Proof.
  intros a b. split; [|reflexivity].
  apply (product_correct a b true); unfold reduced, fits, same_ratio, a, b; cbn [subject_delta reference_delta];
    split_and?; (reflexivity || lia).
Defined.

(** A rate and its inverse. *)
Lemma InverseRate_reduced a : reduced a -> subject_delta a <> 0 ->
  exists i, InverseRate a = Some i /\ reduced i /\ subject_delta i = reference_delta a /\ reference_delta i = subject_delta a.
Proof.
  intros ([? ?] & ? & Hg) Ns. unfold InverseRate. rewrite (proj2 (Z.eqb_neq _ 0) Ns). eexists. split; [done|].
  unfold reduced, fits. cbn. rewrite Z.gcd_comm. split_and!; (done || lia).
Qed.

(** Every rate a constructor or an operation returns is in lowest terms and has the ratio
    it was asked for, and on rates in lowest terms [==] is the equality of the ratios. *)
Lemma rate_lowest_terms :
  (forall s r, fits 32 s -> 0 < r < 2 ^ 32 -> exists a, rate s r = Some a /\ reduced a /\ same_ratio a s r) /\
  (forall a b, reduced a -> reduced b -> eqb a b = true <-> same_ratio a (subject_delta b) (reference_delta b)) /\
  (forall a, reduced a ->
    if invertible a then exists i, InverseRate a = Some i /\ reduced i /\ same_ratio i (reference_delta a) (subject_delta a)
    else InverseRate a = None) /\
  (forall a b c, reduced a -> reduced b -> ratio a b = Some c ->
    reduced c /\ same_ratio c (subject_delta a * reference_delta b) (reference_delta a * subject_delta b)).
Proof.
  split_and!.
  - apply rate_reduced.
  - intros a b Ha Hb. unfold eqb, same_ratio. rewrite andb_true_iff, !Z.eqb_eq. split; [intros [-> ->]; done|].
    destruct Ha as (_ & ? & ?), Hb as (_ & ? & ?). intros. apply coprime_unique; (done || lia).
  - intros a Ha. unfold invertible. destruct (Z.eqb_spec (subject_delta a) 0) as [E|E]; cbn [negb].
    + unfold InverseRate. by rewrite E.
    + destruct (InverseRate_reduced a Ha E) as (i & -> & Hi & H1 & H2). exists i. unfold same_ratio. by rewrite H1, H2.
  - intros a b c Ha Hb. unfold ratio. destruct (decide (subject_delta b = 0)) as [E|E]; [unfold InverseRate; by rewrite E|].
    destruct (InverseRate_reduced b Hb E) as (i & -> & Hi & <- & <-). cbn [mbind option_bind].
    destruct (product_exact a i true Ha Hi) as (HS & HR & HE). destruct (fits_rate _ _).
    + destruct HE as [-> HE]. intros [= <-]. split; [done|]. by apply lowest_ok.
    + destruct HE as [-> _]; done.
Qed.

Example rate_lowest_terms_example :
  rate 48000 44100 = Some {| subject_delta := 160; reference_delta := 147 |} /\
  ratio (TimelineRate_of 48000) (TimelineRate_of 44100) = Some {| subject_delta := 160; reference_delta := 147 |}.
Proof. split; reflexivity. Qed.

(** ** Functions of time *)

Import TimelineFunction.

(** The value of a function, rounded down. *)
Definition slope (f : TimelineFunction.TimelineFunction) (x : Z) : Z :=
  (x - reference_time f) * subject_delta (rate_ f) / reference_delta (rate_ f).
Definition value (f : TimelineFunction.TimelineFunction) (x : Z) : Z := subject_time f + slope f x.

(** The times at which nothing overflows. *)
Definition is_int64 (z : Z) : bool := (int64_min <=? z) && (z <=? int64_max).
Definition in_range (f : TimelineFunction.TimelineFunction) (x : Z) : bool :=
  is_int64 (x - reference_time f) && is_int64 (slope f x) && negb (slope f x =? int64_min) && is_int64 (value f x).

Lemma int64_ok z : is_int64 z = true -> int64 z = Some z.
Proof. unfold is_int64, int64. by intros ->. Qed.

Lemma apply_ok f x : reduced (rate_ f) -> is_int64 (x - reference_time f) = true ->
  TimelineFunction.apply f x =
    int64 (scale_result (slope f x) (((x - reference_time f) * subject_delta (rate_ f)) mod reference_delta (rate_ f) =? 0) + subject_time f).
Proof.
  intros (Hs & Hr & _) Hd. unfold TimelineFunction.apply, Apply, scale. rewrite int64_ok by done. cbn [mbind option_bind].
  unfold is_int64 in Hd. by rewrite Scale_ok by (done || lia).
Qed.

Lemma apply_in_range f x : reduced (rate_ f) -> in_range f x = true -> TimelineFunction.apply f x = Some (value f x).
Proof.
  intros Hf Hi. unfold in_range in Hi. rewrite !andb_true_iff in Hi. destruct Hi as [[[Hd Hq] Hm] Hv]. rewrite apply_ok by done.
  unfold scale_result. replace (_ && _) with true by (unfold is_int64 in Hq; lia). rewrite Z.add_comm. fold (value f x).
  by apply int64_ok.
Qed.

(** Applying a function gives its value rounded down where nothing overflows.  When the
    scaled distance is too large, [kOverflow] is not what comes out: it is added to the time
    at the origin, so the result is [kOverflow] only at origin zero, and past the range of
    the type when the origin is positive. *)
Theorem apply_correct f x : reduced (rate_ f) -> is_int64 (x - reference_time f) = true ->
  (in_range f x = true -> TimelineFunction.apply f x = Some (value f x)) /\
  (int64_max < slope f x ->
     TimelineFunction.apply f x = if 0 <? subject_time f then None else int64 (kOverflow + subject_time f)).
Proof.
  intros Hf Hd. split; [by apply apply_in_range|]. intros Hq. rewrite apply_ok by done. unfold scale_result.
  replace (_ && _) with false by lia.
  rewrite (proj2 (Z.eqb_neq _ int64_min)), (proj2 (Z.eqb_neq _ (- 2 ^ 64))) by (unfold int64_min, int64_max in *; lia).
  cbn [andb]. destruct (Z.ltb_spec 0 (subject_time f)); [|done]. unfold int64. by replace (_ && _) with false by (unfold kOverflow; lia).
Qed.

Lemma apply_correct_witness :
  let f := {| subject_time := -10; reference_time := 5; rate_ := {| subject_delta := 3; reference_delta := 2 |} |} in
  TimelineFunction.apply f 0 = Some (-18) /\ TimelineFunction.apply f int64_max = Some (int64_max - 10).
Proof.
  intros f. assert (Hr : reduced (rate_ f)) by (unfold reduced, fits, f; cbn [rate_ subject_delta reference_delta]; split_and!; (reflexivity || lia)).
  split; [apply (apply_correct f 0 Hr); reflexivity|]. destruct (apply_correct f int64_max Hr) as [_ H]; [reflexivity|].
  rewrite H by reflexivity. reflexivity.
Defined.

(** Rounding once and rounding twice. *)
Lemma floor_twice A D s r1 r2 : 0 <= s -> 0 < r1 -> 0 < r2 ->
  let once := A * s / r2 + D * s / (r1 * r2) in
  let twice := (A + D / r1) * s / r2 in
  twice - 1 <= once /\ (once - twice - 1) * r2 < s /\
  (D mod r1 = 0 -> (A * s) mod r2 = 0 -> once = twice).
Proof.
  intros Hs Hr1 Hr2. cbv zeta. assert (Hr : 0 < r1 * r2) by nia.
  assert (Hex : D mod r1 = 0 -> (A * s) mod r2 = 0 -> A * s / r2 + D * s / (r1 * r2) = (A + D / r1) * s / r2).
  { intros HD HA. apply Z.div_exact in HD, HA; [|lia..].
    replace ((A + D / r1) * s) with (D / r1 * s + A * s / r2 * r2) by lia. rewrite Z.div_add by lia.
    replace (D * s) with (r1 * (D / r1 * s)) by lia. rewrite Z.div_mul_cancel_l by lia. lia. }
  pose proof (Z.div_mod D r1 ltac:(lia)) as Hu. pose proof (Z.mod_pos_bound D r1 Hr1). set (u := D / r1) in *. set (um := D mod r1) in *.
  pose proof (Z.div_mod (A * s) r2 ltac:(lia)) as Hp. pose proof (Z.mod_pos_bound (A * s) r2 Hr2).
  set (p := A * s / r2) in *. set (pm := (A * s) mod r2) in *.
  pose proof (Z.div_mod ((A + u) * s) r2 ltac:(lia)) as Hq. pose proof (Z.mod_pos_bound ((A + u) * s) r2 Hr2).
  set (q := (A + u) * s / r2) in *. set (qm := ((A + u) * s) mod r2) in *.
  pose proof (Z.div_mod (D * s) (r1 * r2) ltac:(lia)) as Hw. pose proof (Z.mod_pos_bound (D * s) (r1 * r2) Hr).
  set (w := D * s / (r1 * r2)) in *. set (wm := (D * s) mod (r1 * r2)) in *. clearbody u um p pm q qm w wm.
  assert (Hlow : w * r2 <= u * s + s) by nia. assert (Hhigh : u * s < w * r2 + r2) by nia.
  split_and!; [nia|nia|]. exact Hex.
Qed.

(** Equal ratios scale alike. *)
Lemma same_ratio_slope c d s r : 0 < reference_delta c -> 0 < r -> same_ratio c s r ->
  d * subject_delta c / reference_delta c = d * s / r.
Proof.
  intros Hc Hr E. unfold same_ratio in E. rewrite <- (Z.div_mul_cancel_r _ _ r), <- (Z.div_mul_cancel_r (d * s) r (reference_delta c)) by lia.
  f_equal; [rewrite <- !Z.mul_assoc; congruence|lia].
Qed.

Section Composition.
Context (bc ab : TimelineFunction.TimelineFunction) (x : Z).
Let A := subject_time ab - reference_time bc.
Let D := (x - reference_time ab) * subject_delta (rate_ ab).
Let s := subject_delta (rate_ bc).
Let r1 := reference_delta (rate_ ab).
Let r2 := reference_delta (rate_ bc).

(** The composition rounds once, the functions in sequence round twice. *)
Lemma value_composed c : reduced c -> 0 < r1 * r2 -> same_ratio c (subject_delta (rate_ ab) * s) (r1 * r2) ->
  value {| subject_time := value bc (subject_time ab); reference_time := reference_time ab; rate_ := c |} x =
  subject_time bc + (A * s / r2 + D * s / (r1 * r2)).
Proof using.
  intros (_ & Hc & _) Hr Hs. unfold value at 1, slope at 1. cbn [rate_ subject_time reference_time].
  rewrite (same_ratio_slope _ _ _ _ (proj1 Hc) Hr Hs). unfold value, slope, D. rewrite Z.mul_assoc. fold A s r2. lia.
Qed.

Lemma value_sequence : value bc (value ab x) = subject_time bc + (A + D / r1) * s / r2.
Proof using.
  unfold value, slope. fold D r1 s r2. do 3 f_equal. unfold A. lia.
Qed.
End Composition.

(** Composing two functions of time: where nothing overflows and the product of the rates
    is exact, the composition is at most one below the two functions in sequence, and above
    them by less than one more than the slope of the second; it agrees with them where
    neither the first function nor the second at the first's origin is rounded. *)
Theorem Compose_correct bc ab f x : reduced (rate_ bc) -> reduced (rate_ ab) -> Compose bc ab true = Some f ->
  in_range bc (subject_time ab) = true -> in_range ab x = true -> in_range bc (value ab x) = true -> in_range f x = true ->
  exists y z c, TimelineFunction.apply ab x = Some y /\ TimelineFunction.apply bc y = Some z /\ TimelineFunction.apply f x = Some c /\
    z - 1 <= c /\ (c - z - 1) * reference_delta (rate_ bc) < subject_delta (rate_ bc) /\
    (((x - reference_time ab) * subject_delta (rate_ ab)) mod reference_delta (rate_ ab) = 0 ->
     ((subject_time ab - reference_time bc) * subject_delta (rate_ bc)) mod reference_delta (rate_ bc) = 0 -> c = z).
Proof.
  intros Hbc Hab. unfold Compose. intros HC H1 H2 H3. rewrite apply_in_range in HC by done. cbn [mbind option_bind] in HC.
  destruct (product_exact (rate_ ab) (rate_ bc) true Hab Hbc) as (HS & HR & HE). destruct (fits_rate _ _); [|destruct HE as [HE _]; by rewrite HE in HC].
  destruct HE as [HE Hl]. rewrite HE in HC. injection HC as <-. intros H4. exists (value ab x), (value bc (value ab x)).
  eexists. split_and!; [by apply apply_in_range|by apply apply_in_range|by apply apply_in_range|..]; clear H4.
  all: rewrite (value_composed bc ab x _ Hl HR (proj1 (lowest_ok _ _ HS HR))), value_sequence.
  all: destruct Hab as (_ & Hr1 & _), Hbc as ([Hs2 _] & Hr2 & _).
  all: destruct (floor_twice (subject_time ab - reference_time bc) ((x - reference_time ab) * subject_delta (rate_ ab))
    (subject_delta (rate_ bc)) (reference_delta (rate_ ab)) (reference_delta (rate_ bc)) Hs2 (proj1 Hr1) (proj1 Hr2)) as (F1 & F2 & F3).
  - lia.
  - eapply Z.le_lt_trans; [|exact F2]. lia.
  - intros E1 E2. by rewrite F3.
Qed.

(** From frames at 48 kHz to milliseconds and on to frames at 44.1 kHz. *)
Lemma Compose_correct_witness :
  let ab := {| subject_time := 100; reference_time := 0; rate_ := {| subject_delta := 1; reference_delta := 48 |} |} in
  let bc := {| subject_time := 7; reference_time := 0; rate_ := {| subject_delta := 441; reference_delta := 10 |} |} in
  let f := {| subject_time := 4417; reference_time := 0; rate_ := {| subject_delta := 147; reference_delta := 160 |} |} in
  Compose bc ab true = Some f /\ TimelineFunction.apply bc 101 = Some 4461 /\ TimelineFunction.apply f 95 = Some 4504 /\
  exists y z c, TimelineFunction.apply ab 95 = Some y /\ TimelineFunction.apply bc y = Some z /\ TimelineFunction.apply f 95 = Some c /\
    z - 1 <= c /\ (c - z - 1) * 10 < 441.
Proof.
  intros ab bc f. split_and!; [reflexivity..|].
  destruct (Compose_correct bc ab f 95) as (y & z & c & H1 & H2 & H3 & H4 & H5 & _);
    [unfold reduced, fits, ab, bc; cbn [rate_ subject_delta reference_delta]; split_and?; (reflexivity || lia)..|].
  exists y, z, c. done.
Defined.
