(* ===== verification/FileLock.v ===== *)
(** * File locks

    Models src/file-lock/file-lock.cc and file-lock.h: the lock that one file's clients share.
    Each operation runs under the mutex, so it is a function from state to state; the
    completers it calls are a log.  A completer is called at most once and a second call
    aborts, as src/fit/include/lib/fit/function.h has it. *)

From stdpp Require Import gmap.
From S2P Require Import Prelude.

Definition ZX_KOID_INVALID : Z := 0.
Definition ZX_OK : Z := 0.
Definition ZX_ERR_BAD_STATE : Z := -20.
Definition ZX_ERR_SHOULD_WAIT : Z := -22.
Definition ZX_ERR_CANCELED : Z := -23.

Inductive LockType := READ | WRITE | UNLOCK.
Record LockRequest := { type : LockType; wait : bool }.

(** A completer is known by a number, a call of it by the number and the status. *)
Definition completer : Set := nat.
(** [std::map] in the order of its keys.  [emplace] leaves a key that is there alone. *)
Fixpoint emplace (k : Z) (c : completer) (m : list (Z * completer)) : list (Z * completer) :=
  match m with
  | [] => [(k, c)]
  | (k', c') :: m' =>
      if k <? k' then (k, c) :: m
      else if k =? k' then m
      else (k', c') :: emplace k c m'
  end.

Definition has_key (k : Z) (m : list (Z * completer)) : bool := existsb (fun e => e.1 =? k) m.
Definition size (m : list (Z * completer)) : Z := Z.of_nat (length m).

Record FileLock := {
  pending_shared_ : list (Z * completer);
  pending_exclusive_ : list (Z * completer);
  shared_ : gset Z;
  exclusive_ : Z;
  running_ : bool;
}.

Definition FileLock_new : FileLock :=
  {| pending_shared_ := []; pending_exclusive_ := []; shared_ := ∅; exclusive_ := ZX_KOID_INVALID; running_ := true |}.

Definition set_pending_shared (f : FileLock) p := {| pending_shared_ := p; pending_exclusive_ := pending_exclusive_ f;
  shared_ := shared_ f; exclusive_ := exclusive_ f; running_ := running_ f |}.
Definition set_pending_exclusive (f : FileLock) p := {| pending_shared_ := pending_shared_ f; pending_exclusive_ := p;
  shared_ := shared_ f; exclusive_ := exclusive_ f; running_ := running_ f |}.
Definition set_shared (f : FileLock) s := {| pending_shared_ := pending_shared_ f; pending_exclusive_ := pending_exclusive_ f;
  shared_ := s; exclusive_ := exclusive_ f; running_ := running_ f |}.
Definition set_exclusive (f : FileLock) e := {| pending_shared_ := pending_shared_ f; pending_exclusive_ := pending_exclusive_ f;
  shared_ := shared_ f; exclusive_ := e; running_ := running_ f |}.

Definition LockInProgress (f : FileLock) (owner : Z) : bool :=
  has_key owner (pending_exclusive_ f) || has_key owner (pending_shared_ f).

(** Moves the pending readers into [shared_] and calls them. *)
Definition grant_shared (f : FileLock) : FileLock * list (completer * Z) :=
  let ps := pending_shared_ f in
  (set_shared (set_pending_shared f []) (shared_ f ∪ list_to_set ps.*1), (fun e => (e.2, ZX_OK)) <$> ps).

(** Makes the first pending writer the owner and calls it. *)
Definition grant_exclusive (f : FileLock) : FileLock * list (completer * Z) :=
  match pending_exclusive_ f with
  | [] => (f, [])
  | (owner, c) :: rest => (set_pending_exclusive (set_exclusive f owner) rest, [(c, ZX_OK)])
  end.

(** The three requests of the client that owns the lock. *)
Definition Lock_owner (f : FileLock) (owner : Z) (req : LockRequest) (c : completer) : FileLock * list (completer * Z) :=
  match type req with
  | READ =>
      let f := set_exclusive f ZX_KOID_INVALID in
      let f := set_shared f (shared_ f ∪ {[owner]}) in
      let '(f, calls) := grant_shared f in
      (f, calls ++ [(c, ZX_OK)])
  | WRITE => (f, [(c, ZX_OK)])
  | UNLOCK =>
      let f := set_exclusive f ZX_KOID_INVALID in
      let '(f, calls) :=
        if size (pending_exclusive_ f) <? size (pending_shared_ f) then grant_shared f else grant_exclusive f in
      (f, calls ++ [(c, ZX_OK)])
  end.

(** Another client's, while one owns it. *)
Definition Lock_owned (f : FileLock) (owner : Z) (req : LockRequest) (c : completer) : FileLock * list (completer * Z) :=
  match type req with
  | READ => if wait req then (set_pending_shared f (emplace owner c (pending_shared_ f)), []) else (f, [(c, ZX_ERR_SHOULD_WAIT)])
  | WRITE => if wait req then (set_pending_exclusive f (emplace owner c (pending_exclusive_ f)), []) else (f, [(c, ZX_ERR_SHOULD_WAIT)])
  | UNLOCK => (f, [(c, ZX_OK)])
  end.

(** Any client's, while nobody owns it. *)
Definition Lock_shared (f : FileLock) (owner : Z) (req : LockRequest) (c : completer) : FileLock * list (completer * Z) :=
  match type req with
  | READ => (set_shared f (shared_ f ∪ {[owner]}), [(c, ZX_OK)])
  | WRITE =>
      let f := set_shared f (shared_ f ∖ {[owner]}) in
      if decide (shared_ f = ∅) then (set_exclusive f owner, [(c, ZX_OK)])
      else if wait req then (set_pending_exclusive f (emplace owner c (pending_exclusive_ f)), [])
      else (f, [(c, ZX_ERR_SHOULD_WAIT)])
  | UNLOCK =>
      if decide (owner ∈ shared_ f) then
        let f := set_shared f (shared_ f ∖ {[owner]}) in
        let '(f, calls) := if decide (shared_ f = ∅) then grant_exclusive f else (f, []) in
        (f, calls ++ [(c, ZX_OK)])
      else (f, [(c, ZX_OK)])
  end.

Definition Lock (f : FileLock) (owner : Z) (req : LockRequest) (c : completer) : FileLock * list (completer * Z) :=
  if negb (running_ f) || LockInProgress f owner then (f, [(c, ZX_ERR_BAD_STATE)])
  else if negb (exclusive_ f =? ZX_KOID_INVALID) then
    if owner =? exclusive_ f then Lock_owner f owner req c else Lock_owned f owner req c
  else Lock_shared f owner req c.

(** The completer of [Forget] notes whether the status it was called with is [ZX_OK]; [c] is
    its number. *)
Definition Forget (f : FileLock) (owner : Z) (c : completer) : FileLock * list (completer * Z) * bool :=
  let '(f, calls) := Lock f owner {| type := UNLOCK; wait := false |} c in
  (f, calls, existsb (fun e => (Nat.eqb e.1 c) && (e.2 =? ZX_OK)) calls).

Definition NoLocksHeld (f : FileLock) : bool :=
  (exclusive_ f =? ZX_KOID_INVALID) && bool_decide (shared_ f = ∅) && bool_decide (pending_exclusive_ f = []) &&
  bool_decide (pending_shared_ f = []).

(** The destructor.  A completer that was called is null, and calling it again aborts. *)
Fixpoint cancel_all (m : list (Z * option completer)) : option (list (Z * option completer) * list (completer * Z)) :=
  match m with
  | [] => Some ([], [])
  | (k, cb) :: m =>
      c ← cb;
      '(m, calls) ← cancel_all m;
      Some ((k, None) :: m, (c, ZX_ERR_CANCELED) :: calls)
  end.

Definition destroy (f : FileLock) : option (list (completer * Z)) :=
  let live := (fun e : Z * completer => (e.1, Some e.2)) <$> pending_shared_ f in
  '(spent, calls) ← cancel_all live;
  '(_, calls') ← cancel_all spent;
  Some (calls ++ calls').
