(* ===== verification/FileLockTheorems.v ===== *)
(** * File locks exclude, answer once and wake every waiter *)

From stdpp Require Import gmap sorting.
From S2P Require Import Prelude FileLock.

(** ** The invariant *)

Definition holds (f : FileLock) (owner : Z) : Prop := owner <> ZX_KOID_INVALID /\ (owner = exclusive_ f \/ owner ∈ shared_ f).
Definition waiting (f : FileLock) : list Z := (pending_shared_ f).*1 ++ (pending_exclusive_ f).*1.

(** Who holds the lock and who waits for it... *)
Record sound (f : FileLock) : Prop := {
  inv_running : running_ f = true;
  inv_exclusive : exclusive_ f <> ZX_KOID_INVALID -> shared_ f = ∅;
  inv_valid : ZX_KOID_INVALID ∉ shared_ f;
  inv_waiting : NoDup (waiting f);
  inv_not_holding : forall o, o ∈ waiting f -> o <> ZX_KOID_INVALID /\ o <> exclusive_ f /\ o ∉ shared_ f;
  inv_sorted_shared : StronglySorted Z.lt (pending_shared_ f).*1;
  inv_sorted_exclusive : StronglySorted Z.lt (pending_exclusive_ f).*1;
}.

(** ... and nobody waits without a reason. *)
Definition justified (f : FileLock) : Prop :=
  (exclusive_ f = ZX_KOID_INVALID -> pending_shared_ f = []) /\
  (exclusive_ f = ZX_KOID_INVALID -> shared_ f = ∅ -> pending_exclusive_ f = []).

Definition inv (f : FileLock) : Prop := sound f /\ justified f.

(** ** The pending maps *)

Lemma has_key_spec k m : has_key k m = true <-> k ∈ m.*1.
Proof.
  unfold has_key. rewrite existsb_exists, list_elem_of_fmap. setoid_rewrite Z.eqb_eq. setoid_rewrite <- list_elem_of_In. split; [intros (e & ? & <-)|intros (e & -> & ?)]; by exists e.
Qed.

Lemma emplace_perm k c m : has_key k m = false -> emplace k c m ≡ₚ (k, c) :: m.
Proof.
  induction m as [|[k' c'] m IH]; cbn; [done|]. rewrite orb_false_iff. intros [Hk Hm]. destruct (k <? k'); [done|].
  rewrite (Z.eqb_sym k k'), Hk, IH by done. apply Permutation_swap.
Qed.

Lemma emplace_sorted k c m : has_key k m = false -> StronglySorted Z.lt m.*1 -> StronglySorted Z.lt (emplace k c m).*1.
Proof.
  induction m as [|[k' c'] m IH]; cbn; [by repeat constructor|]. rewrite orb_false_iff. intros [Hk Hm] Hs. inversion_clear Hs as [|? ? Hs' Hf].
  destruct (Z.ltb_spec k k') as [Hlt|Hge]; cbn.
  - constructor; [by constructor|]. constructor; [done|]. eapply Forall_impl; [done|]. cbn. lia.
  - rewrite (Z.eqb_sym k k'), Hk. cbn. constructor; [by apply IH|]. rewrite Forall_forall in *. intros x Hx.
    apply list_elem_of_fmap in Hx as ([y d] & -> & Hy). rewrite (emplace_perm k c m Hm) in Hy. apply elem_of_cons in Hy as [[= -> ->]|Hy].
    + cbn. lia.
    + apply Hf, list_elem_of_fmap. by exists (y, d).
Qed.

Lemma not_in_progress f o : LockInProgress f o = false ->
  has_key o (pending_exclusive_ f) = false /\ has_key o (pending_shared_ f) = false /\ o ∉ waiting f.
Proof.
  unfold LockInProgress, waiting. rewrite orb_false_iff. intros [H1 H2]. split_and!; [done..|].
  rewrite elem_of_app, <- !has_key_spec. intros [?|?]; congruence.
Qed.

(** ** Preservation *)

Lemma emplace_keys k c m o : has_key k m = false -> o ∈ (emplace k c m).*1 <-> o = k \/ o ∈ m.*1.
Proof. intros H. rewrite (emplace_perm k c m H). cbn. apply elem_of_cons. Qed.

Lemma sound_enqueue_shared f o c : sound f -> o ∉ waiting f -> has_key o (pending_shared_ f) = false ->
  o <> ZX_KOID_INVALID -> o <> exclusive_ f -> o ∉ shared_ f -> sound (set_pending_shared f (emplace o c (pending_shared_ f))).
Proof.
  intros [] Hw Hf H0 He Hs. constructor; cbn; try done; unfold waiting; cbn.
  - by rewrite (emplace_perm o c _ Hf); cbn; constructor.
  - intros x. rewrite elem_of_app, emplace_keys by done. intros [[->|Hx]|Hx]; [done|..]; apply inv_not_holding0, elem_of_app; auto.
  - by apply emplace_sorted.
Qed.

Lemma sound_enqueue_exclusive f o c : sound f -> o ∉ waiting f -> has_key o (pending_exclusive_ f) = false ->
  o <> ZX_KOID_INVALID -> o <> exclusive_ f -> o ∉ shared_ f -> sound (set_pending_exclusive f (emplace o c (pending_exclusive_ f))).
Proof.
  intros [] Hw Hf H0 He Hs. constructor; cbn; try done; unfold waiting; cbn.
  - rewrite (emplace_perm o c _ Hf); cbn; rewrite <- Permutation_middle. by constructor.
  - intros x. rewrite elem_of_app, emplace_keys by done. intros [Hx|[->|Hx]]; [|done|]; apply inv_not_holding0, elem_of_app; auto.
  - by apply emplace_sorted.
Qed.

Lemma sound_release_exclusive f : sound f -> sound (set_exclusive f ZX_KOID_INVALID).
Proof. intros []. constructor; try done. intros o Ho. cbn. naive_solver. Qed.

Lemma sound_release_shared f o : sound f -> sound (set_shared f (shared_ f ∖ {[o]})).
Proof. intros []. constructor; cbn; try done; [set_solver..|]. intros x Hx. apply inv_not_holding0 in Hx. set_solver. Qed.

Lemma sound_acquire_shared f o : sound f -> exclusive_ f = ZX_KOID_INVALID -> o ∉ waiting f -> o <> ZX_KOID_INVALID ->
  sound (set_shared f (shared_ f ∪ {[o]})).
Proof.
  intros [] He Hw H0. constructor; cbn; try done; [set_solver..|]. intros x Hx.
  assert (x <> o) by (by intros ->). apply inv_not_holding0 in Hx. set_solver.
Qed.

Lemma sound_acquire_exclusive f o : sound f -> shared_ f = ∅ -> o ∉ waiting f -> sound (set_exclusive f o).
Proof.
  intros [] He Hw. constructor; cbn; try done. intros x Hx.
  assert (x <> o) by (by intros ->). apply inv_not_holding0 in Hx. set_solver.
Qed.

Lemma grant_shared_inv f : sound f -> exclusive_ f = ZX_KOID_INVALID -> shared_ f <> ∅ \/ pending_shared_ f <> [] -> inv (grant_shared f).1.
Proof.
  intros [] He Hn. assert (Hk : forall o, o ∈ (pending_shared_ f).*1 -> o ∈ waiting f) by (intros; apply elem_of_app; auto).
  split; [constructor; cbn; try done|split; cbn; [done|]].
  - rewrite elem_of_union, elem_of_list_to_set. intros [?|Hx%Hk]; [done|]. by apply inv_not_holding0 in Hx as [Hx _].
  - by apply NoDup_app in inv_waiting0 as (_ & _ & ?).
  - unfold waiting. cbn. intros o Ho. destruct (inv_not_holding0 o) as (? & ? & ?); [apply elem_of_app; auto|].
    split_and!; [done..|]. rewrite elem_of_union, elem_of_list_to_set. intros [?|Hx]; [done|].
    apply NoDup_app in inv_waiting0 as (_ & Hd & _). by apply (Hd o).
  - constructor.
  - intros _ E. exfalso. destruct Hn as [Hn|Hn]; [apply Hn; set_solver|]. destruct (pending_shared_ f) as [|[k c] ps]; [done|]. set_solver.
Qed.

Lemma grant_exclusive_inv f : sound f -> exclusive_ f = ZX_KOID_INVALID -> shared_ f = ∅ ->
  (pending_exclusive_ f = [] -> pending_shared_ f = []) -> inv (grant_exclusive f).1.
Proof.
  intros Hs He Hsh Hn. unfold grant_exclusive. destruct (pending_exclusive_ f) as [|[o c] rest] eqn:Ep; cbn; [split; [done|split; [by intros; apply Hn|done]]|].
  destruct Hs. unfold waiting in *. rewrite Ep in *. cbn in *. rewrite <- Permutation_middle in inv_waiting0.
  apply NoDup_cons in inv_waiting0 as [Hno Hnd]. destruct (inv_not_holding0 o) as (Ho & _); [set_solver|].
  split; [constructor; cbn; try done|split; cbn; done].
  - unfold waiting. cbn. intros x Hx. assert (x <> o) by (by intros ->). destruct (inv_not_holding0 x); set_solver.
  - by inversion_clear inv_sorted_exclusive0.
Qed.

Lemma Lock_owner_inv f o req c : inv f -> o = exclusive_ f -> o <> ZX_KOID_INVALID -> o ∉ waiting f -> inv (Lock_owner f o req c).1.
Proof.
  intros [Hs Hj] Ho H0 Hw. pose proof (sound_release_exclusive f Hs) as Hr.
  assert (Hsh : shared_ f = ∅) by (apply Hs; congruence). unfold Lock_owner. destruct (type req).
  - rewrite (surjective_pairing (grant_shared _)). apply grant_shared_inv; [by apply (sound_acquire_shared (set_exclusive f _))|done|]. left. cbn. set_solver.
  - done.
  - destruct (Z.ltb_spec (size (pending_exclusive_ (set_exclusive f ZX_KOID_INVALID))) (size (pending_shared_ (set_exclusive f ZX_KOID_INVALID)))) as [E|E].
    + rewrite (surjective_pairing (grant_shared _)). apply grant_shared_inv; [done..|]. right. cbn in *. unfold size in E. intros E'. rewrite E' in E. cbn in E. lia.
    + rewrite (surjective_pairing (grant_exclusive _)). apply grant_exclusive_inv; [done..|]. cbn in *. unfold size in E. intros E'. rewrite E' in E.
      destruct (pending_shared_ f); [done|]. cbn in E. lia.
Qed.

Lemma Lock_owned_inv f o req c : inv f -> exclusive_ f <> ZX_KOID_INVALID -> o <> exclusive_ f -> o <> ZX_KOID_INVALID ->
  LockInProgress f o = false -> inv (Lock_owned f o req c).1.
Proof.
  intros [Hs Hj] He Ho H0 (Hpe & Hps & Hw)%not_in_progress. assert (Hsh : shared_ f = ∅) by (apply Hs; congruence).
  unfold Lock_owned. destruct (type req), (wait req); try done; (split; [|split; cbn; intros; congruence]).
  - apply sound_enqueue_shared; set_solver.
  - apply sound_enqueue_exclusive; set_solver.
Qed.

Lemma Lock_shared_inv f o req c : inv f -> exclusive_ f = ZX_KOID_INVALID -> o <> ZX_KOID_INVALID ->
  LockInProgress f o = false -> inv (Lock_shared f o req c).1.
Proof.
  intros [Hs [Hj1 Hj2]] He H0 (Hpe & Hps & Hw)%not_in_progress. pose proof (sound_release_shared f o Hs) as Hr.
  unfold Lock_shared. destruct (type req); cbn [shared_ set_shared].
  - split; [by apply sound_acquire_shared|]. split; cbn; [done|]. set_solver.
  - destruct (decide (shared_ f ∖ {[o]} = ∅)) as [E|E].
    + split; [by apply sound_acquire_exclusive|]. split; cbn; done.
    + destruct (wait req); (split; [|split; cbn; done]); [|done]. apply (sound_enqueue_exclusive (set_shared f _)); cbn; try done; [congruence|set_solver].
  - destruct (decide (o ∈ shared_ f)); [|done]. destruct (decide (shared_ f ∖ {[o]} = ∅)) as [E|E].
    + rewrite (surjective_pairing (grant_exclusive _)). apply grant_exclusive_inv; try done. intros _. by apply Hj1.
    + split; [done|]. split; cbn; done.
Qed.

Lemma Lock_inv f o req c : inv f -> o <> ZX_KOID_INVALID -> inv (Lock f o req c).1.
Proof.
  intros Hi H0. unfold Lock. destruct (negb (running_ f) || LockInProgress f o) eqn:Eg; [done|]. apply orb_false_iff in Eg as [_ Eg].
  destruct (Z.eqb_spec (exclusive_ f) ZX_KOID_INVALID) as [E|E]; cbn [negb]; [by apply Lock_shared_inv|].
  destruct (Z.eqb_spec o (exclusive_ f)) as [Eo|Eo]; [|by apply Lock_owned_inv].
  apply Lock_owner_inv; [done..|]. by apply not_in_progress.
Qed.

(** ** Every request is answered once *)

Definition completers (f : FileLock) : list completer := (pending_shared_ f).*2 ++ (pending_exclusive_ f).*2.

Lemma grant_shared_calls f : (grant_shared f).2.*1 = (pending_shared_ f).*2.
Proof. cbn. rewrite <- list_fmap_compose. done. Qed.

Lemma grant_exclusive_calls f :
  (grant_exclusive f).2.*1 ++ (pending_exclusive_ (grant_exclusive f).1).*2 = (pending_exclusive_ f).*2.
Proof. unfold grant_exclusive. by destruct (pending_exclusive_ f) as [|[o c] rest] eqn:E; cbn; rewrite ?E. Qed.
Lemma grant_exclusive_shared f : pending_shared_ (grant_exclusive f).1 = pending_shared_ f.
Proof. unfold grant_exclusive. by destruct (pending_exclusive_ f) as [|[o c] rest]. Qed.

Lemma grant_shared_account f : (grant_shared f).2.*1 ++ completers (grant_shared f).1 ≡ₚ completers f.
Proof. unfold completers. by rewrite grant_shared_calls. Qed.
Lemma grant_exclusive_account f : (grant_exclusive f).2.*1 ++ completers (grant_exclusive f).1 ≡ₚ completers f.
Proof.
  unfold completers. rewrite grant_exclusive_shared, <- (grant_exclusive_calls f). solve_Permutation.
Qed.

(** A completer is put on a list, or called after others. *)
Lemma account_now f f' (calls : list (completer * Z)) c s : calls.*1 ++ completers f' ≡ₚ completers f ->
  (calls ++ [(c, s)]).*1 ++ completers f' ≡ₚ c :: completers f.
Proof. intros <-. rewrite fmap_app, <- app_assoc. cbn. by rewrite <- Permutation_middle. Qed.

Lemma account_later_shared f o c : has_key o (pending_shared_ f) = false ->
  completers (set_pending_shared f (emplace o c (pending_shared_ f))) ≡ₚ c :: completers f.
Proof. intros H. unfold completers. cbn. by rewrite (emplace_perm o c _ H). Qed.
Lemma account_later_exclusive f o c : has_key o (pending_exclusive_ f) = false ->
  completers (set_pending_exclusive f (emplace o c (pending_exclusive_ f))) ≡ₚ c :: completers f.
Proof. intros H. unfold completers. cbn. rewrite (emplace_perm o c _ H). cbn. by rewrite <- Permutation_middle. Qed.

Lemma Lock_account f o req c : (Lock f o req c).2.*1 ++ completers (Lock f o req c).1 ≡ₚ c :: completers f.
Proof.
  unfold Lock. destruct (negb (running_ f) || LockInProgress f o) eqn:Eg; [done|]. apply orb_false_iff in Eg as [_ Eg].
  apply not_in_progress in Eg as (Hpe & Hps & _). destruct (negb _); [destruct (o =? _)|].
  - unfold Lock_owner. destruct (type req); [rewrite (surjective_pairing (grant_shared _))|done|].
    + apply account_now. apply (grant_shared_account (set_shared (set_exclusive f _) _)).
    + destruct (_ <? _); [rewrite (surjective_pairing (grant_shared _))|rewrite (surjective_pairing (grant_exclusive _))]; apply account_now.
      * apply (grant_shared_account (set_exclusive f _)).
      * apply (grant_exclusive_account (set_exclusive f _)).
  - unfold Lock_owned. destruct (type req), (wait req); try done; [by apply account_later_shared|by apply account_later_exclusive].
  - unfold Lock_shared. destruct (type req); [done|..].
    + destruct (decide _); [done|]. destruct (wait req); [|done]. apply (account_later_exclusive (set_shared f _)). done.
    + destruct (decide _); [|done]. destruct (decide _); [rewrite (surjective_pairing (grant_exclusive _))|done].
      apply account_now. apply (grant_exclusive_account (set_shared f _)).
Qed.

(** A run: the requests in the order in which they take the mutex, the [n]th with the
    completer [n]. *)
Fixpoint run (f : FileLock) (n : nat) (reqs : list (Z * LockRequest)) : FileLock * list (completer * Z) :=
  match reqs with
  | [] => (f, [])
  | (o, req) :: reqs =>
      let '(f1, calls1) := Lock f o req n in
      let '(f2, calls2) := run f1 (S n) reqs in
      (f2, calls1 ++ calls2)
  end.

Lemma run_inv reqs : forall f n, inv f -> Forall (fun r => r.1 <> ZX_KOID_INVALID) reqs ->
  inv (run f n reqs).1 /\ (run f n reqs).2.*1 ++ completers (run f n reqs).1 ≡ₚ completers f ++ seq n (length reqs).
Proof.
  induction reqs as [|[o req] reqs IH]; intros f n Hi Hv; cbn [run]; [by rewrite app_nil_r|]. inversion_clear Hv as [|? ? H0 Hv'].
  pose proof (Lock_inv f o req n Hi H0) as Hi1. pose proof (Lock_account f o req n) as Ha. destruct (Lock f o req n) as [f1 calls1]. cbn in Hi1, Ha.
  destruct (IH f1 (S n) Hi1 Hv') as [Hi2 Ha2]. destruct (run f1 (S n) reqs) as [f2 calls2]. cbn in *. split; [done|].
  rewrite fmap_app, <- app_assoc, Ha2, app_assoc, Ha. cbn. by rewrite Permutation_middle.
Qed.

Lemma inv_new : inv FileLock_new.
Proof. split; [constructor|split]; cbn; try done; first [by intros o ?%elem_of_nil|set_solver|constructor]. Qed.

(** ** What a request does *)

(** The waiters that were woken hold what they waited for. *)
Definition woken (f f' : FileLock) (calls : list (completer * Z)) : Prop :=
  forall c s, (c, s) ∈ calls -> s = ZX_OK /\ exists o,
    ((o, c) ∈ pending_shared_ f /\ o ∈ shared_ f') \/ ((o, c) ∈ pending_exclusive_ f /\ exclusive_ f' = o).

(** The others keep what they hold. *)
Definition others_keep (f f' : FileLock) (owner : Z) : Prop :=
  (exclusive_ f <> ZX_KOID_INVALID -> exclusive_ f <> owner -> exclusive_ f' = exclusive_ f) /\
  (forall o, o <> owner -> o ∈ shared_ f -> o ∈ shared_ f').

(** The answer to the request itself; no answer is a place among the pending. *)
Definition answered (f' : FileLock) (owner : Z) (req : LockRequest) (c : completer) (answer : list (completer * Z)) : Prop :=
  match answer with
  | [] => wait req = true /\ ~ holds f' owner /\
      match type req with
      | READ => (owner, c) ∈ pending_shared_ f'
      | WRITE => (owner, c) ∈ pending_exclusive_ f'
      | UNLOCK => False
      end
  | [(c', s)] => c' = c /\
      if s =? ZX_OK then
        match type req with READ => owner ∈ shared_ f' | WRITE => exclusive_ f' = owner | UNLOCK => ~ holds f' owner end
      else
        s = ZX_ERR_SHOULD_WAIT /\ wait req = false /\ ~ holds f' owner /\ exists o, o <> owner /\ holds f' o
  | _ => False
  end.

Lemma woken_nil f f' : woken f f' [].
Proof. intros c s []%elem_of_nil. Qed.

Lemma woken_shared f : woken f (grant_shared f).1 (grant_shared f).2.
Proof.
  intros c s. cbn. rewrite list_elem_of_fmap. intros ([o c'] & [= -> ->] & H). split; [done|]. exists o. left. split; [done|].
  rewrite elem_of_union, elem_of_list_to_set, list_elem_of_fmap. right. by exists (o, c').
Qed.

Lemma woken_exclusive f : woken f (grant_exclusive f).1 (grant_exclusive f).2.
Proof.
  unfold grant_exclusive. destruct (pending_exclusive_ f) as [|[o c] rest] eqn:E; [apply woken_nil|]. intros c' s. cbn.
  rewrite list_elem_of_singleton. intros [= -> ->]. split; [done|]. exists o. right. rewrite E. split; [apply list_elem_of_here|done].
Qed.

(** The outcome of a request that is not refused. *)
Definition outcome (f : FileLock) (owner : Z) (req : LockRequest) (c : completer) (r : FileLock * list (completer * Z)) : Prop :=
  exists w a, r.2 = w ++ a /\ woken f r.1 w /\ answered r.1 owner req c a /\ others_keep f r.1 owner.

Lemma not_holding_waiting f o : inv f -> o ∈ waiting f -> ~ holds f o.
Proof. intros [Hs _] Ho [_ H]. destruct (inv_not_holding f Hs o Ho) as (_ & ? & ?). tauto. Qed.

(** Waking others gives nothing to a client that does not wait. *)
Lemma grant_shared_not_holds f o : o ∉ waiting f -> ~ holds f o -> ~ holds (grant_shared f).1 o.
Proof.
  unfold holds, waiting. cbn. rewrite elem_of_app, elem_of_union, elem_of_list_to_set. tauto.
Qed.
Lemma grant_exclusive_not_holds f o : o ∉ waiting f -> ~ holds f o -> ~ holds (grant_exclusive f).1 o.
Proof.
  unfold holds, waiting, grant_exclusive. destruct (pending_exclusive_ f) as [|[k c] rest]; cbn; [done|].
  rewrite elem_of_app, elem_of_cons. tauto.
Qed.

Lemma Lock_owner_outcome f o req c : inv f -> o = exclusive_ f -> o <> ZX_KOID_INVALID -> o ∉ waiting f ->
  outcome f o req c (Lock_owner f o req c).
Proof.
  intros [Hs _] Ho H0 Hw. assert (Hsh : shared_ f = ∅) by (apply Hs; congruence). unfold Lock_owner.
  assert (Hk : forall f', others_keep f f' o) by (intros f'; split; [congruence|rewrite Hsh; set_solver]).
  assert (Hn : ~ holds (set_exclusive f ZX_KOID_INVALID) o) by (intros [_ [?|?]]; [done|cbn in *; set_solver]).
  destruct (type req) eqn:Et.
  - rewrite (surjective_pairing (grant_shared _)). eexists _, [(c, ZX_OK)]. split_and!; [done|apply woken_shared| |done].
    unfold answered. rewrite Et. cbn. set_solver.
  - exists [], [(c, ZX_OK)]. split_and!; [done|apply woken_nil| |done]. unfold answered. by rewrite Et.
  - destruct (_ <? _); [rewrite (surjective_pairing (grant_shared _))|rewrite (surjective_pairing (grant_exclusive _))];
      (eexists _, [(c, ZX_OK)]; split_and!; [done| | |done]); [apply woken_shared| |apply woken_exclusive|];
      unfold answered; rewrite Et; (split; [done|]); [by apply grant_shared_not_holds|by apply grant_exclusive_not_holds].
Qed.

Lemma emplace_in k c m : has_key k m = false -> (k, c) ∈ emplace k c m.
Proof. intros H. rewrite (emplace_perm k c m H). apply list_elem_of_here. Qed.

Lemma Lock_owned_outcome f o req c : inv f -> exclusive_ f <> ZX_KOID_INVALID -> o <> exclusive_ f -> LockInProgress f o = false ->
  outcome f o req c (Lock_owned f o req c).
Proof.
  intros [Hs _] He Ho (Hpe & Hps & _)%not_in_progress. assert (Hsh : shared_ f = ∅) by (apply Hs; congruence).
  assert (Hn : ~ holds f o) by (intros [_ [?|?]]; [done|set_solver]).
  assert (Hex : exists o', o' <> o /\ holds f o') by (exists (exclusive_ f); split; [done|split; auto]).
  unfold Lock_owned, outcome, answered. destruct (type req) eqn:Et, (wait req) eqn:Ew;
    first [exists [], []; split_and!; [done|apply woken_nil|done|done|by apply emplace_in|done..]
          |eexists [], [_]; split_and!; [done|apply woken_nil|cbn; by rewrite ?Et, ?Ew|done..]
          |eexists [], [_]; split_and!; [done|apply woken_nil|done|by rewrite Et|done..]].
Qed.

Lemma Lock_shared_outcome f o req c : inv f -> exclusive_ f = ZX_KOID_INVALID -> o <> ZX_KOID_INVALID -> LockInProgress f o = false ->
  outcome f o req c (Lock_shared f o req c).
Proof.
  intros [Hs _] He H0 (Hpe & Hps & Hw)%not_in_progress. unfold Lock_shared, outcome, answered. cbn [shared_ set_shared].
  assert (Hn : ~ holds (set_shared f (shared_ f ∖ {[o]})) o) by (intros [_ [E|E]]; [apply H0; by rewrite E|cbn in E; set_solver]).
  destruct (type req) eqn:Et.
  - exists [], [(c, ZX_OK)]. split_and!; [done|apply woken_nil|done|cbn; set_solver|split; [done|cbn; set_solver]].
  - destruct (decide (shared_ f ∖ {[o]} = ∅)) as [E|E].
    + exists [], [(c, ZX_OK)]. split_and!; [done|apply woken_nil|done|done|split; [done|cbn; set_solver]].
    + apply set_choose_L in E as [o' Ho']. destruct (wait req).
      * exists [], []. split_and!; [done|apply woken_nil|done|done|by apply emplace_in|split; [done|cbn; set_solver]].
      * exists [], [(c, ZX_ERR_SHOULD_WAIT)]. split_and!; [done|apply woken_nil|done| |split; [done|cbn; set_solver]].
        cbn. split_and!; [done..|]. exists o'. split; [set_solver|]. split; [|right; done]. intros ->. apply (inv_valid f Hs). set_solver.
  - destruct (decide (o ∈ shared_ f)) as [Hin|Hin].
    2: { exists [], [(c, ZX_OK)]. split_and!; [done|apply woken_nil|done| |done]. intros [_ [E|E]]; [apply H0; by rewrite E|done]. }
    destruct (decide (shared_ f ∖ {[o]} = ∅)) as [E|E].
    + rewrite (surjective_pairing (grant_exclusive _)). eexists _, [(c, ZX_OK)].
      split_and!; [done|apply woken_exclusive|done|by apply grant_exclusive_not_holds|split; [done|set_solver]].
    + exists [], [(c, ZX_OK)]. split_and!; [done|apply woken_nil|done|done|split; [done|cbn; set_solver]].
Qed.

Lemma Lock_outcome f o req c : inv f -> o <> ZX_KOID_INVALID -> LockInProgress f o = false -> outcome f o req c (Lock f o req c).
Proof.
  intros Hi H0 Eg. unfold Lock. rewrite (inv_running f (proj1 Hi)), Eg. cbn [negb orb].
  destruct (Z.eqb_spec (exclusive_ f) ZX_KOID_INVALID) as [E|E]; cbn [negb]; [by apply Lock_shared_outcome|].
  destruct (Z.eqb_spec o (exclusive_ f)) as [Eo|Eo]; [|by apply Lock_owned_outcome].
  apply Lock_owner_outcome; [done..|]. by apply not_in_progress.
Qed.

Lemma Lock_refused f o req c : LockInProgress f o = true -> Lock f o req c = (f, [(c, ZX_ERR_BAD_STATE)]).
Proof. intros H. unfold Lock. by rewrite H, orb_true_r. Qed.

(** What a request does.  A client with a request pending is refused.  Otherwise the
    answer is truthful: success means the client now holds what it asked for, or nothing
    after an unlock; "should wait" means it holds nothing while another client does; and no
    answer means it asked to wait and is among those pending.  The waiters that are woken
    are told of success and hold what they waited for, and no other client loses a lock. *)
Theorem Lock_correct f o req c : inv f -> o <> ZX_KOID_INVALID ->
  if LockInProgress f o then Lock f o req c = (f, [(c, ZX_ERR_BAD_STATE)]) else outcome f o req c (Lock f o req c).
Proof.
  intros Hi H0. destruct (LockInProgress f o) eqn:E; [by apply Lock_refused|by apply Lock_outcome].
Qed.

Definition rd (wait : bool) : LockRequest := {| type := READ; wait := wait |}.
Definition wr (wait : bool) : LockRequest := {| type := WRITE; wait := wait |}.
Definition un : LockRequest := {| type := UNLOCK; wait := false |}.

(** Two readers, one of which waits to write; the other unlocks and wakes it. *)
Lemma Lock_correct_witness :
  let f := (run FileLock_new 0 [(5, rd true); (6, rd true); (5, wr true)]).1 in
  pending_exclusive_ f = [(5, 2%nat)] /\ (Lock f 6 un 3%nat).2 = [(2%nat, ZX_OK); (3%nat, ZX_OK)] /\
  outcome f 6 un 3%nat (Lock f 6 un 3%nat).
Proof.
  intros f. split_and!; [vm_compute; reflexivity..|].
  assert (Hi : inv f) by (apply run_inv; [apply inv_new|repeat constructor; done]).
  exact (Lock_correct f 6 un 3%nat Hi ltac:(done)).
Defined.

(** C25.  Whatever the clients ask for: a writer excludes everybody, readers wait only for a
    writer and writers only for a holder, nobody waits for a lock while holding one, and
    every request has been answered exactly once or is pending. *)
Theorem file_lock_invariant reqs : Forall (fun r => r.1 <> ZX_KOID_INVALID) reqs ->
  let '(f, calls) := run FileLock_new 0 reqs in
  (exclusive_ f <> ZX_KOID_INVALID -> shared_ f = ∅) /\
  (pending_shared_ f <> [] -> exclusive_ f <> ZX_KOID_INVALID) /\
  (pending_exclusive_ f <> [] -> exclusive_ f <> ZX_KOID_INVALID \/ shared_ f <> ∅) /\
  (forall o, o ∈ waiting f -> ~ holds f o) /\ NoDup (waiting f) /\
  calls.*1 ++ completers f ≡ₚ seq 0 (length reqs).
Proof.
  intros Hv. destruct (run_inv reqs FileLock_new 0 inv_new Hv) as [Hi Ha]. destruct (run _ _ _) as [f calls]. cbn in Hi, Ha.
  pose proof Hi as [Hs [Hj1 Hj2]]. split_and!.
  - apply Hs.
  - intros H E. by apply H, Hj1.
  - intros H. destruct (decide (exclusive_ f = ZX_KOID_INVALID)) as [E|E]; [right|by left]. intros E'. by apply H, Hj2.
  - intros o. by apply not_holding_waiting.
  - apply Hs.
  - done.
Qed.

Lemma file_lock_invariant_witness :
  let '(f, calls) := run FileLock_new 0 [(5, wr false); (6, rd true); (7, wr true); (5, un); (6, un)] in
  exclusive_ f = 7 /\ pending_shared_ f = [(6, 1%nat)] /\ calls.*1 ++ completers f ≡ₚ seq 0 5.
Proof.
  pose proof (file_lock_invariant [(5, wr false); (6, rd true); (7, wr true); (5, un); (6, un)] ltac:(repeat constructor; done)) as H.
  destruct (run _ _ _) as [f calls] eqn:E. vm_compute in E. injection E as <- <-. split_and!; [reflexivity..|apply H].
Defined.

(** ** Waiters are woken *)

(** A holder counts one and a waiter two, so that passing the lock on counts down. *)
Definition lock_load (f : FileLock) : nat :=
  (if exclusive_ f =? ZX_KOID_INVALID then 0 else 1) + base.size (shared_ f) + 2 * (length (pending_shared_ f) + length (pending_exclusive_ f)).

Lemma holds_not_waiting f o : inv f -> holds f o -> LockInProgress f o = false.
Proof.
  intros Hi Ho. apply not_true_iff_false. unfold LockInProgress. rewrite orb_true_iff, !has_key_spec. intros H.
  apply (not_holding_waiting f o Hi); [|done]. apply elem_of_app. tauto.
Qed.

Lemma load_grant_shared f : sound f -> exclusive_ f = ZX_KOID_INVALID -> shared_ f = ∅ ->
  (lock_load (grant_shared f).1 = length (pending_shared_ f) + 2 * length (pending_exclusive_ f))%nat.
Proof.
  intros Hs He Hsh. unfold lock_load. cbn -[base.size Nat.mul]. rewrite He, Hsh, union_empty_l_L, size_list_to_set.
  - rewrite length_fmap. cbn -[Nat.mul]. lia.
  - pose proof (inv_waiting f Hs) as H. by apply NoDup_app in H as [H _].
Qed.

Lemma load_grant_exclusive f : exclusive_ f = ZX_KOID_INVALID -> shared_ f = ∅ ->
  (lock_load (grant_exclusive f).1 <= 2 * (length (pending_shared_ f) + length (pending_exclusive_ f)))%nat.
Proof.
  intros He Hsh. unfold lock_load, grant_exclusive. destruct (pending_exclusive_ f) as [|[o c] rest] eqn:E; cbn -[base.size Nat.mul];
    rewrite Hsh, size_empty; [rewrite He, E|destruct (o =? _)]; cbn -[Nat.mul]; lia.
Qed.

Lemma unlock_load f o c : inv f -> holds f o -> (lock_load (Lock f o un c).1 < lock_load f)%nat.
Proof.
  intros Hi Ho. pose proof (holds_not_waiting f o Hi Ho) as Hp. destruct Hi as [Hs Hj], Ho as [H0 Ho]. unfold Lock.
  rewrite (inv_running f Hs), Hp. cbn [negb orb]. destruct (Z.eqb_spec (exclusive_ f) ZX_KOID_INVALID) as [E|E]; cbn [negb].
  - assert (Hin : o ∈ shared_ f) by (destruct Ho as [->|]; done). unfold Lock_shared. cbn [type un]. rewrite decide_True by done.
    assert (Hsz : base.size (shared_ f) = S (base.size (shared_ f ∖ {[o]}))).
    { rewrite (union_difference_L {[o]} (shared_ f)) at 1 by set_solver. rewrite size_union, size_singleton by set_solver. done. }
    assert (Hl : lock_load f = (S (base.size (shared_ f ∖ {[o]})) + 2 * (length (pending_shared_ f) + length (pending_exclusive_ f)))%nat).
    { unfold lock_load. rewrite Hsz, E. done. }
    destruct (decide _) as [Ee|Ee].
    + rewrite (surjective_pairing (grant_exclusive _)). cbn [fst]. pose proof (load_grant_exclusive (set_shared f (shared_ f ∖ {[o]})) E Ee). cbn -[Nat.mul] in *. lia.
    + unfold lock_load at 1. cbn -[base.size Nat.mul]. rewrite E. cbn -[base.size Nat.mul]. lia.
  - assert (Hsh : shared_ f = ∅) by (by apply Hs). assert (o = exclusive_ f) as -> by (destruct Ho; [done|set_solver]). rewrite Z.eqb_refl.
    assert (Hl : lock_load f = (1 + 2 * (length (pending_shared_ f) + length (pending_exclusive_ f)))%nat).
    { unfold lock_load. rewrite Hsh, size_empty, (proj2 (Z.eqb_neq _ _) E). done. }
    unfold Lock_owner. cbn [type un]. pose proof (sound_release_exclusive f Hs) as Hr. destruct (_ <? _).
    + rewrite (surjective_pairing (grant_shared _)). cbn [fst]. rewrite load_grant_shared by done. cbn -[Nat.mul]. lia.
    + rewrite (surjective_pairing (grant_exclusive _)). cbn [fst].
      pose proof (load_grant_exclusive (set_exclusive f ZX_KOID_INVALID) eq_refl Hsh). cbn -[Nat.mul] in *. lia.
Qed.

Lemma unlock_calls_ok f o c : inv f -> LockInProgress f o = false -> Forall (fun e => e.2 = ZX_OK) (Lock f o un c).2.
Proof.
  intros Hi Hp. unfold Lock. rewrite (inv_running f (proj1 Hi)), Hp. cbn [negb orb].
  assert (Hg : forall g, Forall (fun e => e.2 = ZX_OK) ((grant_shared g).2 ++ [(c, ZX_OK)])).
  { intros g. apply Forall_app. split; [by apply Forall_fmap, Forall_true|by repeat constructor]. }
  assert (Hx : forall g, Forall (fun e => e.2 = ZX_OK) ((grant_exclusive g).2 ++ [(c, ZX_OK)])).
  { intros g. unfold grant_exclusive. destruct (pending_exclusive_ g) as [|[k d] rest]; by repeat constructor. }
  assert (H1 : Forall (fun e : completer * Z => e.2 = ZX_OK) [(c, ZX_OK)]) by by repeat constructor.
  unfold Lock_owner, Lock_owned, Lock_shared. cbn [type un]. destruct (negb _); [destruct (o =? _); [destruct (_ <? _)|done]|].
  - rewrite (surjective_pairing (grant_shared _)). apply Hg.
  - rewrite (surjective_pairing (grant_exclusive _)). apply Hx.
  - destruct (decide _); [|done]. destruct (decide _); [|done]. rewrite (surjective_pairing (grant_exclusive _)). apply Hx.
Qed.

(** Holders unlock one after another, in any order: [n] of them, with the calls they cause. *)
Inductive unlocks : FileLock -> nat -> list (completer * Z) -> FileLock -> Prop :=
| unlocks_none f : unlocks f 0 [] f
| unlocks_next f o c n calls f' :
    holds f o -> unlocks (Lock f o un c).1 n calls f' -> unlocks f (S n) ((Lock f o un c).2 ++ calls) f'.

Lemma unlocks_ok f n calls f' : unlocks f n calls f' -> inv f ->
  inv f' /\ (n + lock_load f' <= lock_load f)%nat /\
  forall c, c ∈ completers f -> (c, ZX_OK) ∈ calls \/ c ∈ completers f'.
Proof.
  induction 1 as [f|f o c n calls f' Ho Hu IH]; intros Hi; [split_and!; [done|lia|auto]|].
  destruct IH as (Hi' & Hl & Hc); [apply Lock_inv; [done|apply Ho]|]. pose proof (unlock_load f o c Hi Ho).
  split_and!; [done|lia|]. intros d Hd. assert (Hd' : d ∈ (Lock f o un c).2.*1 ++ completers (Lock f o un c).1).
  { rewrite Lock_account. by apply elem_of_cons; right. }
  apply elem_of_app in Hd' as [Hd'|Hd'].
  - left. apply elem_of_app. left. apply list_elem_of_fmap in Hd' as ([d' s] & -> & Hs). cbn.
    pose proof (unlock_calls_ok f o c Hi (holds_not_waiting f o Hi Ho)) as Hok. rewrite Forall_forall in Hok. specialize (Hok _ Hs). cbn in Hok. by subst s.
  - destruct (Hc d Hd'); [left; apply elem_of_app|]; auto.
Qed.

Lemma no_holder f : inv f -> (forall o, ~ holds f o) -> NoLocksHeld f = true /\ completers f = [].
Proof.
  intros [Hs [Hj1 Hj2]] Hn. assert (He : exclusive_ f = ZX_KOID_INVALID).
  { destruct (decide (exclusive_ f = ZX_KOID_INVALID)); [done|]. destruct (Hn (exclusive_ f)). split; auto. }
  assert (Hsh : shared_ f = ∅).
  { destruct (decide (shared_ f = ∅)) as [|E]; [done|]. apply set_choose_L in E as [o Ho]. destruct (Hn o). split; [|auto].
    intros ->. by apply (inv_valid f Hs). }
  unfold NoLocksHeld, completers. rewrite He, Hsh, Hj1, Hj2 by done. done.
Qed.

Lemma some_holder f : inv f -> (exists o, holds f o) \/ forall o, ~ holds f o.
Proof.
  intros [Hs _]. destruct (decide (exclusive_ f = ZX_KOID_INVALID)) as [He|He]; [|left; exists (exclusive_ f); split; auto].
  destruct (decide (shared_ f = ∅)) as [E|E]; [right; intros o [H0 [->|H]]; [done|set_solver]|].
  apply set_choose_L in E as [o Ho]. left. exists o. split; [|auto]. intros ->. by apply (inv_valid f Hs).
Qed.

(** Nobody waits forever.  From any state the clients can reach, let whoever holds the lock
    unlock it, in any order and waiters that were woken included: this can go on for at most
    as many steps as there are holders and twice the waiters, it can be continued until
    nobody holds the lock, and then no lock is held or pending and every client that waited
    was told of success. *)
Theorem unlocking_wakes_all f : inv f ->
  (forall n calls f', unlocks f n calls f' ->
    (n <= lock_load f)%nat /\ ((exists o, holds f' o) \/
      NoLocksHeld f' = true /\ forall c, c ∈ completers f -> (c, ZX_OK) ∈ calls)) /\
  exists n calls f', unlocks f n calls f' /\ forall o, ~ holds f' o.
Proof.
  intros Hi. split.
  - intros n calls f' Hu. destruct (unlocks_ok f n calls f' Hu Hi) as (Hi' & Hl & Hc). split; [lia|].
    destruct (some_holder f' Hi') as [Ho|Hn]; [by left|right]. destruct (no_holder f' Hi' Hn) as [H1 H2]. split; [done|].
    intros c Hin. destruct (Hc c Hin) as [|H]; [done|]. rewrite H2 in H. by apply elem_of_nil in H.
  - remember (lock_load f) as m eqn:Em. revert f Hi Em. induction (lt_wf m) as [m _ IH]. intros f Hi ->.
    destruct (some_holder f Hi) as [[o Ho]|Hn]; [|exists 0%nat, [], f; by split; [constructor|]].
    destruct (IH (lock_load (Lock f o un 0%nat).1) (unlock_load f o 0%nat Hi Ho) (Lock f o un 0%nat).1) as (n & calls & f' & Hu & Hn);
      [apply Lock_inv; [done|apply Ho]|done|]. exists (S n). eexists. exists f'. split; [by eapply unlocks_next|done].
Qed.

Lemma unlocking_wakes_all_witness :
  let f := (run FileLock_new 0 [(5, wr false); (6, rd true); (7, wr true); (8, wr true)]).1 in
  completers f = [1; 2; 3]%nat /\ exists n calls f', unlocks f n calls f' /\ forall o, ~ holds f' o.
Proof.
  intros f. split; [vm_compute; reflexivity|].
  assert (Hi : inv f) by (apply run_inv; [apply inv_new|repeat constructor; done]).
  apply (unlocking_wakes_all f Hi).
Defined.

(** ** Clients that go away *)

Lemma grant_shared_waiting f o : o ∈ waiting (grant_shared f).1 -> o ∈ waiting f.
Proof. unfold waiting. cbn. rewrite elem_of_app. tauto. Qed.
Lemma grant_exclusive_waiting f o : o ∈ waiting (grant_exclusive f).1 -> o ∈ waiting f.
Proof.
  unfold waiting, grant_exclusive. destruct (pending_exclusive_ f) as [|[k c] rest] eqn:E; cbn; rewrite ?E; [done|].
  rewrite !elem_of_app. cbn. rewrite elem_of_cons. tauto.
Qed.

Lemma unlock_waiting f o c x : x ∈ waiting (Lock f o un c).1 -> x ∈ waiting f.
Proof.
  unfold Lock, Lock_owner, Lock_owned, Lock_shared. cbn [type un].
  destruct (negb (running_ f) || _); [done|]. destruct (negb _); [destruct (o =? _); [destruct (_ <? _)|done]|].
  - rewrite (surjective_pairing (grant_shared _)). apply (grant_shared_waiting (set_exclusive f _)).
  - rewrite (surjective_pairing (grant_exclusive _)). apply (grant_exclusive_waiting (set_exclusive f _)).
  - destruct (decide _); [|done]. destruct (decide _); [|done]. rewrite (surjective_pairing (grant_exclusive _)).
    apply (grant_exclusive_waiting (set_shared f _)).
Qed.

Lemma waiting_in_progress f o : o ∈ waiting f <-> LockInProgress f o = true.
Proof. unfold waiting, LockInProgress. rewrite elem_of_app, orb_true_iff, !has_key_spec. tauto. Qed.

(** A client that goes away.  [Forget] takes its lock away and says so, but a client that
    waits is not forgotten: nothing changes, and the lock will be given to it. *)
Theorem Forget_correct f o c : inv f -> o <> ZX_KOID_INVALID ->
  let '(f', calls, forgotten) := Forget f o c in
  if decide (o ∈ waiting f) then f' = f /\ forgotten = false
  else ~ holds f' o /\ o ∉ waiting f' /\ forgotten = true.
Proof.
  intros Hi H0. unfold Forget. fold un. destruct (decide (o ∈ waiting f)) as [Hw|Hw].
  - rewrite Lock_refused by (by apply waiting_in_progress). cbn. by rewrite Nat.eqb_refl.
  - rewrite waiting_in_progress, not_true_iff_false in Hw. pose proof (Lock_outcome f o un c Hi H0 Hw) as (w & a & Hc & _ & Ha & _).
    pose proof (unlock_calls_ok f o c Hi Hw) as Hok. pose proof (unlock_waiting f o c o) as Hwt. destruct (Lock f o un c) as [f' calls].
    cbn in Hc, Ha, Hok, Hwt. subst calls. unfold answered in Ha. destruct a as [|[c' s] [|? ?]]; [by destruct Ha| |done]. destruct Ha as [-> Ha].
    apply Forall_app in Hok as [_ Hok]. inversion_clear Hok as [|? ? Hs _]. cbn in Hs. subst s. split_and!; [done| |].
    + intros H%Hwt. apply waiting_in_progress in H. congruence.
    + rewrite existsb_app. cbn. rewrite Nat.eqb_refl. apply orb_true_r.
Qed.

(** The reader 6 goes away while it waits, and is given the lock when the writer unlocks. *)
Lemma Forget_correct_witness :
  let f := (run FileLock_new 0 [(5, wr false); (6, rd true)]).1 in
  let '(f', calls, forgotten) := Forget f 6 2%nat in
  forgotten = false /\ shared_ (Lock f' 5 un 3%nat).1 = {[6]}.
Proof.
  intros f. assert (Hi : inv f) by (apply run_inv; [apply inv_new|repeat constructor; done]).
  pose proof (Forget_correct f 6 2%nat Hi ltac:(done)) as H. destruct (Forget f 6 2%nat) as [[f' calls] forgotten].
  destruct (decide (6 ∈ waiting f)) as [_|n]; [|exfalso; apply n; vm_compute; left]. destruct H as [-> ->]. split; [reflexivity|].
  vm_compute. reflexivity.
Defined.

(** The destructor answers no waiting writer, and aborts when a reader waits: it calls the
    completers of the pending readers twice. *)
Theorem destroy_cancels f : destroy f = if decide (pending_shared_ f = []) then Some [] else None.
Proof.
  unfold destroy. destruct (pending_shared_ f) as [|[o c] ps]; [done|]. cbn.
  destruct (cancel_all _) as [[spent calls]|]; done.
Qed.
