(* ===== verification/CleanPath.v ===== *)
(** * Lexical path names

    Models src/fdio/cleanpath.cc: the cleaning of a path.  The source reads a string with a
    NUL at its end, so a read past that is undefined, [None]; it writes into a
    [fbl::StringBuffer], which is not part of this repository and is the interface
    [StringBuffer]. *)

From S2P Require Import Prelude.

(** ** The buffer *)

(** Characters are bytes; [contents] is what [length] and [operator[]] observe. *)
Class StringBuffer (B : Type) := {
  contents : B -> list Z;
  Append : B -> Z -> B;
  AppendView : B -> list Z -> B;
  Resize : B -> nat -> B;
  SetTo : B -> list Z -> B;
}.

(** A buffer that holds up to [N] characters. *)
Class StringBufferLaws (N : nat) (B : Type) `{StringBuffer B} : Prop := {
  Append_contents b c : (length (contents b) < N)%nat -> contents (Append b c) = contents b ++ [c];
  AppendView_contents b s : (length (contents b) + length s <= N)%nat -> contents (AppendView b s) = contents b ++ s;
  Resize_contents b n : (n <= length (contents b))%nat -> contents (Resize b n) = take n (contents b);
  SetTo_contents b s : (length s <= N)%nat -> contents (SetTo b s) = s;
}.

(** ** Cleaning *)

(** [PATH_MAX] counts the NUL. *)
Definition PATH_MAX : nat := 4096.
Definition dot : Z := 46.
Definition slash : Z := 47.

(** [in[i]] *)
Definition char_at (s : list Z) (i : nat) : option Z := if Nat.eqb i (length s) then Some 0 else s !! i.

Definition is_separator (c : Z) : bool := (c =? 0) || (c =? slash).
Definition can_increment (i : nat) : bool := Nat.ltb i (PATH_MAX - 1).

Section Clean.
Context {B : Type} `{StringBuffer B}.

(** The search for the slash before the last element. *)
Fixpoint last_elem_loop (out : B) (dotdot last_elem : nat) : option nat :=
  if Nat.ltb dotdot last_elem then
    c ← contents out !! last_elem;
    if c =? slash then Some last_elem
    else match last_elem with O => None | S last_elem => last_elem_loop out dotdot last_elem end
  else Some last_elem.

(** Copies a path element; [false] when the index is at its end.  Each turn reads one more
    character, so the length of the string is enough fuel. *)
Fixpoint copy_loop (fuel : nat) (s : list Z) (i : nat) (out : B) : option (bool * nat * B) :=
  c ← char_at s i;
  if is_separator c then Some (true, i, out)
  else if negb (can_increment i) then Some (false, i, out)
  else match fuel with O => None | S fuel => copy_loop fuel s (S i) (Append out c) end.

(** The three tests of the loop, evaluated from left to right. *)
Definition is_dot (s : list Z) (i : nat) (c : Z) : option bool :=
  if c =? dot then c1 ← char_at s (i + 1); Some (is_separator c1) else Some false.
Definition is_dotdot (s : list Z) (i : nat) (c : Z) : option bool :=
  if c =? dot then
    c1 ← char_at s (i + 1);
    if c1 =? dot then c2 ← char_at s (i + 2); Some (is_separator c2) else Some false
  else Some false.

(** The main loop: the result, the buffer and [*is_dir]. *)
Fixpoint clean_loop (fuel : nat) (s : list Z) (rooted : bool) (i : nat) (out : B) (dotdot : nat) (is_dir : bool)
    : option (bool * B * bool) :=
  c ← char_at s i;
  if c =? 0 then Some (true, out, is_dir)
  else match fuel with
  | O => None
  | S fuel =>
      if c =? slash then
        if negb (can_increment i) then Some (false, out, true)
        else clean_loop fuel s rooted (i + 1) out dotdot true
      else
        d ← is_dot s i c;
        if (d : bool) then
          if negb (can_increment i) then Some (false, out, true)
          else clean_loop fuel s rooted (i + 1) out dotdot true
        else
        dd ← is_dotdot s i c;
        if (dd : bool) then
          if negb (can_increment (i + 1)) then Some (false, out, true)
          else
            let i := (i + 2)%nat in
            if Nat.ltb dotdot (length (contents out)) then
              last_elem ← last_elem_loop out dotdot (length (contents out) - 1);
              clean_loop fuel s rooted i (Resize out last_elem) dotdot true
            else if rooted then clean_loop fuel s rooted i out dotdot true
            else
              let out := if Nat.ltb 0 (length (contents out)) then Append out slash else out in
              let out := AppendView out [dot; dot] in
              clean_loop fuel s rooted i out (length (contents out)) true
        else
          let out :=
            if (rooted && negb (Nat.eqb (length (contents out)) 1)) || (negb rooted && negb (Nat.eqb (length (contents out)) 0))
            then Append out slash else out in
          '(ok, i, out) ← copy_loop (length s) s i out;
          if (ok : bool) then clean_loop fuel s rooted i out dotdot false else Some (false, out, false)
  end.

Definition CleanPath (s : list Z) (out : B) (is_dir : bool) : option (bool * B * bool) :=
  c ← char_at s 0;
  if c =? 0 then Some (true, SetTo out [dot], true)
  else
    let rooted := c =? slash in
    let out := if rooted then Append out slash else out in
    let i := if rooted then 1%nat else 0%nat in
    let is_dir := if rooted then true else is_dir in
    '(ok, out, is_dir) ← clean_loop (length s) s rooted i out (length (contents out)) is_dir;
    if (ok : bool) then
      if Nat.eqb (length (contents out)) 0 then Some (true, Append out dot, true) else Some (true, out, is_dir)
    else Some (false, out, is_dir).
End Clean.
