(* ===== verification/CleanPathTheorems.v ===== *)
(** * Cleaning is lexical resolution

    The loop of CleanPath.v against a reference on lists of path elements. *)

From S2P Require Import Prelude CleanPath.

(** ** The reference *)

Fixpoint split (s : list Z) : list (list Z) :=
  match s with
  | [] => [[]]
  | c :: s =>
      if c =? slash then [] :: split s
      else match split s with [] => [[c]] | w :: ws => (c :: w) :: ws end
  end.

Fixpoint join (ws : list (list Z)) : list Z :=
  match ws with
  | [] => []
  | [w] => w
  | w :: ws => w ++ slash :: join ws
  end.

Definition up : list Z := [dot; dot].

(** The path elements that name something. *)
Definition names (w : list Z) : Prop := w <> [] /\ w <> [dot].
#[export] Instance names_dec w : Decision (names w).
Proof. unfold names. apply _. Defined.
Definition words (s : list Z) : list (list Z) := filter names (split s).

(** How many times up from the start, then the names down from there. *)
Fixpoint resolve (rooted : bool) (ups : nat) (st : list (list Z)) (ws : list (list Z)) : nat * list (list Z) :=
  match ws with
  | [] => (ups, st)
  | w :: ws =>
      if decide (w = up) then
        match st with
        | [] => resolve rooted (if rooted then ups else S ups) [] ws
        | _ => resolve rooted ups (removelast st) ws
        end
      else resolve rooted ups (st ++ [w]) ws
  end.

Definition is_rooted (s : list Z) : bool := bool_decide (head s = Some slash).
Definition elems (ups : nat) (st : list (list Z)) : list (list Z) := replicate ups up ++ st.
Definition root_prefix (rooted : bool) : list Z := if rooted then [slash] else [].
Definition render (rooted : bool) (r : nat * list (list Z)) : list Z := root_prefix rooted ++ join (elems r.1 r.2).

Definition clean (s : list Z) : list Z :=
  let p := render (is_rooted s) (resolve (is_rooted s) 0 [] (words s)) in
  if decide (p = []) then [dot] else p.

(** A path names a directory when it ends in a slash, a dot or two. *)
Definition names_dir (s : list Z) : bool :=
  match last (split s) with
  | Some w => bool_decide (w = [] \/ w = [dot] \/ w = up)
  | None => false
  end.

(** ** Splitting and joining *)

Definition no_slash (w : list Z) : Prop := Forall (fun c => c <> slash) w.
Definition ends (s : list Z) : Prop := s = [] \/ exists r, s = slash :: r.

Lemma split_nonempty s : split s <> [].
Proof. destruct s as [|c s]; cbn; [done|]. destruct (c =? slash); [done|]. by destruct (split s). Qed.

Lemma split_word w s : no_slash w -> split (w ++ slash :: s) = w :: split s.
Proof.
  induction 1 as [|c w Hc _ IH]; [done|]. cbn [split app]. rewrite (proj2 (Z.eqb_neq _ _) Hc). cbn [split app] in IH. by rewrite IH.
Qed.

Lemma split_last w : no_slash w -> split w = [w].
Proof. induction 1 as [|c w Hc _ IH]; [done|]. cbn [split]. by rewrite (proj2 (Z.eqb_neq _ _) Hc), IH. Qed.

Lemma take_word s : exists w r, s = w ++ r /\ no_slash w /\ ends r.
Proof.
  induction s as [|c s (w & r & -> & Hw & Hr)]; [exists [], []; split_and!; [done|constructor|by left]|].
  destruct (decide (c = slash)) as [->|Hc].
  - exists [], (slash :: w ++ r). split_and!; [done|constructor|right; by eexists].
  - exists (c :: w), r. split_and!; [done|by constructor|done].
Qed.

Lemma split_all s : Forall no_slash (split s).
Proof.
  induction s as [|c s IH]; [repeat constructor|]. cbn [split]. destruct (Z.eqb_spec c slash); [by repeat constructor|].
  destruct (split s); [repeat constructor; done|]. inversion_clear IH. by repeat constructor.
Qed.

Lemma join_cons w ws : ws <> [] -> join (w :: ws) = w ++ slash :: join ws.
Proof. by destruct ws. Qed.

Lemma join_snoc ws w : ws <> [] -> join (ws ++ [w]) = join ws ++ slash :: w.
Proof.
  induction ws as [|v ws IH]; [done|]. intros _. destruct ws as [|u ws]; [done|].
  cbn [app]. rewrite (join_cons v (u :: ws ++ [w])), (join_cons v (u :: ws)) by done. cbn [app] in IH. rewrite IH by done.
  by rewrite <- app_assoc.
Qed.

Lemma split_join ws : ws <> [] -> Forall no_slash ws -> split (join ws) = ws.
Proof.
  induction ws as [|w ws IH]; [done|]. intros _ Hf. inversion_clear Hf as [|? ? Hw Hws]. destruct ws as [|u ws]; [by apply split_last|].
  rewrite join_cons by done. by rewrite split_word, IH.
Qed.

Lemma words_slash s : words (slash :: s) = words s.
Proof. unfold words. cbn [split]. rewrite Z.eqb_refl. by rewrite filter_cons_False by (by intros []). Qed.

Lemma words_word w r : no_slash w -> ends r -> words (w ++ r) = (if decide (names w) then [w] else []) ++ words r.
Proof.
  intros Hw [->|[s ->]].
  - rewrite app_nil_r. unfold words. rewrite split_last by done. cbn [split filter]. by rewrite filter_cons; destruct (decide (names w)); [|].
  - rewrite words_slash. unfold words. rewrite split_word, filter_cons by done. by destruct (decide (names w)).
Qed.

Lemma names_dir_slash s : names_dir (slash :: s) = names_dir s.
Proof. unfold names_dir. cbn [split]. rewrite Z.eqb_refl. pose proof (split_nonempty s). by destruct (split s). Qed.

Lemma names_dir_word w r : no_slash w -> ends r ->
  names_dir (w ++ r) = if decide (r = []) then bool_decide (w = [] \/ w = [dot] \/ w = up) else names_dir r.
Proof.
  intros Hw [->|[s ->]]; [by rewrite app_nil_r; unfold names_dir; rewrite split_last|].
  rewrite decide_False, names_dir_slash by done. unfold names_dir. rewrite split_word by done.
  pose proof (split_nonempty s). by destruct (split s).
Qed.

(** ** The loops *)

(** The characters of a string with a NUL at its end. *)
Definition no_nul (s : list Z) : Prop := Forall (fun c => c <> 0) s.

Lemma char_at_app p s k : char_at (p ++ s) (length p + k) = char_at s k.
Proof.
  unfold char_at. rewrite length_app, lookup_app_r by lia. replace (length p + k - length p)%nat with k by lia.
  destruct (Nat.eqb_spec (length p + k) (length p + length s)), (Nat.eqb_spec k (length s)); (done || lia).
Qed.
Lemma char_at_here p s : char_at (p ++ s) (length p) = char_at s 0.
Proof. rewrite <- (Nat.add_0_r (length p)). apply char_at_app. Qed.

Lemma char_at_ends r : ends r -> exists c, char_at r 0 = Some c /\ is_separator c = true.
Proof. intros [->|[s ->]]; by eexists. Qed.
Lemma not_separator c : c <> 0 -> c <> slash -> is_separator c = false.
Proof. intros H1 H2. unfold is_separator. by rewrite (proj2 (Z.eqb_neq _ _) H1), (proj2 (Z.eqb_neq _ _) H2). Qed.

(** The tests see the element that starts here. *)
Lemma is_dot_word p c w r : no_slash (c :: w) -> no_nul (c :: w) -> ends r ->
  is_dot (p ++ (c :: w) ++ r) (length p) c = Some (bool_decide (c :: w = [dot])).
Proof.
  intros Hs Hn Hr. unfold is_dot. destruct (Z.eqb_spec c dot) as [->|Hc]; [|by rewrite bool_decide_eq_false_2 by congruence].
  replace (length p + 1)%nat with (length (p ++ [dot]) + 0)%nat by (rewrite length_app; cbn; lia).
  replace (p ++ (dot :: w) ++ r) with ((p ++ [dot]) ++ w ++ r) by (by rewrite <- app_assoc). rewrite char_at_app.
  destruct w as [|d w]; cbn [app].
  - destruct (char_at_ends r Hr) as (x & -> & Hx). cbn. by rewrite Hx.
  - inversion_clear Hs as [|? ? _ Hs']. inversion_clear Hs'. inversion_clear Hn as [|? ? _ Hn']. inversion_clear Hn'.
    change (char_at (d :: w ++ r) 0) with (Some d). cbn [mbind option_bind]. by rewrite not_separator, bool_decide_eq_false_2.
Qed.

Lemma is_dotdot_word p c w r : no_slash (c :: w) -> no_nul (c :: w) -> ends r ->
  is_dotdot (p ++ (c :: w) ++ r) (length p) c = Some (bool_decide (c :: w = up)).
Proof.
  intros Hs Hn Hr. unfold is_dotdot. destruct (Z.eqb_spec c dot) as [->|Hc]; [|by rewrite bool_decide_eq_false_2 by (unfold up; congruence)].
  replace (length p + 1)%nat with (length (p ++ [dot]) + 0)%nat by (rewrite length_app; cbn; lia).
  replace (length p + 2)%nat with (length (p ++ [dot]) + 1)%nat by (rewrite length_app; cbn; lia).
  replace (p ++ (dot :: w) ++ r) with ((p ++ [dot]) ++ w ++ r) by (by rewrite <- app_assoc). rewrite !char_at_app.
  destruct w as [|d w].
  - destruct Hr as [->|[s ->]]; done.
  - change (char_at ((d :: w) ++ r) 0) with (Some d). cbn [mbind option_bind].
    destruct (Z.eqb_spec d dot) as [->|Hd]; [|by rewrite bool_decide_eq_false_2 by (unfold up; congruence)].
    change (char_at ((dot :: w) ++ r) 1) with (char_at (w ++ r) 0). destruct w as [|e w]; cbn [app].
    + destruct (char_at_ends r Hr) as (x & -> & Hx). cbn. by rewrite Hx.
    + do 2 (apply Forall_cons in Hs as [_ Hs], Hn as [_ Hn]). apply Forall_cons in Hs as [? _], Hn as [? _].
      change (char_at (e :: w ++ r) 0) with (Some e). cbn [mbind option_bind]. by rewrite not_separator, bool_decide_eq_false_2.
Qed.

(** Elements have characters, so a longer list of them is a longer path. *)
Definition element (w : list Z) : Prop := w <> [] /\ no_slash w.

Lemma element_up : element up.
Proof. split; [done|]. by repeat constructor. Qed.
Lemma elements_ups n : Forall element (replicate n up).
Proof. apply Forall_replicate, element_up. Qed.
Lemma elements_elems n st : Forall element st -> Forall element (elems n st).
Proof. intros H. apply Forall_app. split; [apply elements_ups|done]. Qed.

Lemma join_longer ws w : element w -> (length (join ws) < length (join (ws ++ [w])))%nat.
Proof.
  intros [Hw _]. destruct (decide (ws = [])) as [->|Hn]; [destruct w; cbn; [done|lia]|]. rewrite join_snoc, length_app by done. cbn. lia.
Qed.
Lemma join_app_longer ws st : Forall element st -> st <> [] -> (length (join ws) < length (join (ws ++ st)))%nat.
Proof.
  induction st as [|w st IH] using rev_ind; [done|]. intros [H1 H2]%Forall_app _. inversion_clear H2. rewrite app_assoc.
  pose proof (join_longer (ws ++ st) w ltac:(done)). destruct (decide (st = [])) as [->|Hn]; [by rewrite app_nil_r in *|].
  specialize (IH H1 Hn). lia.
Qed.

Lemma render_root rooted : render rooted (0%nat, []) = root_prefix rooted.
Proof. apply app_nil_r. Qed.
Lemma render_longer rooted ups st : Forall element st -> (ups, st) <> (0%nat, []) ->
  (length (root_prefix rooted) < length (render rooted (ups, st)))%nat.
Proof.
  intros He Hn. unfold render. rewrite length_app. cbn [fst snd].
  pose proof (join_app_longer [] (elems ups st) (elements_elems ups st He)) as Hl. cbn [app join length] in Hl.
  assert (elems ups st <> []); [|specialize (Hl ltac:(done)); lia]. unfold elems. intros [H1 ->]%app_nil. by destruct ups.
Qed.

Lemma render_push rooted ups st w : render rooted (ups, st ++ [w]) =
  render rooted (ups, st) ++ (if bool_decide ((ups, st) = (0%nat, [])) then [] else [slash]) ++ w.
Proof.
  unfold render, elems. cbn [fst snd]. rewrite app_assoc. case_bool_decide as E.
  - injection E as -> ->. cbn. by rewrite app_nil_r.
  - rewrite join_snoc; [by rewrite <- app_assoc|]. intros [H1 ->]%app_nil. by destruct ups.
Qed.

(** ** Resolution *)

Lemma resolve_app rooted ws1 ws2 : forall ups st,
  resolve rooted ups st (ws1 ++ ws2) = resolve rooted (resolve rooted ups st ws1).1 (resolve rooted ups st ws1).2 ws2.
Proof. induction ws1 as [|w ws IH]; intros ups st; [done|]. cbn [resolve app]. destruct (decide (w = up)); [destruct st|]; apply IH. Qed.

Lemma resolve_names rooted ups ws : Forall (fun w => w <> up) ws -> forall st, resolve rooted ups st ws = (ups, st ++ ws).
Proof.
  induction 1 as [|w ws Hw _ IH]; intros st; cbn [resolve]; [by rewrite app_nil_r|]. rewrite decide_False, IH by done. by rewrite <- app_assoc.
Qed.

Lemma resolve_ups n : forall ups, resolve false ups [] (replicate n up) = ((ups + n)%nat, []).
Proof.
  induction n as [|n IH]; intros ups; cbn [resolve replicate]; [by rewrite Nat.add_0_r|]. rewrite decide_True, IH by done. f_equal. lia.
Qed.

(** What resolution leaves: names that are not dots, and no way up from the root. *)
Definition proper (w : list Z) : Prop := element w /\ names w /\ w <> up.

Lemma resolve_proper rooted ws : Forall (fun w => element w /\ names w) ws -> forall ups st, Forall proper st -> (rooted = true -> ups = 0%nat) ->
  Forall proper (resolve rooted ups st ws).2 /\ (rooted = true -> (resolve rooted ups st ws).1 = 0%nat).
Proof.
  induction 1 as [|w ws [He Hn] _ IH]; intros ups st Hst Hu; cbn [resolve]; [done|]. destruct (decide (w = up)).
  - destruct st as [|v st]; [apply IH; [constructor|intros ->; auto]|]. apply IH; [|done].
    destruct (exists_last (l := v :: st)) as (st' & u & E); [done|]. rewrite E, removelast_last in *. by apply Forall_app in Hst as [? _].
  - apply IH; [|done]. apply Forall_app. split; [done|]. by apply Forall_singleton.
Qed.

Lemma words_elements s : Forall (fun w => element w /\ names w) (words s).
Proof.
  apply Forall_forall. intros w [Hn Hw]%list_elem_of_filter. pose proof (split_all s) as Hs. rewrite Forall_forall in Hs.
  split; [split; [apply Hn|by apply Hs]|done].
Qed.

(** A path that does not end in a directory leaves its last element. *)
Lemma resolve_file rooted s : names_dir s = false -> render rooted (resolve rooted 0 [] (words s)) <> [].
Proof.
  unfold names_dir, words. destruct (exists_last (split_nonempty s)) as (l & w & ->). rewrite last_snoc. intros Hd%bool_decide_eq_false_1.
  rewrite filter_app, filter_cons_True by (unfold names; tauto). cbn. rewrite resolve_app. cbn [resolve]. rewrite decide_False by tauto.
  rewrite render_push. intros [_ [_ ->]%app_nil]%app_nil. tauto.
Qed.

Section Loops.
Context {B : Type} `{!StringBuffer B} `{!StringBufferLaws (PATH_MAX - 1) B}.

(** The search for the last slash goes back over the last element. *)
Lemma last_elem_loop_eq (out : B) dotdot n : last_elem_loop out dotdot n =
  if Nat.ltb dotdot n then
    c ← contents out !! n;
    if c =? slash then Some n else match n with O => None | S m => last_elem_loop out dotdot m end
  else Some n.
Proof. by destruct n. Qed.

Lemma last_elem_loop_ok (out : B) dotdot q n : (dotdot <= q)%nat -> (dotdot = q \/ contents out !! q = Some slash) ->
  (forall k, (q < k <= q + n)%nat -> exists c, contents out !! k = Some c /\ c <> slash) ->
  last_elem_loop out dotdot (q + n) = Some q.
Proof.
  intros Hd Hb. induction n as [|n IH]; intros Hk; rewrite last_elem_loop_eq.
  - rewrite Nat.add_0_r. destruct (Nat.ltb_spec dotdot q); [|done]. destruct Hb as [->|Hb]; [lia|]. by rewrite Hb.
  - rewrite (proj2 (Nat.ltb_lt dotdot (q + S n))) by lia. destruct (Hk (q + S n)%nat) as (c & -> & Hc); [lia|]. cbn [mbind option_bind].
    rewrite (proj2 (Z.eqb_neq _ _) Hc). replace (q + S n)%nat with (S (q + n)) by lia. apply IH. intros k Hlt. apply Hk. lia.
Qed.

(** Popping the last element. *)
Lemma pop_ok (out : B) dotdot base ws w : no_slash w -> w <> [] -> contents out = base ++ join (ws ++ [w]) ->
  (dotdot <= length (base ++ join ws))%nat -> (ws = [] -> dotdot = length base) ->
  exists l, last_elem_loop out dotdot (length (contents out) - 1) = Some l /\ contents (Resize out l) = base ++ join ws.
Proof.
  intros Hw Hne Hc Hd Hnil. exists (length (base ++ join ws)). assert (Hlw : (0 < length w)%nat) by (destruct w; cbn; [done|lia]).
  assert (Hs : forall c k, w !! k = Some c -> c <> slash) by (intros c k Hk; by apply (Forall_lookup_1 _ _ _ _ Hw Hk)).
  assert (Hin : forall k, (k < length w)%nat -> exists c, w !! k = Some c /\ c <> slash).
  { intros k Hk. destruct (lookup_lt_is_Some_2 w k Hk) as [c Hk']. exists c. split; [done|by eapply Hs]. }
  destruct (decide (ws = [])) as [->|Hws].
  - rewrite app_nil_r in *. cbn [join app] in *. specialize (Hnil eq_refl). split.
    + rewrite Hc, length_app. replace (length base + length w - 1)%nat with (length base + (length w - 1))%nat by lia.
      apply last_elem_loop_ok; [lia|by left|]. intros k Hk. rewrite Hc, lookup_app_r by lia. apply Hin. lia.
    + rewrite Resize_contents, Hc by (rewrite Hc, length_app; lia). by rewrite take_app_length.
  - rewrite join_snoc, app_assoc in Hc by done. set (b := base ++ join ws) in *. split.
    + rewrite Hc, length_app. cbn [length]. replace (length b + S (length w) - 1)%nat with (length b + length w)%nat by lia.
      apply last_elem_loop_ok; [done|right; rewrite Hc; by apply list_lookup_middle|]. intros k Hk. rewrite Hc, lookup_app_r by lia.
      replace (k - length b)%nat with (S (k - length b - 1)) by lia. apply Hin. lia.
    + rewrite Resize_contents, Hc by (rewrite Hc, length_app; lia). by rewrite take_app_length.
Qed.

(** Copying an element. *)
Lemma copy_loop_ok w : forall fuel p r (out : B), no_slash w -> no_nul w -> ends r -> (length w <= fuel)%nat ->
  (length (contents out) <= length p)%nat -> (length p <= PATH_MAX - 1)%nat ->
  if decide (length p + length w <= PATH_MAX - 1)%nat then
    exists out', copy_loop fuel (p ++ w ++ r) (length p) out = Some (true, (length p + length w)%nat, out') /\
      contents out' = contents out ++ w
  else exists i out', copy_loop fuel (p ++ w ++ r) (length p) out = Some (false, i, out').
Proof.
  induction w as [|c w IH]; intros fuel p r out Hs Hn Hr Hf Ho Hp.
  - rewrite decide_True by (cbn [length]; lia). exists out. rewrite app_nil_r. split; [|done]. destruct (char_at_ends r Hr) as (x & Hx & Hsep).
    destruct fuel; cbn [copy_loop app]; rewrite char_at_here, Hx; cbn [mbind option_bind]; rewrite Hsep, Nat.add_0_r; done.
  - apply Forall_cons in Hs as [Hcs Hs], Hn as [Hcn Hn]. destruct fuel as [|fuel]; [cbn in Hf; lia|]. cbn [copy_loop].
    rewrite char_at_here. change (char_at ((c :: w) ++ r) 0) with (Some c). cbn [mbind option_bind]. rewrite not_separator by done.
    unfold can_increment. destruct (Nat.ltb_spec (length p) (PATH_MAX - 1)) as [Hlt|Hge]; cbn [negb].
    + specialize (IH fuel (p ++ [c]) r (Append out c) Hs Hn Hr). rewrite <- app_assoc, length_app in IH. cbn [length app] in IH |- *.
      replace (S (length p)) with (length p + 1)%nat by lia. rewrite Append_contents in IH by lia.
      replace (length p + S (length w))%nat with (length p + 1 + length w)%nat by lia.
      assert (IH' := IH ltac:(cbn in Hf; lia) ltac:(rewrite length_app; cbn; lia) ltac:(lia)).
      destruct (decide _); [|done]. destruct IH' as (out' & -> & Hc). exists out'. by rewrite Hc, <- app_assoc.
    + rewrite decide_False by (cbn [length]; lia). by eexists _, _.
Qed.

(** What the buffer stands for. *)
Definition at_path (rooted : bool) (out : B) (dotdot ups : nat) (st : list (list Z)) : Prop :=
  contents out = render rooted (ups, st) /\ dotdot = length (render rooted (ups, [])) /\ Forall element st /\
  (rooted = true -> ups = 0%nat).

Lemma at_path_dotdot rooted out dotdot ups st : at_path rooted out dotdot ups st ->
  Nat.ltb dotdot (length (contents out)) = negb (bool_decide (st = [])).
Proof.
  intros (-> & -> & He & _). destruct (decide (st = [])) as [->|Hn]; [by rewrite Nat.ltb_irrefl|].
  rewrite bool_decide_eq_false_2 by done. apply Nat.ltb_lt. unfold render, elems. cbn [fst snd]. rewrite !length_app, app_nil_r.
  pose proof (join_app_longer (replicate ups up) st He Hn). lia.
Qed.

Lemma at_path_pop rooted out dotdot ups st w : at_path rooted out dotdot ups (st ++ [w]) ->
  exists l, last_elem_loop out dotdot (length (contents out) - 1) = Some l /\ at_path rooted (Resize out l) dotdot ups st.
Proof.
  intros (Hc & Hd & He & Hr). apply Forall_app in He as [He Hw]. inversion_clear Hw as [|? ? [Hne Hw'] _].
  destruct (pop_ok out dotdot (root_prefix rooted) (elems ups st) w) as (l & Hl & Hc'); [done..| | | |].
  - rewrite Hc. unfold render, elems. cbn [fst snd]. by rewrite app_assoc.
  - rewrite Hd. unfold render, elems. cbn [fst snd]. rewrite !length_app, app_nil_r.
    destruct (decide (st = [])) as [->|Hn]; [by rewrite app_nil_r|]. pose proof (join_app_longer (replicate ups up) st He Hn). lia.
  - unfold elems. intros [Hu _]%app_nil. rewrite Hd. unfold render, elems. cbn [fst snd]. rewrite Hu. cbn [join app]. by rewrite app_nil_r.
  - exists l. split; [done|]. by split_and!.
Qed.

(** There is room for a slash unless nothing was written or the next character ends an
    element. *)
Definition room (p suf : list Z) (out : B) (ups : nat) (st : list (list Z)) : Prop :=
  (length (contents out) <= length p)%nat /\
  ((length (contents out) < length p)%nat \/ (ups, st) = (0%nat, []) \/ ends suf).

(** The slash before an element. *)
Lemma slash_before rooted out dotdot ups st : at_path rooted out dotdot ups st ->
  (rooted && negb (Nat.eqb (length (contents out)) 1)) || (negb rooted && negb (Nat.eqb (length (contents out)) 0)) =
  negb (bool_decide ((ups, st) = (0%nat, []))).
Proof.
  intros (-> & _ & He & _). destruct (decide ((ups, st) = (0%nat, []))) as [E|E].
  - rewrite E, render_root. by destruct rooted.
  - rewrite bool_decide_eq_false_2 by done. pose proof (render_longer rooted ups st He E).
    destruct rooted; cbn [root_prefix length] in *; [rewrite (proj2 (Nat.eqb_neq _ 1)) by lia|rewrite (proj2 (Nat.eqb_neq _ 0)) by lia]; done.
Qed.

(** The outcome of the loop on the rest [suf] of a path. *)
Definition loop_result (rooted : bool) (p suf : list Z) (ups : nat) (st : list (list Z)) (d : bool) (r : option (bool * B * bool)) : Prop :=
  if decide (length p + length suf <= PATH_MAX - 1)%nat then
    exists out', r = Some (true, out', if decide (suf = []) then d else names_dir suf) /\
      contents out' = render rooted (resolve rooted ups st (words suf))
  else exists out' d', r = Some (false, out', d').

(** One element further. *)
Lemma loop_result_next rooted p w suf ups st ups' st' d d' r : no_slash w \/ w = [slash] -> w <> [] -> (w = [slash] \/ ends suf) ->
  d' = bool_decide (w = [slash] \/ w = [dot] \/ w = up) ->
  resolve rooted ups st (words (w ++ suf)) = resolve rooted ups' st' (words suf) ->
  loop_result rooted (p ++ w) suf ups' st' d' r -> loop_result rooted p (w ++ suf) ups st d r.
Proof.
  intros Hw Hne He -> Hres. unfold loop_result. rewrite !length_app, Nat.add_assoc. destruct (decide _); [|done].
  intros (out' & -> & Hc). exists out'. rewrite Hres. split; [|done]. rewrite (decide_False (P := w ++ suf = [])) by (by intros [? _]%app_nil).
  do 2 f_equal. destruct Hw as [Hw| ->].
  - destruct He as [->|He]; [by inversion_clear Hw|]. rewrite names_dir_word by done. destruct (decide (suf = [])); [|done].
    apply bool_decide_ext. assert (w <> [slash]) by (by intros ->; inversion_clear Hw). tauto.
  - cbn [app]. rewrite names_dir_slash. destruct (decide (suf = [])) as [->|]; done.
Qed.

Lemma resolve_skip rooted ups st w suf : no_slash w -> ends suf -> ~ names w ->
  resolve rooted ups st (words (w ++ suf)) = resolve rooted ups st (words suf).
Proof. intros Hw He Hn. by rewrite words_word, decide_False. Qed.
Lemma words_named w suf : no_slash w -> ends suf -> names w -> words (w ++ suf) = w :: words suf.
Proof. intros Hw He Hn. by rewrite words_word, decide_True. Qed.

Lemma at_path_push rooted out dotdot ups st w out' : at_path rooted out dotdot ups st -> element w ->
  contents out' = contents out ++ (if bool_decide ((ups, st) = (0%nat, [])) then [] else [slash]) ++ w ->
  at_path rooted out' dotdot ups (st ++ [w]).
Proof.
  intros (Hc & Hd & He & Hr) Hw Ho. split_and!; [by rewrite render_push, Ho, Hc|done| |done]. apply Forall_app. split; [done|by apply Forall_singleton].
Qed.
Lemma at_path_up rooted out dotdot ups out' : at_path rooted out dotdot ups [] -> rooted = false ->
  contents out' = contents out ++ (if bool_decide (ups = 0%nat) then [] else [slash]) ++ up ->
  at_path rooted out' (length (contents out')) (S ups) [].
Proof.
  intros (Hc & Hd & He & Hr) -> Ho. assert (Hc' : contents out' = render false (S ups, [])).
  { rewrite Ho, Hc. unfold render, elems, root_prefix. cbn [fst snd app]. rewrite !app_nil_r.
    replace (replicate (S ups) up) with (replicate ups up ++ [up]) by (by rewrite <- replicate_cons_app).
    case_bool_decide as E; [by subst|]. by rewrite join_snoc by (by destruct ups). }
  split_and!; [done|by rewrite Hc'|constructor|done].
Qed.

(** The loop is resolution. *)
Definition loop_ok (fuel : nat) (rooted : bool) : Prop := forall p suf (out : B) dotdot ups st d,
  at_path rooted out dotdot ups st -> no_nul suf -> (length suf <= fuel)%nat -> (length p <= PATH_MAX - 1)%nat -> room p suf out ups st ->
  loop_result rooted p suf ups st d (clean_loop fuel (p ++ suf) rooted (length p) out dotdot d).

(** After an element and before its end there is room. *)
Lemma loop_after fuel rooted p w suf (out : B) dotdot ups st d n : loop_ok fuel rooted -> at_path rooted out dotdot ups st ->
  no_nul suf -> (length suf <= fuel)%nat -> n = length w -> (length p + n <= PATH_MAX - 1)%nat ->
  (length (contents out) <= length p + n)%nat -> (length (contents out) < length p + n)%nat \/ ends suf ->
  loop_result rooted (p ++ w) suf ups st d (clean_loop fuel (p ++ w ++ suf) rooted (length p + n) out dotdot d).
Proof.
  intros IH Hat Hnn Hf -> Hl Ho Hr. rewrite app_assoc, <- length_app. apply IH; [done..|by rewrite length_app|].
  split; rewrite length_app; [done|tauto].
Qed.

Lemma step_up fuel rooted p suf out dotdot ups st d : loop_ok fuel rooted -> at_path rooted out dotdot ups st -> no_nul suf ->
  (length suf <= fuel)%nat -> (length p + 2 <= PATH_MAX - 1)%nat -> ends suf -> room p (up ++ suf) out ups st ->
  loop_result rooted p (up ++ suf) ups st d
    (if Nat.ltb dotdot (length (contents out)) then
       last_elem ← last_elem_loop out dotdot (length (contents out) - 1);
       clean_loop fuel (p ++ up ++ suf) rooted (length p + 2) (Resize out last_elem) dotdot true
     else if rooted then clean_loop fuel (p ++ up ++ suf) rooted (length p + 2) out dotdot true
     else
       let out := if Nat.ltb 0 (length (contents out)) then Append out slash else out in
       let out := AppendView out [dot; dot] in
       clean_loop fuel (p ++ up ++ suf) rooted (length p + 2) out (length (contents out)) true).
Proof.
  intros IH Hat Hnn Hf Hl He [Hr1 Hr2]. pose proof (proj2 element_up) as Hup.
  assert (Hw : words (up ++ suf) = up :: words suf) by (by apply words_named).
  rewrite (at_path_dotdot rooted out dotdot ups st Hat). destruct (decide (st = [])) as [->|Hst].
  - rewrite bool_decide_eq_true_2 by done. cbn [negb]. destruct rooted.
    + eapply (loop_result_next true p up suf ups [] ups []); [by left|done|by right|done|by rewrite Hw|].
      apply loop_after; (done || lia || auto).
    + assert (Hrm : (length (contents out) < length p)%nat \/ ups = 0%nat).
      { destruct Hr2 as [?|[[= ?]|[?|[r ?]]]]; [by left|by right|done|done]. }
      set (o1 := if Nat.ltb 0 _ then _ else _). assert (Ho1 : contents o1 = contents out ++ if bool_decide (ups = 0%nat) then [] else [slash]).
      { pose proof (proj1 Hat) as Hc. unfold o1. case_bool_decide as E.
        - subst ups. change (render false (0%nat, [])) with (@nil Z) in Hc. rewrite Hc. exact Hc.
        - pose proof (render_longer false ups [] ltac:(constructor) ltac:(congruence)). rewrite Hc, (proj2 (Nat.ltb_lt _ _)) by lia.
          rewrite Append_contents, Hc by (rewrite Hc in *; destruct Hrm; [lia|done]). done. }
      assert (Hl1 : (length (contents o1) <= length p)%nat) by (rewrite Ho1, length_app; destruct Hrm as [?| ->]; case_bool_decide; cbn [length]; (lia || done)).
      assert (Ho2 : contents (AppendView o1 [dot; dot]) = contents o1 ++ up) by (apply (AppendView_contents (N := PATH_MAX - 1)); unfold up; cbn [length up]; lia).
      eapply (loop_result_next false p up suf ups [] (S ups) []); [by left|done|by right|done|by rewrite Hw|].
      apply loop_after; try done; [|rewrite Ho2, length_app; cbn [length up]; lia|by right].
      eapply at_path_up; [done..|]. by rewrite Ho2, Ho1, <- app_assoc.
  - rewrite bool_decide_eq_false_2 by done. cbn [negb]. destruct (exists_last Hst) as (st' & w & ->).
    destruct (at_path_pop rooted out dotdot ups st' w Hat) as (l & -> & Hat'). cbn [mbind option_bind].
    eapply (loop_result_next rooted p up suf ups (st' ++ [w]) ups st'); [by left|done|by right|done| |].
    + rewrite Hw. cbn [resolve]. rewrite decide_True, removelast_last by done. by destruct st'.
    + apply loop_after; try done; [|by right]. destruct Hat as (Hc & _), Hat' as (Hc' & _). rewrite Hc' in *. rewrite Hc, render_push, length_app in Hr1. lia.
Qed.

Lemma step_word fuel rooted p w suf out dotdot ups st d len : loop_ok fuel rooted -> at_path rooted out dotdot ups st -> no_nul suf ->
  (length suf <= fuel)%nat -> (length p <= PATH_MAX - 1)%nat -> ends suf -> room p (w ++ suf) out ups st ->
  element w -> no_nul w -> w <> [dot] -> w <> up -> (length w <= len)%nat ->
  loop_result rooted p (w ++ suf) ups st d
    (let out :=
       if (rooted && negb (Nat.eqb (length (contents out)) 1)) || (negb rooted && negb (Nat.eqb (length (contents out)) 0))
       then Append out slash else out in
     '(ok, i, out) ← copy_loop len (p ++ w ++ suf) (length p) out;
     if (ok : bool) then clean_loop fuel (p ++ w ++ suf) rooted i out dotdot false else Some (false, out, false)).
Proof.
  intros IH Hat Hnn Hf Hl He [Hr1 Hr2] [Hne Hs] Hn Hd Hu Hlen. rewrite (slash_before rooted out dotdot ups st Hat). cbv zeta.
  set (o1 := if negb _ then _ else _).
  assert (Ho1 : contents o1 = contents out ++ (if bool_decide ((ups, st) = (0%nat, [])) then [] else [slash]) /\
                (length (contents o1) <= length p)%nat).
  { unfold o1. case_bool_decide as E; cbn [negb]; [by rewrite app_nil_r|]. assert (length (contents out) < length p)%nat.
    { destruct Hr2 as [?|[?|[[? _]%app_nil|[r Hx]]]]; [done..|]. destruct w as [|c w]; [done|]. cbn in Hx. injection Hx as -> _. by inversion_clear Hs. }
    rewrite (Append_contents (N := PATH_MAX - 1)) by lia. rewrite length_app. cbn [length]. split; [done|lia]. }
  destruct Ho1 as [Ho1 Hl1]. clearbody o1.
  pose proof (copy_loop_ok w len p suf o1 Hs Hn He Hlen Hl1 ltac:(lia)) as Hcp. destruct (decide _) as [Hfit|Hfit].
  - destruct Hcp as (out' & -> & Hc). cbn [mbind option_bind].
    eapply (loop_result_next rooted p w suf ups st ups (st ++ [w])); [by left|done|by right| | |].
    + symmetry. apply bool_decide_eq_false_2. intros [-> |[-> | ->]]; [by inversion_clear Hs|done..].
    + rewrite words_named by done. cbn [resolve]. by rewrite decide_False.
    + apply loop_after; try done; [eapply at_path_push; [done..|by rewrite Hc, Ho1, <- app_assoc]|rewrite Hc, length_app; lia|by right].
  - destruct Hcp as (i & out' & ->). cbn [mbind option_bind]. unfold loop_result. rewrite decide_False by (rewrite length_app; lia). by eexists _, _.
Qed.

Lemma loop_too_long rooted p suf ups st d (out : B) d' : (PATH_MAX - 1 < length p + length suf)%nat ->
  loop_result rooted p suf ups st d (Some (false, out, d')).
Proof. intros H. unfold loop_result. rewrite decide_False by lia. by eexists _, _. Qed.

Lemma clean_loop_ok rooted fuel : loop_ok fuel rooted.
Proof.
  induction fuel as [|fuel IH]; intros p suf out dotdot ups st d Hat Hnn Hf Hp Hr.
  all: destruct suf as [|c suf]; cbn [clean_loop]; rewrite char_at_here; [|try (cbn in Hf; lia)].
  1, 2: unfold loop_result; rewrite decide_True by (cbn [length]; lia); exists out; split; [done|apply Hat].
  apply Forall_cons in Hnn as [Hc0 Hnn]. change (char_at (c :: suf) 0) with (Some c). cbn [mbind option_bind].
  rewrite (proj2 (Z.eqb_neq _ _) Hc0). cbn [length] in Hf. unfold can_increment. destruct (Z.eqb_spec c slash) as [->|Hcs].
  { destruct (Nat.ltb_spec (length p) (PATH_MAX - 1)); cbn [negb]; [|apply loop_too_long; cbn [length]; lia].
    apply (loop_result_next rooted p [slash] suf ups st ups st d true); [by right|done|by left|done|by cbn [app]; rewrite words_slash|].
    destruct Hr as [Hr _]. apply loop_after; (done || lia || (left; lia)). }
  destruct (take_word suf) as (w & r & -> & Hws & Hre). apply Forall_app in Hnn as [Hwn Hrn]. rewrite length_app in Hf.
  assert (Hs : no_slash (c :: w)) by (by constructor). assert (Hn : no_nul (c :: w)) by (by constructor).
  change (c :: w ++ r) with ((c :: w) ++ r) in *. rewrite is_dot_word by done. cbn [mbind option_bind]. case_bool_decide as Ed.
  { rewrite Ed. destruct (Nat.ltb_spec (length p) (PATH_MAX - 1)); cbn [negb]; [|apply loop_too_long; rewrite length_app; cbn [length]; lia].
    destruct Hr as [Hr _]. apply (loop_result_next rooted p [dot] r ups st ups st d true); [left; by rewrite <- Ed|done|by right|done| |].
    - apply resolve_skip; [by rewrite <- Ed|done|by intros [_ []]].
    - apply loop_after; (done || lia || (left; lia)). }
  rewrite is_dotdot_word by done. cbn [mbind option_bind]. case_bool_decide as Eu.
  { rewrite Eu in *. destruct (Nat.ltb_spec (length p + 1) (PATH_MAX - 1)); cbn [negb]; [|apply loop_too_long; rewrite length_app; cbn [length up]; lia].
    apply step_up; (done || lia). }
  apply step_word; try done; try lia. rewrite !length_app. cbn [length]. lia.
Qed.
End Loops.

(** ** Correctness *)

Section Correct.
Context {B : Type} `{!StringBuffer B} `{!StringBufferLaws (PATH_MAX - 1) B}.

(** The end of the function, on the result of the loop. *)
Lemma finish_ok rooted p suf d (r : option (bool * B * bool)) : loop_result rooted p suf 0 [] d r ->
  is_rooted (p ++ suf) = rooted -> words (p ++ suf) = words suf -> names_dir (p ++ suf) = (if decide (suf = []) then d else names_dir suf) ->
  let result :=
    '(ok, out, is_dir) ← r;
    if (ok : bool) then
      if Nat.eqb (length (contents out)) 0 then Some (true, Append out dot, true) else Some (true, out, is_dir)
    else Some (false, out, is_dir) in
  if decide (length (p ++ suf) <= PATH_MAX - 1)%nat then
    exists out', result = Some (true, out', names_dir (p ++ suf)) /\ contents out' = clean (p ++ suf)
  else exists out' d', result = Some (false, out', d').
Proof.
  intros Hl HR HW HD. unfold loop_result in Hl. rewrite length_app. destruct (decide _) as [Hfit|]; [|destruct Hl as (out' & d' & ->); by eexists _, _].
  destruct Hl as (out' & -> & Hc). cbn [mbind option_bind]. rewrite <- HD, <- HW, <- HR in *. unfold clean.
  pose proof (resolve_file (is_rooted (p ++ suf)) (p ++ suf)) as Hf. rewrite Hc. destruct (decide (render _ _ = [])) as [E|E].
  - rewrite E in *. cbn [length Nat.eqb]. exists (Append out' dot). destruct (names_dir (p ++ suf)); [|by destruct Hf].
    rewrite (Append_contents (N := PATH_MAX - 1)), Hc by (rewrite Hc; apply Nat.ltb_lt; reflexivity). done.
  - destruct (render _ _) eqn:Er; [done|]. exists out'. by rewrite Hc.
Qed.

Lemma CleanPath_ok s (out : B) d : no_nul s -> contents out = [] ->
  if decide (length s <= PATH_MAX - 1)%nat then
    exists out', CleanPath s out d = Some (true, out', names_dir s) /\ contents out' = clean s
  else exists out' d', CleanPath s out d = Some (false, out', d').
Proof.
  intros Hn Ho. assert (Hmax : (2 <= PATH_MAX - 1)%nat) by (apply Nat.leb_le; reflexivity). unfold CleanPath. destruct s as [|c s].
  { rewrite decide_True by (cbn [length]; lia). exists (SetTo out [dot]). split; [done|].
    by rewrite (SetTo_contents (N := PATH_MAX - 1)) by (cbn [length]; lia). }
  change (char_at (c :: s) 0) with (Some c). cbn [mbind option_bind]. pose proof Hn as [Hc Hns]%Forall_cons. rewrite (proj2 (Z.eqb_neq _ _) Hc).
  destruct (Z.eqb_spec c slash) as [->|Hs]; cbv zeta.
  - assert (Ho1 : contents (Append out slash) = [slash]) by (rewrite (Append_contents (N := PATH_MAX - 1)), Ho by (rewrite Ho; cbn [length]; lia); done).
    apply (finish_ok true [slash] s true); [|done|apply words_slash|cbn [app]; rewrite names_dir_slash; by destruct (decide (s = [])) as [->|]].
    apply (clean_loop_ok true (length (slash :: s)) [slash] s); [by rewrite Ho1|done|cbn [length]; lia|cbn [length]; lia|].
    split; [by rewrite Ho1|by right; left].
  - apply (finish_ok false [] (c :: s) d); [|by apply bool_decide_eq_false_2; cbn; congruence|done|done].
    apply (clean_loop_ok false (length (c :: s)) [] (c :: s)); [by rewrite Ho|done|done|cbn [length]; lia|].
    split; [by rewrite Ho|by right; left].
Qed.
End Correct.

(** ** Clean paths *)

Lemma join_head ws w : element w -> head (join (w :: ws)) = head w.
Proof. intros [Hw _]. destruct w as [|c w]; [done|]. by destruct ws. Qed.

Lemma words_join ws : Forall (fun w => element w /\ names w) ws -> words (join ws) = ws.
Proof.
  intros Hw. destruct (decide (ws = [])) as [->|Hn]; [done|]. unfold words. rewrite split_join; [|done|by eapply Forall_impl; [done|intros ? [[] ?]]].
  clear Hn. induction Hw as [|w ws [_ Hw] _ IH]; [done|]. by rewrite filter_cons_True, IH by done.
Qed.

Lemma proper_elems ups st : Forall proper st -> Forall (fun w => element w /\ names w) (elems ups st).
Proof.
  intros Hst. apply Forall_app. split; [by apply Forall_replicate; split; [apply element_up|]|].
  eapply Forall_impl; [done|]. unfold proper. tauto.
Qed.

Lemma render_rooted rooted ups st : Forall (fun w => element w /\ names w) (elems ups st) -> render rooted (ups, st) <> [] ->
  is_rooted (render rooted (ups, st)) = rooted.
Proof.
  unfold is_rooted, render. intros He Hne. destruct rooted; [done|]. apply bool_decide_eq_false_2. cbn [root_prefix app fst snd] in *.
  destruct (elems ups st) as [|w ws]; [done|]. apply Forall_cons in He as [[Hw _] _]. rewrite join_head by done.
  destruct Hw as [Hw Hs]. destruct w; [done|]. cbn. intros [= ->]. by inversion_clear Hs.
Qed.

(** Clean paths resolve to themselves. *)
Lemma render_clean rooted ups st : Forall proper st -> (rooted = true -> ups = 0%nat) -> render rooted (ups, st) <> [] ->
  clean (render rooted (ups, st)) = render rooted (ups, st).
Proof.
  intros Hst Hu Hne. pose proof (proper_elems ups st Hst) as He.
  unfold clean. rewrite (render_rooted rooted ups st He Hne). assert (HW : words (render rooted (ups, st)) = elems ups st).
  { unfold render. destruct rooted; cbn [root_prefix app fst snd]; rewrite ?words_slash; by apply words_join. }
  rewrite HW. assert (HE : resolve rooted 0 [] (elems ups st) = (ups, st)).
  { unfold elems. rewrite resolve_app. assert (Hp : resolve rooted 0 [] (replicate ups up) = (ups, [])).
    { destruct rooted; [by rewrite Hu by done|apply resolve_ups]. }
    rewrite Hp. cbn [fst snd]. apply resolve_names. eapply Forall_impl; [done|]. unfold proper. tauto. }
  rewrite HE. by rewrite decide_False.
Qed.

(** A clean path: the root or nothing, then ways up unless it starts at the root, then names
    none of which is empty, a dot or two; or a single dot for nothing. *)
Definition canonical (rooted : bool) (p : list Z) : Prop :=
  (rooted = false /\ p = [dot]) \/
  (p <> [] /\ exists ups st, p = render rooted (ups, st) /\ Forall proper st /\ (rooted = true -> ups = 0%nat)).

Lemma clean_canonical s : canonical (is_rooted s) (clean s) /\ clean (clean s) = clean s.
Proof.
  destruct (resolve_proper (is_rooted s) (words s) (words_elements s) 0 []) as [Hst Hu]; [constructor|done|].
  destruct (resolve (is_rooted s) 0 [] (words s)) as [ups st] eqn:Er. cbn [fst snd] in Hst, Hu.
  assert (Hc : clean s = if decide (render (is_rooted s) (ups, st) = []) then [dot] else render (is_rooted s) (ups, st)) by (unfold clean; by rewrite Er).
  destruct (decide (render (is_rooted s) (ups, st) = [])) as [E|E]; rewrite Hc.
  - split; [|done]. left. by destruct (is_rooted s).
  - split; [|by apply render_clean]. right. split; [done|]. by exists ups, st.
Qed.

(** C26.  Cleaning a path into an empty buffer.  A path of at most [PATH_MAX - 1] characters
    becomes its lexical resolution, in full: the root or nothing, then ways up unless it
    starts at the root, then names; cleaning that again would change nothing.  The flag says
    whether the path ends in a slash, a dot or two.  A longer path is refused, and no path
    is read past its NUL. *)
Theorem CleanPath_correct {B : Type} `{!StringBuffer B} `{!StringBufferLaws (PATH_MAX - 1) B} s (out : B) d :
  no_nul s -> contents out = [] ->
  if decide (length s <= PATH_MAX - 1)%nat then
    exists out', CleanPath s out d = Some (true, out', names_dir s) /\
      contents out' = clean s /\ canonical (is_rooted s) (contents out') /\ clean (contents out') = contents out'
  else exists out' d', CleanPath s out d = Some (false, out', d').
Proof.
  intros Hn Ho. pose proof (CleanPath_ok s out d Hn Ho) as H. destruct (decide _); [|done]. destruct H as (out' & H & Hc).
  exists out'. rewrite Hc. destruct (clean_canonical s). by split_and!.
Qed.

(** A buffer that cuts off what does not fit. *)
Module CuttingBuffer.
#[export] Instance buffer : StringBuffer (list Z) := {|
  contents b := b;
  Append b c := take (PATH_MAX - 1) (b ++ [c]);
  AppendView b s := take (PATH_MAX - 1) (b ++ s);
  Resize b n := take n b;
  SetTo b s := take (PATH_MAX - 1) s;
|}.
#[export] Instance buffer_laws : StringBufferLaws (PATH_MAX - 1) (list Z).
Proof.
  split; cbn; intros; [rewrite take_ge; [done|rewrite length_app; cbn [length]; lia]|rewrite take_ge; [done|rewrite length_app; lia]|done|by apply take_ge].
Qed.
End CuttingBuffer.

Lemma CleanPath_correct_witness :
  let s := chars "../a/./b//../../../c" in
  (exists out', CleanPath (B := list Z) (H := CuttingBuffer.buffer) s [] true = Some (true, out', false) /\ out' = chars "../../c") /\
  CleanPath (B := list Z) (H := CuttingBuffer.buffer) (chars "/../x/") [] false = Some (true, chars "/x", true).
Proof.
  intros s. split; [|reflexivity].
  assert (Hn : no_nul s) by (unfold no_nul; apply (bool_decide_unpack _); vm_compute; exact I).
  pose proof (@CleanPath_correct (list Z) CuttingBuffer.buffer CuttingBuffer.buffer_laws s [] true Hn eq_refl) as H.
  rewrite decide_True in H by (apply Nat.leb_le; reflexivity). destruct H as (out' & H & Hc & _). exists out'. split; [exact H|exact Hc].
Defined.
