(* ===== verification/OrderedMap.v ===== *)
(** * Ordered maps

    The ordered containers of the source that are not part of the repository (std::map and the
    trees of fbl) as lists in the order of their keys, with the lemmas on them that the
    components share. *)

From stdpp Require Import sets sorting.
From S2P Require Import Prelude.

(** ** Operations *)

Section Container.
Context {K V : Type} `{EqDecision K} (ltb : K -> K -> bool).

Fixpoint tree_insert (k : K) (v : V) (l : list (K * V)) : list (K * V) :=
  match l with
  | [] => [(k, v)]
  | e :: l' => if ltb k e.1 then (k, v) :: l else e :: tree_insert k v l'
  end.
Fixpoint tree_find (k : K) (l : list (K * V)) : option V :=
  match l with
  | [] => None
  | e :: l' => if decide (e.1 = k) then Some e.2 else tree_find k l'
  end.
Fixpoint tree_erase (k : K) (l : list (K * V)) : list (K * V) :=
  match l with
  | [] => []
  | e :: l' => if decide (e.1 = k) then l' else e :: tree_erase k l'
  end.
(** Writing through an iterator. *)
Fixpoint tree_set (k : K) (v : V) (l : list (K * V)) : list (K * V) :=
  match l with
  | [] => []
  | e :: l' => if decide (e.1 = k) then (k, v) :: l' else e :: tree_set k v l'
  end.
End Container.

(** ** Lemmas *)

(** What a key type owes a container: a strict total order. *)
Class StrictOrder {K : Type} (ltb : K -> K -> bool) : Prop := {
  ltb_irrefl k : ltb k k = false;
  ltb_trans a b c : ltb a b = true -> ltb b c = true -> ltb a c = true;
  ltb_total a b : ltb a b = false -> a <> b -> ltb b a = true;
}.

#[export] Instance id_order : StrictOrder Z.ltb.
Proof. split; intros; lia. Qed.

Lemma StronglySorted_sublist {A} (R : A -> A -> Prop) (l1 l2 : list A) : l1 `sublist_of` l2 -> StronglySorted R l2 -> StronglySorted R l1.
Proof.
  induction 1 as [|x l1 l2 Hs IH|x l1 l2 Hs IH]; [done| |].
  - intros [H1 H2]%StronglySorted_inv. constructor; [auto|]. rewrite Forall_forall in *. intros y Hy. apply H2. by eapply elem_of_sublist.
  - intros [H1 H2]%StronglySorted_inv. auto.
Qed.

Section ContainerLemmas.
Context {K V : Type} `{EqDecision K}.
Implicit Types l : list (K * V).

Lemma tree_find_In k l v : tree_find k l = Some v -> (k, v) ∈ l.
Proof.
  induction l as [|[k' v'] l IH]; simpl; [done|]. case_decide; [intros [= ->]; subst; left | intros; right; auto].
Qed.

Lemma tree_find_None k l : tree_find k l = None <-> k ∉ l.*1.
Proof.
  induction l as [|[k' v'] l IH]; simpl; [split; [by intros _ ?%elem_of_nil | done]|]. rewrite not_elem_of_cons.
  case_decide as D; simpl in D; [subst; split; [done | by intros [[] _]]|].
  rewrite IH. split; [auto | by intros [_ ?]].
Qed.

Lemma NoDup_keys_eq l k v v' : NoDup l.*1 -> (k, v) ∈ l -> (k, v') ∈ l -> v = v'.
Proof.
  induction l as [|[k' w] l IH]; simpl; [set_solver|]. intros [Hk Hnd]%NoDup_cons.
  rewrite !elem_of_cons. intros [?|H1] [?|H2]; simplify_eq; [done| | |eauto].
  - destruct Hk. apply list_elem_of_fmap. by exists (k', v').
  - destruct Hk. apply list_elem_of_fmap. by exists (k', v).
Qed.

Lemma tree_find_iff k l v : NoDup l.*1 -> tree_find k l = Some v <-> (k, v) ∈ l.
Proof.
  intros Hnd. split; [apply tree_find_In|]. intros Hin.
  destruct (tree_find k l) as [w|] eqn:E.
  - f_equal. eapply NoDup_keys_eq; [done| |done]. by apply tree_find_In.
  - apply tree_find_None in E. destruct E. apply list_elem_of_fmap. by exists (k, v).
Qed.

Lemma tree_erase_perm k v l : NoDup l.*1 -> (k, v) ∈ l -> l ≡ₚ (k, v) :: tree_erase k l.
Proof.
  induction l as [|[k' v'] l IH]; simpl; [set_solver|]. intros [Hk Hnd]%NoDup_cons Hin.
  case_decide as D; simpl in D.
  - subst. rewrite elem_of_cons in Hin. destruct Hin as [[= ->]|Hin]; [done|].
    destruct Hk. apply list_elem_of_fmap. by exists (k, v).
  - rewrite elem_of_cons in Hin. destruct Hin as [[= -> ->]|Hin]; [done|].
    rewrite (IH Hnd Hin) at 1. apply Permutation_swap.
Qed.

Lemma tree_set_keys k v l : (tree_set k v l).*1 = l.*1.
Proof. induction l as [|[k' v'] l IH]; simpl; [done|]. case_decide as D; simpl in *; [by rewrite D|by f_equal]. Qed.

Lemma tree_set_perm k v l : k ∈ l.*1 -> tree_set k v l ≡ₚ (k, v) :: tree_erase k l.
Proof.
  induction l as [|[k' v'] l IH]; simpl; [by intros ?%elem_of_nil|]. intros Hk. case_decide as D; simpl in D; [done|].
  apply elem_of_cons in Hk as [->|Hk]; [done|]. rewrite (IH Hk). apply Permutation_swap.
Qed.

Lemma tree_erase_sublist k l : tree_erase k l `sublist_of` l.
Proof. induction l as [|[k' v'] l IH]; simpl; [done|]. case_decide; [by apply sublist_cons|by apply sublist_skip]. Qed.

Lemma tree_erase_In k l e : NoDup l.*1 -> e ∈ tree_erase k l <-> e ∈ l /\ e.1 <> k.
Proof.
  induction l as [|[k' v'] l IH]; simpl; [set_solver|]. intros [Hk Hnd]%NoDup_cons.
  case_decide as D; simpl in D.
  - subst. rewrite elem_of_cons. split; [|intros [[->|?] ?]; done].
    intros He. split; [by right|]. intros <-. destruct Hk. apply list_elem_of_fmap. eauto.
  - rewrite !elem_of_cons, IH by done. split; [intros [->|[??]]; auto|]. intros [[->|?] ?]; auto.
Qed.

Context (ltb : K -> K -> bool) `{!StrictOrder ltb}.

Definition ordered l : Prop := StronglySorted (fun a b => ltb a b = true) l.*1.

Lemma ordered_NoDup l : ordered l -> NoDup l.*1.
Proof.
  unfold ordered. induction l as [|[k v] l IH]; simpl; [constructor|]. intros [Hs Hf]%StronglySorted_inv.
  constructor; [|auto]. intros Hin. rewrite Forall_forall in Hf. specialize (Hf k Hin). by rewrite ltb_irrefl in Hf.
Qed.

Lemma tree_insert_perm k v l : tree_insert ltb k v l ≡ₚ (k, v) :: l.
Proof. induction l as [|e l IH]; simpl; [done|]. case_match; [done|]. rewrite IH. apply Permutation_swap. Qed.

Lemma tree_insert_In k v l e : e ∈ tree_insert ltb k v l <-> e = (k, v) \/ e ∈ l.
Proof. rewrite (tree_insert_perm k v l). apply elem_of_cons. Qed.

Lemma tree_insert_ordered k v l : ordered l -> k ∉ l.*1 -> ordered (tree_insert ltb k v l).
Proof.
  unfold ordered. induction l as [|[k' v'] l IH]; simpl; [repeat constructor|].
  intros [Hs Hf]%StronglySorted_inv Hk. rewrite not_elem_of_cons in Hk. destruct Hk as [Hne Hk].
  destruct (ltb k k') eqn:E; simpl.
  - repeat constructor; try done. apply Forall_impl with (1 := Hf). intros a Ha. by eapply ltb_trans.
  - constructor; [by apply IH|]. apply Forall_forall. intros a (e & -> & He)%list_elem_of_fmap.
    apply tree_insert_In in He as [->|He]; [by apply ltb_total|].
    rewrite Forall_forall in Hf. apply Hf, list_elem_of_fmap. eauto.
Qed.

Lemma tree_erase_ordered k l : ordered l -> ordered (tree_erase k l).
Proof. apply StronglySorted_sublist. unfold ordered. apply (fmap_sublist fst), tree_erase_sublist. Qed.
End ContainerLemmas.

Lemma tree_find_insert {K V : Type} `{EqDecision K} (ltb : K -> K -> bool) k (v : V) l j : k ∉ l.*1 ->
  tree_find j (tree_insert ltb k v l) = if decide (j = k) then Some v else tree_find j l.
Proof.
  induction l as [|[k' v'] l IH]; simpl.
  - intros _. destruct (decide (k = j)), (decide (j = k)); congruence.
  - rewrite not_elem_of_cons. intros [Hne Hk]. destruct (ltb k k'); simpl; [destruct (decide (k = j)), (decide (j = k)); congruence|].
    destruct (decide (k' = j)) as [->|]; [by rewrite decide_False|]. auto.
Qed.
