(* ===== verification/Vnode.v ===== *)
(** * The nodes of the local namespace

    Models src/fdio/namespace/local-vnode.cc and local-vnode.h: the tree in which fdio keeps
    what is bound where.  Nodes are shared: a directory that is open keeps its node after the
    node was taken out of the tree.  So nodes live in a store and are known by their index; a
    node that nobody refers to stays in the store and has no effect.  The two containers of
    children (fbl::TaggedWAVLTree, outside the repository) are lists in the order of their
    keys. *)

From S2P Require Import Prelude OrderedMap CleanPath.

(** Status codes of <zircon/errors.h>. *)
Definition ZX_OK : Z := 0.
Definition ZX_ERR_NOT_SUPPORTED : Z := -2.
Definition ZX_ERR_INVALID_ARGS : Z := -10.
Definition ZX_ERR_BAD_HANDLE : Z := -11.
Definition ZX_ERR_NOT_FOUND : Z := -25.
Definition ZX_ERR_ALREADY_EXISTS : Z := -26.
Definition ZX_ERR_NOT_DIR : Z := -36.
Definition ZX_ERR_BAD_PATH : Z := -50.

(** ** Names *)

(** Strings are compared byte by byte. *)
Fixpoint name_ltb (a b : list Z) : bool :=
  match a, b with
  | _, [] => false
  | [], _ :: _ => true
  | x :: a, y :: b => if x <? y then true else if y <? x then false else name_ltb a b
  end.

(** ** Nodes *)

Abbreviation vref := nat (only parsing).

(** An entry has an id and a node; its name is the node's, which never changes.  What
    [on_open_] and [context_] point to, and a remote connection, are known by numbers. *)
Inductive node_type :=
| Local (on_open_ : option (Z * Z))
| Intermediate (next_node_id_ : Z) (entries_by_name_ : list (list Z * (Z * vref))) (entries_by_id_ : list (Z * vref))
| Remote (remote_storage_ : Z).

Record LocalVnode := { node_type_ : node_type; parent_ : option vref; name_ : list Z }.

(** The store and the root of the namespace. *)
Record fs := { nodes : list LocalVnode; root_ : vref }.
Abbreviation M := (ST fs).

Definition with_nodes (f : list LocalVnode -> list LocalVnode) (s : fs) : fs := {| nodes := f (nodes s); root_ := root_ s |}.
Definition set_root (v : vref) : M unit := modify (fun s => {| nodes := nodes s; root_ := v |}).
Definition get_root : M vref := gets root_.

Definition node (v : vref) : M LocalVnode := fun s => n ← nodes s !! v; Some (n, s).
Definition set_type (v : vref) (t : node_type) : M unit :=
  n ← node v;
  modify (with_nodes (<[v := {| node_type_ := t; parent_ := parent_ n; name_ := name_ n |}]>)).
Definition set_parent (v : vref) (p : option vref) : M unit :=
  n ← node v;
  modify (with_nodes (<[v := {| node_type_ := node_type_ n; parent_ := p; name_ := name_ n |}]>)).
Definition new_node (n : LocalVnode) : M vref := fun s => Some (length (nodes s), with_nodes (fun l => l ++ [n]) s).

(** ** Children *)

Definition Lookup (entries_by_name : list (list Z * (Z * vref))) (name : list Z) : option vref :=
  match tree_find name entries_by_name with Some (_, v) => Some v | None => None end.

(** The assertion that the name is new, and two insertions. *)
Definition AddEntry (v : vref) (next_node_id : Z) entries_by_name entries_by_id (vn : vref) : M unit :=
  n ← node vn;
  match tree_find (name_ n) entries_by_name with
  | Some _ => undefined
  | None =>
      set_type v (Intermediate (next_node_id ⊕[64] 1)
        (tree_insert name_ltb (name_ n) (next_node_id, vn) entries_by_name)
        (tree_insert Z.ltb next_node_id vn entries_by_id))
  end.

Definition AddChild (v child : vref) : M Z :=
  n ← node v;
  match node_type_ n with
  | Local _ => mret ZX_ERR_NOT_DIR
  | Intermediate next by_name by_id => AddEntry v next by_name by_id child ;; mret ZX_OK
  | Remote _ => mret ZX_ERR_BAD_PATH
  end.

Definition RemoveEntry (v : vref) (next_node_id : Z) entries_by_name entries_by_id (vn : vref) : M unit :=
  n ← node vn;
  match tree_find (name_ n) entries_by_name with
  | Some (id, c) =>
      if decide (c = vn) then set_type v (Intermediate next_node_id (tree_erase (name_ n) entries_by_name) (tree_erase id entries_by_id))
      else mret tt
  | None => mret tt
  end.

Definition RemoveChild (v child : vref) : M Z :=
  n ← node v;
  match node_type_ n with
  | Local _ => mret ZX_ERR_NOT_FOUND
  | Intermediate next by_name by_id => RemoveEntry v next by_name by_id child ;; mret ZX_OK
  | Remote _ => mret ZX_ERR_BAD_PATH
  end.

(** Creation: a node, and the entry in its parent, if any.  A node that could not be entered
    is dropped. *)
Definition Create (parent : option vref) (name : list Z) (t : node_type) : M (Z * vref) :=
  vn ← new_node {| node_type_ := t; parent_ := parent; name_ := name |};
  match parent with
  | Some p => status ← AddChild p vn; mret (status, vn)
  | None => mret (ZX_OK, vn)
  end.

(** ** Unlinking *)

(** Recursion goes from a node to its children; the number of nodes is enough fuel. *)
Fixpoint UnlinkEntries (fuel : nat) (v : vref) (next_node_id : Z) (entries_by_name : list (list Z * (Z * vref))) : M unit :=
  match fuel with
  | O => undefined
  | S fuel =>
      foldr (fun (e : list Z * (Z * vref)) rest =>
        n ← node e.2.2;
        match node_type_ n with
        | Intermediate next by_name _ => UnlinkEntries fuel e.2.2 next by_name
        | _ => mret tt
        end ;;
        set_parent e.2.2 None ;;
        rest) (mret tt) entries_by_name ;;
      set_type v (Intermediate next_node_id [] [])
  end.

Definition UnlinkFromParent (v : vref) : M unit :=
  n ← node v;
  match parent_ n with Some p => _ ← RemoveChild p v; mret tt | None => mret tt end ;;
  set_parent v None.

Definition Unlink (v : vref) : M unit :=
  fuel ← gets (fun s => length (nodes s));
  n ← node v;
  match node_type_ n with
  | Local _ => set_type v (Local None)
  | Intermediate next by_name _ => UnlinkEntries fuel v next by_name
  | Remote _ => mret tt
  end ;;
  UnlinkFromParent v.

(** ** Reading *)

(** [Local::Open]: the callback that is run to open the file. *)
Definition Local_Open (on_open : option (Z * Z)) : Z + Z * Z :=
  match on_open with None => inl ZX_ERR_BAD_HANDLE | Some cb => inr cb end.

(** [Readdir]: [lower_bound] and the loop after it find the first entry with a greater id.
    [None] is the end; [inl] an error. *)
Definition Vnode_Readdir (v : vref) (last_seen : Z) : M (Z + option (Z * vref)) :=
  n ← node v;
  match node_type_ n with
  | Local _ => mret (inl ZX_ERR_NOT_DIR)
  | Intermediate _ _ by_id =>
      let from := List.filter (fun e => negb (e.1 <? last_seen)) by_id in
      mret (inr (List.find (fun e => negb (e.1 <=? last_seen)) from))
  | Remote _ => mret (inl ZX_ERR_BAD_PATH)
  end.

Section Enumerate.
Context {B : Type} `{StringBuffer B}.

(** [EnumerateInternal] with a callback on some state; the statuses of the callback and of
    [ForAllEntries] are not looked at, but [ForAllEntries] stops at an error, of which
    [EnumerateInternal] returns none. *)
Fixpoint EnumerateInternal {X} (fuel : nat) (func : list Z -> Z -> X -> X) (v : vref) (path : B) (x : X) : M (B * X) :=
  match fuel with
  | O => undefined
  | S fuel =>
      n ← node v;
      let original_length := length (contents path) in
      let path := AppendView path (name_ n) in
      '(path, x) ←
        match node_type_ n with
        | Local _ => mret (path, x)
        | Intermediate _ _ by_id =>
            let path := if Nat.ltb 0 (length (name_ n)) then Append path slash else path in
            foldl (fun (m : M (B * X)) e => '(path, x) ← m; EnumerateInternal fuel func e.2 path x) (mret (path, x)) by_id
        | Remote s => mret (path, func (contents path) s x)
        end;
      mret (Resize path original_length, x)
  end.

Definition EnumerateRemotes {X} (empty : B) (func : list Z -> Z -> X -> X) (v : vref) (x : X) : M X :=
  fuel ← gets (fun s => length (nodes s));
  '(_, x) ← EnumerateInternal fuel func v (Append empty slash) x;
  mret x.
End Enumerate.
