(* ===== verification/VnodeTree.v ===== *)
(** * The tree of the local namespace: structure

    The two containers of children as finite maps in order, the shape of the store (each
    child knows its parent and is listed there under its name), the node a list of names leads
    to, and what unlinking a subtree does to the store. *)

From stdpp Require Import sets sorting.
From S2P Require Import Prelude OrderedMap CleanPath Vnode.

(** ** Names *)

Lemma name_ltb_cons x a y b : name_ltb (x :: a) (y :: b) = true <-> x < y \/ x = y /\ name_ltb a b = true.
Proof. simpl. repeat case_match; split; intros; intuition lia. Qed.

#[export] Instance name_order : StrictOrder name_ltb.
Proof.
  split.
  - induction k as [|x k IH]; simpl; [done|]. by rewrite Z.ltb_irrefl.
  - intros a; induction a as [|x a IH]; intros [|y b] [|z c]; try done.
    rewrite !name_ltb_cons. intros [?|[-> ?]] [?|[-> ?]]; [left; lia | by left | by left | right; eauto].
  - intros a; induction a as [|x a IH]; intros [|y b]; try done. intros H Hne.
    rewrite name_ltb_cons. apply not_true_iff_false in H. rewrite name_ltb_cons in H.
    destruct (decide (x = y)) as [->|]; [|left; lia].
    right. split; [done|]. apply IH; [apply not_true_iff_false; naive_solver | congruence].
Qed.

(** ** The shape of the store *)

Definition entries : Type := list (list Z * (Z * vref)).

Definition dir (ns : list LocalVnode) (v : vref) : option (Z * entries * list (Z * vref)) :=
  n ← ns !! v; match node_type_ n with Intermediate next by_name by_id => Some (next, by_name, by_id) | _ => None end.
Definition children (ns : list LocalVnode) (v : vref) : entries :=
  match dir ns v with Some (_, by_name, _) => by_name | None => [] end.

(** A directory: the containers are in order and hold the same entries; ids are below the
    next id, which did not wrap. *)
Record wf_dir (ns : list LocalVnode) (next : Z) (by_name : entries) (by_id : list (Z * vref)) : Prop := {
  wf_names : ordered name_ltb by_name;
  wf_ids : ordered Z.ltb by_id;
  wf_below : Forall (fun e => 0 < e.1 < next) by_id;
  wf_same : by_name.*2 ≡ₚ by_id;
  wf_next : 1 <= next <= 1 + Z.of_nat (length ns);
}.

(** A child comes after its parent in the store, points to it, and is listed there under its
    name. *)
Record forest (ns : list LocalVnode) : Prop := {
  child_ok v x id c : (x, (id, c)) ∈ children ns v ->
    (v < c)%nat /\ exists n, ns !! c = Some n /\ parent_ n = Some v /\ name_ n = x;
  parent_ok c n v : ns !! c = Some n -> parent_ n = Some v -> exists id, (name_ n, (id, c)) ∈ children ns v;
  dir_ok v next by_name by_id : dir ns v = Some (next, by_name, by_id) -> wf_dir ns next by_name by_id;
}.

(** The node that names lead to. *)
Fixpoint follow (ns : list LocalVnode) (v : vref) (p : list (list Z)) : option vref :=
  match p with
  | [] => Some v
  | x :: p => c ← Lookup (children ns v) x; follow ns c p
  end.
Definition below (ns : list LocalVnode) (v c : vref) : Prop := exists p, follow ns v p = Some c.

Lemma follow_app ns v p q : follow ns v (p ++ q) = c ← follow ns v p; follow ns c q.
Proof. revert v. induction p as [|x p IH]; intros v; simpl; [done|]. destruct (Lookup _ x); simpl; auto. Qed.

Lemma follow_snoc ns v p x : follow ns v (p ++ [x]) = c ← follow ns v p; Lookup (children ns c) x.
Proof. rewrite follow_app. destruct (follow ns v p) as [c|]; simpl; [|done]. by destruct (Lookup _ x). Qed.

Lemma below_refl ns v : below ns v v.
Proof. by exists []. Qed.

Lemma below_child ns v x c d : Lookup (children ns v) x = Some c -> below ns c d -> below ns v d.
Proof. intros E [p Hp]. exists (x :: p). simpl. by rewrite E. Qed.

Lemma below_inv ns v d : below ns v d -> d = v \/ exists x c, Lookup (children ns v) x = Some c /\ below ns c d.
Proof.
  intros [[|x p] Hp]; simpl in Hp; [left; congruence|]. destruct (Lookup _ x) as [c|] eqn:E; [|done].
  right. exists x, c. split; [done|]. by exists p.
Qed.

Lemma Lookup_In l x c : Lookup l x = Some c -> exists id, (x, (id, c)) ∈ l.
Proof. unfold Lookup. destruct (tree_find x l) as [[id d]|] eqn:E; [|done]. intros [= ->]. exists id. by apply tree_find_In. Qed.

Lemma Lookup_None l x : Lookup l x = None <-> x ∉ l.*1.
Proof. unfold Lookup. rewrite <- tree_find_None. by destruct (tree_find x l) as [[id c]|]. Qed.

Lemma In_Lookup l x id c : NoDup l.*1 -> (x, (id, c)) ∈ l -> Lookup l x = Some c.
Proof. intros Hnd Hin. unfold Lookup. apply (tree_find_iff x l (id, c)) in Hin; [|done]. by rewrite Hin. Qed.

Lemma Lookup_erase l x y : NoDup l.*1 -> Lookup (tree_erase x l) y = if decide (y = x) then None else Lookup l y.
Proof.
  induction l as [|[z [id c]] l IH]; simpl; [by case_decide|]. intros [Hz Hnd]%NoDup_cons. unfold Lookup in *. simpl.
  destruct (decide (z = x)) as [->|Hzx]; simpl.
  - repeat case_decide; try congruence. subst. assert (E : tree_find x l = None) by by apply tree_find_None. by rewrite E.
  - destruct (decide (z = y)) as [->|]; [by rewrite decide_False|]. auto.
Qed.

Lemma prefix_snoc {A} (q p : list A) y : q `prefix_of` p ++ [y] <-> q `prefix_of` p \/ q = p ++ [y].
Proof.
  split; [|intros [?| ->]; [by apply prefix_app_r | done]]. intros [k Hk].
  destruct k as [|z k _] using rev_ind; [right; by rewrite app_nil_r in Hk|]. left.
  rewrite app_assoc in Hk. apply app_inj_tail in Hk as [-> _]. by apply prefix_app_r.
Qed.

Lemma follow_ext ns ns' v p : (forall d, below ns v d -> children ns' d = children ns d) -> follow ns' v p = follow ns v p.
Proof.
  revert v. induction p as [|x p IH]; intros v H; simpl; [done|]. rewrite (H v) by apply below_refl.
  destruct (Lookup _ x) as [c|] eqn:E; simpl; [|done]. apply IH. intros d Hd. apply H. by eapply below_child.
Qed.

Lemma below_ext ns ns' v d : (forall d, below ns v d -> children ns' d = children ns d) -> below ns' v d <-> below ns v d.
Proof. intros H. split; intros [p Hp]; exists p; [rewrite <- (follow_ext ns ns') | rewrite (follow_ext ns ns')]; auto. Qed.

Lemma children_ext ns ns' d : ns' !! d = ns !! d -> children ns' d = children ns d.
Proof. unfold children, dir. by intros ->. Qed.

(** A node from which the store is a tree. *)
Record subtree (ns : list LocalVnode) (v : vref) : Prop := {
  sub_child d x id c : below ns v d -> (x, (id, c)) ∈ children ns d ->
    (d < c)%nat /\ exists n, ns !! c = Some n /\ parent_ n = Some d /\ name_ n = x;
  sub_NoDup d : below ns v d -> NoDup (children ns d).*1;
}.

Lemma children_NoDup ns v : forest ns -> NoDup (children ns v).*1.
Proof.
  intros F. unfold children. destruct (dir ns v) as [[[next bn] bi]|] eqn:E; [|constructor].
  apply (dir_ok _ F) in E. apply (ordered_NoDup name_ltb), E.
Qed.

Lemma forest_subtree ns v : forest ns -> subtree ns v.
Proof. intros F. split; intros; [by eapply child_ok | by apply children_NoDup]. Qed.

Lemma subtree_child ns v x id c : subtree ns v -> (x, (id, c)) ∈ children ns v -> subtree ns c.
Proof.
  intros T Hin. assert (Hb : forall d, below ns c d -> below ns v d).
  { intros d. apply (below_child ns v x). eapply In_Lookup; [apply T, below_refl | done]. }
  split; intros; [eapply (sub_child _ _ T) | apply (sub_NoDup _ _ T)]; eauto.
Qed.

Lemma subtree_ext ns ns' v : (forall d, below ns v d -> ns' !! d = ns !! d) -> subtree ns v -> subtree ns' v.
Proof.
  intros H T. assert (Hc : forall d, below ns v d -> children ns' d = children ns d) by (intros; apply children_ext; auto).
  assert (Hb := fun d => below_ext ns ns' v d Hc). split.
  - intros d x id c Hd Hin. rewrite Hb in Hd. rewrite Hc in Hin by done.
    destruct (sub_child _ _ T d x id c Hd Hin) as (? & n & Hn & ?). split; [done|]. exists n. split; [|done].
    rewrite H; [done|]. destruct Hd as [p Hp]. exists (p ++ [x]). rewrite follow_snoc, Hp. simpl.
    eapply In_Lookup; [|done]. apply T. by exists p.
  - intros d Hd. rewrite Hb in Hd. rewrite Hc by done. by apply T.
Qed.

Lemma follow_le ns v p c : subtree ns v -> follow ns v p = Some c -> (v + length p <= c)%nat.
Proof.
  revert v. induction p as [|x p IH]; intros v T; simpl; [intros [= ->]; lia|].
  destruct (Lookup _ x) as [d|] eqn:E; [|done]. simpl. intros Hf. apply Lookup_In in E as [id Hin].
  destruct (sub_child _ _ T v x id d (below_refl _ _) Hin) as [Hlt _].
  specialize (IH d (subtree_child _ _ _ _ _ T Hin) Hf). lia.
Qed.

(** A step down is remembered by the child. *)
Lemma follow_last ns v p x c : subtree ns v -> follow ns v (p ++ [x]) = Some c ->
  exists d n, follow ns v p = Some d /\ ns !! c = Some n /\ parent_ n = Some d /\ name_ n = x.
Proof.
  intros T. rewrite follow_snoc. destruct (follow ns v p) as [d|] eqn:E; [|done]. simpl. intros [id Hin]%Lookup_In.
  destruct (sub_child _ _ T d x id c) as (_ & n & ?); [by exists p | done|]. by exists d, n.
Qed.

Lemma follow_inj ns v p q c : subtree ns v -> follow ns v p = Some c -> follow ns v q = Some c -> p = q.
Proof.
  intros T. revert q c. induction p as [|x p IH] using rev_ind; intros q c Hp Hq.
  - simpl in Hp. simplify_eq. apply follow_le in Hq; [|done]. destruct q; [done|simpl in Hq; lia].
  - destruct q as [|y q _] using rev_ind.
    + simpl in Hq. simplify_eq. apply follow_le in Hp; [|done]. rewrite length_app in Hp. simpl in Hp. lia.
    + apply follow_last in Hp as (d & n & Hd & Hn & Hpar & <-); [|done].
      apply follow_last in Hq as (d' & n' & Hd' & Hn' & Hpar' & <-); [|done]. simplify_eq.
      by rewrite (IH q d).
Qed.

Lemma siblings_apart ns v x y c c' d : subtree ns v -> Lookup (children ns v) x = Some c -> Lookup (children ns v) y = Some c' ->
  below ns c d -> below ns c' d -> x = y.
Proof.
  intros T E E' [p Hp] [q Hq]. assert (H : x :: p = y :: q); [|congruence].
  apply (follow_inj ns v _ _ d T); simpl; [by rewrite E | by rewrite E'].
Qed.

Lemma follow_exists ns v p c : subtree ns v -> (v < length ns)%nat -> follow ns v p = Some c -> (c < length ns)%nat.
Proof.
  intros T Hv. destruct p as [|x p _] using rev_ind; simpl; [intros [= ->]; done|].
  intros (d & n & _ & Hn & _)%follow_last; [|done]. by apply lookup_lt_Some in Hn.
Qed.
