(* ===== verification/VnodeUnlink.v ===== *)
(** * The tree of the local namespace: unlinking and adding

    What the routines of the nodes do to the store: reading and writing a node, and unlinking
    a subtree, which leaves the nodes of the subtree without entries and without parents and
    changes no other node but the parent of its root; and adding a child. *)

From stdpp Require Import sets sorting.
From S2P Require Import Prelude CleanPath OrderedMap Vnode VnodeTree.

(** ** Single nodes *)

Lemma wp_node v n (s : fs) Q : nodes s !! v = Some n -> Q n s -> wp (node v) s Q.
Proof. intros E H. exists n, s. unfold node. by rewrite E. Qed.

Definition set_node_type (t : node_type) (n : LocalVnode) : LocalVnode :=
  {| node_type_ := t; parent_ := parent_ n; name_ := name_ n |}.
Definition set_node_parent (p : option vref) (n : LocalVnode) : LocalVnode :=
  {| node_type_ := node_type_ n; parent_ := p; name_ := name_ n |}.

Lemma wp_set_type v t n (s : fs) (Q : unit -> fs -> Prop) : nodes s !! v = Some n ->
  Q tt (with_nodes (<[v := set_node_type t n]>) s) -> wp (set_type v t) s Q.
Proof. intros E H. apply wp_bind, (wp_node _ n); [done|]. by apply wp_modify. Qed.

Lemma wp_set_parent v p n (s : fs) (Q : unit -> fs -> Prop) : nodes s !! v = Some n ->
  Q tt (with_nodes (<[v := set_node_parent p n]>) s) -> wp (set_parent v p) s Q.
Proof. intros E H. apply wp_bind, (wp_node _ n); [done|]. by apply wp_modify. Qed.

Lemma wp_new_node n (s : fs) (Q : vref -> fs -> Prop) :
  Q (length (nodes s)) (with_nodes (fun l => l ++ [n]) s) -> wp (new_node n) s Q.
Proof. intros H. by exists (length (nodes s)), (with_nodes (fun l => l ++ [n]) s). Qed.

(** ** Subtrees *)

(** A node of an unlinked subtree. *)
Definition wipe (p : option vref) (n : LocalVnode) : LocalVnode :=
  {| node_type_ := match node_type_ n with Intermediate next _ _ => Intermediate next [] [] | t => t end;
     parent_ := p; name_ := name_ n |}.

(** The nodes in [D] are wiped and lose their parents, but for [top]. *)
Record wiped (ns ns' : list LocalVnode) (D : vref -> Prop) (top : option vref) : Prop := {
  wiped_length : length ns' = length ns;
  wiped_out c : ~ D c -> ns' !! c = ns !! c;
  wiped_in c n : D c -> ns !! c = Some n -> ns' !! c = Some (wipe (if decide (Some c = top) then parent_ n else None) n);
}.

Lemma wiped_ext ns ns' D D' top : (forall c, D' c <-> D c) -> wiped ns ns' D top -> wiped ns ns' D' top.
Proof. intros H [H1 H2 H3]. split; [done| |]; [intros c; rewrite H; auto | intros c n Hc; apply H3; by apply H]. Qed.

Definition below_any (ns : list LocalVnode) (l : entries) (c : vref) : Prop := exists e, e ∈ l /\ below ns e.2.2 c.

Definition unlink_entry (fuel : nat) (e : list Z * (Z * vref)) (rest : M unit) : M unit :=
  n ← node e.2.2;
  match node_type_ n with
  | Intermediate next by_name _ => UnlinkEntries fuel e.2.2 next by_name
  | _ => mret tt
  end ;;
  set_parent e.2.2 None ;;
  rest.

Definition unlinks (fuel : nat) : Prop := forall s v next bn bi,
  subtree (nodes s) v -> dir (nodes s) v = Some (next, bn, bi) -> (length (nodes s) - v <= fuel)%nat ->
  wp (UnlinkEntries fuel v next bn) s (fun _ s' => root_ s' = root_ s /\ wiped (nodes s) (nodes s') (below (nodes s) v) (Some v)).

Lemma dir_Some ns v next bn bi : dir ns v = Some (next, bn, bi) ->
  exists n, ns !! v = Some n /\ node_type_ n = Intermediate next bn bi.
Proof. unfold dir. destruct (ns !! v) as [n|]; [|done]. simpl. destruct (node_type_ n) eqn:E; naive_solver. Qed.

Lemma dir_children ns v next bn bi : dir ns v = Some (next, bn, bi) -> children ns v = bn.
Proof. unfold children. by intros ->. Qed.

Lemma not_dir_below ns v n d : ns !! v = Some n -> (forall next bn bi, node_type_ n <> Intermediate next bn bi) ->
  below ns v d <-> d = v.
Proof.
  intros Hn Ht. assert (Hc : children ns v = []).
  { unfold children, dir. rewrite Hn. simpl. destruct (node_type_ n) eqn:E; naive_solver. }
  split; [|intros ->; apply below_refl]. intros [->|(x & c & E & _)]%below_inv; [done|]. by rewrite Hc in E.
Qed.

(** One entry: its subtree is wiped. *)
Lemma unlink_entry_wp fuel e rest s Q : unlinks fuel -> subtree (nodes s) e.2.2 -> (exists n, nodes s !! e.2.2 = Some n) ->
  (length (nodes s) - e.2.2 <= fuel)%nat ->
  (forall s', root_ s' = root_ s -> wiped (nodes s) (nodes s') (below (nodes s) e.2.2) None -> wp rest s' Q) ->
  wp (unlink_entry fuel e rest) s Q.
Proof.
  intros IH T [n Hn] Hfuel HQ. apply wp_bind, (wp_node _ n); [done|]. apply wp_bind.
  assert (HB : wp (match node_type_ n with Intermediate next by_name _ => UnlinkEntries fuel e.2.2 next by_name | _ => mret tt end) s
    (fun _ s1 => root_ s1 = root_ s /\ wiped (nodes s) (nodes s1) (below (nodes s) e.2.2) (Some e.2.2))).
  { destruct (node_type_ n) as [l|next bn bi|r] eqn:Et.
    2: { apply (IH s e.2.2 next bn bi); [done| |done]. unfold dir. rewrite Hn. simpl. by rewrite Et. }
    all: apply wp_ret; split; [done|]; split; [done|done|]; intros c n' Hb Hn'.
    all: apply (not_dir_below _ _ n) in Hb; [|done|by rewrite Et]; subst c.
    all: assert (n' = n) as -> by congruence; rewrite decide_True, Hn by done; destruct n; simpl in *; by subst. }
  apply wp_mono with (1 := HB). intros _ s1 [Hr [Hl Ho Hi]].
  assert (H1 := Hi _ _ (below_refl _ _) Hn). rewrite decide_True in H1 by done.
  apply wp_bind. eapply wp_set_parent; [done|]. apply HQ; [done|]. simpl. split.
  - by rewrite length_insert.
  - intros c Hc. rewrite list_lookup_insert_ne; [auto|]. intros <-. apply Hc, below_refl.
  - intros c n' Hc Hn'. rewrite decide_False by done. destruct (decide (c = e.2.2)) as [->|Hne].
    + rewrite list_lookup_insert_eq by by apply lookup_lt_Some in H1. by simplify_eq.
    + rewrite list_lookup_insert_ne by done. rewrite (Hi _ _ Hc Hn'), decide_False by congruence. done.
Qed.

Lemma wiped_trans ns ns1 ns2 D D' : wiped ns ns1 D None -> wiped ns1 ns2 D' None -> (forall c, D' c -> ~ D c) ->
  wiped ns ns2 (fun c => D c \/ D' c) None.
Proof.
  intros [L1 O1 I1] [L2 O2 I2] Hd. split; [congruence| |].
  - intros c Hc. rewrite O2, O1 by naive_solver. done.
  - intros c n [Hc|Hc] Hn.
    + rewrite O2 by naive_solver. auto.
    + apply I2; [done|]. by rewrite O1 by auto.
Qed.

Lemma entry_Lookup ns v e : subtree ns v -> e ∈ children ns v -> Lookup (children ns v) e.1 = Some e.2.2.
Proof. destruct e as [x [id c]]. intros T Hin. eapply In_Lookup; [apply T, below_refl | done]. Qed.

Lemma unlink_loop fuel ns v : unlinks fuel -> subtree ns v -> (length ns - v <= S fuel)%nat ->
  forall l done s, done ++ l = children ns v -> wiped ns (nodes s) (below_any ns done) None ->
  wp (foldr (unlink_entry fuel) (mret tt) l) s
    (fun _ s' => root_ s' = root_ s /\ wiped ns (nodes s') (below_any ns (children ns v)) None).
Proof.
  intros IHf T Hfuel l. induction l as [|e l IH]; intros done s Hl W; simpl.
  { apply wp_ret. rewrite app_nil_r in Hl. by subst. }
  assert (Hin : e ∈ children ns v) by (rewrite <- Hl; set_solver).
  assert (Hc : (v < e.2.2)%nat /\ exists n, ns !! e.2.2 = Some n).
  { destruct e as [x [id c]]. destruct (sub_child _ _ T v x id c (below_refl _ _) Hin) as (? & n & ? & _). eauto. }
  destruct Hc as [Hlt [n Hn]].
  assert (Hdis : forall d, below ns e.2.2 d -> ~ below_any ns done d).
  { intros d Hd (e' & He' & Hd'). assert (Hin' : e' ∈ children ns v) by (rewrite <- Hl; set_solver).
    assert (Hx := siblings_apart ns v e'.1 e.1 _ _ d T (entry_Lookup _ _ _ T Hin') (entry_Lookup _ _ _ T Hin) Hd' Hd).
    assert (Hnd := sub_NoDup _ _ T v (below_refl _ _)). rewrite <- Hl, fmap_app, fmap_cons in Hnd.
    apply NoDup_app in Hnd as (_ & Hnd & _). apply (Hnd e'.1); [by apply list_elem_of_fmap_2 | rewrite Hx; set_solver]. }
  assert (Hsame : forall d, below ns e.2.2 d -> nodes s !! d = ns !! d) by (intros; apply W; auto).
  assert (Hb : forall d, below (nodes s) e.2.2 d <-> below ns e.2.2 d)
    by (intros d; apply below_ext; intros; apply children_ext; auto).
  apply unlink_entry_wp; [done| | | |].
  - apply (subtree_ext ns); [done|]. destruct e as [x [id c]]. by eapply subtree_child.
  - exists n. rewrite Hsame; [done | apply below_refl].
  - rewrite (wiped_length _ _ _ _ W). lia.
  - intros s' Hr W'. apply wp_mono with (P := fun _ s2 => root_ s2 = root_ s' /\ wiped ns (nodes s2) (below_any ns (children ns v)) None).
    2: { intros _ s2 [-> ?]. done. }
    apply (IH (done ++ [e])); [by rewrite <- app_assoc|].
    apply (wiped_ext _ _ (fun c => below_any ns done c \/ below (nodes s) e.2.2 c)).
    { intros c. rewrite Hb. unfold below_any. set_solver. }
    eapply wiped_trans; [done|done|]. intros c. rewrite Hb. apply Hdis.
Qed.

Lemma below_children ns v c : subtree ns v -> below ns v c <-> c = v \/ below_any ns (children ns v) c.
Proof.
  intros T. split.
  - intros [->|(x & d & [id Hin]%Lookup_In & Hb)]%below_inv; [by left|]. right. by exists (x, (id, d)).
  - intros [->|(e & Hin & Hb)]; [apply below_refl|]. eapply below_child; [by apply entry_Lookup | done].
Qed.

Lemma children_above ns v c : subtree ns v -> below_any ns (children ns v) c -> (v < c)%nat.
Proof.
  intros T ([x [id d]] & Hin & p & Hp). destruct (sub_child _ _ T v x id d (below_refl _ _) Hin) as [? _].
  apply follow_le in Hp; [simpl in *; lia|]. by eapply subtree_child.
Qed.

Lemma UnlinkEntries_wp fuel : unlinks fuel.
Proof.
  induction fuel as [|fuel IH]; intros s v next bn bi T Hd Hfuel.
  { destruct (dir_Some _ _ _ _ _ Hd) as (n & Hn & _). apply lookup_lt_Some in Hn. lia. }
  destruct (dir_Some _ _ _ _ _ Hd) as (n & Hn & Et). assert (Hbn := dir_children _ _ _ _ _ Hd).
  simpl. apply wp_bind. eapply wp_mono; [apply (unlink_loop fuel (nodes s) v IH T Hfuel bn [] s)|].
  { by rewrite Hbn. }
  { split; [done|done|]. intros c n' (e & He & _). set_solver. }
  intros _ s1 [Hr [Hl Ho Hi]]. assert (Hv : nodes s1 !! v = Some n).
  { rewrite Ho; [done|]. intros Hb. apply children_above in Hb; [lia|done]. }
  eapply wp_set_type; [done|]. split; [done|]. simpl. split.
  - by rewrite length_insert.
  - intros c Hc. rewrite below_children in Hc by done. rewrite list_lookup_insert_ne by naive_solver. naive_solver.
  - intros c n' Hc Hn'. rewrite below_children in Hc by done. destruct (decide (c = v)) as [->|Hne].
    + rewrite list_lookup_insert_eq, decide_True by (done || by apply lookup_lt_Some in Hv).
      unfold set_node_type, wipe. simplify_eq. by rewrite Et.
    + rewrite list_lookup_insert_ne, decide_False by congruence. destruct Hc as [?|Hc]; [done|].
      rewrite (Hi _ _ Hc Hn'). by rewrite decide_False.
Qed.

(** ** A node and its parent *)

(** [ns'] is [ns] after [w] left its parent. *)
Record detached (ns ns' : list LocalVnode) (w : vref) : Prop := {
  detached_length : length ns' = length ns;
  detached_other c : c <> w -> (forall n, ns !! w = Some n -> parent_ n <> Some c) -> ns' !! c = ns !! c;
  detached_self n : ns !! w = Some n -> ns' !! w = Some (set_node_parent None n);
  detached_parent n p : ns !! w = Some n -> parent_ n = Some p -> exists np next bn bi id,
    ns !! p = Some np /\ node_type_ np = Intermediate next bn bi /\ (name_ n, (id, w)) ∈ bn /\
    ns' !! p = Some (set_node_type (Intermediate next (tree_erase (name_ n) bn) (tree_erase id bi)) np);
}.

Lemma node_dir ns v n next bn bi : ns !! v = Some n -> node_type_ n = Intermediate next bn bi -> dir ns v = Some (next, bn, bi).
Proof. unfold dir. intros -> Et. simpl. by rewrite Et. Qed.

Lemma parent_dir ns c n v : forest ns -> ns !! c = Some n -> parent_ n = Some v ->
  (v < c)%nat /\ exists np next bn bi id, ns !! v = Some np /\ node_type_ np = Intermediate next bn bi /\ children ns v = bn /\
    (name_ n, (id, c)) ∈ bn /\ NoDup bn.*1.
Proof.
  intros F Hn Hp. destruct (parent_ok _ F _ _ _ Hn Hp) as [id Hin]. split; [by eapply child_ok|].
  assert (Hnd := children_NoDup _ v F). unfold children in *.
  destruct (dir ns v) as [[[next bn] bi]|] eqn:E; [|set_solver].
  destruct (dir_Some _ _ _ _ _ E) as (np & Hnp & Et). by exists np, next, bn, bi, id.
Qed.

Lemma UnlinkFromParent_wp s w n : forest (nodes s) -> nodes s !! w = Some n ->
  wp (UnlinkFromParent w) s (fun _ s' => root_ s' = root_ s /\ detached (nodes s) (nodes s') w).
Proof.
  intros F Hn. apply wp_bind, (wp_node _ n); [done|]. apply wp_bind. destruct (parent_ n) as [p|] eqn:Hp.
  - destruct (parent_dir _ _ _ _ F Hn Hp) as (Hlt & np & next & bn & bi & id & Hnp & Et & _ & Hin & Hnd).
    unfold RemoveChild, RemoveEntry. do 2 apply wp_bind. eapply wp_node; [done|]. rewrite Et. apply wp_bind.
    apply wp_bind. eapply wp_node; [done|]. rewrite (proj2 (tree_find_iff _ _ _ Hnd) Hin), decide_True by done.
    eapply wp_set_type; [done|]. apply wp_ret, wp_ret. eapply wp_set_parent.
    { simpl. rewrite list_lookup_insert_ne by lia. done. }
    split; [done|]. simpl. apply lookup_lt_Some in Hn as Hw. apply lookup_lt_Some in Hnp as Hpl. split.
    + by rewrite !length_insert.
    + intros c Hc Hpc. rewrite !list_lookup_insert_ne; [done| |done]. intros <-. by apply (Hpc n).
    + intros n' Hn'. rewrite list_lookup_insert_eq by (rewrite length_insert; done). congruence.
    + intros n' p' Hn' Hp'. simplify_eq. exists np, next, bn, bi, id. split_and!; [done..|].
      rewrite list_lookup_insert_ne by lia. by rewrite list_lookup_insert_eq.
  - apply wp_ret. eapply wp_set_parent; [done|]. split; [done|]. simpl. apply lookup_lt_Some in Hn as Hw. split.
    + by rewrite !length_insert.
    + intros c Hc _. by rewrite !list_lookup_insert_ne.
    + intros n' Hn'. rewrite list_lookup_insert_eq by done. congruence.
    + intros. congruence.
Qed.

(** The erased tables of a directory are those of a directory. *)
Lemma wf_dir_erase ns next bn bi x id c : wf_dir ns next bn bi -> (x, (id, c)) ∈ bn -> wf_dir ns next (tree_erase x bn) (tree_erase id bi).
Proof.
  intros [H1 H2 H3 H4 H5] Hin. split; [by apply tree_erase_ordered | by apply tree_erase_ordered | | |done].
  - rewrite Forall_forall in *. intros e He. apply H3. eapply elem_of_sublist; [done|]. apply tree_erase_sublist.
  - assert (P1 := tree_erase_perm _ _ _ (ordered_NoDup _ _ H1) Hin).
    assert (Hin' : (id, c) ∈ bi) by (rewrite <- H4; apply list_elem_of_fmap; by exists (x, (id, c))).
    assert (P2 := tree_erase_perm _ _ _ (ordered_NoDup _ _ H2) Hin').
    apply (Permutation_cons_inv (a := (id, c))). rewrite <- P2, <- H4. symmetry. by rewrite P1 at 1.
Qed.

Lemma wf_dir_length ns ns' next bn bi : length ns' = length ns -> wf_dir ns next bn bi -> wf_dir ns' next bn bi.
Proof. intros E [H1 H2 H3 H4 H5]. split; try done. by rewrite E. Qed.

Section Detached.
Context (ns ns' : list LocalVnode) (w : vref) (n : LocalVnode).
Hypotheses (F : forest ns) (Hn : ns !! w = Some n) (D : detached ns ns' w).

Lemma detached_lookup c nc : ns !! c = Some nc -> exists nc', ns' !! c = Some nc' /\ name_ nc' = name_ nc /\
  parent_ nc' = (if decide (c = w) then None else parent_ nc) /\ (parent_ n <> Some c -> node_type_ nc' = node_type_ nc).
Proof.
  intros Hc. destruct (decide (c = w)) as [->|Hne].
  { assert (nc = n) as -> by congruence. exists (set_node_parent None n). by rewrite (detached_self _ _ _ D n Hn). }
  destruct (decide (parent_ n = Some c)) as [Hp|Hp].
  - destruct (detached_parent _ _ _ D _ _ Hn Hp) as (np & next & bn & bi & id & Hnp & _ & _ & H).
    simplify_eq. eexists. split; [done|]. done.
  - exists nc. rewrite (detached_other _ _ _ D); [done|done|]. intros n' Hn'. congruence.
Qed.

Lemma detached_lookup_inv c nc' : ns' !! c = Some nc' -> exists nc, ns !! c = Some nc /\ name_ nc' = name_ nc /\
  parent_ nc' = (if decide (c = w) then None else parent_ nc) /\ (parent_ n <> Some c -> node_type_ nc' = node_type_ nc).
Proof.
  intros Hc. apply lookup_lt_Some in Hc as Hlt. rewrite (detached_length _ _ _ D) in Hlt.
  apply lookup_lt_is_Some_2 in Hlt as [nc Hnc]. destruct (detached_lookup c nc Hnc) as (nc1 & ? & ?). simplify_eq. eauto.
Qed.

Lemma detached_dir c : dir ns' c = if decide (parent_ n = Some c) then
    '(next, bn, bi) ← dir ns c; '(id, _) ← tree_find (name_ n) bn; Some (next, tree_erase (name_ n) bn, tree_erase id bi)
  else dir ns c.
Proof.
  destruct (decide _) as [Hp|Hp].
  - destruct (detached_parent _ _ _ D _ _ Hn Hp) as (np & next & bn & bi & id & Hnp & Et & Hin & H).
    assert (Hd := node_dir _ _ _ _ _ _ Hnp Et). rewrite Hd. simpl.
    rewrite (proj2 (tree_find_iff _ _ _ (ordered_NoDup _ _ (wf_names _ _ _ _ (dir_ok _ F _ _ _ _ Hd)))) Hin). simpl.
    by apply node_dir with (1 := H).
  - unfold dir. destruct (ns !! c) as [nc|] eqn:E.
    + destruct (detached_lookup c nc E) as (nc' & -> & _ & _ & Ht). simpl. by rewrite Ht.
    + rewrite lookup_ge_None_2; [done|]. rewrite (detached_length _ _ _ D). by apply lookup_ge_None.
Qed.

Lemma detached_children c : children ns' c = if decide (parent_ n = Some c) then tree_erase (name_ n) (children ns c) else children ns c.
Proof.
  unfold children. rewrite detached_dir. destruct (decide _) as [Hp|]; [|done].
  destruct (parent_dir _ _ _ _ F Hn Hp) as (_ & np & next & bn & bi & id & Hnp & Et & _ & Hin & Hnd).
  rewrite (node_dir _ _ _ _ _ _ Hnp Et). simpl. by rewrite (proj2 (tree_find_iff _ _ _ Hnd) Hin).
Qed.

Lemma detached_children_In c x id d : (x, (id, d)) ∈ children ns' c <-> (x, (id, d)) ∈ children ns c /\ d <> w.
Proof.
  rewrite detached_children. destruct (decide (parent_ n = Some c)) as [Hp|Hp].
  - destruct (parent_dir _ _ _ _ F Hn Hp) as (_ & np & next & bn & bi & idw & Hnp & Et & Hch & Hin & Hnd).
    rewrite tree_erase_In by by apply children_NoDup. simpl.
    split; intros [H1 H2]; (split; [done|]); intros ->; apply H2.
    + destruct (child_ok _ F _ _ _ _ H1) as (_ & n' & ? & ? & ?). congruence.
    + rewrite <- Hch in Hin. assert (E := NoDup_keys_eq _ _ _ _ (children_NoDup _ c F) H1 Hin). congruence.
  - split; [|by intros []]. intros H. split; [done|]. intros ->.
    destruct (child_ok _ F _ _ _ _ H) as (_ & n' & ? & ? & ?). congruence.
Qed.

Lemma forest_detached : forest ns'.
Proof.
  split.
  - intros v x id c [Hin Hne]%detached_children_In. destruct (child_ok _ F _ _ _ _ Hin) as (Hlt & nc & Hnc & Hp & Hx).
    split; [done|]. destruct (detached_lookup c nc Hnc) as (nc' & Hnc' & Hx' & Hp' & _). exists nc'.
    rewrite decide_False in Hp' by done. by rewrite Hp', Hx'.
  - intros c nc' v Hc Hp. destruct (detached_lookup_inv _ _ Hc) as (nc & Hnc & Hx & Hp' & _).
    rewrite Hp' in Hp. destruct (decide (c = w)) as [->|Hne]; [done|].
    destruct (parent_ok _ F _ _ _ Hnc Hp) as [id Hin]. exists id. rewrite Hx. by apply detached_children_In.
  - intros v next bn bi. rewrite detached_dir. intros Hd. apply (wf_dir_length ns); [by apply D|].
    destruct (decide _) as [Hp|Hp]; [|by eapply dir_ok].
    destruct (dir ns v) as [[[next1 bn1] bi1]|] eqn:E; [|done]. simpl in Hd.
    destruct (tree_find (name_ n) bn1) as [[id d]|] eqn:Ef; [|done]. simpl in Hd. simplify_eq.
    eapply wf_dir_erase; [by eapply dir_ok | by apply tree_find_In].
Qed.

(** Names that do not lead through [w] lead where they led; the others lead nowhere. *)
Lemma follow_detached r q p : follow ns r q = Some w -> q <> [] ->
  follow ns' r p = if decide (q `prefix_of` p) then None else follow ns r p.
Proof.
  intros Hq Hne. induction p as [|y p IH] using rev_ind.
  { rewrite decide_False; [done|]. by intros ->%prefix_nil_inv. }
  rewrite !follow_snoc, IH. destruct q as [|x q _] using rev_ind; [done|].
  destruct (follow_last _ _ _ _ _ (forest_subtree _ r F) Hq) as (u & n' & Hu & Hn' & Hpar & <-). assert (n' = n) as -> by congruence.
  destruct (decide (_ `prefix_of` p)) as [Hpre|Hpre]; [by rewrite decide_True by (apply prefix_snoc; auto)|].
  destruct (follow ns r p) as [d|] eqn:Ed; simpl; [|by case_decide].
  rewrite detached_children. destruct (decide (parent_ n = Some d)) as [Hd|Hd].
  - assert (d = u) as -> by congruence. assert (p = q) as -> by (eapply follow_inj; [apply (forest_subtree _ r F)|done..]).
    rewrite Lookup_erase by by apply children_NoDup. destruct (decide (y = name_ n)) as [->|Hy]; [by rewrite decide_True|].
    rewrite decide_False; [done|]. intros [?|[_ ?]%app_inj_tail]%prefix_snoc; congruence.
  - rewrite decide_False; [done|]. intros [?|[-> _]%app_inj_tail]%prefix_snoc; congruence.
Qed.
End Detached.

(** ** Unlinking a node *)

Lemma below_snoc ns v d x c : below ns v d -> Lookup (children ns d) x = Some c -> below ns v c.
Proof. intros [p Hp] E. exists (p ++ [x]). by rewrite follow_snoc, Hp. Qed.

Lemma below_parent ns v c n d : forest ns -> ns !! c = Some n -> parent_ n = Some d -> below ns v c <-> c = v \/ below ns v d.
Proof.
  intros F Hn Hp. split.
  - intros [p Hf]. destruct p as [|x p _] using rev_ind; [left; simpl in Hf; congruence|]. right.
    destruct (follow_last _ _ _ _ _ (forest_subtree _ v F) Hf) as (d' & n' & Hd & ? & ? & ?). exists p. congruence.
  - intros [->|Hb]; [apply below_refl|]. destruct (parent_ok _ F _ _ _ Hn Hp) as [id Hin].
    eapply below_snoc; [done|]. eapply In_Lookup; [by apply children_NoDup|done].
Qed.

Lemma below_no_parent ns v c n : forest ns -> ns !! c = Some n -> parent_ n = None -> below ns v c -> c = v.
Proof.
  intros F Hn Hp [p Hf]. destruct p as [|x p _] using rev_ind; [simpl in Hf; congruence|].
  destruct (follow_last _ _ _ _ _ (forest_subtree _ v F) Hf) as (d' & n' & Hd & ? & ? & ?). congruence.
Qed.

Lemma below_dec ns v c : forest ns -> (c < length ns)%nat -> below ns v c \/ ~ below ns v c.
Proof.
  intros F. induction (lt_wf c) as [c _ IH]. intros Hc. destruct (lookup_lt_is_Some_2 _ _ Hc) as [n Hn].
  destruct (parent_ n) as [d|] eqn:Hp.
  - destruct (parent_dir _ _ _ _ F Hn Hp) as (Hlt & _). rewrite (below_parent _ _ _ _ _ F Hn Hp).
    destruct (IH d Hlt) as [|]; [lia|naive_solver|]. destruct (decide (c = v)); naive_solver.
  - destruct (decide (c = v)) as [->|]; [left; apply below_refl|]. right. intros Hb. by apply (below_no_parent _ _ _ n) in Hb.
Qed.

(** A node that was unlinked itself. *)
Definition retire (n : LocalVnode) : LocalVnode :=
  {| node_type_ := match node_type_ n with Local _ => Local None | Intermediate next _ _ => Intermediate next [] [] | t => t end;
     parent_ := parent_ n; name_ := name_ n |}.

Record retired (ns ns' : list LocalVnode) (w : vref) : Prop := {
  retired_length : length ns' = length ns;
  retired_out c : ~ below ns w c -> ns' !! c = ns !! c;
  retired_in c n : below ns w c -> ns !! c = Some n -> ns' !! c = Some (if decide (c = w) then retire n else wipe None n);
}.

Section Retired.
Context (ns ns' : list LocalVnode) (w : vref).
Hypotheses (F : forest ns) (R : retired ns ns' w).

Lemma retired_lookup_inv c nc' : ns' !! c = Some nc' -> exists nc, ns !! c = Some nc /\ name_ nc' = name_ nc /\
  (~ below ns w c /\ nc' = nc \/ below ns w c /\ nc' = if decide (c = w) then retire nc else wipe None nc).
Proof.
  intros Hc. assert (Hlt := lookup_lt_Some _ _ _ Hc). rewrite (retired_length _ _ _ R) in Hlt.
  destruct (lookup_lt_is_Some_2 _ _ Hlt) as [nc Hnc]. exists nc. split; [done|].
  destruct (below_dec ns w c F Hlt) as [Hb|Hb].
  - rewrite (retired_in _ _ _ R _ _ Hb Hnc) in Hc. simplify_eq. split; [by case_decide|]. by right.
  - rewrite (retired_out _ _ _ R _ Hb) in Hc. simplify_eq. split; [done|]. by left.
Qed.

Lemma retired_dir_in c next bn bi : below ns w c -> dir ns' c = Some (next, bn, bi) -> bn = [] /\ bi = [] /\ exists bn0 bi0, dir ns c = Some (next, bn0, bi0).
Proof.
  intros Hb Hd. destruct (dir_Some _ _ _ _ _ Hd) as (nc' & Hc & Et). destruct (retired_lookup_inv _ _ Hc) as (nc & Hnc & _ & [[]|[_ ->]]); [done|].
  unfold dir. rewrite Hnc. simpl. destruct (decide (c = w)); simpl in Et; destruct (node_type_ nc); simplify_eq; eauto.
Qed.

Lemma retired_children_in c : below ns w c -> children ns' c = [].
Proof.
  intros Hb. unfold children. destruct (dir ns' c) as [[[next bn] bi]|] eqn:Hd; [|done]. by destruct (retired_dir_in _ _ _ _ Hb Hd).
Qed.

Lemma retired_children_out c : ~ below ns w c -> children ns' c = children ns c.
Proof. intros Hb. by apply children_ext, R. Qed.

Lemma forest_retired : forest ns'.
Proof.
  assert (Hcase : forall v x id c, (x, (id, c)) ∈ children ns' v -> ~ below ns w v /\ (x, (id, c)) ∈ children ns v).
  { intros v x id c Hin. assert (Hnb : ~ below ns w v) by (intros Hb; rewrite retired_children_in in Hin by done; set_solver).
    by rewrite retired_children_out in Hin. }
  split.
  - intros v x id c [Hnb Hin]%Hcase. destruct (child_ok _ F _ _ _ _ Hin) as (Hlt & n & Hn & Hp & Hx). split; [done|].
    destruct (below_dec ns w c F) as [Hb|Hb]; [by eapply lookup_lt_Some| |exists n; by rewrite (retired_out _ _ _ R _ Hb)].
    rewrite (below_parent _ _ _ _ _ F Hn Hp) in Hb. destruct Hb as [->|]; [|done].
    exists (retire n). rewrite (retired_in _ _ _ R _ _ (below_refl _ _) Hn), decide_True by done. done.
  - intros c nc' v Hc Hp. destruct (retired_lookup_inv _ _ Hc) as (nc & Hnc & Hx & [[Hb ->]|[Hb ->]]).
    + destruct (parent_ok _ F _ _ _ Hnc Hp) as [id Hin]. exists id. rewrite retired_children_out; [done|].
      intros Hbv. apply Hb. rewrite (below_parent _ _ _ _ _ F Hnc Hp). by right.
    + destruct (decide (c = w)) as [->|]; [|done]. simpl in Hp. destruct (parent_ok _ F _ _ _ Hnc Hp) as [id Hin]. exists id.
      simpl. rewrite retired_children_out; [done|]. intros [q Hq]. destruct (child_ok _ F _ _ _ _ Hin) as [Hlt _].
      apply (follow_le _ _ _ _ (forest_subtree _ w F)) in Hq. lia.
  - intros v next bn bi Hd. destruct (dir_Some _ _ _ _ _ Hd) as (nc' & Hc & Et).
    destruct (retired_lookup_inv _ _ Hc) as (nc & Hnc & Hx & [[Hb ->]|[Hb Hnc']]).
    + apply (wf_dir_length ns); [by apply R|]. apply (dir_ok _ F v). by eapply node_dir.
    + destruct (retired_dir_in _ _ _ _ Hb Hd) as (-> & -> & bn0 & bi0 & Hd0).
      apply (wf_dir_length ns); [by apply R|]. destruct (dir_ok _ F _ _ _ _ Hd0) as [_ _ _ _ Hnext].
      split; [constructor|constructor|constructor|done|done].
Qed.

Lemma follow_retired r q p : follow ns r q = Some w -> ~ q `prefix_of` p -> follow ns' r p = follow ns r p.
Proof.
  intros Hq. induction p as [|y p IH] using rev_ind; [done|]. rewrite prefix_snoc. intros Hn.
  rewrite !follow_snoc, IH by tauto. destruct (follow ns r p) as [d|] eqn:Ed; simpl; [|done].
  rewrite retired_children_out; [done|]. intros [t Ht]. apply Hn. left. exists t.
  eapply follow_inj; [apply (forest_subtree _ r F)|done|]. by rewrite follow_app, Hq.
Qed.

Lemma follow_retired_self r q : follow ns r q = Some w -> follow ns' r q = Some w.
Proof.
  intros Hq. destruct q as [|x q _] using rev_ind; [done|]. rewrite follow_snoc in *.
  destruct (follow ns r q) as [d|] eqn:Ed; [|done]. simpl in Hq.
  assert (E : follow ns r (q ++ [x]) = Some w) by by rewrite follow_snoc, Ed.
  rewrite (follow_retired r (q ++ [x])); [|done|].
  - rewrite Ed. simpl. rewrite retired_children_out; [done|]. apply Lookup_In in Hq as [id Hin].
    intros [t Ht]. apply (follow_le _ _ _ _ (forest_subtree _ w F)) in Ht. apply (child_ok _ F) in Hin as [? _]. lia.
  - intros Hpre%prefix_length. rewrite length_app in Hpre. simpl in Hpre. lia.
Qed.
End Retired.

Lemma Unlink_wp s w n : forest (nodes s) -> nodes s !! w = Some n ->
  wp (Unlink w) s (fun _ s' => root_ s' = root_ s /\ exists ns1, retired (nodes s) ns1 w /\ detached ns1 (nodes s') w).
Proof.
  intros F Hn. apply wp_bind, wp_gets. apply wp_bind, (wp_node _ n); [done|]. apply wp_bind.
  assert (Hw := lookup_lt_Some _ _ _ Hn). pose (ns := nodes s).
  apply wp_mono with (P := fun _ s1 => root_ s1 = root_ s /\ retired ns (nodes s1) w).
  - destruct (node_type_ n) as [l|next bn bi|r] eqn:Et.
    + eapply wp_set_type; [done|]. split; [done|]. simpl.
      assert (Hb : forall c, below ns w c <-> c = w) by (intros; apply (not_dir_below ns w n); [done | by rewrite Et]). split.
      * by rewrite length_insert.
      * intros c Hc. rewrite Hb in Hc. by rewrite list_lookup_insert_ne.
      * intros c nc ->%Hb Hnc. rewrite list_lookup_insert_eq, decide_True by done. unfold retire, set_node_type. subst ns. simplify_eq. by rewrite Et.
    + eapply wp_mono; [apply (UnlinkEntries_wp _ s w next bn bi); [by apply forest_subtree | by eapply node_dir | lia]|].
      intros _ s1 [Hr [H1 H2 H3]]. split; [done|]. split; [done|done|]. intros c nc Hb Hnc.
      rewrite (H3 _ _ Hb Hnc). destruct (decide (c = w)) as [->|]; [rewrite decide_True by done | rewrite decide_False by congruence]; [|done].
      unfold wipe, retire. subst ns. simplify_eq. by rewrite Et.
    + apply wp_ret. split; [done|]. assert (Hb : forall c, below ns w c <-> c = w) by (intros; apply (not_dir_below ns w n); [done | by rewrite Et]).
      split; [done|done|]. intros c nc ->%Hb Hnc. rewrite decide_True by done. subst ns. rewrite Hnc. f_equal.
      unfold retire. simplify_eq. rewrite Et. destruct n; simpl in *; by subst.
  - intros _ s1 [Hr R]. assert (F1 := forest_retired _ _ _ F R).
    eapply wp_mono; [eapply (UnlinkFromParent_wp s1 w); [done|apply (retired_in _ _ _ R); [apply below_refl|done]]|].
    intros _ s' [Hr' D]. split; [congruence|]. eauto.
Qed.

(** ** The tree of the local namespace: adding *)

Lemma Lookup_insert l x id c y : x ∉ l.*1 -> Lookup (tree_insert name_ltb x (id, c) l) y = if decide (y = x) then Some c else Lookup l y.
Proof. intros Hx. unfold Lookup. rewrite tree_find_insert by done. by case_decide. Qed.

(** Nodes without children. *)
Definition leaf (t : node_type) : Prop := match t with Intermediate next bn bi => next = 1 /\ bn = [] /\ bi = [] | _ => True end.

(** [ns'] is [ns] with a node of type [t] in the directory [p]. *)
Definition with_child (ns : list LocalVnode) (p : vref) (np : LocalVnode) (next : Z) (bn : entries) (bi : list (Z * vref))
    (x : list Z) (t : node_type) : list LocalVnode :=
  <[p := set_node_type (Intermediate (next + 1) (tree_insert name_ltb x (next, length ns) bn) (tree_insert Z.ltb next (length ns) bi)) np]>
    (ns ++ [{| node_type_ := t; parent_ := Some p; name_ := x |}]).

Section Added.
Context (ns : list LocalVnode) (p : vref) (np : LocalVnode) (next : Z) (bn : entries) (bi : list (Z * vref)) (x : list Z) (t : node_type).
Hypotheses (F : forest ns) (Hp : ns !! p = Some np) (Et : node_type_ np = Intermediate next bn bi)
  (Hx : Lookup bn x = None) (Hleaf : leaf t).
Local Abbreviation c := (length ns).
Local Abbreviation ns' := (with_child ns p np next bn bi x t).

Lemma added_lookup d : ns' !! d =
  if decide (d = c) then Some {| node_type_ := t; parent_ := Some p; name_ := x |}
  else if decide (d = p) then Some (set_node_type (Intermediate (next + 1) (tree_insert name_ltb x (next, c) bn) (tree_insert Z.ltb next c bi)) np)
  else ns !! d.
Proof.
  assert (Hlt := lookup_lt_Some _ _ _ Hp). unfold with_child. destruct (decide (d = c)) as [->|Hc].
  { rewrite list_lookup_insert_ne by lia. by apply list_lookup_middle. }
  destruct (decide (d = p)) as [->|]; [rewrite list_lookup_insert_eq by (rewrite length_app; simpl; lia); done|].
  rewrite list_lookup_insert_ne by done. destruct (decide (d < length ns)%nat); [by apply lookup_app_l|].
  rewrite !lookup_ge_None_2; [done|lia|]. rewrite length_app. simpl. lia.
Qed.

Lemma added_length : length ns' = S (length ns).
Proof. unfold with_child. rewrite length_insert, length_app. simpl. lia. Qed.

Lemma added_dir_wf : wf_dir ns next bn bi.
Proof. apply (dir_ok _ F p). by eapply node_dir. Qed.

Lemma added_children d : children ns' d =
  if decide (d = c) then [] else if decide (d = p) then tree_insert name_ltb x (next, c) bn else children ns d.
Proof.
  unfold children, dir. rewrite added_lookup. destruct (decide (d = c)); simpl.
  - destruct t; simpl in *; [done| |done]. by destruct Hleaf as (_ & -> & _).
  - by destruct (decide (d = p)).
Qed.

Lemma p_children : children ns p = bn.
Proof. by rewrite (dir_children _ _ _ _ _ (node_dir _ _ _ _ _ _ Hp Et)). Qed.

Lemma added_children_In v y id d : (y, (id, d)) ∈ children ns' v <-> (y, (id, d)) ∈ children ns v \/ v = p /\ y = x /\ id = next /\ d = c.
Proof.
  rewrite added_children. assert (Hlt := lookup_lt_Some _ _ _ Hp). destruct (decide (v = c)) as [->|Hv].
  { split; [set_solver|]. intros [H|(E & _)]; [|lia]. unfold children, dir in H.
    rewrite lookup_ge_None_2 in H by lia. simpl in H. set_solver. }
  destruct (decide (v = p)) as [->|]; [|naive_solver]. rewrite (tree_insert_In name_ltb), p_children. naive_solver.
Qed.

Lemma added_lookup_old d n : ns !! d = Some n -> exists n', ns' !! d = Some n' /\ parent_ n' = parent_ n /\ name_ n' = name_ n.
Proof.
  intros Hd. assert (Hlt := lookup_lt_Some _ _ _ Hd). rewrite added_lookup, decide_False by lia.
  destruct (decide (d = p)) as [->|]; [|by exists n]. simplify_eq. by eexists.
Qed.

Lemma added_wf : wf_dir ns' (next + 1) (tree_insert name_ltb x (next, c) bn) (tree_insert Z.ltb next c bi).
Proof.
  destruct added_dir_wf as [H1 H2 H3 H4 H5]. split.
  - apply tree_insert_ordered; [apply _|done|]. by apply Lookup_None.
  - apply tree_insert_ordered; [apply _|done|]. intros (e & E & He)%list_elem_of_fmap. rewrite Forall_forall in H3.
    specialize (H3 e He). lia.
  - rewrite (tree_insert_perm Z.ltb). constructor; [simpl; lia|]. apply Forall_impl with (1 := H3). lia.
  - rewrite (tree_insert_perm Z.ltb), (tree_insert_perm name_ltb). simpl. by rewrite H4.
  - rewrite added_length. lia.
Qed.

Lemma forest_added : forest ns'.
Proof.
  assert (Hlt := lookup_lt_Some _ _ _ Hp). split.
  - intros v y id d [Hin|(-> & -> & -> & ->)]%added_children_In.
    + destruct (child_ok _ F _ _ _ _ Hin) as (Hvd & n & Hn & Hpar & Hy). split; [done|].
      destruct (added_lookup_old d n Hn) as (n' & Hn' & Hpar' & Hy'). exists n'. by rewrite Hpar', Hy'.
    + split; [done|]. rewrite added_lookup, decide_True by done. eexists. by split_and!.
  - intros d n' v Hd Hpar. rewrite added_lookup in Hd. destruct (decide (d = c)) as [->|Hdc].
    { injection Hd as <-. injection Hpar as <-. exists next. apply added_children_In. by right. }
    assert (Hold : exists n, ns !! d = Some n /\ parent_ n = parent_ n' /\ name_ n = name_ n').
    { destruct (decide (d = p)) as [->|]; simplify_eq; eexists; by split_and!. }
    destruct Hold as (n & Hn & Hpar' & Hname). rewrite <- Hpar' in Hpar. rewrite <- Hname.
    destruct (parent_ok _ F _ _ _ Hn Hpar) as [id Hin]. exists id. apply added_children_In. by left.
  - intros v next' bn' bi' Hd. destruct (dir_Some _ _ _ _ _ Hd) as (n & Hn & Etn). rewrite added_lookup in Hn.
    destruct (decide (v = c)); simplify_eq; simpl in Etn.
    { subst t. destruct Hleaf as (-> & -> & ->). rewrite <- (p_children) in *. split; try constructor; rewrite ?added_length; try done; lia. }
    destruct (decide (v = p)); simplify_eq; simpl in Etn; simplify_eq; [apply added_wf|].
    destruct (dir_ok _ F v _ _ _ (node_dir _ _ _ _ _ _ Hn Etn)) as [H1 H2 H3 H4 H5]. split; try done. rewrite added_length. lia.
Qed.

(** Only the new names lead to the new node; all others lead where they led. *)
Lemma follow_added r q y : (r < length ns)%nat -> follow ns r q = Some p ->
  follow ns' r y = if decide (y = q ++ [x]) then Some c else follow ns r y.
Proof.
  intros Hr Hq. assert (Hxq : follow ns r (q ++ [x]) = None) by (rewrite follow_snoc, Hq; simpl; by rewrite p_children).
  induction y as [|z y IH] using rev_ind.
  { rewrite decide_False; [done|]. intros E%(f_equal length). rewrite length_app in E. simpl in E. lia. }
  rewrite !follow_snoc, IH. destruct (decide (y = q ++ [x])) as [->|Hy].
  { simpl. rewrite added_children, decide_True, Hxq by done. simpl. rewrite decide_False; [done|].
    intros E%(f_equal length). rewrite !length_app in E. simpl in E. lia. }
  destruct (follow ns r y) as [d|] eqn:Ed; simpl.
  - assert (Hd : (d < length ns)%nat) by (eapply follow_exists; [by apply forest_subtree|done|done]).
    rewrite added_children, decide_False by lia. destruct (decide (d = p)) as [->|Hdp].
    + assert (y = q) as -> by (eapply follow_inj; [by apply forest_subtree|done|done]).
      rewrite Lookup_insert by by apply Lookup_None. rewrite p_children.
      destruct (decide (z = x)) as [->|]; [by rewrite decide_True|]. rewrite decide_False; [done|]. by intros [_ ->]%app_inj_tail.
    + rewrite decide_False; [done|]. intros [-> _]%app_inj_tail. congruence.
  - rewrite decide_False; [done|]. intros [-> _]%app_inj_tail. congruence.
Qed.
End Added.

Lemma Create_wp s p np next bn bi x t Q : forest (nodes s) -> nodes s !! p = Some np -> node_type_ np = Intermediate next bn bi ->
  Lookup bn x = None -> Z.of_nat (length (nodes s)) < 2 ^ 64 - 2 ->
  Q (ZX_OK, length (nodes s)) (with_nodes (fun ns => with_child ns p np next bn bi x t) s) -> wp (Create (Some p) x t) s Q.
Proof.
  intros F Hp Et Hx Hlen HQ. assert (Hlt := lookup_lt_Some _ _ _ Hp).
  assert (Hnext : next ⊕[64] 1 = next + 1).
  { destruct (dir_ok _ F p next bn bi (node_dir _ _ _ _ _ _ Hp Et)) as [_ _ _ _ ?]. apply wrap_small. unfold fits. lia. }
  assert (Hfind : tree_find x bn = None) by (unfold Lookup in Hx; by destruct (tree_find x bn) as [[]|]).
  apply wp_bind, wp_new_node. do 2 apply wp_bind. eapply wp_node; [simpl; by rewrite lookup_app_l|].
  rewrite Et. apply wp_bind. apply wp_bind. eapply wp_node; [simpl; by apply list_lookup_middle|].
  simpl. rewrite Hfind. eapply wp_set_type; [simpl; by rewrite lookup_app_l|]. apply wp_ret, wp_ret. by rewrite Hnext.
Qed.
