(* ===== verification/Namespace.v ===== *)
(** * The local namespace

    Models src/fdio/namespace/local-filesystem.cc and namespace.cc: what fdio does with a
    path that a program opens, binds or unbinds.  Every operation holds the mutex of the
    namespace but for the end of [Open] and [Connect], which act on the node they found after
    the mutex was given back, and for [Export], which never takes it to read the tree; these
    are definitions of their own.  What leaves the namespace (a file to run, a directory to
    open, a request to a remote) is a value. *)

From S2P Require Import Prelude OrderedMap CleanPath Vnode.

(** <limits.h> *)
Definition NAME_MAX : nat := 255.

(** ** Paths *)

(** [path.find('/')]: the part before it. *)
Fixpoint before_slash (path : list Z) : option (list Z) :=
  match path with
  | [] => None
  | c :: path => if c =? slash then Some [] else s ← before_slash path; Some (c :: s)
  end.

Definition FindNextPathSegment (path : list Z) : list Z * bool :=
  match before_slash path with None => (path, true) | Some segment => (segment, false) end.

Definition starts_with_slash (path : list Z) : bool := match path with c :: _ => c =? slash | [] => false end.

(** ** Walking *)

(** The loop of [WalkLocked].  A turn shortens the path; one more than its length is enough. *)
Fixpoint walk_loop (fuel : nat) (vn : vref) (path_remaining : list Z) : M (Z + vref * list Z) :=
  match fuel with
  | O => undefined
  | S fuel =>
      let '(segment, is_last_segment) := FindNextPathSegment path_remaining in
      let next vn :=
        if (is_last_segment : bool) then mret (inr (vn, [dot]))
        else walk_loop fuel vn (drop (length segment + 1) path_remaining) in
      if Nat.ltb NAME_MAX (length segment) then mret (inl ZX_ERR_BAD_PATH)
      else if decide (segment = [dot]) then next vn
      else
        n ← node vn;
        match node_type_ n with
        | Local _ => mret (inl ZX_ERR_NOT_FOUND)
        | Intermediate _ by_name _ =>
            match Lookup by_name segment with
            | None => mret (inl ZX_ERR_NOT_FOUND)
            | Some child => next child
            end
        | Remote _ => mret (inr (vn, path_remaining))
        end
  end.

(** A status, or the node and the rest of the path. *)
Definition WalkLocked (vn : vref) (path : list Z) : M (Z + vref * list Z) :=
  if decide (path = [] \/ path = [dot]) then mret (inr (vn, path))
  else walk_loop (S (length path)) vn path.

(** ** Opening *)

(** What is opened. *)
Inductive opened :=
| OpenLocal (on_open : Z * Z)
| OpenDirectory (vn : vref)
| OpenRemote (connection : Z) (path : list Z).

(** [Open] after the mutex was given back: [create] is the flag to create. *)
Definition open_node (create : bool) (vn : vref) (path : list Z) : M (Z + opened) :=
  n ← node vn;
  mret match node_type_ n with
    | Local l => match Local_Open l with inl e => inl e | inr cb => inr (OpenLocal cb) end
    | Intermediate _ _ _ => inr (OpenDirectory vn)
    | Remote s => if create && bool_decide (path = [dot]) then inl ZX_ERR_ALREADY_EXISTS else inr (OpenRemote s path)
    end.

Definition Open (vn : vref) (path : list Z) (create : bool) : M (Z + opened) :=
  r ← WalkLocked vn path;
  match r with inl e => mret (inl e) | inr (vn, path) => open_node create vn path end.

(** [Connect]: the connection and the path that is opened there. *)
Definition connect_node (vn : vref) (path : list Z) : M (Z + Z * list Z) :=
  n ← node vn;
  mret match node_type_ n with Remote s => inr (s, path) | _ => inl ZX_ERR_NOT_SUPPORTED end.

Definition Connect (path : list Z) : M (Z + Z * list Z) :=
  if negb (starts_with_slash path) then mret (inl ZX_ERR_NOT_FOUND)
  else
    root ← get_root;
    r ← WalkLocked root (drop 1 path);
    match r with inl e => mret (inl e) | inr (vn, path) => connect_node vn path end.

Definition IsBound (path : list Z) : M bool :=
  if negb (starts_with_slash path) then mret false
  else
    root ← get_root;
    r ← WalkLocked root (drop 1 path);
    match r with
    | inl _ => mret false
    | inr (vn, path) =>
        n ← node vn;
        mret match node_type_ n with
          | Intermediate _ _ _ => false
          | _ => bool_decide (path = [dot])
          end
    end.

(** ** Binding *)

(** [builder]: a local node, or the remote that zxio::CreateDirectory made of a channel, with
    the status of that. *)
Inductive builder := BuildLocal (on_open : Z * Z) | BuildRemote (created : Z) (connection : Z).

Definition build (b : builder) (parent : option vref) (name : list Z) : M (Z * vref) :=
  match b with
  | BuildLocal cb => Create parent name (Local (Some cb))
  | BuildRemote created s =>
      if negb (created =? ZX_OK) then root ← get_root; mret (created, root)
      else Create parent name (Remote s)
  end.

Definition cleanup (first_new_node : option vref) : M unit :=
  match first_new_node with Some v => Unlink v | None => mret tt end.

Fixpoint bind_loop (fuel : nat) (b : builder) (vn : vref) (first_new_node : option vref) (path : list Z) : M Z :=
  match fuel with
  | O => undefined
  | S fuel =>
      let '(segment, is_last_segment) := FindNextPathSegment path in
      let fail e := cleanup first_new_node ;; mret e in
      if Nat.ltb NAME_MAX (length segment) then fail ZX_ERR_BAD_PATH
      else
        n ← node vn;
        match node_type_ n with
        | Intermediate _ by_name _ =>
            if (is_last_segment : bool) then
              match Lookup by_name segment with
              | Some _ => fail ZX_ERR_ALREADY_EXISTS
              | None =>
                  '(status, _) ← build b (Some vn) segment;
                  if negb (status =? ZX_OK) then fail status else mret ZX_OK
              end
            else
              let rest := drop (length segment + 1) path in
              match Lookup by_name segment with
              | Some child => bind_loop fuel b child first_new_node rest
              | None =>
                  '(status, child) ← Create (Some vn) segment (Intermediate 1 [] []);
                  if negb (status =? ZX_OK) then fail status
                  else
                    let first_new_node := match first_new_node with None => Some child | Some v => Some v end in
                    bind_loop fuel b child first_new_node rest
              end
        | _ => fail ZX_ERR_NOT_SUPPORTED
        end
  end.

Definition Bind (path : list Z) (b : builder) : M Z :=
  if negb (starts_with_slash path) then mret ZX_ERR_INVALID_ARGS
  else
    let path := drop 1 path in
    root ← get_root;
    if decide (path = []) then
      n ← node root;
      match node_type_ n with
      | Intermediate _ _ by_id =>
          if negb (bool_decide (by_id = [])) then mret ZX_ERR_NOT_SUPPORTED
          else
            '(status, vn) ← build b None [];
            if negb (status =? ZX_OK) then mret status else set_root vn ;; mret ZX_OK
      | _ => mret ZX_ERR_ALREADY_EXISTS
      end
    else bind_loop (S (length path)) b root None path.

Definition BindRemote (path : list Z) (valid : bool) (created connection : Z) : M Z :=
  if negb valid then mret ZX_ERR_BAD_HANDLE else Bind path (BuildRemote created connection).
Definition BindLocal (path : list Z) (on_open : Z * Z) : M Z := Bind path (BuildLocal on_open).

(** ** Unbinding *)

Definition ResetRoot : M unit :=
  '(_, vn) ← Create None [] (Intermediate 1 [] []);
  set_root vn.

Definition handle_terminal_node (removable_origin_vn : option vref) (vn : vref) (is_last_segment : bool) : M Z :=
  if negb is_last_segment then mret ZX_ERR_NOT_FOUND
  else Unlink (match removable_origin_vn with Some v => v | None => vn end) ;; mret ZX_OK.

Fixpoint unbind_loop (fuel : nat) (vn : vref) (removable_origin_vn : option vref) (path : list Z) : M Z :=
  match fuel with
  | O => undefined
  | S fuel =>
      let '(segment, is_last_segment) := FindNextPathSegment path in
      if Nat.ltb NAME_MAX (length segment) then mret ZX_ERR_BAD_PATH
      else
        n ← node vn;
        match node_type_ n with
        | Intermediate _ by_name _ =>
            match Lookup by_name segment with
            | None => mret ZX_ERR_NOT_FOUND
            | Some vn =>
                n ← node vn;
                match node_type_ n with
                | Intermediate _ _ by_id =>
                    if (is_last_segment : bool) then mret ZX_ERR_NOT_FOUND
                    else
                      let removable :=
                        if Nat.ltb 1 (length by_id) then None
                        else match removable_origin_vn with None => Some vn | Some v => Some v end in
                      unbind_loop fuel vn removable (drop (length segment + 1) path)
                | _ => handle_terminal_node removable_origin_vn vn is_last_segment
                end
            end
        | _ => mret ZX_ERR_BAD_PATH
        end
  end.

Definition Unbind (path : list Z) : M Z :=
  if negb (starts_with_slash path) then mret ZX_ERR_INVALID_ARGS
  else
    let path := drop 1 path in
    root ← get_root;
    if decide (path = []) then
      n ← node root;
      match node_type_ n with
      | Intermediate _ _ _ => mret ZX_ERR_NOT_FOUND
      | _ => status ← handle_terminal_node None root true; ResetRoot ;; mret status
      end
    else unbind_loop (S (length path)) root None path.

(** ** The root *)

(** [SetRoot] with the node of an open local directory, or with a remote that was cloned from
    another object. *)
Definition swap_root (vn : vref) : M Z :=
  root ← get_root;
  if decide (vn = root) then mret ZX_OK
  else UnlinkFromParent vn ;; set_root vn ;; Unlink root ;; mret ZX_OK.

Definition SetRoot (io : vref + Z * Z) : M Z :=
  match io with
  | inl vn => swap_root vn
  | inr (created, connection) =>
      if negb (created =? ZX_OK) then mret created
      else '(_, vn) ← Create None [] (Remote connection); swap_root vn
  end.

(** [OpenRoot]: a directory, or the clone of a remote.  [endpoints] is the status of
    fidl::CreateEndpoints, [clone] what zxio_clone returns. *)
Inductive root_object := RootDirectory (vn : vref) | RootRemote (handle : Z).

Definition OpenRoot (endpoints : Z) (clone : Z -> Z + Z) : M (Z + root_object) :=
  root ← get_root;
  n ← node root;
  mret match node_type_ n with
    | Local _ => inl ZX_ERR_NOT_SUPPORTED
    | Intermediate _ _ _ => inr (RootDirectory root)
    | Remote s =>
        if negb (endpoints =? ZX_OK) then inl endpoints
        else match clone s with inl e => inl e | inr handle => inr (RootRemote handle) end
    end.

(** The namespace when it is made, and its destructor. *)
Definition fdio_namespace_new : option fs :=
  '(_, s) ← ResetRoot {| nodes := []; root_ := 0%nat |}; Some s.
Definition fdio_namespace_destroy : M unit := root ← get_root; Unlink root.

(** ** Reading a directory *)

Record DirentIteratorState := { last_seen : Z; encountered_dot : bool }.

(** The status, the name and the state of the iterator. *)
Definition Readdir (vn : vref) (st : DirentIteratorState) : M ((Z + list Z) * DirentIteratorState) :=
  let populate_entry name := if Nat.ltb NAME_MAX (length name) then inl ZX_ERR_INVALID_ARGS else inr name in
  if negb (encountered_dot st) then mret (populate_entry [dot], {| last_seen := last_seen st; encountered_dot := true |})
  else
    r ← Vnode_Readdir vn (last_seen st);
    match r with
    | inr (Some (id, child)) =>
        n ← node child;
        mret (populate_entry (name_ n), {| last_seen := id; encountered_dot := true |})
    | _ => mret (inl ZX_ERR_NOT_FOUND, st)
    end.

(** ** Exporting *)

Section Exporting.
Context {B : Type} `{StringBuffer B}.

(** The two passes over the tree: the first finds the number of entries and of bytes to make
    room for, the second fills them.  A write past that room is undefined.  [clone] is the
    handle zxio_clone returns for a connection, or its error. *)
Definition count_callback (path : list Z) (_ : Z) (x : nat * nat) : nat * nat :=
  (x.1 + 1, x.2 + length path + 1)%nat.

Record flat_namespace := { flat_handle : list Z; flat_path : list (list Z); buffer : list Z }.
Definition flat_empty : flat_namespace := {| flat_handle := []; flat_path := []; buffer := [] |}.

Definition export_callback (clone : Z -> Z + Z) (count buffer_size : nat) (path : list Z) (remote : Z)
    (x : option flat_namespace) : option flat_namespace :=
  flat ← x;
  match clone remote with
  | inl _ => Some flat
  | inr handle =>
      if Nat.ltb (length (flat_handle flat)) count && Nat.leb (length (buffer flat) + length path + 1) buffer_size
      then Some {| flat_handle := flat_handle flat ++ [handle]; flat_path := flat_path flat ++ [path];
                   buffer := buffer flat ++ path ++ [0] |}
      else None
  end.

Definition export_count (empty : B) (vn : vref) : M (nat * nat) := EnumerateRemotes empty count_callback vn (0, 0)%nat.
Definition export_fill (empty : B) (clone : Z -> Z + Z) (vn : vref) (room : nat * nat) : M flat_namespace :=
  x ← EnumerateRemotes empty (export_callback clone room.1 room.2) vn (Some flat_empty);
  lift x.

Definition Export (empty : B) (clone : Z -> Z + Z) : M flat_namespace :=
  root ← get_root;
  room ← export_count empty root;
  export_fill empty clone root room.

(** ** The C interface *)

(** The path a program gives, cleaned; a null pointer is [None]. *)
Definition with_clean_path {A} (empty : B) (path : option (list Z)) (null bad : A) (k : list Z -> bool -> M A) : M A :=
  match path with
  | None => mret null
  | Some path =>
      '(ok, clean, is_dir) ← lift (CleanPath path empty false);
      if (ok : bool) then k (contents clean) is_dir else mret bad
  end.

(** A handle that the caller gives away is wrapped, and so closed in the end, only when the
    path was cleaned: the flag says whether it was. *)
Definition fdio_ns_open (empty : B) (path : option (list Z)) : M ((Z + Z * list Z) * bool) :=
  with_clean_path empty path (inl ZX_ERR_INVALID_ARGS, false) (inl ZX_ERR_BAD_PATH, false) (fun clean _ =>
    r ← Connect clean; mret (r, true)).
Definition fdio_ns_connect (empty : B) (path : option (list Z)) (describe : bool) : M ((Z + Z * list Z) * bool) :=
  if describe then mret (inl ZX_ERR_INVALID_ARGS, false) else fdio_ns_open empty path.
Definition fdio_ns_service_connect (empty : B) (path : option (list Z)) : M ((Z + Z * list Z) * bool) :=
  fdio_ns_open empty path.
Definition fdio_ns_bind_local (empty : B) (path : option (list Z)) (on_open : option (Z * Z)) : M Z :=
  match on_open with
  | None => mret ZX_ERR_INVALID_ARGS
  | Some cb =>
      with_clean_path empty path ZX_ERR_INVALID_ARGS ZX_ERR_BAD_PATH (fun clean is_dir =>
        if (is_dir : bool) then mret ZX_ERR_INVALID_ARGS else BindLocal clean cb)
  end.
Definition fdio_ns_bind (empty : B) (path : option (list Z)) (valid : bool) (created connection : Z) : M (Z * bool) :=
  with_clean_path empty path (ZX_ERR_INVALID_ARGS, false) (ZX_ERR_BAD_PATH, false) (fun clean _ =>
    status ← BindRemote clean valid created connection; mret (status, true)).
(** [cloned] is the status of fdio_fd_clone, whose handle is bound; without one there is
    nothing to close. *)
Definition fdio_ns_bind_fd (empty : B) (path : option (list Z)) (cloned : Z) (valid : bool) (created connection : Z) : M (Z * bool) :=
  if negb (cloned =? ZX_OK) then mret (cloned, true) else fdio_ns_bind empty path valid created connection.
Definition fdio_ns_unbind (empty : B) (path : option (list Z)) : M Z :=
  with_clean_path empty path ZX_ERR_INVALID_ARGS ZX_ERR_BAD_PATH (fun clean _ => Unbind clean).
Definition fdio_ns_is_bound (empty : B) (path : option (list Z)) : M bool :=
  with_clean_path empty path false false (fun clean _ => IsBound clean).
End Exporting.
