(* ===== verification/NamespaceSpec.v ===== *)
(** * The local namespace: specification

    A namespace is a finite map from lists of names to what is bound there.  The operations of
    the namespace are functions of that map; the tree, the nodes between the root and a
    binding, and the order in which they are made and removed do not appear. *)

From stdpp Require Import gmap.
From S2P Require Import Prelude CleanPath CleanPathTheorems Vnode Namespace.

Inductive bound := BLocal (on_open : Z * Z) | BRemote (connection : Z).
#[export] Instance bound_eq_dec : EqDecision bound.
Proof. solve_decision. Defined.

Abbreviation bindings := (gmap (list (list Z)) bound).

(** Something is bound at or under [p]. *)
Definition under (m : bindings) (p : list (list Z)) : bool :=
  existsb (fun e => bool_decide (p `prefix_of` e.1)) (map_to_list m).

Definition too_long (w : list Z) : bool := Nat.ltb NAME_MAX (length w).

(** ** Names to bindings *)

(** From the names [pre], through [ws]: an error, or the names that were followed and the rest
    of the path, [.] when nothing is left. *)
Fixpoint spec_walk (m : bindings) (pre ws : list (list Z)) : Z + list (list Z) * list Z :=
  match ws with
  | [] => inr (pre, [dot])
  | w :: ws' =>
      if too_long w then inl ZX_ERR_BAD_PATH
      else if decide (w = [dot]) then spec_walk m pre ws'
      else match m !! pre with
        | Some (BLocal _) => inl ZX_ERR_NOT_FOUND
        | Some (BRemote _) => inr (pre, join ws)
        | None => if under m (pre ++ [w]) then spec_walk m (pre ++ [w]) ws' else inl ZX_ERR_NOT_FOUND
        end
  end.

Definition spec_resolve (m : bindings) (path : list Z) : Z + list (list Z) * list Z :=
  if decide (path = [] \/ path = [dot]) then inr ([], path) else spec_walk m [] (split path).

Definition spec_rooted {A : Type} (m : bindings) (path : list Z) (fail : Z -> A) (k : option bound -> list Z -> A) : A :=
  if negb (starts_with_slash path) then fail ZX_ERR_NOT_FOUND
  else match spec_resolve m (drop 1 path) with inl e => fail e | inr (p, rest) => k (m !! p) rest end.

Definition spec_connect (m : bindings) (path : list Z) : Z + Z * list Z :=
  spec_rooted m path inl (fun b rest => match b with Some (BRemote c) => inr (c, rest) | _ => inl ZX_ERR_NOT_SUPPORTED end).
Definition spec_is_bound (m : bindings) (path : list Z) : bool :=
  spec_rooted m path (fun _ => false) (fun b rest => match b with Some _ => bool_decide (rest = [dot]) | None => false end).

(** What is opened, without the node of a directory. *)
Inductive found := FoundLocal (on_open : Z * Z) | FoundDirectory | FoundRemote (connection : Z) (path : list Z).
Definition found_of (o : opened) : found :=
  match o with OpenLocal cb => FoundLocal cb | OpenDirectory _ => FoundDirectory | OpenRemote c path => FoundRemote c path end.

(** [path] is relative to the root. *)
Definition spec_open (m : bindings) (path : list Z) (create : bool) : Z + found :=
  match spec_resolve m path with
  | inl e => inl e
  | inr (p, rest) =>
      match m !! p with
      | Some (BLocal cb) => inr (FoundLocal cb)
      | None => inr FoundDirectory
      | Some (BRemote c) => if create && bool_decide (rest = [dot]) then inl ZX_ERR_ALREADY_EXISTS else inr (FoundRemote c rest)
      end
  end.

(** ** Changes *)

Definition spec_build (b : builder) : Z + bound :=
  match b with
  | BuildLocal cb => inr (BLocal cb)
  | BuildRemote created c => if created =? ZX_OK then inr (BRemote c) else inl created
  end.

Definition spec_put (m : bindings) (p : list (list Z)) (b : builder) : Z * bindings :=
  match spec_build b with inl e => (e, m) | inr d => (ZX_OK, <[p := d]> m) end.

(** The first name that is too long, lies under a binding or, at the end, is taken, decides. *)
Fixpoint spec_bind_at (m : bindings) (pre ws : list (list Z)) (b : builder) : Z * bindings :=
  match ws with
  | [] => (ZX_OK, m)
  | w :: ws' =>
      if too_long w then (ZX_ERR_BAD_PATH, m)
      else match m !! pre with
        | Some _ => (ZX_ERR_NOT_SUPPORTED, m)
        | None =>
            match ws' with
            | [] => if under m (pre ++ [w]) then (ZX_ERR_ALREADY_EXISTS, m) else spec_put m (pre ++ [w]) b
            | _ :: _ => spec_bind_at m (pre ++ [w]) ws' b
            end
        end
  end.

Definition spec_bind (m : bindings) (path : list Z) (b : builder) : Z * bindings :=
  if negb (starts_with_slash path) then (ZX_ERR_INVALID_ARGS, m)
  else if decide (drop 1 path = []) then
    match m !! [] with
    | Some _ => (ZX_ERR_ALREADY_EXISTS, m)
    | None => if bool_decide (m = ∅) then spec_put m [] b else (ZX_ERR_NOT_SUPPORTED, m)
    end
  else spec_bind_at m [] (split (drop 1 path)) b.

Fixpoint spec_unbind_at (m : bindings) (pre ws : list (list Z)) : Z * bindings :=
  match ws with
  | [] => (ZX_ERR_NOT_FOUND, m)
  | w :: ws' =>
      if too_long w then (ZX_ERR_BAD_PATH, m)
      else match m !! pre with
        | Some _ => (ZX_ERR_BAD_PATH, m)
        | None =>
            match m !! (pre ++ [w]), ws' with
            | Some _, [] => (ZX_OK, delete (pre ++ [w]) m)
            | Some _, _ :: _ => (ZX_ERR_NOT_FOUND, m)
            | None, _ => if under m (pre ++ [w]) then spec_unbind_at m (pre ++ [w]) ws' else (ZX_ERR_NOT_FOUND, m)
            end
        end
  end.

Definition spec_unbind (m : bindings) (path : list Z) : Z * bindings :=
  if negb (starts_with_slash path) then (ZX_ERR_INVALID_ARGS, m)
  else if decide (drop 1 path = []) then
    match m !! [] with Some _ => (ZX_OK, ∅) | None => (ZX_ERR_NOT_FOUND, m) end
  else spec_unbind_at m [] (split (drop 1 path)).

(** ** Sequences of operations *)

Inductive op :=
| OpBind (path : list Z) (b : builder)
| OpUnbind (path : list Z)
| OpIsBound (path : list Z)
| OpConnect (path : list Z)
| OpOpen (path : list Z) (create : bool).

Inductive out :=
| OutStatus (status : Z)
| OutBool (b : bool)
| OutConnect (r : Z + Z * list Z)
| OutOpen (r : Z + found).

Definition do_op (o : op) : M out :=
  match o with
  | OpBind path b => status ← Bind path b; mret (OutStatus status)
  | OpUnbind path => status ← Unbind path; mret (OutStatus status)
  | OpIsBound path => b ← IsBound path; mret (OutBool b)
  | OpConnect path => r ← Connect path; mret (OutConnect r)
  | OpOpen path create =>
      root ← get_root; r ← Open root path create;
      mret (OutOpen match r with inl e => inl e | inr o => inr (found_of o) end)
  end.

Definition spec_op (o : op) (m : bindings) : out * bindings :=
  match o with
  | OpBind path b => let r := spec_bind m path b in (OutStatus r.1, r.2)
  | OpUnbind path => let r := spec_unbind m path in (OutStatus r.1, r.2)
  | OpIsBound path => (OutBool (spec_is_bound m path), m)
  | OpConnect path => (OutConnect (spec_connect m path), m)
  | OpOpen path create => (OutOpen (spec_open m path create), m)
  end.

Fixpoint do_ops (ops : list op) : M (list out) :=
  match ops with
  | [] => mret []
  | o :: ops => r ← do_op o; rs ← do_ops ops; mret (r :: rs)
  end.

Fixpoint spec_ops (ops : list op) (m : bindings) : list out * bindings :=
  match ops with
  | [] => ([], m)
  | o :: ops => let '(r, m) := spec_op o m in let '(rs, m) := spec_ops ops m in (r :: rs, m)
  end.
