(* ===== verification/NamespaceInv.v ===== *)
(** * The local namespace: invariant

    The invariant of the store of a namespace, the map of bindings it stands for, and the
    three changes the operations make: a node is added, a subtree is unlinked, the root is
    replaced. *)

From stdpp Require Import gmap sets.
From S2P Require Import Prelude CleanPath CleanPathTheorems OrderedMap Vnode VnodeTree VnodeUnlink Namespace NamespaceSpec.

Definition is_directory (n : LocalVnode) : bool := match node_type_ n with Intermediate _ _ _ => true | _ => false end.

Definition binding_of (n : LocalVnode) : option bound :=
  match node_type_ n with Local (Some cb) => Some (BLocal cb) | Remote c => Some (BRemote c) | _ => None end.

(** Nodes that are not in the tree have no entries; only they can lack a callback. *)
Record inv (ns : list LocalVnode) (r : vref) : Prop := {
  inv_forest : forest ns;
  inv_root : exists n, ns !! r = Some n /\ parent_ n = None;
  inv_detached c n : ns !! c = Some n -> parent_ n = None -> c <> r -> children ns c = [];
  inv_callback c n : ns !! c = Some n -> parent_ n <> None \/ c = r -> node_type_ n <> Local None;
}.

(** No directory is empty, but for the root and [ex]. *)
Definition full (ns : list LocalVnode) (ex : option vref) : Prop := forall c n,
  ns !! c = Some n -> parent_ n <> None -> Some c <> ex -> is_directory n = true -> children ns c <> [].

Definition bound_at (ns : list LocalVnode) (r : vref) (p : list (list Z)) : option bound :=
  v ← follow ns r p; n ← ns !! v; binding_of n.
Definition binds (ns : list LocalVnode) (r : vref) (m : bindings) : Prop := forall p, m !! p = bound_at ns r p.

(** The store stands for the map. *)
Record represents (s : fs) (m : bindings) : Prop := {
  rep_inv : inv (nodes s) (root_ s);
  rep_full : full (nodes s) None;
  rep_binds : binds (nodes s) (root_ s) m;
}.

(** ** Reading the map in the store *)

Lemma under_spec m p : under m p = true <-> exists q b, m !! q = Some b /\ p `prefix_of` q.
Proof.
  unfold under. rewrite existsb_exists. split.
  - intros ([q b] & Hin%list_elem_of_In & H%bool_decide_eq_true). apply elem_of_map_to_list in Hin. by exists q, b.
  - intros (q & b & Hq & Hp). exists (q, b). split; [by apply list_elem_of_In, elem_of_map_to_list|]. by apply bool_decide_eq_true.
Qed.

Lemma root_lt ns r : inv ns r -> (r < length ns)%nat.
Proof. intros [_ (n & Hn & _) _ _]. by eapply lookup_lt_Some. Qed.

Lemma follow_node ns r p v : inv ns r -> follow ns r p = Some v -> exists n, ns !! v = Some n.
Proof.
  intros I Hf. apply lookup_lt_is_Some_2. eapply follow_exists; [apply forest_subtree, I | by apply root_lt | done].
Qed.

(** A node other than the root that names lead to has a parent. *)
Lemma follow_linked ns r p v n : inv ns r -> follow ns r p = Some v -> ns !! v = Some n ->
  (p = [] /\ v = r /\ parent_ n = None) \/ (p <> [] /\ v <> r /\ parent_ n <> None).
Proof.
  intros I Hf Hn. destruct (inv_root _ _ I) as (nr & Hnr & Hpr). destruct p as [|x p _] using rev_ind.
  - simpl in Hf. left. simplify_eq. done.
  - right. destruct (follow_last _ _ _ _ _ (forest_subtree _ r (inv_forest _ _ I)) Hf) as (d & n' & Hd & Hn' & Hp & _).
    simplify_eq. split; [by destruct p|]. split; [intros ->; congruence | congruence].
Qed.

Lemma follow_callback ns r p v n : inv ns r -> follow ns r p = Some v -> ns !! v = Some n -> node_type_ n <> Local None.
Proof. intros I Hf Hn. apply (inv_callback _ _ I v n Hn). destruct (follow_linked _ _ _ _ _ I Hf Hn) as [(_ & ? & _)|(_ & _ & ?)]; auto. Qed.

Lemma binds_node ns r m p v n : binds ns r m -> follow ns r p = Some v -> ns !! v = Some n -> m !! p = binding_of n.
Proof. intros B Hf Hn. rewrite (B p). unfold bound_at. rewrite Hf. simpl. by rewrite Hn. Qed.

Lemma binds_followed ns r m q b : binds ns r m -> m !! q = Some b -> exists v n, follow ns r q = Some v /\ ns !! v = Some n /\ binding_of n = Some b.
Proof.
  intros B Hq. rewrite (B q) in Hq. unfold bound_at in Hq. destruct (follow ns r q) as [v|]; [|done]. simpl in Hq.
  destruct (ns !! v) as [n|] eqn:E; [|done]. by exists v, n.
Qed.

Lemma follow_prefix ns r p q v : p `prefix_of` q -> follow ns r q = Some v -> exists u, follow ns r p = Some u.
Proof. intros [k ->]. rewrite follow_app. destruct (follow ns r p) as [u|]; [eauto|done]. Qed.

(** From every node but an empty root, names lead to a binding. *)
Lemma full_bound ns r m : inv ns r -> full ns None -> binds ns r m -> forall p v, follow ns r p = Some v -> p <> [] ->
  exists q b, m !! q = Some b /\ p `prefix_of` q.
Proof.
  intros I Fu B p v. remember (length ns - v)%nat as k eqn:Hk. revert p v Hk.
  induction (lt_wf k) as [k _ IH]. intros p v -> Hf Hp. destruct (follow_node _ _ _ _ I Hf) as [n Hn].
  assert (Hm := binds_node _ _ _ _ _ _ B Hf Hn). destruct (binding_of n) as [b|] eqn:Eb; [by exists p, b|].
  destruct (follow_linked _ _ _ _ _ I Hf Hn) as [(? & _)|(_ & _ & Hpar)]; [done|].
  assert (Hcb := follow_callback _ _ _ _ _ I Hf Hn).
  assert (Hch : children ns v <> []).
  { apply (Fu v n Hn Hpar); [done|]. unfold binding_of in Eb. unfold is_directory. destruct (node_type_ n) as [[]| |]; done. }
  destruct (children ns v) as [|[x [id c]] l] eqn:Ech; [done|].
  assert (Hin : (x, (id, c)) ∈ children ns v) by (rewrite Ech; left).
  destruct (child_ok _ (inv_forest _ _ I) _ _ _ _ Hin) as (Hlt & nc & Hnc & _).
  assert (Hc : follow ns r (p ++ [x]) = Some c).
  { rewrite follow_snoc, Hf. simpl. eapply In_Lookup; [apply children_NoDup, I | done]. }
  apply lookup_lt_Some in Hnc. destruct (IH (length ns - c)%nat ltac:(lia) (p ++ [x]) c eq_refl Hc) as (q & b & Hq & Hpre); [by destruct p|].
  exists q, b. split; [done|]. etrans; [|done]. by apply prefix_app_r.
Qed.

Lemma under_follow s m p : represents s m -> p <> [] -> under m p = true <-> exists v, follow (nodes s) (root_ s) p = Some v.
Proof.
  intros [I Fu B] Hp. rewrite under_spec. split.
  - intros (q & b & Hq & Hpre). destruct (binds_followed _ _ _ _ _ B Hq) as (v & _ & Hf & _). by eapply follow_prefix.
  - intros [v Hf]. by eapply full_bound.
Qed.

(** Nothing is bound under a binding. *)
Lemma bound_leaf ns r m p q b b' : inv ns r -> binds ns r m -> m !! p = Some b -> m !! q = Some b' -> p `prefix_of` q -> p = q.
Proof.
  intros I B Hp Hq [k ->]. destruct k as [|x k]; [by rewrite app_nil_r|].
  destruct (binds_followed _ _ _ _ _ B Hp) as (v & n & Hv & Hn & Hb).
  destruct (binds_followed _ _ _ _ _ B Hq) as (w & _ & Hw & _). rewrite follow_app, Hv in Hw. simpl in Hw.
  replace (children ns v) with (@nil (list Z * (Z * vref))) in Hw; [done|].
  unfold children, dir. rewrite Hn. simpl. unfold binding_of in Hb. by destruct (node_type_ n).
Qed.

(** ** Adding a node *)

Section Add.
Context (ns : list LocalVnode) (r p : vref) (np : LocalVnode) (next : Z) (bn : entries) (bi : list (Z * vref)) (x : list Z) (t : node_type)
  (q : list (list Z)).
Hypotheses (I : inv ns r) (Hp : ns !! p = Some np) (Et : node_type_ np = Intermediate next bn bi)
  (Hx : Lookup bn x = None) (Hleaf : leaf t) (Hq : follow ns r q = Some p) (Hcb : t <> Local None).
Local Abbreviation ns' := (with_child ns p np next bn bi x t).

Lemma inv_added : inv ns' r.
Proof.
  assert (Hr := root_lt _ _ I). assert (Hlt := lookup_lt_Some _ _ _ Hp). split.
  - eapply forest_added; [apply I|done..].
  - destruct (inv_root _ _ I) as (nr & Hnr & Hpr). destruct (added_lookup_old ns p np next bn bi x t Hp r nr Hnr) as (n' & Hn' & Hpar & _).
    exists n'. split; [done|congruence].
  - intros c n Hc Hpar Hcr. erewrite added_children by done. rewrite (added_lookup ns p np) in Hc by done.
    destruct (decide (c = length ns)); [done|]. destruct (decide (c = p)) as [->|].
    + exfalso. simplify_eq. simpl in Hpar. destruct (follow_linked _ _ _ _ _ I Hq Hp) as [(_ & ? & _)|(_ & _ & ?)]; done.
    + by apply (inv_detached _ _ I c n).
  - intros c n Hc Hl. rewrite (added_lookup ns p np) in Hc by done.
    destruct (decide (c = length ns)); [by simplify_eq|]. destruct (decide (c = p)); [by simplify_eq|].
    by apply (inv_callback _ _ I c).
Qed.

Lemma full_added ex : full ns ex -> ex = None \/ ex = Some p ->
  full ns' (if is_directory {| node_type_ := t; parent_ := Some p; name_ := x |} then Some (length ns) else None).
Proof.
  intros Fu Hex.
  intros c n Hc Hpar Hne Hd. erewrite added_children by done. rewrite (added_lookup ns p np) in Hc by done.
  destruct (decide (c = length ns)) as [->|Hcl].
  { simplify_eq. unfold is_directory in *. simpl in *. destruct t; done. }
  destruct (decide (c = p)) as [->|Hcp].
  - intros E. assert (P := tree_insert_perm name_ltb x (next, length ns) bn). rewrite E in P. by apply Permutation_nil_cons in P.
  - apply (Fu c n); [done|done| |done]. destruct Hex as [->| ->]; congruence.
Qed.

Lemma bound_added y : bound_at ns' r y =
  if decide (y = q ++ [x]) then binding_of {| node_type_ := t; parent_ := Some p; name_ := x |} else bound_at ns r y.
Proof.
  unfold bound_at. rewrite (follow_added ns p np next bn bi x t) with (q := q); [|apply I|done..|by apply root_lt|done].
  destruct (decide (y = q ++ [x])) as [->|_]; simpl.
  - rewrite (added_lookup ns p np) by done. by rewrite decide_True.
  - destruct (follow ns r y) as [v|] eqn:E; simpl; [|done]. destruct (follow_node _ _ _ _ I E) as [n Hn].
    assert (Hlt := lookup_lt_Some _ _ _ Hn). rewrite (added_lookup ns p np), decide_False by (done || lia).
    destruct (decide (v = p)) as [->|]; [|done]. rewrite Hp. simpl. unfold binding_of. simpl. by rewrite Et.
Qed.
End Add.

(** ** Unlinking a subtree *)

Section Unlinked.
Context (ns ns1 ns' : list LocalVnode) (r w : vref) (q : list (list Z)).
Hypotheses (I : inv ns r) (Hq : follow ns r q = Some w) (Hne : q <> []) (R : retired ns ns1 w) (D : detached ns1 ns' w).

Lemma ns_forest : forest ns.
Proof. apply I. Qed.

Lemma retired_w : exists n n1, ns !! w = Some n /\ ns1 !! w = Some n1 /\ parent_ n1 = parent_ n /\ parent_ n <> None /\ w <> r.
Proof.
  destruct (follow_node _ _ _ _ I Hq) as [n Hn]. exists n, (retire n).
  destruct (follow_linked _ _ _ _ _ I Hq Hn) as [(? & _)|(_ & ? & ?)]; [done|].
  split; [done|]. by rewrite (retired_in _ _ _ R _ _ (below_refl _ _) Hn), decide_True.
Qed.

Lemma follow_unlinked y : follow ns' r y = if decide (q `prefix_of` y) then None else follow ns r y.
Proof.
  destruct retired_w as (n & n1 & Hn & Hn1 & _). assert (F1 := forest_retired _ _ _ ns_forest R).
  rewrite (follow_detached ns1 ns' w n1 F1 Hn1 D r q); [|by eapply follow_retired_self, Hq; [apply ns_forest | done] |done].
  destruct (decide (q `prefix_of` y)); [done|]. by eapply follow_retired; [apply ns_forest|..].
Qed.

(** What a node of the new store was. *)
Lemma unlinked_lookup_inv c n' : ns' !! c = Some n' -> exists n, ns !! c = Some n /\
  (below ns w c /\ parent_ n' = None /\ children ns' c = [] \/
   ~ below ns w c /\ parent_ n' = parent_ n /\ is_directory n' = is_directory n /\ binding_of n' = binding_of n /\
   (node_type_ n' = Local None -> node_type_ n = Local None) /\
   forall x id d, (x, (id, d)) ∈ children ns' c <-> (x, (id, d)) ∈ children ns c /\ d <> w).
Proof.
  destruct retired_w as (nw & nw1 & Hnw & Hnw1 & Hparw & _). assert (F1 := forest_retired _ _ _ ns_forest R). intros Hc.
  assert (HIn := detached_children_In ns1 ns' w nw1 F1 Hnw1 D).
  destruct (detached_lookup_inv ns1 ns' w nw1 Hnw1 D c n' Hc) as (n1 & Hn1 & _ & Hpar & Ht).
  destruct (retired_lookup_inv ns ns1 w ns_forest R c n1 Hn1) as (n & Hn & _ & [[Hb ->]|[Hb ->]]); exists n; (split; [done|]).
  - right. assert (Hcw : c <> w) by (intros ->; apply Hb, below_refl). rewrite decide_False in Hpar by done.
    rewrite <- (retired_children_out _ _ _ R c Hb). split; [done|]. split; [done|].
    destruct (decide (parent_ nw1 = Some c)) as [Hp|Hp].
    + destruct (detached_parent _ _ _ D _ _ Hnw1 Hp) as (np & next & bn & bi & id & Hnp & Etp & _ & Hp').
      simplify_eq. unfold is_directory, binding_of. simpl. by rewrite Etp.
    + unfold is_directory, binding_of. by rewrite Ht.
  - left. split; [done|]. split.
    + rewrite Hpar. by case_decide.
    + destruct (children ns' c) as [|[x [id d]] l] eqn:E; [done|]. assert (Hin : (x, (id, d)) ∈ children ns' c) by (rewrite E; left).
      apply HIn in Hin as [Hin _]. rewrite (retired_children_in _ _ _ ns_forest R c Hb) in Hin. set_solver.
Qed.

Lemma inv_unlinked : inv ns' r.
Proof.
  destruct retired_w as (nw & nw1 & Hnw & Hnw1 & Hparw & Hpar & Hwr). assert (F1 := forest_retired _ _ _ ns_forest R).
  assert (Hnb : ~ below ns w r).
  { intros Hb. destruct (inv_root _ _ I) as (nr & Hnr & Hpr). by apply (below_no_parent _ _ _ _ ns_forest Hnr Hpr) in Hb. }
  split.
  - by apply (forest_detached ns1 ns' w nw1).
  - assert (Hlt := root_lt _ _ I). rewrite <- (retired_length _ _ _ R), <- (detached_length _ _ _ D) in Hlt.
    destruct (lookup_lt_is_Some_2 _ _ Hlt) as [n' Hn']. exists n'. split; [done|].
    destruct (unlinked_lookup_inv _ _ Hn') as (n & Hn & [(? & _)|(_ & Hp & _)]); [done|].
    destruct (inv_root _ _ I) as (nr & Hnr & Hpr). congruence.
  - intros c n' Hc Hp Hcr. destruct (unlinked_lookup_inv _ _ Hc) as (n & Hn & [(_ & _ & ?)|(_ & Hp' & _ & _ & _ & HIn)]); [done|].
    destruct (children ns' c) as [|[x [id d]] l] eqn:E; [done|].
    assert (Hin : (x, (id, d)) ∈ children ns c) by (apply HIn; left).
    rewrite (inv_detached _ _ I c n) in Hin by congruence. set_solver.
  - intros c n' Hc Hl. destruct (unlinked_lookup_inv _ _ Hc) as (n & Hn & [(Hb & Hp & _)|(_ & Hp' & _ & _ & Ht & _)]).
    + destruct Hl as [| ->]; done.
    + intros E. apply (inv_callback _ _ I c n Hn); [|by apply Ht]. by rewrite <- Hp'.
Qed.

Lemma full_unlinked ex : full ns ex -> (forall e, ex = Some e -> below ns w e) ->
  (forall n u, ns !! w = Some n -> parent_ n = Some u -> u = r \/ exists x id d, (x, (id, d)) ∈ children ns u /\ d <> w) -> full ns' None.
Proof.
  intros Fu Hex Hu c n' Hc Hp _ Hd. destruct retired_w as (nw & nw1 & Hnw & _ & _ & Hparw & _).
  destruct (unlinked_lookup_inv _ _ Hc) as (n & Hn & [(_ & ? & _)|(Hb & Hp' & Hd' & _ & _ & HIn)]); [done|].
  rewrite Hp' in Hp. rewrite Hd' in Hd. assert (Hch := Fu c n Hn Hp). assert (Hcr : c <> r).
  { intros ->. destruct (inv_root _ _ I) as (nr & Hnr & Hpr). congruence. }
  enough (Hx : exists x id d, (x, (id, d)) ∈ children ns c /\ d <> w).
  { destruct Hx as (x & id & d & Hin). apply HIn in Hin. intros E. rewrite E in Hin. set_solver. }
  destruct (decide (parent_ nw = Some c)) as [Hpc|Hpc].
  { destruct (Hu _ _ Hnw Hpc); done. }
  destruct (children ns c) as [|[x [id d]] l] eqn:E.
  - exfalso. apply Hch; [|done|done]. intros <-. by apply Hb, Hex.
  - exists x, id, d. split; [left|]. intros ->. assert (Hin : (x, (id, w)) ∈ children ns c) by (rewrite E; left).
    destruct (child_ok _ ns_forest _ _ _ _ Hin) as (_ & n2 & ? & ? & _). congruence.
Qed.

Lemma bound_unlinked y : bound_at ns' r y = if decide (q `prefix_of` y) then None else bound_at ns r y.
Proof.
  unfold bound_at. rewrite follow_unlinked. destruct (decide (q `prefix_of` y)) as [|Hy]; [done|].
  destruct (follow ns r y) as [v|] eqn:E; simpl; [|done]. destruct (follow_node _ _ _ _ I E) as [n Hn]. rewrite Hn. simpl.
  assert (Hlt := lookup_lt_Some _ _ _ Hn). rewrite <- (retired_length _ _ _ R), <- (detached_length _ _ _ D) in Hlt.
  destruct (lookup_lt_is_Some_2 _ _ Hlt) as [n' Hn']. rewrite Hn'. simpl.
  destruct (unlinked_lookup_inv _ _ Hn') as (n0 & Hn0 & [([t Ht] & _)|(_ & _ & _ & Hb & _)]); [|congruence].
  destruct Hy. exists t. eapply follow_inj; [apply (forest_subtree _ r ns_forest)|done|]. by rewrite follow_app, Hq.
Qed.
End Unlinked.

(** ** A new root *)

Section NewRoot.
Context (ns : list LocalVnode) (t : node_type) (x : list Z).
Hypotheses (F : forest ns) (Hleaf : leaf t).
Local Abbreviation new := {| node_type_ := t; parent_ := None; name_ := x |}.
Local Abbreviation ns' := (ns ++ [new]).

Lemma snoc_lookup d : ns' !! d = if decide (d = length ns) then Some new else ns !! d.
Proof.
  destruct (decide (d = length ns)) as [->|Hd]; [by apply list_lookup_middle|].
  destruct (decide (d < length ns)%nat); [by apply lookup_app_l|]. rewrite !lookup_ge_None_2; [done|lia|]. rewrite length_app. simpl. lia.
Qed.

Lemma snoc_children d : children ns' d = children ns d.
Proof.
  unfold children, dir. rewrite snoc_lookup. destruct (decide (d = length ns)) as [->|]; [|done].
  rewrite (lookup_ge_None_2 ns) by lia. simpl. destruct t; simpl in *; [done| |done]. by destruct Hleaf as (_ & -> & _).
Qed.

Lemma snoc_follow r p : follow ns' r p = follow ns r p.
Proof. apply follow_ext. intros. apply snoc_children. Qed.

Lemma forest_snoc : forest ns'.
Proof.
  split.
  - intros v y id c. rewrite snoc_children. intros Hin. destruct (child_ok _ F _ _ _ _ Hin) as (Hlt & n & Hn & ?).
    split; [done|]. exists n. assert (Hl := lookup_lt_Some _ _ _ Hn). rewrite snoc_lookup, decide_False by lia. done.
  - intros c n v. rewrite snoc_lookup, snoc_children. destruct (decide (c = length ns)); [by intros [= <-]|]. apply F.
  - intros v next bn bi Hd. destruct (dir_Some _ _ _ _ _ Hd) as (n & Hn & Et). rewrite snoc_lookup in Hn.
    destruct (decide (v = length ns)) as [->|].
    + injection Hn as <-. simpl in Et. subst t. destruct Hleaf as (-> & -> & ->). split; try constructor; try done. lia.
    + destruct (dir_ok _ F v _ _ _ (node_dir _ _ _ _ _ _ Hn Et)) as [H1 H2 H3 H4 H5]. split; try done. rewrite length_app. simpl. lia.
Qed.

(** The old tree, without entries, is left behind. *)
Lemma new_root : (forall c n, ns !! c = Some n -> parent_ n = None -> children ns c = []) ->
  (forall c n, ns !! c = Some n -> parent_ n <> None -> node_type_ n <> Local None) -> full ns None -> t <> Local None ->
  inv ns' (length ns) /\ full ns' None /\ forall y, bound_at ns' (length ns) y = if decide (y = []) then binding_of new else None.
Proof.
  intros Hd Hl Fu Hcb. split; [split|split].
  - apply forest_snoc.
  - exists new. by rewrite snoc_lookup, decide_True.
  - intros c n Hc Hp Hne. rewrite snoc_lookup, decide_False in Hc by done. rewrite snoc_children. by apply (Hd c n).
  - intros c n. rewrite snoc_lookup. destruct (decide (c = length ns)); [by intros [= <-]|].
    intros Hc [Hp|?]; [|done]. by apply (Hl c n).
  - intros c n Hc Hp _ Hdir. rewrite snoc_children. rewrite snoc_lookup in Hc. destruct (decide (c = length ns)); [by simplify_eq|].
    by apply (Fu c n).
  - intros [|z y]; unfold bound_at; simpl.
    + by rewrite snoc_lookup, decide_True.
    + rewrite snoc_children. unfold children at 1, dir. rewrite (lookup_ge_None_2 ns) by lia. done.
Qed.
End NewRoot.

Lemma empty_tree ns r : inv ns r -> children ns r = [] -> forall c n, ns !! c = Some n -> parent_ n = None -> children ns c = [].
Proof. intros I Hr c n Hc Hp. destruct (decide (c = r)) as [->|]; [done|]. by apply (inv_detached _ _ I c n). Qed.

Lemma linked_callback ns r : inv ns r -> forall c n, ns !! c = Some n -> parent_ n <> None -> node_type_ n <> Local None.
Proof. intros I c n Hc Hp. apply (inv_callback _ _ I c n Hc). by left. Qed.

(** A bound root that was unlinked. *)
Lemma terminal_unlinked ns ns1 ns' r n : inv ns r -> ns !! r = Some n -> is_directory n = false -> retired ns ns1 r -> detached ns1 ns' r ->
  forest ns' /\ (forall c n, ns' !! c = Some n -> parent_ n = None -> children ns' c = []) /\
  (forall c n, ns' !! c = Some n -> parent_ n <> None -> node_type_ n <> Local None) /\ (full ns None -> full ns' None).
Proof.
  intros I Hn Hd R D. assert (F := inv_forest _ _ I). assert (Hp : parent_ n = None) by (destruct (inv_root _ _ I) as (n' & ? & ?); congruence).
  assert (Ht : forall nx bn bi, node_type_ n <> Intermediate nx bn bi) by (intros; unfold is_directory in Hd; by destruct (node_type_ n)).
  assert (Hb : forall c, below ns r c <-> c = r) by (intros; by apply (not_dir_below ns r n)).
  assert (Hn1 : ns1 !! r = Some (retire n)) by (rewrite (retired_in _ _ _ R r n (below_refl _ _) Hn); by rewrite decide_True).
  assert (Hr' := detached_self _ _ _ D _ Hn1).
  assert (Hsame : forall c, c <> r -> ns' !! c = ns !! c).
  { intros c Hc. rewrite (detached_other _ _ _ D c Hc), (retired_out _ _ _ R c); [done|by rewrite Hb|]. intros n' Hn'. simplify_eq. simpl. by rewrite Hp. }
  split; [exact (forest_detached ns1 ns' r (retire n) (forest_retired ns ns1 r F R) Hn1 D)|]. split_and!.
  - intros c nc Hc Hpc. destruct (decide (c = r)) as [->|Hcr].
    + unfold children, dir. rewrite Hr'. simpl. destruct (node_type_ n) eqn:Et; [done| |done]. by edestruct Ht.
    + rewrite (children_ext ns) by auto. rewrite Hsame in Hc by done. by apply (inv_detached _ _ I c nc).
  - intros c nc Hc Hpc. destruct (decide (c = r)) as [->|Hcr]; [by simplify_eq|]. rewrite Hsame in Hc by done. by apply (linked_callback _ _ I c).
  - intros Fu c nc Hc Hpc _ Hdc. destruct (decide (c = r)) as [->|Hcr]; [by simplify_eq|].
    rewrite (children_ext ns) by auto. rewrite Hsame in Hc by done. by apply (Fu c nc).
Qed.

Lemma root_empty ns r m n nx bn bi : inv ns r -> full ns None -> binds ns r m -> ns !! r = Some n -> node_type_ n = Intermediate nx bn bi ->
  (bi = [] <-> m = ∅) /\ (bi = [] -> children ns r = []).
Proof.
  intros I Fu B Hn Et. assert (Hd := node_dir _ _ _ _ _ _ Hn Et). assert (Hc := dir_children _ _ _ _ _ Hd).
  assert (P := wf_same _ _ _ _ (dir_ok _ (inv_forest _ _ I) _ _ _ _ Hd)).
  assert (Hbn : bi = [] -> bn = []).
  { intros ->. destruct bn as [|e bn]; [done|]. simpl in P. symmetry in P. by apply Permutation_nil_cons in P. }
  split; [|intros H; rewrite Hc; auto]. split.
  - intros Hbi. apply map_eq. intros y. rewrite (B y), lookup_empty. unfold bound_at. destruct y as [|z y]; simpl.
    + rewrite Hn. simpl. unfold binding_of. by rewrite Et.
    + rewrite Hc, Hbn by done. done.
  - intros ->. destruct bn as [|[z [id c]] bn]; [by apply Permutation_nil|]. exfalso.
    assert (Hin : (z, (id, c)) ∈ children ns r) by (rewrite Hc; left).
    assert (Hf : follow ns r [z] = Some c) by (simpl; by erewrite In_Lookup by (apply children_NoDup, I || done)).
    by destruct (full_bound _ _ _ I Fu B [z] c Hf) as (q & b & Hq & _).
Qed.
