(* ===== verification/NamespaceCorrect.v ===== *)
(** * The local namespace: correctness of the operations

    Each loop over a path is a recursion over its segments; each operation does to the store
    what its specification does to the map of bindings. *)

From stdpp Require Import gmap sets.
From S2P Require Import Prelude CleanPath CleanPathTheorems OrderedMap Vnode VnodeTree VnodeUnlink Namespace NamespaceSpec NamespaceInv.

(** ** Segments *)

Lemma before_slash_spec path : match before_slash path with
  | Some w => no_slash w /\ path = w ++ slash :: drop (length w + 1) path
  | None => no_slash path
  end.
Proof.
  induction path as [|c path IH]; simpl; [constructor|]. destruct (Z.eqb_spec c slash) as [->|Hc].
  { simpl. split; [constructor|done]. }
  destruct (before_slash path) as [w|]; simpl; [|by constructor]. destruct IH as [H1 H2]. split; [by constructor|]. by rewrite <- H2.
Qed.

(** One turn of a loop: a segment, and whether it is the last. *)
Lemma next_segment path : exists w ws last, FindNextPathSegment path = (w, last) /\ split path = w :: ws /\ path = join (w :: ws) /\
  (last = true /\ ws = [] \/
   last = false /\ ws = split (drop (length w + 1) path) /\ (length (drop (length w + 1) path) < length path)%nat).
Proof.
  remember (length path) as k eqn:Hk. revert path Hk. induction (lt_wf k) as [k _ IH]. intros path ->.
  unfold FindNextPathSegment. assert (H := before_slash_spec path). destruct (before_slash path) as [w|].
  - destruct H as [Hw E]. set (rest := drop (length w + 1) path) in *. exists w, (split rest), false.
    assert (Hlt : (length rest < length path)%nat) by (rewrite E, length_app; simpl; lia).
    split_and!; [done| | |by right].
    + by rewrite E, split_word.
    + rewrite join_cons by apply split_nonempty. destruct (IH _ Hlt rest eq_refl) as (w' & ws' & _ & _ & -> & <- & _). done.
  - exists path, [], true. rewrite split_last by done. split_and!; [done..|]. by left.
Qed.

(** ** Walking *)

Definition walked (s : fs) (res : Z + vref * list Z) (spec : Z + list (list Z) * list Z) : Prop :=
  match res, spec with
  | inl e, inl e' => e = e'
  | inr (v, rest), inr (p, rest') => rest = rest' /\ follow (nodes s) (root_ s) p = Some v
  | _, _ => False
  end.

(** The node names lead to, by its type. *)
Lemma rep_type s m p v n : represents s m -> follow (nodes s) (root_ s) p = Some v -> nodes s !! v = Some n ->
  match node_type_ n with
  | Local l => exists cb, l = Some cb /\ m !! p = Some (BLocal cb)
  | Intermediate _ bn _ => m !! p = None /\ children (nodes s) v = bn /\
      forall x, (under m (p ++ [x]) = true <-> exists c, Lookup bn x = Some c)
  | Remote c => m !! p = Some (BRemote c)
  end.
Proof.
  intros Rep Hf Hn. destruct Rep as [I Fu B] eqn:ER. assert (Hm := binds_node _ _ _ _ _ _ B Hf Hn). unfold binding_of in Hm.
  assert (Hcb := follow_callback _ _ _ _ _ I Hf Hn). destruct (node_type_ n) as [l|next bn bi|c] eqn:Et; [|split; [done|]|done].
  - destruct l as [cb|]; [by exists cb | done].
  - assert (Hc := dir_children _ _ _ _ _ (node_dir _ _ _ _ _ _ Hn Et)). split; [done|]. intros x.
    rewrite (under_follow s m (p ++ [x])) by (done || by destruct p). by rewrite follow_snoc, Hf, <- Hc.
Qed.

Lemma under_false m p x bn : (under m (p ++ [x]) = true <-> exists c, Lookup bn x = Some c) -> Lookup bn x = None -> under m (p ++ [x]) = false.
Proof. intros H E. apply not_true_is_false. rewrite H. intros [c Hc]. congruence. Qed.

Lemma walk_loop_ok s m : represents s m -> forall fuel path v pre, follow (nodes s) (root_ s) pre = Some v -> (length path < fuel)%nat ->
  exists res, walk_loop fuel v path s = Some (res, s) /\ walked s res (spec_walk m pre (split path)).
Proof.
  intros Rep fuel. induction fuel as [|fuel IH]; intros path v pre Hf Hlen; [lia|].
  destruct (follow_node _ _ _ _ (rep_inv _ _ Rep) Hf) as [n Hn].
  destruct (next_segment path) as (w & ws & last & Efind & Esplit & Ejoin & Hlast). rewrite Esplit. simpl. rewrite Efind.
  set (next := (fun vn => if last then mret (inr (vn, [dot])) else walk_loop fuel vn (drop (length w + 1) path)) : vref -> M (Z + vref * list Z)).
  assert (Hnext : forall u p, follow (nodes s) (root_ s) p = Some u -> exists res, next u s = Some (res, s) /\ walked s res (spec_walk m p ws)).
  { intros u p Hu. destruct Hlast as [[-> ->]|(-> & -> & Hlt)]; [by exists (inr (u, [dot]))|]. apply IH; [done|lia]. }
  unfold too_long. destruct (Nat.ltb NAME_MAX (length w)); [by eexists|].
  destruct (decide (w = [dot])); [exact (Hnext v pre Hf)|].
  assert (Ht := rep_type _ _ _ _ _ Rep Hf Hn). unfold mbind, ST_bind, node. rewrite Hn. simpl.
  destruct (node_type_ n) as [l|nx bn bi|c].
  - destruct Ht as (cb & _ & ->). by eexists.
  - destruct Ht as (-> & Hch & Hu). destruct (Lookup bn w) as [c|] eqn:EL.
    + rewrite (proj2 (Hu w)) by eauto. refine (Hnext c _ _). rewrite follow_snoc, Hf. simpl. by rewrite Hch.
    + rewrite (under_false _ _ _ _ (Hu w) EL). by eexists.
  - rewrite Ht. eexists. split; [done|]. done.
Qed.

Lemma WalkLocked_ok s m path : represents s m -> exists res, WalkLocked (root_ s) path s = Some (res, s) /\ walked s res (spec_resolve m path).
Proof.
  intros Rep. unfold WalkLocked, spec_resolve. case_decide; [by eexists|]. apply walk_loop_ok; [done|done|lia].
Qed.

(** What an operation does with the node it found. *)
Lemma walk_then {A} s m path (Rep : represents s m) (fail : Z -> M A) (k : vref -> list Z -> M A) (Q : A -> fs -> Prop) :
  (forall e, spec_resolve m path = inl e -> wp (fail e) s Q) ->
  (forall v p rest n, spec_resolve m path = inr (p, rest) -> nodes s !! v = Some n -> m !! p = binding_of n ->
    (is_directory n = false -> m !! p <> None) -> wp (k v rest) s Q) ->
  wp (r ← WalkLocked (root_ s) path; match r with inl e => fail e | inr (vn, path) => k vn path end) s Q.
Proof.
  intros He Hk. destruct (WalkLocked_ok s m path Rep) as (res & E & W). apply wp_bind. exists res, s. split; [done|].
  destruct res as [e|[v rest]], (spec_resolve m path) as [e'|[p rest']]; try done.
  - simpl in W. subst. by apply He.
  - destruct W as [-> Hf]. destruct (follow_node _ _ _ _ (rep_inv _ _ Rep) Hf) as [n Hn]. apply (Hk v p rest' n); [done|done| |].
    + by eapply binds_node; [apply Rep|..].
    + assert (Ht := rep_type _ _ _ _ _ Rep Hf Hn). unfold is_directory. destruct (node_type_ n); [|done|congruence].
      destruct Ht as (cb & _ & ->). done.
Qed.

Lemma Open_ok s m path create : represents s m ->
  wp (Open (root_ s) path create) s (fun r s' => s' = s /\ match r with inl e => inl e | inr o => inr (found_of o) end = spec_open m path create).
Proof.
  intros Rep. unfold Open, spec_open. apply (walk_then s m path Rep).
  - intros e ->. by apply wp_ret.
  - intros v p rest n -> Hn Hm Hd. apply wp_bind, (wp_node _ n); [done|]. apply wp_ret. split; [done|].
    rewrite Hm in *. unfold binding_of, is_directory in *. destruct (node_type_ n) as [[cb|]| |c]; simpl in *; [done| |done|].
    + by destruct Hd.
    + by destruct (create && _).
Qed.

Lemma Connect_ok s m path : represents s m -> wp (Connect path) s (fun r s' => s' = s /\ r = spec_connect m path).
Proof.
  intros Rep. unfold Connect, spec_connect, spec_rooted. destruct (starts_with_slash path); simpl; [|by apply wp_ret].
  apply wp_bind, wp_gets, (walk_then s m _ Rep).
  - intros e ->. by apply wp_ret.
  - intros v p rest n -> Hn Hm Hd. apply wp_bind, (wp_node _ n); [done|]. apply wp_ret. split; [done|].
    rewrite Hm. unfold binding_of. by destruct (node_type_ n) as [[]| |].
Qed.

Lemma IsBound_ok s m path : represents s m -> wp (IsBound path) s (fun r s' => s' = s /\ r = spec_is_bound m path).
Proof.
  intros Rep. unfold IsBound, spec_is_bound, spec_rooted. destruct (starts_with_slash path); simpl; [|by apply wp_ret].
  apply wp_bind, wp_gets, (walk_then s m _ Rep).
  - intros e ->. by apply wp_ret.
  - intros v p rest n -> Hn Hm Hd. apply wp_bind, (wp_node _ n); [done|]. apply wp_ret. split; [done|].
    rewrite Hm in *. unfold binding_of, is_directory in *. destruct (node_type_ n) as [[]| |]; [done| |done|done]. by destruct Hd.
Qed.

(** ** Binding *)

(** A store in the middle of a bind: [ex] is the directory that was made last. *)
Record building (s : fs) (m : bindings) (ex : option vref) : Prop := {
  building_inv : inv (nodes s) (root_ s);
  building_full : full (nodes s) ex;
  building_binds : binds (nodes s) (root_ s) m;
}.

Lemma represents_building s m : represents s m <-> building s m None.
Proof. split; intros []; by split. Qed.

Definition room (s : fs) (k : nat) : Prop := Z.of_nat (length (nodes s) + k) < 2 ^ 64 - 2.

(** A node is made in the directory that [pre] leads to. *)
Section Make.
Context (s : fs) (m : bindings) (ex : option vref) (v : vref) (pre : list (list Z)) (w : list Z) (n : LocalVnode) (nx : Z) (bn : entries) (bi : list (Z * vref)).
Hypotheses (Bu : building s m ex) (Hex : ex = None \/ ex = Some v) (Hf : follow (nodes s) (root_ s) pre = Some v)
  (Hn : nodes s !! v = Some n) (Et : node_type_ n = Intermediate nx bn bi) (HL : Lookup bn w = None) (Hroom : room s 0).
Let s' (t : node_type) : fs := with_nodes (fun ns => with_child ns v n nx bn bi w t) s.

Lemma made t : leaf t -> t <> Local None -> let new := {| node_type_ := t; parent_ := Some v; name_ := w |} in
  building (s' t) (match binding_of new with Some d => <[pre ++ [w] := d]> m | None => m end)
    (if is_directory new then Some (length (nodes s)) else None).
Proof.
  intros Hl Hcb new. destruct Bu as [I Fu B]. split.
  - by eapply (inv_added _ _ _ _ _ _ _ _ _ pre).
  - by eapply full_added.
  - intros y. unfold s'. simpl. rewrite (bound_added (nodes s) (root_ s) v n nx bn bi w t pre) by done.
    assert (Hnone : m !! (pre ++ [w]) = None).
    { rewrite (B (pre ++ [w])). unfold bound_at. rewrite follow_snoc, Hf. simpl.
      rewrite (dir_children _ _ _ _ _ (node_dir _ _ _ _ _ _ Hn Et)), HL. done. }
    destruct (decide (y = pre ++ [w])) as [->|Hy].
    + fold new. destruct (binding_of new); [by rewrite lookup_insert_eq | done].
    + rewrite <- (B y). destruct (binding_of new); [|done]. by rewrite lookup_insert_ne.
Qed.

Lemma made_length t : length (nodes (s' t)) = S (length (nodes s)).
Proof. apply added_length. Qed.

Lemma make_wp t Q : Q (ZX_OK, length (nodes s)) (s' t) -> wp (Create (Some v) w t) s Q.
Proof. intros HQ. destruct Bu as [I _ _]. eapply Create_wp; [apply I|done..|unfold room in Hroom; lia|done]. Qed.

Lemma made_follow t p : leaf t -> follow (nodes (s' t)) (root_ s) p = if decide (p = pre ++ [w]) then Some (length (nodes s)) else follow (nodes s) (root_ s) p.
Proof.
  intros Hl. destruct Bu as [I _ _]. apply follow_added; [apply I|done|done|done|done|by apply root_lt|done].
Qed.

Lemma build_ok b : wp (build b (Some v) w) s (fun r s2 => match spec_build b with
  | inl e => e <> ZX_OK /\ r.1 = e /\ s2 = s
  | inr d => r.1 = ZX_OK /\ represents s2 (<[pre ++ [w] := d]> m) /\ length (nodes s2) = S (length (nodes s))
  end).
Proof.
  destruct b as [cb|created c]; simpl.
  - apply make_wp. split; [done|]. split; [|apply made_length]. apply represents_building. by apply (made (Local (Some cb))).
  - destruct (Z.eqb_spec created ZX_OK) as [->|Hc]; simpl.
    + apply make_wp. split; [done|]. split; [|apply made_length]. apply represents_building. by apply (made (Remote c)).
    + apply wp_bind, wp_gets, wp_ret. by split_and!.
Qed.
End Make.

(** The directories made so far are taken out again. *)
Lemma cleanup_ok s m f qf v : building s m (Some v) -> follow (nodes s) (root_ s) qf = Some f -> qf <> [] -> below (nodes s) f v ->
  (forall n u, nodes s !! f = Some n -> parent_ n = Some u -> u = root_ s \/ exists x id d, (x, (id, d)) ∈ children (nodes s) u /\ d <> f) ->
  under m qf = false -> wp (cleanup (Some f)) s (fun _ s' => represents s' m /\ length (nodes s') = length (nodes s)).
Proof.
  intros [I Fu B] Hf Hne Hb Hu Hm. destruct (follow_node _ _ _ _ I Hf) as [n Hn].
  eapply wp_mono; [eapply Unlink_wp; [apply I|done]|]. intros _ s' (Hr & ns1 & R & D). split.
  2: { by rewrite (detached_length _ _ _ D), (retired_length _ _ _ R). }
  split; rewrite ?Hr.
  - by eapply inv_unlinked.
  - eapply full_unlinked; [done..| |done]. naive_solver.
  - intros y. rewrite (bound_unlinked _ _ _ _ _ _ I Hf Hne R D). destruct (decide _) as [Hpre|]; [|done].
    destruct (m !! y) eqn:Ey; [|done]. assert (under m qf = true); [|congruence]. apply under_spec. eauto.
Qed.

Definition bind_done (s : fs) (k : nat) (spec : Z * bindings) (st : Z) (s' : fs) : Prop :=
  st = spec.1 /\ represents s' spec.2 /\ (length (nodes s') <= length (nodes s) + k)%nat.

(** The second part of the loop, from [v], a new directory without entries, under [f], the
    first directory that was made. *)
Record fresh (s : fs) (m : bindings) (f : vref) (qf : list (list Z)) (v : vref) (pre : list (list Z)) : Prop := {
  fresh_building : building s m (Some v);
  fresh_first : follow (nodes s) (root_ s) qf = Some f;
  fresh_named : qf <> [];
  fresh_at : follow (nodes s) (root_ s) pre = Some v;
  fresh_prefix : qf `prefix_of` pre;
  fresh_parent n u : nodes s !! f = Some n -> parent_ n = Some u ->
    u = root_ s \/ exists x id d, (x, (id, d)) ∈ children (nodes s) u /\ d <> f;
  fresh_under : under m qf = false;
  fresh_dir : exists n nx bi, nodes s !! v = Some n /\ node_type_ n = Intermediate nx [] bi;
}.

Lemma under_prefix m p q : p `prefix_of` q -> under m p = false -> under m q = false.
Proof.
  intros Hpq Hp. destruct (under m q) eqn:E; [|done]. apply under_spec in E as (y & b & Hy & Hq).
  assert (under m p = true); [|congruence]. apply under_spec. exists y, b. split; [done|]. by etrans.
Qed.

Lemma under_lookup m p : under m p = false -> m !! p = None.
Proof. intros H. destruct (m !! p) eqn:E; [|done]. assert (under m p = true); [|congruence]. apply under_spec. eauto. Qed.

Lemma fresh_fail s m f qf v pre k e : fresh s m f qf v pre ->
  wp (cleanup (Some f) ;; mret e) s (bind_done s k (e, m)).
Proof.
  intros [Bu Hf Hne Hv [t ->] Hpar Hu _]. apply wp_bind. eapply wp_mono; [eapply cleanup_ok; try done|].
  - rewrite follow_app, Hf in Hv. by exists t.
  - intros _ s' [Rep Hl]. apply wp_ret. split_and!; [done..|]. lia.
Qed.

(** A directory made in [v] is fresh again. *)
Lemma fresh_next s m f qf v pre w : room s 0 -> fresh s m f qf v pre ->
  wp (Create (Some v) w (Intermediate 1 [] [])) s (fun r s' => r = (ZX_OK, length (nodes s)) /\
    length (nodes s') = S (length (nodes s)) /\ fresh s' m f qf (length (nodes s)) (pre ++ [w])).
Proof.
  intros Hroom [Bu Hf Hne Hv Hpre Hpar Hu (n & nx & bi & Hn & Et)].
  eapply (make_wp s m (Some v) v w n nx [] bi); [done|done|done|done|done|]. split; [done|]. split; [apply made_length|].
  assert (Hfol := made_follow s m (Some v) v pre w n nx [] bi Bu Hv Hn Et eq_refl (Intermediate 1 [] [])).
  assert (Hlen : qf <> pre ++ [w]) by (intros ->; apply prefix_length in Hpre; rewrite length_app in Hpre; simpl in Hpre; lia).
  split; try done.
  - by apply (made s m (Some v) v pre w n nx [] bi Bu (or_intror eq_refl) Hv Hn Et eq_refl (Intermediate 1 [] [])).
  - simpl in Hfol. simpl. rewrite Hfol by done. by rewrite decide_False.
  - simpl in Hfol. simpl. rewrite Hfol by done. by rewrite decide_True.
  - by apply prefix_app_r.
  - intros nf u. simpl. destruct (follow_node _ _ _ _ (building_inv _ _ _ Bu) Hf) as [nf0 Hnf0].
    destruct (added_lookup_old (nodes s) v n nx [] bi w (Intermediate 1 [] []) Hn f nf0 Hnf0) as (nf' & Hnf' & Hp' & _).
    intros Hnf Hp. assert (Hp0 : parent_ nf0 = Some u) by congruence.
    destruct (Hpar _ _ Hnf0 Hp0) as [->|(x & id & d & Hin & Hd)]; [by left|right]. exists x, id, d. split; [|done].
    eapply added_children_In; try done; [apply Bu|]. by left.
  - exists {| node_type_ := Intermediate 1 [] []; parent_ := Some v; name_ := w |}, 1, []. split; [|done].
    simpl. rewrite (added_lookup (nodes s) v n) by done. by rewrite decide_True.
Qed.

Lemma fresh_loop_ok m b f qf fuel : forall path s v pre, fresh s m f qf v pre -> (length path < fuel)%nat -> room s (length path + 1) ->
  wp (bind_loop fuel b v (Some f) path) s (bind_done s (length path + 1) (spec_bind_at m pre (split path) b)).
Proof.
  induction fuel as [|fuel IH]; intros path s v pre Fr Hfuel Hroom; [lia|].
  assert (Fr' := Fr). destruct Fr' as [Bu Hf Hne Hv Hpre Hpar Hu (n & nx & bi & Hn & Et)].
  destruct (next_segment path) as (w & ws & last & Efind & Esplit & Ejoin & Hlast). rewrite Esplit. simpl. rewrite Efind.
  unfold too_long. destruct (Nat.ltb NAME_MAX (length w)); [by apply (fresh_fail s m f qf v pre)|].
  assert (Hup := under_prefix _ _ _ Hpre Hu). rewrite (under_lookup _ _ Hup).
  apply wp_bind, (wp_node _ n); [done|]. rewrite Et. simpl.
  destruct Hlast as [[-> ->]|(-> & -> & Hlt)].
  - rewrite (under_prefix m pre) by (done || by apply prefix_app_r). apply wp_bind.
    eapply wp_mono; [eapply (build_ok s m (Some v) v pre w n nx [] bi); [done|by right|done|done|done|done|unfold room in *; lia]|].
    intros [st c] s'. unfold spec_put. simpl. destruct (spec_build b) as [e|d].
    + intros (He & -> & ->). apply Z.eqb_neq in He. rewrite He. simpl. by apply (fresh_fail s m f qf v pre).
    + intros (-> & Rep & Hl). simpl. apply wp_ret. split_and!; [done..|]. lia.
  - destruct (split (drop (length w + 1) path)) as [|w' ws'] eqn:Es; [by apply split_nonempty in Es|]. rewrite <- Es.
    apply wp_bind. eapply wp_mono; [apply (fresh_next s m f qf v pre); [unfold room in *; lia|done]|].
    intros r s' (-> & Hl & Fr'). simpl. eapply wp_mono; [apply (IH _ s' _ (pre ++ [w])); [done|lia|unfold room in *; lia]|].
    intros st s2 (-> & Rep & Hl2). split_and!; [done..|lia].
Qed.

(** The first directory made in an existing one. *)
Lemma fresh_start s m v pre w n nx bn bi : room s 0 -> represents s m -> follow (nodes s) (root_ s) pre = Some v -> nodes s !! v = Some n ->
  node_type_ n = Intermediate nx bn bi -> Lookup bn w = None -> under m (pre ++ [w]) = false ->
  wp (Create (Some v) w (Intermediate 1 [] [])) s (fun r s' => r = (ZX_OK, length (nodes s)) /\
    length (nodes s') = S (length (nodes s)) /\ fresh s' m (length (nodes s)) (pre ++ [w]) (length (nodes s)) (pre ++ [w])).
Proof.
  intros Hroom Rep Hv Hn Et HL Hu. assert (Bu := proj1 (represents_building _ _) Rep).
  assert (Hlt := lookup_lt_Some _ _ _ Hn).
  eapply (make_wp s m None v w n nx bn bi); [done|done|done|done|done|]. split; [done|]. split; [apply made_length|].
  assert (Hfol := made_follow s m None v pre w n nx bn bi Bu Hv Hn Et HL (Intermediate 1 [] []) (pre ++ [w])).
  rewrite decide_True in Hfol by done. assert (Hl : leaf (Intermediate 1 [] [])) by done. simpl in Hfol. split; try done; try by apply Hfol.
  - by apply (made s m None v pre w n nx bn bi Bu (or_introl eq_refl) Hv Hn Et HL (Intermediate 1 [] [])).
  - by destruct pre.
  - intros nf u. simpl. rewrite (added_lookup (nodes s) v n), decide_True by done. intros [= <-] [= <-].
    destruct (follow_linked _ _ _ _ _ (rep_inv _ _ Rep) Hv Hn) as [(_ & ? & _)|(_ & _ & Hp)]; [by left|right].
    destruct (children (nodes s) v) as [|[x [id d]] l] eqn:Ech.
    { exfalso. apply (rep_full _ _ Rep v n Hn Hp); [done| |done]. unfold is_directory. by rewrite Et. }
    assert (Hin : (x, (id, d)) ∈ children (nodes s) v) by (rewrite Ech; left). exists x, id, d. split.
    + eapply added_children_In; try done; [apply Bu|]. by left.
    + destruct (child_ok _ (inv_forest _ _ (rep_inv _ _ Rep)) _ _ _ _ Hin) as (_ & nd & Hnd & _). apply lookup_lt_Some in Hnd. lia.
  - exists {| node_type_ := Intermediate 1 [] []; parent_ := Some v; name_ := w |}, 1, []. split; [|done].
    simpl. rewrite (added_lookup (nodes s) v n) by done. by rewrite decide_True.
Qed.

Lemma bind_loop_ok m b s fuel : forall path v pre, represents s m -> follow (nodes s) (root_ s) pre = Some v -> (length path < fuel)%nat ->
  room s (length path + 1) -> wp (bind_loop fuel b v None path) s (bind_done s (length path + 1) (spec_bind_at m pre (split path) b)).
Proof.
  induction fuel as [|fuel IH]; intros path v pre Rep Hv Hfuel Hroom; [lia|].
  destruct (follow_node _ _ _ _ (rep_inv _ _ Rep) Hv) as [n Hn]. assert (Ht := rep_type _ _ _ _ _ Rep Hv Hn).
  destruct (next_segment path) as (w & ws & last & Efind & Esplit & Ejoin & Hlast). rewrite Esplit. simpl. rewrite Efind.
  assert (Hfail : forall e, wp (cleanup None ;; mret e) s (bind_done s (length path + 1) (e, m))).
  { intros e. apply wp_bind, wp_ret, wp_ret. split_and!; [done..|lia]. }
  unfold too_long. destruct (Nat.ltb NAME_MAX (length w)); [by apply Hfail|].
  apply wp_bind, (wp_node _ n); [done|]. destruct (node_type_ n) as [l|nx bn bi|c] eqn:Et.
  { destruct Ht as (cb & _ & ->). by apply Hfail. }
  2: { rewrite Ht. by apply Hfail. }
  destruct Ht as (-> & Hch & Hu). assert (Hu0 := under_false m pre w bn (Hu w)).
  specialize (Hu w). destruct Hlast as [[-> ->]|(-> & -> & Hlt)].
  - destruct (Lookup bn w) as [c|] eqn:EL; [rewrite (proj2 Hu) by eauto; by apply Hfail|].
    rewrite Hu0 by done. apply wp_bind.
    eapply wp_mono; [eapply (build_ok s m None v pre w n nx bn bi); [by apply represents_building|by left|done|done|done|done|unfold room in *; lia]|].
    intros [st c] s'. unfold spec_put. simpl. destruct (spec_build b) as [e|d].
    + intros (He & -> & ->). apply Z.eqb_neq in He. rewrite He. simpl. by apply Hfail.
    + intros (-> & Rep' & Hl). simpl. apply wp_ret. split_and!; [done..|]. lia.
  - destruct (split (drop (length w + 1) path)) as [|w' ws'] eqn:Es; [by apply split_nonempty in Es|]. rewrite <- Es.
    destruct (Lookup bn w) as [c|] eqn:EL.
    + eapply wp_mono; [apply (IH _ c (pre ++ [w]) Rep)|].
      * rewrite follow_snoc, Hv. simpl. by rewrite Hch.
      * lia.
      * unfold room in *; lia.
      * intros st s2 (-> & Rep2 & Hl2). split_and!; [done..|lia].
    + apply wp_bind. eapply wp_mono; [apply (fresh_start s m v pre w n nx bn bi); try done; [unfold room in *; lia|by apply Hu0]|].
      intros r s' (-> & Hl & Fr). simpl. eapply wp_mono; [apply (fresh_loop_ok m b _ _ fuel _ s' _ (pre ++ [w]) Fr); [lia|unfold room in *; lia]|].
      intros st s2 (-> & Rep2 & Hl2). split_and!; [done..|lia].
Qed.

Lemma Bind_ok s m path b : represents s m -> room s (length path + 1) ->
  wp (Bind path b) s (bind_done s (length path + 1) (spec_bind m path b)).
Proof.
  intros Rep Hroom. unfold Bind, spec_bind. destruct (starts_with_slash path); cbn [negb].
  2: { apply wp_ret. split_and!; [done..|lia]. }
  apply wp_bind, wp_gets. destruct (decide (drop 1 path = [])) as [Hp|Hp].
  2: { eapply wp_mono; [apply (bind_loop_ok m b s _ _ _ []); [done|done|lia|unfold room in *; rewrite length_drop; lia]|].
       intros st s' (? & ? & Hl). rewrite length_drop in Hl. split_and!; [done..|lia]. }
  destruct Rep as [I Fu B]. assert (Rep : represents s m) by by split. destruct (inv_root _ _ I) as (n & Hn & _).
  apply wp_bind, (wp_node _ n); [done|]. assert (Ht := rep_type s m [] _ n Rep eq_refl Hn). destruct (node_type_ n) as [l|nx bn bi|c] eqn:Et.
  - destruct Ht as (cb & _ & ->). apply wp_ret. split_and!; [done..|lia].
  - destruct Ht as (Hm & _). rewrite Hm. destruct (root_empty _ _ _ _ _ _ _ I Fu B Hn Et) as [Hem Hch].
    destruct (bool_decide_reflect (bi = [])) as [Hbi|Hbi]; simpl.
    2: { rewrite bool_decide_eq_false_2 by tauto. apply wp_ret. split_and!; [done..|lia]. }
    rewrite bool_decide_eq_true_2 by tauto. apply wp_bind.
    assert (Hput : forall t d, leaf t -> t <> Local None -> binding_of {| node_type_ := t; parent_ := None; name_ := [] |} = Some d ->
      wp (Create None [] t) s (fun r s' => r.1 = ZX_OK /\ wp (set_root r.2 ;; mret ZX_OK) s'
        (bind_done s (length path + 1) (ZX_OK, <[[] := d]> m)))).
    { intros t d Hl Hcb Hd. apply wp_bind, wp_new_node, wp_ret. split; [done|]. apply wp_bind, wp_modify, wp_ret.
      destruct (new_root (nodes s) t [] (inv_forest _ _ I) Hl (empty_tree _ _ I (Hch Hbi)) (linked_callback _ _ I) Fu Hcb) as (I' & Fu' & B').
      split; [done|]. split; [split; [done|done|]|simpl; rewrite length_app; simpl; lia].
      intros y. etrans; [|symmetry; apply B']. simpl. rewrite Hd. destruct (decide (y = [])) as [->|]; [by rewrite lookup_insert_eq|].
      rewrite lookup_insert_ne by done. by rewrite (proj1 Hem Hbi), lookup_empty. }
    unfold spec_put. destruct b as [cb|created c]; simpl.
    + eapply wp_mono; [by apply Hput|]. intros [st vn] s' [Hst H]. simpl in Hst. subst. exact H.
    + destruct (Z.eqb_spec created ZX_OK) as [->|Hc]; simpl.
      * eapply wp_mono; [by apply Hput|]. intros [st vn] s' [Hst H]. simpl in Hst. subst. exact H.
      * apply wp_bind, wp_gets, wp_ret. apply Z.eqb_neq in Hc. rewrite Hc. apply wp_ret. split_and!; [done..|lia].
  - rewrite Ht. apply wp_ret. split_and!; [done..|lia].
Qed.

(** ** Unbinding *)

Lemma other_entry ns v c : forest ns -> (1 < length (children ns v))%nat -> exists x id d, (x, (id, d)) ∈ children ns v /\ d <> c.
Proof.
  intros F Hl. assert (Hnd := children_NoDup ns v F). destruct (children ns v) as [|[x [id d]] [|[x' [id' d']] l]] eqn:E; simpl in Hl; [lia|lia|].
  destruct (decide (d = c)) as [->|]; [|exists x, id, d; split; [left|done]]. exists x', id', d'. split; [right; left|]. intros ->.
  assert (H1 : (x, (id, c)) ∈ children ns v) by (rewrite E; left). assert (H2 : (x', (id', c)) ∈ children ns v) by (rewrite E; right; left).
  apply (child_ok _ F) in H1 as (_ & n & Hn & _ & Hx). apply (child_ok _ F) in H2 as (_ & n' & Hn' & _ & Hx').
  assert (x = x') as -> by congruence. simpl in Hnd. apply NoDup_cons in Hnd as [Hnd _]. apply Hnd. left.
Qed.

Lemma only_child ns v x z c d : (length (children ns v) <= 1)%nat -> Lookup (children ns v) x = Some c -> Lookup (children ns v) z = Some d -> z = x.
Proof.
  intros Hl [id Hx]%Lookup_In [id' Hz]%Lookup_In. destruct (children ns v) as [|e [|e' l]]; simpl in Hl; [set_solver| |lia].
  apply list_elem_of_singleton in Hx, Hz. congruence.
Qed.

(** The directory that is taken out with the binding: the highest from which only directories
    with one entry lead down to [v]. *)
Inductive removable (s : fs) (m : bindings) (pre : list (list Z)) (v : vref) : option vref -> Prop :=
| removable_none : v = root_ s \/ (1 < length (children (nodes s) v))%nat -> removable s m pre v None
| removable_some w q : follow (nodes s) (root_ s) q = Some w -> q <> [] -> q `prefix_of` pre ->
    (forall y b, m !! y = Some b -> q `prefix_of` y -> pre `prefix_of` y) ->
    (forall n u, nodes s !! w = Some n -> parent_ n = Some u -> u = root_ s \/ exists x id d, (x, (id, d)) ∈ children (nodes s) u /\ d <> w) ->
    (length (children (nodes s) v) <= 1)%nat -> removable s m pre v (Some w).

Section Unbind.
Context (s : fs) (m : bindings) (Rep : represents s m) (v c : vref) (pre : list (list Z)) (w : list Z).
Hypotheses (Hv : follow (nodes s) (root_ s) pre = Some v) (Hc : Lookup (children (nodes s) v) w = Some c).

Lemma child_follow : follow (nodes s) (root_ s) (pre ++ [w]) = Some c.
Proof. by rewrite follow_snoc, Hv. Qed.

(** A binding under a directory with one entry lies under that entry. *)
Lemma bound_under_only y b : (length (children (nodes s) v) <= 1)%nat -> m !! y = Some b -> pre `prefix_of` y -> pre ++ [w] `prefix_of` y.
Proof.
  intros Hl Hy [k ->]. destruct (binds_followed _ _ _ _ _ (rep_binds _ _ Rep) Hy) as (u & n & Hu & Hn & Hb).
  rewrite follow_app, Hv in Hu. simpl in Hu. destruct k as [|z k]; simpl in Hu.
  - exfalso. simplify_eq. unfold children, dir in Hc. rewrite Hn in Hc. simpl in Hc. unfold binding_of in Hb. by destruct (node_type_ n).
  - destruct (Lookup (children (nodes s) v) z) as [d|] eqn:Ez; [|done]. rewrite (only_child _ _ _ _ _ _ Hl Hc Ez).
    exists k. by rewrite <- app_assoc.
Qed.

Lemma parent_child n u : nodes s !! c = Some n -> parent_ n = Some u -> u = v.
Proof.
  intros Hn Hp. apply Lookup_In in Hc as [id Hin]. destruct (child_ok _ (inv_forest _ _ (rep_inv _ _ Rep)) _ _ _ _ Hin) as (_ & n' & ? & ? & _). congruence.
Qed.

Lemma removable_next o : removable s m pre v o ->
  removable s m (pre ++ [w]) c (if Nat.ltb 1 (length (children (nodes s) c)) then None else match o with None => Some c | Some v => Some v end).
Proof.
  intros Ro. destruct (Nat.ltb_spec 1 (length (children (nodes s) c))) as [Hl|Hl]; [constructor; by right|].
  destruct Ro as [Hv'|w0 q Hq Hne Hpre Hm Hpar Hl']; eapply removable_some; try done.
  - apply child_follow.
  - by destruct pre.
  - intros n u Hn Hp. rewrite (parent_child _ _ Hn Hp). destruct Hv' as [->|Hv']; [by left|right].
    by apply (other_entry _ _ c (inv_forest _ _ (rep_inv _ _ Rep))).
  - by apply prefix_app_r.
  - intros y b Hy Hqy. eapply bound_under_only; eauto.
Qed.

Lemma handle_terminal_node_ok o : removable s m pre v o -> m !! (pre ++ [w]) <> None ->
  wp (handle_terminal_node o c true) s (fun st s' => st = ZX_OK /\ represents s' (delete (pre ++ [w]) m) /\ length (nodes s') = length (nodes s)).
Proof.
  intros Ro Hb. destruct (m !! (pre ++ [w])) as [b|] eqn:Em; [|done]. assert (I := rep_inv _ _ Rep). assert (Fu := rep_full _ _ Rep). assert (B := rep_binds _ _ Rep). apply wp_bind.
  assert (Hmain : forall t q, follow (nodes s) (root_ s) q = Some t -> q <> [] -> q `prefix_of` pre ++ [w] ->
    (forall y b, m !! y = Some b -> q `prefix_of` y -> pre ++ [w] `prefix_of` y) ->
    (forall n u, nodes s !! t = Some n -> parent_ n = Some u -> u = root_ s \/ exists x id d, (x, (id, d)) ∈ children (nodes s) u /\ d <> t) ->
    wp (Unlink t) s (fun _ s' => represents s' (delete (pre ++ [w]) m) /\ length (nodes s') = length (nodes s))).
  { intros t q Hq Hne Hpre Hm Hpar. destruct (follow_node _ _ _ _ I Hq) as [n Hn].
    eapply wp_mono; [eapply Unlink_wp; [apply I|done]|]. intros _ s' (Hr & ns1 & R & D). split.
    2: { by rewrite (detached_length _ _ _ D), (retired_length _ _ _ R). }
    split; rewrite ?Hr; [by eapply inv_unlinked|by eapply full_unlinked|].
    intros y. rewrite (bound_unlinked _ _ _ _ _ _ I Hq Hne R D). destruct (decide (y = pre ++ [w])) as [->|Hy].
    - by rewrite lookup_delete_eq, decide_True.
    - rewrite lookup_delete_ne by done. destruct (decide (q `prefix_of` y)) as [Hqy|]; [|by rewrite (B y)].
      destruct (m !! y) as [b'|] eqn:Ey; [|done]. destruct Hy. symmetry. eapply bound_leaf; eauto. }
  assert (Hgoal : forall t, wp (Unlink t) s (fun _ s' => represents s' (delete (pre ++ [w]) m) /\ length (nodes s') = length (nodes s)) ->
    wp (Unlink t) s (fun _ s1 => wp (mret ZX_OK) s1 (fun st s' => st = ZX_OK /\ represents s' (delete (pre ++ [w]) m) /\ length (nodes s') = length (nodes s)))).
  { intros t Ht. eapply wp_mono; [exact Ht|]. intros u s' [H1 H2]. by apply wp_ret. }
  apply Hgoal. destruct Ro as [Hv'|t q Hq Hne Hpre Hm Hpar Hl'].
  - apply (Hmain c (pre ++ [w])); [apply child_follow|by destruct pre|done|done|]. intros n u Hn Hp. rewrite (parent_child _ _ Hn Hp).
    destruct Hv' as [->|Hv']; [by left|right]. by apply (other_entry _ _ c (inv_forest _ _ I)).
  - apply (Hmain t q); [done|done|by apply prefix_app_r| |done]. intros y b' Hy Hqy. eapply bound_under_only; eauto.
Qed.
End Unbind.

Lemma by_id_length ns v n nx bn bi : forest ns -> ns !! v = Some n -> node_type_ n = Intermediate nx bn bi -> length bi = length (children ns v).
Proof.
  intros F Hn Et. assert (Hd := node_dir _ _ _ _ _ _ Hn Et). rewrite (dir_children _ _ _ _ _ Hd).
  rewrite <- (wf_same _ _ _ _ (dir_ok _ F _ _ _ _ Hd)). apply length_fmap.
Qed.

Lemma unbind_loop_ok s m fuel : represents s m -> forall path v pre o, follow (nodes s) (root_ s) pre = Some v -> removable s m pre v o ->
  (length path < fuel)%nat -> wp (unbind_loop fuel v o path) s (bind_done s 1 (spec_unbind_at m pre (split path))).
Proof.
  intros Rep. assert (Hfail : forall e, wp (mret e) s (bind_done s 1 (e, m))).
  { intros e. apply wp_ret. split_and!; [done..|lia]. }
  induction fuel as [|fuel IH]; intros path v pre o Hv Ro Hfuel; [lia|].
  destruct (follow_node _ _ _ _ (rep_inv _ _ Rep) Hv) as [n Hn]. assert (Ht := rep_type _ _ _ _ _ Rep Hv Hn).
  destruct (next_segment path) as (w & ws & last & Efind & Esplit & Ejoin & Hlast). rewrite Esplit. simpl. rewrite Efind.
  unfold too_long. destruct (Nat.ltb NAME_MAX (length w)); [by apply Hfail|].
  apply wp_bind, (wp_node _ n); [done|]. destruct (node_type_ n) as [l|nx bn bi|c] eqn:Et.
  { destruct Ht as (cb & _ & ->). by apply Hfail. }
  2: { rewrite Ht. by apply Hfail. }
  destruct Ht as (-> & Hch & Hu). assert (Hu0 := under_false m pre w bn (Hu w)). specialize (Hu w).
  destruct (Lookup bn w) as [c|] eqn:EL.
  2: { specialize (Hu0 eq_refl). rewrite (under_lookup _ _ Hu0), Hu0. by apply Hfail. }
  rewrite <- Hch in EL. assert (Hc := child_follow s v c pre w Hv EL).
  destruct (follow_node _ _ _ _ (rep_inv _ _ Rep) Hc) as [nc Hnc]. assert (Htc := rep_type _ _ _ _ _ Rep Hc Hnc).
  apply wp_bind, (wp_node _ nc); [done|].
  assert (Hterm : m !! (pre ++ [w]) <> None -> wp (handle_terminal_node o c last) s (bind_done s 1 (match m !! (pre ++ [w]), ws with
      | Some _, [] => (ZX_OK, delete (pre ++ [w]) m)
      | Some _, _ :: _ => (ZX_ERR_NOT_FOUND, m)
      | None, _ => if under m (pre ++ [w]) then spec_unbind_at m (pre ++ [w]) ws else (ZX_ERR_NOT_FOUND, m) end))).
  { intros Hb. assert (H := handle_terminal_node_ok s m Rep v c pre w Hv EL o Ro Hb).
    destruct (m !! (pre ++ [w])) as [b|]; [|done]. destruct Hlast as [[-> ->]|(-> & -> & Hlt)].
    - eapply wp_mono; [exact H|]. intros st s' (-> & Rep' & Hl). split_and!; [done..|lia].
    - destruct (split _) eqn:Es; [by apply split_nonempty in Es|]. by apply Hfail. }
  destruct (node_type_ nc) as [l|nx' bn' bi'|r] eqn:Etc.
  - destruct Htc as (cb & _ & Hm). apply Hterm. by rewrite Hm.
  - clear Hterm. destruct Htc as (-> & _). rewrite (proj2 Hu) by eauto. destruct Hlast as [[-> ->]|(-> & -> & Hlt)]; [by apply Hfail|].
    rewrite (by_id_length _ _ _ _ _ _ (inv_forest _ _ (rep_inv _ _ Rep)) Hnc Etc).
    apply IH; [done| |lia]. by apply (removable_next s m Rep v c pre w Hv EL).
  - apply Hterm. by rewrite Htc.
Qed.

Lemma Unbind_ok s m path : represents s m -> wp (Unbind path) s (bind_done s 1 (spec_unbind m path)).
Proof.
  intros Rep. assert (Hfail : forall e, wp (mret e) s (bind_done s 1 (e, m))).
  { intros e. apply wp_ret. split_and!; [done..|lia]. }
  unfold Unbind, spec_unbind. destruct (starts_with_slash path); cbn [negb]; [|by apply Hfail].
  apply wp_bind, wp_gets. destruct (decide (drop 1 path = [])) as [Hp|Hp].
  2: { apply unbind_loop_ok; [done|done| |lia]. constructor. by left. }
  destruct Rep as [I Fu B] eqn:E. clear E. destruct (inv_root _ _ I) as (n & Hn & Hpar).
  apply wp_bind, (wp_node _ n); [done|]. assert (Ht := rep_type s m [] _ n Rep eq_refl Hn).
  assert (Hterm : is_directory n = false -> wp (status ← handle_terminal_node None (root_ s) true; ResetRoot ;; mret status) s (bind_done s 1 (ZX_OK, ∅))).
  { intros Hd. do 2 apply wp_bind. eapply wp_mono; [eapply Unlink_wp; [apply I|done]|]. intros _ s1 (Hr & ns1 & R & D).
    apply wp_ret. apply wp_bind. unfold ResetRoot. do 2 apply wp_bind. apply wp_new_node, wp_ret, wp_modify, wp_ret.
    destruct (terminal_unlinked _ _ _ _ _ I Hn Hd R D) as (F' & Hdet & Hcb & Fu').
    destruct (new_root (nodes s1) (Intermediate 1 [] []) [] F' (conj eq_refl (conj eq_refl eq_refl)) Hdet Hcb (Fu' Fu)) as (I' & Fu'' & B'); [done|].
    split; [done|]. split; [split; [done|done|]|].
    - intros y. etrans; [|symmetry; apply B']. cbn [snd]. rewrite lookup_empty. by case_decide.
    - simpl. rewrite length_app, (detached_length _ _ _ D), (retired_length _ _ _ R). simpl. lia. }
  destruct (node_type_ n) as [l|nx bn bi|c] eqn:Et.
  - destruct Ht as (cb & _ & ->). apply Hterm. unfold is_directory. by rewrite Et.
  - destruct Ht as (-> & _). by apply Hfail.
  - rewrite Ht. apply Hterm. unfold is_directory. by rewrite Et.
Qed.
