(* ===== verification/NamespaceRoot.v ===== *)
(** * The local namespace: replacing the root

    [SetRoot] makes a node the root and unlinks the tree the namespace had. *)

From stdpp Require Import gmap sets.
From S2P Require Import Prelude CleanPath CleanPathTheorems OrderedMap Vnode VnodeTree VnodeUnlink Namespace NamespaceSpec NamespaceInv NamespaceCorrect.

(** Every node hangs under one without a parent. *)
Lemma top_of ns c n : forest ns -> ns !! c = Some n -> exists t nt, below ns t c /\ ns !! t = Some nt /\ parent_ nt = None /\
  (parent_ n <> None -> children ns t <> []).
Proof.
  intros F. revert n. induction (lt_wf c) as [c _ IH]. intros n Hn. destruct (parent_ n) as [d|] eqn:Hp.
  - destruct (parent_dir _ _ _ _ F Hn Hp) as (Hlt & nd & next & bn & bi & id & Hnd & _ & Hch & Hin & _).
    destruct (IH d Hlt nd Hnd) as (t & nt & Hb & Ht & Hpt & Hc). exists t, nt. split; [|split; [done|split; [done|]]].
    + rewrite (below_parent _ _ _ _ _ F Hn Hp). by right.
    + intros _. destruct (parent_ nd) as [e|] eqn:Hpd; [by apply Hc|]. apply (below_no_parent _ _ _ _ F Hnd Hpd) in Hb as <-.
      rewrite Hch. intros ->. set_solver.
  - exists c, n. split; [apply below_refl|]. by split_and!.
Qed.

Section ReplaceRoot.
Context (ns ns1 ns' : list LocalVnode) (r r' : vref) (nr nr' : LocalVnode).
Hypotheses (F : forest ns) (Hr : ns !! r = Some nr) (Hpr : parent_ nr = None) (Hr' : ns !! r' = Some nr') (Hpr' : parent_ nr' = None) (Hne : r <> r')
  (Hdet : forall c n, ns !! c = Some n -> parent_ n = None -> c <> r -> c <> r' -> children ns c = [])
  (Hcb : forall c n, ns !! c = Some n -> below ns r' c -> node_type_ n <> Local None)
  (Hfull : forall c n, ns !! c = Some n -> below ns r' c -> c <> r' -> is_directory n = true -> children ns c <> [])
  (R : retired ns ns1 r) (D : detached ns1 ns' r).

Lemma replaced_out c : ~ below ns r c -> ns' !! c = ns !! c.
Proof.
  intros Hb. assert (Hcr : c <> r) by (intros ->; apply Hb, below_refl).
  rewrite (detached_other _ _ _ D c Hcr), (retired_out _ _ _ R c Hb); [done|]. intros n1.
  rewrite (retired_in _ _ _ R r nr (below_refl _ _) Hr), decide_True by done. intros [= <-]. simpl. by rewrite Hpr.
Qed.

(** What hangs under the old root keeps neither parent nor entries. *)
Lemma replaced_in c n : below ns r c -> ns' !! c = Some n -> parent_ n = None /\ children ns' c = [].
Proof.
  assert (Hn1 : ns1 !! r = Some (retire nr)) by (rewrite (retired_in _ _ _ R r nr (below_refl _ _) Hr); by rewrite decide_True).
  intros Hb Hc. split.
  - destruct (detached_lookup_inv ns1 ns' r _ Hn1 D c n Hc) as (n1 & Hc1 & _ & -> & _). case_decide; [done|].
    destruct (retired_lookup_inv ns ns1 r F R c n1 Hc1) as (nc & _ & _ & [[]|[_ ->]]); [done|]. by rewrite decide_False.
  - destruct (children ns' c) as [|[x [id d]] l] eqn:E; [done|]. assert (Hin : (x, (id, d)) ∈ children ns' c) by (rewrite E; left).
    apply (detached_children_In ns1 ns' r _ (forest_retired ns ns1 r F R) Hn1 D) in Hin as [Hin _].
    rewrite (retired_children_in ns ns1 r F R c Hb) in Hin. set_solver.
Qed.

Lemma apart c : below ns r' c -> ~ below ns r c.
Proof.
  intros Hb Hb0. assert (Hlt : forall t nt, ns !! t = Some nt -> parent_ nt = None -> below ns t c -> forall u nu, ns !! u = Some nu -> parent_ nu = None -> below ns u c -> t = u).
  { clear Hb Hb0. intros t nt Ht Hpt [p Hp] u nu Hu Hpu [q Hq]. revert c q Hp Hq. induction p as [|x p IH] using rev_ind; intros c q Hp Hq.
    - simpl in Hp. simplify_eq. apply (below_no_parent _ _ _ _ F Ht Hpt). by exists q.
    - destruct (follow_last _ _ _ _ _ (forest_subtree _ t F) Hp) as (d & n & Hd & Hn & Hpn & _).
      destruct q as [|y q _] using rev_ind; [simpl in Hq; congruence|].
      destruct (follow_last _ _ _ _ _ (forest_subtree _ u F) Hq) as (d' & n' & Hd' & Hn' & Hpn' & _). apply (IH d q); congruence. }
  apply Hne. by apply (Hlt r nr Hr Hpr Hb0 r' nr').
Qed.

Lemma replaced_lookup_inv c n : ns' !! c = Some n -> (below ns r c /\ parent_ n = None /\ children ns' c = []) \/
  (~ below ns r c /\ ns !! c = Some n /\ children ns' c = children ns c /\ (parent_ n <> None -> below ns r' c)).
Proof.
  intros Hc. destruct (below_dec ns r c F) as [Hb|Hb].
  { apply lookup_lt_Some in Hc. by rewrite (detached_length _ _ _ D), (retired_length _ _ _ R) in Hc. }
  - left. split; [done|]. by apply replaced_in.
  - right. split; [done|]. rewrite (replaced_out c Hb) in Hc. split; [done|]. split; [by apply children_ext, replaced_out|].
    intros Hp. destruct (top_of _ _ _ F Hc) as (t & nt & Hbt & Hnt & Hpt & Hct). specialize (Hct Hp).
    destruct (decide (t = r')) as [->|]; [done|]. destruct (decide (t = r)) as [->|]; [done|]. by rewrite (Hdet t nt) in Hct.
Qed.

Lemma replaced : inv ns' r' /\ full ns' None /\ forall y, bound_at ns' r' y = bound_at ns r' y.
Proof.
  assert (Hn1 : ns1 !! r = Some (retire nr)) by (rewrite (retired_in _ _ _ R r nr (below_refl _ _) Hr); by rewrite decide_True).
  split; [split|split].
  - exact (forest_detached ns1 ns' r (retire nr) (forest_retired ns ns1 r F R) Hn1 D).
  - exists nr'. rewrite replaced_out; [done|]. apply apart, below_refl.
  - intros c n Hc Hp Hcr. destruct (replaced_lookup_inv c n Hc) as [(_ & _ & ?)|(Hb & Hc' & -> & _)]; [done|].
    apply (Hdet c n); try done. intros ->. apply Hb, below_refl.
  - intros c n Hc Hl. destruct (replaced_lookup_inv c n Hc) as [(Hb & Hp & _)|(Hb & Hc' & _ & Hb')].
    + destruct Hl as [| ->]; [done|]. exfalso. apply (apart r'); [apply below_refl|done].
    + apply (Hcb c n Hc'). destruct Hl as [Hl| ->]; [by apply Hb' | apply below_refl].
  - intros c n Hc Hp _ Hd. destruct (replaced_lookup_inv c n Hc) as [(_ & ? & _)|(Hb & Hc' & -> & Hb')]; [done|].
    apply (Hfull c n Hc' (Hb' Hp)); [|done]. intros ->. congruence.
  - intros y. assert (Hs : forall d, below ns r' d -> ns' !! d = ns !! d) by (intros; by apply replaced_out, apart).
    unfold bound_at. rewrite (follow_ext ns ns') by (intros; apply children_ext; auto).
    destruct (follow ns r' y) as [v|] eqn:E; simpl; [|done]. rewrite Hs; [done|]. by exists y.
Qed.
End ReplaceRoot.

Lemma inv_snoc ns r t x : inv ns r -> leaf t -> inv (ns ++ [{| node_type_ := t; parent_ := None; name_ := x |}]) r.
Proof.
  intros I Hl. assert (Hlt := root_lt _ _ I). split.
  - by apply forest_snoc; [apply I|].
  - destruct (inv_root _ _ I) as (n & Hn & Hp). exists n. rewrite snoc_lookup, decide_False by lia. done.
  - intros c n Hc Hp Hcr. rewrite snoc_children by done. rewrite snoc_lookup in Hc. destruct (decide (c = length ns)) as [->|].
    + unfold children, dir. by rewrite lookup_ge_None_2.
    + by apply (inv_detached _ _ I c n).
  - intros c n Hc Hl'. rewrite snoc_lookup in Hc. destruct (decide (c = length ns)) as [->|].
    + simplify_eq. destruct Hl' as [?|?]; [done|lia].
    + by apply (inv_callback _ _ I c n).
Qed.

Lemma full_snoc ns t x : leaf t -> full ns None -> full (ns ++ [{| node_type_ := t; parent_ := None; name_ := x |}]) None.
Proof.
  intros Hl Fu c n Hc Hp _ Hd. rewrite snoc_children by done. rewrite snoc_lookup in Hc. destruct (decide (c = length ns)); [by simplify_eq|].
  by apply (Fu c n).
Qed.

Lemma swap_root_ok s vn n : inv (nodes s) (root_ s) -> full (nodes s) None -> nodes s !! vn = Some n -> node_type_ n <> Local None -> vn <> root_ s ->
  wp (swap_root vn) s (fun st s' => st = ZX_OK /\ root_ s' = vn /\ inv (nodes s') vn /\ full (nodes s') None /\
    forall y, bound_at (nodes s') vn y = bound_at (nodes s) vn y).
Proof.
  intros I Fu Hn Hcb Hne. set (ns := nodes s) in *. set (r := root_ s) in *. assert (F := inv_forest _ _ I).
  destruct (inv_root _ _ I) as (nr & Hnr & Hpr).
  apply wp_bind, wp_gets. rewrite decide_False by done. apply wp_bind. eapply wp_mono; [by eapply UnlinkFromParent_wp|].
  intros _ s1 [Hr1 D]. fold ns in D. set (ns1 := nodes s1) in *. apply wp_bind, wp_modify. apply wp_bind.
  assert (F1 := forest_detached _ _ _ _ F Hn D).
  destruct (detached_lookup _ _ _ _ Hn D r nr Hnr) as (nr1 & Hnr1 & _ & Hpr1 & _). rewrite decide_False in Hpr1 by done.
  assert (Hnn1 := detached_self _ _ _ D _ Hn).
  assert (Hsub : forall d, below ns vn d -> children ns1 d = children ns d).
  { intros d [p Hp]. rewrite (detached_children _ _ _ _ F Hn D d), decide_False; [done|]. intros Hpar.
    destruct (parent_dir _ _ _ _ F Hn Hpar) as [Hlt _]. apply (follow_le _ _ _ _ (forest_subtree _ vn F)) in Hp. lia. }
  assert (Hb1 : forall d, below ns1 vn d <-> below ns vn d) by (intros; by apply below_ext).
  assert (Hold : forall c n1, ns1 !! c = Some n1 -> below ns1 vn c -> c <> vn -> exists n0, ns !! c = Some n0 /\ parent_ n0 <> None /\ node_type_ n1 = node_type_ n0).
  { intros c n1 Hc Hb Hcv. destruct (detached_lookup_inv _ _ _ _ Hn D c n1 Hc) as (n0 & Hn0 & _ & _ & Ht). exists n0. split; [done|]. rewrite Hb1 in Hb.
    split.
    - intros Hp. by apply (below_no_parent _ _ _ _ F Hn0 Hp) in Hb.
    - apply Ht. intros Hpar. destruct Hb as [p Hp]. destruct (parent_dir _ _ _ _ F Hn Hpar) as [Hlt _].
      apply (follow_le _ _ _ _ (forest_subtree _ vn F)) in Hp. lia. }
  eapply wp_mono; [eapply (Unlink_wp {| nodes := ns1; root_ := vn |} r nr1); [done|done]|]. simpl. intros _ s2 (Hr2 & ns2 & R & D2).
  apply wp_ret. split; [done|]. split; [done|].
  destruct (replaced ns1 ns2 (nodes s2) r vn nr1 (set_node_parent None n)) as (I' & Fu' & B'); try done; [congruence|..].
  - intros c n1 Hc Hp Hcr Hcv. destruct (detached_lookup_inv _ _ _ _ Hn D c n1 Hc) as (n0 & Hn0 & _ & Hp0 & _). rewrite decide_False in Hp0 by done.
    destruct (children ns1 c) as [|[x [id d]] l] eqn:E; [done|]. assert (Hin : (x, (id, d)) ∈ children ns1 c) by (rewrite E; left).
    apply (detached_children_In _ _ _ _ F Hn D) in Hin as [Hin _]. rewrite (inv_detached _ _ I c n0) in Hin by congruence. set_solver.
  - intros c n1 Hc Hb. destruct (decide (c = vn)) as [->|Hcv]; [by simplify_eq|].
    destruct (Hold c n1 Hc Hb Hcv) as (n0 & Hn0 & Hp0 & ->). apply (inv_callback _ _ I c n0 Hn0). by left.
  - intros c n1 Hc Hb Hcv Hd. destruct (Hold c n1 Hc Hb Hcv) as (n0 & Hn0 & Hp0 & Ht). rewrite Hsub by by apply Hb1.
    apply (Fu c n0); try done. unfold is_directory in *. by rewrite <- Ht.
  - split_and!; [done..|]. intros y. rewrite (B' y). unfold bound_at. rewrite (follow_ext ns ns1) by done.
    destruct (follow ns vn y) as [v|] eqn:E; simpl; [|done]. assert (Hbv : below ns vn v) by by exists y.
    destruct (decide (v = vn)) as [->|Hv]; [by rewrite Hnn1, Hn|].
    assert (Hlt : (v < length ns)%nat) by (eapply follow_exists; [by apply (forest_subtree _ vn)|by eapply lookup_lt_Some|done]).
    destruct (lookup_lt_is_Some_2 ns v Hlt) as [n0 Hn0]. destruct (detached_lookup _ _ _ _ Hn D v n0 Hn0) as (n1 & Hn1 & _).
    destruct (Hold v n1 Hn1) as (n0' & ? & _ & Ht); [by apply Hb1|done|]. rewrite Hn1, Hn0. simpl. unfold binding_of. simplify_eq. by rewrite Ht.
Qed.

(** The bindings under [q], seen from there. *)
Definition sub_bindings (m : bindings) (q : list (list Z)) : bindings :=
  list_to_map (omap (fun e => if decide (q `prefix_of` e.1) then Some (drop (length q) e.1, e.2) else None) (map_to_list m)).

Lemma sub_bindings_lookup m q y : sub_bindings m q !! y = m !! (q ++ y).
Proof.
  unfold sub_bindings. set (l := omap _ _). assert (Hl : forall b, (y, b) ∈ l <-> m !! (q ++ y) = Some b).
  { intros b. unfold l. rewrite list_elem_of_omap. split.
    - intros ([p b'] & Hin%elem_of_map_to_list & E). simpl in E. case_decide as Hp; [|done]. destruct Hp as [k ->].
      rewrite drop_app_length in E. by simplify_eq.
    - intros Hm. exists (q ++ y, b). split; [by apply elem_of_map_to_list|]. simpl. rewrite decide_True by by apply prefix_app_r.
      by rewrite drop_app_length. }
  destruct (m !! (q ++ y)) as [b|] eqn:E.
  - apply elem_of_list_to_map_1'; [|by apply Hl]. intros b' Hb'. apply Hl in Hb'. congruence.
  - apply not_elem_of_list_to_map_1. intros ([y' b] & -> & Hin)%list_elem_of_fmap. by apply Hl in Hin.
Qed.

Lemma SetRoot_local_ok s m vn n : represents s m -> nodes s !! vn = Some n -> is_directory n = true ->
  wp (SetRoot (inl vn)) s (fun st s' => st = ZX_OK /\ root_ s' = vn /\
    forall m', (forall y, m' !! y = bound_at (nodes s) vn y) -> represents s' m').
Proof.
  intros [I Fu B] Hn Hd. simpl. destruct (decide (vn = root_ s)) as [->|Hne].
  - apply wp_bind, wp_gets. rewrite decide_True by done. apply wp_ret. split_and!; [done..|]. intros m' Hm'. by split.
  - eapply wp_mono; [eapply swap_root_ok; try done|].
    + unfold is_directory in Hd. by destruct (node_type_ n).
    + intros st s' (-> & Hr & I' & Fu' & B'). split_and!; [done..|]. intros m' Hm'. split; rewrite ?Hr; [done..|].
      intros y. by rewrite Hm', B'.
Qed.

Lemma SetRoot_remote_ok s m created c : represents s m ->
  wp (SetRoot (inr (created, c))) s (fun st s' => if created =? ZX_OK then st = ZX_OK /\ represents s' {[[] := BRemote c]}
    else st = created /\ s' = s).
Proof.
  intros [I Fu B]. simpl. destruct (Z.eqb_spec created ZX_OK) as [->|Hc]; simpl; [|by apply wp_ret].
  do 2 apply wp_bind. apply wp_new_node, wp_ret. simpl.
  set (s1 := with_nodes _ s). assert (Hl := root_lt _ _ I). assert (Hlk := snoc_lookup (nodes s) (Remote c) [] (length (nodes s))).
  rewrite decide_True in Hlk by done.
  eapply wp_mono; [eapply (swap_root_ok s1); [by apply inv_snoc|by apply full_snoc|done|done|simpl; lia]|].
  intros st s' (-> & Hr & I' & Fu' & B'). split; [done|]. split; rewrite ?Hr; [done..|].
  intros y. rewrite (B' y). unfold bound_at. destruct y as [|z y]; simpl.
  - by rewrite Hlk, lookup_singleton_eq.
  - rewrite snoc_children by done. unfold children, dir. rewrite (lookup_ge_None_2 (nodes s)) by lia. simpl. by rewrite lookup_singleton_ne.
Qed.
