(* ===== verification/NamespaceExport.v ===== *)
(** * The local namespace: enumeration and export

    The walk over the tree that [Export] makes twice calls its function once for each remote
    binding, on the path of the binding; what is written fits into what was counted. *)

From stdpp Require Import gmap sets.
From S2P Require Import Prelude CleanPath CleanPathTheorems OrderedMap Vnode VnodeTree VnodeUnlink Namespace NamespaceSpec NamespaceInv NamespaceCorrect.

(** ** The remote nodes of a tree *)

Definition node_name (ns : list LocalVnode) (v : vref) : list Z := match ns !! v with Some n => name_ n | None => [] end.

(** The remote nodes under [v], which is at [p], in the order of the walk. *)
Fixpoint remotes (fuel : nat) (ns : list LocalVnode) (v : vref) (p : list (list Z)) : list (list (list Z) * Z) :=
  match fuel with
  | O => []
  | S fuel =>
      match node_type_ <$> ns !! v with
      | Some (Remote c) => [(p, c)]
      | Some (Intermediate _ _ by_id) => mjoin ((fun e => remotes fuel ns e.2 (p ++ [node_name ns e.2])) <$> by_id)
      | _ => []
      end
  end.

Section Remotes.
Context (ns : list LocalVnode) (F : forest ns).

Lemma by_id_entry v nx bn bi e : dir ns v = Some (nx, bn, bi) -> e ∈ bi -> (v < e.2)%nat /\ (e.2 < length ns)%nat /\
  (node_name ns e.2, e) ∈ bn /\ Lookup (children ns v) (node_name ns e.2) = Some e.2.
Proof.
  intros Hd He. assert (W := dir_ok _ F _ _ _ _ Hd). rewrite <- (wf_same _ _ _ _ W) in He.
  apply list_elem_of_fmap in He as ([x [id c]] & -> & Hin). simpl. rewrite <- (dir_children _ _ _ _ _ Hd) in *.
  destruct (child_ok _ F _ _ _ _ Hin) as (Hlt & n & Hn & _ & Hx). unfold node_name. rewrite Hn, Hx.
  split_and!; [done|by eapply lookup_lt_Some|done|]. eapply In_Lookup; [by apply children_NoDup|done].
Qed.

Lemma remotes_In fuel : forall v p q c, (length ns - v <= fuel)%nat -> (v < length ns)%nat ->
  (q, c) ∈ remotes fuel ns v p <-> exists t u n, q = p ++ t /\ follow ns v t = Some u /\ ns !! u = Some n /\ node_type_ n = Remote c.
Proof.
  induction fuel as [|fuel IH]; intros v p q c Hfuel Hv; [lia|]. simpl.
  destruct (lookup_lt_is_Some_2 _ _ Hv) as [n Hn]. rewrite Hn. simpl. destruct (node_type_ n) as [l|nx bn bi|c'] eqn:Et.
  - split; [set_solver|]. intros (t & u & n' & -> & Hf & Hn' & Et'). destruct t as [|x t]; simpl in Hf; [congruence|].
    unfold children, dir in Hf. rewrite Hn in Hf. simpl in Hf. by rewrite Et in Hf.
  - assert (Hd := node_dir _ _ _ _ _ _ Hn Et). rewrite list_elem_of_join. setoid_rewrite list_elem_of_fmap. split.
    + intros (l & Hq & e & -> & He). destruct (by_id_entry _ _ _ _ _ Hd He) as (Hlt & Hl & _ & HL).
      apply IH in Hq as (t & u & n' & -> & Hf & Hn'); [|lia|done]. exists (node_name ns e.2 :: t), u, n'.
      rewrite <- app_assoc. simpl. by rewrite HL.
    + intros (t & u & n' & -> & Hf & Hn' & Et'). destruct t as [|x t]; simpl in Hf; [congruence|].
      destruct (Lookup (children ns v) x) as [d|] eqn:EL; [|done]. simpl in Hf. apply Lookup_In in EL as [id Hin].
      rewrite (dir_children _ _ _ _ _ Hd) in Hin.
      assert (He : (id, d) ∈ bi) by (rewrite <- (wf_same _ _ _ _ (dir_ok _ F _ _ _ _ Hd)); apply list_elem_of_fmap; by exists (x, (id, d))).
      destruct (by_id_entry _ _ _ _ _ Hd He) as (Hlt & Hl & Hin' & _). simpl in *.
      assert (x = node_name ns d) as ->.
      { rewrite <- (dir_children _ _ _ _ _ Hd) in Hin. destruct (child_ok _ F _ _ _ _ Hin) as (_ & nd & Hnd & _ & <-). unfold node_name. by rewrite Hnd. }
      eexists. split; [|exists (id, d); split; [done|done]]. simpl. apply IH; [lia|done|]. exists t, u, n'. by rewrite <- app_assoc.
  - rewrite list_elem_of_singleton. split.
    + intros [= -> ->]. exists [], v, n. by rewrite app_nil_r.
    + intros (t & u & n' & -> & Hf & Hn' & Et'). destruct t as [|x t]; simpl in Hf; [rewrite app_nil_r; congruence|].
      unfold children, dir in Hf. rewrite Hn in Hf. simpl in Hf. by rewrite Et in Hf.
Qed.

Lemma remotes_NoDup fuel : forall v p, (length ns - v <= fuel)%nat -> (v < length ns)%nat -> NoDup (remotes fuel ns v p).
Proof.
  induction fuel as [|fuel IH]; intros v p Hfuel Hv; [constructor|]. simpl.
  destruct (lookup_lt_is_Some_2 _ _ Hv) as [n Hn]. rewrite Hn. simpl.
  destruct (node_type_ n) as [l|nx bn bi|c'] eqn:Et; [constructor| |by apply NoDup_singleton].
  assert (Hd := node_dir _ _ _ _ _ _ Hn Et). assert (W := dir_ok _ F _ _ _ _ Hd).
  assert (Hnd : NoDup bi) by (eapply NoDup_fmap_1, (ordered_NoDup Z.ltb), W).
  assert (Hall : forall e, e ∈ bi -> (v < e.2)%nat /\ (e.2 < length ns)%nat /\ Lookup (children ns v) (node_name ns e.2) = Some e.2)
    by (intros e He; destruct (by_id_entry _ _ _ _ _ Hd He) as (? & ? & _ & ?); done).
  assert (Hids : forall e e', e ∈ bi -> e' ∈ bi -> node_name ns e.2 = node_name ns e'.2 -> e = e').
  { intros e e' He He' E. destruct (by_id_entry _ _ _ _ _ Hd He) as (_ & _ & H1 & _). destruct (by_id_entry _ _ _ _ _ Hd He') as (_ & _ & H2 & _).
    rewrite E in H1. eapply NoDup_keys_eq; [apply (ordered_NoDup name_ltb), W|done|done]. }
  clear Hd W Hn Et. induction bi as [|e bi IHb]; simpl; [constructor|]. apply NoDup_cons in Hnd as [He Hnd].
  apply NoDup_app. split_and!.
  - destruct (Hall e) as (? & ? & _); [left|]. apply IH; [lia|done].
  - intros [q c] Hq Hq'. destruct (Hall e) as (? & ? & _); [left|]. apply remotes_In in Hq as (t & u & nu & -> & _); [|lia|done].
    apply list_elem_of_join in Hq' as (l & Hq' & Hl). apply list_elem_of_fmap in Hl as (e' & -> & He').
    destruct (Hall e') as (? & ? & _); [by right|]. apply remotes_In in Hq' as (t' & u' & nu' & Eq & _); [|lia|done].
    rewrite <- !app_assoc in Eq. apply app_inv_head in Eq. simpl in Eq. simplify_eq.
    assert (e = e') as -> by (apply Hids; [left|by right|done]). done.
  - apply IHb; [done| |]; intros; [apply Hall|apply Hids]; by try right.
Qed.
End Remotes.

(** ** The walk *)

(** The path of a binding, and of a directory with a slash at its end. *)
Definition path_of (p : list (list Z)) : list Z := slash :: join p.
Fixpoint dir_of (p : list (list Z)) : list Z := match p with [] => [] | w :: p => w ++ slash :: dir_of p end.
Definition base (p : list (list Z)) : list Z := slash :: dir_of p.

Lemma join_dir p x : join (p ++ [x]) = dir_of p ++ x.
Proof.
  induction p as [|w p IH]; [done|]. change ((w :: p) ++ [x]) with (w :: (p ++ [x])). rewrite join_cons by (by destruct p).
  rewrite IH. simpl. by rewrite <- app_assoc.
Qed.
Lemma path_base p x : path_of (p ++ [x]) = base p ++ x.
Proof. unfold path_of, base. by rewrite join_dir. Qed.
Lemma base_snoc p x : base (p ++ [x]) = base p ++ x ++ [slash].
Proof. unfold base. simpl. f_equal. induction p as [|w p IH]; simpl; [done|]. rewrite IH, <- app_assoc. done. Qed.
Lemma join_prefix p q : p `prefix_of` q -> (length (join p) <= length (join q))%nat.
Proof.
  intros [k ->]. induction k as [|x k IH] using rev_ind; [by rewrite app_nil_r|]. etrans; [exact IH|]. rewrite app_assoc, join_dir.
  destruct (p ++ k) as [|y l _] using rev_ind; [simpl; lia|]. rewrite join_dir. assert (H := base_snoc l y). unfold base in H. injection H as ->.
  rewrite !length_app. unfold path_of. simpl. lia.
Qed.

Section Walk.
Context {B : Type} `{!StringBuffer B} (N : nat) `{!StringBufferLaws N B}.
Context (s : fs) (m : bindings) (Rep : represents s m).
Hypothesis (Hfits : forall q b, m !! q = Some b -> (length (path_of q) <= N)%nat).
Hypothesis (Hnamed : forall q b, m !! q = Some b -> Forall (fun w => w <> []) q).
Local Abbreviation ns := (nodes s).
Local Abbreviation r := (root_ s).

Lemma node_fits p v : follow ns r p = Some v -> p <> [] -> (length (path_of p) <= N)%nat /\ Forall (fun w => w <> []) p.
Proof.
  intros Hf Hp. destruct (full_bound _ _ _ (rep_inv _ _ Rep) (rep_full _ _ Rep) (rep_binds _ _ Rep) p v Hf Hp) as (q & b & Hq & Hpre).
  split.
  - etrans; [|by eapply Hfits]. unfold path_of. simpl. by apply le_n_S, join_prefix.
  - destruct Hpre as [k ->]. apply Hnamed, Forall_app in Hq. apply Hq.
Qed.

Context {X : Type} (func : list Z -> Z -> X -> X).
Definition visit (l : list (list (list Z) * Z)) (x : X) : X := foldl (fun x e => func (path_of e.1) e.2 x) x l.

(** The entries of a directory at [p], given what the walk does at each. *)
Lemma walk_entries fuel p (l : list (Z * vref)) : (forall e, e ∈ l -> forall path x, contents path = base p -> exists path', contents path' = base p /\
    EnumerateInternal fuel func e.2 path x s = Some ((path', visit (remotes fuel ns e.2 (p ++ [node_name ns e.2])) x), s)) ->
  forall (acc : M (B * X)) path x, contents path = base p -> acc s = Some ((path, x), s) -> exists path', contents path' = base p /\
    foldl (fun (m : M (B * X)) e => '(path, x) ← m; EnumerateInternal fuel func e.2 path x) acc l s =
      Some ((path', visit (mjoin ((fun e : Z * vref => remotes fuel ns e.2 (p ++ [node_name ns e.2])) <$> l)) x), s).
Proof.
  induction l as [|e l IH]; intros Hl acc path x Hp Hacc; simpl; [by exists path|].
  destruct (Hl e ltac:(left) path x Hp) as (path1 & Hp1 & E).
  destruct (IH ltac:(intros; apply Hl; [by right|done]) ('(path, x) ← acc; EnumerateInternal fuel func e.2 path x) path1
    (visit (remotes fuel ns e.2 (p ++ [node_name ns e.2])) x) Hp1) as (path' & Hp' & E').
  - unfold mbind, ST_bind. rewrite Hacc. exact E.
  - exists path'. split; [done|]. rewrite E'. unfold visit. by rewrite foldl_app.
Qed.

(** A node at [p ++ [x]]. *)
Lemma walk_node fuel : forall v p z path x, follow ns r (p ++ [z]) = Some v -> (length ns - v <= fuel)%nat -> contents path = base p ->
  exists path', contents path' = base p /\
    EnumerateInternal fuel func v path x s = Some ((path', visit (remotes fuel ns v (p ++ [z])) x), s).
Proof.
  induction fuel as [|fuel IH]; intros v p z path x Hf Hfuel Hp.
  { destruct (follow_node _ _ _ _ (rep_inv _ _ Rep) Hf) as [n Hn]. apply lookup_lt_Some in Hn. lia. }
  destruct (follow_last _ _ _ _ _ (forest_subtree _ r (inv_forest _ _ (rep_inv _ _ Rep))) Hf) as (d & n & Hd & Hn & _ & Hz).
  destruct (node_fits _ _ Hf ltac:(by destruct p)) as [Hlen Hne]. rewrite path_base, length_app in Hlen.
  apply Forall_app in Hne as [_ Hne]. rewrite Forall_singleton in Hne.
  assert (Hc : contents (AppendView path z) = base p ++ z) by (rewrite AppendView_contents; [by rewrite Hp|rewrite Hp; lia]).
  assert (Hres : forall path1, (exists k, contents path1 = base p ++ k) -> contents (Resize path1 (length (base p))) = base p).
  { intros path1 [k Hk]. rewrite Resize_contents by (rewrite Hk, length_app; lia). by rewrite Hk, take_app_length. }
  simpl. unfold mbind at 1, ST_bind at 1, node at 1. rewrite Hn. simpl. rewrite Hz, Hp.
  destruct (node_type_ n) as [l|nx bn bi|c] eqn:Et.
  - eexists. split; [|reflexivity]. apply Hres. eauto.
  - assert (Hz0 : Nat.ltb 0 (length z) = true) by (destruct z; [done|by apply Nat.ltb_lt; simpl; lia]). rewrite Hz0.
    assert (Hdir := node_dir _ _ _ _ _ _ Hn Et). assert (Fo := inv_forest _ _ (rep_inv _ _ Rep)).
    assert (Hent : forall e, e ∈ bi -> follow ns r ((p ++ [z]) ++ [node_name ns e.2]) = Some e.2 /\ (length ns - e.2 <= fuel)%nat).
    { intros e He. destruct (by_id_entry ns Fo _ _ _ _ _ Hdir He) as (Hlt & _ & _ & HL). split; [|lia]. by rewrite follow_snoc, Hf. }
    destruct bi as [|e0 bi'] eqn:Ebi.
    { exfalso. destruct (follow_linked _ _ _ _ _ (rep_inv _ _ Rep) Hf Hn) as [(E & _)|(_ & _ & Hpar)]; [by destruct p|].
      apply (rep_full _ _ Rep v n Hn Hpar); [done|unfold is_directory; by rewrite Et|].
      rewrite (dir_children _ _ _ _ _ Hdir). assert (P := wf_same _ _ _ _ (dir_ok _ Fo _ _ _ _ Hdir)).
      destruct bn; [done|]. symmetry in P. by apply Permutation_nil_cons in P. }
    rewrite <- Ebi in *. assert (Hsl : contents (Append (AppendView path z) slash) = base (p ++ [z])).
    { rewrite Append_contents, Hc, base_snoc, <- app_assoc; [done|]. destruct (Hent e0) as [Hf0 _]; [rewrite Ebi; left|].
      destruct (node_fits _ _ Hf0 ltac:(by destruct p)) as [Hl0 _]. rewrite path_base, base_snoc, !length_app in Hl0. simpl in Hl0.
      rewrite Hc, length_app. simpl. lia. }
    destruct (walk_entries fuel (p ++ [z]) bi) with (acc := @mret M _ _ (Append (AppendView path z) slash, x)) (path := Append (AppendView path z) slash) (x := x)
      as (path' & Hp' & E); [|done|done|].
    { intros e He path0 x0 Hp0. destruct (Hent e He) as [Hf0 Hl0]. by apply IH. }
    unfold mbind, ST_bind in E |- *. rewrite E. eexists. split; [|reflexivity]. apply Hres. rewrite Hp', base_snoc. eauto.
  - eexists. split; [|unfold visit; simpl; rewrite path_base, <- Hc; reflexivity]. apply Hres. eauto.
Qed.

Hypothesis (Hroot : node_name ns r = []) (HN : (1 <= N)%nat).

Lemma EnumerateRemotes_ok (empty : B) x : contents empty = [] ->
  EnumerateRemotes empty func r x s = Some (visit (remotes (length ns) ns r []) x, s).
Proof.
  intros He. destruct (inv_root _ _ (rep_inv _ _ Rep)) as (n & Hn & _). assert (Fo := inv_forest _ _ (rep_inv _ _ Rep)).
  assert (Hlt := lookup_lt_Some _ _ _ Hn). unfold node_name in Hroot. rewrite Hn in Hroot.
  enough (E : exists path', EnumerateInternal (length ns) func r (Append empty slash) x s = Some ((path', visit (remotes (length ns) ns r []) x), s)).
  { destruct E as [path' E]. unfold EnumerateRemotes, gets, mbind, ST_bind. by rewrite E. }
  destruct (length ns) as [|fuel] eqn:Hl; [lia|].
  assert (Hp : contents (Append empty slash) = base []) by (rewrite Append_contents; rewrite He; [done|simpl; lia]).
  assert (Hc : contents (AppendView (Append empty slash) []) = base []) by (rewrite AppendView_contents; rewrite Hp; [done|simpl; lia]).
  simpl. unfold mbind at 1, ST_bind at 1, node at 1. rewrite Hn. simpl. rewrite Hroot. simpl.
  destruct (node_type_ n) as [l|nx bn bi|c] eqn:Et; [by eexists| |].
  - assert (Hdir := node_dir _ _ _ _ _ _ Hn Et).
    destruct (walk_entries fuel [] bi) with (acc := @mret M _ _ (AppendView (Append empty slash) [], x)) (path := AppendView (Append empty slash) []) (x := x)
      as (path' & Hp' & E); [|done|done|].
    { intros e He' path0 x0 Hp0. destruct (by_id_entry ns Fo _ _ _ _ _ Hdir He') as (Hlt' & _ & _ & HL). apply walk_node; [|lia|done].
      simpl. by rewrite HL. }
    unfold mbind, ST_bind in E |- *. rewrite E. by eexists.
  - unfold visit. simpl. change (path_of []) with (base []). rewrite <- Hc. by eexists.
Qed.
End Walk.

(** ** Export *)

(** The remote bindings of a map. *)
Definition remote_list (m : bindings) : list (list (list Z) * Z) :=
  omap (fun e => match e.2 with BRemote c => Some (e.1, c) | BLocal _ => None end) (map_to_list m).

Lemma remotes_remote_list s m : represents s m -> remotes (length (nodes s)) (nodes s) (root_ s) [] ≡ₚ remote_list m.
Proof.
  intros [I Fu B]. assert (Fo := inv_forest _ _ I). apply NoDup_Permutation.
  - apply remotes_NoDup; [done|lia|by apply root_lt].
  - unfold remote_list. assert (Hnd := NoDup_map_to_list m). assert (Hk := NoDup_fst_map_to_list m). clear Hnd.
    induction (map_to_list m) as [|[q b] l IH]; simpl; [constructor|]. simpl in Hk. apply NoDup_cons in Hk as [Hq Hk].
    destruct b as [cb|c]; [by apply IH|]. constructor; [|by apply IH]. intros ([q' b'] & Hin & E)%list_elem_of_omap. simpl in E.
    destruct b'; simplify_eq. apply Hq, list_elem_of_fmap. by exists (q, BRemote c).
  - intros [q c]. rewrite remotes_In by (done || lia || by apply root_lt). unfold remote_list. rewrite list_elem_of_omap. split.
    + intros (t & u & n & -> & Hf & Hn & Et). exists (t, BRemote c). split; [|done]. apply elem_of_map_to_list. simpl.
      rewrite (binds_node _ _ _ _ _ _ B Hf Hn). unfold binding_of. by rewrite Et.
    + intros ([q' b] & Hin%elem_of_map_to_list & E). simpl in E. destruct b as [|c']; simplify_eq.
      destruct (binds_followed _ _ _ _ _ B Hin) as (v & n & Hf & Hn & Hb). exists q, v, n. split_and!; [done..|].
      unfold binding_of in Hb. by destruct (node_type_ n) as [[]| |]; simplify_eq.
Qed.

(** What is exported of the remote bindings: those that can be cloned. *)
Definition exported (clone : Z -> Z + Z) (L : list (list (list Z) * Z)) : list (list Z * Z) :=
  omap (fun e => match clone e.2 with inr handle => Some (path_of e.1, handle) | inl _ => None end) L.
Definition flat_of (l : list (list Z * Z)) : flat_namespace :=
  {| flat_handle := l.*2; flat_path := l.*1; buffer := mjoin ((fun e => e.1 ++ [0]) <$> l) |}.
Fixpoint text_size (L : list (list (list Z) * Z)) : nat :=
  match L with [] => 0 | e :: L => length (path_of e.1) + 1 + text_size L end.

Lemma visit_count L a b : visit count_callback L (a, b) = (a + length L, b + text_size L)%nat.
Proof.
  unfold visit. revert a b. induction L as [|e L IH]; intros a b; simpl; [f_equal; lia|].
  unfold count_callback at 2. cbn [fst snd]. rewrite IH. apply f_equal2; unfold path_of; simpl; lia.
Qed.

Lemma fill_step clone count size path c h l : clone c = inr h -> (length l < count)%nat -> (length (buffer (flat_of l)) + length path + 1 <= size)%nat ->
  export_callback clone count size path c (Some (flat_of l)) = Some (flat_of (l ++ [(path, h)])).
Proof.
  intros E Hc Hs. unfold export_callback. simpl in *. rewrite E, length_fmap.
  rewrite (proj2 (Nat.ltb_lt _ _)) by lia. rewrite (proj2 (Nat.leb_le _ _)) by lia. simpl.
  unfold flat_of. rewrite !fmap_app, join_app. simpl. by rewrite app_nil_r.
Qed.

Lemma visit_fill clone count size L : forall l, (length l + length L <= count)%nat -> (length (buffer (flat_of l)) + text_size L <= size)%nat ->
  visit (export_callback clone count size) L (Some (flat_of l)) = Some (flat_of (l ++ exported clone L)).
Proof.
  unfold visit. induction L as [|[p c] L IH]; intros l Hc Hs; cbn [foldl fst snd text_size length] in *; [by rewrite app_nil_r|].
  destruct (clone c) as [e|h] eqn:E.
  - unfold export_callback at 2. cbn [mbind option_bind]. rewrite E, IH by lia. unfold exported. simpl. by rewrite E.
  - rewrite (fill_step _ _ _ _ _ h) by (done || lia). rewrite IH.
    + rewrite <- app_assoc. unfold exported. simpl. by rewrite E.
    + rewrite length_app. simpl. lia.
    + unfold flat_of in *. cbn [buffer] in *. rewrite fmap_app, join_app, length_app. simpl in *. rewrite app_nil_r, length_app. simpl. lia.
Qed.

Lemma Export_ok {B : Type} `{!StringBuffer B} (N : nat) `{!StringBufferLaws N B} s m (empty : B) clone : represents s m -> contents empty = [] ->
  (forall q b, m !! q = Some b -> (length (path_of q) <= N)%nat) -> (forall q b, m !! q = Some b -> Forall (fun w => w <> []) q) ->
  node_name (nodes s) (root_ s) = [] -> (1 <= N)%nat ->
  exists L, L ≡ₚ remote_list m /\ Export empty clone s = Some (flat_of (exported clone L), s).
Proof.
  intros Rep He Hfit Hnamed Hroot HN. exists (remotes (length (nodes s)) (nodes s) (root_ s) []). split; [by apply remotes_remote_list|].
  assert (EN := fun X func => EnumerateRemotes_ok N s m Rep Hfit Hnamed (X := X) func Hroot HN empty).
  unfold Export, export_count, export_fill. unfold mbind, ST_bind, get_root, gets. rewrite EN by done.
  rewrite visit_count. simpl. rewrite EN by done. change (Some flat_empty) with (Some (flat_of [])).
  rewrite visit_fill by (simpl; lia). done.
Qed.
