(* ===== verification/NamespaceLaws.v ===== *)
(** * The local namespace: names and laws of the abstract map

    Every routine keeps the names of the nodes; the root of a namespace that is only bound and
    unbound has no name.  What the operations of the abstract map do to each other. *)

From stdpp Require Import gmap sets.
From S2P Require Import Prelude CleanPath CleanPathTheorems OrderedMap Vnode VnodeTree VnodeUnlink Namespace NamespaceSpec NamespaceInv NamespaceCorrect NamespaceExport.

Create HintDb keeps.

(** A routine that keeps the names and the root. *)
Definition keeps {A} (f : M A) : Prop := forall s a s', f s = Some (a, s') ->
  root_ s' = root_ s /\ forall c n, nodes s !! c = Some n -> exists n', nodes s' !! c = Some n' /\ name_ n' = name_ n.

Lemma keeps_ret {A} (a : A) : keeps (mret a).
Proof. intros s b s' [= <- <-]. split; [done|]. eauto. Qed.
Lemma keeps_bind {A B} (f : M A) (k : A -> M B) : keeps f -> (forall a, keeps (k a)) -> keeps (f ≫= k).
Proof.
  intros Hf Hk s b s' E. unfold mbind, ST_bind in E. destruct (f s) as [[a s1]|] eqn:Ef; [|done].
  destruct (Hf _ _ _ Ef) as [Hr1 H1]. destruct (Hk _ _ _ _ E) as [Hr2 H2]. split; [congruence|]. intros c n Hc.
  destruct (H1 c n Hc) as (n1 & Hn1 & E1). destruct (H2 c n1 Hn1) as (n2 & Hn2 & E2). exists n2. split; [done|congruence].
Qed.
Lemma keeps_undefined {A} : keeps (@undefined fs A).
Proof. by intros s a s'. Qed.
Lemma keeps_gets {A} (f : fs -> A) : keeps (gets f).
Proof. intros s a s' [= <- <-]. split; [done|]. eauto. Qed.
Lemma keeps_node v : keeps (node v).
Proof. intros s a s' E. unfold node in E. destruct (nodes s !! v); [|done]. simpl in E. simplify_eq. split; [done|]. eauto. Qed.
Lemma keeps_insert v n' : (forall s n, nodes s !! v = Some n -> name_ (n' n) = name_ n) ->
  keeps (n ← node v; modify (with_nodes (<[v := n' n]>))).
Proof.
  intros Hname s a s' E. unfold mbind, ST_bind, node in E. destruct (nodes s !! v) as [n|] eqn:Hn; [|done]. simpl in E.
  injection E as <- <-. split; [done|]. intros c nc Hc. simpl. destruct (decide (c = v)) as [->|].
  - exists (n' n). rewrite list_lookup_insert_eq by by eapply lookup_lt_Some. split; [done|]. simplify_eq. by apply (Hname s).
  - exists nc. by rewrite list_lookup_insert_ne.
Qed.
Lemma keeps_set_type v t : keeps (set_type v t).
Proof. by apply (keeps_insert v (fun n => {| node_type_ := t; parent_ := parent_ n; name_ := name_ n |})). Qed.
Lemma keeps_set_parent v p : keeps (set_parent v p).
Proof. by apply (keeps_insert v (fun n => {| node_type_ := node_type_ n; parent_ := p; name_ := name_ n |})). Qed.
Lemma keeps_new_node n : keeps (new_node n).
Proof.
  intros s a s' E. injection E as <- <-. split; [done|]. intros c nc Hc. exists nc. simpl. split; [|done].
  rewrite lookup_app_l; [done|by eapply lookup_lt_Some].
Qed.
#[export] Hint Resolve keeps_ret keeps_bind keeps_undefined keeps_gets keeps_node keeps_set_type keeps_set_parent keeps_new_node : keeps.

(** Splits a routine at its matches. *)
Ltac keeps_tac := repeat first [progress intros | case_match | progress eauto with keeps | apply keeps_bind].

Lemma keeps_AddChild v c : keeps (AddChild v c).
Proof. unfold AddChild, AddEntry. keeps_tac. Qed.
Lemma keeps_RemoveChild v c : keeps (RemoveChild v c).
Proof. unfold RemoveChild, RemoveEntry. keeps_tac. Qed.
#[export] Hint Resolve keeps_AddChild keeps_RemoveChild : keeps.

Lemma keeps_Create p x t : keeps (Create p x t).
Proof. unfold Create. keeps_tac. Qed.
Lemma keeps_UnlinkEntries fuel : forall v nx bn, keeps (UnlinkEntries fuel v nx bn).
Proof.
  induction fuel as [|fuel IH]; intros v nx bn; simpl; [eauto with keeps|]. apply keeps_bind; [|eauto with keeps].
  induction bn as [|e bn IHb]; simpl; [eauto with keeps|]. keeps_tac.
Qed.
#[export] Hint Resolve keeps_Create keeps_UnlinkEntries : keeps.
Lemma keeps_Unlink v : keeps (Unlink v).
Proof. unfold Unlink, UnlinkFromParent. keeps_tac. Qed.
#[export] Hint Resolve keeps_Unlink : keeps.

Lemma keeps_build b p x : keeps (build b p x).
Proof. unfold build, get_root. keeps_tac. Qed.
Lemma keeps_cleanup f : keeps (cleanup f).
Proof. unfold cleanup. keeps_tac. Qed.
#[export] Hint Resolve keeps_build keeps_cleanup : keeps.
Lemma keeps_bind_loop b fuel : forall v f path, keeps (bind_loop fuel b v f path).
Proof. induction fuel as [|fuel IH]; intros v f path; simpl; keeps_tac. Qed.
Lemma keeps_unbind_loop fuel : forall v o path, keeps (unbind_loop fuel v o path).
Proof. unfold handle_terminal_node. induction fuel as [|fuel IH]; intros v o path; simpl; unfold handle_terminal_node; keeps_tac. Qed.

(** ** The name of the root *)

Definition root_unnamed (s : fs) : Prop := node_name (nodes s) (root_ s) = [].

Lemma keeps_root {A} (f : M A) s a s' : keeps f -> (root_ s < length (nodes s))%nat -> f s = Some (a, s') -> root_unnamed s -> root_unnamed s'.
Proof.
  intros Hf Hlt E Hr. destruct (Hf _ _ _ E) as [Er Hn]. unfold root_unnamed, node_name in *. rewrite Er.
  destruct (lookup_lt_is_Some_2 _ _ Hlt) as [n Hc]. destruct (Hn _ _ Hc) as (n' & -> & ->). by rewrite Hc in Hr.
Qed.

(** A node made for the root has no name. *)
Lemma new_root_unnamed t s r s' : Create None [] t s = Some (r, s') -> root_unnamed {| nodes := nodes s'; root_ := r.2 |}.
Proof.
  intros E. unfold Create, new_node, mbind, ST_bind in E. injection E as <- <-. unfold root_unnamed, node_name. simpl.
  by rewrite list_lookup_middle.
Qed.

Lemma Bind_unnamed path b s st s' : inv (nodes s) (root_ s) -> Bind path b s = Some (st, s') -> root_unnamed s -> root_unnamed s'.
Proof.
  intros I E Hr. assert (Hlt := root_lt _ _ I). unfold Bind in E. destruct (negb (starts_with_slash path)); [by injection E as <- <-|].
  unfold mbind at 1, ST_bind at 1, get_root, gets in E. destruct (decide (drop 1 path = [])).
  2: { eapply (keeps_root (bind_loop _ _ _ _ _)); [apply keeps_bind_loop|done|exact E|done]. }
  unfold mbind at 1, ST_bind at 1, node in E. destruct (nodes s !! root_ s) as [n|]; [|done]. simpl in E.
  destruct (node_type_ n) as [|nx bn bi|]; [by injection E as <- <-| |by injection E as <- <-].
  destruct (negb (bool_decide (bi = []))); [by injection E as <- <-|].
  unfold mbind at 1, ST_bind at 1 in E. destruct (build b None [] s) as [[[st1 vn] s1]|] eqn:Eb; [|done].
  destruct (negb (st1 =? ZX_OK)) eqn:Est.
  - injection E as <- <-. eapply (keeps_root (build b None [])); [apply keeps_build|done|exact Eb|done].
  - injection E as <- <-. destruct b as [cb|created c]; simpl in Eb.
    + exact (new_root_unnamed _ _ _ _ Eb).
    + destruct (negb (created =? ZX_OK)) eqn:Ec; [injection Eb as <- <- <-; congruence|]. exact (new_root_unnamed _ _ _ _ Eb).
Qed.

Lemma Unbind_unnamed path s st s' : inv (nodes s) (root_ s) -> Unbind path s = Some (st, s') -> root_unnamed s -> root_unnamed s'.
Proof.
  intros I E Hr. assert (Hlt := root_lt _ _ I). unfold Unbind in E. destruct (negb (starts_with_slash path)); [by injection E as <- <-|].
  unfold mbind at 1, ST_bind at 1, get_root, gets in E. destruct (decide (drop 1 path = [])).
  2: { eapply (keeps_root (unbind_loop _ _ _ _)); [apply keeps_unbind_loop|done|exact E|done]. }
  unfold mbind at 1, ST_bind at 1, node in E. destruct (nodes s !! root_ s) as [n|]; [|done]. simpl in E.
  destruct (node_type_ n) as [|nx bn bi|]; [|by injection E as <- <-|].
  all: unfold mbind at 1, ST_bind at 1 in E; destruct (handle_terminal_node None (root_ s) true s) as [[st1 s1]|]; [|done];
    unfold ResetRoot in E; unfold mbind, ST_bind at 1 2 in E; destruct (Create None [] (Intermediate 1 [] []) s1) as [[r s2]|] eqn:Ec; [|done];
    apply new_root_unnamed in Ec; destruct r; injection E as <- <-; exact Ec.
Qed.

(** ** The local namespace: laws of the specification *)

Definition short (ws : list (list Z)) : Prop := Forall (fun w => too_long w = false) ws.

(** No binding lies above [pre ++ ws] from [pre] on. *)
Definition unblocked (m : bindings) (pre ws : list (list Z)) : Prop := forall k, k `prefix_of` ws -> k <> ws -> m !! (pre ++ k) = None.

Lemma unblocked_cons m pre w ws : unblocked m pre (w :: ws) <-> m !! pre = None /\ unblocked m (pre ++ [w]) ws.
Proof.
  split.
  - intros H. split.
    + specialize (H []). rewrite app_nil_r in H. apply H; [apply prefix_nil|done].
    + intros k Hk Hne. rewrite <- app_assoc. simpl. apply H; [by apply prefix_cons|congruence].
  - intros [H0 H] k Hk Hne. destruct k as [|x k]; [by rewrite app_nil_r|].
    assert (x = w) as -> by by apply prefix_cons_inv_1 in Hk. apply prefix_cons_inv_2 in Hk.
    specialize (H k Hk). rewrite <- app_assoc in H. apply H. congruence.
Qed.

Lemma unblocked_nil m pre : unblocked m pre [].
Proof. by intros k ->%prefix_nil_inv ?. Qed.

Lemma short_cons w ws : short (w :: ws) <-> too_long w = false /\ short ws.
Proof. unfold short. by rewrite Forall_cons. Qed.

Lemma app_snoc_cons {A} (p : list A) x q : (p ++ [x]) ++ q = p ++ x :: q.
Proof. by rewrite <- app_assoc. Qed.

Lemma spec_put_ok m p b m' : spec_put m p b = (ZX_OK, m') <-> exists d, spec_build b = inr d /\ m' = <[p := d]> m.
Proof.
  unfold spec_put. destruct b as [cb|created c]; simpl; [naive_solver|]. destruct (Z.eqb_spec created ZX_OK); naive_solver.
Qed.

Lemma spec_bind_at_ok b m' ws : forall m pre, ws <> [] -> spec_bind_at m pre ws b = (ZX_OK, m') <->
  short ws /\ unblocked m pre ws /\ under m (pre ++ ws) = false /\ exists d, spec_build b = inr d /\ m' = <[pre ++ ws := d]> m.
Proof.
  induction ws as [|w ws IH]; intros m pre Hne; [done|]. rewrite short_cons, unblocked_cons. simpl.
  destruct (too_long w) eqn:Ew; [split; [done|naive_solver]|]. destruct (m !! pre) as [d|] eqn:Em; [split; [done|naive_solver]|].
  destruct ws as [|w' ws].
  - destruct (under m (pre ++ [w])) eqn:Eu; [split; [done|naive_solver]|]. rewrite spec_put_ok.
    split; [intros H; split_and!; [done|constructor|done|apply unblocked_nil|done|done]|tauto].
  - rewrite IH by done. rewrite app_snoc_cons. tauto.
Qed.

Lemma under_of m p q b : m !! q = Some b -> p `prefix_of` q -> under m p = true.
Proof. intros. apply under_spec. eauto. Qed.

Lemma spec_unbind_at_ok m' ws : forall m pre, ws <> [] -> spec_unbind_at m pre ws = (ZX_OK, m') <->
  short ws /\ unblocked m pre ws /\ m !! (pre ++ ws) <> None /\ m' = delete (pre ++ ws) m.
Proof.
  induction ws as [|w ws IH]; intros m pre Hne; [done|]. rewrite short_cons, unblocked_cons. simpl.
  destruct (too_long w) eqn:Ew; [split; [done|naive_solver]|]. destruct (m !! pre) as [d|] eqn:Em; [split; [done|naive_solver]|].
  destruct ws as [|w' ws].
  - destruct (m !! (pre ++ [w])) as [d|] eqn:Ed.
    + split; [intros [= <-]|by intros (_ & _ & _ & ->)]. split_and!; [done|constructor|done|apply unblocked_nil|done|done].
    + simpl. destruct (under m _); (split; [done|naive_solver]).
  - destruct (m !! (pre ++ [w])) as [d|] eqn:Ed.
    + split; [done|]. intros (_ & [_ H] & _). rewrite unblocked_cons in H. destruct H; congruence.
    + destruct (under m (pre ++ [w])) eqn:Eu.
      * rewrite IH by done. rewrite app_snoc_cons. tauto.
      * split; [done|]. intros (_ & _ & H & _). destruct (m !! (pre ++ w :: w' :: ws)) as [d|] eqn:E; [|done].
        rewrite (under_of _ (pre ++ [w]) _ _ E) in Eu; [done|]. exists (w' :: ws). by rewrite app_snoc_cons.
Qed.

(** Binding and then unbinding. *)
Lemma spec_bind_unbind m path b m' : spec_bind m path b = (ZX_OK, m') -> spec_unbind m' path = (ZX_OK, m).
Proof.
  unfold spec_bind, spec_unbind. destruct (starts_with_slash path); [|done]. cbn [negb]. case_decide as Hp.
  - destruct (m !! []); [done|]. destruct (bool_decide_reflect (m = ∅)) as [->|]; [|done].
    intros (d & _ & ->)%spec_put_ok. by rewrite lookup_insert_eq.
  - assert (Hne := split_nonempty (drop 1 path)). rewrite spec_bind_at_ok by done. intros (Hs & Hc & Hu & d & _ & ->). simpl in *.
    apply spec_unbind_at_ok; [done|]. split_and!; [done| | |].
    + intros k Hk Hne'. rewrite lookup_insert_ne by done. by apply Hc.
    + by rewrite lookup_insert_eq.
    + rewrite delete_insert_id; [done|]. by apply under_lookup.
Qed.

(** ** The binding a path leads to *)

Definition plain (ws : list (list Z)) : Prop := short ws /\ Forall (fun w => w <> [dot]) ws.

Lemma spec_walk_plain m k b : forall pre rest, plain (k ++ rest) -> unblocked m pre k -> m !! (pre ++ k) = Some (BRemote b) ->
  spec_walk m pre (k ++ rest) = inr (pre ++ k, match rest with [] => [dot] | _ :: _ => join rest end).
Proof.
  induction k as [|w k IH]; intros pre rest [Hs Hd] Hc Hb; simpl in *.
  - rewrite app_nil_r in Hb. destruct rest as [|w rest]; [by rewrite app_nil_r|]. simpl.
    apply short_cons in Hs as [-> _]. apply Forall_cons in Hd as [Hd _]. rewrite decide_False by done. by rewrite Hb, app_nil_r.
  - apply short_cons in Hs as [-> Hs]. apply Forall_cons in Hd as [Hw Hd]. rewrite decide_False by done.
    apply unblocked_cons in Hc as [-> Hc]. rewrite (under_of m (pre ++ [w]) (pre ++ w :: k) (BRemote b)); [|done|].
    + rewrite IH; [by rewrite app_snoc_cons|by split|done|by rewrite app_snoc_cons].
    + exists k. by rewrite app_snoc_cons.
Qed.
