(* ===== verification/NamespaceCalls.v ===== *)
(** * The local namespace: the C interface

    The calls of namespace.cc clean the path first.  A clean absolute path is the path of a
    list of proper names, so the calls bind only such lists, each short enough for the buffer
    in which [Export] puts paths together. *)

From stdpp Require Import gmap sets.
From S2P Require Import Prelude CleanPath CleanPathTheorems OrderedMap Vnode VnodeTree Namespace NamespaceSpec NamespaceInv NamespaceCorrect NamespaceExport NamespaceLaws.

(** ** Clean absolute paths *)

(** The names an absolute path leads through. *)
Definition path_names (path : list Z) : list (list Z) := (resolve true 0 [] (words path)).2.

Lemma clean_rooted path : is_rooted path = true -> clean path = path_of (path_names path) /\ Forall proper (path_names path).
Proof.
  intros Hr. destruct (resolve_proper true (words path) (words_elements path) 0 []) as [Hst Hu]; [constructor|done|].
  unfold clean, path_names. rewrite Hr. destruct (resolve true 0 [] (words path)) as [ups st]. simpl in Hst, Hu. rewrite (Hu eq_refl).
  split; [|done]. by rewrite decide_False.
Qed.

Lemma clean_relative path : is_rooted path = false -> starts_with_slash (clean path) = false.
Proof.
  intros Hr. destruct (clean_canonical path) as [[(_ & ->)|(Hne & ups & st & E & Hst & _)] _]; [done|]. rewrite Hr in E.
  assert (H := render_rooted false ups st (proper_elems _ _ Hst)). rewrite <- E in H. specialize (H Hne).
  unfold is_rooted in H. apply bool_decide_eq_false in H. destruct (clean path) as [|c p]; [done|]. simpl in *.
  apply Z.eqb_neq. congruence.
Qed.

Fixpoint weight (ws : list (list Z)) : nat := match ws with [] => 0 | w :: ws => S (length w + weight ws) end.

Lemma weight_app ws vs : weight (ws ++ vs) = (weight ws + weight vs)%nat.
Proof. induction ws as [|w ws IH]; simpl; [done|]. rewrite IH. lia. Qed.

Lemma weight_removelast st : (weight (removelast st) <= weight st)%nat.
Proof.
  induction st as [|w st IH] using rev_ind; [done|]. rewrite removelast_last, weight_app. lia.
Qed.

Lemma weight_resolve ws : forall ups st, (weight (resolve true ups st ws).2 <= weight st + weight ws)%nat.
Proof.
  induction ws as [|w ws IH]; intros ups st; simpl; [lia|]. case_decide.
  - destruct st as [|v st]; [specialize (IH ups []); simpl in *; lia|].
    specialize (IH ups (removelast (v :: st))). assert (H1 := weight_removelast (v :: st)). lia.
  - specialize (IH ups (st ++ [w])). rewrite weight_app in IH. simpl in IH. lia.
Qed.

Lemma weight_words s : (weight (words s) <= S (length s))%nat.
Proof.
  assert (Hs : (weight (split s) <= S (length s))%nat).
  { induction s as [|c s IH]; simpl; [lia|]. destruct (c =? slash); simpl; [lia|]. destruct (split s); simpl in *; lia. }
  etrans; [|exact Hs]. unfold words. clear. induction (split s) as [|w ws IH]; [done|]. rewrite filter_cons. case_decide; simpl; lia.
Qed.

Lemma length_join ws : (length (join ws) < weight ws \/ ws = [])%nat.
Proof.
  induction ws as [|w ws IH]; [by right|left]. destruct (decide (ws = [])) as [->|Hne]; [simpl; lia|].
  rewrite join_cons, length_app by done. simpl. destruct IH; [lia|done].
Qed.

Lemma target_length path : is_rooted path = true -> (length (path_of (path_names path)) <= length path)%nat.
Proof.
  intros Hr. unfold is_rooted in Hr. apply bool_decide_eq_true in Hr. destruct path as [|c path]; [done|]. injection Hr as ->.
  assert (H1 := weight_resolve (words (slash :: path)) 0 []). rewrite words_slash in H1. assert (H2 := weight_words path).
  unfold path_names, path_of. rewrite words_slash. simpl in *.
  destruct (length_join (resolve true 0 [] (words path)).2) as [H|H]; [lia|]. rewrite H. simpl. lia.
Qed.

(** The names of a path as the operations split it. *)
Definition segments (path : list Z) : list (list Z) := if decide (drop 1 path = []) then [] else split (drop 1 path).

Lemma segments_path_of ws : Forall proper ws -> segments (path_of ws) = ws.
Proof.
  intros Hw. unfold segments, path_of. simpl. rewrite drop_0. case_decide as E.
  - destruct ws as [|w ws]; [done|]. apply Forall_cons in Hw as [[[Hw _] _] _].
    assert (H := f_equal length E). destruct w; [done|]. destruct ws; simpl in H; lia.
  - apply split_join; [by intros ->|]. eapply Forall_impl; [exact Hw|]. intros w [[_ ?] _]. done.
Qed.

(** What a bind and an unbind leave. *)
Lemma spec_bind_result m path b : (spec_bind m path b).2 = m \/ exists d, (spec_bind m path b).2 = <[segments path := d]> m /\ starts_with_slash path = true.
Proof.
  destruct (starts_with_slash path) eqn:Es; [|left; unfold spec_bind; by rewrite Es].
  assert (Hput : forall p, (spec_put m p b).2 = m \/ exists d, (spec_put m p b).2 = <[p := d]> m)
    by (intros p; unfold spec_put; destruct (spec_build b); simpl; eauto).
  unfold spec_bind, segments. rewrite Es. cbn [negb]. case_decide as Hp.
  - destruct (m !! []); [by left|]. destruct (bool_decide (m = ∅)); [|by left]. destruct (Hput []) as [|[d Hd]]; eauto.
  - assert (H : forall ws pre, (spec_bind_at m pre ws b).2 = m \/ exists d, (spec_bind_at m pre ws b).2 = <[pre ++ ws := d]> m).
    { induction ws as [|w ws IH]; intros pre; simpl; [by left|]. destruct (too_long w); [by left|]. destruct (m !! pre); [by left|].
      destruct ws as [|w' ws]; [destruct (under m (pre ++ [w])); [by left|apply Hput]|]. specialize (IH (pre ++ [w])). by rewrite app_snoc_cons in IH. }
    destruct (H (split (drop 1 path)) []) as [|[d Hd]]; eauto.
Qed.

Lemma spec_unbind_result m path : (spec_unbind m path).2 ⊆ m.
Proof.
  unfold spec_unbind. destruct (starts_with_slash path); [|done]. cbn [negb]. case_decide as Hp; [destruct (m !! []); [apply map_empty_subseteq|done]|].
  assert (H : forall ws pre, (spec_unbind_at m pre ws).2 ⊆ m).
  { induction ws as [|w ws IH]; intros pre; simpl; [done|]. destruct (too_long w); [done|]. destruct (m !! pre); [done|].
    destruct (m !! (pre ++ [w])); [destruct ws; [apply delete_subseteq|done]|]. destruct (under m (pre ++ [w])); [apply IH|done]. }
  apply H.
Qed.

(** ** Calls *)

Inductive call :=
| CallBind (path : option (list Z)) (valid : bool) (created connection : Z)
| CallBindLocal (path : option (list Z)) (on_open : option (Z * Z))
| CallUnbind (path : option (list Z))
| CallIsBound (path : option (list Z))
| CallOpen (path : option (list Z)).

(** The flag of a reply says whether the handle that was given away will be closed. *)
Inductive reply := ReplyStatus (status : Z) (closed : bool) | ReplyBool (b : bool) | ReplyOpen (r : Z + Z * list Z) (closed : bool).

Definition path_arg (c : call) : option (list Z) :=
  match c with CallBind p _ _ _ | CallBindLocal p _ | CallUnbind p | CallIsBound p | CallOpen p => p end.

Section Calls.
Context {B : Type} `{!StringBuffer B} (empty : B).

Definition do_call (c : call) : M reply :=
  match c with
  | CallBind path valid created connection => '(st, closed) ← fdio_ns_bind empty path valid created connection; mret (ReplyStatus st closed)
  | CallBindLocal path on_open => st ← fdio_ns_bind_local empty path on_open; mret (ReplyStatus st true)
  | CallUnbind path => st ← fdio_ns_unbind empty path; mret (ReplyStatus st true)
  | CallIsBound path => b ← fdio_ns_is_bound empty path; mret (ReplyBool b)
  | CallOpen path => '(r, closed) ← fdio_ns_open empty path; mret (ReplyOpen r closed)
  end.

Fixpoint do_calls (cs : list call) : M (list reply) :=
  match cs with
  | [] => mret []
  | c :: cs => r ← do_call c; rs ← do_calls cs; mret (r :: rs)
  end.
End Calls.

Definition usable (path : list Z) : bool := Nat.leb (length path) (PATH_MAX - 1).

(** The calls on the map: the path is cleaned lexically. *)
Definition spec_call (c : call) (m : bindings) : reply * bindings :=
  match c with
  | CallBind None _ _ _ => (ReplyStatus ZX_ERR_INVALID_ARGS false, m)
  | CallBind (Some path) valid created connection =>
      if negb (usable path) then (ReplyStatus ZX_ERR_BAD_PATH false, m)
      else if negb valid then (ReplyStatus ZX_ERR_BAD_HANDLE true, m)
      else let r := spec_bind m (clean path) (BuildRemote created connection) in (ReplyStatus r.1 true, r.2)
  | CallBindLocal (Some path) (Some cb) =>
      if negb (usable path) then (ReplyStatus ZX_ERR_BAD_PATH true, m)
      else if names_dir path then (ReplyStatus ZX_ERR_INVALID_ARGS true, m)
      else let r := spec_bind m (clean path) (BuildLocal cb) in (ReplyStatus r.1 true, r.2)
  | CallBindLocal _ _ => (ReplyStatus ZX_ERR_INVALID_ARGS true, m)
  | CallUnbind None => (ReplyStatus ZX_ERR_INVALID_ARGS true, m)
  | CallUnbind (Some path) =>
      if negb (usable path) then (ReplyStatus ZX_ERR_BAD_PATH true, m)
      else let r := spec_unbind m (clean path) in (ReplyStatus r.1 true, r.2)
  | CallIsBound None => (ReplyBool false, m)
  | CallIsBound (Some path) => (ReplyBool (if usable path then spec_is_bound m (clean path) else false), m)
  | CallOpen None => (ReplyOpen (inl ZX_ERR_INVALID_ARGS) false, m)
  | CallOpen (Some path) =>
      if negb (usable path) then (ReplyOpen (inl ZX_ERR_BAD_PATH) false, m)
      else (ReplyOpen (spec_connect m (clean path)) true, m)
  end.

Fixpoint spec_calls (cs : list call) (m : bindings) : list reply * bindings :=
  match cs with
  | [] => ([], m)
  | c :: cs => let '(r, m) := spec_call c m in let '(rs, m) := spec_calls cs m in (r :: rs, m)
  end.

(** ** Correctness *)

(** What the calls bind: lists of proper names, short enough. *)
Definition clean_bindings (m : bindings) : Prop := forall q b, m !! q = Some b -> Forall proper q /\ (length (path_of q) <= PATH_MAX - 1)%nat.

(** A namespace that was reached by calls. *)
Record served (s : fs) (m : bindings) : Prop := {
  served_rep : represents s m;
  served_clean : clean_bindings m;
  served_root : root_unnamed s;
}.

(** Nodes a call makes at most. *)
Definition call_room : nat := PATH_MAX + 1.

Lemma usable_length path : usable path = true -> (length (clean path) <= PATH_MAX)%nat \/ starts_with_slash (clean path) = false.
Proof.
  intros H%Nat.leb_le. destruct (is_rooted path) eqn:Er; [left|right; by apply clean_relative].
  destruct (clean_rooted path Er) as [-> _]. assert (H1 := target_length path Er). lia.
Qed.

Lemma clean_insert m path b : clean_bindings m -> usable path = true -> clean_bindings (spec_bind m (clean path) b).2.
Proof.
  intros Hm Hu. destruct (spec_bind_result m (clean path) b) as [->|(d & -> & Hs)]; [done|].
  destruct (is_rooted path) eqn:Er; [|by rewrite clean_relative in Hs]. destruct (clean_rooted path Er) as [E Hp].
  rewrite E, segments_path_of by done. intros q b' Hq. destruct (decide (q = path_names path)) as [->|Hne].
  - split; [done|]. apply Nat.leb_le in Hu. assert (H1 := target_length path Er). lia.
  - rewrite lookup_insert_ne in Hq by done. by eapply Hm.
Qed.

Lemma Bind_served s m path b : served s m -> usable path = true -> room s call_room ->
  wp (Bind (clean path) b) s (fun st s' => st = (spec_bind m (clean path) b).1 /\ served s' (spec_bind m (clean path) b).2 /\
    (length (nodes s') <= length (nodes s) + call_room)%nat).
Proof.
  intros [Rep Hc Hr] Hu Hroom. destruct (usable_length path Hu) as [Hl|Hl].
  - destruct (Bind_ok s m (clean path) b Rep) as (st & s' & E & -> & Rep' & Hlen); [unfold room, call_room in *; lia|].
    exists (spec_bind m (clean path) b).1, s'. split; [done|]. split; [done|]. split; [|unfold call_room; lia].
    split; [done|by apply clean_insert|]. by eapply Bind_unnamed; [apply Rep|..].
  - unfold Bind, spec_bind. rewrite Hl. apply wp_ret. split; [done|]. split; [done|]. lia.
Qed.

Lemma Unbind_served s m path : served s m ->
  wp (Unbind path) s (fun st s' => st = (spec_unbind m path).1 /\ served s' (spec_unbind m path).2 /\
    (length (nodes s') <= length (nodes s) + call_room)%nat).
Proof.
  intros [Rep Hc Hr]. destruct (Unbind_ok s m path Rep) as (st & s' & E & -> & Rep' & Hlen).
  exists (spec_unbind m path).1, s'. split; [done|]. split; [done|]. split; [|unfold call_room; lia].
  split; [done| |by eapply Unbind_unnamed; [apply Rep|..]]. intros q b Hq. apply (Hc q b).
  by apply (lookup_weaken _ _ _ _ Hq), spec_unbind_result.
Qed.

Section CallsOk.
Context {B : Type} `{!StringBuffer B} `{!StringBufferLaws (PATH_MAX - 1) B} (empty : B) (Hempty : contents empty = []).

Lemma with_clean_path_ok {A} path (null bad : A) k s : no_nul path ->
  with_clean_path empty (Some path) null bad k s = if usable path then k (clean path) (names_dir path) s else Some (bad, s).
Proof.
  intros Hn. assert (H := CleanPath_ok path empty false Hn Hempty). unfold with_clean_path, usable, lift, mbind, ST_bind.
  destruct (decide (length path <= PATH_MAX - 1)%nat) as [Hl|Hl].
  - rewrite (proj2 (Nat.leb_le _ _) Hl). destruct H as (out' & -> & <-). done.
  - rewrite (proj2 (Nat.leb_gt _ _)) by lia. destruct H as (out' & d & ->). done.
Qed.

Definition call_done (s : fs) (c : call) (m : bindings) (r : reply) (s' : fs) : Prop :=
  r = (spec_call c m).1 /\ served s' (spec_call c m).2 /\ (length (nodes s') <= length (nodes s) + call_room)%nat.

Lemma do_call_ok s m c : served s m -> room s call_room -> (forall path, path_arg c = Some path -> no_nul path) ->
  wp (do_call empty c) s (call_done s c m).
Proof.
  intros Se Hroom Hn. assert (Hsame : forall c r, spec_call c m = (r, m) -> call_done s c m r s).
  { intros c' r E. unfold call_done. rewrite E. split; [done|]. split; [done|]. lia. }
  destruct c as [path valid created conn|path on_open|path|path|path]; simpl.
  all: destruct path as [path|]; [specialize (Hn path eq_refl)|try by apply wp_bind, wp_ret, wp_ret, Hsame].
  - apply wp_bind. unfold wp. unfold fdio_ns_bind. rewrite with_clean_path_ok by done. fold (wp (S := fs) (A := Z * bool)).
    destruct (usable path) eqn:Hu; [|eexists _, s; split; [done|]; apply wp_ret, Hsame; simpl; by rewrite Hu].
    unfold BindRemote. destruct valid; cbn [negb].
    2: { eexists _, s. split; [done|]. apply wp_ret, Hsame. simpl. by rewrite Hu. }
    destruct (Bind_served s m path (BuildRemote created conn) Se Hu Hroom) as (st & s' & E & -> & Se' & Hl).
    eexists (_, true), s'. split; [unfold mbind, ST_bind; by rewrite E|]. apply wp_ret. unfold call_done. simpl. by rewrite Hu.
  - destruct on_open as [cb|]; [|by apply wp_bind, wp_ret, wp_ret, Hsame]. apply wp_bind. unfold wp. unfold fdio_ns_bind_local.
    rewrite with_clean_path_ok by done.
    destruct (usable path) eqn:Hu; [|eexists _, s; split; [done|]; apply wp_ret, Hsame; simpl; by rewrite Hu].
    destruct (names_dir path) eqn:Hd; [eexists _, s; split; [done|]; apply wp_ret, Hsame; simpl; by rewrite Hu, Hd|].
    destruct (Bind_served s m path (BuildLocal cb) Se Hu Hroom) as (st & s' & E & -> & Se' & Hl).
    eexists _, s'. split; [exact E|]. apply wp_ret. unfold call_done. simpl. by rewrite Hu, Hd.
  - destruct on_open; by apply wp_bind, wp_ret, wp_ret, Hsame.
  - apply wp_bind. unfold wp. unfold fdio_ns_unbind. rewrite with_clean_path_ok by done.
    destruct (usable path) eqn:Hu; [|eexists _, s; split; [done|]; apply wp_ret, Hsame; simpl; by rewrite Hu].
    destruct (Unbind_served s m (clean path) Se) as (st & s' & E & -> & Se' & Hl).
    eexists _, s'. split; [exact E|]. apply wp_ret. unfold call_done. simpl. by rewrite Hu.
  - apply wp_bind. unfold wp. unfold fdio_ns_is_bound. rewrite with_clean_path_ok by done.
    destruct (usable path) eqn:Hu; [|eexists _, s; split; [done|]; apply wp_ret, Hsame; simpl; by rewrite Hu].
    destruct (IsBound_ok s m (clean path) (served_rep _ _ Se)) as (r & s' & E & -> & ->).
    eexists _, s. split; [exact E|]. apply wp_ret, Hsame. simpl. by rewrite Hu.
  - apply wp_bind. unfold wp. unfold fdio_ns_open. rewrite with_clean_path_ok by done.
    destruct (usable path) eqn:Hu; [|eexists _, s; split; [done|]; apply wp_ret, Hsame; simpl; by rewrite Hu].
    destruct (Connect_ok s m (clean path) (served_rep _ _ Se)) as (r & s' & E & -> & ->).
    eexists (_, true), s. split; [unfold mbind, ST_bind; by rewrite E|]. apply wp_ret, Hsame. simpl. by rewrite Hu.
Qed.

Lemma do_calls_ok cs : forall s m, served s m -> room s (call_room * length cs) ->
  Forall (fun c => forall path, path_arg c = Some path -> no_nul path) cs ->
  wp (do_calls empty cs) s (fun rs s' => rs = (spec_calls cs m).1 /\ served s' (spec_calls cs m).2).
Proof.
  induction cs as [|c cs IH]; intros s m Se Hroom Hn; [by apply wp_ret|]. apply Forall_cons in Hn as [Hc Hn].
  cbn [do_calls spec_calls]. cbn [length] in Hroom. rewrite Nat.mul_succ_r in Hroom. apply wp_bind. eapply wp_mono; [apply (do_call_ok s m c Se); [unfold room in *; lia|done]|].
  intros r s1 (-> & Se1 & Hl). destruct (spec_call c m) as [r m1]. cbn [fst snd] in *. apply wp_bind.
  eapply wp_mono; [apply (IH s1 m1 Se1); [unfold room in *; lia|done]|].
  intros rs s2 [-> Se2]. destruct (spec_calls cs m1) as [rs m2]. by apply wp_ret.
Qed.
End CallsOk.

(** A new namespace. *)
Lemma served_new : exists s, fdio_namespace_new = Some s /\ served s ∅ /\ length (nodes s) = 1%nat.
Proof.
  eexists. split; [reflexivity|]. split; [|done]. simpl.
  destruct (new_root [] (Intermediate 1 [] []) []) as (I & Fu & B'); try done.
  { split; [| |]; unfold children, dir; simpl; intros; set_solver. }
  split; [split; [exact I|exact Fu|]|intros q b; by rewrite lookup_empty|done].
  intros y. rewrite lookup_empty. symmetry. etrans; [exact (B' y)|]. by case_decide.
Qed.
