(* ===== verification/NamespaceTheorems.v ===== *)
(** * The local namespace: properties

    The theorems on the tree of vnodes, the operations and the C interface of the namespace,
    with concrete runs. *)

From stdpp Require Import gmap sets sorting.
From S2P Require Import Prelude CleanPath CleanPathTheorems OrderedMap Vnode VnodeTree VnodeUnlink Namespace NamespaceSpec NamespaceInv NamespaceCorrect NamespaceRoot NamespaceExport NamespaceLaws NamespaceCalls.

(** ** Concrete namespaces *)

Definition calls_example : list call :=
  [ CallBind (Some (chars "/svc")) true ZX_OK 7;
    CallBind (Some (chars "/pkg/./lib/../data/")) true ZX_OK 8;
    CallBindLocal (Some (chars "/dev/null")) (Some (1, 2));
    CallBind (Some (chars "/svc/x")) true ZX_OK 9;
    CallUnbind (Some (chars "/dev/null"));
    CallIsBound (Some (chars "/dev"));
    CallOpen (Some (chars "/pkg/data/a//b"));
    CallBind None true ZX_OK 10 ].

Lemma calls_example_nul : Forall (fun c => forall path, path_arg c = Some path -> no_nul path) calls_example.
Proof.
  repeat constructor; simpl; intros path [= <-]; apply (bool_decide_unpack _); by vm_compute.
Qed.

(** ** The C interface *)

(** C4.  The calls of the namespace refine a finite map from lists of names to bindings: from
    a new namespace, any sequence of fdio_ns_bind, fdio_ns_bind_local, fdio_ns_unbind,
    fdio_ns_is_bound and fdio_ns_open with strings for paths is defined, replies what the
    specification replies on the cleaned paths, and leaves a tree that stands for the map of
    the specification: its invariant holds, it has no directory that leads to no binding, and
    a list of names leads to a bound node exactly when the map has it. *)
Theorem fdio_ns_refines {B : Type} `{!StringBuffer B} `{!StringBufferLaws (PATH_MAX - 1) B} (empty : B) cs :
  contents empty = [] -> Forall (fun c => forall path, path_arg c = Some path -> no_nul path) cs ->
  Z.of_nat (call_room * length cs) < 2 ^ 64 - 3 ->
  exists s0 s', fdio_namespace_new = Some s0 /\ do_calls empty cs s0 = Some ((spec_calls cs ∅).1, s') /\ represents s' (spec_calls cs ∅).2.
Proof.
  intros He Hn Hl. destruct served_new as (s0 & E0 & Se & Hlen). exists s0.
  destruct (do_calls_ok empty He cs s0 ∅ Se) as (rs & s' & E & -> & Se'); [unfold room; rewrite Hlen; lia|done|].
  exists s'. split; [done|]. split; [done|]. apply Se'.
Qed.

Lemma fdio_ns_refines_witness : (exists s0 s', fdio_namespace_new = Some s0 /\
    @do_calls (list Z) CuttingBuffer.buffer [] calls_example s0 = Some ((spec_calls calls_example ∅).1, s') /\
    represents s' (spec_calls calls_example ∅).2) /\
  (spec_calls calls_example ∅).1 = [ReplyStatus ZX_OK true; ReplyStatus ZX_OK true; ReplyStatus ZX_OK true; ReplyStatus ZX_ERR_NOT_SUPPORTED true;
    ReplyStatus ZX_OK true; ReplyBool false; ReplyOpen (inr (8, chars "a/b")) true; ReplyStatus ZX_ERR_INVALID_ARGS false].
Proof.
  split; [|by vm_compute].
  exact (@fdio_ns_refines (list Z) CuttingBuffer.buffer CuttingBuffer.buffer_laws [] calls_example eq_refl calls_example_nul ltac:(by vm_compute)).
Defined.

(** ** Binding *)

Lemma spec_bind_at_fail b ws : forall m pre, (spec_bind_at m pre ws b).1 <> ZX_OK -> (spec_bind_at m pre ws b).2 = m.
Proof.
  induction ws as [|w ws IH]; intros m pre; simpl; [done|]. destruct (too_long w); [done|]. destruct (m !! pre); [done|].
  destruct ws; [|apply IH]. destruct (under m (pre ++ [w])); [done|]. unfold spec_put. by destruct (spec_build b).
Qed.

(** Nothing is bound above, at or under [ws]. *)
Lemma free_iff m ws : (unblocked m [] ws /\ under m ws = false) <-> forall q d, m !! q = Some d -> ~ q `prefix_of` ws /\ ~ ws `prefix_of` q.
Proof.
  split.
  - intros [Hc Hu] q d Hq. split; intros Hp.
    + destruct (decide (q = ws)) as [->|Hne]; [by rewrite (under_of _ _ _ _ Hq) in Hu|]. specialize (Hc q Hp Hne). simpl in Hc. congruence.
    + by rewrite (under_of _ _ _ _ Hq) in Hu.
  - intros H. split.
    + intros k Hk Hne. simpl. destruct (m !! k) as [d|] eqn:E; [|done]. by destruct (H k d E).
    + apply not_true_is_false. rewrite under_spec. intros (q & d & Hq & Hp). by destruct (H q d Hq).
Qed.

Lemma path_split ws : ws <> [] -> ws <> [[]] -> Forall no_slash ws -> join ws <> [] /\ split (join ws) = ws.
Proof.
  intros Hne Hne' Hs. split; [|by apply split_join]. destruct ws as [|w [|w' ws]]; [done| |].
  - intros E. simpl in E. congruence.
  - rewrite join_cons by done. by destruct w.
Qed.

Lemma spec_bind_path m ws b : ws <> [] -> ws <> [[]] -> Forall no_slash ws -> spec_bind m (path_of ws) b = spec_bind_at m [] ws b.
Proof.
  intros H1 H2 H3. destruct (path_split ws H1 H2 H3) as [Hj Hs]. unfold spec_bind, path_of. simpl. rewrite drop_0. by rewrite decide_False, Hs.
Qed.

(** Binding at an absolute path other than the root succeeds exactly when the builder
    does, no segment is longer than [NAME_MAX] and nothing is bound above, at or under the
    path; the binding is then there and no other changed.  A bind that fails changes nothing:
    the directories made on the way are gone again. *)
Theorem Bind_correct s m ws b : represents s m -> room s (length (path_of ws) + 1) -> ws <> [] -> ws <> [[]] -> Forall no_slash ws ->
  wp (Bind (path_of ws) b) s (fun st s' =>
    (st = ZX_OK <-> (exists d, spec_build b = inr d) /\ short ws /\ forall q d, m !! q = Some d -> ~ q `prefix_of` ws /\ ~ ws `prefix_of` q) /\
    (if st =? ZX_OK then exists d, spec_build b = inr d /\ represents s' (<[ws := d]> m) else represents s' m)).
Proof.
  intros Rep Hroom H1 H2 H3. eapply wp_mono; [by apply Bind_ok|]. intros st s' (-> & Rep' & _).
  rewrite spec_bind_path in * by done. assert (Hok := fun m' => spec_bind_at_ok b m' ws m [] H1). rewrite <- free_iff.
  destruct (Z.eqb_spec (spec_bind_at m [] ws b).1 ZX_OK) as [E|E].
  - destruct (proj1 (Hok (spec_bind_at m [] ws b).2)) as (Hs & Hc & Hu & d & Hd & Hm); [rewrite <- E; by destruct (spec_bind_at m [] ws b)|].
    split; [|exists d; split; [done|by rewrite Hm in Rep']]. split; [|done]. intros _. split; [eauto|done].
  - split; [|by rewrite spec_bind_at_fail in Rep']. split; [done|]. intros ([d Hd] & Hs & Hc & Hu). exfalso. apply E.
    rewrite (proj2 (Hok (<[ws := d]> m))); [done|]. split_and!; [done..|]. eauto.
Qed.

(** The namespace with a remote at [/a/b] and nothing else. *)
Definition one_bound : option fs := s0 ← fdio_namespace_new; '(_, s) ← Bind (chars "/a/b") (BuildRemote ZX_OK 5) s0; Some s.
Definition names_of (l : list string) : list (list Z) := chars <$> l.

Lemma one_bound_ok : exists s, one_bound = Some s /\ represents s {[names_of ["a"; "b"] := BRemote 5]} /\ length (nodes s) = 3%nat.
Proof.
  destruct served_new as (s0 & E0 & Se & Hl). destruct (Bind_ok s0 ∅ (chars "/a/b") (BuildRemote ZX_OK 5) (served_rep _ _ Se)) as (st & s' & E & Est & Rep & _).
  { unfold room. rewrite Hl. by vm_compute. }
  exists s'. unfold one_bound. rewrite E0. simpl. rewrite E. split; [done|]. split; [exact Rep|].
  assert (Hs : Some s' = one_bound) by (unfold one_bound; rewrite E0; simpl; by rewrite E). vm_compute in Hs. by injection Hs as ->.
Qed.

Lemma Bind_correct_witness : exists s, one_bound = Some s /\
  wp (Bind (path_of (names_of ["a"; "c"; "d"])) (BuildLocal (1, 2))) s (fun st s' =>
    st = ZX_OK /\ represents s' (<[names_of ["a"; "c"; "d"] := BLocal (1, 2)]> {[names_of ["a"; "b"] := BRemote 5]})).
Proof.
  destruct one_bound_ok as (s & E & Rep & Hl). exists s. split; [exact E|].
  assert (Hns : Forall no_slash (names_of ["a"; "c"; "d"])) by (apply (bool_decide_unpack _); by vm_compute).
  assert (Hroom : room s (length (path_of (names_of ["a"; "c"; "d"])) + 1)) by (unfold room; rewrite Hl; by vm_compute).
  eapply wp_mono; [exact (Bind_correct s _ (names_of ["a"; "c"; "d"]) (BuildLocal (1, 2)) Rep Hroom ltac:(done) ltac:(done) Hns)|].
  intros st s' [Hst Hr]. assert (st = ZX_OK) as ->.
  - apply Hst. split; [eauto|]. split; [repeat constructor|]. intros q d [<- <-]%lookup_singleton_Some.
    split; apply (bool_decide_eq_false _); by vm_compute.
  - split; [done|]. destruct Hr as (d & [= <-] & Hr). exact Hr.
Defined.

(** C8.  Unbinding undoes binding: whenever a bind succeeds, an unbind of the same path right
    after it succeeds and the namespace stands for the bindings it had. *)
Theorem bind_unbind_roundtrip s m path b : represents s m -> room s (length path + 1) ->
  wp (Bind path b) s (fun st s' => st = ZX_OK -> wp (Unbind path) s' (fun st' s'' => st' = ZX_OK /\ represents s'' m)).
Proof.
  intros Rep Hroom. eapply wp_mono; [by apply Bind_ok|]. intros st s' (-> & Rep' & _) Hok.
  destruct (spec_bind m path b) as [st m'] eqn:E. simpl in *. subst st. apply spec_bind_unbind in E.
  eapply wp_mono; [by apply Unbind_ok|]. intros st s2 (-> & Rep2 & _). by rewrite E in *.
Qed.

Lemma bind_unbind_roundtrip_witness : exists s, one_bound = Some s /\
  wp (Bind (chars "/a/c/d") (BuildRemote ZX_OK 6)) s (fun st s' => st = ZX_OK /\
    wp (Unbind (chars "/a/c/d")) s' (fun st' s'' => st' = ZX_OK /\ represents s'' {[names_of ["a"; "b"] := BRemote 5]})).
Proof.
  destruct one_bound_ok as (s & E & Rep & Hl). exists s. split; [exact E|].
  assert (Hroom : room s (length (chars "/a/c/d") + 1)) by (unfold room; rewrite Hl; by vm_compute).
  destruct (Bind_ok s _ (chars "/a/c/d") (BuildRemote ZX_OK 6) Rep Hroom) as (st & s' & Eb & Hst & _).
  destruct (bind_unbind_roundtrip s _ (chars "/a/c/d") (BuildRemote ZX_OK 6) Rep Hroom) as (st1 & s1 & Eb1 & H).
  exists st1, s1. split; [exact Eb1|]. assert (st1 = ZX_OK) as ->; [|split; [done|by apply H]].
  rewrite Eb in Eb1. injection Eb1 as <- <-. rewrite Hst. by vm_compute.
Defined.

(** ** Connecting *)

(** A path at or under a remote binding, of segments that are neither dots nor too long,
    is opened on the connection that is bound, with the rest of the path, a single dot at the
    binding itself (nothing at a bound root); the namespace does not change. *)
Theorem Connect_correct s m q k c : represents s m -> m !! q = Some (BRemote c) -> plain (q ++ k) -> Forall no_slash (q ++ k) -> q ++ k <> [[]] ->
  Connect (path_of (q ++ k)) s = Some (inr (c, match q ++ k, k with [], _ => [] | _, [] => [dot] | _, _ => join k end), s).
Proof.
  intros Rep Hq Hpl Hs Hne. destruct (Connect_ok s m (path_of (q ++ k)) Rep) as (r & s' & E & -> & ->). rewrite E. f_equal. f_equal.
  unfold spec_connect, spec_rooted, path_of. simpl. rewrite drop_0.
  assert (Hclear : unblocked m [] q).
  { intros p Hp Hpq. simpl. destruct (m !! p) as [d|] eqn:Ep; [|done]. destruct Hpq. by eapply (bound_leaf _ _ m p q); [apply Rep..|exact Ep|exact Hq|]. }
  destruct (decide (q ++ k = [])) as [Enil|Hnil].
  { rewrite Enil. apply app_nil in Enil as [-> ->]. unfold spec_resolve. rewrite decide_True by (by left). by rewrite Hq. }
  destruct (path_split (q ++ k) Hnil Hne Hs) as [Hj Hsp]. unfold spec_resolve. rewrite decide_False.
  - rewrite Hsp, (spec_walk_plain m q c [] k Hpl Hclear Hq). simpl. rewrite Hq. by destruct (q ++ k), k.
  - intros [?|Hdot]; [done|]. rewrite Hdot in Hsp. change (split [dot]) with [[dot]] in Hsp. rewrite <- Hsp in Hpl.
    destruct Hpl as [_ Hd]. apply Forall_cons in Hd as [? _]. done.
Qed.

Lemma Connect_correct_witness : exists s, one_bound = Some s /\
  Connect (chars "/a/b/c/d") s = Some (inr (5, chars "c/d"), s) /\ Connect (chars "/a/b") s = Some (inr (5, [dot]), s).
Proof.
  destruct one_bound_ok as (s & E & Rep & Hl). exists s. split; [exact E|].
  assert (Hp : plain (names_of ["a"; "b"; "c"; "d"]) /\ Forall no_slash (names_of ["a"; "b"; "c"; "d"])).
  { split; [split|]; [repeat constructor|repeat constructor; done|apply (bool_decide_unpack _); by vm_compute]. }
  destruct Hp as [[Hp1 Hp2] Hp3]. split.
  - exact (Connect_correct s _ (names_of ["a"; "b"]) (names_of ["c"; "d"]) 5 Rep eq_refl (conj Hp1 Hp2) Hp3 ltac:(done)).
  - refine (Connect_correct s _ (names_of ["a"; "b"]) [] 5 Rep eq_refl _ _ ltac:(done)).
    + split; [repeat constructor|repeat constructor; done].
    + apply (bool_decide_unpack _); by vm_compute.
Defined.

(** ** The root *)

(** Making an open local directory the root.  When names [q] lead to the directory, the
    namespace afterwards has the bindings under [q], seen from there, and no other; a
    directory that was taken out of the tree before gives an empty namespace.  The invariant
    holds afterwards in both cases. *)
Theorem SetRoot_correct s m vn n : represents s m -> nodes s !! vn = Some n -> is_directory n = true ->
  wp (SetRoot (inl vn)) s (fun st s' => st = ZX_OK /\ root_ s' = vn /\
    (forall q, follow (nodes s) (root_ s) q = Some vn -> represents s' (sub_bindings m q)) /\
    ((forall q, follow (nodes s) (root_ s) q <> Some vn) -> represents s' ∅)).
Proof.
  intros Rep Hn Hd. eapply wp_mono; [by eapply SetRoot_local_ok|]. intros st s' (-> & Hr & H). split_and!; [done..| |].
  - intros q Hq. apply H. intros y. rewrite sub_bindings_lookup, (rep_binds _ _ Rep (q ++ y)). unfold bound_at. by rewrite follow_app, Hq.
  - intros Hno. apply H. intros y. rewrite lookup_empty. assert (I := rep_inv _ _ Rep). assert (F := inv_forest _ _ I).
    destruct (top_of _ _ _ F Hn) as (t & nt & [p Hp] & Hnt & Hpt & Hct).
    assert (Hch : children (nodes s) vn = []).
    { destruct (decide (t = root_ s)) as [->|Ht]; [by destruct (Hno p)|]. destruct (parent_ n) as [u|] eqn:Hpn.
      - destruct Hct; [done|]. by apply (inv_detached _ _ I t nt).
      - apply (inv_detached _ _ I vn n Hn Hpn). intros ->. by apply (Hno []). }
    unfold bound_at. destruct y as [|z y]; simpl; [|by rewrite Hch]. rewrite Hn. simpl. unfold binding_of, is_directory in *. by destruct (node_type_ n).
Qed.

Lemma SetRoot_correct_witness : exists s, one_bound = Some s /\
  wp (SetRoot (inl 1%nat)) s (fun st s' => st = ZX_OK /\ represents s' (sub_bindings {[names_of ["a"; "b"] := BRemote 5]} (names_of ["a"]))) /\
  sub_bindings {[names_of ["a"; "b"] := BRemote 5]} (names_of ["a"]) = {[names_of ["b"] := BRemote 5]}.
Proof.
  destruct one_bound_ok as (s & E & Rep & Hl). exists s. split; [exact E|]. split; [|by vm_compute].
  vm_compute in E. injection E as <-.
  eapply wp_mono; [exact (SetRoot_correct _ _ 1%nat _ Rep eq_refl eq_refl)|]. intros st s' (-> & _ & H & _). split; [done|].
  exact (H (names_of ["a"]) ltac:(by vm_compute)).
Defined.

(** ** Exporting *)

(** C13.  After any sequence of calls on a new namespace that bind, bind locally, unbind, ask
    whether a path is bound or open, and while no other thread binds, [Export] is defined,
    which includes that what the second walk writes fits into what the first counted.  It gives exactly the
    remote bindings that zxio_clone can clone, each once, with the path at which it is bound,
    and their text in the buffer, each with a NUL.  [SetRoot] is not one of the calls:
    [Export_after_SetRoot] and [Export_race] show what goes wrong
    after it and while another thread binds. *)
Theorem Export_correct {B : Type} `{!StringBuffer B} `{!StringBufferLaws (PATH_MAX - 1) B} (empty : B) cs clone :
  contents empty = [] -> Forall (fun c => forall path, path_arg c = Some path -> no_nul path) cs -> Z.of_nat (call_room * length cs) < 2 ^ 64 - 3 ->
  exists s0 rs s' L, fdio_namespace_new = Some s0 /\ do_calls empty cs s0 = Some (rs, s') /\
    L ≡ₚ remote_list (spec_calls cs ∅).2 /\ Export empty clone s' = Some (flat_of (exported clone L), s').
Proof.
  intros He Hn Hl. destruct served_new as (s0 & E0 & Se & Hlen).
  destruct (do_calls_ok empty He cs s0 ∅ Se) as (rs & s' & E & _ & [Rep Hc Hr]); [unfold room; rewrite Hlen; lia|done|].
  exists s0, rs, s'. destruct (Export_ok (PATH_MAX - 1) s' _ empty clone Rep He) as (L & HL & EL).
  - intros q b Hq. by apply (Hc q b).
  - intros q b Hq. destruct (Hc q b Hq) as [Hp _]. eapply Forall_impl; [exact Hp|]. by intros w [[? _] _].
  - done.
  - apply Nat.leb_le. reflexivity.
  - by exists L.
Qed.

Lemma Export_correct_witness : exists s0 rs s' L, fdio_namespace_new = Some s0 /\
  @do_calls (list Z) CuttingBuffer.buffer [] calls_example s0 = Some (rs, s') /\ L ≡ₚ remote_list (spec_calls calls_example ∅).2 /\
  @Export (list Z) CuttingBuffer.buffer [] (fun c => inr (100 + c)) s' = Some (flat_of (exported (fun c => inr (100 + c)) L), s') /\
  length L = 2%nat.
Proof.
  destruct (@Export_correct (list Z) CuttingBuffer.buffer CuttingBuffer.buffer_laws [] calls_example (fun c => inr (100 + c)) eq_refl calls_example_nul ltac:(by vm_compute))
    as (s0 & rs & s' & L & H0 & H1 & H2 & H3).
  exists s0, rs, s', L. split_and!; [done..|]. rewrite H2. by vm_compute.
Defined.

(** ** Reading a directory *)

(** A client that reads until an error. *)
Fixpoint readdir_all (fuel : nat) (vn : vref) (st : DirentIteratorState) : M (list (list Z) * Z) :=
  match fuel with
  | O => undefined
  | S fuel =>
      '(r, st) ← Readdir vn st;
      match r with
      | inl e => mret ([], e)
      | inr name => '(names, e) ← readdir_all fuel vn st; mret (name :: names, e)
      end
  end.

Lemma readdir_step fuel vn st s name st' : Readdir vn st s = Some ((inr name, st'), s) ->
  readdir_all (S fuel) vn st s = match readdir_all fuel vn st' s with Some ((names, e), s') => Some ((name :: names, e), s') | None => None end.
Proof. intros E. simpl. unfold mbind, ST_bind. rewrite E. by destruct (readdir_all fuel vn st' s) as [[[names e] s']|]. Qed.

(** The first entry with a greater id. *)
Lemma find_next (l1 l2 : list (Z * vref)) e last : (forall e', e' ∈ l1 -> e'.1 <= last) -> last < e.1 ->
  List.find (fun e => negb (e.1 <=? last)) (List.filter (fun e => negb (e.1 <? last)) (l1 ++ e :: l2)) = Some e.
Proof.
  intros H1 He. induction l1 as [|e' l1 IH]; simpl.
  - rewrite (proj2 (Z.ltb_ge _ _)) by lia. simpl. by rewrite (proj2 (Z.leb_gt _ _)).
  - assert (He' : e'.1 <= last) by (apply H1; left). assert (Hl : forall e'', e'' ∈ l1 -> e''.1 <= last) by (intros; apply H1; by right).
    destruct (negb (e'.1 <? last)); simpl; [rewrite (proj2 (Z.leb_le _ _) He')|]; by apply IH.
Qed.

Lemma find_end (l : list (Z * vref)) last : (forall e, e ∈ l -> e.1 <= last) ->
  List.find (fun e => negb (e.1 <=? last)) (List.filter (fun e => negb (e.1 <? last)) l) = None.
Proof.
  induction l as [|e l IH]; intros H; simpl; [done|]. assert (He : e.1 <= last) by (apply H; left).
  assert (Hl : forall e', e' ∈ l -> e'.1 <= last) by (intros; apply H; by right).
  destruct (negb (e.1 <? last)); simpl; [rewrite (proj2 (Z.leb_le _ _) He)|]; by apply IH.
Qed.

Lemma readdir_from s vn n nx bn bi : nodes s !! vn = Some n -> node_type_ n = Intermediate nx bn bi ->
  (forall e, e ∈ bi -> exists c, nodes s !! e.2 = Some c /\ (length (name_ c) <= NAME_MAX)%nat) ->
  forall l2 l1 last, bi = l1 ++ l2 -> (forall e, e ∈ l1 -> e.1 <= last) -> StronglySorted Z.lt (last :: l2.*1) ->
  readdir_all (S (length l2)) vn {| last_seen := last; encountered_dot := true |} s =
    Some (((fun e => node_name (nodes s) e.2) <$> l2, ZX_ERR_NOT_FOUND), s).
Proof.
  intros Hn Et Hnames l2. induction l2 as [|e l2 IH]; intros l1 last Ebi H1 Hs.
  - simpl. unfold Readdir, Vnode_Readdir. simpl. unfold mbind, ST_bind, node. rewrite Hn. simpl. rewrite Et. simpl.
    rewrite Ebi, app_nil_r, find_end by done. done.
  - apply StronglySorted_inv in Hs as [Hs Hall]. simpl in Hall. apply Forall_cons in Hall as [He _].
    destruct (Hnames e) as (c & Hc & Hlen); [rewrite Ebi; set_solver|].
    assert (Er : Readdir vn {| last_seen := last; encountered_dot := true |} s =
      Some ((inr (name_ c), {| last_seen := e.1; encountered_dot := true |}), s)).
    { unfold Readdir, Vnode_Readdir. simpl. unfold mbind, ST_bind, node. rewrite Hn. simpl. rewrite Et. simpl.
      rewrite Ebi, find_next by done. destruct e as [id d]. simpl in *. rewrite Hc. simpl.
      by rewrite (proj2 (Nat.ltb_ge _ _) Hlen). }
    cbn [length]. rewrite (readdir_step _ _ _ _ _ _ Er), (IH (l1 ++ [e]) e.1); [|by rewrite <- app_assoc| |done].
    + simpl. unfold node_name at 2. by rewrite Hc.
    + intros e' [H| ->%list_elem_of_singleton]%elem_of_app; [specialize (H1 e' H)|]; lia.
Qed.

Lemma ordered_lt (l : list (Z * vref)) : ordered Z.ltb l -> StronglySorted Z.lt l.*1.
Proof.
  unfold ordered. induction l as [|e l IH]; simpl; intros H; [constructor|]. apply StronglySorted_inv in H as [H1 H2].
  constructor; [by apply IH|]. eapply Forall_impl; [exact H2|]. intros x Hx. by apply Z.ltb_lt.
Qed.

(** C34.  Reading a directory from the start gives a dot, then the name of each entry once, in
    the order in which the entries were made, and then the end. *)
Theorem Readdir_correct s m vn n nx bn bi : represents s m -> nodes s !! vn = Some n -> node_type_ n = Intermediate nx bn bi ->
  (forall e, e ∈ bi -> (length (node_name (nodes s) e.2) <= NAME_MAX)%nat) ->
  readdir_all (length bi + 2) vn {| last_seen := 0; encountered_dot := false |} s =
    Some (([dot] :: ((fun e => node_name (nodes s) e.2) <$> bi), ZX_ERR_NOT_FOUND), s) /\
  ((fun e => node_name (nodes s) e.2) <$> bi) ≡ₚ bn.*1 /\ NoDup bn.*1 /\ StronglySorted Z.lt bi.*1.
Proof.
  intros Rep Hn Et Hnames. assert (F := inv_forest _ _ (rep_inv _ _ Rep)). assert (Hd := node_dir _ _ _ _ _ _ Hn Et).
  assert (W := dir_ok _ F _ _ _ _ Hd).
  assert (Hsort : StronglySorted Z.lt bi.*1) by (apply ordered_lt, W).
  split; [|split; [|split; [apply (ordered_NoDup name_ltb), W|done]]].
  - replace (length bi + 2)%nat with (S (S (length bi))) by lia.
    assert (E := readdir_from s vn n nx bn bi Hn Et). specialize (E ltac:(intros e He; destruct (by_id_entry _ F _ _ _ _ _ Hd He) as (_ & Hl & _);
      destruct (lookup_lt_is_Some_2 _ _ Hl) as [c Hc]; exists c; split; [done|]; specialize (Hnames e He); unfold node_name in Hnames; by rewrite Hc in Hnames) bi [] 0 eq_refl).
    rewrite (readdir_step _ _ _ _ [dot] {| last_seen := 0; encountered_dot := true |}) by reflexivity.
    rewrite E; [done|set_solver|]. constructor; [done|]. apply Forall_forall. intros i (e & -> & He)%list_elem_of_fmap.
    apply (proj1 (Forall_forall _ _) (wf_below _ _ _ _ W)) in He. lia.
  - rewrite <- (wf_same _ _ _ _ W) at 1. rewrite <- list_fmap_compose. match goal with |- ?l ≡ₚ ?k => enough (l = k) as -> by done end. apply list_fmap_ext.
    intros i [x [id c]] Hi. simpl. apply list_elem_of_lookup_2 in Hi. rewrite <- (dir_children _ _ _ _ _ Hd) in Hi.
    destruct (child_ok _ F _ _ _ _ Hi) as (_ & nc & Hnc & _ & <-). unfold node_name. by rewrite Hnc.
Qed.

(** A second binding in the directory [/a], with a lesser name. *)
Definition two_bound : option fs := s ← one_bound; '(_, s) ← Bind (chars "/a/a") (BuildLocal (1, 2)) s; Some s.

Lemma Readdir_correct_witness : exists s, two_bound = Some s /\
  readdir_all 4 1 {| last_seen := 0; encountered_dot := false |} s = Some ((names_of ["."; "b"; "a"], ZX_ERR_NOT_FOUND), s).
Proof.
  destruct one_bound_ok as (s0 & E0 & Rep & Hl). destruct (Bind_ok s0 _ (chars "/a/a") (BuildLocal (1, 2)) Rep) as (st & s & E & _ & Rep' & _).
  { unfold room. rewrite Hl. by vm_compute. }
  exists s. assert (Es : two_bound = Some s) by (unfold two_bound; rewrite E0; simpl; by rewrite E). split; [exact Es|].
  clear E E0. vm_compute in Es. injection Es as <-.
  refine (proj1 (Readdir_correct _ _ 1 _ _ _ _ Rep' eq_refl eq_refl _)).
  intros e He. apply Nat.leb_le. rewrite !elem_of_cons in He. destruct He as [->|[->|He]]; [reflexivity|reflexivity|by apply elem_of_nil in He].
Defined.

(** ** Edges *)

(** A bound root is not reported as bound: the walk gives back the empty path it got, not a
    dot. *)
Theorem IsBound_root s m b : represents s m -> m !! [] = Some b -> IsBound (chars "/") s = Some (false, s).
Proof.
  intros Rep Hb. destruct (IsBound_ok s m (chars "/") Rep) as (r & s' & E & -> & ->). rewrite E. f_equal. f_equal.
  unfold spec_is_bound, spec_rooted, spec_resolve. simpl. by rewrite Hb.
Qed.

(** A handle given to fdio_ns_bind or fdio_ns_open with a null or overlong path is not
    closed. *)
Theorem handle_not_closed {B : Type} `{!StringBuffer B} `{!StringBufferLaws (PATH_MAX - 1) B} (empty : B) path valid created c s :
  contents empty = [] -> (forall p, path = Some p -> no_nul p /\ (PATH_MAX - 1 < length p)%nat) ->
  let e := match path with None => ZX_ERR_INVALID_ARGS | Some _ => ZX_ERR_BAD_PATH end in
  fdio_ns_bind empty path valid created c s = Some ((e, false), s) /\ fdio_ns_open empty path s = Some ((inl e, false), s).
Proof.
  intros He Hp. destruct path as [p|]; [|done]. destruct (Hp p eq_refl) as [Hn Hl]. unfold fdio_ns_bind, fdio_ns_open.
  rewrite !with_clean_path_ok by done. unfold usable. by rewrite (proj2 (Nat.leb_gt _ _) Hl).
Qed.

(** [Export] reads the tree without the mutex: a bind between its two walks makes the second
    write past what the first counted. *)
Theorem Export_race : exists s room s', one_bound = Some s /\
  @export_count (list Z) CuttingBuffer.buffer [] (root_ s) s = Some (room, s) /\
  Bind (chars "/c") (BuildRemote ZX_OK 6) s = Some (ZX_OK, s') /\
  @export_fill (list Z) CuttingBuffer.buffer [] inr (root_ s) room s' = None.
Proof. do 3 eexists. split_and!; [vm_compute; reflexivity..|]. by vm_compute. Qed.

(** The root keeps the name it had: what [Export] lists after [SetRoot] is not what the
    namespace resolves. *)
Theorem Export_after_SetRoot : exists s s', one_bound = Some s /\ SetRoot (inl 1%nat) s = Some (ZX_OK, s') /\
  flat_path <$> (fst <$> @Export (list Z) CuttingBuffer.buffer [] inr s') = Some [chars "/a/b"] /\
  Connect (chars "/a/b") s' = Some (inl ZX_ERR_NOT_FOUND, s') /\ Connect (chars "/b") s' = Some (inr (5, [dot]), s').
Proof. do 2 eexists. split_and!; [vm_compute; reflexivity..|]. by vm_compute. Qed.

(** A sequence of operations on a new namespace. *)
Definition run_new {A} (f : M A) : option A := s ← fdio_namespace_new; '(a, _) ← f s; Some a.

(** A local node that was found before it was unbound can no longer be opened when it was
    unlinked itself, but can when a directory above it was. *)
Theorem unlinked_local_opens : run_new (
  bound_f ← Bind (chars "/f") (BuildLocal (1, 2));
  bound_g ← Bind (chars "/d/g") (BuildLocal (3, 4));
  root ← get_root;
  f ← WalkLocked root (chars "f");
  g ← WalkLocked root (chars "d/g");
  unbound_f ← Unbind (chars "/f");
  unbound_g ← Unbind (chars "/d/g");
  open_f ← (match f with inr (v, path) => open_node false v path | inl e => mret (inl e) end);
  open_g ← (match g with inr (v, path) => open_node false v path | inl e => mret (inl e) end);
  mret ([bound_f; bound_g; unbound_f; unbound_g], open_f, open_g)) =
    Some (([ZX_OK; ZX_OK; ZX_OK; ZX_OK], inl ZX_ERR_BAD_HANDLE, inr (OpenLocal (3, 4))) : list Z * (Z + opened) * (Z + opened)).
Proof. by vm_compute. Qed.
