(* ===== verification/Scheduler.v ===== *)
(** * The task scheduler of fit-promise

    Models src/fit-promise/scheduler.cc and scheduler.h: the queue of runnable tasks and the
    table of tickets.  A task is known by a number; an empty [pending_task] is [None].  The
    std::map of tickets is a list in the order of its keys.  An assertion that fails makes a
    routine undefined. *)

From S2P Require Import Prelude OrderedMap.

(** ** State *)

Record ticket_record := { ref_count : Z; was_resumed : bool; task_ : option Z }.

Record scheduler := {
  runnable_tasks_ : list Z;
  tickets_ : list (Z * ticket_record);
  suspended_task_count_ : Z;
  next_ticket_ : Z;
}.

Definition scheduler_new : scheduler :=
  {| runnable_tasks_ := []; tickets_ := []; suspended_task_count_ := 0; next_ticket_ := 1 |}.

Abbreviation SM := (ST scheduler).

Definition push (t : Z) : SM unit := modify (fun s =>
  {| runnable_tasks_ := runnable_tasks_ s ++ [t]; tickets_ := tickets_ s; suspended_task_count_ := suspended_task_count_ s; next_ticket_ := next_ticket_ s |}).
Definition set_tickets (f : list (Z * ticket_record) -> list (Z * ticket_record)) : SM unit := modify (fun s =>
  {| runnable_tasks_ := runnable_tasks_ s; tickets_ := f (tickets_ s); suspended_task_count_ := suspended_task_count_ s; next_ticket_ := next_ticket_ s |}).
Definition set_suspended (f : Z -> Z) : SM unit := modify (fun s =>
  {| runnable_tasks_ := runnable_tasks_ s; tickets_ := tickets_ s; suspended_task_count_ := f (suspended_task_count_ s); next_ticket_ := next_ticket_ s |}).

Definition assert_that (b : bool) : SM unit := if b then mret tt else undefined.
Definition empty_task (t : option Z) : bool := match t with None => true | Some _ => false end.

(** [tickets_.find] and the assertion that it found something. *)
Definition find_ticket (ticket : Z) : SM ticket_record :=
  l ← gets tickets_;
  match tree_find ticket l with Some r => mret r | None => undefined end.
(** Writing through the iterator, and [tickets_.erase] when the count is zero. *)
Definition put_or_erase (ticket : Z) (r : ticket_record) : SM unit :=
  set_tickets (fun l => if ref_count r =? 0 then tree_erase ticket l else tree_set ticket r l).

(** ** Operations *)

Definition schedule_task (task : option Z) : SM unit :=
  match task with Some t => push t | None => undefined end.

Definition obtain_ticket (initial_refs : Z) : SM Z :=
  ticket ← gets next_ticket_;
  modify (fun s => {| runnable_tasks_ := runnable_tasks_ s; tickets_ := tickets_ s; suspended_task_count_ := suspended_task_count_ s;
                      next_ticket_ := next_ticket_ s ⊕[64] 1 |}) ;;
  set_tickets (fun l => match tree_find ticket l with
    | Some _ => l
    | None => tree_insert Z.ltb ticket {| ref_count := initial_refs; was_resumed := false; task_ := None |} l
    end) ;;
  mret ticket.

(** The result is what is left in [*task]. *)
Definition finalize_ticket (ticket : Z) (task : option Z) : SM (option Z) :=
  r ← find_ticket ticket;
  assert_that (empty_task (task_ r)) ;;
  assert_that (0 <? ref_count r) ;;
  let r := {| ref_count := ref_count r - 1; was_resumed := was_resumed r; task_ := task_ r |} in
  match task with
  | None => put_or_erase ticket r ;; mret None
  | Some t =>
      if was_resumed r then push t ;; put_or_erase ticket r ;; mret None
      else if 0 <? ref_count r then
        set_suspended (fun n => n ⊕[64] 1) ;;
        put_or_erase ticket {| ref_count := ref_count r; was_resumed := was_resumed r; task_ := Some t |} ;;
        mret None
      else put_or_erase ticket r ;; mret (Some t)
  end.

Definition duplicate_ticket (ticket : Z) : SM unit :=
  r ← find_ticket ticket;
  assert_that (0 <? ref_count r) ;;
  let r := {| ref_count := ref_count r ⊕[32] 1; was_resumed := was_resumed r; task_ := task_ r |} in
  set_tickets (tree_set ticket r) ;;
  assert_that (negb (ref_count r =? 0)).

Definition release_ticket (ticket : Z) : SM (option Z) :=
  r ← find_ticket ticket;
  assert_that (0 <? ref_count r) ;;
  let r := {| ref_count := ref_count r - 1; was_resumed := was_resumed r; task_ := task_ r |} in
  if ref_count r =? 0 then
    (if negb (empty_task (task_ r)) then
      n ← gets suspended_task_count_; assert_that (0 <? n) ;; set_suspended (fun n => n - 1)
    else mret tt) ;;
    set_tickets (tree_erase ticket) ;;
    mret (task_ r)
  else set_tickets (tree_set ticket r) ;; mret None.

Definition resume_task_with_ticket (ticket : Z) : SM bool :=
  r ← find_ticket ticket;
  assert_that (0 <? ref_count r) ;;
  let r := {| ref_count := ref_count r - 1; was_resumed := was_resumed r; task_ := task_ r |} in
  if was_resumed r then put_or_erase ticket r ;; mret false
  else
    match task_ r with
    | Some t =>
        n ← gets suspended_task_count_;
        assert_that (0 <? n) ;;
        set_suspended (fun n => n - 1) ;;
        push t ;;
        put_or_erase ticket {| ref_count := ref_count r; was_resumed := true; task_ := None |} ;;
        mret true
    | None => put_or_erase ticket {| ref_count := ref_count r; was_resumed := true; task_ := None |} ;; mret false
    end.

(** The argument is empty, so the result is what was runnable. *)
Definition take_runnable_tasks : SM (list Z) :=
  tasks ← gets runnable_tasks_;
  modify (fun s => {| runnable_tasks_ := []; tickets_ := tickets_ s; suspended_task_count_ := suspended_task_count_ s; next_ticket_ := next_ticket_ s |}) ;;
  mret tasks.

(** The loop over the tickets; a ticket whose task was taken keeps its record. *)
Fixpoint take_suspended (l : list (Z * ticket_record)) : SM (list Z * list (Z * ticket_record)) :=
  match l with
  | [] => mret ([], [])
  | (ticket, r) :: l =>
      match task_ r with
      | Some t =>
          n ← gets suspended_task_count_;
          assert_that (0 <? n) ;;
          set_suspended (fun n => n - 1) ;;
          '(tasks, l) ← take_suspended l;
          mret (t :: tasks, (ticket, {| ref_count := ref_count r; was_resumed := was_resumed r; task_ := None |}) :: l)
      | None => '(tasks, l) ← take_suspended l; mret (tasks, (ticket, r) :: l)
      end
  end.

Definition take_all_tasks : SM (list Z) :=
  tasks ← take_runnable_tasks;
  n ← gets suspended_task_count_;
  if 0 <? n then
    l ← gets tickets_;
    '(suspended, l) ← take_suspended l;
    set_tickets (fun _ => l) ;;
    mret (tasks ++ suspended)
  else mret tasks.

Definition has_runnable_tasks (s : scheduler) : bool := match runnable_tasks_ s with [] => false | _ => true end.
Definition has_suspended_tasks (s : scheduler) : bool := 0 <? suspended_task_count_ s.
Definition has_outstanding_tickets (s : scheduler) : bool := match tickets_ s with [] => false | _ => true end.
