(* ===== verification/SchedulerCorrect.v ===== *)
(** * The task scheduler: correctness

    The contract of the scheduler: each ticket has as many references as were handed out and
    not given back, the count of suspended tasks is right, and no operation loses or doubles a
    task. *)

From stdpp Require Import sets sorting functions.
From S2P Require Import Prelude OrderedMap Scheduler.

Definition opt_task (t : option Z) : list Z := match t with Some t => [t] | None => [] end.

(** The tasks in the table. *)
Definition suspended_of (l : list (Z * ticket_record)) : list Z := mjoin ((fun e => opt_task (task_ e.2)) <$> l).

Lemma suspended_of_perm l l' : l ≡ₚ l' -> suspended_of l ≡ₚ suspended_of l'.
Proof. intros P. unfold suspended_of. by rewrite P. Qed.

(** The state of a scheduler whose tickets have the references [refs]. *)
Record sched_ok (refs : Z -> Z) (s : scheduler) : Prop := {
  so_order : ordered Z.ltb (tickets_ s);
  so_rec k r : (k, r) ∈ tickets_ s -> 0 < k < next_ticket_ s /\ ref_count r = refs k /\ 0 < refs k < 2 ^ 32 /\ (task_ r <> None -> was_resumed r = false);
  so_dom k : refs k <> 0 -> k ∈ (tickets_ s).*1;
  so_count : suspended_task_count_ s = Z.of_nat (length (suspended_of (tickets_ s)));
}.

(** No task enters the table. *)
Definition no_new_task (s s' : scheduler) : Prop := forall k r', (k, r') ∈ tickets_ s' -> task_ r' = None \/ exists r, (k, r) ∈ tickets_ s /\ task_ r = task_ r'.

Lemma sched_find refs s k : sched_ok refs s -> refs k <> 0 -> exists r, tree_find k (tickets_ s) = Some r /\ (k, r) ∈ tickets_ s /\
  tickets_ s ≡ₚ (k, r) :: tree_erase k (tickets_ s) /\ suspended_of (tickets_ s) ≡ₚ opt_task (task_ r) ++ suspended_of (tree_erase k (tickets_ s)).
Proof.
  intros S Hk. assert (Hnd := ordered_NoDup _ _ (so_order _ _ S)). apply (so_dom _ _ S) in Hk as ([k' r] & -> & Hin)%list_elem_of_fmap.
  exists r. assert (P := tree_erase_perm _ _ _ Hnd Hin). split; [by apply tree_find_iff|]. split; [done|]. split; [done|].
  rewrite (suspended_of_perm _ _ P) at 1. done.
Qed.

(** The table after the record of [k] became [r]. *)
Definition put (k : Z) (r : ticket_record) (l : list (Z * ticket_record)) : list (Z * ticket_record) :=
  if ref_count r =? 0 then tree_erase k l else tree_set k r l.

Lemma put_In refs s k r' j x : sched_ok refs s -> refs k <> 0 -> (j, x) ∈ put k r' (tickets_ s) ->
  (j = k /\ x = r' /\ ref_count r' <> 0) \/ (j <> k /\ (j, x) ∈ tickets_ s).
Proof.
  intros S Hk Hin. assert (Hnd := ordered_NoDup _ _ (so_order _ _ S)). unfold put in Hin. destruct (Z.eqb_spec (ref_count r') 0).
  - apply tree_erase_In in Hin as [??]; [|done]. by right.
  - rewrite tree_set_perm in Hin by by apply (so_dom _ _ S). apply elem_of_cons in Hin as [[= -> ->]|Hin]; [by left|].
    apply tree_erase_In in Hin as [??]; [|done]. by right.
Qed.

Lemma put_suspended refs s k r' : sched_ok refs s -> refs k <> 0 ->
  suspended_of (put k r' (tickets_ s)) ≡ₚ (if ref_count r' =? 0 then [] else opt_task (task_ r')) ++ suspended_of (tree_erase k (tickets_ s)).
Proof.
  intros S Hk. unfold put. destruct (ref_count r' =? 0); [done|]. rewrite (suspended_of_perm _ _ (tree_set_perm k r' _ (so_dom _ _ S k Hk))). done.
Qed.

Lemma put_empty refs s k r' : sched_ok refs s -> refs k <> 0 -> task_ r' = None ->
  suspended_of (put k r' (tickets_ s)) ≡ₚ suspended_of (tree_erase k (tickets_ s)).
Proof. intros S Hk Ht. rewrite (put_suspended refs) by done. rewrite Ht. by case_match. Qed.

(** The invariant after the record of [k] became [r']. *)
Lemma put_ok refs s s' k r' : sched_ok refs s -> refs k <> 0 -> tickets_ s' = put k r' (tickets_ s) -> next_ticket_ s' = next_ticket_ s ->
  0 <= ref_count r' < 2 ^ 32 -> (task_ r' <> None -> was_resumed r' = false) ->
  suspended_task_count_ s' = Z.of_nat (length (suspended_of (put k r' (tickets_ s)))) -> sched_ok (<[k := ref_count r']> refs) s'.
Proof.
  intros S Hk Et En Hr Hw Hc. split; rewrite ?Et, ?En.
  - unfold put. destruct (ref_count r' =? 0); [by apply tree_erase_ordered, S|]. unfold ordered. rewrite tree_set_keys. apply S.
  - intros j x Hin. destruct (put_In _ _ _ _ _ _ S Hk Hin) as [(-> & -> & Hne)|[Hne Hin']].
    + destruct (sched_find _ _ _ S Hk) as (r & _ & Hr0 & _). destruct (so_rec _ _ S _ _ Hr0) as (? & _).
      rewrite fn_lookup_insert. split_and!; [lia|lia|done|lia|lia|done].
    + rewrite fn_lookup_insert_ne by done. by apply S.
  - intros j Hj. unfold put. destruct (decide (j = k)) as [->|Hne].
    + rewrite fn_lookup_insert in Hj. apply Z.eqb_neq in Hj. rewrite Hj, tree_set_keys. by apply S.
    + rewrite fn_lookup_insert_ne in Hj by done. apply (so_dom _ _ S) in Hj.
      destruct (ref_count r' =? 0); [|by rewrite tree_set_keys]. apply list_elem_of_fmap in Hj as ([j' x] & -> & Hin).
      apply list_elem_of_fmap. exists (j', x). split; [done|]. apply tree_erase_In; [|done]. apply (ordered_NoDup Z.ltb), S.
  - done.
Qed.

Lemma put_no_new refs s s' k r r' : sched_ok refs s -> refs k <> 0 -> tickets_ s' = put k r' (tickets_ s) -> (k, r) ∈ tickets_ s ->
  task_ r' = None \/ task_ r' = task_ r -> no_new_task s s'.
Proof.
  intros S Hk Et Hr Ht j x Hin. rewrite Et in Hin. destruct (put_In _ _ _ _ _ _ S Hk Hin) as [(-> & -> & _)|[_ ?]]; [|eauto].
  destruct Ht as [?|Ht]; [by left|]. right. exists r. by rewrite Ht.
Qed.

(** ** Operations *)

Lemma wp_find_ticket refs s k Q : sched_ok refs s -> refs k <> 0 ->
  (forall r, (k, r) ∈ tickets_ s -> ref_count r = refs k -> 0 < refs k < 2 ^ 32 -> (task_ r <> None -> was_resumed r = false) ->
    suspended_of (tickets_ s) ≡ₚ opt_task (task_ r) ++ suspended_of (tree_erase k (tickets_ s)) -> Q r s) -> wp (find_ticket k) s Q.
Proof.
  intros S Hk HQ. destruct (sched_find _ _ _ S Hk) as (r & Ef & Hin & _ & P). destruct (so_rec _ _ S _ _ Hin) as (_ & ? & ? & ?).
  apply wp_bind, wp_gets. rewrite Ef. apply wp_ret. by apply HQ.
Qed.

Lemma wp_assert_that b s (Q : unit -> scheduler -> Prop) : b = true -> Q tt s -> wp (assert_that b) s Q.
Proof. intros -> H. by apply wp_ret. Qed.

(** The state in which an operation on the ticket [k] ends. *)
Definition sched_after (refs : Z -> Z) (s : scheduler) (k n : Z) (s' : scheduler) : Prop :=
  sched_ok (<[k := n]> refs) s' /\ next_ticket_ s' = next_ticket_ s.

Lemma obtain_ticket_ok refs s n : sched_ok refs s -> 0 < n < 2 ^ 32 -> 0 < next_ticket_ s < 2 ^ 64 - 1 ->
  wp (obtain_ticket n) s (fun k s' => k = next_ticket_ s /\ refs k = 0 /\ sched_ok (<[k := n]> refs) s' /\ next_ticket_ s' = next_ticket_ s + 1 /\
    runnable_tasks_ s' = runnable_tasks_ s /\ suspended_of (tickets_ s') ≡ₚ suspended_of (tickets_ s) /\ no_new_task s s').
Proof.
  intros S Hn Hk. set (k := next_ticket_ s). assert (Hfresh : k ∉ (tickets_ s).*1).
  { intros ([j r] & E & Hin)%list_elem_of_fmap. apply (so_rec _ _ S) in Hin as [? _]. unfold k in E. simpl in *. lia. }
  assert (Hr0 : refs k = 0) by (destruct (decide (refs k = 0)) as [|H]; [done|]; by apply (so_dom _ _ S) in H).
  assert (Hf : tree_find k (tickets_ s) = None) by by apply tree_find_None. apply wp_bind, wp_gets. apply wp_bind, wp_modify. apply wp_bind, wp_modify, wp_ret.
  cbn [tickets_ next_ticket_ suspended_task_count_ runnable_tasks_]. fold k. rewrite Hf.
  assert (P := tree_insert_perm Z.ltb k {| ref_count := n; was_resumed := false; task_ := None |} (tickets_ s)).
  assert (Ps := suspended_of_perm _ _ P). change (suspended_of (_ :: tickets_ s)) with (suspended_of (tickets_ s)) in Ps.
  assert (Hnext : k ⊕[64] 1 = k + 1) by (apply wrap_small; unfold fits, k in *; lia). rewrite Hnext.
  split; [done|]. split; [done|]. split; [|split_and!; [done|done|done|]].
  - split; cbn [tickets_ next_ticket_ suspended_task_count_].
    + apply tree_insert_ordered; [apply _|apply S|done].
    + intros j r Hin. apply (tree_insert_In Z.ltb) in Hin as [[= -> ->]|Hin].
      * rewrite fn_lookup_insert. simpl. split_and!; [unfold k; lia|lia|done|lia|lia|done].
      * destruct (so_rec _ _ S _ _ Hin) as (? & ? & ? & ?). rewrite fn_lookup_insert_ne by (unfold k; lia). split_and!; [lia|unfold k; lia|done|lia|lia|done].
    + intros j Hj. rewrite P. simpl. destruct (decide (j = k)) as [->|Hne]; [left|right]. rewrite fn_lookup_insert_ne in Hj by done. by apply S.
    + rewrite Ps. apply S.
  - intros j r Hin. cbn [tickets_] in Hin. apply (tree_insert_In Z.ltb) in Hin as [[= -> ->]|Hin]; [by left|right; eauto].
Qed.

Lemma duplicate_ticket_ok refs s k : sched_ok refs s -> 0 < refs k < 2 ^ 32 - 1 ->
  wp (duplicate_ticket k) s (fun _ s' => sched_after refs s k (refs k + 1) s' /\
    runnable_tasks_ s' = runnable_tasks_ s /\ suspended_of (tickets_ s') ≡ₚ suspended_of (tickets_ s) /\ no_new_task s s').
Proof.
  intros S Hk. apply wp_bind, (wp_find_ticket refs); [done|lia|]. intros r Hin Hr Hb Hw P.
  apply wp_bind, wp_assert_that; [lia|]. assert (Hrc : ref_count r ⊕[32] 1 = refs k + 1) by (rewrite Hr; apply wrap_small; unfold fits; lia).
  set (r' := {| ref_count := ref_count r ⊕[32] 1; was_resumed := was_resumed r; task_ := task_ r |}).
  apply wp_bind, wp_modify, wp_assert_that; [unfold r'; simpl; lia|].
  assert (Eput : tree_set k r' (tickets_ s) = put k r' (tickets_ s)) by (unfold put, r'; simpl; rewrite Hrc; by rewrite (proj2 (Z.eqb_neq _ _)) by lia).
  assert (Ps := put_suspended refs s k r' S ltac:(lia)). unfold r' in Ps at 2 3. simpl in Ps. rewrite Hrc, (proj2 (Z.eqb_neq _ _)), <- P in Ps by lia.
  cbn [runnable_tasks_ tickets_]. rewrite Eput. split; [split; [|done]|].
  - replace (refs k + 1) with (ref_count r') by done. eapply (put_ok refs s); try done; [lia|simpl; lia|]. cbn [suspended_task_count_]. rewrite Ps. apply S.
  - split; [done|]. split; [done|]. eapply (put_no_new refs s _ k r r'); try done; [lia|]. by right.
Qed.

(** Giving back a reference to [k], whose record becomes [r']. *)
Lemma put_back refs s s' k r r' : sched_ok refs s -> refs k <> 0 -> (k, r) ∈ tickets_ s -> tickets_ s' = put k r' (tickets_ s) ->
  next_ticket_ s' = next_ticket_ s -> ref_count r' = refs k - 1 -> (task_ r' <> None -> was_resumed r' = false) ->
  suspended_task_count_ s' = Z.of_nat (length (suspended_of (put k r' (tickets_ s)))) -> task_ r' = None \/ task_ r' = task_ r ->
  sched_after refs s k (refs k - 1) s' /\ no_new_task s s'.
Proof.
  intros S Hk Hin Et En Hr Hw Hc Ht. destruct (so_rec _ _ S _ _ Hin) as (_ & _ & Hb & _). split; [split; [|done]|].
  - rewrite <- Hr. eapply (put_ok refs s); try done. lia.
  - by eapply (put_no_new refs s s' k r r').
Qed.

Lemma erase_put k r' l : ref_count r' = 0 -> tree_erase k l = put k r' l.
Proof. intros H. unfold put. by rewrite H. Qed.
Lemma set_put k r' l : ref_count r' <> 0 -> tree_set k r' l = put k r' l.
Proof. intros H. unfold put. by rewrite (proj2 (Z.eqb_neq _ _) H). Qed.

Lemma release_ticket_ok refs s k : sched_ok refs s -> refs k <> 0 ->
  wp (release_ticket k) s (fun t s' => sched_after refs s k (refs k - 1) s' /\ no_new_task s s' /\ runnable_tasks_ s' = runnable_tasks_ s /\
    suspended_of (tickets_ s) ≡ₚ opt_task t ++ suspended_of (tickets_ s')).
Proof.
  intros S Hk. apply wp_bind, (wp_find_ticket refs); [done|lia|]. intros r Hin Hr Hb Hw P.
  apply wp_bind, wp_assert_that; [lia|]. set (r' := {| ref_count := ref_count r - 1; was_resumed := was_resumed r; task_ := task_ r |}).
  assert (Ps := put_suspended refs s k r' S ltac:(lia)). assert (Hc := so_count _ _ S).
  assert (Hw' : task_ r' <> None -> was_resumed r' = false) by exact Hw. assert (Ht : task_ r' = task_ r) by done.
  assert (Hr' : ref_count r' = refs k - 1) by (simpl; lia).
  cbv zeta. destruct (Z.eqb_spec (ref_count r') 0) as [E|E].
  - simpl in Ps. apply wp_bind. rewrite Ht. destruct (task_ r) as [t|] eqn:Et; cbn [empty_task negb].
    + simpl in P. assert (Hlen : (length (suspended_of (tickets_ s)) = 1 + length (suspended_of (tree_erase k (tickets_ s))))%nat) by by rewrite P.
      apply wp_bind, wp_gets. apply wp_bind, wp_assert_that; [lia|]. apply wp_modify. apply wp_bind, wp_modify, wp_ret.
      cbn [runnable_tasks_ tickets_]. rewrite (erase_put k r') by done. split_and!; [| |done|by rewrite Ps].
      all: eapply (put_back refs s _ k r r'); try done; [cbn [suspended_task_count_]; rewrite Ps; lia|right; congruence].
    + apply wp_ret. apply wp_bind, wp_modify, wp_ret. cbn [runnable_tasks_ tickets_]. rewrite (erase_put k r') by done.
      split_and!; [| |done|by rewrite Ps].
      all: eapply (put_back refs s _ k r r'); try done; [cbn [suspended_task_count_]; rewrite Ps, Hc; by rewrite P|by left].
  - apply wp_bind, wp_modify, wp_ret. cbn [runnable_tasks_ tickets_]. rewrite set_put by done.
    rewrite Ht, <- P in Ps. split_and!; [| |done|by rewrite Ps].
    all: eapply (put_back refs s _ k r r'); try done; [cbn [suspended_task_count_]; by rewrite Ps|by right].
Qed.

Lemma wp_put_or_erase k r' s (Q : unit -> scheduler -> Prop) :
  Q tt {| runnable_tasks_ := runnable_tasks_ s; tickets_ := put k r' (tickets_ s); suspended_task_count_ := suspended_task_count_ s; next_ticket_ := next_ticket_ s |} ->
  wp (put_or_erase k r') s Q.
Proof. intros H. by apply wp_modify. Qed.

Lemma resume_task_with_ticket_ok refs s k : sched_ok refs s -> refs k <> 0 ->
  wp (resume_task_with_ticket k) s (fun _ s' => sched_after refs s k (refs k - 1) s' /\ no_new_task s s' /\
    exists l, runnable_tasks_ s' = runnable_tasks_ s ++ l /\ suspended_of (tickets_ s) ≡ₚ l ++ suspended_of (tickets_ s')).
Proof.
  intros S Hk. apply wp_bind, (wp_find_ticket refs); [done|lia|]. intros r Hin Hr Hb Hw P. assert (Hc := so_count _ _ S).
  apply wp_bind, wp_assert_that; [lia|]. cbv zeta. cbn [was_resumed task_ ref_count].
  destruct (was_resumed r) eqn:Ew.
  - assert (Et : task_ r = None) by (destruct (task_ r); [by specialize (Hw ltac:(done))|done]). rewrite Et in *. simpl in P.
    set (r' := {| ref_count := ref_count r - 1; was_resumed := true; task_ := None |}).
    assert (Ps := put_empty refs s k r' S Hk eq_refl).
    apply wp_bind, wp_put_or_erase, wp_ret. split_and!; [| |exists []; cbn [runnable_tasks_ tickets_]; rewrite app_nil_r, Ps; by split].
    all: eapply (put_back refs s _ k r r'); try done; [simpl; lia|cbn [suspended_task_count_]; by rewrite Ps, Hc, P|by left].
  - set (r' := {| ref_count := ref_count r - 1; was_resumed := true; task_ := None |}).
    assert (Ps := put_empty refs s k r' S Hk eq_refl). destruct (task_ r) as [t|] eqn:Et; simpl in P.
    + apply wp_bind, wp_gets. assert (Hlen : (length (suspended_of (tickets_ s)) = 1 + length (suspended_of (tree_erase k (tickets_ s))))%nat) by by rewrite P.
      apply wp_bind, wp_assert_that; [lia|]. apply wp_bind, wp_modify. apply wp_bind, wp_modify. apply wp_bind, wp_put_or_erase, wp_ret.
      split_and!; [| |exists [t]; cbn [runnable_tasks_ tickets_]; by rewrite Ps].
      all: eapply (put_back refs s _ k r r'); try done; [simpl; lia|cbn [suspended_task_count_]; rewrite Ps; lia|by left].
    + apply wp_bind, wp_put_or_erase, wp_ret. split_and!; [| |exists []; cbn [runnable_tasks_ tickets_]; rewrite app_nil_r, Ps; by split].
      all: eapply (put_back refs s _ k r r'); try done; [simpl; lia|cbn [suspended_task_count_]; by rewrite Ps, Hc, P|by left].
Qed.

(** A ticket that was not finalized before. *)
Lemma finalize_ticket_ok refs s k task : sched_ok refs s -> refs k <> 0 -> (forall r, (k, r) ∈ tickets_ s -> task_ r = None) ->
  suspended_task_count_ s < 2 ^ 64 - 1 ->
  wp (finalize_ticket k task) s (fun left s' => sched_after refs s k (refs k - 1) s' /\ (task = None -> left = None) /\
    exists l, runnable_tasks_ s' = runnable_tasks_ s ++ l /\ opt_task task ++ suspended_of (tickets_ s) ≡ₚ l ++ suspended_of (tickets_ s') ++ opt_task left).
Proof.
  intros S Hk Hnone Hmax. apply wp_bind, (wp_find_ticket refs); [done|lia|]. intros r Hin Hr Hb Hw P. assert (Hc := so_count _ _ S).
  assert (Et := Hnone r Hin). rewrite Et in *. simpl in P. apply wp_bind, wp_assert_that; [by rewrite ?Et|]. apply wp_bind, wp_assert_that; [lia|]. cbv zeta. cbn [was_resumed task_ ref_count].
  rewrite ?Et. set (r' := {| ref_count := ref_count r - 1; was_resumed := was_resumed r; task_ := None |}).
  assert (Ps : suspended_of (put k r' (tickets_ s)) ≡ₚ suspended_of (tree_erase k (tickets_ s))) by by apply (put_empty refs).
  assert (Hsame : forall s', tickets_ s' = put k r' (tickets_ s) -> next_ticket_ s' = next_ticket_ s -> suspended_task_count_ s' = suspended_task_count_ s ->
    sched_after refs s k (refs k - 1) s').
  { intros s' E1 E2 E3. eapply (put_back refs s s' k r r'); try done; [simpl; lia|rewrite E3; by rewrite Ps, Hc, P|by left]. }
  destruct task as [t|].
  2: { apply wp_bind, wp_put_or_erase, wp_ret. split; [by apply Hsame|]. split; [done|]. exists []. cbn [runnable_tasks_ tickets_]. rewrite app_nil_r, Ps. simpl.
       by rewrite app_nil_r. }
  destruct (was_resumed r).
  - apply wp_bind, wp_modify. apply wp_bind, wp_put_or_erase, wp_ret. split; [by apply Hsame|]. split; [done|]. exists [t].
    cbn [runnable_tasks_ tickets_]. rewrite Ps, P. simpl. by rewrite app_nil_r.
  - destruct (Z.ltb_spec 0 (ref_count r - 1)) as [Hpos|Hpos].
    + apply wp_bind, wp_modify. apply wp_bind, wp_put_or_erase, wp_ret.
      set (r2 := {| ref_count := ref_count r - 1; was_resumed := false; task_ := Some t |}).
      assert (Ps2 : suspended_of (put k r2 (tickets_ s)) ≡ₚ t :: suspended_of (tree_erase k (tickets_ s))).
      { rewrite (put_suspended refs) by done. simpl. by rewrite (proj2 (Z.eqb_neq _ _)) by lia. }
      split; [|split; [done|]].
      * split; [|done]. replace (refs k - 1) with (ref_count r2) by (simpl; lia). eapply (put_ok refs s); try done; [simpl; lia|].
        cbn [suspended_task_count_]. rewrite Ps2, Hc, P. simpl. rewrite wrap_small; [lia|]. unfold fits. rewrite P in Hc. lia.
      * exists []. cbn [runnable_tasks_ tickets_]. rewrite app_nil_r, Ps2, P. simpl. by rewrite app_nil_r.
    + apply wp_bind, wp_put_or_erase, wp_ret. split; [by apply Hsame|]. split; [done|]. exists []. cbn [runnable_tasks_ tickets_]. rewrite app_nil_r, Ps, P. simpl.
      split; [done|]. apply Permutation_cons_append.
Qed.

(** ** Taking every task *)

Definition without_task (e : Z * ticket_record) : Z * ticket_record :=
  (e.1, {| ref_count := ref_count e.2; was_resumed := was_resumed e.2; task_ := None |}).

Definition with_suspended (n : Z) (s : scheduler) : scheduler :=
  {| runnable_tasks_ := runnable_tasks_ s; tickets_ := tickets_ s; suspended_task_count_ := n; next_ticket_ := next_ticket_ s |}.

Lemma take_suspended_ok l : forall s, Z.of_nat (length (suspended_of l)) <= suspended_task_count_ s ->
  take_suspended l s = Some ((suspended_of l, without_task <$> l), with_suspended (suspended_task_count_ s - Z.of_nat (length (suspended_of l))) s).
Proof.
  induction l as [|[k r] l IH]; intros s Hs.
  - destruct s. cbn. unfold with_suspended. cbn. by rewrite Z.sub_0_r.
  - assert (E : suspended_of ((k, r) :: l) = opt_task (task_ r) ++ suspended_of l) by done. rewrite E in *.
    cbn [take_suspended]. destruct (task_ r) as [t|] eqn:Et; cbn [opt_task] in *; rewrite length_app in *; cbn [length] in *.
    + unfold mbind, ST_bind, gets, assert_that. rewrite (proj2 (Z.ltb_lt _ _)) by lia. unfold set_suspended, modify. cbv beta iota.
      cbn [mret ST_ret]. unfold mret, ST_ret. rewrite IH by (cbn [suspended_task_count_]; lia). do 2 f_equal. unfold with_suspended. cbn. f_equal. lia.
    + unfold mbind, ST_bind. rewrite IH by lia. unfold mret, ST_ret. do 2 f_equal. cbn. unfold without_task at 2. cbn. rewrite <- Et. by destruct r.
Qed.

Lemma without_task_suspended l : suspended_of (without_task <$> l) = [].
Proof. induction l as [|e l IH]; [done|]. exact IH. Qed.

Lemma take_all_tasks_ok refs s : sched_ok refs s ->
  wp take_all_tasks s (fun tasks s' => sched_ok refs s' /\ next_ticket_ s' = next_ticket_ s /\ tasks = runnable_tasks_ s ++ suspended_of (tickets_ s) /\
    runnable_tasks_ s' = [] /\ suspended_of (tickets_ s') = [] /\ no_new_task s s').
Proof.
  intros S. assert (Hc := so_count _ _ S). unfold take_all_tasks, take_runnable_tasks. do 2 apply wp_bind. apply wp_gets. apply wp_bind, wp_modify, wp_ret.
  apply wp_bind, wp_gets. cbn [suspended_task_count_]. destruct (Z.ltb_spec 0 (suspended_task_count_ s)) as [Hpos|Hpos].
  - apply wp_bind, wp_gets. cbn [tickets_]. apply wp_bind. eexists _, _. split; [apply take_suspended_ok; cbn [suspended_task_count_]; lia|].
    apply wp_bind, wp_modify, wp_ret. cbn [with_suspended runnable_tasks_ tickets_ next_ticket_ suspended_task_count_].
    split; [|split_and!; [done|done|done|apply without_task_suspended|]].
    + split; cbn [tickets_ next_ticket_ suspended_task_count_].
      * unfold ordered. rewrite <- list_fmap_compose. apply S.
      * intros k r ([j x] & E & Hin)%list_elem_of_fmap. injection E as -> ->. cbn in *. destruct (so_rec _ _ S _ _ Hin) as (? & ? & ? & ?). split_and!; [lia|lia|done|lia|lia|done].
      * intros k Hk. rewrite <- list_fmap_compose. by apply S.
      * rewrite without_task_suspended, Hc. cbn. lia.
    + intros k r ([j x] & E & Hin)%list_elem_of_fmap. injection E as -> ->. by left.
  - apply wp_ret. assert (E : suspended_of (tickets_ s) = []) by (destruct (suspended_of (tickets_ s)); [done|cbn in Hc; lia]).
    rewrite E, app_nil_r. split; [|split_and!; [done|done|done|done|]]; [split; apply S|]. intros k r Hin. right. by exists r.
Qed.

(** A task that is suspended becomes runnable. *)
Lemma resume_suspended_ok refs s k r t : sched_ok refs s -> (k, r) ∈ tickets_ s -> task_ r = Some t ->
  wp (resume_task_with_ticket k) s (fun resumed s' => resumed = true /\ runnable_tasks_ s' = runnable_tasks_ s ++ [t]).
Proof.
  intros S Hin Ht. destruct (so_rec _ _ S _ _ Hin) as (_ & Hr & Hb & Hw). assert (Hnd := ordered_NoDup _ _ (so_order _ _ S)).
  assert (Hc := so_count _ _ S). assert (P := suspended_of_perm _ _ (tree_erase_perm _ _ _ Hnd Hin)).
  change (suspended_of ((k, r) :: tree_erase k (tickets_ s))) with (opt_task (task_ r) ++ suspended_of (tree_erase k (tickets_ s))) in P.
  rewrite P, Ht in Hc. simpl in Hc. do 2 apply wp_bind. apply wp_gets.
  assert (Ef : tree_find k (tickets_ s) = Some r) by by apply tree_find_iff. rewrite Ef. apply wp_ret. apply wp_bind, wp_assert_that; [lia|]. cbv zeta. cbn [was_resumed task_ ref_count].
  rewrite Hw, Ht by congruence. apply wp_bind, wp_gets. apply wp_bind, wp_assert_that; [lia|]. apply wp_bind, wp_modify. apply wp_bind, wp_modify.
  apply wp_bind, wp_put_or_erase, wp_ret. done.
Qed.
