(* ===== verification/Executor.v ===== *)
(** * The single-threaded executor of fit-promise

    Models src/fit-promise/single_threaded_executor.cc: the dispatcher, whose routines each
    hold its mutex, and the threads around it.  One thread at a time is in [run]; any thread
    may schedule a task, or copy, resume or drop a suspended task it holds; the executor is
    destroyed when nobody runs it.  The condition variable may wake its waiter at any time, as
    the standard allows. *)

From stdpp Require Import gmultiset.
From S2P Require Import Prelude OrderedMap Scheduler.

(** ** The dispatcher *)

Record dispatcher_impl := {
  current_task_ticket_ : Z;
  was_shutdown_ : bool;
  need_wake_ : bool;
  scheduler_ : scheduler;
}.

Definition dispatcher_new : dispatcher_impl :=
  {| current_task_ticket_ := 0; was_shutdown_ := false; need_wake_ := false; scheduler_ := scheduler_new |}.

Abbreviation DM := (ST dispatcher_impl).

Definition set_current (t : Z) : DM unit := modify (fun d =>
  {| current_task_ticket_ := t; was_shutdown_ := was_shutdown_ d; need_wake_ := need_wake_ d; scheduler_ := scheduler_ d |}).
Definition set_need_wake (b : bool) : DM unit := modify (fun d =>
  {| current_task_ticket_ := current_task_ticket_ d; was_shutdown_ := was_shutdown_ d; need_wake_ := b; scheduler_ := scheduler_ d |}).
Definition set_shutdown : DM unit := modify (fun d =>
  {| current_task_ticket_ := current_task_ticket_ d; was_shutdown_ := true; need_wake_ := need_wake_ d; scheduler_ := scheduler_ d |}).
Definition on_scheduler {A} (f : SM A) : DM A := fun d =>
  match f (scheduler_ d) with
  | Some (a, s) => Some (a, {| current_task_ticket_ := current_task_ticket_ d; was_shutdown_ := was_shutdown_ d; need_wake_ := need_wake_ d; scheduler_ := s |})
  | None => None
  end.
Definition check_that (b : bool) : DM unit := if b then mret tt else undefined.

(** The destructor only checks. *)
Definition dispatcher_destroy : DM unit :=
  d ← gets (fun d => d);
  check_that (was_shutdown_ d) ;;
  check_that (negb (has_runnable_tasks (scheduler_ d))) ;;
  check_that (negb (has_suspended_tasks (scheduler_ d))) ;;
  check_that (negb (has_outstanding_tickets (scheduler_ d))).

(** The tasks that are dropped, and whether the dispatcher deletes itself. *)
Definition shutdown : DM (list Z * bool) :=
  d ← gets (fun d => d);
  check_that (negb (was_shutdown_ d)) ;;
  set_shutdown ;;
  tasks ← on_scheduler take_all_tasks;
  outstanding ← gets (fun d => has_outstanding_tickets (scheduler_ d));
  if (outstanding : bool) then mret (tasks, false) else dispatcher_destroy ;; mret (tasks, true).

(** Whether the condition variable is to be notified, outside the lock. *)
Definition dispatcher_schedule_task (task : option Z) : DM bool :=
  d ← gets (fun d => d);
  check_that (negb (was_shutdown_ d)) ;;
  on_scheduler (schedule_task task) ;;
  if negb (need_wake_ d) then mret false else set_need_wake false ;; mret true.

Definition suspend_current_task : DM Z :=
  d ← gets (fun d => d);
  check_that (negb (was_shutdown_ d)) ;;
  (if current_task_ticket_ d =? 0 then ticket ← on_scheduler (obtain_ticket 2); set_current ticket
   else on_scheduler (duplicate_ticket (current_task_ticket_ d))) ;;
  gets current_task_ticket_.

(** A turn of [wait_for_runnable_tasks] up to the wait: the tasks it returns with, or a
    wait. *)
Definition wait_turn : DM (option (list Z)) :=
  d ← gets (fun d => d);
  check_that (negb (was_shutdown_ d)) ;;
  tasks ← on_scheduler take_runnable_tasks;
  if negb (bool_decide (tasks = [])) then mret (Some tasks)
  else if negb (has_suspended_tasks (scheduler_ d)) then mret (Some [])
  else set_need_wake true ;; mret None.

(** [run_task] after the continuation: [task] is what it left, the result what is dropped. *)
Definition run_task_end (task : option Z) : DM (option Z) :=
  d ← gets (fun d => d);
  if current_task_ticket_ d =? 0 then mret task
  else
    check_that (negb (was_shutdown_ d)) ;;
    left ← on_scheduler (finalize_ticket (current_task_ticket_ d) task);
    set_current 0 ;;
    mret left.

Inductive after_resolve := Nothing | Notify | DeleteSelf.

(** The abandoned task, and what is done outside the lock. *)
Definition resolve_ticket (ticket : Z) (resume_task : bool) : DM (option Z * after_resolve) :=
  abandoned ← (if resume_task then _ ← on_scheduler (resume_task_with_ticket ticket); mret None
               else on_scheduler (release_ticket ticket));
  d ← gets (fun d => d);
  if was_shutdown_ d then
    check_that (negb (need_wake_ d)) ;;
    if has_outstanding_tickets (scheduler_ d) then mret (abandoned, Nothing)
    else dispatcher_destroy ;; mret (abandoned, DeleteSelf)
  else if need_wake_ d && (has_runnable_tasks (scheduler_ d) || negb (has_suspended_tasks (scheduler_ d))) then
    set_need_wake false ;; mret (abandoned, Notify)
  else mret (abandoned, Nothing).

(** ** The threads *)

(** The thread in [run]: at the start of a turn of the wait, in the wait, woken, with tasks
    to run, or in the continuation of the first of them. *)
Inductive runner :=
| Idle
| Check
| Blocked
| Woken
| Busy (tasks : list Z)
| InTask (task : Z) (tasks : list Z).

#[export] Instance runner_eq_dec : EqDecision runner.
Proof. solve_decision. Defined.

(** [disp] is [None] once the dispatcher was deleted.  [held] are the tickets of the suspended
    tasks that exist, [notifiers] counts the threads that left the lock and are about to
    notify.  [accepted] and [gone] are the tasks that were scheduled and those that finished
    or were dropped. *)
Record sys := {
  disp : option dispatcher_impl;
  alive : bool;
  held : gmultiset Z;
  run_state : runner;
  notifiers : nat;
  accepted : list Z;
  gone : list Z;
}.

Definition sys_new : sys :=
  {| disp := Some dispatcher_new; alive := true; held := ∅; run_state := Idle; notifiers := 0; accepted := []; gone := [] |}.

Inductive event :=
| Schedule (task : Z)        (* any thread, while the executor exists *)
| Run                        (* a thread calls run *)
| Turn                       (* a turn of the wait *)
| Spurious                   (* the wait ends by itself *)
| DoNotify                   (* a thread notifies *)
| Take                       (* the continuation of the next task starts *)
| Suspend                    (* the continuation asks for a suspended task *)
| Finish (finished : bool)   (* the continuation returns *)
| Duplicate (ticket : Z)     (* a suspended task is copied *)
| Resolve (ticket : Z) (resume : bool)  (* it is resumed or dropped *)
| Destroy.                   (* the executor is destroyed *)

#[export] Instance event_eq_dec : EqDecision event.
Proof. solve_decision. Defined.

(** The event cannot happen, goes wrong, or leads to a state. *)
Inductive outcome := Disabled | Crash | Next (s : sys).

(** A routine of the dispatcher; a deleted one cannot be used. *)
Definition call_on {A} (s : sys) (f : DM A) (k : A -> dispatcher_impl -> outcome) : outcome :=
  match disp s with
  | None => Crash
  | Some d => match f d with Some (a, d) => k a d | None => Crash end
  end.

Definition with_disp (s : sys) (d : option dispatcher_impl) : sys :=
  {| disp := d; alive := alive s; held := held s; run_state := run_state s; notifiers := notifiers s; accepted := accepted s; gone := gone s |}.
Definition with_run (s : sys) (r : runner) : sys :=
  {| disp := disp s; alive := alive s; held := held s; run_state := r; notifiers := notifiers s; accepted := accepted s; gone := gone s |}.
Definition with_held (s : sys) (h : gmultiset Z) : sys :=
  {| disp := disp s; alive := alive s; held := h; run_state := run_state s; notifiers := notifiers s; accepted := accepted s; gone := gone s |}.
Definition with_notifiers (s : sys) (n : nat) : sys :=
  {| disp := disp s; alive := alive s; held := held s; run_state := run_state s; notifiers := n; accepted := accepted s; gone := gone s |}.
Definition with_gone (s : sys) (l : list Z) : sys :=
  {| disp := disp s; alive := alive s; held := held s; run_state := run_state s; notifiers := notifiers s; accepted := accepted s; gone := l ++ gone s |}.
Definition opt_list (t : option Z) : list Z := match t with Some t => [t] | None => [] end.

(** Without tasks [run] returns. *)
Definition after_turn (r : option (list Z)) : runner :=
  match r with None => Blocked | Some [] => Idle | Some tasks => Busy tasks end.

Definition exec_event (e : event) (s : sys) : outcome :=
  match e with
  | Schedule t =>
      if alive s then call_on s (dispatcher_schedule_task (Some t)) (fun notify d =>
        Next {| disp := Some d; alive := alive s; held := held s; run_state := run_state s;
                notifiers := if (notify : bool) then S (notifiers s) else notifiers s; accepted := t :: accepted s; gone := gone s |})
      else Disabled
  | Run => match run_state s with Idle => if alive s then Next (with_run s Check) else Disabled | _ => Disabled end
  | Turn =>
      match run_state s with
      | Check => call_on s wait_turn (fun r d => Next (with_run (with_disp s (Some d)) (after_turn r)))
      | Woken => call_on s (set_need_wake false ;; wait_turn) (fun r d => Next (with_run (with_disp s (Some d)) (after_turn r)))
      | _ => Disabled
      end
  | Spurious => match run_state s with Blocked => Next (with_run s Woken) | _ => Disabled end
  | DoNotify =>
      match notifiers s with
      | O => Disabled
      | S n => match disp s with
               | None => Crash
               | Some _ => Next (with_notifiers (match run_state s with Blocked => with_run s Woken | _ => s end) n)
               end
      end
  | Take =>
      match run_state s with
      | Busy (t :: tasks) => call_on s (d ← gets (fun d => d); check_that (current_task_ticket_ d =? 0)) (fun _ _ => Next (with_run s (InTask t tasks)))
      | _ => Disabled
      end
  | Suspend =>
      match run_state s with
      | InTask _ _ => call_on s suspend_current_task (fun ticket d => Next (with_held (with_disp s (Some d)) (held s ⊎ {[+ ticket +]})))
      | _ => Disabled
      end
  | Finish finished =>
      match run_state s with
      | InTask t tasks => call_on s (run_task_end (if finished then None else Some t)) (fun left d =>
          Next (with_gone (with_run (with_disp s (Some d)) match tasks with [] => Check | _ => Busy tasks end)
                 (if finished then [t] else opt_list left)))
      | _ => Disabled
      end
  | Duplicate ticket =>
      if decide (ticket ∈ held s) then call_on s (on_scheduler (duplicate_ticket ticket)) (fun _ d =>
        Next (with_held (with_disp s (Some d)) (held s ⊎ {[+ ticket +]})))
      else Disabled
  | Resolve ticket resume =>
      if decide (ticket ∈ held s) then call_on s (resolve_ticket ticket resume) (fun r d =>
        let s := with_gone (with_held s (held s ∖ {[+ ticket +]})) (opt_list r.1) in
        Next match r.2 with
          | Nothing => with_disp s (Some d)
          | Notify => with_notifiers (with_disp s (Some d)) (S (notifiers s))
          | DeleteSelf => with_disp s None
          end)
      else Disabled
  | Destroy =>
      match run_state s with
      | Idle =>
          if alive s then call_on s shutdown (fun r d =>
            Next (with_gone {| disp := if r.2 then None else Some d; alive := false; held := held s; run_state := Idle;
                               notifiers := notifiers s; accepted := accepted s; gone := gone s |} r.1))
          else Disabled
      | _ => Disabled
      end
  end.

(** The events one after the other. *)
Fixpoint exec_all (es : list event) (s : sys) : outcome :=
  match es with
  | [] => Next s
  | e :: es => match exec_event e s with Next s => exec_all es s | o => o end
  end.
