(* ===== verification/ExecutorCorrect.v ===== *)
(** * The single-threaded executor: invariant

    What holds in every state the threads can reach, and that every event keeps it. *)

From stdpp Require Import sets sorting functions gmultiset.
From S2P Require Import Prelude OrderedMap Scheduler SchedulerCorrect Executor.

(** The references to a ticket: the suspended tasks that hold it, and the task that runs. *)
Definition refs_of (h : gmultiset Z) (current : Z) (k : Z) : Z :=
  Z.of_nat (multiplicity k h) + (if decide (k = current /\ current <> 0) then 1 else 0).

Definition in_hand (r : runner) : list Z := match r with Busy q => q | InTask t q => t :: q | _ => [] end.

Record dinv (n : nat) (s : sys) (d : dispatcher_impl) : Prop := {
  di_sched : sched_ok (refs_of (held s) (current_task_ticket_ d)) (scheduler_ d);
  di_current : current_task_ticket_ d <> 0 -> exists t q, run_state s = InTask t q;
  di_current_task r : (current_task_ticket_ d, r) ∈ tickets_ (scheduler_ d) -> task_ r = None;
  di_next : 0 < next_ticket_ (scheduler_ d) <= 1 + Z.of_nat n;
  di_held k : (multiplicity k (held s) <= n)%nat;
  di_accepted : (length (accepted s) <= n)%nat;
  di_shutdown : was_shutdown_ d = negb (alive s);
  di_dead : alive s = false -> run_state s = Idle /\ runnable_tasks_ (scheduler_ d) = [] /\ suspended_of (tickets_ (scheduler_ d)) = [] /\ tickets_ (scheduler_ d) <> [];
  di_wake : need_wake_ d = true -> (run_state s = Blocked \/ run_state s = Woken) /\ runnable_tasks_ (scheduler_ d) = [] /\ suspended_of (tickets_ (scheduler_ d)) <> [];
  di_blocked : run_state s = Blocked -> need_wake_ d = false -> (0 < notifiers s)%nat;
  di_tasks : accepted s ≡ₚ runnable_tasks_ (scheduler_ d) ++ suspended_of (tickets_ (scheduler_ d)) ++ in_hand (run_state s) ++ gone s;
}.

(** The invariant after [n] events. *)
Definition inv (n : nat) (s : sys) : Prop :=
  match disp s with
  | Some d => dinv n s d
  | None => alive s = false /\ held s = ∅ /\ run_state s = Idle /\ accepted s ≡ₚ gone s
  end.

(** Another queue does not matter. *)
Lemma sched_ok_queue refs sc l : sched_ok refs sc ->
  sched_ok refs {| runnable_tasks_ := l; tickets_ := tickets_ sc; suspended_task_count_ := suspended_task_count_ sc; next_ticket_ := next_ticket_ sc |}.
Proof. intros S. split; apply S. Qed.

Lemma sched_ok_ext refs refs' s : (forall k, refs' k = refs k) -> sched_ok refs s -> sched_ok refs' s.
Proof.
  intros E [H1 H2 H3 H4]. split; [done| | |done].
  - intros k r Hin. rewrite E. by apply H2.
  - intros k. rewrite E. apply H3.
Qed.

Lemma sys_new_inv : inv 0 sys_new.
Proof.
  split; cbn; try done; try lia; try set_solver. split; cbn; try done; try set_solver. all: try constructor.
  intros k Hk. unfold refs_of in Hk. rewrite multiplicity_empty, decide_False in Hk by (intros [_ ?]; done). done.
Qed.

(** ** Facts *)

Section Facts.
Context (n : nat) (s : sys) (d : dispatcher_impl) (D : dinv n s d).

Lemma held_refs k : k ∈ held s -> refs_of (held s) (current_task_ticket_ d) k <> 0.
Proof. intros Hk. unfold refs_of. rewrite elem_of_multiplicity in Hk. case_decide; lia. Qed.

Lemma held_current k : k ∈ held s -> 0 < k.
Proof.
  intros Hk%held_refs. apply (so_dom _ _ (di_sched _ _ _ D)) in Hk as ([j r] & -> & Hin)%list_elem_of_fmap. by apply (so_rec _ _ (di_sched _ _ _ D)) in Hin as [[? _] _].
Qed.

Lemma current_pos : current_task_ticket_ d <> 0 -> refs_of (held s) (current_task_ticket_ d) (current_task_ticket_ d) <> 0 /\ 0 < current_task_ticket_ d.
Proof.
  intros Hc. assert (Hr : refs_of (held s) (current_task_ticket_ d) (current_task_ticket_ d) <> 0) by (unfold refs_of; rewrite decide_True by done; lia).
  split; [done|]. apply (so_dom _ _ (di_sched _ _ _ D)) in Hr as ([j r] & E & Hin)%list_elem_of_fmap. apply (so_rec _ _ (di_sched _ _ _ D)) in Hin as [[? _] _]. by rewrite E.
Qed.

Lemma refs_bound k : refs_of (held s) (current_task_ticket_ d) k <= Z.of_nat n + 1.
Proof. unfold refs_of. assert (H := di_held _ _ _ D k). case_decide; lia. Qed.

Lemma count_bound : suspended_task_count_ (scheduler_ d) <= Z.of_nat n.
Proof.
  rewrite (so_count _ _ (di_sched _ _ _ D)). assert (H := di_accepted _ _ _ D). rewrite (di_tasks _ _ _ D), !length_app in H. lia.
Qed.

End Facts.

Lemma suspended_count refs sc : sched_ok refs sc -> has_suspended_tasks sc = true <-> suspended_of (tickets_ sc) <> [].
Proof.
  intros S. unfold has_suspended_tasks. rewrite (so_count _ _ S), Z.ltb_lt. destruct (suspended_of _); cbn; split; intros; try done; lia.
Qed.

(** Nobody holds a ticket of a table that is empty. *)
Lemma no_tickets h c sc : sched_ok (refs_of h c) sc -> tickets_ sc = [] -> h = ∅.
Proof.
  intros S E. apply gmultiset_eq. intros k. rewrite multiplicity_empty. destruct (decide (k ∈ h)) as [Hk|Hk]; [|by apply not_elem_of_multiplicity].
  assert (Hr : refs_of h c k <> 0) by (unfold refs_of; rewrite elem_of_multiplicity in Hk; case_decide; lia).
  apply (so_dom _ _ S) in Hr. rewrite E in Hr. inversion Hr.
Qed.

(** ** The references after an event *)

Lemma refs_add h c k j : <[k := refs_of h c k + 1]> (refs_of h c) j = refs_of (h ⊎ {[+ k +]}) c j.
Proof.
  destruct (decide (j = k)) as [->|Hne]; [rewrite fn_lookup_insert|rewrite fn_lookup_insert_ne by done]; unfold refs_of; rewrite multiplicity_disj_union.
  - rewrite multiplicity_singleton_eq. lia.
  - rewrite multiplicity_singleton_ne by done. lia.
Qed.

Lemma refs_sub h c k j : k ∈ h -> <[k := refs_of h c k - 1]> (refs_of h c) j = refs_of (h ∖ {[+ k +]}) c j.
Proof.
  intros Hk. rewrite elem_of_multiplicity in Hk. destruct (decide (j = k)) as [->|Hne]; [rewrite fn_lookup_insert|rewrite fn_lookup_insert_ne by done];
    unfold refs_of; rewrite multiplicity_difference.
  - rewrite multiplicity_singleton_eq. lia.
  - rewrite multiplicity_singleton_ne by done. lia.
Qed.

Lemma refs_obtain h k j : k <> 0 -> refs_of h 0 k = 0 -> <[k := 2]> (refs_of h 0) j = refs_of (h ⊎ {[+ k +]}) k j.
Proof.
  intros Hk0 Hk. unfold refs_of in Hk. rewrite decide_False in Hk by lia.
  destruct (decide (j = k)) as [->|Hne]; [rewrite fn_lookup_insert|rewrite fn_lookup_insert_ne by done]; unfold refs_of; rewrite multiplicity_disj_union.
  - rewrite multiplicity_singleton_eq, decide_True by done. lia.
  - rewrite multiplicity_singleton_ne, !decide_False by lia. lia.
Qed.

Lemma refs_finalize h c j : c <> 0 -> <[c := refs_of h c c - 1]> (refs_of h c) j = refs_of h 0 j.
Proof.
  intros Hc. destruct (decide (j = c)) as [->|Hne]; [rewrite fn_lookup_insert|rewrite fn_lookup_insert_ne by done]; unfold refs_of.
  - rewrite decide_True, decide_False by lia. lia.
  - rewrite !decide_False by lia. lia.
Qed.

Lemma held_add n (h : gmultiset Z) k j : (multiplicity j h <= n)%nat -> (multiplicity j (h ⊎ {[+ k +]}) <= S n)%nat.
Proof. intros H. rewrite multiplicity_disj_union. destruct (decide (j = k)) as [->|Hne]; [rewrite multiplicity_singleton_eq|rewrite multiplicity_singleton_ne by done]; lia. Qed.

(** ** Events *)

Definition upd (d : dispatcher_impl) (s : scheduler) : dispatcher_impl :=
  {| current_task_ticket_ := current_task_ticket_ d; was_shutdown_ := was_shutdown_ d; need_wake_ := need_wake_ d; scheduler_ := s |}.

Lemma wp_on_scheduler {A} (f : SM A) d (Q : A -> dispatcher_impl -> Prop) :
  wp f (scheduler_ d) (fun a s => Q a (upd d s)) -> wp (on_scheduler f) d Q.
Proof. intros (a & s & E & H). exists a, (upd d s). unfold runs, on_scheduler. by rewrite E. Qed.

Lemma wp_check b d (Q : unit -> dispatcher_impl -> Prop) : b = true -> Q tt d -> wp (check_that b) d Q.
Proof. intros -> H. by apply wp_ret. Qed.

(** The assertions of the destructor. *)
Lemma destroy_ok refs d : was_shutdown_ d = true -> sched_ok refs (scheduler_ d) -> runnable_tasks_ (scheduler_ d) = [] -> tickets_ (scheduler_ d) = [] ->
  wp dispatcher_destroy d (fun _ _ => True).
Proof.
  intros Hs S Hq Ht. assert (Hc := so_count _ _ S). rewrite Ht in Hc. apply wp_bind, wp_gets. apply wp_bind, wp_check; [done|].
  apply wp_bind, wp_check; [unfold has_runnable_tasks; by rewrite Hq|].
  apply wp_bind, wp_check; [unfold has_suspended_tasks; by rewrite Hc|]. apply wp_check; [|done]. unfold has_outstanding_tickets. by rewrite Ht.
Qed.

(** What an event leads to. *)
Definition step_ok (n : nat) (o : outcome) : Prop :=
  match o with Disabled => True | Crash => False | Next s => inv (S n) s end.

Lemma call_on_ok {A} n s d (f : DM A) k : disp s = Some d -> wp f d (fun a d' => step_ok n (k a d')) -> step_ok n (call_on s f k).
Proof. intros E (a & d' & Ef & H). unfold call_on. rewrite E. unfold runs in Ef. by rewrite Ef. Qed.

Lemma inv_Some n s d : disp s = Some d -> dinv n s d -> inv n s.
Proof. intros E H. unfold inv. by rewrite E. Qed.

#[local] Arguments suspended_of : simpl never.
#[local] Arguments refs_of : simpl never.

(** The parts of the invariant that an event plainly keeps. *)
Ltac dsplit :=
  split; cbn; [try (by eauto using sched_ok_queue)..];
  try lia; try congruence; try (match goal with H : forall k, (multiplicity k _ <= _)%nat |- forall k, _ => intros ?k0; specialize (H k0); lia end); try (intros; congruence).

Lemma no_new_current sc sc' c : no_new_task sc sc' -> (forall r, (c, r) ∈ tickets_ sc -> task_ r = None) ->
  forall r, (c, r) ∈ tickets_ sc' -> task_ r = None.
Proof. intros H H0 r [?|(r0 & Hin%H0 & <-)]%H; done. Qed.

(** The thread in [run] cannot be at two places. *)
Ltac absurd_run :=
  intros; repeat match goal with H : exists _, _ |- _ => destruct H | H : _ /\ _ |- _ => destruct H | H : _ \/ _ |- _ => destruct H end; congruence.

Section Events.
Context (n : nat) (s : sys) (d : dispatcher_impl) (Ed : disp s = Some d) (D : dinv n s d) (Hn : Z.of_nat n < 2 ^ 32 - 3).

Lemma running_alive : run_state s <> Idle -> was_shutdown_ d = false.
Proof. intros Hr. rewrite (di_shutdown _ _ _ D). destruct (alive s) eqn:E; [done|]. by destruct (di_dead _ _ _ D E) as [? _]. Qed.

Lemma schedule_step t : step_ok n (exec_event (Schedule t) s).
Proof.
  simpl. destruct (alive s) eqn:Ea; [|done]. apply (call_on_ok _ _ d); [done|]. destruct D as [S Hc Hct Hnx Hh Hac Hs Hdd Hw Hb Ht]. rewrite Ea in Hs.
  apply wp_bind, wp_gets. apply wp_bind, wp_check; [by rewrite Hs|]. apply wp_bind, wp_on_scheduler, wp_modify.
  assert (Ht' : t :: accepted s ≡ₚ (runnable_tasks_ (scheduler_ d) ++ [t]) ++ suspended_of (tickets_ (scheduler_ d)) ++ in_hand (run_state s) ++ gone s).
  { rewrite Ht, <- !app_assoc. apply Permutation_middle. }
  destruct (need_wake_ d) eqn:Ew; cbn [negb].
  - apply wp_bind, wp_modify, wp_ret. dsplit.
  - apply wp_ret. dsplit.
Qed.

Lemma run_step : step_ok n (exec_event Run s).
Proof.
  simpl. destruct (run_state s) eqn:Er; try done. destruct (alive s) eqn:Ea; [|done]. apply (inv_Some _ _ d); [done|].
  destruct D as [S Hc Hct Hnx Hh Hac Hs Hdd Hw Hb Ht]. rewrite Er in *. dsplit.
  - intros H%Hc. absurd_run.
  - intros H%Hw. absurd_run.
Qed.

Lemma spurious_step : step_ok n (exec_event Spurious s).
Proof.
  simpl. destruct (run_state s) eqn:Er; try done. apply (inv_Some _ _ d); [done|].
  destruct D as [S Hc Hct Hnx Hh Hac Hs Hdd Hw Hb Ht]. rewrite Er in *. dsplit.
  - intros H%Hc. absurd_run.
  - intros H%Hdd. absurd_run.
  - intros (_ & ?)%Hw. eauto.
Qed.

Lemma notify_step : step_ok n (exec_event DoNotify s).
Proof.
  simpl. destruct (notifiers s) eqn:En; [done|]. rewrite Ed. apply (inv_Some _ _ d); [by destruct (run_state s)|].
  destruct (decide (run_state s = Blocked)) as [Er|Er].
  - rewrite Er. destruct D as [S Hc Hct Hnx Hh Hac Hs Hdd Hw Hb Ht]. rewrite Er in *. dsplit.
    + intros H%Hc. absurd_run.
    + intros H%Hdd. absurd_run.
    + intros (_ & ?)%Hw. eauto.
  - replace (match run_state s with Blocked => with_run s Woken | _ => s end) with s by by destruct (run_state s).
    destruct D as [S Hc Hct Hnx Hh Hac Hs Hdd Hw Hb Ht]. dsplit.
Qed.

Lemma take_step : step_ok n (exec_event Take s).
Proof.
  simpl. destruct (run_state s) as [| | | |[|t q]|] eqn:Er; try done. apply (call_on_ok _ _ d); [done|].
  destruct D as [S Hc Hct Hnx Hh Hac Hs Hdd Hw Hb Ht]. rewrite Er in *.
  apply wp_bind, wp_gets, wp_check.
  { destruct (Z.eqb_spec (current_task_ticket_ d) 0) as [|H]; [done|]. apply Hc in H as (? & ? & ?). done. }
  apply (inv_Some _ _ d); [done|]. dsplit.
  - intros H%Hdd. absurd_run.
  - intros H%Hw. absurd_run.
Qed.

Lemma suspend_step : step_ok n (exec_event Suspend s).
Proof.
  simpl. destruct (run_state s) as [| | | |?|t q] eqn:Er; try done. apply (call_on_ok _ _ d); [done|].
  assert (Hrun := running_alive ltac:(congruence)). apply wp_bind, wp_gets. apply wp_bind, wp_check; [by rewrite Hrun|].
  assert (Hb := refs_bound _ _ _ D (current_task_ticket_ d)). assert (Hcp := current_pos _ _ _ D).
  assert (Hw : need_wake_ d <> true) by (intros H%(di_wake _ _ _ D); absurd_run).
  assert (Hdd : alive s <> false) by (intros H%(di_dead _ _ _ D); absurd_run).
  destruct (Z.eqb_spec (current_task_ticket_ d) 0) as [E0|E0].
  - do 2 apply wp_bind. apply wp_on_scheduler. eapply wp_mono; [apply obtain_ticket_ok; [apply (di_sched _ _ _ D)|lia|assert (H := di_next _ _ _ D); lia]|].
    intros k sc (-> & Hr0 & S' & Hnext & Hrq & Psus & Hnew). apply wp_modify. apply wp_gets.
    destruct D as [S Hc Hct Hnx Hh Hac Hs _ _ _ Ht]. rewrite E0 in *. eapply inv_Some; [done|]. dsplit.
    + eapply sched_ok_ext; [|done]. intros j. symmetry. apply refs_obtain; [lia|done].
    + intros r [?|(r0 & Hin & _)]%Hnew; [done|]. apply (so_rec _ _ S) in Hin as [? _]. lia.
    + intros k. by apply held_add.
    + by rewrite Hrq, Psus.
  - apply wp_bind, wp_on_scheduler. destruct (Hcp E0) as [Hr Hc0].
    assert (0 <= refs_of (held s) (current_task_ticket_ d) (current_task_ticket_ d)) by (unfold refs_of; case_decide; lia).
    eapply wp_mono; [apply duplicate_ticket_ok; [apply (di_sched _ _ _ D)|lia]|].
    intros [] sc ([S' Hnext] & Hrq & Psus & Hnew). apply wp_gets.
    destruct D as [S Hc Hct Hnx Hh Hac Hs _ _ _ Ht]. eapply inv_Some; [done|]. dsplit.
    + eapply sched_ok_ext; [|done]. intros j. symmetry. apply refs_add.
    + by apply (no_new_current (scheduler_ d)).
    + intros k. by apply held_add.
    + by rewrite Hrq, Psus.
Qed.

Lemma duplicate_step k : step_ok n (exec_event (Duplicate k) s).
Proof.
  simpl. case_decide as Hk; [|done]. apply (call_on_ok _ _ d); [done|]. apply wp_on_scheduler.
  assert (Hr := held_refs s d k Hk). assert (Hb := refs_bound _ _ _ D k).
  assert (0 <= refs_of (held s) (current_task_ticket_ d) k) by (unfold refs_of; case_decide; lia).
  eapply wp_mono; [apply duplicate_ticket_ok; [apply (di_sched _ _ _ D)|lia]|].
  intros [] sc ([S' Hnext] & Hrq & Psus & Hnew). destruct D as [S Hc Hct Hnx Hh Hac Hs Hdd Hw Hbl Ht].
  assert (Hsk : k ∈ (tickets_ sc).*1) by (apply S'; rewrite fn_lookup_insert; lia).
  eapply inv_Some; [done|]. dsplit.
  - eapply sched_ok_ext; [|done]. intros j. symmetry. apply refs_add.
  - by apply (no_new_current (scheduler_ d)).
  - intros j. by apply held_add.
  - intros (? & E1 & E2 & _)%Hdd. rewrite E2 in Psus. apply Permutation_nil_r in Psus. split_and!; [done|congruence|done|]. intros E. rewrite E in Hsk. inversion Hsk.
  - intros (? & E1 & E2)%Hw. split_and!; [done|congruence|]. intros E. rewrite E in Psus. by apply Permutation_nil_l in Psus.
  - by rewrite Hrq, Psus.
Qed.

Lemma finish_step finished : step_ok n (exec_event (Finish finished) s).
Proof.
  simpl. destruct (run_state s) as [| | | |?|t q] eqn:Er; try done. apply (call_on_ok _ _ d); [done|].
  assert (Hrun := running_alive ltac:(congruence)). assert (Hcount := count_bound _ _ _ D). assert (Hcp := current_pos _ _ _ D).
  assert (Hw : need_wake_ d <> true) by (intros H%(di_wake _ _ _ D); absurd_run).
  assert (Hdd : alive s <> false) by (intros H%(di_dead _ _ _ D); absurd_run).
  assert (Hq : in_hand match q with [] => Check | _ => Busy q end = q) by by destruct q.
  apply wp_bind, wp_gets. destruct (Z.eqb_spec (current_task_ticket_ d) 0) as [E0|E0].
  - apply wp_ret. destruct D as [S Hc Hct Hnx Hh Hac Hs _ _ _ Ht]. eapply inv_Some; [done|]. rewrite Er in *. dsplit.
    + by destruct q.
    + rewrite Hq, Ht. cbn. do 2 f_equiv. destruct finished; cbn; rewrite Permutation_middle; done.
  - apply wp_bind, wp_check; [by rewrite Hrun|]. apply wp_bind, wp_on_scheduler. destruct (Hcp E0) as [Hr Hc0].
    eapply wp_mono; [apply finalize_ticket_ok; [apply (di_sched _ _ _ D)|done|apply (di_current_task _ _ _ D)|lia]|].
    intros left sc ([S' Hnext] & Hleft & l & Hrq & Psus). apply wp_bind, wp_modify, wp_ret.
    destruct D as [S Hc Hct Hnx Hh Hac Hs _ _ _ Ht]. eapply inv_Some; [done|]. rewrite Er in *. dsplit.
    + eapply sched_ok_ext; [|done]. intros j. symmetry. by apply refs_finalize.
    + intros r Hin. apply (so_rec _ _ S') in Hin as [? _]. lia.
    + by destruct q.
    + rewrite Hq, Hrq, Ht, <- !app_assoc. f_equiv. destruct finished; cbn in Psus |- *.
      * rewrite Hleft, app_nil_r in Psus by done. rewrite Psus. solve_Permutation.
      * change (opt_list left) with (opt_task left). transitivity ((t :: suspended_of (tickets_ (scheduler_ d))) ++ q ++ gone s); [|rewrite Psus]; solve_Permutation.
Qed.

(** The table after a reference was given back. *)
Lemma resolve_inv k sc (t : option Z) l : k ∈ held s ->
  sched_after (refs_of (held s) (current_task_ticket_ d)) (scheduler_ d) k (refs_of (held s) (current_task_ticket_ d) k - 1) sc ->
  no_new_task (scheduler_ d) sc -> runnable_tasks_ sc = runnable_tasks_ (scheduler_ d) ++ l ->
  suspended_of (tickets_ (scheduler_ d)) ≡ₚ l ++ opt_task t ++ suspended_of (tickets_ sc) ->
  wp (d ← gets (fun d => d);
      if was_shutdown_ d then
        check_that (negb (need_wake_ d)) ;;
        if has_outstanding_tickets (scheduler_ d) then mret (t, Nothing) else dispatcher_destroy ;; mret (t, DeleteSelf)
      else if need_wake_ d && (has_runnable_tasks (scheduler_ d) || negb (has_suspended_tasks (scheduler_ d))) then
        set_need_wake false ;; mret (t, Notify)
      else mret (t, Nothing)) (upd d sc) (fun r d' =>
    inv (S n) (let s := with_gone (with_held s (held s ∖ {[+ k +]})) (opt_list r.1) in
               match r.2 with
               | Nothing => with_disp s (Some d')
               | Notify => with_notifiers (with_disp s (Some d')) (S (notifiers s))
               | DeleteSelf => with_disp s None
               end)).
Proof.
  intros Hk [S0 Hnext] Hnew Hrq Psus. apply wp_bind, wp_gets. cbn [upd was_shutdown_ need_wake_ scheduler_].
  assert (S' : sched_ok (refs_of (held s ∖ {[+ k +]}) (current_task_ticket_ d)) sc).
  { eapply sched_ok_ext; [|done]. intros j. symmetry. by apply refs_sub. }
  assert (Hheld : forall j, (multiplicity j (held s ∖ {[+ k +]}) <= Datatypes.S n)%nat).
  { intros j. rewrite multiplicity_difference. assert (H := di_held _ _ _ D j). lia. }
  assert (Ht : accepted s ≡ₚ runnable_tasks_ sc ++ suspended_of (tickets_ sc) ++ in_hand (run_state s) ++ opt_list t ++ gone s).
  { rewrite (di_tasks _ _ _ D), Hrq, Psus. change (opt_list t) with (opt_task t). solve_Permutation. }
  assert (Hct := no_new_current _ _ _ Hnew (di_current_task _ _ _ D)). assert (Hsus := suspended_count _ _ S'). assert (Hempty := no_tickets _ _ _ S').
  assert (Hw := di_wake _ _ _ D). destruct D as [S Hc _ Hnx _ Hac Hs Hdd _ Hb _]. rewrite Hs. destruct (alive s) eqn:Ea; cbn [negb].
  - destruct (need_wake_ d && _) eqn:Econd.
    + apply wp_bind, wp_modify, wp_ret. eapply inv_Some; [done|]. dsplit.
    + apply wp_ret. eapply inv_Some; [done|]. dsplit. intros Hneed. destruct (Hw Hneed) as (Hr & Hq & _). rewrite Hneed in Econd.
      apply orb_false_iff in Econd as [Er Es%negb_false_iff]. split_and!; [done| |by apply Hsus]. unfold has_runnable_tasks in Er. by destruct (runnable_tasks_ sc).
  - destruct (Hdd eq_refl) as (Hr & Hq & Hse & _). rewrite Hse in Psus. apply Permutation_nil_l, eq_sym, app_nil in Psus as [-> [Htn Hsn]%app_nil].
    rewrite app_nil_r, Hq in Hrq. rewrite Hrq, Hsn, Hr in Ht. apply wp_bind, wp_check.
    { destruct (need_wake_ d); [|done]. destruct (Hw eq_refl) as [H _]. absurd_run. }
    unfold has_outstanding_tickets. destruct (tickets_ sc) as [|e tl] eqn:Etk.
    + apply wp_bind. eapply wp_mono; [by eapply destroy_ok|]. intros [] d' _. apply wp_ret. unfold inv; cbn. by rewrite Hempty.
    + apply wp_ret. eapply inv_Some; [done|]. dsplit; rewrite ?Etk; [done| |].
      * intros _. by split_and!.
      * intros [H _]%Hw. absurd_run.
Qed.

Lemma resolve_step k resume : step_ok n (exec_event (Resolve k resume) s).
Proof.
  simpl. case_decide as Hk; [|done]. apply (call_on_ok _ _ d); [done|]. assert (Hr := held_refs s d k Hk). destruct resume.
  - do 2 apply wp_bind. apply wp_on_scheduler. eapply wp_mono; [apply resume_task_with_ticket_ok; [apply (di_sched _ _ _ D)|done]|].
    intros b sc (Hs & Hnew & l & Hrq & Psus). apply wp_ret. by apply (resolve_inv k sc None l).
  - apply wp_bind. apply wp_on_scheduler. eapply wp_mono; [apply release_ticket_ok; [apply (di_sched _ _ _ D)|done]|].
    intros t sc (Hs & Hnew & Hrq & Psus). apply (resolve_inv k sc t []); try done. by rewrite app_nil_r.
Qed.

Lemma destroy_step : step_ok n (exec_event Destroy s).
Proof.
  simpl. destruct (run_state s) eqn:Er; try done. destruct (alive s) eqn:Ea; [|done]. apply (call_on_ok _ _ d); [done|].
  assert (Hs := di_shutdown _ _ _ D). rewrite Ea in Hs. apply wp_bind, wp_gets. apply wp_bind, wp_check; [by rewrite Hs|]. apply wp_bind, wp_modify.
  apply wp_bind, wp_on_scheduler. eapply wp_mono; [apply take_all_tasks_ok, (di_sched _ _ _ D)|].
  intros tasks sc (S' & Hnext & -> & Hrq & Hsn & Hnew). apply wp_bind, wp_gets. cbn [upd scheduler_].
  assert (Hct := no_new_current _ _ _ Hnew (di_current_task _ _ _ D)). assert (Hempty := no_tickets _ _ _ S').
  destruct D as [S Hc _ Hnx Hh Hac _ _ Hw Hb Ht]. rewrite Er in *. unfold has_outstanding_tickets. destruct (tickets_ sc) as [|e tl] eqn:Etk.
  - apply wp_bind. eapply wp_mono; [by eapply destroy_ok|]. intros [] d' _. apply wp_ret. unfold inv; cbn. rewrite Hempty by done. split_and!; try done.
    rewrite Ht. by rewrite <- app_assoc.
  - apply wp_ret. eapply inv_Some; [done|]. dsplit; rewrite ?Etk, ?Hrq, ?Hsn; try done.
    + cbn in Hnext. lia.
    + intros [H _]%Hw. absurd_run.
    + rewrite Ht. by rewrite <- app_assoc.
Qed.

End Events.

(** A turn of the wait, when nobody is to wake the thread. *)
Lemma wait_turn_ok n s d : dinv n s d -> (run_state s = Check \/ run_state s = Woken) -> need_wake_ d = false ->
  wp wait_turn d (fun r d' => dinv (S n) (with_run (with_disp s (Some d')) (after_turn r)) d').
Proof.
  intros D Hr Hw. assert (Hrun := running_alive n s d D ltac:(absurd_run)). apply wp_bind, wp_gets. apply wp_bind, wp_check; [by rewrite Hrun|].
  apply wp_bind, wp_on_scheduler. apply wp_bind, wp_gets. apply wp_bind, wp_modify, wp_ret. assert (Hsus := suspended_count _ _ (di_sched _ _ _ D)).
  assert (Hc0 : current_task_ticket_ d = 0) by (destruct (decide (current_task_ticket_ d = 0)) as [|H]; [done|]; apply (di_current _ _ _ D) in H; absurd_run).
  destruct D as [S Hc Hct Hnx Hh Hac Hs Hdd _ _ Ht]. assert (Hal : alive s <> false) by (intros H%Hdd; absurd_run).
  assert (Hin : in_hand (run_state s) = []) by by destruct Hr as [-> | ->]. rewrite Hin in Ht.
  case_bool_decide as Eq; cbn [negb].
  - rewrite Eq in Ht. destruct (has_suspended_tasks (scheduler_ d)) eqn:Es; cbn [negb].
    + apply wp_bind, wp_modify, wp_ret. dsplit. intros _. split_and!; [by left|done|by apply Hsus].
    + apply wp_ret. dsplit.
  - apply wp_ret. destruct (runnable_tasks_ (scheduler_ d)) as [|t q] eqn:Eq'; [done|]. dsplit. rewrite Ht. solve_Permutation.
Qed.

Lemma turn_step n s d : disp s = Some d -> dinv n s d -> step_ok n (exec_event Turn s).
Proof.
  intros Ed D. simpl. destruct (run_state s) eqn:Er; try done; apply (call_on_ok _ _ d); try done.
  - eapply wp_mono; [apply (wait_turn_ok n s d); [done|by left|]|]. 
    + destruct (need_wake_ d) eqn:Ew; [|done]. assert (H := di_wake _ _ _ D Ew). absurd_run.
    + intros r d' H. by apply (inv_Some _ _ d').
  - apply wp_bind, wp_modify. eapply wp_mono; [apply (wait_turn_ok n s); [|by right|done]|].
    + destruct D as [S Hc Hct Hnx Hh Hac Hs Hdd Hw Hb Ht]. split; try done. cbn. congruence.
    + intros r d' H. by apply (inv_Some _ _ d').
Qed.

(** Every event of a dispatcher that exists. *)
Lemma step_inv e n s d : disp s = Some d -> dinv n s d -> Z.of_nat n < 2 ^ 32 - 3 -> step_ok n (exec_event e s).
Proof.
  intros Ed D Hn. destruct e.
  - by apply (schedule_step n s d).
  - by apply (run_step n s d).
  - by apply (turn_step n s d).
  - by apply (spurious_step n s d).
  - by apply (notify_step n s d).
  - by apply (take_step n s d).
  - by apply (suspend_step n s d).
  - by apply (finish_step n s d).
  - by apply (duplicate_step n s d).
  - by apply (resolve_step n s d).
  - by apply (destroy_step n s d).
Qed.

(** Once the dispatcher was deleted only a notification that comes late can happen. *)
Lemma deleted_step e s : disp s = None -> alive s = false -> held s = ∅ -> run_state s = Idle ->
  exec_event e s = Disabled \/ (e = DoNotify /\ exec_event e s = Crash /\ (0 < notifiers s)%nat).
Proof.
  intros Ed Ea Eh Er. destruct e; cbn; rewrite ?Ea, ?Eh, ?Er; auto.
  destruct (notifiers s); [by left|]. rewrite Ed. right. split_and!; [done|done|lia].
Qed.
