(* ===== verification/ExecutorTheorems.v ===== *)
(** * The single-threaded executor: properties

    What holds after any sequence of events of the threads, with concrete runs. *)

From stdpp Require Import sets sorting functions gmultiset.
From S2P Require Import Prelude OrderedMap Scheduler SchedulerCorrect Executor ExecutorCorrect.

(** ** Sequences of events *)

Definition few (es : list event) : Prop := Z.of_nat (length es) < 2 ^ 32 - 3.

Lemma inv_deleted n s : inv n s -> disp s = None -> alive s = false /\ held s = ∅ /\ run_state s = Idle /\ accepted s ≡ₚ gone s.
Proof. unfold inv. intros H E. by rewrite E in H. Qed.

Lemma step_next n s e s' : inv n s -> Z.of_nat n < 2 ^ 32 - 3 -> exec_event e s = Next s' -> inv (S n) s'.
Proof.
  intros I Hn E. destruct (disp s) as [d|] eqn:Ed.
  - unfold inv in I. rewrite Ed in I. assert (H := step_inv e n s d Ed I Hn). by rewrite E in H.
  - destruct (inv_deleted _ _ I Ed) as (Ha & Hh & Hr & _). destruct (deleted_step e s Ed Ha Hh Hr) as [H|(_ & H & _)]; congruence.
Qed.

Lemma exec_all_inv es : forall n s s', inv n s -> Z.of_nat (n + length es) < 2 ^ 32 - 2 -> exec_all es s = Next s' -> inv (n + length es) s'.
Proof.
  induction es as [|e es IH]; intros n s s' I Hn E; cbn in *.
  - injection E as <-. by rewrite Nat.add_0_r.
  - destruct (exec_event e s) as [| |s1] eqn:E1; try done. rewrite Nat.add_succ_r. apply (IH (S n) s1); [|lia|done]. apply (step_next n s e); [done|lia|done].
Qed.

Lemma reached es s : few es -> exec_all es sys_new = Next s -> inv (length es) s.
Proof. unfold few. intros Hn E. apply (exec_all_inv es 0 sys_new); [apply sys_new_inv|lia|done]. Qed.

(** Only a notification of a deleted dispatcher goes wrong. *)
Lemma exec_all_crash es : forall n s, inv n s -> Z.of_nat (n + length es) < 2 ^ 32 - 2 -> exec_all es s = Crash ->
  exists es1 es2 s', es = es1 ++ DoNotify :: es2 /\ exec_all es1 s = Next s' /\ disp s' = None /\ (0 < notifiers s')%nat.
Proof.
  induction es as [|e es IH]; intros n s I Hn E; cbn in *; [done|].
  destruct (exec_event e s) as [| |s1] eqn:E1; try done.
  - destruct (disp s) as [d|] eqn:Ed.
    + unfold inv in I. rewrite Ed in I. assert (H := step_inv e n s d Ed I ltac:(lia)). by rewrite E1 in H.
    + destruct (inv_deleted _ _ I Ed) as (Ha & Hh & Hr & _). destruct (deleted_step e s Ed Ha Hh Hr) as [H|(-> & _ & H)]; [congruence|].
      exists [], es, s. by split_and!.
  - destruct (IH (S n) s1) as (es1 & es2 & s' & -> & H & ?); [by apply (step_next n s e); [| lia |]|lia|done|].
    exists (e :: es1), es2, s'. cbn. by rewrite E1.
Qed.

(** ** Without spurious wakeups *)

(** A thread is about to notify only while the thread in [run] waits for it. *)
Definition quiet (s : sys) : Prop :=
  match disp s with
  | Some d => (need_wake_ d = true -> run_state s = Blocked /\ notifiers s = 0%nat) /\
              (notifiers s = 0%nat \/ (notifiers s = 1%nat /\ run_state s = Blocked))
  | None => notifiers s = 0%nat
  end.

(** What a routine ends with, if it ends. *)
Definition post {A} (f : DM A) (d : dispatcher_impl) (Q : A -> dispatcher_impl -> Prop) : Prop := forall a d', f d = Some (a, d') -> Q a d'.

Lemma post_ret {A} (a : A) d Q : Q a d -> post (mret a) d Q.
Proof. intros H ? ? [= <- <-]. done. Qed.
Lemma post_bind {A B} (f : DM A) (k : A -> DM B) d Q : post f d (fun a d' => post (k a) d' Q) -> post (f ≫= k) d Q.
Proof. intros H b d2 E. unfold mbind, ST_bind in E. destruct (f d) as [[a d1]|] eqn:Ef; [|done]. by apply (H a d1). Qed.
Lemma post_gets {A} (f : dispatcher_impl -> A) d (Q : A -> dispatcher_impl -> Prop) : Q (f d) d -> post (gets f) d Q.
Proof. intros H ? ? [= <- <-]. done. Qed.
Lemma post_modify (f : dispatcher_impl -> dispatcher_impl) d (Q : unit -> dispatcher_impl -> Prop) : Q tt (f d) -> post (modify f) d Q.
Proof. intros H ? ? [= <- <-]. done. Qed.
Lemma post_check b d (Q : unit -> dispatcher_impl -> Prop) : (b = true -> Q tt d) -> post (check_that b) d Q.
Proof. intros H ? ? E. destruct b; [injection E as <- <-; by apply H|done]. Qed.
Lemma post_on_scheduler {A} (f : SM A) d (Q : A -> dispatcher_impl -> Prop) : (forall a s, Q a (upd d s)) -> post (on_scheduler f) d Q.
Proof. intros H a d' E. unfold on_scheduler in E. destruct (f (scheduler_ d)) as [[x s]|]; [|done]. injection E as <- <-. apply H. Qed.

Lemma call_on_post {A} s d (f : DM A) k (P : sys -> Prop) s' : disp s = Some d -> call_on s f k = Next s' ->
  post f d (fun a d' => forall s', k a d' = Next s' -> P s') -> P s'.
Proof. unfold call_on. intros -> E H. destruct (f d) as [[a d']|] eqn:Ef; [|done]. by apply (H a d'). Qed.

(** The routine, one step after the other. *)
Ltac post_step :=
  repeat first [apply post_bind | apply post_ret | apply post_gets | apply post_modify | (apply post_check; intros ?) | (apply post_on_scheduler; intros ? ?)
               | (match goal with |- post (if ?b then _ else _) _ _ => destruct b eqn:? end)].

Lemma quiet_step n e s s' : inv n s -> quiet s -> e <> Spurious -> exec_event e s = Next s' -> quiet s'.
Proof.
  intros I Q He E. destruct (disp s) as [d|] eqn:Ed.
  2: { destruct (inv_deleted _ _ I Ed) as (Ha & Hh & Hr & _). destruct (deleted_step e s Ed Ha Hh Hr) as [H|(_ & H & _)]; congruence. }
  unfold inv in I. rewrite Ed in I. assert (Hdead := di_dead _ _ _ I). assert (Hsd := di_shutdown _ _ _ I). unfold quiet in Q. rewrite Ed in Q. destruct Q as [Qw Qn].
  clear I.
  destruct e; cbn in E; repeat case_match; try done; try (injection E as <-); try (eapply call_on_post; [exact Ed|exact E|]);
    unfold dispatcher_schedule_task, wait_turn, suspend_current_task, run_task_end, resolve_ticket, shutdown, dispatcher_destroy; post_step.
  all: try (intros ? [= <-]); unfold quiet; cbn in *; repeat match goal with H : disp ?s = _ |- context [disp ?s] => rewrite H end.
  all: try solve [intuition (congruence || lia)].
  all: destruct (alive s), (need_wake_ d) eqn:?; cbn in *; intuition (congruence || lia).
Qed.

Lemma exec_all_quiet es : forall n s s', inv n s -> quiet s -> Z.of_nat (n + length es) < 2 ^ 32 - 2 -> Spurious ∉ es -> exec_all es s = Next s' -> quiet s'.
Proof.
  induction es as [|e es IH]; intros n s s' I Q Hn Hs E; cbn in *; [by injection E as <-|]. apply not_elem_of_cons in Hs as [He Hs].
  destruct (exec_event e s) as [| |s1] eqn:E1; try done. apply (IH (S n) s1); [apply (step_next n s e); [done|lia|done]|by apply (quiet_step n e s)|lia|done|done].
Qed.

(** ** Concrete runs *)

(** A task suspends itself and another thread resumes it. *)
Definition run_example : list event :=
  [Schedule 10; Run; Turn; Take; Suspend; Duplicate 1; Finish false; Turn; Resolve 1 true; DoNotify; Turn; Take; Finish true; Turn].

(** The thread in [run] wakes by itself before the thread that resumed the task notifies. *)
Definition late_notify : list event :=
  [Schedule 10; Run; Turn; Take; Suspend; Finish false; Turn; Resolve 1 true; Spurious; Turn; Take; Finish true; Turn; Destroy; DoNotify].

Definition state_after (es : list event) : sys := match exec_all es sys_new with Next s => s | _ => sys_new end.

(** ** Properties *)

(** C6.  In any sequence of fewer than 2^32 - 3 events of the threads no assertion of the
    scheduler or of the dispatcher fails, and no routine of the dispatcher runs after it was
    deleted, with one exception: a thread that left [resolve_ticket]'s lock and then notifies
    the condition variable may find the dispatcher deleted.  That needs a wait that ended by
    itself; when every wait ends by a notification nothing goes wrong. *)
Theorem executor_safe es : few es -> exec_all es sys_new = Crash ->
  Spurious ∈ es /\ exists es1 es2 s, es = es1 ++ DoNotify :: es2 /\ exec_all es1 sys_new = Next s /\ disp s = None.
Proof.
  intros Hf E. unfold few in Hf. destruct (exec_all_crash es 0 sys_new sys_new_inv ltac:(lia) E) as (es1 & es2 & s & -> & E1 & Ed & Hn).
  split; [|by exists es1, es2, s]. destruct (decide (Spurious ∈ es1)) as [|Hs]; [by apply elem_of_app; left|]. rewrite length_app in Hf.
  assert (Q : quiet s) by (apply (exec_all_quiet es1 0 sys_new); [apply sys_new_inv|split; [done|by left]|lia|done|done]).
  unfold quiet in Q. rewrite Ed in Q. lia.
Qed.

Lemma executor_safe_witness : Spurious ∈ late_notify /\
  exists es1 es2 s, late_notify = es1 ++ DoNotify :: es2 /\ exec_all es1 sys_new = Next s /\ disp s = None.
Proof. apply (executor_safe late_notify); [unfold few; simpl; lia|by vm_compute]. Defined.

(** C27.  No task is lost and none runs or is dropped twice: after any sequence of events the
    tasks that were scheduled are those that are runnable, suspended, or in the hands of the
    thread in [run], with those that finished or were dropped. *)
Theorem tasks_are_conserved es s : few es -> exec_all es sys_new = Next s ->
  accepted s ≡ₚ match disp s with Some d => runnable_tasks_ (scheduler_ d) ++ suspended_of (tickets_ (scheduler_ d)) | None => [] end ++ in_hand (run_state s) ++ gone s.
Proof.
  intros Hf E. assert (I := reached es s Hf E). unfold inv in I. destruct (disp s) as [d|].
  - rewrite <- app_assoc. apply I.
  - destruct I as (_ & _ & -> & H). done.
Qed.

Lemma tasks_are_conserved_witness : accepted (state_after (take 7 run_example)) ≡ₚ [10].
Proof.
  etransitivity; [apply (tasks_are_conserved (take 7 run_example)); [unfold few; simpl; lia|by vm_compute]|]. by vm_compute.
Defined.

Lemma blocked_ticket n s d : disp s = Some d -> dinv n s d -> run_state s = Blocked -> need_wake_ d = true ->
  exists k r t, (k, r) ∈ tickets_ (scheduler_ d) /\ task_ r = Some t /\ k ∈ held s.
Proof.
  intros Ed D Hb Hw. destruct (di_wake _ _ _ D Hw) as (_ & _ & Hs). destruct (suspended_of (tickets_ (scheduler_ d))) as [|t l] eqn:El; [done|].
  assert (Hin : t ∈ suspended_of (tickets_ (scheduler_ d))) by (rewrite El; left). apply list_elem_of_join in Hin as (x & Hx & Hin).
  apply list_elem_of_fmap in Hin as ([k r] & -> & Hin). cbn in Hx. destruct (task_ r) as [t'|] eqn:Et; [|by apply not_elem_of_nil in Hx].
  exists k, r, t'. split_and!; [done|done|]. destruct (so_rec _ _ (di_sched _ _ _ D) _ _ Hin) as (_ & _ & Hr & _). unfold refs_of in Hr.
  rewrite decide_False in Hr by (intros [_ H]; apply (di_current _ _ _ D) in H; absurd_run). rewrite elem_of_multiplicity. lia.
Qed.

(** C7.  No wakeup is lost: while the thread in [run] waits, either a notification is on its
    way, which ends the wait, or nothing is runnable and somebody holds a ticket of a task
    that is suspended; resuming the task with that ticket queues it and sends a notification. *)
Theorem no_lost_wakeup es s : few es -> exec_all es sys_new = Next s -> run_state s = Blocked ->
  match notifiers s with
  | S _ => exists s', exec_event DoNotify s = Next s' /\ run_state s' = Woken
  | O => exists k t s' d', k ∈ held s /\ exec_event (Resolve k true) s = Next s' /\ disp s' = Some d' /\ runnable_tasks_ (scheduler_ d') = [t] /\ notifiers s' = 1%nat
  end.
Proof.
  intros Hf E Hb. assert (I := reached es s Hf E). unfold inv in I. destruct (disp s) as [d|] eqn:Ed; [|destruct I as (_ & _ & ? & _); congruence].
  destruct (notifiers s) as [|m] eqn:En.
  - assert (Hw : need_wake_ d = true) by (destruct (need_wake_ d) eqn:Ew; [done|]; assert (H := di_blocked _ _ _ I Hb Ew); lia).
    destruct (blocked_ticket _ _ _ Ed I Hb Hw) as (k & r & t & Hin & Ht & Hk). exists k, t. cbn. rewrite decide_True by done. unfold call_on. rewrite Ed.
    destruct (resume_suspended_ok _ _ _ _ _ (di_sched _ _ _ I) Hin Ht) as (b & sc & Er & -> & Hq). destruct (di_wake _ _ _ I Hw) as (_ & Hq0 & _).
    assert (Hsd := running_alive _ _ _ I ltac:(congruence)). rewrite Hq0 in Hq.
    unfold resolve_ticket, mbind, ST_bind, on_scheduler. unfold runs in Er. rewrite Er. cbn. rewrite Hsd, Hw. unfold has_runnable_tasks. rewrite Hq. cbn.
    eexists _, _. split_and!; [done|done|done|done|cbn; by rewrite En].
  - cbn. rewrite En, Ed, Hb. eauto.
Qed.

Lemma no_lost_wakeup_witness :
  exists k t s' d', k ∈ held (state_after (take 8 run_example)) /\ exec_event (Resolve k true) (state_after (take 8 run_example)) = Next s' /\ disp s' = Some d' /\
    runnable_tasks_ (scheduler_ d') = [t] /\ notifiers s' = 1%nat.
Proof. apply (no_lost_wakeup (take 8 run_example) (state_after (take 8 run_example))); [unfold few; simpl; lia|by vm_compute|by vm_compute]. Defined.

Lemma turn_idle d r d' : wait_turn d = Some (r, d') -> after_turn r = Idle -> runnable_tasks_ (scheduler_ d') = [] /\ has_suspended_tasks (scheduler_ d') = false.
Proof.
  unfold wait_turn, mbind, ST_bind, gets, check_that. destruct (was_shutdown_ d); [done|].
  unfold on_scheduler, take_runnable_tasks, mbind, ST_bind, gets. cbn -[bool_decide after_turn]. destruct (bool_decide_reflect (runnable_tasks_ (scheduler_ d) = [])) as [Hq|Hq]; cbn [negb].
  - destruct (has_suspended_tasks (scheduler_ d)) eqn:Es; cbn; intros E; injection E as <- <-; by cbn.
  - intros E; injection E as <- <-. cbn. by destruct (runnable_tasks_ (scheduler_ d)).
Qed.

(** [run] returns only when there is nothing left to do: when a turn of the wait makes it
    return, every task that was scheduled has finished or was dropped. *)
Theorem run_returns_when_done es s s' : few es -> exec_all es sys_new = Next s -> exec_event Turn s = Next s' -> run_state s' = Idle -> accepted s' ≡ₚ gone s'.
Proof.
  intros Hf E Et Hr. assert (I' := step_next _ _ _ _ (reached es s Hf E) Hf Et).
  assert (H : exists d', disp s' = Some d' /\ runnable_tasks_ (scheduler_ d') = [] /\ has_suspended_tasks (scheduler_ d') = false).
  { cbn in Et. destruct (run_state s); try done; unfold call_on in Et; destruct (disp s) as [d|]; try done.
    - destruct (wait_turn d) as [[r d']|] eqn:Ew; [|done]. injection Et as <-. exists d'. split; [done|]. by apply (turn_idle d r).
    - unfold set_need_wake, mbind, ST_bind, modify in Et. match type of Et with context [wait_turn ?x] => destruct (wait_turn x) as [[r d']|] eqn:Ew end; [|done]. injection Et as <-. exists d'. split; [done|]. by eapply turn_idle. }
  destruct H as (d' & Ed & Hq & Hs). unfold inv in I'. rewrite Ed in I'. rewrite (di_tasks _ _ _ I'), Hq, Hr.
  destruct (suspended_of (tickets_ (scheduler_ d'))) eqn:El; [done|]. assert (Hs' := suspended_count _ _ (di_sched _ _ _ I')). rewrite El, Hs in Hs'. destruct Hs' as [_ Hs']. by specialize (Hs' ltac:(done)).
Qed.

Lemma run_returns_when_done_witness : accepted (state_after run_example) ≡ₚ gone (state_after run_example).
Proof. apply (run_returns_when_done (take 13 run_example) (state_after (take 13 run_example))); [unfold few; simpl; lia|by vm_compute..]. Defined.

(** The dispatcher lives exactly as long as something points to it: it is deleted when
    the executor was destroyed and no suspended task with a ticket is left, and not before. *)
Theorem dispatcher_lifetime es s : few es -> exec_all es sys_new = Next s -> disp s = None <-> alive s = false /\ held s = ∅.
Proof.
  intros Hf E. assert (I := reached es s Hf E). unfold inv in I. destruct (disp s) as [d|] eqn:Ed; [|by destruct I as (? & ? & _)].
  split; [done|]. intros [Ha Hh]. destruct (di_dead _ _ _ I Ha) as (Hr & _ & _ & Ht). destruct (tickets_ (scheduler_ d)) as [|[k r] l] eqn:El; [done|].
  destruct (so_rec _ _ (di_sched _ _ _ I) k r) as (_ & _ & Hb & _); [rewrite El; left|]. unfold refs_of in Hb.
  rewrite Hh, multiplicity_empty, decide_False in Hb by (intros [_ H]; apply (di_current _ _ _ I) in H; absurd_run). lia.
Qed.

(** The executor is destroyed while a copy of the suspended task is left, then the copy is. *)
Lemma dispatcher_lifetime_witness :
  let s := state_after (run_example ++ [Destroy]) in let s' := state_after (run_example ++ [Destroy; Resolve 1 false]) in
  (disp s = None <-> alive s = false /\ held s = ∅) /\ (disp s' = None <-> alive s' = false /\ held s' = ∅) /\ disp s <> None /\ disp s' = None.
Proof.
  split_and!; [apply (dispatcher_lifetime (run_example ++ [Destroy])); [unfold few; simpl; lia|by vm_compute]
    |apply (dispatcher_lifetime (run_example ++ [Destroy; Resolve 1 false])); [unfold few; simpl; lia|by vm_compute]|by vm_compute|by vm_compute].
Defined.
