(* ===== verification/SuspendedTask.v ===== *)
(** * Suspended tasks of fit-promise

    Models the class suspended_task of src/fit-promise/promise.cc and promise.h: the handle
    that owns a ticket, its copies, moves and destruction, against the interface of the
    resolver.  The objects of the program are in a list; an object that was destroyed is
    [None].  All of them have the same resolver, so of the pointer only whether it is null is
    kept. *)

From stdpp Require Import gmultiset.
From S2P Require Import Prelude.

(** ** The interface *)

Class Resolver (R : Type) := {
  duplicate : Z -> ST R Z;
  resolve_with : Z -> bool -> ST R unit;
}.

(** What a resolver promises: each ticket it gave out can be duplicated or resolved, once.
    [ready n] says that it can take [n] more calls. *)
Class ResolverLaws (R : Type) `{!Resolver R} := {
  outstanding : R -> gmultiset Z;
  ready : nat -> R -> Prop;
  duplicate_law n r t : ready (S n) r -> t ∈ outstanding r -> wp (duplicate t) r (fun t' r' => ready n r' /\ outstanding r' = outstanding r ⊎ {[+ t' +]});
  resolve_law n r t resume : ready (S n) r -> t ∈ outstanding r ->
    wp (resolve_with t resume) r (fun _ r' => ready n r' /\ outstanding r' = outstanding r ∖ {[+ t +]});
  ready_le n m r : (m <= n)%nat -> ready n r -> ready m r;
}.

(** ** The class *)

Record suspended_task := { resolver_ : bool; ticket_ : Z }.

Section Class.
Context {R : Type} `{!Resolver R}.

(** The objects and the resolver. *)
Record tasks_world := { objects : list (option suspended_task); resolver_state : R }.
Abbreviation TM := (ST tasks_world).

Definition on_resolver {A} (f : ST R A) : TM A := fun w =>
  match f (resolver_state w) with Some (a, r) => Some (a, {| objects := objects w; resolver_state := r |}) | None => None end.
(** An object that does not exist cannot be used. *)
Definition object (i : nat) : TM suspended_task := fun w =>
  match objects w !! i with Some (Some o) => Some (o, w) | _ => None end.
Definition put_object (i : nat) (o : option suspended_task) : TM unit := modify (fun w => {| objects := <[i := o]> (objects w); resolver_state := resolver_state w |}).
Definition new_object (o : suspended_task) : TM unit := modify (fun w => {| objects := objects w ++ [Some o]; resolver_state := resolver_state w |}).

(** The ticket is moved to the stack before the resolver is called. *)
Definition resolve_task (i : nat) (resume_task : bool) : TM unit :=
  o ← object i;
  if resolver_ o then
    put_object i (Some {| resolver_ := false; ticket_ := ticket_ o |}) ;;
    on_resolver (resolve_with (ticket_ o) resume_task)
  else mret tt.

Definition resume_task (i : nat) : TM unit := resolve_task i true.
Definition reset (i : nat) : TM unit := resolve_task i false.

Definition duplicate_of (o : suspended_task) : TM Z := if resolver_ o then on_resolver (duplicate (ticket_ o)) else mret 0.

Definition copy_task (other : nat) : TM unit :=
  o ← object other;
  ticket ← duplicate_of o;
  new_object {| resolver_ := resolver_ o; ticket_ := ticket |}.

Definition move_task (other : nat) : TM unit :=
  o ← object other;
  new_object o ;;
  put_object other (Some {| resolver_ := false; ticket_ := ticket_ o |}).

Definition destruct_task (i : nat) : TM unit := reset i ;; put_object i None.

Definition assign_copy (this other : nat) : TM unit :=
  if bool_decide (this = other) then mret tt
  else
    reset this ;;
    o ← object other;
    ticket ← duplicate_of o;
    put_object this (Some {| resolver_ := resolver_ o; ticket_ := ticket |}).

Definition assign_move (this other : nat) : TM unit :=
  if bool_decide (this = other) then mret tt
  else
    reset this ;;
    o ← object other;
    put_object this (Some o) ;;
    put_object other (Some {| resolver_ := false; ticket_ := ticket_ o |}).

Definition swap_tasks (this other : nat) : TM unit :=
  if bool_decide (this = other) then mret tt
  else
    a ← object this;
    b ← object other;
    put_object this (Some b) ;;
    put_object other (Some a).

Inductive task_op :=
| Resume (i : nat)
| Reset_ (i : nat)
| CopyConstruct (other : nat)
| MoveConstruct (other : nat)
| Destruct (i : nat)
| CopyAssign (this other : nat)
| MoveAssign (this other : nat)
| Swap (this other : nat).

Definition do_op (op : task_op) : TM unit :=
  match op with
  | Resume i => resume_task i
  | Reset_ i => reset i
  | CopyConstruct other => copy_task other
  | MoveConstruct other => move_task other
  | Destruct i => destruct_task i
  | CopyAssign this other => assign_copy this other
  | MoveAssign this other => assign_move this other
  | Swap this other => swap_tasks this other
  end.

Fixpoint do_ops (ops : list task_op) : TM unit :=
  match ops with [] => mret tt | op :: ops => do_op op ;; do_ops ops end.
End Class.
#[global] Arguments tasks_world : clear implicits.
