(* ===== verification/SuspendedTaskTheorems.v ===== *)
(** * Suspended tasks: properties

    The tickets of the objects are those that are outstanding at the resolver, for every
    resolver that keeps its promise, and the executor does. *)

From stdpp Require Import sets functions gmultiset.
From S2P Require Import Prelude OrderedMap Scheduler SchedulerCorrect Executor ExecutorCorrect ExecutorTheorems SuspendedTask.

(** ** Tickets of objects *)

Definition ticket_of (o : option suspended_task) : gmultiset Z :=
  match o with Some o => if resolver_ o then {[+ ticket_ o +]} else ∅ | None => ∅ end.

Fixpoint tickets_of (l : list (option suspended_task)) : gmultiset Z :=
  match l with [] => ∅ | o :: l => ticket_of o ⊎ tickets_of l end.

Lemma tickets_of_app l l' : tickets_of (l ++ l') = tickets_of l ⊎ tickets_of l'.
Proof. induction l as [|o l IH]; simpl; [multiset_solver|]. rewrite IH. multiset_solver. Qed.

Lemma ticket_sub l i o : l !! i = Some o -> ticket_of o ⊆ tickets_of l.
Proof.
  revert i. induction l as [|y l IH]; intros [|i] H; simpl in *; try done; [injection H as ->; multiset_solver|]. specialize (IH i H). multiset_solver.
Qed.

Lemma tickets_of_insert l i o o' : l !! i = Some o -> tickets_of (<[i := o']> l) = (tickets_of l ∖ ticket_of o) ⊎ ticket_of o'.
Proof.
  revert i. induction l as [|x l IH]; intros [|i] H; simpl in *; try done; [injection H as ->; multiset_solver|].
  rewrite (IH i H). assert (Hs := ticket_sub _ _ _ H). multiset_solver.
Qed.

Lemma ticket_in l i o : l !! i = Some (Some o) -> resolver_ o = true -> ticket_ o ∈ tickets_of l.
Proof.
  revert i. induction l as [|x l IH]; intros [|i] H Hr; simpl in *; try done.
  - injection H as ->. simpl. rewrite Hr. multiset_solver.
  - specialize (IH i H Hr). multiset_solver.
Qed.

(** ** Which objects exist *)

Definition lives (l : list bool) (i : nat) : bool := bool_decide (l !! i = Some true).

(** The objects that exist after an operation, if it uses objects that exist. *)
Definition lives_after (op : task_op) (l : list bool) : option (list bool) :=
  match op with
  | Resume i | Reset_ i => if lives l i then Some l else None
  | CopyConstruct j | MoveConstruct j => if lives l j then Some (l ++ [true]) else None
  | Destruct i => if lives l i then Some (<[i := false]> l) else None
  | CopyAssign i j | MoveAssign i j | Swap i j => if lives l i && lives l j then Some l else None
  end.

Fixpoint lives_all (ops : list task_op) (l : list bool) : option (list bool) :=
  match ops with [] => Some l | op :: ops => l' ← lives_after op l; lives_all ops l' end.

Definition existing (l : list (option suspended_task)) : list bool := (fun o => match o with Some _ => true | None => false end) <$> l.

Lemma lives_object l i : lives (existing l) i = true -> exists o, l !! i = Some (Some o).
Proof.
  unfold lives. intros H%bool_decide_eq_true. unfold existing in H. rewrite list_lookup_fmap in H. destruct (l !! i) as [[o|]|]; try done. eauto.
Qed.

Lemma existing_insert l i o : existing (<[i := o]> l) = <[i := match o with Some _ => true | None => false end]> (existing l).
Proof. unfold existing. by rewrite list_fmap_insert. Qed.

Lemma existing_same l i o o' : l !! i = Some (Some o) -> existing (<[i := Some o']> l) = existing l.
Proof. intros H. rewrite existing_insert. apply list_insert_id. unfold existing. by rewrite list_lookup_fmap, H. Qed.

(** ** Operations *)

Section Ops.
Context {R : Type} `{!Resolver R} `{!ResolverLaws R}.

(** The resolver can take [n] more calls, its tickets are those of the objects, and the
    objects [l] exist. *)
Record good (n : nat) (l : list bool) (w : tasks_world R) : Prop := {
  g_ready : ready n (resolver_state w);
  g_tickets : outstanding (resolver_state w) = tickets_of (objects w);
  g_existing : existing (objects w) = l;
}.

Lemma good_le n m l w : (m <= n)%nat -> good n l w -> good m l w.
Proof. intros Hm [H1 H2 H3]. split; [by apply (ready_le n)|done..]. Qed.

Lemma wp_on_resolver {A} (f : ST R A) w (Q : A -> tasks_world R -> Prop) :
  wp f (resolver_state w) (fun a r => Q a {| objects := objects w; resolver_state := r |}) -> wp (on_resolver f) w Q.
Proof. intros (a & r & E & H). eexists a, _. unfold runs, on_resolver in *. rewrite E. by split. Qed.

Lemma wp_object i o w (Q : suspended_task -> tasks_world R -> Prop) : objects w !! i = Some (Some o) -> Q o w -> wp (object i) w Q.
Proof. intros E H. exists o, w. unfold runs, object. by rewrite E. Qed.

Lemma resolve_ok n l w i b : good (S n) l w -> lives l i = true ->
  wp (resolve_task i b) w (fun _ w' => good n l w' /\ (exists o, objects w' !! i = Some (Some o) /\ resolver_ o = false) /\ forall j, j <> i -> objects w' !! j = objects w !! j).
Proof.
  intros G Hi. destruct (g_existing _ _ _ G). destruct (lives_object _ _ Hi) as [o Ho]. apply wp_bind, (wp_object _ o); [done|].
  destruct (resolver_ o) eqn:Er.
  - apply wp_bind, wp_modify, wp_on_resolver. cbn [resolver_state objects]. destruct G as [Hr Ht He].
    eapply wp_mono; [apply (resolve_law n); [done|rewrite Ht; by eapply ticket_in]|]. intros [] r [Hr' Ht']. cbn. split; [split|split].
    + done.
    + cbn. rewrite Ht', Ht, (tickets_of_insert _ _ _ _ Ho). cbn. rewrite Er. multiset_solver.
    + by apply (existing_same _ _ o).
    + eexists. rewrite list_lookup_insert_eq by by apply lookup_lt_Some in Ho. done.
    + intros j Hj. by rewrite list_lookup_insert_ne by done.
  - apply wp_ret. split; [by apply (good_le (S n)); [lia|]|]. split; [by exists o|done].
Qed.

(** The ticket of a copy. *)
Lemma duplicate_of_ok n l w j o : good (S n) l w -> objects w !! j = Some (Some o) ->
  wp (duplicate_of o) w (fun t w' => objects w' = objects w /\ ready n (resolver_state w') /\
    outstanding (resolver_state w') = tickets_of (objects w) ⊎ ticket_of (Some {| resolver_ := resolver_ o; ticket_ := t |})).
Proof.
  intros [Hr Ht He] Ho. unfold duplicate_of. destruct (resolver_ o) eqn:Er; cbn.
  - apply wp_on_resolver. eapply wp_mono; [apply (duplicate_law n); [done|rewrite Ht; by eapply ticket_in]|]. intros t r [Hr' Ht']. cbn. by rewrite Ht', Ht.
  - apply wp_ret. split_and!; [done|by apply (ready_le (S n)); [lia|]|rewrite Ht; multiset_solver].
Qed.

(** An object without a ticket that becomes [o']. *)
Lemma tickets_of_fill l i o o' : l !! i = Some (Some o) -> resolver_ o = false -> tickets_of (<[i := Some o']> l) = tickets_of l ⊎ ticket_of (Some o').
Proof. intros Ho Hr. rewrite (tickets_of_insert _ _ _ _ Ho). cbn. rewrite Hr. multiset_solver. Qed.

(** Moving the ticket out of [j]. *)
Lemma tickets_of_empty l j o : l !! j = Some (Some o) -> tickets_of (<[j := Some {| resolver_ := false; ticket_ := ticket_ o |}]> l) = tickets_of l ∖ ticket_of (Some o).
Proof. intros Ho. rewrite (tickets_of_insert _ _ _ _ Ho). cbn. multiset_solver. Qed.

Lemma construct_ok (move : bool) n l w j : good (S n) l w -> lives l j = true ->
  wp (if move then move_task j else copy_task j) w (fun _ w' => good n (l ++ [true]) w').
Proof.
  intros G Hj. destruct (g_existing _ _ _ G). destruct (lives_object _ _ Hj) as [o Ho]. destruct move; apply wp_bind, (wp_object _ o); try done.
  - apply wp_bind, wp_modify, wp_modify. destruct G as [Hr Ht He].
    assert (Ho' : (objects w ++ [Some o]) !! j = Some (Some o)) by (rewrite lookup_app_l by (by apply lookup_lt_Some in Ho); done).
    split; cbn.
    + by apply (ready_le (S n)); [lia|].
    + rewrite (tickets_of_empty _ _ _ Ho'), tickets_of_app, Ht. cbn. multiset_solver.
    + rewrite (existing_same _ _ _ _ Ho'). unfold existing. by rewrite fmap_app.
  - apply wp_bind. eapply wp_mono; [by apply (duplicate_of_ok n (existing (objects w)) w j)|]. intros t w' (Eo & Hr & Ht). apply wp_modify. split; cbn.
    + done.
    + rewrite Ht, Eo, tickets_of_app. cbn. multiset_solver.
    + rewrite Eo. unfold existing. by rewrite fmap_app.
Qed.

Lemma destruct_ok n l w i : good (S n) l w -> lives l i = true -> wp (destruct_task i) w (fun _ w' => good n (<[i := false]> l) w').
Proof.
  intros G Hi. apply wp_bind. eapply wp_mono; [by apply (resolve_ok n)|].
  intros [] w' ([Hr Ht He] & (o & Ho & Hn) & _). apply wp_modify. split; cbn; [done| |].
  - rewrite (tickets_of_insert _ _ _ _ Ho), Ht. cbn. rewrite Hn. multiset_solver.
  - by rewrite existing_insert, He.
Qed.

Lemma assign_copy_ok n l w i j : good (S (S n)) l w -> lives l i = true -> lives l j = true -> wp (assign_copy i j) w (fun _ w' => good n l w').
Proof.
  intros G Hi Hj. unfold assign_copy. case_bool_decide as Hne; [apply wp_ret; apply (good_le (S (S n))); [lia|done]|].
  apply wp_bind. eapply wp_mono; [by apply (resolve_ok (S n))|].
  intros [] w1 (G1 & (o & Ho & Hn) & Hsame). destruct (g_existing _ _ _ G1). destruct (lives_object _ _ Hj) as [x Hx].
  apply wp_bind, (wp_object _ x); [done|]. apply wp_bind. eapply wp_mono; [by apply (duplicate_of_ok n (existing (objects w1)) w1 j)|].
  intros t w2 (Eo & Hr & Ht). apply wp_modify. split; cbn; [done| |].
  - by rewrite Ht, Eo, (tickets_of_fill _ _ _ _ Ho Hn).
  - rewrite Eo. by apply (existing_same _ _ o).
Qed.

Lemma assign_move_ok n l w i j : good (S n) l w -> lives l i = true -> lives l j = true -> wp (assign_move i j) w (fun _ w' => good n l w').
Proof.
  intros G Hi Hj. unfold assign_move. case_bool_decide as Hne; [apply wp_ret; apply (good_le (S n)); [lia|done]|].
  apply wp_bind. eapply wp_mono; [by apply (resolve_ok n)|].
  intros [] w1 ([Hr Ht He] & (o & Ho & Hn) & Hsame). destruct He. destruct (lives_object _ _ Hj) as [x Hx].
  apply wp_bind, (wp_object _ x); [done|]. apply wp_bind, wp_modify, wp_modify.
  assert (Hx' : <[i := Some x]> (objects w1) !! j = Some (Some x)) by by rewrite list_lookup_insert_ne.
  split; cbn; [done| |].
  - rewrite (tickets_of_empty _ _ _ Hx'), (tickets_of_fill _ _ _ _ Ho Hn), Ht. multiset_solver.
  - rewrite (existing_same _ _ _ _ Hx'). by apply (existing_same _ _ o).
Qed.

Lemma swap_tasks_ok n l w i j : good n l w -> lives l i = true -> lives l j = true -> wp (swap_tasks i j) w (fun _ w' => good n l w').
Proof.
  intros [Hr Ht He] Hi Hj. unfold swap_tasks. case_bool_decide as Hne; [by apply wp_ret|].
  destruct He. destruct (lives_object _ _ Hi) as [a Ha]. destruct (lives_object _ _ Hj) as [b Hb].
  apply wp_bind, (wp_object _ a); [done|]. apply wp_bind, (wp_object _ b); [done|]. apply wp_bind, wp_modify, wp_modify.
  assert (Hb' : <[i := Some b]> (objects w) !! j = Some (Some b)) by by rewrite list_lookup_insert_ne.
  split; cbn; [done| |].
  - rewrite (tickets_of_insert _ _ _ _ Hb'), (tickets_of_insert _ _ _ _ Ha), Ht. assert (H := ticket_sub _ _ _ Ha). multiset_solver.
  - rewrite (existing_same _ _ _ _ Hb'). by apply (existing_same _ _ a).
Qed.

Lemma do_op_ok op n l l' w : good (S (S n)) l w -> lives_after op l = Some l' -> wp (do_op op) w (fun _ w' => good n l' w').
Proof.
  intros G E. assert (G1 := good_le (S (S n)) (S n) _ _ ltac:(lia) G). assert (G0 := good_le (S (S n)) n _ _ ltac:(lia) G).
  destruct op as [i|i|j|j|i|i j|i j|i j]; cbn in E |- *; destruct (lives l _) eqn:Hi in E; cbn in E; try done; try (destruct (lives l _) eqn:Hj in E; cbn in E; try done); injection E as <-.
  1, 2: eapply wp_mono; [by apply (resolve_ok n)|]; by intros [] w' (? & _).
  - by apply (construct_ok false).
  - by apply (construct_ok true).
  - by apply destruct_ok.
  - by apply assign_copy_ok.
  - by apply assign_move_ok.
  - by apply swap_tasks_ok.
Qed.

Lemma do_ops_ok ops : forall l l' w, good (2 * length ops) l w -> lives_all ops l = Some l' -> wp (do_ops ops) w (fun _ w' => good 0 l' w').
Proof.
  induction ops as [|op ops IH]; intros l l' w G E; cbn in E |- *; [injection E as <-; by apply wp_ret|].
  destruct (lives_after op l) as [l1|] eqn:E1; [|done]. apply wp_bind. eapply wp_mono; [apply (do_op_ok op (2 * length ops) l l1); [|done]|].
  - apply (good_le (2 * length (op :: ops))); [cbn; lia|done].
  - intros [] w1 G1. by apply (IH l1).
Qed.
End Ops.

Lemma none_exists l : true ∉ existing l -> tickets_of l = ∅.
Proof.
  induction l as [|[o|] l IH]; cbn; intros H; [done|exfalso; apply H; left|]. rewrite IH by (intros ?; apply H; by right). multiset_solver.
Qed.

(** ** The executor as a resolver *)

#[export] Instance executor_resolver : Resolver sys := {
  duplicate t := fun s => match exec_event (Duplicate t) s with Next s => Some (t, s) | _ => None end;
  resolve_with t resume := fun s => match exec_event (Resolve t resume) s with Next s => Some (tt, s) | _ => None end;
}.

Definition executor_ready (n : nat) (s : sys) : Prop := exists m, inv m s /\ Z.of_nat (m + n) < 2 ^ 32 - 3.

Lemma executor_step n s e t : executor_ready (S n) s -> t ∈ held s -> (forall s', exec_event e s = Next s' -> executor_ready n s') /\ exec_event e s <> Crash.
Proof.
  intros (m & I & Hm) Ht. split; [intros s' E; exists (S m); split; [apply (step_next m s e); [done|lia|done]|lia]|]. intros E.
  unfold inv in I. destruct (disp s) as [d|] eqn:Ed; [|destruct I as (_ & Hh & _); rewrite Hh in Ht; multiset_solver].
  assert (H := step_inv e m s d Ed I ltac:(lia)). by rewrite E in H.
Qed.

Lemma executor_duplicate_law n s t : executor_ready (S n) s -> t ∈ held s ->
  wp (duplicate t) s (fun t' s' => executor_ready n s' /\ held s' = held s ⊎ {[+ t' +]}).
Proof.
  intros Hr Ht. destruct (executor_step n s (Duplicate t) t Hr Ht) as [Hn Hc]. cbn in Hn, Hc. rewrite decide_True in Hn, Hc by done.
  unfold wp, runs. cbn. rewrite decide_True by done. unfold call_on in *. destruct (disp s) as [d|]; [|done].
  destruct (on_scheduler _ d) as [[a d']|]; [|done]. eexists _, _. split; [done|]. split; [by apply Hn|done].
Qed.

Lemma executor_resolve_law n s t resume : executor_ready (S n) s -> t ∈ held s ->
  wp (resolve_with t resume) s (fun _ s' => executor_ready n s' /\ held s' = held s ∖ {[+ t +]}).
Proof.
  intros Hr Ht. destruct (executor_step n s (Resolve t resume) t Hr Ht) as [Hn Hc]. cbn in Hn, Hc. rewrite decide_True in Hn, Hc by done.
  unfold wp, runs. cbn. rewrite decide_True by done. unfold call_on in *. destruct (disp s) as [d|]; [|done].
  destruct (resolve_ticket t resume d) as [[a d']|]; [|done]. eexists _, _. split; [done|]. split; [by apply Hn|]. by destruct a.2.
Qed.

#[export] Program Instance executor_laws : ResolverLaws sys := {| outstanding := held; ready := executor_ready |}.
Next Obligation. apply executor_duplicate_law. Qed.
Next Obligation. apply executor_resolve_law. Qed.
Next Obligation. intros n m s Hm (k & I & Hk). exists k. split; [done|lia]. Qed.

(** ** Properties *)

(** C28.  Every ticket is precisely accounted for.  For every resolver that keeps its promise,
    any sequence of copies, moves, assignments, swaps, resumptions, resets and destructions of
    objects that exist is defined, and after it the tickets that are outstanding at the
    resolver are the tickets of the objects; when no object is left none is outstanding. *)
Theorem tickets_are_accounted_for {R : Type} `{!Resolver R} `{!ResolverLaws R} ops (w : tasks_world R) l :
  ready (2 * length ops) (resolver_state w) -> outstanding (resolver_state w) = tickets_of (objects w) -> lives_all ops (existing (objects w)) = Some l ->
  exists w', do_ops ops w = Some (tt, w') /\ existing (objects w') = l /\ outstanding (resolver_state w') = tickets_of (objects w') /\
    (true ∉ l -> outstanding (resolver_state w') = ∅).
Proof.
  intros Hr Ht El. destruct (do_ops_ok ops (existing (objects w)) l w) as ([] & w' & E & [_ Ht' <-]); [done|done|].
  exists w'. split_and!; [done|done|done|]. intros H. by rewrite Ht', none_exists.
Qed.

(** The executor after a task of it was suspended, and the object it got. *)
Definition world_example : tasks_world sys :=
  {| objects := [Some {| resolver_ := true; ticket_ := 1 |}]; resolver_state := state_after [Schedule 10; Run; Turn; Take; Suspend; Finish false; Turn] |}.

Definition ops_example : list task_op := [CopyConstruct 0; MoveConstruct 1; CopyAssign 1 2; MoveAssign 0 1; Swap 0 1; Resume 2; Destruct 0; Destruct 1; Destruct 2].

Lemma tickets_are_accounted_for_witness : exists w', do_ops ops_example world_example = Some (tt, w') /\ existing (objects w') = [false; false; false] /\
  outstanding (resolver_state w') = tickets_of (objects w') /\ (true ∉ [false; false; false] -> outstanding (resolver_state w') = ∅).
Proof.
  apply (tickets_are_accounted_for ops_example world_example [false; false; false]).
  - exists 7%nat. split; [|cbn; lia]. apply (reached [Schedule 10; Run; Turn; Take; Suspend; Finish false; Turn]); [unfold few; cbn; lia|by vm_compute].
  - by vm_compute.
  - by vm_compute.
Defined.
