(* ===== verification/Scope.v ===== *)
(** * Scopes of fit-promise

    Models src/fit-promise/scope.cc and scope.h: the state that a scope shares with the
    promises it wraps, with its atomic counter, the doubly linked list of promise holders and
    the threads that wrap, run and drop promises and exit the scope.  A locked region reads or
    writes the counter once and is one step; what is deleted after the lock is deleted in a
    step of its own.  Outside the lock each access to the counter is a step. *)

From stdpp Require Import gmap sets.
From S2P Require Import Prelude.

(** ** State *)

Record promise_holder := { next : option Z; prev : option Z }.

Record scope_state := {
  acquired_promise_count_ : Z;
  scope_was_destroyed_ : bool;
  promise_handle_count_ : Z;
  head_promise_holder_ : option Z;
}.

(** What is allocated: the state, until it is deleted, and the holders by address. *)
Record scope_mem := { state_ : option scope_state; holders : gmap Z promise_holder }.

Abbreviation MM := (ST scope_mem).

Definition scope_exited : Z := 2 ^ 63.

Definition assert_mem (b : bool) : MM unit := if b then mret tt else undefined.
Definition get_state : MM scope_state := fun m => match state_ m with Some s => Some (s, m) | None => None end.
Definition put_state (s : scope_state) : MM unit := modify (fun m => {| state_ := Some s; holders := holders m |}).
(** A holder that was deleted cannot be used. *)
Definition get_holder (h : Z) : MM promise_holder := fun m => match holders m !! h with Some x => Some (x, m) | None => None end.
Definition put_holder (h : Z) (x : promise_holder) : MM unit := modify (fun m => {| state_ := state_ m; holders := <[h := x]> (holders m) |}).

Definition with_acquired (n : Z) (s : scope_state) : scope_state :=
  {| acquired_promise_count_ := n; scope_was_destroyed_ := scope_was_destroyed_ s; promise_handle_count_ := promise_handle_count_ s; head_promise_holder_ := head_promise_holder_ s |}.
Definition with_destroyed (b : bool) (s : scope_state) : scope_state :=
  {| acquired_promise_count_ := acquired_promise_count_ s; scope_was_destroyed_ := b; promise_handle_count_ := promise_handle_count_ s; head_promise_holder_ := head_promise_holder_ s |}.
Definition with_count (n : Z) (s : scope_state) : scope_state :=
  {| acquired_promise_count_ := acquired_promise_count_ s; scope_was_destroyed_ := scope_was_destroyed_ s; promise_handle_count_ := n; head_promise_holder_ := head_promise_holder_ s |}.
Definition with_head (h : option Z) (s : scope_state) : scope_state :=
  {| acquired_promise_count_ := acquired_promise_count_ s; scope_was_destroyed_ := scope_was_destroyed_ s; promise_handle_count_ := promise_handle_count_ s; head_promise_holder_ := h |}.
Definition with_next (n : option Z) (x : promise_holder) : promise_holder := {| next := n; prev := prev x |}.
Definition with_prev (p : option Z) (x : promise_holder) : promise_holder := {| next := next x; prev := p |}.

Definition state_new : scope_state :=
  {| acquired_promise_count_ := 0; scope_was_destroyed_ := false; promise_handle_count_ := 0; head_promise_holder_ := None |}.

(** The top bit of a value of the counter. *)
Definition top_bit (n : Z) : bool := negb (Z.land n scope_exited =? 0).
Definition exited (s : scope_state) : bool := top_bit (acquired_promise_count_ s).
Definition should_delete_self (s : scope_state) : bool := scope_was_destroyed_ s && (promise_handle_count_ s =? 0).

(** ** Operations *)

(** The destructor checks, then the state is gone. *)
Definition delete_state : MM unit :=
  s ← get_state;
  assert_mem (acquired_promise_count_ s =? scope_exited) ;;
  assert_mem (scope_was_destroyed_ s) ;;
  assert_mem (promise_handle_count_ s =? 0) ;;
  assert_mem (bool_decide (head_promise_holder_ s = None)) ;;
  modify (fun m => {| state_ := None; holders := holders m |}).

Definition delete_holder (h : Z) : MM unit :=
  _ ← get_holder h;
  modify (fun m => {| state_ := state_ m; holders := delete h (holders m) |}).

(** The locked part: the list of promises to release, and whether to delete the state. *)
Definition exit_locked (scope_was_destroyed : bool) : MM (option Z * bool) :=
  s ← get_state;
  assert_mem (negb (scope_was_destroyed_ s)) ;;
  let s := with_destroyed scope_was_destroyed s in
  let prior_count := acquired_promise_count_ s in
  let s := with_acquired scope_exited s in
  if negb (top_bit prior_count) then
    assert_mem (prior_count =? 0) ;;
    let release_head := head_promise_holder_ s in
    let s := with_head None s in
    put_state s ;;
    mret (release_head, should_delete_self s)
  else put_state s ;; mret (None, should_delete_self s).

(** The loop over the promises to release; [fuel] bounds its turns. *)
Fixpoint release_all (fuel : nat) (release_head : option Z) : MM unit :=
  match release_head with
  | None => mret tt
  | Some h =>
      match fuel with
      | O => undefined
      | S fuel =>
          x ← get_holder h;
          delete_holder h ;;
          release_all fuel (next x)
      end
  end.

(** The locked part: whether the promise was linked; otherwise it is to be deleted. *)
Definition adopt_locked (promise_holder : Z) : MM bool :=
  s ← get_state;
  assert_mem (negb (scope_was_destroyed_ s)) ;;
  if negb (exited s) then
    match head_promise_holder_ s with
    | Some head =>
        x ← get_holder head;
        put_holder head (with_prev (Some promise_holder) x) ;;
        y ← get_holder promise_holder;
        put_holder promise_holder (with_next (Some head) y)
    | None => mret tt
    end ;;
    put_state (with_count (promise_handle_count_ s ⊕[64] 1) (with_head (Some promise_holder) s)) ;;
    mret true
  else mret false.

Inductive to_delete := DeleteNothing | DeletePromise | DeleteState.

(** The locked part of dropping a handle that is valid. *)
Definition drop_locked (promise_holder : Z) : MM to_delete :=
  s ← get_state;
  assert_mem (0 <? promise_handle_count_ s) ;;
  let s := with_count (promise_handle_count_ s - 1) s in
  if negb (exited s) then
    x ← get_holder promise_holder;
    match next x with
    | Some n => y ← get_holder n; put_holder n (with_prev (prev x) y)
    | None => mret tt
    end ;;
    match prev x with
    | Some p => y ← get_holder p; put_holder p (with_next (next x) y) ;; put_state s
    | None => put_state (with_head (next x) s)
    end ;;
    mret DeletePromise
  else put_state s ;; mret (if should_delete_self s then DeleteState else DeleteNothing).

(** The atomic operations; the result is the prior value. *)
Definition fetch_add (n : Z) : MM Z :=
  s ← get_state;
  put_state (with_acquired (acquired_promise_count_ s ⊕[64] n) s) ;;
  mret (acquired_promise_count_ s).

(** ** The threads *)

(** Deletions that a thread is about to do. *)
Inductive doom :=
| Release (release_head : option Z) (delete_self : bool)   (* after exit *)
| DoomedPromise (h : Z)                                    (* after adopt_promise or drop_promise *)
| DoomedState.                                             (* after drop_promise *)

(** The valid handles are those of continuations at rest, of continuations between the two
    steps of [try_acquire_promise] that found the scope exited, and of continuations that run
    their promise.  A handle that is not valid makes every operation do nothing and is left
    out. *)
Record scope_world := {
  mem : scope_mem;
  scope_alive : bool;
  resting : gset Z;
  retracting : gset Z;
  running : gset Z;
  doomed : list doom;
  next_address : Z;
}.

Definition scope_new : scope_world :=
  {| mem := {| state_ := Some state_new; holders := ∅ |}; scope_alive := true; resting := ∅; retracting := ∅; running := ∅; doomed := []; next_address := 1 |}.

Inductive scope_event :=
| Wrap                          (* a promise is wrapped *)
| Exit (destroy : bool)         (* exit(), or the destructor of the scope *)
| TryAcquire (h : Z)            (* a continuation is called: the first step *)
| Retract (h : Z)               (* the second step when the scope was exited *)
| ReleasePromise (h : Z)        (* the promise returned *)
| Drop (h : Z)                  (* a continuation is destroyed or assigned to *)
| Delete (i : nat).             (* a thread deletes what it has to *)

Inductive scope_outcome := SDisabled | SCrash | SNext (w : scope_world).

Definition in_scope {A} (w : scope_world) (f : MM A) (k : A -> scope_mem -> scope_world) : scope_outcome :=
  match f (mem w) with Some (a, m) => SNext (k a m) | None => SCrash end.

(** What a thread deletes; every holder of a list is deleted once, so the number of holders
    bounds the turns. *)
Definition delete_doomed (d : doom) : MM unit :=
  match d with
  | Release release_head delete_self =>
      n ← gets (fun m => size (holders m));
      release_all n release_head ;;
      if delete_self then delete_state else mret tt
  | DoomedPromise h => delete_holder h
  | DoomedState => delete_state
  end.

Definition exec_scope (e : scope_event) (w : scope_world) : scope_outcome :=
  match e with
  | Wrap =>
      if scope_alive w then
        let h := next_address w in
        in_scope w (put_holder h {| next := None; prev := None |} ;; adopt_locked h) (fun adopted m =>
          {| mem := m; scope_alive := scope_alive w; resting := if (adopted : bool) then {[h]} ∪ resting w else resting w; retracting := retracting w;
             running := running w; doomed := if adopted then doomed w else doomed w ++ [DoomedPromise h]; next_address := h + 1 |})
      else SDisabled
  | Exit destroy =>
      if scope_alive w then
        in_scope w (exit_locked destroy) (fun r m =>
          {| mem := m; scope_alive := negb destroy; resting := resting w; retracting := retracting w; running := running w;
             doomed := doomed w ++ [Release r.1 r.2]; next_address := next_address w |})
      else SDisabled
  | TryAcquire h =>
      if bool_decide (h ∈ resting w) then
        in_scope w (fetch_add 1) (fun prior m =>
          {| mem := m; scope_alive := scope_alive w; resting := resting w ∖ {[h]};
             retracting := if top_bit prior then {[h]} ∪ retracting w else retracting w; running := if top_bit prior then running w else {[h]} ∪ running w;
             doomed := doomed w; next_address := next_address w |})
      else SDisabled
  | Retract h =>
      if bool_decide (h ∈ retracting w) then
        in_scope w (fetch_add (-1)) (fun _ m =>
          {| mem := m; scope_alive := scope_alive w; resting := {[h]} ∪ resting w; retracting := retracting w ∖ {[h]}; running := running w;
             doomed := doomed w; next_address := next_address w |})
      else SDisabled
  | ReleasePromise h =>
      if bool_decide (h ∈ running w) then
        in_scope w (_ ← get_holder h; fetch_add (-1)) (fun _ m =>
          {| mem := m; scope_alive := scope_alive w; resting := {[h]} ∪ resting w; retracting := retracting w; running := running w ∖ {[h]};
             doomed := doomed w; next_address := next_address w |})
      else SDisabled
  | Drop h =>
      if bool_decide (h ∈ resting w) then
        in_scope w (drop_locked h) (fun r m =>
          {| mem := m; scope_alive := scope_alive w; resting := resting w ∖ {[h]}; retracting := retracting w; running := running w;
             doomed := doomed w ++ match r with DeleteNothing => [] | DeletePromise => [DoomedPromise h] | DeleteState => [DoomedState] end;
             next_address := next_address w |})
      else SDisabled
  | Delete i =>
      match doomed w !! i with
      | Some d => in_scope w (delete_doomed d) (fun _ m =>
          {| mem := m; scope_alive := scope_alive w; resting := resting w; retracting := retracting w; running := running w;
             doomed := delete i (doomed w); next_address := next_address w |})
      | None => SDisabled
      end
  end.

Fixpoint exec_scopes (es : list scope_event) (w : scope_world) : scope_outcome :=
  match es with
  | [] => SNext w
  | e :: es => match exec_scope e w with SNext w => exec_scopes es w | o => o end
  end.
