(* ===== verification/ScopeInv.v ===== *)
(** * Scopes: invariant

    The list of promise holders, who deletes what, and the counter, in every state the threads
    can reach while no exit falls between the two steps of a failed acquisition. *)

From stdpp Require Import gmap sets.
From S2P Require Import Prelude Scope.

(** ** Linked lists of holders *)

(** From [hd] the holders [l] are linked, after [p] and up to [q]. *)
Fixpoint linked (m : gmap Z promise_holder) (p hd : option Z) (l : list Z) (q : option Z) : Prop :=
  match l with
  | [] => hd = q
  | h :: l => hd = Some h /\ exists x, m !! h = Some x /\ prev x = p /\ linked m (Some h) (next x) l q
  end.

Definition last_of (p : option Z) (l : list Z) : option Z := match last l with Some h => Some h | None => p end.

Lemma linked_app m p hd l1 l2 q : linked m p hd (l1 ++ l2) q <-> exists mid, linked m p hd l1 mid /\ linked m (last_of p l1) mid l2 q.
Proof.
  revert p hd. induction l1 as [|h l1 IH]; intros p hd; simpl.
  - unfold last_of; simpl. split; [intros H; by exists hd|by intros (mid & -> & H)].
  - assert (E : last_of p (h :: l1) = last_of (Some h) l1) by (unfold last_of; rewrite last_cons; by destruct (last l1)).
    rewrite E. setoid_rewrite IH. split.
    + intros (-> & x & Hx & Hp & mid & H1 & H2). exists mid. split; [|done]. split; [done|]. by exists x.
    + intros (mid & (-> & x & Hx & Hp & H1) & H2). split; [done|]. exists x. split_and!; [done|done|]. by exists mid.
Qed.

(** Only the holders of the list matter. *)
Lemma linked_frame m m' p hd l q : (forall h, h ∈ l -> m' !! h = m !! h) -> linked m p hd l q -> linked m' p hd l q.
Proof.
  revert p hd. induction l as [|h l IH]; intros p hd Hm; simpl; [done|]. intros (-> & x & Hx & Hp & Hl). split; [done|].
  exists x. rewrite Hm by left. split_and!; [done|done|]. apply IH; [|done]. intros h' Hh. apply Hm. by right.
Qed.

(** The first holder gets another one before it. *)
Lemma linked_prev m p p' h l q x : NoDup (h :: l) -> linked m p (Some h) (h :: l) q -> m !! h = Some x ->
  linked (<[h := with_prev p' x]> m) p' (Some h) (h :: l) q.
Proof.
  intros [Hh Hnd]%NoDup_cons (_ & y & Hy & Hp & Hl) Hx. rewrite Hx in Hy. injection Hy as <-. simpl. split; [done|]. exists (with_prev p' x).
  rewrite lookup_insert_eq. split_and!; [done|done|]. simpl. apply (linked_frame m); [|done]. intros j Hj. apply lookup_insert_ne. set_solver.
Qed.

Lemma last_of_snoc p l h : last_of p (l ++ [h]) = Some h.
Proof. unfold last_of. by rewrite last_snoc. Qed.

(** The last holder gets another one after it. *)
Lemma linked_next m p hd l h q q' x : NoDup (l ++ [h]) -> linked m p hd (l ++ [h]) q -> m !! h = Some x ->
  linked (<[h := with_next q' x]> m) p hd (l ++ [h]) q'.
Proof.
  intros Hnd Hl Hx. apply NoDup_app in Hnd as (_ & Hh & _). apply linked_app in Hl as (mid & Hl & -> & y & Hy & Hp & _). rewrite Hx in Hy. injection Hy as <-.
  apply linked_app. exists (Some h). split.
  - apply (linked_frame m); [|done]. intros j Hj. apply lookup_insert_ne. specialize (Hh j Hj). intros ->. apply Hh. left.
  - simpl. split; [done|]. exists (with_next q' x). by rewrite lookup_insert_eq.
Qed.

Lemma linked_head m p hd l q : linked m p hd l q -> hd = match l with h :: _ => Some h | [] => q end.
Proof. destruct l; simpl; [done|]. by intros [-> _]. Qed.

(** ** Taking a holder out *)

Lemma wp_get_holder h x m (Q : promise_holder -> scope_mem -> Prop) : holders m !! h = Some x -> Q x m -> wp (get_holder h) m Q.
Proof. intros E H. exists x, m. unfold runs, get_holder. by rewrite E. Qed.
Lemma wp_get_state s m (Q : scope_state -> scope_mem -> Prop) : state_ m = Some s -> Q s m -> wp get_state m Q.
Proof. intros E H. exists s, m. unfold runs, get_state. by rewrite E. Qed.
Lemma wp_assert_mem b m (Q : unit -> scope_mem -> Prop) : b = true -> Q tt m -> wp (assert_mem b) m Q.
Proof. intros -> H. by apply wp_ret. Qed.

(** The holders of [m'] are those of [m], the same but in [l]. *)
Definition changed (l : list Z) (m m' : gmap Z promise_holder) : Prop := dom m' = dom m /\ forall h, h ∉ l -> m' !! h = m !! h.

Lemma changed_refl l m : changed l m m.
Proof. done. Qed.
Lemma changed_insert l m h x y : h ∈ l -> m !! h = Some x -> changed l m (<[h := y]> m).
Proof.
  intros Hh Hx. split; [|intros j Hj; apply lookup_insert_ne; by intros ->]. apply set_eq. intros j. rewrite dom_insert, elem_of_union, elem_of_singleton.
  split; [intros [->|?]; [by apply elem_of_dom|done]|by right].
Qed.

(** What follows the holder. *)
Lemma unlink_next p' st m h l2 n : NoDup l2 -> linked m (Some h) n l2 None ->
  wp (match n with Some n => y ← get_holder n; put_holder n (with_prev p' y) | None => mret tt end) {| state_ := st; holders := m |}
     (fun _ m' => state_ m' = st /\ changed l2 m (holders m') /\ linked (holders m') p' n l2 None).
Proof.
  intros Hnd Hl. assert (Hn := linked_head _ _ _ _ _ Hl). destruct l2 as [|j l2]; subst n.
  - apply wp_ret. split; [done|]. by split.
  - destruct Hl as (_ & y & Hy & Hp & Hl). apply wp_bind, (wp_get_holder _ y); [done|]. apply wp_modify. simpl.
    split; [done|]. split; [by apply (changed_insert _ _ _ y); [left|]|]. apply (linked_prev m (Some h)); [done| |done]. split; [done|]. by exists y.
Qed.

(** What is before the holder. *)
Lemma unlink_prev st s m hd l1 h n : NoDup l1 -> linked m None hd l1 (Some h) -> head_promise_holder_ s = hd ->
  wp (match last_of None l1 with Some p => y ← get_holder p; put_holder p (with_next n y) ;; put_state s | None => put_state (with_head n s) end)
     {| state_ := st; holders := m |}
     (fun _ m' => exists hd', state_ m' = Some (with_head hd' s) /\ changed l1 m (holders m') /\ linked (holders m') None hd' l1 n).
Proof.
  intros Hnd Hl Hs. destruct l1 as [|j l1 _] using rev_ind.
  - apply wp_modify. exists n. split; [done|]. by split.
  - rewrite last_of_snoc. assert (Hl0 := Hl). apply linked_app in Hl0 as (mid & _ & -> & y & Hy & _). apply wp_bind, (wp_get_holder _ y); [done|].
    apply wp_bind, wp_modify, wp_modify. exists hd. simpl. split; [rewrite <- Hs; by destruct s|]. split.
    + apply (changed_insert _ _ _ y); [set_solver|done].
    + by apply (linked_next m None hd l1 j (Some h)).
Qed.

Lemma changed_trans l1 l2 m1 m2 m3 : changed l1 m1 m2 -> changed l2 m2 m3 -> changed (l1 ++ l2) m1 m3.
Proof.
  intros [D1 H1] [D2 H2]. split; [congruence|]. intros h Hh. rewrite not_elem_of_app in Hh. destruct Hh. by rewrite H2, H1.
Qed.

(** Taking [h] out of the list. *)
Lemma unlink_holder_ok st s m hd l1 h l2 : NoDup (l1 ++ h :: l2) -> linked m None hd (l1 ++ h :: l2) None -> head_promise_holder_ s = hd ->
  wp (x ← get_holder h;
      match next x with Some n => y ← get_holder n; put_holder n (with_prev (prev x) y) | None => mret tt end ;;
      match prev x with Some p => y ← get_holder p; put_holder p (with_next (next x) y) ;; put_state s | None => put_state (with_head (next x) s) end ;;
      mret DeletePromise)
     {| state_ := st; holders := m |}
     (fun r m' => r = DeletePromise /\ exists hd', state_ m' = Some (with_head hd' s) /\ changed (l1 ++ l2) m (holders m') /\ linked (holders m') None hd' (l1 ++ l2) None).
Proof.
  intros Hnd Hl Hs. apply linked_app in Hl as (mid & Hl1 & -> & x & Hx & Hp & Hl2).
  apply NoDup_app in Hnd as (Hnd1 & Hdis & [Hh Hnd2]%NoDup_cons).
  apply wp_bind, (wp_get_holder _ x); [done|]. apply wp_bind. eapply wp_mono; [by apply (unlink_next (prev x) st m h l2 (next x))|].
  intros [] m1 (Est & C1 & L1). rewrite Hp in *. destruct m1 as [st1 m1]. simpl in *. subst st1.
  assert (Hl1' : linked m1 None hd l1 (Some h)) by (apply (linked_frame m); [|done]; intros j Hj; apply C1; intros Hj2; apply (Hdis j Hj); by right).
  apply wp_bind. eapply wp_mono; [by apply (unlink_prev st s m1 hd l1 h (next x))|]. intros [] m2 (hd' & Es & C2 & L2). apply wp_ret. split; [done|]. exists hd'. split; [done|]. split.
  - destruct (changed_trans _ _ _ _ _ C1 C2) as [D H]. split; [done|]. intros j Hj. apply H. by rewrite not_elem_of_app in Hj |- *; destruct Hj.
  - apply linked_app. exists (next x). split; [done|]. apply (linked_frame m1); [|done]. intros j Hj. apply C2. intros Hj1. apply (Hdis j Hj1). by right.
Qed.

(** Putting [h], which is new, in front of the list. *)
Lemma link_ok st m hd l h : NoDup (h :: l) -> m !! h = Some {| next := None; prev := None |} -> linked m None hd l None ->
  wp (match hd with
      | Some head =>
          x ← get_holder head;
          put_holder head (with_prev (Some h) x) ;;
          y ← get_holder h;
          put_holder h (with_next (Some head) y)
      | None => mret tt
      end) {| state_ := st; holders := m |}
     (fun _ m' => state_ m' = st /\ changed (h :: l) m (holders m') /\ linked (holders m') None (Some h) (h :: l) None).
Proof.
  intros Hnd Hh Hl. assert (Hhd := linked_head _ _ _ _ _ Hl). destruct l as [|j l]; subst hd.
  - apply wp_ret. split; [done|]. split; [done|]. split; [done|]. by eexists.
  - assert (Hl0 := Hl). destruct Hl0 as (_ & x & Hx & _). assert (Hne : h <> j) by (apply NoDup_cons in Hnd as [Hnd _]; intros ->; apply Hnd; left).
    apply wp_bind, (wp_get_holder _ x); [done|]. apply wp_bind, wp_modify. simpl.
    apply wp_bind, (wp_get_holder _ {| next := None; prev := None |}); [simpl; by rewrite lookup_insert_ne|]. apply wp_modify. cbn [holders state_ with_next prev].
    assert (Hnd2 := Hnd). apply NoDup_cons in Hnd2 as [Hh2 Hnd2]. split; [done|]. split.
    + assert (C1 : changed (h :: j :: l) m (<[j := with_prev (Some h) x]> m)) by (apply (changed_insert _ _ _ x); [right; left|done]).
      assert (C2 := changed_insert (h :: j :: l) (<[j := with_prev (Some h) x]> m) h {| next := None; prev := None |} {| next := Some j; prev := None |} ltac:(left)
        ltac:(by rewrite lookup_insert_ne)).
      destruct (changed_trans _ _ _ _ _ C1 C2) as [D H]. split; [done|]. intros k Hk. apply H. by rewrite not_elem_of_app.
    + split; [done|]. eexists. rewrite lookup_insert_eq. split; [done|]. split; [done|]. change (linked (<[h := with_next (Some j) {| next := None; prev := None |}]> (<[j := with_prev (Some h) x]> m)) (Some h) (Some j) (j :: l) None).
      apply (linked_frame (<[j := with_prev (Some h) x]> m)); [intros k Hk; apply lookup_insert_ne; by intros ->|]. by apply (linked_prev m None).
Qed.

(** ** Scopes: what every step keeps *)



(** ** The top bit *)

Lemma top_bit_spec n : top_bit n = Z.testbit n 63.
Proof.
  unfold top_bit, scope_exited. destruct (Z.testbit n 63) eqn:E.
  - apply negb_true_iff, Z.eqb_neq. intros H. apply (f_equal (fun z => Z.testbit z 63)) in H. rewrite Z.land_spec, E, Z.bits_0 in H. done.
  - apply negb_false_iff, Z.eqb_eq. apply Z.bits_inj'. intros i Hi. rewrite Z.land_spec, Z.pow2_bits_eqb, Z.bits_0 by lia.
    destruct (Z.eqb_spec 63 i) as [<-|]; [by rewrite E|]. by rewrite andb_false_r.
Qed.

Lemma top_bit_low n : 0 <= n < 2 ^ 63 -> top_bit n = false.
Proof. intros H. rewrite top_bit_spec. apply Z.bits_above_log2; [lia|]. destruct (decide (n = 0)) as [->|]; [done|]. apply Z.log2_lt_pow2; lia. Qed.

Lemma top_bit_high n : 2 ^ 63 <= n < 2 ^ 64 -> top_bit n = true.
Proof. intros H. rewrite top_bit_spec. apply Z.testbit_true; [lia|]. assert (E : n / 2 ^ 63 = 1) by (symmetry; apply (Z.div_unique _ _ _ (n - 2 ^ 63)); lia). by rewrite E. Qed.

(** ** Holders *)

(** The holders that a thread is about to delete. *)
Definition doom_holders (m : gmap Z promise_holder) (d : doom) (l : list Z) : Prop :=
  match d with Release hd _ => linked m None hd l None | DoomedPromise h => l = [h] | DoomedState => l = [] end.

(** Every holder is in the list of the scope or belongs to one thread. *)
Record heap_ok (m : gmap Z promise_holder) (hd : option Z) (l : list Z) (ds : list doom) (ls : list (list Z)) : Prop := {
  ho_linked : linked m None hd l None;
  ho_doomed : Forall2 (doom_holders m) ds ls;
  ho_nodup : NoDup (l ++ mjoin ls);
  ho_dom h : h ∈ dom m <-> h ∈ l ++ mjoin ls;
}.

Lemma doom_frame m m' d l : (forall h, h ∈ l -> m' !! h = m !! h) -> doom_holders m d l -> doom_holders m' d l.
Proof. destruct d; simpl; [|done|done]. intros H. by apply linked_frame. Qed.

Lemma dooms_frame m m' ds ls : (forall h, h ∈ mjoin ls -> m' !! h = m !! h) -> Forall2 (doom_holders m) ds ls -> Forall2 (doom_holders m') ds ls.
Proof.
  intros H F. induction F as [|d l ds ls Hd F IH]; [constructor|]. simpl in H. constructor.
  - apply (doom_frame m); [|done]. intros h Hh. apply H, elem_of_app. by left.
  - apply IH. intros h Hh. apply H, elem_of_app. by right.
Qed.

(** Nobody deletes twice. *)
Lemma mjoin_delete {A} (ls : list (list A)) i l : ls !! i = Some l -> mjoin ls ≡ₚ l ++ mjoin (delete i ls).
Proof.
  revert i. induction ls as [|x ls IH]; intros [|i] E; simpl in *; try done; [by injection E as ->|].
  change (delete (S i) (x :: ls)) with (x :: delete i ls). simpl. rewrite (IH i E). solve_Permutation.
Qed.

(** The loop deletes the list it is given. *)
Lemma release_all_ok l : forall fuel m st p hd, linked m p hd l None -> NoDup l -> (length l <= fuel)%nat ->
  wp (release_all fuel hd) {| state_ := st; holders := m |} (fun _ m' => state_ m' = st /\ (forall h, h ∈ l -> holders m' !! h = None) /\
    (forall h, h ∉ l -> holders m' !! h = m !! h)).
Proof.
  induction l as [|h l IH]; intros fuel m st p hd Hl Hnd Hf; simpl in Hl.
  - subst hd. destruct fuel; apply wp_ret; split_and!; try done; intros h Hh; by apply not_elem_of_nil in Hh.
  - destruct Hl as (-> & x & Hx & Hp & Hl). apply NoDup_cons in Hnd as [Hh Hnd]. simpl in Hf. destruct fuel as [|fuel]; [lia|]. simpl.
    apply wp_bind, (wp_get_holder _ x); [done|]. apply wp_bind. apply wp_bind, (wp_get_holder _ x); [done|]. apply wp_modify. simpl.
    eapply wp_mono; [apply (IH fuel _ st (Some h) (next x)); [|done|lia]|].
    + apply (linked_frame m); [|done]. intros j Hj. apply lookup_delete_ne. by intros ->.
    + intros [] m' (Es & Hd & Ho). split; [done|]. split.
      * intros j [->|Hj]%elem_of_cons; [|by apply Hd]. rewrite Ho by done. apply lookup_delete_eq.
      * intros j Hj. apply not_elem_of_cons in Hj as [Hne Hj]. rewrite Ho by done. by apply lookup_delete_ne.
Qed.

(** Taking the [i]-th out. *)
Lemma heap_ok_delete m m' hd l ds ls i ids : heap_ok m hd l ds ls -> ls !! i = Some ids ->
  (forall h, h ∈ ids -> m' !! h = None) -> (forall h, h ∉ ids -> m' !! h = m !! h) -> heap_ok m' hd l (delete i ds) (delete i ls).
Proof.
  intros [H1 H2 H3 H4] Ei Hd Ho. assert (P := mjoin_delete _ _ _ Ei). rewrite P in H3.
  assert (P' : l ++ ids ++ mjoin (delete i ls) ≡ₚ ids ++ (l ++ mjoin (delete i ls))) by solve_Permutation.
  rewrite P' in H3. apply NoDup_app in H3 as (Hndi & Hdis & Hnd).
  assert (Hkeep : forall h, h ∈ l ++ mjoin (delete i ls) -> m' !! h = m !! h) by (intros h Hh; apply Ho; intros Hi; by apply (Hdis h)).
  split.
  - apply (linked_frame m); [|done]. intros h Hh. apply Hkeep, elem_of_app. by left.
  - apply (dooms_frame m); [|by apply Forall2_delete]. intros h Hh. apply Hkeep, elem_of_app. by right.
  - done.
  - intros h. rewrite elem_of_dom. assert (H4' := H4 h). rewrite P, P', elem_of_app, elem_of_dom in H4'. destruct (decide (h ∈ ids)) as [Hi|Hi].
    + rewrite Hd by done. split; [by intros [? ?]|]. intros Hh. by destruct (Hdis h Hi).
    + rewrite Ho by done. rewrite H4'. split; [by intros [?|?]|by right].
Qed.

Lemma length_le_size (m : gmap Z promise_holder) l : NoDup l -> (forall h, h ∈ l -> h ∈ dom m) -> (length l <= size m)%nat.
Proof.
  intros Hnd Hd. rewrite <- size_dom, <- (size_list_to_set (C := gset Z) l) by done. apply subseteq_size. intros h. rewrite elem_of_list_to_set. apply Hd.
Qed.

(** A thread that deletes what it has to. *)
Lemma delete_doomed_ok st m hd l ds ls i d : heap_ok m hd l ds ls -> ds !! i = Some d ->
  wp (match d with Release hd _ => n ← gets (fun m => size (holders m)); release_all n hd | DoomedPromise h => delete_holder h | DoomedState => mret tt end)
    {| state_ := st; holders := m |} (fun _ m' => state_ m' = st /\ heap_ok (holders m') hd l (delete i ds) (delete i ls) /\ dom (holders m') ⊆ dom m).
Proof.
  intros Ho Ei. destruct (Forall2_lookup_l _ _ _ _ _ (ho_doomed _ _ _ _ _ Ho) Ei) as (ids & Els & Hd). assert (P := mjoin_delete _ _ _ Els).
  assert (Hnd : NoDup ids) by (assert (H := ho_nodup _ _ _ _ _ Ho); rewrite P in H; apply NoDup_app in H as (_ & _ & H); by apply NoDup_app in H as (H & _)).
  assert (Hin : forall h, h ∈ ids -> h ∈ dom m) by (intros h Hh; apply (ho_dom _ _ _ _ _ Ho), elem_of_app; right; rewrite P, elem_of_app; by left).
  assert (Hdone : forall m', (forall h, h ∈ ids -> m' !! h = None) -> (forall h, h ∉ ids -> m' !! h = m !! h) -> heap_ok m' hd l (delete i ds) (delete i ls) /\ dom m' ⊆ dom m).
  { intros m' H1 H2. split; [by apply (heap_ok_delete m m' hd l ds ls i ids)|]. intros h. rewrite !elem_of_dom. destruct (decide (h ∈ ids)) as [Hh|Hh].
    - rewrite H1 by done. by intros [? ?].
    - by rewrite H2. }
  destruct d as [hd' b|h|]; simpl in Hd.
  - apply wp_bind, wp_gets. eapply wp_mono; [eapply release_all_ok; [done|done|by apply length_le_size]|]. intros [] m' (Es & H1 & H2). split; [done|]. by apply Hdone.
  - subst ids. assert (Hh := Hin h ltac:(left)). apply elem_of_dom in Hh as [x Hx]. apply wp_bind, (wp_get_holder _ x); [done|]. apply wp_modify. simpl.
    split; [done|]. apply Hdone; [intros j ->%list_elem_of_singleton; apply lookup_delete_eq|]. intros j Hj. apply lookup_delete_ne. intros ->. apply Hj. left.
  - subst ids. apply wp_ret. split; [done|]. apply Hdone; [intros h Hh; by apply not_elem_of_nil in Hh|done].
Qed.

(** ** The invariant *)

Definition self (d : doom) : bool := match d with Release _ b => b | DoomedPromise _ => false | DoomedState => true end.

(** The threads that are about to delete the state. *)
Definition selfs (ds : list doom) : nat := length (filter (fun d => self d = true) ds).

Lemma selfs_app ds ds' : selfs (ds ++ ds') = (selfs ds + selfs ds')%nat.
Proof. unfold selfs. by rewrite filter_app, length_app. Qed.

Lemma selfs_single d : selfs [d] = if self d then 1%nat else 0%nat.
Proof. unfold selfs. rewrite filter_cons, filter_nil. by destruct (self d). Qed.

Lemma selfs_delete ds i d : ds !! i = Some d -> selfs ds = ((if self d then 1 else 0) + selfs (delete i ds))%nat.
Proof.
  intros E. unfold selfs. rewrite (delete_Permutation _ _ _ E) at 1. rewrite filter_cons. destruct (self d) eqn:Es; [rewrite decide_True by done|rewrite decide_False by done]; done.
Qed.

(** The counter and the list, before and after the scope was exited. *)
Definition counter_ok (w : scope_world) (s : scope_state) (l : list Z) : Prop :=
  (acquired_promise_count_ s = Z.of_nat (size (running w)) /\ retracting w = ∅ /\ scope_alive w = true /\ forall h, h ∈ l <-> h ∈ resting w ∪ running w) \/
  (acquired_promise_count_ s = scope_exited + Z.of_nat (size (retracting w)) /\ running w = ∅ /\ l = []).

Definition valid_handles (w : scope_world) : gset Z := resting w ∪ retracting w ∪ running w.

Record wok (n : nat) (w : scope_world) (s : scope_state) (l : list Z) (ls : list (list Z)) : Prop := {
  wo_heap : heap_ok (holders (mem w)) (head_promise_holder_ s) l (doomed w) ls;
  wo_fresh h : h ∈ dom (holders (mem w)) \/ h ∈ valid_handles w -> h < next_address w;
  wo_disjoint : resting w ## retracting w /\ resting w ## running w /\ retracting w ## running w;
  wo_count : promise_handle_count_ s = Z.of_nat (size (resting w) + size (retracting w) + size (running w));
  wo_bound : (size (resting w) + size (retracting w) + size (running w) <= n)%nat;
  wo_destroyed : scope_was_destroyed_ s = negb (scope_alive w);
  wo_counter : counter_ok w s l;
  wo_self : selfs (doomed w) = if should_delete_self s then 1%nat else 0%nat;
}.

(** The invariant after [n] events. *)
Definition winv (n : nat) (w : scope_world) : Prop :=
  match state_ (mem w) with
  | Some s => exists l ls, wok n w s l ls
  | None => scope_alive w = false /\ valid_handles w = ∅ /\ selfs (doomed w) = 0%nat /\ exists ls, heap_ok (holders (mem w)) None [] (doomed w) ls
  end.

Lemma scope_new_winv : winv 0 scope_new.
Proof.
  exists [], []. split; cbn; try done.
  - split; cbn; try done; [constructor|]. intros h. rewrite dom_empty. set_solver.
  - intros h. unfold valid_handles; cbn. set_solver.
  - left. split; [done|]. split; [done|]. split; [done|]. cbn. set_solver.
Qed.
