(* ===== verification/ScopeSteps.v ===== *)
(** * Scopes: the steps

    Each step of a thread keeps the invariant, if no exit falls between the two steps of a
    failed acquisition or while a promise runs. *)

From stdpp Require Import gmap sets.
From S2P Require Import Prelude Scope ScopeInv.

Definition scope_step_ok (n : nat) (o : scope_outcome) : Prop :=
  match o with SDisabled => True | SCrash => False | SNext w => winv (S n) w end.

Lemma in_scope_ok {A} n w (f : MM A) k : wp f (mem w) (fun a m => winv (S n) (k a m)) -> scope_step_ok n (in_scope w f k).
Proof. intros (a & m & E & H). unfold in_scope. unfold runs in E. by rewrite E. Qed.

Lemma winv_Some n w s l ls : state_ (mem w) = Some s -> wok n w s l ls -> winv n w.
Proof. intros E H. unfold winv. rewrite E. by exists l, ls. Qed.

(** ** Sizes of sets *)

Lemma size_add (h : Z) (X : gset Z) : h ∉ X -> size ({[h]} ∪ X) = S (size X).
Proof. intros H. rewrite size_union by set_solver. by rewrite size_singleton. Qed.
Lemma size_remove (h : Z) (X : gset Z) : h ∈ X -> S (size (X ∖ {[h]})) = size X.
Proof. intros H. rewrite size_difference by set_solver. rewrite size_singleton. assert (size X <> 0%nat) by (intros E%size_empty_inv; set_solver). lia. Qed.

#[local] Arguments selfs : simpl never.
#[local] Arguments should_delete_self : simpl never.
#[local] Arguments size : simpl never.

Section Steps.
Context (n : nat) (w : scope_world) (s : scope_state) (l : list Z) (ls : list (list Z)).
Context (Es : state_ (mem w) = Some s) (W : wok n w s l ls) (Hn : Z.of_nat n < 2 ^ 62).

Lemma mem_eq : mem w = {| state_ := Some s; holders := holders (mem w) |}.
Proof. rewrite <- Es. by destruct (mem w). Qed.

Lemma sizes : Z.of_nat (size (resting w) + size (retracting w) + size (running w)) < 2 ^ 62.
Proof. assert (H := wo_bound _ _ _ _ _ W). lia. Qed.

(** The two cases of the counter, as the code sees them. *)
Lemma counter_cases :
  (exited s = false /\ acquired_promise_count_ s = Z.of_nat (size (running w)) /\ retracting w = ∅ /\ scope_alive w = true /\ forall h, h ∈ l <-> h ∈ resting w ∪ running w) \/
  (exited s = true /\ acquired_promise_count_ s = scope_exited + Z.of_nat (size (retracting w)) /\ running w = ∅ /\ l = []).
Proof.
  assert (H := sizes). destruct (wo_counter _ _ _ _ _ W) as [(E & H1)|(E & H1)]; [left|right]; split; try done; unfold exited; rewrite E.
  - apply top_bit_low. lia.
  - apply top_bit_high. unfold scope_exited. lia.
Qed.

Lemma fetch_add_ok k (Q : Z -> scope_mem -> Prop) : fits 64 (acquired_promise_count_ s + k) ->
  Q (acquired_promise_count_ s) {| state_ := Some (with_acquired (acquired_promise_count_ s + k) s); holders := holders (mem w) |} -> wp (fetch_add k) (mem w) Q.
Proof.
  intros Hf H. apply wp_bind, (wp_get_state s); [done|]. apply wp_bind, wp_modify, wp_ret. by rewrite wrap_small.
Qed.

Lemma try_acquire_step h : scope_step_ok n (exec_scope (TryAcquire h) w).
Proof.
  simpl. case_bool_decide as Hh; [|done]. apply in_scope_ok. assert (Hs := sizes).
  destruct W as [Hheap Hfresh (D1 & D2 & D3) Hcount Hbound Hdes _ Hself]. assert (Hr := size_remove _ _ Hh).
  assert (Hs1 : size ({[h]} ∪ running w) = S (size (running w))) by (apply size_add; set_solver).
  assert (Hs2 : size ({[h]} ∪ retracting w) = S (size (retracting w))) by (apply size_add; set_solver).
  destruct counter_cases as [(Ex & Ea & Er & Eal & El)|(Ex & Ea & Er & El)]; unfold exited in Ex; apply fetch_add_ok.
  1, 3: rewrite Ea; unfold fits, scope_exited; lia.
  - rewrite Ex. eapply winv_Some; [done|]. split; cbn; [done| | |lia|lia|done| |done].
    + intros j Hj. apply Hfresh. destruct Hj as [?|Hj]; [by left|right]. unfold valid_handles in *; cbn in *. clear -Hj Hh. set_solver.
    + clear -D1 D2 D3 Hh. set_solver.
    + left. cbn. split_and!; [lia|done|done|]. intros j. rewrite El. clear -Hh. destruct (decide (j = h)); set_solver.
  - rewrite Ex. eapply winv_Some; [done|]. split; cbn; [done| | |lia|lia|done| |done].
    + intros j Hj. apply Hfresh. destruct Hj as [?|Hj]; [by left|right]. unfold valid_handles in *; cbn in *. clear -Hj Hh. set_solver.
    + clear -D1 D2 D3 Hh. set_solver.
    + right. cbn. split_and!; [lia|done|done].
Qed.

Lemma retract_step h : scope_step_ok n (exec_scope (Retract h) w).
Proof.
  simpl. case_bool_decide as Hh; [|done]. apply in_scope_ok. assert (Hs := sizes).
  destruct W as [Hheap Hfresh (D1 & D2 & D3) Hcount Hbound Hdes _ Hself]. assert (Hr := size_remove _ _ Hh).
  assert (Hs1 : size ({[h]} ∪ resting w) = S (size (resting w))) by (apply size_add; set_solver).
  destruct counter_cases as [(Ex & Ea & Er & _)|(Ex & Ea & Er & El)]; [rewrite Er in Hh; set_solver|].
  apply fetch_add_ok; [rewrite Ea; unfold fits, scope_exited; lia|]. eapply winv_Some; [done|]. split; cbn; [done| | |lia|lia|done| |done].
  - intros j Hj. apply Hfresh. destruct Hj as [?|Hj]; [by left|right]. unfold valid_handles in *; cbn in *. clear -Hj Hh. set_solver.
  - clear -D1 D2 D3 Hh. set_solver.
  - right. cbn. split_and!; [lia|done|done].
Qed.

Lemma running_holder h : h ∈ running w -> h ∈ dom (holders (mem w)) /\ exited s = false.
Proof.
  intros Hh. destruct counter_cases as [(Ex & _ & _ & _ & El)|(_ & _ & Er & _)]; [|rewrite Er in Hh; set_solver]. split; [|done].
  apply (ho_dom _ _ _ _ _ (wo_heap _ _ _ _ _ W)), elem_of_app. left. apply El. set_solver.
Qed.

Lemma release_step h : scope_step_ok n (exec_scope (ReleasePromise h) w).
Proof.
  simpl. case_bool_decide as Hh; [|done]. apply in_scope_ok. assert (Hs := sizes). destruct (running_holder h Hh) as [[x Hx]%elem_of_dom Ex'].
  apply wp_bind, (wp_get_holder _ x); [done|].
  destruct W as [Hheap Hfresh (D1 & D2 & D3) Hcount Hbound Hdes _ Hself]. assert (Hr := size_remove _ _ Hh).
  assert (Hs1 : size ({[h]} ∪ resting w) = S (size (resting w))) by (apply size_add; set_solver).
  destruct counter_cases as [(Ex & Ea & Er & Eal & El)|(Ex & _)]; [|congruence].
  apply fetch_add_ok; [rewrite Ea; unfold fits, scope_exited; lia|]. eapply winv_Some; [done|]. split; cbn; [done| | |lia|lia|done| |done].
  - intros j Hj. apply Hfresh. destruct Hj as [?|Hj]; [by left|right]. unfold valid_handles in *; cbn in *. clear -Hj Hh. set_solver.
  - clear -D1 D2 D3 Hh. set_solver.
  - left. cbn. split_and!; [lia|done|done|]. intros j. rewrite El. clear -Hh. destruct (decide (j = h)); set_solver.
Qed.

(** Dropping a handle after the scope was exited. *)
Lemma drop_exited_step h : h ∈ resting w -> exited s = true -> scope_step_ok n (exec_scope (Drop h) w).
Proof.
  intros Hh Ex. simpl. rewrite bool_decide_eq_true_2 by done. apply in_scope_ok. assert (Hs := sizes). assert (Hc := counter_cases).
  destruct W as [Hheap Hfresh (D1 & D2 & D3) Hcount Hbound Hdes _ Hself]. assert (Hr := size_remove _ _ Hh).
  apply wp_bind, (wp_get_state s); [done|]. apply wp_bind, wp_assert_mem; [lia|]. cbv zeta.
  replace (exited (with_count (promise_handle_count_ s - 1) s)) with (exited s) by done. rewrite Ex. simpl. apply wp_bind, wp_modify, wp_ret.
  destruct Hc as [(Ex' & _)|(_ & Ea & Er & El)]; [congruence|]. set (s' := with_count (promise_handle_count_ s - 1) s).
  assert (Hsd : should_delete_self s = false) by (unfold should_delete_self; rewrite (proj2 (Z.eqb_neq _ _)) by lia; apply andb_false_r).
  rewrite Hsd in Hself. eapply winv_Some; [done|]. apply (Build_wok _ _ _ l (ls ++ if should_delete_self s' then [[]] else [])); cbn.
  - destruct (should_delete_self s'); [|by rewrite !app_nil_r]. destruct Hheap as [H1 H2 H3 H4].
    assert (Ej : mjoin (ls ++ [[]]) = mjoin ls) by (rewrite join_app; simpl; by rewrite app_nil_r).
    split; cbn; [done|by apply Forall2_app; [|repeat constructor]|by rewrite Ej|intros j; rewrite Ej; apply H4].
  - intros j Hj. apply Hfresh. destruct Hj as [?|Hj]; [by left|right]. unfold valid_handles in *; cbn in *. clear -Hj Hh. set_solver.
  - clear -D1 D2 D3 Hh. set_solver.
  - lia.
  - lia.
  - done.
  - right. by split_and!.
  - rewrite selfs_app, Hself. change (should_delete_self _) with (should_delete_self s'). by destruct (should_delete_self s').
Qed.

Lemma list_nodup : NoDup l.
Proof. assert (H := ho_nodup _ _ _ _ _ (wo_heap _ _ _ _ _ W)). by apply NoDup_app in H as (? & _). Qed.

Lemma drop_step h : scope_step_ok n (exec_scope (Drop h) w).
Proof.
  destruct (decide (h ∈ resting w)) as [Hh|Hh]; [|simpl; by rewrite bool_decide_eq_false_2]. assert (Hc := counter_cases).
  destruct (exited s) eqn:Ex; [by apply drop_exited_step|]. destruct Hc as [(_ & Ea & Er & Eal & El)|(? & _)]; [|done].
  simpl. rewrite bool_decide_eq_true_2 by done. apply in_scope_ok. assert (Hs := sizes). assert (Hnd := list_nodup).
  destruct W as [Hheap Hfresh (D1 & D2 & D3) Hcount Hbound Hdes _ Hself]. assert (Hr := size_remove _ _ Hh). rewrite Eal in Hdes. simpl in Hdes.
  apply wp_bind, (wp_get_state s); [done|]. apply wp_bind, wp_assert_mem; [lia|]. cbv zeta.
  replace (exited (with_count (promise_handle_count_ s - 1) s)) with (exited s) by done. rewrite Ex. cbn [negb].
  assert (Hl : h ∈ l) by (apply El; set_solver). apply list_elem_of_split in Hl as (l1 & l2 & ->). destruct Hheap as [H1 H2 H3 H4]. rewrite mem_eq.
  eapply wp_mono; [by apply (unlink_holder_ok (Some s) (with_count (promise_handle_count_ s - 1) s) _ (head_promise_holder_ s) l1 h l2)|].
  intros r m' (-> & hd' & Es' & [C1 C2] & L). assert (P : (l1 ++ h :: l2) ++ mjoin ls ≡ₚ (l1 ++ l2) ++ mjoin (ls ++ [[h]])).
  { rewrite join_app. simpl. solve_Permutation. }
  eapply winv_Some; [exact Es'|]. assert (Hsd : forall n, should_delete_self (with_count n s) = false) by (intros k; unfold should_delete_self; cbn; by rewrite Hdes).
  apply (Build_wok _ _ _ (l1 ++ l2) (ls ++ [[h]])); cbn.
  - split; [done| | |].
    + apply Forall2_app; [|by repeat constructor]. apply (dooms_frame (holders (mem w))); [|done]. intros j Hj. apply C2. intros Hj'.
      apply NoDup_app in H3 as (_ & H3 & _). apply (H3 j); [|done]. clear -Hj'. set_solver.
    + by rewrite <- P.
    + intros j. rewrite C1, H4. by rewrite P.
  - intros j Hj. apply Hfresh. destruct Hj as [Hj|Hj]; [left; by rewrite <- C1|right]. unfold valid_handles in *; cbn in *. clear -Hj Hh. set_solver.
  - clear -D1 D2 D3 Hh. set_solver.
  - lia.
  - lia.
  - by rewrite Eal.
  - left. cbn. split_and!; [done|done|done|]. intros j. assert (Hj := El j). apply NoDup_app in Hnd as (_ & Hx1 & [Hx2 _]%NoDup_cons).
    assert (Hx : h ∉ l1) by (intros Hx; apply (Hx1 h Hx); left). clear -Hj Hx Hx2 Hh D2. destruct (decide (j = h)) as [->|]; set_solver.
  - rewrite selfs_app, Hself. change (should_delete_self s) with (should_delete_self (with_count (promise_handle_count_ s) s)).
    change (should_delete_self (with_head hd' _)) with (should_delete_self (with_count (promise_handle_count_ s - 1) s)). by rewrite !Hsd.
Qed.

Lemma exit_step destroy : (scope_alive w = true -> retracting w = ∅ /\ running w = ∅) -> scope_step_ok n (exec_scope (Exit destroy) w).
Proof.
  intros Hno. simpl. destruct (scope_alive w) eqn:Eal; [|done]. destruct (Hno eq_refl) as [Hre Hru]. apply in_scope_ok.
  assert (Hc := counter_cases). destruct W as [Hheap Hfresh (D1 & D2 & D3) Hcount Hbound Hdes _ Hself]. rewrite Eal in Hdes. simpl in Hdes.
  apply wp_bind, (wp_get_state s); [done|]. apply wp_bind, wp_assert_mem; [by rewrite Hdes|]. cbv zeta. cbn [acquired_promise_count_ with_destroyed].
  assert (Hsd : should_delete_self s = false) by (unfold should_delete_self; by rewrite Hdes). rewrite Hsd in Hself.
  assert (Hempty : Z.of_nat (size (retracting w)) = 0) by (rewrite Hre; by rewrite size_empty).
  destruct Hc as [(Ex & Ea & _ & _ & El)|(Ex & Ea & _ & El)]; unfold exited in Ex; rewrite Ex; cbn [negb].
  - rewrite Hru, size_empty in Ea. apply wp_bind, wp_assert_mem; [by rewrite Ea|]. apply wp_bind, wp_modify, wp_ret.
    eapply winv_Some; [done|]. apply (Build_wok _ _ _ [] (ls ++ [l])); cbn; [| |done|done|lia|by destruct destroy| |].
    + destruct Hheap as [H1 H2 H3 H4]. split; [done| | |].
      * apply Forall2_app; [done|]. by repeat constructor.
      * rewrite join_app. simpl. rewrite app_nil_r. by rewrite (Permutation_app_comm _ l).
      * intros j. rewrite join_app. simpl. rewrite app_nil_r. rewrite H4. by rewrite (Permutation_app_comm _ l).
    + intros j Hj. by apply Hfresh.
    + right. cbn. split_and!; [lia|done|done].
    + rewrite selfs_app, Hself. rewrite selfs_single. done.
  - subst l. apply wp_bind, wp_modify, wp_ret.
    eapply winv_Some; [done|]. apply (Build_wok _ _ _ [] (ls ++ [[]])); cbn; [| |done|done|lia|by destruct destroy| |].
    + destruct Hheap as [H1 H2 H3 H4]. split; [done| | |].
      * apply Forall2_app; [done|]. by repeat constructor.
      * rewrite join_app. simpl. by rewrite app_nil_r.
      * intros j. rewrite join_app. simpl. rewrite app_nil_r. by rewrite H4.
    + intros j Hj. by apply Hfresh.
    + right. cbn. split_and!; [lia|done|done].
    + rewrite selfs_app, Hself. rewrite selfs_single. done.
Qed.

(** An exit while a promise runs fails the assertion on the prior count. *)
Lemma exit_running destroy : scope_alive w = true -> running w <> ∅ -> exec_scope (Exit destroy) w = SCrash.
Proof.
  intros Eal Hru. simpl. rewrite Eal. assert (Hs := sizes). destruct counter_cases as [(Ex & Ea & _)|(_ & _ & Er & _)]; [|done]. assert (Hd := wo_destroyed _ _ _ _ _ W). rewrite Eal in Hd. simpl in Hd.
  unfold in_scope, exit_locked, get_state, mbind, ST_bind. rewrite Es. unfold assert_mem at 1. rewrite Hd. simpl. unfold exited in Ex. rewrite Ex. simpl.
  destruct (Z.eqb_spec (acquired_promise_count_ s) 0) as [E|E]; [|done]. destruct Hru. apply leibniz_equiv, size_empty_iff. lia.
Qed.

Lemma new_address : (next_address w ∉ dom (holders (mem w))) /\ (next_address w ∉ valid_handles w) /\ (next_address w ∉ l ++ mjoin ls).
Proof.
  assert (H := wo_fresh _ _ _ _ _ W (next_address w)). assert (Hd := ho_dom _ _ _ _ _ (wo_heap _ _ _ _ _ W) (next_address w)).
  split_and!; intros Hx; [specialize (H (or_introl Hx))|specialize (H (or_intror Hx))|specialize (H (or_introl (proj2 Hd Hx)))]; lia.
Qed.

Lemma wrap_step : scope_step_ok n (exec_scope Wrap w).
Proof.
  simpl. destruct (scope_alive w) eqn:Eal; [|done]. apply in_scope_ok. set (h := next_address w). destruct new_address as (Hn1 & Hn2 & Hn3). fold h in Hn1, Hn2, Hn3.
  assert (Hc := counter_cases). assert (Hnd := list_nodup). destruct W as [[H1 H2 H3 H4] Hfresh (D1 & D2 & D3) Hcount Hbound Hdes _ Hself].
  assert (Hd1 : should_delete_self s = false) by (unfold should_delete_self; rewrite Hdes, Eal; done). rewrite Eal in Hdes. simpl in Hdes. rewrite Hd1 in Hself.
  set (m1 := <[h := {| next := None; prev := None |}]> (holders (mem w))).
  assert (Hdom : forall j, j ∈ dom m1 <-> j = h \/ j ∈ dom (holders (mem w))) by (intros j; unfold m1; rewrite dom_insert; set_solver).
  assert (Hold : forall j, j ∈ l ++ mjoin ls -> m1 !! j = holders (mem w) !! j) by (intros j Hj; apply lookup_insert_ne; by intros <-).
  assert (Hm1 : linked m1 None (head_promise_holder_ s) l None) by (apply (linked_frame (holders (mem w))); [|done]; intros j Hj; apply Hold, elem_of_app; by left).
  assert (Hf1 : Forall2 (doom_holders m1) (doomed w) ls) by (apply (dooms_frame (holders (mem w))); [|done]; intros j Hj; apply Hold, elem_of_app; by right).
  apply wp_bind, wp_modify. fold m1. apply wp_bind, (wp_get_state s); [done|]. apply wp_bind, wp_assert_mem; [by rewrite Hdes|].
  destruct Hc as [(Ex & Ea & Er & _ & El)|(Ex & Ea & Er & El)]; rewrite Ex; cbn [negb].
  - apply wp_bind. rewrite Es. rewrite not_elem_of_app in Hn3. destruct Hn3 as [Hnl Hnj]. eapply wp_mono; [apply (link_ok (Some s) m1 _ l h); [by constructor|apply lookup_insert_eq|done]|].
    intros [] m' (Es' & [C1 C2] & L). destruct m' as [st' m']. simpl in *. apply wp_bind, wp_modify, wp_ret.
    assert (Hs1 : size ({[h]} ∪ resting w) = S (size (resting w))) by (apply size_add; intros ?; apply Hn2; unfold valid_handles; set_solver).
    eapply winv_Some; [done|]. apply (Build_wok _ _ _ (h :: l) ls); cbn.
    + split; [done| | |].
      * apply (dooms_frame m1); [|done]. intros j Hj. apply C2. intros [->|Hj']%elem_of_cons; [done|]. apply NoDup_app in H3 as (_ & H3 & _). by apply (H3 j).
      * constructor; [|done]. rewrite elem_of_app. by intros [?|?].
      * intros j. rewrite C1, Hdom, H4. change ((h :: l) ++ mjoin ls) with (h :: (l ++ mjoin ls)). by rewrite elem_of_cons.
    + intros j Hj. destruct Hj as [Hj|Hj]; [rewrite C1, Hdom in Hj|unfold valid_handles in Hj; cbn in Hj].
      * destruct Hj as [->|Hj]; [unfold h; lia|]. specialize (Hfresh j (or_introl Hj)). unfold h. lia.
      * destruct (decide (j = h)) as [->|Hne]; [unfold h; lia|]. specialize (Hfresh j). unfold valid_handles in Hfresh. unfold h in *. assert (j < next_address w); [|lia].
        apply Hfresh. right. clear -Hj Hne. set_solver.
    + unfold valid_handles in Hn2. clear -D1 D2 D3 Hn2. set_solver.
    + rewrite wrap_small; [lia|]. unfold fits. lia.
    + lia.
    + done.
    + left. cbn. split_and!; [done|done|done|]. intros j. rewrite elem_of_cons, El. clear. set_solver.
    + change (should_delete_self _) with (should_delete_self (with_count (promise_handle_count_ s ⊕[64] 1) s)). rewrite Hself. unfold should_delete_self. cbn. by rewrite Hdes.
  - apply wp_ret. subst l. eapply winv_Some; [done|]. apply (Build_wok _ _ _ [] (ls ++ [[h]])); cbn; [| |done|done|lia|done| |].
    + split; [done| | |].
      * apply Forall2_app; [done|]. by repeat constructor.
      * rewrite join_app. simpl. rewrite (Permutation_app_comm _ [h]). simpl. by constructor.
      * intros j. fold m1. rewrite Hdom, H4, join_app. simpl. rewrite elem_of_app, list_elem_of_singleton. tauto.
    + intros j Hj. fold m1 in Hj. rewrite Hdom in Hj. destruct (decide (j = h)) as [->|Hne]; [unfold h; lia|].
      assert (j < next_address w); [|unfold h; lia]. apply Hfresh. destruct Hj as [[?|?]|?]; [done|by left|by right].
    + right. by split_and!.
    + rewrite selfs_app, Hself, selfs_single, Hd1. done.
Qed.
End Steps.

(** ** Deletions *)

(** The part of [delete_doomed] before the state. *)
Lemma delete_doomed_split d m Q :
  wp (match d with Release hd _ => n ← gets (fun m => size (holders m)); release_all n hd | DoomedPromise h => delete_holder h | DoomedState => mret tt end) m
    (fun _ m' => wp (if self d then delete_state else mret tt) m' Q) -> wp (delete_doomed d) m Q.
Proof.
  intros H. destruct d as [hd b|h|]; simpl in *.
  - apply wp_bind_inv in H. apply wp_bind. eapply wp_mono; [exact H|]. intros k m1 H1. by apply wp_bind.
  - eapply wp_mono; [exact H|]. intros [] m1 (a & m2 & E & HQ). unfold runs in E. injection E as <- <-. done.
  - destruct H as (a & m2 & E & H). unfold runs in E. injection E as <- <-. done.
Qed.

Lemma delete_step n w i : winv n w -> Z.of_nat n < 2 ^ 62 -> scope_step_ok n (exec_scope (Delete i) w).
Proof.
  intros I Hn. simpl. destruct (doomed w !! i) as [d|] eqn:Ed; [|done]. apply in_scope_ok, delete_doomed_split. assert (Hd := selfs_delete _ _ _ Ed).
  unfold winv in I. destruct (state_ (mem w)) as [s|] eqn:Es.
  - destruct I as (l & ls & W). rewrite (mem_eq w s Es). assert (Hc := counter_cases n w s l ls W Hn).
    eapply wp_mono; [apply (delete_doomed_ok _ _ _ _ _ _ i d (wo_heap _ _ _ _ _ W) Ed)|]. intros [] m' (Es' & Ho & Hsub).
    destruct W as [Hheap Hfresh D Hcount Hbound Hdes Hct Hself]. destruct (self d) eqn:Esd.
    + destruct (should_delete_self s) eqn:Esds; [|lia]. unfold should_delete_self in Esds. apply andb_true_iff in Esds as [Ew Ez%Z.eqb_eq].
      rewrite Ew in Hdes. destruct Hc as [(_ & _ & _ & Eal & _)|(Ex & Ea & Er & ->)]; [by rewrite Eal in Hdes|].
      assert (Hs : size (resting w) = 0%nat /\ size (retracting w) = 0%nat) by lia. destruct Hs as [Hs1 Hs2].
      rewrite Hs2 in Ea. apply size_empty_inv in Hs1, Hs2. assert (Hhd := linked_head _ _ _ _ _ (ho_linked _ _ _ _ _ Ho)).
      apply wp_bind, (wp_get_state s); [done|]. apply wp_bind, wp_assert_mem; [rewrite Ea; apply Z.eqb_eq; lia|]. apply wp_bind, wp_assert_mem; [done|].
      apply wp_bind, wp_assert_mem; [by rewrite Ez|]. apply wp_bind, wp_assert_mem; [by apply bool_decide_eq_true_2|]. apply wp_modify.
      unfold winv; cbn. split; [by destruct (scope_alive w)|]. split; [unfold valid_handles; cbn; clear -Hs1 Hs2 Er; set_solver|]. split; [lia|].
      exists (delete i ls). by rewrite Hhd in Ho.
    + apply wp_ret. eapply winv_Some; [done|]. apply (Build_wok _ _ _ l (delete i ls)); cbn; try done; [|lia|by rewrite <- Hself, Hd].
      intros j [Hj|Hj]; apply Hfresh; [left; by apply Hsub|by right].
  - destruct I as (Ha & Hv & Hz & ls & Ho). assert (Em : mem w = {| state_ := None; holders := holders (mem w) |}) by (rewrite <- Es; by destruct (mem w)). rewrite Em.
    eapply wp_mono; [apply (delete_doomed_ok _ _ _ _ _ _ i d Ho Ed)|]. intros [] m' (Es' & Ho' & Hsub). destruct (self d); [lia|].
    apply wp_ret. unfold winv; cbn. rewrite Es'. split_and!; [done|done|lia|by exists (delete i ls)].
Qed.

(** ** Every step *)

(** The scope is exited between the two steps of a failed acquisition, or while a promise runs. *)
Definition racy (e : scope_event) (w : scope_world) : Prop :=
  (exists destroy, e = Exit destroy) /\ scope_alive w = true /\ (retracting w <> ∅ \/ running w <> ∅).

Lemma scope_step n w e : winv n w -> Z.of_nat n < 2 ^ 62 -> ~ racy e w -> scope_step_ok n (exec_scope e w).
Proof.
  intros I Hn Hr. assert (I' := I). unfold winv in I'. destruct (state_ (mem w)) as [s|] eqn:Es.
  - destruct I' as (l & ls & W). destruct e as [|b|h|h|h|h|i].
    + by apply (wrap_step n w s l ls).
    + apply (exit_step n w s l ls); try done. intros Ha. unfold racy in Hr. destruct (decide (retracting w = ∅)) as [E1|E1]; [|destruct Hr; eauto]. destruct (decide (running w = ∅)) as [E2|E2]; [done|destruct Hr; eauto].
    + by apply (try_acquire_step n w s l ls).
    + by apply (retract_step n w s l ls).
    + by apply (release_step n w s l ls).
    + by apply (drop_step n w s l ls).
    + by apply delete_step.
  - destruct I' as (Ha & Hv & _). unfold valid_handles in Hv.
    assert (Hnone : (forall h, h ∉ resting w) /\ (forall h, h ∉ retracting w) /\ forall h, h ∉ running w) by (split_and!; intros h Hh; clear -Hv Hh; set_solver).
    destruct Hnone as (N1 & N2 & N3). destruct e as [|b|h|h|h|h|i]; [..|by apply delete_step]; simpl; rewrite ?Ha; try done; by rewrite bool_decide_eq_false_2.
Qed.
