(* ===== verification/ScopeTheorems.v ===== *)
(** * Scopes: properties

    What holds after any sequence of steps of the threads, with concrete runs. *)

From stdpp Require Import gmap sets.
From S2P Require Import Prelude Scope ScopeInv ScopeSteps.

(** ** Sequences of steps *)

#[export] Instance racy_dec e w : Decision (racy e w).
Proof.
  destruct e as [|b|h|h|h|h|i]; try (right; by intros [[? [=]] _]). destruct (decide (scope_alive w = true /\ (retracting w <> ∅ \/ running w <> ∅))) as [E|E]; [left; by split; [exists b|]|right; by intros [_ H]].
Defined.

(** No exit falls between the two steps of a failed acquisition, and none while a promise
    runs. *)
Fixpoint race_free (es : list scope_event) (w : scope_world) : bool :=
  match es with
  | [] => true
  | e :: es => negb (bool_decide (racy e w)) && match exec_scope e w with SNext w => race_free es w | _ => true end
  end.

Lemma race_free_ok es : forall n w, winv n w -> Z.of_nat (n + length es) <= 2 ^ 62 -> race_free es w = true ->
  match exec_scopes es w with SDisabled => True | SCrash => False | SNext w' => winv (n + length es) w' end.
Proof.
  induction es as [|e es IH]; intros n w I Hn Hr; simpl in *; [by rewrite Nat.add_0_r|].
  apply andb_true_iff in Hr as [Hr1 Hr2]. apply negb_true_iff, bool_decide_eq_false in Hr1. assert (H := scope_step n w e I ltac:(lia) Hr1).
  destruct (exec_scope e w) as [| |w']; try done. rewrite Nat.add_succ_r. apply (IH (S n) w'); [done|lia|done].
Qed.

(** A sequence that is not free of races has one. *)
Lemma race_found es : forall w, race_free es w = false ->
  exists es1 destroy es2 w', es = es1 ++ Exit destroy :: es2 /\ race_free es1 w = true /\ exec_scopes es1 w = SNext w' /\ scope_alive w' = true /\ (retracting w' <> ∅ \/ running w' <> ∅).
Proof.
  induction es as [|e es IH]; intros w Hr; simpl in Hr; [done|]. destruct (bool_decide (racy e w)) eqn:Eb; simpl in Hr.
  - apply bool_decide_eq_true in Eb. destruct Eb as [[destroy ->] Hb]. by exists [], destroy, es, w.
  - destruct (exec_scope e w) as [| |w1] eqn:E; try done. destruct (IH w1 Hr) as (es1 & destroy & es2 & w' & -> & E' & H).
    exists (e :: es1), destroy, es2, w'. simpl. by rewrite E, Eb.
Qed.

(** What happens at such an exit. *)
Lemma exit_outcome n w destroy : winv n w -> Z.of_nat n < 2 ^ 62 -> scope_alive w = true -> retracting w <> ∅ \/ running w <> ∅ ->
  running w <> ∅ /\ retracting w = ∅ /\ exec_scope (Exit destroy) w = SCrash \/ running w = ∅ /\ retracting w <> ∅.
Proof.
  intros I Hn Ha Hr. unfold winv in I. destruct (state_ (mem w)) as [s|] eqn:Es; [|by rewrite (proj1 I) in Ha]. destruct I as (l & ls & W).
  destruct (counter_cases _ _ _ _ _ W Hn) as [(_ & _ & E & _)|(_ & _ & E & _)]; [left|right; by destruct Hr].
  destruct Hr as [?|Hr]; [done|]. split_and!; [done..|]. by apply (exit_running n w s l ls).
Qed.

(** ** Concrete runs *)

(** Three promises are wrapped, one runs and is dropped, and the scope is exited, then
    destroyed. *)
Definition scope_example : list scope_event :=
  [Wrap; Wrap; Wrap; TryAcquire 2; ReleasePromise 2; Drop 2; Delete 0; Exit false; TryAcquire 1; Retract 1; Delete 0; Exit true; Delete 0; Drop 1; Drop 3; Delete 0].

(** The scope is destroyed between the two steps of a call of a wrapped promise. *)
Definition scope_race : list scope_event := [Wrap; Exit false; Delete 0; TryAcquire 1; Exit true; Retract 1; Drop 1].

Definition scope_after (es : list scope_event) : scope_world := match exec_scopes es scope_new with SNext w => w | _ => scope_new end.

(** ** Properties *)

(** C29.  In any sequence of fewer than 2^62 steps of the threads no assertion of the scope fails
    and nothing that was deleted is used or deleted again, with two exceptions, and the first
    exit that is one of them is exhibited.  Either the scope is exited or destroyed while one
    of its promises runs: then the assertion on the prior count fails at that very exit, always
    and before anything is deleted.  Or the scope, exited before, is exited again, as its
    destructor does, between the two steps of a call of a wrapped promise that found it
    exited; what goes wrong then goes wrong at a later step. *)
Theorem scope_safe es : Z.of_nat (length es) < 2 ^ 62 ->
  (exec_scopes es scope_new = SCrash ->
    exists es1 destroy es2 w, es = es1 ++ Exit destroy :: es2 /\ race_free es1 scope_new = true /\ exec_scopes es1 scope_new = SNext w /\
      (running w <> ∅ /\ retracting w = ∅ /\ exec_scope (Exit destroy) w = SCrash \/ running w = ∅ /\ retracting w <> ∅)) /\
  (forall w destroy, race_free es scope_new = true -> exec_scopes es scope_new = SNext w -> scope_alive w = true -> running w <> ∅ ->
    exec_scope (Exit destroy) w = SCrash).
Proof.
  intros Hn. assert (Hrun : forall es w, Z.of_nat (length es) < 2 ^ 62 -> race_free es scope_new = true -> exec_scopes es scope_new = SNext w -> winv (length es) w).
  { intros es' w Hn' Er E. assert (H := race_free_ok es' 0 scope_new scope_new_winv ltac:(simpl; lia) Er). by rewrite E in H. }
  split.
  - intros E. destruct (race_free es scope_new) eqn:Er.
    + assert (H := race_free_ok es 0 scope_new scope_new_winv ltac:(simpl; lia) Er). by rewrite E in H.
    + destruct (race_found _ _ Er) as (es1 & destroy & es2 & w & -> & Er1 & E1 & Ha & Hr). exists es1, destroy, es2, w. split_and!; [done..|].
      rewrite length_app in Hn. by apply (exit_outcome (length es1)); [apply Hrun; [lia|..]|lia|..].
  - intros w destroy Er E Ha Hru. destruct (exit_outcome _ w destroy (Hrun _ _ Hn Er E) Hn Ha (or_intror Hru)) as [(_ & _ & H)|[H _]]; [done|by destruct Hru].
Qed.

Lemma scope_safe_witness :
  (exists es1 destroy es2 w, scope_race = es1 ++ Exit destroy :: es2 /\ race_free es1 scope_new = true /\ exec_scopes es1 scope_new = SNext w /\
     (running w <> ∅ /\ retracting w = ∅ /\ exec_scope (Exit destroy) w = SCrash \/ running w = ∅ /\ retracting w <> ∅)) /\
  exec_scope (Exit true) (scope_after [Wrap; TryAcquire 1]) = SCrash.
Proof.
  split; [apply (scope_safe scope_race); [simpl; lia|by vm_compute]|]. apply (scope_safe [Wrap; TryAcquire 1]); [simpl; lia|by vm_compute..|].
  intros E. assert (H : bool_decide (running (scope_after [Wrap; TryAcquire 1]) = ∅) = false) by by vm_compute. by rewrite bool_decide_eq_true_2 in H.
Defined.

(** Without such a race: a promise that runs exists, and its scope is neither exited nor
    deleted; once every thread has deleted what it had to, the promises that exist are those
    of the valid handles, none after the scope was exited, and the state exists until the
    scope is destroyed and no valid handle is left. *)
Theorem scope_lifetime es w : Z.of_nat (length es) < 2 ^ 62 -> race_free es scope_new = true -> exec_scopes es scope_new = SNext w ->
  (forall h, h ∈ running w -> h ∈ dom (holders (mem w)) /\ exists s, state_ (mem w) = Some s /\ exited s = false) /\
  (doomed w = [] ->
    (state_ (mem w) = None <-> scope_alive w = false /\ valid_handles w = ∅) /\
    dom (holders (mem w)) = match state_ (mem w) with Some s => if exited s then ∅ else valid_handles w | None => ∅ end).
Proof.
  intros Hn Er E. assert (I := race_free_ok es 0 scope_new scope_new_winv ltac:(simpl; lia) Er). rewrite E in I. simpl in I. unfold winv in I.
  destruct (state_ (mem w)) as [s|] eqn:Es.
  - destruct I as (l & ls & W). split; [intros h Hh; destruct (running_holder _ _ _ _ _ Es W Hn h Hh); eauto|]. intros Hd.
    assert (Ho := ho_doomed _ _ _ _ _ (wo_heap _ _ _ _ _ W)). rewrite Hd in Ho. apply Forall2_nil_inv_l in Ho as ->.
    assert (Hdom : forall h, h ∈ dom (holders (mem w)) <-> h ∈ l) by (intros h; rewrite (ho_dom _ _ _ _ _ (wo_heap _ _ _ _ _ W)); simpl; by rewrite app_nil_r).
    split.
    + split; [done|]. intros [Ha Hv]. exfalso. assert (Hs := wo_self _ _ _ _ _ W). rewrite Hd in Hs. unfold should_delete_self in Hs.
      rewrite (wo_destroyed _ _ _ _ _ W), Ha, (wo_count _ _ _ _ _ W) in Hs.
      assert (Hz : size (resting w) = 0%nat /\ size (retracting w) = 0%nat /\ size (running w) = 0%nat) by (rewrite !size_empty_iff; unfold valid_handles in Hv; clear -Hv; set_solver).
      destruct Hz as (Z1 & Z2 & Z3). by rewrite Z1, Z2, Z3 in Hs.
    + apply set_eq. intros h. rewrite Hdom. destruct (counter_cases _ _ _ _ _ W Hn) as [(-> & _ & Hr & _ & Hl)|(-> & _ & _ & ->)].
      * rewrite Hl. unfold valid_handles. clear -Hr. set_solver.
      * clear. set_solver.
  - destruct I as (Ha & Hv & _ & ls & Ho). split; [intros h Hh; unfold valid_handles in Hv; clear -Hv Hh; set_solver|]. intros Hd.
    destruct Ho as [_ Hf _ Hdom]. rewrite Hd in Hf. apply Forall2_nil_inv_l in Hf as ->. split; [done|]. apply set_eq. intros h. rewrite Hdom. clear. set_solver.
Qed.

Lemma scope_lifetime_witness :
  (forall h, h ∈ running (scope_after scope_example) -> h ∈ dom (holders (mem (scope_after scope_example))) /\
     exists s, state_ (mem (scope_after scope_example)) = Some s /\ exited s = false) /\
  state_ (mem (scope_after scope_example)) = None /\ dom (holders (mem (scope_after (take 7 scope_example)))) = {[1; 3]}.
Proof.
  split_and!.
  - apply (scope_lifetime scope_example (scope_after scope_example)); [simpl; lia|by vm_compute..].
  - apply (scope_lifetime scope_example (scope_after scope_example)); [simpl; lia|by vm_compute|by vm_compute|by vm_compute|split; by vm_compute].
  - rewrite (proj2 (proj2 (scope_lifetime (take 7 scope_example) (scope_after (take 7 scope_example)) ltac:(simpl; lia) ltac:(by vm_compute) ltac:(by vm_compute)) ltac:(by vm_compute))).
    by vm_compute.
Defined.
