(* ===== verification/Bridge.v ===== *)
(** * Bridges of fit-promise

    Models bridge_state of src/fit-promise/include/lib/fpromise/bridge_internal.h with the
    completer and the consumer of bridge.h: one thread completes or abandons, another awaits
    or cancels, and the last one to drop its reference deletes the state.  A locked region is
    one step; so are the notification and the drop of a reference that follow it.  A suspended
    task is known by a number. *)

From S2P Require Import Prelude.

(** ** State *)

Inductive promise_result := pending_result | ok (v : Z) | error (e : Z).
Definition is_pending (r : promise_result) : bool := match r with pending_result => true | _ => false end.

Inductive disposition := pending | abandoned | completed | canceled | returned.

#[export] Instance disposition_eq_dec : EqDecision disposition.
Proof. solve_decision. Defined.

Record bridge_state := { ref_count_ : Z; disposition_ : disposition; waiting_ : option Z; result_ : promise_result }.

Definition bridge_new : bridge_state := {| ref_count_ := 2; disposition_ := pending; waiting_ := None; result_ := pending_result |}.

(** The state, until it is deleted. *)
Abbreviation BM := (ST (option bridge_state)).

Definition get_bridge : BM bridge_state := fun m => match m with Some s => Some (s, m) | None => None end.
Definition put_bridge (s : bridge_state) : BM unit := modify (fun _ => Some s).
Definition assert_bridge (b : bool) : BM unit := if b then mret tt else undefined.
Definition among (d : disposition) (l : list disposition) : bool := existsb (fun x => bool_decide (d = x)) l.

(** ** Operations *)

Definition was_canceled : BM bool := s ← get_bridge; mret (among (disposition_ s) [canceled]).
Definition was_abandoned : BM bool := s ← get_bridge; mret (among (disposition_ s) [abandoned]).

(** The task to notify, and whether to resume it. *)
Definition drop_completion_locked : BM (option Z * bool) :=
  s ← get_bridge;
  assert_bridge (among (disposition_ s) [pending; canceled]) ;;
  if among (disposition_ s) [pending] then
    put_bridge {| ref_count_ := ref_count_ s; disposition_ := abandoned; waiting_ := None; result_ := result_ s |} ;;
    mret (waiting_ s, negb (is_pending (result_ s)))
  else mret (None, false).

(** The task to drop. *)
Definition drop_consumption_locked : BM (option Z) :=
  s ← get_bridge;
  assert_bridge (among (disposition_ s) [pending; completed; abandoned]) ;;
  if among (disposition_ s) [pending] then
    put_bridge {| ref_count_ := ref_count_ s; disposition_ := canceled; waiting_ := None; result_ := pending_result |} ;;
    mret (waiting_ s)
  else mret None.

Definition drop_ref_and_maybe_delete_self : BM unit :=
  s ← get_bridge;
  let count := ref_count_ s in
  put_bridge {| ref_count_ := count ⊖[32] 1; disposition_ := disposition_ s; waiting_ := waiting_ s; result_ := result_ s |} ;;
  assert_bridge (0 <? count) ;;
  if count =? 1 then modify (fun _ => None) else mret tt.

(** The locked part of complete_or_abandon, for a result that is not pending. *)
Definition complete_locked (result : promise_result) : BM (option Z * bool) :=
  s ← get_bridge;
  assert_bridge (among (disposition_ s) [pending; canceled]) ;;
  if among (disposition_ s) [pending] then
    put_bridge {| ref_count_ := ref_count_ s; disposition_ := completed; waiting_ := None; result_ := result |} ;;
    mret (waiting_ s, negb (is_pending result))
  else mret (None, false).

Definition set_result_if_abandoned (result_if_abandoned : promise_result) : BM unit :=
  if is_pending result_if_abandoned then mret tt
  else
    s ← get_bridge;
    assert_bridge (among (disposition_ s) [pending; completed; abandoned]) ;;
    if among (disposition_ s) [pending; abandoned]
    then put_bridge {| ref_count_ := ref_count_ s; disposition_ := disposition_ s; waiting_ := waiting_ s; result_ := result_if_abandoned |}
    else mret tt.

(** The locked part of await_result; [task] is what suspending the caller gives.  The result,
    unless it is to wait, and the task to drop. *)
Definition await_locked (task : Z) : BM (option promise_result * option Z) :=
  s ← get_bridge;
  assert_bridge (among (disposition_ s) [pending; completed; abandoned]) ;;
  if among (disposition_ s) [pending] then
    put_bridge {| ref_count_ := ref_count_ s; disposition_ := disposition_ s; waiting_ := Some task; result_ := result_ s |} ;;
    mret (None, waiting_ s)
  else
    put_bridge {| ref_count_ := ref_count_ s; disposition_ := returned; waiting_ := waiting_ s; result_ := pending_result |} ;;
    mret (Some (result_ s), None).

(** ** The threads *)

(** The completer has its reference, is about to notify, is about to drop the reference, or
    is done. *)
Inductive completer_side := HasCompleter | Notifying (task : option Z) (resume : bool) | CompleterDropping | CompleterDone.

(** The consumer has its reference, or a continuation has it and was last suspended with a
    task, or it is about to drop the reference, with a result to return or not.  A
    continuation that returned a pending result after that exists without its reference. *)
Inductive consumer_side := HasConsumer | Continuation (suspended : option Z) | ConsumerDropping (r : option promise_result) | Spent | ConsumerDone.

(** [resumed] and [released] are the tasks that were resumed and dropped, [given] is what the
    completer gave (pending when it abandoned) and [fallback] the result for that case. *)
Record bridge_world := {
  bstate : option bridge_state;
  completer : completer_side;
  consumer : consumer_side;
  resumed : list Z;
  released : list Z;
  given : option promise_result;
  fallback : promise_result;
  delivered : list promise_result;
}.

Definition bridge_world_new : bridge_world :=
  {| bstate := Some bridge_new; completer := HasCompleter; consumer := HasConsumer; resumed := []; released := []; given := None; fallback := pending_result; delivered := [] |}.

Inductive bridge_event :=
| Complete (r : promise_result)   (* complete_ok, complete_error, complete_or_abandon; pending abandons *)
| NotifyTask
| DropCompletion
| Promise                 (* consumer::promise *)
| PromiseOr (r : promise_result)  (* consumer::promise_or *)
| Await (task : Z)        (* the continuation is called *)
| Cancel                  (* the consumer or the continuation is destroyed *)
| DropConsumption.

Inductive bridge_outcome := BDisabled | BCrash | BNext (w : bridge_world).

Definition in_bridge {A} (w : bridge_world) (f : BM A) (k : A -> option bridge_state -> bridge_world) : bridge_outcome :=
  match f (bstate w) with Some (a, m) => BNext (k a m) | None => BCrash end.

Definition task_list (t : option Z) : list Z := match t with Some t => [t] | None => [] end.

Definition exec_bridge (e : bridge_event) (w : bridge_world) : bridge_outcome :=
  match e with
  | Complete r =>
      match completer w with
      | HasCompleter => in_bridge w (if is_pending r then drop_completion_locked else complete_locked r) (fun n m =>
          {| bstate := m; completer := Notifying n.1 n.2; consumer := consumer w; resumed := resumed w; released := released w;
             given := Some r; fallback := fallback w; delivered := delivered w |})
      | _ => BDisabled
      end
  | NotifyTask =>
      match completer w with
      | Notifying task resume => BNext
          {| bstate := bstate w; completer := CompleterDropping; consumer := consumer w; resumed := (if resume then task_list task else []) ++ resumed w;
             released := (if resume then [] else task_list task) ++ released w; given := given w; fallback := fallback w; delivered := delivered w |}
      | _ => BDisabled
      end
  | DropCompletion =>
      match completer w with
      | CompleterDropping => in_bridge w drop_ref_and_maybe_delete_self (fun _ m =>
          {| bstate := m; completer := CompleterDone; consumer := consumer w; resumed := resumed w; released := released w;
             given := given w; fallback := fallback w; delivered := delivered w |})
      | _ => BDisabled
      end
  | Promise =>
      match consumer w with
      | HasConsumer => BNext
          {| bstate := bstate w; completer := completer w; consumer := Continuation None; resumed := resumed w; released := released w;
             given := given w; fallback := fallback w; delivered := delivered w |}
      | _ => BDisabled
      end
  | PromiseOr r =>
      match consumer w with
      | HasConsumer => in_bridge w (set_result_if_abandoned r) (fun _ m =>
          {| bstate := m; completer := completer w; consumer := Continuation None; resumed := resumed w; released := released w;
             given := given w; fallback := r; delivered := delivered w |})
      | _ => BDisabled
      end
  | Await task =>
      match consumer w with
      | Continuation _ => in_bridge w (await_locked task) (fun r m =>
          {| bstate := m; completer := completer w;
             consumer := match r.1 with Some x => ConsumerDropping (Some x) | None => Continuation (Some task) end;
             resumed := resumed w; released := task_list r.2 ++ released w; given := given w; fallback := fallback w; delivered := delivered w |})
      | Spent => BCrash   (* the reference is null *)
      | _ => BDisabled
      end
  | Cancel =>
      match consumer w with
      | HasConsumer | Continuation _ => in_bridge w drop_consumption_locked (fun t m =>
          {| bstate := m; completer := completer w; consumer := ConsumerDropping None; resumed := resumed w; released := task_list t ++ released w;
             given := given w; fallback := fallback w; delivered := delivered w |})
      | Spent => BNext
          {| bstate := bstate w; completer := completer w; consumer := ConsumerDone; resumed := resumed w; released := released w;
             given := given w; fallback := fallback w; delivered := delivered w |}
      | _ => BDisabled
      end
  | DropConsumption =>
      match consumer w with
      | ConsumerDropping r => in_bridge w drop_ref_and_maybe_delete_self (fun _ m =>
          {| bstate := m; completer := completer w; consumer := match r with Some pending_result => Spent | _ => ConsumerDone end;
             resumed := resumed w; released := released w; given := given w; fallback := fallback w;
             delivered := match r with Some r => r :: delivered w | None => delivered w end |})
      | _ => BDisabled
      end
  end.

Fixpoint exec_bridges (es : list bridge_event) (w : bridge_world) : bridge_outcome :=
  match es with
  | [] => BNext w
  | e :: es => match exec_bridge e w with BNext w => exec_bridges es w | o => o end
  end.
