(* ===== verification/BridgeTheorems.v ===== *)
(** * Bridges: properties

    What holds after any interleaving of the completer and the consumer. *)

From S2P Require Import Prelude Bridge.

(** ** The invariant *)

Definition completer_holds (c : completer_side) : Z := match c with CompleterDone => 0 | _ => 1 end.
Definition consumer_holds (c : consumer_side) : Z := match c with Spent | ConsumerDone => 0 | _ => 1 end.

(** What the consumer is to get. *)
Definition expected (w : bridge_world) (r : promise_result) : Prop :=
  exists g, given w = Some g /\ r = if is_pending g then fallback w else g.

(** The disposition, as the two sides left it. *)
Definition disposition_ok (w : bridge_world) (s : bridge_state) : Prop :=
  match disposition_ s with
  | pending => given w = None /\ result_ s = fallback w /\ match consumer w with HasConsumer | Continuation _ => True | _ => False end
  | abandoned => given w = Some pending_result /\ result_ s = fallback w
  | completed => exists r, given w = Some r /\ is_pending r = false /\ result_ s = r
  | canceled => match consumer w with ConsumerDropping None | ConsumerDone => True | _ => False end
  | returned => given w <> None /\ match consumer w with ConsumerDropping (Some _) | Spent | ConsumerDone => True | _ => False end
  end.

(** The task the consumer last waited with. *)
Definition wakeup_ok (w : bridge_world) (t : Z) : Prop :=
  (exists s, bstate w = Some s /\ disposition_ s = pending /\ waiting_ s = Some t) \/
  (exists b, completer w = Notifying (Some t) b /\ (b = true \/ (given w = Some pending_result /\ fallback w = pending_result))) \/
  t ∈ resumed w \/ (t ∈ released w /\ given w = Some pending_result /\ fallback w = pending_result).

Definition delivery_ok (w : bridge_world) : Prop :=
  match consumer w with
  | HasConsumer => delivered w = [] /\ fallback w = pending_result
  | Continuation _ => delivered w = []
  | ConsumerDropping None => delivered w = []
  | ConsumerDropping (Some r) => delivered w = [] /\ expected w r
  | Spent => delivered w = [pending_result] /\ expected w pending_result
  | ConsumerDone => delivered w = [] \/ exists r, delivered w = [r] /\ expected w r
  end.

Record bok (w : bridge_world) : Prop := {
  bo_refs : match bstate w with Some s => ref_count_ s = completer_holds (completer w) + consumer_holds (consumer w) /\ 0 < ref_count_ s
            | None => completer_holds (completer w) + consumer_holds (consumer w) = 0 end;
  bo_given : completer w = HasCompleter <-> given w = None;
  bo_disposition s : bstate w = Some s -> disposition_ok w s;
  bo_waiting s t : bstate w = Some s -> waiting_ s = Some t -> disposition_ s = pending /\ consumer w = Continuation (Some t);
  bo_wakeup t : consumer w = Continuation (Some t) -> wakeup_ok w t;
  bo_delivery : delivery_ok w;
}.

Lemma bridge_new_bok : bok bridge_world_new.
Proof. split; cbn; try done; intros s; [by intros [= <-]|intros t; by intros [= <-]]. Qed.

Definition bridge_step_ok (e : bridge_event) (w : bridge_world) : Prop :=
  match exec_bridge e w with BDisabled => True | BCrash => consumer w = Spent /\ exists t, e = Await t | BNext w' => bok w' end.

Lemma complete_step r w : bok w -> bridge_step_ok (Complete r) w.
Proof.
  intros [Hr Hg Hd Hw Hk Hv]. unfold bridge_step_ok. cbn. destruct (completer w) eqn:Ec; try done. assert (Eg := proj1 Hg eq_refl).
  destruct (bstate w) as [[rc dp wt rs]|] eqn:Es; [|destruct (consumer w); done]. specialize (Hd _ eq_refl). unfold in_bridge. rewrite Es.
  unfold disposition_ok in Hd. cbn in *. rewrite Eg in Hd.
  destruct dp; try (by destruct Hd as (? & ?)); try (by destruct Hd as (? & ? & ?)).
  - destruct Hd as (_ & -> & Hcons).
    assert (Hrun : (if is_pending r then drop_completion_locked else complete_locked r) (Some {| ref_count_ := rc; disposition_ := pending; waiting_ := wt; result_ := fallback w |}) =
      Some ((wt, negb (is_pending (if is_pending r then fallback w else r))),
            Some {| ref_count_ := rc; disposition_ := if is_pending r then abandoned else completed; waiting_ := None; result_ := if is_pending r then fallback w else r |}))
      by by destruct r.
    rewrite Hrun. split; cbn; try done.
    + intros s [= <-]. unfold disposition_ok. destruct (is_pending r) eqn:Er; cbn; [by destruct r|eauto].
    + by intros s t [= <-].
    + intros t Ht. destruct (Hk t Ht) as [(s & E & _ & Hwt)|[(b & ? & _)|[?|(_ & ? & _)]]]; try congruence; [|right; right; by left].
      rewrite Es in E. injection E as <-. cbn in Hwt. subst wt. right. left. eexists. split; [done|]. destruct r; cbn; [|by left..].
      destruct (fallback w); cbn; [by right|by left..].
    + unfold delivery_ok in *. cbn. by destruct (consumer w).
  - assert (Hrun : (if is_pending r then drop_completion_locked else complete_locked r) (Some {| ref_count_ := rc; disposition_ := canceled; waiting_ := wt; result_ := rs |}) =
      Some ((None, false), Some {| ref_count_ := rc; disposition_ := canceled; waiting_ := wt; result_ := rs |})) by by destruct r.
    rewrite Hrun. split; cbn; try done.
    + by intros s [= <-].
    + intros t Ht. by rewrite Ht in Hd.
    + unfold delivery_ok, expected in *. cbn. rewrite Eg in Hv. destruct (consumer w) as [| |[|]| |]; try done. destruct Hv as [?|(? & _ & ? & ? & _)]; [by left|done].
Qed.

(** A step that leaves the state alone. *)
Lemma notify_task_step w : bok w -> bridge_step_ok NotifyTask w.
Proof.
  intros [Hr Hg Hd Hw Hk Hv]. unfold bridge_step_ok. cbn. destruct (completer w) as [|task resume| |] eqn:Ec; try done. split; cbn; try done.
  - split; [done|]. by intros H%Hg.
  - intros t Ht. destruct (Hk t Ht) as [?|[(b & E & Hb)|[?|(? & ?)]]].
    + by left.
    + rewrite Ec in E. injection E as -> ->. unfold wakeup_ok; cbn. right. right. destruct b; cbn; [left; left|]. destruct Hb as [?|?]; [done|]. right. split; [left|done].
    + right. right. left. cbn. apply elem_of_app. by right.
    + right. right. right. cbn. split; [|done]. apply elem_of_app. by right.
Qed.

(** Dropping a reference. *)
Lemma drop_ref_run s : 0 < ref_count_ s <= 2 -> drop_ref_and_maybe_delete_self (Some s) =
  Some (tt, if ref_count_ s =? 1 then None else Some {| ref_count_ := ref_count_ s - 1; disposition_ := disposition_ s; waiting_ := waiting_ s; result_ := result_ s |}).
Proof.
  intros H. unfold drop_ref_and_maybe_delete_self, mbind, ST_bind, get_bridge, put_bridge, modify, assert_bridge. rewrite (proj2 (Z.ltb_lt _ _)) by lia. cbn.
  rewrite wrap_small by (unfold fits; lia). by destruct (ref_count_ s =? 1).
Qed.

Lemma holds_bound c k : 0 <= completer_holds c <= 1 /\ 0 <= consumer_holds k <= 1.
Proof. destruct c, k; cbn; lia. Qed.

Lemma drop_completion_step w : bok w -> bridge_step_ok DropCompletion w.
Proof.
  intros [Hr Hg Hd Hw Hk Hv]. unfold bridge_step_ok. cbn. destruct (completer w) eqn:Ec; try done. unfold in_bridge.
  destruct (bstate w) as [s|] eqn:Es; [|destruct (consumer w); done]. assert (Hb := holds_bound CompleterDropping (consumer w)). cbn in Hr, Hb.
  rewrite drop_ref_run by lia. split; cbn.
  - destruct (Z.eqb_spec (ref_count_ s) 1); [lia|]. cbn. lia.
  - split; [done|]. intros H%Hg. done.
  - intros s'. destruct (ref_count_ s =? 1); [done|]. intros [= <-]. exact (Hd s eq_refl).
  - intros s' t. destruct (ref_count_ s =? 1); [done|]. intros [= <-]. exact (Hw s t eq_refl).
  - intros t Ht. destruct (Hk t Ht) as [(s' & E & Hp & Hwt)|[(b & E & _)|?]]; [|congruence|by right; right].
    rewrite Es in E. injection E as <-. left. rewrite Ht in Hr, Hb. cbn in Hr. rewrite (proj2 (Z.eqb_neq _ _)) by lia. cbn. by eexists.
  - done.
Qed.

(** The consumer's steps. *)
Lemma promise_step w : bok w -> bridge_step_ok Promise w.
Proof.
  intros [Hr Hg Hd Hw Hk Hv]. unfold bridge_step_ok. cbn. destruct (consumer w) eqn:Ec; try done. split; cbn; try done.
  - intros s Hs. specialize (Hd s Hs). unfold disposition_ok in *. cbn. rewrite Ec in Hd. by destruct (disposition_ s).
  - intros s t Hs Ht. destruct (Hw s t Hs Ht). congruence.
  - unfold delivery_ok in *. cbn. rewrite Ec in Hv. by destruct Hv.
Qed.

Lemma promise_or_step r w : bok w -> bridge_step_ok (PromiseOr r) w.
Proof.
  intros [Hr Hg Hd Hw Hk Hv]. unfold bridge_step_ok. cbn. destruct (consumer w) eqn:Ec; try done. unfold in_bridge.
  destruct (bstate w) as [[rc dp wt rs]|] eqn:Es; [|destruct (completer w); done]. specialize (Hd _ eq_refl). unfold disposition_ok in Hd. cbn in Hd. rewrite Ec in Hd.
  unfold delivery_ok in Hv. rewrite Ec in Hv. destruct Hv as [Hv Hf].
  assert (Hrun : set_result_if_abandoned r (Some {| ref_count_ := rc; disposition_ := dp; waiting_ := wt; result_ := rs |}) =
    Some (tt, Some {| ref_count_ := rc; disposition_ := dp; waiting_ := wt; result_ := if is_pending r then rs else if bool_decide (dp = completed) then rs else r |})).
  { destruct dp; try (by destruct Hd as (? & ?)); try done; by destruct r. }
  rewrite Hrun. split; cbn; try done.
  - intros s [= <-]. unfold disposition_ok; cbn. rewrite Hf in Hd. destruct dp; cbn; try done.
    + destruct Hd as (? & -> & _). by destruct r.
    + destruct Hd as (? & ->). by destruct r.
    + destruct Hd as (x & ? & ? & ->). exists x. by destruct r.
  - intros s t [= <-] Ht. destruct (Hw _ t eq_refl Ht). congruence.
Qed.

Lemma await_step t w : bok w -> bridge_step_ok (Await t) w.
Proof.
  intros [Hr Hg Hd Hw Hk Hv]. unfold bridge_step_ok. cbn. destruct (consumer w) as [|k|r| |] eqn:Ec; try done; [|by eauto]. unfold in_bridge.
  destruct (bstate w) as [[rc dp wt rs]|] eqn:Es; [|destruct (completer w); done]. specialize (Hd _ eq_refl). unfold disposition_ok in Hd. cbn in Hd. rewrite Ec in Hd.
  unfold delivery_ok in Hv. rewrite Ec in Hv. destruct dp; try (by destruct Hd as (? & ?)); try done; cbn.
  - destruct Hd as (Eg & -> & _). split; cbn; try done.
    + intros s [= <-]. by unfold disposition_ok; cbn.
    + intros s x [= <-] [= <-]. done.
    + intros x [= <-]. left. by eexists.
  - destruct Hd as (Eg & ->). split; cbn; try done.
    + intros s [= <-]. unfold disposition_ok; cbn. by rewrite Eg.
    + intros s x [= <-] Hx. by destruct (Hw _ x eq_refl Hx).
    + split; [done|]. unfold expected; cbn. rewrite Eg. by eexists.
  - destruct Hd as (x & Eg & Ex & ->). split; cbn; try done.
    + intros s [= <-]. unfold disposition_ok; cbn. by rewrite Eg.
    + intros s y [= <-] Hy. by destruct (Hw _ y eq_refl Hy).
    + split; [done|]. unfold expected; cbn. rewrite Eg. eexists. split; [done|]. by rewrite Ex.
Qed.

Lemma cancel_step w : bok w -> bridge_step_ok Cancel w.
Proof.
  intros [Hr Hg Hd Hw Hk Hv]. unfold bridge_step_ok. cbn.
  assert (Hcase : consumer w = HasConsumer \/ (exists k, consumer w = Continuation k) \/ consumer w = Spent \/ exec_bridge Cancel w = BDisabled).
  { cbn. destruct (consumer w); eauto. }
  destruct Hcase as [Ec|[[k Ec]|[Ec|E]]]; [| | |cbn in E; by rewrite E].
  3: { rewrite Ec. split; cbn; try done.
       - destruct (bstate w); rewrite Ec in Hr; done.
       - intros s Hs. specialize (Hd s Hs). unfold disposition_ok in *; cbn. rewrite Ec in Hd. by destruct (disposition_ s) as [| | | |]; [destruct Hd as (? & ? & [])|..].
       - intros s t Hs Ht. destruct (Hw s t Hs Ht) as [? E]. congruence.
       - unfold delivery_ok in *. rewrite Ec in Hv. right. by exists pending_result. }
  all: rewrite Ec; unfold in_bridge; destruct (bstate w) as [[rc dp wt rs]|] eqn:Es; [|rewrite Ec in Hr; destruct (completer w); done].
  all: specialize (Hd _ eq_refl); unfold disposition_ok in Hd; cbn in Hd; rewrite Ec in Hd; rewrite Ec in Hr.
  all: assert (Hv' : delivered w = []) by (unfold delivery_ok in Hv; rewrite Ec in Hv; by destruct Hv || exact Hv).
  all: destruct dp; try (by destruct Hd as (? & ?)); try done; cbn.
  all: split; cbn; try done; try (intros s [= <-]; done); try (intros s x [= <-] Hx; by destruct (Hw _ x eq_refl Hx)).
  all: by intros s x [= <-].
Qed.

Lemma drop_consumption_step w : bok w -> bridge_step_ok DropConsumption w.
Proof.
  intros [Hr Hg Hd Hw Hk Hv]. unfold bridge_step_ok. cbn. destruct (consumer w) as [|k|r| |] eqn:Ec; try done. unfold in_bridge.
  destruct (bstate w) as [s|] eqn:Es; [|destruct (completer w); done]. assert (Hb := holds_bound (completer w) (ConsumerDropping r)). cbn in Hr, Hb.
  assert (Hd' := Hd s eq_refl). rewrite drop_ref_run by lia. split; cbn.
  - replace (consumer_holds _) with 0 by by destruct r as [[]|]. destruct (Z.eqb_spec (ref_count_ s) 1); [lia|]. cbn. lia.
  - done.
  - intros s'. destruct (ref_count_ s =? 1); [done|]. intros [= <-]. unfold disposition_ok in *. cbn. rewrite Ec in Hd'.
    destruct (disposition_ s), r as [[]|]; try done; try (by destruct Hd' as (? & ? & ?)); by destruct Hd' as (? & ?).
  - intros s' t. destruct (ref_count_ s =? 1); [done|]. intros [= <-]. intros Ht. destruct (Hw s t eq_refl Ht). congruence.
  - intros t. by destruct r as [[]|].
  - unfold delivery_ok in *. cbn. rewrite Ec in Hv. destruct r as [r|]; [|by left]. destruct Hv as [Hv He]. rewrite Hv. destruct r; [by split|right; by eexists..].
Qed.

Lemma bridge_step e w : bok w -> bridge_step_ok e w.
Proof.
  destruct e; auto using complete_step, notify_task_step, drop_completion_step, promise_step, promise_or_step, await_step, cancel_step, drop_consumption_step.
Qed.

Lemma exec_bridges_ok es : forall w w', bok w -> exec_bridges es w = BNext w' -> bok w'.
Proof.
  induction es as [|e es IH]; intros w w' B E; cbn in E; [by injection E as <-|]. assert (H := bridge_step e w B). unfold bridge_step_ok in H.
  destruct (exec_bridge e w) as [| |w1]; try done. by apply (IH w1).
Qed.

Lemma exec_bridges_crash es : forall w, bok w -> exec_bridges es w = BCrash ->
  exists es1 t es2 w', es = es1 ++ Await t :: es2 /\ exec_bridges es1 w = BNext w' /\ consumer w' = Spent.
Proof.
  induction es as [|e es IH]; intros w B E; cbn in E; [done|]. assert (H := bridge_step e w B). unfold bridge_step_ok in H.
  destruct (exec_bridge e w) as [| |w1] eqn:E1; try done.
  - destruct H as [Hs [t ->]]. by exists [], t, es, w.
  - destruct (IH w1 H E) as (es1 & t & es2 & w' & -> & E' & Hs). exists (e :: es1), t, es2, w'. cbn. by rewrite E1.
Qed.

(** ** Concrete runs *)

Definition bridge_example : list bridge_event :=
  [PromiseOr (error 1); Await 7; Await 8; Complete (ok 5); NotifyTask; Await 9; DropCompletion; DropConsumption].

(** The completer abandons; the continuation returns a pending result and is called again. *)
Definition bridge_again : list bridge_event := [Promise; Complete pending_result; NotifyTask; Await 7; DropConsumption; Await 8].

Definition bridge_after (es : list bridge_event) : bridge_world := match exec_bridges es bridge_world_new with BNext w => w | _ => bridge_world_new end.

(** ** Properties *)

(** C32.  Over any interleaving of the completer and the consumer no assertion of the bridge
    fails and its state is not used after it was deleted, with one exception: a continuation
    that returned a pending result because the completer abandoned has no reference any more,
    and calling it again uses a null pointer. *)
Theorem bridge_safe es : exec_bridges es bridge_world_new = BCrash ->
  exists es1 t es2 w, es = es1 ++ Await t :: es2 /\ exec_bridges es1 bridge_world_new = BNext w /\ consumer w = Spent /\ delivered w = [pending_result] /\ given w = Some pending_result.
Proof.
  intros E. destruct (exec_bridges_crash es _ bridge_new_bok E) as (es1 & t & es2 & w & -> & E1 & Hs). exists es1, t, es2, w. assert (B := exec_bridges_ok _ _ _ bridge_new_bok E1).
  assert (Hv := bo_delivery _ B). unfold delivery_ok in Hv. rewrite Hs in Hv. destruct Hv as (Hv & g & Eg & Er). split_and!; try done. rewrite Eg. by destruct g.
Qed.

Lemma bridge_safe_witness : exists es1 t es2 w, bridge_again = es1 ++ Await t :: es2 /\ exec_bridges es1 bridge_world_new = BNext w /\ consumer w = Spent /\
  delivered w = [pending_result] /\ given w = Some pending_result.
Proof. apply (bridge_safe bridge_again). by vm_compute. Defined.

(** C30.  The consumer gets what the completer gave, once: over any interleaving at most one
    result is returned, and it is the result the completer gave, or the fallback of
    promise_or when the completer abandoned.  The state is deleted exactly when both sides
    have dropped their reference. *)
Theorem bridge_delivers es w : exec_bridges es bridge_world_new = BNext w ->
  (delivered w = [] \/ exists g, given w = Some g /\ delivered w = [if is_pending g then fallback w else g]) /\
  (bstate w = None <-> completer_holds (completer w) + consumer_holds (consumer w) = 0).
Proof.
  intros E. assert (B := exec_bridges_ok _ _ _ bridge_new_bok E). split.
  - assert (Hv := bo_delivery _ B). unfold delivery_ok in Hv. destruct (consumer w) as [|k|[r|]| |]; auto; try (destruct Hv as [? _]; by left).
    + destruct Hv as (Hv & g & Eg & Er). right. exists g. by rewrite Hv, <- Er.
    + destruct Hv as [?|(r & Hv & g & Eg & Er)]; [by left|right]. exists g. by rewrite Hv, <- Er.
  - assert (Hr := bo_refs _ B). destruct (bstate w); [|done]. split; [done|]. lia.
Qed.

Lemma bridge_delivers_witness : delivered (bridge_after bridge_example) = [ok 5] /\
  (bstate (bridge_after bridge_example) = None <-> completer_holds (completer (bridge_after bridge_example)) + consumer_holds (consumer (bridge_after bridge_example)) = 0).
Proof.
  destruct (bridge_delivers bridge_example (bridge_after bridge_example)) as [[H|(g & Eg & H)] Hs]; [by vm_compute|by vm_compute in H|]. split; [|done].
  rewrite H. vm_compute in Eg. by injection Eg as <-.
Defined.

(** C31.  No wakeup of a bridge is lost: once the completer is done, the task with which the
    continuation last waited was resumed, or dropped when the completer abandoned and there
    is no result to return for that case. *)
Theorem bridge_wakes es w t : exec_bridges es bridge_world_new = BNext w -> consumer w = Continuation (Some t) -> completer w = CompleterDropping \/ completer w = CompleterDone ->
  t ∈ resumed w \/ (t ∈ released w /\ given w = Some pending_result /\ fallback w = pending_result).
Proof.
  intros E Hc Hd. assert (B := exec_bridges_ok _ _ _ bridge_new_bok E). destruct (bo_wakeup _ B t Hc) as [(s & Es & Hp & _)|[(b & Eb & _)|H]]; [| |done].
  - assert (Hs := bo_disposition _ B s Es). unfold disposition_ok in Hs. rewrite Hp in Hs. destruct Hs as (Hg & _). apply (bo_given _ B) in Hg. destruct Hd; congruence.
  - destruct Hd; congruence.
Qed.

Lemma bridge_wakes_witness : 8 ∈ resumed (bridge_after (take 5 bridge_example)) \/
  (8 ∈ released (bridge_after (take 5 bridge_example)) /\ given (bridge_after (take 5 bridge_example)) = Some pending_result /\ fallback (bridge_after (take 5 bridge_example)) = pending_result).
Proof. apply (bridge_wakes (take 5 bridge_example)); [by vm_compute|by vm_compute|by left; vm_compute]. Defined.
