(* ===== verification/Syslog.v ===== *)
(** * The structured log encoder

    Models src/syslog/structured_backend/cpp/fuchsia_syslog.cc: offsets with their assertions,
    the buffer of a record, the encoder and the operations of [LogBuffer].  The buffer is an
    array of bytes with checked accesses; a pointer into it is the index of a word.  An
    abort, like an access out of bounds, makes a routine undefined. *)

From S2P Require Import Prelude FidlStatus.

(** ** Offsets *)

Record ByteOffset := { b_value : Z; b_capacity : Z }.

(** The check of both classes of offsets. *)
Definition valid_offset (value capacity : Z) : bool := ((capacity =? 0) && (value =? 0)) || (value <? capacity).

Definition ByteOffset_AssertValid (b : ByteOffset) : option ByteOffset := if valid_offset (b_value b) (b_capacity b) then Some b else None.
Definition FromBuffer (offset capacity : Z) : option ByteOffset := ByteOffset_AssertValid {| b_value := offset; b_capacity := capacity |}.
Definition Unbounded (offset : Z) : ByteOffset := {| b_value := offset; b_capacity := 2 ^ 64 - 1 |}.
Definition AssertAlignedTo (b : ByteOffset) (size : Z) : option ByteOffset := if b_value b mod size =? 0 then Some b else None.

(** A word offset; [size] is the size of a word. *)
Record WordOffset := { w_value : Z; w_capacity : Z }.

Definition WordOffset_AssertValid (w : WordOffset) : option WordOffset := if valid_offset (w_value w) (w_capacity w) then Some w else None.
Definition word_add (w : WordOffset) (offset : Z) : option WordOffset :=
  WordOffset_AssertValid {| w_value := w_value w ⊕[64] offset; w_capacity := w_capacity w |}.
(** The postfix increment is const: it returns the offset that follows. *)
Definition word_succ (w : WordOffset) : option WordOffset := word_add w 1.
Definition AddPadded (size : Z) (w : WordOffset) (b : ByteOffset) : WordOffset :=
  let needs_padding := if 0 <? b_value b mod size then 1 else 0 in
  {| w_value := w_value w ⊕[64] b_value b / size ⊕[64] needs_padding; w_capacity := w_capacity w |}.
Definition word_begin (w : WordOffset) : WordOffset := {| w_value := 0; w_capacity := w_capacity w |}.
Definition FromByteOffset (size : Z) (b : ByteOffset) : option WordOffset :=
  b ← AssertAlignedTo b size; Some {| w_value := b_value b / size; w_capacity := b_capacity b / size |}.
Definition in_bounds (w offset : WordOffset) : bool := negb (w_capacity w <=? w_value offset ⊕[64] w_value w).
Definition ToByteOffset (size : Z) (w : WordOffset) : option ByteOffset := FromBuffer (wrap 64 (w_value w * size)) (wrap 64 (w_capacity w * size)).

(** ** Fields *)

(** A field from bit [first]; [Make] does not cut its value to the field. *)
Definition Make (first value : Z) : Z := wrap 64 (Z.shiftl (wrap 64 value) first).

(** ** State *)

Definition buffer_words : Z := 4096.
Definition buffer_bytes : Z := buffer_words * 8.

(** The socket is only written to by [FlushRecord]; corrected_severity is set and never read,
    and is left out. *)
Record RecordState := {
  header : Z;
  raw_severity : Z;
  arg_size : WordOffset;
  current_key_size : ByteOffset;
  current_header_position : Z;
  dropped_count : Z;
  cursor : WordOffset;
  encode_success : bool;
  ended : bool;
}.

Record LogBuffer := { record : RecordState; data : list Z }.

Abbreviation LM := (ST LogBuffer).

Definition set_record (f : RecordState -> RecordState) : LM unit := modify (fun l => {| record := f (record l); data := data l |}).
Definition set_cursor (w : WordOffset) : LM unit := set_record (fun r =>
  {| header := header r; raw_severity := raw_severity r; arg_size := arg_size r; current_key_size := current_key_size r;
     current_header_position := current_header_position r; dropped_count := dropped_count r; cursor := w; encode_success := encode_success r; ended := ended r |}).
Definition set_arg_size (w : WordOffset) : LM unit := set_record (fun r =>
  {| header := header r; raw_severity := raw_severity r; arg_size := w; current_key_size := current_key_size r;
     current_header_position := current_header_position r; dropped_count := dropped_count r; cursor := cursor r; encode_success := encode_success r; ended := ended r |}).
Definition set_argument (key_size : ByteOffset) (position : Z) : LM unit := set_record (fun r =>
  {| header := header r; raw_severity := raw_severity r; arg_size := arg_size r; current_key_size := key_size;
     current_header_position := position; dropped_count := dropped_count r; cursor := cursor r; encode_success := encode_success r; ended := ended r |}).
Definition set_begin (severity position : Z) : LM unit := set_record (fun r =>
  {| header := position; raw_severity := severity; arg_size := arg_size r; current_key_size := current_key_size r;
     current_header_position := current_header_position r; dropped_count := dropped_count r; cursor := cursor r; encode_success := encode_success r; ended := ended r |}).
Definition set_dropped (n : Z) : LM unit := set_record (fun r =>
  {| header := header r; raw_severity := raw_severity r; arg_size := arg_size r; current_key_size := current_key_size r;
     current_header_position := current_header_position r; dropped_count := n; cursor := cursor r; encode_success := encode_success r; ended := ended r |}).
(** [state.encode_success &= b]. *)
Definition and_success (b : bool) : LM unit := set_record (fun r =>
  {| header := header r; raw_severity := raw_severity r; arg_size := arg_size r; current_key_size := current_key_size r;
     current_header_position := current_header_position r; dropped_count := dropped_count r; cursor := cursor r;
     encode_success := encode_success r && b; ended := ended r |}).
Definition set_ended : LM unit := set_record (fun r =>
  {| header := header r; raw_severity := raw_severity r; arg_size := arg_size r; current_key_size := current_key_size r;
     current_header_position := current_header_position r; dropped_count := dropped_count r; cursor := cursor r; encode_success := encode_success r; ended := true |}).

(** Words of the buffer. *)
Definition read_word (i : Z) : LM Z := d ← gets data; lift (load 8 d (8 * i)).
Definition write_bytes (i : Z) (bs : list Z) : LM unit :=
  d ← gets data; d ← lift (wrn d (8 * i) bs); modify (fun l => {| record := record l; data := d |}).
Definition write_word (i w : Z) : LM unit := write_bytes i (le_split 8 w).

(** The constructor of RecordState. *)
Definition RecordState_new : option RecordState :=
  zero ← FromBuffer 0 buffer_bytes;
  word ← FromByteOffset 8 zero;
  Some {| header := 0; raw_severity := 0; arg_size := word; current_key_size := zero; current_header_position := 0; dropped_count := 0;
          cursor := word; encode_success := true; ended := false |}.

(** ** The buffer *)

(** The loop of Write, from the word [i]. *)
Fixpoint write_loop (i : Z) (words : list Z) : LM unit :=
  match words with
  | [] => mret tt
  | w :: words =>
      c ← gets (fun l => cursor (record l));
      at_i ← lift (word_add c i);
      write_word (w_value at_i) w ;;
      write_loop (i + 1) words
  end.

Definition BufferWrite (words : list Z) : LM bool :=
  length ← lift (FromByteOffset 8 (Unbounded (len words * 8)));
  c ← gets (fun l => cursor (record l));
  if negb (in_bounds c length) then mret false
  else
    write_loop 0 words ;;
    c ← lift (word_add c (w_value length));
    set_cursor c ;;
    mret true.

(** Writing to the buffer from the word [i]. *)
Definition WritePaddedInternal (i : Z) (msg : list Z) (length : ByteOffset) : LM WordOffset :=
  if b_value length =? 0 then lift (FromByteOffset 8 (Unbounded 0))
  else
    let needs_padding := 0 <? b_value length mod 8 in
    let padding := (8 - b_value length mod 8) * (if needs_padding then 1 else 0) in
    let eof_in_bytes := b_value length ⊕[64] padding in
    let eof_in_words := eof_in_bytes / 8 in
    let last_word := eof_in_words - 1 in
    w ← read_word (i + last_word);
    write_word (i + last_word) (w * (if needs_padding then 0 else 1)) ;;
    write_bytes i msg ;;
    lift (FromByteOffset 8 (Unbounded (b_value length ⊕[64] padding))).

(** The words written, if there was room. *)
Definition WritePadded (msg : list Z) (byte_count : ByteOffset) : LM (option WordOffset) :=
  c ← gets (fun l => cursor (record l));
  let word_count := AddPadded 8 (word_begin c) byte_count in
  if negb (in_bounds c word_count) then mret None
  else
    retval ← WritePaddedInternal (w_value c) msg byte_count;
    c ← lift (word_add c (w_value retval));
    set_cursor c ;;
    mret (Some retval).

(** ** The encoder *)

Definition EncoderBegin (timestamp severity : Z) : LM unit :=
  c ← gets (fun l => cursor (record l));
  set_begin severity (w_value c) ;;
  b ← BufferWrite [0];
  and_success b ;;
  b ← BufferWrite [wrap 64 timestamp];
  and_success b.

Definition FlushPreviousArgument : LM unit :=
  a ← gets (fun l => arg_size (record l));
  set_arg_size (word_begin a).

(** The size of a slice of characters, as an offset of bytes. *)
Definition slice_size (s : list Z) : option (WordOffset * ByteOffset) :=
  w ← FromByteOffset 1 (Unbounded (len s)); b ← ToByteOffset 1 w; Some (w, b).

Definition AppendArgumentKey (key : list Z) : LM unit :=
  FlushPreviousArgument ;;
  c ← gets (fun l => cursor (record l));
  b ← BufferWrite [0];
  and_success b ;;
  s_size ← lift (FromByteOffset 8 (Unbounded 0));
  '(_, bytes) ← lift (slice_size key);
  written ← WritePadded key bytes;
  and_success (match written with Some _ => true | None => false end) ;;
  size ← lift (word_add (default s_size written) 1);
  set_arg_size size ;;
  set_argument bytes (w_value c).

Definition ComputeArgHeader (r : RecordState) (type : Z) : Z :=
  let key_size := b_value (current_key_size r) in
  Z.lor (Z.lor (Z.lor (Z.lor (Make 0 type) (Make 4 (w_value (arg_size r)))) (Make 16 key_size)) (Make 31 (if 0 <? key_size then 1 else 0))) (Make 32 0).

(** Writing the header of the argument, with [rest] in its upper half. *)
Definition put_arg_header (type rest : Z) : LM unit :=
  r ← gets record;
  write_word (current_header_position r) (Z.lor (ComputeArgHeader r type) rest).

Definition AppendArgumentValue_int64 (value : Z) : LM unit :=
  b ← BufferWrite [wrap 64 value];
  and_success b ;;
  a ← gets (fun l => arg_size (record l));
  _ ← lift (word_succ a);
  put_arg_header 3 0.

Definition AppendArgumentValue_uint64 (value : Z) : LM unit :=
  b ← BufferWrite [value];
  and_success b ;;
  a ← gets (fun l => arg_size (record l));
  a ← lift (word_succ a);
  set_arg_size a ;;
  put_arg_header 4 0.

(** A double is known by its bits. *)
Definition AppendArgumentValue_double (value : Z) : LM unit :=
  b ← BufferWrite [value];
  and_success b ;;
  a ← gets (fun l => arg_size (record l));
  a ← lift (word_succ a);
  set_arg_size a ;;
  put_arg_header 5 0.

Definition AppendArgumentValue_string (string : list Z) : LM unit :=
  none ← lift (FromByteOffset 8 (Unbounded 0));
  '(size, bytes) ← lift (slice_size string);
  written ← WritePadded string bytes;
  and_success (match written with Some _ => true | None => false end) ;;
  a ← gets (fun l => arg_size (record l));
  a ← lift (word_add a (w_value (default none written)));
  set_arg_size a ;;
  let value_ref := if 0 <? w_value size then Z.lor (2 ^ 15) (w_value size) else 0 in
  put_arg_header 6 (Make 32 value_ref).

Definition AppendArgumentValue_bool (value : bool) : LM unit := put_arg_header 9 (Make 32 (if value then 1 else 0)).

Definition EncoderEnd : LM unit :=
  FlushPreviousArgument ;;
  r ← gets record;
  write_word (header r)
    (Z.lor (Z.lor (Z.lor (Make 0 9) (Make 4 (w_value (cursor r) - header r))) (Make 16 0)) (Make 56 (raw_severity r))).

(** ** Strings *)

(** A view of memory: its characters, and what can be read after them. *)
Record string_view := { characters : list Z; after : list Z }.

(** [strncmp(path.data(), prefix, ...) == 0] over the characters of [prefix]: it reads up to
    the first difference. *)
Fixpoint starts_with (prefix memory : list Z) : option bool :=
  match prefix with
  | [] => Some true
  | p :: prefix => match memory with
                   | [] => None
                   | c :: memory => if p =? c then starts_with prefix memory else Some false
                   end
  end.

(** Each turn takes three characters away, or [substr] fails. *)
Fixpoint StripDots_loop (fuel : nat) (path : string_view) : option string_view :=
  same ← starts_with (chars "../") (characters path ++ after path);
  if (same : bool) then
    if len (characters path) <? 3 then None
    else match fuel with
         | O => None
         | S fuel => StripDots_loop fuel {| characters := drop 3 (characters path); after := after path |}
         end
  else Some path.
Definition StripDots (path : string_view) : option string_view := StripDots_loop (length (characters path)) path.

(** ** Records *)

Inductive log_value :=
| VInt (v : Z)
| VUint (v : Z)
| VDouble (bits : Z)
| VString (s : list Z)
| VBool (b : bool).

Definition AppendArgumentValue (v : log_value) : LM unit :=
  match v with
  | VInt v => AppendArgumentValue_int64 v
  | VUint v => AppendArgumentValue_uint64 v
  | VDouble v => AppendArgumentValue_double v
  | VString s => AppendArgumentValue_string s
  | VBool b => AppendArgumentValue_bool b
  end.

Definition WriteKeyValue (key : list Z) (value : log_value) : LM unit := AppendArgumentKey key ;; AppendArgumentValue value.

Definition FUCHSIA_LOG_DEBUG : Z := 0x20.

(** [now] is the time of the monotonic clock.  What was in the buffer stays there. *)
Definition BeginRecord (now severity : Z) (file_name : option string_view) (line : Z) (message : option string_view) (dropped pid tid : Z) : LM unit :=
  let invalid := negb (Z.rem severity 0x10 =? 0) || (0x60 <? severity) || (severity <? 0x10) in
  let raw := if invalid then Some severity else None in
  let severity := if invalid then FUCHSIA_LOG_DEBUG else severity in
  r ← lift RecordState_new;
  set_record (fun _ => r) ;;
  EncoderBegin now severity ;;
  WriteKeyValue (chars "pid") (VUint pid) ;;
  WriteKeyValue (chars "tid") (VUint tid) ;;
  set_dropped dropped ;;
  match raw with Some v => WriteKeyValue (chars "verbosity") (VInt v) | None => mret tt end ;;
  (if dropped =? 0 then mret tt else WriteKeyValue (chars "dropped_logs") (VUint dropped)) ;;
  match message with Some m => WriteKeyValue (chars "message") (VString (characters m)) | None => mret tt end ;;
  match file_name with
  | Some f => AppendArgumentKey (chars "file") ;; f ← lift (StripDots f); AppendArgumentValue_string (characters f)
  | None => mret tt
  end ;;
  WriteKeyValue (chars "line") (VUint line).

Definition EndRecord : LM unit :=
  e ← gets (fun l => ended (record l));
  if (e : bool) then mret tt else set_ended ;; EncoderEnd.

(** What is written to the socket, if anything, and the result; [status] is the status of
    that write. *)
Definition FlushRecord {zx : ZxErrors} (status : Z) : LM (option (list Z) * bool) :=
  EndRecord ;;
  r ← gets record;
  if negb (encode_success r) then mret (None, false)
  else
    size ← lift (ToByteOffset 8 (cursor r));
    d ← gets data;
    bs ← lift (rdn d 0 (b_value size));
    mret (Some bs, negb (status =? ZX_ERR_BAD_STATE) && negb (status =? ZX_ERR_PEER_CLOSED)).
