(* ===== verification/SyslogSpec.v ===== *)
(** * Log records: the format

    The encoding of log records that the comments of fuchsia_syslog.cc cite: a record is a
    header, a time and arguments; an argument is a header, its name and its value, in words of
    64 bits.  [encode_record] is what the encoder writes; [decode_record] reads the format. *)

From S2P Require Import Prelude FidlStatus Syslog.

(** ** Encoding *)

(** The words that [n] bytes take. *)
Definition words (n : Z) : Z := (n + 7) / 8.
(** Bytes with zeros up to a word. *)
Definition pad8 (bs : list Z) : list Z := bs ++ replicate (Z.to_nat (8 * words (len bs) - len bs)) 0.

Definition type_of (v : log_value) : Z := match v with VInt _ => 3 | VUint _ => 4 | VDouble _ => 5 | VString _ => 6 | VBool _ => 9 end.

Definition value_bytes (v : log_value) : list Z :=
  match v with VInt v => le_split 8 (wrap 64 v) | VUint v | VDouble v => le_split 8 v | VString s => pad8 s | VBool _ => [] end.

(** A reference to a string that follows. *)
Definition inline_ref (n : Z) : Z := if 0 <? n then 2 ^ 15 + n else 0.

Definition upper_half (v : log_value) : Z := match v with VString s => inline_ref (len s) | VBool b => if b then 1 else 0 | _ => 0 end.

(** The size that the header of an argument claims: that of an int64 lacks its value. *)
Definition claimed_size (key : list Z) (v : log_value) : Z :=
  1 + words (len key) + match v with VInt _ => 0 | VUint _ | VDouble _ => 1 | VString s => words (len s) | VBool _ => 0 end.

Definition arg_header (key : list Z) (v : log_value) : Z :=
  type_of v + claimed_size key v * 2 ^ 4 + inline_ref (len key) * 2 ^ 16 + upper_half v * 2 ^ 32.

Definition encode_arg (a : list Z * log_value) : list Z := le_split 8 (arg_header a.1 a.2) ++ pad8 a.1 ++ value_bytes a.2.

Definition encode_args (args : list (list Z * log_value)) : list Z := mjoin (encode_arg <$> args).

(** A record whose header is [h]. *)
Definition record_bytes (h now : Z) (args : list (list Z * log_value)) : list Z := le_split 8 h ++ le_split 8 now ++ encode_args args.

Definition record_header (severity now : Z) (args : list (list Z * log_value)) : Z :=
  9 + len (record_bytes 0 now args) / 8 * 2 ^ 4 + severity * 2 ^ 56.

Definition encode_record (severity now : Z) (args : list (list Z * log_value)) : list Z := record_bytes (record_header severity now args) now args.

(** The arguments of a record as [BeginRecord] writes them. *)
Definition begin_args (raw : option Z) (dropped : Z) (message file : option (list Z)) (line pid tid : Z) : list (list Z * log_value) :=
  [(chars "pid", VUint pid); (chars "tid", VUint tid)] ++
  match raw with Some v => [(chars "verbosity", VInt v)] | None => [] end ++
  (if dropped =? 0 then [] else [(chars "dropped_logs", VUint dropped)]) ++
  match message with Some m => [(chars "message", VString m)] | None => [] end ++
  match file with Some f => [(chars "file", VString f)] | None => [] end ++
  [(chars "line", VUint line)].

(** ** Decoding *)

Definition field (first size h : Z) : Z := h / 2 ^ first mod 2 ^ size.

(** A string of a reference, at the front of [bs], and what follows its padding. *)
Definition decode_string (ref : Z) (bs : list Z) : option (list Z * list Z) :=
  if ref =? 0 then Some ([], bs)
  else if ref <? 2 ^ 15 then None
  else let n := ref - 2 ^ 15 in
    if len bs <? 8 * words n then None else Some (take (Z.to_nat n) bs, drop (Z.to_nat (8 * words n)) bs).

(** The value of a type, which takes all of [bs]. *)
Definition decode_value (type upper : Z) (bs : list Z) : option log_value :=
  if type =? 3 then (if len bs =? 8 then Some (VInt (let v := le_bytes bs in if v <? 2 ^ 63 then v else v - 2 ^ 64)) else None)
  else if type =? 4 then (if len bs =? 8 then Some (VUint (le_bytes bs)) else None)
  else if type =? 5 then (if len bs =? 8 then Some (VDouble (le_bytes bs)) else None)
  else if type =? 6 then
    '(s, rest) ← decode_string (field 0 16 upper) bs;
    if len rest =? 0 then Some (VString s) else None
  else if type =? 9 then (if len bs =? 0 then Some (VBool (field 0 1 upper =? 1)) else None)
  else None.

(** One argument and what follows it. *)
Definition decode_arg (bs : list Z) : option ((list Z * log_value) * list Z) :=
  if len bs <? 8 then None
  else
    let h := le_bytes (take 8 bs) in
    let size := field 4 12 h in
    if (size <? 1) || (len bs <? 8 * size) then None
    else
      '(key, value) ← decode_string (field 16 16 h) (drop 8 (take (Z.to_nat (8 * size)) bs));
      v ← decode_value (field 0 4 h) (field 32 32 h) value;
      Some ((key, v), drop (Z.to_nat (8 * size)) bs).

Fixpoint decode_args (fuel : nat) (bs : list Z) : option (list (list Z * log_value)) :=
  match bs with
  | [] => Some []
  | _ =>
      match fuel with
      | O => None
      | S fuel => '(a, bs) ← decode_arg bs; args ← decode_args fuel bs; Some (a :: args)
      end
  end.

(** Severity, time and arguments. *)
Definition decode_record (bs : list Z) : option (Z * Z * list (list Z * log_value)) :=
  if len bs <? 16 then None
  else
    let h := le_bytes (take 8 bs) in
    if negb (field 0 4 h =? 9) || negb (8 * field 4 12 h =? len bs) then None
    else
      args ← decode_args (length bs) (drop 16 bs);
      Some (field 56 8 h, le_bytes (take 8 (drop 8 bs)), args).
