(* ===== verification/SyslogCorrect.v ===== *)
(** * The structured log encoder: correctness

    The buffer holds the encoding of what was appended, as long as it fits. *)

From S2P Require Import Prelude FidlStatus Syslog SyslogSpec.

(** ** Words and padding *)

#[local] Arguments words : simpl never.
#[local] Arguments le_split : simpl never.

Lemma len_split n v : len (le_split n v) = Z.of_nat n.
Proof. unfold len. by rewrite le_split_length. Qed.

Lemma words_bound n : 0 <= n -> n <= 8 * words n < n + 8 /\ 0 <= words n.
Proof. intros H. unfold words. dlia. Qed.

Lemma len_pad8 bs : len (pad8 bs) = 8 * words (len bs).
Proof. unfold pad8. rewrite len_app. unfold len at 2. rewrite length_replicate. assert (H := words_bound (len bs) (len_nonneg bs)). lia. Qed.

(** ** Operations on the buffer *)

(** The cursor, and what the buffer holds. *)
Definition cursor_at (c : Z) : WordOffset := {| w_value := c; w_capacity := 4096 |}.

(** The buffer of [l] holds [enc], unless encoding failed; then [enc] does not fit. *)
Record holding (l : LogBuffer) (enc : list Z) : Prop := {
  ho_data : len (data l) = 32768 /\ bytes_ok (data l);
  ho_cursor : exists c, cursor (record l) = cursor_at c /\ 0 <= c < 4096 /\ (encode_success (record l) = true -> len enc = 8 * c);
  ho_enc : if encode_success (record l) then exists rest, data l = enc ++ rest else 32768 <= len enc;
}.

(** The record but for the cursor and the success. *)
Definition same_record (r r' : RecordState) : Prop :=
  header r' = header r /\ raw_severity r' = raw_severity r /\ arg_size r' = arg_size r /\ current_key_size r' = current_key_size r /\
  current_header_position r' = current_header_position r /\ ended r' = ended r /\ (encode_success r' = true -> encode_success r = true).

Lemma word_add_ok c k : 0 <= c -> 0 <= k -> c + k < 4096 -> word_add (cursor_at c) k = Some (cursor_at (c + k)).
Proof.
  intros. unfold word_add, WordOffset_AssertValid, valid_offset. cbn [w_value w_capacity cursor_at]. rewrite wrap_small by (unfold fits; lia).
  rewrite (proj2 (Z.ltb_lt _ _)) by lia. by rewrite orb_true_r.
Qed.

Lemma wp_write_bytes i bs l d (Q : unit -> LogBuffer -> Prop) : wrn (data l) (8 * i) bs = Some d -> Q tt {| record := record l; data := d |} -> wp (write_bytes i bs) l Q.
Proof. intros E H. apply wp_bind, wp_gets. apply wp_bind, (wp_lift _ d); [done|]. by apply wp_modify. Qed.

Lemma unbounded_words n : 0 <= n -> n mod 8 = 0 -> FromByteOffset 8 (Unbounded n) = Some {| w_value := n / 8; w_capacity := (2 ^ 64 - 1) / 8 |}.
Proof. intros Hn H. unfold FromByteOffset, AssertAlignedTo, Unbounded. cbn [b_value]. by rewrite H. Qed.

Definition with_buffer (l : LogBuffer) (c : Z) (d : list Z) : LogBuffer :=
  {| record := {| header := header (record l); raw_severity := raw_severity (record l); arg_size := arg_size (record l); current_key_size := current_key_size (record l);
       current_header_position := current_header_position (record l); dropped_count := dropped_count (record l); cursor := cursor_at c;
       encode_success := encode_success (record l); ended := ended (record l) |}; data := d |}.

Lemma BufferWrite_ok w l c (Q : bool -> LogBuffer -> Prop) : cursor (record l) = cursor_at c -> 0 <= c < 4096 -> len (data l) = 32768 ->
  (forall d, c + 1 < 4096 -> wrn (data l) (8 * c) (le_split 8 w) = Some d -> Q true (with_buffer l (c + 1) d)) -> (4096 <= c + 1 -> Q false l) -> wp (BufferWrite [w]) l Q.
Proof.
  intros Ec Hc Hl H1 H2. apply wp_bind. eapply wp_lift; [apply (unbounded_words 8); [lia|done]|]. apply wp_bind, wp_gets. rewrite Ec.
  unfold in_bounds. cbn [w_capacity w_value cursor_at]. change (8 / 8) with 1. rewrite (wrap_small 64 (1 + c)), (Z.add_comm 1) by (unfold fits; lia).
  destruct (Z.leb_spec 4096 (c + 1)); cbn [negb]; [apply wp_ret; by apply H2|].
  destruct (wrn_is_Some (data l) (8 * c) (le_split 8 w)) as [d Ed]; [lia|rewrite len_split; lia|].
  apply wp_bind. apply wp_bind, wp_gets. rewrite Ec. apply wp_bind. eapply wp_lift; [apply (word_add_ok c 0); lia|]. cbn [w_value cursor_at]. rewrite Z.add_0_r.
  apply wp_bind, (wp_write_bytes _ _ _ d); [done|]. apply wp_ret. apply wp_bind. eapply wp_lift; [apply (word_add_ok c 1); lia|]. apply wp_bind, wp_modify, wp_ret.
  by apply H1.
Qed.

Lemma split_at (d : list Z) i n : 0 <= i -> 0 <= n -> i + n <= len d -> exists pre x rest, d = pre ++ x ++ rest /\ len pre = i /\ len x = n.
Proof.
  intros Hi Hn H. exists (take (Z.to_nat i) d), (take (Z.to_nat n) (drop (Z.to_nat i) d)), (drop (Z.to_nat n) (drop (Z.to_nat i) d)).
  rewrite !take_drop. unfold len in *. rewrite !length_take, length_drop. split; [done|]. lia.
Qed.

Lemma le_split_zero n : le_split n 0 = replicate n 0.
Proof.
  assert (H : le_bytes (replicate n 0) = 0) by (induction n as [|n IH]; [done|]; simpl; by rewrite IH).
  assert (Hb : bytes_ok (replicate n 0)) by (apply Forall_replicate; unfold byte_ok; lia). rewrite <- (le_split_bytes (replicate n 0)) at 1 by done.
  by rewrite H, length_replicate.
Qed.

(** The last word is cleared before the bytes are copied, if they do not fill it. *)
Lemma pad_last x1 xl msg : len xl = 8 -> len x1 + 8 = 8 * words (len msg) -> 0 < len msg -> len msg mod 8 <> 0 ->
  exists y, x1 ++ replicate 8 0 = y ++ replicate (Z.to_nat (8 * words (len msg) - len msg)) 0 /\ len y = len msg.
Proof.
  intros Hl H1 Hm Hne. assert (Hw := words_bound (len msg) ltac:(lia)). exists (x1 ++ replicate (Z.to_nat (len msg - len x1)) 0). split.
  - rewrite <- app_assoc. f_equal. rewrite <- replicate_add. f_equal. lia.
  - rewrite len_app. unfold len at 2. rewrite length_replicate. lia.
Qed.

Lemma WritePaddedInternal_ok i msg l d cap (Q : WordOffset -> LogBuffer -> Prop) : 0 <= i -> 8 * (i + words (len msg)) <= len (data l) -> len (data l) < 2 ^ 60 -> bytes_ok (data l) ->
  wrn (data l) (8 * i) (pad8 msg) = Some d ->
  Q {| w_value := words (len msg); w_capacity := (2 ^ 64 - 1) / 8 |} {| record := record l; data := d |} ->
  wp (WritePaddedInternal i msg {| b_value := len msg; b_capacity := cap |}) l Q.
Proof.
  intros Hi Hfit Hlen Hbo Hd HQ. unfold WritePaddedInternal. cbn [b_value]. assert (Hm := len_nonneg msg). assert (Hw := words_bound (len msg) Hm).
  destruct (Z.eqb_spec (len msg) 0) as [E0|E0].
  - apply (wp_lift _ {| w_value := 0; w_capacity := (2 ^ 64 - 1) / 8 |}); [done|]. rewrite E0 in HQ. change (words 0) with 0 in HQ.
    assert (pad8 msg = []) as Ep by (unfold pad8; rewrite E0; by destruct msg). rewrite Ep in Hd.
    assert (Hs : wrn (data l) (8 * i) [] = Some (data l)).
    { apply wrn_same. unfold rdn. rewrite (proj2 (in_range_spec _ _ _)); [done|]. change (len []) with 0. lia. }
    rewrite Hs in Hd. injection Hd as <-. by destruct l.
  - set (needs := 0 <? len msg mod 8). assert (Hpad : (8 - len msg mod 8) * (if needs then 1 else 0) = 8 * words (len msg) - len msg).
    { unfold needs, words. destruct (Z.ltb_spec 0 (len msg mod 8)); dlia. }
    rewrite Hpad. replace (len msg ⊕[64] (8 * words (len msg) - len msg)) with (8 * words (len msg)) by (rewrite wrap_small; unfold fits; lia).
    replace (8 * words (len msg) / 8) with (words (len msg)) by (rewrite Z.mul_comm, Z.div_mul; lia).
    assert (Hw1 : 1 <= words (len msg)) by lia.
    destruct (split_at (data l) (8 * i) (8 * words (len msg))) as (pre & x & rest & Ed & Hpre & Hx); [lia..|].
    destruct (split_at x (8 * (words (len msg) - 1)) 8) as (x1 & xl & xr & -> & Hx1 & Hxl); [lia..|].
    assert (Hxr : xr = []) by (rewrite !len_app in Hx; assert (H := len_nonneg xr); destruct xr; [done|unfold len in *; simpl in *; lia]). subst xr. rewrite app_nil_r in *.
    assert (E1 : data l = (pre ++ x1) ++ xl ++ rest) by (rewrite Ed, <- !app_assoc; done).
    assert (Hpx : len (pre ++ x1) = 8 * (i + (words (len msg) - 1))) by (rewrite len_app; lia).
    destruct (load_is_Some 8 (data l) (8 * (i + (words (len msg) - 1)))) as [w Ew]; [lia|lia|].
    apply wp_bind. apply wp_bind, wp_gets. apply (wp_lift _ w); [done|].
    assert (Hfin : wrn (data l) (8 * i) (pad8 msg) = Some (pre ++ pad8 msg ++ rest)) by (rewrite Ed, <- Hpre; apply wrn_middle; rewrite Hx; by rewrite len_pad8).
    rewrite Hfin in Hd. injection Hd as <-. unfold needs. destruct (Z.ltb_spec 0 (len msg mod 8)) as [Hnp|Hnp].
    + rewrite Z.mul_0_r. apply wp_bind. eapply wp_write_bytes; [rewrite E1, <- Hpx; apply wrn_middle; rewrite len_split; done|]. rewrite le_split_zero.
      destruct (pad_last x1 xl msg) as (y & Ey & Hy); [done|lia|lia|lia|].
      apply wp_bind. eapply wp_write_bytes.
      { cbn [data]. rewrite <- app_assoc. rewrite (app_assoc x1), Ey, <- app_assoc, <- Hpre. apply wrn_middle. exact Hy. }
      cbn [record]. eapply wp_lift; [apply unbounded_words; [lia|by rewrite Z.mul_comm, Z.mod_mul]|].
      replace (8 * words (len msg) / 8) with (words (len msg)) by (rewrite Z.mul_comm, Z.div_mul; lia). unfold pad8 in HQ. by rewrite <- app_assoc in HQ.
    + rewrite Z.mul_1_r. apply wp_bind. eapply wp_write_bytes.
      { apply wrn_same. rewrite len_split. unfold load in Ew. destruct (rdn _ _ _) as [bs|] eqn:Er in Ew; [|done]. injection Ew as <-.
        assert (Hb : len bs = 8) by (apply rdn_len in Er; lia). replace 8%nat with (length bs) by (unfold len in Hb; lia).
        rewrite le_split_bytes by (eapply rdn_bytes_ok; done). replace (Z.of_nat (length bs)) with (Z.of_nat 8) by (unfold len in Hb; lia). done. }
      assert (Ep : pad8 msg = msg) by (unfold pad8; replace (8 * words (len msg) - len msg) with 0 by (unfold words in *; dlia); apply app_nil_r). rewrite Ep in *.
      apply wp_bind. apply (wp_write_bytes _ _ _ (pre ++ msg ++ rest)); [by destruct l|]. cbn [record].
      eapply wp_lift; [apply unbounded_words; [lia|by rewrite Z.mul_comm, Z.mod_mul]|].
      replace (8 * words (len msg) / 8) with (words (len msg)) by (rewrite Z.mul_comm, Z.div_mul; lia). done.
Qed.

Lemma WritePadded_ok msg l c (Q : option WordOffset -> LogBuffer -> Prop) : cursor (record l) = cursor_at c -> 0 <= c < 4096 -> len (data l) = 32768 -> bytes_ok (data l) ->
  len msg < 2 ^ 60 ->
  (forall d, c + words (len msg) < 4096 -> wrn (data l) (8 * c) (pad8 msg) = Some d ->
    Q (Some {| w_value := words (len msg); w_capacity := (2 ^ 64 - 1) / 8 |}) (with_buffer l (c + words (len msg)) d)) ->
  (4096 <= c + words (len msg) -> Q None l) -> wp (WritePadded msg {| b_value := len msg; b_capacity := 2 ^ 64 - 1 |}) l Q.
Proof.
  intros Ec Hc Hl Hb Hm H1 H2. assert (Hm0 := len_nonneg msg). assert (Hw := words_bound (len msg) Hm0). apply wp_bind, wp_gets. rewrite Ec.
  assert (Hp : AddPadded 8 (word_begin (cursor_at c)) {| b_value := len msg; b_capacity := 2 ^ 64 - 1 |} = cursor_at (words (len msg))).
  { unfold AddPadded, word_begin, cursor_at, words. cbn. f_equal. rewrite (wrap_small 64 (0 + len msg / 8)) by (unfold fits; dlia).
    destruct (Z.ltb_spec 0 (len msg mod 8)); rewrite wrap_small; unfold fits; dlia. }
  cbv zeta. rewrite Hp. unfold in_bounds. cbn [w_capacity w_value cursor_at]. rewrite wrap_small by (unfold fits; lia).
  destruct (Z.leb_spec 4096 (words (len msg) + c)); cbn [negb]; [apply wp_ret; apply H2; lia|].
  destruct (wrn_is_Some (data l) (8 * c) (pad8 msg)) as [d Ed]; [lia|rewrite len_pad8; lia|].
  apply wp_bind, (WritePaddedInternal_ok _ _ _ d); [lia|lia|lia|done|done|]. cbn [w_value].
  apply wp_bind. eapply wp_lift; [apply (word_add_ok c (words (len msg))); lia|]. apply wp_bind, wp_modify, wp_ret. apply H1; [lia|done].
Qed.

(** ** Appending *)

Definition conj_success (b : bool) (l : LogBuffer) : LogBuffer :=
  {| record := {| header := header (record l); raw_severity := raw_severity (record l); arg_size := arg_size (record l); current_key_size := current_key_size (record l);
       current_header_position := current_header_position (record l); dropped_count := dropped_count (record l); cursor := cursor (record l);
       encode_success := encode_success (record l) && b; ended := ended (record l) |}; data := data l |}.

(** The buffer after [bs], of [k] words, went in at the cursor. *)
Lemma holding_write l enc c bs k d : holding l enc -> cursor (record l) = cursor_at c -> 0 <= k -> len bs = 8 * k -> bytes_ok bs -> c + k < 4096 ->
  wrn (data l) (8 * c) bs = Some d -> holding (conj_success true (with_buffer l (c + k) d)) (enc ++ bs).
Proof.
  intros [[Hd Hb] (c' & Ec & Hc & Hs) He] Ec' Hk Hbs Hok Hfit Ew. rewrite Ec in Ec'. injection Ec' as ->. split; cbn; rewrite ?andb_true_r.
  - split; [by rewrite (wrn_len _ _ _ _ Ew)|]. by apply (wrn_bytes_ok _ _ _ _ Hb Hok Ew).
  - exists (c + k). split; [done|]. split; [lia|]. intros E. rewrite len_app, (Hs E). lia.
  - destruct (encode_success (record l)); [|rewrite len_app; assert (H := len_nonneg bs); lia]. destruct He as [rest Er]. specialize (Hs eq_refl).
    assert (Hrest : len rest = 32768 - 8 * c) by (rewrite Er, len_app in Hd; lia).
    destruct (split_at rest 0 (8 * k)) as (pre & x & rest' & -> & Hpre & Hx); [lia..|]. destruct pre; [|unfold len in Hpre; simpl in Hpre; lia]. simpl in Er.
    exists rest'. rewrite Er, <- Hs, wrn_middle in Ew by lia. injection Ew as <-. by rewrite app_assoc.
Qed.

(** The buffer when there was no room. *)
Lemma holding_fail l enc c bs k : holding l enc -> cursor (record l) = cursor_at c -> len bs = 8 * k -> 4096 <= c + k -> holding (conj_success false l) (enc ++ bs).
Proof.
  intros [Hd (c' & Ec & Hc & Hs) He] Ec' Hbs Hfit. rewrite Ec in Ec'. injection Ec' as ->. split; cbn; rewrite ?andb_false_r.
  - done.
  - by exists c.
  - rewrite len_app. assert (Hb := len_nonneg bs). destruct (encode_success (record l)); [specialize (Hs eq_refl); lia|lia].
Qed.

Lemma push_ok {A} w l enc (k : LM A) Q : holding l enc ->
  (forall l', holding l' (enc ++ le_split 8 w) -> same_record (record l) (record l') -> wp k l' Q) -> wp (b ← BufferWrite [w]; and_success b ;; k) l Q.
Proof.
  intros Ho HQ. destruct (ho_cursor _ _ Ho) as (c & Ec & Hc & _). destruct (ho_data _ _ Ho) as [Hd _]. apply wp_bind, (BufferWrite_ok _ _ c); [done|done|done|..].
  - intros d Hfit Ew. apply wp_bind, wp_modify. apply HQ; [|unfold same_record; cbn; by rewrite andb_true_r]. apply (holding_write l enc c _ 1 d); [done|done|lia|by rewrite len_split|apply le_split_ok|done|done].
  - intros Hfit. apply wp_bind, wp_modify. apply HQ; [|unfold same_record; cbn; by rewrite andb_false_r]. by apply (holding_fail l enc c _ 1); [..|rewrite len_split|].
Qed.

Lemma push_padded_ok msg l enc (Q : option WordOffset -> LogBuffer -> Prop) : holding l enc -> bytes_ok msg -> len msg < 2 ^ 60 ->
  (forall r l', holding (conj_success (bool_decide (is_Some r)) l') (enc ++ pad8 msg) -> same_record (record l) (record l') ->
     (encode_success (record l') && bool_decide (is_Some r) = true -> r = Some {| w_value := words (len msg); w_capacity := (2 ^ 64 - 1) / 8 |}) ->
     (r = None \/ r = Some {| w_value := words (len msg); w_capacity := (2 ^ 64 - 1) / 8 |} /\ words (len msg) < 4096) -> Q r l') ->
  wp (WritePadded msg {| b_value := len msg; b_capacity := 2 ^ 64 - 1 |}) l Q.
Proof.
  intros Ho Hok Hm HQ. destruct (ho_cursor _ _ Ho) as (c & Ec & Hc & _). destruct (ho_data _ _ Ho) as [Hd Hb]. assert (Hw := words_bound (len msg) (len_nonneg msg)).
  apply (WritePadded_ok _ _ c); [done|done|done|done|done|..].
  - intros d Hfit Ew. apply HQ; [|done|done|right; split; [done|lia]]. cbn. apply (holding_write l enc c _ (words (len msg)) d); [done|done|lia|by rewrite len_pad8| |done|done].
    unfold pad8. apply bytes_ok_app. split; [done|]. apply Forall_replicate. unfold byte_ok. lia.
  - intros Hfit. apply HQ; [|done|by rewrite andb_false_r|by left]. cbn. by apply (holding_fail l enc c _ (words (len msg))); [..|rewrite len_pad8|].
Qed.

(** Writing a word of the buffer. *)
Lemma patch_ok p h l enc enc' : holding l enc -> 0 <= p < 4096 -> len enc' = len enc ->
  (encode_success (record l) = true -> exists pre x post, enc = pre ++ x ++ post /\ len pre = 8 * p /\ len x = 8 /\ enc' = pre ++ le_split 8 h ++ post) ->
  wp (write_word p h) l (fun _ l' => holding l' enc' /\ record l' = record l).
Proof.
  intros [[Hd Hb] (c & Ec & Hc & Hs) He] Hp Hlen Henc. destruct (wrn_is_Some (data l) (8 * p) (le_split 8 h)) as [d Ed]; [lia|rewrite len_split; lia|].
  apply (wp_write_bytes _ _ _ d); [done|]. split; [|done]. split; cbn.
  - split; [by rewrite (wrn_len _ _ _ _ Ed)|]. by apply (wrn_bytes_ok _ _ _ _ Hb (le_split_ok _ _) Ed).
  - exists c. rewrite Hlen. split; [done|]. by split.
  - destruct (encode_success (record l)); [|lia]. destruct He as [rest Er]. destruct (Henc eq_refl) as (pre & x & post & -> & Hpre & Hx & ->).
    exists rest. rewrite Er, <- Hpre, <- !app_assoc, wrn_middle in Ed by (rewrite len_split; lia). injection Ed as <-. by rewrite <- !app_assoc.
Qed.

(** ** Headers of arguments *)

Lemma lor_shift a b k : 0 <= k -> 0 <= a < 2 ^ k -> Z.lor a (b * 2 ^ k) = a + b * 2 ^ k.
Proof.
  intros Hk Ha. symmetry. rewrite Z.add_nocarry_lxor, Z.lxor_lor; [done| |].
  all: apply Z.bits_inj'; intros i Hi; rewrite Z.land_spec, Z.bits_0, <- Z.shiftl_mul_pow2, Z.shiftl_spec by lia.
  all: destruct (Z.ltb_spec i k); [rewrite (Z.testbit_neg_r b) by lia; apply andb_false_r|].
  all: destruct (decide (a = 0)) as [->|]; [by rewrite Z.bits_0|].
  all: rewrite (Z.bits_above_log2 a); [done|lia|]; apply Z.log2_lt_pow2; [lia|]; apply Z.lt_le_trans with (2 ^ k); [lia|apply Z.pow_le_mono_r; lia].
Qed.

Lemma Make_small first v : 0 <= first -> 0 <= v -> v * 2 ^ first < 2 ^ 64 -> Make first v = v * 2 ^ first.
Proof.
  intros Hf Hv H. assert (1 <= 2 ^ first) by (assert (0 < 2 ^ first) by (apply Z.pow_pos_nonneg; lia); lia).
  unfold Make. rewrite (wrap_small 64 v) by (unfold fits; nia). rewrite Z.shiftl_mul_pow2 by done. apply wrap_small. unfold fits. nia.
Qed.

Lemma header_bits type size key upper r : 0 <= type < 16 -> 0 <= size < 4096 -> 0 <= key < 2 ^ 15 -> 0 <= upper < 2 ^ 32 ->
  w_value (arg_size r) = size -> b_value (current_key_size r) = key ->
  Z.lor (ComputeArgHeader r type) (Make 32 upper) = type + size * 2 ^ 4 + inline_ref key * 2 ^ 16 + upper * 2 ^ 32.
Proof.
  intros Ht Hs Hk Hu Es Ek. unfold ComputeArgHeader. rewrite Es, Ek. cbv zeta. rewrite !Make_small by (destruct (0 <? key); lia).
  rewrite Z.mul_0_l, Z.lor_0_r, Z.pow_0_r, Z.mul_1_r. rewrite (lor_shift type size 4) by lia. rewrite (lor_shift _ key 16) by lia.
  rewrite (lor_shift _ _ 31) by lia. rewrite (lor_shift _ upper 32) by (destruct (0 <? key); lia). unfold inline_ref. destruct (Z.ltb_spec 0 key); lia.
Qed.

(** ** Arguments *)

Definition word_cap : Z := (2 ^ 64 - 1) / 8.

(** The state between the key and the value of an argument that goes after [enc]. *)
Record keyed (l : LogBuffer) (enc tail key : list Z) (size : Z) (r0 : RecordState) : Prop := {
  ky_holding : holding l (enc ++ le_split 8 0 ++ tail);
  ky_position : 0 <= current_header_position (record l) < 4096 /\ (encode_success (record l) = true -> len enc = 8 * current_header_position (record l));
  ky_key : current_key_size (record l) = {| b_value := len key; b_capacity := 2 ^ 64 - 1 |};
  ky_size : w_capacity (arg_size (record l)) = word_cap /\
            (encode_success (record l) = true -> w_value (arg_size (record l)) = size);
  ky_rest : header (record l) = header r0 /\ raw_severity (record l) = raw_severity r0 /\ ended (record l) = ended r0;
}.

Lemma slice_size_ok s : len s < 2 ^ 60 -> slice_size s = Some ({| w_value := len s; w_capacity := 2 ^ 64 - 1 |}, {| b_value := len s; b_capacity := 2 ^ 64 - 1 |}).
Proof.
  intros H. assert (Hs := len_nonneg s). unfold slice_size, FromByteOffset, AssertAlignedTo, Unbounded, ToByteOffset, FromBuffer, ByteOffset_AssertValid, valid_offset.
  cbn [b_value]. rewrite Z.mod_1_r. cbn. rewrite !Z.div_1_r, !Z.mul_1_r. rewrite !wrap_small by (unfold fits; lia).
  rewrite (proj2 (Z.ltb_lt _ _)) by lia. by rewrite orb_true_r.
Qed.

Lemma size_add_ok w k : w_capacity w = word_cap -> 0 <= w_value w <= 8192 -> 0 <= k <= 4096 -> word_add w k = Some {| w_value := w_value w + k; w_capacity := word_cap |}.
Proof.
  intros Hc Hw Hk. assert (word_cap = 2305843009213693951) by done. unfold word_add, WordOffset_AssertValid, valid_offset. cbn. rewrite Hc, wrap_small by (unfold fits; lia).
  rewrite (proj2 (Z.ltb_lt _ _)) by lia. by rewrite orb_true_r.
Qed.

Lemma holding_record l l' enc : holding l enc -> data l' = data l -> cursor (record l') = cursor (record l) -> encode_success (record l') = encode_success (record l) -> holding l' enc.
Proof. intros [H1 H2 H3] E1 E2 E3. split; rewrite ?E1, ?E2, ?E3; done. Qed.

Lemma AppendArgumentKey_ok key l enc : holding l enc -> bytes_ok key -> len key < 2 ^ 60 ->
  wp (AppendArgumentKey key) l (fun _ l' => keyed l' enc (pad8 key) key (1 + words (len key)) (record l) /\ 0 <= w_value (arg_size (record l')) <= 4097).
Proof.
  intros Ho Hk Hl. destruct (ho_cursor _ _ Ho) as (c & Ec & Hc & Hs). unfold AppendArgumentKey, FlushPreviousArgument. do 2 apply wp_bind. apply wp_gets. apply wp_modify.
  apply wp_bind, wp_gets. cbn [record cursor]. match goal with |- wp _ ?x _ => set (l1 := x) end.
  assert (Ho1 : holding l1 enc) by by apply (holding_record l). apply (push_ok _ _ enc); [done|].
  intros l2 Ho2 (Hh & Hsv & _ & _ & _ & He & Hm).
  apply wp_bind. eapply wp_lift; [apply (unbounded_words 0); done|]. apply wp_bind. eapply wp_lift; [by apply slice_size_ok|]. cbn [fst snd].
  apply wp_bind, (push_padded_ok _ _ (enc ++ le_split 8 0)); [done|done|done|]. intros r l3 Ho3 (Hh3 & Hsv3 & _ & _ & _ & He3 & Hm3) Hr Hrw.
  assert (Hw := words_bound (len key) (len_nonneg key)). apply wp_bind, wp_modify. apply wp_bind.
  eapply wp_lift; [apply size_add_ok; [by destruct Hrw as [->|[-> _]]|destruct Hrw as [->|[-> ?]]; cbn; [done|]; lia|lia]|].
  apply wp_bind, wp_modify, wp_modify. rewrite Ec. split; [split; cbn|cbn; destruct Hrw as [->|[-> ?]]; cbn; [done|]; lia].
  - rewrite app_assoc. apply (holding_record _ _ _ Ho3); cbn; [done|done|]. by destruct r.
  - split; [done|]. intros E. apply Hs. apply andb_true_iff in E as [E _]. by apply Hm, Hm3.
  - done.
  - split; [done|]. intros E. rewrite Hr; [cbn; lia|]. destruct r; cbn in *; [|by rewrite andb_false_r in E]. exact E.
  - unfold l1 in Hh, Hsv, He. cbn in Hh, Hsv, He. split_and!; congruence.
Qed.

(** The header of the argument, once its value is there. *)
Lemma put_arg_header_ok type rest l enc tail key size r0 h : keyed l enc tail key size r0 ->
  (encode_success (record l) = true -> Z.lor (ComputeArgHeader (record l) type) rest = h) ->
  wp (put_arg_header type rest) l (fun _ l' => holding l' (enc ++ le_split 8 h ++ tail) /\ header (record l') = header r0 /\ raw_severity (record l') = raw_severity r0 /\ ended (record l') = ended r0).
Proof.
  intros K Hh. apply wp_bind, wp_gets. destruct (ky_position _ _ _ _ _ _ K) as [Hp Hpe].
  eapply wp_mono; [eapply (patch_ok _ _ _ _ (enc ++ le_split 8 h ++ tail)); [apply K|done|by rewrite !len_app, !len_split|]|].
  - intros E. exists enc, (le_split 8 0), tail. split; [done|]. split; [by apply Hpe|]. split; [apply len_split|]. by rewrite Hh.
  - intros [] l' [Ho Er]. split; [done|]. rewrite Er. apply K.
Qed.

(** Everything that was encoded fits the fields of the headers. *)
Lemma keyed_bounds l enc tail key size r0 : keyed l enc tail key size r0 -> encode_success (record l) = true -> len enc + 8 + len tail < 32768.
Proof.
  intros K E. destruct (ho_cursor _ _ (ky_holding _ _ _ _ _ _ K)) as (c & _ & Hc & Hs). specialize (Hs E). rewrite !len_app, len_split in Hs. lia.
Qed.

(** An argument whose value is a word. *)
Lemma word_value_ok v w l enc key r0 (keep : bool) : keyed l enc (pad8 key) key (1 + words (len key)) r0 -> 0 <= w_value (arg_size (record l)) <= 4097 ->
  value_bytes v = le_split 8 w -> upper_half v = 0 -> claimed_size key v = 1 + words (len key) + (if keep then 0 else 1) ->
  wp (b ← BufferWrite [w]; and_success b ;; a ← gets (fun l => arg_size (record l)); a' ← lift (word_succ a);
      (if keep then mret tt else set_arg_size a') ;; put_arg_header (type_of v) 0) l
     (fun _ l' => holding l' (enc ++ encode_arg (key, v)) /\ header (record l') = header r0 /\ raw_severity (record l') = raw_severity r0 /\ ended (record l') = ended r0).
Proof.
  intros K Hrange Hv Hu Hc. destruct (ky_size _ _ _ _ _ _ K) as (Hcap & Hsize). apply (push_ok _ _ (enc ++ le_split 8 0 ++ pad8 key)); [apply K|].
  intros l2 Ho (Hh & Hsv & Ha & Hk & Hp & He & Hm). apply wp_bind, wp_gets. rewrite Ha. apply wp_bind. eapply wp_lift; [apply size_add_ok; [done|lia|lia]|].
  assert (K2 : keyed {| record := {| header := header (record l2); raw_severity := raw_severity (record l2);
      arg_size := if keep then arg_size (record l2) else {| w_value := w_value (arg_size (record l)) + 1; w_capacity := word_cap |};
      current_key_size := current_key_size (record l2); current_header_position := current_header_position (record l2); dropped_count := dropped_count (record l2);
      cursor := cursor (record l2); encode_success := encode_success (record l2); ended := ended (record l2) |}; data := data l2 |}
    enc (pad8 key ++ le_split 8 w) key (1 + words (len key) + (if keep then 0 else 1)) r0).
  { destruct K as [K1 [K2 K2'] K3 K4 (K5 & K6 & K7)]. split; cbn.
    - rewrite app_assoc in Ho. rewrite <- !app_assoc in Ho. rewrite app_assoc in Ho. rewrite <- !app_assoc in Ho. apply (holding_record l2); [|done..]. exact Ho.
    - rewrite Hp. split; [done|]. intros E. by apply K2', Hm.
    - by rewrite Hk.
    - destruct keep; cbn; rewrite ?Ha; (split; [done|]); intros E; rewrite Hsize by (by apply Hm); lia.
    - split_and!; congruence. }
  apply wp_bind. match type of K2 with keyed ?x _ _ _ _ _ => assert (Hstep : forall Q, Q tt x -> wp (if keep then mret tt else set_arg_size {| w_value := w_value (arg_size (record l)) + 1; w_capacity := word_cap |}) l2 Q) end.
  { intros Q HQ. destruct keep; [apply wp_ret; by destruct l2 as [[] ?]|by apply wp_modify]. }
  apply Hstep. eapply wp_mono; [apply (put_arg_header_ok _ _ _ _ _ _ _ _ (arg_header key v) K2)|].
  - intros E. cbn in E. assert (Hbd := keyed_bounds _ _ _ _ _ _ K2 E). rewrite len_app, len_pad8, len_split in Hbd. assert (Hw := words_bound (len key) (len_nonneg key)).
    assert (He0 := len_nonneg enc). assert (Hl0 := len_nonneg key). unfold arg_header. rewrite Hu, Hc. change 0 with (Make 32 0) at 1. destruct (ky_size _ _ _ _ _ _ K2) as (_ & Hs2). specialize (Hs2 E).
    rewrite (header_bits _ (1 + words (len key) + (if keep then 0 else 1)) (len key) 0); [done|destruct v; cbn; lia|destruct keep; lia|lia|lia|done|by rewrite (ky_key _ _ _ _ _ _ K2)].
  - intros [] l' (Ho' & ?). split; [|done]. unfold encode_arg. cbn [fst snd]. by rewrite Hv.
Qed.

(** ** Records *)

Definition value_ok (v : log_value) : Prop :=
  match v with VInt v => -2 ^ 63 <= v < 2 ^ 63 | VUint v | VDouble v => fits 64 v | VString s => bytes_ok s /\ len s < 2 ^ 60 | VBool _ => True end.
Definition arg_ok (a : list Z * log_value) : Prop := bytes_ok a.1 /\ len a.1 < 2 ^ 60 /\ value_ok a.2.

(** What a step keeps of the record. *)
Definition kept (r0 r : RecordState) : Prop := header r = header r0 /\ raw_severity r = raw_severity r0 /\ ended r = ended r0.

Lemma string_value_ok s l enc key r0 : keyed l enc (pad8 key) key (1 + words (len key)) r0 -> 0 <= w_value (arg_size (record l)) <= 4097 -> bytes_ok s -> len s < 2 ^ 60 ->
  wp (AppendArgumentValue_string s) l (fun _ l' => holding l' (enc ++ encode_arg (key, VString s)) /\ kept r0 (record l')).
Proof.
  intros K Hrange Hs Hl. destruct (ky_size _ _ _ _ _ _ K) as (Hcap & Hsize). assert (Hw := words_bound (len s) (len_nonneg s)). assert (Hs0 := len_nonneg s).
  apply wp_bind. eapply wp_lift; [apply (unbounded_words 0); done|]. apply wp_bind. eapply wp_lift; [by apply slice_size_ok|]. cbn [fst snd].
  apply wp_bind, (push_padded_ok _ _ (enc ++ le_split 8 0 ++ pad8 key)); [apply K|done|done|]. intros r l2 Ho (Hh & Hsv & Ha & Hk & Hp & He & Hm) Hr Hrw.
  apply wp_bind, wp_modify. apply wp_bind, wp_gets. cbn [record arg_size]. rewrite Ha. apply wp_bind.
  eapply wp_lift; [apply size_add_ok; [done|lia|destruct Hrw as [->|[-> ?]]; cbn; [done|]; lia]|]. apply wp_bind, wp_modify. cbv zeta. cbn [w_value].
  match goal with |- wp _ ?x _ => assert (K2 : keyed x enc (pad8 key ++ pad8 s) key (1 + words (len key) + words (len s)) r0) end.
  { destruct K as [K1 [K2 K2'] K3 K4 (K5 & K6 & K7)]. split; cbn.
    - rewrite <- !app_assoc in Ho. apply (holding_record _ _ _ Ho); cbn; [done|done|]. by destruct r.
    - rewrite Hp. split; [done|]. intros E. apply andb_true_iff in E as [E _]. by apply K2', Hm.
    - by rewrite Hk.
    - split; [done|]. intros E. rewrite Hr; [cbn|destruct r; cbn in *; [exact E|by rewrite andb_false_r in E]]. apply andb_true_iff in E as [E _]. rewrite Hsize by (by apply Hm). lia.
    - split_and!; congruence. }
  eapply wp_mono; [apply (put_arg_header_ok _ _ _ _ _ _ _ _ (arg_header key (VString s)) K2)|].
  - intros E. assert (Hbd := keyed_bounds _ _ _ _ _ _ K2 E). rewrite len_app, !len_pad8 in Hbd. assert (Hwk := words_bound (len key) (len_nonneg key)).
    assert (He0 := len_nonneg enc). assert (Hl0 := len_nonneg key). unfold arg_header. destruct (ky_size _ _ _ _ _ _ K2) as (_ & Hs2). specialize (Hs2 E).
    assert (Href : (if 0 <? len s then Z.lor (2 ^ 15) (len s) else 0) = inline_ref (len s)).
    { unfold inline_ref. destruct (Z.ltb_spec 0 (len s)); [|done]. rewrite Z.lor_comm. change (2 ^ 15) with (1 * 2 ^ 15). rewrite lor_shift by lia. lia. }
    rewrite Href. assert (Hir : 0 <= inline_ref (len s) < 2 ^ 16) by (unfold inline_ref; destruct (0 <? len s); lia).
    rewrite (header_bits _ (1 + words (len key) + words (len s)) (len key) (inline_ref (len s))); [done|lia|lia|lia|lia|done|by rewrite (ky_key _ _ _ _ _ _ K2)].
  - intros [] l' (Ho' & ?). split; [|done]. unfold encode_arg. done.
Qed.

Lemma bool_value_ok b l enc key r0 : keyed l enc (pad8 key) key (1 + words (len key)) r0 ->
  wp (AppendArgumentValue_bool b) l (fun _ l' => holding l' (enc ++ encode_arg (key, VBool b)) /\ kept r0 (record l')).
Proof.
  intros K. eapply wp_mono; [apply (put_arg_header_ok _ _ _ _ _ _ _ _ (arg_header key (VBool b)) K)|].
  - intros E. assert (Hbd := keyed_bounds _ _ _ _ _ _ K E). rewrite len_pad8 in Hbd. assert (Hwk := words_bound (len key) (len_nonneg key)).
    assert (He0 := len_nonneg enc). assert (Hl0 := len_nonneg key). destruct (ky_size _ _ _ _ _ _ K) as (_ & Hs2). specialize (Hs2 E).
    unfold arg_header, claimed_size. rewrite Z.add_0_r.
    rewrite (header_bits _ (1 + words (len key)) (len key)); [done|lia|lia|lia|destruct b; lia|done|by rewrite (ky_key _ _ _ _ _ _ K)].
  - intros [] l' (Ho' & ?). split; [|done]. unfold encode_arg. cbn [fst snd value_bytes]. by rewrite app_nil_r.
Qed.

(** A key and its value. *)
Lemma WriteKeyValue_ok key v l enc : holding l enc -> arg_ok (key, v) ->
  wp (WriteKeyValue key v) l (fun _ l' => holding l' (enc ++ encode_arg (key, v)) /\ kept (record l) (record l')).
Proof.
  intros Ho (Hk & Hl & Hv). cbn [fst snd] in *. apply wp_bind. eapply wp_mono; [by apply (AppendArgumentKey_ok key l enc)|]. intros [] l1 [K Hr].
  destruct v as [v|v|v|s|b]; cbn [AppendArgumentValue value_ok] in *.
  - apply (word_value_ok (VInt v) (wrap 64 v) l1 enc key (record l) true); done.
  - apply (word_value_ok (VUint v) v l1 enc key (record l) false); done.
  - apply (word_value_ok (VDouble v) v l1 enc key (record l) false); done.
  - destruct Hv. by apply string_value_ok.
  - by apply bool_value_ok.
Qed.

(** ** The structured log encoder: properties *)



#[local] Arguments chars : simpl never.

(** ** File names *)

(** A path without the dots in front of it. *)
Fixpoint strip (s : list Z) : list Z :=
  match s with
  | a :: s1 => match s1 with
               | b :: s2 => match s2 with
                            | c :: s3 => if (a =? 46) && (b =? 46) && (c =? 47) then strip s3 else s
                            | [] => s
                            end
               | [] => s
               end
  | [] => s
  end.

Lemma dots : chars "../" = [46; 46; 47].
Proof. done. Qed.

(** The comparison after the last turn finds a difference within the memory that can be read.
    It is made on what is left of the view, so that this is in question only if that is
    shorter than the prefix. *)
Definition stops (v : string_view) : bool := bool_decide (starts_with (chars "../") (strip (characters v) ++ after v) = Some false).

Lemma StripDots_loop_ok fuel : forall s rest, (length s <= fuel)%nat ->
  StripDots_loop fuel {| characters := s; after := rest |} = if stops {| characters := s; after := rest |} then Some {| characters := strip s; after := rest |} else None.
Proof.
  assert (Hshort : forall fuel s rest, (length s < 3)%nat ->
    StripDots_loop fuel {| characters := s; after := rest |} = if stops {| characters := s; after := rest |} then Some {| characters := strip s; after := rest |} else None).
  { intros n s rest Hs. assert (E : strip s = s) by (by destruct s as [|a [|b [|c s]]]; cbn in Hs; try lia). unfold stops. cbn [characters after]. rewrite E.
    assert (Hl : (len s <? 3) = true) by (apply Z.ltb_lt; unfold len; lia). destruct n; cbn [StripDots_loop characters after]; destruct (starts_with _ _) as [[]|]; cbn; by rewrite ?Hl. }
  induction fuel as [|fuel IH]; intros s rest Hf; [apply Hshort; lia|].
  destruct s as [|a [|b [|c s]]]; [apply Hshort; cbn; lia..|]. cbn [StripDots_loop]. unfold stops. rewrite dots. cbn [starts_with app characters after strip].
  rewrite (Z.eqb_sym 46 a), (Z.eqb_sym 46 b), (Z.eqb_sym 47 c). destruct (a =? 46) eqn:Ea, (b =? 46) eqn:Eb, (c =? 47) eqn:Ec; cbn [andb];
    try (cbn [starts_with app]; rewrite ?(Z.eqb_sym 46 a), ?(Z.eqb_sym 46 b), ?(Z.eqb_sym 47 c), ?Ea, ?Eb, ?Ec; done).
  cbn -[Z.ltb strip]. rewrite (proj2 (Z.ltb_ge _ _)) by (unfold len; simpl; lia). rewrite drop_0. rewrite IH by (simpl in Hf; lia). unfold stops. by rewrite dots.
Qed.

Lemma StripDots_ok v : StripDots v = if stops v then Some {| characters := strip (characters v); after := after v |} else None.
Proof. destruct v. by apply StripDots_loop_ok. Qed.

(** ** Records *)

Lemma push_last_ok w l enc : holding l enc -> wp (b ← BufferWrite [w]; and_success b) l (fun _ l' => holding l' (enc ++ le_split 8 w) /\ same_record (record l) (record l')).
Proof.
  intros Ho. assert (H : wp (b ← BufferWrite [w]; and_success b ;; mret tt) l (fun _ l' => holding l' (enc ++ le_split 8 w) /\ same_record (record l) (record l'))).
  { apply (push_ok _ _ enc); [done|]. intros l' H1 H2. by apply wp_ret. }
  apply wp_bind_inv in H. apply wp_bind. eapply wp_mono; [exact H|]. intros b l1 H1. apply wp_bind_inv in H1. eapply wp_mono; [exact H1|].
  intros [] l2 (a & l3 & E & HQ). by injection E as <- <-.
Qed.

Fixpoint write_all (kvs : list (list Z * log_value)) : LM unit :=
  match kvs with [] => mret tt | (k, v) :: kvs => WriteKeyValue k v ;; write_all kvs end.

Lemma kept_trans r0 r1 r2 : kept r0 r1 -> kept r1 r2 -> kept r0 r2.
Proof. unfold kept. intros (? & ? & ?) (? & ? & ?). split_and!; congruence. Qed.

Lemma write_all_ok kvs : forall l enc, holding l enc -> Forall arg_ok kvs ->
  wp (write_all kvs) l (fun _ l' => holding l' (enc ++ encode_args kvs) /\ kept (record l) (record l')).
Proof.
  induction kvs as [|[k v] kvs IH]; intros l enc Ho Hk; simpl.
  - apply wp_ret. unfold encode_args. simpl. rewrite app_nil_r. by split.
  - inversion Hk as [|? ? Ha Hk' E1]; subst. apply wp_bind. eapply wp_mono; [by apply WriteKeyValue_ok|]. intros [] l1 [Ho1 K1].
    eapply wp_mono; [by apply IH|]. intros [] l2 [Ho2 K2]. split; [|by apply (kept_trans _ (record l1))].
    change (encode_args ((k, v) :: kvs)) with (encode_arg (k, v) ++ encode_args kvs). by rewrite app_assoc.
Qed.

(** Arguments one after the other. *)
Lemma wp_then_all {A} kvs l enc (k : LM A) Q : holding l enc -> Forall arg_ok kvs ->
  (forall l', holding l' (enc ++ encode_args kvs) -> kept (record l) (record l') -> wp k l' Q) -> wp (write_all kvs ;; k) l Q.
Proof. intros Ho Hk HQ. apply wp_bind. eapply wp_mono; [by apply write_all_ok|]. intros [] l' [? ?]. by apply HQ. Qed.

Definition invalid_severity (severity : Z) : bool := negb (Z.rem severity 0x10 =? 0) || (0x60 <? severity) || (severity <? 0x10).
Definition used_severity (severity : Z) : Z := if invalid_severity severity then 0x20 else severity.
Definition raw_of (severity : Z) : option Z := if invalid_severity severity then Some severity else None.

Lemma used_severity_range s : 0x10 <= used_severity s <= 0x60.
Proof. unfold used_severity, invalid_severity. destruct (Z.ltb_spec 0x60 s), (Z.ltb_spec s 0x10), (Z.rem s 16 =? 0); cbn; lia. Qed.

(** A view of bytes. *)
Definition view_ok (v : option string_view) : Prop :=
  match v with Some v => bytes_ok (characters v) /\ len (characters v) < 2 ^ 60 | None => True end.
(** The file name is stripped of its dots within the memory that can be read. *)
Definition file_stops (file : option string_view) : bool := match file with Some f => stops f | None => true end.

Lemma chars_ok s : bytes_ok (chars s).
Proof.
  unfold chars, bytes_ok. apply Forall_fmap, Forall_forall. intros a _. unfold byte_ok. assert (H := Ascii.N_ascii_bounded a). simpl. lia.
Qed.

Lemma encode_args_app a b : encode_args (a ++ b) = encode_args a ++ encode_args b.
Proof. unfold encode_args. by rewrite fmap_app, join_app. Qed.

Lemma literal_ok s v : value_ok v -> len (chars s) < 2 ^ 60 -> arg_ok (chars s, v).
Proof. intros Hv Hl. split; [apply chars_ok|done]. Qed.

(** A part of a routine that appends arguments. *)
Definition appends (p : LM unit) (kvs : list (list Z * log_value)) : Prop :=
  forall l enc, holding l enc -> wp p l (fun _ l' => holding l' (enc ++ encode_args kvs) /\ kept (record l) (record l')).

Lemma appends_one key v : arg_ok (key, v) -> appends (WriteKeyValue key v) [(key, v)].
Proof.
  intros Hk l enc Ho. eapply wp_mono; [by apply WriteKeyValue_ok|]. intros [] l' [H1 H2]. split; [|done]. unfold encode_args. simpl. by rewrite app_nil_r.
Qed.
Lemma appends_ret : appends (mret tt) [].
Proof. intros l enc Ho. apply wp_ret. split; [|done]. change (encode_args []) with (@nil Z). by rewrite app_nil_r. Qed.
Lemma appends_then p q a b : appends p a -> appends q b -> appends (p ;; q) (a ++ b).
Proof.
  intros Hp Hq l enc Ho. apply wp_bind. eapply wp_mono; [by apply Hp|]. intros [] l1 [Ho1 K1]. eapply wp_mono; [by apply Hq|]. intros [] l2 [Ho2 K2].
  split; [by rewrite encode_args_app, app_assoc|by apply (kept_trans _ (record l1))].
Qed.

Lemma EncoderBegin_ok now severity l : len (data l) = 32768 -> bytes_ok (data l) -> cursor (record l) = cursor_at 0 -> encode_success (record l) = true -> ended (record l) = false ->
  wp (EncoderBegin now severity) l (fun _ l' => holding l' (record_bytes 0 (wrap 64 now) []) /\
    header (record l') = 0 /\ raw_severity (record l') = severity /\ ended (record l') = false).
Proof.
  intros Hd Hb Hc Hs He. apply wp_bind, wp_gets. rewrite Hc. apply wp_bind, wp_modify. match goal with |- wp _ ?x _ => assert (Ho : holding x []) end.
  { split; cbn; [done| |]; [exists 0; rewrite Hc; split; [done|]; split; [lia|done]|]. rewrite Hs. by exists (data l). }
  apply (push_ok _ _ []); [done|]. intros l1 Ho1 (Hh & Hv & _ & _ & _ & He1 & _). eapply wp_mono; [by apply push_last_ok|].
  intros [] l2 [Ho2 (Hh2 & Hv2 & _ & _ & _ & He2 & _)]. cbn in *. split; [|split_and!; congruence]. unfold record_bytes. change (encode_args []) with (@nil Z). rewrite app_nil_r. exact Ho2.
Qed.

Lemma record_bytes_app h now a b : record_bytes h now a ++ encode_args b = record_bytes h now (a ++ b).
Proof. unfold record_bytes. by rewrite encode_args_app, <- !app_assoc. Qed.

Lemma strip_ok s : bytes_ok s -> len s < 2 ^ 60 -> bytes_ok (strip s) /\ len (strip s) < 2 ^ 60.
Proof.
  assert (H : forall n s, (length s <= n)%nat -> bytes_ok s -> len s < 2 ^ 60 -> bytes_ok (strip s) /\ len (strip s) < 2 ^ 60).
  { induction n as [|n IH]; intros t Hn Hb Hl.
    - destruct t; [done|simpl in Hn; lia].
    - destruct t as [|a [|b [|c t]]]; try done. cbn [strip]. case_match; [|done]. apply IH; [simpl in Hn; lia| |unfold len in *; simpl in *; lia].
      inversion Hb as [|? ? ? Hb1]; inversion Hb1 as [|? ? ? Hb2]; by inversion Hb2. }
  by apply (H (length s)).
Qed.

(** The file name as it is written. *)
Definition stripped (f : option string_view) : option (list Z) := (fun f => strip (characters f)) <$> f.

Lemma appends_dropped n : appends (set_dropped n) [].
Proof. intros l enc Ho. apply wp_modify. change (encode_args []) with (@nil Z). rewrite app_nil_r. split; [|done]. by apply (holding_record l). Qed.

(** A part of a routine that does not return. *)
Definition fails (p : LM unit) : Prop := forall l enc, holding l enc -> p l = None.

Lemma fails_then p q : fails p -> fails (p ;; q).
Proof. intros Hp l enc Ho. unfold mbind, ST_bind. by rewrite (Hp l enc Ho). Qed.
Lemma appends_fails p q a : appends p a -> fails q -> fails (p ;; q).
Proof. intros Hp Hq l enc Ho. destruct (Hp l enc Ho) as ([] & l1 & E & Ho1 & _). unfold mbind, ST_bind. rewrite E. by eapply Hq. Qed.

Lemma fails_file file : file_stops file = false ->
  fails match file with Some f => AppendArgumentKey (chars "file") ;; f ← lift (StripDots f); AppendArgumentValue_string (characters f) | None => mret tt end.
Proof.
  destruct file as [f|]; [|done]. intros Hs l enc Ho. destruct (AppendArgumentKey_ok (chars "file") l enc) as ([] & l1 & E & _); [done|apply chars_ok|done|].
  unfold mbind, ST_bind. rewrite E. unfold lift. rewrite StripDots_ok. cbn in Hs. by rewrite Hs.
Qed.

Lemma appends_file file : view_ok file -> file_stops file = true ->
  appends match file with Some f => AppendArgumentKey (chars "file") ;; f ← lift (StripDots f); AppendArgumentValue_string (characters f) | None => mret tt end
          match stripped file with Some f => [(chars "file", VString f)] | None => [] end.
Proof.
  destruct file as [[s a]|]; [|intros _ _; apply appends_ret]. cbn. intros (Hb & Hl) Hs l enc Ho. destruct (strip_ok s Hb Hl) as [Hb' Hl'].
  apply wp_bind. eapply wp_mono; [apply (AppendArgumentKey_ok (chars "file") l enc); [done|apply chars_ok|done]|]. intros [] l1 [K Hr].
  apply wp_bind. eapply wp_lift; [etrans; [apply (StripDots_ok {| characters := s; after := a |})|by rewrite Hs]|]. cbn [characters]. eapply wp_mono; [by apply (string_value_ok _ _ enc (chars "file") (record l))|].
  intros [] l' [H1 H2]. split; [|done]. unfold encode_args. simpl. by rewrite app_nil_r.
Qed.

Lemma BeginRecord_ok now severity file line message dropped pid tid l : len (data l) = 32768 -> bytes_ok (data l) -> -128 <= severity < 128 -> view_ok file -> view_ok message ->
  fits 64 line -> fits 64 dropped -> fits 64 pid -> fits 64 tid ->
  if file_stops file then wp (BeginRecord now severity file line message dropped pid tid) l (fun _ l' =>
    holding l' (record_bytes 0 (wrap 64 now) (begin_args (raw_of severity) dropped (characters <$> message) (stripped file) line pid tid)) /\
    header (record l') = 0 /\ raw_severity (record l') = used_severity severity /\ ended (record l') = false)
  else BeginRecord now severity file line message dropped pid tid l = None.
Proof.
  intros Hd Hb Hsev Hfile Hmsg Hline Hdr Hpid Htid. unfold BeginRecord. change (negb (Z.rem severity 16 =? 0) || (96 <? severity) || (severity <? 16)) with (invalid_severity severity).
  cbv zeta. fold (raw_of severity).
  assert (H1 : appends (WriteKeyValue (chars "pid") (VUint pid)) [(chars "pid", VUint pid)]) by by apply appends_one, literal_ok.
  assert (H2 : appends (WriteKeyValue (chars "tid") (VUint tid)) [(chars "tid", VUint tid)]) by by apply appends_one, literal_ok.
  assert (H3 := appends_dropped dropped).
  assert (H4 : appends match raw_of severity with Some v => WriteKeyValue (chars "verbosity") (VInt v) | None => mret tt end match raw_of severity with Some v => [(chars "verbosity", VInt v)] | None => [] end).
  { unfold raw_of. destruct (invalid_severity severity); [apply appends_one, literal_ok; [cbn; lia|done]|apply appends_ret]. }
  assert (H5 : appends (if dropped =? 0 then mret tt else WriteKeyValue (chars "dropped_logs") (VUint dropped)) (if dropped =? 0 then [] else [(chars "dropped_logs", VUint dropped)])).
  { destruct (dropped =? 0); [apply appends_ret|by apply appends_one, literal_ok]. }
  assert (H6 : appends match message with Some m => WriteKeyValue (chars "message") (VString (characters m)) | None => mret tt end
    match characters <$> message with Some m => [(chars "message", VString m)] | None => [] end).
  { destruct message as [m|]; [|apply appends_ret]. destruct Hmsg as (? & ?). by apply appends_one, literal_ok. }
  assert (H8 : appends (WriteKeyValue (chars "line") (VUint line)) [(chars "line", VUint line)]) by by apply appends_one, literal_ok.
  assert (Hbegin : forall k Q, (forall l1, holding l1 (record_bytes 0 (wrap 64 now) []) -> header (record l1) = 0 -> raw_severity (record l1) = used_severity severity -> ended (record l1) = false -> wp k l1 Q) ->
    wp (r ← lift RecordState_new; set_record (fun _ => r) ;; EncoderBegin now (used_severity severity) ;; k) l (Q : unit -> LogBuffer -> Prop)).
  { intros k Q Hk. apply wp_bind. eapply wp_lift; [done|]. apply wp_bind, wp_modify. apply wp_bind. eapply wp_mono; [apply (EncoderBegin_ok now (used_severity severity)); done|].
    intros [] l1 (? & ? & ? & ?). by apply Hk. }
  destruct (file_stops file) eqn:Ef.
  - apply Hbegin. intros l1 Ho1 K1 K1' K1''. assert (H7 := appends_file file Hfile Ef).
    eapply wp_mono; [exact (appends_then _ _ _ _ H1 (appends_then _ _ _ _ H2 (appends_then _ _ _ _ H3 (appends_then _ _ _ _ H4 (appends_then _ _ _ _ H5 (appends_then _ _ _ _ H6 (appends_then _ _ _ _ H7 H8)))))) l1 _ Ho1)|].
    intros [] l2 [Ho2 (K2 & K3 & K4)]. rewrite record_bytes_app in Ho2. split; [exact Ho2|split_and!; congruence].
  - assert (H7 := fails_then _ (WriteKeyValue (chars "line") (VUint line)) (fails_file file Ef)).
    assert (Hf := appends_fails _ _ _ H1 (appends_fails _ _ _ H2 (appends_fails _ _ _ H3 (appends_fails _ _ _ H4 (appends_fails _ _ _ H5 (appends_fails _ _ _ H6 H7)))))).
    destruct (Hbegin (mret tt) (fun _ l1 => holding l1 (record_bytes 0 (wrap 64 now) []))) as ([] & l1 & E & Ho1); [intros; by apply wp_ret|].
    specialize (Hf _ _ Ho1). clear -E Hf. unfold mbind, ST_bind, mret, ST_ret in E, Hf |- *. destruct (lift RecordState_new l) as [[r l']|]; [|done]. destruct (set_record _ l') as [[[] l2]|]; [|done].
    change (EncoderBegin now (if invalid_severity severity then FUCHSIA_LOG_DEBUG else severity)) with (EncoderBegin now (used_severity severity)).
    destruct (EncoderBegin now (used_severity severity) l2) as [[[] l3]|]; [|done]. injection E as ->. exact Hf.
Qed.

(** ** Flushing *)

Lemma record_header_bits c s : 0 <= c < 4096 -> 0 <= s < 256 ->
  Z.lor (Z.lor (Z.lor (Make 0 9) (Make 4 c)) (Make 16 0)) (Make 56 s) = 9 + c * 2 ^ 4 + s * 2 ^ 56.
Proof.
  intros Hc Hs. rewrite !Make_small by lia. rewrite Z.mul_0_l, Z.lor_0_r. change (9 * 2 ^ 0) with 9. rewrite (lor_shift 9 c 4) by lia. by rewrite lor_shift by lia.
Qed.

Lemma EndRecord_ok now args l : holding l (record_bytes 0 now args) -> header (record l) = 0 -> ended (record l) = false -> 0 <= raw_severity (record l) < 256 ->
  wp EndRecord l (fun _ l' => holding l' (encode_record (raw_severity (record l)) now args)).
Proof.
  intros Ho Hh He Hs. unfold EndRecord, EncoderEnd, FlushPreviousArgument. apply wp_bind, wp_gets. rewrite He. apply wp_bind, wp_modify. do 2 apply wp_bind. apply wp_gets, wp_modify.
  apply wp_bind, wp_gets. cbn [record header cursor raw_severity]. rewrite Hh, Z.sub_0_r. destruct (ho_cursor _ _ Ho) as (c & Ec & Hc & Hlen). rewrite Ec. cbn [w_value cursor_at].
  rewrite record_header_bits by done. match goal with |- wp _ ?x _ => assert (Ho1 : holding x (record_bytes 0 now args)) by (apply (holding_record l); done) end.
  eapply wp_mono; [apply (patch_ok _ _ _ _ (encode_record (raw_severity (record l)) now args) Ho1); [lia| |]|by intros [] l' [H _]].
  - unfold encode_record, record_bytes. by rewrite !len_app, !len_split.
  - cbn [record encode_success]. intros E. exists [], (le_split 8 0), (le_split 8 now ++ encode_args args). split; [done|]. split; [done|]. split; [apply len_split|].
    unfold encode_record at 1, record_header. rewrite (Hlen E), (Z.mul_comm 8 c), Z.div_mul by lia. done.
Qed.

Section Flush.
  Context {zx : ZxErrors}.

(** The result of a flush: what does not fit is not sent. *)
Definition flushed (status : Z) (bs : list Z) : option (list Z) * bool :=
  if len bs <? buffer_bytes then (Some bs, negb (status =? ZX_ERR_BAD_STATE) && negb (status =? ZX_ERR_PEER_CLOSED)) else (None, false).

Lemma FlushRecord_ok status now args l : holding l (record_bytes 0 now args) -> header (record l) = 0 -> ended (record l) = false -> 0 <= raw_severity (record l) < 256 ->
  wp (FlushRecord status) l (fun r _ => r = flushed status (encode_record (raw_severity (record l)) now args)).
Proof.
  intros Ho Hh He Hs. apply wp_bind. eapply wp_mono; [by apply (EndRecord_ok now args)|]. cbn beta. generalize (encode_record (raw_severity (record l)) now args). intros enc [] l1 Ho1.
  destruct Ho1 as [[Hd _] (c & Ec & Hc & Hlen) Henc]. apply wp_bind, wp_gets. unfold flushed. change buffer_bytes with 32768. destruct (encode_success (record l1)); cbn [negb].
  - destruct Henc as [rest Er]. specialize (Hlen eq_refl). rewrite (proj2 (Z.ltb_lt _ _)) by lia. apply wp_bind. rewrite Ec.
    apply (wp_lift _ {| b_value := 8 * c; b_capacity := 32768 |}).
    { unfold ToByteOffset, FromBuffer, ByteOffset_AssertValid, valid_offset. cbn [w_value w_capacity cursor_at b_value b_capacity].
      rewrite (Z.mul_comm c), !wrap_small by (unfold fits; lia). rewrite (proj2 (Z.ltb_lt _ _)) by lia. by rewrite orb_true_r. }
    apply wp_bind, wp_gets. apply wp_bind, (wp_lift _ enc); [|by apply wp_ret]. cbn [b_value]. unfold rdn. rewrite (proj2 (in_range_spec _ _ _)) by lia.
    rewrite Er, drop_0. rewrite <- Hlen. unfold len. by rewrite Nat2Z.id, take_app_length.
  - rewrite (proj2 (Z.ltb_ge _ _)) by lia. by apply wp_ret.
Qed.

(** Logging one record: it is begun, arguments are written to it, and it is flushed. *)
Definition log_record (now severity : Z) (file : option string_view) (line : Z) (message : option string_view) (dropped pid tid : Z)
  (kvs : list (list Z * log_value)) (status : Z) : LM (option (list Z) * bool) :=
  BeginRecord now severity file line message dropped pid tid ;; write_all kvs ;; FlushRecord status.

(** The bytes of that record. *)
Definition encoded (now severity : Z) (file : option string_view) (line : Z) (message : option string_view) (dropped pid tid : Z) (kvs : list (list Z * log_value)) : list Z :=
  encode_record (used_severity severity) (wrap 64 now) (begin_args (raw_of severity) dropped (characters <$> message) (stripped file) line pid tid ++ kvs).

(** A record that was logged, whatever the buffer held before. *)
Lemma log_record_ok now severity file line message dropped pid tid kvs status l : len (data l) = buffer_bytes -> bytes_ok (data l) -> -128 <= severity < 128 ->
  view_ok file -> view_ok message -> fits 64 line -> fits 64 dropped -> fits 64 pid -> fits 64 tid -> Forall arg_ok kvs ->
  if file_stops file then exists l', log_record now severity file line message dropped pid tid kvs status l =
    Some (flushed status (encoded now severity file line message dropped pid tid kvs), l')
  else log_record now severity file line message dropped pid tid kvs status l = None.
Proof.
  intros Hd Hb Hsev Hfile Hmsg Hline Hdr Hpid Htid Hk. assert (HB := BeginRecord_ok now severity file line message dropped pid tid l Hd Hb Hsev Hfile Hmsg Hline Hdr Hpid Htid).
  destruct (file_stops file); [|unfold log_record, mbind, ST_bind; by rewrite HB].
  cut (wp (log_record now severity file line message dropped pid tid kvs status) l (fun r _ => r = flushed status (encoded now severity file line message dropped pid tid kvs))).
  { intros (r & l' & E & ->). by exists l'. }
  apply wp_bind. eapply wp_mono; [exact HB|]. intros [] l1 (Ho & Hh & Hs & He). apply (wp_then_all _ _ _ _ _ Ho Hk).
  intros l2 Ho2 (Hh2 & Hs2 & He2). rewrite record_bytes_app in Ho2. assert (Hrange := used_severity_range severity).
  eapply wp_mono; [apply (FlushRecord_ok status _ _ l2 Ho2); [congruence|congruence|rewrite Hs2, Hs; lia]|]. intros r ? ->. by rewrite Hs2, Hs.
Qed.
End Flush.
