(* ===== verification/SyslogRoundtrip.v ===== *)
(** * Log records: reading them back

    The format of log records can be decoded, and what the encoder sends is readable but for
    records with an argument of type int64. *)

From S2P Require Import Prelude FidlStatus Syslog SyslogSpec SyslogCorrect.

#[local] Arguments words : simpl never.
#[local] Arguments le_split : simpl never.
#[local] Arguments chars : simpl never.

(** ** Parts of the format *)

Lemma take_len (a b : list Z) n : n = len a -> take (Z.to_nat n) (a ++ b) = a.
Proof. intros ->. unfold len. by rewrite Nat2Z.id, take_app_length. Qed.
Lemma drop_len (a b : list Z) n : n = len a -> drop (Z.to_nat n) (a ++ b) = b.
Proof. intros ->. unfold len. by rewrite Nat2Z.id, drop_app_length. Qed.

Lemma le_word w : fits 64 w -> le_bytes (le_split 8 w) = w.
Proof. intros H. rewrite le_bytes_split. by apply wrap_small. Qed.

Lemma word_front w rest : fits 64 w -> le_bytes (take 8 (le_split 8 w ++ rest)) = w /\ drop 8 (le_split 8 w ++ rest) = rest.
Proof.
  intros Hw. change 8%nat with (Z.to_nat 8) at 1 3. rewrite take_len, drop_len by (by rewrite len_split). split; [|done]. by apply le_word.
Qed.

Lemma decode_string_pad s rest : len s < 2 ^ 15 -> decode_string (inline_ref (len s)) (pad8 s ++ rest) = Some (s, rest).
Proof.
  intros Hs. unfold decode_string, inline_ref. assert (Hw := words_bound (len s) (len_nonneg s)). destruct (Z.ltb_spec 0 (len s)) as [H|H].
  - rewrite (proj2 (Z.eqb_neq _ _)), (proj2 (Z.ltb_ge _ _)) by lia. replace (2 ^ 15 + len s - 2 ^ 15) with (len s) by lia. cbv zeta.
    rewrite (proj2 (Z.ltb_ge _ _)) by (rewrite len_app, len_pad8; assert (Hr := len_nonneg rest); lia).
    rewrite (drop_len (pad8 s)) by (by rewrite len_pad8). unfold pad8. by rewrite <- app_assoc, take_len.
  - destruct s; [done|unfold len in H; simpl in H; lia].
Qed.

(** The fields of a header. *)
Lemma header_fields t size ref up : 0 <= t < 2 ^ 4 -> 0 <= size < 2 ^ 12 -> 0 <= ref < 2 ^ 16 -> 0 <= up < 2 ^ 32 ->
  let h := t + size * 2 ^ 4 + ref * 2 ^ 16 + up * 2 ^ 32 in
  fits 64 h /\ field 0 4 h = t /\ field 4 12 h = size /\ field 16 16 h = ref /\ field 32 32 h = up.
Proof. intros Ht Hs Hr Hu. cbv zeta. unfold fits, field. split_and!; dlia. Qed.

(** ** Arguments *)

Definition is_int (a : list Z * log_value) : bool := match a.2 with VInt _ => true | _ => false end.

Lemma len_encode_arg a : exists n, 0 < n /\ len (encode_arg a) = 8 * n.
Proof.
  destruct a as [k v]. unfold encode_arg. cbn [fst snd]. assert (Hk := words_bound (len k) (len_nonneg k)). rewrite !len_app, len_split, len_pad8.
  destruct v as [v|v|v|s|b]; cbn [value_bytes]; rewrite ?len_split, ?len_pad8; [exists (2 + words (len k))..| |exists (1 + words (len k)); change (len []) with 0]; try lia.
  assert (Hs := words_bound (len s) (len_nonneg s)). exists (1 + words (len k) + words (len s)). lia.
Qed.

Lemma claimed_len k v : is_int (k, v) = false -> 8 * claimed_size k v = len (encode_arg (k, v)).
Proof.
  intros Hv. unfold encode_arg, claimed_size. cbn [fst snd]. rewrite !len_app, len_split, len_pad8. destruct v; cbn [value_bytes]; rewrite ?len_split, ?len_pad8; try done; try lia.
  change (len []) with 0. lia.
Qed.

Lemma decode_value_ok v : is_int ([], v) = false -> value_ok v -> len (value_bytes v) < 2 ^ 15 -> decode_value (type_of v) (upper_half v) (value_bytes v) = Some v.
Proof.
  intros Hi Hv Hl. destruct v as [v|v|v|s|b]; cbn [type_of upper_half value_bytes value_ok] in *; unfold decode_value; cbn.
  - done.
  - rewrite len_split. cbn. by rewrite le_word.
  - rewrite len_split. cbn. by rewrite le_word.
  - rewrite len_pad8 in Hl. assert (Hw := words_bound (len s) (len_nonneg s)). assert (Hs0 := len_nonneg s).
    replace (field 0 16 (inline_ref (len s))) with (inline_ref (len s)) by (unfold field, inline_ref; destruct (0 <? len s); dlia).
    assert (E := decode_string_pad s [] ltac:(lia)). rewrite app_nil_r in E. by rewrite E.
  - by destruct b.
Qed.

Lemma inline_ref_range n : 0 <= n < 2 ^ 15 -> 0 <= inline_ref n < 2 ^ 16.
Proof. intros H. unfold inline_ref. destruct (0 <? n); lia. Qed.

(** What the decoder finds in the header of an argument. *)
Lemma arg_header_fields k v : len (encode_arg (k, v)) < 2 ^ 15 ->
  let h := arg_header k v in
  fits 64 h /\ field 0 4 h = type_of v /\ field 4 12 h = claimed_size k v /\ field 16 16 h = inline_ref (len k) /\ field 32 32 h = upper_half v.
Proof.
  unfold encode_arg. cbn [fst snd]. rewrite !len_app, len_split, len_pad8. assert (Hk0 := len_nonneg k). assert (Hv0 := len_nonneg (value_bytes v)).
  assert (Hk := words_bound (len k) Hk0). intros Hl. apply header_fields.
  - destruct v; cbn; lia.
  - unfold claimed_size. destruct v as [v|v|v|s|b]; cbn [value_bytes] in *; rewrite ?len_split, ?len_pad8 in Hl; try lia. assert (Hs := words_bound (len s) (len_nonneg s)). lia.
  - apply inline_ref_range. lia.
  - destruct v as [v|v|v|s|b]; cbn [value_bytes upper_half] in *; try lia; [|destruct b; lia]. rewrite len_pad8 in Hl. assert (Hs := words_bound (len s) (len_nonneg s)).
    assert (Hs0 := len_nonneg s). assert (H := inline_ref_range (len s) ltac:(lia)). lia.
Qed.

Lemma value_arg_ok k v : is_int (k, v) = is_int ([], v).
Proof. done. Qed.

Lemma decode_arg_ok a rest : arg_ok a -> len (encode_arg a) < 2 ^ 15 -> decode_arg (encode_arg a ++ rest) = if is_int a then None else Some (a, rest).
Proof.
  destruct a as [k v]. intros (_ & _ & Hv) Hl. cbn [fst snd] in Hv. destruct (arg_header_fields k v Hl) as (Hf & F0 & F4 & F16 & F32).
  assert (Hk := words_bound (len k) (len_nonneg k)). assert (Hr := len_nonneg rest). assert (Hlen := Hl). unfold encode_arg in Hlen. cbn [fst snd] in Hlen.
  rewrite !len_app, len_split, len_pad8 in Hlen. assert (Hv0 := len_nonneg (value_bytes v)). unfold decode_arg.
  replace (encode_arg (k, v) ++ rest) with (le_split 8 (arg_header k v) ++ pad8 k ++ value_bytes v ++ rest) by (unfold encode_arg; cbn [fst snd]; by rewrite <- !app_assoc).
  destruct (word_front (arg_header k v) (pad8 k ++ value_bytes v ++ rest) Hf) as [E8 _]. rewrite (proj2 (Z.ltb_ge _ _)) by (rewrite !len_app, len_split, len_pad8; lia).
  cbv zeta. rewrite E8, F0, F4, F16, F32. assert (Hc : 1 <= claimed_size k v /\ 8 * claimed_size k v <= 8 + 8 * words (len k) + len (value_bytes v)).
  { unfold claimed_size. destruct v as [v|v|v|s|b]; cbn [value_bytes] in *; rewrite ?len_split, ?len_pad8; try lia. assert (Hs := words_bound (len s) (len_nonneg s)). lia. }
  rewrite (proj2 (Z.ltb_ge _ 1)), (proj2 (Z.ltb_ge _ _)) by (rewrite ?len_app, ?len_split, ?len_pad8; lia). cbn [orb].
  destruct (is_int (k, v)) eqn:Ei.
  - destruct v; try done. cbn [type_of]. rewrite app_assoc, take_len by (unfold claimed_size; rewrite len_app, len_split, len_pad8; lia).
    rewrite (proj2 (word_front _ _ Hf)). assert (E := decode_string_pad k [] ltac:(lia)). rewrite app_nil_r in E. by rewrite E.
  - rewrite (claimed_len k v Ei). assert (Ee : encode_arg (k, v) = le_split 8 (arg_header k v) ++ pad8 k ++ value_bytes v) by done.
    replace (le_split 8 (arg_header k v) ++ pad8 k ++ value_bytes v ++ rest) with (encode_arg (k, v) ++ rest) by (rewrite Ee; by rewrite <- !app_assoc).
    rewrite take_len, drop_len by done. rewrite Ee, (proj2 (word_front _ _ Hf)), decode_string_pad by lia. cbn [mbind option_bind]. by rewrite decode_value_ok by (done || lia).
Qed.

Lemma decode_args_ok args : forall fuel, Forall arg_ok args -> len (encode_args args) < 2 ^ 15 -> (length args <= fuel)%nat ->
  decode_args fuel (encode_args args) = if existsb is_int args then None else Some args.
Proof.
  induction args as [|a args IH]; intros fuel Hok Hl Hf; [by destruct fuel|]. apply Forall_cons in Hok as [Ha Hok].
  change (encode_args (a :: args)) with (encode_arg a ++ encode_args args) in *. rewrite len_app in Hl. assert (H0 := len_nonneg (encode_args args)).
  destruct (len_encode_arg a) as (n & Hn & En). destruct fuel as [|fuel]; [simpl in Hf; lia|].
  assert (Hd := decode_arg_ok a (encode_args args) Ha ltac:(lia)). destruct (encode_arg a ++ encode_args args) as [|b bs] eqn:Eb.
  { apply app_eq_nil in Eb as [Eb _]. rewrite Eb in En. change (len []) with 0 in En. lia. }
  cbn [decode_args existsb]. rewrite Hd. destruct (is_int a); [done|]. cbn [orb mbind option_bind]. rewrite IH; [|done|lia|simpl in Hf; lia]. by destruct (existsb is_int args).
Qed.

(** ** Records *)

Lemma len_encode_args args : exists n, 0 <= n /\ len (encode_args args) = 8 * n /\ Z.of_nat (length args) <= n.
Proof.
  induction args as [|a args (n & Hn & En & Hl)]; [by exists 0|]. change (encode_args (a :: args)) with (encode_arg a ++ encode_args args).
  destruct (len_encode_arg a) as (m & Hm & Em). exists (m + n). rewrite len_app. simpl. lia.
Qed.

(** Decoding what was encoded. *)
Lemma decode_encode severity now args : 0 <= severity < 256 -> fits 64 now -> Forall arg_ok args -> len (encode_record severity now args) < buffer_bytes ->
  decode_record (encode_record severity now args) = if existsb is_int args then None else Some (severity, now, args).
Proof.
  intros Hs Hn Hok Hl. destruct (len_encode_args args) as (n & Hn0 & En & Hna). unfold buffer_bytes, buffer_words in Hl.
  assert (Hlen : forall h, len (record_bytes h now args) = 16 + 8 * n) by (intros h; unfold record_bytes; rewrite !len_app, !len_split; lia).
  unfold encode_record in *. rewrite Hlen in Hl. unfold decode_record. rewrite Hlen. rewrite (proj2 (Z.ltb_ge _ _)) by lia.
  assert (Hh : record_header severity now args = 9 + (2 + n) * 2 ^ 4 + 0 * 2 ^ 16 + (severity * 2 ^ 24) * 2 ^ 32).
  { unfold record_header. rewrite Hlen. replace ((16 + 8 * n) / 8) with (2 + n) by dlia. lia. }
  destruct (header_fields 9 (2 + n) 0 (severity * 2 ^ 24)) as (Hf & F0 & F4 & _ & F32); [lia..|]. cbv zeta in *. rewrite <- Hh in *.
  assert (F56 : field 56 8 (record_header severity now args) = severity) by (rewrite Hh; unfold field; dlia).
  unfold record_bytes. destruct (word_front (record_header severity now args) (le_split 8 now ++ encode_args args) Hf) as [-> ->].
  change 16%nat with (8 + 8)%nat. rewrite <- drop_drop. rewrite (proj2 (word_front _ _ Hf)). destruct (word_front now (encode_args args) Hn) as [-> ->].
  rewrite F0, F4, F56. rewrite (proj2 (Z.eqb_eq (8 * (2 + n)) _)) by lia. cbn [negb orb Z.eqb].
  rewrite decode_args_ok; [|done|lia|rewrite !length_app, !le_split_length; unfold len in En; lia]. by destruct (existsb is_int args).
Qed.

Lemma view_arg_ok v key : view_ok (Some v) -> arg_ok (chars key, VString (characters v)) <-> len (chars key) < 2 ^ 60.
Proof. intros (Hb & Hl). split; [by intros (_ & H & _)|]. intros H. by apply literal_ok. Qed.

(** The arguments of a record are within their types. *)
Lemma begin_args_ok severity file line message dropped pid tid : -128 <= severity < 128 -> view_ok file -> view_ok message ->
  fits 64 line -> fits 64 dropped -> fits 64 pid -> fits 64 tid ->
  Forall arg_ok (begin_args (raw_of severity) dropped (characters <$> message) (stripped file) line pid tid).
Proof.
  intros Hsev Hfile Hmsg Hline Hdr Hpid Htid. unfold begin_args. repeat apply Forall_app_2; repeat (apply Forall_cons_2; [by apply literal_ok|]); try done.
  - unfold raw_of. destruct (invalid_severity severity); [|done]. apply Forall_singleton, literal_ok; [cbn; lia|done].
  - destruct (dropped =? 0); [done|]. by apply Forall_singleton, literal_ok.
  - destruct message as [m|]; [|done]. apply Forall_singleton. by apply view_arg_ok.
  - destruct file as [f|]; [|done]. apply Forall_singleton. destruct Hfile as (Hb & Hl). destruct (strip_ok _ Hb Hl). by apply literal_ok.
Qed.

(** Only "verbosity" is an int64 among them. *)
Lemma begin_args_int severity file line message dropped pid tid :
  existsb is_int (begin_args (raw_of severity) dropped message file line pid tid) = invalid_severity severity.
Proof. unfold begin_args, raw_of. rewrite !existsb_app. by destruct (invalid_severity severity), (dropped =? 0), message, file. Qed.

(** Three characters that are left are not the prefix, and a NUL is no part of it. *)
Lemma strip_stripped s : forall a b c r, strip s = a :: b :: c :: r -> (a =? 46) && (b =? 46) && (c =? 47) = false.
Proof.
  assert (H : forall n s, (length s <= n)%nat -> forall a b c r, strip s = a :: b :: c :: r -> (a =? 46) && (b =? 46) && (c =? 47) = false).
  { induction n as [|n IH]; intros t Hn a b c r; (destruct t as [|x [|y [|z t]]]; cbn [strip]; try done); [cbn in Hn; lia|].
    destruct ((x =? 46) && (y =? 46) && (z =? 47)) eqn:E; [apply IH; cbn in Hn; lia|]. by intros [= <- <- <- <-]. }
  by apply (H (length s)).
Qed.
Lemma stops_usual f : (3 <= length (strip (characters f)))%nat \/ (exists rest, after f = 0 :: rest) -> stops f = true.
Proof.
  intros H. unfold stops. apply bool_decide_eq_true. assert (Hs := strip_stripped (characters f)). rewrite dots. destruct (strip (characters f)) as [|a [|b [|c r]]].
  4: { specialize (Hs _ _ _ _ eq_refl). cbn [starts_with app]. rewrite (Z.eqb_sym 46 a), (Z.eqb_sym 46 b), (Z.eqb_sym 47 c). by destruct (a =? 46), (b =? 46), (c =? 47). }
  all: destruct H as [H|[rest ->]]; [cbn in H; lia|]; cbn [starts_with app].
  - done.
  - by destruct (46 =? a).
  - by destruct (46 =? a), (46 =? b).
Qed.

Section Properties.
  Context {zx : ZxErrors}.

(** C10. Whatever the buffer held before, a record with any arguments is encoded without an
    access out of bounds or a failed assertion, if the comparison that ends the stripping of
    dots off the file name finds a difference in memory that can be read, which it does if
    three characters are left or a NUL follows them: then what is sent is the encoding of the
    record in the format of log records, and the result is that of the socket; a record that
    does not fit the buffer is not sent, and the result is false.  Otherwise encoding reads
    past the memory or takes more off the file name than it has. *)
Theorem log_record_correct now severity file line message dropped pid tid kvs status l : len (data l) = buffer_bytes -> bytes_ok (data l) -> -128 <= severity < 128 ->
  view_ok file -> view_ok message -> fits 64 line -> fits 64 dropped -> fits 64 pid -> fits 64 tid -> Forall arg_ok kvs ->
  (if file_stops file then exists l', log_record now severity file line message dropped pid tid kvs status l =
     Some (flushed status (encoded now severity file line message dropped pid tid kvs), l')
   else log_record now severity file line message dropped pid tid kvs status l = None) /\
  (forall f, file = Some f -> (3 <= length (strip (characters f)))%nat \/ (exists rest, after f = 0 :: rest) -> file_stops file = true).
Proof. intros. split; [by apply log_record_ok|]. intros f -> H'. by apply stops_usual. Qed.

(** C9. A record that is sent can be read back: a decoder of the format finds its severity,
    its time and all its arguments in their order, unless one of them is an int64; the header
    of such an argument gives a size without its value, and the record cannot be decoded.
    That is so for every record with a severity that is not one of the six of the format. *)
Theorem log_record_roundtrip now severity file line message dropped pid tid kvs status l bs ok l' : len (data l) = buffer_bytes -> bytes_ok (data l) -> -128 <= severity < 128 ->
  view_ok file -> view_ok message -> fits 64 line -> fits 64 dropped -> fits 64 pid -> fits 64 tid -> Forall arg_ok kvs ->
  log_record now severity file line message dropped pid tid kvs status l = Some (Some bs, ok, l') ->
  decode_record bs =
    if invalid_severity severity || existsb is_int kvs then None
    else Some (severity, wrap 64 now, begin_args None dropped (characters <$> message) (stripped file) line pid tid ++ kvs).
Proof.
  intros Hd Hb Hsev Hfile Hmsg Hline Hdr Hpid Htid Hk E.
  assert (H := log_record_ok now severity file line message dropped pid tid kvs status l Hd Hb Hsev Hfile Hmsg Hline Hdr Hpid Htid Hk).
  destruct (file_stops file); [|congruence]. destruct H as [l2 E2]. rewrite E in E2. unfold flushed in E2.
  destruct (Z.ltb_spec (len (encoded now severity file line message dropped pid tid kvs)) buffer_bytes) as [Hl|]; [|done]. simplify_eq. unfold encoded in *.
  assert (Hr := used_severity_range severity). assert (Hw : fits 64 (wrap 64 now)) by (unfold wrap; dlia).
  rewrite decode_encode; [|lia|done|apply Forall_app; split; [by apply begin_args_ok|done]|done].
  rewrite existsb_app, begin_args_int. unfold used_severity, raw_of. by destruct (invalid_severity severity), (existsb is_int kvs).
Qed.
End Properties.

(** ** Witnesses *)

(** A buffer that holds something, a file name as a literal, and two arguments. *)
Definition used_buffer : LogBuffer :=
  {| record := {| header := 7; raw_severity := 0; arg_size := {| w_value := 0; w_capacity := 0 |}; current_key_size := Unbounded 0; current_header_position := 0;
       dropped_count := 0; cursor := {| w_value := 5; w_capacity := 0 |}; encode_success := false; ended := true |}; data := replicate (Z.to_nat buffer_bytes) 255 |}.
Definition literal (s : String.string) : string_view := {| characters := chars s; after := [0] |}.
Definition some_args : list (list Z * log_value) := [(chars "host", VString (chars "fuchsia")); (chars "up", VBool true)].

Lemma used_buffer_ok : len (data used_buffer) = buffer_bytes /\ bytes_ok (data used_buffer).
Proof.
  unfold used_buffer, bytes_ok, len. cbn [data]. rewrite length_replicate. split; [rewrite Z2Nat.id; done|]. apply Forall_replicate. unfold byte_ok. lia.
Qed.
Lemma literal_view_ok s : len (chars s) < 2 ^ 60 -> view_ok (Some (literal s)).
Proof. intros H. split; [apply chars_ok|done]. Qed.
Lemma some_args_ok : Forall arg_ok some_args.
Proof. repeat (apply Forall_cons_2; [by repeat split; try apply chars_ok|]). done. Qed.

Definition sample_record {zx : ZxErrors} : LM (option (list Z) * bool) :=
  log_record 1000 0x30 (Some (literal "../../src/main.cc")) 17 (Some (literal "hello")) 3 11 12 some_args 0.

(** A file name "..", of which what follows can be read or not. *)
Lemma log_record_correct_witness :
  (exists l', sample_record (zx := fuchsia_errors) used_buffer =
     Some (Some (encoded 1000 0x30 (Some (literal "../../src/main.cc")) 17 (Some (literal "hello")) 3 11 12 some_args), true, l')) /\
  file_stops (Some (literal "..")) = true /\
  log_record (zx := fuchsia_errors) 1000 0x30 (Some {| characters := chars ".."; after := [] |}) 17 (Some (literal "hello")) 3 11 12 some_args 0 used_buffer = None.
Proof.
  destruct used_buffer_ok as [Hl Hb].
  assert (C := fun file Hf => log_record_correct (zx := fuchsia_errors) 1000 0x30 (Some file) 17 (Some (literal "hello")) 3 11 12 some_args 0 used_buffer
    Hl Hb ltac:(lia) Hf (literal_view_ok "hello" eq_refl) ltac:(unfold fits; lia) ltac:(unfold fits; lia) ltac:(unfold fits; lia) ltac:(unfold fits; lia) some_args_ok).
  split_and!.
  - exact (proj1 (C (literal "../../src/main.cc") (literal_view_ok "../../src/main.cc" eq_refl))).
  - apply (proj2 (C (literal "..") (literal_view_ok ".." eq_refl)) _ eq_refl). right. by exists [].
  - exact (proj1 (C {| characters := chars ".."; after := [] |} (literal_view_ok ".." eq_refl))).
Defined.

Lemma log_record_roundtrip_witness : exists bs ok l', sample_record (zx := fuchsia_errors) used_buffer = Some (Some bs, ok, l') /\
  decode_record bs = Some (0x30, 1000, begin_args None 3 (Some (chars "hello")) (Some (chars "src/main.cc")) 17 11 12 ++ some_args).
Proof.
  destruct used_buffer_ok as [Hl Hb].
  destruct (log_record_ok (zx := fuchsia_errors) 1000 0x30 (Some (literal "../../src/main.cc")) 17 (Some (literal "hello")) 3 11 12 some_args 0 used_buffer
    Hl Hb ltac:(lia) (literal_view_ok "../../src/main.cc" eq_refl) (literal_view_ok "hello" eq_refl) ltac:(unfold fits; lia) ltac:(unfold fits; lia) ltac:(unfold fits; lia) ltac:(unfold fits; lia) some_args_ok) as [l' E].
  exists (encoded 1000 0x30 (Some (literal "../../src/main.cc")) 17 (Some (literal "hello")) 3 11 12 some_args), true, l'. split; [exact E|].
  exact (log_record_roundtrip (zx := fuchsia_errors) 1000 0x30 (Some (literal "../../src/main.cc")) 17 (Some (literal "hello")) 3 11 12 some_args 0 used_buffer _ true l'
    Hl Hb ltac:(lia) (literal_view_ok "../../src/main.cc" eq_refl) (literal_view_ok "hello" eq_refl) ltac:(unfold fits; lia) ltac:(unfold fits; lia) ltac:(unfold fits; lia) ltac:(unfold fits; lia) some_args_ok E).
Defined.
