(* ===== verification/FdTable.v ===== *)
(** * The descriptor table of fdio

    Models src/fdio/fdio_slot.cc, the routines of fdio_unistd.cc, fdio.cc, fd.cc, unsafe.cc,
    null.cc, unistd.cc and bsdsocket.cc that use the table, and the references they hold.  An
    fdio object is a number; its reference count is kept by fbl, outside the repository. *)

From stdpp Require Import gmap.
From S2P Require Import Prelude.

(** ** Reference counts *)

(** fbl::RefCounted: an object that was just made has one reference; [Release] says whether
    it took the last one away. *)
Class RefCounted (R : Type) := {
  Adopted : R;
  AddRef : R -> R;
  Release : R -> bool * R;
  IsLastReference : R -> bool;
}.

(** The count is right below [ref_max] references. *)
Class RefCountedLaws (R : Type) `{RefCounted R} := {
  ref_count_of : R -> Z;
  ref_max : Z;
  ref_max_big : 2 ^ 30 <= ref_max;
  Adopted_count : ref_count_of Adopted = 1;
  AddRef_count r : 1 <= ref_count_of r < ref_max -> ref_count_of (AddRef r) = ref_count_of r + 1;
  Release_count r : 1 <= ref_count_of r -> (Release r).1 = (ref_count_of r =? 1) /\ ref_count_of (Release r).2 = ref_count_of r - 1;
  IsLastReference_count r : 1 <= ref_count_of r -> IsLastReference r = (ref_count_of r =? 1);
}.

(** ** State *)

Definition FDIO_MAX_FD : Z := 1024.

(** What a slot holds: nothing, a reservation, or a reference to an object. *)
Inductive slot := Available | Reserved | Allocated (o : Z).

(** The slots of __fdio_global_state. *)
Inductive place := Root | Cwd | Fd (i : Z).

(** The calls of the close hook are recorded: the object, and should_wait. *)
Record fdio_state (R : Type) := {
  root_slot : slot;
  cwd_slot : slot;
  fdtab : list slot;
  objects : gmap Z R;
  closed : list (Z * bool);
}.
Arguments root_slot {R}.
Arguments cwd_slot {R}.
Arguments fdtab {R}.
Arguments objects {R}.
Arguments closed {R}.

Inductive errno := EBADF | EMFILE | EINVAL | of_status (status : Z).

(** -1 with errno, or a result. *)
Inductive int_result := Returns (v : Z) | Fails (e : errno).

Section Table.
Context {R : Type} {RC : RefCounted R}.

Abbreviation FM := (ST (fdio_state R)).

Definition set_objects (f : gmap Z R -> gmap Z R) : FM unit := modify (fun s =>
  {| root_slot := root_slot s; cwd_slot := cwd_slot s; fdtab := fdtab s; objects := f (objects s); closed := closed s |}).

Definition slot_of (p : place) (s : fdio_state R) : option slot :=
  match p with Root => Some (root_slot s) | Cwd => Some (cwd_slot s) | Fd i => if i <? 0 then None else fdtab s !! Z.to_nat i end.
Definition with_slot (p : place) (x : slot) (s : fdio_state R) : fdio_state R :=
  match p with
  | Root => {| root_slot := x; cwd_slot := cwd_slot s; fdtab := fdtab s; objects := objects s; closed := closed s |}
  | Cwd => {| root_slot := root_slot s; cwd_slot := x; fdtab := fdtab s; objects := objects s; closed := closed s |}
  | Fd i => {| root_slot := root_slot s; cwd_slot := cwd_slot s; fdtab := <[Z.to_nat i := x]> (fdtab s); objects := objects s; closed := closed s |}
  end.
(** The table is an array: an index outside it is undefined. *)
Definition read_slot (p : place) : FM slot := x ← gets (slot_of p); lift x.
Definition write_slot (p : place) (x : slot) : FM unit := _ ← read_slot p; modify (with_slot p x).

(** ** References *)

(** A new object, with the reference of its maker. *)
Definition make (o : Z) : FM unit := set_objects <[o := Adopted]>.
(** A copy of a pointer. *)
Definition acquire (o : Z) : FM unit := r ← gets (fun s => objects s !! o); r ← lift r; set_objects <[o := AddRef r]>.
(** The close hook; then the object is deleted. *)
Definition close_and_delete (o : Z) (should_wait : bool) : FM unit :=
  modify (fun s => {| root_slot := root_slot s; cwd_slot := cwd_slot s; fdtab := fdtab s; objects := delete o (objects s); closed := closed s ++ [(o, should_wait)] |}).
(** A pointer goes away; the last one recycles the object. *)
Definition drop_pointer (o : Z) : FM unit :=
  r ← gets (fun s => objects s !! o);
  r ← lift r;
  if (Release r).1 then close_and_delete o false else set_objects <[o := (Release r).2]>.
Definition drop_optional (o : option Z) : FM unit := match o with Some o => drop_pointer o | None => mret tt end.
Definition is_last (o : Z) : FM bool := r ← gets (fun s => objects s !! o); r ← lift r; mret (IsLastReference r).

(** ** Slots *)

Definition slot_get (p : place) : FM (option Z) :=
  x ← read_slot p; match x with Allocated o => acquire o ;; mret (Some o) | _ => mret None end.
Definition slot_release (p : place) : FM (option Z) :=
  x ← read_slot p; match x with Allocated o => write_slot p Available ;; mret (Some o) | _ => mret None end.
(** The pointer is passed by value: it goes away if it is not stored. *)
Definition try_set (p : place) (o : Z) : FM bool :=
  x ← read_slot p; match x with Available => write_slot p (Allocated o) ;; mret true | _ => drop_pointer o ;; mret false end.
Definition slot_replace (p : place) (o : Z) : FM (option Z) :=
  previous ← read_slot p;
  write_slot p (Allocated o) ;;
  match previous with Allocated o => mret (Some o) | _ => mret None end.
Definition try_reserve (p : place) : FM bool :=
  x ← read_slot p; match x with Available => write_slot p Reserved ;; mret true | _ => mret false end.
Definition try_fill (p : place) (o : Z) : FM bool :=
  x ← read_slot p; match x with Reserved => write_slot p (Allocated o) ;; mret true | _ => drop_pointer o ;; mret false end.
Definition release_reservation (p : place) : FM unit :=
  x ← read_slot p; match x with Reserved => write_slot p Available | _ => mret tt end.

(** ** Descriptors, with the lock held *)

(** The loops that try one descriptor after the other; the caller keeps its pointer. *)
Fixpoint set_loop (turns : nat) (fd o : Z) : FM (option Z) :=
  match turns with
  | O => mret None
  | S turns => acquire o ;; b ← try_set (Fd fd) o; if (b : bool) then mret (Some fd) else set_loop turns (fd + 1) o
  end.
Definition set_from (fd o : Z) : FM (option Z) := set_loop (Z.to_nat (FDIO_MAX_FD - fd)) fd o.

Definition bind_to_fd_locked (o : Z) : FM (option Z) := set_from 0 o.

Definition slot_locked (fd : Z) : option place := if (fd <? 0) || (fd >=? FDIO_MAX_FD) then None else Some (Fd fd).
Definition fd_to_io_locked (fd : Z) : FM (option Z) := match slot_locked fd with None => mret None | Some p => slot_get p end.
Definition unbind_from_fd_locked (fd : Z) : FM (option Z) := match slot_locked fd with None => mret None | Some p => slot_release p end.

Definition or_emfile (fd : option Z) : int_result := match fd with Some fd => Returns fd | None => Fails EMFILE end.

(** The result, and the pointer that is dropped without the lock. *)
Definition dup2 (oldfd newfd : Z) : FM (int_result * option Z) :=
  if (newfd <? 0) || (newfd >=? FDIO_MAX_FD) then mret (Fails EBADF, None)
  else
    io ← fd_to_io_locked oldfd;
    match io with
    | None => mret (Fails EBADF, None)
    | Some io => acquire io ;; io_to_close ← slot_replace (Fd newfd) io; drop_pointer io ;; mret (Returns newfd, io_to_close)
    end.

(** [flags_ok] says that the flags are 0 or O_CLOEXEC. *)
Definition dup3 (oldfd newfd : Z) (flags_ok : bool) : FM (int_result * option Z) :=
  if oldfd =? newfd then mret (Fails EINVAL, None) else if negb flags_ok then mret (Fails EINVAL, None) else dup2 oldfd newfd.

Definition dup (oldfd : Z) : FM int_result :=
  io ← fd_to_io_locked oldfd;
  match io with
  | None => mret (Fails EBADF)
  | Some io => fd ← bind_to_fd_locked io; drop_pointer io ;; mret (or_emfile fd)
  end.

(** fcntl with F_DUPFD or F_DUPFD_CLOEXEC. *)
Definition fcntl_dupfd (fd starting_fd : Z) : FM int_result :=
  if starting_fd <? 0 then mret (Fails EINVAL)
  else
    io ← fd_to_io_locked fd;
    match io with
    | None => mret (Fails EBADF)
    | Some io => fd ← set_from starting_fd io; drop_pointer io ;; mret (or_emfile fd)
    end.

(** The caller's pointer is taken over, and dropped without the lock, after the one that was
    replaced. *)
Definition fdio_bind_to_fd (o fd starting_fd : Z) : FM (int_result * option Z) :=
  if ((fd <? 0) && (starting_fd <? 0)) || (fd >=? FDIO_MAX_FD) then mret (Fails EINVAL, None)
  else if fd <? 0 then fd ← set_from starting_fd o; mret (or_emfile fd, None)
  else acquire o ;; io_to_close ← slot_replace (Fd fd) o; mret (Returns fd, io_to_close).

(** The loop of socketpair_create; [found] is the descriptor of the left end. *)
Fixpoint pair_loop (turns : nat) (i left right : Z) (found : option Z) : FM (option (Z * Z)) :=
  match turns with
  | O => mret None
  | S turns =>
      let io := match found with None => left | Some _ => right end in
      acquire io ;;
      b ← try_set (Fd i) io;
      if (b : bool) then
        match found with None => pair_loop turns (i + 1) left right (Some i) | Some l => mret (Some (l, i)) end
      else pair_loop turns (i + 1) left right found
  end.
Definition socketpair_create (left right : Z) : FM (option (Z * Z)) := pair_loop (Z.to_nat FDIO_MAX_FD) 0 left right None.

(** accept4 in its locked parts. *)
Fixpoint reserve_loop (turns : nat) (i : Z) : FM (option Z) :=
  match turns with
  | O => mret None
  | S turns => b ← try_reserve (Fd i); if (b : bool) then mret (Some i) else reserve_loop turns (i + 1)
  end.
Definition accept_reserve : FM (option Z) := reserve_loop (Z.to_nat FDIO_MAX_FD) 0.

(** The loop that looks for another slot: [i] counts, the slot is the one of [nfd]. *)
Fixpoint refill_loop (turns : nat) (i nfd o : Z) : FM (option Z) :=
  match turns with
  | O => mret None
  | S turns => acquire o ;; b ← try_set (Fd nfd) o; if (b : bool) then mret (Some i) else refill_loop turns (i + 1) nfd o
  end.
Definition accept_fill (nfd o : Z) : FM int_result :=
  acquire o ;;
  b ← try_fill (Fd nfd) o;
  if (b : bool) then mret (Returns nfd)
  else fd ← refill_loop (Z.to_nat FDIO_MAX_FD) 0 nfd o; mret (or_emfile fd).

(** fdio_chdir: the old directory is dropped under the lock. *)
Definition chdir_locked (o : Z) : FM unit := previous ← slot_replace Cwd o; drop_optional previous.
(** chroot, once the namespace has its new root; the caller keeps its pointer. *)
Definition chroot_locked (o : Z) : FM (option Z) := acquire o ;; slot_replace Root o.

(** The slot that fdio_iodir reads. *)
Definition iodir_locked (absolute at_cwd : bool) (dirfd : Z) : FM (option Z) :=
  if absolute then slot_get Root else if at_cwd then slot_get Cwd else fd_to_io_locked dirfd.

(** ** Start and end of a process *)

Definition assert_that (b : bool) : FM unit := if b then mret tt else undefined.

(** The descriptors a process is started with: the object, its descriptor, and whether it is
    used for the standard streams.  The result is the pointer for them. *)
Fixpoint init_fds (fds : list (Z * Z * bool)) (use_for_stdio : option Z) : FM (option Z) :=
  match fds with
  | [] => mret use_for_stdio
  | (o, arg_fd, stdio) :: fds =>
      make o ;;
      assert_that (arg_fd <? FDIO_MAX_FD) ;;
      acquire o ;;
      b ← try_set (Fd arg_fd) o;
      assert_that b ;;
      (if (stdio : bool) then drop_optional use_for_stdio ;; init_fds fds (Some o)
       else drop_pointer o ;; init_fds fds use_for_stdio)
  end.

(** [null] is the object that is made when none was given. *)
Definition init_stdio (use_for_stdio : option Z) (null : Z) : FM Z :=
  io ← match use_for_stdio with Some o => mret o | None => make null ;; mret null end;
  acquire io ;; _ ← try_set (Fd 0) io;
  acquire io ;; _ ← try_set (Fd 1) io;
  acquire io ;; _ ← try_set (Fd 2) io;
  mret io.

(** The root directory and the current one, if they could be opened, or the default object. *)
Definition init_dirs (root cwd : option Z) (default_io : Z) : FM unit :=
  let set p o := acquire o ;; b ← try_set p o; assert_that b in
  match root with
  | Some root =>
      make root ;;
      set Root root ;;
      match cwd with
      | Some cwd => make cwd ;; set Cwd cwd ;; drop_pointer cwd ;; drop_pointer root
      | None => make default_io ;; set Cwd default_io ;; drop_pointer root ;; drop_pointer default_io
      end
  | None => make default_io ;; set Root default_io ;; set Cwd default_io ;; drop_pointer default_io
  end.

Definition libc_extensions_init (fds : list (Z * Z * bool)) (null : Z) (root cwd : option Z) (default_io : Z) : FM unit :=
  stdio ← init_fds fds None;
  stdio ← init_stdio stdio null;
  init_dirs root cwd default_io ;;
  drop_pointer stdio.

Fixpoint release_fds (turns : nat) (i : Z) : FM unit :=
  match turns with O => mret tt | S turns => io ← slot_release (Fd i); drop_optional io ;; release_fds turns (i + 1) end.
Definition libc_extensions_fini : FM unit :=
  root ← slot_release Root;
  cwd ← slot_release Cwd;
  release_fds (Z.to_nat FDIO_MAX_FD) 0 ;;
  drop_optional cwd ;;
  drop_optional root.

Definition fdio_state_new : fdio_state R :=
  {| root_slot := Available; cwd_slot := Available; fdtab := replicate (Z.to_nat FDIO_MAX_FD) Available; objects := ∅; closed := [] |}.
End Table.
