(* ===== verification/FdTableInv.v ===== *)
(** * The descriptor table: references

    The references to an object are those of the slots and those that running calls and
    users hold.  [rel] ties the table to an abstract one, a finite map from descriptors to
    what they stand for, and says that each count is the number of references. *)

From stdpp Require Import gmap.
From S2P Require Import Prelude FdTable.

(** ** The abstract table *)

Inductive entry := Taken | Open (o : Z).
#[global] Instance entry_eq_dec : EqDecision entry.
Proof. solve_decision. Defined.

Record atable := { fds : gmap Z entry; root_dir : option Z; cwd_dir : option Z }.

Definition aget (p : place) (a : atable) : option entry :=
  match p with Root => Open <$> root_dir a | Cwd => Open <$> cwd_dir a | Fd i => fds a !! i end.
Definition object_of (e : option entry) : option Z := match e with Some (Open o) => Some o | _ => None end.
Definition aset (p : place) (e : option entry) (a : atable) : atable :=
  match p with
  | Root => {| fds := fds a; root_dir := object_of e; cwd_dir := cwd_dir a |}
  | Cwd => {| fds := fds a; root_dir := root_dir a; cwd_dir := object_of e |}
  | Fd i => {| fds := partial_alter (fun _ => e) i (fds a); root_dir := root_dir a; cwd_dir := cwd_dir a |}
  end.

(** The lowest descriptor from [start] that is free. *)
Definition lowest_free (start : Z) (a : atable) : option Z :=
  snd <$> list_find (fun fd => fds a !! fd = None) (seqZ start (FDIO_MAX_FD - start)).

(** ** Counting *)

Definition entry_of (x : slot) : option entry := match x with Available => None | Reserved => Some Taken | Allocated o => Some (Open o) end.
Definition obj (x : slot) : list Z := match x with Allocated o => [o] | _ => [] end.

Definition occ (o : Z) (l : list Z) : Z := Z.of_nat (count_occ Z.eq_dec l o).

Lemma occ_append o a b : occ o (a ++ b) = occ o a + occ o b.
Proof. unfold occ. rewrite count_occ_app. lia. Qed.
Lemma occ_push o x l : occ o (x :: l) = (if decide (o = x) then 1 else 0) + occ o l.
Proof. unfold occ. simpl. destruct (Z.eq_dec x o), (decide (o = x)); subst; try done; lia. Qed.
Lemma occ_nonneg o l : 0 <= occ o l <= Z.of_nat (length l).
Proof. unfold occ. assert (H := count_occ_bound Z.eq_dec o l). lia. Qed.
Lemma occ_perm o l l' : l ≡ₚ l' -> occ o l = occ o l'.
Proof. intros H. unfold occ. f_equal. by apply Permutation_count_occ. Qed.
Lemma occ_in o l : 0 < occ o l <-> o ∈ l.
Proof. unfold occ. rewrite list_elem_of_In, (count_occ_In Z.eq_dec). lia. Qed.
#[global] Instance occ_proper o : Proper ((≡ₚ) ==> eq) (occ o).
Proof. intros l l'. apply occ_perm. Qed.

Section Rel.
Context {R : Type} {RC : RefCounted R} {RCL : RefCountedLaws R}.

Definition slots (s : fdio_state R) : list slot := root_slot s :: cwd_slot s :: fdtab s.
Definition refs (s : fdio_state R) (held : list Z) : list Z := mjoin (obj <$> slots s) ++ held.
#[local] Arguments refs : simpl never.

(** [n] objects were made so far. *)
Record rel (n : Z) (s : fdio_state R) (a : atable) (held : list Z) : Prop := {
  rel_len : length (fdtab s) = Z.to_nat FDIO_MAX_FD;
  rel_fds : forall i, fds a !! i = if (i <? 0) then None else x ← fdtab s !! Z.to_nat i; entry_of x;
  rel_root : entry_of (root_slot s) = Open <$> root_dir a;
  rel_cwd : entry_of (cwd_slot s) = Open <$> cwd_dir a;
  rel_count : forall o, match objects s !! o with
              | Some r => ref_count_of r = occ o (refs s held) /\ 0 < occ o (refs s held)
              | None => occ o (refs s held) = 0
              end;
  rel_made : forall o, is_Some (objects s !! o) -> 0 <= o < n;
  rel_closed : NoDup (closed s).*1 /\ forall o, o ∈ (closed s).*1 <-> 0 <= o < n /\ objects s !! o = None;
}.

Lemma rel_perm n s a held held' : held ≡ₚ held' -> rel n s a held -> rel n s a held'.
Proof.
  intros Hp [? ? ? ? Hc ? ?]. split; try done. intros o. specialize (Hc o). assert (E : occ o (refs s held') = occ o (refs s held)) by (apply occ_perm; unfold refs; by rewrite Hp). by rewrite E.
Qed.

Definition valid (p : place) : Prop := match p with Fd i => 0 <= i < FDIO_MAX_FD | _ => True end.

Lemma rel_slot n s a held p : rel n s a held -> valid p -> exists x, slot_of p s = Some x /\ entry_of x = aget p a.
Proof.
  intros Hr Hv. destruct p as [| |i]; cbn; [eexists; split; [done|apply Hr]..|]. cbn in Hv. unfold FDIO_MAX_FD in Hv. rewrite (rel_fds _ _ _ _ Hr). destruct (Z.ltb_spec i 0); [lia|].
  destruct (lookup_lt_is_Some_2 (fdtab s) (Z.to_nat i)) as [x Hx]; [rewrite (rel_len _ _ _ _ Hr); unfold FDIO_MAX_FD; lia|]. exists x. by rewrite Hx.
Qed.

Lemma refs_length n s a held : rel n s a held -> Z.of_nat (length (refs s held)) <= 1026 + Z.of_nat (length held).
Proof.
  intros Hr. unfold refs. rewrite length_app. assert (forall l, (length (mjoin (obj <$> l)) <= length l)%nat) as Hl.
  { induction l as [|x l IH]; [done|]. change (mjoin (obj <$> x :: l)) with (obj x ++ mjoin (obj <$> l)). rewrite length_app. destruct x; simpl length; lia. }
  specialize (Hl (slots s)). change (length (slots s)) with (S (S (length (fdtab s)))) in Hl. rewrite (rel_len _ _ _ _ Hr) in Hl. unfold FDIO_MAX_FD in Hl. lia.
Qed.

(** ** References that come and go *)

Lemma rel_objects n s a held held' r o : rel n s a held -> is_Some (objects s !! o) -> (forall o', o' <> o -> occ o' held' = occ o' held) ->
  ref_count_of r = occ o (refs s held') -> 0 < occ o (refs s held') ->
  rel n {| root_slot := root_slot s; cwd_slot := cwd_slot s; fdtab := fdtab s; objects := <[o := r]> (objects s); closed := closed s |} a held'.
Proof.
  intros [? ? ? ? Hc Hm [Hd Hcl]] Ho Hother Hr Hp. split; cbn; try done.
  - intros o'. destruct (decide (o' = o)) as [->|Hne]; [by rewrite lookup_insert_eq|]. rewrite lookup_insert_ne by done. specialize (Hc o').
    assert (E : forall s', slots s' = slots s -> occ o' (refs s' held') = occ o' (refs s held)) by (intros s' Es; unfold refs; rewrite !occ_append, Hother, Es by done; done). by rewrite E.
  - intros o'. destruct (decide (o' = o)) as [->|Hne]; [intros _; by apply Hm|]. rewrite lookup_insert_ne by done. apply Hm.
  - split; [done|]. intros o'. rewrite Hcl. destruct (decide (o' = o)) as [->|Hne]; [|by rewrite lookup_insert_ne].
    rewrite lookup_insert_eq. destruct Ho as [? ->]. split; intros [_ ?]; done.
Qed.

Lemma acquire_ok n s a held o : rel n s a held -> o ∈ refs s held -> Z.of_nat (length held) + 1026 < 2 ^ 30 ->
  wp (acquire o) s (fun _ s' => rel n s' a (o :: held) /\ slots s' = slots s).
Proof.
  intros Hr Hin Hlen. assert (Hc := rel_count _ _ _ _ Hr o). apply occ_in in Hin. assert (Hb := refs_length _ _ _ _ Hr). assert (Ho := occ_nonneg o (refs s held)).
  destruct (objects s !! o) as [r|] eqn:Er; [|lia]. destruct Hc as [Hc _]. apply wp_bind, wp_gets. apply wp_bind, (wp_lift _ r); [done|]. apply wp_modify. split; [|done].
  assert (Hmax := ref_max_big). apply (rel_objects n s a held); [done|by rewrite Er| |rewrite AddRef_count|].
  - intros o' Hne. rewrite occ_push. destruct (decide (o' = o)); [done|lia].
  - rewrite Hc. unfold refs. rewrite !occ_append, occ_push. destruct (decide (o = o)); [lia|done].
  - lia.
  - unfold refs in *. rewrite occ_append in *. rewrite occ_push. destruct (decide (o = o)); [lia|done].
Qed.

(** An object without its last reference. *)
Lemma close_ok n s a held o b : rel n s a (o :: held) -> occ o (refs s held) = 0 ->
  wp (close_and_delete o b) s (fun _ s' => rel n s' a held /\ slots s' = slots s).
Proof.
  intros [? ? ? ? Hc Hm [Hd Hcl]] H0. apply wp_modify. split; [|done]. assert (Ho := Hc o). destruct (objects s !! o) as [r|] eqn:Er.
  2: { unfold refs in Ho, H0. rewrite occ_append in *. rewrite occ_push in Ho. assert (Hx := occ_nonneg o (mjoin (obj <$> slots s))). destruct (decide (o = o)); [lia|done]. }
  split; cbn; try done.
  - intros o'. destruct (decide (o' = o)) as [->|Hne]; [by rewrite lookup_delete_eq|]. rewrite lookup_delete_ne by done. specialize (Hc o').
    assert (E : forall s', slots s' = slots s -> occ o' (refs s' held) = occ o' (refs s (o :: held))).
    { intros s' Es. unfold refs. rewrite !occ_append, occ_push, Es. destruct (decide (o' = o)); [done|lia]. }
    by rewrite E.
  - intros o' Ho'. destruct (decide (o' = o)) as [->|Hne]; [by rewrite lookup_delete_eq in Ho'; destruct Ho'|]. rewrite lookup_delete_ne in Ho' by done. by apply Hm.
  - rewrite fmap_app. simpl. split.
    + apply NoDup_app. split; [done|]. split; [|apply NoDup_singleton]. intros o' Hin ->%list_elem_of_singleton. apply Hcl in Hin as [_ Hin]. congruence.
    + intros o'. rewrite elem_of_app, list_elem_of_singleton, Hcl. destruct (decide (o' = o)) as [->|Hne].
      * rewrite lookup_delete_eq. split; [|by right]. intros _. split; [|done]. by apply Hm; rewrite Er.
      * rewrite lookup_delete_ne by done. split; [intros [?|?]; done|by left].
Qed.

Lemma drop_ok n s a held o : rel n s a (o :: held) -> wp (drop_pointer o) s (fun _ s' => rel n s' a held /\ slots s' = slots s).
Proof.
  intros Hr. assert (Hc := rel_count _ _ _ _ Hr o). assert (Hocc : occ o (refs s (o :: held)) = occ o (refs s held) + 1).
  { unfold refs. rewrite !occ_append, occ_push. destruct (decide (o = o)); [lia|done]. }
  assert (H0 := occ_nonneg o (refs s held)). destruct (objects s !! o) as [r|] eqn:Er; [|lia]. destruct Hc as [Hc _].
  destruct (Release_count r) as [Hl Hn]; [lia|]. apply wp_bind, wp_gets. apply wp_bind, (wp_lift _ r); [done|]. rewrite Hl. destruct (Z.eqb_spec (ref_count_of r) 1).
  - apply close_ok; [done|lia].
  - apply wp_modify. split; [|done]. apply (rel_objects n s a (o :: held)); [done|by rewrite Er| |lia|lia].
    intros o' Hne. rewrite occ_push. destruct (decide (o' = o)); [done|lia].
Qed.

Lemma is_last_ok n s a held o : rel n s a (o :: held) -> wp (is_last o) s (fun b s' => b = bool_decide (o ∉ refs s held) /\ s' = s).
Proof.
  intros Hr. assert (Hc := rel_count _ _ _ _ Hr o). assert (Hocc : occ o (refs s (o :: held)) = occ o (refs s held) + 1).
  { unfold refs. rewrite !occ_append, occ_push. destruct (decide (o = o)); [lia|done]. }
  assert (H0 := occ_nonneg o (refs s held)). destruct (objects s !! o) as [r|] eqn:Er; [|lia]. destruct Hc as [Hc _].
  apply wp_bind, wp_gets. apply wp_bind, (wp_lift _ r); [done|]. apply wp_ret. split; [|done]. rewrite IsLastReference_count by lia.
  case_bool_decide as Hb; rewrite <- occ_in in Hb; [apply Z.eqb_eq|apply Z.eqb_neq]; lia.
Qed.

(** A new object. *)
Lemma make_ok n s a held : rel n s a held -> 0 <= n -> wp (make n) s (fun _ s' => rel (n + 1) s' a (n :: held) /\ slots s' = slots s).
Proof.
  intros [? ? ? ? Hc Hm [Hd Hcl]] Hn. apply wp_modify. split; [|done].
  assert (Hnone : objects s !! n = None) by (destruct (objects s !! n) as [r|] eqn:E; [|done]; destruct (Hm n) as [_ ?]; [by rewrite E|lia]). assert (Ho := Hc n). rewrite Hnone in Ho.
  assert (E : forall s' o, slots s' = slots s -> occ o (refs s' (n :: held)) = (if decide (o = n) then 1 else 0) + occ o (refs s held)).
  { intros s' o Es. unfold refs. rewrite !occ_append, occ_push, Es. lia. }
  split; cbn; try done.
  - intros o. rewrite E by done. destruct (decide (o = n)) as [->|Hne]; [rewrite lookup_insert_eq, Adopted_count; lia|]. rewrite lookup_insert_ne by done. apply Hc.
  - intros o Ho'. destruct (decide (o = n)) as [->|Hne]; [lia|]. rewrite lookup_insert_ne in Ho' by done. specialize (Hm o Ho'). lia.
  - split; [done|]. intros o. rewrite Hcl. destruct (decide (o = n)) as [->|Hne]; [rewrite lookup_insert_eq; split; [lia|intros [_ ?]; done]|]. rewrite lookup_insert_ne by done.
    split; intros [? ?]; split; try done; lia.
Qed.

(** ** Slots *)

Lemma join_perm l l' : l ≡ₚ l' -> mjoin (obj <$> l) ≡ₚ mjoin (obj <$> l').
Proof.
  induction 1 as [|x l l' _ IH|x y l|l l' l'' _ IH1 _ IH2]; [done| | |by rewrite IH1].
  - change (obj x ++ mjoin (obj <$> l) ≡ₚ obj x ++ mjoin (obj <$> l')). by rewrite IH.
  - change (obj y ++ obj x ++ mjoin (obj <$> l) ≡ₚ obj x ++ obj y ++ mjoin (obj <$> l)). rewrite !app_assoc. apply Permutation_app_tail, Permutation_app_comm.
Qed.

Lemma slots_with p x y s : slot_of p s = Some x -> exists rest, slots s ≡ₚ x :: rest /\ slots (with_slot p y s) ≡ₚ y :: rest.
Proof.
  destruct p as [| |i]; cbn; intros E.
  - injection E as <-. by exists (cwd_slot s :: fdtab s).
  - injection E as <-. exists (root_slot s :: fdtab s). unfold slots. cbn. split; apply perm_swap.
  - destruct (i <? 0); [done|]. unfold slots. cbn. exists (root_slot s :: cwd_slot s :: (take (Z.to_nat i) (fdtab s) ++ drop (S (Z.to_nat i)) (fdtab s))).
    assert (Hi := lookup_lt_Some _ _ _ E). split.
    + rewrite <- (take_drop_middle _ _ _ E) at 1. rewrite <- Permutation_middle. rewrite (Permutation_swap x). by rewrite (Permutation_swap x).
    + rewrite insert_take_drop by done. rewrite <- Permutation_middle. rewrite (Permutation_swap y). by rewrite (Permutation_swap y).
Qed.

Lemma refs_with p x y s held : slot_of p s = Some x -> refs (with_slot p y s) (obj x ++ held) ≡ₚ refs s (obj y ++ held).
Proof.
  intros E. destruct (slots_with p x y s E) as (rest & E1 & E2). unfold refs. rewrite (join_perm _ _ E1), (join_perm _ _ E2).
  change (mjoin (obj <$> y :: rest)) with (obj y ++ mjoin (obj <$> rest)). change (mjoin (obj <$> x :: rest)) with (obj x ++ mjoin (obj <$> rest)).
  rewrite <- !app_assoc. rewrite (Permutation_app_swap_app (obj y)), (Permutation_app_swap_app (obj x)). apply Permutation_app_head, Permutation_app_swap_app.
Qed.

Lemma objects_with p y (s : fdio_state R) : objects (with_slot p y s) = objects s /\ closed (with_slot p y s) = closed s.
Proof. by destruct p. Qed.

Lemma rel_with n s a held p x y : rel n s a (obj y ++ held) -> valid p -> slot_of p s = Some x -> (y = Reserved -> exists i, p = Fd i) ->
  rel n (with_slot p y s) (aset p (entry_of y) a) (obj x ++ held).
Proof.
  intros [Hl Hf Hr Hw Hc Hm Hcl] Hv Ex Hy. destruct (objects_with p y s) as [Eo Ec]. split; rewrite ?Eo, ?Ec; try done.
  - destruct p; cbn; [done..|]. by rewrite length_insert.
  - intros j. destruct p as [| |i]; cbn; [apply Hf..|]. cbn in Hv. destruct (decide (j = i)) as [->|Hne].
    + rewrite lookup_partial_alter_eq. destruct (Z.ltb_spec i 0); [lia|]. rewrite list_lookup_insert_eq; [done|]. rewrite Hl. lia.
    + rewrite lookup_partial_alter_ne by done. rewrite Hf. destruct (Z.ltb_spec j 0); [done|]. rewrite list_lookup_insert_ne by lia. done.
  - destruct p; cbn; try done. destruct y; try done. by destruct (Hy eq_refl).
  - destruct p; cbn; try done. destruct y; try done. by destruct (Hy eq_refl).
  - intros o. specialize (Hc o). by rewrite (occ_perm o _ _ (refs_with p x y s held Ex)).
Qed.

Lemma wp_read n s a held p (Q : slot -> fdio_state R -> Prop) : rel n s a held -> valid p -> (forall x, slot_of p s = Some x -> entry_of x = aget p a -> Q x s) -> wp (read_slot p) s Q.
Proof. intros Hr Hv HQ. destruct (rel_slot _ _ _ _ p Hr Hv) as (x & Ex & Ee). apply wp_bind, wp_gets. apply (wp_lift _ x); [done|]. by apply HQ. Qed.

Lemma wp_write n s a held p x y (Q : unit -> fdio_state R -> Prop) : rel n s a (obj y ++ held) -> valid p -> slot_of p s = Some x -> (y = Reserved -> exists i, p = Fd i) ->
  (forall s', rel n s' (aset p (entry_of y) a) (obj x ++ held) -> Q tt s') -> wp (write_slot p y) s Q.
Proof.
  intros Hr Hv Ex Hy HQ. apply wp_bind. apply (wp_read n s a (obj y ++ held)); [done|done|]. intros x' Ex' _. apply wp_modify, HQ. by apply rel_with.
Qed.

Lemma slot_in p o s held : slot_of p s = Some (Allocated o) -> o ∈ refs s held.
Proof.
  intros E. destruct (slots_with p _ Available s E) as (rest & E1 & _). unfold refs. rewrite (join_perm _ _ E1).
  change (mjoin (obj <$> Allocated o :: rest)) with (o :: mjoin (obj <$> rest)). by left.
Qed.

Definition optional (o : option Z) : list Z := match o with Some o => [o] | None => [] end.

Lemma entry_object x : match x with Allocated o => Some o | _ => None end = object_of (entry_of x).
Proof. by destruct x. Qed.

Lemma slot_get_ok n s a held p : rel n s a held -> valid p -> Z.of_nat (length held) + 1026 < 2 ^ 30 ->
  wp (slot_get p) s (fun r s' => r = object_of (aget p a) /\ rel n s' a (optional r ++ held)).
Proof.
  intros Hr Hv Hl. apply wp_bind. apply (wp_read n s a held); [done|done|]. intros x Ex Ee. rewrite <- Ee. destruct x as [| |o]; [apply wp_ret; done..|].
  apply wp_bind. eapply wp_mono; [apply (acquire_ok n s a held o); [done|by apply (slot_in p)|done]|]. intros [] s' [Hr' _]. by apply wp_ret.
Qed.

Lemma slot_release_ok n s a held p : rel n s a held -> valid p ->
  wp (slot_release p) s (fun r s' => r = object_of (aget p a) /\ rel n s' (match r with Some _ => aset p None a | None => a end) (optional r ++ held)).
Proof.
  intros Hr Hv. apply wp_bind. apply (wp_read n s a held); [done|done|]. intros x Ex Ee. rewrite <- Ee. destruct x as [| |o]; [apply wp_ret; done..|].
  apply wp_bind. apply (wp_write n s a held p (Allocated o) Available); [done|done|done|done|]. intros s' Hr'. by apply wp_ret.
Qed.

Lemma try_set_ok n s a held p o : rel n s a (o :: held) -> valid p ->
  wp (try_set p o) s (fun b s' => b = bool_decide (aget p a = None) /\ rel n s' (if b then aset p (Some (Open o)) a else a) held).
Proof.
  intros Hr Hv. apply wp_bind. apply (wp_read n s a (o :: held)); [done|done|]. intros x Ex Ee. rewrite <- Ee. destruct x as [| |o'].
  - apply wp_bind. apply (wp_write n s a held p Available (Allocated o)); [done..|]. intros s' Hr'. by apply wp_ret.
  - apply wp_bind. eapply wp_mono; [by apply drop_ok|]. intros [] s' [Hr' _]. by apply wp_ret.
  - apply wp_bind. eapply wp_mono; [by apply drop_ok|]. intros [] s' [Hr' _]. by apply wp_ret.
Qed.

Lemma replace_ok n s a held p o : rel n s a (o :: held) -> valid p ->
  wp (slot_replace p o) s (fun r s' => r = object_of (aget p a) /\ rel n s' (aset p (Some (Open o)) a) (optional r ++ held)).
Proof.
  intros Hr Hv. apply wp_bind. apply (wp_read n s a (o :: held)); [done|done|]. intros x Ex Ee. rewrite <- Ee.
  apply wp_bind. apply (wp_write n s a held p x (Allocated o)); [done..|]. intros s' Hr'. by destruct x; apply wp_ret.
Qed.

Lemma try_reserve_ok n s a held i : rel n s a held -> 0 <= i < FDIO_MAX_FD ->
  wp (try_reserve (Fd i)) s (fun b s' => b = bool_decide (fds a !! i = None) /\ rel n s' (if b then aset (Fd i) (Some Taken) a else a) held).
Proof.
  intros Hr Hv. apply wp_bind. apply (wp_read n s a held); [done|done|]. intros x Ex Ee. cbn in Ee. rewrite <- Ee. destruct x as [| |o']; [|apply wp_ret; done..].
  apply wp_bind. apply (wp_write n s a held (Fd i) Available Reserved); [done|done|done|by eexists|]. intros s' Hr'. by apply wp_ret.
Qed.

Lemma try_fill_ok n s a held i o : rel n s a (o :: held) -> 0 <= i < FDIO_MAX_FD ->
  wp (try_fill (Fd i) o) s (fun b s' => b = bool_decide (fds a !! i = Some Taken) /\ rel n s' (if b then aset (Fd i) (Some (Open o)) a else a) held).
Proof.
  intros Hr Hv. apply wp_bind. apply (wp_read n s a (o :: held)); [done|done|]. intros x Ex Ee. cbn in Ee. rewrite <- Ee. destruct x as [| |o'].
  - apply wp_bind. eapply wp_mono; [by apply drop_ok|]. intros [] s' [Hr' _]. by apply wp_ret.
  - apply wp_bind. apply (wp_write n s a held (Fd i) Reserved (Allocated o)); [done..|]. intros s' Hr'. by apply wp_ret.
  - apply wp_bind. eapply wp_mono; [by apply drop_ok|]. intros [] s' [Hr' _]. by apply wp_ret.
Qed.

Lemma release_reservation_ok n s a held i : rel n s a held -> 0 <= i < FDIO_MAX_FD ->
  wp (release_reservation (Fd i)) s (fun _ s' => rel n s' (if bool_decide (fds a !! i = Some Taken) then aset (Fd i) None a else a) held).
Proof.
  intros Hr Hv. apply wp_bind. apply (wp_read n s a held); [done|done|]. intros x Ex Ee. cbn in Ee. rewrite <- Ee. destruct x as [| |o']; [by apply wp_ret| |by apply wp_ret].
  by apply (wp_write n s a held (Fd i) Reserved Available).
Qed.
End Rel.
