(* ===== verification/FdTableOps.v ===== *)
(** * The descriptor table: operations

    What each locked routine returns and does to the abstract table, and the counts along runs. *)

From stdpp Require Import gmap.
From S2P Require Import Prelude FdTable FdTableInv.

(** ** Abstract operations *)

(** The object of a descriptor. *)
Definition open_at (fd : Z) (a : atable) : option Z := object_of (fds a !! fd).
Definition aopen (fd o : Z) (a : atable) : atable := aset (Fd fd) (Some (Open o)) a.
Definition aopen_optional (fd : option Z) (o : Z) (a : atable) : atable := match fd with Some fd => aopen fd o a | None => a end.

(** The two ends take the two lowest descriptors; if there is one only, the left end keeps
    it. *)
Definition apair (left right : Z) (a : atable) : option (Z * Z) * atable :=
  match lowest_free 0 a with
  | None => (None, a)
  | Some l => let a := aopen l left a in
      match lowest_free (l + 1) a with
      | None => (None, a)
      | Some r => (Some (l, r), aopen r right a)
      end
  end.

(** A socket goes to its reservation.  If that is gone, the slot is tried again: when it is
    free the socket is there, but the descriptor that is returned is 0. *)
Definition afill (nfd o : Z) (a : atable) : int_result * atable :=
  match fds a !! nfd with
  | Some Taken => (Returns nfd, aopen nfd o a)
  | None => (Returns 0, aopen nfd o a)
  | Some (Open _) => (Fails EMFILE, a)
  end.

Definition in_range (fd : Z) : bool := (0 <=? fd) && (fd <? FDIO_MAX_FD).

Definition adup2 (oldfd newfd : Z) (a : atable) : int_result * option Z * atable :=
  if in_range newfd then
    match open_at oldfd a with
    | Some o => (Returns newfd, open_at newfd a, aopen newfd o a)
    | None => (Fails EBADF, None, a)
    end
  else (Fails EBADF, None, a).

Definition adup_from (start fd : Z) (a : atable) : int_result * atable :=
  match open_at fd a with
  | Some o => (or_emfile (lowest_free start a), aopen_optional (lowest_free start a) o a)
  | None => (Fails EBADF, a)
  end.

Definition abind (o fd start : Z) (a : atable) : int_result * option Z * atable :=
  if fd <? 0 then
    if start <? 0 then (Fails EINVAL, None, a) else (or_emfile (lowest_free start a), None, aopen_optional (lowest_free start a) o a)
  else if in_range fd then (Returns fd, open_at fd a, aopen fd o a)
  else (Fails EINVAL, None, a).

(** ** Free descriptors *)

Lemma seqZ_step start : 0 <= start < FDIO_MAX_FD -> seqZ start (FDIO_MAX_FD - start) = start :: seqZ (start + 1) (FDIO_MAX_FD - (start + 1)).
Proof. intros H. rewrite seqZ_cons by lia. f_equal. f_equal; lia. Qed.

Lemma lowest_free_step start a : 0 <= start < FDIO_MAX_FD ->
  lowest_free start a = if bool_decide (fds a !! start = None) then Some start else lowest_free (start + 1) a.
Proof.
  intros Hs. unfold lowest_free. rewrite seqZ_step by done. cbn [list_find]. case_bool_decide as Hb; case_decide; try done.
  by destruct (list_find _ (seqZ (start + 1) (FDIO_MAX_FD - (start + 1)))) as [[]|].
Qed.
Lemma lowest_free_end start a : FDIO_MAX_FD <= start -> lowest_free start a = None.
Proof. intros Hs. unfold lowest_free. by rewrite seqZ_nil by lia. Qed.
Lemma lowest_free_Some start a fd : lowest_free start a = Some fd -> 0 <= start -> start <= fd < FDIO_MAX_FD /\ fds a !! fd = None /\ forall i, start <= i < fd -> fds a !! i <> None.
Proof.
  unfold lowest_free. intros E H0. destruct (list_find _ _) as [[k x]|] eqn:El; [|done]. simpl in E. injection E as ->. apply list_find_Some in El as (Ek & Hx & Hall).
  apply lookup_seqZ in Ek as [-> Hk]. split; [lia|]. split; [done|]. intros i Hi. apply (Hall (Z.to_nat (i - start)) i); [|lia]. apply lookup_seqZ. lia.
Qed.

Section Ops.
Context {R : Type} {RC : RefCounted R} {RCL : RefCountedLaws R}.

(** Few references are held, compared with what a count can take. *)
Definition few (held : list Z) : Prop := Z.of_nat (length held) + 1030 < 2 ^ 30.

Lemma held_in (s : fdio_state R) held o : o ∈ held -> o ∈ refs s held.
Proof. intros Ho. unfold refs. apply elem_of_app. by right. Qed.

(** Copying a pointer that is held, and trying to store the copy. *)
Lemma copy_ok {A} n s a held o (k : unit -> ST (fdio_state R) A) Q : rel n s a held -> o ∈ held -> few held ->
  (forall s', rel n s' a (o :: held) -> wp (k tt) s' Q) -> wp (u ← acquire o; k u) s Q.
Proof. intros Hr Ho Hf HQ. unfold few in Hf. apply wp_bind. eapply wp_mono; [apply (acquire_ok n s a held o Hr (held_in s held o Ho)); lia|]. intros [] s' [? _]. by apply HQ. Qed.

Lemma set_loop_ok turns : forall fd n s a held o, turns = Z.to_nat (FDIO_MAX_FD - fd) -> 0 <= fd -> rel n s a held -> o ∈ held -> few held ->
  wp (set_loop turns fd o) s (fun r s' => r = lowest_free fd a /\ rel n s' (aopen_optional r o a) held).
Proof.
  induction turns as [|turns IH]; intros fd n s a held o Ht Hfd Hr Ho Hf; cbn [set_loop].
  - apply wp_ret. rewrite lowest_free_end by lia. done.
  - apply (copy_ok n s a held); [done..|]. intros s1 Hr1. apply wp_bind. eapply wp_mono; [apply (try_set_ok n s1 a held (Fd fd) o Hr1); cbn; lia|].
    cbn [aget]. intros b s2 [-> Hr2]. rewrite lowest_free_step by lia. case_bool_decide; [by apply wp_ret|]. apply IH; [lia|lia|done..].
Qed.
Lemma set_from_ok fd n s a held o : 0 <= fd -> rel n s a held -> o ∈ held -> few held ->
  wp (set_from fd o) s (fun r s' => r = lowest_free fd a /\ rel n s' (aopen_optional r o a) held).
Proof. intros. by apply set_loop_ok. Qed.

Lemma rel_out n s a held fd : rel n s a held -> in_range fd = false -> fds a !! fd = None.
Proof.
  intros Hr Hf. rewrite (rel_fds _ _ _ _ Hr). destruct (Z.ltb_spec fd 0); [done|]. unfold in_range in Hf. apply andb_false_iff in Hf as [Hf|Hf]; [apply Z.leb_gt in Hf; lia|].
  apply Z.ltb_ge in Hf. rewrite lookup_ge_None_2; [done|]. rewrite (rel_len _ _ _ _ Hr). lia.
Qed.

Lemma slot_locked_range fd : slot_locked fd = if in_range fd then Some (Fd fd) else None.
Proof. unfold slot_locked, in_range. destruct (Z.ltb_spec fd 0), (Z.leb_spec 0 fd), (Z.geb_spec fd FDIO_MAX_FD), (Z.ltb_spec fd FDIO_MAX_FD); try lia; done. Qed.
Lemma in_range_valid fd : in_range fd = true -> 0 <= fd < FDIO_MAX_FD.
Proof. unfold in_range. intros [H1 H2]%andb_true_iff. lia. Qed.

Lemma fd_to_io_ok n s a held fd : rel n s a held -> few held ->
  wp (fd_to_io_locked fd) s (fun r s' => r = open_at fd a /\ rel n s' a (optional r ++ held)).
Proof.
  intros Hr Hf. unfold few in Hf. unfold fd_to_io_locked. rewrite slot_locked_range. unfold open_at. destruct (in_range fd) eqn:E.
  - apply (slot_get_ok n s a held (Fd fd)); [done|by apply in_range_valid|lia].
  - apply wp_ret. by rewrite (rel_out n s a held fd).
Qed.
Lemma unbind_ok n s a held fd : rel n s a held ->
  wp (unbind_from_fd_locked fd) s (fun r s' => r = open_at fd a /\ rel n s' (match r with Some _ => aset (Fd fd) None a | None => a end) (optional r ++ held)).
Proof.
  intros Hr. unfold unbind_from_fd_locked. rewrite slot_locked_range. unfold open_at. destruct (in_range fd) eqn:E.
  - apply (slot_release_ok n s a held (Fd fd)); [done|by apply in_range_valid].
  - apply wp_ret. by rewrite (rel_out n s a held fd).
Qed.

(** A pointer that a routine got for itself and drops before it returns. *)
Lemma drop_then {A} n s a held o (k : unit -> ST (fdio_state R) A) Q : rel n s a (o :: held) -> (forall s', rel n s' a held -> wp (k tt) s' Q) -> wp (u ← drop_pointer o; k u) s Q.
Proof. intros Hr HQ. apply wp_bind. eapply wp_mono; [by apply drop_ok|]. intros [] s' [? _]. by apply HQ. Qed.

Definition very_few (held : list Z) : Prop := Z.of_nat (length held) + 1040 < 2 ^ 30.
Lemma very_few_few held : very_few held -> few held.
Proof. unfold very_few, few. lia. Qed.
Lemma very_few_cons o held : very_few held -> few (o :: held).
Proof. unfold very_few, few. simpl. lia. Qed.
#[local] Hint Resolve very_few_few very_few_cons : core.

Lemma dup2_ok n s a held oldfd newfd : rel n s a held -> very_few held ->
  wp (dup2 oldfd newfd) s (fun r s' => r = (adup2 oldfd newfd a).1 /\ rel n s' (adup2 oldfd newfd a).2 (optional r.2 ++ held)).
Proof.
  intros Hr Hf. unfold dup2, adup2. assert (E : (newfd <? 0) || (newfd >=? FDIO_MAX_FD) = negb (in_range newfd)).
  { assert (H := slot_locked_range newfd). unfold slot_locked in H. by destruct ((newfd <? 0) || (newfd >=? FDIO_MAX_FD)), (in_range newfd). }
  rewrite E. destruct (in_range newfd) eqn:En; cbn [negb]; [|by apply wp_ret]. apply wp_bind. eapply wp_mono; [apply (fd_to_io_ok n s a held oldfd Hr); auto|].
  intros io s1 [-> Hr1]. destruct (open_at oldfd a) as [o|]; [|by apply wp_ret]. apply (copy_ok n s1 a (o :: held)); [done|by left|by auto|]. intros s2 Hr2.
  apply wp_bind. eapply wp_mono; [apply (replace_ok n s2 a (o :: held) (Fd newfd) o Hr2); by apply in_range_valid|]. intros prev s3 [-> Hr3].
  apply (drop_then n s3 (aopen newfd o a) (optional (open_at newfd a) ++ held)).
  { eapply rel_perm; [|exact Hr3]. symmetry. apply Permutation_middle. }
  intros s4 Hr4. by apply wp_ret.
Qed.

Lemma dup_from_ok n s a held fd start : rel n s a held -> very_few held -> 0 <= start ->
  wp (io ← fd_to_io_locked fd; match io with None => mret (Fails EBADF) | Some io => r ← set_from start io; drop_pointer io ;; mret (or_emfile r) end) s
    (fun r s' => r = (adup_from start fd a).1 /\ rel n s' (adup_from start fd a).2 held).
Proof.
  intros Hr Hf H0. unfold adup_from. apply wp_bind. eapply wp_mono; [apply (fd_to_io_ok n s a held fd Hr); auto|].
  intros io s1 [-> Hr1]. destruct (open_at fd a) as [o|]; [|by apply wp_ret]. apply wp_bind. eapply wp_mono; [apply (set_from_ok start n s1 a (o :: held)); [done|done|by left|by auto]|].
  intros r s2 [-> Hr2]. apply (drop_then n s2 _ held _ _ _ Hr2). intros s3 Hr3. by apply wp_ret.
Qed.

Lemma dup_ok n s a held fd : rel n s a held -> very_few held -> wp (dup fd) s (fun r s' => r = (adup_from 0 fd a).1 /\ rel n s' (adup_from 0 fd a).2 held).
Proof. intros Hr Hf. by apply dup_from_ok. Qed.

Lemma fcntl_dupfd_ok n s a held fd start : rel n s a held -> very_few held ->
  wp (fcntl_dupfd fd start) s (fun r s' => r = (if start <? 0 then Fails EINVAL else (adup_from start fd a).1) /\ rel n s' (if start <? 0 then a else (adup_from start fd a).2) held).
Proof. intros Hr Hf. unfold fcntl_dupfd. destruct (Z.ltb_spec start 0); [by apply wp_ret|]. by apply dup_from_ok. Qed.

Lemma bind_to_ok n s a held o fd start : rel n s a held -> o ∈ held -> very_few held ->
  wp (fdio_bind_to_fd o fd start) s (fun r s' => r = (abind o fd start a).1 /\ rel n s' (abind o fd start a).2 (optional r.2 ++ held)).
Proof.
  intros Hr Ho Hf. unfold fdio_bind_to_fd, abind. destruct (Z.ltb_spec fd 0) as [Hfd|Hfd].
  - destruct (Z.geb_spec fd FDIO_MAX_FD) as [?|_]; [unfold FDIO_MAX_FD in *; lia|]. cbn [andb]. rewrite orb_false_r. destruct (Z.ltb_spec start 0); [by apply wp_ret|].
    apply wp_bind. eapply wp_mono; [apply (set_from_ok start n s a held o); auto|]. intros r s' [-> Hr']. by apply wp_ret.
  - cbn [andb orb]. unfold in_range. destruct (Z.leb_spec 0 fd); [|lia]. destruct (Z.geb_spec fd FDIO_MAX_FD) as [?|?], (Z.ltb_spec fd FDIO_MAX_FD); try lia; cbn [andb]; [by apply wp_ret|].
    apply (copy_ok n s a held); auto. intros s1 Hr1. apply wp_bind. eapply wp_mono; [apply (replace_ok n s1 a held (Fd fd) o Hr1); done|]. intros prev s2 [-> Hr2]. by apply wp_ret.
Qed.

Lemma pair_right_ok turns : forall i n s a held l r f, turns = Z.to_nat (FDIO_MAX_FD - i) -> 0 <= i -> rel n s a held -> r ∈ held -> very_few held ->
  wp (pair_loop turns i l r (Some f)) s (fun x s' => x = ((fun j => (f, j)) <$> lowest_free i a) /\ rel n s' (aopen_optional (lowest_free i a) r a) held).
Proof.
  induction turns as [|turns IH]; intros i n s a held l r f Ht Hi Hr Ho Hf; cbn [pair_loop].
  - apply wp_ret. by rewrite lowest_free_end by lia.
  - apply (copy_ok n s a held); auto. intros s1 Hr1. apply wp_bind. eapply wp_mono; [apply (try_set_ok n s1 a held (Fd i) r Hr1); cbn; lia|].
    cbn [aget]. intros b s2 [-> Hr2]. rewrite lowest_free_step by lia. case_bool_decide; [by apply wp_ret|]. apply IH; [lia|lia|done..].
Qed.
Lemma pair_ok n s a held l r : rel n s a held -> l ∈ held -> r ∈ held -> very_few held ->
  wp (socketpair_create l r) s (fun x s' => x = (apair l r a).1 /\ rel n s' (apair l r a).2 held).
Proof.
  intros Hr Hl Hor Hf. unfold socketpair_create, apair. cut (forall turns i s, turns = Z.to_nat (FDIO_MAX_FD - i) -> 0 <= i -> rel n s a held ->
    wp (pair_loop turns i l r None) s (fun x s' =>
      let p := match lowest_free i a with None => (None, a) | Some f => match lowest_free (f + 1) (aopen f l a) with None => (None, aopen f l a) | Some j => (Some (f, j), aopen j r (aopen f l a)) end end in
      x = p.1 /\ rel n s' p.2 held)).
  { intros H. by apply (H _ 0 s). }
  clear s Hr. induction turns as [|turns IH]; intros i s Ht Hi Hr; cbn [pair_loop].
  - apply wp_ret. by rewrite lowest_free_end by lia.
  - apply (copy_ok n s a held); auto. intros s1 Hr1. apply wp_bind. eapply wp_mono; [apply (try_set_ok n s1 a held (Fd i) l Hr1); cbn; lia|].
    cbn [aget]. intros b s2 [-> Hr2]. rewrite lowest_free_step by lia. case_bool_decide; [|apply IH; [lia|lia|done]].
    eapply wp_mono; [apply (pair_right_ok turns (i + 1) n s2 (aopen i l a) held l r i); [lia|lia|done..]|]. intros x s3 [-> Hr3]. by destruct (lowest_free (i + 1) (aopen i l a)).
Qed.

Lemma reserve_ok n s a held : rel n s a held ->
  wp accept_reserve s (fun r s' => r = lowest_free 0 a /\ rel n s' (match r with Some fd => aset (Fd fd) (Some Taken) a | None => a end) held).
Proof.
  intros Hr. unfold accept_reserve. cut (forall turns i s, turns = Z.to_nat (FDIO_MAX_FD - i) -> 0 <= i -> rel n s a held ->
    wp (reserve_loop turns i) s (fun r s' => r = lowest_free i a /\ rel n s' (match r with Some fd => aset (Fd fd) (Some Taken) a | None => a end) held)).
  { intros H. by apply (H _ 0 s). }
  clear s Hr. induction turns as [|turns IH]; intros i s Ht Hi Hr; cbn [reserve_loop].
  - apply wp_ret. by rewrite lowest_free_end by lia.
  - apply wp_bind. eapply wp_mono; [apply (try_reserve_ok n s a held i Hr); lia|]. intros b s2 [-> Hr2]. rewrite lowest_free_step by lia.
    case_bool_decide; [by apply wp_ret|]. apply IH; [lia|lia|done].
Qed.

Lemma refill_ok turns : forall i n s a held nfd o, rel n s a held -> o ∈ held -> few held -> 0 <= nfd < FDIO_MAX_FD ->
  wp (refill_loop (S turns) i nfd o) s (fun r s' => r = (if bool_decide (fds a !! nfd = None) then Some i else None) /\
    rel n s' (if bool_decide (fds a !! nfd = None) then aopen nfd o a else a) held).
Proof.
  induction turns as [|turns IH]; intros i n s a held nfd o Hr Ho Hf Hn; cbn [refill_loop].
  all: apply (copy_ok n s a held); auto; intros s1 Hr1; apply wp_bind; eapply wp_mono; [by apply (try_set_ok n s1 a held (Fd nfd) o Hr1)|]; cbn [aget]; intros b s2 [-> Hr2].
  - case_bool_decide; by apply wp_ret.
  - case_bool_decide as Hb; [by apply wp_ret|]. eapply wp_mono; [by apply IH|]. by rewrite bool_decide_false by done.
Qed.

Lemma fill_ok n s a held nfd o : rel n s a held -> o ∈ held -> very_few held -> 0 <= nfd < FDIO_MAX_FD ->
  wp (accept_fill nfd o) s (fun r s' => r = (afill nfd o a).1 /\ rel n s' (afill nfd o a).2 held).
Proof.
  intros Hr Ho Hf Hn. unfold accept_fill, afill. apply (copy_ok n s a held); auto. intros s1 Hr1. apply wp_bind. eapply wp_mono; [by apply (try_fill_ok n s1 a held nfd o Hr1)|].
  intros b s2 [-> Hr2]. case_bool_decide as Hb; [rewrite Hb; by apply wp_ret|]. apply wp_bind. change (Z.to_nat FDIO_MAX_FD) with (S 1023).
  eapply wp_mono; [apply (refill_ok 1023 0 n s2 a held nfd o); auto|]. intros r s3 [-> Hr3]. apply wp_ret. destruct (fds a !! nfd) as [[|o']|]; [done|..].
  - by rewrite bool_decide_false in * by done.
  - by rewrite bool_decide_true in * by done.
Qed.

Lemma drop_optional_ok n s a held o : rel n s a (optional o ++ held) -> wp (drop_optional o) s (fun _ s' => rel n s' a held).
Proof. intros Hr. destruct o as [o|]; cbn in *; [|by apply wp_ret]. eapply wp_mono; [apply drop_ok; exact Hr|]. by intros [] s' [? _]. Qed.

Lemma chdir_ok n s a held o : rel n s a (o :: held) -> wp (chdir_locked o) s (fun _ s' => rel n s' (aset Cwd (Some (Open o)) a) held).
Proof. intros Hr. apply wp_bind. eapply wp_mono; [by apply (replace_ok n s a held Cwd o Hr)|]. intros r s1 [-> Hr1]. by apply drop_optional_ok. Qed.

Lemma chroot_ok n s a held o : rel n s a held -> o ∈ held -> few held ->
  wp (chroot_locked o) s (fun r s' => r = root_dir a /\ rel n s' (aset Root (Some (Open o)) a) (optional r ++ held)).
Proof.
  intros Hr Ho Hf. apply (copy_ok n s a held); auto. intros s1 Hr1. eapply wp_mono; [by apply (replace_ok n s1 a held Root o Hr1)|]. intros r s2 [-> Hr2].
  cbn in *. by destruct (root_dir a).
Qed.

Lemma iodir_ok n s a held absolute at_cwd dirfd : rel n s a held -> few held ->
  wp (iodir_locked absolute at_cwd dirfd) s (fun r s' => r = (if (absolute : bool) then root_dir a else if (at_cwd : bool) then cwd_dir a else open_at dirfd a) /\ rel n s' a (optional r ++ held)).
Proof.
  intros Hr Hf. assert (Hl : Z.of_nat (length held) + 1026 < 2 ^ 30) by (unfold few in Hf; lia). unfold iodir_locked. destruct absolute; [|destruct at_cwd; [|by apply fd_to_io_ok]].
  - eapply wp_mono; [by apply (slot_get_ok n s a held Root)|]. intros r s' [-> Hr']. cbn in *. by destruct (root_dir a).
  - eapply wp_mono; [by apply (slot_get_ok n s a held Cwd)|]. intros r s' [-> Hr']. cbn in *. by destruct (cwd_dir a).
Qed.

(** ** The end of the process *)

(** Reservations, and what is below [i], are left. *)
Definition aclose_from (i : Z) (a : atable) : atable := {| fds := filter (fun x => x.1 < i \/ x.2 = Taken) (fds a); root_dir := root_dir a; cwd_dir := cwd_dir a |}.
Definition areserved (a : atable) : atable := aclose_from 0 {| fds := fds a; root_dir := None; cwd_dir := None |}.

Lemma aclose_step i a : aclose_from i a = aclose_from (i + 1) (match open_at i a with Some _ => aset (Fd i) None a | None => a end).
Proof.
  unfold aclose_from, open_at. assert (E : forall m, fds a !! i = m -> filter (fun x => x.1 < i \/ x.2 = Taken) (fds a) =
    filter (fun x => x.1 < i + 1 \/ x.2 = Taken) (fds (match object_of m with Some _ => aset (Fd i) None a | None => a end))).
  { intros m Em. apply map_eq. intros j. rewrite !map_lookup_filter. destruct (decide (j = i)) as [->|Hne].
    - rewrite Em. destruct m as [[|o]|]; cbn; rewrite ?Em; cbn.
      + rewrite !option_guard_True; [done|lia|by right].
      + rewrite lookup_partial_alter_eq. cbn. rewrite option_guard_False; [done|]. intros [?|?]; [lia|done].
      + done.
    - assert (Ej : fds (match object_of m with Some _ => aset (Fd i) None a | None => a end) !! j = fds a !! j) by (destruct (object_of m); [|done]; cbn; by rewrite lookup_partial_alter_ne).
      rewrite Ej. destruct (fds a !! j) as [e|]; cbn; [|done]. destruct (decide (j < i \/ e = Taken)) as [Hd|Hd].
      + rewrite !option_guard_True; [done| |done]. destruct Hd; [left; cbn in *; lia|by right].
      + rewrite !option_guard_False; [done| |done]. intros [?|?]; apply Hd; [left; cbn in *; lia|by right]. }
  rewrite (E _ eq_refl). by destruct (object_of (fds a !! i)).
Qed.

Lemma aclose_end n s a held : rel n s a held -> aclose_from FDIO_MAX_FD a = a.
Proof.
  intros Hr. unfold aclose_from. rewrite map_filter_id; [by destruct a|]. intros i e Ei. left. cbn. destruct (in_range i) eqn:E; [by apply in_range_valid in E as [_ ?]|].
  rewrite (rel_out n s a held i) in Ei by done. done.
Qed.

Lemma fd_release_loop_ok turns : forall i n s a held, turns = Z.to_nat (FDIO_MAX_FD - i) -> 0 <= i <= FDIO_MAX_FD -> rel n s a held ->
  wp (release_fds turns i) s (fun _ s' => rel n s' (aclose_from i a) held).
Proof.
  induction turns as [|turns IH]; intros i n s a held Ht Hi Hr; cbn [release_fds].
  - apply wp_ret. replace i with FDIO_MAX_FD by lia. by rewrite (aclose_end n s a held).
  - apply wp_bind. eapply wp_mono; [apply (slot_release_ok n s a held (Fd i) Hr); cbn; lia|]. intros r s1 [-> Hr1]. apply wp_bind. eapply wp_mono; [by apply drop_optional_ok|].
    intros [] s2 Hr2. rewrite aclose_step. eapply wp_mono; [apply IH; [lia|lia|exact Hr2]|]. done.
Qed.

Lemma fini_ok n s a held : rel n s a held -> wp libc_extensions_fini s (fun _ s' => rel n s' (areserved a) held).
Proof.
  intros Hr. apply wp_bind. eapply wp_mono; [by apply (slot_release_ok n s a held Root Hr)|]. intros r s1 [-> Hr1].
  apply wp_bind. eapply wp_mono; [by apply (slot_release_ok n s1 _ _ Cwd Hr1)|]. intros c s2 [-> Hr2].
  apply wp_bind. eapply wp_mono; [eapply (fd_release_loop_ok _ 0 n s2); [done|unfold FDIO_MAX_FD; lia|exact Hr2]|]. intros [] s3 Hr3.
  apply wp_bind. eapply wp_mono; [by apply drop_optional_ok|]. intros [] s4 Hr4. eapply wp_mono; [by apply drop_optional_ok|]. intros [] s5 Hr5.
  unfold areserved. destruct a as [f [ro|] [cw|]]; cbn in *; exact Hr5.
Qed.
End Ops.

(** ** The descriptor table: threads *)

(** What a pointer was taken out of the table for: close, fdio_unbind_from_fd,
    fdio_fd_transfer and fdio_fd_transfer_or_clone. *)
Inductive use := UClose (should_wait : bool) | UUnbind | UTransfer | UTransferOrClone.

(** A pointer of a call or of a user; one that was taken out of the table; a last_reference;
    the reservation of an accept4 that runs, and of one that is done with it. *)
Inductive pending :=
| Ref (o : Z)
| Unbound (u : use) (o : Z)
| Sole (u : use) (o : Z)
| Reservation (nfd : Z)
| Deferred (nfd : Z).

(** What a step answers. *)
Inductive answer :=
| Nothing
| AnInt (r : int_result)
| AnFd (fd : option Z)
| AnIo (o : option Z)
| APair (fds : option (Z * Z))
| Unavailable
| Cloned (o : Z)
| Unwrapped (o : Z).

Inductive event :=
| EMake
| EBind (k : nat)
| EBindTo (k : nat) (fd starting_fd : Z)
| EDup (fd : Z)
| EDup2 (oldfd newfd : Z)
| EDup3 (oldfd newfd : Z) (flags_ok : bool)
| EDupFd (fd starting_fd : Z)
| EGet (fd : Z)
| EDir (absolute at_cwd : bool) (dirfd : Z)
| EUnbind (u : use) (fd : Z)
| EGetLast (k : nat)
| EUse (k : nat)
| EDrop (k : nat)
| EPair (left right : nat)
| EReserve
| EFill (k j : nat)
| EUndo (k : nat)
| EChdir (k : nat)
| EChroot (k : nat)
| EFini.

(** Events that need the lock, which is never released after [EFini]. *)
Definition takes_lock (e : event) : bool :=
  match e with EMake | EGetLast _ | EUse _ | EDrop _ => false | _ => true end.

(** The answer of a call whose pointer is not the last one. *)
Definition shared (u : use) (o : Z) : answer :=
  match u with UClose _ => AnInt (Returns 0) | UUnbind | UTransfer => Unavailable | UTransferOrClone => Cloned o end.

Definition STATUS (status : Z) : int_result := if status =? 0 then Returns 0 else Fails (of_status status).

Section Runs.
Context {R : Type} {RC : RefCounted R}.

(** The status of the close hook of an object. *)
Context (close_status : Z -> bool -> Z).

(** ** The threads *)

Record world := { table : fdio_state R; pend : list pending; made : Z; finished : bool }.

Abbreviation WM := (ST world).

Definition on_table {A} (m : ST (fdio_state R) A) : WM A := fun w =>
  match m (table w) with Some (x, t) => Some (x, {| table := t; pend := pend w; made := made w; finished := finished w |}) | None => None end.
Definition set_pend (f : list pending -> list pending) : WM unit := modify (fun w => {| table := table w; pend := f (pend w); made := made w; finished := finished w |}).
Definition push (l : list pending) : WM unit := set_pend (fun p => p ++ l).
Definition pointer (o : option Z) : list pending := match o with Some o => [Ref o] | None => [] end.

(** An event about something that is not pending does nothing. *)
Definition on_ref (k : nat) (f : Z -> WM answer) : WM answer := p ← gets (fun w => pend w !! k); match p with Some (Ref o) => f o | _ => mret Nothing end.

Definition fd_step (e : event) : WM answer :=
  match e with
  | EMake =>
      n ← gets made;
      on_table (make n) ;;
      modify (fun w => {| table := table w; pend := pend w ++ [Ref n]; made := n + 1; finished := finished w |}) ;;
      mret (AnIo (Some n))
  | EBind k => on_ref k (fun o => fd ← on_table (bind_to_fd_locked o); mret (AnFd fd))
  | EBindTo k fd starting_fd => on_ref k (fun o =>
      '(r, io_to_close) ← on_table (fdio_bind_to_fd o fd starting_fd); push (pointer io_to_close) ;; mret (AnInt r))
  | EDup fd => r ← on_table (dup fd); mret (AnInt r)
  | EDup2 oldfd newfd => '(r, io_to_close) ← on_table (dup2 oldfd newfd); push (pointer io_to_close) ;; mret (AnInt r)
  | EDup3 oldfd newfd flags_ok => '(r, io_to_close) ← on_table (dup3 oldfd newfd flags_ok); push (pointer io_to_close) ;; mret (AnInt r)
  | EDupFd fd starting_fd => r ← on_table (fcntl_dupfd fd starting_fd); mret (AnInt r)
  | EGet fd => io ← on_table (fd_to_io_locked fd); push (pointer io) ;; mret (AnIo io)
  | EDir absolute at_cwd dirfd => io ← on_table (iodir_locked absolute at_cwd dirfd); push (pointer io) ;; mret (AnIo io)
  | EUnbind u fd =>
      io ← on_table (unbind_from_fd_locked fd);
      push (match io with Some o => [Unbound u o] | None => [] end) ;;
      mret (AnIo io)
  | EGetLast k =>
      p ← gets (fun w => pend w !! k);
      match p with
      | Some (Unbound u o) =>
          last ← on_table (is_last o);
          if (last : bool) then set_pend <[k := Sole u o]> ;; mret Nothing
          else set_pend <[k := Ref o]> ;; mret (shared u o)
      | _ => mret Nothing
      end
  | EUse k =>
      p ← gets (fun w => pend w !! k);
      match p with
      | Some (Sole (UClose should_wait) o) =>
          on_table (close_and_delete o should_wait) ;; set_pend (delete k) ;; mret (AnInt (STATUS (close_status o should_wait)))
      | Some (Sole UUnbind o) => set_pend <[k := Ref o]> ;; mret (AnIo (Some o))
      | Some (Sole _ o) => on_table (close_and_delete o false) ;; set_pend (delete k) ;; mret (Unwrapped o)
      | _ => mret Nothing
      end
  | EDrop k => on_ref k (fun o => on_table (drop_pointer o) ;; set_pend (delete k) ;; mret Nothing)
  | EPair k j => on_ref k (fun left => on_ref j (fun right => r ← on_table (socketpair_create left right); mret (APair r)))
  | EReserve =>
      r ← on_table accept_reserve;
      push (match r with Some nfd => [Reservation nfd] | None => [] end) ;;
      mret (AnFd r)
  | EFill k j =>
      p ← gets (fun w => pend w !! k);
      match p with
      | Some (Reservation nfd) => on_ref j (fun o => r ← on_table (accept_fill nfd o); set_pend <[k := Deferred nfd]> ;; mret (AnInt r))
      | _ => mret Nothing
      end
  | EUndo k =>
      p ← gets (fun w => pend w !! k);
      match p with
      | Some (Reservation nfd) | Some (Deferred nfd) => on_table (release_reservation (Fd nfd)) ;; set_pend (delete k) ;; mret Nothing
      | _ => mret Nothing
      end
  | EChdir k => on_ref k (fun o => on_table (acquire o ;; chdir_locked o) ;; mret Nothing)
  | EChroot k => on_ref k (fun o => old_root ← on_table (chroot_locked o); push (pointer old_root) ;; mret Nothing)
  | EFini =>
      on_table libc_extensions_fini ;;
      modify (fun w => {| table := table w; pend := pend w; made := made w; finished := true |}) ;;
      mret Nothing
  end.

Definition exec_fd (e : event) : WM answer :=
  f ← gets finished; if (f : bool) && takes_lock e then mret Nothing else fd_step e.

Fixpoint run_fd (es : list event) : WM (list answer) :=
  match es with [] => mret [] | e :: es => x ← exec_fd e; xs ← run_fd es; mret (x :: xs) end.

Definition world_new : world := {| table := fdio_state_new; pend := []; made := 0; finished := false |}.
End Runs.

(** ** The abstract threads *)

(** There are no counts here: whether a pointer is the last one is whether nothing else
    refers to its object. *)
Record aworld := { atab : atable; apend : list pending; amade : Z; afinished : bool }.

Definition pref (p : pending) : list Z := match p with Ref o | Unbound _ o | Sole _ o => [o] | Reservation _ | Deferred _ => [] end.
Definition holds_refs (l : list pending) : list Z := mjoin (pref <$> l).

Definition unreferenced (o : Z) (a : atable) (others : list Z) : Prop :=
  map_Forall (fun _ e => e <> Open o) (fds a) /\ root_dir a <> Some o /\ cwd_dir a <> Some o /\ o ∉ others.
#[global] Instance unreferenced_dec o a others : Decision (unreferenced o a others).
Proof. unfold unreferenced. apply _. Defined.

Definition with_tab (a : atable) (w : aworld) : aworld := {| atab := a; apend := apend w; amade := amade w; afinished := afinished w |}.
Definition with_pend (f : list pending -> list pending) (w : aworld) : aworld := {| atab := atab w; apend := f (apend w); amade := amade w; afinished := afinished w |}.
Definition apush (l : list pending) (w : aworld) : aworld := with_pend (fun p => p ++ l) w.
Definition aref (k : nat) (w : aworld) : option Z := match apend w !! k with Some (Ref o) => Some o | _ => None end.

Section Spec.
Context (close_status : Z -> bool -> Z).

Definition spec_step (e : event) (w : aworld) : answer * aworld :=
  let a := atab w in
  match e with
  | EMake => (AnIo (Some (amade w)), {| atab := a; apend := apend w ++ [Ref (amade w)]; amade := amade w + 1; afinished := afinished w |})
  | EBind k => match aref k w with
      | Some o => (AnFd (lowest_free 0 a), with_tab (aopen_optional (lowest_free 0 a) o a) w)
      | None => (Nothing, w) end
  | EBindTo k fd start => match aref k w with
      | Some o => let '(r, p, a) := abind o fd start a in (AnInt r, apush (pointer p) (with_tab a w))
      | None => (Nothing, w) end
  | EDup fd => let '(r, a) := adup_from 0 fd a in (AnInt r, with_tab a w)
  | EDup2 oldfd newfd => let '(r, p, a) := adup2 oldfd newfd a in (AnInt r, apush (pointer p) (with_tab a w))
  | EDup3 oldfd newfd flags_ok =>
      if (oldfd =? newfd) || negb flags_ok then (AnInt (Fails EINVAL), w)
      else let '(r, p, a) := adup2 oldfd newfd a in (AnInt r, apush (pointer p) (with_tab a w))
  | EDupFd fd start =>
      if start <? 0 then (AnInt (Fails EINVAL), w) else let '(r, a) := adup_from start fd a in (AnInt r, with_tab a w)
  | EGet fd => (AnIo (open_at fd a), apush (pointer (open_at fd a)) w)
  | EDir absolute at_cwd dirfd =>
      let io := if absolute then root_dir a else if at_cwd then cwd_dir a else open_at dirfd a in (AnIo io, apush (pointer io) w)
  | EUnbind u fd => match open_at fd a with
      | Some o => (AnIo (Some o), apush [Unbound u o] (with_tab (aset (Fd fd) None a) w))
      | None => (AnIo None, w) end
  | EGetLast k => match apend w !! k with
      | Some (Unbound u o) =>
          if bool_decide (unreferenced o a (holds_refs (delete k (apend w)))) then (Nothing, with_pend <[k := Sole u o]> w)
          else (shared u o, with_pend <[k := Ref o]> w)
      | _ => (Nothing, w) end
  | EUse k => match apend w !! k with
      | Some (Sole (UClose should_wait) o) => (AnInt (STATUS (close_status o should_wait)), with_pend (delete k) w)
      | Some (Sole UUnbind o) => (AnIo (Some o), with_pend <[k := Ref o]> w)
      | Some (Sole _ o) => (Unwrapped o, with_pend (delete k) w)
      | _ => (Nothing, w) end
  | EDrop k => match aref k w with Some _ => (Nothing, with_pend (delete k) w) | None => (Nothing, w) end
  | EPair k j => match aref k w, aref j w with
      | Some l, Some r => let '(x, a) := apair l r a in (APair x, with_tab a w)
      | _, _ => (Nothing, w) end
  | EReserve => match lowest_free 0 a with
      | Some nfd => (AnFd (Some nfd), apush [Reservation nfd] (with_tab (aset (Fd nfd) (Some Taken) a) w))
      | None => (AnFd None, w) end
  | EFill k j => match apend w !! k, aref j w with
      | Some (Reservation nfd), Some o => let '(r, a) := afill nfd o a in (AnInt r, with_pend <[k := Deferred nfd]> (with_tab a w))
      | _, _ => (Nothing, w) end
  | EUndo k => match apend w !! k with
      | Some (Reservation nfd) | Some (Deferred nfd) =>
          (Nothing, with_pend (delete k) (if bool_decide (fds a !! nfd = Some Taken) then with_tab (aset (Fd nfd) None a) w else w))
      | _ => (Nothing, w) end
  | EChdir k => match aref k w with Some o => (Nothing, with_tab (aset Cwd (Some (Open o)) a) w) | None => (Nothing, w) end
  | EChroot k => match aref k w with Some o => (Nothing, apush (pointer (root_dir a)) (with_tab (aset Root (Some (Open o)) a) w)) | None => (Nothing, w) end
  | EFini => (Nothing, {| atab := areserved a; apend := apend w; amade := amade w; afinished := true |})
  end.

Definition spec_exec (e : event) (w : aworld) : answer * aworld := if afinished w && takes_lock e then (Nothing, w) else spec_step e w.

Fixpoint spec_run (es : list event) (w : aworld) : list answer * aworld :=
  match es with
  | [] => ([], w)
  | e :: es => let '(x, w) := spec_exec e w in let '(xs, w) := spec_run es w in (x :: xs, w)
  end.
End Spec.

Definition aworld_new : aworld := {| atab := {| fds := ∅; root_dir := None; cwd_dir := None |}; apend := []; amade := 0; afinished := false |}.
