(* ===== verification/FdTableSpec.v ===== *)
(** * The descriptor table: the abstract threads

    An invariant of the abstract threads: what a last_reference refers to is referred to by
    nothing else, and a reservation is a descriptor. *)

From stdpp Require Import gmap.
From S2P Require Import Prelude FdTable FdTableInv FdTableOps.

#[local] Arguments holds_refs : simpl never.
#[local] Arguments occ : simpl never.
#[local] Arguments aopen : simpl never.

(** ** What refers to an object *)

Definition in_tab (o : Z) (a : atable) : Prop := (exists fd, fds a !! fd = Some (Open o)) \/ root_dir a = Some o \/ cwd_dir a = Some o.

Lemma unreferenced_iff o a others : unreferenced o a others <-> ~ in_tab o a /\ o ∉ others.
Proof.
  unfold unreferenced, in_tab. split.
  - intros (Hm & Hr & Hc & Ho). split; [|done]. intros [[fd E]|[E|E]]; [by apply (Hm fd _ E)|done|done].
  - intros [Hn Ho]. split_and!; [|naive_solver..]. intros fd e E ->. apply Hn. left. by exists fd.
Qed.

(** A pointer that a step can copy. *)
Definition usable (o : Z) (w : aworld) : Prop := in_tab o (atab w) \/ exists p, p ∈ apend w /\ (p = Ref o \/ exists u, p = Unbound u o).

Record aok (w : aworld) : Prop := {
  ao_sole : forall u o, Sole u o ∈ apend w -> ~ in_tab o (atab w) /\ occ o (holds_refs (apend w)) = 1;
  ao_made : forall o, in_tab o (atab w) \/ o ∈ holds_refs (apend w) -> 0 <= o < amade w;
  ao_reserved : forall nfd, Reservation nfd ∈ apend w \/ Deferred nfd ∈ apend w -> 0 <= nfd < FDIO_MAX_FD;
  ao_next : 0 <= amade w;
}.

Lemma holds_cons p l : holds_refs (p :: l) = pref p ++ holds_refs l.
Proof. done. Qed.
Lemma holds_one p : holds_refs [p] = pref p.
Proof. unfold holds_refs. cbn. apply app_nil_r. Qed.
Lemma holds_app l l' : holds_refs (l ++ l') = holds_refs l ++ holds_refs l'.
Proof. unfold holds_refs. by rewrite fmap_app, join_app. Qed.
Lemma holds_in o l : o ∈ holds_refs l <-> exists p, p ∈ l /\ o ∈ pref p.
Proof.
  unfold holds_refs. rewrite list_elem_of_join. setoid_rewrite list_elem_of_fmap. naive_solver.
Qed.
Lemma holds_perm l l' : l ≡ₚ l' -> holds_refs l ≡ₚ holds_refs l'.
Proof.
  induction 1 as [|x l l' _ IH|x y l|l l' l'' _ IH1 _ IH2]; [done| | |by rewrite IH1].
  - rewrite !holds_cons. by rewrite IH.
  - rewrite !holds_cons. rewrite !app_assoc. apply Permutation_app_tail, Permutation_app_comm.
Qed.

Lemma aok_perm w f : f (apend w) ≡ₚ apend w -> aok w -> aok (with_pend f w).
Proof.
  intros Hp [H1 H2 H3 H4]. split; cbn; [|setoid_rewrite (holds_perm _ _ Hp)|setoid_rewrite Hp|]; try done.
  intros u o Hin. rewrite Hp in Hin. rewrite (occ_perm o _ _ (holds_perm _ _ Hp)). by apply (H1 u).
Qed.

Lemma pref_sole p o u : p <> Sole u o -> o ∈ pref p -> (exists u', p = Sole u' o) \/ p = Ref o \/ exists u', p = Unbound u' o.
Proof. destruct p; cbn; intros ? Ho; try by apply not_elem_of_nil in Ho. all: apply list_elem_of_singleton in Ho; subst; naive_solver. Qed.

(** A last reference cannot be copied. *)
Lemma sole_not_usable w u o : aok w -> Sole u o ∈ apend w -> ~ usable o w.
Proof.
  intros Hok Hin. destruct (ao_sole _ Hok u o Hin) as [Hnt Hocc]. intros [?|(p & Hp & Hpo)]; [done|].
  apply list_elem_of_split in Hin as (l1 & l2 & El). rewrite El in *. rewrite holds_app, holds_cons, !occ_append in Hocc.
  assert (Hs : occ o (pref (Sole u o)) = 1) by (cbn; rewrite occ_push; by destruct (decide (o = o))).
  assert (H1 := occ_nonneg o (holds_refs l1)). assert (H2 := occ_nonneg o (holds_refs l2)). assert (Ho : o ∈ pref p) by (destruct Hpo as [->|[? ->]]; cbn; by left).
  apply elem_of_app in Hp as [Hp|Hp]; [|apply elem_of_cons in Hp as [->|Hp]].
  - assert (0 < occ o (holds_refs l1)) by (apply occ_in, holds_in; by exists p). lia.
  - destruct Hpo as [|[? ?]]; done.
  - assert (0 < occ o (holds_refs l2)) by (apply occ_in, holds_in; by exists p). lia.
Qed.

Lemma usable_made w o : aok w -> usable o w -> 0 <= o < amade w.
Proof.
  intros Hok [?|(p & Hp & Hpo)]; apply (ao_made _ Hok); [by left|]. right. apply holds_in. exists p. split; [done|]. destruct Hpo as [->|[? ->]]; cbn; by left.
Qed.

(** ** Kinds of steps *)

Lemma aok_tab w a' : aok w -> (forall o, in_tab o a' -> usable o w) -> aok (with_tab a' w).
Proof.
  intros Hok Hin. split; cbn; [| |apply (ao_reserved _ Hok)|apply (ao_next _ Hok)].
  - intros u o Ho. destruct (ao_sole _ Hok u o Ho) as [_ ?]. split; [|done]. intros Ht. by apply (sole_not_usable w u o Hok Ho), Hin.
  - intros o [Ho|Ho]; [by apply usable_made; [|apply Hin]|]. apply (ao_made _ Hok). by right.
Qed.

Definition not_sole (p : pending) : Prop := match p with Sole _ _ => False | _ => True end.
Definition reserves (p : pending) : Prop := match p with Reservation n | Deferred n => 0 <= n < FDIO_MAX_FD | _ => True end.

(** Putting [p] where a thing that refers to no more than [p] was, or where nothing was. *)
Lemma aok_push w p : aok w -> not_sole p -> reserves p -> (forall o, o ∈ pref p -> usable o w) -> aok (apush [p] w).
Proof.
  intros Hok Hn Hr Hu. split; cbn.
  - intros u o Ho. apply elem_of_app in Ho as [Ho|Ho%list_elem_of_singleton]; [|by subst]. destruct (ao_sole _ Hok u o Ho) as [? Hocc]. split; [done|].
    rewrite holds_app, occ_append, Hocc, holds_one. destruct (occ_nonneg o (pref p)) as [H0 _]. destruct (decide (0 < occ o (pref p))) as [Hp|]; [|lia].
    apply occ_in, Hu in Hp. by destruct (sole_not_usable w u o Hok Ho).
  - intros o [Ho|Ho]; [apply (ao_made _ Hok); by left|]. rewrite holds_app in Ho. apply elem_of_app in Ho as [Ho|Ho]; [apply (ao_made _ Hok); by right|].
    rewrite holds_one in Ho. by apply usable_made, Hu.
  - intros nfd Ho. rewrite !elem_of_app, !list_elem_of_singleton in Ho. destruct Ho as [[Ho| <-]|[Ho| <-]]; [apply (ao_reserved _ Hok); by left|done|apply (ao_reserved _ Hok); by right|done].
  - apply (ao_next _ Hok).
Qed.

Lemma aok_pointer w o : aok w -> (forall x, o = Some x -> usable x w) -> aok (apush (pointer o) w).
Proof.
  intros Hok Hu. destruct o as [o|]; cbn; [|apply aok_perm; [by rewrite app_nil_r|done]]. apply aok_push; [done..|]. intros x Hx. apply list_elem_of_singleton in Hx as ->. by apply Hu.
Qed.

Lemma aok_delete w k : aok w -> aok (with_pend (delete k) w).
Proof.
  intros Hok. destruct (apend w !! k) as [p|] eqn:Ek.
  - apply delete_Permutation in Ek. assert (Hh := holds_perm _ _ Ek). rewrite holds_cons in Hh. split; cbn.
    + intros u o Ho. destruct (ao_sole _ Hok u o) as [? Hocc]; [rewrite Ek; by right|]. split; [done|]. rewrite Hh, occ_append in Hocc.
      assert (0 < occ o (holds_refs (delete k (apend w)))) by (apply occ_in, holds_in; exists (Sole u o); split; [done|by left]). destruct (occ_nonneg o (pref p)). lia.
    + intros o Ho. apply (ao_made _ Hok). rewrite Hh, elem_of_app. naive_solver.
    + intros nfd Ho. apply (ao_reserved _ Hok). rewrite Ek, !elem_of_cons. naive_solver.
    + apply (ao_next _ Hok).
  - apply aok_perm; [|done]. rewrite delete_take_drop. apply lookup_ge_None in Ek. by rewrite take_ge, drop_ge, app_nil_r by lia.
Qed.

Lemma insert_perm (l : list pending) k p q : l !! k = Some p -> <[k := q]> l ≡ₚ delete k l ++ [q].
Proof.
  intros E. assert (Hk := lookup_lt_Some _ _ _ E). rewrite insert_take_drop by done. rewrite delete_take_drop, <- app_assoc. apply Permutation_app_head.
  by rewrite Permutation_cons_append.
Qed.

(** Replacing a thing in place. *)
Lemma aok_insert w k p q : apend w !! k = Some p -> aok (apush [q] (with_pend (delete k) w)) -> aok (with_pend <[k := q]> w).
Proof.
  intros E Hok. apply (aok_perm _ (fun _ => <[k := q]> (apend w))) in Hok; [done|]. cbn. by apply (insert_perm _ _ p).
Qed.

(** Taking a thing away and putting another one. *)
Lemma usable_delete w k p o : apend w !! k = Some p -> usable o w -> o ∉ pref p -> usable o (with_pend (delete k) w).
Proof.
  intros E [?|(q & Hq & Hqo)] Hp; [by left|]. right. exists q. split; [|done]. cbn. apply delete_Permutation in E. rewrite E in Hq. apply elem_of_cons in Hq as [->|]; [|done].
  destruct Hp. destruct Hqo as [->|[? ->]]; cbn; by left.
Qed.

Lemma aok_keep w k p q : aok w -> apend w !! k = Some p -> not_sole q -> reserves q -> pref q = pref p -> aok (with_pend <[k := q]> w).
Proof.
  intros Hok E Hn Hr Hp. assert (Hperm : <[k := q]> (apend w) ≡ₚ q :: delete k (apend w)) by (rewrite (insert_perm _ _ p) by done; by rewrite <- Permutation_cons_append).
  assert (Ek := delete_Permutation _ _ _ E). assert (Hh := holds_perm _ _ Ek). assert (Hh' := holds_perm _ _ Hperm). rewrite holds_cons in Hh, Hh'. rewrite Hp, <- Hh in Hh'. split; cbn.
  - intros u o Ho. rewrite Hperm in Ho. apply elem_of_cons in Ho as [<-|Ho]; [done|]. destruct (ao_sole _ Hok u o) as [? ?]; [rewrite Ek; by right|]. by rewrite Hh'.
  - intros o Ho. rewrite Hh' in Ho. by apply (ao_made _ Hok).
  - intros nfd Ho. rewrite Hperm, !elem_of_cons in Ho. destruct Ho as [[<-|Ho]|[<-|Ho]]; [done| |done|]; apply (ao_reserved _ Hok); rewrite Ek, !elem_of_cons; naive_solver.
  - apply (ao_next _ Hok).
Qed.

Lemma aok_sole w k u o : aok w -> apend w !! k = Some (Unbound u o) -> unreferenced o (atab w) (holds_refs (delete k (apend w))) -> aok (with_pend <[k := Sole u o]> w).
Proof.
  intros Hok E [Hn Ho]%unreferenced_iff. assert (Hperm : <[k := Sole u o]> (apend w) ≡ₚ Sole u o :: delete k (apend w)) by (rewrite (insert_perm _ _ (Unbound u o)) by done; by rewrite <- Permutation_cons_append).
  assert (Ek := delete_Permutation _ _ _ E). assert (Hh := holds_perm _ _ Ek). assert (Hh' := holds_perm _ _ Hperm). rewrite holds_cons in Hh, Hh'. cbn [pref] in *. rewrite <- Hh in Hh'. split; cbn.
  - intros u' o' Ho'. rewrite Hperm in Ho'. rewrite Hh'. apply elem_of_cons in Ho' as [E'|Ho']; [|apply (ao_sole _ Hok u' o'); rewrite Ek; by right].
    injection E' as -> ->. split; [done|]. rewrite Hh, occ_append. rewrite <- occ_in in Ho. assert (H0 := occ_nonneg o (holds_refs (delete k (apend w)))). cbn. rewrite occ_push. change (occ o []) with 0.
    destruct (decide (o = o)); [lia|done].
  - intros o' Ho'. rewrite Hh' in Ho'. by apply (ao_made _ Hok).
  - intros nfd Ho'. rewrite Hperm, !elem_of_cons in Ho'. destruct Ho' as [[?|Ho']|[?|Ho']]; [done| |done|]; apply (ao_reserved _ Hok); rewrite Ek, !elem_of_cons; naive_solver.
  - apply (ao_next _ Hok).
Qed.

(** ** Tables *)

Lemma in_tab_aset o p e a : in_tab o (aset p e a) -> in_tab o a \/ e = Some (Open o).
Proof.
  unfold in_tab. destruct p as [| |i]; cbn.
  - intros [?|[E|?]]; [naive_solver| |naive_solver]. destruct e as [[|x]|]; try done. injection E as ->. by right.
  - intros [?|[?|E]]; [naive_solver..|]. destruct e as [[|x]|]; try done. injection E as ->. by right.
  - intros [[fd E]|?]; [|naive_solver]. destruct (decide (fd = i)) as [->|]; [rewrite lookup_partial_alter_eq in E; by right|]. rewrite lookup_partial_alter_ne in E by done. naive_solver.
Qed.
Lemma in_tab_open o fd x a : in_tab o (aopen fd x a) -> in_tab o a \/ o = x.
Proof. unfold aopen. intros [?|E]%in_tab_aset; [by left|]. injection E as ->. by right. Qed.
Lemma in_tab_open_optional o fd x a : in_tab o (aopen_optional fd x a) -> in_tab o a \/ o = x.
Proof. destruct fd; [apply in_tab_open|by left]. Qed.
Lemma open_at_in fd a o : open_at fd a = Some o -> in_tab o a.
Proof. unfold open_at. intros E. left. exists fd. destruct (fds a !! fd) as [[|]|]; try done. by injection E as ->. Qed.
Lemma aref_usable k w o : aref k w = Some o -> usable o w.
Proof. unfold aref. intros E. right. destruct (apend w !! k) as [[x| | | |]|] eqn:Ek; try done. injection E as ->. exists (Ref o). split; [by eapply list_elem_of_lookup_2|by left]. Qed.
Lemma in_tab_reserved o a : in_tab o (areserved a) -> in_tab o a.
Proof.
  intros [[fd E]|[?|?]]; [|done..]. cbn in E. left. exists fd. by apply map_lookup_filter_Some in E as [? _].
Qed.

(** ** The invariant *)

(** What the steps on the table do to it. *)
Lemma aok_aset w p e : aok w -> (forall o, e = Some (Open o) -> usable o w) -> aok (with_tab (aset p e (atab w)) w).
Proof. intros Hok He. apply aok_tab; [done|]. intros o [?| ->]%in_tab_aset; [by left|by apply He]. Qed.

Lemma aok_open_optional w fd o : aok w -> usable o w -> aok (with_tab (aopen_optional fd o (atab w)) w).
Proof. intros Hok Hu. apply aok_tab; [done|]. intros x [?| ->]%in_tab_open_optional; [by left|done]. Qed.

Lemma usable_push o l w : usable o w -> usable o (apush l w).
Proof. intros [?|(p & ? & ?)]; [by left|]. right. exists p. cbn. rewrite elem_of_app. naive_solver. Qed.

(** A table that is replaced, and the pointer that was there. *)
Lemma aok_replace w a' p : aok w -> (forall o, p = Some o -> usable o w) -> (forall o, in_tab o a' -> usable o w) -> aok (apush (pointer p) (with_tab a' w)).
Proof. intros Hok Hp Ha. apply (aok_tab (apush (pointer p) w)); [by apply aok_pointer|]. intros o Ho. by apply usable_push, Ha. Qed.

Lemma adup2_in o x y a : in_tab o (adup2 x y a).2 -> in_tab o a.
Proof.
  unfold adup2. destruct (in_range y); [|done]. destruct (open_at x a) as [z|] eqn:E; [|done]. cbn. intros [?| ->]%in_tab_open; [done|]. by apply open_at_in in E.
Qed.
Lemma adup2_pointer o x y a : (adup2 x y a).1.2 = Some o -> in_tab o a.
Proof. unfold adup2. destruct (in_range y); [|done]. destruct (open_at x a); [|done]. cbn. apply open_at_in. Qed.

Lemma aok_dup2 w x y : aok w -> aok (apush (pointer (adup2 x y (atab w)).1.2) (with_tab (adup2 x y (atab w)).2 w)).
Proof. intros Hok. apply aok_replace; [done|..]; intros o Ho; left; [by eapply adup2_pointer|by eapply adup2_in]. Qed.

Lemma aok_dup_from w start fd : aok w -> aok (with_tab (adup_from start fd (atab w)).2 w).
Proof.
  intros Hok. apply aok_tab; [done|]. unfold adup_from. intros o. destruct (open_at fd (atab w)) as [x|] eqn:E; [|by left]. cbn. intros [?| ->]%in_tab_open_optional; left; [done|by apply open_at_in in E].
Qed.

Lemma abind_in o x fd start a : in_tab o (abind x fd start a).2 -> in_tab o a \/ o = x.
Proof. unfold abind. repeat case_match; cbn; try (by left); [apply in_tab_open_optional|apply in_tab_open]. Qed.
Lemma abind_pointer o x fd start a : (abind x fd start a).1.2 = Some o -> in_tab o a.
Proof. unfold abind. repeat case_match; cbn; try done. apply open_at_in. Qed.

Lemma apair_in o l r a : in_tab o (apair l r a).2 -> in_tab o a \/ o = l \/ o = r.
Proof.
  unfold apair. repeat case_match; cbn.
  - intros [[?| ->]%in_tab_open| ->]%in_tab_open; naive_solver.
  - intros [?| ->]%in_tab_open; naive_solver.
  - by left.
Qed.
Lemma afill_in o n x a : in_tab o (afill n x a).2 -> in_tab o a \/ o = x.
Proof. unfold afill. repeat case_match; cbn; try apply in_tab_open. by left. Qed.

Lemma aok_step close_status e w : aok w -> aok (spec_step close_status e w).2.
Proof.
  intros Hok. destruct e as [|k|k fd st|fd|x y|x y f|fd st|fd|ab cw fd|u fd|k|k|k|k j| |k j|k|k|k|]; cbn [spec_step].
  - cbn. split; cbn.
    + intros u o Ho. apply elem_of_app in Ho as [Ho|Ho%list_elem_of_singleton]; [|done]. destruct (ao_sole _ Hok u o Ho) as [? Hocc]. split; [done|].
      rewrite holds_app, holds_one, occ_append, Hocc. cbn [pref]. rewrite occ_push. change (occ o []) with 0. destruct (decide (o = amade w)) as [->|]; [|lia].
      destruct (ao_made _ Hok (amade w)); [right; apply holds_in; by exists (Sole u (amade w)); split; [|left]|lia].
    + intros o Ho. rewrite holds_app, holds_one, elem_of_app in Ho. cbn [pref] in Ho. rewrite list_elem_of_singleton in Ho. assert (H0 := ao_next _ Hok).
      destruct Ho as [Ho|[Ho| ->]]; [assert (H := ao_made _ Hok o (or_introl Ho)); lia|assert (H := ao_made _ Hok o (or_intror Ho)); lia|lia].
    + intros nfd Ho. rewrite !elem_of_app, !list_elem_of_singleton in Ho. apply (ao_reserved _ Hok). naive_solver.
    + assert (H0 := ao_next _ Hok). lia.
  - destruct (aref k w) as [o|] eqn:E; [|done]. cbn. apply aok_open_optional; [done|by eapply aref_usable].
  - destruct (aref k w) as [o|] eqn:E; [|done]. destruct (abind o fd st (atab w)) as [[r p] a'] eqn:Eb. cbn.
    apply aok_replace; [done|..]; intros x Hx; [left; apply (abind_pointer x o fd st); by rewrite Eb|].
    destruct (abind_in x o fd st (atab w)) as [?| ->]; [by rewrite Eb|by left|by eapply aref_usable].
  - assert (H := aok_dup_from w 0 fd Hok). by destruct (adup_from 0 fd (atab w)).
  - assert (H := aok_dup2 w x y Hok). by destruct (adup2 x y (atab w)) as [[] ?].
  - destruct ((x =? y) || negb f); [done|]. assert (H := aok_dup2 w x y Hok). by destruct (adup2 x y (atab w)) as [[] ?].
  - destruct (st <? 0); [done|]. assert (H := aok_dup_from w st fd Hok). by destruct (adup_from st fd (atab w)).
  - cbn. apply aok_pointer; [done|]. intros o Ho. left. by eapply open_at_in.
  - cbn. apply aok_pointer; [done|]. intros o Ho. left. destruct ab; [by right; left|]. destruct cw; [by right; right|]. by eapply open_at_in.
  - destruct (open_at fd (atab w)) as [o|] eqn:E; [|done]. cbn. assert (Hu : usable o w) by (left; by eapply open_at_in).
    apply (aok_aset (apush [Unbound u o] w) (Fd fd) None); [|done]. apply aok_push; [done..|]. by intros x ->%list_elem_of_singleton.
  - destruct (apend w !! k) as [[|u o| | |]|] eqn:E; try done. case_bool_decide; cbn; [by apply aok_sole|]. by apply (aok_keep w k (Unbound u o)).
  - destruct (apend w !! k) as [[| |[]| |]|] eqn:E; try done; cbn; try (by apply aok_delete). by apply (aok_keep w k (Sole UUnbind o)).
  - destruct (aref k w); [|done]. by apply aok_delete.
  - destruct (aref k w) as [l|] eqn:El; [|done]. destruct (aref j w) as [r|] eqn:Er; [|done]. destruct (apair l r (atab w)) as [z a'] eqn:Ep. cbn. apply aok_tab; [done|].
    intros o Ho. destruct (apair_in o l r (atab w)) as [?|[->| ->]]; [by rewrite Ep|by left|by eapply aref_usable..].
  - destruct (lowest_free 0 (atab w)) as [nfd|] eqn:E; [|done]. cbn. apply lowest_free_Some in E as [? _]; [|done].
    apply (aok_aset (apush [Reservation nfd] w) (Fd nfd) (Some Taken)); [|done]. apply aok_push; [done|done|done|]. by intros o ?%not_elem_of_nil.
  - destruct (apend w !! k) as [[| | |nfd|]|] eqn:E; try done. destruct (aref j w) as [o|] eqn:Ej; [|done]. destruct (afill nfd o (atab w)) as [r a'] eqn:Ef. cbn.
    assert (Hok' : aok (with_tab a' w)).
    { apply aok_tab; [done|]. intros x Hx. destruct (afill_in x nfd o (atab w)) as [?| ->]; [by rewrite Ef|by left|by eapply aref_usable]. }
    apply (aok_keep _ k (Reservation nfd)); [done|done|done| |done]. cbn. apply (ao_reserved _ Hok). left. by eapply list_elem_of_lookup_2.
  - destruct (apend w !! k) as [[| | |nfd|nfd]|] eqn:E; try done; cbn; apply aok_delete; (case_bool_decide; [by apply (aok_aset w (Fd nfd) None)|done]).
  - destruct (aref k w) as [o|] eqn:E; [|done]. apply (aok_aset w Cwd (Some (Open o))); [done|]. intros x [= ->]. by eapply aref_usable.
  - destruct (aref k w) as [o|] eqn:E; [|done]. cbn. apply aok_replace; [done|..].
    + intros x Hx. left. by right; left.
    + intros x [?|[= ->]]%(in_tab_aset x Root (Some (Open o))); [by left|by eapply aref_usable].
  - cbn. assert (Hok' : aok (with_tab (areserved (atab w)) w)) by (apply aok_tab; [done|]; intros o Ho; left; by apply in_tab_reserved).
    destruct Hok'. by split.
Qed.
