(* ===== verification/FdTableSim.v ===== *)
(** * The descriptor table: simulation

    Every step of the threads is a step of the abstract threads, and the start of a process is
    a start of the abstract table. *)

From stdpp Require Import gmap.
From S2P Require Import Prelude FdTable FdTableInv FdTableOps FdTableSpec.

#[local] Arguments holds_refs : simpl never.
#[local] Arguments occ : simpl never.
#[local] Arguments aopen : simpl never.

Section Sim.
Context {R : Type} {RC : RefCounted R} {RCL : RefCountedLaws R} (close_status : Z -> bool -> Z).

Record wrel (w : @world R) (a : aworld) : Prop := {
  wr_pend : pend w = apend a;
  wr_made : made w = amade a;
  wr_finished : finished w = afinished a;
  wr_table : rel (amade a) (table w) (atab a) (holds_refs (apend a));
}.

(** ** What is referred to *)

Lemma in_slots n s a held o : rel n s a held -> o ∈ mjoin (obj <$> slots s) <-> in_tab o a.
Proof.
  intros Hr. rewrite list_elem_of_join. setoid_rewrite list_elem_of_fmap. unfold slots. split.
  - intros (l & Ho & x & -> & Hx). destruct x as [| |o']; cbn in Ho; try by apply not_elem_of_nil in Ho. apply list_elem_of_singleton in Ho as <-.
    rewrite !elem_of_cons in Hx. destruct Hx as [Hx|[Hx|Hx]].
    + right; left. assert (E := rel_root _ _ _ _ Hr). rewrite <- Hx in E. destruct (root_dir a); [by injection E as ->|done].
    + right; right. assert (E := rel_cwd _ _ _ _ Hr). rewrite <- Hx in E. destruct (cwd_dir a); [by injection E as ->|done].
    + left. apply list_elem_of_lookup in Hx as [i Hi]. exists (Z.of_nat i). rewrite (rel_fds _ _ _ _ Hr). destruct (Z.ltb_spec (Z.of_nat i) 0); [lia|]. by rewrite Nat2Z.id, Hi.
  - intros [[fd E]|[E|E]]; exists [o]; (split; [by left|]); exists (Allocated o); (split; [done|]).
    + rewrite (rel_fds _ _ _ _ Hr) in E. destruct (fd <? 0); [done|]. destruct (fdtab s !! Z.to_nat fd) as [x|] eqn:Ex; [|done]. cbn in E. destruct x; try done. injection E as ->.
      right; right. by eapply list_elem_of_lookup_2.
    + assert (E' := rel_root _ _ _ _ Hr). rewrite E in E'. destruct (root_slot s); try done. injection E' as ->. by left.
    + assert (E' := rel_cwd _ _ _ _ Hr). rewrite E in E'. destruct (cwd_slot s); try done. injection E' as ->. by right; left.
Qed.

Lemma refs_unreferenced n s a held o others : rel n s a held -> o ∉ refs s others <-> unreferenced o a others.
Proof. intros Hr. rewrite unreferenced_iff. unfold refs. rewrite elem_of_app, (in_slots _ _ _ _ _ Hr). naive_solver. Qed.

(** ** Steps *)

Definition after (t : fdio_state R) (w : @world R) : @world R := {| table := t; pend := pend w; made := made w; finished := finished w |}.

Lemma wp_on_table {A} (m : ST (fdio_state R) A) w Q : wp m (table w) (fun x t => Q x (after t w)) -> wp (on_table m) w Q.
Proof. intros (x & t & E & HQ). exists x, (after t w). split; [|done]. unfold on_table. by rewrite E. Qed.

Lemma aref_in k a o : aref k a = Some o -> o ∈ holds_refs (apend a).
Proof. unfold aref. destruct (apend a !! k) as [[x| | | |]|] eqn:E; try done. intros [= ->]. apply holds_in. exists (Ref o). split; [by eapply list_elem_of_lookup_2|by left]. Qed.

Lemma on_ref_ok k f w a (Q : answer -> world -> Prop) : wrel w a -> (forall o, aref k a = Some o -> wp (f o) w Q) -> (aref k a = None -> Q Nothing w) -> wp (on_ref k f) w Q.
Proof.
  intros Hw H1 H2. apply wp_bind, wp_gets. rewrite (wr_pend _ _ Hw). unfold aref in *. destruct (apend a !! k) as [[x| | | |]|]; try (apply wp_ret; by apply H2). by apply H1.
Qed.

Lemma holds_pointer l p : holds_refs (l ++ pointer p) ≡ₚ optional p ++ holds_refs l.
Proof. rewrite holds_app. destruct p as [o|]; cbn [pointer optional]; [|by rewrite app_nil_r]. rewrite holds_one. apply Permutation_app_comm. Qed.

(** The table changed, and a pointer came out of it. *)
Lemma wrel_table w a t a' p : wrel w a -> rel (amade a) t a' (optional p ++ holds_refs (apend a)) ->
  wrel {| table := t; pend := pend w ++ pointer p; made := made w; finished := finished w |} (apush (pointer p) (with_tab a' a)).
Proof.
  intros [H1 H2 H3 _] Hr. split; cbn; [by rewrite H1|done|done|]. eapply rel_perm; [|exact Hr]. by rewrite holds_pointer.
Qed.
Lemma wrel_tab w a t a' : wrel w a -> rel (amade a) t a' (holds_refs (apend a)) -> wrel (after t w) (with_tab a' a).
Proof. intros [H1 H2 H3 _] Hr. by split. Qed.
Lemma wrel_delete w a t k p : wrel w a -> apend a !! k = Some p -> rel (amade a) t (atab a) (holds_refs (delete k (apend a))) ->
  wrel {| table := t; pend := delete k (pend w); made := made w; finished := finished w |} (with_pend (delete k) a).
Proof. intros [H1 H2 H3 _] Ek Hr. split; cbn; [by rewrite H1|done|done|done]. Qed.
Lemma wrel_insert w a k p q : wrel w a -> apend a !! k = Some p -> pref q = pref p ->
  wrel {| table := table w; pend := <[k := q]> (pend w); made := made w; finished := finished w |} (with_pend <[k := q]> a).
Proof.
  intros [H1 H2 H3 H4] Ek Hq. split; cbn; [by rewrite H1|done|done|]. eapply rel_perm; [|exact H4].
  rewrite (holds_perm _ _ (insert_perm _ _ _ q Ek)), (holds_perm _ _ (delete_Permutation _ _ _ Ek)), holds_app, holds_one, holds_cons, Hq. apply Permutation_app_comm.
Qed.

Lemma rel_delete n t a l k p : rel n t a (holds_refs l) -> l !! k = Some p -> rel n t a (pref p ++ holds_refs (delete k l)).
Proof. intros Hr Ek. eapply rel_perm; [|exact Hr]. rewrite <- holds_cons. by apply holds_perm, delete_Permutation. Qed.

(** The end of the calls that replace a slot. *)
Lemma replaced_ok w a (m : ST (fdio_state R) (int_result * option Z)) (r : int_result * option Z * atable) : wrel w a ->
  wp m (table w) (fun x t => x = r.1 /\ rel (amade a) t r.2 (optional x.2 ++ holds_refs (apend a))) ->
  wp ('(x, io_to_close) ← on_table m; push (pointer io_to_close) ;; mret (AnInt x)) w
    (fun x w' => x = AnInt r.1.1 /\ wrel w' (apush (pointer r.1.2) (with_tab r.2 a))).
Proof.
  intros Hw Hm. apply wp_bind, wp_on_table. eapply wp_mono; [exact Hm|]. intros [x p] t [<- Hr]. apply wp_bind, wp_modify, wp_ret. split; [done|]. apply (wrel_table w a t r.2 p Hw). exact Hr.
Qed.

Lemma dup3_ok n s a held x y f : rel n s a held -> very_few held ->
  wp (dup3 x y f) s (fun r s' => r = (if (x =? y) || negb f then (Fails EINVAL, None) else (adup2 x y a).1) /\
    rel n s' (if (x =? y) || negb f then a else (adup2 x y a).2) (optional r.2 ++ held)).
Proof. intros Hr Hf. unfold dup3. destruct (x =? y); [by apply wp_ret|]. destruct f; [|by apply wp_ret]. by apply dup2_ok. Qed.

Lemma step_ok e w a : wrel w a -> aok a -> very_few (holds_refs (apend a)) ->
  wp (fd_step close_status e) w (fun x w' => x = (spec_step close_status e a).1 /\ wrel w' (spec_step close_status e a).2).
Proof.
  intros Hw Hok Hf. assert (Hr := wr_table _ _ Hw). assert (Hfew := very_few_few _ Hf).
  destruct e as [|k|k fd st|fd|x y|x y f|fd st|fd|ab cw fd|u fd|k|k|k|k j| |k j|k|k|k|]; cbn [fd_step spec_step].
  - apply wp_bind, wp_gets. apply wp_bind, wp_on_table. rewrite (wr_made _ _ Hw). eapply wp_mono; [apply (make_ok _ _ _ _ Hr (ao_next _ Hok))|]. intros [] t [Hr' _].
    apply wp_bind, wp_modify, wp_ret. split; [done|]. destruct Hw as [H1 H2 H3 _]. split; cbn; [by rewrite H1|done|done|]. eapply rel_perm; [|exact Hr'].
    rewrite holds_app, holds_one. cbn [pref]. apply Permutation_cons_append.
  - eapply on_ref_ok; [done| |]; [|intros ->; by split]. intros o E. rewrite E. apply wp_bind, wp_on_table. eapply wp_mono; [eapply (set_from_ok 0 _ _ _ _ o); [done|exact Hr|by eapply aref_in|done]|].
    intros r t [-> Hr']. apply wp_ret. split; [done|]. by apply wrel_tab.
  - eapply on_ref_ok; [done| |]; [|intros ->; by split]. intros o E. rewrite E. eapply wp_mono; [apply (replaced_ok w a _ (abind o fd st (atab a)) Hw); apply bind_to_ok; [done|by eapply aref_in|done]|].
    intros r w' H. by destruct (abind o fd st (atab a)) as [[] ?].
  - apply wp_bind, wp_on_table. eapply wp_mono; [apply (dup_ok _ _ _ _ fd Hr Hf)|]. intros r t [-> Hr']. apply wp_ret. destruct (adup_from 0 fd (atab a)). split; [done|]. by apply wrel_tab.
  - eapply wp_mono; [apply (replaced_ok w a _ (adup2 x y (atab a)) Hw); by apply dup2_ok|]. intros r w' H. by destruct (adup2 x y (atab a)) as [[] ?].
  - eapply wp_mono; [apply (replaced_ok w a _ (if (x =? y) || negb f then (Fails EINVAL, None, atab a) else adup2 x y (atab a)) Hw)|].
    + eapply wp_mono; [apply (dup3_ok _ _ _ _ x y f Hr Hf)|]. intros r t H. by destruct ((x =? y) || negb f).
    + intros r w' H. destruct ((x =? y) || negb f); [|by destruct (adup2 x y (atab a)) as [[] ?]]. destruct H as [-> H]. split; [done|]. cbn in *. destruct a, Hw as [? ? ? ?]. destruct H as [H1 H2 H3 H4].
      split; cbn in *; [by rewrite app_nil_r in H1|done|done|by rewrite app_nil_r in H4].
  - apply wp_bind, wp_on_table. eapply wp_mono; [apply (fcntl_dupfd_ok _ _ _ _ fd st Hr Hf)|]. intros r t [-> Hr']. apply wp_ret. destruct (st <? 0); [split; [done|]; apply (wrel_tab w a t (atab a)) in Hr'; [by destruct a|done]|].
    destruct (adup_from st fd (atab a)). split; [done|]. by apply wrel_tab.
  - apply wp_bind, wp_on_table. eapply wp_mono; [apply (fd_to_io_ok _ _ _ _ fd Hr Hfew)|]. intros r t [-> Hr']. apply wp_bind, wp_modify, wp_ret. split; [done|].
    apply (wrel_table w a t (atab a)) in Hr'; [by destruct a|done].
  - apply wp_bind, wp_on_table. eapply wp_mono; [apply (iodir_ok _ _ _ _ ab cw fd Hr Hfew)|]. intros r t [-> Hr']. apply wp_bind, wp_modify, wp_ret. split; [done|].
    apply (wrel_table w a t (atab a)) in Hr'; [by destruct a|done].
  - apply wp_bind, wp_on_table. eapply wp_mono; [apply (unbind_ok _ _ _ _ fd Hr)|]. intros r t [-> Hr']. apply wp_bind, wp_modify, wp_ret. destruct (open_at fd (atab a)) as [o|].
    + split; [done|]. destruct Hw as [H1 H2 H3 _]. split; cbn; [by rewrite H1|done|done|]. eapply rel_perm; [|exact Hr']. rewrite holds_app, holds_one. apply Permutation_app_comm.
    + split; [done|]. apply (wrel_table w a t (atab a) None) in Hr'; [|done]. destruct a. cbn in *. destruct Hr' as [H1 H2 H3 H4]. split; cbn in *; rewrite ?app_nil_r in *; done.
  - apply wp_bind, wp_gets. rewrite (wr_pend _ _ Hw). destruct (apend a !! k) as [[|u o| | |]|] eqn:E; try (by apply wp_ret). assert (Hr' := rel_delete _ _ _ _ _ _ Hr E).
    apply wp_bind, wp_on_table. eapply wp_mono; [apply (is_last_ok _ _ _ _ o Hr')|]. intros b t [-> ->].
    rewrite (bool_decide_ext _ _ (refs_unreferenced _ _ _ _ o (holds_refs (delete k (apend a))) Hr')). case_bool_decide; apply wp_bind, wp_modify, wp_ret; (split; [done|]); by apply (wrel_insert w a k (Unbound u o)).
  - apply wp_bind, wp_gets. rewrite (wr_pend _ _ Hw).
    assert (Hclose : forall u o b, apend a !! k = Some (Sole u o) -> wp (close_and_delete o b) (table w) (fun _ t => rel (amade a) t (atab a) (holds_refs (delete k (apend a))))).
    { intros u o b E. assert (Hr' := rel_delete _ _ _ _ _ _ Hr E). destruct (ao_sole _ Hok u o) as [Hnt Hocc]; [by eapply list_elem_of_lookup_2|].
      rewrite (holds_perm _ _ (delete_Permutation _ _ _ E)), holds_cons, occ_append in Hocc. cbn [pref] in Hocc. rewrite occ_push in Hocc. change (occ o []) with 0 in Hocc. destruct (decide (o = o)); [|done].
      eapply wp_mono; [apply (close_ok _ _ _ (holds_refs (delete k (apend a))) o b Hr')|by intros [] t [? _]].
      unfold refs. rewrite occ_append. rewrite <- (in_slots _ _ _ _ o Hr), <- occ_in in Hnt. destruct (occ_nonneg o (mjoin (obj <$> slots (table w)))). lia. }
    destruct (apend a !! k) as [[| |[b| | |] o| |]|] eqn:E; try (by apply wp_ret).
    + apply wp_bind, wp_on_table. eapply wp_mono; [by eapply Hclose|]. intros [] t Hr'. apply wp_bind, wp_modify, wp_ret. split; [done|]. by eapply (wrel_delete w a t k).
    + apply wp_bind, wp_modify, wp_ret. split; [done|]. by apply (wrel_insert w a k (Sole UUnbind o)).
    + apply wp_bind, wp_on_table. eapply wp_mono; [by eapply Hclose|]. intros [] t Hr'. apply wp_bind, wp_modify, wp_ret. split; [done|]. by eapply (wrel_delete w a t k).
    + apply wp_bind, wp_on_table. eapply wp_mono; [by eapply Hclose|]. intros [] t Hr'. apply wp_bind, wp_modify, wp_ret. split; [done|]. by eapply (wrel_delete w a t k).
  - eapply on_ref_ok; [done| |]; [|intros ->; by split]. intros o E. rewrite E. unfold aref in E. destruct (apend a !! k) as [[x| | | |]|] eqn:Ek; try done. injection E as ->.
    assert (Hr' := rel_delete _ _ _ _ _ _ Hr Ek). apply wp_bind, wp_on_table. eapply wp_mono; [apply (drop_ok _ _ _ _ o Hr')|]. intros [] t [Hr2 _]. apply wp_bind, wp_modify, wp_ret.
    split; [done|]. by eapply (wrel_delete w a t k).
  - eapply on_ref_ok; [done| |]; [|intros ->; by split]. intros l El. rewrite El. eapply on_ref_ok; [done| |]; [|intros ->; by split]. intros r Er. rewrite Er.
    apply wp_bind, wp_on_table. eapply wp_mono; [apply (pair_ok _ _ _ _ l r Hr); [by eapply aref_in..|done]|]. intros x t [-> Hr']. apply wp_ret. destruct (apair l r (atab a)). split; [done|]. by apply wrel_tab.
  - apply wp_bind, wp_on_table. eapply wp_mono; [apply (reserve_ok _ _ _ _ Hr)|]. intros r t [-> Hr']. apply wp_bind, wp_modify, wp_ret. destruct (lowest_free 0 (atab a)) as [nfd|].
    + split; [done|]. destruct Hw as [H1 H2 H3 _]. split; cbn; [by rewrite H1|done|done|]. rewrite holds_app, holds_one. cbn [pref]. by rewrite app_nil_r.
    + split; [done|]. destruct a, Hw as [H1 H2 H3 _]. by split; cbn in *; rewrite ?app_nil_r.
  - apply wp_bind, wp_gets. rewrite (wr_pend _ _ Hw). destruct (apend a !! k) as [[| | |nfd|]|] eqn:E; try (by apply wp_ret).
    eapply on_ref_ok; [done| |]; [|intros ->; by split]. intros o Ej. rewrite Ej. apply wp_bind, wp_on_table.
    eapply wp_mono; [apply (fill_ok _ _ _ _ nfd o Hr); [by eapply aref_in|done|]|].
    { apply (ao_reserved _ Hok). left. by eapply list_elem_of_lookup_2. }
    intros r t [-> Hr']. apply wp_bind, wp_modify, wp_ret. destruct (afill nfd o (atab a)) as [r a']. split; [done|].
    apply (wrel_insert (after t w) (with_tab a' a) k (Reservation nfd)); [by apply wrel_tab|done|done].
  - apply wp_bind, wp_gets. rewrite (wr_pend _ _ Hw). assert (Hres := ao_reserved _ Hok). destruct (apend a !! k) as [[| | |nfd|nfd]|] eqn:E; try (by apply wp_ret).
    all: assert (Hrange : 0 <= nfd < FDIO_MAX_FD) by (apply Hres; eapply list_elem_of_lookup_2 in E; naive_solver).
    all: assert (Hr' := rel_delete _ _ _ _ _ _ Hr E); cbn [pref app] in Hr'; apply wp_bind, wp_on_table; eapply wp_mono; [by apply (release_reservation_ok _ _ _ _ nfd Hr')|].
    all: intros [] t Hr2; apply wp_bind, wp_modify, wp_ret; split; [done|]; destruct Hw as [H1 H2 H3 _]; case_bool_decide; split; cbn; try done; by rewrite H1.
  - eapply on_ref_ok; [done| |]; [|intros ->; by split]. intros o E. rewrite E. apply wp_bind, wp_on_table. apply (copy_ok _ _ _ _ o _ _ Hr); [by eapply aref_in|done|]. intros t Hr'.
    eapply wp_mono; [apply (chdir_ok _ _ _ _ o Hr')|]. intros [] t' Hr2. apply wp_ret. split; [done|]. by apply wrel_tab.
  - eapply on_ref_ok; [done| |]; [|intros ->; by split]. intros o E. rewrite E. apply wp_bind, wp_on_table. eapply wp_mono; [apply (chroot_ok _ _ _ _ o Hr); [by eapply aref_in|done]|].
    intros r t [-> Hr']. apply wp_bind, wp_modify, wp_ret. split; [done|]. by apply (wrel_table w a t).
  - apply wp_bind, wp_on_table. eapply wp_mono; [apply (fini_ok _ _ _ _ Hr)|]. intros [] t Hr'. apply wp_bind, wp_modify, wp_ret. split; [done|]. destruct Hw as [H1 H2 H3 _]. by split.
Qed.
End Sim.

(** ** The descriptor table: the start of a process *)

#[local] Arguments holds_refs : simpl never.
#[local] Arguments occ : simpl never.
#[local] Arguments aopen : simpl never.

(** ** The descriptors that are given *)

(** The objects are numbered as they are made; [args] are the descriptors of a process and
    whether they are for the standard streams. *)
Fixpoint number (n : Z) (args : list (Z * bool)) : list (Z * Z * bool) :=
  match args with [] => [] | (fd, b) :: args => (n, fd, b) :: number (n + 1) args end.
Fixpoint aopens (n : Z) (args : list (Z * bool)) (a : atable) : atable :=
  match args with [] => a | (fd, _) :: args => aopens (n + 1) args (aopen fd n a) end.
(** The last one that is for the standard streams. *)
Fixpoint stdio_of (n : Z) (args : list (Z * bool)) (st : option Z) : option Z :=
  match args with [] => st | (_, b) :: args => stdio_of (n + 1) args (if b then Some n else st) end.

Definition good_args (args : list (Z * bool)) : Prop := NoDup args.*1 /\ Forall (fun fd => 0 <= fd < FDIO_MAX_FD) args.*1 /\ Z.of_nat (length args) <= FDIO_MAX_FD.

(** A descriptor that is free gets an object; the others keep theirs. *)
Definition aset_free (fd o : Z) (a : atable) : atable := match fds a !! fd with None => aopen fd o a | Some _ => a end.
Definition astdio (o : Z) (a : atable) : atable := aset_free 2 o (aset_free 1 o (aset_free 0 o a)).

Definition empty_table : atable := {| fds := ∅; root_dir := None; cwd_dir := None |}.

(** The objects of the directories, and how many there are then. *)
Definition start_objects (args : list (Z * bool)) (root_ok cwd_ok : bool) : Z * option Z * option Z * Z * Z :=
  let null := Z.of_nat (length args) in
  let n := match stdio_of 0 args None with Some _ => null | None => null + 1 end in
  if root_ok then (null, Some n, if cwd_ok then Some (n + 1) else None, n + 1, n + 2) else (null, None, None, n, n + 1).

Definition astart (args : list (Z * bool)) (root_ok cwd_ok : bool) : aworld :=
  let '(null, root, cwd, default_io, n) := start_objects args root_ok cwd_ok in
  let a := astdio (default null (stdio_of 0 args None)) (aopens 0 args empty_table) in
  {| atab := {| fds := fds a; root_dir := Some (default default_io root); cwd_dir := Some (default default_io cwd) |}; apend := []; amade := n; afinished := false |}.

Section Start.
Context {R : Type} {RC : RefCounted R}.

(** The process after its start, if no assertion fails. *)
Definition start (args : list (Z * bool)) (root_ok cwd_ok : bool) : option (@world R) :=
  let '(null, root, cwd, default_io, n) := start_objects args root_ok cwd_ok in
  '(_, t) ← libc_extensions_init (number 0 args) null root cwd default_io fdio_state_new;
  Some {| table := t; pend := []; made := n; finished := false |}.

Context {RCL : RefCountedLaws R}.

Lemma state_new_ok : rel 0 (fdio_state_new (R := R)) empty_table [].
Proof.
  assert (Hj : forall k, mjoin (obj <$> replicate k Available) = []) by (induction k; [done|]; cbn; done).
  split; [apply length_replicate| |done|done| | |].
  - intros i. destruct (i <? 0); [done|]. cbn [fdtab fdio_state_new fds empty_table]. rewrite lookup_empty. destruct (replicate _ _ !! Z.to_nat i) as [x|] eqn:E; [|done].
    apply lookup_replicate in E as [-> _]. done.
  - intros o. unfold refs, slots. cbn [root_slot cwd_slot fdtab fdio_state_new objects]. rewrite !fmap_cons, lookup_empty. cbn [obj mjoin list_join app]. by rewrite Hj.
  - intros o [? E]. cbn in E. by rewrite lookup_empty in E.
  - split; [constructor|]. intros o. cbn. split; [by intros ?%not_elem_of_nil|lia].
Qed.

Lemma make_then {A} n s a held (k : unit -> ST (fdio_state R) A) Q : rel n s a held -> 0 <= n -> (forall s', rel (n + 1) s' a (n :: held) -> wp (k tt) s' Q) -> wp (u ← make n; k u) s Q.
Proof. intros Hr Hn HQ. apply wp_bind. eapply wp_mono; [by apply make_ok|]. intros [] s' [? _]. by apply HQ. Qed.

(** Storing a copy where the slot is free. *)
Lemma set_then {A} n s a held p o (k : bool -> ST (fdio_state R) A) Q : rel n s a held -> valid p -> o ∈ held -> few held ->
  (forall s', rel n s' (match aget p a with None => aset p (Some (Open o)) a | Some _ => a end) held -> wp (k (bool_decide (aget p a = None))) s' Q) ->
  wp (acquire o ;; b ← try_set p o; k b) s Q.
Proof.
  intros Hr Hv Ho Hf HQ. apply (copy_ok n s a held); [done..|]. intros s1 Hr1. apply wp_bind. eapply wp_mono; [by apply (try_set_ok n s1 a held p o Hr1)|].
  intros b s2 [-> Hr2]. apply HQ. by destruct (aget p a).
Qed.

Lemma init_fds_ok args : forall n s a st, rel n s a (optional st) -> 0 <= n -> NoDup args.*1 -> Forall (fun fd => 0 <= fd < FDIO_MAX_FD) args.*1 ->
  (forall fd, fd ∈ args.*1 -> fds a !! fd = None) ->
  wp (init_fds (number n args) st) s (fun r s' => r = stdio_of n args st /\ rel (n + Z.of_nat (length args)) s' (aopens n args a) (optional r)).
Proof.
  induction args as [|[fd b] args IH]; intros n s a st Hr Hn Hnd Hrange Hfree; cbn [number init_fds stdio_of aopens].
  - apply wp_ret. split; [done|]. by rewrite Z.add_0_r.
  - cbn in Hnd, Hrange, Hfree. apply NoDup_cons in Hnd as [Hfd Hnd]. apply Forall_cons in Hrange as [Hr0 Hrange].
    apply (make_then n s a (optional st)); [done..|]. intros s1 Hr1. apply wp_bind. rewrite (proj2 (Z.ltb_lt _ _)) by lia. apply wp_ret.
    apply (set_then _ _ _ _ (Fd fd) n _ _ Hr1); [done|by left|unfold few; destruct st; simpl; lia|]. cbn [aget]. rewrite (Hfree fd) by by left. intros s2 Hr2.
    apply wp_bind, wp_ret. assert (Hfree' : forall fd', fd' ∈ args.*1 -> fds (aopen fd n a) !! fd' = None).
    { intros fd' Hin. unfold aopen. cbn. rewrite lookup_partial_alter_ne by (intros ->; done). apply Hfree. by right. }
    assert (Hlen : n + Z.of_nat (length ((fd, b) :: args)) = n + 1 + Z.of_nat (length args)) by (simpl length; lia). rewrite Hlen.
    destruct b; apply wp_bind.
    + eapply wp_mono; [apply (drop_optional_ok (n + 1) s2 (aopen fd n a) [n] st)|].
      { eapply rel_perm; [|exact Hr2]. destruct st; cbn; [apply perm_swap|done]. }
      intros [] s3 Hr3. apply (IH (n + 1) s3 (aopen fd n a) (Some n)); [done|lia|done..].
    + eapply wp_mono; [apply (drop_ok _ _ _ _ n Hr2)|]. intros [] s3 [Hr3 _]. apply (IH (n + 1) s3 (aopen fd n a) st); [done|lia|done..].
Qed.

Lemma few_small held : (length held <= 8)%nat -> few held.
Proof. unfold few. lia. Qed.

Lemma init_stdio_ok n s a st null : rel n s a (optional st) -> (st = None -> null = n) -> 0 <= n ->
  wp (init_stdio st null) s (fun io s' => io = default null st /\ rel (match st with Some _ => n | None => n + 1 end) s' (astdio io a) [io]).
Proof.
  intros Hr Hnull Hn. apply wp_bind.
  apply (wp_mono _ _ (fun io s' => io = default null st /\ rel (match st with Some _ => n | None => n + 1 end) s' a [io])).
  { destruct st as [o|]; [by apply wp_ret|]. rewrite (Hnull eq_refl). apply (make_then n s a []); [done..|]. intros s1 Hr1. by apply wp_ret. }
  intros io s1 [-> Hr1]. generalize dependent (default null st). intros io Hr1. unfold astdio, aset_free.
  apply (set_then _ _ _ _ (Fd 0) io _ _ Hr1); [done|by left|by apply few_small; simpl; lia|]. cbn [aget]. intros s2 Hr2.
  apply (set_then _ _ _ _ (Fd 1) io _ _ Hr2); [done|by left|by apply few_small; simpl; lia|]. cbn [aget]. intros s3 Hr3.
  apply (set_then _ _ _ _ (Fd 2) io _ _ Hr3); [done|by left|by apply few_small; simpl; lia|]. cbn [aget]. intros s4 Hr4. by apply wp_ret.
Qed.

(** A directory that is set for the first time. *)
Lemma set_dir_then {A} n s a held p o (k : unit -> ST (fdio_state R) A) Q : rel n s a held -> valid p -> o ∈ held -> few held -> aget p a = None ->
  (forall s', rel n s' (aset p (Some (Open o)) a) held -> wp (k tt) s' Q) -> wp (u ← (acquire o ;; b ← try_set p o; assert_that b); k u) s Q.
Proof.
  intros Hr Hv Ho Hf Hp HQ. apply wp_bind. apply (set_then _ _ _ _ p o _ _ Hr); [done..|]. rewrite Hp. cbn. intros s' Hr'. apply wp_ret. by apply HQ.
Qed.

Lemma init_dirs_ok n s a held (root_ok cwd_ok : bool) : rel n s a held -> 0 <= n -> (length held <= 4)%nat -> root_dir a = None -> cwd_dir a = None ->
  let root := if root_ok then Some n else None in
  let cwd := if root_ok && cwd_ok then Some (n + 1) else None in
  let default_io := if root_ok then n + 1 else n in
  wp (init_dirs root cwd default_io) s (fun _ s' => rel (if root_ok then n + 2 else n + 1) s'
    {| fds := fds a; root_dir := Some (default default_io root); cwd_dir := Some (default default_io cwd) |} held).
Proof.
  intros Hr Hn Hh Hroot Hcwd. unfold init_dirs. cbv zeta. destruct root_ok; cbn [andb].
  - apply (make_then n s a held); [done..|]. intros s1 Hr1. apply (set_dir_then _ _ _ _ Root n _ _ Hr1); [done|by left|apply few_small; simpl; lia|cbn; by rewrite Hroot|]. intros s2 Hr2.
    destruct cwd_ok.
    all: apply (make_then _ _ _ _ _ _ Hr2); [lia|]; intros s3 Hr3; replace (n + 1 + 1) with (n + 2) in Hr3 by lia.
    all: apply (set_dir_then _ _ _ _ Cwd (n + 1) _ _ Hr3); [done|by left|apply few_small; simpl; lia|cbn; by rewrite Hcwd|]; intros s4 Hr4.
    + apply (drop_then _ _ _ _ _ _ _ Hr4). intros s5 Hr5. eapply wp_mono; [apply (drop_ok _ _ _ _ _ Hr5)|]. by intros [] s6 [Hr6 _].
    + apply (rel_perm _ _ _ _ _ (perm_swap _ _ _)) in Hr4. apply (drop_then _ _ _ _ _ _ _ Hr4). intros s5 Hr5. eapply wp_mono; [apply (drop_ok _ _ _ _ _ Hr5)|]. by intros [] s6 [Hr6 _].
  - apply (make_then n s a held); [done..|]. intros s1 Hr1. apply (set_dir_then _ _ _ _ Root n _ _ Hr1); [done|by left|apply few_small; simpl; lia|cbn; by rewrite Hroot|]. intros s2 Hr2.
    apply (set_dir_then _ _ _ _ Cwd n _ _ Hr2); [done|by left|apply few_small; simpl; lia|cbn; by rewrite Hcwd|]. intros s3 Hr3.
    eapply wp_mono; [apply (drop_ok _ _ _ _ _ Hr3)|]. by intros [] s4 [Hr4 _].
Qed.

Lemma aopens_dirs args : forall n a, root_dir (aopens n args a) = root_dir a /\ cwd_dir (aopens n args a) = cwd_dir a.
Proof. induction args as [|[fd b] args IH]; intros n a; [done|]. cbn. by destruct (IH (n + 1) (aopen fd n a)) as [-> ->]. Qed.
Lemma astdio_dirs o a : root_dir (astdio o a) = root_dir a /\ cwd_dir (astdio o a) = cwd_dir a.
Proof. unfold astdio, aset_free. by repeat case_match. Qed.

(** No assertion fails, and the world is that of the abstract start. *)
Lemma start_ok args root_ok cwd_ok : good_args args -> exists w, start args root_ok cwd_ok = Some w /\ wrel w (astart args root_ok cwd_ok).
Proof.
  intros (Hnd & Hrange & Hlen). unfold start, astart, start_objects. set (m := Z.of_nat (length args)). set (st := stdio_of 0 args None).
  set (n := match st with Some _ => m | None => m + 1 end). set (a := astdio (default m st) (aopens 0 args empty_table)).
  assert (Hd : root_dir a = None /\ cwd_dir a = None).
  { unfold a. destruct (astdio_dirs (default m st) (aopens 0 args empty_table)) as [-> ->]. by destruct (aopens_dirs args 0 empty_table) as [-> ->]. }
  assert (H : wp (libc_extensions_init (number 0 args) m (if root_ok then Some n else None) (if root_ok && cwd_ok then Some (n + 1) else None) (if root_ok then n + 1 else n)) (fdio_state_new (R := R))
    (fun _ s' => rel (if root_ok then n + 2 else n + 1) s' {| fds := fds a; root_dir := Some (default (if root_ok then n + 1 else n) (if root_ok then Some n else None));
       cwd_dir := Some (default (if root_ok then n + 1 else n) (if root_ok && cwd_ok then Some (n + 1) else None)) |} [])).
  { apply wp_bind. eapply wp_mono; [apply (init_fds_ok args 0 _ _ None state_new_ok); [lia|done|done|by intros; apply lookup_empty]|]. intros r s1 [-> Hr1]. fold st m in Hr1 |- *. rewrite Z.add_0_l in Hr1.
    apply wp_bind. eapply wp_mono; [apply (init_stdio_ok _ _ _ st m Hr1); [done|lia]|]. intros io s2 [-> Hr2]. fold n a in Hr2.
    assert (0 <= n) by (unfold n, m; destruct st; lia).
    apply wp_bind. eapply wp_mono; [apply (init_dirs_ok n s2 a [default m st] root_ok cwd_ok Hr2); [done|simpl; lia|apply Hd|apply Hd]|]. intros [] s3 Hr3.
    eapply wp_mono; [apply (drop_ok _ _ _ _ _ Hr3)|]. by intros [] s4 [Hr4 _]. }
  destruct H as ([] & t & E & Hr). destruct root_ok; [destruct cwd_ok|]; cbn [andb default] in *; rewrite E; (eexists; split; [done|]); by split.
Qed.
End Start.
