(* ===== verification/FdTableTheorems.v ===== *)
(** * The descriptor table: properties *)

From stdpp Require Import gmap.
From S2P Require Import Prelude FdTable FdTableInv FdTableOps FdTableSpec FdTableSim.

#[local] Arguments holds_refs : simpl never.

(** ** Runs *)

Lemma spec_len cs e w : (length (apend (spec_exec cs e w).2) <= S (length (apend w)))%nat.
Proof.
  assert (Hp : forall p, (length (pointer p) <= 1)%nat) by (by intros []; simpl; lia).
  assert (Hdel : forall k, (length (delete k (apend w)) <= length (apend w))%nat).
  { intros k. rewrite delete_take_drop, length_app, length_take, length_drop. lia. }
  unfold spec_exec. destruct (afinished w && takes_lock e); [simpl; lia|].
  destruct e; cbn -[pointer abind adup2 adup_from apair afill lowest_free aset]; repeat case_match; simplify_eq; cbn -[pointer abind adup2 adup_from apair afill lowest_free aset];
    rewrite ?length_app, ?length_insert; try specialize (Hdel k); try lia; try (match goal with |- context [pointer ?p] => specialize (Hp p) end; lia); simpl; lia.
Qed.

Lemma holds_length l : (length (holds_refs l) <= length l)%nat.
Proof. induction l as [|p l IH]; [done|]. rewrite holds_cons, length_app. destruct p; simpl length in *; lia. Qed.

Section Theorems.
Context {R : Type} {RC : RefCounted R} {RCL : RefCountedLaws R} (close_status : Z -> bool -> Z).

Lemma exec_ok e (w : @world R) a : wrel w a -> aok a -> Z.of_nat (length (apend a)) + 1040 < 2 ^ 30 ->
  wp (exec_fd close_status e) w (fun x w' => x = (spec_exec close_status e a).1 /\ wrel w' (spec_exec close_status e a).2 /\ aok (spec_exec close_status e a).2).
Proof.
  intros Hw Hok Hl. apply wp_bind, wp_gets. rewrite (wr_finished _ _ Hw). unfold spec_exec. destruct (afinished a && takes_lock e); [by apply wp_ret|].
  assert (Hh := holds_length (apend a)). eapply wp_mono; [apply (step_ok close_status e w a Hw Hok); unfold very_few; lia|]. intros x w' [-> Hw']. split_and!; [done|done|]. by apply aok_step.
Qed.

Lemma fd_run_ok es : forall (w : @world R) a, wrel w a -> aok a -> Z.of_nat (length (apend a)) + Z.of_nat (length es) + 1040 < 2 ^ 30 ->
  wp (run_fd close_status es) w (fun xs w' => xs = (spec_run close_status es a).1 /\ wrel w' (spec_run close_status es a).2 /\ aok (spec_run close_status es a).2).
Proof.
  induction es as [|e es IH]; intros w a Hw Hok Hl; cbn [run_fd spec_run]; [by apply wp_ret|].
  apply wp_bind. eapply wp_mono; [apply (exec_ok e w a Hw Hok); simpl in Hl; lia|]. intros x w1 (-> & Hw1 & Hok1). assert (Hlen := spec_len close_status e a).
  destruct (spec_exec close_status e a) as [x a1]. cbn [fst snd] in *. apply wp_bind. eapply wp_mono; [apply (IH w1 a1 Hw1 Hok1); simpl in Hl; lia|]. intros xs w2 (-> & Hw2 & Hok2).
  apply wp_ret. by destruct (spec_run close_status es a1).
Qed.

Lemma rel_in_made n (s : fdio_state R) a held o : rel n s a held -> o ∈ refs s held -> 0 <= o < n.
Proof.
  intros Hr Ho. apply occ_in in Ho. assert (Hc := rel_count _ _ _ _ Hr o). apply (rel_made _ _ _ _ Hr). destruct (objects s !! o); [done|lia].
Qed.

Lemma start_aok (w : @world R) args root_ok cwd_ok : wrel w (astart args root_ok cwd_ok) -> aok (astart args root_ok cwd_ok).
Proof.
  intros [_ _ _ Hr]. assert (E : apend (astart args root_ok cwd_ok) = []) by (unfold astart; by destruct (start_objects args root_ok cwd_ok) as [[[[] ?] ?] ?]).
  assert (0 <= amade (astart args root_ok cwd_ok)).
  { unfold astart, start_objects. destruct root_ok, (stdio_of 0 args None); cbn; lia. }
  split; rewrite ?E; [by intros ? ? ?%not_elem_of_nil| |by intros ? [?%not_elem_of_nil|?%not_elem_of_nil]|done].
  intros o [Ho|Ho]; [|by apply not_elem_of_nil in Ho]. apply (rel_in_made _ _ _ _ o Hr). unfold refs. apply elem_of_app. left. by apply (in_slots _ _ _ _ o Hr).
Qed.

(** A process that starts and runs. *)
Definition process (args : list (Z * bool)) (root_ok cwd_ok : bool) (es : list event) : option (list answer * @world R) :=
  w ← start args root_ok cwd_ok; run_fd close_status es w.
Definition aprocess (args : list (Z * bool)) (root_ok cwd_ok : bool) (es : list event) : list answer * aworld := spec_run close_status es (astart args root_ok cwd_ok).

Lemma process_ok args root_ok cwd_ok es : good_args args -> Z.of_nat (length es) < 2 ^ 29 ->
  exists w, process args root_ok cwd_ok es = Some ((aprocess args root_ok cwd_ok es).1, w) /\ wrel w (aprocess args root_ok cwd_ok es).2 /\ aok (aprocess args root_ok cwd_ok es).2.
Proof.
  intros Hg Hes. destruct (start_ok (R := R) args root_ok cwd_ok Hg) as (w0 & E0 & Hw0). assert (Hok := start_aok w0 _ _ _ Hw0).
  assert (E : apend (astart args root_ok cwd_ok) = []) by (unfold astart; by destruct (start_objects args root_ok cwd_ok) as [[[[] ?] ?] ?]).
  destruct (fd_run_ok es w0 _ Hw0 Hok) as (xs & w & Er & -> & Hw & Hok'); [rewrite E; simpl; lia|]. exists w. unfold process. rewrite E0. cbn. by rewrite Er.
Qed.

(** C5. The descriptor table does what a table of descriptors without reference counts does:
    for any descriptors a process is started with and any steps of its threads, every call
    answers as the abstract threads do, where a new descriptor is the lowest free one and a
    pointer is the last one when nothing else refers to its object; the slots and what the
    threads hold agree, no assertion fails, and no object is used after it was deleted. *)
Theorem fd_table_refines args root_ok cwd_ok es : good_args args -> Z.of_nat (length es) < 2 ^ 29 ->
  exists w, process args root_ok cwd_ok es = Some ((aprocess args root_ok cwd_ok es).1, w) /\ pend w = apend (aprocess args root_ok cwd_ok es).2 /\
    forall p, valid p -> exists x, slot_of p (table w) = Some x /\ entry_of x = aget p (atab (aprocess args root_ok cwd_ok es).2).
Proof.
  intros Hg Hes. destruct (process_ok args root_ok cwd_ok es Hg Hes) as (w & E & Hw & Hok). exists w. split; [done|]. split; [apply Hw|].
  intros p Hv. apply (rel_slot _ _ _ _ p (wr_table _ _ Hw) Hv).
Qed.

(** C11. Objects are closed exactly once: at any time the close hook was called at most once on
    an object, and it was called exactly on the objects that were made and that no slot and
    no thread refers to any more. *)
Theorem fd_objects_closed_once args root_ok cwd_ok es xs w : good_args args -> Z.of_nat (length es) < 2 ^ 29 -> process args root_ok cwd_ok es = Some (xs, w) ->
  NoDup (closed (table w)).*1 /\
  forall o, o ∈ (closed (table w)).*1 <-> 0 <= o < made w /\ (forall p, valid p -> slot_of p (table w) <> Some (Allocated o)) /\ o ∉ holds_refs (pend w).
Proof.
  intros Hg Hes E. destruct (process_ok args root_ok cwd_ok es Hg Hes) as (w' & E' & Hw & _). rewrite E in E'. injection E' as -> <-. destruct Hw as [H1 H2 _ Hr]. destruct (rel_closed _ _ _ _ Hr) as [Hnd Hcl].
  split; [done|]. intros o. rewrite Hcl, H1, H2. assert (Hc := rel_count _ _ _ _ Hr o). split.
  - intros [Ho Hn]. rewrite Hn in Hc. split; [done|]. assert (Hno : o ∉ refs (table w) (holds_refs (apend (aprocess args root_ok cwd_ok es).2))) by (rewrite <- occ_in; lia).
    split; [intros p _ Hp; apply Hno; by eapply slot_in|]. intros Hin. apply Hno. unfold refs. apply elem_of_app. by right.
  - intros (Ho & Hs & Hh). split; [done|]. destruct (objects (table w) !! o) as [r|]; [|done]. destruct Hc as [_ Hc]. apply occ_in in Hc. unfold refs in Hc. apply elem_of_app in Hc as [Hc|]; [|done].
    apply (in_slots _ _ _ _ o Hr) in Hc. assert (Hex : exists p, valid p /\ aget p (atab (aprocess args root_ok cwd_ok es).2) = Some (Open o)).
    { destruct Hc as [[fd Hc]|[Hc|Hc]]; [exists (Fd fd)|exists Root|exists Cwd]; cbn; rewrite ?Hc; try done. split; [|done]. destruct (FdTableOps.in_range fd) eqn:Ei; [by apply in_range_valid|].
      rewrite (rel_out _ _ _ _ fd Hr Ei) in Hc. done. }
    destruct Hex as (p & Hv & Hp). destruct (rel_slot _ _ _ _ p Hr Hv) as (x & Ex & Ee). rewrite Hp in Ee. destruct x; try done. injection Ee as ->. by destruct (Hs p Hv).
Qed.

(** C12. The end of an accept4: if its reservation is still there, the new socket goes to the
    descriptor that is returned.  If the slot was taken and is free again, the socket goes to
    it but 0 is returned; if the slot is taken, the call fails with EMFILE, however many
    descriptors are free. *)
Theorem accept_result args root_ok cwd_ok es xs w k j nfd o : good_args args -> Z.of_nat (length es) < 2 ^ 29 - 1 -> process args root_ok cwd_ok es = Some (xs, w) ->
  finished w = false -> pend w !! k = Some (Reservation nfd) -> pend w !! j = Some (Ref o) ->
  exists r w', exec_fd close_status (EFill k j) w = Some (AnInt r, w') /\
    match slot_of (Fd nfd) (table w) with
    | Some Reserved => r = Returns nfd /\ slot_of (Fd nfd) (table w') = Some (Allocated o)
    | Some Available => r = Returns 0 /\ slot_of (Fd nfd) (table w') = Some (Allocated o)
    | Some (Allocated other) => r = Fails EMFILE /\ slot_of (Fd nfd) (table w') = Some (Allocated other)
    | None => False
    end.
Proof.
  intros Hg Hes E Hfin Hk Hj. destruct (process_ok args root_ok cwd_ok es Hg ltac:(lia)) as (w1 & E' & Hw & Hok). rewrite E in E'. injection E' as -> <-.
  set (a := (aprocess args root_ok cwd_ok es).2) in *. assert (Hlen : Z.of_nat (length (apend a)) <= Z.of_nat (length es)).
  { unfold a, aprocess. assert (H : forall es a, (length (apend (spec_run close_status es a).2) <= length (apend a) + length es)%nat).
    { clear. induction es as [|e es IH]; intros a; cbn [spec_run]; [simpl; lia|]. assert (H := spec_len close_status e a). destruct (spec_exec close_status e a) as [x a1]. cbn [fst snd] in H.
      specialize (IH a1). destruct (spec_run close_status es a1). cbn [snd length] in *. lia. }
    specialize (H es (astart args root_ok cwd_ok)). assert (E0 : apend (astart args root_ok cwd_ok) = []) by (unfold astart; by destruct (start_objects args root_ok cwd_ok) as [[[[] ?] ?] ?]).
    rewrite E0 in H. simpl in H. lia. }
  destruct (exec_ok (EFill k j) w a Hw Hok ltac:(lia)) as (r & w' & Er & -> & Hw' & _). assert (Hka : apend a !! k = Some (Reservation nfd)) by (rewrite <- (wr_pend _ _ Hw); done).
  assert (Hja : aref j a = Some o) by (unfold aref; rewrite <- (wr_pend _ _ Hw), Hj; done). assert (Hv : valid (Fd nfd)) by (cbn; apply (ao_reserved _ Hok); left; by eapply list_elem_of_lookup_2).
  assert (Hsp : spec_exec close_status (EFill k j) a = let '(r, t) := afill nfd o (atab a) in (AnInt r, with_pend <[k := Deferred nfd]> (with_tab t a))).
  { unfold spec_exec. rewrite <- (wr_finished _ _ Hw), Hfin. cbn [andb spec_step]. by rewrite Hka, Hja. }
  rewrite Hsp in Er, Hw'. destruct (rel_slot _ _ _ _ (Fd nfd) (wr_table _ _ Hw) Hv) as (x & Ex & Ee). cbn [aget] in Ee. rewrite Ex.
  destruct (rel_slot _ _ _ _ (Fd nfd) (wr_table _ _ Hw') Hv) as (x' & Ex' & Ee'). unfold afill in Er, Ee'. rewrite <- Ee in Er, Ee'.
  destruct x as [| |other]; cbn [entry_of fst snd] in Er, Ee'; eexists _, w'; (split; [exact Er|]); (split; [done|]); rewrite Ex'; cbn in Ee'; rewrite ?lookup_partial_alter_eq in Ee'; rewrite <- ?Ee in Ee'; destruct x'; try done; by injection Ee' as ->.
Qed.
End Theorems.

(** ** Witnesses *)

(** A count that is a number. *)
#[global] Instance number_count : RefCounted Z := {| Adopted := 1; AddRef r := r + 1; Release r := (r =? 1, r - 1); IsLastReference r := r =? 1 |}.
#[global] Instance number_count_laws : RefCountedLaws Z.
Proof. refine {| ref_count_of := fun r => r; ref_max := 2 ^ 30 |}; done. Defined.

Definition no_error (o : Z) (b : bool) : Z := 0.

(** One descriptor is given, for the standard streams; one is opened, copied and closed. *)
Definition some_events : list event :=
  [EMake; EBind 0; EDrop 0; EDup 3; EDupFd 3 10; EDup2 0 3; EDrop 0; EUnbind (UClose true) 5; EGetLast 0; EDrop 0; EUnbind (UClose true) 10; EGetLast 0; EUse 0; EDup 7].

Lemma some_args_good : good_args [(4, true)].
Proof. split; [apply NoDup_singleton|]. split; [|done]. apply Forall_singleton. done. Qed.

Lemma fd_table_refines_witness : exists w, process no_error [(4, true)] true true some_events =
  Some ([AnIo (Some 3); AnFd (Some 3); Nothing; AnInt (Returns 5); AnInt (Returns 10); AnInt (Returns 3); Nothing; AnIo (Some 3); AnInt (Returns 0); Nothing; AnIo (Some 3); Nothing; AnInt (Returns 0);
         AnInt (Fails EBADF)], w) /\ slot_of (Fd 3) (table w) = Some (Allocated 0).
Proof.
  destruct (fd_table_refines no_error [(4, true)] true true some_events some_args_good) as (w & E & _ & Hs); [vm_compute; reflexivity|]. exists w. split.
  - rewrite E. vm_compute. reflexivity.
  - destruct (Hs (Fd 3)) as (x & -> & Ex); [split; done|]. vm_compute in Ex. destruct x; try discriminate Ex. injection Ex as ->. reflexivity.
Defined.

(** The reservation of descriptor 3 is taken by dup2, and the descriptor closed. *)
Definition stomped : list event := [EReserve; EDup2 0 3; EUnbind (UClose true) 3; EGetLast 1; EDrop 1; EMake].

Lemma no_args_good : good_args [].
Proof. split; [constructor|]. split; [constructor|done]. Qed.

Lemma fd_objects_closed_once_witness : exists xs w, process no_error [(4, true)] true true some_events = Some (xs, w) /\ (NoDup (closed (table w)).*1 /\
  forall o, o ∈ (closed (table w)).*1 <-> 0 <= o < made w /\ (forall p, valid p -> slot_of p (table w) <> Some (Allocated o)) /\ o ∉ holds_refs (pend w)) /\ closed (table w) = [(3, true)].
Proof.
  destruct (process no_error [(4, true)] true true some_events) as [[xs w]|] eqn:E; [|exfalso; revert E; vm_compute; discriminate]. exists xs, w. split; [reflexivity|]. split.
  - exact (fd_objects_closed_once no_error [(4, true)] true true some_events xs w some_args_good eq_refl E).
  - assert (H : (fun x => closed (table x.2)) <$> process no_error [(4, true)] true true some_events = Some [(3, true)]) by (vm_compute; reflexivity). rewrite E in H. injection H as H. exact H.
Defined.

Lemma accept_result_witness : exists xs w r w', process no_error [] true true stomped = Some (xs, w) /\ exec_fd no_error (EFill 0 1) w = Some (AnInt r, w') /\
  r = Returns 0 /\ slot_of (Fd 3) (table w') = Some (Allocated 3).
Proof.
  destruct (process no_error [] true true stomped) as [[xs w]|] eqn:E; [|exfalso; revert E; vm_compute; discriminate].
  assert (H : (fun x => (finished x.2, pend x.2, slot_of (Fd 3) (table x.2))) <$> process no_error [] true true stomped = Some (false, [Reservation 3; Ref 3], Some Available)) by (vm_compute; reflexivity).
  rewrite E in H. injection H as Hf Hp Hs. assert (H0 : pend w !! 0%nat = Some (Reservation 3)) by (rewrite Hp; reflexivity). assert (H1 : pend w !! 1%nat = Some (Ref 3)) by (rewrite Hp; reflexivity).
  destruct (accept_result no_error [] true true stomped xs w 0%nat 1%nat 3 3 no_args_good eq_refl E Hf H0 H1) as (r & w' & Ee & Hm).
  assert (Hs' : slot_of (Fd 3) (table w) = Some Available) by exact Hs. rewrite Hs' in Hm. exists xs, w, r, w'. split; [reflexivity|]. split; [exact Ee|exact Hm].
Defined.
