(* ===== verification/Cwd.v ===== *)
(** * The current directory of a process and paths relative to it

    Models the path handling of src/fdio/unistd.cc: the name of the current directory
    ([update_cwd_path], getcwd, chdir, chroot, realpath) and the paths of requests
    ([fdio_iodir], [open_at_impl], [opendir_containing_at]).  The buffers are those of
    CleanPath.v; what the directories answer is an argument. *)

From S2P Require Import Prelude CleanPath.

(** ** Buffers and C strings *)

(** Writing a character through [operator[]] or [data()], which leaves the length as it is,
    and [RemovePrefix]. *)
Class MutableBuffer (B : Type) := {
  StoreChar : B -> nat -> Z -> B;
  RemovePrefix : B -> nat -> B;
}.

Class MutableBufferLaws (B : Type) `{StringBuffer B} `{MutableBuffer B} : Prop := {
  StoreChar_contents b i c : (i < length (contents b))%nat -> contents (StoreChar b i c) = <[i := c]> (contents b);
  StoreChar_end b : contents (StoreChar b (length (contents b)) 0) = contents b;
  RemovePrefix_contents b n : (n <= length (contents b))%nat -> contents (RemovePrefix b n) = drop n (contents b);
}.

(** What C takes for the string in a buffer. *)
Fixpoint c_str (s : list Z) : list Z :=
  match s with [] => [] | c :: s => if c =? 0 then [] else c :: c_str s end.

Fixpoint strrchr (s : list Z) (c : Z) : option nat :=
  match s with
  | [] => None
  | x :: s => match strrchr s c with Some i => Some (S i) | None => if x =? c then Some O else None end
  end.

(** [strchr(path, '/')]: the segment before it, and what comes after. *)
Fixpoint cut_segment (path : list Z) : list Z * list Z :=
  match path with
  | [] => ([], [])
  | c :: path => if c =? slash then ([], path) else let '(seg, next) := cut_segment path in (c :: seg, next)
  end.

Definition kUnreachable : list Z := chars "(unreachable)".

Inductive path_error := ERR_INVALID_ARGS | ERR_NOT_FOUND | ERR_BAD_PATH | ERR_BAD_HANDLE | ERR_NOT_FILE.
Inductive cwd_errno := EINVAL | ERANGE | ENAMETOOLONG | of_open.

(** The characters a name buffer holds. *)
Definition NameBuffer_max : nat := 255.

Section Cwd.
Context {B : Type} `{StringBuffer B} `{MutableBuffer B}.

(** [PathBuffer()] *)
Context (empty : B).

(** ** The name of the current directory *)

(** One turn of the loop; [false] goes to [wat]. *)
Definition update_segment (seg : list Z) (cwd : B) : B * bool :=
  let seglen := length seg in
  if Nat.eqb seglen 0 then (cwd, true)
  else if Nat.eqb seglen 1 && (default 0 (seg !! 0%nat) =? dot) then (cwd, true)
  else if Nat.eqb seglen 2 && (default 0 (seg !! 0%nat) =? dot) && (default 0 (seg !! 1%nat) =? dot) then
    match strrchr (c_str (contents cwd)) slash with
    | None => (cwd, false)
    | Some O => (StoreChar cwd 1 0, true)
    | Some x => (StoreChar cwd x 0, true)
    end
  else
    let len := length (contents cwd) in
    if Nat.leb PATH_MAX (len + seglen + 2) then (cwd, false)
    else
      let cwd := if Nat.eqb len 1 then cwd else Append cwd slash in
      (AppendView cwd seg, true).

(** Every segment takes a character of the path at least. *)
Fixpoint update_loop (fuel : nat) (path : list Z) (cwd : B) : option B :=
  match path with
  | [] => Some cwd
  | _ =>
      match fuel with
      | O => None
      | S fuel =>
          let '(seg, next) := cut_segment path in
          let '(cwd, ok) := update_segment seg cwd in
          if (ok : bool) then update_loop fuel next cwd else Some (SetTo cwd (chars "(unknown"))
      end
  end.

Definition update_cwd_path (path : list Z) (cwd : B) : option B :=
  match path with
  | [] => Some cwd
  | c :: rest => if c =? slash then update_loop (length rest) rest (SetTo cwd [slash]) else update_loop (length path) path cwd
  end.

(** What is copied to the caller's buffer of [size] characters, or to a new string if there
    is none. *)
Definition getcwd (size : option nat) (cwd : B) : sum (list Z) cwd_errno :=
  let len := (length (contents cwd) + 1)%nat in
  match size with
  | None => if Nat.leb len (PATH_MAX - 1 + 1) then inl (c_str (contents cwd) ++ [0]) else inr ERANGE
  | Some O => inr EINVAL
  | Some size => if Nat.leb len size then inl (contents cwd ++ [0]) else inr ERANGE
  end.

(** [opened] says whether the directory could be opened. *)
Definition chdir (opened : bool) (path : list Z) (cwd : B) : option (option cwd_errno * B) :=
  if negb opened then Some (Some of_open, cwd) else cwd ← update_cwd_path path cwd; Some (None, cwd).

Definition resolve_path (relative : list Z) (cwd : B) : option (bool * B) :=
  if bool_decide (head relative = Some slash) then '(ok, out, _) ← CleanPath relative empty false; Some (ok, out)
  else
    let buffer := AppendView empty (contents cwd) in
    if Nat.ltb PATH_MAX (length (contents buffer) + length relative + 2) then Some (false, empty)
    else '(ok, out, _) ← CleanPath (c_str (contents (AppendView (Append buffer slash) relative))) empty false; Some (ok, out).

(** The end of chroot: the name of the current directory in the new root. *)
Definition chroot_cwd (root_path cwd : B) : B :=
  let len := length (contents root_path) in
  if Nat.ltb 1 len then
    if bool_decide (contents root_path `prefix_of` contents cwd) && (default 0 (contents cwd !! len) =? slash) then RemovePrefix cwd len
    else SetTo cwd kUnreachable
  else cwd.

(** [opened] says whether the directory was opened and made the root of the namespace. *)
Definition chroot (opened : bool) (path : list Z) (cwd : B) : option (option cwd_errno * B) :=
  '(resolved, root_path) ← resolve_path path cwd;
  if negb resolved then Some (Some ENAMETOOLONG, cwd)
  else if negb opened then Some (Some of_open, cwd)
  else Some (None, chroot_cwd root_path cwd).

(** [found] says whether fstatat succeeds. *)
Definition realpath (found : bool) (filename : list Z) (cwd : B) : option (sum (list Z) cwd_errno) :=
  let relative := negb (bool_decide (head filename = Some slash)) in
  if relative && Nat.leb PATH_MAX (length (contents cwd) + 1 + length filename) then Some (inr ENAMETOOLONG)
  else
    let do_stat := negb (relative && bool_decide (contents cwd = kUnreachable)) in
    let filename := if relative then c_str (contents (AppendView (Append (AppendView empty (contents cwd)) slash) filename)) else filename in
    '(cleaned, clean, _) ← CleanPath filename empty false;
    if negb cleaned then Some (inr EINVAL)
    else if do_stat && negb found then Some (inr of_open)
    else Some (inl (c_str (contents clean))).

(** ** Paths of requests *)

(** The path that is sent to the root directory. *)
Fixpoint strip_slashes (path : list Z) : list Z :=
  match path with
  | c :: rest => if c =? slash then match rest with [] => [dot] | _ => strip_slashes rest end else path
  | [] => path
  end.
(** Whether the request goes to the root, and its path. *)
Definition fdio_iodir (path : list Z) : bool * list Z :=
  match path with c :: _ => if c =? slash then (true, strip_slashes path) else (false, path) | [] => (false, path) end.

(** The options and the flags of a request that the function looks at. *)
Record OpenAtOptions := { disallow_directory : bool; allow_absolute_path : bool }.
Record OpenFlags := { kDirectory : bool; kNotDirectory : bool; kNodeReference : bool; other_flags : Z }.

(** [mask] keeps the flags that go with a node reference; [dir_ok] says whether there is a
    directory to ask. *)
Definition open_at_impl (path : option (list Z)) (flags : OpenFlags) (options : OpenAtOptions) (mask : OpenFlags -> OpenFlags) (dir_ok : bool -> bool)
    : option (sum (bool * list Z * OpenFlags) path_error) :=
  match path with
  | None => Some (inr ERR_INVALID_ARGS)
  | Some [] => Some (inr ERR_NOT_FOUND)
  | Some path =>
      '(cleaned, clean_buffer, has_ending_slash) ← CleanPath path empty false;
      if negb cleaned then Some (inr ERR_BAD_PATH)
      else
        let clean := contents clean_buffer in
        if negb (allow_absolute_path options) && (default 0 (clean !! 0%nat) =? slash) then Some (inr ERR_INVALID_ARGS)
        else
          let '(root, clean) := fdio_iodir clean in
          if negb (dir_ok root) then Some (inr ERR_BAD_HANDLE)
          else if disallow_directory options && has_ending_slash then Some (inr ERR_NOT_FILE)
          else
            let flags := if (has_ending_slash : bool)
              then {| kDirectory := true; kNotDirectory := kNotDirectory flags; kNodeReference := kNodeReference flags; other_flags := other_flags flags |} else flags in
            let flags := if negb (kDirectory flags) && disallow_directory options
              then {| kDirectory := kDirectory flags; kNotDirectory := true; kNodeReference := kNodeReference flags; other_flags := other_flags flags |} else flags in
            let flags := if kNodeReference flags then mask flags else flags in
            Some (inl (root, clean, flags))
  end.

(** Whether the root is asked, the directory, the name in it, and whether it names a
    directory. *)
Definition opendir_containing_at (path : option (list Z)) (dir_ok : bool -> bool) : option (sum (bool * list Z * list Z * bool) path_error) :=
  match path with
  | None => Some (inr ERR_INVALID_ARGS)
  | Some path =>
      '(cleaned, clean_buffer, is_dir) ← CleanPath path empty false;
      if negb cleaned then Some (inr ERR_BAD_PATH)
      else
        let '(root, clean) := fdio_iodir (contents clean_buffer) in
        if negb (dir_ok root) then Some (inr ERR_BAD_HANDLE)
        else
          let '(base, name) := match strrchr clean slash with Some i => (take i clean, drop (S i) clean) | None => ([], clean) end in
          if Nat.ltb NameBuffer_max (length name + (if (is_dir : bool) then 1 else 0)) then Some (inr ERR_BAD_PATH)
          else
            let base := if bool_decide (base = []) && negb (default 0 (name !! 0%nat) =? slash) then [dot] else base in
            Some (inl (root, base, name, is_dir))
  end.
End Cwd.
