(* ===== verification/CwdTheorems.v ===== *)
(** * The current directory: properties

    Names against lists of path elements, with the lexical resolution of
    CleanPathTheorems.v. *)

From S2P Require Import Prelude CleanPath CleanPathTheorems Cwd.

(** ** Tracking a directory by name *)

(** The path of names from the root. *)
Definition rooted_path (st : list (list Z)) : list Z := render true (0%nat, st).

(** What the buffer stands for: names from the root, or from a directory of which only a
    placeholder is known, which is the first name then; the number of characters behind a NUL
    with it, and whether a name was lost. *)
Record tracked := { tr_rooted : bool; tr_names : list (list Z); tr_hidden : nat; tr_lost : bool }.

Definition at_root : tracked := {| tr_rooted := true; tr_names := []; tr_hidden := 0; tr_lost := false |}.
Definition unnamed (placeholder : list Z) (lost : bool) : tracked := {| tr_rooted := false; tr_names := [placeholder]; tr_hidden := 0; tr_lost := lost |}.

(** What C takes for the name of the directory. *)
Definition tr_text (t : tracked) : list Z := render (tr_rooted t) (0%nat, tr_names t).

(** A step up cuts the string but not its length: names that come after it are stored behind
    the NUL, until a path starts at the root.  There is none from a placeholder, and none to a
    name that does not fit together with what is behind the NUL. *)
Definition track_step (t : tracked) (w : list Z) : option tracked :=
  if decide (w = up) then
    if negb (tr_rooted t) && Nat.leb (length (tr_names t)) 1 then None
    else
      let t' := {| tr_rooted := tr_rooted t; tr_names := removelast (tr_names t); tr_hidden := 0; tr_lost := tr_lost t |} in
      Some {| tr_rooted := tr_rooted t; tr_names := tr_names t'; tr_hidden := (length (tr_text t) - length (tr_text t')) + tr_hidden t; tr_lost := tr_lost t |}
  else if decide (PATH_MAX <= length (tr_text t) + tr_hidden t + length w + 2)%nat then None
  else if Nat.eqb (tr_hidden t) 0 then Some {| tr_rooted := tr_rooted t; tr_names := tr_names t ++ [w]; tr_hidden := 0; tr_lost := tr_lost t |}
  else Some {| tr_rooted := tr_rooted t; tr_names := tr_names t; tr_hidden := tr_hidden t + 1 + length w; tr_lost := true |}.
(** Where there is no step the rest of the path is given up. *)
Fixpoint track_words (t : tracked) (ws : list (list Z)) : tracked :=
  match ws with
  | [] => t
  | w :: ws => match track_step t w with Some t => track_words t ws | None => unnamed (chars "(unknown") true end
  end.
Definition track (t : tracked) (path : list Z) : tracked := track_words (if is_rooted path then at_root else t) (words path).
(** The calls that open their directory are tracked. *)
Definition track_all (calls : list (bool * list Z)) : tracked := foldl (fun t c => if (c.1 : bool) then track t c.2 else t) at_root calls.

(** The directory that the paths lead to. *)
Definition lexical (st : list (list Z)) (path : list Z) : list (list Z) := (resolve true 0 (if is_rooted path then [] else st) (words path)).2.
Definition lexical_all (calls : list (bool * list Z)) : list (list Z) := foldl (fun st c => if (c.1 : bool) then lexical st c.2 else st) [] calls.

(** ** C strings *)

Lemma c_str_id s : no_nul s -> c_str s = s.
Proof. induction 1 as [|c s Hc _ IH]; [done|]. cbn. by rewrite (proj2 (Z.eqb_neq _ _) Hc), IH. Qed.
Lemma c_str_cut s r : no_nul s -> c_str (s ++ 0 :: r) = s.
Proof. induction 1 as [|c s Hc _ IH]; [done|]. cbn. by rewrite (proj2 (Z.eqb_neq _ _) Hc), IH. Qed.

Lemma strrchr_none s : no_slash s -> strrchr s slash = None.
Proof. induction 1 as [|c s Hc _ IH]; [done|]. cbn. rewrite IH. by rewrite (proj2 (Z.eqb_neq _ _) Hc). Qed.
Lemma strrchr_last s w : no_slash w -> strrchr (s ++ slash :: w) slash = Some (length s).
Proof. intros Hw. induction s as [|c s IH]; cbn; [by rewrite strrchr_none|]. by rewrite IH. Qed.

Lemma cut_segment_slash w s : no_slash w -> cut_segment (w ++ slash :: s) = (w, s).
Proof. induction 1 as [|c w Hc _ IH]; cbn; [done|]. by rewrite (proj2 (Z.eqb_neq _ _) Hc), IH. Qed.
Lemma cut_segment_end w : no_slash w -> cut_segment w = (w, []).
Proof. induction 1 as [|c w Hc _ IH]; cbn; [done|]. by rewrite (proj2 (Z.eqb_neq _ _) Hc), IH. Qed.

(** A segment, what comes after it, and the words of the path. *)
Lemma cut_segment_words path : path <> [] -> exists seg next, cut_segment path = (seg, next) /\ no_slash seg /\ (length next < length path)%nat /\
  (length seg + length next <= length path)%nat /\ (next = [] \/ length seg + length next + 1 <= length path)%nat /\
  (no_nul path -> no_nul seg /\ no_nul next) /\ words path = (if decide (names seg) then [seg] else []) ++ words next.
Proof.
  intros Hp. destruct (take_word path) as (w & r & -> & Hw & Hr). destruct Hr as [->|[s ->]].
  - exists w, []. rewrite app_nil_r in *. rewrite cut_segment_end, <- (app_nil_r w), words_word, app_nil_r by (done || by left). destruct w; [done|]. cbn [length]. split_and!; try done; try lia; [by left|].
    intros Hn. split; [done|constructor].
  - exists w, s. rewrite cut_segment_slash, words_word, words_slash by (done || by right; eexists). rewrite length_app. cbn [length]. split_and!; try done; try lia.
    unfold no_nul. intros [? [? ?]%Forall_cons]%Forall_app. done.
Qed.

(** ** Paths *)

Definition good_name (w : list Z) : Prop := proper w /\ no_nul w.

Lemma good_proper st : Forall good_name st -> Forall proper st.
Proof. intros H. eapply Forall_impl; [exact H|]. by intros ? []. Qed.
Lemma proper_element st : Forall proper st -> Forall element st.
Proof. intros H. eapply Forall_impl; [exact H|]. by intros ? []. Qed.

Lemma join_no_nul st : Forall no_nul st -> no_nul (join st).
Proof.
  induction 1 as [|w st Hw _ IH]; [constructor|]. destruct st as [|u st]; [done|]. rewrite join_cons by done. apply Forall_app. split; [done|]. by constructor.
Qed.
Lemma rooted_path_no_nul st : Forall good_name st -> no_nul (rooted_path st).
Proof. intros H. unfold rooted_path, render. cbn. constructor; [done|]. apply join_no_nul. eapply Forall_impl; [exact H|]. by intros ? []. Qed.

Lemma rooted_path_length st : Forall proper st -> (length (rooted_path st) = 1%nat <-> st = []).
Proof.
  intros Hst. split; [|by intros ->]. intros E. destruct (decide (st = [])) as [|Hn]; [done|]. assert (H := render_longer true 0 st (proper_element _ Hst)). cbn in H.
  assert ((0%nat, st) <> (0%nat, [])) by congruence. specialize (H ltac:(done)). unfold rooted_path in E. cbn in *. lia.
Qed.

Section Correct.
Context {B : Type} `{SB : !StringBuffer B} `{!StringBufferLaws (PATH_MAX - 1) B} `{MB : !MutableBuffer B} `{!MutableBufferLaws B}.

(** The buffer of a directory. *)
Definition tracks (cwd : B) (t : tracked) : Prop :=
  Forall good_name (tr_names t) /\ (tr_rooted t = true \/ exists b ns, tr_names t = b :: ns /\ (1 < length b)%nat) /\ (length (contents cwd) <= PATH_MAX - 1)%nat /\
  exists hidden, contents cwd = tr_text t ++ hidden /\ length hidden = tr_hidden t /\ (hidden = [] \/ exists r, hidden = 0 :: r).

Lemma text_no_nul t : Forall good_name (tr_names t) -> no_nul (tr_text t).
Proof.
  intros H. unfold tr_text, render. cbn. apply Forall_app. split; [destruct (tr_rooted t); by repeat constructor|]. apply join_no_nul. eapply Forall_impl; [exact H|]. by intros ? [].
Qed.
Lemma tracks_c_str cwd t : tracks cwd t -> c_str (contents cwd) = tr_text t.
Proof.
  intros (Hg & _ & _ & hidden & -> & _ & Hh). assert (Hn := text_no_nul _ Hg). destruct Hh as [->|[r ->]]; [|by apply c_str_cut]. rewrite app_nil_r. by apply c_str_id.
Qed.
Lemma tracks_length cwd t : tracks cwd t -> length (contents cwd) = (length (tr_text t) + tr_hidden t)%nat.
Proof. intros (_ & _ & _ & hidden & -> & <- & _). by rewrite length_app. Qed.

(** Only the root has a name of one character. *)
Lemma text_length cwd t : tracks cwd t -> (1 <= length (tr_text t))%nat /\ (length (tr_text t) = 1%nat <-> tr_rooted t = true /\ tr_names t = []).
Proof.
  intros (Hg & Hr & _). unfold tr_text. destruct Hr as [->|(b & ns & En & Hb)].
  - split; [unfold render; cbn; lia|]. change (render true (0%nat, tr_names t)) with (rooted_path (tr_names t)). rewrite (rooted_path_length _ (good_proper _ Hg)). naive_solver.
  - rewrite En. assert (1 < length (render (tr_rooted t) (0%nat, b :: ns)))%nat; [|split; [lia|]; split; [lia|by intros [_ ?]]].
    unfold render. cbn [fst snd elems replicate app]. rewrite length_app. destruct ns; [cbn [join]|rewrite join_cons by done; rewrite length_app]; lia.
Qed.

Lemma render_snoc b st w : render b (0%nat, st ++ [w]) = render b (0%nat, st) ++ (if bool_decide (st = []) then [] else [slash]) ++ w.
Proof. rewrite render_push. by repeat case_bool_decide; simplify_eq. Qed.

(** A step up. *)
Lemma update_up_ok cwd t : tracks cwd t ->
  match track_step t up with
  | Some t' => exists cwd', update_segment up cwd = (cwd', true) /\ tracks cwd' t'
  | None => update_segment up cwd = (cwd, false)
  end.
Proof.
  intros Ht. assert (Hc := tracks_c_str _ _ Ht). assert (Hlen := text_length _ _ Ht). destruct Ht as (Hg & Hr & Hmax & hidden & Ec & Hl & Hh).
  unfold update_segment, track_step. cbn [length up Nat.eqb lookup list_lookup default andb Z.eqb].
  change (dot =? dot) with true. cbn [andb]. rewrite Hc. rewrite decide_True by done. destruct t as [rt nm hd lo]. cbn [tr_rooted tr_names tr_hidden tr_lost] in *. unfold tr_text in *. cbn [tr_rooted tr_names] in *.
  destruct (decide (nm = [])) as [->|Hn].
  - destruct Hr as [->|(b & ns & [=] & _)]. cbn [negb andb removelast]. exists (StoreChar cwd 1 0). split; [done|]. change (render true (0%nat, [])) with [slash] in *.
    assert (E1 : contents (StoreChar cwd 1 0) = contents cwd).
    { destruct Hh as [->|[r ->]].
      - cbn in Ec. replace 1%nat with (length (contents cwd)) by by rewrite Ec. apply StoreChar_end.
      - rewrite StoreChar_contents by (rewrite Ec; cbn; lia). by rewrite Ec. }
    split; [constructor|]. rewrite E1. split; [by left|]. split; [done|]. exists hidden. by rewrite Ec.
  - destruct (exists_last Hn) as (st & w & ->). apply Forall_app in Hg as [Hst Hw]. apply Forall_singleton in Hw as [[[Hw0 Hws] _] _]. rewrite removelast_last. rewrite length_app. cbn [length].
    rewrite render_snoc in *. case_bool_decide as Hs.
    + subst st. cbn [length Nat.add Nat.leb]. destruct rt; cbn [negb andb].
      * change (render true (0%nat, [])) with [slash] in *. cbn [app] in *. assert (Es : strrchr (slash :: w) slash = Some 0%nat) by (apply (strrchr_last [] w); done). rewrite Es.
        destruct w as [|c w]; [done|]. exists (StoreChar cwd 1 0). split; [done|].
        assert (E1 : contents (StoreChar cwd 1 0) = [slash] ++ 0 :: w ++ hidden) by (rewrite StoreChar_contents, Ec by (rewrite Ec; cbn; lia); done).
        split; [constructor|]. split; [by left|]. rewrite E1. split; [rewrite Ec in Hmax; cbn [length app] in *; rewrite length_app in *; lia|]. exists (0 :: w ++ hidden). split; [done|]. split; [|right; by eexists].
        cbn. rewrite length_app. lia.
      * change (render false (0%nat, [])) with (@nil Z) in *. cbn [app]. by rewrite strrchr_none.
    + assert (E0 : (length st + 1 <=? 1)%nat = false) by (apply Nat.leb_gt; destruct st; [done|cbn [length]; lia]). rewrite E0, andb_false_r.
      assert (Hpos : (1 <= length (render rt (0%nat, st)))%nat).
      { destruct rt; [unfold render; cbn; lia|]. destruct st as [|u st]; [done|]. apply Forall_cons in Hst as [[[[Hu _] _] _] _]. destruct u; [done|]. unfold render. cbn [elems replicate app root_prefix fst snd]. destruct st; cbn; lia. }
      cbn [app] in Ec |- *. rewrite (strrchr_last (render rt (0%nat, st)) w Hws). destruct (length (render rt (0%nat, st))) as [|i] eqn:Ei; [lia|]. exists (StoreChar cwd (S i) 0). split; [done|].
      assert (E1 : contents (StoreChar cwd (S i) 0) = render rt (0%nat, st) ++ 0 :: w ++ hidden).
      { rewrite StoreChar_contents, Ec by (rewrite Ec, !length_app; cbn [length]; lia). rewrite <- Ei, <- app_assoc. rewrite insert_app_r_alt by lia. by rewrite Nat.sub_diag. }
      split; [done|]. split; [|rewrite E1; split].
      * destruct Hr as [|(b & ns & E & Hb)]; [by left|right]. cbn [tr_names]. destruct st as [|u st]; [done|]. injection E as -> _. by exists b, st.
      * rewrite Ec in Hmax. rewrite !length_app in *. cbn [length] in *. rewrite length_app in *. lia.
      * exists (0 :: w ++ hidden). split; [done|]. split; [|right; by eexists]. cbn [tr_hidden length]. rewrite !length_app. cbn [length]. lia.
Qed.

(** A name. *)
Lemma update_name_ok cwd t w : tracks cwd t -> good_name w ->
  match track_step t w with
  | Some t' => exists cwd', update_segment w cwd = (cwd', true) /\ tracks cwd' t'
  | None => update_segment w cwd = (cwd, false)
  end.
Proof.
  intros Ht Hgw. assert (Hlc := tracks_length _ _ Ht). assert (Hlen := text_length _ _ Ht). destruct Ht as (Hg & Hr & Hmax & hidden & Ec & Hl & Hh).
  destruct (Hgw) as [Hp Hn]. pose proof Hp as [[Hw0 Hws] [[_ Hwd] Hwu]]. unfold update_segment, track_step. rewrite decide_False by done.
  assert (T1 : Nat.eqb (length w) 0 = false) by (by destruct w).
  assert (T2 : Nat.eqb (length w) 1 && (default 0 (w !! 0%nat) =? dot) = false) by (destruct w as [|c [|]]; try done; cbn; destruct (Z.eqb_spec c dot); congruence).
  assert (T3 : Nat.eqb (length w) 2 && (default 0 (w !! 0%nat) =? dot) && (default 0 (w !! 1%nat) =? dot) = false).
  { destruct w as [|c [|d [|]]]; try done. cbn. destruct (Z.eqb_spec c dot), (Z.eqb_spec d dot); try done. by subst. }
  cbv zeta. rewrite T1, T2, T3, Hlc. destruct (decide _) as [Hbig|Hfit]; [by rewrite (proj2 (Nat.leb_le _ _) Hbig)|].
  destruct (Nat.leb_spec PATH_MAX (length (tr_text t) + tr_hidden t + length w + 2)); [lia|].
  remember (if Nat.eqb (length (tr_text t) + tr_hidden t) 1 then [] else [slash]) as sep eqn:Esep. assert (Hsep : (length sep <= 1)%nat) by (rewrite Esep; destruct (Nat.eqb (length (tr_text t) + tr_hidden t) 1); cbn [length]; lia).
  assert (E1 : contents (AppendView (if Nat.eqb (length (tr_text t) + tr_hidden t) 1 then cwd else Append cwd slash) w) = contents cwd ++ sep ++ w).
  { rewrite Esep. destruct (Nat.eqb (length (tr_text t) + tr_hidden t) 1); [rewrite (AppendView_contents (N := PATH_MAX - 1)) by (rewrite Hlc; lia); done|].
    rewrite (AppendView_contents (N := PATH_MAX - 1)); rewrite (Append_contents (N := PATH_MAX - 1)) by (rewrite Hlc; lia); [by rewrite <- app_assoc|rewrite length_app, Hlc; cbn [length]; lia]. }
  destruct Hh as [->|[r ->]]; cbn [length] in Hl; rewrite <- Hl in *; cbn [Nat.eqb].
  - eexists. split; [done|]. split; [apply Forall_app; split; [done|by apply Forall_singleton]|]. cbn [tr_rooted tr_names]. split; [|rewrite E1; split].
    + destruct Hr as [|(b & ns & -> & Hb)]; [by left|right]. by exists b, (ns ++ [w]).
    + rewrite !length_app. lia.
    + exists []. split; [|split; [done|by left]]. rewrite Ec, !app_nil_r. unfold tr_text at 2. cbn [tr_rooted tr_names]. rewrite render_snoc. fold (tr_text t). f_equal. f_equal. rewrite Esep, Nat.add_0_r.
      destruct Hlen as [_ Hlen]. case_bool_decide as Hb; destruct (Nat.eqb_spec (length (tr_text t)) 1) as [E|E]; try done; [|naive_solver].
      destruct Hr as [Hr|(b & ns & En & _)]; [naive_solver|congruence].
  - eexists. split; [done|]. split; [done|]. split; [done|]. rewrite E1. split; [rewrite !length_app; lia|].
    assert (Es : sep = [slash]) by (rewrite Esep; destruct (Nat.eqb_spec (length (tr_text t) + S (length r)) 1); [lia|done]). rewrite Es.
    exists (0 :: r ++ [slash] ++ w). split; [by rewrite Ec, <- app_assoc|]. split; [|right; by eexists]. cbn [length tr_hidden app]. rewrite length_app. cbn [length]. lia.
Qed.

Lemma update_loop_step fuel path (cwd : B) : path <> [] -> update_loop (S fuel) path cwd =
  let '(seg, next) := cut_segment path in
  let '(cwd, ok) := update_segment seg cwd in
  if (ok : bool) then update_loop fuel next cwd else Some (SetTo cwd (chars "(unknown")).
Proof. by destruct path. Qed.

Lemma placeholder_tracks cwd p lost : good_name p -> (1 < length p <= PATH_MAX - 1)%nat -> contents cwd = p -> tracks cwd (unnamed p lost).
Proof.
  intros Hg Hl Hc. split; [by apply Forall_singleton|]. split; [right; exists p, []; split; [done|lia]|]. rewrite Hc. split; [lia|]. exists []. rewrite app_nil_r. split_and!; [done|done|by left].
Qed.
Lemma good_check w : forallb (fun c => negb (c =? 0) && negb (c =? slash)) w && Nat.ltb 2 (length w) = true -> good_name w.
Proof.
  intros [H Hl%Nat.ltb_lt]%andb_true_iff. rewrite forallb_forall in H. assert (Hc : forall c, c ∈ w -> c <> 0 /\ c <> slash) by (intros c Hc%list_elem_of_In; specialize (H c Hc); lia).
  split; [split; [split|]|]; [intros ->; cbn in Hl; lia|apply Forall_forall; naive_solver| |apply Forall_forall; naive_solver]. split; [split|]; intros ->; cbn in Hl; lia.
Qed.

Lemma update_loop_ok fuel : forall path cwd t, (length path <= fuel)%nat -> no_nul path -> tracks cwd t ->
  exists cwd', update_loop fuel path cwd = Some cwd' /\ tracks cwd' (track_words t (words path)).
Proof.
  induction fuel as [|fuel IH]; intros path cwd t Hf Hn Ht.
  - destruct path; [|cbn in Hf; lia]. by exists cwd.
  - destruct (decide (path = [])) as [->|Hne]; [by exists cwd|].
    destruct (cut_segment_words path Hne) as (seg & next & Ecut & Hs & Hlt & _ & _ & Hnn & Hw). destruct (Hnn Hn) as [Hns Hnx].
    rewrite update_loop_step, Ecut, Hw by done. destruct (decide (names seg)) as [Hna|Hna]; cbn [app track_words].
    + assert (Hstep : match track_step t seg with Some t' => exists cwd', update_segment seg cwd = (cwd', true) /\ tracks cwd' t' | None => update_segment seg cwd = (cwd, false) end).
      { destruct (decide (seg = up)) as [->|Hu]; [by apply update_up_ok|]. apply update_name_ok; [done|]. split; [split; [split; [apply Hna|done]|done]|done]. }
      destruct (track_step t seg) as [t'|]; [destruct Hstep as (cwd' & -> & Ht'); apply IH; [lia|done|done]|]. rewrite Hstep. eexists. split; [done|].
      assert (Hk : (length (chars "(unknown") <= PATH_MAX - 1)%nat) by (apply Nat.leb_le; reflexivity).
      apply placeholder_tracks; [by apply good_check|split; [apply Nat.ltb_lt; reflexivity|done]|by apply (SetTo_contents (N := PATH_MAX - 1))].
    + assert (Eseg : update_segment seg cwd = (cwd, true)).
      { unfold names in Hna. unfold update_segment. destruct (decide (seg = [])) as [->|H1]; [done|]. destruct (decide (seg = [dot])) as [->|H2]; [done|]. tauto. }
      rewrite Eseg. apply IH; [lia|done|done].
Qed.

Lemma tracks_root cwd : contents cwd = [slash] -> tracks cwd at_root.
Proof. intros E. split; [constructor|]. split; [by left|]. rewrite E. split; [apply Nat.leb_le; reflexivity|]. exists []. split_and!; [done|done|by left]. Qed.

Lemma update_cwd_ok path cwd t : no_nul path -> tracks cwd t -> exists cwd', update_cwd_path path cwd = Some cwd' /\ tracks cwd' (track t path).
Proof.
  intros Hn Ht. unfold update_cwd_path, track, is_rooted. destruct path as [|c rest]; [by exists cwd|].
  cbn [head]. destruct (Z.eqb_spec c slash) as [->|Hc].
  - rewrite bool_decide_true, words_slash by done. apply Forall_cons in Hn as [_ Hn]. apply update_loop_ok; [done|done|].
    apply tracks_root, (SetTo_contents (N := PATH_MAX - 1)). apply Nat.leb_le. reflexivity.
  - rewrite bool_decide_false by congruence. by apply update_loop_ok.
Qed.

(** Changing directories one after the other, with what opening each gave. *)
Fixpoint chdirs (calls : list (bool * list Z)) (cwd : B) : option B :=
  match calls with [] => Some cwd | (opened, p) :: calls => '(_, cwd) ← chdir opened p cwd; chdirs calls cwd end.

Lemma chdir_tracks opened path cwd t : no_nul path -> tracks cwd t ->
  exists cwd', chdir opened path cwd = Some (if opened then None else Some of_open, cwd') /\ tracks cwd' (if opened then track t path else t).
Proof.
  intros Hn Ht. unfold chdir. destruct opened; cbn [negb]; [|by exists cwd]. destruct (update_cwd_ok path cwd t Hn Ht) as (cwd' & -> & Ht'). by exists cwd'.
Qed.
Lemma chdirs_ok calls : forall cwd t, Forall (fun c => no_nul c.2) calls -> tracks cwd t ->
  exists cwd', chdirs calls cwd = Some cwd' /\ tracks cwd' (foldl (fun t c => if (c.1 : bool) then track t c.2 else t) t calls).
Proof.
  induction calls as [|[opened p] calls IH]; intros cwd t Hn Ht; cbn [chdirs foldl fst snd] in *; [by exists cwd|].
  apply Forall_cons in Hn as [Hp Hn]. destruct (chdir_tracks opened p cwd t Hp Ht) as (cwd1 & -> & Ht1). cbn [mbind option_bind]. by apply (IH cwd1).
Qed.

(** Nothing is lost as long as no name comes after a cut and every name fits. *)
Lemma track_step_lost t t' w : track_step t w = Some t' -> tr_lost t' = false -> tr_lost t = false.
Proof. unfold track_step. repeat case_decide; repeat case_match; intros [= <-]; done. Qed.
Lemma track_words_lost ws : forall t, tr_lost (track_words t ws) = false -> tr_lost t = false.
Proof.
  induction ws as [|w ws IH]; intros t H; cbn in H; [done|]. destruct (track_step t w) as [t'|] eqn:E; [|done]. eapply track_step_lost; [exact E|]. by apply IH.
Qed.
Lemma track_words_lexical ws : forall t st, tr_lost (track_words t ws) = false -> tr_rooted t = true -> tr_names t = st ->
  tr_rooted (track_words t ws) = true /\ tr_names (track_words t ws) = (resolve true 0 st ws).2.
Proof.
  induction ws as [|w ws IH]; intros t st Hl Hr Hst; cbn [track_words resolve] in *; [done|].
  destruct (track_step t w) as [t'|] eqn:E; [|done]. assert (Hl' := track_words_lost _ _ Hl). unfold track_step in E. rewrite Hr in E. destruct (decide (w = up)) as [->|Hu].
  - cbn [negb andb] in E. injection E as <-. subst st. destruct (tr_names t) as [|v st]; by apply IH.
  - destruct (decide _) as [|_]; [done|]. destruct (Nat.eqb (tr_hidden t) 0); injection E as <-; [|done]. apply IH; [done|done|]. cbn [tr_names]. by rewrite Hst.
Qed.
Lemma track_lexical t path st : (tr_lost t = false -> tr_rooted t = true /\ tr_names t = st) -> tr_lost (track t path) = false ->
  tr_rooted (track t path) = true /\ tr_names (track t path) = lexical st path.
Proof.
  intros Ht Hl. unfold track, lexical in *. destruct (is_rooted path); [by apply track_words_lexical|]. destruct (Ht (track_words_lost _ _ Hl)). by apply track_words_lexical.
Qed.
Lemma track_all_lexical calls : tr_lost (track_all calls) = false -> tr_rooted (track_all calls) = true /\ tr_names (track_all calls) = lexical_all calls.
Proof.
  unfold track_all, lexical_all. assert (H : forall t st, (tr_lost t = false -> tr_rooted t = true /\ tr_names t = st) ->
    let t' := foldl (fun t c => if (c.1 : bool) then track t c.2 else t) t calls in tr_lost t' = false -> tr_rooted t' = true /\ tr_names t' = foldl (fun st c => if (c.1 : bool) then lexical st c.2 else st) st calls).
  { induction calls as [|[opened p] calls IH]; intros t st Ht; [done|]. cbn [foldl fst snd]. apply IH. destruct opened; [|done]. by apply track_lexical. }
  by apply H.
Qed.

(** getcwd, with and without a buffer of the caller. *)
Lemma getcwd_ok cwd t : tracks cwd t ->
  getcwd None cwd = inl (tr_text t ++ [0]) /\ getcwd (Some 0%nat) cwd = inr EINVAL /\
  forall n, (0 < n)%nat -> if decide (length (tr_text t) + tr_hidden t + 1 <= n)%nat then exists out, getcwd (Some n) cwd = inl out /\ c_str out = tr_text t else getcwd (Some n) cwd = inr ERANGE.
Proof.
  intros Ht. assert (Hl := tracks_length _ _ Ht). assert (Hc := tracks_c_str _ _ Ht). destruct Ht as (Hg & _ & Hmax & hidden & Ec & _ & Hh). unfold getcwd. split_and!; [|done|].
  - rewrite Hc. destruct (Nat.leb_spec (length (contents cwd) + 1) (PATH_MAX - 1 + 1)); [done|lia].
  - intros [|n] Hn; [lia|]. rewrite Hl. destruct (decide _) as [Hd|Hd]; destruct (Nat.leb_spec (length (tr_text t) + tr_hidden t + 1) (S n)); try lia; [|done].
    eexists. split; [done|]. rewrite Ec. assert (Hz := text_no_nul _ Hg). destruct Hh as [->|[r ->]]; [rewrite app_nil_r; by apply c_str_cut|]. rewrite <- app_assoc. by apply c_str_cut.
Qed.

(** C21. The name of the current directory after any sequence of chdir calls, of any length and
    whether or not each could open its directory: getcwd gives the name that the calls were
    tracked by, unless the buffer of the caller is too short for it and for what is behind the
    NUL.  That name is the path to where the calls lead unless a name was lost.  Names are
    lost after a step up that leaves a directory, until a path starts at the root; and a name
    that does not fit, together with what is behind the NUL, makes the whole name unknown. *)
Theorem getcwd_correct (cwd : B) calls : contents cwd = [slash] -> Forall (fun c => no_nul c.2) calls ->
  let t := track_all calls in
  exists cwd', chdirs calls cwd = Some cwd' /\
    getcwd None cwd' = inl (tr_text t ++ [0]) /\ getcwd (Some 0%nat) cwd' = inr EINVAL /\
    (forall n, (0 < n)%nat -> if decide (length (tr_text t) + tr_hidden t + 1 <= n)%nat then exists out, getcwd (Some n) cwd' = inl out /\ c_str out = tr_text t
                              else getcwd (Some n) cwd' = inr ERANGE) /\
    (tr_lost t = false -> tr_text t = rooted_path (lexical_all calls)).
Proof.
  intros Hc Hn t. destruct (chdirs_ok calls cwd at_root Hn (tracks_root _ Hc)) as (cwd' & E & Ht). fold (track_all calls) in Ht. fold t in Ht. destruct (getcwd_ok cwd' t Ht) as (G1 & G2 & G3).
  exists cwd'. split_and!; [done..|]. intros Hl. destruct (track_all_lexical calls Hl) as [H1 H2]. unfold tr_text. fold t in H1, H2. by rewrite H1, H2.
Qed.
End Correct.

(** A buffer that cuts off what does not fit, with characters that can be overwritten. *)
Module CuttingMutable.
#[export] Instance mutable : MutableBuffer (list Z) := {| StoreChar b i c := <[i := c]> b; RemovePrefix b n := drop n b |}.
#[export] Instance mutable_laws : @MutableBufferLaws (list Z) CuttingBuffer.buffer mutable.
Proof. split; cbn; intros; [done|by apply list_insert_ge|done]. Qed.
End CuttingMutable.

(** A path down to the root again; one whose last name is lost; a directory that cannot be
    opened; and enough steps down and up to make the name of the root unknown. *)
Lemma getcwd_correct_witness :
  (let calls := [(true, chars "/a//b/./c"); (true, chars "../.."); (true, chars "/"); (true, chars "x/y"); (false, chars "w"); (true, chars "z/")] in
   exists cwd', @chdirs (list Z) CuttingBuffer.buffer CuttingMutable.mutable calls [slash] = Some cwd' /\
     @getcwd (list Z) CuttingBuffer.buffer None cwd' = inl (chars "/x/y/z" ++ [0]) /\ tr_lost (track_all calls) = false) /\
  (let calls := [(true, chars "/a/b"); (true, chars ".."); (true, chars "c")] in
   exists cwd', @chdirs (list Z) CuttingBuffer.buffer CuttingMutable.mutable calls [slash] = Some cwd' /\
     @getcwd (list Z) CuttingBuffer.buffer None cwd' = inl (chars "/a" ++ [0]) /\ rooted_path (lexical_all calls) = chars "/a/c") /\
  (let calls := replicate 2100 (true, chars "a/..") in
   exists cwd', @chdirs (list Z) CuttingBuffer.buffer CuttingMutable.mutable calls [slash] = Some cwd' /\
     @getcwd (list Z) CuttingBuffer.buffer None cwd' = inl (chars "(unknown" ++ [0]) /\ rooted_path (lexical_all calls) = chars "/").
Proof.
  assert (Hn : forall calls, forallb (fun c : bool * list Z => forallb (fun c => negb (c =? 0)) c.2) calls = true -> Forall (fun c => no_nul c.2) calls).
  { intros calls Hp. apply Forall_forall. intros p Hin. apply Forall_forall. intros c Hc ->. rewrite forallb_forall in Hp. specialize (Hp p ltac:(by apply list_elem_of_In)).
    rewrite forallb_forall in Hp. by specialize (Hp 0 ltac:(by apply list_elem_of_In)). }
  split_and!; intros calls;
    destruct (@getcwd_correct (list Z) CuttingBuffer.buffer CuttingBuffer.buffer_laws CuttingMutable.mutable CuttingMutable.mutable_laws [slash] calls eq_refl
      ltac:(apply Hn; vm_compute; reflexivity)) as (cwd' & H1 & H2 & _ & _ & _); exists cwd'; (split; [exact H1|]); (split; [rewrite H2; vm_compute; reflexivity|vm_compute; reflexivity]).
Defined.
