(* ===== verification/CwdPaths.v ===== *)
(** * Paths of requests and of a new root: properties

    The names that chroot and realpath give, and the directory and the path that the calls
    that take a path send their requests to. *)

From S2P Require Import Prelude CleanPath CleanPathTheorems Cwd CwdTheorems.

(** ** Joining and splitting *)

Lemma split_slash a b : split (a ++ slash :: b) = split a ++ split b.
Proof.
  induction a as [|c a IH]; [done|]. cbn [app split]. rewrite IH. destruct (c =? slash); [done|]. pose proof (split_nonempty a). by destruct (split a).
Qed.
Lemma words_slash_app a b : words (a ++ slash :: b) = words a ++ words b.
Proof. unfold words. by rewrite split_slash, filter_app. Qed.
Lemma join_app_slash ws vs : ws <> [] -> vs <> [] -> join (ws ++ vs) = join ws ++ slash :: join vs.
Proof.
  intros Hw Hv. induction ws as [|w ws IH]; [done|]. destruct (decide (ws = [])) as [->|Hn]; [cbn [app]; by rewrite join_cons|].
  cbn [app]. rewrite !join_cons, IH, <- app_assoc by (done || by destruct ws). done.
Qed.

Lemma words_rooted_path st : Forall proper st -> words (rooted_path st) = st.
Proof.
  intros Hst. unfold rooted_path, render. cbn [root_prefix app fst snd]. rewrite words_slash. by apply (words_join st), (proper_elems 0).
Qed.

(** A path from the current directory. *)
Lemma resolve_from st ws : Forall proper st -> resolve true 0 [] (st ++ ws) = resolve true 0 st ws.
Proof.
  intros Hst. rewrite resolve_app, (resolve_names true 0 st); [done|]. eapply Forall_impl; [exact Hst|]. unfold proper. tauto.
Qed.
Lemma clean_rooted_path s : is_rooted s = true -> clean s = rooted_path (resolve true 0 [] (words s)).2.
Proof.
  intros E. unfold clean. rewrite E. destruct (resolve_proper true (words s) (words_elements s) 0 []) as [_ Hu]; [constructor|done|].
  destruct (resolve true 0 [] (words s)) as [ups st]. cbn in Hu. rewrite (Hu eq_refl). by rewrite decide_False.
Qed.
Lemma lexical_proper st path : Forall proper st -> Forall proper (lexical st path).
Proof. intros Hst. unfold lexical. apply (resolve_proper true); [apply words_elements| |done]. destruct (is_rooted path); [constructor|done]. Qed.

Lemma clean_lexical st path : Forall proper st -> clean (if is_rooted path then path else rooted_path st ++ slash :: path) = rooted_path (lexical st path).
Proof.
  intros Hst. unfold lexical. destruct (is_rooted path) eqn:E; [by apply clean_rooted_path|]. rewrite clean_rooted_path by done.
  by rewrite words_slash_app, words_rooted_path, resolve_from.
Qed.

Lemma words_no_nul s : no_nul s -> Forall no_nul (words s).
Proof.
  intros H. assert (Hs : Forall no_nul (split s)); [|apply Forall_forall; intros w [_ Hw]%list_elem_of_filter; rewrite Forall_forall in Hs; by apply Hs].
  induction H as [|c s Hc Hs IH]; [repeat constructor|]. cbn [split]. destruct (c =? slash); [by constructor; [constructor|]|].
  destruct (split s) as [|w ws]; [by repeat constructor|]. inversion_clear IH. constructor; [by constructor|done].
Qed.
Lemma resolve_Forall (P : list Z -> Prop) rooted ws : Forall P ws -> forall ups st, Forall P st -> Forall P (resolve rooted ups st ws).2.
Proof.
  induction 1 as [|w ws Hw _ IH]; intros ups st Hst; cbn [resolve]; [done|]. destruct (decide (w = up)); [|apply IH, Forall_app; split; [done|by apply Forall_singleton]].
  destruct st as [|v st]; apply IH; [done|]. apply Forall_forall. intros x Hx. rewrite Forall_forall in Hst. apply Hst. destruct (exists_last (l := v :: st)) as (l & y & E); [done|].
  rewrite E in *. rewrite removelast_last in Hx. by apply elem_of_app; left.
Qed.
Lemma lexical_good st path : Forall good_name st -> no_nul path -> Forall good_name (lexical st path).
Proof.
  intros Hg Hn. assert (Hp := lexical_proper st path (good_proper _ Hg)). assert (Hz : Forall no_nul (lexical st path)).
  { apply resolve_Forall; [by apply words_no_nul|]. destruct (is_rooted path); [constructor|]. eapply Forall_impl; [exact Hg|]. by intros ? []. }
  apply Forall_and. by split.
Qed.

Lemma join_first es : es <> [] -> Forall element es -> exists c s, join es = c :: s /\ c <> slash.
Proof.
  intros Hn He. destruct es as [|w es]; [done|]. apply Forall_cons in He as [Hw _]. assert (H := join_head es w Hw). destruct Hw as [Hw Hs]. destruct w as [|c w]; [done|].
  destruct (join ((c :: w) :: es)) as [|d s]; [done|]. injection H as ->. exists c, s. split; [done|]. by inversion_clear Hs.
Qed.

(** ** Names in a new root *)

(** The names of a directory from a root above it; neither a directory elsewhere nor the
    new root itself has one. *)
Definition name_in (root st : list (list Z)) : option (list (list Z)) :=
  if bool_decide (root = []) then Some st
  else if bool_decide (root `prefix_of` st /\ root <> st) then Some (drop (length root) st)
  else None.

(** Where a path leads from a directory that is known by [t]: whether from the root, and the
    elements.  What is behind a NUL hides the path of the call too. *)
Definition chroot_target (t : tracked) (path : list Z) : bool * list (list Z) :=
  let rooted := is_rooted path || tr_rooted t in
  let ws := if is_rooted path then words path else if Nat.eqb (tr_hidden t) 0 then tr_names t ++ words path else tr_names t in
  let r := resolve rooted 0 [] ws in (rooted, elems r.1 r.2).
Definition target_text (r : bool * list (list Z)) : list Z := let s := root_prefix r.1 ++ join r.2 in if bool_decide (s = []) then [dot] else s.

(** Whether the path, with the name of the current directory before it and what is behind
    its NUL, fits a buffer. *)
Definition path_fits (t : tracked) (path : list Z) : bool :=
  if is_rooted path then Nat.leb (length path) (PATH_MAX - 1) else Nat.leb (length (tr_text t) + tr_hidden t + length path + 2) PATH_MAX.

(** The name of the current directory when the target becomes the root. *)
Definition track_chroot (t : tracked) (path : list Z) : tracked :=
  let r := chroot_target t path in
  let lost := tr_lost t || negb (is_rooted path) && negb (Nat.eqb (tr_hidden t) 0) in
  if Nat.leb (length (target_text r)) 1 then {| tr_rooted := tr_rooted t; tr_names := tr_names t; tr_hidden := tr_hidden t; tr_lost := lost |}
  else if bool_decide (r.1 = tr_rooted t /\ r.2 `prefix_of` tr_names t /\ r.2 <> tr_names t)
    then {| tr_rooted := true; tr_names := drop (length r.2) (tr_names t); tr_hidden := tr_hidden t; tr_lost := lost |}
  else unnamed kUnreachable lost.

(** Calls, with what opening the directory gave, and their results. *)
Inductive dir_call := Chdir (opened : bool) (path : list Z) | Chroot (opened : bool) (path : list Z).
Definition call_path (c : dir_call) : list Z := match c with Chdir _ path | Chroot _ path => path end.

Definition track_call (c : dir_call) (t : tracked) : option cwd_errno * tracked :=
  match c with
  | Chdir opened path => if opened then (None, track t path) else (Some of_open, t)
  | Chroot opened path =>
      if negb (path_fits t path) then (Some ENAMETOOLONG, t) else if opened then (None, track_chroot t path) else (Some of_open, t)
  end.
Fixpoint track_calls (cs : list dir_call) (t : tracked) : list (option cwd_errno) * tracked :=
  match cs with [] => ([], t) | c :: cs => let '(r, t) := track_call c t in let '(rs, t) := track_calls cs t in (r :: rs, t) end.

(** The names of the current directory from the current root after the calls that succeed, as
    far as they determine them. *)
Definition lexical_call (c : dir_call) (r : option cwd_errno) (o : option (list (list Z))) : option (list (list Z)) :=
  match r, c with
  | Some _, _ => o
  | None, Chdir _ path => if is_rooted path then Some (lexical [] path) else st ← o; Some (lexical st path)
  | None, Chroot _ path => st ← o; name_in (lexical st path) st
  end.
Fixpoint lexical_calls (cs : list dir_call) (rs : list (option cwd_errno)) (o : option (list (list Z))) : option (list (list Z)) :=
  match cs, rs with c :: cs, r :: rs => lexical_calls cs rs (lexical_call c r o) | _, _ => o end.

(** The text of a root is that of a directory above another. *)
Lemma render_prefix b root st : root <> [] -> Forall element root -> Forall element st ->
  (render b (0%nat, root) `prefix_of` render b (0%nat, st) /\ render b (0%nat, st) !! length (render b (0%nat, root)) = Some slash) <-> (root `prefix_of` st /\ root <> st).
Proof.
  intros Hr He Hs. unfold render. cbn [fst snd elems replicate app]. rewrite length_app, lookup_app_r, Nat.add_sub' by lia.
  assert (Hpre : root_prefix b ++ join root `prefix_of` root_prefix b ++ join st <-> join root `prefix_of` join st) by (split; [apply prefix_app_inv|apply prefix_app]). rewrite Hpre. clear Hpre. split.
  - intros [[r E] Hl]. destruct r as [|c r]; [rewrite app_nil_r in E; rewrite E, lookup_ge_None_2 in Hl by done; done|].
    rewrite E, list_lookup_middle in Hl by done. injection Hl as ->.
    assert (Hst : st = root ++ split r).
    { destruct (decide (st = [])) as [->|Hn]; [by destruct (join root)|]. rewrite <- (split_join st Hn), E, split_slash; [|by eapply Forall_impl; [exact Hs|intros ? []]].
      rewrite split_join; [done..|]. by eapply Forall_impl; [exact He|intros ? []]. }
    split; [by exists (split r)|]. intros E2. rewrite Hst in E2. symmetry in E2. apply (f_equal length) in E2. rewrite length_app in E2. pose proof (split_nonempty r). destruct (split r); [done|cbn in E2; lia].
  - intros [[r ->] Hn]. assert (Hr' : r <> []) by (intros ->; by rewrite app_nil_r in Hn). rewrite join_app_slash by done. split; [by eexists|]. by apply list_lookup_middle.
Qed.
Lemma render_drop b root r : root <> [] -> r <> [] -> drop (length (render b (0%nat, root))) (render b (0%nat, root ++ r)) = rooted_path r.
Proof.
  intros Hr Hn. unfold render. cbn [fst snd elems replicate app]. rewrite join_app_slash by done. by rewrite app_assoc, drop_app_length.
Qed.

(** A prefix without a NUL does not reach behind one. *)
Lemma prefix_visible (s text hidden : list Z) : no_nul s -> hidden = [] \/ (exists r, hidden = 0 :: r) ->
  (s `prefix_of` text ++ hidden /\ (text ++ hidden) !! length s = Some slash) <-> (s `prefix_of` text /\ text !! length s = Some slash).
Proof.
  intros Hs Hh. split; [|intros [[r ->] H]; split; [exists (r ++ hidden); by rewrite app_assoc|by apply lookup_app_l_Some]].
  intros [Hp Hl]. assert (Hlt : (length s < length text)%nat).
  { destruct (Nat.lt_ge_cases (length s) (length text)) as [|Hge]; [done|exfalso]. rewrite lookup_app_r in Hl by done. destruct Hh as [->|[r ->]]; [done|].
    destruct (decide (length s = length text)) as [E|E]; [by rewrite E, Nat.sub_diag in Hl|]. assert (Hz : s !! length text = Some 0).
    { destruct (lookup_lt_is_Some_2 s (length text)) as [c Ec]; [lia|]. assert (H := prefix_lookup_Some _ _ _ _ Ec Hp). rewrite list_lookup_middle in H by done. by simplify_eq. }
    unfold no_nul in Hs. rewrite Forall_forall in Hs. apply (Hs 0); [by eapply list_elem_of_lookup_2|done]. }
  rewrite lookup_app_l in Hl by done. split; [|done]. destruct Hp as [r E]. exists (take (length text - length s) r).
  transitivity (take (length text) (text ++ hidden)); [by rewrite take_app_length|]. rewrite E, take_app, take_ge by lia. done.
Qed.

Section Correct.
Context {B : Type} `{SB : !StringBuffer B} `{!StringBufferLaws (PATH_MAX - 1) B} `{MB : !MutableBuffer B} `{!MutableBufferLaws B}.
Context (empty : B) (empty_contents : contents empty = []).

Lemma CleanPath_fits s : no_nul s -> (length s <= PATH_MAX - 1)%nat -> exists out, CleanPath s empty false = Some (true, out, names_dir s) /\ contents out = clean s.
Proof. intros Hn Hl. pose proof (CleanPath_ok s empty false Hn empty_contents) as H. by rewrite decide_True in H. Qed.
Lemma CleanPath_long s : no_nul s -> ~ (length s <= PATH_MAX - 1)%nat -> exists out d, CleanPath s empty false = Some (false, out, d).
Proof. intros Hn Hl. pose proof (CleanPath_ok s empty false Hn empty_contents) as H. by rewrite decide_False in H. Qed.

(** The current directory, a slash and a path. *)
Lemma relative_contents cwd st path : contents cwd = rooted_path st -> (length (rooted_path st) + length path + 2 <= PATH_MAX)%nat ->
  contents (AppendView (Append (AppendView empty (contents cwd)) slash) path) = rooted_path st ++ slash :: path.
Proof.
  intros Hc Hfit. assert (E1 : contents (AppendView empty (contents cwd)) = rooted_path st) by (rewrite (AppendView_contents (N := PATH_MAX - 1)); rewrite empty_contents, Hc; [done|cbn [length]; lia]).
  assert (E2 : contents (Append (AppendView empty (contents cwd)) slash) = rooted_path st ++ [slash]) by (rewrite (Append_contents (N := PATH_MAX - 1)); rewrite E1; [done|lia]).
  rewrite (AppendView_contents (N := PATH_MAX - 1)); rewrite E2; [by rewrite <- app_assoc|]. rewrite length_app. cbn [length]. lia.
Qed.
Lemma no_nul_relative st path : Forall good_name st -> no_nul path -> no_nul (rooted_path st ++ slash :: path).
Proof. intros Hg Hn. apply Forall_app. split; [by apply rooted_path_no_nul|]. by constructor. Qed.

(** The texts of names. *)
Lemma words_text cwd t : tracks cwd t -> words (tr_text t) = tr_names t /\ is_rooted (tr_text t) = tr_rooted t.
Proof.
  intros (Hg & Hr & _). assert (Hp := good_proper _ Hg). assert (Hj := words_join _ (proper_elems 0 _ Hp)). unfold tr_text, render. cbn [fst snd elems replicate app] in *.
  destruct Hr as [->|(b & ns & En & Hb)]; [cbn [root_prefix app]; by rewrite words_slash, Hj|]. destruct (tr_rooted t); cbn [root_prefix app]; [by rewrite words_slash, Hj|]. rewrite Hj. split; [done|].
  rewrite En in *. apply Forall_cons in Hp as [[Hb0 _] _]. unfold is_rooted. rewrite (join_head ns b Hb0). destruct Hb0 as [Hb1 Hb2]. destruct b as [|c b]; [done|]. apply bool_decide_false. inversion_clear Hb2. by intros [= ->].
Qed.
Lemma words_relative cwd t path : tracks cwd t -> words (tr_text t ++ slash :: path) = tr_names t ++ words path /\ is_rooted (tr_text t ++ slash :: path) = tr_rooted t.
Proof.
  intros Ht. destruct (words_text _ _ Ht) as [Hw Hr]. destruct (text_length _ _ Ht) as [Hl _]. rewrite words_slash_app, Hw. split; [done|]. rewrite <- Hr. by destruct (tr_text t); [cbn in Hl; lia|].
Qed.

(** The path of the request for the new root. *)
Lemma target_clean cwd t path : tracks cwd t ->
  clean (if is_rooted path then path else if Nat.eqb (tr_hidden t) 0 then tr_text t ++ slash :: path else tr_text t) = target_text (chroot_target t path).
Proof.
  intros Ht. destruct (words_text _ _ Ht) as [W1 R1]. destruct (words_relative _ _ path Ht) as [W2 R2]. unfold clean, chroot_target, target_text, render. destruct (is_rooted path) eqn:E; cbn [orb fst snd].
  - rewrite E. case_bool_decide; by case_decide.
  - destruct (Nat.eqb (tr_hidden t) 0); rewrite ?W1, ?R1, ?W2, ?R2; case_bool_decide; by case_decide.
Qed.

Lemma resolve_path_ok cwd t path : tracks cwd t -> no_nul path ->
  if path_fits t path then exists out, resolve_path empty path cwd = Some (true, out) /\ contents out = target_text (chroot_target t path)
  else exists out, resolve_path empty path cwd = Some (false, out).
Proof.
  intros Ht Hn. unfold resolve_path, path_fits. fold (is_rooted path). rewrite <- (target_clean cwd) by done. destruct (is_rooted path).
  - destruct (Nat.leb_spec (length path) (PATH_MAX - 1)) as [Hf|Hf].
    + destruct (CleanPath_fits path Hn Hf) as (out & -> & Ho). by exists out.
    + destruct (CleanPath_long path Hn ltac:(lia)) as (out & d & ->). by exists out.
  - assert (Hl := tracks_length _ _ Ht). destruct (words_text _ _ Ht) as [Hwt _]. assert (Hz := text_no_nul _ (proj1 Ht)). destruct Ht as (Hg & Hr & Hmax & hidden & Ec & Hh & Hhid).
    assert (E1 : contents (AppendView empty (contents cwd)) = contents cwd) by (rewrite (AppendView_contents (N := PATH_MAX - 1)); rewrite empty_contents; [done|cbn [length]; lia]).
    rewrite E1, Hl. destruct (Nat.leb_spec (length (tr_text t) + tr_hidden t + length path + 2) PATH_MAX) as [Hf|Hf].
    2: { destruct (Nat.ltb_spec PATH_MAX (length (tr_text t) + tr_hidden t + length path + 2)); [by eexists|lia]. }
    destruct (Nat.ltb_spec PATH_MAX (length (tr_text t) + tr_hidden t + length path + 2)); [lia|].
    assert (E2 : contents (Append (AppendView empty (contents cwd)) slash) = contents cwd ++ [slash]) by (rewrite (Append_contents (N := PATH_MAX - 1)); rewrite E1; [done|lia]).
    assert (E3 : contents (AppendView (Append (AppendView empty (contents cwd)) slash) path) = contents cwd ++ slash :: path).
    { rewrite (AppendView_contents (N := PATH_MAX - 1)); rewrite E2; [by rewrite <- app_assoc|]. rewrite length_app. cbn [length]. lia. }
    rewrite E3, Ec. destruct Hhid as [->|[r ->]]; cbn [length] in Hh; rewrite <- Hh in *; cbn [Nat.eqb].
    + rewrite app_nil_r, c_str_id by (apply Forall_app; split; [done|by constructor]).
      destruct (CleanPath_fits (tr_text t ++ slash :: path)) as (out & -> & Ho); [apply Forall_app; split; [done|by constructor]|rewrite length_app; cbn [length]; lia|]. by exists out.
    + rewrite <- app_assoc. cbn [app]. rewrite c_str_cut by done. destruct (CleanPath_fits (tr_text t)) as (out & -> & Ho); [done|lia|]. by exists out.
Qed.

(** The elements of the target. *)
Lemma target_good cwd t path : tracks cwd t -> no_nul path -> Forall (fun w => element w /\ no_nul w) (chroot_target t path).2.
Proof.
  intros (Hg & _) Hn. unfold chroot_target. set (ws := if is_rooted path then words path else _).
  assert (Hw : Forall (fun w => element w /\ names w) ws /\ Forall no_nul ws).
  { assert (H1 := words_elements path). assert (H2 := words_no_nul _ Hn). assert (H3 : Forall (fun w => element w /\ names w) (tr_names t)) by (eapply Forall_impl; [exact Hg|]; unfold good_name, proper; tauto).
    assert (H4 : Forall no_nul (tr_names t)) by (eapply Forall_impl; [exact Hg|]; by intros ? []). unfold ws. destruct (is_rooted path); [done|]. destruct (Nat.eqb _ _); [|done]. split; by apply Forall_app. }
  destruct Hw as [Hw1 Hw2]. clearbody ws. cbv zeta. cbn [snd]. destruct (resolve_proper (is_rooted path || tr_rooted t) ws Hw1 0 []) as [Hp _]; [constructor|done|].
  assert (Hz := resolve_Forall no_nul (is_rooted path || tr_rooted t) ws Hw2 0 [] ltac:(constructor)). apply Forall_app. split; [apply Forall_replicate; split; [apply element_up|by repeat constructor]|].
  apply Forall_and. split; [by apply proper_element|done].
Qed.

(** The root of a long enough name is above the directory exactly if its text begins it. *)
Lemma target_prefix cwd t path hidden : tracks cwd t -> no_nul path -> hidden = [] \/ (exists r, hidden = 0 :: r) -> let r := chroot_target t path in (1 < length (target_text r))%nat ->
  r.2 <> [] /\ target_text r = render r.1 (0%nat, r.2) /\
  ((target_text r `prefix_of` tr_text t ++ hidden /\ (tr_text t ++ hidden) !! length (target_text r) = Some slash) <-> (r.1 = tr_rooted t /\ r.2 `prefix_of` tr_names t /\ r.2 <> tr_names t)).
Proof.
  intros Ht Hn Hh r Hl. assert (Hg := target_good _ _ _ Ht Hn). fold r in Hg. clearbody r. destruct r as [b es]. cbn [fst snd] in *. assert (He : Forall element es) by (eapply Forall_impl; [exact Hg|]; by intros ? []).
  assert (Hne : es <> []) by (intros ->; destruct b; cbn in Hl; lia). assert (Et : target_text (b, es) = render b (0%nat, es)).
  { unfold target_text, render. cbn [fst snd elems replicate app]. rewrite bool_decide_false; [done|]. destruct (join_first es Hne He) as (c & s & -> & _). by destruct b. }
  split; [done|]. split; [done|]. rewrite Et. assert (Hz : no_nul (render b (0%nat, es))).
  { unfold render. apply Forall_app. split; [destruct b; by repeat constructor|]. cbn [fst snd elems replicate app]. apply join_no_nul. eapply Forall_impl; [exact Hg|]. by intros ? []. }
  rewrite (prefix_visible _ _ _ Hz Hh). destruct (words_text _ _ Ht) as [_ Hrt]. destruct Ht as (Hgt & _). assert (Hst := proper_element _ (good_proper _ Hgt)).
  destruct (decide (b = tr_rooted t)) as [->|Hb]; [rewrite (render_prefix _ _ _ Hne He Hst); tauto|]. split; [|by intros [? _]]. intros [[x Ex] _]. exfalso. apply Hb. rewrite <- Hrt, Ex. clear -Hne He.
  destruct (join_first es Hne He) as (c & s & Ej & Hc). unfold render, is_rooted. cbn [fst snd elems replicate app]. rewrite Ej. destruct b; cbn; [by rewrite bool_decide_true|]. rewrite bool_decide_false by congruence. done.
Qed.

Lemma chroot_cwd_ok root_path cwd t path : tracks cwd t -> no_nul path -> contents root_path = target_text (chroot_target t path) -> tracks (chroot_cwd root_path cwd) (track_chroot t path).
Proof.
  intros Ht Hn Hr. assert (Ht0 := Ht). unfold chroot_cwd, track_chroot. rewrite Hr. cbv zeta. destruct Ht0 as (Hg & Hro & Hmax & hidden & Ec & Hh & Hhid).
  destruct (Nat.ltb_spec 1 (length (target_text (chroot_target t path)))) as [Hl|Hl].
  - destruct (Nat.leb_spec (length (target_text (chroot_target t path))) 1); [lia|]. destruct (target_prefix cwd t path hidden Ht Hn Hhid Hl) as (Hne & Et & Hpre).
    assert (Hdef : forall o : option Z, (default 0 o =? slash) = bool_decide (o = Some slash)).
    { intros [c|]; cbn; [|done]. destruct (Z.eqb_spec c slash) as [->|]; [by rewrite bool_decide_true|]. by rewrite bool_decide_false by congruence. }
    rewrite Hdef, <- bool_decide_and, Ec, (bool_decide_ext _ _ Hpre). destruct (chroot_target t path) as [b es]. cbn [fst snd] in *. case_bool_decide as Hp.
    + destruct Hp as (-> & [r Er] & Hes). rewrite Er in *. assert (Hr' : r <> []) by (intros ->; by rewrite app_nil_r in Hes). rewrite drop_app_length.
      assert (Hlt : (length (target_text (tr_rooted t, es)) <= length (tr_text t))%nat).
      { rewrite Et. unfold tr_text. rewrite Er. unfold render. cbn [fst snd elems replicate app]. rewrite join_app_slash, !length_app by done. lia. }
      assert (E1 : contents (RemovePrefix cwd (length (target_text (tr_rooted t, es)))) = rooted_path r ++ hidden).
      { rewrite RemovePrefix_contents by (rewrite Ec, length_app; lia). rewrite Ec, drop_app_le by done. f_equal. rewrite Et. unfold tr_text. rewrite Er. by apply render_drop. }
      apply Forall_app in Hg as [_ Hg]. split; [done|]. split; [by left|]. rewrite E1. split; [|by exists hidden]. rewrite <- E1, RemovePrefix_contents by (rewrite Ec, length_app; lia). rewrite length_drop. lia.
    + apply placeholder_tracks; [by apply good_check|split; apply Nat.leb_le; reflexivity|]. apply (SetTo_contents (N := PATH_MAX - 1)). apply Nat.leb_le. reflexivity.
  - destruct (Nat.leb_spec (length (target_text (chroot_target t path))) 1); [|lia]. split; [done|]. split; [done|]. split; [done|]. by exists hidden.
Qed.

(** One call, and any sequence. *)
Definition do_dir_call (c : dir_call) (cwd : B) : option (option cwd_errno * B) :=
  match c with Chdir opened path => chdir opened path cwd | Chroot opened path => chroot empty opened path cwd end.
Fixpoint do_dir_calls (cs : list dir_call) (cwd : B) : option (list (option cwd_errno) * B) :=
  match cs with [] => Some ([], cwd) | c :: cs => '(r, cwd) ← do_dir_call c cwd; '(rs, cwd) ← do_dir_calls cs cwd; Some (r :: rs, cwd) end.

Lemma dir_call_ok c cwd t : tracks cwd t -> no_nul (call_path c) -> exists cwd', do_dir_call c cwd = Some ((track_call c t).1, cwd') /\ tracks cwd' (track_call c t).2.
Proof.
  intros Ht Hn. destruct c as [opened path|opened path]; cbn [do_dir_call track_call call_path] in *.
  - destruct (chdir_tracks opened path cwd t Hn Ht) as (cwd' & -> & Ht'). exists cwd'. by destruct opened.
  - assert (H := resolve_path_ok cwd t path Ht Hn). unfold chroot. destruct (path_fits t path); [destruct H as (out & -> & Ho)|destruct H as (out & ->); by exists cwd].
    cbn [mbind option_bind negb]. destruct opened; cbn [negb]; [|by exists cwd]. eexists. split; [done|]. by apply chroot_cwd_ok.
Qed.
Lemma dir_calls_ok cs : forall cwd t, tracks cwd t -> Forall (fun c => no_nul (call_path c)) cs -> exists cwd', do_dir_calls cs cwd = Some ((track_calls cs t).1, cwd') /\ tracks cwd' (track_calls cs t).2.
Proof.
  induction cs as [|c cs IH]; intros cwd t Ht Hn; cbn [do_dir_calls track_calls]; [by exists cwd|]. apply Forall_cons in Hn as [Hc Hn]. destruct (dir_call_ok c cwd t Ht Hc) as (cwd1 & -> & Ht1).
  cbn [mbind option_bind]. destruct (track_call c t) as [r t1]. cbn [fst snd] in *. destruct (IH cwd1 t1 Ht1 Hn) as (cwd2 & -> & Ht2). cbn [mbind option_bind]. destruct (track_calls cs t1) as [rs t2]. by exists cwd2.
Qed.

(** What is known of the directory, as long as nothing was lost. *)
Definition known (t : tracked) (o : option (list (list Z))) : Prop := tr_lost t = false -> forall st, o = Some st -> tr_rooted t = true /\ tr_names t = st.

Lemma known_chroot cwd t o path : tracks cwd t -> known t o -> known (track_chroot t path) (st ← o; name_in (lexical st path) st).
Proof.
  intros Ht Hk Hl st' Est. destruct o as [st|]; [|done]. cbn in Est.
  assert (Hlost : tr_lost t = false /\ (is_rooted path = true \/ tr_hidden t = 0%nat)).
  { unfold track_chroot in Hl. cbv zeta in Hl. destruct (tr_lost t), (is_rooted path), (Nat.eqb_spec (tr_hidden t) 0); repeat case_match; try done; auto. }
  destruct Hlost as [H0 Hvis]. destruct (Hk H0 st eq_refl) as [Hr Hs]. destruct Ht as (Hg & _). assert (Hps := good_proper _ Hg). rewrite Hs in Hps.
  assert (Htar : chroot_target t path = (true, lexical st path)).
  { unfold chroot_target, lexical. rewrite Hr, orb_true_r. assert (Hws : (if is_rooted path then words path else if Nat.eqb (tr_hidden t) 0 then tr_names t ++ words path else tr_names t) = (if is_rooted path then [] else st) ++ words path)
      by (destruct (is_rooted path); [done|]; destruct Hvis as [Hv|Hv]; [done|]; by rewrite Hs, Hv).
    rewrite Hws, resolve_from by (by destruct (is_rooted path)). destruct (resolve_proper true (words path) (words_elements path) 0 (if is_rooted path then [] else st)) as [_ Hu]; [by destruct (is_rooted path)|done|].
    cbv zeta. rewrite (Hu eq_refl). done. }
  unfold track_chroot. rewrite Htar, Hr, Hs. cbv zeta. cbn [fst snd]. assert (Hlex := lexical_proper st path Hps). assert (Ht1 : target_text (true, lexical st path) = rooted_path (lexical st path)) by done.
  rewrite Ht1. assert (Hlen := rooted_path_length _ Hlex). unfold name_in in Est. destruct (decide (lexical st path = [])) as [E|E].
  - rewrite E in *. rewrite bool_decide_true in Est by done. injection Est as <-. done.
  - rewrite bool_decide_false in Est by done. destruct (Nat.leb_spec (length (rooted_path (lexical st path))) 1) as [Hc|_].
    + assert (H1 : length (rooted_path (lexical st path)) <> 0%nat) by done. assert (length (rooted_path (lexical st path)) = 1%nat) by lia. tauto.
    + case_bool_decide as Hb; [|done]. injection Est as <-. by rewrite bool_decide_true.
Qed.
Lemma known_track t o path : known t o -> known (track t path) (if is_rooted path then Some (lexical [] path) else st ← o; Some (lexical st path)).
Proof.
  intros Hk Hl st' Est. unfold track, lexical in *. destruct (is_rooted path); [injection Est as <-; by apply track_words_lexical|]. destruct o as [st|]; [|done]. cbn in Est. injection Est as <-.
  destruct (Hk (track_words_lost _ _ Hl) st eq_refl). by apply track_words_lexical.
Qed.
Lemma known_calls cs : forall cwd t o, tracks cwd t -> Forall (fun c => no_nul (call_path c)) cs -> known t o -> known (track_calls cs t).2 (lexical_calls cs (track_calls cs t).1 o).
Proof.
  induction cs as [|c cs IH]; intros cwd t o Ht Hn Hk; cbn [track_calls]; [done|]. apply Forall_cons in Hn as [Hc Hn]. destruct (dir_call_ok c cwd t Ht Hc) as (cwd1 & _ & Ht1).
  assert (Hk1 : known (track_call c t).2 (lexical_call c (track_call c t).1 o)).
  { destruct c as [[] path|[] path]; cbn; [by apply known_track|done| |by destruct (path_fits t path)]. destruct (path_fits t path); cbn; [by apply (known_chroot cwd)|done]. }
  destruct (track_call c t) as [r t1]. cbn [fst snd] in *. assert (H := IH cwd1 t1 _ Ht1 Hn Hk1). by destruct (track_calls cs t1) as [rs t2].
Qed.

(** C22. Any sequence of chdir and chroot calls, from the root, whether or not each could open
    its directory: their results, and the name of the current directory after them.  A chroot
    whose path does not fit with the name of the current directory is refused and changes
    nothing, nor does one that cannot open its directory; else the target becomes the root:
    the name stays if the text of the target has one character, it loses the names of the
    target if that is above the current directory, and it is unknown in every other case,
    also if the target is the current directory.  Where something is behind a NUL the path
    of a relative chroot is not seen.  Unless that happened or a name was lost, the name is
    the path of the current directory from the current root wherever the calls determine one. *)
Theorem chroot_correct (cwd : B) cs : contents cwd = [slash] -> Forall (fun c => no_nul (call_path c)) cs ->
  let '(rs, t) := track_calls cs at_root in
  exists cwd', do_dir_calls cs cwd = Some (rs, cwd') /\ getcwd None cwd' = inl (tr_text t ++ [0]) /\
    (tr_lost t = false -> forall st, lexical_calls cs rs (Some []) = Some st -> tr_text t = rooted_path st).
Proof.
  intros Hc Hn. assert (Ht := tracks_root _ Hc). destruct (dir_calls_ok cs cwd at_root Ht Hn) as (cwd' & E & Ht'). assert (Hk : known at_root (Some [])) by (intros _ st [= <-]; done). apply (known_calls cs cwd at_root (Some []) Ht Hn) in Hk.
  destruct (track_calls cs at_root) as [rs t]. cbn [fst snd] in *. exists cwd'. split; [done|]. split; [by apply getcwd_ok|]. intros Hl st Est. destruct (Hk Hl st Est) as [Hr Hs]. unfold tr_text. by rewrite Hr, Hs.
Qed.

(** realpath, of a path that fits. *)
Lemma realpath_ok cwd st path found : contents cwd = rooted_path st -> Forall good_name st -> no_nul path ->
  (if is_rooted path then length path <= PATH_MAX - 1 else length (rooted_path st) + length path + 1 < PATH_MAX)%nat ->
  realpath empty found path cwd = Some (if (found : bool) then inl (rooted_path (lexical st path)) else inr of_open).
Proof.
  intros Hc Hg Hn Hfit. unfold realpath. fold (is_rooted path). assert (HL := clean_lexical st path (good_proper _ Hg)).
  assert (Hz := rooted_path_no_nul _ (lexical_good st path Hg Hn)). destruct (is_rooted path); cbn [negb andb].
  - destruct (CleanPath_fits path Hn Hfit) as (out & -> & Ho). cbn [mbind option_bind negb]. rewrite Ho, HL, c_str_id by done. by destruct found.
  - assert (Hk : contents cwd <> kUnreachable) by (rewrite Hc; discriminate). rewrite (bool_decide_false _ Hk). rewrite (relative_contents cwd st path Hc) by lia.
    rewrite Hc, c_str_id by (by apply no_nul_relative). destruct (Nat.leb_spec PATH_MAX (length (rooted_path st) + 1 + length path)); [lia|].
    destruct (CleanPath_fits (rooted_path st ++ slash :: path)) as (out & -> & Ho); [by apply no_nul_relative|rewrite length_app; cbn [length]; lia|].
    cbn [mbind option_bind negb]. rewrite Ho, HL, c_str_id by done. by destruct found.
Qed.

(** ** Requests *)

(** The elements of the path a directory is asked for, and a list of elements as a path. *)
Definition request_elems (path : list Z) : list (list Z) := let r := resolve (is_rooted path) 0 [] (words path) in elems r.1 r.2.
Definition path_of (es : list (list Z)) : list Z := match es with [] => [dot] | _ => join es end.

Lemma request_elements path : Forall element (request_elems path).
Proof.
  unfold request_elems. destruct (resolve_proper (is_rooted path) (words path) (words_elements path) 0 []) as [Hp _]; [constructor|done|]. by apply elements_elems, proper_element.
Qed.
(** The directory and the path of the request for a clean path. *)
Lemma iodir_clean path : fdio_iodir (clean path) = (is_rooted path, path_of (request_elems path)) /\ (default 0 (clean path !! 0%nat) =? slash) = is_rooted path.
Proof.
  assert (He := request_elements path). unfold clean, request_elems in *. destruct (resolve_proper (is_rooted path) (words path) (words_elements path) 0 []) as [_ Hu]; [constructor|done|].
  destruct (resolve (is_rooted path) 0 [] (words path)) as [ups st]. cbn [fst snd] in *. unfold render. cbn [fst snd]. destruct (decide (elems ups st = [])) as [E|E].
  - rewrite E. by destruct (is_rooted path).
  - destruct (join_first _ E He) as (c & s & Ej & Hc%Z.eqb_neq). assert (Ep : path_of (elems ups st) = c :: s) by (rewrite <- Ej; by destruct (elems ups st)).
    rewrite Ep, Ej. destruct (is_rooted path); cbn [root_prefix app]; rewrite decide_False by done; unfold fdio_iodir; cbn [lookup list_lookup default]; [|by rewrite Hc].
    rewrite Z.eqb_refl. cbn [strip_slashes]. by rewrite Z.eqb_refl, Hc.
Qed.

(** The flags of a request for a path that does or does not name a directory. *)
Definition request_flags (dir : bool) (options : OpenAtOptions) (mask : OpenFlags -> OpenFlags) (flags : OpenFlags) : OpenFlags :=
  let d := kDirectory flags || dir in
  let flags := {| kDirectory := d; kNotDirectory := kNotDirectory flags || negb d && disallow_directory options; kNodeReference := kNodeReference flags; other_flags := other_flags flags |} in
  if kNodeReference flags then mask flags else flags.

(** Opening a path. *)
Lemma open_at_ok path flags options mask dir_ok : (forall p, path = Some p -> no_nul p) ->
  open_at_impl empty path flags options mask dir_ok = Some
    match path with
    | None => inr ERR_INVALID_ARGS
    | Some [] => inr ERR_NOT_FOUND
    | Some p =>
        if negb (bool_decide (length p <= PATH_MAX - 1)%nat) then inr ERR_BAD_PATH
        else if negb (allow_absolute_path options) && is_rooted p then inr ERR_INVALID_ARGS
        else if negb (dir_ok (is_rooted p)) then inr ERR_BAD_HANDLE
        else if disallow_directory options && names_dir p then inr ERR_NOT_FILE
        else inl (is_rooted p, path_of (request_elems p), request_flags (names_dir p) options mask flags)
    end.
Proof.
  intros Hn. destruct path as [p|]; [|done]. specialize (Hn p eq_refl). destruct p as [|c p]; [done|]. unfold open_at_impl. set (s := c :: p) in *. clearbody s.
  destruct (iodir_clean s) as [Hi Hr]. case_bool_decide as Hl; cbn [negb].
  - destruct (CleanPath_fits s Hn Hl) as (out & -> & Ho). cbn [mbind option_bind negb]. rewrite Ho, Hr, Hi. destruct (negb (allow_absolute_path options) && is_rooted s); [done|].
    destruct (dir_ok (is_rooted s)); [|done]. cbn [negb]. destruct (disallow_directory options) eqn:Ed, (names_dir s); cbn [andb]; try done; unfold request_flags; rewrite ?Ed;
      destruct flags as [[] [] [] ?]; cbn; rewrite ?Ed; done.
  - by destruct (CleanPath_long s Hn Hl) as (out & d & ->).
Qed.

(** The directory that holds a path. *)
Lemma opendir_containing_ok p dir_ok : no_nul p ->
  opendir_containing_at empty (Some p) dir_ok = Some
    (if negb (bool_decide (length p <= PATH_MAX - 1)%nat) then inr ERR_BAD_PATH
     else if negb (dir_ok (is_rooted p)) then inr ERR_BAD_HANDLE
     else
       let es := request_elems p in
       let name := default [dot] (last es) in
       if bool_decide (NameBuffer_max < length name + (if names_dir p then 1 else 0))%nat then inr ERR_BAD_PATH
       else inl (is_rooted p, path_of (removelast es), name, names_dir p)).
Proof.
  intros Hn. unfold opendir_containing_at. destruct (iodir_clean p) as [Hi _]. case_bool_decide as Hl; cbn [negb]; [|by destruct (CleanPath_long p Hn Hl) as (out & d & ->)].
  destruct (CleanPath_fits p Hn Hl) as (out & -> & Ho). cbn [mbind option_bind negb]. rewrite Ho, Hi. destruct (dir_ok (is_rooted p)); [|done]. cbn [negb]. cbv zeta.
  assert (Hsplit : exists base, match strrchr (path_of (request_elems p)) slash with Some i => (take i (path_of (request_elems p)), drop (S i) (path_of (request_elems p))) | None => ([], path_of (request_elems p)) end
    = (base, default [dot] (last (request_elems p))) /\ (default 0 (default [dot] (last (request_elems p)) !! 0%nat) =? slash) = false /\ path_of (removelast (request_elems p)) = if bool_decide (base = []) then [dot] else base).
  { assert (He := request_elements p). destruct (decide (request_elems p = [])) as [E|E]; [rewrite E; by exists []|]. destruct (exists_last E) as (es & w & Ees). rewrite Ees in *.
    apply Forall_app in He as [He Hw]. apply Forall_singleton in Hw as [Hw Hws]. rewrite last_snoc, removelast_last. cbn [default].
    assert (Hhead : (default 0 (w !! 0%nat) =? slash) = false) by (destruct w as [|c w]; [done|]; cbn; apply Z.eqb_neq; by inversion_clear Hws).
    destruct (decide (es = [])) as [->|Hes].
    - cbn [app path_of join]. rewrite strrchr_none by done. by exists [].
    - assert (Ep : path_of (es ++ [w]) = join es ++ slash :: w) by (rewrite <- join_snoc by done; by destruct es). rewrite Ep, strrchr_last, take_app_length by done.
      exists (join es). destruct (join_first es Hes He) as (c & s & Ej & _). rewrite (bool_decide_false (join es = [])) by (by rewrite Ej).
      replace (drop (S (length (join es))) (join es ++ slash :: w)) with w; [by destruct es|]. change (slash :: w) with ([slash] ++ w). rewrite app_assoc, drop_app_length' by (rewrite length_app; cbn; lia). done. }
  destruct Hsplit as (base & -> & -> & ->). destruct (Nat.ltb_spec NameBuffer_max (length (default [dot] (last (request_elems p))) + (if names_dir p then 1 else 0)));
    [by rewrite bool_decide_true|]. rewrite (bool_decide_false (_ < _)%nat) by lia. rewrite andb_true_r. by destruct (bool_decide (base = [])).
Qed.

(** C23. The requests that calls with a path make.  The root is asked if the path starts with a
    slash and the directory of the call if not, for the lexical resolution of the path
    without its slash, which is never empty.  Opening asks for the whole of it, for a
    directory if the path ends in a slash, a dot or two; the calls that change a directory
    ask for the path to the last element, or a dot if there is no other, and get the last
    element as the name.  Opening refuses a null path and an empty one, each with its error;
    the calls that change a directory refuse a null path only, and take an empty one for a
    dot.  Paths that are too long, that start with a slash or name a directory where that is
    not allowed, and names that do not fit are refused before anything is sent. *)
Theorem request_paths_correct path flags options mask dir_ok : (forall p, path = Some p -> no_nul p) ->
  match path with
  | None =>
      open_at_impl empty path flags options mask dir_ok = Some (inr ERR_INVALID_ARGS) /\ opendir_containing_at empty path dir_ok = Some (inr ERR_INVALID_ARGS)
  | Some p =>
      let es := request_elems p in
      let name := default [dot] (last es) in
      open_at_impl empty path flags options mask dir_ok = Some
        (if bool_decide (p = []) then inr ERR_NOT_FOUND
         else if negb (bool_decide (length p <= PATH_MAX - 1)%nat) then inr ERR_BAD_PATH
         else if negb (allow_absolute_path options) && is_rooted p then inr ERR_INVALID_ARGS
         else if negb (dir_ok (is_rooted p)) then inr ERR_BAD_HANDLE
         else if disallow_directory options && names_dir p then inr ERR_NOT_FILE
         else inl (is_rooted p, path_of es, request_flags (names_dir p) options mask flags)) /\
      opendir_containing_at empty path dir_ok = Some
        (if negb (bool_decide (length p <= PATH_MAX - 1)%nat) then inr ERR_BAD_PATH
         else if negb (dir_ok (is_rooted p)) then inr ERR_BAD_HANDLE
         else if bool_decide (NameBuffer_max < length name + (if names_dir p then 1 else 0))%nat then inr ERR_BAD_PATH
         else inl (is_rooted p, path_of (removelast es), name, names_dir p)) /\
      path_of es = match removelast es with [] => name | front => path_of front ++ slash :: name end
  end.
Proof.
  intros Hn. destruct path as [p|]; [|done]. specialize (Hn p eq_refl) as Hp. intros es name. split_and!.
  - rewrite (open_at_ok (Some p)) by done. by destruct p.
  - by rewrite opendir_containing_ok.
  - destruct (decide (es = [])) as [E|E]; [unfold name; by rewrite E|]. destruct (exists_last E) as (front & w & Ew). unfold name. rewrite Ew, removelast_last, last_snoc. cbn [default].
    destruct (decide (front = [])) as [->|Hf]; [done|]. transitivity (join (front ++ [w])); [by destruct front|]. rewrite join_snoc by done. by destruct front.
Qed.
End Correct.

Lemma no_nul_check s : forallb (fun c => negb (c =? 0)) s = true -> no_nul s.
Proof. intros H. apply Forall_forall. intros c Hc ->. rewrite forallb_forall in H. by specialize (H 0 ltac:(by apply list_elem_of_In)). Qed.

(** From "/a/b/c": a root above it, the directory itself, and roots that cannot be opened or
    whose paths are hidden behind a NUL. *)
Lemma chroot_correct_witness :
  let cs1 := [Chdir true (chars "/a/b/c"); Chroot false (chars "/a"); Chroot true (chars "../.."); Chdir true (chars "d")] in
  let cs2 := [Chdir true (chars "/a/b/c"); Chroot true (chars ".")] in
  let cs3 := [Chdir true (chars "/a/b"); Chdir true (chars ".."); Chroot true (chars "..")] in
  (exists cwd', @do_dir_calls (list Z) CuttingBuffer.buffer CuttingMutable.mutable [] cs1 [slash] = Some ([None; Some of_open; None; None], cwd') /\
     @getcwd (list Z) CuttingBuffer.buffer None cwd' = inl (chars "/b/c/d" ++ [0]) /\ rooted_path [chars "b"; chars "c"; chars "d"] = chars "/b/c/d") /\
  (exists cwd', @do_dir_calls (list Z) CuttingBuffer.buffer CuttingMutable.mutable [] cs2 [slash] = Some ([None; None], cwd') /\
     @getcwd (list Z) CuttingBuffer.buffer None cwd' = inl (kUnreachable ++ [0])) /\
  (exists cwd', @do_dir_calls (list Z) CuttingBuffer.buffer CuttingMutable.mutable [] cs3 [slash] = Some ([None; None; None], cwd') /\
     @getcwd (list Z) CuttingBuffer.buffer None cwd' = inl (kUnreachable ++ [0]) /\ lexical_calls cs3 [None; None; None] (Some []) = Some [chars "a"]).
Proof.
  intros cs1 cs2 cs3. assert (Hn : forall cs, forallb (fun c => forallb (fun c => negb (c =? 0)) (call_path c)) cs = true -> Forall (fun c => no_nul (call_path c)) cs).
  { intros cs H. apply Forall_forall. intros c Hc. apply no_nul_check. rewrite forallb_forall in H. by apply H, list_elem_of_In. }
  assert (C := fun cs H => @chroot_correct (list Z) CuttingBuffer.buffer CuttingBuffer.buffer_laws CuttingMutable.mutable CuttingMutable.mutable_laws [] eq_refl [slash] cs eq_refl (Hn cs H)).
  split_and!.
  - destruct (C cs1 ltac:(reflexivity)) as (cwd' & H1 & H2 & H3). exists cwd'. split_and!; [exact H1|exact H2|]. symmetry. apply H3; reflexivity.
  - destruct (C cs2 ltac:(reflexivity)) as (cwd' & H1 & H2 & _). exists cwd'. split; [exact H1|exact H2].
  - destruct (C cs3 ltac:(reflexivity)) as (cwd' & H1 & H2 & _). exists cwd'. split_and!; [exact H1|exact H2|reflexivity].
Defined.

Definition example_flags : OpenFlags := {| kDirectory := false; kNotDirectory := false; kNodeReference := false; other_flags := 1 |}.

Lemma request_paths_correct_witness :
  let open_at path := @open_at_impl (list Z) CuttingBuffer.buffer [] path example_flags {| disallow_directory := true; allow_absolute_path := true |} id (fun _ => true) in
  let containing path := @opendir_containing_at (list Z) CuttingBuffer.buffer [] path (fun _ => true) in
  open_at (Some (chars "/dev/./class/../sys")) = Some (inl (true, chars "dev/sys", {| kDirectory := false; kNotDirectory := true; kNodeReference := false; other_flags := 1 |})) /\
  containing (Some (chars "a/b//c/")) = Some (inl (false, chars "a/b", chars "c", true)) /\
  open_at None = Some (inr ERR_INVALID_ARGS) /\ containing None = Some (inr ERR_INVALID_ARGS) /\
  open_at (Some []) = Some (inr ERR_NOT_FOUND) /\ containing (Some []) = Some (inl (false, [dot], [dot], true)).
Proof.
  intros open_at containing. assert (R := fun path (H : match path with Some p => forallb (fun c => negb (c =? 0)) p = true | None => True end) =>
    @request_paths_correct (list Z) CuttingBuffer.buffer CuttingBuffer.buffer_laws [] eq_refl path example_flags {| disallow_directory := true; allow_absolute_path := true |} id (fun _ => true)
      ltac:(intros p ->; by apply no_nul_check)).
  split_and!.
  - exact (proj1 (R (Some (chars "/dev/./class/../sys")) eq_refl)).
  - exact (proj1 (proj2 (R (Some (chars "a/b//c/")) eq_refl))).
  - exact (proj1 (R None I)).
  - exact (proj2 (R None I)).
  - exact (proj1 (R (Some []) eq_refl)).
  - exact (proj1 (proj2 (R (Some []) eq_refl))).
Defined.
