(* ===== verification/FidlFormat.v ===== *)
(** * Names of FIDL types

    Models src/fidl_base/formatting.cc: the name of a type, written into a buffer of the
    caller that may be too short for it.  A panic is undefined, and so are a division by zero
    and an access outside the buffer. *)

From stdpp Require Import pretty.
From S2P Require Import Prelude FidlTypes.

(** ** Constants of headers outside the repository *)

Class FormatAbi := {
  FIDL_MAX_SIZE : Z;
  ZX_OBJ_TYPE_BTI : Z; ZX_OBJ_TYPE_CHANNEL : Z; ZX_OBJ_TYPE_CLOCK : Z; ZX_OBJ_TYPE_EVENT : Z; ZX_OBJ_TYPE_EVENTPAIR : Z; ZX_OBJ_TYPE_EXCEPTION : Z;
  ZX_OBJ_TYPE_FIFO : Z; ZX_OBJ_TYPE_GUEST : Z; ZX_OBJ_TYPE_INTERRUPT : Z; ZX_OBJ_TYPE_IOMMU : Z; ZX_OBJ_TYPE_JOB : Z; ZX_OBJ_TYPE_LOG : Z;
  ZX_OBJ_TYPE_PAGER : Z; ZX_OBJ_TYPE_PCI_DEVICE : Z; ZX_OBJ_TYPE_PMT : Z; ZX_OBJ_TYPE_PORT : Z; ZX_OBJ_TYPE_PROCESS : Z; ZX_OBJ_TYPE_PROFILE : Z;
  ZX_OBJ_TYPE_RESOURCE : Z; ZX_OBJ_TYPE_SOCKET : Z; ZX_OBJ_TYPE_SUSPEND_TOKEN : Z; ZX_OBJ_TYPE_THREAD : Z; ZX_OBJ_TYPE_TIMER : Z; ZX_OBJ_TYPE_VCPU : Z;
  ZX_OBJ_TYPE_VMAR : Z; ZX_OBJ_TYPE_VMO : Z;
}.

(** The values Fuchsia publishes. *)
Definition fuchsia_format_abi : FormatAbi := {|
  FIDL_MAX_SIZE := 2 ^ 32 - 1;
  ZX_OBJ_TYPE_BTI := 24; ZX_OBJ_TYPE_CHANNEL := 4; ZX_OBJ_TYPE_CLOCK := 30; ZX_OBJ_TYPE_EVENT := 5; ZX_OBJ_TYPE_EVENTPAIR := 16; ZX_OBJ_TYPE_EXCEPTION := 29;
  ZX_OBJ_TYPE_FIFO := 19; ZX_OBJ_TYPE_GUEST := 20; ZX_OBJ_TYPE_INTERRUPT := 9; ZX_OBJ_TYPE_IOMMU := 23; ZX_OBJ_TYPE_JOB := 17; ZX_OBJ_TYPE_LOG := 12;
  ZX_OBJ_TYPE_PAGER := 28; ZX_OBJ_TYPE_PCI_DEVICE := 11; ZX_OBJ_TYPE_PMT := 26; ZX_OBJ_TYPE_PORT := 6; ZX_OBJ_TYPE_PROCESS := 1; ZX_OBJ_TYPE_PROFILE := 25;
  ZX_OBJ_TYPE_RESOURCE := 15; ZX_OBJ_TYPE_SOCKET := 14; ZX_OBJ_TYPE_SUSPEND_TOKEN := 27; ZX_OBJ_TYPE_THREAD := 2; ZX_OBJ_TYPE_TIMER := 22; ZX_OBJ_TYPE_VCPU := 21;
  ZX_OBJ_TYPE_VMAR := 18; ZX_OBJ_TYPE_VMO := 3;
|}.

(** ** The string builder *)

Record StringBuilder := { buffer_ : list Z; capacity_ : Z; length_ : Z }.

Abbreviation Str := (ST StringBuilder).

Definition put_at (bytes : list Z) (grow : Z) : Str unit := fun str =>
  mem ← wrn (buffer_ str) (length_ str) bytes;
  Some (tt, {| buffer_ := mem; capacity_ := capacity_ str; length_ := length_ str + grow |}).

Definition StrAppend (data : list Z) : Str unit :=
  remaining ← gets (fun str => capacity_ str - length_ str);
  let length := if len data >? remaining then remaining else len data in
  put_at (take (Z.to_nat length) data) length.

(** [vsnprintf] writes what fits with a NUL after it and returns the length of the whole
    text, which is less than 2^31 here. *)
Definition AppendVPrintf (text : list Z) : Str unit :=
  remaining ← gets (fun str => capacity_ str - length_ str);
  if remaining =? 0 then mret tt
  else
    let count := len text in
    put_at (take (Z.to_nat (remaining - 1)) text ++ [0]) (if count <=? 0 then 0 else if count >=? remaining then remaining else count).

(** The conversion [PRIu32]. *)
Definition decimal (n : Z) : list Z := chars (pretty (Z.to_N n)).

(** ** Names *)

Section Format.
Context {abi : FidlAbi} {fabi : FormatAbi} (T : tables).

Definition FormatNullability (nullable : FidlNullability) : Str unit := if nullable then StrAppend (chars "?") else mret tt.

Definition FormatEnumName (coded_enum : FidlCodedEnum) : Str unit :=
  match enum_name coded_enum with Some name => StrAppend (chars name) | None => StrAppend (chars "enum") end.
Definition FormatBitsName (coded_bits : FidlCodedBits) : Str unit :=
  match bits_name coded_bits with Some name => StrAppend (chars name) | None => StrAppend (chars "bits") end.
Definition FormatStructName (coded_struct : FidlCodedStruct) : Str unit :=
  match struct_name coded_struct with Some name => StrAppend (chars name) | None => StrAppend (chars "struct") end.
Definition FormatTableName (coded_table : FidlCodedTable) : Str unit :=
  match table_name coded_table with Some name => StrAppend (chars name) | None => StrAppend (chars "table") end.
Definition FormatXUnionName (coded_xunion : FidlCodedUnion) : Str unit :=
  match union_name coded_xunion with Some name => StrAppend (chars name) | None => StrAppend (chars "xunion") end.

(** The cases of the switch on the subtype. *)
Definition subtype_names : list (Z * string) := [
  (ZX_OBJ_TYPE_NONE, "handle"); (ZX_OBJ_TYPE_BTI, "bti"); (ZX_OBJ_TYPE_CHANNEL, "channel"); (ZX_OBJ_TYPE_CLOCK, "clock"); (ZX_OBJ_TYPE_EVENT, "event");
  (ZX_OBJ_TYPE_EVENTPAIR, "eventpair"); (ZX_OBJ_TYPE_EXCEPTION, "exception"); (ZX_OBJ_TYPE_FIFO, "fifo"); (ZX_OBJ_TYPE_GUEST, "guest");
  (ZX_OBJ_TYPE_INTERRUPT, "interrupt"); (ZX_OBJ_TYPE_IOMMU, "iommu"); (ZX_OBJ_TYPE_JOB, "job"); (ZX_OBJ_TYPE_LOG, "log"); (ZX_OBJ_TYPE_PAGER, "pager");
  (ZX_OBJ_TYPE_PCI_DEVICE, "pcidevice"); (ZX_OBJ_TYPE_PMT, "pmt"); (ZX_OBJ_TYPE_PORT, "port"); (ZX_OBJ_TYPE_PROCESS, "process"); (ZX_OBJ_TYPE_PROFILE, "profile");
  (ZX_OBJ_TYPE_RESOURCE, "resource"); (ZX_OBJ_TYPE_SOCKET, "socket"); (ZX_OBJ_TYPE_SUSPEND_TOKEN, "suspendtoken"); (ZX_OBJ_TYPE_THREAD, "thread");
  (ZX_OBJ_TYPE_TIMER, "timer"); (ZX_OBJ_TYPE_VCPU, "vcpu"); (ZX_OBJ_TYPE_VMAR, "vmar"); (ZX_OBJ_TYPE_VMO, "vmo")]%string.
Definition subtype_name (subtype : Z) : option string := snd <$> List.find (fun p => p.1 =? subtype) subtype_names.

Definition FormatHandle (h : FidlCodedHandle) : Str unit :=
  StrAppend (chars "handle");;
  (if handle_subtype h =? 0 then mret tt
   else
     StrAppend (chars "<");;
     match subtype_name (handle_subtype h) with Some name => StrAppend (chars name) | None => AppendVPrintf (decimal (handle_subtype h)) end;;
     StrAppend (chars ">"));;
  FormatNullability (handle_nullable h).

Definition FormatBound (max : Z) : Str unit := if max =? FIDL_MAX_SIZE then mret tt else AppendVPrintf (chars ":" ++ decimal max).

Definition FormatElementName (FormatTypeName : type_ptr -> Str unit) (type : option type_ptr) : Str unit :=
  match type with Some type => FormatTypeName type | None => StrAppend (chars "primitive") end.

(** The recursion goes down the elements of arrays and vectors. *)
Fixpoint FormatTypeName (fuel : nat) (type : type_ptr) : Str unit :=
  match fuel with
  | O => undefined
  | S fuel =>
      t ← lift (T !! type);
      match t with
      | TypeEnum e => FormatEnumName e
      | TypeBits b => FormatBitsName b
      | TypeStruct s => FormatStructName s
      | TypeStructPointer p =>
          s ← lift (T !! struct_type p);
          match s with TypeStruct s => FormatStructName s;; StrAppend (chars "?") | _ => undefined end
      | TypeArray a =>
          StrAppend (chars "array<");;
          FormatElementName (FormatTypeName fuel) (array_element a);;
          StrAppend (chars ">");;
          if array_element_size_v2 a =? 0 then undefined else AppendVPrintf (chars ":" ++ decimal (array_size_v2 a `div` array_element_size_v2 a))
      | TypeString s => StrAppend (chars "string");; FormatBound (max_size s);; FormatNullability (string_nullable s)
      | TypeHandle h => FormatHandle h
      | TypeVector v =>
          StrAppend (chars "vector<");;
          FormatElementName (FormatTypeName fuel) (vector_element v);;
          StrAppend (chars ">");;
          FormatBound (max_count v);;
          FormatNullability (vector_nullable v)
      | TypeTable t => FormatTableName t
      | TypeXUnion u => FormatXUnionName u
      | TypePrimitive _ => undefined
      end
  end.

(** The number that is returned and the buffer after the call. *)
Definition fidl_format_type_name (fuel : nat) (type : option type_ptr) (buffer : option (list Z)) : option (Z * option (list Z)) :=
  match type, buffer with
  | Some type, Some mem =>
      if len mem =? 0 then Some (0, buffer)
      else '(_, str) ← FormatTypeName fuel type {| buffer_ := mem; capacity_ := len mem; length_ := 0 |}; Some (length_ str, Some (buffer_ str))
  | _, _ => Some (0, buffer)
  end.
End Format.
