(* ===== verification/FidlFormatTheorems.v ===== *)
(** * Names of FIDL types: properties

    The grammar of type names, and what of a name is in a buffer of any size. *)

From stdpp Require Import pretty.
From S2P Require Import Prelude FidlTypes FidlFormat.

(** ** Names *)

(** Text is cut off where the buffer ends, a number loses its last character to a NUL. *)
Inductive piece := Text (s : list Z) | Number (s : list Z).

Definition piece_text (p : piece) : list Z := match p with Text s | Number s => s end.
Definition text (ps : list piece) : list Z := mjoin (piece_text <$> ps).

(** Whether the buffer ends in a number, or right after it. *)
Fixpoint cut_number (cap : Z) (ps : list piece) : bool :=
  match ps with
  | [] => false
  | p :: ps =>
      (0 <? cap) && match p with
                    | Text s => cut_number (cap - len s) ps
                    | Number s => (cap <=? len s) || cut_number (cap - len s) ps
                    end
  end.
Definition shown (cap : Z) (ps : list piece) : list Z :=
  if cut_number cap ps then take (Z.to_nat (cap - 1)) (text ps) ++ [0] else take (Z.to_nat cap) (text ps).

Section Names.
Context {abi : FidlAbi} {fabi : FormatAbi} (T : tables).

Definition lit (s : string) : piece := Text (chars s).
Definition null_name (nullable : bool) : list piece := if nullable then [lit "?"] else [].
Definition number_name (n : Z) : piece := Number (chars ":" ++ decimal n).
Definition bound_name (max : Z) : list piece := if max =? FIDL_MAX_SIZE then [] else [number_name max].
Definition subtype_pieces (subtype : Z) : list piece :=
  if subtype =? 0 then []
  else [lit "<"; match subtype_name subtype with Some name => lit name | None => Number (decimal subtype) end; lit ">"].

(** The name of a type, and how deep its elements go.  Nothing names a primitive type, so an
    element that is one must be a null pointer. *)
Inductive type_name : nat -> type_ptr -> list piece -> Prop :=
  | name_enum d t e : T !! t = Some (TypeEnum e) -> type_name (S d) t [lit (default "enum"%string (enum_name e))]
  | name_bits d t b : T !! t = Some (TypeBits b) -> type_name (S d) t [lit (default "bits"%string (bits_name b))]
  | name_struct d t s : T !! t = Some (TypeStruct s) -> type_name (S d) t [lit (default "struct"%string (struct_name s))]
  | name_struct_pointer d t p s : T !! t = Some (TypeStructPointer p) -> T !! struct_type p = Some (TypeStruct s) ->
      type_name (S d) t [lit (default "struct"%string (struct_name s)); lit "?"]
  | name_table d t u : T !! t = Some (TypeTable u) -> type_name (S d) t [lit (default "table"%string (table_name u))]
  | name_union d t u : T !! t = Some (TypeXUnion u) -> type_name (S d) t [lit (default "xunion"%string (union_name u))]
  | name_string d t s : T !! t = Some (TypeString s) -> type_name (S d) t (lit "string" :: bound_name (max_size s) ++ null_name (string_nullable s))
  | name_handle d t h : T !! t = Some (TypeHandle h) -> type_name (S d) t (lit "handle" :: subtype_pieces (handle_subtype h) ++ null_name (handle_nullable h))
  | name_array d t a ps : T !! t = Some (TypeArray a) -> array_element_size_v2 a <> 0 ->
      (array_element a = None -> ps = [lit "primitive"]) -> (forall e, array_element a = Some e -> type_name d e ps) ->
      type_name (S d) t (lit "array<" :: ps ++ [lit ">"; number_name (array_size_v2 a `div` array_element_size_v2 a)])
  | name_vector d t v ps : T !! t = Some (TypeVector v) ->
      (vector_element v = None -> ps = [lit "primitive"]) -> (forall e, vector_element v = Some e -> type_name d e ps) ->
      type_name (S d) t (lit "vector<" :: ps ++ lit ">" :: bound_name (max_count v) ++ null_name (vector_nullable v)).

(** ** The calls are the pieces *)

Definition put_piece (p : piece) : Str unit := match p with Text s => StrAppend s | Number s => AppendVPrintf s end.
Fixpoint put_all (ps : list piece) : Str unit := match ps with [] => mret tt | p :: ps => put_piece p;; put_all ps end.

Lemma st_bind_assoc {S A B C} (m : ST S A) (f : A -> ST S B) (g : B -> ST S C) s : ((m ≫= f) ≫= g) s = (m ≫= fun a => f a ≫= g) s.
Proof. unfold mbind, ST_bind. by destruct (m s) as [[]|]. Qed.
Lemma st_bind_ext {S A B} (m m' : ST S A) (f f' : A -> ST S B) s : m s = m' s -> (forall a s, f a s = f' a s) -> (m ≫= f) s = (m' ≫= f') s.
Proof. intros E H. unfold mbind, ST_bind. rewrite E. by destruct (m' s) as [[]|]. Qed.

Lemma put_all_app ps qs s : put_all (ps ++ qs) s = (put_all ps;; put_all qs) s.
Proof. revert s. induction ps as [|p ps IH]; intros s; [done|]. cbn [app put_all]. rewrite st_bind_assoc. apply st_bind_ext; [done|]. intros [] s'. apply IH. Qed.
Lemma put_one p s : put_all [p] s = put_piece p s.
Proof. cbn [put_all]. unfold mbind, ST_bind. by destruct (put_piece p s) as [[[]]|]. Qed.
Lemma put_named o d s : match o with Some name => StrAppend (chars name) | None => StrAppend (chars d) end s = put_all [lit (default d o)] s.
Proof. rewrite put_one. by destruct o. Qed.
Lemma put_null b s : FormatNullability b s = put_all (null_name b) s.
Proof. destruct b; [|done]. unfold null_name. by rewrite put_one. Qed.
Lemma put_bound m s : FormatBound m s = put_all (bound_name m) s.
Proof. unfold FormatBound, bound_name. destruct (m =? FIDL_MAX_SIZE); [done|]. by rewrite put_one. Qed.

Lemma put_handle h s : FormatHandle h s = put_all (lit "handle" :: subtype_pieces (handle_subtype h) ++ null_name (handle_nullable h)) s.
Proof.
  unfold FormatHandle. cbn [put_all]. apply st_bind_ext; [done|]. intros [] s1. rewrite put_all_app. apply st_bind_ext; [|intros [] s2; apply put_null].
  unfold subtype_pieces. destruct (handle_subtype h =? 0); [done|]. cbn [put_all]. apply st_bind_ext; [done|]. intros [] s2.
  apply st_bind_ext; [by destruct (subtype_name (handle_subtype h))|]. intros [] s3. symmetry. apply (put_one (lit ">")).
Qed.

(** Names that the grammar has are written, and no other. *)
Lemma format_complete d t ps : type_name d t ps -> forall fuel, (d <= fuel)%nat -> forall s, FormatTypeName T fuel t s = put_all ps s.
Proof.
  induction 1 as [d t e E|d t b E|d t x E|d t p x E Ex|d t u E|d t u E|d t x E|d t h E|d t a ps E Hz Hnone Hsome IH|d t v ps E Hnone Hsome IH]; intros [|fuel] Hf str; try lia; cbn [FormatTypeName];
    unfold mbind at 1, ST_bind at 1, lift at 1; rewrite E; cbn [mbind option_bind].
  - apply put_named.
  - apply put_named.
  - apply put_named.
  - unfold mbind at 1, ST_bind at 1, lift at 1. rewrite Ex. cbn [mbind option_bind]. change [lit (default "struct"%string (struct_name x)); lit "?"] with ([lit (default "struct"%string (struct_name x))] ++ [lit "?"]).
    rewrite put_all_app. apply st_bind_ext; [apply put_named|]. intros [] s. symmetry. apply put_one.
  - apply put_named.
  - apply put_named.
  - cbn [put_all]. apply st_bind_ext; [done|]. intros [] s1. rewrite put_all_app. apply st_bind_ext; [apply put_bound|]. intros [] s2. apply put_null.
  - apply put_handle.
  - cbn [put_all]. apply st_bind_ext; [done|]. intros [] s1. rewrite put_all_app. apply st_bind_ext.
    + destruct (array_element a) as [e|]; cbn [FormatElementName]; [apply (IH e); [done|lia]|]. rewrite Hnone by done. symmetry. apply put_one.
    + intros [] s2. cbn [put_all]. apply st_bind_ext; [done|]. intros [] s3. rewrite (proj2 (Z.eqb_neq _ _) Hz). symmetry. apply put_one.
  - cbn [put_all]. apply st_bind_ext; [done|]. intros [] s1. rewrite put_all_app. apply st_bind_ext.
    + destruct (vector_element v) as [e|]; cbn [FormatElementName]; [apply (IH e); [done|lia]|]. rewrite Hnone by done. symmetry. apply put_one.
    + intros [] s2. cbn [put_all]. apply st_bind_ext; [done|]. intros [] s3. rewrite put_all_app. apply st_bind_ext; [apply put_bound|]. intros [] s4. apply put_null.
Qed.

Lemma format_element_sound fuel o s s1 : (forall t s s', FormatTypeName T fuel t s = Some (tt, s') -> exists ps, type_name fuel t ps) ->
  FormatElementName (FormatTypeName T fuel) o s = Some (tt, s1) -> exists ps, (o = None -> ps = [lit "primitive"]) /\ (forall e, o = Some e -> type_name fuel e ps).
Proof.
  intros IH H. destruct o as [e|]; [|by exists [lit "primitive"]]. apply IH in H as [ps H]. exists ps. split; [done|]. by intros ? [= ->].
Qed.
Lemma format_sound fuel : forall t s s', FormatTypeName T fuel t s = Some (tt, s') -> exists ps, type_name fuel t ps.
Proof.
  induction fuel as [|fuel IH]; intros t s s' H; [done|]. cbn [FormatTypeName] in H. apply runs_bind_inv in H as (x & s0 & E & H). unfold runs, lift in E.
  destruct (T !! t) as [y|] eqn:Et; [|done]. injection E as -> <-. destruct x as [u|e|b|x|p|a|x|h|v|u|u]; [done|..];
    try (eexists; first [by eapply name_enum|by eapply name_bits|by eapply name_struct|by eapply name_table|by eapply name_union|by eapply name_string|by eapply name_handle]).
  - apply runs_bind_inv in H as (y & s1 & E & H). unfold runs, lift in E. destruct (T !! struct_type p) as [z|] eqn:Ez; [|done]. injection E as -> <-. destruct y; try done. eexists. by eapply name_struct_pointer.
  - apply runs_bind_inv in H as ([] & s1 & _ & H). apply runs_bind_inv in H as ([] & s2 & E & H). apply format_element_sound in E as (ps & H1 & H2); [|done].
    apply runs_bind_inv in H as ([] & s3 & _ & H). destruct (Z.eqb_spec (array_element_size_v2 a) 0); [done|]. by eexists; eapply name_array.
  - apply runs_bind_inv in H as ([] & s1 & _ & H). apply runs_bind_inv in H as ([] & s2 & E & H). apply format_element_sound in E as (ps & H1 & H2); [|done].
    by eexists; eapply name_vector.
Qed.
End Names.

(** ** What is in the buffer *)

Lemma to_nat_len (s : list Z) : Z.to_nat (len s) = length s.
Proof. unfold len. lia. Qed.
Lemma text_cons p ps : text (p :: ps) = piece_text p ++ text ps.
Proof. done. Qed.
Lemma cut_number_nonpos r ps : r <= 0 -> cut_number r ps = false.
Proof. intros H. destruct ps; cbn [cut_number]; [done|]. by rewrite (proj2 (Z.ltb_ge _ _)). Qed.
Lemma shown_nonpos r ps : r <= 0 -> shown r ps = [].
Proof. intros H. unfold shown. rewrite cut_number_nonpos by done. by replace (Z.to_nat r) with 0%nat by lia. Qed.

(** The rest of a name after a piece that fits, and the end in a piece that does not. *)
Lemma shown_fits r p ps : len (piece_text p) < r -> shown r (p :: ps) = piece_text p ++ shown (r - len (piece_text p)) ps.
Proof.
  intros H. assert (H0 := len_nonneg (piece_text p)). unfold shown. rewrite text_cons. cbn [cut_number]. rewrite (proj2 (Z.ltb_lt 0 r)) by lia.
  replace (true && _) with (cut_number (r - len (piece_text p)) ps) by (destruct p; cbn [piece_text andb] in *; [done|]; by rewrite (proj2 (Z.leb_gt _ _))).
  replace (Z.to_nat (r - 1)) with (length (piece_text p) + Z.to_nat (r - len (piece_text p) - 1))%nat by (unfold len in *; lia).
  replace (Z.to_nat r) with (length (piece_text p) + Z.to_nat (r - len (piece_text p)))%nat by (unfold len in *; lia).
  rewrite !take_app_add. destruct (cut_number (r - len (piece_text p)) ps); [by rewrite app_assoc|done].
Qed.
Lemma shown_text_end r s ps : 0 <= r <= len s -> shown r (Text s :: ps) = take (Z.to_nat r) s.
Proof.
  intros H. unfold shown. rewrite text_cons. cbn [cut_number piece_text]. rewrite cut_number_nonpos, andb_false_r by lia. apply take_app_le. unfold len in *. lia.
Qed.
Lemma shown_number_end r s ps : 0 < r <= len s -> shown r (Number s :: ps) = take (Z.to_nat (r - 1)) s ++ [0].
Proof.
  intros H. unfold shown. rewrite text_cons. cbn [cut_number piece_text]. rewrite (proj2 (Z.ltb_lt 0 r)), (proj2 (Z.leb_le _ _)) by lia. cbn [andb orb]. f_equal. apply take_app_le. unfold len in *. lia.
Qed.

Definition str_builder (mem : list Z) (cap n : Z) : StringBuilder := {| buffer_ := mem; capacity_ := cap; length_ := n |}.

Lemma put_at_ok pre x y rest mem cap grow : mem = x ++ rest -> len x = len y -> put_at y grow (str_builder (pre ++ mem) cap (len pre)) = Some (tt, str_builder (pre ++ y ++ rest) cap (len pre + grow)).
Proof. intros -> H. unfold put_at. cbn [buffer_ length_ capacity_ str_builder]. by rewrite wrn_middle. Qed.

(** [m] writes [out] after what is there, and nothing behind it but for one character. *)
Definition writes (m : Str unit) (pre rest : list Z) (out : list Z) : Prop :=
  exists rest', m (str_builder (pre ++ rest) (len pre + len rest) (len pre)) = Some (tt, str_builder (pre ++ out ++ rest') (len pre + len rest) (len pre + len out)) /\
    len rest' = len rest - len out /\ drop 1 rest' = drop (S (length out)) rest.

Lemma split_rest n (rest : list Z) : 0 <= n <= len rest -> exists x, rest = x ++ drop (Z.to_nat n) rest /\ len x = n.
Proof. intros H. exists (take (Z.to_nat n) rest). rewrite take_drop. split; [done|]. unfold len in *. rewrite length_take. lia. Qed.

(** Text that fits, and text that is cut off. *)
Lemma append_writes pre rest s : writes (StrAppend s) pre rest (take (Z.to_nat (Z.min (len rest) (len s))) s).
Proof.
  assert (H0 := len_nonneg rest). assert (H1 := len_nonneg s). set (n := Z.min (len rest) (len s)). set (out := take (Z.to_nat n) s).
  assert (Hout : len out = n) by (unfold out, len in *; rewrite length_take; lia). destruct (split_rest n rest) as (x & Hx & Lx); [lia|].
  exists (drop (Z.to_nat n) rest). split; [|split].
  - unfold StrAppend. unfold mbind at 1, ST_bind at 1, gets. cbn [capacity_ length_ str_builder]. replace (len pre + len rest - len pre) with (len rest) by lia.
    replace (if len s >? len rest then len rest else len s) with n by (unfold n; destruct (Z.gtb_spec (len s) (len rest)); lia). fold out. rewrite Hout. apply (put_at_ok pre x); [done|]. by rewrite Hout.
  - unfold len in *. rewrite length_drop. lia.
  - rewrite drop_drop. f_equal. unfold len in *. lia.
Qed.

(** A number that fits leaves a NUL behind it, one that does not ends in it. *)
Lemma printf_writes pre rest s : 0 < len s ->
  writes (AppendVPrintf s) pre rest (if len rest =? 0 then [] else if len rest <=? len s then take (Z.to_nat (len rest - 1)) s ++ [0] else s).
Proof.
  intros Hs. assert (H0 := len_nonneg rest). unfold writes, AppendVPrintf. unfold mbind at 1, ST_bind at 1, gets. cbn [capacity_ length_ str_builder]. replace (len pre + len rest - len pre) with (len rest) by lia.
  destruct (Z.eqb_spec (len rest) 0) as [E|E].
  - exists rest. cbn [app length]. replace (len pre + len []) with (len pre) by (unfold len; cbn; lia). split; [done|]. split; [unfold len; cbn [length]; lia|done].
  - rewrite (proj2 (Z.leb_gt (len s) 0)) by lia. destruct (Z.leb_spec (len rest) (len s)) as [Hl|Hl].
    + set (out := take (Z.to_nat (len rest - 1)) s ++ [0]). assert (Hout : len out = len rest) by (unfold out, len in *; rewrite length_app, length_take; cbn [length]; lia).
      replace (len s >=? len rest) with true by (destruct (Z.geb_spec (len s) (len rest)); [done|lia]). exists []. rewrite Hout. split; [|split].
      * apply (put_at_ok pre rest); [by rewrite app_nil_r|done].
      * rewrite Z.sub_diag. done.
      * unfold len in *. rewrite !drop_ge; [done|lia|cbn [length]; lia].
    + replace (take (Z.to_nat (len rest - 1)) s) with s by (rewrite take_ge; [done|unfold len in *; lia]). replace (len s >=? len rest) with false by (destruct (Z.geb_spec (len s) (len rest)); [lia|done]).
      destruct (split_rest (len s + 1) rest) as (x & Hx & Lx); [lia|]. exists (0 :: drop (Z.to_nat (len s + 1)) rest). split; [|split].
      * rewrite (put_at_ok pre x (s ++ [0]) (drop (Z.to_nat (len s + 1)) rest)); [by rewrite <- app_assoc|done|]. unfold len in *. rewrite length_app. cbn [length]. lia.
      * unfold len in *. cbn [length]. rewrite length_drop. lia.
      * rewrite (skipn_cons 0 0). cbn [drop]. replace (Z.to_nat (len s + 1)) with (S (length s)) by (unfold len; lia). by destruct rest.
Qed.

Lemma writes_seq m k pre rest out1 out2 : writes m pre rest out1 -> (forall rest', len rest' = len rest - len out1 -> writes k (pre ++ out1) rest' out2) -> writes (m;; k) pre rest (out1 ++ out2).
Proof.
  intros (r1 & E1 & L1 & D1) Hk. destruct (Hk r1 L1) as (r2 & E2 & L2 & D2). exists r2. split; [|split].
  - unfold mbind, ST_bind. rewrite E1. replace (len pre + len rest) with (len (pre ++ out1) + len r1) by (rewrite len_app; lia). replace (len pre + len out1) with (len (pre ++ out1)) by apply len_app.
    rewrite app_assoc, E2. rewrite !len_app, !Z.add_assoc, <- !app_assoc; done.
  - rewrite len_app. lia.
  - rewrite D2, length_app. replace (S (length out2)) with (1 + length out2)%nat by lia. rewrite <- drop_drop, D1, drop_drop. f_equal; lia.
Qed.

Definition piece_ok (p : piece) : Prop := match p with Text _ => True | Number s => s <> [] end.

Lemma put_all_writes ps : Forall piece_ok ps -> forall pre rest, writes (put_all ps) pre rest (shown (len rest) ps).
Proof.
  induction 1 as [|p ps Hp _ IH]; intros pre rest.
  - replace (shown (len rest) []) with (@nil Z) by (unfold shown; cbn; by rewrite take_nil). exists rest. cbn [put_all app]. unfold mret, ST_ret. replace (len pre + len []) with (len pre) by (unfold len; cbn [length]; lia). split; [done|]. split; [unfold len; cbn [length]; lia|done].
  - cbn [put_all]. assert (H0 := len_nonneg rest). assert (H1 := len_nonneg (piece_text p)). destruct (Z.lt_ge_cases (len (piece_text p)) (len rest)) as [Hf|Hf].
    + rewrite shown_fits by done. apply writes_seq; [|intros rest' <-; apply IH].
      destruct p as [s|s]; cbn [put_piece piece_text] in *.
      * assert (H := append_writes pre rest s). rewrite Z.min_r, to_nat_len, take_ge in H by lia. done.
      * assert (H := printf_writes pre rest s ltac:(destruct s; [done|unfold len; cbn; lia])). rewrite (proj2 (Z.eqb_neq _ _)), (proj2 (Z.leb_gt _ _)) in H by lia. done.
    + rewrite <- (app_nil_r (shown (len rest) (p :: ps))). assert (Hend : writes (put_piece p) pre rest (shown (len rest) (p :: ps)) /\ len (shown (len rest) (p :: ps)) = len rest).
      { destruct p as [s|s]; cbn [put_piece piece_text] in *.
        - rewrite shown_text_end by lia. assert (H := append_writes pre rest s). rewrite Z.min_l in H by lia. split; [done|]. unfold len in *. rewrite length_take. lia.
        - assert (H := printf_writes pre rest s ltac:(destruct s; [done|unfold len; cbn; lia])). destruct (Z.eqb_spec (len rest) 0) as [E|E].
          + rewrite E, shown_nonpos by lia. done.
          + rewrite (proj2 (Z.leb_le _ _)) in H by lia. rewrite shown_number_end by lia. split; [done|]. unfold len in *. rewrite length_app, length_take. cbn [length]. lia. }
      destruct Hend as [Hend Hl]. apply writes_seq; [done|]. intros rest' Hr. rewrite Hl in Hr. assert (H := IH (pre ++ shown (len rest) (p :: ps)) rest'). rewrite (shown_nonpos (len rest')) in H by lia. exact H.
Qed.

(** Numbers are not empty. *)
Lemma decimal_nonempty n : decimal n <> [].
Proof.
  unfold decimal. intros H. assert (E : pretty (Z.to_N n) = ""%string) by (destruct (pretty (Z.to_N n)); done). revert E. unfold pretty, pretty_N. case_decide as Hn; [done|]. intros E.
  assert (Hlen : forall m s, (m <> 0)%N -> pretty_N_go m s <> ""%string).
  { clear. intros m. induction (N.lt_wf_0 m) as [m _ IH]. intros s Hm. rewrite pretty_N_go_step by lia. destruct (decide (m `div` 10 = 0)%N) as [->|Hd]; [by rewrite pretty_N_go_0|]. apply IH; [by apply N.div_lt; lia|done]. }
  by apply (Hlen (Z.to_N n) ""%string).
Qed.

Lemma number_ok n : piece_ok (number_name n).
Proof. done. Qed.
Lemma bound_ok {fabi : FormatAbi} m : Forall piece_ok (bound_name m).
Proof. unfold bound_name. destruct (m =? FIDL_MAX_SIZE); [constructor|]. by repeat constructor. Qed.
Lemma null_ok b : Forall piece_ok (null_name b).
Proof. destruct b; by repeat constructor. Qed.
Lemma subtype_ok {abi : FidlAbi} {fabi : FormatAbi} n : Forall piece_ok (subtype_pieces n).
Proof.
  unfold subtype_pieces. destruct (n =? 0); [constructor|]. constructor; [done|]. constructor; [|by repeat constructor]. destruct (subtype_name n); [done|]. apply decimal_nonempty.
Qed.
#[local] Hint Resolve number_ok bound_ok null_ok subtype_ok Forall_app_2 : core.

Lemma element_ok {A} (o : option A) (ps : list piece) : (o = None -> ps = [lit "primitive"]) -> (forall e, o = Some e -> Forall piece_ok ps) -> Forall piece_ok ps.
Proof. intros H1 H2. destruct o as [e|]; [by apply (H2 e)|]. rewrite H1 by done. by repeat constructor. Qed.

Lemma name_pieces_ok {abi : FidlAbi} {fabi : FormatAbi} T d t ps : type_name T d t ps -> Forall piece_ok ps.
Proof.
  induction 1 as [| | | | | | | |d t a ps E Hz Hnone Hsome IH|d t v ps E Hnone Hsome IH]; try (by repeat constructor); (constructor; [done|]); auto.
  - apply Forall_app_2; [by apply (element_ok (array_element a))|]. by repeat constructor.
  - apply Forall_app_2; [by apply (element_ok (vector_element v))|]. constructor; auto. done.
Qed.

(** A name that leaves a character of the buffer free is not cut. *)
Lemma shown_all ps : forall cap, len (text ps) < cap -> shown cap ps = text ps.
Proof.
  induction ps as [|p ps IH]; intros cap H.
  - unfold shown. cbn. by rewrite take_nil.
  - rewrite text_cons in *. rewrite len_app in H. assert (H0 := len_nonneg (text ps)).
    rewrite shown_fits, IH by lia. done.
Qed.

(** C40. The name of a type.  With a turn for every level of elements, formatting a type that
    has a name stores it from the start of the buffer and returns its length; if the buffer
    is not longer than the name, it is full afterwards with the name cut off, and its last
    character is a NUL if a number ends there or is cut; at most one more character is
    changed.  A type without a name, such as a vector whose elements have a primitive type,
    where the code panics, is never formatted into a buffer that is not empty. *)
Theorem format_type_name_correct {abi : FidlAbi} {fabi : FormatAbi} T fuel t mem :
  (forall d ps, type_name T d t ps -> (d <= fuel)%nat ->
     (len (text ps) < len mem -> shown (len mem) ps = text ps) /\
     exists rest, fidl_format_type_name T fuel (Some t) (Some mem) = Some (len (shown (len mem) ps), Some (shown (len mem) ps ++ rest)) /\
       drop 1 rest = drop (S (length (shown (len mem) ps))) mem) /\
  ((forall d ps, ~ type_name T d t ps) -> mem <> [] -> fidl_format_type_name T fuel (Some t) (Some mem) = None).
Proof.
  split.
  - intros d ps Hn Hf. split; [apply shown_all|]. unfold fidl_format_type_name. destruct (Z.eqb_spec (len mem) 0) as [E|E].
    + destruct mem; [|done]. exists []. rewrite (shown_nonpos (len [])) by (cbn; lia). done.
    + destruct (put_all_writes ps (name_pieces_ok _ _ _ _ Hn) [] mem) as (rest & H & _ & Hd). exists rest. rewrite (format_complete T d t ps Hn fuel Hf). unfold str_builder in H. cbn [app] in H. change (len [] + len mem) with (len mem) in H. change (len []) with 0 in H. rewrite H. done.
  - intros Hn Hne. unfold fidl_format_type_name. destruct (Z.eqb_spec (len mem) 0) as [E|E]; [by destruct mem|].
    destruct (FormatTypeName T fuel t _) as [[[] str]|] eqn:F; [|done]. destruct (format_sound T fuel t _ _ F) as [ps Hps]. by destruct (Hn fuel ps).
Qed.

(** A vector of up to five handles in buffers of 32 and of 21 characters, which is the length
    of its name, and a vector of numbers. *)
Definition format_tables : tables := [
  TypeVector {| vector_nullable := false; element_memcpy_compatibility := false; max_count := 5; vector_element_size_v2 := 4; vector_element := Some 1%nat |};
  TypeHandle {| handle_nullable := false; handle_subtype := 3; handle_rights := 0 |};
  TypeVector {| vector_nullable := false; element_memcpy_compatibility := true; max_count := 5; vector_element_size_v2 := 1; vector_element := Some 3%nat |};
  TypePrimitive {| primitive_type := Uint8 |}].

Lemma format_type_name_correct_witness :
  (exists rest, @fidl_format_type_name fuchsia_abi fuchsia_format_abi format_tables 2 (Some 0%nat) (Some (replicate 32 7)) = Some (21, Some (chars "vector<handle<vmo>>:5" ++ rest))) /\
  (exists rest, @fidl_format_type_name fuchsia_abi fuchsia_format_abi format_tables 2 (Some 0%nat) (Some (replicate 21 7)) = Some (21, Some ((chars "vector<handle<vmo>>:" ++ [0]) ++ rest))) /\
  @fidl_format_type_name fuchsia_abi fuchsia_format_abi format_tables 2 (Some 2%nat) (Some [7]) = None.
Proof.
  assert (Hh : @type_name fuchsia_abi fuchsia_format_abi format_tables 1 1%nat [lit "handle"; lit "<"; lit "vmo"; lit ">"]) by exact (@name_handle fuchsia_abi fuchsia_format_abi format_tables 0 1%nat {| handle_nullable := false; handle_subtype := 3; handle_rights := 0 |} eq_refl).
  assert (Hv : @type_name fuchsia_abi fuchsia_format_abi format_tables 2 0%nat [lit "vector<"; lit "handle"; lit "<"; lit "vmo"; lit ">"; lit ">"; number_name 5]).
  { apply (@name_vector fuchsia_abi fuchsia_format_abi format_tables 1 0%nat {| vector_nullable := false; element_memcpy_compatibility := false; max_count := 5; vector_element_size_v2 := 4; vector_element := Some 1%nat |}
      [lit "handle"; lit "<"; lit "vmo"; lit ">"]); [reflexivity|done|]. intros e [= <-]. exact Hh. }
  split_and!.
  - destruct (proj2 (proj1 (@format_type_name_correct fuchsia_abi fuchsia_format_abi format_tables 2 0%nat (replicate 32 7)) _ _ Hv ltac:(lia))) as (rest & H & _). exists rest. exact H.
  - destruct (proj2 (proj1 (@format_type_name_correct fuchsia_abi fuchsia_format_abi format_tables 2 0%nat (replicate 21 7)) _ _ Hv ltac:(lia))) as (rest & H & _). exists rest. exact H.
  - apply (proj2 (@format_type_name_correct fuchsia_abi fuchsia_format_abi format_tables 2 2%nat [7])); [|done]. intros d ps H. inversion H as [| | | | | | | |? ? ? ? E|? ? ? ? E Hnone Hsome]; try done.
    cbn in E. injection E as <-. specialize (Hsome 3%nat eq_refl). by inversion Hsome.
Defined.
