(* ===== verification/EventTimer.v ===== *)
(** * Event and timer descriptors

    Models src/fdio/event.cc, timer.cc and iovec.cc: the counter behind an eventfd, the timer
    behind a timerfd, and the vectors that reads and writes take.  Every operation runs under
    the lock of its object, so it is one step. *)

From S2P Require Import Prelude.

(** ** Vectors of buffers *)

(** The capacity of a buffer is its length. *)
Definition fdio_iovec_get_capacity (vector : list (list Z)) : Z := foldl (fun total_capacity b => total_capacity ⊕[64] len b) 0 vector.

Definition chunk_size_of (remaining : nat) (b : list Z) : nat := if Nat.ltb (length b) remaining then length b else remaining.

(** The vector after the copy and what is left over. *)
Fixpoint copy_to_loop (buffer : list Z) (vector : list (list Z)) : list (list Z) * nat :=
  match vector with
  | [] => ([], length buffer)
  | b :: vector =>
      if Nat.eqb (length buffer) 0 then (b :: vector, length buffer)
      else
        let chunk_size := chunk_size_of (length buffer) b in
        let '(vector, remaining) := copy_to_loop (drop chunk_size buffer) vector in
        ((take chunk_size buffer ++ drop chunk_size b) :: vector, remaining)
  end.
Definition fdio_iovec_copy_to (buffer : list Z) (vector : list (list Z)) : list (list Z) * Z :=
  let '(vector, remaining) := copy_to_loop buffer vector in (vector, len buffer - Z.of_nat remaining).

(** What is copied into a buffer with room for [remaining] bytes, which holds zeros. *)
Fixpoint copy_from_loop (vector : list (list Z)) (remaining : nat) : list Z * nat :=
  match vector with
  | [] => ([], remaining)
  | b :: vector =>
      if Nat.eqb remaining 0 then ([], remaining)
      else
        let chunk_size := chunk_size_of remaining b in
        let '(rest, remaining) := copy_from_loop vector (remaining - chunk_size) in
        (take chunk_size b ++ rest, remaining)
  end.
Definition fdio_iovec_copy_from (vector : list (list Z)) (buffer_size : nat) : list Z * Z :=
  let '(bytes, remaining) := copy_from_loop vector buffer_size in (bytes ++ replicate remaining 0, Z.of_nat buffer_size - Z.of_nat remaining).

Inductive io_status := IO_OK | ERR_BUFFER_TOO_SMALL | ERR_SHOULD_WAIT | ERR_INVALID_ARGS.

(** What an operation on a descriptor returns. *)
Inductive fd_errno := EINVAL | EBADF | ENOSYS | EMFILE | errno_of (status : Z).
Definition fd_result : Type := sum Z fd_errno.

(** ** Events *)

(** Constants of generated bindings and of the C library. *)
Class EventAbi := {
  kSignalReadable : Z; kSignalWritable : Z; ZXIO_SIGNAL_READABLE : Z; ZXIO_SIGNAL_WRITABLE : Z;
  EFD_CLOEXEC : Z; EFD_NONBLOCK : Z; EFD_SEMAPHORE : Z; IOFLAG_CLOEXEC : Z; IOFLAG_NONBLOCK : Z;
  ZX_TIMER_SIGNALED : Z; TFD_CLOEXEC : Z; TFD_NONBLOCK : Z;
}.
(** The signals are different bits. *)
Class EventAbiLaws (abi : EventAbi) : Prop := {
  readable_bit : exists n, 0 <= n < 32 /\ kSignalReadable = 2 ^ n;
  writable_bit : exists n, 0 <= n < 32 /\ kSignalWritable = 2 ^ n;
  signals_differ : kSignalReadable <> kSignalWritable;
}.

Definition UINT64_MAX : Z := 2 ^ 64 - 1.

(** [handle] is the signals of the kernel object. *)
Record fdio_event := { handle : Z; value : Z; flags : Z }.

Section Event.
Context {abi : EventAbi}.

Definition signal (clear_mask set_mask : Z) (signals : Z) : Z := Z.lor (Z.ldiff signals clear_mask) set_mask.

Definition fdio_event_update_signals (event : fdio_event) : fdio_event :=
  let set_mask := 0 in
  let set_mask := if value event >? 0 then Z.lor set_mask kSignalReadable else set_mask in
  let set_mask := if value event <? UINT64_MAX - 1 then Z.lor set_mask kSignalWritable else set_mask in
  {| handle := signal (Z.lor kSignalReadable kSignalWritable) set_mask (handle event); value := value event; flags := flags event |}.

Definition fdio_event_readv (vector : list (list Z)) (event : fdio_event) : io_status * list (list Z) * Z * fdio_event :=
  if fdio_iovec_get_capacity vector <? 8 then (ERR_BUFFER_TOO_SMALL, vector, 0, event)
  else if value event =? 0 then (ERR_SHOULD_WAIT, vector, 0, event)
  else
    let '(result, value) := if negb (Z.land (flags event) EFD_SEMAPHORE =? 0) then (1, value event ⊖[64] 1) else (value event, 0) in
    let '(vector, actual) := fdio_iovec_copy_to (le_split 8 result) vector in
    (IO_OK, vector, actual, fdio_event_update_signals {| handle := handle event; value := value; flags := flags event |}).

Definition fdio_event_writev (vector : list (list Z)) (event : fdio_event) : io_status * Z * fdio_event :=
  let '(bytes, actual) := fdio_iovec_copy_from vector 8 in
  let increment := le_bytes bytes in
  if negb (actual =? 8) then (ERR_BUFFER_TOO_SMALL, 0, event)
  else if increment =? UINT64_MAX then (ERR_INVALID_ARGS, 0, event)
  else
    match add_overflow 64 (value event) increment with
    | Some new_value =>
        if new_value =? UINT64_MAX
        then (ERR_SHOULD_WAIT, 0, {| handle := signal kSignalWritable 0 (handle event); value := value event; flags := flags event |})
        else (IO_OK, actual, fdio_event_update_signals {| handle := handle event; value := new_value; flags := flags event |})
    | None => (ERR_SHOULD_WAIT, 0, {| handle := signal kSignalWritable 0 (handle event); value := value event; flags := flags event |})
    end.

Definition fdio_event_wait_begin (zxio_signals : Z) : Z :=
  let zx_signals := 0 in
  let zx_signals := if negb (Z.land zxio_signals ZXIO_SIGNAL_READABLE =? 0) then Z.lor zx_signals kSignalReadable else zx_signals in
  if negb (Z.land zxio_signals ZXIO_SIGNAL_WRITABLE =? 0) then Z.lor zx_signals kSignalWritable else zx_signals.
Definition fdio_event_wait_end (zx_signals : Z) : Z :=
  let zxio_signals := 0 in
  let zxio_signals := if negb (Z.land zx_signals kSignalReadable =? 0) then Z.lor zxio_signals ZXIO_SIGNAL_READABLE else zxio_signals in
  if negb (Z.land zx_signals kSignalWritable =? 0) then Z.lor zxio_signals ZXIO_SIGNAL_WRITABLE else zxio_signals.

(** [created] and [io] are the statuses of the two objects that are made, [fd] is the
    descriptor that is free; the result has the flags of the descriptor with the event. *)
Definition eventfd (initval efd_flags : Z) (created io : Z) (fd : option Z) : sum (Z * Z * fdio_event) fd_errno :=
  if negb (Z.ldiff efd_flags (Z.lor (Z.lor EFD_CLOEXEC EFD_NONBLOCK) EFD_SEMAPHORE) =? 0) then inr EINVAL
  else if negb (created =? 0) then inr (errno_of created)
  else if negb (io =? 0) then inr (errno_of io)
  else
    let event := fdio_event_update_signals {| handle := 0; value := initval; flags := efd_flags |} in
    let ioflag := 0 in
    let ioflag := if negb (Z.land efd_flags EFD_CLOEXEC =? 0) then Z.lor ioflag IOFLAG_CLOEXEC else ioflag in
    let ioflag := if negb (Z.land efd_flags EFD_NONBLOCK =? 0) then Z.lor ioflag IOFLAG_NONBLOCK else ioflag in
    match fd with Some fd => inl (fd, ioflag, event) | None => inr EMFILE end.
End Event.

(** ** Timers *)

(** The arithmetic of zx::time and zx::duration, which is outside the repository, is exact
    where the result fits 64 bits. *)
Class ZxTime := {
  time_add : Z -> Z -> Z; time_sub : Z -> Z -> Z; duration_add : Z -> Z -> Z; duration_mul : Z -> Z -> Z;
  duration_div : Z -> Z -> Z; duration_mod : Z -> Z -> Z;
  (** [zx::deadline_after] at a time of the monotonic clock *)
  deadline_after : Z -> Z -> Z;
}.
Definition INT64_MAX : Z := 2 ^ 63 - 1.
Definition in_int64 (x : Z) : Prop := - 2 ^ 63 <= x <= INT64_MAX.
Class ZxTimeLaws (zt : ZxTime) : Prop := {
  time_add_exact t d : in_int64 (t + d) -> time_add t d = t + d;
  time_sub_exact t u : in_int64 (t - u) -> time_sub t u = t - u;
  duration_add_exact d e : in_int64 (d + e) -> duration_add d e = d + e;
  duration_mul_exact d n : in_int64 (d * n) -> duration_mul d n = d * n;
  duration_div_exact d e : 0 < e -> duration_div d e = Z.quot d e;
  duration_mod_exact d e : 0 < e -> duration_mod d e = Z.rem d e;
  deadline_after_exact now d : in_int64 (now + d) -> deadline_after now d = now + d;
}.

Definition ZX_SEC : Z := 1000000000.

Record timespec := { tv_sec : Z; tv_nsec : Z }.
Record itimerspec := { it_value : timespec; it_interval : timespec }.

(** [armed] is the deadline of the kernel timer. *)
Record fdio_timer := { armed : option Z; current_deadline : Z; interval : Z }.

(** What [timerfd_create] looks at. *)
Inductive clock_id := CLOCK_REALTIME | CLOCK_MONOTONIC | CLOCK_OTHER.

Section Timer.
Context {zt : ZxTime}.

Definition duration_to_timespec (duration : Z) : timespec := {| tv_sec := duration_div duration ZX_SEC; tv_nsec := duration_mod duration ZX_SEC |}.

Definition timespec_to_duration (spec : option timespec) : option Z :=
  match spec with
  | None => None
  | Some spec =>
      if (tv_sec spec <? 0) || (tv_nsec spec <? 0) || (tv_sec spec >? Z.quot INT64_MAX ZX_SEC) then None
      else Some (duration_add (tv_sec spec * ZX_SEC) (tv_nsec spec))
  end.

(** At a time [now] of the clock. *)
Definition fdio_timer_readv (now : Z) (vector : list (list Z)) (timer : fdio_timer) : io_status * list (list Z) * Z * fdio_timer :=
  if fdio_iovec_get_capacity vector <? 8 then (ERR_BUFFER_TOO_SMALL, vector, 0, timer)
  else if current_deadline timer =? 0 then (ERR_SHOULD_WAIT, vector, 0, timer)
  else if current_deadline timer >? now then (ERR_SHOULD_WAIT, vector, 0, timer)
  else
    let '(count, timer) :=
      if interval timer >? 0 then
        let count := (duration_div (time_sub now (current_deadline timer)) (interval timer)) ⊕[64] 1 in
        let current_deadline := time_add (current_deadline timer) (duration_mul (interval timer) (to_signed 64 count)) in
        (count, {| armed := Some current_deadline; current_deadline := current_deadline; interval := interval timer |})
      else (1, {| armed := None; current_deadline := 0; interval := interval timer |}) in
    let '(vector, actual) := fdio_iovec_copy_to (le_split 8 count) vector in
    (IO_OK, vector, actual, timer).

Definition fdio_timer_wait_begin {abi : EventAbi} (zxio_signals : Z) : Z := if negb (Z.land zxio_signals ZXIO_SIGNAL_READABLE =? 0) then ZX_TIMER_SIGNALED else 0.
Definition fdio_timer_wait_end {abi : EventAbi} (zx_signals : Z) : Z := if negb (Z.land zx_signals ZX_TIMER_SIGNALED =? 0) then ZXIO_SIGNAL_READABLE else 0.

(** The signal of the kernel timer. *)
Definition timer_signaled (now : Z) (timer : fdio_timer) : bool := match armed timer with Some deadline => deadline <=? now | None => false end.

Definition timerfd_create {abi : EventAbi} (clockid : clock_id) (tfd_flags : Z) (created io : Z) (fd : option Z) : sum (Z * Z * fdio_timer) fd_errno :=
  match clockid with
  | CLOCK_REALTIME => inr ENOSYS
  | CLOCK_OTHER => inr EINVAL
  | CLOCK_MONOTONIC =>
      if negb (Z.ldiff tfd_flags (Z.lor TFD_CLOEXEC TFD_NONBLOCK) =? 0) then inr EINVAL
      else
        let status := created in
        if negb (status =? 0) then inr (errno_of status)
        else if negb (io =? 0) then inr (errno_of status)
        else
          let timer := {| armed := None; current_deadline := 0; interval := 0 |} in
          let ioflag := 0 in
          let ioflag := if negb (Z.land tfd_flags TFD_CLOEXEC =? 0) then Z.lor ioflag IOFLAG_CLOEXEC else ioflag in
          let ioflag := if negb (Z.land tfd_flags TFD_NONBLOCK =? 0) then Z.lor ioflag IOFLAG_NONBLOCK else ioflag in
          match fd with Some fd => inl (fd, ioflag, timer) | None => inr EMFILE end
  end.

Definition fdio_timer_get_current_timespec (now : Z) (timer : fdio_timer) : itimerspec :=
  let it_value :=
    if (interval timer =? 0) && (current_deadline timer <=? now) then duration_to_timespec 0
    else duration_to_timespec (time_sub (current_deadline timer) now) in
  {| it_value := it_value; it_interval := duration_to_timespec (interval timer) |}.

(** [io] is the object of the descriptor, if there is one, and its timer, if it is one;
    [set_status] is what the kernel answers.  The old time is returned if [old_value] asks
    for it; the clock is read at [now]. *)
Definition timerfd_settime (io : option (option fdio_timer)) (tfd_flags : Z) (new_value : itimerspec) (old_value : bool) (now : Z) (set_status : Z)
    : sum (option itimerspec * fdio_timer) fd_errno :=
  match io with
  | None => inr EBADF
  | Some None => inr EINVAL
  | Some (Some timer) =>
      if negb (tfd_flags =? 0) then inr EINVAL
      else
        match timespec_to_duration (Some (it_value new_value)) with
        | None => inr EINVAL
        | Some value =>
            match timespec_to_duration (Some (it_interval new_value)) with
            | None => inr EINVAL
            | Some interval =>
                let old := if old_value then Some (fdio_timer_get_current_timespec now timer) else None in
                let current_deadline := if value =? 0 then 0 else deadline_after now value in
                if negb (set_status =? 0) then inr (errno_of set_status)
                else
                  let armed := if current_deadline >? 0 then Some current_deadline else None in
                  inl (old, {| armed := armed; current_deadline := current_deadline; interval := interval |})
            end
        end
  end.

Definition timerfd_gettime (io : option (option fdio_timer)) (now : Z) : sum itimerspec fd_errno :=
  match io with
  | None => inr EBADF
  | Some None => inr EINVAL
  | Some (Some timer) => inl (fdio_timer_get_current_timespec now timer)
  end.
End Timer.
