(* ===== verification/EventTimerTheorems.v ===== *)
(** * Event and timer descriptors: properties

    The counter of an eventfd and its signals against an abstract counter; the reads of a
    timerfd against the number of its expirations. *)

From S2P Require Import Prelude EventTimer.

(** ** Vectors *)

Definition bytes_of (vector : list (list Z)) : list Z := mjoin vector.

Lemma bytes_of_cons b vector : bytes_of (b :: vector) = b ++ bytes_of vector.
Proof. done. Qed.
Lemma chunk_min n b : chunk_size_of n b = Nat.min n (length b).
Proof. unfold chunk_size_of. destruct (Nat.ltb_spec (length b) n); lia. Qed.

Lemma capacity_sum vector : fdio_iovec_get_capacity vector = wrap 64 (len (bytes_of vector)).
Proof.
  unfold fdio_iovec_get_capacity. assert (H : forall acc, 0 <= acc -> wrap 64 acc = acc -> foldl (fun t b => t ⊕[64] len b) acc vector = wrap 64 (acc + len (bytes_of vector))).
  { induction vector as [|b vector IH]; intros acc H0 Hw; cbn [foldl]; [by rewrite Z.add_0_r|]. rewrite IH.
    - rewrite bytes_of_cons, len_app. unfold wrap. rewrite Zplus_mod_idemp_l. f_equal. lia.
    - unfold wrap. apply Z.mod_pos_bound. lia.
    - unfold wrap. apply Z.mod_mod. lia. }
  by rewrite H.
Qed.

Lemma copy_to_spec vector : forall bs, exists out, copy_to_loop bs vector = (out, (length bs - length (bytes_of vector))%nat) /\ length <$> out = length <$> vector /\
  bytes_of out = take (length (bytes_of vector)) bs ++ drop (length bs) (bytes_of vector).
Proof.
  induction vector as [|b vector IH]; intros bs; cbn [copy_to_loop].
  - exists []. split_and!; [by rewrite Nat.sub_0_r|done|]. cbn. by rewrite drop_nil.
  - rewrite bytes_of_cons. destruct (Nat.eqb_spec (length bs) 0) as [E|E].
    + exists (b :: vector). rewrite E. split_and!; [done|done|]. destruct bs; [|done]. by rewrite take_nil.
    + rewrite chunk_min. destruct (IH (drop (Nat.min (length bs) (length b)) bs)) as (out & E1 & E2 & E3). rewrite E1. eexists. split_and!; [f_equal| |].
      * rewrite length_drop, length_app. lia.
      * cbn [fmap list_fmap]. rewrite length_app, length_take, length_drop. f_equal; [lia|done].
      * rewrite bytes_of_cons, E3, length_drop, length_app. destruct (Nat.le_gt_cases (length bs) (length b)) as [Hl|Hl].
        -- rewrite Nat.min_l, Nat.sub_diag, !drop_0 by done. rewrite (take_ge bs (length b + _)) by lia. rewrite (take_ge bs (length bs)) by done.
           rewrite (drop_ge bs) by done. rewrite take_nil. cbn [app]. rewrite drop_app_le by done. by rewrite app_assoc.
        -- rewrite Nat.min_r by lia. rewrite (drop_ge b) by done. rewrite app_nil_r. rewrite drop_app_ge by lia. rewrite app_assoc. f_equal. apply take_take_drop.
Qed.

Lemma copy_from_spec vector : forall n, copy_from_loop vector n = (take n (bytes_of vector), (n - length (bytes_of vector))%nat).
Proof.
  induction vector as [|b vector IH]; intros n; cbn [copy_from_loop]; [change (bytes_of []) with (@nil Z); by rewrite take_nil, Nat.sub_0_r|]. rewrite bytes_of_cons.
  destruct (Nat.eqb_spec n 0) as [->|E]; [done|]. rewrite chunk_min, IH. rewrite length_app. f_equal; [|lia]. rewrite take_app. f_equal; [|f_equal; lia].
  destruct (Nat.le_gt_cases n (length b)); [by rewrite Nat.min_l|]. by rewrite Nat.min_r, !take_ge by lia.
Qed.

(** A number that fits is stored at the front and nothing else changes. *)
Lemma copy_number v vector : (8 <= length (bytes_of vector))%nat ->
  exists out, fdio_iovec_copy_to (le_split 8 v) vector = (out, 8) /\ length <$> out = length <$> vector /\ bytes_of out = le_split 8 v ++ drop 8 (bytes_of vector).
Proof.
  intros H. unfold fdio_iovec_copy_to. destruct (copy_to_spec vector (le_split 8 v)) as (out & -> & E2 & E3). exists out. rewrite le_split_length in *. split_and!; [|done|].
  - f_equal. unfold len. rewrite le_split_length. lia.
  - by rewrite E3, take_ge by (rewrite le_split_length; lia).
Qed.
Lemma number_read v bs : fits 64 v -> le_bytes (take 8 (le_split 8 v ++ bs)) = v.
Proof. intros H. rewrite take_app_le, take_ge by (rewrite le_split_length; lia). rewrite le_bytes_split. by apply wrap_small. Qed.

(** ** Signals *)

Lemma land_pow2 x n : 0 <= n -> (Z.land x (2 ^ n) =? 0) = negb (Z.testbit x n).
Proof.
  intros Hn. destruct (Z.testbit x n) eqn:E; cbn [negb].
  - apply Z.eqb_neq. intros H. apply (f_equal (fun y => Z.testbit y n)) in H. rewrite Z.land_spec, E, Z.pow2_bits_true, Z.bits_0 in H by done. done.
  - apply Z.eqb_eq. apply Z.bits_inj'. intros m Hm. rewrite Z.land_spec, Z.pow2_bits_eqb, Z.bits_0 by done. destruct (Z.eqb_spec n m) as [->|]; [by rewrite E|by rewrite andb_false_r].
Qed.

Section Events.
Context {abi : EventAbi} `{!EventAbiLaws abi}.

Definition readable (e : fdio_event) : bool := negb (Z.land (handle e) kSignalReadable =? 0).
Definition writable (e : fdio_event) : bool := negb (Z.land (handle e) kSignalWritable =? 0).

(** The tests of signals after they were changed. *)
Lemma signal_tests h c1 c2 s1 s2 : let c := fun (b1 b2 : bool) => Z.lor (if b1 then kSignalReadable else 0) (if b2 then kSignalWritable else 0) in
  let h' := signal (c c1 c2) (c s1 s2) h in
  negb (Z.land h' kSignalReadable =? 0) = s1 || negb (Z.land h kSignalReadable =? 0) && negb c1 /\
  negb (Z.land h' kSignalWritable =? 0) = s2 || negb (Z.land h kSignalWritable =? 0) && negb c2.
Proof.
  intros c h'. destruct readable_bit as (n & Hn & En), writable_bit as (m & Hm & Em). assert (Hd : n <> m) by (intros ->; apply signals_differ; congruence).
  assert (Hc : forall b1 b2, Z.testbit (c b1 b2) n = b1 /\ Z.testbit (c b1 b2) m = b2).
  { intros b1 b2. unfold c. rewrite En, Em. split; rewrite Z.lor_spec; destruct b1, b2; rewrite ?Z.bits_0, ?Z.pow2_bits_eqb by lia; rewrite ?Z.eqb_refl; try done;
      repeat match goal with |- context [?a =? ?b] => destruct (Z.eqb_spec a b); try done; try lia end. }
  rewrite En, Em, !land_pow2, !negb_involutive by lia. unfold h', signal. rewrite !Z.lor_spec, !Z.ldiff_spec. destruct (Hc c1 c2) as [-> ->], (Hc s1 s2) as [-> ->].
  split; by rewrite orb_comm.
Qed.

Lemma update_signals_ok e : let e' := fdio_event_update_signals e in
  value e' = value e /\ flags e' = flags e /\ readable e' = (value e >? 0) /\ writable e' = (value e <? UINT64_MAX - 1).
Proof.
  cbv zeta. destruct (signal_tests (handle e) true true (value e >? 0) (value e <? UINT64_MAX - 1)) as [H1 H2]. cbn [negb] in H1, H2. rewrite andb_false_r, orb_false_r in H1, H2.
  split_and!; [done|done| |]; [rewrite <- H1|rewrite <- H2]; unfold readable, writable, fdio_event_update_signals; cbn [handle];
    destruct (value e >? 0), (value e <? UINT64_MAX - 1); rewrite ?Z.lor_0_l, ?Z.lor_0_r; done.
Qed.
Lemma clear_writable_ok e : let e' := {| handle := signal kSignalWritable 0 (handle e); value := value e; flags := flags e |} in
  readable e' = readable e /\ writable e' = false.
Proof.
  cbv zeta. destruct (signal_tests (handle e) false true false false) as [H1 H2]. cbn [negb orb] in H1, H2. rewrite Z.lor_0_l in H1, H2. rewrite andb_true_r in H1. rewrite andb_false_r in H2. unfold readable, writable. cbn [handle]. done.
Qed.

(** ** The abstract counter *)

(** [blocked]: a write was refused and nothing has changed since. *)
Record counter := { count : Z; blocked : bool }.
Inductive event_op := EventRead (vector : list (list Z)) | EventWrite (vector : list (list Z)).
Inductive event_answer := Returned (n : Z) | Accepted (n : Z) | Refused (status : io_status).

Definition spec_event (sem : bool) (op : event_op) (c : counter) : event_answer * counter :=
  match op with
  | EventRead vector =>
      if len (bytes_of vector) <? 8 then (Refused ERR_BUFFER_TOO_SMALL, c)
      else if count c =? 0 then (Refused ERR_SHOULD_WAIT, c)
      else let n := if sem then 1 else count c in (Returned n, {| count := count c - n; blocked := false |})
  | EventWrite vector =>
      if len (bytes_of vector) <? 8 then (Refused ERR_BUFFER_TOO_SMALL, c)
      else
        let n := le_bytes (take 8 (bytes_of vector)) in
        if n =? UINT64_MAX then (Refused ERR_INVALID_ARGS, c)
        else if count c + n <? UINT64_MAX then (Accepted n, {| count := count c + n; blocked := false |})
        else (Refused ERR_SHOULD_WAIT, {| count := count c; blocked := true |})
  end.

(** What the caller of an operation sees: the number at the front of its vector. *)
Definition do_event (op : event_op) (e : fdio_event) : event_answer * fdio_event :=
  match op with
  | EventRead vector =>
      match fdio_event_readv vector e with
      | (IO_OK, vector, 8, e) => (Returned (le_bytes (take 8 (bytes_of vector))), e)
      | (status, _, _, e) => (Refused status, e)
      end
  | EventWrite vector =>
      match fdio_event_writev vector e with
      | (IO_OK, 8, e) => (Accepted (le_bytes (take 8 (bytes_of vector))), e)
      | (status, _, e) => (Refused status, e)
      end
  end.

Fixpoint run_ops {S} (step : event_op -> S -> event_answer * S) (ops : list event_op) (s : S) : list event_answer * S :=
  match ops with
  | [] => ([], s)
  | op :: ops => let '(a, s) := step op s in let '(answers, s) := run_ops step ops s in (a :: answers, s)
  end.

(** Buffers are bytes and fit the address space. *)
Definition op_vector (op : event_op) : list (list Z) := match op with EventRead v | EventWrite v => v end.
Definition op_ok (op : event_op) : Prop := bytes_ok (bytes_of (op_vector op)) /\ len (bytes_of (op_vector op)) < 2 ^ 64.

(** The event of a counter. *)
Definition event_rel (sem : bool) (e : fdio_event) (c : counter) : Prop :=
  value e = count c /\ negb (Z.land (flags e) EFD_SEMAPHORE =? 0) = sem /\ 0 <= count c < UINT64_MAX /\ (blocked c = true -> 0 < count c) /\
  readable e = (0 <? count c) /\ writable e = (count c <? UINT64_MAX - 1) && negb (blocked c).

Lemma updated_rel sem h v f : negb (Z.land f EFD_SEMAPHORE =? 0) = sem -> 0 <= v < UINT64_MAX ->
  event_rel sem (fdio_event_update_signals {| handle := h; value := v; flags := f |}) {| count := v; blocked := false |}.
Proof.
  intros Hf Hv. destruct (update_signals_ok {| handle := h; value := v; flags := f |}) as (E1 & E2 & E3 & E4). cbn [value flags] in *. unfold event_rel. rewrite E1, E2, E3, E4. cbn [count blocked].
  split_and!; [done|done|lia|lia|done| |by rewrite andb_true_r]. by rewrite Z.gtb_ltb.
Qed.

Lemma event_step sem op e c : op_ok op -> event_rel sem e c -> exists e', do_event op e = ((spec_event sem op c).1, e') /\ event_rel sem e' (spec_event sem op c).2.
Proof.
  intros [Hb Hl] Hrel. pose proof Hrel as (Hv & Hf & Hr & Hbl & Hrd & Hwr). assert (H0 := len_nonneg (bytes_of (op_vector op))). destruct op as [vector|vector]; cbn [op_vector do_event spec_event] in *.
  - unfold fdio_event_readv. rewrite capacity_sum, wrap_small by (unfold fits; lia). destruct (Z.ltb_spec (len (bytes_of vector)) 8) as [|H8]; [by exists e|].
    rewrite Hv. destruct (Z.eqb_spec (count c) 0) as [|Hc]; [by exists e|]. rewrite Hf. set (n := if sem then 1 else count c).
    replace (if sem then (1, count c ⊖[64] 1) else (count c, 0)) with (n, count c - n) by (unfold n; destruct sem; [rewrite wrap_small by (unfold fits, UINT64_MAX in *; lia)|rewrite Z.sub_diag]; done).
    assert (Hn : 0 < n <= count c) by (unfold n; destruct sem; lia). destruct (copy_number n vector) as (out & -> & _ & Eo); [unfold len in *; lia|]. rewrite Eo, number_read by (unfold fits, UINT64_MAX in *; lia).
    eexists. split; [done|]. cbn [fst snd]. apply updated_rel; [done|lia].
  - unfold fdio_event_writev, fdio_iovec_copy_from. rewrite copy_from_spec. destruct (Z.ltb_spec (len (bytes_of vector)) 8) as [H8|H8].
    { destruct (Z.eqb_spec (Z.of_nat 8 - Z.of_nat (8 - length (bytes_of vector))) 8) as [E|E]; [unfold len in *; lia|]. by exists e. }
    replace (8 - length (bytes_of vector))%nat with 0%nat by (unfold len in *; lia). cbn [replicate]. rewrite app_nil_r. change (Z.of_nat 8 - Z.of_nat 0) with 8. cbn [negb Z.eqb Pos.eqb].
    set (n := le_bytes (take 8 (bytes_of vector))). assert (Hn : fits 64 n).
    { assert (H := le_bytes_fits (take 8 (bytes_of vector)) (bytes_ok_take _ _ Hb)). rewrite length_take in H. replace (Nat.min 8 (length (bytes_of vector))) with 8%nat in H by (unfold len in *; lia). exact H. }
    destruct (Z.eqb_spec n UINT64_MAX) as [|Hm]; [by exists e|]. rewrite Hv. unfold fits in Hn. assert (Hblock : UINT64_MAX <= count c + n -> exists e', (Refused ERR_SHOULD_WAIT, {| handle := signal kSignalWritable 0 (handle e); value := count c; flags := flags e |}) = (Refused ERR_SHOULD_WAIT, e') /\
      event_rel sem e' {| count := count c; blocked := true |}).
    { intros Hbig. eexists. split; [done|]. destruct (clear_writable_ok e) as [E1 E2]. rewrite Hv in E1, E2. unfold event_rel. rewrite E1, E2. cbn [value flags count blocked]. unfold UINT64_MAX in *. split_and!; [done|done|lia|lia|lia|done|by rewrite andb_false_r]. }
    unfold add_overflow. destruct (checked 64 (count c + n)) as [s|] eqn:Es.
    + apply checked_Some in Es as [-> Hs]. unfold fits in Hs. destruct (Z.eqb_spec (count c + n) UINT64_MAX) as [E|E].
      * rewrite (proj2 (Z.ltb_ge _ _)) by lia. apply Hblock. lia.
      * rewrite (proj2 (Z.ltb_lt _ _)) by (unfold UINT64_MAX in *; lia). eexists. split; [done|]. cbn [fst snd]. apply updated_rel; [done|unfold UINT64_MAX in *; lia].
    + apply checked_None in Es. assert (UINT64_MAX <= count c + n) by (unfold fits, UINT64_MAX in *; lia). rewrite (proj2 (Z.ltb_ge _ _)) by lia. by apply Hblock.
Qed.

Lemma event_run sem ops : forall e c, Forall op_ok ops -> event_rel sem e c ->
  exists e', run_ops do_event ops e = ((run_ops (spec_event sem) ops c).1, e') /\ event_rel sem e' (run_ops (spec_event sem) ops c).2.
Proof.
  induction ops as [|op ops IH]; intros e c Hok Hrel; [by exists e|]. apply Forall_cons in Hok as [Ho Hok]. destruct (event_step sem op e c Ho Hrel) as (e1 & E1 & R1). cbn [run_ops]. rewrite E1.
  destruct (spec_event sem op c) as [a c1]. cbn [fst snd] in *. destruct (IH e1 c1 Hok R1) as (e2 & E2 & R2). rewrite E2. destruct (run_ops (spec_event sem) ops c1) as [rs c2]. by exists e2.
Qed.

(** Numbers that went in and out. *)
Definition taken (a : event_answer) : Z := match a with Returned n => n | _ => 0 end.
Definition given (a : event_answer) : Z := match a with Accepted n => n | _ => 0 end.
Definition total (f : event_answer -> Z) (answers : list event_answer) : Z := foldr (fun a t => f a + t) 0 answers.

Lemma spec_conserves sem ops : forall c, let r := run_ops (spec_event sem) ops c in count c + total given r.1 = total taken r.1 + count r.2.
Proof.
  cbv zeta. induction ops as [|op ops IH]; intros c; cbn [run_ops]; [cbn; lia|]. assert (H1 : count c + given (spec_event sem op c).1 = taken (spec_event sem op c).1 + count (spec_event sem op c).2).
  { destruct op; cbn [spec_event]; repeat match goal with |- context [if ?b then _ else _] => destruct b end; cbn [fst snd given taken count]; lia. }
  destruct (spec_event sem op c) as [a c1]. specialize (IH c1). destruct (run_ops (spec_event sem) ops c1) as [rs c2]. unfold total in *. cbn [fst snd foldr] in *. lia.
Qed.

(** C19. An eventfd is a counter.  Whatever reads and writes are made, through whatever
    vectors, they are answered as the abstract counter answers them, nothing that was
    written is lost or read twice, the signal for reading is there exactly when there is
    something to read, and the one for writing when a write of one fits and none was refused
    since the last change; one of the two always is. *)
Theorem eventfd_refines initval efd_flags fd ops : 0 <= initval < 2 ^ 32 -> Z.ldiff efd_flags (Z.lor (Z.lor EFD_CLOEXEC EFD_NONBLOCK) EFD_SEMAPHORE) = 0 -> Forall op_ok ops ->
  exists ioflag e0 e, eventfd initval efd_flags 0 0 (Some fd) = inl (fd, ioflag, e0) /\
    let spec := run_ops (spec_event (negb (Z.land efd_flags EFD_SEMAPHORE =? 0))) ops {| count := initval; blocked := false |} in
    run_ops do_event ops e0 = (spec.1, e) /\ initval + total given spec.1 = total taken spec.1 + value e /\
    readable e = (0 <? value e) /\ writable e = (value e <? UINT64_MAX - 1) && negb (blocked spec.2) /\ readable e || writable e = true.
Proof.
  intros Hi Hf Hok. unfold eventfd. rewrite Hf. cbn [Z.eqb negb]. do 2 eexists. cbv zeta.
  set (e0 := fdio_event_update_signals {| handle := 0; value := initval; flags := efd_flags |}).
  assert (R0 : event_rel (negb (Z.land efd_flags EFD_SEMAPHORE =? 0)) e0 {| count := initval; blocked := false |}) by (apply updated_rel; [done|unfold UINT64_MAX; lia]).
  destruct (event_run _ ops e0 _ Hok R0) as (e & E & Hv & _ & Hr & Hb & Hrd & Hwr). exists e. split; [done|]. split; [exact E|]. assert (Hc := spec_conserves (negb (Z.land efd_flags EFD_SEMAPHORE =? 0)) ops {| count := initval; blocked := false |}). cbv zeta in Hc. cbn [count] in Hc.
  rewrite Hv, Hrd, Hwr. split_and!; [exact Hc|done|done|]. destruct (blocked _); [by rewrite (proj2 (Z.ltb_lt _ _)) by auto|]. rewrite andb_true_r. unfold UINT64_MAX in *.
  destruct (Z.ltb_spec 0 (count (run_ops (spec_event (negb (Z.land efd_flags EFD_SEMAPHORE =? 0))) ops {| count := initval; blocked := false |}).2)); [done|]. cbn [orb]. apply Z.ltb_lt. lia.
Qed.
End Events.

(** ** Timers *)

Section Timers.
Context {zt : ZxTime} `{!ZxTimeLaws zt}.

(** How often a timer has expired that first expires at [d] and then every [i]. *)
Definition expirations (d i now : Z) : Z := if now <? d then 0 else if i =? 0 then 1 else (now - d) `div` i + 1.

(** The timer after [seen] expirations were read. *)
Definition timer_at (d i seen : Z) (t : fdio_timer) : Prop :=
  interval t = i /\ 0 <= seen /\
  if decide (i = 0 /\ 0 < seen) then current_deadline t = 0 /\ armed t = None
  else current_deadline t = d + seen * i /\ armed t = Some (current_deadline t).

(** A read, and zero for one that would have to wait. *)
Definition read_timer (now : Z) (vector : list (list Z)) (t : fdio_timer) : option Z * fdio_timer :=
  match fdio_timer_readv now vector t with
  | (IO_OK, vector, 8, t) => (Some (le_bytes (take 8 (bytes_of vector))), t)
  | (ERR_SHOULD_WAIT, _, _, t) => (Some 0, t)
  | (_, _, _, t) => (None, t)
  end.

(** Times and intervals up to these bounds leave room for the sums. *)
Definition time_ok (d i now : Z) : Prop := 0 < d < 2 ^ 61 /\ 0 <= i < 2 ^ 61 /\ 0 <= now < 2 ^ 61.
Definition vector_ok (vector : list (list Z)) : Prop := 8 <= len (bytes_of vector) < 2 ^ 64.

Lemma expirations_pos d i now : 0 <= i -> 0 <= expirations d i now.
Proof.
  intros Hi. unfold expirations. destruct (Z.ltb_spec now d); [lia|]. destruct (Z.eqb_spec i 0); [lia|]. assert (0 <= (now - d) `div` i) by (apply Z.div_pos; lia). lia.
Qed.
Lemma expirations_mono d i now now' : 0 <= i -> now <= now' -> expirations d i now <= expirations d i now'.
Proof.
  intros Hi Hn. unfold expirations. destruct (Z.ltb_spec now d), (Z.ltb_spec now' d); try lia; destruct (Z.eqb_spec i 0); try lia.
  - assert (0 <= (now' - d) `div` i) by (apply Z.div_pos; lia). lia.
  - assert ((now - d) `div` i <= (now' - d) `div` i) by (apply Z.div_le_mono; lia). lia.
Qed.
(** The next expiration is the first after the time. *)
Lemma expirations_next d i now seen : 0 < i -> 0 <= seen -> (d + seen * i <= now <-> seen < expirations d i now).
Proof.
  intros Hi Hs. unfold expirations. rewrite (proj2 (Z.eqb_neq i 0)) by lia. destruct (Z.ltb_spec now d).
  - split; [nia|lia].
  - split; intros H1; [assert (seen <= (now - d) `div` i) by (apply Z.div_le_lower_bound; lia); lia|]. assert (i * ((now - d) `div` i) <= now - d) by (apply Z.mul_div_le; lia). nia.
Qed.

Lemma store_count now vector t t' n : vector_ok vector -> 0 < n < 2 ^ 63 -> fdio_timer_readv now vector t = (let '(v, actual) := fdio_iovec_copy_to (le_split 8 n) vector in (IO_OK, v, actual, t')) ->
  read_timer now vector t = (Some n, t').
Proof.
  intros Hv Hn E. unfold read_timer. rewrite E. destruct (copy_number n vector) as (out & -> & _ & Eo); [unfold vector_ok, len in *; lia|]. by rewrite Eo, number_read by (unfold fits; lia).
Qed.

Lemma timer_read d i seen now vector t : time_ok d i now -> vector_ok vector -> timer_at d i seen t -> seen <= expirations d i now ->
  exists t', read_timer now vector t = (Some (expirations d i now - seen), t') /\ timer_at d i (expirations d i now) t' /\ timer_signaled now t = (seen <? expirations d i now).
Proof.
  intros (Hd & Hi & Hn) Hv (Ei & Hs & Ht) Hle. assert (Hcap : (fdio_iovec_get_capacity vector <? 8) = false) by (rewrite capacity_sum, wrap_small by (unfold fits, vector_ok in *; lia); apply Z.ltb_ge; apply Hv).
  destruct (decide (i = 0 /\ 0 < seen)) as [[-> Hpos]|Hlive].
  - destruct Ht as [Hc Ha]. assert (E1 : expirations d 0 now = 1 /\ seen = 1) by (unfold expirations in *; destruct (Z.ltb_spec now d); cbn in *; lia). destruct E1 as [E1 ->]. exists t. rewrite E1. split_and!.
    + unfold read_timer, fdio_timer_readv. by rewrite Hcap, Hc.
    + split_and!; [done|lia|]. rewrite decide_True by lia. done.
    + unfold timer_signaled. by rewrite Ha.
  - destruct Ht as [Hc Ha]. assert (Hnz : current_deadline t <> 0) by nia. unfold timer_signaled. rewrite Ha.
    assert (Hdue : current_deadline t <= now <-> seen < expirations d i now).
    { destruct (decide (i = 0)) as [->|Hi0]; [|rewrite Hc; apply expirations_next; lia]. assert (seen = 0) by lia. subst seen. unfold expirations. cbn. destruct (Z.ltb_spec now d); lia. }
    destruct (Z.leb_spec (current_deadline t) now) as [Hdl|Hdl].
    + assert (Hlt : seen < expirations d i now) by tauto. rewrite (proj2 (Z.ltb_lt _ _) Hlt). destruct (decide (i = 0)) as [->|Hi0].
      * assert (seen = 0) by lia. subst seen. assert (E1 : expirations d 0 now = 1) by (unfold expirations in *; destruct (Z.ltb_spec now d); cbn in *; lia). rewrite E1.
        exists {| armed := None; current_deadline := 0; interval := 0 |}. split_and!; [|split_and!; [done|lia|rewrite decide_True by lia; done]|done].
        apply (store_count now vector t _ 1 Hv); [lia|]. unfold fdio_timer_readv. rewrite Hcap, (proj2 (Z.eqb_neq _ _) Hnz), Ei. destruct (Z.gtb_spec (current_deadline t) now); [lia|]. done.
      * assert (Hcount : (now - current_deadline t) `div` i + 1 = expirations d i now - seen).
        { unfold expirations. rewrite (proj2 (Z.eqb_neq _ _) Hi0). destruct (Z.ltb_spec now d); [nia|]. replace (now - d) with (now - current_deadline t + seen * i) by lia. rewrite Z.div_add by lia. lia. }
        assert (Hnext := proj2 (Z.lt_nge now (d + expirations d i now * i)) (fun H => Z.lt_irrefl _ (proj1 (expirations_next d i now (expirations d i now) ltac:(lia) (expirations_pos d i now ltac:(lia))) H))).
        assert (Hprev := proj2 (expirations_next d i now (expirations d i now - 1) ltac:(lia) ltac:(lia)) ltac:(lia)).
        assert (Hbig : 0 < expirations d i now - seen < 2 ^ 62) by nia.
        exists {| armed := Some (d + expirations d i now * i); current_deadline := d + expirations d i now * i; interval := i |}. split_and!; [|split_and!; [done|lia|rewrite decide_False by lia; done]|done].
        apply (store_count now vector t _ (expirations d i now - seen) Hv); [lia|]. unfold fdio_timer_readv. rewrite Hcap, (proj2 (Z.eqb_neq _ _) Hnz), Ei. destruct (Z.gtb_spec (current_deadline t) now); [lia|].
        rewrite (proj2 (Z.gtb_lt i 0)) by lia. rewrite time_sub_exact by (unfold in_int64, INT64_MAX; lia). rewrite duration_div_exact, Z.quot_div_nonneg, Hcount by lia. rewrite wrap_small by (unfold fits; lia).
        replace (to_signed 64 (expirations d i now - seen)) with (expirations d i now - seen) by (unfold to_signed; rewrite (proj2 (Z.ltb_lt _ _)) by lia; done).
        assert (Hm : duration_mul i (expirations d i now - seen) = i * (expirations d i now - seen)) by (apply duration_mul_exact; unfold in_int64, INT64_MAX; nia). rewrite Hm.
        rewrite time_add_exact by (unfold in_int64, INT64_MAX; nia). replace (current_deadline t + i * (expirations d i now - seen)) with (d + expirations d i now * i) by (rewrite Hc; ring). done.
    + assert (E : expirations d i now = seen) by lia. rewrite E. rewrite (proj2 (Z.ltb_ge seen seen)) by lia. exists t. split_and!; [|split_and!; [done|lia|by rewrite decide_False by lia]|done].
      unfold read_timer, fdio_timer_readv. rewrite Hcap, (proj2 (Z.eqb_neq _ _) Hnz), (proj2 (Z.gtb_lt _ _) Hdl), Z.sub_diag. done.
Qed.

(** Reads at times, with their vectors. *)
Fixpoint run_reads (reads : list (Z * list (list Z))) (t : fdio_timer) : list (option Z) * fdio_timer :=
  match reads with
  | [] => ([], t)
  | (now, vector) :: reads => let '(r, t) := read_timer now vector t in let '(rs, t) := run_reads reads t in (r :: rs, t)
  end.
Fixpoint ticks (d i seen : Z) (nows : list Z) : list Z :=
  match nows with [] => [] | now :: nows => (expirations d i now - seen) :: ticks d i (expirations d i now) nows end.
Fixpoint ascending (from : Z) (nows : list Z) : Prop := match nows with [] => True | now :: nows => from <= now /\ ascending now nows end.
Definition last_time (from : Z) (nows : list Z) : Z := default from (last nows).

Lemma ascending_all nows : forall from, ascending from nows -> Forall (fun now => from <= now) nows.
Proof.
  induction nows as [|now nows IH]; intros from H; [constructor|]. destruct H as [H1 H2]. constructor; [done|]. eapply Forall_impl; [by apply (IH now)|]. cbn. lia.
Qed.
Lemma last_time_cons from now nows : last_time from (now :: nows) = last_time now nows.
Proof. unfold last_time. rewrite last_cons. by destruct (last nows). Qed.

Lemma reads_ok d i reads : forall from t, time_ok d i from -> ascending from reads.*1 -> Forall (fun r => time_ok d i r.1 /\ vector_ok r.2) reads -> timer_at d i (expirations d i from) t ->
  exists t', run_reads reads t = (Some <$> ticks d i (expirations d i from) reads.*1, t') /\ timer_at d i (expirations d i (last_time from reads.*1)) t' /\
    foldr Z.add 0 (ticks d i (expirations d i from) reads.*1) = expirations d i (last_time from reads.*1) - expirations d i from /\ from <= last_time from reads.*1 /\ time_ok d i (last_time from reads.*1).
Proof.
  induction reads as [|[now vector] reads IH]; intros from t Hok Ha Hf Ht; cbn [run_reads ticks ascending fmap list_fmap fst] in *.
  - exists t. unfold last_time. cbn. split_and!; [done|done|lia|lia|apply Hok..].
  - destruct Ha as [Hle Ha]. apply Forall_cons in Hf as [[Hn Hv] Hf]. cbn [fst snd] in *. destruct (timer_read d i _ now vector t Hn Hv Ht) as (t1 & E1 & T1 & _); [apply expirations_mono; [apply Hok|done]|].
    rewrite E1. destruct (IH now t1 Hn Ha Hf T1) as (t2 & E2 & T2 & Hsum & Hl & Hok2). rewrite E2, last_time_cons. exists t2. cbn [foldr]. split_and!; [done|done|lia|lia|apply Hok2..].
Qed.

(** A timespec, valid and not too long, and the duration it stands for. *)
Definition duration_of (s : timespec) : Z := tv_sec s * ZX_SEC + tv_nsec s.
Definition timespec_ok (s : timespec) : Prop := 0 <= tv_sec s /\ 0 <= tv_nsec s /\ duration_of s < 2 ^ 60.

Lemma timespec_duration s : timespec_ok s -> timespec_to_duration (Some s) = Some (duration_of s) /\ 0 <= duration_of s < 2 ^ 60.
Proof.
  intros (H1 & H2 & H3). unfold timespec_to_duration, duration_of, ZX_SEC, INT64_MAX in *. rewrite (proj2 (Z.ltb_ge _ _)), (proj2 (Z.ltb_ge _ _)) by lia. cbn [orb].
  destruct (Z.gtb_spec (tv_sec s) (Z.quot (2 ^ 63 - 1) 1000000000)) as [H|H]; [change (Z.quot (2 ^ 63 - 1) 1000000000) with 9223372036 in H; lia|]. split; [|lia]. f_equal. apply duration_add_exact. unfold in_int64, INT64_MAX. lia.
Qed.

(** What settime leaves. *)
Lemma settime_ok t new_value old_value now : 0 < now < 2 ^ 60 -> timespec_ok (it_value new_value) -> timespec_ok (it_interval new_value) ->
  let v := duration_of (it_value new_value) in
  exists old, timerfd_settime (Some (Some t)) 0 new_value old_value now 0 =
    inl (old, {| armed := if v =? 0 then None else Some (now + v); current_deadline := if v =? 0 then 0 else now + v; interval := duration_of (it_interval new_value) |}).
Proof.
  intros Hn Hv Hi. cbv zeta. destruct (timespec_duration _ Hv) as [Ev Rv], (timespec_duration _ Hi) as [Ei Ri]. unfold timerfd_settime. rewrite Ev, Ei. cbn [Z.eqb negb]. eexists. do 2 f_equal.
  destruct (Z.eqb_spec (duration_of (it_value new_value)) 0) as [E|E]; [done|]. rewrite deadline_after_exact by (unfold in_int64, INT64_MAX; lia). by rewrite (proj2 (Z.gtb_lt _ _)) by lia.
Qed.

(** C20. A timer that was set and is then read at any times, one after the other: every read
    returns how often the timer expired since the read before it, and waits if that is zero;
    together the reads return every expiration once.  The kernel timer is signaled exactly
    when a read would not wait. *)
Theorem timerfd_counts t new_value now reads : 0 < now < 2 ^ 60 -> timespec_ok (it_value new_value) -> timespec_ok (it_interval new_value) -> 0 < duration_of (it_value new_value) ->
  ascending now reads.*1 -> Forall (fun r => r.1 < 2 ^ 61 /\ vector_ok r.2) reads ->
  let d := now + duration_of (it_value new_value) in
  let i := duration_of (it_interval new_value) in
  exists old t0 t1, timerfd_settime (Some (Some t)) 0 new_value false now 0 = inl (old, t0) /\
    run_reads reads t0 = (Some <$> ticks d i 0 reads.*1, t1) /\ foldr Z.add 0 (ticks d i 0 reads.*1) = expirations d i (last_time now reads.*1) /\
    forall later, last_time now reads.*1 <= later < 2 ^ 61 -> timer_signaled later t1 = (expirations d i (last_time now reads.*1) <? expirations d i later).
Proof.
  intros Hn Hv Hi Hpos Ha Hf d i. destruct (settime_ok t new_value false now Hn Hv Hi) as [old E]. destruct (timespec_duration _ Hv) as [_ Rv], (timespec_duration _ Hi) as [_ Ri].
  rewrite (proj2 (Z.eqb_neq (duration_of (it_value new_value)) 0)) in E by lia. fold d i in E. set (t0 := {| armed := Some d; current_deadline := d; interval := i |}) in E. exists old, t0.
  assert (E0 : expirations d i now = 0) by (unfold expirations; by rewrite (proj2 (Z.ltb_lt _ _)) by (unfold d; lia)).
  assert (T0 : timer_at d i (expirations d i now) t0) by (rewrite E0; split_and!; [done|lia|]; rewrite decide_False by lia; cbn; split; [lia|done]).
  assert (Hok : forall x, 0 <= x < 2 ^ 61 -> time_ok d i x) by (intros x Hx; unfold time_ok, d, i; lia).
  assert (Hreads : Forall (fun r => time_ok d i r.1 /\ vector_ok r.2) reads).
  { assert (H := ascending_all _ _ Ha). rewrite Forall_fmap in H. apply Forall_forall. intros r Hr. rewrite Forall_forall in H. rewrite Forall_forall in Hf. destruct (Hf r Hr) as [H1 H2]. split; [|done]. apply Hok. specialize (H r Hr). cbn in H. lia. }
  destruct (reads_ok d i reads now t0 (Hok now ltac:(lia)) Ha Hreads T0) as (t1 & E1 & T1 & Hsum & Hl & Hl2). rewrite E0 in E1, Hsum. exists t1. split_and!; [exact E|exact E1|lia|].
  intros later Hlater. assert (Hvec : vector_ok [replicate 8 0]) by (unfold vector_ok; vm_compute; split; [by intros [=]|done]).
  destruct (timer_read d i _ later [replicate 8 0] t1 (Hok later ltac:(unfold time_ok in Hl2; lia)) Hvec T1) as (t2 & _ & _ & Hsig); [apply expirations_mono; [unfold i; lia|lia]|]. exact Hsig.
Qed.

(** ** Reading the time back *)

Definition spec_of (duration : Z) : timespec := {| tv_sec := Z.quot duration ZX_SEC; tv_nsec := Z.rem duration ZX_SEC |}.

Lemma to_timespec duration : duration_to_timespec duration = spec_of duration.
Proof. unfold duration_to_timespec, spec_of. by rewrite duration_div_exact, duration_mod_exact by (unfold ZX_SEC; lia). Qed.

(** A timespec whose nanoseconds are less than a second is the one of its duration. *)
Lemma spec_of_duration s : timespec_ok s -> tv_nsec s < ZX_SEC -> spec_of (duration_of s) = s.
Proof.
  intros (H1 & H2 & _) H3. unfold spec_of, duration_of, ZX_SEC in *. destruct s as [sec nsec]; cbn [tv_sec tv_nsec] in *. rewrite Z.quot_div_nonneg, Z.rem_mod_nonneg by lia.
  rewrite Z.add_comm. rewrite Z.div_add, Z.mod_add by lia. rewrite Z.div_small, Z.mod_small by lia. done.
Qed.

(** C24. What gettime says of a timer that was set and not read.  The interval is the one that
    was set, and the value is the time that is left: at first the value that was set.  After
    the deadline it is zero for a timer without an interval, but the negative time since the
    deadline for one with an interval; and for a timer that was disarmed with an interval it
    is the negative of the time of the clock. *)
Theorem gettime_correct t new_value now later : 0 < now <= later -> later < 2 ^ 60 -> timespec_ok (it_value new_value) -> timespec_ok (it_interval new_value) ->
  tv_nsec (it_value new_value) < ZX_SEC -> tv_nsec (it_interval new_value) < ZX_SEC ->
  let v := duration_of (it_value new_value) in
  let i := duration_of (it_interval new_value) in
  exists old t0, timerfd_settime (Some (Some t)) 0 new_value true now 0 = inl (old, t0) /\
    timerfd_gettime (Some (Some t0)) later = inl {| it_value := spec_of (if v =? 0 then if i =? 0 then 0 else - later else if i =? 0 then Z.max 0 (now + v - later) else now + v - later);
                                                    it_interval := it_interval new_value |} /\
    (later = now -> 0 < v -> spec_of (now + v - later) = it_value new_value).
Proof.
  intros Hn Hl Hv Hi Hv2 Hi2 v i. destruct (settime_ok t new_value true now ltac:(lia) Hv Hi) as [old E]. destruct (timespec_duration _ Hv) as [_ Rv], (timespec_duration _ Hi) as [_ Ri]. fold v i in E, Rv, Ri |- *.
  do 2 eexists. split; [exact E|]. split.
  - unfold timerfd_gettime, fdio_timer_get_current_timespec. cbn [interval current_deadline]. do 2 f_equal.
    + destruct (Z.eqb_spec v 0) as [Ev|Ev], (Z.eqb_spec i 0) as [Ei|Ei]; cbn [andb].
      * rewrite (proj2 (Z.leb_le 0 later)) by lia. apply to_timespec.
      * rewrite time_sub_exact by (unfold in_int64, INT64_MAX; lia). rewrite to_timespec. f_equal.
      * destruct (Z.leb_spec (now + v) later); [rewrite to_timespec; f_equal; lia|]. rewrite time_sub_exact by (unfold in_int64, INT64_MAX; lia). rewrite to_timespec. f_equal. lia.
      * rewrite time_sub_exact by (unfold in_int64, INT64_MAX; lia). by rewrite to_timespec.
    + rewrite to_timespec. by apply spec_of_duration.
  - intros -> Hpos. replace (now + v - now) with v by lia. by apply spec_of_duration.
Qed.
End Timers.

(** ** Witnesses *)

Definition example_abi : EventAbi := {|
  kSignalReadable := 2 ^ 24; kSignalWritable := 2 ^ 26; ZXIO_SIGNAL_READABLE := 4; ZXIO_SIGNAL_WRITABLE := 8;
  EFD_CLOEXEC := 2 ^ 19; EFD_NONBLOCK := 2 ^ 11; EFD_SEMAPHORE := 1; IOFLAG_CLOEXEC := 1; IOFLAG_NONBLOCK := 32;
  ZX_TIMER_SIGNALED := 8; TFD_CLOEXEC := 2 ^ 19; TFD_NONBLOCK := 2 ^ 11 |}.
#[export] Instance example_abi_laws : EventAbiLaws example_abi.
Proof. split; [by exists 24|by exists 26|done]. Qed.

(** Arithmetic that saturates. *)
Definition saturated (x : Z) : Z := Z.max (- 2 ^ 63) (Z.min INT64_MAX x).
Definition saturating : ZxTime := {|
  time_add t d := saturated (t + d); time_sub t u := saturated (t - u); duration_add d e := saturated (d + e); duration_mul d n := saturated (d * n);
  duration_div := Z.quot; duration_mod := Z.rem; deadline_after now d := saturated (now + d) |}.
#[export] Instance saturating_laws : ZxTimeLaws saturating.
Proof. split; cbn [time_add time_sub duration_add duration_mul duration_div duration_mod deadline_after saturating]; unfold in_int64, saturated; intros; try done; lia. Qed.

Definition event_example : list event_op := [
  EventWrite [le_split 8 3]; EventRead [replicate 3 0; replicate 6 0]; EventWrite [le_split 8 (2 ^ 64 - 2)]; EventRead [replicate 8 0]; EventRead [replicate 7 0];
  EventWrite [le_split 8 (2 ^ 64 - 1)]].
Lemma event_example_ok : Forall op_ok event_example.
Proof.
  assert (H : forall op, forallb (fun b => (0 <=? b) && (b <? 256)) (bytes_of (op_vector op)) = true -> (len (bytes_of (op_vector op)) <? 2 ^ 64) = true -> op_ok op).
  { intros op H1 H2. split; [|by apply Z.ltb_lt]. apply Forall_forall. intros b Hb. rewrite forallb_forall in H1. specialize (H1 b ltac:(by apply list_elem_of_In)). apply andb_true_iff in H1 as [H1 H3]. apply Z.leb_le in H1. apply Z.ltb_lt in H3. unfold byte_ok. lia. }
  repeat (constructor; [apply H; vm_compute; reflexivity|]). constructor.
Qed.

(** The first read takes two and three, the next the number that did not fit before. *)
Lemma eventfd_refines_witness : exists ioflag e0 e, @eventfd example_abi 2 0 0 0 (Some 5) = inl (5, ioflag, e0) /\
  @run_ops fdio_event (@do_event example_abi) event_example e0 =
    ([Accepted 3; Returned 5; Accepted (2 ^ 64 - 2); Returned (2 ^ 64 - 2); Refused ERR_BUFFER_TOO_SMALL; Refused ERR_INVALID_ARGS], e) /\ value e = 0.
Proof.
  destruct (@eventfd_refines example_abi example_abi_laws 2 0 5 event_example ltac:(lia) eq_refl event_example_ok) as (ioflag & e0 & e & H1 & H2 & H3 & _). exists ioflag, e0, e. split_and!; [exact H1|rewrite H2; f_equal; vm_compute; reflexivity|].
  match type of H3 with _ + ?a = ?b + _ => replace a with (2 ^ 64 + 1) in H3 by (vm_compute; reflexivity); replace b with (2 ^ 64 + 3) in H3 by (vm_compute; reflexivity) end. lia.
Defined.

Definition second : timespec := {| tv_sec := 1; tv_nsec := 0 |}.

(** A timer of a second that is read after half a second, after three and a half, and then
    again at once. *)
Lemma timerfd_counts_witness : exists old t0 t1,
  @timerfd_settime saturating (Some (Some {| armed := None; current_deadline := 0; interval := 0 |})) 0 {| it_value := second; it_interval := second |} false 1000 0 = inl (old, t0) /\
  @run_reads saturating [(500001000, [replicate 8 0]); (3500001000, [replicate 8 0]); (3500001001, [replicate 8 0])] t0 = ([Some 0; Some 3; Some 0], t1) /\ timer_signaled 4000001000 t1 = true.
Proof.
  assert (Hs : timespec_ok second) by (unfold timespec_ok; vm_compute; done).
  assert (Hf : Forall (fun r => r.1 < 2 ^ 61 /\ vector_ok r.2) [(500001000, [replicate 8 0]); (3500001000, [replicate 8 0]); (3500001001, [replicate 8 0])]) by (repeat constructor; vm_compute; done).
  destruct (@timerfd_counts saturating saturating_laws {| armed := None; current_deadline := 0; interval := 0 |} {| it_value := second; it_interval := second |} 1000 [(500001000, [replicate 8 0]); (3500001000, [replicate 8 0]); (3500001001, [replicate 8 0])]
    ltac:(lia) Hs Hs ltac:(vm_compute; reflexivity) ltac:(cbn; lia) Hf) as (old & t0 & t1 & H1 & H2 & _ & H4).
  exists old, t0, t1. split_and!; [exact H1|exact H2|]. rewrite H4 by (vm_compute; done). vm_compute. reflexivity.
Defined.

(** A timer that was disarmed with an interval. *)
Lemma gettime_correct_witness : exists old t0,
  @timerfd_settime saturating (Some (Some {| armed := None; current_deadline := 0; interval := 0 |})) 0 {| it_value := {| tv_sec := 0; tv_nsec := 0 |}; it_interval := second |} true 1000 0 = inl (old, t0) /\
  @timerfd_gettime saturating (Some (Some t0)) 2000000000 = inl {| it_value := {| tv_sec := -2; tv_nsec := 0 |}; it_interval := second |}.
Proof.
  assert (Hs : timespec_ok second) by (unfold timespec_ok; vm_compute; done). assert (Hz : timespec_ok {| tv_sec := 0; tv_nsec := 0 |}) by (unfold timespec_ok; vm_compute; done).
  destruct (@gettime_correct saturating saturating_laws {| armed := None; current_deadline := 0; interval := 0 |} {| it_value := {| tv_sec := 0; tv_nsec := 0 |}; it_interval := second |} 1000 2000000000
    ltac:(lia) ltac:(lia) Hz Hs ltac:(vm_compute; reflexivity) ltac:(vm_compute; reflexivity)) as (old & t0 & H1 & H2 & _). exists old, t0. split; [exact H1|exact H2].
Defined.
